(* ===== verification/_CoqProject ===== *)
-Q . S2P
Prelude.v
Handles.v
ObjectKey.v
Context.v
RingQueue.v
OwnedTable.v
KeyedTable.v
GenTable.v
EventFd.v
UnixAddress.v
TimerFd.v
Pipe.v
Signal.v
SignalFd.v
MemFd.v
UnixDgram.v
Epoll.v
Lifecycle.v
Scheduling.v
Futex.v
OpenFlags.v
FdTable.v
FdRefs.v
FdTrace.v
FdNames.v
Socket.v
SocketStream.v
SocketTrace.v
SocketRun.v
Sums.v
ExactNtt.v
ExactNttProofs.v
Iova.v
IovaProofs.v
RevTape.v
UserMemory.v
UserMemoryProofs.v
FrameAlloc.v
FrameAllocProofs.v
Wp.v
AddressSpace.v
PageTree.v
SpaceInv.v
DirectMap.v
SpaceSteps.v
SpaceBase.v
SpacePages.v
SpaceShared.v
SpaceOps.v
SpaceHeap.v
SpaceProtect.v
SpaceEnd.v
SpaceStage.v
SpaceStack.v
SpaceBoot.v
SpaceArgs.v
SpaceRun.v
UserSpace.v
