(* ===== verification/Prelude.v ===== *)
(** * The Arach kernel: processes, memory and the Linux surface

    This library models the part of the Arach kernel that runs Linux user
    processes: their scheduling, their address spaces, the physical memory
    under them, and the kernel objects they reach through system calls. It
    proves what each part promises. The sources are the Rust files under
    src/src/ and src/core/abyss/src/. Nearly all of them keep their state in
    fixed-size tables behind spin locks, so an operation of a table is one
    transition of the model and a concurrent run is a sequence of transitions.
    Where a source releases its lock in the middle of a call, the model has a
    transition per critical section; [publish_current] of process/lifecycle.rs
    alone, which stores the identity it has just checked right after it releases
    the table, is one transition.

    ** Files

    - [Prelude]: results, the state-and-error monad with its [m_unfold],
      checked arithmetic at the widths of the source, tables as lists, and
      the lemmas the components share. [Wp]: postconditions of computations in
      that monad. [Sums]: finite sums and congruence.
    - [Handles]: process handles, descriptor ranges, and handles that pack a
      slot index with a generation. [ObjectKey], [UnixAddress], [OpenFlags]:
      names of open objects, socket addresses and open flags.
    - [Context]: process/context.rs, saved registers, dispatch contexts and
      return authorities with their validation.
    - [RingQueue]: ring buffers as lists.
    - [OwnedTable], [KeyedTable], [GenTable]: interfaces (type classes) of the
      three kinds of slot table, with the lemmas the descriptor components
      share.
    - [EventFd], [TimerFd], [Pipe], [Signal], [SignalFd], [MemFd],
      [UnixDgram], [Epoll]: one file per linux_*.rs of the same name.
    - [Lifecycle] and [Scheduling]: process/lifecycle.rs. The first has every
      operation with its closed forms and the invariant, the second the
      theorems about runs.
    - [Futex]: linux_futex.rs over the lifecycle.
    - [FdTable]: linux_fd.rs, one definition per critical section of the
      descriptor registry. [FdRefs] has the exactness of its counts, [FdTrace]
      arbitrary interleavings of sections, [FdNames] what descriptors name.
    - [Socket]: linux_socket.rs. [SocketStream] relates one direction of a
      connection to a queue; [SocketTrace] and [SocketRun] are about sequences
      of operations.
    - [FrameAlloc], [FrameAllocProofs]: core/abyss/src/frame.rs, the bitmap
      allocator of physical frames.
    - [AddressSpace]: process/x86_64.rs, the pool of user address spaces over
      the class [FrameMemory], the source's trait [ProcessFrameMemory].
      [PageTree] has page tables as trees, [SpaceInv] the laws of physical
      memory and the invariant. [SpaceSteps], [SpacePages] and [SpaceShared]
      have the primitive steps, the loops over pages and the shared objects;
      [SpaceBase], [SpaceOps], [SpaceHeap], [SpaceProtect], [SpaceEnd],
      [SpaceStage] and [SpaceStack] one group of operations each. [SpaceBoot] has
      the pages that the first process gets at boot, three of them of the kernel
      image; the class [KernelFrames] names the frames of the image that may be
      shown. [SpaceArgs] has the contents of the initial stack. [SpaceRun]
      composes the operations to runs.
    - [DirectMap]: [DirectMapFrameMemory] of process/x86_64.rs over
      [FrameAlloc]; it is an instance of the laws in [SpaceInv].
    - [UserMemory], [UserMemoryProofs]: the page walk and the user copies of
      syscalls.rs over any physical memory. [UserSpace]: the same through the
      page tables of the processes of [SpaceRun], over the direct map.
    - [Iova], [IovaProofs]: hw/iova.rs, leases of device addresses.
    - [ExactNtt], [ExactNttProofs]: certified_math/exact_ntt.rs.
    - [RevTape]: rev_tape.rs.

    ** Data

    Machine integers are [Z] with the width's bounds written out:
    [checked_add U64_MAX], saturation, wrap-around where the source wraps.
    Table indices are [nat]. A table is a list of its fixed length; a lookup
    out of range gives the default slot, which no operation reaches. A
    fallible operation is a function to [Result] and a new state, and on an
    error path the state is the one the source leaves behind. Code outside
    the modelled files is a parameter: the memory manager behind a memfd
    ([SharedMemory]), the readiness of watched objects ([ReadinessWorld]), the
    user word a futex compares. Page tables are entries of 64 bits in frames
    of physical memory; [DirectMap] has that memory as bytes.

    ** Theorems

    - Processes ([Scheduling]): exactly one process runs and it is the
      published one; slots follow the process state machine; the latest
      decision is the only accepted return authority; round-robin dispatch is
      fair; the handles of processes other than init are not reused; exit
      statuses arrive once; group exit. [lifecycle_orphaned_thread_group] shows a
      run in which a thread can no longer end its group,
      [lifecycle_group_exit_restates] and [lifecycle_init_handle_returns] show
      what the exceptions are for: a group exit rewrites the status of a zombie
      of its group, and init's handle comes back when init is registered anew.
    - Address spaces ([SpaceRun]): under any interleaving of operations with
      what programs, processor and other kernel code do to memory, no page is
      writable and executable, no process maps a page table, and frames are
      shared only through shared objects or as frames of the kernel image; no
      operation touches another process's mappings; mmap, munmap, mprotect, brk
      and release do exactly what they are asked, for live handles only, or
      change no mapping. [mprotect_tail_refused] and [mprotect_none_final] show
      two requests that the code refuses.
    - Physical memory: the frame allocator refines a set of free frames, and
      the set at boot is given exactly, for any reservations; in every reachable
      state of the address spaces user copies change only what the process
      itself may write, hence no page table and no page of another process that
      is not shared, and what they wrote reads back where no page of the range
      is mapped twice. [prepared_stack] is a stack as its process reads it.
    - Futexes: the waiter table refines a queue; sleepers and queued waiters
      coincide over all runs; a wake terminates and readies the longest
      waiting processes; every branch of a wait.
    - Descriptors: counts of open objects are exact over all interleavings,
      objects are finalized once and not under a lease, and descriptors change
      by their process's calls only. Stream sockets deliver bytes and
      descriptor transfers in order, without loss or duplication. An eventfd
      conserves its count; a timerfd's closed form equals one expiration at a
      time; pipes and datagram queues deliver exactly what was accepted, in
      order; epoll reports exactly the due watches and loses no edge; signals
      are delivered as one pass over the numbers prescribes; a memfd's two
      records of its size agree, except in the interleaving of
      [memfd_truncate_race].
    - Device address leases are disjoint, first fit, and stale for good once
      released; the spectral convolution is exact; the tape is a transaction.

    ** Bounds and fuel

    Table sizes are those of the source; those that depend on [cfg!(test)] are
    a [Config]. Loops over tables are structural. The others count their
    rounds: signal delivery (every round clears a pending bit), the PID
    allocator (one candidate per slot plus one, by pigeonhole), the futex wake
    (every round removes a waiter), the searches for an I/O range, for a run of
    frames and for room in an address space (every round passes an obstacle),
    the user copies and the copies into an image and a stack (every round moves
    a byte at least), and the power of a residue (64 bits). For each the rounds are shown
    to suffice.

    ** Not modelled

    Assembly, device registers and the switch of address spaces are effects of
    hardware the sources only drive. Lock acquisition is not modelled beyond
    the atomicity of critical sections, nor are the compile-time layout
    checks. Of process/x86_64.rs the comparison of staged contents is left out,
    and that each process's stack is prepared once, as its callers do, is a
    condition of the runs. The laws of [SpaceInv] let an allocation fail, but no access to a
    frame that is allocated, as is the case on the direct map; so the branches
    that undo a failed write are in the model, and are not taken in the
    theorems. System-call decoding is modelled only where it composes the
    futex table with the lifecycle. Robust lists, files and mounts, image
    loading, partition tables, TCP reassembly, device drivers and the advisory
    policy modules have no model. *)

From stdpp Require Import prelude list numbers option.
From Stdlib Require Import ZArith Lia.

#[global] Open Scope Z_scope.

(** ** Results

    The two constructors of Rust's [Result]. *)

Inductive Result (A E : Type) : Type :=
| Ok (a : A)
| Err (e : E).
Arguments Ok {A E} a.
Arguments Err {A E} e.

#[global] Instance Result_eq_dec {A E} `{EqDecision A, EqDecision E} :
  EqDecision (Result A E).
Proof. solve_decision. Defined.

Definition map_err {A E F} (f : E → F) (r : Result A E) : Result A F :=
  match r with Ok a => Ok a | Err e => Err (f e) end.

Definition is_ok {A E} (r : Result A E) : bool :=
  match r with Ok _ => true | Err _ => false end.

(** ** The state-and-error monad

    A kernel operation runs with a lock held on some state [S]: it returns a
    [Result] and leaves a state behind, on the error paths too. *)

Definition M (S E A : Type) : Type := S → Result A E * S.

Section Monad.
Context {S E : Type}.

#[global] Instance M_ret : MRet (M S E) := λ A a s, (Ok a, s).
#[global] Instance M_bind : MBind (M S E) := λ A B k m s,
  match m s with
  | (Ok a, s') => k a s'
  | (Err e, s') => (Err e, s')
  end.

Definition throw {A} (e : E) : M S E A := λ s, (Err e, s).
Definition getS : M S E S := λ s, (Ok s, s).
Definition putS (s : S) : M S E unit := λ _, (Ok tt, s).
Definition modifyS (f : S → S) : M S E unit := λ s, (Ok tt, f s).
(** A call that cannot fail. *)
Definition liftS {A} (f : S → A * S) : M S E A := λ s, let '(a, s') := f s in (Ok a, s').
(** [option.ok_or(e)?] *)
Definition ok_or {A} (o : option A) (e : E) : M S E A :=
  match o with Some a => mret a | None => throw e end.
(** [result?] *)
Definition of_result {A} (r : Result A E) : M S E A := λ s, (r, s).
(** [if !b { return Err(e) }] *)
Definition ensure (b : bool) (e : E) : M S E unit :=
  if b then mret tt else throw e.
End Monad.

(** Runs an operation of a component on the component's part of a larger
    state, translating its errors. *)
Definition zoom {W S E F A} (get : W → S) (set : S → W → W) (f : E → F)
    (m : M S E A) : M W F A :=
  λ w, let '(r, s') := m (get w) in (map_err f r, set s' w).

Ltac m_unfold :=
  cbv [mbind M_bind mret M_ret throw getS putS modifyS liftS ok_or of_result ensure zoom] in *.

(** Splits every conditional and match of an unfolded operation, keeping the
    equations, and simplifies. *)
Ltac m_cases :=
  repeat (case_match; simplify_eq/=).

(** An operation keeps [I]: whatever it returns, the state it leaves
    satisfies [I] when the state it started from did. *)
Definition preserves {S E A} (I : S → Prop) (m : M S E A) : Prop :=
  ∀ s, I s → I (m s).2.

(** A failing run changes nothing. *)
Definition atomic_on_error {S E A} (m : M S E A) : Prop :=
  ∀ s e s', m s = (Err e, s') → s' = s.

(** ** Machine integers

    An unsigned integer of width [w] is a [Z] between 0 and [2^w - 1]; [usize]
    values that index or measure the fixed arrays are [nat]. *)

Definition U8_MAX : Z := 255.
Definition U16_MAX : Z := 65535.
Definition U32_MAX : Z := 4294967295.
Definition U64_MAX : Z := 18446744073709551615.

Definition is_u8 (z : Z) : Prop := 0 ≤ z ≤ U8_MAX.
Definition is_u16 (z : Z) : Prop := 0 ≤ z ≤ U16_MAX.
Definition is_u32 (z : Z) : Prop := 0 ≤ z ≤ U32_MAX.
Definition is_u64 (z : Z) : Prop := 0 ≤ z ≤ U64_MAX.

(** [a.checked_add(b)] at the type whose maximum is [max]. *)
Definition checked_add (max a b : Z) : option Z :=
  if a + b <=? max then Some (a + b) else None.
(** [a.wrapping_add(b)] *)
Definition wrapping_add (max a b : Z) : Z := (a + b) mod (max + 1).
(** [a.saturating_add(b)], [a.saturating_mul(b)] *)
Definition saturating_add (max a b : Z) : Z := Z.min max (a + b).
Definition saturating_mul (max a b : Z) : Z := Z.min max (a * b).
(** [a.checked_sub(b)] *)
Definition checked_sub (a b : Z) : option Z :=
  if b <=? a then Some (a - b) else None.
(** [a & !b]: the bits of [a] that are not in [b]. *)
Definition and_not (a b : Z) : Z := Z.ldiff a b.
(** [u64::from(b)] and the like. *)
Definition z_of_bool (b : bool) : Z := if b then 1 else 0.

Lemma wrapping_add_range max a b : 0 ≤ max → 0 ≤ wrapping_add max a b ≤ max.
Proof.
  intros. unfold wrapping_add.
  pose proof (Z.mod_pos_bound (a + b) (max + 1)). lia.
Qed.

Lemma wrapping_add_1_ne max a :
  0 < max → 0 ≤ a ≤ max → wrapping_add max a 1 ≠ a.
Proof.
  intros Hm Ha. unfold wrapping_add.
  destruct (decide (a = max)) as [->|].
  - rewrite Z.mod_same by lia. lia.
  - rewrite Z.mod_small by lia. lia.
Qed.

Lemma checked_add_Some max a b c :
  checked_add max a b = Some c ↔ c = a + b ∧ a + b ≤ max.
Proof.
  unfold checked_add. destruct (Z.leb_spec (a + b) max).
  - split; [by intros [= <-]|by intros [-> _]].
  - split; [done|lia].
Qed.

Lemma checked_add_None max a b :
  checked_add max a b = None ↔ max < a + b.
Proof. unfold checked_add. destruct (Z.leb_spec (a + b) max); split; (done || lia). Qed.

Lemma land_ones_range a b n :
  0 ≤ n → 0 ≤ a → 0 ≤ b < 2 ^ n → 0 ≤ Z.land a b < 2 ^ n.
Proof.
  intros Hn Ha [Hb0 Hb]. split; [apply Z.land_nonneg; lia|].
  rewrite <- (Z.mod_small b (2 ^ n)) by lia.
  rewrite <- Z.land_ones, Z.land_assoc, Z.land_ones by lia.
  apply Z.mod_pos_bound. lia.
Qed.

(** A flag word that passes [flags & !ALLOWED == 0] has only allowed bits. *)
(** Packing a field below a shifted one is addition. *)
Lemma lor_shiftl_sum g p n : 0 ≤ n → 0 ≤ p < 2 ^ n → Z.lor (Z.shiftl g n) p = g * 2 ^ n + p.
Proof.
  intros Hn Hp. rewrite <- (Z.mod_small p (2 ^ n)) by lia.
  rewrite <- Z.shiftl_mul_pow2, <- Z.land_ones by lia.
  rewrite <- Z.lxor_lor, Z.add_nocarry_lxor; [done|..];
    apply Z.bits_inj'; intros m Hm;
    rewrite !Z.land_spec, Z.bits_0, Z.testbit_ones_nonneg by lia;
    destruct (Z.ltb_spec m n);
    rewrite ?Z.shiftl_spec_low by lia; by rewrite ?andb_false_r.
Qed.

Lemma and_not_zero_testbit flags allowed n :
  and_not flags allowed = 0 → Z.testbit flags n = true → Z.testbit allowed n = true.
Proof.
  unfold and_not. intros H Hn.
  destruct (Z.testbit allowed n) eqn:E; [done|].
  assert (Z.testbit (Z.ldiff flags allowed) n = true) as H1.
  { rewrite Z.ldiff_spec, Hn, E. done. }
  by rewrite H, Z.bits_0 in H1.
Qed.

(** [trailing_zeros] of a non-zero word. *)
Fixpoint pos_trailing_zeros (p : positive) : nat :=
  match p with xO q => S (pos_trailing_zeros q) | _ => O end.
Definition trailing_zeros (width z : Z) : Z :=
  match z with Zpos p => Z.of_nat (pos_trailing_zeros p) | _ => width end.

Lemma trailing_zeros_nonneg width z : 0 ≤ width → 0 ≤ trailing_zeros width z.
Proof. destruct z; simpl; lia. Qed.

Lemma trailing_zeros_testbit width z :
  0 < z → Z.testbit z (trailing_zeros width z) = true.
Proof.
  destruct z as [|p|p]; intros H; try lia. unfold trailing_zeros.
  induction p as [p IH|p IH|]; simpl pos_trailing_zeros; [done| |done].
  rewrite Nat2Z.inj_succ, Pos2Z.inj_xO, Z.testbit_even_succ by lia.
  apply IH. lia.
Qed.

Lemma trailing_zeros_below width z n :
  0 < z → n < trailing_zeros width z → Z.testbit z n = false.
Proof.
  destruct z as [|p|p]; intros H; try lia. unfold trailing_zeros.
  revert n. induction p as [p IH|p IH|]; simpl pos_trailing_zeros; intros n Hn.
  - apply Z.testbit_neg_r. lia.
  - destruct (decide (n < 0)); [apply Z.testbit_neg_r; lia|].
    destruct (decide (n = 0)) as [->|]; [by rewrite Z.bit0_odd|].
    rewrite <- (Z.succ_pred n), Pos2Z.inj_xO, Z.testbit_even_succ by lia.
    apply IH; lia.
  - apply Z.testbit_neg_r. lia.
Qed.

Lemma testbit_lt_log2 z n w :
  0 ≤ z < 2 ^ w → 0 ≤ w → Z.testbit z n = true → n < w.
Proof.
  intros Hz Hw Hn. destruct (decide (n < w)) as [|Hge]; [done|].
  rewrite <- (Z.mod_small z (2 ^ w)), Z.mod_pow2_bits_high in Hn by lia. done.
Qed.

Lemma trailing_zeros_lt w z :
  0 ≤ w → 0 < z < 2 ^ w → trailing_zeros w z < w.
Proof.
  intros. eapply (testbit_lt_log2 z); [lia|lia|]. apply trailing_zeros_testbit. lia.
Qed.

(** A [u64] is a non-negative number without bits from 64 on; the bitwise
    operators stay in range. *)
Lemma is_u64_bits z :
  is_u64 z ↔ 0 ≤ z ∧ ∀ n, 64 ≤ n → Z.testbit z n = false.
Proof.
  assert (is_u64 z ↔ 0 ≤ z < 2 ^ 64) as -> by (unfold is_u64, U64_MAX; lia).
  split.
  - intros Hz. split; [lia|]. intros n Hn. destruct (Z.testbit z n) eqn:E; [|done].
    pose proof (testbit_lt_log2 z n 64 Hz ltac:(lia) E). lia.
  - intros [Hz Hb]. split; [done|]. destruct (decide (z = 0)) as [->|]; [lia|].
    destruct (decide (64 ≤ Z.log2 z)) as [Hl|Hl].
    + specialize (Hb _ Hl). rewrite Z.bit_log2 in Hb by lia. done.
    + apply Z.log2_lt_pow2; lia.
Qed.

Lemma is_u64_lor a b : is_u64 a → is_u64 b → is_u64 (Z.lor a b).
Proof.
  rewrite !is_u64_bits. intros [? Ha] [? Hb]. split; [apply Z.lor_nonneg; lia|].
  intros n Hn. by rewrite Z.lor_spec, Ha, Hb.
Qed.

Lemma is_u64_and_not a b : is_u64 a → 0 ≤ b → is_u64 (and_not a b).
Proof.
  unfold and_not. rewrite !is_u64_bits. intros [? Ha] Hb. split; [apply Z.ldiff_nonneg; lia|].
  intros n Hn. by rewrite Z.ldiff_spec, Ha.
Qed.

Lemma is_u64_land a b : is_u64 a → is_u64 (Z.land a b).
Proof.
  rewrite !is_u64_bits. intros [? Ha]. split; [apply Z.land_nonneg; lia|].
  intros n Hn. by rewrite Z.land_spec, Ha.
Qed.

(** A non-zero word has a bit set. *)
Lemma zero_by_bits z : (∀ n, 0 ≤ n → Z.testbit z n = false) → z = 0.
Proof. intros H. apply Z.bits_inj'. intros n Hn. by rewrite H, Z.bits_0. Qed.

(** ** Fixed arrays *)

(** [iter().position(p)]: the first index whose element satisfies [p]. *)
Fixpoint position {A} (p : A → bool) (l : list A) : option nat :=
  match l with
  | [] => None
  | x :: l => if p x then Some O else S <$> position p l
  end.

(** [iter().filter(p).count()] *)
Fixpoint countb {A} (p : A → bool) (l : list A) : nat :=
  match l with
  | [] => O
  | x :: l => if p x then S (countb p l) else countb p l
  end.

(** The indices [iter().enumerate().filter(p).map(|(i, _)| i)] yields. *)
Fixpoint indices_from {A} (p : A → bool) (k : nat) (l : list A) : list nat :=
  match l with
  | [] => []
  | x :: l => if p x then k :: indices_from p (S k) l else indices_from p (S k) l
  end.
Abbreviation indices p l := (indices_from p O l).

(** [for slot in table.iter_mut() { if p(slot) { *slot = f(slot) } }] *)
Definition update_where {A} (p : A → bool) (f : A → A) (l : list A) : list A :=
  (λ x, if p x then f x else x) <$> l.

Section Arrays.
Context {A : Type}.
Implicit Types (p : A → bool) (l : list A).

Lemma position_Some p l i :
  position p l = Some i ↔
  ∃ x, l !! i = Some x ∧ p x = true ∧
    ∀ j y, (j < i)%nat → l !! j = Some y → p y = false.
Proof.
  revert i. induction l as [|x l IH]; intros i; simpl.
  { split; [done|]. intros (x & Hx & _). by rewrite lookup_nil in Hx. }
  destruct (p x) eqn:Hp.
  - split.
    + intros [= <-]. exists x. split_and!; [done..|]. intros; lia.
    + intros (y & Hy & Hpy & Hlt). destruct i as [|i]; [done|].
      specialize (Hlt O x ltac:(lia) eq_refl). congruence.
  - rewrite fmap_Some. split.
    + intros (k & Hk & ->). apply IH in Hk as (y & Hy & Hpy & Hlt).
      exists y. split_and!; [done..|]. intros [|j] z Hj Hz; simplify_eq/=; [done|].
      eapply Hlt; [|done]. lia.
    + intros (y & Hy & Hpy & Hlt). destruct i as [|i]; simplify_eq/=; [congruence|].
      exists i. split; [|done]. apply IH. exists y. split_and!; [done..|].
      intros j z Hj Hz. apply (Hlt (S j) z); [lia|done].
Qed.

Lemma position_lookup p l i :
  position p l = Some i → ∃ x, l !! i = Some x ∧ p x = true.
Proof. intros (x & ? & ? & _)%position_Some. eauto. Qed.

Lemma position_None p l :
  position p l = None ↔ ∀ i x, l !! i = Some x → p x = false.
Proof.
  induction l as [|x l IH]; simpl.
  { split; [|done]. intros _ i x Hx. by rewrite lookup_nil in Hx. }
  destruct (p x) eqn:Hp.
  - split; [done|]. intros H. specialize (H O x eq_refl). congruence.
  - rewrite fmap_None, IH. split.
    + intros H [|i] y Hy; simplify_eq/=; eauto.
    + intros H i y Hy. apply (H (S i) y Hy).
Qed.

Lemma position_lt p l i : position p l = Some i → (i < length l)%nat.
Proof. intros (x & Hx & _)%position_Some. by eapply lookup_lt_Some. Qed.

Lemma position_is_Some p l i x :
  l !! i = Some x → p x = true → is_Some (position p l).
Proof.
  intros Hx Hp. destruct (position p l) eqn:E; [eauto|].
  rewrite position_None in E. rewrite (E _ _ Hx) in Hp. done.
Qed.

Lemma countb_app p l1 l2 : countb p (l1 ++ l2) = (countb p l1 + countb p l2)%nat.
Proof. induction l1 as [|x l1 IH]; simpl; [done|]. destruct (p x); lia. Qed.

Lemma countb_le_length p l : (countb p l ≤ length l)%nat.
Proof. induction l as [|x l IH]; simpl; [done|]. destruct (p x); lia. Qed.

Lemma countb_zero p l :
  countb p l = O ↔ ∀ i x, l !! i = Some x → p x = false.
Proof.
  induction l as [|x l IH]; simpl.
  { split; [|done]. intros _ i x Hx. by rewrite lookup_nil in Hx. }
  destruct (p x) eqn:Hp; split.
  - lia.
  - intros H. specialize (H O x eq_refl). congruence.
  - intros H [|i] y Hy; simplify_eq/=; [done|]. eapply IH; eauto.
  - intros H. apply IH. intros i y Hy. apply (H (S i) y Hy).
Qed.

Lemma countb_ext p q l :
  (∀ i x, l !! i = Some x → p x = q x) → countb p l = countb q l.
Proof.
  induction l as [|x l IH]; intros H; simpl; [done|].
  rewrite (H O x eq_refl), IH; [done|]. intros i y Hy. apply (H (S i) y Hy).
Qed.

Lemma countb_pos p l i x :
  l !! i = Some x → p x = true → (0 < countb p l)%nat.
Proof.
  intros Hx Hp. destruct (countb p l) eqn:E; [|lia].
  pose proof (proj1 (countb_zero p l) E i x Hx). congruence.
Qed.

Lemma countb_insert p l i x y :
  l !! i = Some x →
  (countb p (<[i:=y]> l) + Nat.b2n (p x) = countb p l + Nat.b2n (p y))%nat.
Proof.
  revert i. induction l as [|z l IH]; intros [|i] H; simplify_eq/=.
  - destruct (p x), (p y); simpl; lia.
  - specialize (IH i H). destruct (p z); lia.
Qed.

Lemma countb_replicate_false p n x :
  p x = false → countb p (replicate n x) = O.
Proof. intros H. induction n; simpl; [done|]. by rewrite H. Qed.

Lemma lookup_insert_cases l i j x y :
  <[i:=x]> l !! j = Some y →
  (i = j ∧ x = y ∧ (j < length l)%nat) ∨ (i ≠ j ∧ l !! j = Some y).
Proof.
  destruct (decide (i = j)) as [->|Hne].
  - intros H. left. assert (j < length l)%nat as Hlt.
    { apply lookup_lt_Some in H. by rewrite length_insert in H. }
    rewrite list_lookup_insert_eq in H by done. naive_solver.
  - rewrite list_lookup_insert_ne by done. eauto.
Qed.

Lemma alter_insert_eq (f : A → A) l i x : l !! i = Some x → alter f i l = <[i := f x]> l.
Proof.
  intros Hx. apply list_eq. intros j. destruct (decide (i = j)) as [->|].
  - rewrite list_lookup_alter_eq, Hx, list_lookup_insert_eq; [done|by eapply lookup_lt_Some].
  - by rewrite list_lookup_alter_ne, list_lookup_insert_ne.
Qed.

Lemma update_where_length p f l : length (update_where p f l) = length l.
Proof. apply length_fmap. Qed.

Lemma update_where_lookup p f l i :
  update_where p f l !! i = (λ x, if p x then f x else x) <$> l !! i.
Proof. apply list_lookup_fmap. Qed.

Lemma indices_from_elem p k l i :
  i ∈ indices_from p k l ↔
  (k ≤ i)%nat ∧ ∃ x, l !! (i - k)%nat = Some x ∧ p x = true.
Proof.
  revert k. induction l as [|x l IH]; intros k; simpl.
  { split; [by intros ?%elem_of_nil|]. intros (_ & x & Hx & _).
    by rewrite lookup_nil in Hx. }
  destruct (decide (i = k)) as [->|Hne].
  - rewrite Nat.sub_diag. simpl. split.
    + intros H. split; [lia|]. destruct (p x) eqn:Hp; [eauto|].
      apply IH in H. lia.
    + intros (_ & y & [= <-] & ->). left.
  - assert (i ∈ (if p x then k :: indices_from p (S k) l else indices_from p (S k) l)
      ↔ i ∈ indices_from p (S k) l) as ->.
    { destruct (p x); [|done]. rewrite elem_of_cons. tauto. }
    rewrite IH. split; intros [Hk (y & Hy & Hp)]; (split; [lia|]); exists y.
    + by replace (i - k)%nat with (S (i - S k)) by lia.
    + by replace (i - k)%nat with (S (i - S k)) in Hy by lia.
Qed.

Lemma indices_from_NoDup p k l : NoDup (indices_from p k l).
Proof.
  revert k. induction l as [|x l IH]; intros k; simpl; [constructor|].
  destruct (p x); [|done]. constructor; [|done]. intros [? _]%indices_from_elem. lia.
Qed.

Lemma indices_from_sorted p k l i rest :
  indices_from p k l = i :: rest → ∀ j, j ∈ rest → (i < j)%nat.
Proof.
  revert k. induction l as [|x l IH]; intros k; simpl; [done|].
  destruct (p x).
  - intros [= <- <-] j Hj. apply indices_from_elem in Hj. lia.
  - apply IH.
Qed.
End Arrays.

Create Rewrite HintDb arrays.
#[export] Hint Rewrite @length_insert @update_where_length @length_replicate : arrays.

(** [table[index]]. The arrays have their declared length (an invariant of
    every component), so an index the code computes is in range; [d] stands
    for the out-of-range read the code never makes. *)
Definition slot_at {A} (d : A) (l : list A) (i : nat) : A := default d (l !! i).

Lemma slot_at_Some {A} (d : A) l i x : l !! i = Some x → slot_at d l i = x.
Proof. unfold slot_at. by intros ->. Qed.

Lemma slot_at_lookup {A} (d : A) l i :
  (i < length l)%nat → l !! i = Some (slot_at d l i).
Proof. intros [x Hx]%lookup_lt_is_Some_2. by rewrite (slot_at_Some d l i x). Qed.

(** ** Searching a range of indices *)

(** [(k..k + n).find(p)] *)
Fixpoint find_range (p : nat → bool) (k n : nat) : option nat :=
  match n with
  | O => None
  | S n => if p k then Some k else find_range p (S k) n
  end.

Lemma find_range_Some p k n i :
  find_range p k n = Some i → (k ≤ i < k + n)%nat ∧ p i = true ∧ ∀ j, (k ≤ j < i)%nat → p j = false.
Proof.
  revert k. induction n as [|n IH]; intros k; simpl; [done|]. destruct (p k) eqn:E.
  - intros [= <-]. split_and!; [lia|lia|done|intros; lia].
  - intros (H1 & H2 & H3)%IH. split_and!; [lia|lia|done|]. intros j Hj.
    destruct (decide (j = k)) as [->|]; [done|]. apply H3. lia.
Qed.

Lemma find_range_None p k n : find_range p k n = None ↔ ∀ j, (k ≤ j < k + n)%nat → p j = false.
Proof.
  revert k. induction n as [|n IH]; intros k; simpl; [split; [intros; lia|done]|]. destruct (p k) eqn:E.
  - split; [done|]. intros H. rewrite H in E; [done|lia].
  - rewrite IH. split; intros H j Hj; [|apply H; lia]. destruct (decide (j = k)) as [->|]; [done|apply H; lia].
Qed.

(** ** Powers of two and alignment *)

(** [is_power_of_two] of the unsigned integers. *)
Definition is_power_of_two (z : Z) : bool := (0 <? z) && (z =? 2 ^ Z.log2 z).

Lemma power_of_two_spec a : is_power_of_two a = true → ∃ k, 0 ≤ k ∧ a = 2 ^ k.
Proof.
  unfold is_power_of_two. intros [H1%Z.ltb_lt H2%Z.eqb_eq]%andb_true_iff. exists (Z.log2 a). split; [apply Z.log2_nonneg|done].
Qed.

(** Rounding up to a multiple of a power of two, with an overflow check. *)
Lemma round_up_spec v k :
  0 ≤ v → 0 ≤ k ≤ 63 →
  match (match checked_add U64_MAX v (2 ^ k - 1) with Some s => Some (and_not s (2 ^ k - 1)) | None => None end) with
  | Some x => (2 ^ k | x) ∧ v ≤ x ≤ U64_MAX ∧ ∀ y, (2 ^ k | y) → v ≤ y → x ≤ y
  | None => ∀ y, (2 ^ k | y) → v ≤ y → U64_MAX < y
  end.
Proof.
  intros Hv Hk. assert (0 < 2 ^ k) as Hpos by lia. assert (2 ^ 64 = 2 ^ (64 - k) * 2 ^ k) as H64.
  { rewrite <- Z.pow_add_r by lia. f_equal. lia. }
  destruct (checked_add U64_MAX v (2 ^ k - 1)) as [s|] eqn:Hs.
  - apply checked_add_Some in Hs as [-> Hs]. unfold and_not.
    replace (2 ^ k - 1) with (Z.ones k) by (rewrite Z.ones_equiv; lia).
    rewrite Z.ldiff_ones_r, Z.shiftl_mul_pow2, Z.shiftr_div_pow2 by lia. rewrite Z.ones_equiv. unfold Z.pred.
    set (n := (v + (2 ^ k + -1)) / 2 ^ k). pose proof (Z.div_mod (v + (2 ^ k + -1)) (2 ^ k) ltac:(lia)) as Hd. fold n in Hd.
    pose proof (Z.mod_pos_bound (v + (2 ^ k + -1)) (2 ^ k) ltac:(lia)). split_and!; [apply Z.divide_factor_r|lia|lia|].
    intros y [q ->] Hy. assert (n ≤ q); [|nia]. assert (n < q + 1); [|lia]. apply (Z.mul_lt_mono_pos_r (2 ^ k)); nia.
  - apply checked_add_None in Hs. intros y [q ->] Hy. unfold U64_MAX in *.
    assert (2 ^ (64 - k) ≤ q); [|nia]. assert (2 ^ (64 - k) < q + 1); [|lia]. apply (Z.mul_lt_mono_pos_r (2 ^ k)); nia.
Qed.
