(* ===== verification/Handles.v ===== *)
(** * Process identities and descriptor handles

    [ProcessHandle] (process/lifecycle.rs) is the exact process generation
    every component binds its slots to. Below it, the two handle schemes the
    backends use: [BASE + index] numbers (eventfd, timerfd, signalfd, epoll)
    and generation-tagged handles (pipe, memfd, Unix datagram). Each backend
    instantiates them with its own constants. *)

From stdpp Require Import prelude list numbers option.
From Stdlib Require Import ZArith Lia.
From S2P Require Import Prelude.

Record ProcessHandle := mkHandle {
  pid : Z;
  generation : Z;
}.

#[global] Instance ProcessHandle_eq_dec : EqDecision ProcessHandle.
Proof. solve_decision. Defined.

(** The size of the lifecycle table, which bounds every per-process table. *)
Definition MAXIMUM_PROCESSES : nat := 64.

(** The handle the empty slots carry. *)
Definition NO_PROCESS : ProcessHandle := mkHandle 0 0.

(** [owner.pid != 0 && owner.generation != 0] *)
Definition valid_owner (owner : ProcessHandle) : bool :=
  negb (pid owner =? 0) && negb (generation owner =? 0).

Definition handle_eqb (a b : ProcessHandle) : bool := bool_decide (a = b).

Lemma handle_eqb_eq a b : handle_eqb a b = true ↔ a = b.
Proof. apply bool_decide_eq_true. Qed.

Lemma handle_eqb_refl a : handle_eqb a a = true.
Proof. by apply handle_eqb_eq. Qed.

Lemma handle_eqb_ne a b : a ≠ b → handle_eqb a b = false.
Proof. intros. by apply bool_decide_eq_false. Qed.

Lemma valid_owner_NO_PROCESS : valid_owner NO_PROCESS = false.
Proof. done. Qed.

(** ** [BASE + index] numbers *)

Definition base_index (base : Z) (size : nat) (fd : Z) : option nat :=
  if fd <? base then None
  else
    let index := Z.to_nat (fd - base) in
    if (index <? size)%nat then Some index else None.

Definition base_fd (base : Z) (index : nat) : Z := base + Z.of_nat index.

Lemma base_index_Some base size fd i :
  base_index base size fd = Some i ↔ fd = base_fd base i ∧ (i < size)%nat.
Proof.
  unfold base_index, base_fd.
  destruct (Z.ltb_spec fd base); [split; [done|]; lia|].
  destruct (Nat.ltb_spec (Z.to_nat (fd - base)) size).
  - split; [intros [= <-]; lia|]. intros [-> ?]. f_equal. lia.
  - split; [done|]. lia.
Qed.

Lemma base_index_fd base size i :
  (i < size)%nat → base_index base size (base_fd base i) = Some i.
Proof. intros. by apply base_index_Some. Qed.

(** ** Generation-tagged handles

    [(generation << bits) | (index + 1)], never zero in either part. *)

Definition encode_handle (bits : Z) (size : nat) (index : nat) (gen : Z) : option Z :=
  if (size <=? index)%nat || (gen =? 0) || (Z.shiftr U32_MAX bits <? gen) then None
  else Some (Z.lor (Z.shiftl gen bits mod 2 ^ 32) (Z.of_nat index + 1)).

Definition decode_handle (bits : Z) (size : nat) (handle : Z) : option (nat * Z) :=
  let encoded_index := Z.land handle (Z.shiftl 1 bits - 1) in
  let gen := Z.shiftr handle bits in
  if (encoded_index =? 0) || (gen =? 0) then None
  else
    let index := Z.to_nat (encoded_index - 1) in
    if (index <? size)%nat then Some (index, gen) else None.

(** [current.checked_add(1).filter(|g| *g <= u32::MAX >> bits)] *)
Definition next_handle_generation (bits : Z) (current : Z) : option Z :=
  match checked_add U32_MAX current 1 with
  | Some g => if g <=? Z.shiftr U32_MAX bits then Some g else None
  | None => None
  end.

Section Width.
Context (bits : Z).
Hypothesis bits_range : 0 < bits < 32.

Lemma shiftr_U32_MAX : Z.shiftr U32_MAX bits = 2 ^ (32 - bits) - 1.
Proof.
  rewrite Z.shiftr_div_pow2 by lia.
  assert (2 ^ 32 = 2 ^ (32 - bits) * 2 ^ bits) as H.
  { rewrite <- Z.pow_add_r by lia. f_equal. lia. }
  unfold U32_MAX. replace 4294967295 with (2 ^ 32 - 1) by done. rewrite H.
  assert (0 < 2 ^ bits) by lia. assert (0 < 2 ^ (32 - bits)) by lia.
  replace (2 ^ (32 - bits) * 2 ^ bits - 1)
    with ((2 ^ (32 - bits) - 1) * 2 ^ bits + (2 ^ bits - 1)) by lia.
  rewrite Z.div_add_l, Z.div_small by lia. lia.
Qed.

Lemma next_handle_generation_Some g g' :
  next_handle_generation bits g = Some g' ↔ g' = g + 1 ∧ g' ≤ 2 ^ (32 - bits) - 1.
Proof.
  unfold next_handle_generation. rewrite shiftr_U32_MAX.
  assert (2 ^ (32 - bits) - 1 ≤ U32_MAX).
  { unfold U32_MAX. replace 4294967295 with (2 ^ 32 - 1) by done.
    pose proof (Z.pow_le_mono_r 2 (32 - bits) 32). lia. }
  destruct (checked_add _ _ _) eqn:E.
  - apply checked_add_Some in E as [-> ?].
    destruct (Z.leb_spec (g + 1) (2 ^ (32 - bits) - 1)); naive_solver lia.
  - apply checked_add_None in E. naive_solver lia.
Qed.
End Width.

Section Codec.
Context (bits : Z) (size : nat).
Hypothesis bits_range : 0 < bits < 32.
Hypothesis size_fits : Z.of_nat size < 2 ^ bits.

Lemma encode_handle_Some index gen h :
  encode_handle bits size index gen = Some h ↔
  (index < size)%nat ∧ gen ≠ 0 ∧ gen ≤ 2 ^ (32 - bits) - 1 ∧
  h = Z.lor (Z.shiftl gen bits mod 2 ^ 32) (Z.of_nat index + 1).
Proof.
  unfold encode_handle. rewrite shiftr_U32_MAX by done.
  destruct (Nat.leb_spec size index), (Z.eqb_spec gen 0),
    (Z.ltb_spec (2 ^ (32 - bits) - 1) gen); simpl; naive_solver lia.
Qed.

Lemma encode_value index gen :
  (index < size)%nat → 0 ≤ gen ≤ 2 ^ (32 - bits) - 1 →
  Z.lor (Z.shiftl gen bits mod 2 ^ 32) (Z.of_nat index + 1)
    = gen * 2 ^ bits + (Z.of_nat index + 1).
Proof.
  intros Hi Hg. rewrite Z.shiftl_mul_pow2 by lia.
  assert (2 ^ 32 = 2 ^ (32 - bits) * 2 ^ bits) as H32.
  { rewrite <- Z.pow_add_r by lia. f_equal. lia. }
  rewrite Z.mod_small by (rewrite H32; nia).
  rewrite <- Z.shiftl_mul_pow2, lor_shiftl_sum, Z.shiftl_mul_pow2 by lia. done.
Qed.

Lemma decode_encode_handle index gen h :
  0 ≤ gen → encode_handle bits size index gen = Some h →
  decode_handle bits size h = Some (index, gen).
Proof.
  intros Hg (Hi & Hg0 & Hgm & ->)%encode_handle_Some.
  rewrite encode_value by lia. unfold decode_handle.
  replace (Z.shiftl 1 bits - 1) with (Z.ones bits)
    by (rewrite Z.ones_equiv, Z.shiftl_1_l; lia).
  rewrite Z.land_ones, Z.shiftr_div_pow2 by lia.
  rewrite Z.add_comm, Z.mod_add, Z.mod_small, Z.div_add, Z.div_small by lia.
  destruct (Z.eqb_spec (Z.of_nat index + 1) 0), (Z.eqb_spec (0 + gen) 0);
    [lia..|]; simpl.
  replace (Z.to_nat (Z.of_nat index + 1 - 1)) with index by lia.
  destruct (Nat.ltb_spec index size); [done|lia].
Qed.

Lemma decode_handle_Some h index gen :
  decode_handle bits size h = Some (index, gen) →
  (index < size)%nat ∧ gen ≠ 0 ∧ h = gen * 2 ^ bits + (Z.of_nat index + 1).
Proof.
  unfold decode_handle.
  replace (Z.shiftl 1 bits - 1) with (Z.ones bits)
    by (rewrite Z.ones_equiv, Z.shiftl_1_l; lia).
  rewrite Z.land_ones, Z.shiftr_div_pow2 by lia.
  pose proof (Z.mod_pos_bound h (2 ^ bits)) as Hm.
  pose proof (Z.div_mod h (2 ^ bits)) as Hd.
  destruct (Z.eqb_spec (h mod 2 ^ bits) 0), (Z.eqb_spec (h / 2 ^ bits) 0);
    simpl; try done.
  destruct (Nat.ltb_spec (Z.to_nat (h mod 2 ^ bits - 1)) size); [|done].
  intros [= <- <-]. split_and!; [done..|]. lia.
Qed.

Lemma encode_decode_handle h index gen :
  decode_handle bits size h = Some (index, gen) → 0 ≤ gen ≤ 2 ^ (32 - bits) - 1 →
  encode_handle bits size index gen = Some h.
Proof.
  intros (Hi & Hg & ->)%decode_handle_Some Hr. apply encode_handle_Some. rewrite encode_value by lia. split_and!; done || lia.
Qed.

(** Distinct slots or distinct generations never share a handle. *)
Lemma encode_handle_inj i1 g1 i2 g2 h :
  0 ≤ g1 → 0 ≤ g2 →
  encode_handle bits size i1 g1 = Some h →
  encode_handle bits size i2 g2 = Some h → i1 = i2 ∧ g1 = g2.
Proof.
  intros Hg1 Hg2 H1%decode_encode_handle H2%decode_encode_handle; try done.
  naive_solver.
Qed.

Lemma encode_handle_u32 index gen h :
  0 ≤ gen → encode_handle bits size index gen = Some h → 0 < h ≤ U32_MAX.
Proof.
  intros Hg (Hi & Hg0 & Hgm & ->)%encode_handle_Some.
  rewrite encode_value by lia. unfold U32_MAX.
  replace 4294967295 with (2 ^ (32 - bits) * 2 ^ bits - 1).
  2: { rewrite <- Z.pow_add_r by lia. by replace (32 - bits + bits) with 32 by lia. }
  nia.
Qed.

(** A generation [next_handle_generation] grants always encodes. *)
Lemma encode_handle_next index g g' :
  (index < size)%nat → 0 ≤ g → next_handle_generation bits g = Some g' →
  is_Some (encode_handle bits size index g').
Proof.
  intros Hi Hg [-> Hm]%next_handle_generation_Some; [|done].
  eexists. apply encode_handle_Some. split_and!; [done|lia|done|done].
Qed.
End Codec.
