(* ===== verification/ObjectKey.v ===== *)
(** * Keys of open objects (linux_fd.rs)

    An open object is named by its index in the table and the generation of
    the slot, so that a name never denotes the slot's next tenant. *)

From stdpp Require Import prelude list numbers option.
From Stdlib Require Import ZArith Lia.
From S2P Require Import Prelude.

Record ObjectKey := mkKey {
  k_index : Z;
  k_generation : Z;
}.

#[global] Instance ObjectKey_eq_dec : EqDecision ObjectKey.
Proof. solve_decision. Defined.

Definition EMPTY_KEY : ObjectKey := mkKey U16_MAX 0.
Definition key_is_empty (k : ObjectKey) : bool :=
  (k_generation k =? 0) || (k_index k =? U16_MAX).
Definition key_index (k : ObjectKey) : option nat :=
  if (k_generation k =? 0) || (k_index k =? U16_MAX) then None else Some (Z.to_nat (k_index k)).
Definition key_eqb (a b : ObjectKey) : bool := bool_decide (a = b).

(** [ObjectKey::new]: the index is cut to 16 bits. *)
Definition new_key (index : nat) (generation : Z) : ObjectKey :=
  mkKey (Z.of_nat index mod (U16_MAX + 1)) generation.

Lemma key_eqb_eq a b : key_eqb a b = true ↔ a = b.
Proof. apply bool_decide_eq_true. Qed.

Lemma new_key_index index generation :
  Z.of_nat index < U16_MAX → generation ≠ 0 → key_index (new_key index generation) = Some index.
Proof.
  intros Hi Hg. unfold key_index, new_key. simpl.
  rewrite Z.mod_small by (unfold U16_MAX in *; lia).
  destruct (Z.eqb_spec generation 0); [done|]. destruct (Z.eqb_spec (Z.of_nat index) U16_MAX); [lia|].
  by rewrite Nat2Z.id.
Qed.

Lemma new_key_inj i1 g1 i2 g2 :
  Z.of_nat i1 < U16_MAX → Z.of_nat i2 < U16_MAX → new_key i1 g1 = new_key i2 g2 → i1 = i2 ∧ g1 = g2.
Proof.
  unfold new_key. intros H1 H2 [= Hi Hg]. rewrite !Z.mod_small in Hi by (unfold U16_MAX in *; lia). lia.
Qed.
