(* ===== verification/Context.v ===== *)
(** * Saved user contexts (process/context.rs)

    The register image of a process at the user/kernel boundary, the trusted
    dispatch state the lifecycle table builds from it, and the validation that
    runs before every return to user mode. A [u64] is a [Z]; the constructors
    keep the field order of the [repr(C)] structures. *)

From stdpp Require Import prelude.
From Stdlib Require Import ZArith Lia.
From S2P Require Import Prelude.

Definition USER_ADDRESS_MINIMUM : Z := 0x1000.
Definition USER_ADDRESS_LIMIT : Z := 0x0000800000000000.
Definition KERNEL_ADDRESS_MINIMUM : Z := 0xffff800000000000.
Definition INITIAL_USER_FLAGS : Z := Z.lor (Z.shiftl 1 1) (Z.shiftl 1 9).

Definition PAGE_MASK : Z := 0xfff.
Definition PHYSICAL_ADDRESS_MASK : Z := 0x000ffffffffff000.
Definition USER_FLAGS_ALLOWED : Z :=
  foldr Z.lor 0 (Z.shiftl 1 <$> [0; 1; 2; 4; 6; 7; 8; 9; 10; 11; 16; 18; 21]).

Record SavedUserContext := mkContext {
  r15 : Z; r14 : Z; r13 : Z; r12 : Z; r11 : Z; r10 : Z; r9 : Z; r8 : Z;
  rbp : Z; rdi : Z; rsi : Z; rdx : Z; rcx : Z; rbx : Z; rax : Z;
  instruction_pointer : Z;
  flags : Z;
  stack_pointer : Z;
}.

#[global] Instance SavedUserContext_eq_dec : EqDecision SavedUserContext.
Proof. solve_decision. Defined.

Definition EMPTY_CONTEXT : SavedUserContext :=
  mkContext 0 0 0 0 0 0 0 0 0 0 0 0 0 0 0 0 0 0.

(** The first context dispatched for a newly installed process. *)
Definition initial (ip sp : Z) : SavedUserContext :=
  mkContext 0 0 0 0 INITIAL_USER_FLAGS 0 0 0 0 0 0 0 ip 0 0 ip INITIAL_USER_FLAGS sp.

Definition valid_user_address (address : Z) : bool :=
  (USER_ADDRESS_MINIMUM <=? address) && (address <? USER_ADDRESS_LIMIT).

Definition valid_page_table_root (root : Z) : bool :=
  negb (root =? 0) && (Z.land root PAGE_MASK =? 0) && (and_not root PHYSICAL_ADDRESS_MASK =? 0).

Definition valid_kernel_stack_pointer (pointer : Z) : bool :=
  (KERNEL_ADDRESS_MINIMUM <=? pointer) && (Z.land pointer 0xf =? 0).

Definition valid_user_tls_base (address : Z) : bool := address <? USER_ADDRESS_LIMIT.

Inductive ContextError :=
| InvalidInstructionPointer
| InvalidStackPointer
| InvalidFlags
| InvalidAddressSpaceRoot
| InvalidKernelStackPointer
| InvalidFsBase
| InvalidDispatchAuthority.

(** [SavedUserContext::validate] *)
Definition validate_context (c : SavedUserContext) : Result unit ContextError :=
  if negb (valid_user_address (instruction_pointer c)) then Err InvalidInstructionPointer
  else if negb (valid_user_address (stack_pointer c)) then Err InvalidStackPointer
  else if (Z.land (flags c) (Z.shiftl 1 1) =? 0) || negb (and_not (flags c) USER_FLAGS_ALLOWED =? 0)
  then Err InvalidFlags
  else Ok tt.

(** [result as u64] of an [isize] *)
Definition set_syscall_result (result : Z) (c : SavedUserContext) : SavedUserContext :=
  mkContext (r15 c) (r14 c) (r13 c) (r12 c) (r11 c) (r10 c) (r9 c) (r8 c) (rbp c) (rdi c) (rsi c)
    (rdx c) (rcx c) (rbx c) (result mod 2 ^ 64) (instruction_pointer c) (flags c) (stack_pointer c).

(** [context.stack_pointer = pointer] *)
Definition with_stack (pointer : Z) (c : SavedUserContext) : SavedUserContext :=
  mkContext (r15 c) (r14 c) (r13 c) (r12 c) (r11 c) (r10 c) (r9 c) (r8 c) (rbp c) (rdi c) (rsi c)
    (rdx c) (rcx c) (rbx c) (rax c) (instruction_pointer c) (flags c) pointer.

Definition syscall_arguments (c : SavedUserContext) : list Z :=
  [rdi c; rsi c; rdx c; r10 c; r8 c; r9 c].

Record DispatchContext := mkDispatch {
  user : SavedUserContext;
  d_address_space_root : Z;
  d_kernel_stack_pointer : Z;
  d_fs_base : Z;
}.

#[global] Instance DispatchContext_eq_dec : EqDecision DispatchContext.
Proof. solve_decision. Defined.

(** [DispatchContext::validate] *)
Definition validate_dispatch (d : DispatchContext) : Result unit ContextError :=
  match validate_context (user d) with
  | Err error => Err error
  | Ok _ =>
      if negb (valid_page_table_root (d_address_space_root d)) then Err InvalidAddressSpaceRoot
      else if negb (valid_kernel_stack_pointer (d_kernel_stack_pointer d))
      then Err InvalidKernelStackPointer
      else if negb (valid_user_tls_base (d_fs_base d)) then Err InvalidFsBase
      else Ok tt
  end.

Record AuthorizedUserReturn := mkReturn {
  dispatch : DispatchContext;
  ret_pid : Z;
  ret_generation : Z;
  ret_epoch : Z;
}.

#[global] Instance AuthorizedUserReturn_eq_dec : EqDecision AuthorizedUserReturn.
Proof. solve_decision. Defined.

Definition EMPTY_RETURN : AuthorizedUserReturn := mkReturn (mkDispatch EMPTY_CONTEXT 0 0 0) 0 0 0.

(** [AuthorizedUserReturn::validate] *)
Definition validate_return (a : AuthorizedUserReturn) : Result unit ContextError :=
  if (ret_pid a =? 0) || (ret_generation a =? 0) || (ret_epoch a =? 0)
  then Err InvalidDispatchAuthority
  else validate_dispatch (dispatch a).

(** ** Lemmas *)

Definition valid_context (c : SavedUserContext) : bool := is_ok (validate_context c).

Lemma validate_context_Ok c : validate_context c = Ok tt ↔ valid_context c = true.
Proof. unfold valid_context. by destruct (validate_context c) as [[]|]. Qed.

Lemma validate_dispatch_Ok d :
  validate_dispatch d = Ok tt ↔
    valid_context (user d) = true ∧ valid_page_table_root (d_address_space_root d) = true ∧
    valid_kernel_stack_pointer (d_kernel_stack_pointer d) = true ∧
    valid_user_tls_base (d_fs_base d) = true.
Proof.
  unfold validate_dispatch, valid_context. destruct (validate_context (user d)) as [[]|]; simpl.
  - destruct (valid_page_table_root _), (valid_kernel_stack_pointer _), (valid_user_tls_base _);
      simpl; naive_solver.
  - naive_solver.
Qed.

(** A syscall result never invalidates a context. *)
Lemma valid_context_result r c : valid_context (set_syscall_result r c) = valid_context c.
Proof. done. Qed.

Lemma valid_context_with_stack sp c :
  valid_context c = true → valid_user_address sp = true → valid_context (with_stack sp c) = true.
Proof.
  unfold valid_context, validate_context. simpl. intros H ->.
  destruct (valid_user_address (instruction_pointer c)); [|done]. simpl in *.
  by destruct (valid_user_address (stack_pointer c)).
Qed.

Lemma valid_context_initial ip sp :
  valid_user_address ip = true → valid_user_address sp = true → valid_context (initial ip sp) = true.
Proof. unfold valid_context, validate_context. simpl. by intros -> ->. Qed.
