(* ===== verification/RingQueue.v ===== *)
(** * Ring buffers as queues

    The pipe and the datagram endpoint keep a fixed array, a head index and a
    length, and wrap positions modulo the capacity. [ring_view] is the queue
    such a triple stands for; the lemmas say what reading at the head and
    writing at the tail do to it. *)

From stdpp Require Import prelude list numbers option.
From Stdlib Require Import ZArith Lia.
From S2P Require Import Prelude.

#[local] Arguments Nat.modulo : simpl never.

(** The [n] elements queued from position [hd] on. *)
Definition ring_view {A} (d : A) (cap : nat) (ring : list A) (hd n : nat) : list A :=
  (λ k, slot_at d ring ((hd + k) mod cap)%nat) <$> seq 0 n.

(** The copy loop of a reader: [n] elements from [hd] on, and the new head. *)
Fixpoint ring_drain {A} (d : A) (cap : nat) (ring : list A) (hd n : nat) : list A * nat :=
  match n with
  | O => ([], hd)
  | S n =>
      let '(rest, hd') := ring_drain d cap ring ((hd + 1) mod cap)%nat n in
      (slot_at d ring hd :: rest, hd')
  end.

(** The copy loop of a writer: each element goes to the tail. *)
Fixpoint ring_fill {A} (cap : nat) (ring : list A) (hd n : nat) (input : list A) : list A * nat :=
  match input with
  | [] => (ring, n)
  | x :: input =>
      let tail := ((hd + n) mod cap)%nat in
      ring_fill cap (<[tail := x]> ring) hd (S n) input
  end.

Section Ring.
Context {A : Type} {d : A} {cap : nat}.
Abbreviation view := (ring_view d cap).
Implicit Types (ring : list A) (hd n m : nat).

Lemma ring_wrap a b :
  (a < cap)%nat → (b ≤ cap)%nat →
  ((a + b) mod cap = if decide (a + b < cap) then a + b else a + b - cap)%nat.
Proof.
  intros Ha Hb. case_decide.
  - by apply Nat.mod_small.
  - symmetry. apply (Nat.mod_unique _ _ 1); lia.
Qed.

Lemma ring_view_length ring hd n : length (view ring hd n) = n.
Proof. unfold ring_view. by rewrite length_fmap, length_seq. Qed.

Lemma ring_view_S ring hd n :
  (hd < cap)%nat →
  view ring hd (S n) = slot_at d ring hd :: view ring ((hd + 1) mod cap) n.
Proof.
  intros Hhd. unfold ring_view. simpl. f_equal.
  - by rewrite Nat.add_0_r, Nat.mod_small.
  - rewrite <- fmap_S_seq, <- list_fmap_compose. apply list_fmap_ext. intros _ k _.
    simpl. rewrite Nat.Div0.add_mod_idemp_l. do 2 f_equal. lia.
Qed.

Lemma ring_view_app ring hd n m :
  view ring hd (n + m) = view ring hd n ++ view ring ((hd + n) mod cap) m.
Proof.
  unfold ring_view. rewrite seq_app, fmap_app. f_equal. simpl.
  rewrite <- (Nat.add_0_r n) at 1. rewrite <- fmap_add_seq, <- list_fmap_compose.
  apply list_fmap_ext. intros _ k _. simpl.
  rewrite Nat.Div0.add_mod_idemp_l. do 2 f_equal. lia.
Qed.

Lemma ring_view_split ring hd n m :
  (m ≤ n)%nat → view ring hd n = view ring hd m ++ view ring ((hd + m) mod cap) (n - m).
Proof. intros. rewrite <- ring_view_app. f_equal. lia. Qed.

(** Writing at the tail appends. *)
Lemma ring_view_insert ring hd n b :
  (hd < cap)%nat → (n < cap)%nat → length ring = cap →
  view (<[(hd + n) mod cap := b]> ring)%nat hd (S n) = view ring hd n ++ [b].
Proof.
  intros Hhd Hn Hl. replace (S n) with (n + 1)%nat by lia. rewrite ring_view_app. f_equal.
  - apply list_fmap_ext. intros i k [-> Hk]%lookup_seq. simpl. unfold slot_at.
    rewrite list_lookup_insert_ne; [done|]. rewrite !ring_wrap by lia.
    repeat case_decide; lia.
  - unfold ring_view. simpl. f_equal. rewrite Nat.add_0_r, Nat.Div0.mod_mod.
    apply slot_at_Some. apply list_lookup_insert_eq. rewrite Hl. apply Nat.mod_upper_bound. lia.
Qed.

(** Overwriting the slot at the head does not affect the rest of the queue. *)
Lemma ring_view_insert_head ring hd n b :
  (hd < cap)%nat → (S n ≤ cap)%nat →
  view (<[hd := b]> ring) ((hd + 1) mod cap) n = view ring ((hd + 1) mod cap) n.
Proof.
  intros Hhd Hn. apply list_fmap_ext. intros i k [-> Hk]%lookup_seq. simpl. unfold slot_at.
  rewrite list_lookup_insert_ne; [done|]. rewrite Nat.Div0.add_mod_idemp_l.
  replace (hd + 1 + i)%nat with (hd + (1 + i))%nat by lia. rewrite ring_wrap by lia.
  case_decide; lia.
Qed.

Lemma ring_drain_spec ring hd n :
  (hd < cap)%nat → ring_drain d cap ring hd n = (view ring hd n, ((hd + n) mod cap)%nat).
Proof.
  revert hd. induction n as [|n IH]; intros hd Hhd; simpl.
  - by rewrite Nat.add_0_r, Nat.mod_small.
  - rewrite IH by (apply Nat.mod_upper_bound; lia). rewrite (ring_view_S ring hd n Hhd).
    rewrite Nat.Div0.add_mod_idemp_l. do 2 f_equal. lia.
Qed.

Lemma ring_fill_spec ring hd n input :
  (hd < cap)%nat → length ring = cap → (n + length input ≤ cap)%nat →
  ∃ ring', ring_fill cap ring hd n input = (ring', (n + length input)%nat) ∧
    length ring' = cap ∧ view ring' hd (n + length input) = view ring hd n ++ input.
Proof.
  intros Hhd. revert ring n. induction input as [|b input IH]; intros ring n Hl Hn; simpl in *.
  - exists ring. rewrite Nat.add_0_r, app_nil_r. done.
  - destruct (IH (<[(hd + n) mod cap := b]> ring)%nat (S n)) as (ring' & Hf & Hl' & Hv).
    { by rewrite length_insert. } { lia. }
    exists ring'. replace (n + S (length input))%nat with (S n + length input)%nat by lia.
    split_and!; [done..|]. rewrite Hv, ring_view_insert by (done || lia).
    by rewrite <- app_assoc.
Qed.
End Ring.
