(* ===== verification/OwnedTable.v ===== *)
(** * Owner-checked descriptor tables

    The eventfd, timerfd, signalfd and epoll backends keep a static array of
    slots, number their descriptors [BASE + index] and reject a slot that is
    free or belongs to another owner. [OwnedSlots] is that shape; a backend
    gives an instance and inherits the access lemmas. *)

From stdpp Require Import prelude list numbers option.
From Stdlib Require Import ZArith Lia.
From S2P Require Import Prelude.
From S2P Require Import Handles.

Class OwnedSlots (Own Slot E : Type) := {
  empty_slot : Slot;
  (** [slot.occupied() && slot.owner == owner] *)
  owned_by : Own → Slot → bool;
  (** [index_for_fd] and [fd_for_index] *)
  index_of : Z → option nat;
  fd_of : nat → Z;
  table_size : nat;
  bad_descriptor : E;
  index_of_Some : ∀ fd i, index_of fd = Some i ↔ fd = fd_of i ∧ (i < table_size)%nat;
  empty_unowned : ∀ own, owned_by own empty_slot = false;
}.

Section Access.
Context {Own Slot E : Type} `{OS : !OwnedSlots Own Slot E}.
Abbreviation Table := (list Slot).
Implicit Types (own : Own) (t : Table).

(** [index_for_fd(fd).ok_or(BadFileDescriptor)?] *)
Definition fd_index (fd : Z) : M Table E nat :=
  ok_or (index_of fd) bad_descriptor.

(** [let slot = &mut table[index]; if !slot.occupied() || slot.owner != owner
    { return Err(BadFileDescriptor) }] *)
Definition owned_slot (own : Own) (index : nat) : M Table E Slot :=
  table ← getS;
  let slot := slot_at empty_slot table index in
  _ ← ensure (owned_by own slot) bad_descriptor;
  mret slot.

(** [*slot = value] *)
Definition store (index : nat) (slot : Slot) : M Table E unit :=
  modifyS (λ table, <[index := slot]> table).

(** The loop of the [close_all] and [close_on_exec] functions. *)
Definition close_where (p : Slot → bool) (t : Table) : nat * Table :=
  (countb p t, update_where p (λ _, empty_slot) t).

(** [fd] names slot [i], which holds [s] and belongs to [own]. *)
Definition owned t own fd i s : Prop :=
  index_of fd = Some i ∧ t !! i = Some s ∧ owned_by own s = true.

Definition lookup_owned t own fd : option (nat * Slot) :=
  match index_of fd with
  | Some i =>
      match t !! i with
      | Some s => if owned_by own s then Some (i, s) else None
      | None => None
      end
  | None => None
  end.

Lemma lookup_owned_Some t own fd i s :
  lookup_owned t own fd = Some (i, s) ↔ owned t own fd i s.
Proof.
  unfold lookup_owned, owned. split.
  - intros. repeat case_match; simplify_eq. done.
  - intros (-> & -> & ->). done.
Qed.

Lemma owned_slot_run own i t :
  owned_slot own i t =
    if owned_by own (slot_at empty_slot t i)
    then (Ok (slot_at empty_slot t i), t) else (Err bad_descriptor, t).
Proof. unfold owned_slot. m_unfold. by destruct (owned_by _ _). Qed.

(** Every operation that starts by resolving its descriptor either runs its
    body on the slot found, or fails without touching the table. *)
Lemma access_run {A} own fd t (k : nat → Slot → M Table E A) :
  (index ← fd_index fd; slot ← owned_slot own index; k index slot) t =
  match lookup_owned t own fd with
  | Some (i, s) => k i s t
  | None => (Err bad_descriptor, t)
  end.
Proof.
  unfold fd_index, lookup_owned. m_unfold.
  destruct (index_of _) as [i|]; [|done].
  rewrite owned_slot_run. unfold slot_at.
  destruct (t !! i) as [s|]; simpl.
  - by destruct (owned_by own s).
  - by rewrite empty_unowned.
Qed.

(** The variant with a check between the index and the slot. *)
Lemma access_check_run {A} own fd t b e (k : nat → Slot → M Table E A) :
  (index ← fd_index fd; _ ← ensure b e; slot ← owned_slot own index; k index slot) t =
  match index_of fd with
  | None => (Err bad_descriptor, t)
  | Some _ =>
      if b then
        match lookup_owned t own fd with
        | Some (i, s) => k i s t
        | None => (Err bad_descriptor, t)
        end
      else (Err e, t)
  end.
Proof.
  destruct b.
  - rewrite <- access_run. unfold fd_index. m_unfold. by destruct (index_of _).
  - unfold fd_index. m_unfold. by destruct (index_of _).
Qed.

Lemma owned_fd t own fd i s : owned t own fd i s → fd = fd_of i.
Proof. intros (H & _). by apply index_of_Some in H as [-> _]. Qed.

Lemma owned_inj t own own' fd fd' i s s' :
  owned t own fd i s → owned t own' fd' i s' → fd = fd' ∧ s = s'.
Proof.
  intros H1 H2. split.
  - by rewrite (owned_fd _ _ _ _ _ H1), (owned_fd _ _ _ _ _ H2).
  - destruct H1 as (_ & H1 & _), H2 as (_ & H2 & _). congruence.
Qed.

Lemma close_where_lookup p t i s :
  t !! i = Some s →
  (close_where p t).2 !! i = Some (if p s then empty_slot else s).
Proof. intros H. unfold close_where. simpl. by rewrite update_where_lookup, H. Qed.

Lemma close_where_length p t : length (close_where p t).2 = length t.
Proof. apply update_where_length. Qed.

Lemma close_where_count p t : (close_where p t).1 = countb p t.
Proof. done. Qed.

(** [close_where p] leaves nothing [p] selects, if the empty slot is not
    selected. *)
Lemma close_where_clears p t :
  p empty_slot = false → countb p (close_where p t).2 = O.
Proof.
  intros Hp. apply countb_zero. intros i x. simpl. rewrite update_where_lookup.
  intros (y & Hy & ->)%fmap_Some. by destruct (p y) eqn:Hy'.
Qed.

(** Creation: the first free slot, if there is one. *)
Lemma free_slot_run {A} (free : Slot → bool) (full : E) t (k : nat → M Table E A) :
  (table ← getS; index ← ok_or (position free table) full; k index) t =
  match position free t with Some i => k i t | None => (Err full, t) end.
Proof. m_unfold. by destruct (position free t). Qed.
End Access.

Arguments lookup_owned : simpl never.
