(* ===== verification/KeyedTable.v ===== *)
(** * Tables keyed by an exact process generation

    The signal, robust-list and thread tables are static arrays searched
    linearly for the occupied slot of an owner: [slot.occupied() && slot.owner
    == owner], a slot being occupied when both halves of its owner are
    non-zero. With unique owners such an array is a finite map; the lemmas here
    let a component reason about [lookup_slot] instead of positions. *)

From stdpp Require Import prelude list numbers option.
From Stdlib Require Import ZArith Lia.
From S2P Require Import Prelude.
From S2P Require Import Handles.

Class Keyed (Slot : Type) := key : Slot → ProcessHandle.

Lemma and_iff_compat_l_valid (P Q R : Prop) : (P → (Q ↔ R)) → (P ∧ Q ↔ P ∧ R).
Proof. tauto. Qed.

Section Keyed.
Context {Slot : Type} `{K : !Keyed Slot}.
Implicit Types (k : ProcessHandle) (s : Slot) (l : list Slot).

Definition slot_occupied (s : Slot) : bool := valid_owner (key s).
(** [slot.occupied() && slot.owner == owner] *)
Definition has_key (k : ProcessHandle) (s : Slot) : bool :=
  slot_occupied s && handle_eqb (key s) k.

(** [iter().position(|slot| slot.occupied() && slot.owner == owner)] *)
Definition find_slot (k : ProcessHandle) (l : list Slot) : option nat :=
  position (has_key k) l.
(** [iter().find(..)] *)
Definition lookup_slot (k : ProcessHandle) (l : list Slot) : option Slot :=
  i ← find_slot k l; l !! i.
(** [if let Some(slot) = iter_mut().find(..) { *slot = f(slot) }] *)
Definition alter_slot (k : ProcessHandle) (f : Slot → Slot) (l : list Slot) : list Slot :=
  match find_slot k l with Some i => alter f i l | None => l end.
(** [iter().position(|slot| !slot.occupied())] *)
Definition free_slot (l : list Slot) : option nat :=
  position (λ s, negb (slot_occupied s)) l.

(** No two occupied slots have the same owner. *)
Definition unique_keys (l : list Slot) : Prop :=
  ∀ i j s s', l !! i = Some s → l !! j = Some s' →
    slot_occupied s = true → key s = key s' → i = j.

Lemma has_key_true k s : has_key k s = true ↔ valid_owner k = true ∧ key s = k.
Proof.
  unfold has_key, slot_occupied. rewrite andb_true_iff, handle_eqb_eq.
  split; intros [? ?]; subst; eauto.
Qed.

Lemma find_slot_Some k l i :
  find_slot k l = Some i → ∃ s, l !! i = Some s ∧ valid_owner k = true ∧ key s = k.
Proof. intros (s & ? & H)%position_lookup. apply has_key_true in H. eauto. Qed.

Lemma find_slot_at k l i s :
  unique_keys l → l !! i = Some s → valid_owner k = true → key s = k →
  find_slot k l = Some i.
Proof.
  intros Hu Hi Hv <-. unfold find_slot.
  destruct (position_is_Some (has_key (key s)) l i s Hi) as [j Hj]; [by apply has_key_true|].
  rewrite Hj. f_equal. apply find_slot_Some in Hj as (s' & Hs' & _ & Hk).
  symmetry. by eapply (Hu i j).
Qed.

Lemma find_slot_None k l i s :
  find_slot k l = None → l !! i = Some s → valid_owner k = true → key s ≠ k.
Proof.
  intros Hn Hi Hv Hk. unfold find_slot in Hn. rewrite position_None in Hn.
  specialize (Hn i s Hi). rewrite (proj2 (has_key_true k s)) in Hn; [done|eauto].
Qed.

Lemma lookup_slot_find k l i s :
  find_slot k l = Some i → l !! i = Some s → lookup_slot k l = Some s.
Proof. unfold lookup_slot. by intros ->. Qed.

Lemma lookup_slot_Some k l s :
  unique_keys l →
  lookup_slot k l = Some s ↔ valid_owner k = true ∧ key s = k ∧ ∃ i, l !! i = Some s.
Proof.
  intros Hu. split.
  - unfold lookup_slot. rewrite bind_Some. intros (i & Hf & Hi).
    apply find_slot_Some in Hf as (s' & Hs' & Hv & Hk). naive_solver.
  - intros (Hv & Hk & i & Hi). eapply lookup_slot_find; [|done]. by eapply find_slot_at.
Qed.

Lemma lookup_slot_cases k l :
  match lookup_slot k l with
  | Some s => ∃ i, find_slot k l = Some i ∧ l !! i = Some s ∧ key s = k ∧ valid_owner k = true
  | None => find_slot k l = None
  end.
Proof.
  unfold lookup_slot. destruct (find_slot k l) as [i|] eqn:E; simpl; [|done].
  apply find_slot_Some in E as (s & Hi & ? & ?). rewrite Hi. eauto.
Qed.

(** Storing a slot under its own key, under a fresh key, or emptying it. *)
Lemma unique_keys_insert l i s s' :
  unique_keys l → l !! i = Some s →
  (key s' = key s ∨ slot_occupied s' = false ∨ find_slot (key s') l = None) →
  unique_keys (<[i := s']> l).
Proof.
  intros Hu Hi Hc.
  assert (∀ j t, j ≠ i → l !! j = Some t → slot_occupied s' = true → key t = key s' → False) as Hd.
  { intros j t Hne Hj Ho Hk. destruct Hc as [He|[He|He]]; [|congruence|].
    - apply Hne, (Hu j i t s Hj Hi); [|congruence]. unfold slot_occupied. by rewrite Hk.
    - by eapply (find_slot_None (key s') l j t). }
  intros a b x y [(<- & <- & _)|[Ha Hx]]%lookup_insert_cases
    [(<- & <- & _)|[Hb Hy]]%lookup_insert_cases Ho Hk; [done| | |by eapply Hu].
  - destruct (Hd b y); try done; congruence.
  - destruct (Hd a x); try done. unfold slot_occupied in *. congruence.
Qed.

Lemma lookup_slot_insert_eq l i s' :
  unique_keys (<[i := s']> l) → (i < length l)%nat → valid_owner (key s') = true →
  lookup_slot (key s') (<[i := s']> l) = Some s'.
Proof.
  intros Hu Hi Hv. apply lookup_slot_Some; [done|]. split_and!; [done..|].
  exists i. by apply list_lookup_insert_eq.
Qed.

Lemma lookup_slot_insert_ne k l i s s' :
  unique_keys l → unique_keys (<[i := s']> l) → l !! i = Some s →
  (key s ≠ k ∨ slot_occupied s = false) → (key s' ≠ k ∨ slot_occupied s' = false) →
  lookup_slot k (<[i := s']> l) = lookup_slot k l.
Proof.
  intros Hu Hu' Hi Hs Hs'. apply option_eq. intros t.
  rewrite !lookup_slot_Some by done. apply and_iff_compat_l_valid. intros Hv.
  apply and_iff_compat_l_valid. intros Hk. split.
  - intros (j & [(_ & -> & _)|[_ Hj]]%lookup_insert_cases); [|eauto].
    unfold slot_occupied in Hs'. destruct Hs'; congruence.
  - intros (j & Hj). exists j. rewrite list_lookup_insert_ne; [done|]. intros ->.
    unfold slot_occupied in Hs. destruct Hs; congruence.
Qed.

Lemma lookup_slot_free l i s k :
  unique_keys l → l !! i = Some s → slot_occupied s = false → key s = k → lookup_slot k l = None.
Proof.
  intros Hu Hi Ho Hk. destruct (lookup_slot k l) as [t|] eqn:E; [|done].
  apply lookup_slot_Some in E as (Hv & _ & _); [|done]. unfold slot_occupied in Ho. congruence.
Qed.

Lemma alter_slot_length k f l : length (alter_slot k f l) = length l.
Proof. unfold alter_slot. destruct (find_slot k l); [apply length_alter|done]. Qed.

Lemma alter_slot_lookup k f l i s :
  alter_slot k f l !! i = Some s →
  l !! i = Some s ∨ ∃ s0, lookup_slot k l = Some s0 ∧ l !! i = Some s0 ∧ s = f s0.
Proof.
  unfold alter_slot. pose proof (lookup_slot_cases k l) as Hc. unfold lookup_slot in *.
  destruct (find_slot k l) as [j|]; simpl in *; [|by left].
  destruct (decide (j = i)) as [->|]; [|rewrite list_lookup_alter_ne by done; by left].
  rewrite list_lookup_alter_eq. destruct (l !! i) as [s0|]; simpl; [|done].
  intros [= <-]. right. eauto.
Qed.

(** [alter_slot] as a single array store. *)
Lemma alter_slot_insert k f l :
  alter_slot k f l =
  match find_slot k l with
  | Some i => match l !! i with Some s => <[i := f s]> l | None => l end
  | None => l
  end.
Proof.
  unfold alter_slot. pose proof (find_slot_Some k l) as Hf.
  destruct (find_slot k l) as [i|]; [|done].
  destruct (Hf i eq_refl) as (s & Hs & _). rewrite Hs. by apply alter_insert_eq.
Qed.

Section Alter.
Context (k : ProcessHandle) (f : Slot → Slot) (l : list Slot).
Hypothesis Hu : unique_keys l.
(** the update keeps the key, or frees the slot *)
Hypothesis Hf : ∀ s, key s = k → key (f s) = k ∨ slot_occupied (f s) = false.

Lemma alter_slot_unique : unique_keys (alter_slot k f l).
Proof.
  rewrite alter_slot_insert. pose proof (lookup_slot_cases k l) as Hc. unfold lookup_slot in Hc.
  destruct (find_slot k l) as [i|]; [|done]. simpl in Hc. destruct (l !! i) as [s|] eqn:Hs; [|done].
  destruct Hc as (j & _ & _ & Hk & _). apply (unique_keys_insert _ _ s); [done..|].
  destruct (Hf s Hk); [left; congruence|by right; left].
Qed.

Lemma lookup_alter_slot_ne k' :
  k' ≠ k → lookup_slot k' (alter_slot k f l) = lookup_slot k' l.
Proof.
  intros Hne. pose proof alter_slot_unique as Hu'. revert Hu'. rewrite alter_slot_insert.
  pose proof (lookup_slot_cases k l) as Hc. unfold lookup_slot in Hc.
  destruct (find_slot k l) as [i|]; [|done]. simpl in Hc. destruct (l !! i) as [s|] eqn:Hs; [|done].
  destruct Hc as (j & _ & _ & Hk & _). intros Hu'. apply (lookup_slot_insert_ne _ _ _ s); [done..| |].
  - left. congruence.
  - destruct (Hf s Hk); [left; congruence|by right].
Qed.

Lemma lookup_alter_slot_eq :
  lookup_slot k (alter_slot k f l) =
  s ← lookup_slot k l; if slot_occupied (f s) then Some (f s) else None.
Proof.
  pose proof alter_slot_unique as Hu'. revert Hu'. rewrite alter_slot_insert.
  pose proof (lookup_slot_cases k l) as Hc. unfold lookup_slot in Hc |- * at 2.
  destruct (find_slot k l) as [i|] eqn:E; simpl in *; [|intros _; unfold lookup_slot; by rewrite E].
  destruct (l !! i) as [s|] eqn:Hs; simpl; [|by rewrite Hc in E].
  destruct Hc as (j & _ & _ & Hk & Hv). intros Hu'.
  destruct (slot_occupied (f s)) eqn:Ho.
  - destruct (Hf s Hk) as [Hk'|]; [|congruence]. rewrite <- Hk'.
    apply lookup_slot_insert_eq; [done|by eapply lookup_lt_Some|done].
  - destruct (lookup_slot k _) as [t|] eqn:E'; [|done].
    apply lookup_slot_Some in E' as (_ & Hkt & j' & Hj'); [|done].
    apply lookup_insert_cases in Hj' as [(_ & <- & _)|[Hne Hj']].
    + unfold slot_occupied in Ho. congruence.
    + destruct Hne. apply (Hu i j' s t); [done..| |congruence]. unfold slot_occupied. congruence.
Qed.
End Alter.

Lemma unique_keys_replicate n s : slot_occupied s = false → unique_keys (replicate n s).
Proof.
  intros Ho i j x y [-> _]%lookup_replicate Hj Hx. congruence.
Qed.
End Keyed.

Arguments lookup_slot : simpl never.
Arguments alter_slot : simpl never.
