(* ===== verification/GenTable.v ===== *)
(** * Tables behind generation-tagged handles

    The memfd and Unix datagram backends keep an array of slots, each with a
    generation that only grows, and hand out [(generation, index)] handles. A
    handle resolves to its slot while the slot is live, belongs to the caller
    and still has the handle's generation. [GenSlots] is that shape; the lemmas
    are the life cycle of a handle: it resolves from its creation to its close,
    and never again. *)

From stdpp Require Import prelude list numbers option.
From Stdlib Require Import ZArith Lia.
From S2P Require Import Prelude.
From S2P Require Import Handles.

Class GenSlots (Slot E : Type) := {
  gs_empty : Slot;
  gs_live : Slot → bool;
  gs_generation : Slot → Z;
  gs_owner : Slot → ProcessHandle;
  gs_bits : Z;
  gs_size : nat;
  gs_bad : E;
  gs_bits_range : 0 < gs_bits < 32;
  gs_size_fits : Z.of_nat gs_size < 2 ^ gs_bits;
  gs_empty_dead : gs_live gs_empty = false;
}.

Section GenTable.
Context {Slot E : Type} `{GS : !GenSlots Slot E}.
Implicit Types (t : list Slot) (s : Slot) (own : ProcessHandle) (h : Z).

Definition gs_encode (index : nat) (gen : Z) : option Z := encode_handle gs_bits gs_size index gen.
Definition gs_decode (h : Z) : option (nat * Z) := decode_handle gs_bits gs_size h.

(** [let (index, generation) = decode(handle).ok_or(BadFileDescriptor)?; let
    slot = slots[index]; if !live || slot.generation != generation ||
    slot.owner != owner { return Err(BadFileDescriptor) }] *)
Definition gs_resolve (t : list Slot) (own : ProcessHandle) (h : Z) : Result (nat * Slot) E :=
  match gs_decode h with
  | None => Err gs_bad
  | Some (index, gen) =>
      let slot := slot_at gs_empty t index in
      if negb (gs_live slot) || negb (gs_generation slot =? gen)
         || negb (handle_eqb (gs_owner slot) own)
      then Err gs_bad
      else Ok (index, slot)
  end.

Definition gs_resolved (own : ProcessHandle) (h : Z) : M (list Slot) E (nat * Slot) :=
  λ t, (gs_resolve t own h, t).

(** What a handle that resolves names. *)
Definition names t own h i s : Prop :=
  gs_decode h = Some (i, gs_generation s) ∧ t !! i = Some s ∧
  gs_live s = true ∧ gs_owner s = own.

Lemma gs_resolve_Ok t own h i s : gs_resolve t own h = Ok (i, s) ↔ names t own h i s.
Proof.
  unfold gs_resolve, names, slot_at. split.
  - intros H. destruct (gs_decode h) as [[j g]|]; [|done].
    destruct (t !! j) as [s'|] eqn:Hj; simpl in H; [|by rewrite gs_empty_dead in H].
    destruct (gs_live s') eqn:Hl, (Z.eqb_spec (gs_generation s') g),
      (handle_eqb (gs_owner s') own) eqn:Ho; simpl in H; try done.
    injection H as <- <-. apply handle_eqb_eq in Ho. by subst.
  - intros (-> & -> & Hl & Ho). simpl. by rewrite Hl, Ho, Z.eqb_refl, handle_eqb_refl.
Qed.

Lemma gs_resolve_Err t own h e : gs_resolve t own h = Err e → e = gs_bad.
Proof. unfold gs_resolve. intros. repeat case_match; simplify_eq; done. Qed.

Lemma gs_resolve_cases t own h :
  (∃ i s, gs_resolve t own h = Ok (i, s) ∧ names t own h i s) ∨ gs_resolve t own h = Err gs_bad.
Proof.
  destruct (gs_resolve t own h) as [[i s]|e] eqn:H.
  - left. exists i, s. split; [done|]. by apply gs_resolve_Ok.
  - right. by rewrite (gs_resolve_Err _ _ _ _ H).
Qed.

Lemma names_inj t own h i s j s' : names t own h i s → names t own h j s' → i = j ∧ s = s'.
Proof. intros (Hd & Hi & _) (Hd' & Hi' & _). rewrite Hd in Hd'. naive_solver. Qed.

(** Storing a slot of the same generation, liveness and owner keeps the handle. *)
Lemma names_update t own h i s s' :
  names t own h i s → gs_generation s' = gs_generation s → gs_live s' = gs_live s →
  gs_owner s' = gs_owner s → names (<[i := s']> t) own h i s'.
Proof.
  intros (Hd & Hi & Hl & Ho) Hg Hl' Ho'. unfold names. rewrite Hg, Hl', Ho'.
  split_and!; try done. apply list_lookup_insert_eq. by eapply lookup_lt_Some.
Qed.

Lemma names_other t own h i s j s' :
  names t own h i s → i ≠ j → names (<[j := s']> t) own h i s.
Proof. intros (Hd & Hi & Hl & Ho) Hne. split_and!; try done. by rewrite list_lookup_insert_ne. Qed.

(** ** Generations only grow *)

Definition slot_evolves (s s' : Slot) : Prop :=
  gs_generation s ≤ gs_generation s' ∧
  (gs_generation s = gs_generation s' → gs_live s' = true →
   gs_live s = true ∧ gs_owner s' = gs_owner s).

(** Every slot of [t'] continues the slot of [t], or is a later generation. *)
Definition evolves t t' : Prop :=
  ∀ i s', t' !! i = Some s' → ∃ s, t !! i = Some s ∧ slot_evolves s s'.

#[global] Instance evolves_preorder : PreOrder evolves.
Proof.
  split.
  - intros t i s Hi. exists s. split; [done|]. split; [lia|done].
  - intros t1 t2 t3 H12 H23 i s3 H3. destruct (H23 i s3 H3) as (s2 & H2 & Hg & Hl).
    destruct (H12 i s2 H2) as (s1 & H1 & Hg' & Hl'). exists s1. split; [done|].
    split; [lia|]. intros He Hlive. destruct Hl as [Hl2 Ho2]; [lia|done|].
    destruct Hl' as [Hl1 Ho1]; [lia|done|]. split; [done|congruence].
Qed.

Lemma evolves_insert t i s s' :
  t !! i = Some s → slot_evolves s s' → evolves t (<[i := s']> t).
Proof.
  intros Hi He j x [(<- & <- & _)|[_ Hj]]%lookup_insert_cases; [eauto|].
  exists x. split; [done|]. split; [lia|done].
Qed.

Lemma slot_evolves_same s s' :
  gs_generation s' = gs_generation s → gs_live s' = gs_live s → gs_owner s' = gs_owner s →
  slot_evolves s s'.
Proof. intros Hg Hl Ho. unfold slot_evolves. rewrite Hg, Hl, Ho. split; [lia|done]. Qed.

Lemma slot_evolves_freed s s' :
  gs_generation s' = gs_generation s → gs_live s' = false → slot_evolves s s'.
Proof. intros Hg Hl. split; [lia|]. congruence. Qed.

Lemma slot_evolves_next s s' : gs_generation s < gs_generation s' → slot_evolves s s'.
Proof. intros Hg. split; lia. Qed.

Lemma evolves_update_where (p : Slot → bool) f t :
  (∀ s, slot_evolves s (f s)) → evolves t (update_where p f t).
Proof.
  intros Hf i s'. rewrite update_where_lookup. intros (s & Hs & ->)%fmap_Some.
  exists s. split; [done|]. destruct (p s); [apply Hf|]. split; [lia|done].
Qed.

(** Once the slot behind a handle is freed or reused, the handle is dead for
    every later table. *)
Lemma dead_handle t t' own own' h i s :
  names t own h i s → evolves t t' →
  (∀ s', t' !! i = Some s' → gs_generation s' = gs_generation s → gs_live s' = false) →
  ∀ t'', evolves t' t'' → gs_resolve t'' own' h = Err gs_bad.
Proof.
  intros (Hd & Hi & _) Hev Hdead t'' Hev'. destruct (gs_resolve_cases t'' own' h) as [(j & s2 & _ & Hn)|]; [|done].
  destruct Hn as (Hd' & Hj & Hl & _). rewrite Hd in Hd'. injection Hd' as <- Hg.
  destruct (Hev' i s2 Hj) as (s1 & H1 & Hle & Hlive).
  destruct (Hev i s1 H1) as (s0 & H0 & Hle' & _). rewrite Hi in H0. injection H0 as <-.
  destruct Hlive as [Hl1 _]; [lia|done|]. rewrite (Hdead s1 H1) in Hl1; [done|lia].
Qed.

(** The handle of a fresh generation resolves to its new slot. *)
Lemma fresh_handle t own i s s' h :
  t !! i = Some s → 0 ≤ gs_generation s →
  next_handle_generation gs_bits (gs_generation s) = Some (gs_generation s') →
  gs_encode i (gs_generation s') = Some h →
  gs_live s' = true → gs_owner s' = own →
  names (<[i := s']> t) own h i s' ∧ gs_generation s' = gs_generation s + 1.
Proof.
  intros Hi Hg Hn He Hl Ho. pose proof gs_bits_range as Hb. pose proof gs_size_fits as Hs.
  apply next_handle_generation_Some in Hn as [Hn _]; [|done]. split; [|done].
  split_and!; [|apply list_lookup_insert_eq; by eapply lookup_lt_Some|done..].
  apply (decode_encode_handle gs_bits gs_size Hb Hs); [lia|done].
Qed.
End GenTable.
