(* ===== verification/EventFd.v ===== *)
(** * Event counters: linux_eventfd.rs

    The table of eventfd slots, every operation of the file on it, and the
    theorems: each operation keeps the slots well formed at their machine
    widths, the counter of a descriptor is exactly what was written minus what
    was read, readiness predicts the outcome of the next read or write, and the
    transition generation moves exactly at the empty/readable edges. *)

From stdpp Require Import prelude list numbers option.
From Stdlib Require Import ZArith Lia.
From S2P Require Import Prelude.
From S2P Require Import Handles.
From S2P Require Import OwnedTable.

Definition EFD_SEMAPHORE : Z := 0x1.
Definition EFD_NONBLOCK : Z := 0x800.
Definition EFD_CLOEXEC : Z := 0x80000.
Definition EVENTFD_ALLOWED_FLAGS : Z :=
  Z.lor (Z.lor EFD_SEMAPHORE EFD_NONBLOCK) EFD_CLOEXEC.

Definition READY_IN : Z := 0x001.
Definition READY_OUT : Z := 0x004.
Definition READY_ERR : Z := 0x008.
Definition READY_HUP : Z := 0x010.

Definition MAXIMUM_EVENTFDS : nat := 64.
Definition EVENTFD_BASE : Z := 0x100.

Inductive EventFdError :=
| InvalidArgument
| BadFileDescriptor
| WouldBlock
| Overflow
| Capacity
| PermissionDenied.

#[global] Instance EventFdError_eq_dec : EqDecision EventFdError.
Proof. solve_decision. Defined.

Record EventFdSlot := mkSlot {
  owner : Z;
  counter : Z;
  flags : Z;
  readiness_gen : Z;
}.

Definition EMPTY : EventFdSlot := mkSlot 0 0 0 0.

Definition occupied (s : EventFdSlot) : bool := negb (owner s =? 0).

Abbreviation Table := (list EventFdSlot).

(** The static table at boot. *)
Definition EVENTFDS : Table := replicate MAXIMUM_EVENTFDS EMPTY.

Definition index_for_fd (fd : Z) : option nat :=
  base_index EVENTFD_BASE MAXIMUM_EVENTFDS fd.
Definition fd_for_index (index : nat) : Z := base_fd EVENTFD_BASE index.

#[global] Instance eventfd_slots : OwnedSlots Z EventFdSlot EventFdError := {
  empty_slot := EMPTY;
  owned_by := λ own s, occupied s && (owner s =? own);
  index_of := index_for_fd;
  fd_of := fd_for_index;
  table_size := MAXIMUM_EVENTFDS;
  bad_descriptor := BadFileDescriptor;
  index_of_Some := base_index_Some EVENTFD_BASE MAXIMUM_EVENTFDS;
  empty_unowned := λ own, eq_refl;
}.

Definition create (own initial flg : Z) : M Table EventFdError Z :=
  _ ← ensure (negb (own =? 0) && (and_not flg EVENTFD_ALLOWED_FLAGS =? 0)) InvalidArgument;
  table ← getS;
  index ← ok_or (position (λ s, negb (occupied s)) table) Capacity;
  _ ← store index (mkSlot own initial flg (z_of_bool (negb (initial =? 0))));
  mret (fd_for_index index).

Definition read (own fd : Z) : M Table EventFdError Z :=
  index ← fd_index fd;
  slot ← owned_slot own index;
  _ ← ensure (negb (counter slot =? 0)) WouldBlock;
  if negb (Z.land (flags slot) EFD_SEMAPHORE =? 0) then
    let counter' := counter slot - 1 in
    let gen' := if counter' =? 0
                then wrapping_add U64_MAX (readiness_gen slot) 1
                else readiness_gen slot in
    _ ← store index (mkSlot (owner slot) counter' (flags slot) gen');
    mret 1
  else
    let value := counter slot in
    let gen' := if negb (value =? 0)
                then wrapping_add U64_MAX (readiness_gen slot) 1
                else readiness_gen slot in
    _ ← store index (mkSlot (owner slot) 0 (flags slot) gen');
    mret value.

Definition write (own fd value : Z) : M Table EventFdError unit :=
  index ← fd_index fd;
  _ ← ensure (negb (value =? U64_MAX)) InvalidArgument;
  slot ← owned_slot own index;
  counter' ← ok_or (checked_add U64_MAX (counter slot) value) Overflow;
  let gen' := if (counter slot =? 0) && negb (counter' =? 0)
              then wrapping_add U64_MAX (readiness_gen slot) 1
              else readiness_gen slot in
  store index (mkSlot (owner slot) counter' (flags slot) gen').

Definition readiness (own fd : Z) : M Table EventFdError Z :=
  index ← fd_index fd;
  slot ← owned_slot own index;
  let ready := READY_OUT in
  let ready := if negb (counter slot =? 0) then Z.lor ready READY_IN else ready in
  let ready := if counter slot =? U64_MAX then and_not ready READY_OUT else ready in
  mret ready.

Definition readiness_generation (own fd : Z) : M Table EventFdError Z :=
  index ← fd_index fd;
  slot ← owned_slot own index;
  mret (readiness_gen slot).

Definition close (own fd : Z) : M Table EventFdError unit :=
  index ← fd_index fd;
  _ ← owned_slot own index;
  store index EMPTY.

Definition close_all (own : Z) (table : Table) : nat * Table :=
  if own =? 0 then (O, table)
  else close_where (λ s, owner s =? own) table.

Definition close_on_exec (own : Z) (table : Table) : nat * Table :=
  if own =? 0 then (O, table)
  else close_where
    (λ s, (owner s =? own) && negb (Z.land (flags s) EFD_CLOEXEC =? 0)) table.

(** ** Access lemmas *)

Lemma efd_read_run own fd t :
  read own fd t =
  match lookup_owned t own fd with
  | None => (Err BadFileDescriptor, t)
  | Some (i, s) =>
      if counter s =? 0 then (Err WouldBlock, t)
      else if Z.land (flags s) EFD_SEMAPHORE =? 0 then
        (Ok (counter s),
         <[i := mkSlot (owner s) 0 (flags s) (wrapping_add U64_MAX (readiness_gen s) 1)]> t)
      else
        (Ok 1,
         <[i := mkSlot (owner s) (counter s - 1) (flags s)
                  (if counter s =? 1 then wrapping_add U64_MAX (readiness_gen s) 1
                   else readiness_gen s)]> t)
  end.
Proof.
  unfold read. rewrite access_run.
  destruct (lookup_owned t own fd) as [[i s]|]; [|done].
  unfold store. m_unfold. destruct (counter s =? 0) eqn:E; simpl; [done|].
  destruct (Z.land _ _ =? 0); simpl; [done|].
  by replace (counter s - 1 =? 0) with (counter s =? 1) by lia.
Qed.

Lemma write_run own fd v t :
  write own fd v t =
  match index_for_fd fd with
  | None => (Err BadFileDescriptor, t)
  | Some _ =>
      if v =? U64_MAX then (Err InvalidArgument, t)
      else
        match lookup_owned t own fd with
        | None => (Err BadFileDescriptor, t)
        | Some (i, s) =>
            if U64_MAX <? counter s + v then (Err Overflow, t)
            else
              (Ok tt,
               <[i := mkSlot (owner s) (counter s + v) (flags s)
                        (if (counter s =? 0) && negb (counter s + v =? 0)
                         then wrapping_add U64_MAX (readiness_gen s) 1
                         else readiness_gen s)]> t)
        end
  end.
Proof.
  unfold write. rewrite access_check_run. simpl (index_of _).
  destruct (index_for_fd fd); [|done]. destruct (v =? U64_MAX); simpl; [done|].
  destruct (lookup_owned t own fd) as [[i s]|]; [|done].
  unfold store, checked_add. m_unfold. rewrite Z.leb_antisym.
  by destruct (U64_MAX <? counter s + v).
Qed.

Lemma create_run own initial flg t :
  create own initial flg t =
  if negb (own =? 0) && (and_not flg EVENTFD_ALLOWED_FLAGS =? 0) then
    match position (λ s, negb (occupied s)) t with
    | None => (Err Capacity, t)
    | Some i =>
        (Ok (fd_for_index i),
         <[i := mkSlot own initial flg (z_of_bool (negb (initial =? 0)))]> t)
    end
  else (Err InvalidArgument, t).
Proof.
  unfold create, store. m_unfold. destruct (_ && _); [|done].
  by destruct (position _ t).
Qed.

Lemma efd_close_run own fd t :
  close own fd t =
  match lookup_owned t own fd with
  | None => (Err BadFileDescriptor, t)
  | Some (i, _) => (Ok tt, <[i := EMPTY]> t)
  end.
Proof.
  unfold close. rewrite access_run. by destruct (lookup_owned t own fd) as [[i s]|].
Qed.

Lemma efd_readiness_run own fd t :
  readiness own fd t =
  match lookup_owned t own fd with
  | None => (Err BadFileDescriptor, t)
  | Some (_, s) =>
      (Ok (if counter s =? U64_MAX then READY_IN
           else if counter s =? 0 then READY_OUT
           else Z.lor READY_IN READY_OUT), t)
  end.
Proof.
  unfold readiness. rewrite access_run.
  destruct (lookup_owned t own fd) as [[i s]|]; [|done]. m_unfold.
  destruct (Z.eqb_spec (counter s) U64_MAX) as [->|]; [done|].
  by destruct (counter s =? 0).
Qed.

(** ** Well-formed tables *)

Record slot_wf (s : EventFdSlot) : Prop := {
  wf_owner : is_u32 (owner s);
  wf_counter : is_u64 (counter s);
  wf_flags : and_not (flags s) EVENTFD_ALLOWED_FLAGS = 0;
  wf_gen : is_u64 (readiness_gen s);
}.

Record table_wf (t : Table) : Prop := {
  wf_length : length t = MAXIMUM_EVENTFDS;
  wf_slots : ∀ i s, t !! i = Some s → slot_wf s;
}.

Lemma efd_slot_wf_empty : slot_wf EMPTY.
Proof. by split. Qed.

Lemma efd_table_wf_boot : table_wf EVENTFDS.
Proof.
  split; [apply length_replicate|].
  intros i s [-> _]%lookup_replicate. apply efd_slot_wf_empty.
Qed.

Lemma efd_table_wf_insert t i s : table_wf t → slot_wf s → table_wf (<[i := s]> t).
Proof.
  intros [Hl Hs] Hw. split; [by rewrite length_insert|].
  intros j s' [(_ & <- & _)|[_ H]]%lookup_insert_cases; eauto.
Qed.

Lemma efd_table_wf_close_where p t : table_wf t → table_wf (close_where p t).2.
Proof.
  intros [Hl Hs]. split; [by rewrite close_where_length|].
  intros i s. simpl. rewrite update_where_lookup.
  intros (x & Hx & ->)%fmap_Some. destruct (p x); eauto using efd_slot_wf_empty.
Qed.

Lemma gen_wf g : is_u64 (wrapping_add U64_MAX g 1).
Proof. by apply wrapping_add_range. Qed.

Create HintDb eventfd.
#[export] Hint Resolve efd_table_wf_insert efd_table_wf_close_where efd_slot_wf_empty gen_wf : eventfd.

(** The operations as data: one step of a run of the component. *)
Inductive Op :=
| OpCreate (own initial flg : Z)
| OpRead (own fd : Z)
| OpWrite (own fd value : Z)
| OpClose (own fd : Z)
| OpCloseAll (own : Z)
| OpCloseOnExec (own : Z).

(** The result of a step, the value where the operation has one. *)
Definition exec (op : Op) (t : Table) : Result Z EventFdError * Table :=
  match op with
  | OpCreate own initial flg => create own initial flg t
  | OpRead own fd => read own fd t
  | OpWrite own fd v => let '(r, t') := write own fd v t in
                        (match r with Ok _ => Ok 0 | Err e => Err e end, t')
  | OpClose own fd => let '(r, t') := close own fd t in
                      (match r with Ok _ => Ok 0 | Err e => Err e end, t')
  | OpCloseAll own => let '(n, t') := close_all own t in (Ok (Z.of_nat n), t')
  | OpCloseOnExec own => let '(n, t') := close_on_exec own t in (Ok (Z.of_nat n), t')
  end.

(** The machine ranges of the arguments. *)
Definition op_in_range (op : Op) : Prop :=
  match op with
  | OpCreate own initial _ => is_u32 own ∧ is_u64 initial
  | OpWrite _ _ v => is_u64 v
  | _ => True
  end.

Lemma efd_lookup_owned_wf t own fd i s :
  table_wf t → lookup_owned t own fd = Some (i, s) → slot_wf s.
Proof. intros [_ H] (_ & Hi & _)%lookup_owned_Some. eauto. Qed.

Lemma efd_exec_wf op t : op_in_range op → table_wf t → table_wf (exec op t).2.
Proof.
  intros Hr Hw. destruct op as [own ini flg|own fd|own fd v|own fd|own|own]; simpl in *.
  - rewrite create_run. case_match eqn:Hc; [|done]. case_match; [|done].
    apply andb_true_iff in Hc as [_ Hf]. simpl. apply efd_table_wf_insert; [done|].
    split; simpl; [naive_solver| naive_solver | lia | by destruct (ini =? 0)].
  - rewrite efd_read_run. destruct (lookup_owned t own fd) as [[i s]|] eqn:E; [|done].
    pose proof (efd_lookup_owned_wf _ _ _ _ _ Hw E) as [? [? ?] ? ?].
    destruct (Z.eqb_spec (counter s) 0); [done|]. destruct (_ =? 0); simpl.
    + apply efd_table_wf_insert; [done|]. split; simpl; auto using gen_wf. done.
    + apply efd_table_wf_insert; [done|]. split; simpl; auto.
      * split; lia.
      * case_match; auto using gen_wf.
  - rewrite write_run. destruct (index_for_fd fd); [|done].
    destruct (v =? U64_MAX); [done|].
    destruct (lookup_owned t own fd) as [[i s]|] eqn:E; [|done].
    pose proof (efd_lookup_owned_wf _ _ _ _ _ Hw E) as [? [? ?] ? ?].
    destruct (Z.ltb_spec U64_MAX (counter s + v)); simpl; [done|].
    apply efd_table_wf_insert; [done|]. destruct Hr. split; simpl; auto.
    + split; lia.
    + case_match; auto using gen_wf.
  - rewrite efd_close_run. destruct (lookup_owned t own fd) as [[i s]|]; simpl;
      auto with eventfd.
  - unfold close_all. destruct (own =? 0); simpl; [done|].
    by apply (efd_table_wf_close_where (λ s, owner s =? own)).
  - unfold close_on_exec. destruct (own =? 0); simpl; [done|].
    by apply (efd_table_wf_close_where
      (λ s, (owner s =? own) && negb (Z.land (flags s) EFD_CLOEXEC =? 0))).
Qed.

(** ** Runs *)

Fixpoint exec_all (ops : list Op) (t : Table) : list (Result Z EventFdError) * Table :=
  match ops with
  | [] => ([], t)
  | op :: ops =>
      let '(r, t') := exec op t in
      let '(rs, t'') := exec_all ops t' in (r :: rs, t'')
  end.

(** What a completed step adds to the counter of [fd]. *)
Definition flow (fd : Z) (op : Op) (r : Result Z EventFdError) : Z :=
  match op, r with
  | OpWrite _ f v, Ok _ => if f =? fd then v else 0
  | OpRead _ f, Ok v => if f =? fd then - v else 0
  | _, _ => 0
  end.

Fixpoint total_flow (fd : Z) (ops : list Op) (rs : list (Result Z EventFdError)) : Z :=
  match ops, rs with
  | op :: ops, r :: rs => flow fd op r + total_flow fd ops rs
  | _, _ => 0
  end.

(** The steps that do not release this very eventfd: its owner neither closes
    the descriptor, nor ends, nor executes a new image with it marked
    close-on-exec. *)
Definition keeps_open (fd : Z) (s : EventFdSlot) (op : Op) : bool :=
  match op with
  | OpClose own f => negb ((own =? owner s) && (f =? fd))
  | OpCloseAll own => negb (own =? owner s)
  | OpCloseOnExec own => negb ((own =? owner s) && negb (Z.land (flags s) EFD_CLOEXEC =? 0))
  | _ => true
  end.

Lemma occupied_owner s : occupied s = true ↔ owner s ≠ 0.
Proof. unfold occupied. destruct (Z.eqb_spec (owner s) 0); naive_solver. Qed.

Lemma owned_by_eventfd own s :
  owned_by own s = true ↔ owner s = own ∧ own ≠ 0.
Proof.
  simpl. unfold occupied.
  destruct (Z.eqb_spec (owner s) 0), (Z.eqb_spec (owner s) own); naive_solver lia.
Qed.

Lemma fd_for_index_eqb i j : (fd_for_index j =? fd_for_index i) = bool_decide (j = i).
Proof. unfold fd_for_index, base_fd. case_bool_decide; lia. Qed.

Lemma lookup_owned_eventfd t own fd j s :
  lookup_owned t own fd = Some (j, s) →
  fd = fd_for_index j ∧ t !! j = Some s ∧ owner s = own.
Proof.
  intros H%lookup_owned_Some. split; [by apply owned_fd in H|].
  destruct H as (_ & ? & Hb%owned_by_eventfd). naive_solver.
Qed.

(** One step, seen from one occupied slot. *)
Section OneSlot.
Context (t : Table) (i : nat) (s : EventFdSlot).
Hypothesis Hi : t !! i = Some s.
Hypothesis Ho : occupied s = true.

(** After a step the slot is still there and has moved by [d]. *)
Definition moved (d : Z) (t' : Table) : Prop :=
  ∃ s', t' !! i = Some s' ∧ owner s' = owner s ∧ flags s' = flags s ∧
        counter s' = counter s + d.

Lemma moved_same : moved 0 t.
Proof. exists s. split_and!; auto; lia. Qed.

Lemma moved_other j s0 : j ≠ i → moved 0 (<[j := s0]> t).
Proof. intros. exists s. rewrite list_lookup_insert_ne by done. split_and!; auto; lia. Qed.

Lemma moved_self s' :
  owner s' = owner s → flags s' = flags s →
  moved (counter s' - counter s) (<[i := s']> t).
Proof.
  intros. exists s'. rewrite list_lookup_insert_eq by by eapply lookup_lt_Some.
  split_and!; auto; lia.
Qed.

Lemma moved_close_where p : p s = false → moved 0 (close_where p t).2.
Proof.
  intros Hp. exists s. simpl. rewrite update_where_lookup, Hi. simpl. rewrite Hp.
  split_and!; auto; lia.
Qed.

Lemma create_slot own ini flg : moved 0 (create own ini flg t).2.
Proof.
  rewrite create_run. case_match; [|apply moved_same].
  destruct (position _ t) as [j|] eqn:Hp; [|apply moved_same].
  apply position_lookup in Hp as (x & Hx & Hfree). apply moved_other.
  intros ->. simplify_eq. by rewrite Ho in Hfree.
Qed.

Lemma read_slot own fd :
  moved (flow (fd_for_index i) (OpRead own fd) (read own fd t).1) (read own fd t).2.
Proof.
  rewrite efd_read_run. destruct (lookup_owned t own fd) as [[j s0]|] eqn:E; simpl;
    [|apply moved_same].
  apply lookup_owned_eventfd in E as (-> & Hj & <-). rewrite fd_for_index_eqb.
  destruct (counter s0 =? 0); simpl; [apply moved_same|].
  destruct (decide (j = i)) as [->|Hji]; simplify_eq.
  - destruct (_ =? 0); simpl; rewrite bool_decide_eq_true_2 by done.
    + replace (- counter s) with (0 - counter s) by lia. by apply moved_self.
    + replace (- (1)) with (counter s - 1 - counter s) by lia. by apply moved_self.
  - destruct (_ =? 0); simpl; rewrite bool_decide_eq_false_2 by done;
      by apply moved_other.
Qed.

Lemma write_slot own fd v :
  moved (flow (fd_for_index i) (OpWrite own fd v) (exec (OpWrite own fd v) t).1)
    (exec (OpWrite own fd v) t).2.
Proof.
  simpl. rewrite write_run. destruct (index_for_fd fd); [|apply moved_same].
  destruct (v =? U64_MAX); [apply moved_same|].
  destruct (lookup_owned t own fd) as [[j s0]|] eqn:E; simpl; [|apply moved_same].
  apply lookup_owned_eventfd in E as (-> & Hj & <-). rewrite fd_for_index_eqb.
  destruct (U64_MAX <? _); simpl; [apply moved_same|].
  destruct (decide (j = i)) as [->|Hji]; simplify_eq.
  - rewrite bool_decide_eq_true_2 by done.
    replace v with (counter s + v - counter s) at 1 by lia. by apply moved_self.
  - rewrite bool_decide_eq_false_2 by done. by apply moved_other.
Qed.

Lemma close_slot own fd : own ≠ owner s ∨ fd ≠ fd_for_index i → moved 0 (close own fd t).2.
Proof.
  intros Hne. rewrite efd_close_run.
  destruct (lookup_owned t own fd) as [[j s0]|] eqn:E; [|apply moved_same].
  apply lookup_owned_eventfd in E as (-> & Hj & <-). apply moved_other.
  intros ->. simplify_eq. naive_solver.
Qed.

Lemma exec_slot op :
  keeps_open (fd_for_index i) s op = true →
  moved (flow (fd_for_index i) op (exec op t).1) (exec op t).2.
Proof.
  destruct op as [own ini flg|own fd|own fd v|own fd|own|own]; intros Hk; simpl in Hk.
  - apply create_slot.
  - apply read_slot.
  - apply write_slot.
  - pose proof (close_slot own fd ltac:(lia)). simpl. by destruct (close own fd t).
  - simpl. unfold close_all. destruct (own =? 0); [apply moved_same|].
    apply (moved_close_where (λ s0, owner s0 =? own)). lia.
  - simpl. unfold close_on_exec. destruct (own =? 0); [apply moved_same|].
    apply (moved_close_where
      (λ s0, (owner s0 =? own) && negb (Z.land (flags s0) EFD_CLOEXEC =? 0))).
    rewrite Z.eqb_sym. by apply negb_true_iff.
Qed.
End OneSlot.

(** ** Properties *)

(** Every operation keeps the eventfd table well formed: the array keeps
    its length, owners fit in 32 bits, counters and generations in 64, and only
    permitted flags are stored; so no stored counter ever wraps. *)
Theorem eventfd_table_wf (ops : list Op) (t : Table) :
  Forall op_in_range ops → table_wf t → table_wf (exec_all ops t).2.
Proof.
  intros Hr. revert t. induction Hr as [|op ops Hop Hr IH]; intros t Hw; simpl; [done|].
  pose proof (efd_exec_wf op t Hop Hw) as Hw'. destruct (exec op t) as [r t'].
  specialize (IH t' Hw'). by destruct (exec_all ops t').
Qed.

(** C15. Conservation: as long as this very eventfd is not released (by a close
    of its descriptor by its owner, by the end of its owner, or by an exec of its
    owner when it is marked close-on-exec), whatever operations run in whatever
    order, those of other processes and the closing of other descriptors by the
    same owner included, its counter is its initial value plus everything
    successfully written to it minus everything read from it, and its owner and
    flags stay. *)
Theorem eventfd_conservation (ops : list Op) (t : Table) (i : nat) (s : EventFdSlot) :
  t !! i = Some s → occupied s = true →
  Forall (λ op, keeps_open (fd_for_index i) s op = true) ops →
  ∃ s', (exec_all ops t).2 !! i = Some s' ∧ owner s' = owner s ∧ flags s' = flags s ∧
        counter s' = counter s + total_flow (fd_for_index i) ops (exec_all ops t).1.
Proof.
  revert t s. induction ops as [|op ops IH]; intros t s Hi Ho Hk; simpl.
  { exists s. split_and!; auto; lia. }
  apply Forall_cons_1 in Hk as [Hop Hk].
  destruct (exec_slot t i s Hi Ho op Hop) as (s1 & Hs1 & Ho1 & Hf1 & Hc1).
  destruct (exec op t) as [r t1]; simpl in *.
  destruct (IH t1 s1) as (s2 & Hs2 & Ho2 & Hf2 & Hc2).
  { done. } { by rewrite occupied_owner, Ho1, <- occupied_owner. }
  { revert Hk. apply Forall_impl. intros x. by destruct x; simpl; rewrite ?Ho1, ?Hf1. }
  destruct (exec_all ops t1) as [rs t2]; simpl in *.
  exists s2. split_and!; try congruence. lia.
Qed.

(** The outcome [poll] predicts: a read succeeds exactly when [READY_IN] is
    reported, a write of one unit exactly when [READY_OUT] is. *)
Definition ready_in (r : Z) : bool := negb (Z.land r READY_IN =? 0).
Definition ready_out (r : Z) : bool := negb (Z.land r READY_OUT =? 0).

(** Readiness is a correct prediction: on a well-formed table, for the
    owner of an eventfd, [READY_IN] is reported exactly when the next read
    returns a value, [READY_OUT] exactly when the next write of 1 is accepted,
    and asking changes nothing. *)
Theorem eventfd_readiness_predicts (own fd : Z) (t : Table) (i : nat) (s : EventFdSlot) :
  table_wf t → owned t own fd i s →
  ∃ r, readiness own fd t = (Ok r, t) ∧
       ready_in r = is_ok (read own fd t).1 ∧
       ready_out r = is_ok (write own fd 1 t).1.
Proof.
  intros Hw Ho. pose proof Ho as Hl%lookup_owned_Some.
  pose proof (efd_lookup_owned_wf _ _ _ _ _ Hw Hl) as [_ [Hc0 Hc1] _ _].
  rewrite efd_readiness_run, efd_read_run, write_run, Hl.
  destruct Ho as (Hidx & _). simpl in Hidx. rewrite Hidx.
  eexists. split; [done|]. simpl (1 =? U64_MAX).
  destruct (Z.eqb_spec (counter s) U64_MAX) as [E|E].
  - rewrite E. simpl. by destruct (Z.land (flags s) EFD_SEMAPHORE =? 0).
  - destruct (Z.ltb_spec U64_MAX (counter s + 1)); [lia|].
    destruct (Z.eqb_spec (counter s) 0); [done|].
    by destruct (Z.land (flags s) EFD_SEMAPHORE =? 0).
Qed.

(** The transition generation edge-triggered watches rely on moves exactly
    when a completed read or write crosses between an empty and a readable
    counter. *)
Theorem eventfd_generation_edges (op : Op) (t : Table) (i : nat) (s s' : EventFdSlot) :
  table_wf t → t !! i = Some s → occupied s = true → op_in_range op →
  (∃ own fd, op = OpRead own fd ∨ ∃ v, op = OpWrite own fd v) →
  (exec op t).2 !! i = Some s' →
  (readiness_gen s' ≠ readiness_gen s ↔ (counter s' =? 0) ≠ (counter s =? 0)).
Proof.
  intros [Hlen Hw] Hi Ho Hr Hop Hs'.
  destruct (Hw _ _ Hi) as [_ [Hc0 Hc1] _ Hg].
  pose proof (wrapping_add_1_ne U64_MAX _ ltac:(done) Hg) as Hgne.
  assert (i < length t)%nat as Hlt by by eapply lookup_lt_Some.
  destruct Hop as (own & fd & [->|[v ->]]); simpl in Hs'.
  - rewrite efd_read_run in Hs'.
    destruct (lookup_owned t own fd) as [[j s0]|] eqn:E; simplify_eq/=; [|tauto].
    apply lookup_owned_eventfd in E as (_ & Hj & _).
    destruct (Z.eqb_spec (counter s0) 0); simplify_eq/=; [tauto|].
    destruct (Z.land _ _ =? 0); simpl in Hs';
      apply lookup_insert_cases in Hs' as [(-> & <- & _)|[_ ?]]; simplify_eq/=;
      try tauto.
    + destruct (Z.eqb_spec (counter s) 0); naive_solver.
    + destruct (Z.eqb_spec (counter s) 1), (Z.eqb_spec (counter s - 1) 0),
        (Z.eqb_spec (counter s) 0); naive_solver lia.
  - rewrite write_run in Hs'. destruct (index_for_fd fd); simplify_eq/=; [|tauto].
    destruct (v =? U64_MAX); simplify_eq/=; [tauto|].
    destruct (lookup_owned t own fd) as [[j s0]|] eqn:E; simplify_eq/=; [|tauto].
    apply lookup_owned_eventfd in E as (_ & Hj & _).
    destruct (U64_MAX <? _); simplify_eq/=; [tauto|].
    apply lookup_insert_cases in Hs' as [(-> & <- & _)|[_ ?]]; simplify_eq/=; [|tauto].
    destruct Hr. destruct (Z.eqb_spec (counter s) 0), (Z.eqb_spec (counter s + v) 0);
      naive_solver lia.
Qed.

(** The reserved all-ones value is reachable: a write that brings the
    counter to [u64::MAX] is accepted and the descriptor stops being writable.
    A semaphore read then makes it writable again, and the transition
    generation does not move across that full/writable edge. *)
Theorem eventfd_full_edge_unreported (own fd : Z) (t : Table) (i : nat) (s : EventFdSlot) :
  table_wf t → owned t own fd i s → Z.land (flags s) EFD_SEMAPHORE = EFD_SEMAPHORE →
  counter s = U64_MAX - 1 →
  ∃ t1 t2,
    write own fd 1 t = (Ok tt, t1) ∧ readiness own fd t1 = (Ok READY_IN, t1) ∧
    read own fd t1 = (Ok 1, t2) ∧ readiness own fd t2 = (Ok (Z.lor READY_IN READY_OUT), t2) ∧
    (readiness_generation own fd t1).1 = (readiness_generation own fd t2).1.
Proof.
  intros Hw Ho Hsem Hc. pose proof Ho as Hl%lookup_owned_Some.
  pose proof Ho as (Hidx & Hi & Hb). simpl in Hidx.
  assert (i < length t)%nat as Hlt by by eapply lookup_lt_Some.
  assert (∀ c g, lookup_owned (<[i := mkSlot (owner s) c (flags s) g]> t) own fd
    = Some (i, mkSlot (owner s) c (flags s) g)) as Hnew.
  { intros c g. apply lookup_owned_Some. split_and!; [done| |done].
    by apply list_lookup_insert_eq. }
  rewrite write_run, Hl, Hidx, Hc. do 2 eexists. split; [reflexivity|].
  rewrite efd_readiness_run, efd_read_run, Hnew. simpl. rewrite Hsem. simpl.
  rewrite list_insert_insert_eq. split; [done|]. split; [reflexivity|].
  rewrite efd_readiness_run, Hnew. split; [done|].
  unfold readiness_generation. by rewrite !access_run, !Hnew.
Qed.

(** ** Witnesses *)

Definition sample_ops : list Op :=
  [OpCreate 7 2 EFD_SEMAPHORE; OpWrite 7 256 5; OpRead 8 256; OpRead 7 256;
   OpCreate 9 0 0; OpWrite 9 257 3; OpCloseAll 9].

Lemma eventfd_table_wf_witness : table_wf (exec_all sample_ops EVENTFDS).2.
Proof.
  apply eventfd_table_wf; [|apply efd_table_wf_boot].
  repeat constructor; simpl; unfold is_u32, is_u64, U32_MAX, U64_MAX; lia.
Defined.

Definition sample_table : Table :=
  <[0%nat := mkSlot 7 2 EFD_SEMAPHORE 1]> EVENTFDS.

(** Its owner opens and closes another eventfd, and executes a new image. *)
Definition conserving_ops : list Op :=
  [OpWrite 7 256 5; OpCreate 7 1 EFD_CLOEXEC; OpRead 8 256; OpClose 7 257; OpCloseOnExec 7; OpRead 7 256].

Lemma eventfd_conservation_witness :
  ∃ s', (exec_all conserving_ops sample_table).2 !! 0%nat = Some s' ∧
    owner s' = 7 ∧ flags s' = EFD_SEMAPHORE ∧ counter s' = 6.
Proof.
  exact (eventfd_conservation conserving_ops sample_table 0 (mkSlot 7 2 EFD_SEMAPHORE 1) eq_refl eq_refl
    ltac:(repeat constructor)).
Defined.

Lemma efd_sample_table_wf : table_wf sample_table.
Proof. apply efd_table_wf_insert; [apply efd_table_wf_boot|]. by split. Qed.

Lemma eventfd_readiness_predicts_witness :
  ∃ r, readiness 7 256 sample_table = (Ok r, sample_table) ∧
       ready_in r = true ∧ ready_out r = true.
Proof.
  exact (eventfd_readiness_predicts 7 256 sample_table 0 (mkSlot 7 2 EFD_SEMAPHORE 1)
    efd_sample_table_wf (conj eq_refl (conj eq_refl eq_refl))).
Defined.

Lemma eventfd_generation_edges_witness :
  2 ≠ 1 ↔ (0 =? 0) ≠ (1 =? 0).
Proof.
  apply (eventfd_generation_edges (OpRead 7 256) (<[0%nat := mkSlot 7 1 EFD_SEMAPHORE 1]> EVENTFDS)
    0 (mkSlot 7 1 EFD_SEMAPHORE 1) (mkSlot 7 0 EFD_SEMAPHORE 2)).
  - apply efd_table_wf_insert; [apply efd_table_wf_boot|]. by split.
  - reflexivity.
  - reflexivity.
  - exact I.
  - exists 7, 256. by left.
  - vm_compute. reflexivity.
Defined.

Lemma eventfd_full_edge_unreported_witness :
  ∃ t1 t2,
    write 7 256 1 (<[0%nat := mkSlot 7 (U64_MAX - 1) EFD_SEMAPHORE 1]> EVENTFDS) = (Ok tt, t1) ∧
    readiness 7 256 t1 = (Ok READY_IN, t1) ∧ read 7 256 t1 = (Ok 1, t2) ∧
    readiness 7 256 t2 = (Ok (Z.lor READY_IN READY_OUT), t2) ∧
    (readiness_generation 7 256 t1).1 = (readiness_generation 7 256 t2).1.
Proof.
  apply (eventfd_full_edge_unreported 7 256 _ 0 (mkSlot 7 (U64_MAX - 1) EFD_SEMAPHORE 1)).
  - apply efd_table_wf_insert; [apply efd_table_wf_boot|]. by split.
  - by split_and!.
  - reflexivity.
  - reflexivity.
Defined.
