(* ===== verification/UnixAddress.v ===== *)
(** * Unix-domain socket addresses: linux_socket.rs, UnixAddress

    Names of stream and datagram sockets: a path in a zero-padded array. *)

From stdpp Require Import prelude list numbers option.
From Stdlib Require Import ZArith Lia.
From S2P Require Import Prelude.

Definition UNIX_PATH_BYTES : nat := 108.

Record UnixAddress := mkAddress {
  ua_bytes : list Z;
  ua_length : nat;
}.

#[global] Instance UnixAddress_eq_dec : EqDecision UnixAddress.
Proof. solve_decision. Defined.

Definition UNNAMED : UnixAddress := mkAddress (replicate UNIX_PATH_BYTES 0) 0.

(** [UnixAddress::new] *)
Definition new_address (path : list Z) : option UnixAddress :=
  if (length path =? 0)%nat || (UNIX_PATH_BYTES <? length path)%nat then None
  else Some (mkAddress (path ++ replicate (UNIX_PATH_BYTES - length path) 0) (length path)).

Definition as_bytes (a : UnixAddress) : list Z := take (ua_length a) (ua_bytes a).
Definition is_unnamed (a : UnixAddress) : bool := (ua_length a =? 0)%nat.
Definition is_abstract (a : UnixAddress) : bool :=
  negb (ua_length a =? 0)%nat && (slot_at 0 (ua_bytes a) 0 =? 0).

(** The path comes back, and different paths give different addresses. *)
Lemma address_roundtrip path a : new_address path = Some a → as_bytes a = path ∧ is_unnamed a = false.
Proof.
  unfold new_address. destruct (_ || _) eqn:Hp; [done|]. intros [= <-]. apply orb_false_iff in Hp as [Hp _].
  unfold as_bytes. simpl. split; [|done]. by rewrite take_app_length.
Qed.
