(* ===== verification/TimerFd.v ===== *)
(** * Timers: linux_timerfd.rs

    The table of timerfd slots and every operation of the file. Expiry is
    evaluated lazily: [refresh] advances a slot to the current time in one
    division. The theorems say that this lazy evaluation is unobservable (it
    agrees with a tick-by-tick clock, and with any earlier refresh), and what
    [read], [gettime] and [readiness] report after [settime]. *)

From stdpp Require Import prelude list numbers option.
From Stdlib Require Import ZArith Lia.
From S2P Require Import Prelude.
From S2P Require Import Handles.
From S2P Require Import OwnedTable.
From S2P Require Import EventFd.

Definition CLOCK_MONOTONIC : Z := 1.
Definition TFD_TIMER_ABSTIME : Z := 1.
Definition TFD_NONBLOCK : Z := 0x800.
Definition TFD_CLOEXEC : Z := 0x80000.
Definition TIMERFD_CREATE_ALLOWED_FLAGS : Z := Z.lor TFD_NONBLOCK TFD_CLOEXEC.
Definition TIMERFD_SETTIME_ALLOWED_FLAGS : Z := TFD_TIMER_ABSTIME.

Definition MAXIMUM_TIMERFDS : nat := 64.
Definition TIMERFD_BASE : Z := 0x2000.

Record TimerSpec := mkSpec {
  value_ns : Z;
  spec_interval_ns : Z;
}.

Definition DISARMED : TimerSpec := mkSpec 0 0.

Inductive TimerFdError :=
| InvalidArgument
| BadFileDescriptor
| WouldBlock
| Capacity.

#[global] Instance TimerFdError_eq_dec : EqDecision TimerFdError.
Proof. solve_decision. Defined.

Record TimerFdSlot := mkSlot {
  owner : Z;
  flags : Z;
  interval_ns : Z;
  next_expiration_ns : Z;
  expirations : Z;
  readiness_gen : Z;
}.

Definition EMPTY : TimerFdSlot := mkSlot 0 0 0 0 0 0.

Definition occupied (s : TimerFdSlot) : bool := negb (owner s =? 0).

Abbreviation Table := (list TimerFdSlot).

Definition TIMERFDS : Table := replicate MAXIMUM_TIMERFDS EMPTY.

Definition index_for_fd (fd : Z) : option nat :=
  base_index TIMERFD_BASE MAXIMUM_TIMERFDS fd.
Definition fd_for_index (index : nat) : Z := base_fd TIMERFD_BASE index.

#[global] Instance timerfd_slots : OwnedSlots Z TimerFdSlot TimerFdError := {
  empty_slot := EMPTY;
  owned_by := λ own s, occupied s && (owner s =? own);
  index_of := index_for_fd;
  fd_of := fd_for_index;
  table_size := MAXIMUM_TIMERFDS;
  bad_descriptor := BadFileDescriptor;
  index_of_Some := base_index_Some TIMERFD_BASE MAXIMUM_TIMERFDS;
  empty_unowned := λ own, eq_refl;
}.

Definition checked_deadline (now_ns value : Z) : option Z :=
  checked_add U64_MAX now_ns value.

Definition create (own clockid flg : Z) : M Table TimerFdError Z :=
  _ ← ensure (negb (own =? 0) && (clockid =? CLOCK_MONOTONIC) &&
              (and_not flg TIMERFD_CREATE_ALLOWED_FLAGS =? 0)) InvalidArgument;
  table ← getS;
  index ← ok_or (position (λ s, negb (occupied s)) table) Capacity;
  _ ← store index (mkSlot own flg 0 0 0 0);
  mret (fd_for_index index).

Definition remaining (slot : TimerFdSlot) (now_ns : Z) : TimerSpec :=
  mkSpec (default 0 (checked_sub (next_expiration_ns slot) now_ns)) (interval_ns slot).

(** Advances a slot to [now_ns], recording every elapsed interval. *)
Definition refresh (slot : TimerFdSlot) (now_ns : Z) : TimerFdSlot :=
  if (next_expiration_ns slot =? 0) || (now_ns <? next_expiration_ns slot) then slot
  else
    let elapsed := now_ns - next_expiration_ns slot in
    let count :=
      if interval_ns slot =? 0 then 1
      else saturating_add U64_MAX (elapsed / interval_ns slot) 1 in
    let was_empty := expirations slot =? 0 in
    let expirations' := saturating_add U64_MAX (expirations slot) count in
    let gen' := if was_empty then wrapping_add U64_MAX (readiness_gen slot) 1
                else readiness_gen slot in
    let next' :=
      if interval_ns slot =? 0 then 0
      else
        let advance := saturating_mul U64_MAX (interval_ns slot) count in
        saturating_add U64_MAX (next_expiration_ns slot) advance in
    mkSlot (owner slot) (flags slot) (interval_ns slot) next' expirations' gen'.

Definition with_timer (slot : TimerFdSlot) (interval next exps : Z) : TimerFdSlot :=
  mkSlot (owner slot) (flags slot) interval next exps (readiness_gen slot).

Definition settime (own fd flg : Z) (new_value : TimerSpec) (now_ns : Z) :
    M Table TimerFdError TimerSpec :=
  _ ← ensure (and_not flg TIMERFD_SETTIME_ALLOWED_FLAGS =? 0) InvalidArgument;
  index ← fd_index fd;
  slot ← owned_slot own index;
  let slot := refresh slot now_ns in
  _ ← store index slot;
  let old := remaining slot now_ns in
  if value_ns new_value =? 0 then
    _ ← store index (with_timer slot 0 0 0);
    mret old
  else
    deadline ←
      (if negb (Z.land flg TFD_TIMER_ABSTIME =? 0) then mret (value_ns new_value)
       else ok_or (checked_deadline now_ns (value_ns new_value)) InvalidArgument);
    _ ← ensure (negb (deadline =? 0)) InvalidArgument;
    _ ← store index (with_timer slot (spec_interval_ns new_value) deadline 0);
    mret old.

Definition gettime (own fd now_ns : Z) : M Table TimerFdError TimerSpec :=
  index ← fd_index fd;
  slot ← owned_slot own index;
  let slot := refresh slot now_ns in
  _ ← store index slot;
  mret (remaining slot now_ns).

Definition read (own fd now_ns : Z) : M Table TimerFdError Z :=
  index ← fd_index fd;
  slot ← owned_slot own index;
  let slot := refresh slot now_ns in
  _ ← store index slot;
  _ ← ensure (negb (expirations slot =? 0)) WouldBlock;
  let value := expirations slot in
  _ ← store index
        (mkSlot (owner slot) (flags slot) (interval_ns slot) (next_expiration_ns slot) 0
           (wrapping_add U64_MAX (readiness_gen slot) 1));
  mret value.

Definition readiness (own fd now_ns : Z) : M Table TimerFdError Z :=
  index ← fd_index fd;
  slot ← owned_slot own index;
  let slot := refresh slot now_ns in
  _ ← store index slot;
  mret (if negb (expirations slot =? 0) then EventFd.READY_IN else 0).

Definition readiness_generation (own fd now_ns : Z) : M Table TimerFdError Z :=
  index ← fd_index fd;
  slot ← owned_slot own index;
  let slot := refresh slot now_ns in
  _ ← store index slot;
  mret (readiness_gen slot).

Definition close (own fd : Z) : M Table TimerFdError unit :=
  index ← fd_index fd;
  _ ← owned_slot own index;
  store index EMPTY.

Definition close_all (own : Z) (table : Table) : nat * Table :=
  if own =? 0 then (O, table)
  else close_where (λ s, owner s =? own) table.

Definition close_on_exec (own : Z) (table : Table) : nat * Table :=
  if own =? 0 then (O, table)
  else close_where
    (λ s, (owner s =? own) && negb (Z.land (flags s) TFD_CLOEXEC =? 0)) table.

(** ** The lazy clock *)

Record slot_wf (s : TimerFdSlot) : Prop := {
  wf_owner : is_u32 (owner s);
  wf_flags : and_not (flags s) TIMERFD_CREATE_ALLOWED_FLAGS = 0;
  wf_interval : is_u64 (interval_ns s);
  wf_next : is_u64 (next_expiration_ns s);
  wf_expirations : is_u64 (expirations s);
  wf_gen : is_u64 (readiness_gen s);
}.

(** A timer is due when it is armed and its deadline has been reached. *)
Definition due (s : TimerFdSlot) (now : Z) : bool :=
  negb (next_expiration_ns s =? 0) && (next_expiration_ns s <=? now).

(** The expiries that happen from the deadline up to [now]. *)
Definition elapsed_count (s : TimerFdSlot) (now : Z) : Z :=
  if interval_ns s =? 0 then 1 else (now - next_expiration_ns s) / interval_ns s + 1.

Lemma refresh_idle s now : due s now = false → refresh s now = s.
Proof.
  unfold due, refresh. rewrite (Z.leb_antisym now).
  by destruct (_ =? 0), (now <? _).
Qed.

Lemma elapsed_count_range s now :
  slot_wf s → due s now = true → now ≤ U64_MAX →
  1 ≤ elapsed_count s now ≤ now - next_expiration_ns s + 1.
Proof.
  intros [_ _ [Hi _] [Hn _] _ _] Hd Hm. unfold due, elapsed_count in *.
  destruct (Z.eqb_spec (interval_ns s) 0); [lia|].
  pose proof (Z.div_pos (now - next_expiration_ns s) (interval_ns s)).
  pose proof (Z.div_le_upper_bound (now - next_expiration_ns s) (interval_ns s)
    (now - next_expiration_ns s)). nia.
Qed.

Lemma refresh_due s now :
  slot_wf s → due s now = true → now ≤ U64_MAX →
  refresh s now =
    mkSlot (owner s) (flags s) (interval_ns s)
      (if interval_ns s =? 0 then 0
       else Z.min U64_MAX (next_expiration_ns s + interval_ns s * elapsed_count s now))
      (Z.min U64_MAX (expirations s + elapsed_count s now))
      (if expirations s =? 0 then wrapping_add U64_MAX (readiness_gen s) 1
       else readiness_gen s).
Proof.
  intros Hw Hd Hm. pose proof (elapsed_count_range s now Hw Hd ltac:(lia)) as Hc.
  destruct Hw as [_ _ [Hi _] [Hn _] _ _].
  unfold refresh. replace (_ || _) with false by (unfold due in Hd; lia).
  unfold elapsed_count, saturating_add, saturating_mul in *.
  destruct (Z.eqb_spec (interval_ns s) 0); [done|].
  rewrite (Z.min_r U64_MAX (_ / _ + 1)) by (unfold due in Hd; lia).
  f_equal. nia.
Qed.

Lemma refresh_wf s now : slot_wf s → 0 ≤ now < U64_MAX → slot_wf (refresh s now).
Proof.
  intros Hw Hm. destruct (due s now) eqn:Hd; [|by rewrite refresh_idle].
  pose proof (elapsed_count_range s now Hw Hd ltac:(lia)) as Hc.
  rewrite refresh_due by (done || lia).
  destruct Hw as [? ? [? ?] [? ?] [? ?] ?]. split; simpl; auto; try (split; lia).
  - unfold is_u64. case_match; unfold U64_MAX in *; nia.
  - case_match; [by apply wrapping_add_range|done].
Qed.

(** One expiry of an armed timer, as an eager clock would process it. *)
Definition tick (s : TimerFdSlot) : TimerFdSlot :=
  mkSlot (owner s) (flags s) (interval_ns s)
    (if interval_ns s =? 0 then 0
     else saturating_add U64_MAX (next_expiration_ns s) (interval_ns s))
    (saturating_add U64_MAX (expirations s) 1)
    (if expirations s =? 0 then wrapping_add U64_MAX (readiness_gen s) 1
     else readiness_gen s).

(** The eager clock: one [tick] per expiry until none is due. *)
Fixpoint run_clock (fuel : nat) (s : TimerFdSlot) (now : Z) : TimerFdSlot :=
  match fuel with
  | O => s
  | S fuel => if due s now then run_clock fuel (tick s) now else s
  end.

Lemma tick_wf s : slot_wf s → slot_wf (tick s).
Proof.
  intros [? ? [? ?] [? ?] [? ?] ?]. unfold tick, saturating_add, is_u64, is_u32 in *.
  split; simpl; unfold is_u64, is_u32; auto; try lia.
  - case_match; lia.
  - case_match; [by apply wrapping_add_range|done].
Qed.

Lemma due_tick s now :
  slot_wf s → due s now = true → 0 ≤ now < U64_MAX →
  due (tick s) now = negb (interval_ns s =? 0) && (1 <? elapsed_count s now).
Proof.
  intros [_ _ [Hi _] [Hn _] _ _] Hd Hm. unfold due, tick, elapsed_count, saturating_add in *.
  simpl. destruct (Z.eqb_spec (interval_ns s) 0) as [|Hne]; [done|]. simpl.
  pose proof (Z.div_mod (now - next_expiration_ns s) (interval_ns s) Hne) as Hdm.
  pose proof (Z.mod_pos_bound (now - next_expiration_ns s) (interval_ns s) ltac:(lia)).
  destruct (Z.leb_spec (Z.min U64_MAX (next_expiration_ns s + interval_ns s)) now) as [H1|H1].
  - assert (0 < (now - next_expiration_ns s) / interval_ns s) by nia. lia.
  - assert ((now - next_expiration_ns s) / interval_ns s < 1) by nia. lia.
Qed.

Lemma elapsed_count_tick s now :
  slot_wf s → due s now = true → 0 ≤ now < U64_MAX → due (tick s) now = true →
  elapsed_count (tick s) now = elapsed_count s now - 1.
Proof.
  intros Hw Hd Hm Ht. pose proof Ht as Ht'. rewrite due_tick in Ht' by done.
  destruct Hw as [_ _ [Hi _] [Hn _] _ _].
  unfold due, tick, elapsed_count, saturating_add in *. simpl in *.
  destruct (Z.eqb_spec (interval_ns s) 0) as [|Hne]; [lia|].
  rewrite Z.min_r by lia.
  replace (now - (next_expiration_ns s + interval_ns s))
    with (now - next_expiration_ns s + (-1) * interval_ns s) by lia.
  rewrite Z.div_add by lia. lia.
Qed.

(** A due timer may be advanced by one expiry first. *)
Lemma refresh_tick s now :
  slot_wf s → due s now = true → 0 ≤ now < U64_MAX →
  refresh s now = refresh (tick s) now.
Proof.
  intros Hw Hd Hm. pose proof (elapsed_count_range s now Hw Hd ltac:(lia)) as Hc.
  pose proof (due_tick s now Hw Hd Hm) as Ht. rewrite (refresh_due s) by (done || lia).
  pose proof Hw as [_ _ [Hi _] [Hn _] [He _] _].
  destruct (due (tick s) now) eqn:Hdt.
  - rewrite (refresh_due (tick s)) by (apply tick_wf || done || lia; done).
    rewrite elapsed_count_tick by done. unfold tick, saturating_add. simpl.
    destruct (Z.eqb_spec (interval_ns s) 0); [done|].
    destruct (Z.eqb_spec (Z.min U64_MAX (expirations s + 1)) 0); [unfold U64_MAX in *; lia|].
    unfold due, tick, saturating_add in Hdt. simpl in Hdt.
    destruct (Z.eqb_spec (interval_ns s) 0); [done|].
    f_equal; lia.
  - rewrite (refresh_idle (tick s)) by done. unfold tick, saturating_add.
    destruct (Z.eqb_spec (interval_ns s) 0) as [E|E].
    + unfold elapsed_count. by rewrite E.
    + replace (elapsed_count s now) with 1 by lia. by rewrite Z.mul_1_r.
Qed.

(** ** Access lemmas *)

Lemma advance_run {A} own fd now t (k : nat → TimerFdSlot → M Table TimerFdError A) :
  (index ← fd_index fd; slot ← owned_slot own index;
   _ ← store index (refresh slot now); k index (refresh slot now)) t =
  match lookup_owned t own fd with
  | None => (Err BadFileDescriptor, t)
  | Some (i, s) => k i (refresh s now) (<[i := refresh s now]> t)
  end.
Proof.
  rewrite (access_run own fd t
    (λ i s, _ ← store i (refresh s now); k i (refresh s now))).
  by destruct (lookup_owned t own fd) as [[i s]|].
Qed.

Lemma tfd_read_run own fd now t :
  read own fd now t =
  match lookup_owned t own fd with
  | None => (Err BadFileDescriptor, t)
  | Some (i, s) =>
      let s1 := refresh s now in
      if expirations s1 =? 0 then (Err WouldBlock, <[i := s1]> t)
      else (Ok (expirations s1),
            <[i := mkSlot (owner s1) (flags s1) (interval_ns s1) (next_expiration_ns s1) 0
                     (wrapping_add U64_MAX (readiness_gen s1) 1)]> t)
  end.
Proof.
  unfold read.
  rewrite (advance_run own fd now t (λ i s1,
    _ ← ensure (negb (expirations s1 =? 0)) WouldBlock;
    _ ← store i (mkSlot (owner s1) (flags s1) (interval_ns s1) (next_expiration_ns s1) 0
           (wrapping_add U64_MAX (readiness_gen s1) 1));
    mret (expirations s1))).
  destruct (lookup_owned t own fd) as [[i s]|]; [|done]. unfold store. m_unfold.
  destruct (expirations _ =? 0); simpl; [done|]. by rewrite list_insert_insert_eq.
Qed.

Lemma tfd_readiness_run own fd now t :
  readiness own fd now t =
  match lookup_owned t own fd with
  | None => (Err BadFileDescriptor, t)
  | Some (i, s) =>
      (Ok (if expirations (refresh s now) =? 0 then 0 else EventFd.READY_IN),
       <[i := refresh s now]> t)
  end.
Proof.
  unfold readiness.
  rewrite (advance_run own fd now t (λ _ s1,
    mret (if negb (expirations s1 =? 0) then EventFd.READY_IN else 0))).
  destruct (lookup_owned t own fd) as [[i s]|]; [|done]. m_unfold.
  by destruct (expirations _ =? 0).
Qed.

Lemma gettime_run own fd now t :
  gettime own fd now t =
  match lookup_owned t own fd with
  | None => (Err BadFileDescriptor, t)
  | Some (i, s) => (Ok (remaining (refresh s now) now), <[i := refresh s now]> t)
  end.
Proof.
  unfold gettime.
  rewrite (advance_run own fd now t (λ _ s1, mret (remaining s1 now))).
  by destruct (lookup_owned t own fd) as [[i s]|].
Qed.

(** The deadline a new timer value asks for. *)
Definition deadline_of (flg value now : Z) : option Z :=
  if Z.land flg TFD_TIMER_ABSTIME =? 0 then checked_deadline now value else Some value.

Lemma settime_run own fd flg v now t :
  is_u64 (value_ns v) → 0 ≤ now →
  settime own fd flg v now t =
  if and_not flg TIMERFD_SETTIME_ALLOWED_FLAGS =? 0 then
    match lookup_owned t own fd with
    | None => (Err BadFileDescriptor, t)
    | Some (i, s) =>
        let s1 := refresh s now in
        if value_ns v =? 0 then
          (Ok (remaining s1 now), <[i := with_timer s1 0 0 0]> t)
        else
          match deadline_of flg (value_ns v) now with
          | None => (Err InvalidArgument, <[i := s1]> t)
          | Some d =>
              (Ok (remaining s1 now), <[i := with_timer s1 (spec_interval_ns v) d 0]> t)
          end
    end
  else (Err InvalidArgument, t).
Proof.
  intros [Hv _] Hn. unfold settime. cbv [ensure]. destruct (and_not _ _ =? 0); [|done].
  etrans; [exact (advance_run own fd now t (λ i s1,
    if value_ns v =? 0 then
      _ ← store i (with_timer s1 0 0 0); mret (remaining s1 now)
    else
      deadline ←
        (if negb (Z.land flg TFD_TIMER_ABSTIME =? 0) then mret (value_ns v)
         else ok_or (checked_deadline now (value_ns v)) InvalidArgument);
      _ ← ensure (negb (deadline =? 0)) InvalidArgument;
      _ ← store i (with_timer s1 (spec_interval_ns v) deadline 0);
      mret (remaining s1 now)))|].
  destruct (lookup_owned t own fd) as [[i s]|]; [|done]. unfold store, deadline_of. m_unfold.
  destruct (Z.eqb_spec (value_ns v) 0); simpl; [by rewrite list_insert_insert_eq|].
  destruct (Z.land _ _ =? 0); simpl.
  - unfold checked_deadline. destruct (checked_add _ _ _) as [d|] eqn:E; [|done].
    apply checked_add_Some in E as [-> _].
    destruct (Z.eqb_spec (now + value_ns v) 0); [lia|]. simpl.
    by rewrite list_insert_insert_eq.
  - destruct (Z.eqb_spec (value_ns v) 0); [lia|]. simpl. by rewrite list_insert_insert_eq.
Qed.

Lemma owned_by_refresh own s now : owned_by own (refresh s now) = owned_by own s.
Proof. unfold refresh. simpl. unfold occupied. by destruct (_ || _). Qed.

(** Storing another slot of the same owner keeps the descriptor resolvable. *)
Lemma lookup_owned_store t own fd i s s' :
  lookup_owned t own fd = Some (i, s) → owned_by own s' = owned_by own s →
  lookup_owned (<[i := s']> t) own fd = Some (i, s').
Proof.
  intros (Hx & Hi & Hb)%lookup_owned_Some Hs. apply lookup_owned_Some.
  split_and!; [done| |congruence].
  apply list_lookup_insert_eq. by eapply lookup_lt_Some.
Qed.

Lemma refresh_run_clock s now fuel :
  slot_wf s → 0 ≤ now < U64_MAX →
  (due s now = true → elapsed_count s now ≤ Z.of_nat fuel) →
  refresh s now = run_clock fuel s now.
Proof.
  intros Hw Hm. revert s Hw. induction fuel as [|fuel IH]; intros s Hw Hf; simpl.
  - apply refresh_idle. destruct (due s now) eqn:Hd; [|done].
    pose proof (elapsed_count_range s now Hw Hd ltac:(lia)). specialize (Hf eq_refl). lia.
  - destruct (due s now) eqn:Hd; [|by apply refresh_idle].
    rewrite refresh_tick by done. apply IH; [by apply tick_wf|].
    intros Ht. rewrite elapsed_count_tick by done. specialize (Hf eq_refl). lia.
Qed.

Lemma refresh_eager s now :
  slot_wf s → 0 ≤ now < U64_MAX →
  refresh s now = run_clock (Z.to_nat (elapsed_count s now)) s now.
Proof. intros. apply refresh_run_clock; [done..|]. lia. Qed.

Lemma refresh_not_due s now :
  slot_wf s → 0 ≤ now < U64_MAX → due (refresh s now) now = false.
Proof.
  intros Hw Hm. destruct (due s now) eqn:Hd; [|by rewrite refresh_idle].
  rewrite refresh_due by (done || lia). destruct Hw as [_ _ [Hi _] [Hn _] _ _].
  unfold due, elapsed_count in *. simpl.
  destruct (Z.eqb_spec (interval_ns s) 0) as [|Hne]; [done|].
  pose proof (Z.div_mod (now - next_expiration_ns s) (interval_ns s) Hne) as Hdm.
  pose proof (Z.mod_pos_bound (now - next_expiration_ns s) (interval_ns s) ltac:(lia)).
  assert (now < next_expiration_ns s +
    interval_ns s * ((now - next_expiration_ns s) / interval_ns s + 1)) by nia.
  lia.
Qed.

Lemma timerfd_refresh_later s now1 now2 :
  slot_wf s → 0 ≤ now1 → now1 ≤ now2 < U64_MAX →
  refresh (refresh s now1) now2 = refresh s now2.
Proof.
  intros Hw H1 H2.
  rewrite (refresh_eager s now1) by (done || lia).
  generalize (Z.to_nat (elapsed_count s now1)). intros fuel.
  revert s Hw. induction fuel as [|fuel IH]; intros s Hw; simpl; [done|].
  destruct (due s now1) eqn:Hd; [|done]. rewrite IH by by apply tick_wf.
  symmetry. apply refresh_tick; [done| |lia]. unfold due in *. lia.
Qed.

(** At the end of the clock the deadline of a periodic timer saturates. *)
Lemma refresh_last s : slot_wf s → due (refresh s U64_MAX) U64_MAX = due s U64_MAX && negb (interval_ns s =? 0).
Proof.
  intros Hw. destruct (due s U64_MAX) eqn:Hd; [|by rewrite refresh_idle].
  pose proof (elapsed_count_range s U64_MAX Hw Hd ltac:(lia)). rewrite refresh_due by (done || lia). unfold due. simpl.
  destruct Hw as [_ _ [Hi _] [Hn _] _ _]. unfold due in Hd. destruct (Z.eqb_spec (interval_ns s) 0); [done|].
  assert (0 < Z.min U64_MAX (next_expiration_ns s + interval_ns s * elapsed_count s U64_MAX)) by (unfold U64_MAX in *; nia). lia.
Qed.

(** The first ticks of a periodic timer. *)
Lemma run_clock_ticks now n : ∀ s, slot_wf s → due s now = true → now ≤ U64_MAX → interval_ns s ≠ 0 → Z.of_nat (S n) ≤ elapsed_count s now →
  run_clock (S n) s now =
    mkSlot (owner s) (flags s) (interval_ns s) (Z.min U64_MAX (next_expiration_ns s + interval_ns s * Z.of_nat (S n)))
      (Z.min U64_MAX (expirations s + Z.of_nat (S n)))
      (if expirations s =? 0 then wrapping_add U64_MAX (readiness_gen s) 1 else readiness_gen s).
Proof.
  induction n as [|n IH]; intros s Hw Hd Hn Hi Hc.
  - cbn [run_clock]. rewrite Hd. unfold tick, saturating_add. destruct (Z.eqb_spec (interval_ns s) 0); [done|]. f_equal; lia.
  - cbn [run_clock]. rewrite Hd. pose proof Hw as [_ _ [Hi0 _] [Hn0 _] [He0 _] _].
    pose proof (Z.div_mod (now - next_expiration_ns s) (interval_ns s) Hi) as Hdm.
    pose proof (Z.mod_pos_bound (now - next_expiration_ns s) (interval_ns s) ltac:(lia)) as Hmb.
    unfold elapsed_count in Hc. destruct (Z.eqb_spec (interval_ns s) 0); [done|].
    assert (Hnext : next_expiration_ns s + interval_ns s ≤ now) by nia.
    assert (Htn : next_expiration_ns (tick s) = next_expiration_ns s + interval_ns s).
    { unfold tick, saturating_add. simpl. destruct (Z.eqb_spec (interval_ns s) 0); lia. }
    change (run_clock (S n) (tick s) now = mkSlot (owner s) (flags s) (interval_ns s) (Z.min U64_MAX (next_expiration_ns s + interval_ns s * Z.of_nat (S (S n))))
      (Z.min U64_MAX (expirations s + Z.of_nat (S (S n)))) (if expirations s =? 0 then wrapping_add U64_MAX (readiness_gen s) 1 else readiness_gen s)).
    rewrite IH; [|by apply tick_wf|unfold due in *; rewrite Htn; lia|done|done|].
    + rewrite Htn. unfold tick, saturating_add. simpl. destruct (Z.eqb_spec (Z.min U64_MAX (expirations s + 1)) 0); [unfold U64_MAX in *; lia|]. f_equal; lia.
    + unfold elapsed_count. rewrite Htn. change (interval_ns (tick s)) with (interval_ns s). destruct (Z.eqb_spec (interval_ns s) 0); [done|].
      replace (now - (next_expiration_ns s + interval_ns s)) with (now - next_expiration_ns s + (-1) * interval_ns s) by lia. rewrite Z.div_add by lia. lia.
Qed.

Lemma refresh_deadlines s now : slot_wf s → 0 ≤ now ≤ U64_MAX → refresh s now = run_clock (Z.to_nat (elapsed_count s now)) s now.
Proof.
  intros Hw Hn. destruct (due s now) eqn:Hd.
  2: { rewrite refresh_idle by done. destruct (Z.to_nat _); simpl; [done|]. by rewrite Hd. }
  pose proof (elapsed_count_range s now Hw Hd ltac:(lia)) as Hc. rewrite refresh_due by (done || lia).
  destruct (Z.to_nat (elapsed_count s now)) as [|n] eqn:Hm; [lia|]. destruct (Z.eqb_spec (interval_ns s) 0) as [Hi|Hi].
  - unfold elapsed_count in *. destruct (Z.eqb_spec (interval_ns s) 0); [|done]. assert (n = O) as -> by lia. simpl. rewrite Hd. unfold tick, saturating_add.
    by destruct (Z.eqb_spec (interval_ns s) 0).
  - rewrite run_clock_ticks by (done || lia). replace (Z.of_nat (S n)) with (elapsed_count s now) by lia. done.
Qed.

(** ** Properties *)

(** C7. Lazy expiry equals an eager clock: at any time, [refresh], which accounts
    for every elapsed interval with one division, leaves exactly the slot that
    processing the deadlines reached so far one at a time leaves, saturation
    included. Before the last instant of the clock nothing is then left due, so
    that it is also where the eager clock stops by itself; at the last instant
    the deadline of a periodic timer saturates and it stays due. *)
Theorem timerfd_lazy_equals_eager (s : TimerFdSlot) (now : Z) :
  slot_wf s → 0 ≤ now ≤ U64_MAX →
  refresh s now = run_clock (Z.to_nat (elapsed_count s now)) s now ∧
  (now < U64_MAX →
     due (refresh s now) now = false ∧
     ∀ fuel, (due s now = true → elapsed_count s now ≤ Z.of_nat fuel) → refresh s now = run_clock fuel s now) ∧
  due (refresh s U64_MAX) U64_MAX = due s U64_MAX && negb (interval_ns s =? 0).
Proof.
  intros Hw Hn. split_and!; [by apply refresh_deadlines| |by apply refresh_last].
  intros Hlt. split; [apply refresh_not_due; [done|lia]|]. intros fuel Hf. apply refresh_run_clock; [done|lia|done].
Qed.

Record table_wf (t : Table) : Prop := {
  wf_length : length t = MAXIMUM_TIMERFDS;
  wf_slots : ∀ i s, t !! i = Some s → slot_wf s;
}.

Lemma tfd_slot_wf_empty : slot_wf EMPTY.
Proof. by split. Qed.

Lemma tfd_table_wf_boot : table_wf TIMERFDS.
Proof.
  split; [apply length_replicate|].
  intros i s [-> _]%lookup_replicate. apply tfd_slot_wf_empty.
Qed.

Lemma tfd_table_wf_insert t i s : table_wf t → slot_wf s → table_wf (<[i := s]> t).
Proof.
  intros [Hl Hs] Hw. split; [by rewrite length_insert|].
  intros j s' [(_ & <- & _)|[_ H]]%lookup_insert_cases; eauto.
Qed.

Lemma tfd_table_wf_close_where p t : table_wf t → table_wf (close_where p t).2.
Proof.
  intros [Hl Hs]. split; [by rewrite close_where_length|].
  intros i s. simpl. rewrite update_where_lookup.
  intros (x & Hx & ->)%fmap_Some. destruct (p x); eauto using tfd_slot_wf_empty.
Qed.

Lemma tfd_lookup_owned_wf t own fd i s :
  table_wf t → lookup_owned t own fd = Some (i, s) → slot_wf s.
Proof. intros [_ H] (_ & Hi & _)%lookup_owned_Some. eauto. Qed.

Create HintDb timerfd.
#[export] Hint Resolve tfd_table_wf_insert tfd_table_wf_close_where tfd_slot_wf_empty refresh_wf
  tfd_lookup_owned_wf : timerfd.

Inductive Op :=
| OpCreate (own clockid flg : Z)
| OpSettime (own fd flg : Z) (v : TimerSpec) (now : Z)
| OpGettime (own fd now : Z)
| OpRead (own fd now : Z)
| OpReadiness (own fd now : Z)
| OpClose (own fd : Z)
| OpCloseAll (own : Z)
| OpCloseOnExec (own : Z).

Definition exec (op : Op) (t : Table) : Table :=
  match op with
  | OpCreate own clockid flg => (create own clockid flg t).2
  | OpSettime own fd flg v now => (settime own fd flg v now t).2
  | OpGettime own fd now => (gettime own fd now t).2
  | OpRead own fd now => (read own fd now t).2
  | OpReadiness own fd now => (readiness own fd now t).2
  | OpClose own fd => (close own fd t).2
  | OpCloseAll own => (close_all own t).2
  | OpCloseOnExec own => (close_on_exec own t).2
  end.

Definition clock_range (now : Z) : Prop := 0 ≤ now < U64_MAX.

Definition op_in_range (op : Op) : Prop :=
  match op with
  | OpCreate own _ _ => is_u32 own
  | OpSettime _ _ _ v now =>
      is_u64 (value_ns v) ∧ is_u64 (spec_interval_ns v) ∧ clock_range now
  | OpGettime _ _ now | OpRead _ _ now | OpReadiness _ _ now => clock_range now
  | _ => True
  end.

Lemma settime_wf own fd flg v now t :
  is_u64 (value_ns v) → is_u64 (spec_interval_ns v) → clock_range now →
  table_wf t → table_wf (settime own fd flg v now t).2.
Proof.
  intros Hv Hi Hn Hw. rewrite settime_run by (done || by destruct Hn).
  destruct (and_not _ _ =? 0); [|done].
  destruct (lookup_owned t own fd) as [[i s]|] eqn:E; [|done].
  assert (slot_wf (refresh s now)) as Hs by (unfold clock_range in Hn; eauto with timerfd).
  pose proof Hs as [? ? ? ? ? ?]. unfold with_timer.
  destruct (value_ns v =? 0); simpl; [apply tfd_table_wf_insert; [done|by split]|].
  destruct (deadline_of _ _ _) as [d|] eqn:Hd; simpl; [|by apply tfd_table_wf_insert].
  apply tfd_table_wf_insert; [done|]. split; simpl; try done.
  unfold deadline_of, checked_deadline in Hd. destruct (Z.land _ _ =? 0); simplify_eq; [|done].
  apply checked_add_Some in Hd as [-> ?]. destruct Hv, Hn. split; lia.
Qed.

Lemma tfd_read_wf own fd now t :
  clock_range now → table_wf t → table_wf (read own fd now t).2.
Proof.
  intros Hn Hw. rewrite tfd_read_run. destruct (lookup_owned t own fd) as [[i s]|] eqn:E; [|done].
  assert (slot_wf (refresh s now)) as Hs by (unfold clock_range in Hn; eauto with timerfd).
  pose proof Hs as [? ? ? ? ? ?]. simpl.
  destruct (_ =? 0); simpl; [by apply tfd_table_wf_insert|].
  apply tfd_table_wf_insert; [done|]. split; simpl; try done. by apply wrapping_add_range.
Qed.

Lemma tfd_create_wf own clockid flg t :
  is_u32 own → table_wf t → table_wf (create own clockid flg t).2.
Proof.
  intros Ho Hw. unfold create, store. m_unfold.
  destruct (_ && _) eqn:Hc; [|done]. destruct (position _ t); [|done]. simpl.
  apply tfd_table_wf_insert; [done|]. split; simpl; try done. lia.
Qed.

Lemma tfd_exec_wf op t : op_in_range op → table_wf t → table_wf (exec op t).
Proof.
  intros Hr Hw.
  destruct op as [own ck flg|own fd flg v now|own fd now|own fd now|own fd now|own fd|own|own];
    simpl in *.
  - by apply tfd_create_wf.
  - apply settime_wf; tauto.
  - rewrite gettime_run. destruct (lookup_owned _ _ _) as [[i s]|] eqn:E; [|done].
    simpl. unfold clock_range in Hr. eauto with timerfd.
  - by apply tfd_read_wf.
  - rewrite tfd_readiness_run. destruct (lookup_owned _ _ _) as [[i s]|] eqn:E; [|done].
    simpl. unfold clock_range in Hr. eauto with timerfd.
  - unfold close. rewrite access_run. destruct (lookup_owned _ _ _) as [[i s]|]; [|done].
    apply (tfd_table_wf_insert t i EMPTY); auto using tfd_slot_wf_empty.
  - unfold close_all. destruct (own =? 0); [done|].
    by apply (tfd_table_wf_close_where (λ s, owner s =? own)).
  - unfold close_on_exec. destruct (own =? 0); [done|].
    by apply (tfd_table_wf_close_where
      (λ s, (owner s =? own) && negb (Z.land (flags s) TFD_CLOEXEC =? 0))).
Qed.

(** Every sequence of timerfd operations, at any instants of the 64-bit
    monotonic clock, keeps the table well formed: deadlines, intervals and
    expiration counts stay within 64 bits (they saturate, never wrap). *)
Theorem timerfd_table_wf (ops : list Op) (t : Table) :
  Forall op_in_range ops → table_wf t → table_wf (foldl (flip exec) t ops).
Proof.
  intros Hr. revert t. induction Hr as [|op ops Hop Hr IH]; intros t Hw; simpl; [done|].
  apply IH. by apply tfd_exec_wf.
Qed.

(** The expirations a timer armed for [deadline] has accumulated at [now]. *)
Definition expected_expirations (deadline interval now : Z) : Z :=
  if now <? deadline then 0
  else if interval =? 0 then 1
  else (now - deadline) / interval + 1.

Lemma refresh_fresh s interval deadline now :
  slot_wf (with_timer s interval deadline 0) → 0 < deadline → clock_range now →
  expirations (refresh (with_timer s interval deadline 0) now)
    = expected_expirations deadline interval now.
Proof.
  intros Hw Hd Hn. unfold clock_range in Hn. unfold expected_expirations.
  destruct (Z.ltb_spec now deadline) as [H|H].
  - rewrite refresh_idle; [done|]. unfold due. simpl. lia.
  - assert (due (with_timer s interval deadline 0) now = true) as Hdue
      by (unfold due; simpl; lia).
    rewrite refresh_due by (done || lia).
    pose proof (elapsed_count_range _ _ Hw Hdue ltac:(lia)) as Hc.
    simpl in *. unfold elapsed_count in *. simpl in *.
    destruct (interval =? 0); lia.
Qed.

Lemma due_same_next s s' now :
  next_expiration_ns s' = next_expiration_ns s → due s' now = due s now.
Proof. unfold due. by intros ->. Qed.

(** A read leaves nothing to read at the same instant. *)
Lemma read_twice_blocks own fd now t i s :
  lookup_owned t own fd = Some (i, s) → slot_wf s → clock_range now →
  (read own fd now (read own fd now t).2).1 = Err WouldBlock.
Proof.
  intros Hl Hs Hn. pose proof (refresh_not_due s now Hs Hn) as Hnd.
  assert (∀ s2, owned_by own s2 = owned_by own s → expirations s2 = 0 →
    next_expiration_ns s2 = next_expiration_ns (refresh s now) →
    (read own fd now (<[i:=s2]> t)).1 = Err WouldBlock) as Hblock.
  { intros s2 Hb He Hne. rewrite tfd_read_run, (lookup_owned_store t own fd i s s2 Hl Hb).
    simpl. rewrite refresh_idle by by rewrite (due_same_next (refresh s now) s2).
    by rewrite He. }
  rewrite (tfd_read_run _ _ _ t), Hl. simpl. destruct (Z.eqb_spec (expirations (refresh s now)) 0).
  - apply Hblock; [apply owned_by_refresh|done..].
  - apply Hblock; [apply (owned_by_refresh own s now)|done..].
Qed.

(** What an armed timer delivers: after a successful [settime] with a
    non-zero value, a read at time [now] returns the number of expiries of the
    new setting up to [now] (one for a one-shot timer, one per elapsed interval
    otherwise), or would block if there are none; a second read at the same
    instant would block, so no expiry is delivered twice. *)
Theorem timerfd_settime_then_read (own fd flg : Z) (v : TimerSpec) (now0 now d : Z)
    (t : Table) (i : nat) (s : TimerFdSlot) :
  table_wf t → owned t own fd i s →
  and_not flg TIMERFD_SETTIME_ALLOWED_FLAGS = 0 →
  0 < value_ns v ≤ U64_MAX → is_u64 (spec_interval_ns v) →
  clock_range now0 → clock_range now →
  deadline_of flg (value_ns v) now0 = Some d →
  ∃ t1,
    settime own fd flg v now0 t = (Ok (remaining (refresh s now0) now0), t1) ∧
    let n := expected_expirations d (spec_interval_ns v) now in
    (read own fd now t1).1 = (if n =? 0 then Err WouldBlock else Ok n) ∧
    (read own fd now (read own fd now t1).2).1 = Err WouldBlock.
Proof.
  intros Hw Ho Hf [Hv Hvm] Hi Hn0 Hn Hd. pose proof Ho as Hl%lookup_owned_Some.
  assert (is_u64 (value_ns v)) as Hvr by (split; lia).
  pose proof (settime_wf own fd flg v now0 t Hvr Hi Hn0 Hw) as Hw1.
  rewrite settime_run in Hw1 |- * by (done || by destruct Hn0).
  rewrite Hf, Hl, Hd in Hw1 |- *. simpl in Hw1 |- *.
  destruct (Z.eqb_spec (value_ns v) 0); [lia|].
  set (s1 := with_timer _ _ _ _) in *.
  assert (lookup_owned (<[i:=s1]> t) own fd = Some (i, s1)) as Hl1.
  { eapply lookup_owned_store; [done|]. by rewrite <- (owned_by_refresh own s now0). }
  pose proof (tfd_lookup_owned_wf _ _ _ _ _ Hw1 Hl1) as Hws1.
  assert (0 < d) as Hdpos.
  { unfold deadline_of, checked_deadline in Hd. destruct (Z.land _ _ =? 0); simplify_eq; [|lia].
    apply checked_add_Some in Hd as [-> _]. destruct Hn0. lia. }
  eexists. split; [done|]. split; [|by eapply read_twice_blocks].
  pose proof (refresh_fresh (refresh s now0) _ _ now Hws1 Hdpos Hn) as He. fold s1 in He.
  rewrite tfd_read_run, Hl1. simpl. rewrite He. by destruct (_ =? 0).
Qed.

(** Polling a timer is harmless and accurate: [READY_IN] is reported
    exactly when a read at that instant returns a count, and reading after the
    poll, now or later, gives the same answer as without it. *)
Theorem timerfd_readiness_predicts (own fd now now' : Z) (t : Table) (i : nat) (s : TimerFdSlot) :
  table_wf t → owned t own fd i s → 0 ≤ now → now ≤ now' < U64_MAX →
  ∃ r t1, readiness own fd now t = (Ok r, t1) ∧
    (r = EventFd.READY_IN ∧ is_ok (read own fd now t).1 = true ∨
     r = 0 ∧ is_ok (read own fd now t).1 = false) ∧
    read own fd now' t1 = read own fd now' t.
Proof.
  intros Hw Ho%lookup_owned_Some Hn0 Hn. rewrite tfd_readiness_run, (tfd_read_run _ _ now), Ho.
  pose proof (tfd_lookup_owned_wf _ _ _ _ _ Hw Ho) as Hs.
  do 2 eexists. split; [done|]. split.
  { simpl. destruct (expirations _ =? 0); [right|left]; done. }
  rewrite !tfd_read_run, Ho.
  rewrite (lookup_owned_store t own fd i s (refresh s now) Ho (owned_by_refresh own s now)).
  simpl. rewrite timerfd_refresh_later by done.
  by destruct (_ =? 0); rewrite list_insert_insert_eq.
Qed.

(** [gettime] reports zero remaining time exactly for a disarmed timer:
    an armed timer always reports a positive time to its next expiry, at most
    one interval once it has expired (short of the end of the clock). *)
Theorem timerfd_gettime_positive (own fd now : Z) (t : Table) (i : nat) (s : TimerFdSlot) :
  table_wf t → owned t own fd i s → clock_range now →
  ∃ spec t1, gettime own fd now t = (Ok spec, t1) ∧
    spec_interval_ns spec = interval_ns s ∧
    (value_ns spec = 0 ↔ next_expiration_ns (refresh s now) = 0) ∧
    (due s now = true → value_ns spec ≤ interval_ns s).
Proof.
  intros Hw Ho%lookup_owned_Some Hn. rewrite gettime_run, Ho.
  pose proof (tfd_lookup_owned_wf _ _ _ _ _ Hw Ho) as Hs.
  pose proof (refresh_not_due s now Hs Hn) as Hnd.
  pose proof (refresh_wf s now Hs Hn) as [_ _ _ [? _] _ _].
  do 2 eexists. split; [done|]. unfold remaining, checked_sub. simpl. destruct Hn as [Hn Hm].
  split_and!.
  - unfold refresh. by destruct (_ || _).
  - unfold due in Hnd. destruct (Z.leb_spec now (next_expiration_ns (refresh s now))); simpl; lia.
  - intros Hd. rewrite refresh_due by (done || lia). simpl.
    destruct Hs as [_ _ [? ?] [? ?] _ _]. unfold due, elapsed_count in *.
    destruct (Z.eqb_spec (interval_ns s) 0) as [|Hne]; [case_match; simpl; lia|].
    pose proof (Z.mod_pos_bound (now - next_expiration_ns s) (interval_ns s) ltac:(lia)).
    pose proof (Z.div_mod (now - next_expiration_ns s) (interval_ns s) Hne).
    case_match; simpl; [|lia]. lia.
Qed.

(** ** Observation

    Two tables agree at [now] when refreshing them to [now] gives the same
    slots: the equivalence under which looking at timers is invisible. *)

Definition agree (now : Z) (t t' : Table) : Prop :=
  ∀ i, (λ s, refresh s now) <$> t !! i = (λ s, refresh s now) <$> t' !! i.

#[global] Instance agree_equiv now : Equivalence (agree now).
Proof.
  split.
  - intros t i. done.
  - intros t t' H i. by rewrite H.
  - intros t1 t2 t3 H1 H2 i. by rewrite H1, H2.
Qed.

Lemma agree_lookup now t t' own fd :
  agree now t t' →
  match lookup_owned t own fd, lookup_owned t' own fd with
  | Some (i, s), Some (j, s') => i = j ∧ refresh s now = refresh s' now
  | None, None => True
  | _, _ => False
  end.
Proof.
  intros H. unfold lookup_owned. destruct (index_of fd) as [i|]; [|done].
  specialize (H i). destruct (t !! i) as [s|], (t' !! i) as [s'|]; simplify_eq/=; [|done].
  change (occupied s && (owner s =? own)) with (owned_by own s).
  change (occupied s' && (owner s' =? own)) with (owned_by own s').
  rewrite <- (owned_by_refresh own s now), <- (owned_by_refresh own s' now), H.
  by destruct (owned_by own (refresh s' now)).
Qed.

#[global] Instance read_agree own fd now :
  Proper (agree now ==> eq) (λ t, (read own fd now t).1).
Proof.
  intros t t' H. rewrite !tfd_read_run. pose proof (agree_lookup now t t' own fd H) as Hl.
  destruct (lookup_owned t own fd) as [[i s]|], (lookup_owned t' own fd) as [[j s']|];
    try done. destruct Hl as [-> ->]. simpl. by destruct (_ =? 0).
Qed.

#[global] Instance gettime_agree own fd now :
  Proper (agree now ==> eq) (λ t, (gettime own fd now t).1).
Proof.
  intros t t' H. rewrite !gettime_run. pose proof (agree_lookup now t t' own fd H) as Hl.
  destruct (lookup_owned t own fd) as [[i s]|], (lookup_owned t' own fd) as [[j s']|];
    try done. by destruct Hl as [-> ->].
Qed.

(** The operations that only look at timers, and when they look. *)
Definition observes (op : Op) : option Z :=
  match op with
  | OpGettime _ _ now | OpReadiness _ _ now => Some now
  | _ => None
  end.

Lemma observe_agree op now0 now t :
  table_wf t → observes op = Some now0 → 0 ≤ now0 → now0 ≤ now < U64_MAX →
  agree now (exec op t) t.
Proof.
  intros Hw Hop H0 Hn.
  assert (∀ own fd i s, lookup_owned t own fd = Some (i, s) →
    agree now (<[i := refresh s now0]> t) t) as H.
  { intros own fd i s Hl j. pose proof (tfd_lookup_owned_wf _ _ _ _ _ Hw Hl) as Hs.
    apply lookup_owned_Some in Hl as (_ & Hi & _).
    destruct (decide (i = j)) as [->|]; [|by rewrite list_lookup_insert_ne].
    rewrite list_lookup_insert_eq, Hi by by eapply lookup_lt_Some.
    simpl. by rewrite timerfd_refresh_later. }
  destruct op; simplify_eq/=; rewrite ?gettime_run, ?tfd_readiness_run;
    destruct (lookup_owned t own fd) as [[i s]|] eqn:E; simpl; eauto; reflexivity.
Qed.

(** Observation is transparent: after any sequence of [gettime] and
    [readiness] calls by anyone on any timers, at any earlier instants, a read
    and a [gettime] of any timer return exactly what they would have returned
    had nobody looked. *)
Theorem timerfd_observation_transparent (ops : list Op) (t : Table) (own fd now : Z) :
  table_wf t → now < U64_MAX →
  Forall (λ op, ∃ now0, observes op = Some now0 ∧ 0 ≤ now0 ≤ now) ops →
  (read own fd now (foldl (flip exec) t ops)).1 = (read own fd now t).1 ∧
  (gettime own fd now (foldl (flip exec) t ops)).1 = (gettime own fd now t).1.
Proof.
  intros Hw Hn Hops. assert (agree now (foldl (flip exec) t ops) t) as H.
  { revert t Hw. induction Hops as [|op ops (now0 & Hop & Hn0) _ IH]; intros t Hw;
      simpl; [reflexivity|].
    rewrite IH; [eapply observe_agree; eauto; lia|].
    apply tfd_exec_wf; [|done].
    destruct op; simplify_eq/=; unfold clock_range; lia. }
  split; [by apply read_agree|by apply gettime_agree].
Qed.

(** ** Witnesses *)

Definition sample_slot : TimerFdSlot := mkSlot 7 0 10 100 0 0.
Definition sample_table : Table := <[0%nat := sample_slot]> TIMERFDS.

Lemma sample_slot_wf : slot_wf sample_slot.
Proof. by split. Qed.

Lemma tfd_sample_table_wf : table_wf sample_table.
Proof. apply tfd_table_wf_insert; [apply tfd_table_wf_boot|apply sample_slot_wf]. Qed.

Lemma timerfd_lazy_equals_eager_witness :
  refresh sample_slot 125 = run_clock 3 sample_slot 125 ∧
  (125 < U64_MAX →
     due (refresh sample_slot 125) 125 = false ∧
     ∀ fuel, (due sample_slot 125 = true → elapsed_count sample_slot 125 ≤ Z.of_nat fuel) → refresh sample_slot 125 = run_clock fuel sample_slot 125) ∧
  due (refresh sample_slot U64_MAX) U64_MAX = due sample_slot U64_MAX && negb (interval_ns sample_slot =? 0).
Proof. apply (timerfd_lazy_equals_eager sample_slot 125); [apply sample_slot_wf|unfold U64_MAX; lia]. Defined.

Lemma timerfd_table_wf_witness :
  table_wf (foldl (flip exec) TIMERFDS
    [OpCreate 7 1 0; OpSettime 7 8192 0 (mkSpec 5 10) 100; OpRead 7 8192 200; OpClose 7 8192]).
Proof.
  apply timerfd_table_wf; [|apply tfd_table_wf_boot].
  repeat constructor; simpl; unfold is_u32, is_u64, clock_range, U32_MAX, U64_MAX; lia.
Defined.

Lemma timerfd_settime_then_read_witness :
  ∃ t1,
    settime 7 8192 0 (mkSpec 50 10) 100 sample_table = (Ok (mkSpec 10 10), t1) ∧
    (read 7 8192 175 t1).1 = Ok 3 ∧
    (read 7 8192 175 (read 7 8192 175 t1).2).1 = Err WouldBlock.
Proof.
  apply (timerfd_settime_then_read 7 8192 0 (mkSpec 50 10) 100 175 150 sample_table 0 sample_slot);
    unfold is_u64, clock_range, U64_MAX; simpl; try lia; try done.
  - apply tfd_sample_table_wf.
Defined.

Lemma timerfd_readiness_predicts_witness :
  ∃ r t1, readiness 7 8192 125 sample_table = (Ok r, t1) ∧
    (r = EventFd.READY_IN ∧ is_ok (read 7 8192 125 sample_table).1 = true ∨
     r = 0 ∧ is_ok (read 7 8192 125 sample_table).1 = false) ∧
    read 7 8192 200 t1 = read 7 8192 200 sample_table.
Proof.
  apply (timerfd_readiness_predicts 7 8192 125 200 sample_table 0 sample_slot);
    [apply tfd_sample_table_wf|by split_and!|lia|unfold U64_MAX; lia].
Defined.

Lemma timerfd_gettime_positive_witness :
  ∃ spec t1, gettime 7 8192 125 sample_table = (Ok spec, t1) ∧
    spec_interval_ns spec = 10 ∧
    (value_ns spec = 0 ↔ next_expiration_ns (refresh sample_slot 125) = 0) ∧
    (due sample_slot 125 = true → value_ns spec ≤ 10).
Proof.
  apply (timerfd_gettime_positive 7 8192 125 sample_table 0 sample_slot);
    [apply tfd_sample_table_wf|by split_and!|unfold clock_range, U64_MAX; lia].
Defined.

Lemma timerfd_observation_transparent_witness :
  (read 7 8192 130 (foldl (flip exec) sample_table
      [OpGettime 7 8192 105; OpReadiness 7 8192 121])).1 = Ok 4 ∧
  (gettime 7 8192 130 (foldl (flip exec) sample_table
      [OpGettime 7 8192 105; OpReadiness 7 8192 121])).1 = Ok (mkSpec 10 10).
Proof.
  apply (timerfd_observation_transparent [OpGettime 7 8192 105; OpReadiness 7 8192 121]
    sample_table 7 8192 130); [apply tfd_sample_table_wf|unfold U64_MAX; lia|].
  repeat constructor; simpl; eexists; (split; [done|lia]).
Defined.
