(* ===== verification/Pipe.v ===== *)
(** * Anonymous pipes: linux_pipe.rs

    The registry of pipes and endpoints and every operation of the file. A pipe
    is a ring of [PIPE_BUF] bytes; an endpoint handle carries the generation of
    its slot. The theorems: the ring behaves as a FIFO byte queue (what is read
    is what was written, in order, nothing lost or repeated), writes are
    all-or-nothing, a closed handle never resolves again, and the link between
    endpoints and pipes is kept by every operation. *)

From stdpp Require Import prelude list numbers option.
From Stdlib Require Import ZArith Lia.
From S2P Require Import Prelude.
From S2P Require Import Handles.
From S2P Require Import RingQueue.
From S2P Require Import EventFd.

Definition PIPE_BUF : nat := Z.to_nat 4096.
Definition MAXIMUM_PIPES : nat := 32.
Definition MAXIMUM_ENDPOINTS : nat := MAXIMUM_PIPES * 2.
Definition ENDPOINT_INDEX_BITS : Z := 8.

#[local] Arguments Nat.modulo : simpl never.
Arguments PIPE_BUF : simpl never.

Inductive PipeError :=
| InvalidArgument
| BadFileDescriptor
| WouldBlock
| BrokenPipe
| Capacity.

#[global] Instance PipeError_eq_dec : EqDecision PipeError.
Proof. solve_decision. Defined.

Inductive Direction := Read | Write.

#[global] Instance Direction_eq_dec : EqDecision Direction.
Proof. solve_decision. Defined.

Record EndpointSlot := mkEndpoint {
  ep_occupied : bool;
  ep_generation : Z;
  ep_owner : ProcessHandle;
  ep_pipe_index : nat;
  ep_pipe_generation : Z;
  ep_direction : Direction;
}.

Definition EMPTY_ENDPOINT : EndpointSlot := mkEndpoint false 0 NO_PROCESS 0 0 Read.

Record PipeSlot := mkPipe {
  occupied : bool;
  p_generation : Z;
  p_owner : ProcessHandle;
  read_open : bool;
  write_open : bool;
  head : nat;
  len : nat;
  bytes : list Z;
  readiness_gen : Z;
}.

Definition ZERO_BYTES : list Z := replicate PIPE_BUF 0.
Arguments ZERO_BYTES : simpl never.

Definition EMPTY_PIPE : PipeSlot :=
  mkPipe false 0 NO_PROCESS false false 0 0 ZERO_BYTES 0.

Record PipeRegistry := mkRegistry {
  pipes : list PipeSlot;
  endpoints : list EndpointSlot;
}.

(** [PipeRegistry::new()] *)
Definition REGISTRY : PipeRegistry :=
  mkRegistry (replicate MAXIMUM_PIPES EMPTY_PIPE)
             (replicate MAXIMUM_ENDPOINTS EMPTY_ENDPOINT).

Definition encode_endpoint (index : nat) (gen : Z) : option Z :=
  encode_handle ENDPOINT_INDEX_BITS MAXIMUM_ENDPOINTS index gen.
Definition decode_endpoint (handle : Z) : option (nat * Z) :=
  decode_handle ENDPOINT_INDEX_BITS MAXIMUM_ENDPOINTS handle.
Definition next_generation (current : Z) : option Z :=
  next_handle_generation ENDPOINT_INDEX_BITS current.

Definition resolved_endpoint (r : PipeRegistry) (own : ProcessHandle) (handle : Z) :
    Result (nat * EndpointSlot) PipeError :=
  match decode_endpoint handle with
  | None => Err BadFileDescriptor
  | Some (endpoint_index, gen) =>
      let endpoint := slot_at EMPTY_ENDPOINT (endpoints r) endpoint_index in
      if negb (ep_occupied endpoint) || negb (ep_generation endpoint =? gen)
         || negb (handle_eqb (ep_owner endpoint) own)
      then Err BadFileDescriptor
      else
        let pipe_index := ep_pipe_index endpoint in
        let pipe := slot_at EMPTY_PIPE (pipes r) pipe_index in
        if negb (occupied pipe) || negb (p_generation pipe =? ep_pipe_generation endpoint)
           || negb (handle_eqb (p_owner pipe) own)
        then Err BadFileDescriptor
        else Ok (pipe_index, endpoint)
  end.

Abbreviation PM := (M PipeRegistry PipeError).

Definition resolve (own : ProcessHandle) (handle : Z) : PM (nat * EndpointSlot) :=
  λ r, (resolved_endpoint r own handle, r).

Definition set_pipe (i : nat) (p : PipeSlot) : PM unit :=
  modifyS (λ r, mkRegistry (<[i := p]> (pipes r)) (endpoints r)).
Definition set_endpoint (i : nat) (e : EndpointSlot) : PM unit :=
  modifyS (λ r, mkRegistry (pipes r) (<[i := e]> (endpoints r))).

Definition create (own : ProcessHandle) : PM (Z * Z) :=
  _ ← ensure (negb (pid own =? 0) && negb (generation own =? 0)) InvalidArgument;
  r ← getS;
  pipe_index ← ok_or (position (λ p, negb (occupied p)) (pipes r)) Capacity;
  let free := indices (λ e, negb (ep_occupied e)) (endpoints r) in
  read_index ← ok_or (free !! 0%nat) Capacity;
  write_index ← ok_or (free !! 1%nat) Capacity;
  pipe_generation ←
    ok_or (checked_add U32_MAX (p_generation (slot_at EMPTY_PIPE (pipes r) pipe_index)) 1)
      Capacity;
  read_generation ←
    ok_or (next_generation (ep_generation (slot_at EMPTY_ENDPOINT (endpoints r) read_index)))
      Capacity;
  write_generation ←
    ok_or (next_generation (ep_generation (slot_at EMPTY_ENDPOINT (endpoints r) write_index)))
      Capacity;
  read_handle ← ok_or (encode_endpoint read_index read_generation) Capacity;
  write_handle ← ok_or (encode_endpoint write_index write_generation) Capacity;
  _ ← set_pipe pipe_index
        (mkPipe true pipe_generation own true true 0 0 ZERO_BYTES 1);
  _ ← set_endpoint read_index
        (mkEndpoint true read_generation own pipe_index pipe_generation Read);
  _ ← set_endpoint write_index
        (mkEndpoint true write_generation own pipe_index pipe_generation Write);
  mret (read_handle, write_handle).

(** The copy loop of [read]: [n] bytes from [head] on, and the new head. *)
Definition drain : list Z → nat → nat → list Z * nat := ring_drain 0 PIPE_BUF.

(** The copy loop of [write]: each byte goes to the tail. *)
Definition fill : list Z → nat → nat → list Z → list Z * nat := ring_fill PIPE_BUF.

Definition with_ring (p : PipeSlot) (hd n : nat) (ring : list Z) : PipeSlot :=
  mkPipe (occupied p) (p_generation p) (p_owner p) (read_open p) (write_open p)
    hd n ring (wrapping_add U64_MAX (readiness_gen p) 1).

(** Returns the count and the caller's buffer, filled from its start. *)
Definition read (own : ProcessHandle) (handle : Z) (output : list Z) : PM (nat * list Z) :=
  if (length output =? 0)%nat then mret (O, output)
  else
    '(pipe_index, endpoint) ← resolve own handle;
    _ ← ensure (bool_decide (ep_direction endpoint = Read)) BadFileDescriptor;
    r ← getS;
    let pipe := slot_at EMPTY_PIPE (pipes r) pipe_index in
    if (len pipe =? 0)%nat then
      if write_open pipe then throw WouldBlock else mret (O, output)
    else
      let copied := (length output `min` len pipe)%nat in
      let '(data, hd') := drain (bytes pipe) (head pipe) copied in
      _ ← set_pipe pipe_index (with_ring pipe hd' (len pipe - copied)%nat (bytes pipe));
      mret (copied, data ++ drop copied output).

Definition write (own : ProcessHandle) (handle : Z) (input : list Z) : PM nat :=
  if (length input =? 0)%nat then mret O
  else
    _ ← ensure (length input <=? PIPE_BUF)%nat InvalidArgument;
    '(pipe_index, endpoint) ← resolve own handle;
    _ ← ensure (bool_decide (ep_direction endpoint = Write)) BadFileDescriptor;
    r ← getS;
    let pipe := slot_at EMPTY_PIPE (pipes r) pipe_index in
    _ ← ensure (read_open pipe) BrokenPipe;
    let available := (PIPE_BUF - len pipe)%nat in
    _ ← ensure (length input <=? available)%nat WouldBlock;
    let '(ring, n) := fill (bytes pipe) (head pipe) (len pipe) input in
    _ ← set_pipe pipe_index (with_ring pipe (head pipe) n ring);
    mret (length input).

Definition readiness (own : ProcessHandle) (handle : Z) : PM Z :=
  '(pipe_index, endpoint) ← resolve own handle;
  r ← getS;
  let pipe := slot_at EMPTY_PIPE (pipes r) pipe_index in
  match ep_direction endpoint with
  | Read =>
      let ready := 0 in
      let ready := if negb (len pipe =? 0)%nat then Z.lor ready EventFd.READY_IN else ready in
      let ready := if negb (write_open pipe) then Z.lor ready EventFd.READY_HUP else ready in
      mret ready
  | Write =>
      mret (if negb (read_open pipe) then EventFd.READY_ERR
            else if (len pipe <? PIPE_BUF)%nat then EventFd.READY_OUT
            else 0)
  end.

Definition readiness_generation (own : ProcessHandle) (handle : Z) : PM Z :=
  '(pipe_index, _) ← resolve own handle;
  r ← getS;
  mret (readiness_gen (slot_at EMPTY_PIPE (pipes r) pipe_index)).

Definition vacate (e : EndpointSlot) : EndpointSlot :=
  mkEndpoint false (ep_generation e) (ep_owner e) (ep_pipe_index e)
    (ep_pipe_generation e) (ep_direction e).

(** One direction closed; a pipe with both closed is freed and zeroed. *)
Definition close_direction (d : Direction) (p : PipeSlot) : PipeSlot :=
  let ro := match d with Read => false | Write => read_open p end in
  let wo := match d with Write => false | Read => write_open p end in
  let gen := wrapping_add U64_MAX (readiness_gen p) 1 in
  if negb ro && negb wo
  then mkPipe false (p_generation p) NO_PROCESS ro wo 0 0 ZERO_BYTES gen
  else mkPipe (occupied p) (p_generation p) (p_owner p) ro wo (head p) (len p) (bytes p) gen.

Definition close (own : ProcessHandle) (handle : Z) : PM unit :=
  '(pipe_index, endpoint) ← resolve own handle;
  '(endpoint_index, _) ← ok_or (decode_endpoint handle) BadFileDescriptor;
  r ← getS;
  _ ← set_endpoint endpoint_index (vacate (slot_at EMPTY_ENDPOINT (endpoints r) endpoint_index));
  set_pipe pipe_index
    (close_direction (ep_direction endpoint) (slot_at EMPTY_PIPE (pipes r) pipe_index)).

(** ** The ring is a queue *)

Lemma ZERO_BYTES_length : length ZERO_BYTES = PIPE_BUF.
Proof. apply length_replicate. Qed.

Lemma PIPE_BUF_pos : (0 < PIPE_BUF)%nat.
Proof. unfold PIPE_BUF. lia. Qed.

(** The [n] bytes queued from position [hd] on. *)
Abbreviation ring_view := (RingQueue.ring_view 0 PIPE_BUF).

Definition contents (p : PipeSlot) : list Z := ring_view (bytes p) (head p) (len p).

Lemma mod_PIPE_BUF_lt n : (n mod PIPE_BUF < PIPE_BUF)%nat.
Proof. apply Nat.mod_upper_bound. pose proof PIPE_BUF_pos. lia. Qed.

Lemma pipe_drain_spec ring hd n :
  (hd < PIPE_BUF)%nat →
  drain ring hd n = (ring_view ring hd n, ((hd + n) mod PIPE_BUF)%nat).
Proof. apply ring_drain_spec. Qed.

Lemma fill_spec ring hd n input :
  (hd < PIPE_BUF)%nat → length ring = PIPE_BUF → (n + length input ≤ PIPE_BUF)%nat →
  ∃ ring', fill ring hd n input = (ring', (n + length input)%nat) ∧
    length ring' = PIPE_BUF ∧
    ring_view ring' hd (n + length input) = ring_view ring hd n ++ input.
Proof. apply ring_fill_spec. Qed.

(** ** The registry invariant *)

Definition is_open (d : Direction) (p : PipeSlot) : bool :=
  match d with Read => read_open p | Write => write_open p end.

(** [e] is a live endpoint of pipe [i] in direction [d]. *)
Definition feeds (i : nat) (d : Direction) (e : EndpointSlot) : bool :=
  ep_occupied e && (ep_pipe_index e =? i)%nat && bool_decide (ep_direction e = d).

Record pipe_wf (p : PipeSlot) : Prop := {
  wf_head : (head p < PIPE_BUF)%nat;
  wf_len : (len p ≤ PIPE_BUF)%nat;
  wf_bytes : length (bytes p) = PIPE_BUF;
  wf_generation : is_u32 (p_generation p);
  wf_occupied : occupied p = read_open p || write_open p;
}.

Record registry_wf (r : PipeRegistry) : Prop := {
  wf_pipes_length : length (pipes r) = MAXIMUM_PIPES;
  wf_endpoints_length : length (endpoints r) = MAXIMUM_ENDPOINTS;
  wf_pipe i p : pipes r !! i = Some p → pipe_wf p;
  wf_endpoint k e : endpoints r !! k = Some e → 0 ≤ ep_generation e;
  (** a live endpoint names a live pipe of the same generation and owner *)
  wf_link k e : endpoints r !! k = Some e → ep_occupied e = true →
    ∃ p, pipes r !! ep_pipe_index e = Some p ∧ occupied p = true ∧
         p_generation p = ep_pipe_generation e ∧ p_owner p = ep_owner e;
  (** a pipe has exactly one live endpoint in each open direction *)
  wf_count i p d : pipes r !! i = Some p →
    countb (feeds i d) (endpoints r) = Nat.b2n (is_open d p);
}.

(** What [resolved_endpoint] finds. *)
Record resolves (r : PipeRegistry) (own : ProcessHandle) (h : Z)
    (k : nat) (e : EndpointSlot) (p : PipeSlot) : Prop := {
  res_decode : decode_endpoint h = Some (k, ep_generation e);
  res_endpoint : endpoints r !! k = Some e;
  res_live : ep_occupied e = true;
  res_owner : ep_owner e = own;
  res_pipe : pipes r !! ep_pipe_index e = Some p;
  res_occupied : occupied p = true;
  res_generation : p_generation p = ep_pipe_generation e;
  res_pipe_owner : p_owner p = own;
}.

Lemma resolved_endpoint_Ok r own h i e :
  resolved_endpoint r own h = Ok (i, e) ↔
  i = ep_pipe_index e ∧ ∃ k p, resolves r own h k e p.
Proof.
  unfold resolved_endpoint, slot_at. split.
  - intros H. destruct (decode_endpoint h) as [[k g]|] eqn:Hd; [|done].
    destruct (endpoints r !! k) as [e'|] eqn:He; simpl in H; [|done].
    destruct (ep_occupied e') eqn:Ho; simpl in H; [|done].
    destruct (Z.eqb_spec (ep_generation e') g) as [<-|]; simpl in H; [|done].
    destruct (handle_eqb (ep_owner e') own) eqn:Hw; simpl in H; [|done].
    apply handle_eqb_eq in Hw.
    destruct (pipes r !! ep_pipe_index e') as [p|] eqn:Hp; simpl in H; [|done].
    destruct (occupied p) eqn:Hop; simpl in H; [|done].
    destruct (Z.eqb_spec (p_generation p) (ep_pipe_generation e')); simpl in H; [|done].
    destruct (handle_eqb (p_owner p) own) eqn:Hpw; simpl in H; [|done].
    apply handle_eqb_eq in Hpw. injection H as <- <-. split; [done|].
    exists k, p. by split.
  - intros (-> & k & p & [Hd He Ho Hw Hp Hop Hg Hpw]).
    rewrite Hd, He. simpl. rewrite Ho, Z.eqb_refl, Hw, handle_eqb_refl. simpl.
    rewrite Hp. simpl. rewrite Hop, Hg, Z.eqb_refl, Hpw, handle_eqb_refl. done.
Qed.

Lemma resolved_endpoint_Err r own h x :
  resolved_endpoint r own h = Err x → x = BadFileDescriptor.
Proof. unfold resolved_endpoint. intros H. repeat case_match; congruence. Qed.

Lemma resolves_Ok r own h k e p :
  resolves r own h k e p → resolved_endpoint r own h = Ok (ep_pipe_index e, e).
Proof. intros. apply resolved_endpoint_Ok. eauto. Qed.

Lemma resolves_cases r own h :
  (∃ k e p, resolves r own h k e p) ∨ resolved_endpoint r own h = Err BadFileDescriptor.
Proof.
  destruct (resolved_endpoint r own h) as [[i e]|x] eqn:E.
  - apply resolved_endpoint_Ok in E as (-> & k & p & Hr). left. eauto.
  - right. by rewrite (resolved_endpoint_Err _ _ _ _ E).
Qed.

Lemma resolves_inj r own h k e p k' e' p' :
  resolves r own h k e p → resolves r own h k' e' p' → k = k' ∧ e = e' ∧ p = p'.
Proof. intros [] []. naive_solver. Qed.

(** Changing the ring of a live pipe keeps the invariant. *)
Lemma registry_wf_set_pipe r i p p' :
  registry_wf r → pipes r !! i = Some p → pipe_wf p' →
  occupied p' = occupied p → p_generation p' = p_generation p →
  p_owner p' = p_owner p → (∀ d, is_open d p' = is_open d p) →
  registry_wf (mkRegistry (<[i := p']> (pipes r)) (endpoints r)).
Proof.
  intros [Hpl Hel Hp He Hlink Hc] Hi Hw Ho Hg Hown Hd. split; simpl.
  - by rewrite length_insert.
  - done.
  - intros j q [(_ & <- & _)|[_ ?]]%lookup_insert_cases; eauto.
  - done.
  - intros k e Hk Hlive. destruct (Hlink k e Hk Hlive) as (q & Hq & Hoq & Hgq & Howq).
    destruct (decide (i = ep_pipe_index e)) as [->|Hne].
    + rewrite list_lookup_insert_eq by by eapply lookup_lt_Some.
      simplify_eq. exists p'. split_and!; congruence.
    + rewrite list_lookup_insert_ne by done. eauto 10.
  - intros j q d [(-> & <- & _)|[_ ?]]%lookup_insert_cases; [|eauto].
    rewrite Hd. eauto.
Qed.

Lemma registry_wf_boot : registry_wf REGISTRY.
Proof.
  split.
  - done.
  - done.
  - intros i p [-> _]%lookup_replicate. split.
    + apply PIPE_BUF_pos.
    + apply Nat.le_0_l.
    + exact ZERO_BYTES_length.
    + done.
    + done.
  - intros k e [-> _]%lookup_replicate. done.
  - intros k e [-> _]%lookup_replicate. done.
  - intros i p d [-> _]%lookup_replicate. by destruct d.
Qed.

(** ** What each operation does *)

Definition upd_pipe (r : PipeRegistry) (i : nat) (p : PipeSlot) : PipeRegistry :=
  mkRegistry (<[i := p]> (pipes r)) (endpoints r).

Lemma read_resolved r own h k e p output :
  registry_wf r → resolves r own h k e p →
  read own h output r =
  if (length output =? 0)%nat then (Ok (O, output), r)
  else if decide (ep_direction e = Write) then (Err BadFileDescriptor, r)
  else if (len p =? 0)%nat then
    (if write_open p then Err WouldBlock else Ok (O, output), r)
  else
    let c := (length output `min` len p)%nat in
    (Ok (c, take c (contents p) ++ drop c output),
     upd_pipe r (ep_pipe_index e)
       (with_ring p ((head p + c) mod PIPE_BUF)%nat (len p - c)%nat (bytes p))).
Proof.
  intros Hw Hr. unfold read. destruct (length output =? 0)%nat; [done|].
  unfold resolve, set_pipe. m_unfold. rewrite (resolves_Ok _ _ _ _ _ _ Hr). destruct (ep_direction e); simpl; [|done].
  rewrite (slot_at_Some _ _ _ _ (res_pipe _ _ _ _ _ _ Hr)).
  pose proof (wf_pipe _ Hw _ _ (res_pipe _ _ _ _ _ _ Hr)) as [Hh Hl _ _ _].
  destruct (Nat.eqb_spec (len p) 0); [by destruct (write_open p)|].
  rewrite pipe_drain_spec by done. unfold contents.
  rewrite (ring_view_split (bytes p) (head p) (len p) (length output `min` len p)) by lia.
  rewrite take_app_length' by (by rewrite ring_view_length). done.
Qed.

Lemma read_unresolved r own h output :
  resolved_endpoint r own h = Err BadFileDescriptor →
  read own h output r =
    (if (length output =? 0)%nat then Ok (O, output) else Err BadFileDescriptor, r).
Proof.
  intros Hno. unfold read, resolve. destruct (length output =? 0)%nat; [done|].
  m_unfold. by rewrite Hno.
Qed.

(** A write is all or nothing. *)
Lemma write_resolved r own h k e p input :
  registry_wf r → resolves r own h k e p →
  ∃ ring,
  write own h input r =
  (if (length input =? 0)%nat then (Ok O, r)
   else if (PIPE_BUF <? length input)%nat then (Err InvalidArgument, r)
   else if decide (ep_direction e = Read) then (Err BadFileDescriptor, r)
   else if negb (read_open p) then (Err BrokenPipe, r)
   else if (PIPE_BUF <? len p + length input)%nat then (Err WouldBlock, r)
   else (Ok (length input),
         upd_pipe r (ep_pipe_index e)
           (with_ring p (head p) (len p + length input)%nat ring))) ∧
  ((len p + length input ≤ PIPE_BUF)%nat →
   length ring = PIPE_BUF ∧
   ring_view ring (head p) (len p + length input) = contents p ++ input).
Proof.
  intros Hw Hr.
  pose proof (wf_pipe _ Hw _ _ (res_pipe _ _ _ _ _ _ Hr)) as [Hh Hl Hb _ _].
  destruct (decide (len p + length input ≤ PIPE_BUF)%nat) as [Hfit|Hfit].
  - destruct (fill_spec (bytes p) (head p) (len p) input Hh Hb Hfit) as (ring & Hf & Hrl & Hv).
    exists ring. split; [|done]. unfold write, resolve, set_pipe. rewrite Nat.ltb_antisym.
    destruct (length input =? 0)%nat; [done|]. m_unfold.
    destruct (length input <=? PIPE_BUF)%nat; [|done]. simpl negb.
    rewrite (resolves_Ok _ _ _ _ _ _ Hr). destruct (ep_direction e); simpl; [done|].
    rewrite (slot_at_Some _ _ _ _ (res_pipe _ _ _ _ _ _ Hr)). destruct (read_open p); simpl; [|done].
    destruct (Nat.leb_spec (length input) (PIPE_BUF - len p)); [|lia].
    destruct (Nat.ltb_spec PIPE_BUF (len p + length input)); [lia|].
    by rewrite Hf.
  - exists []. split; [|lia]. unfold write, resolve, set_pipe. rewrite (Nat.ltb_antisym (length input)).
    destruct (length input =? 0)%nat; [done|]. m_unfold.
    destruct (length input <=? PIPE_BUF)%nat; [|done]. simpl negb.
    rewrite (resolves_Ok _ _ _ _ _ _ Hr). destruct (ep_direction e); simpl; [done|].
    rewrite (slot_at_Some _ _ _ _ (res_pipe _ _ _ _ _ _ Hr)). destruct (read_open p); simpl; [|done].
    destruct (Nat.leb_spec (length input) (PIPE_BUF - len p)); [lia|].
    destruct (Nat.ltb_spec PIPE_BUF (len p + length input)); [done|lia].
Qed.

Lemma write_unresolved r own h input :
  resolved_endpoint r own h = Err BadFileDescriptor →
  write own h input r =
    (if (length input =? 0)%nat then Ok O
     else if (PIPE_BUF <? length input)%nat then Err InvalidArgument
     else Err BadFileDescriptor, r).
Proof.
  intros Hno. unfold write, resolve. destruct (length input =? 0)%nat; [done|].
  rewrite Nat.ltb_antisym. m_unfold. destruct (_ <=? _)%nat; [|done].
  by rewrite Hno.
Qed.

Lemma close_resolved r own h k e p :
  resolves r own h k e p →
  close own h r =
    (Ok tt, mkRegistry (<[ep_pipe_index e := close_direction (ep_direction e) p]> (pipes r))
              (<[k := vacate e]> (endpoints r))).
Proof.
  intros Hr. unfold close, resolve, set_endpoint, set_pipe. m_unfold.
  rewrite (resolves_Ok _ _ _ _ _ _ Hr), (res_decode _ _ _ _ _ _ Hr). cbv beta iota zeta.
  rewrite (slot_at_Some _ _ _ _ (res_pipe _ _ _ _ _ _ Hr)).
  by rewrite (slot_at_Some _ _ _ _ (res_endpoint _ _ _ _ _ _ Hr)).
Qed.

Lemma close_unresolved r own h :
  resolved_endpoint r own h = Err BadFileDescriptor →
  close own h r = (Err BadFileDescriptor, r).
Proof. intros Hno. unfold close, resolve. m_unfold. by rewrite Hno. Qed.

(** A successful creation: a free pipe and two free endpoint slots, each moved
    to its next generation. *)
Record creates (own : ProcessHandle) (r : PipeRegistry) (hr hw : Z) (r' : PipeRegistry)
    (i kr kw : nat) (p : PipeSlot) (er ew : EndpointSlot) : Prop := {
  cr_owner : valid_owner own = true;
  cr_pipe : pipes r !! i = Some p;
  cr_free : occupied p = false;
  cr_read : endpoints r !! kr = Some er;
  cr_read_free : ep_occupied er = false;
  cr_write : endpoints r !! kw = Some ew;
  cr_write_free : ep_occupied ew = false;
  cr_lt : (kr < kw)%nat;
  cr_gen : p_generation p + 1 ≤ U32_MAX;
  cr_hr : encode_endpoint kr (ep_generation er + 1) = Some hr;
  cr_hw : encode_endpoint kw (ep_generation ew + 1) = Some hw;
  cr_state : r' = mkRegistry
    (<[i := mkPipe true (p_generation p + 1) own true true 0 0 ZERO_BYTES 1]> (pipes r))
    (<[kw := mkEndpoint true (ep_generation ew + 1) own i (p_generation p + 1) Write]>
      (<[kr := mkEndpoint true (ep_generation er + 1) own i (p_generation p + 1) Read]>
        (endpoints r)));
}.

Lemma codec_ok : 0 < ENDPOINT_INDEX_BITS < 32 ∧
  Z.of_nat MAXIMUM_ENDPOINTS < 2 ^ ENDPOINT_INDEX_BITS.
Proof. by vm_compute. Qed.

Lemma create_inv own r x r' :
  create own r = (x, r') →
  (∃ e, x = Err e ∧ r' = r) ∨
  (∃ hr hw i kr kw p er ew, x = Ok (hr, hw) ∧ creates own r hr hw r' i kr kw p er ew).
Proof.
  unfold create, set_pipe, set_endpoint. m_unfold. intros H.
  destruct (negb _ && negb _) eqn:Hv; [|naive_solver].
  destruct (position _ (pipes r)) as [i|] eqn:Hp; [|naive_solver].
  apply position_lookup in Hp as (p & Hi & Hfree%negb_true_iff).
  assert (∀ k, k ∈ indices (λ e, negb (ep_occupied e)) (endpoints r) →
    ∃ e, endpoints r !! k = Some e ∧ ep_occupied e = false) as Hel.
  { intros k (_ & e & He & Ho%negb_true_iff)%indices_from_elem.
    rewrite Nat.sub_0_r in He. eauto. }
  destruct (indices _ (endpoints r)) as [|kr [|kw rest]] eqn:Hf; simpl in H.
  { naive_solver. }
  { naive_solver. }
  destruct (Hel kr) as (er & Her & Hero); [left|].
  destruct (Hel kw) as (ew & Hew & Hewo); [right; left|].
  assert (kr < kw)%nat as Hlt.
  { eapply indices_from_sorted; [exact Hf|left]. }
  rewrite (slot_at_Some _ _ _ _ Hi), (slot_at_Some _ _ _ _ Her), (slot_at_Some _ _ _ _ Hew) in H.
  destruct (checked_add _ _ _) as [g|] eqn:Hg; [|naive_solver].
  apply checked_add_Some in Hg as [-> Hg].
  destruct codec_ok as [Hb _].
  destruct (next_generation (ep_generation er)) as [gr|] eqn:Hgr; [|naive_solver].
  apply next_handle_generation_Some in Hgr as [-> _]; [|done].
  destruct (next_generation (ep_generation ew)) as [gw|] eqn:Hgw; [|naive_solver].
  apply next_handle_generation_Some in Hgw as [-> _]; [|done].
  destruct (encode_endpoint kr _) as [hr|] eqn:Hhr; [|naive_solver].
  destruct (encode_endpoint kw _) as [hw|] eqn:Hhw; [|naive_solver].
  injection H as <- <-. right. exists hr, hw, i, kr, kw, p, er, ew. split; [done|].
  by split.
Qed.

(** ** Every operation keeps the invariant *)

Lemma feeds_free i d e : ep_occupied e = false → feeds i d e = false.
Proof. unfold feeds. by intros ->. Qed.

Lemma feeds_self k own i g d d' :
  feeds i d' (mkEndpoint true k own i g d) = bool_decide (d = d').
Proof. unfold feeds. simpl. by rewrite Nat.eqb_refl. Qed.

Lemma feeds_other k own i j g d d' :
  i ≠ j → feeds j d' (mkEndpoint true k own i g d) = false.
Proof. unfold feeds. simpl. intros. destruct (Nat.eqb_spec i j); [done|]. done. Qed.

(** A pipe nobody has open has no live endpoint. *)
Lemma closed_pipe_unfed r i p k e :
  registry_wf r → pipes r !! i = Some p → occupied p = false →
  endpoints r !! k = Some e → ep_occupied e = true → ep_pipe_index e ≠ i.
Proof.
  intros Hw Hi Hf Hk Ho <-. destruct (wf_link _ Hw k e Hk Ho) as (q & Hq & Hoq & _).
  congruence.
Qed.

Lemma closed_pipe_not_open r i p d :
  registry_wf r → pipes r !! i = Some p → occupied p = false → is_open d p = false.
Proof.
  intros Hw Hp Hf. pose proof (wf_occupied _ (wf_pipe _ Hw _ _ Hp)) as Ho.
  rewrite Hf in Ho. symmetry in Ho. apply orb_false_iff in Ho as [? ?]. by destruct d.
Qed.

(** Two fresh endpoints in free slots add one feed per direction. *)
Lemma create_count l kr kw er ew own i g gr gw j d :
  l !! kr = Some er → l !! kw = Some ew → kr ≠ kw →
  ep_occupied er = false → ep_occupied ew = false →
  countb (feeds j d)
    (<[kw := mkEndpoint true gw own i g Write]> (<[kr := mkEndpoint true gr own i g Read]> l))
  = (countb (feeds j d) l + if decide (i = j) then 1 else 0)%nat.
Proof.
  intros Hr Hw Hne Hrf Hwf.
  pose proof (countb_insert (feeds j d) l kr er (mkEndpoint true gr own i g Read) Hr) as H1.
  pose proof (countb_insert (feeds j d) (<[kr := mkEndpoint true gr own i g Read]> l)
    kw ew (mkEndpoint true gw own i g Write)) as H2.
  rewrite list_lookup_insert_ne in H2 by done. specialize (H2 Hw).
  rewrite (feeds_free _ _ er) in H1 by done. rewrite (feeds_free _ _ ew) in H2 by done.
  destruct (decide (i = j)) as [->|].
  - rewrite feeds_self in H1, H2. destruct d; simpl in *; lia.
  - rewrite feeds_other in H1, H2 by done. simpl in *. lia.
Qed.

Lemma pipe_create_wf own r hr hw r' i kr kw p er ew :
  registry_wf r → creates own r hr hw r' i kr kw p er ew → registry_wf r'.
Proof.
  intros Hw [_ Hp Hfree Hr Hrf Hww Hwf Hlt Hg _ _ ->].
  pose proof (wf_pipe _ Hw _ _ Hp) as [_ _ _ [Hg0 _] _].
  pose proof (lookup_lt_Some _ _ _ Hp) as Hlen.
  split; simpl.
  - rewrite length_insert. apply Hw.
  - rewrite !length_insert. apply Hw.
  - intros j q [(_ & <- & _)|[_ ?]]%lookup_insert_cases; [|by eapply (wf_pipe _ Hw)].
    split; simpl; [apply PIPE_BUF_pos|lia|exact ZERO_BYTES_length|split; lia|done].
  - pose proof (wf_endpoint _ Hw _ _ Hr). pose proof (wf_endpoint _ Hw _ _ Hww).
    intros k e [(_ & <- & _)|[_ [(_ & <- & _)|[_ ?]]%lookup_insert_cases]]%lookup_insert_cases;
      simpl; [lia..|]. by eapply (wf_endpoint _ Hw).
  - intros k e [(_ & <- & _)|[_ [(_ & <- & _)|[_ Hk]]%lookup_insert_cases]]%lookup_insert_cases Ho;
      simpl; [rewrite list_lookup_insert_eq by done; eauto 10..|].
    rewrite list_lookup_insert_ne; [by eapply (wf_link _ Hw)|].
    intros ->. by eapply (closed_pipe_unfed r _ p k e).
  - intros j q d Hj. erewrite create_count by (eauto; lia).
    apply lookup_insert_cases in Hj as [(<- & <- & _)|[Hne Hj]].
    + rewrite decide_True by done. rewrite (wf_count _ Hw _ _ d Hp).
      rewrite (closed_pipe_not_open r i p d) by done. by destruct d.
    + rewrite decide_False by done. rewrite (wf_count _ Hw _ _ d Hj). lia.
Qed.

Lemma is_open_close_direction d d' p :
  is_open d' (close_direction d p) = negb (bool_decide (d = d')) && is_open d' p.
Proof. unfold close_direction. destruct d, d'; simpl; by case_match. Qed.

Lemma close_direction_occupied d p :
  occupied p = read_open p || write_open p → is_open d p = true →
  occupied (close_direction d p) = read_open (close_direction d p) || write_open (close_direction d p).
Proof.
  unfold close_direction. intros Ho Hd.
  destruct d, (read_open p) eqn:?, (write_open p) eqn:?; simpl in *; congruence.
Qed.

Lemma feeds_live e :
  ep_occupied e = true → feeds (ep_pipe_index e) (ep_direction e) e = true.
Proof. unfold feeds. intros ->. by rewrite Nat.eqb_refl, bool_decide_eq_true_2. Qed.

(** The direction of a live endpoint is open. *)
Lemma live_open r k e p :
  registry_wf r → endpoints r !! k = Some e → ep_occupied e = true →
  pipes r !! ep_pipe_index e = Some p → is_open (ep_direction e) p = true.
Proof.
  intros Hw Hk Hl Hp. pose proof (wf_count _ Hw _ p (ep_direction e) Hp) as Hc.
  pose proof (countb_pos _ (endpoints r) k e Hk (feeds_live e Hl)).
  destruct (is_open _ p); [done|]. simpl in Hc. lia.
Qed.

Lemma vacate_count l k e j d :
  l !! k = Some e →
  (countb (feeds j d) (<[k := vacate e]> l) + Nat.b2n (feeds j d e) = countb (feeds j d) l)%nat.
Proof.
  intros Hk. rewrite (countb_insert _ _ _ e) by done.
  rewrite (feeds_free _ _ (vacate e)) by done. simpl. lia.
Qed.

(** After a close the pipe is fed in exactly the directions left open. *)
Lemma close_count r k e p d :
  registry_wf r → endpoints r !! k = Some e → ep_occupied e = true →
  pipes r !! ep_pipe_index e = Some p →
  countb (feeds (ep_pipe_index e) d) (<[k := vacate e]> (endpoints r))
    = Nat.b2n (is_open d (close_direction (ep_direction e) p)).
Proof.
  intros Hw Hk Hl Hp. pose proof (vacate_count _ _ _ (ep_pipe_index e) d Hk) as Hc.
  rewrite (wf_count _ Hw _ _ d Hp) in Hc. rewrite is_open_close_direction.
  pose proof (live_open r k e p Hw Hk Hl Hp) as Hopen.
  unfold feeds in Hc at 2. rewrite Hl, Nat.eqb_refl in Hc. simpl in Hc.
  destruct (decide (ep_direction e = d)) as [<-|Hne].
  - rewrite bool_decide_eq_true_2 in * by done. rewrite Hopen in Hc. simpl in *. lia.
  - rewrite bool_decide_eq_false_2 in * by done. simpl in *. lia.
Qed.

(** The other endpoint of a half-closed pipe keeps its pipe. *)
Lemma close_link r k e p k' e' :
  registry_wf r → endpoints r !! k = Some e → ep_occupied e = true →
  pipes r !! ep_pipe_index e = Some p →
  k ≠ k' → endpoints r !! k' = Some e' → ep_occupied e' = true →
  ep_pipe_index e' = ep_pipe_index e →
  occupied (close_direction (ep_direction e) p) = occupied p ∧
  p_generation (close_direction (ep_direction e) p) = p_generation p ∧
  p_owner (close_direction (ep_direction e) p) = p_owner p.
Proof.
  intros Hw Hk Hl Hp Hne Hk' Hl' Hi.
  assert (is_open (ep_direction e') (close_direction (ep_direction e) p) = true) as Hstill.
  { pose proof (close_count r k e p (ep_direction e') Hw Hk Hl Hp) as Hc.
    pose proof (countb_pos (feeds (ep_pipe_index e) (ep_direction e'))
      (<[k := vacate e]> (endpoints r)) k' e') as Hpos.
    rewrite list_lookup_insert_ne, Hc, <- Hi in Hpos by done.
    specialize (Hpos Hk' (feeds_live e' Hl')). destruct (is_open _ _); [done|]. simpl in Hpos. lia. }
  unfold close_direction in *. destruct (_ && _) eqn:Hb in Hstill |- *; [|done].
  apply andb_true_iff in Hb as [?%negb_true_iff ?%negb_true_iff].
  destruct (ep_direction e'); simpl in Hstill; congruence.
Qed.

Lemma close_direction_wf d p :
  pipe_wf p → is_open d p = true → pipe_wf (close_direction d p).
Proof.
  intros Hpw Hopen.
  pose proof (close_direction_occupied d p (wf_occupied _ Hpw) Hopen) as Hoc.
  destruct Hpw. unfold close_direction in *.
  case_match; split; simpl in *; auto using PIPE_BUF_pos, ZERO_BYTES_length. lia.
Qed.

Lemma pipe_close_wf r own h k e p :
  registry_wf r → resolves r own h k e p → registry_wf (close own h r).2.
Proof.
  intros Hw Hr. rewrite (close_resolved _ _ _ _ _ _ Hr). simpl.
  destruct Hr as [_ Hk Hl Hown Hp Hocc Hgen Hpown].
  pose proof (lookup_lt_Some _ _ _ Hp) as Hlen.
  split; simpl.
  - rewrite length_insert. apply Hw.
  - rewrite length_insert. apply Hw.
  - intros j q [(_ & <- & _)|[_ ?]]%lookup_insert_cases; [|by eapply (wf_pipe _ Hw)].
    apply close_direction_wf; [by eapply (wf_pipe _ Hw)|by eapply live_open].
  - intros k' e' [(_ & <- & _)|[_ ?]]%lookup_insert_cases; [exact (wf_endpoint _ Hw k e Hk)|by eapply (wf_endpoint _ Hw)].
  - intros k' e' [(_ & <- & _)|[Hne Hk']]%lookup_insert_cases Ho; [done|].
    destruct (wf_link _ Hw _ _ Hk' Ho) as (q & Hq & Hoq & Hgq & Howq).
    destruct (decide (ep_pipe_index e = ep_pipe_index e')) as [Hi|];
      [|rewrite list_lookup_insert_ne by done; eauto].
    rewrite <- Hi, list_lookup_insert_eq by done. rewrite <- Hi, Hp in Hq. injection Hq as <-.
    destruct (close_link r k e p k' e') as (H1 & H2 & H3); [done..|].
    eexists. rewrite H1, H2, H3. eauto.
  - intros j q d [(<- & <- & _)|[Hne Hj]]%lookup_insert_cases; [by apply close_count|].
    pose proof (vacate_count _ _ _ j d Hk) as Hc. rewrite (wf_count _ Hw _ _ d Hj) in Hc.
    unfold feeds in Hc at 2. destruct (Nat.eqb_spec (ep_pipe_index e) j); [done|].
    rewrite andb_false_r in Hc. simpl in Hc. lia.
Qed.

Lemma with_ring_wf p hd n ring :
  pipe_wf p → (hd < PIPE_BUF)%nat → (n ≤ PIPE_BUF)%nat → length ring = PIPE_BUF →
  pipe_wf (with_ring p hd n ring).
Proof. intros [] ? ? ?. by split. Qed.

Lemma pipe_read_wf r own h output : registry_wf r → registry_wf (read own h output r).2.
Proof.
  intros Hw. destruct (resolves_cases r own h) as [(k & e & p & Hr)|Hno];
    [|by rewrite read_unresolved].
  rewrite (read_resolved _ _ _ _ _ _ _ Hw Hr). repeat case_match; try done.
  pose proof (wf_pipe _ Hw _ _ (res_pipe _ _ _ _ _ _ Hr)) as Hpw.
  eapply registry_wf_set_pipe; [done|apply Hr|..]; try done.
  destruct Hpw as [? ? ? ? ?]. apply with_ring_wf; [by split|apply mod_PIPE_BUF_lt|lia|done].
Qed.

Lemma write_wf r own h input : registry_wf r → registry_wf (write own h input r).2.
Proof.
  intros Hw. destruct (resolves_cases r own h) as [(k & e & p & Hr)|Hno];
    [|by rewrite write_unresolved].
  destruct (write_resolved _ _ _ _ _ _ input Hw Hr) as (ring & -> & Hring).
  repeat case_match; try done. rewrite Nat.ltb_ge in *.
  pose proof (wf_pipe _ Hw _ _ (res_pipe _ _ _ _ _ _ Hr)) as Hpw.
  eapply registry_wf_set_pipe; [done|apply Hr|..]; try done.
  destruct Hring as [? _]; [lia|]. apply with_ring_wf; [done|apply Hpw|lia|done].
Qed.

(** ** Runs *)

Inductive Op :=
| OpCreate (own : ProcessHandle)
| OpRead (own : ProcessHandle) (h : Z) (output : list Z)
| OpWrite (own : ProcessHandle) (h : Z) (input : list Z)
| OpClose (own : ProcessHandle) (h : Z).

Definition exec (op : Op) (r : PipeRegistry) : PipeRegistry :=
  match op with
  | OpCreate own => (create own r).2
  | OpRead own h output => (read own h output r).2
  | OpWrite own h input => (write own h input r).2
  | OpClose own h => (close own h r).2
  end.

(** The bytes a step returned to a reader of pipe [i]. *)
Definition taken (i : nat) (op : Op) (r : PipeRegistry) : list Z :=
  match op with
  | OpRead own h output =>
      match resolved_endpoint r own h, (read own h output r).1 with
      | Ok (j, _), Ok (c, buffer) => if (j =? i)%nat then take c buffer else []
      | _, _ => []
      end
  | _ => []
  end.

(** The bytes a step accepted from a writer of pipe [i]. *)
Definition given (i : nat) (op : Op) (r : PipeRegistry) : list Z :=
  match op with
  | OpWrite own h input =>
      match resolved_endpoint r own h, (write own h input r).1 with
      | Ok (j, _), Ok c => if (j =? i)%nat then take c input else []
      | _, _ => []
      end
  | _ => []
  end.

Fixpoint exec_all (ops : list Op) (r : PipeRegistry) : PipeRegistry :=
  match ops with [] => r | op :: ops => exec_all ops (exec op r) end.
Fixpoint all_taken (i : nat) (ops : list Op) (r : PipeRegistry) : list Z :=
  match ops with [] => [] | op :: ops => taken i op r ++ all_taken i ops (exec op r) end.
Fixpoint all_given (i : nat) (ops : list Op) (r : PipeRegistry) : list Z :=
  match ops with [] => [] | op :: ops => given i op r ++ all_given i ops (exec op r) end.

Lemma pipe_exec_wf op r : registry_wf r → registry_wf (exec op r).
Proof.
  intros Hw. destruct op as [own|own h output|own h input|own h]; simpl.
  - destruct (create own r) as [x r'] eqn:E. simpl.
    apply create_inv in E as [(e & _ & ->)|(hr & hw & i & kr & kw & p & er & ew & _ & Hc)];
      [done|by eapply pipe_create_wf].
  - by apply pipe_read_wf.
  - by apply write_wf.
  - destruct (resolves_cases r own h) as [(k & e & p & Hr)|Hno];
      [by eapply pipe_close_wf|by rewrite close_unresolved].
Qed.

Lemma pipe_exec_all_wf ops r : registry_wf r → registry_wf (exec_all ops r).
Proof. revert r. induction ops; simpl; eauto using pipe_exec_wf. Qed.

(** Pipe [i] seen across a step: [p'] continues [p], having accepted [inp] and
    delivered [out]; or the pipe was freed or reused, which its generation or
    occupancy shows. *)
Definition continues (p p' : PipeSlot) (inp out : list Z) : Prop :=
  p_generation p ≤ p_generation p' ∧
  (occupied p' = true → p_generation p' = p_generation p →
   occupied p = true ∧ p_owner p' = p_owner p ∧ contents p ++ inp = out ++ contents p').

Lemma continues_refl p : continues p p [] [].
Proof. split; [done|]. rewrite app_nil_r. done. Qed.

Lemma continues_trans p1 p2 p3 i1 o1 i2 o2 :
  continues p1 p2 i1 o1 → continues p2 p3 i2 o2 → continues p1 p3 (i1 ++ i2) (o1 ++ o2).
Proof.
  intros [Hg1 H1] [Hg2 H2]. split; [lia|]. intros Ho Hg.
  destruct (H2 Ho ltac:(lia)) as (Ho2 & Hw2 & Hc2).
  destruct (H1 Ho2 ltac:(lia)) as (Ho1 & Hw1 & Hc1).
  split_and!; [done|congruence|].
  by rewrite app_assoc, Hc1, <- app_assoc, Hc2, app_assoc.
Qed.

Lemma contents_with_ring p hd n ring : contents (with_ring p hd n ring) = ring_view ring hd n.
Proof. done. Qed.

Section OnePipe.
Context (r : PipeRegistry) (i : nat) (p : PipeSlot).
Hypothesis Hw : registry_wf r.
Hypothesis Hi : pipes r !! i = Some p.

Lemma read_continues own h output :
  ∃ p', pipes (read own h output r).2 !! i = Some p' ∧
    continues p p' [] (taken i (OpRead own h output) r).
Proof.
  unfold taken. destruct (resolves_cases r own h) as [(k & e & q & Hr)|Hno].
  2: { rewrite read_unresolved, Hno by done. eauto using continues_refl. }
  rewrite (read_resolved _ _ _ _ _ _ _ Hw Hr), (resolves_Ok _ _ _ _ _ _ Hr).
  destruct (Nat.eqb_spec (length output) 0) as [E|E].
  { simpl. rewrite take_0. exists p. case_match; eauto using continues_refl. }
  destruct (decide (ep_direction e = Write)); [eauto using continues_refl|].
  destruct (Nat.eqb_spec (len q) 0) as [El|El].
  { destruct (write_open q); simpl; [eauto using continues_refl|].
    rewrite take_0. exists p. case_match; eauto using continues_refl. }
  simpl. destruct (Nat.eqb_spec (ep_pipe_index e) i) as [He|He].
  2: { rewrite list_lookup_insert_ne by done. eauto using continues_refl. }
  pose proof (res_pipe _ _ _ _ _ _ Hr) as Hq. rewrite He in *. simplify_eq.
  rewrite list_lookup_insert_eq by by eapply lookup_lt_Some. eexists. split; [done|].
  split; [done|]. intros Ho _. split_and!; [done..|]. rewrite app_nil_r, contents_with_ring.
  set (c := (length output `min` len p)%nat).
  assert (c ≤ len p)%nat by lia.
  unfold contents. rewrite take_app_length'.
  2: { rewrite length_take, ring_view_length. lia. }
  rewrite (ring_view_split (bytes p) (head p) (len p) c) at 1 2 by done.
  by rewrite take_app_length' by by rewrite ring_view_length.
Qed.

Lemma write_continues own h input :
  ∃ p', pipes (write own h input r).2 !! i = Some p' ∧
    continues p p' (given i (OpWrite own h input) r) [].
Proof.
  unfold given. destruct (resolves_cases r own h) as [(k & e & q & Hr)|Hno].
  2: { rewrite write_unresolved, Hno by done. eauto using continues_refl. }
  rewrite (resolves_Ok _ _ _ _ _ _ Hr).
  destruct (write_resolved _ _ _ _ _ _ input Hw Hr) as (ring & -> & Hring).
  destruct (Nat.eqb_spec (length input) 0) as [E|E].
  { simpl. rewrite take_0. exists p. case_match; eauto using continues_refl. }
  do 4 (case_match; [eauto using continues_refl|]). simpl.
  destruct (Nat.eqb_spec (ep_pipe_index e) i) as [He|He].
  2: { rewrite list_lookup_insert_ne by done. eauto using continues_refl. }
  pose proof (res_pipe _ _ _ _ _ _ Hr) as Hq. rewrite He in *. simplify_eq.
  rewrite list_lookup_insert_eq by by eapply lookup_lt_Some. eexists. split; [done|].
  split; [done|]. intros Ho _. split_and!; [done..|]. rewrite contents_with_ring.
  rewrite Nat.ltb_ge in *. destruct Hring as [_ ->]; [done|]. by rewrite firstn_all.
Qed.

Lemma create_continues own :
  ∃ p', pipes (create own r).2 !! i = Some p' ∧ continues p p' [] [].
Proof.
  destruct (create own r) as [x r'] eqn:E. simpl.
  apply create_inv in E as [(e & _ & ->)|(hr & hw & j & kr & kw & q & er & ew & _ & Hc)];
    [eauto using continues_refl|].
  pose proof (cr_pipe _ _ _ _ _ _ _ _ _ _ _ Hc) as Hj.
  rewrite (cr_state _ _ _ _ _ _ _ _ _ _ _ Hc). simpl.
  destruct (decide (j = i)) as [->|].
  - simplify_eq. rewrite list_lookup_insert_eq by by eapply lookup_lt_Some.
    eexists. split; [done|]. split; simpl; lia.
  - rewrite list_lookup_insert_ne by done. eauto using continues_refl.
Qed.

Lemma close_direction_continues d : continues p (close_direction d p) [] [].
Proof.
  unfold close_direction, continues. case_match; simpl; [done|].
  split; [done|]. intros. split_and!; [done..|]. by rewrite app_nil_r.
Qed.

Lemma close_continues own h :
  ∃ p', pipes (close own h r).2 !! i = Some p' ∧ continues p p' [] [].
Proof.
  destruct (resolves_cases r own h) as [(k & e & q & Hr)|Hno].
  2: { rewrite close_unresolved by done. eauto using continues_refl. }
  rewrite (close_resolved _ _ _ _ _ _ Hr). simpl. pose proof (res_pipe _ _ _ _ _ _ Hr) as Hq.
  destruct (decide (ep_pipe_index e = i)) as [He|].
  - rewrite He in *. simplify_eq. rewrite list_lookup_insert_eq by by eapply lookup_lt_Some.
    eauto using close_direction_continues.
  - rewrite list_lookup_insert_ne by done. eauto using continues_refl.
Qed.

Lemma exec_continues op :
  ∃ p', pipes (exec op r) !! i = Some p' ∧ continues p p' (given i op r) (taken i op r).
Proof.
  destruct op.
  - apply create_continues.
  - apply read_continues.
  - apply write_continues.
  - apply close_continues.
Qed.
End OnePipe.

(** ** Stale handles *)

(** No live endpoint carries handle slot [k] with generation [g], now or later. *)
Definition dead (r : PipeRegistry) (k : nat) (g : Z) : Prop :=
  ∀ e, endpoints r !! k = Some e →
    g < ep_generation e ∨ ep_generation e = g ∧ ep_occupied e = false.

Lemma dead_unresolved r k g own h :
  decode_endpoint h = Some (k, g) → dead r k g →
  resolved_endpoint r own h = Err BadFileDescriptor.
Proof.
  intros Hd Hdead. destruct (resolves_cases r own h) as [(k' & e & p & [Hd' He Hl _ _ _ _ _])|];
    [|done].
  rewrite Hd in Hd'. injection Hd' as <- ->. destruct (Hdead e He) as [|[_ ?]]; [lia|congruence].
Qed.

Lemma exec_dead op r k g : registry_wf r → dead r k g → dead (exec op r) k g.
Proof.
  intros Hw Hd. destruct op as [own|own h output|own h input|own h]; simpl.
  - destruct (create own r) as [x r'] eqn:E. simpl.
    apply create_inv in E as [(e & _ & ->)|(hr & hw & i & kr & kw & p & er & ew & _ & Hc)]; [done|].
    destruct Hc as [_ _ _ Hr Hrf Hww Hwf Hlt _ _ _ ->].
    intros e. simpl.
    intros [(-> & <- & _)|[_ [(-> & <- & _)|[_ He]]%lookup_insert_cases]]%lookup_insert_cases;
      [| |by apply Hd]; simpl.
    + destruct (Hd _ Hww) as [|[-> _]]; lia.
    + destruct (Hd _ Hr) as [|[-> _]]; lia.
  - destruct (resolves_cases r own h) as [(k' & e & p & Hr)|Hno];
      [|by rewrite read_unresolved].
    rewrite (read_resolved _ _ _ _ _ _ _ Hw Hr). by repeat case_match.
  - destruct (resolves_cases r own h) as [(k' & e & p & Hr)|Hno];
      [|by rewrite write_unresolved].
    destruct (write_resolved _ _ _ _ _ _ input Hw Hr) as (ring & -> & _).
    by repeat case_match.
  - destruct (resolves_cases r own h) as [(k' & e & p & Hr)|Hno];
      [|by rewrite close_unresolved].
    rewrite (close_resolved _ _ _ _ _ _ Hr). intros e'. simpl.
    intros [(-> & <- & _)|[_ He]]%lookup_insert_cases; [|by apply Hd].
    destruct (Hd _ (res_endpoint _ _ _ _ _ _ Hr)) as [|[? _]]; simpl; auto.
Qed.

Lemma exec_all_dead ops r k g : registry_wf r → dead r k g → dead (exec_all ops r) k g.
Proof. revert r. induction ops; simpl; eauto using pipe_exec_wf, exec_dead. Qed.

(** ** Properties *)

(** From boot on, after any sequence of pipe operations by any processes
    and with any handles, the registry invariant holds: every live endpoint
    names a live pipe of its own generation and owner, every pipe has exactly
    one live endpoint per open direction, and ring positions are in bounds. *)
Theorem pipe_registry_wf (ops : list Op) : registry_wf (exec_all ops REGISTRY).
Proof. apply pipe_exec_all_wf, registry_wf_boot. Qed.

(** C4. Stream integrity: as long as a pipe is not freed, over any interleaving
    of operations, what its readers received followed by what is still queued is
    exactly what was queued followed by what its writers had accepted: nothing
    is lost, repeated or reordered. A freed and reused slot is told apart by
    its generation, which only grows. *)
Theorem pipe_stream_integrity (ops : list Op) (r : PipeRegistry) (i : nat) (p : PipeSlot) :
  registry_wf r → pipes r !! i = Some p →
  ∃ p', pipes (exec_all ops r) !! i = Some p' ∧ p_generation p ≤ p_generation p' ∧
    (occupied p' = true → p_generation p' = p_generation p →
     contents p ++ all_given i ops r = all_taken i ops r ++ contents p').
Proof.
  intros Hw Hi. assert (∃ p', pipes (exec_all ops r) !! i = Some p' ∧
    continues p p' (all_given i ops r) (all_taken i ops r)) as (p' & Hp' & Hg & Hc).
  { revert r p Hw Hi. induction ops as [|op ops IH]; intros r p Hw Hi; simpl.
    { eauto using continues_refl. }
    destruct (exec_continues r i p Hw Hi op) as (p1 & Hp1 & H1).
    destruct (IH (exec op r) p1 (pipe_exec_wf op r Hw) Hp1) as (p2 & Hp2 & H2).
    eauto using continues_trans. }
  exists p'. split_and!; [done..|]. intros Ho Hge. by destruct (Hc Ho Hge) as (_ & _ & ?).
Qed.

(** Writes are atomic: a write on a live write endpoint either fails and
    changes nothing, or accepts the whole input and appends it to the queue. It
    fails with [BrokenPipe] exactly when the reader is gone and with
    [WouldBlock] exactly when the input does not fit in the space left. *)
Theorem pipe_write_atomic (r r' : PipeRegistry) (own : ProcessHandle) (h : Z) (k : nat)
    (e : EndpointSlot) (p : PipeSlot) (input : list Z) (x : Result nat PipeError) :
  registry_wf r → resolves r own h k e p → ep_direction e = Write →
  (0 < length input ≤ PIPE_BUF)%nat → write own h input r = (x, r') →
  match x with
  | Ok n =>
      n = length input ∧ read_open p = true ∧
      ∃ p', pipes r' !! ep_pipe_index e = Some p' ∧ contents p' = contents p ++ input
  | Err BrokenPipe => r' = r ∧ read_open p = false
  | Err WouldBlock =>
      r' = r ∧ read_open p = true ∧ (PIPE_BUF < length (contents p) + length input)%nat
  | Err _ => False
  end.
Proof.
  intros Hw Hr Hd Hin Hrun.
  destruct (write_resolved _ _ _ _ _ _ input Hw Hr) as (ring & Hrun' & Hring).
  rewrite Hrun' in Hrun. clear Hrun'.
  destruct (Nat.eqb_spec (length input) 0); [lia|].
  destruct (Nat.ltb_spec PIPE_BUF (length input)); [lia|].
  rewrite Hd in Hrun. destruct (decide (Write = Read)); [done|].
  destruct (read_open p) eqn:Ho; simplify_eq/=; [|done].
  destruct (Nat.ltb_spec PIPE_BUF (len p + length input)); simplify_eq/=.
  - split_and!; [done..|]. unfold contents. by rewrite ring_view_length.
  - split_and!; [done..|]. pose proof (res_pipe _ _ _ _ _ _ Hr).
    rewrite list_lookup_insert_eq by by eapply lookup_lt_Some.
    eexists. split; [done|]. rewrite contents_with_ring. by apply Hring.
Qed.

(** A closed handle stays closed: once an endpoint has been closed, its
    handle resolves for no process, whatever operations follow, even when its
    slot is reused for a new pipe. *)
Theorem pipe_closed_handle_dead (r r' : PipeRegistry) (own own' : ProcessHandle) (h : Z)
    (ops : list Op) :
  registry_wf r → close own h r = (Ok tt, r') →
  resolved_endpoint (exec_all ops r') own' h = Err BadFileDescriptor.
Proof.
  intros Hw Hc. destruct (resolves_cases r own h) as [(k & e & p & Hr)|Hno];
    [|by rewrite close_unresolved in Hc].
  pose proof (pipe_close_wf _ _ _ _ _ _ Hw Hr) as Hw'. rewrite Hc in Hw'. simpl in Hw'.
  eapply dead_unresolved; [apply Hr|]. apply exec_all_dead; [done|].
  rewrite (close_resolved _ _ _ _ _ _ Hr) in Hc. injection Hc as <-. intros e'. simpl.
  rewrite list_lookup_insert_eq by (eapply lookup_lt_Some, Hr). intros [= <-]. by right.
Qed.

(** The two handles of a creation resolve to the two ends of the new pipe. *)
Lemma create_resolves own r hr hw r' i kr kw p er ew :
  registry_wf r → creates own r hr hw r' i kr kw p er ew →
  let q := mkPipe true (p_generation p + 1) own true true 0 0 ZERO_BYTES 1 in
  resolves r' own hr kr
    (mkEndpoint true (ep_generation er + 1) own i (p_generation p + 1) Read) q ∧
  resolves r' own hw kw
    (mkEndpoint true (ep_generation ew + 1) own i (p_generation p + 1) Write) q.
Proof.
  intros Hw [_ Hp _ Hr _ Hww _ Hlt _ Hhr Hhw ->]. destruct codec_ok as [Hb Hs].
  pose proof (wf_endpoint _ Hw _ _ Hr). pose proof (wf_endpoint _ Hw _ _ Hww).
  apply (decode_encode_handle _ _ Hb Hs) in Hhr, Hhw; [|lia..].
  split; split; simpl; try done.
  - rewrite list_lookup_insert_ne by lia.
    apply list_lookup_insert_eq. by eapply lookup_lt_Some.
  - apply list_lookup_insert_eq. by eapply lookup_lt_Some.
  - apply list_lookup_insert_eq. rewrite length_insert. by eapply lookup_lt_Some.
  - apply list_lookup_insert_eq. by eapply lookup_lt_Some.
Qed.

(** [hr] and [hw] are the two ends of the pipe in state [q]. *)
Record ends (r : PipeRegistry) (own : ProcessHandle) (hr hw : Z) (q : PipeSlot)
    (kr kw : nat) (er ew : EndpointSlot) : Prop := {
  ends_wf : registry_wf r;
  ends_read : resolves r own hr kr er q;
  ends_write : resolves r own hw kw ew q;
  ends_read_dir : ep_direction er = Read;
  ends_write_dir : ep_direction ew = Write;
  ends_same : ep_pipe_index er = ep_pipe_index ew;
}.

Lemma ends_distinct r own hr hw q kr kw er ew :
  ends r own hr hw q kr kw er ew → kr ≠ kw ∧ hr ≠ hw.
Proof.
  intros [_ H1 H2 Hd1 Hd2 _]. assert (kr ≠ kw) as Hne.
  { intros ->. pose proof (res_endpoint _ _ _ _ _ _ H1).
    pose proof (res_endpoint _ _ _ _ _ _ H2). congruence. }
  split; [done|]. intros ->. pose proof (res_decode _ _ _ _ _ _ H1).
  pose proof (res_decode _ _ _ _ _ _ H2). congruence.
Qed.

Lemma ends_upd r own hr hw q kr kw er ew q' :
  ends r own hr hw q kr kw er ew → registry_wf (upd_pipe r (ep_pipe_index er) q') →
  occupied q' = occupied q → p_generation q' = p_generation q → p_owner q' = p_owner q →
  ends (upd_pipe r (ep_pipe_index er) q') own hr hw q' kr kw er ew.
Proof.
  intros [Hw [] [] Hd1 Hd2 Hs] Hw' Ho Hg Hown.
  split; try done; split; simpl; try congruence; rewrite <- ?Hs;
    apply list_lookup_insert_eq; by eapply lookup_lt_Some.
Qed.

Lemma ends_do_write r own hr hw q kr kw er ew input :
  ends r own hr hw q kr kw er ew → read_open q = true → (0 < length input)%nat →
  (length (contents q) + length input ≤ PIPE_BUF)%nat →
  ∃ r' q', write own hw input r = (Ok (length input), r') ∧
    ends r' own hr hw q' kr kw er ew ∧ contents q' = contents q ++ input ∧
    write_open q' = write_open q ∧ read_open q' = read_open q.
Proof.
  intros He Ho Hin Hfit. pose proof He as [Hw _ Hr' _ Hd Hs].
  unfold contents in Hfit. rewrite ring_view_length in Hfit.
  pose proof (write_wf r own hw input Hw) as Hw'.
  destruct (write_resolved _ _ _ _ _ _ input Hw Hr') as (ring & Hrun & Hring).
  destruct (Nat.eqb_spec (length input) 0) in Hrun; [lia|].
  destruct (Nat.ltb_spec PIPE_BUF (length input)) in Hrun; [lia|].
  rewrite Hd, Ho in Hrun. simpl in Hrun.
  destruct (Nat.ltb_spec PIPE_BUF (len q + length input)) in Hrun; [lia|].
  rewrite Hrun in Hw' |- *. simpl in Hw'. rewrite <- Hs in *. do 2 eexists. split; [done|].
  split; [by apply (ends_upd _ _ _ _ q)|]. rewrite contents_with_ring. split; [by apply Hring|done].
Qed.

Lemma ends_do_read r own hr hw q kr kw er ew output :
  ends r own hr hw q kr kw er ew → (0 < length output)%nat → contents q ≠ [] →
  ∃ r' q' c, read own hr output r = (Ok (c, take c (contents q) ++ drop c output), r') ∧
    c = (length output `min` length (contents q))%nat ∧
    ends r' own hr hw q' kr kw er ew ∧ contents q' = drop c (contents q) ∧
    write_open q' = write_open q ∧ read_open q' = read_open q.
Proof.
  intros He Hout Hne. pose proof He as [Hw Hr _ Hd _ Hs].
  pose proof (pipe_read_wf r own hr output Hw) as Hw'.
  pose proof (read_resolved _ _ _ _ _ _ output Hw Hr) as Hrun.
  destruct (Nat.eqb_spec (length output) 0) in Hrun; [lia|].
  rewrite Hd in Hrun. simpl in Hrun.
  destruct (Nat.eqb_spec (len q) 0) as [E|E] in Hrun.
  { destruct Hne. unfold contents. by rewrite E. }
  rewrite Hrun in Hw' |- *. simpl in Hw'. do 3 eexists. split; [done|].
  split; [unfold contents; by rewrite ring_view_length|].
  split; [by apply (ends_upd _ _ _ _ q)|]. rewrite contents_with_ring. split; [|done].
  unfold contents. rewrite (ring_view_split (bytes q) (head q) (len q)
    (length output `min` len q)) by lia.
  by rewrite drop_app_length' by by rewrite ring_view_length.
Qed.

Lemma ends_read_drained r own hr hw q kr kw er ew output :
  ends r own hr hw q kr kw er ew → (0 < length output)%nat → contents q = [] →
  read own hr output r = (if write_open q then Err WouldBlock else Ok (O, output), r).
Proof.
  intros [Hw Hr _ Hd _ _] Hout Hc. rewrite (read_resolved _ _ _ _ _ _ output Hw Hr).
  destruct (Nat.eqb_spec (length output) 0); [lia|]. rewrite Hd. simpl.
  apply (f_equal length) in Hc. unfold contents in Hc. rewrite ring_view_length in Hc.
  simpl in Hc. by rewrite Hc.
Qed.

(** Closing the write end leaves a reader at end of file. *)
Lemma ends_close_writer r own hr hw q kr kw er ew output :
  ends r own hr hw q kr kw er ew → (0 < length output)%nat → contents q = [] →
  ∃ r', close own hw r = (Ok tt, r') ∧ read own hr output r' = (Ok (O, output), r').
Proof.
  intros He Hout Hc. destruct (ends_distinct _ _ _ _ _ _ _ _ _ He) as [Hne _].
  destruct He as [Hw Hr Hr' Hd Hd' Hs].
  pose proof (close_resolved _ _ _ _ _ _ Hr') as Hrun.
  pose proof (pipe_close_wf _ _ _ _ _ _ Hw Hr') as Hw'. rewrite Hrun in Hw' |- *.
  simpl in Hw'. eexists. split; [done|].
  assert (read_open q = true) as Hro.
  { pose proof (live_open r kr er q Hw) as Hl. rewrite Hd in Hl. by apply Hl; apply Hr. }
  assert (close_direction Write q = mkPipe (occupied q) (p_generation q) (p_owner q) true false
    (head q) (len q) (bytes q) (wrapping_add U64_MAX (readiness_gen q) 1)) as Hcd.
  { unfold close_direction. by rewrite Hro. }
  rewrite Hd', Hcd in *. set (q' := mkPipe _ _ _ _ _ _ _ _ _) in *.
  set (r4 := mkRegistry _ _) in *.
  assert (resolves r4 own hr kr er q') as Hr4.
  { destruct Hr, Hr'. split; simpl; try done.
    - by rewrite list_lookup_insert_ne.
    - rewrite Hs. apply list_lookup_insert_eq. by eapply lookup_lt_Some. }
  rewrite (read_resolved _ _ _ _ _ _ output Hw' Hr4), Hd. simpl.
  destruct (Nat.eqb_spec (length output) 0); [lia|].
  apply (f_equal length) in Hc. unfold contents in Hc. rewrite ring_view_length in Hc.
  simpl in Hc. by rewrite Hc.
Qed.

(** A fresh pipe carries data end to end: creating a pipe yields two
    distinct handles; bytes written to the write end come back in order from
    the read end; and closing the write end turns the drained pipe into
    end-of-file for the reader. *)
Theorem pipe_round_trip (r r1 : PipeRegistry) (own : ProcessHandle) (hr hw : Z)
    (input output : list Z) :
  registry_wf r → create own r = (Ok (hr, hw), r1) →
  (0 < length input ≤ PIPE_BUF)%nat → length output = length input →
  ∃ r2 r3 r4,
    hr ≠ hw ∧
    write own hw input r1 = (Ok (length input), r2) ∧
    read own hr output r2 = (Ok (length input, input), r3) ∧
    read own hr output r3 = (Err WouldBlock, r3) ∧
    close own hw r3 = (Ok tt, r4) ∧
    read own hr output r4 = (Ok (O, output), r4).
Proof.
  intros Hwf Hc Hin Hout.
  apply create_inv in Hc as [(? & ? & _)|(hr' & hw' & i & kr & kw & p & er & ew & Heq & Hc)];
    [done|]. injection Heq as <- <-.
  destruct (create_resolves _ _ _ _ _ _ _ _ _ _ _ Hwf Hc) as [Hr1 Hr1'].
  assert (ends r1 own hr hw _ kr kw _ _) as He1
    by (split; [by eapply pipe_create_wf|exact Hr1|exact Hr1'|done..]).
  destruct (ends_do_write _ _ _ _ _ _ _ _ _ input He1) as (r2 & q2 & Hwr & He2 & Hc2 & Hwo2 & _);
    [done|lia|simpl; lia|].
  destruct (ends_do_read _ _ _ _ _ _ _ _ _ output He2) as (r3 & q3 & c & Hrd & -> & He3 & Hc3 & Hwo3 & _);
    [lia|rewrite Hc2; destruct input; [simpl in *; lia|done]|].
  rewrite Hc2 in Hrd, Hc3. simpl in Hrd, Hc3.
  rewrite Hout, Nat.min_id, firstn_all, drop_ge, app_nil_r in Hrd by lia.
  rewrite Hout, Nat.min_id, drop_all in Hc3.
  destruct (ends_close_writer _ _ _ _ _ _ _ _ _ output He3) as (r4 & Hcl & Hrd4); [lia|done|].
  exists r2, r3, r4. split_and!; [by eapply ends_distinct|done..| |done|done].
  rewrite (ends_read_drained _ _ _ _ _ _ _ _ _ output He3) by (done || lia).
  by rewrite Hwo3, Hwo2.
Qed.

(** Readiness of a pipe end is accurate. The read end reports input or
    hang-up exactly when a read would not block; the write end reports output
    exactly when one more byte is accepted, and error exactly when writing would
    break the pipe. *)
Theorem pipe_readiness_predicts (r : PipeRegistry) (own : ProcessHandle) (h : Z) (k : nat)
    (e : EndpointSlot) (p : PipeSlot) (byte : Z) :
  registry_wf r → resolves r own h k e p →
  ∃ ready, readiness own h r = (Ok ready, r) ∧
  match ep_direction e with
  | Read => ready = 0 ↔ (read own h [byte] r).1 = Err WouldBlock
  | Write =>
      (ready = EventFd.READY_OUT ↔ (write own h [byte] r).1 = Ok 1%nat) ∧
      (ready = EventFd.READY_ERR ↔ (write own h [byte] r).1 = Err BrokenPipe)
  end.
Proof.
  intros Hw Hr. unfold readiness, resolve. m_unfold.
  rewrite (resolves_Ok _ _ _ _ _ _ Hr), (slot_at_Some _ _ _ _ (res_pipe _ _ _ _ _ _ Hr)).
  destruct (ep_direction e) eqn:Hd.
  - eexists. split; [done|]. rewrite (read_resolved _ _ _ _ _ _ _ Hw Hr), Hd. simpl.
    destruct (len p =? 0)%nat, (write_open p); simpl; split; done.
  - eexists. split; [done|].
    destruct (write_resolved _ _ _ _ _ _ [byte] Hw Hr) as (ring & -> & _). rewrite Hd. simpl.
    pose proof PIPE_BUF_pos. destruct (Nat.ltb_spec PIPE_BUF 1); [lia|].
    destruct (read_open p); simpl; [|by split].
    destruct (Nat.ltb_spec (len p) PIPE_BUF), (Nat.ltb_spec PIPE_BUF (len p + 1)); try lia;
      simpl; split; split; done.
Qed.

(** ** Witnesses *)

Definition sample_owner : ProcessHandle := mkHandle 3 1.
(** A pipe with read handle 257 and write handle 258, three bytes queued. *)
Definition sample_registry : PipeRegistry :=
  exec_all [OpCreate sample_owner; OpWrite sample_owner 258 [10; 11; 12]] REGISTRY.

Lemma sample_registry_wf : registry_wf sample_registry.
Proof. apply pipe_exec_all_wf, registry_wf_boot. Qed.

Definition sample_pipe : PipeSlot :=
  mkPipe true 1 sample_owner true true 0 3 ([10; 11; 12] ++ drop 3 ZERO_BYTES) 2.

Lemma sample_resolves (h : Z) (k : nat) (d : Direction) :
  (h = 257 ∧ k = 0%nat ∧ d = Read) ∨ (h = 258 ∧ k = 1%nat ∧ d = Write) →
  resolves sample_registry sample_owner h k (mkEndpoint true 1 sample_owner 0 1 d) sample_pipe.
Proof. intros [(-> & -> & ->)|(-> & -> & ->)]; split; vm_compute; reflexivity. Qed.

Lemma pipe_stream_integrity_witness :
  ∃ p', pipes (exec_all [OpRead sample_owner 257 [0; 0]; OpWrite sample_owner 258 [13]]
                 sample_registry) !! 0%nat = Some p' ∧ 1 ≤ p_generation p' ∧
    (occupied p' = true → p_generation p' = 1 → [10; 11; 12] ++ [13] = [10; 11] ++ contents p').
Proof.
  apply (pipe_stream_integrity [OpRead sample_owner 257 [0; 0]; OpWrite sample_owner 258 [13]]
    sample_registry 0 sample_pipe).
  - exact sample_registry_wf.
  - vm_compute. reflexivity.
Defined.

Lemma pipe_write_atomic_witness :
  1%nat = 1%nat ∧ true = true ∧
  ∃ p', pipes (write sample_owner 258 [13] sample_registry).2 !! 0%nat = Some p' ∧
    contents p' = contents sample_pipe ++ [13].
Proof.
  apply (pipe_write_atomic sample_registry (write sample_owner 258 [13] sample_registry).2
    sample_owner 258 1 (mkEndpoint true 1 sample_owner 0 1 Write) sample_pipe [13] (Ok 1%nat)).
  - exact sample_registry_wf.
  - apply sample_resolves. by right.
  - reflexivity.
  - pose proof PIPE_BUF_pos. simpl. lia.
  - vm_compute. reflexivity.
Defined.

Lemma pipe_closed_handle_dead_witness :
  resolved_endpoint (exec_all [OpClose sample_owner 258; OpCreate sample_owner]
    (close sample_owner 257 sample_registry).2) sample_owner 257 = Err BadFileDescriptor.
Proof.
  apply (pipe_closed_handle_dead sample_registry _ sample_owner).
  - exact sample_registry_wf.
  - vm_compute. reflexivity.
Defined.

Lemma pipe_round_trip_witness :
  ∃ r2 r3 r4,
    257 ≠ 258 ∧
    write sample_owner 258 [5; 6] (create sample_owner REGISTRY).2 = (Ok 2%nat, r2) ∧
    read sample_owner 257 [0; 0] r2 = (Ok (2%nat, [5; 6]), r3) ∧
    read sample_owner 257 [0; 0] r3 = (Err WouldBlock, r3) ∧
    close sample_owner 258 r3 = (Ok tt, r4) ∧
    read sample_owner 257 [0; 0] r4 = (Ok (O, [0; 0]), r4).
Proof.
  apply (pipe_round_trip REGISTRY _ sample_owner 257 258 [5; 6] [0; 0]).
  - exact registry_wf_boot.
  - vm_compute. reflexivity.
  - unfold PIPE_BUF. simpl. lia.
  - reflexivity.
Defined.

Lemma pipe_readiness_predicts_witness :
  ∃ ready, readiness sample_owner 257 sample_registry = (Ok ready, sample_registry) ∧
    (ready = 0 ↔ (read sample_owner 257 [0] sample_registry).1 = Err WouldBlock).
Proof.
  apply (pipe_readiness_predicts sample_registry sample_owner 257 0
    (mkEndpoint true 1 sample_owner 0 1 Read) sample_pipe 0).
  - exact sample_registry_wf.
  - apply sample_resolves. by left.
Defined.
