(* ===== verification/Signal.v ===== *)
(** * Signals: linux_signal.rs

    Dispositions per thread group, masks, pending bits and the active return
    frame per thread, in two arrays keyed by exact process generations, and
    every operation of the file. The delivery loop runs on fuel; [SIGNAL_COUNT
    + 1] rounds are proved to be enough, since each round clears a pending bit. *)

From stdpp Require Import prelude list numbers option.
From Stdlib Require Import ZArith Lia.
From S2P Require Import Prelude.
From S2P Require Import Handles.
From S2P Require Import Context.
From S2P Require Import KeyedTable.

Definition MAXIMUM_SIGNAL : Z := 64.
Definition SIGKILL : Z := 9.
Definition SIGSTOP : Z := 19.
Definition SA_SIGINFO : Z := 0x00000004.
Definition SA_RESTORER : Z := 0x04000000.
Definition SA_RESTART : Z := 0x10000000.
Definition SA_NODEFER : Z := 0x40000000.
Definition SA_RESETHAND : Z := 0x80000000.
Definition SUPPORTED_ACTION_FLAGS : Z :=
  Z.lor (Z.lor (Z.lor (Z.lor SA_SIGINFO SA_RESTORER) SA_RESTART) SA_NODEFER) SA_RESETHAND.

Definition MAXIMUM_ENTRIES : nat := MAXIMUM_PROCESSES.
Definition SIGNAL_COUNT : nat := Z.to_nat MAXIMUM_SIGNAL.

Arguments SIGNAL_COUNT : simpl never.
Arguments MAXIMUM_ENTRIES : simpl never.

Record SignalAction := mkAction {
  handler : Z;
  a_flags : Z;
  restorer : Z;
  a_mask : Z;
}.

#[global] Instance SignalAction_eq_dec : EqDecision SignalAction.
Proof. solve_decision. Defined.

(** [SignalAction::default()] *)
Definition DEFAULT_ACTION : SignalAction := mkAction 0 0 0 0.

Inductive SignalError :=
| InvalidOwner
| InvalidSignal
| InvalidAction
| InvalidMaskOperation
| InvalidFrame
| Unsupported
| Capacity.

#[global] Instance SignalError_eq_dec : EqDecision SignalError.
Proof. solve_decision. Defined.

(** [Delivery]; its constructor [None] is [Nothing] here. *)
Inductive Delivery :=
| Nothing
| Terminate (signal : Z)
| Handler (signal : Z) (action : SignalAction) (previous_mask : Z).

Record GroupSlot := mkGroup {
  g_owner : ProcessHandle;
  actions : list SignalAction;
}.

Definition EMPTY_GROUP : GroupSlot :=
  mkGroup NO_PROCESS (replicate SIGNAL_COUNT DEFAULT_ACTION).

Record ThreadSlot := mkThread {
  t_owner : ProcessHandle;
  blocked : Z;
  pending : Z;
  active_frame_of : Z;
}.

Definition EMPTY_THREAD : ThreadSlot := mkThread NO_PROCESS 0 0 0.

#[global] Instance group_keyed : Keyed GroupSlot := g_owner.
#[global] Instance thread_keyed : Keyed ThreadSlot := t_owner.

Record SignalTable := mkTable {
  groups : list GroupSlot;
  threads : list ThreadSlot;
}.

Abbreviation SM := (M SignalTable SignalError).

(** [SignalTable::new()], the static table at boot. *)
Definition SIGNALS : SignalTable :=
  mkTable (replicate MAXIMUM_ENTRIES EMPTY_GROUP) (replicate MAXIMUM_ENTRIES EMPTY_THREAD).

Definition map_threads (f : list ThreadSlot → list ThreadSlot) (t : SignalTable) : SignalTable :=
  mkTable (groups t) (f (threads t)).
Definition map_groups (f : list GroupSlot → list GroupSlot) (t : SignalTable) : SignalTable :=
  mkTable (f (groups t)) (threads t).

(** The index of the slot the returned reference points to. *)
Definition thread_mut (owner : ProcessHandle) : SM nat :=
  table ← getS;
  match find_slot owner (threads table) with
  | Some index => mret index
  | None =>
      index ← ok_or (free_slot (threads table)) Capacity;
      _ ← modifyS (map_threads <[index := mkThread owner 0 0 0]>);
      mret index
  end.

(** [self.actions[(signal - 1) as usize]] *)
Definition action_index (signal : Z) : nat := Z.to_nat (signal - 1).

Definition action (t : SignalTable) (group : ProcessHandle) (signal : Z) : SignalAction :=
  match lookup_slot group (groups t) with
  | Some slot => slot_at DEFAULT_ACTION (actions slot) (action_index signal)
  | None => DEFAULT_ACTION
  end.

(** [1_u64 << (signal - 1)] *)
Definition bit_of (signal : Z) : Z := Z.shiftl 1 (signal - 1).

Definition signal_bit (signal : Z) : Result Z SignalError :=
  if (1 <=? signal) && (signal <=? MAXIMUM_SIGNAL) then Ok (bit_of signal)
  else Err InvalidSignal.

Definition unmaskable_bits : Z := Z.lor (bit_of SIGKILL) (bit_of SIGSTOP).

Definition sanitize_mask (mask : Z) : Z := and_not mask unmaskable_bits.

Definition valid_user_code (address : Z) : bool :=
  (USER_ADDRESS_MINIMUM <=? address) && (address <? USER_ADDRESS_LIMIT).

Definition lift {A} (r : Result A SignalError) : SM A := λ t, (r, t).

Definition validate_action (signal : Z) (act : SignalAction) : Result unit SignalError :=
  match signal_bit signal with
  | Err e => Err e
  | Ok _ =>
      if negb (and_not (a_flags act) SUPPORTED_ACTION_FLAGS =? 0) then Err InvalidAction
      else if (1 <? handler act)
           && (negb (valid_user_code (handler act))
               || (Z.land (a_flags act) SA_RESTORER =? 0)
               || negb (valid_user_code (restorer act)))
      then Err InvalidAction
      else Ok tt
  end.

Definition set_group_action (signal : Z) (act : SignalAction) (g : GroupSlot) : GroupSlot :=
  mkGroup (g_owner g) (<[action_index signal := act]> (actions g)).

Definition sanitized (act : SignalAction) : SignalAction :=
  mkAction (handler act) (a_flags act) (restorer act) (sanitize_mask (a_mask act)).

(** The index lookup of [set_action]: the group's slot, or a fresh one when
    there is something to store, or none. *)
Definition group_index (group : ProcessHandle) (allocate : bool) : SM (option nat) :=
  table ← getS;
  match find_slot group (groups table) with
  | Some index => mret (Some index)
  | None =>
      if allocate then
        index ← ok_or (free_slot (groups table)) Capacity;
        _ ← modifyS (map_groups <[index := mkGroup group (actions EMPTY_GROUP)]>);
        mret (Some index)
      else mret None
  end.

Definition set_action (group : ProcessHandle) (signal : Z) (replacement : option SignalAction) :
    SM SignalAction :=
  _ ← ensure (valid_owner group) InvalidOwner;
  _ ← lift (signal_bit signal);
  _ ← match replacement with
      | Some act =>
          _ ← ensure (negb ((signal =? SIGKILL) || (signal =? SIGSTOP))) InvalidAction;
          lift (validate_action signal act)
      | None => mret tt
      end;
  found ← group_index group (bool_decide (is_Some replacement));
  match found with
  | None => mret DEFAULT_ACTION
  | Some index =>
      table ← getS;
      let slot := slot_at EMPTY_GROUP (groups table) index in
      let previous := slot_at DEFAULT_ACTION (actions slot) (action_index signal) in
      _ ← match replacement with
          | Some act =>
              modifyS (map_groups <[index := set_group_action signal (sanitized act) slot]>)
          | None => mret tt
          end;
      mret previous
  end.

Definition set_blocked (mask : Z) (th : ThreadSlot) : ThreadSlot :=
  mkThread (t_owner th) mask (pending th) (active_frame_of th).
Definition set_pending (bits : Z) (th : ThreadSlot) : ThreadSlot :=
  mkThread (t_owner th) (blocked th) bits (active_frame_of th).
Definition set_frame (frame : Z) (th : ThreadSlot) : ThreadSlot :=
  mkThread (t_owner th) (blocked th) (pending th) frame.

Definition update_mask (owner : ProcessHandle) (operation : Z) (replacement : option Z) : SM Z :=
  _ ← ensure (valid_owner owner) InvalidOwner;
  _ ← ensure (negb (bool_decide (is_Some replacement) && (2 <? operation))) InvalidMaskOperation;
  index ← thread_mut owner;
  table ← getS;
  let thread := slot_at EMPTY_THREAD (threads table) index in
  let previous := blocked thread in
  match replacement with
  | Some mask =>
      let mask := sanitize_mask mask in
      blocked' ← (if operation =? 0 then mret (Z.lor previous mask)
                  else if operation =? 1 then mret (and_not previous mask)
                  else if operation =? 2 then mret mask
                  else throw InvalidMaskOperation);
      _ ← modifyS (map_threads <[index := set_blocked blocked' thread]>);
      mret previous
  | None => mret previous
  end.

Definition inherit_mask (parent child : ProcessHandle) : SM unit :=
  _ ← ensure (valid_owner parent && valid_owner child) InvalidOwner;
  table ← getS;
  let parent_mask := match lookup_slot parent (threads table) with
                     | Some slot => blocked slot
                     | None => 0
                     end in
  index ← thread_mut child;
  modifyS (map_threads (alter (set_blocked parent_mask) index)).

Definition queue (owner : ProcessHandle) (signal : Z) : SM unit :=
  _ ← ensure (valid_owner owner) InvalidOwner;
  bit ← lift (signal_bit signal);
  _ ← ensure (negb (signal =? SIGSTOP)) Unsupported;
  index ← thread_mut owner;
  modifyS (map_threads (alter (λ th, set_pending (Z.lor (pending th) bit) th) index)).

Definition pending_mask (owner : ProcessHandle) (t : SignalTable) : Z :=
  match lookup_slot owner (threads t) with Some thread => pending thread | None => 0 end.

Definition pending_for_signalfd (owner : ProcessHandle) (mask : Z) (t : SignalTable) : bool :=
  negb (Z.land (pending_mask owner t) mask =? 0).

Definition dequeue_for_signalfd (owner : ProcessHandle) (mask : Z) (t : SignalTable) :
    option Z * SignalTable :=
  match lookup_slot owner (threads t) with
  | None => (None, t)
  | Some thread =>
      let selected := Z.land (pending thread) mask in
      if selected =? 0 then (None, t)
      else
        let signal := trailing_zeros 64 selected + 1 in
        (Some signal,
         map_threads (alter_slot owner (λ th,
           set_pending (and_not (pending th) (bit_of signal)) th)) t)
  end.

(** [!x] on [u64] *)
Definition u64_not (x : Z) : Z := Z.lxor x U64_MAX.

Definition delivery_pending (owner : ProcessHandle) (t : SignalTable) : bool :=
  match lookup_slot owner (threads t) with
  | Some thread =>
      (active_frame_of thread =? 0)
      && negb (Z.land (pending thread) (Z.lor (u64_not (blocked thread)) unmaskable_bits) =? 0)
  | None => false
  end.

Definition default_ignored (signal : Z) : bool :=
  (signal =? 17) || (signal =? 18) || (signal =? 23) || (signal =? 28).

(** One round of the loop of [begin_delivery]: [Some r] is a [return], [None]
    is [continue]. *)
Definition delivery_round (index : nat) (group : ProcessHandle) (frame : Z) :
    SM (option Delivery) :=
  table ← getS;
  let thread := slot_at EMPTY_THREAD (threads table) index in
  let deliverable := and_not (and_not (pending thread) (blocked thread)) unmaskable_bits in
  let forced := Z.land (pending thread) unmaskable_bits in
  let candidates := Z.lor deliverable forced in
  if candidates =? 0 then mret (Some Nothing)
  else
    let signal := trailing_zeros 64 candidates + 1 in
    bit ← lift (signal_bit signal);
    let act := action table group signal in
    _ ← modifyS (map_threads (alter (λ th, set_pending (and_not (pending th) bit) th) index));
    if (handler act =? 1) || ((handler act =? 0) && default_ignored signal) then mret None
    else if (handler act =? 0) || (signal =? SIGKILL) || (signal =? SIGSTOP)
    then mret (Some (Terminate signal))
    else
      let previous_mask := blocked thread in
      let self_mask := if Z.land (a_flags act) SA_NODEFER =? 0 then bit else 0 in
      _ ← modifyS (map_threads (alter (λ th, set_frame frame
            (set_blocked (sanitize_mask (Z.lor (Z.lor previous_mask (a_mask act)) self_mask)) th)) index));
      _ ← (if negb (Z.land (a_flags act) SA_RESETHAND =? 0)
           then modifyS (map_groups (alter_slot group (set_group_action signal DEFAULT_ACTION)))
           else mret tt);
      mret (Some (Handler signal act previous_mask)).

(** The loop; [None] when the fuel runs out. *)
Fixpoint delivery_loop (fuel : nat) (index : nat) (group : ProcessHandle) (frame : Z)
    (t : SignalTable) : option (Result Delivery SignalError * SignalTable) :=
  match fuel with
  | O => None
  | S fuel =>
      match delivery_round index group frame t with
      | (Err e, t') => Some (Err e, t')
      | (Ok (Some d), t') => Some (Ok d, t')
      | (Ok None, t') => delivery_loop fuel index group frame t'
      end
  end.

Definition begin_delivery (owner group : ProcessHandle) (frame : Z) (t : SignalTable) :
    option (Result Delivery SignalError * SignalTable) :=
  if negb (valid_owner owner) || negb (valid_owner group) || negb (valid_user_code frame)
  then Some (Err InvalidOwner, t)
  else
    match find_slot owner (threads t) with
    | None => Some (Err InvalidOwner, t)
    | Some index =>
        if negb (active_frame_of (slot_at EMPTY_THREAD (threads t) index) =? 0)
        then Some (Ok Nothing, t)
        else delivery_loop (S SIGNAL_COUNT) index group frame t
    end.

Definition active_frame (owner : ProcessHandle) (t : SignalTable) : option Z :=
  i ← position (λ s, has_key owner s && negb (active_frame_of s =? 0)) (threads t);
  active_frame_of <$> threads t !! i.

Definition finish_sigreturn (owner : ProcessHandle) (frame restored_mask : Z) : SM unit :=
  table ← getS;
  index ← ok_or (find_slot owner (threads table)) InvalidOwner;
  let thread := slot_at EMPTY_THREAD (threads table) index in
  _ ← ensure (negb ((frame =? 0) || negb (active_frame_of thread =? frame))) InvalidFrame;
  modifyS (map_threads
    <[index := set_frame 0 (set_blocked (sanitize_mask restored_mask) thread)]>).

Definition clear_thread (owner : ProcessHandle) (clear_group : option ProcessHandle)
    (t : SignalTable) : SignalTable :=
  let t := map_threads (alter_slot owner (λ _, EMPTY_THREAD)) t in
  match clear_group with
  | Some group => map_groups (alter_slot group (λ _, EMPTY_GROUP)) t
  | None => t
  end.

Definition SIG_IGN : Z := 1.

Definition reset_for_exec (owner : ProcessHandle) (t : SignalTable) : SignalTable :=
  let t := map_groups (alter_slot owner (λ g, mkGroup (g_owner g)
             (update_where (λ act, negb (handler act =? SIG_IGN)) (λ _, DEFAULT_ACTION)
                (actions g)))) t in
  map_threads (alter_slot owner (λ th, set_frame 0 (set_pending 0 th))) t.

(** ** Signal bits *)

#[local] Arguments bit_of : simpl never.
#[local] Arguments unmaskable_bits : simpl never.
#[local] Arguments sanitize_mask : simpl never.
#[local] Arguments and_not : simpl never.
#[local] Arguments Z.land : simpl never.
#[local] Arguments Z.lor : simpl never.

(** SIGKILL and SIGSTOP *)
Definition unmaskable (signal : Z) : bool := (signal =? SIGKILL) || (signal =? SIGSTOP).

Lemma bit_of_testbit s n : 1 ≤ s → 0 ≤ n → Z.testbit (bit_of s) n = (s =? n + 1).
Proof.
  intros Hs Hn. unfold bit_of. rewrite Z.shiftl_1_l, Z.pow2_bits_eqb by lia. lia.
Qed.

Lemma bit_of_u64 s : 1 ≤ s ≤ 64 → is_u64 (bit_of s).
Proof.
  intros Hs. unfold bit_of. rewrite Z.shiftl_1_l.
  pose proof (Z.pow_le_mono_r 2 (s - 1) 63). unfold is_u64, U64_MAX. lia.
Qed.

Lemma signal_bit_Ok s : 1 ≤ s ≤ 64 → signal_bit s = Ok (bit_of s).
Proof.
  intros Hs. unfold signal_bit, MAXIMUM_SIGNAL.
  by destruct (Z.leb_spec 1 s), (Z.leb_spec s 64); try lia.
Qed.

Lemma signal_bit_Ok_inv s b : signal_bit s = Ok b → 1 ≤ s ≤ 64 ∧ b = bit_of s.
Proof.
  unfold signal_bit, MAXIMUM_SIGNAL.
  destruct (Z.leb_spec 1 s), (Z.leb_spec s 64); simpl; intros [= <-]. lia.
Qed.

Lemma unmaskable_bits_testbit n : 0 ≤ n → Z.testbit unmaskable_bits n = unmaskable (n + 1).
Proof.
  intros Hn. unfold unmaskable_bits, unmaskable.
  rewrite Z.lor_spec, !bit_of_testbit by (unfold SIGKILL, SIGSTOP; lia).
  f_equal; apply Z.eqb_sym.
Qed.

(** A mask the kernel stores: a [u64] without SIGKILL and SIGSTOP. *)
Definition mask_ok (m : Z) : Prop :=
  is_u64 m ∧ ∀ s, 1 ≤ s → unmaskable s = true → Z.testbit m (s - 1) = false.

Lemma mask_ok_0 : mask_ok 0.
Proof. split; [by unfold is_u64, U64_MAX|]. intros. apply Z.bits_0. Qed.

Lemma mask_ok_sanitize m : is_u64 m → mask_ok (sanitize_mask m).
Proof.
  intros Hm. unfold sanitize_mask. split; [apply is_u64_and_not; [done|vm_compute; done]|].
  intros s Hs Hu. unfold and_not. rewrite Z.ldiff_spec, unmaskable_bits_testbit by lia.
  replace (s - 1 + 1) with s by lia. rewrite Hu. apply andb_false_r.
Qed.

Lemma mask_ok_lor a b : mask_ok a → mask_ok b → mask_ok (Z.lor a b).
Proof.
  intros [Ha1 Ha2] [Hb1 Hb2]. split; [by apply is_u64_lor|].
  intros s Hs Hu. by rewrite Z.lor_spec, Ha2, Hb2.
Qed.

Lemma mask_ok_and_not a b : mask_ok a → mask_ok b → mask_ok (and_not a b).
Proof.
  intros [Ha1 Ha2] [Hb1 Hb2]. split; [by apply is_u64_and_not; [|apply Hb1]|].
  intros s Hs Hu. unfold and_not. by rewrite Z.ldiff_spec, Ha2.
Qed.

Lemma sanitize_mask_id m : mask_ok m → sanitize_mask m = m.
Proof.
  intros [_ Hm]. apply Z.bits_inj'. intros n Hn. unfold sanitize_mask, and_not.
  rewrite Z.ldiff_spec, unmaskable_bits_testbit by done.
  destruct (unmaskable (n + 1)) eqn:E; [|by rewrite andb_true_r].
  specialize (Hm (n + 1) ltac:(lia) E). replace (n + 1 - 1) with n in Hm by lia. by rewrite Hm.
Qed.

(** [signal] may be delivered to a thread: it is pending and not blocked,
    SIGKILL and SIGSTOP whatever the mask. *)
Definition candidate (th : ThreadSlot) (signal : Z) : bool :=
  Z.testbit (pending th) (signal - 1)
  && (negb (Z.testbit (blocked th) (signal - 1)) || unmaskable signal).

Definition candidates_of (th : ThreadSlot) : Z :=
  Z.lor (and_not (and_not (pending th) (blocked th)) unmaskable_bits)
        (Z.land (pending th) unmaskable_bits).

Lemma candidates_testbit th n :
  0 ≤ n → Z.testbit (candidates_of th) n = candidate th (n + 1).
Proof.
  intros Hn. unfold candidates_of, candidate, and_not.
  rewrite Z.lor_spec, !Z.ldiff_spec, Z.land_spec, unmaskable_bits_testbit by done.
  replace (n + 1 - 1) with n by lia.
  by destruct (Z.testbit (pending th) n), (Z.testbit (blocked th) n), (unmaskable (n + 1)).
Qed.

(** The lowest-numbered candidate. *)
Definition lowest (th : ThreadSlot) : option Z :=
  if candidates_of th =? 0 then None else Some (trailing_zeros 64 (candidates_of th) + 1).

(** The lowest bit of a non-zero [u64], as a signal number. *)
Lemma trailing_zeros_signal w :
  is_u64 w → w ≠ 0 →
  let s := trailing_zeros 64 w + 1 in
  1 ≤ s ≤ 64 ∧ Z.testbit w (s - 1) = true ∧ ∀ s', 1 ≤ s' < s → Z.testbit w (s' - 1) = false.
Proof.
  intros Hu Hnz. assert (0 < w < 2 ^ 64) as Hr by (unfold is_u64, U64_MAX in Hu; lia).
  pose proof (trailing_zeros_nonneg 64 w ltac:(lia)).
  pose proof (trailing_zeros_lt 64 w ltac:(lia) Hr). simpl. split; [lia|]. split.
  - replace (trailing_zeros 64 w + 1 - 1) with (trailing_zeros 64 w) by lia.
    apply trailing_zeros_testbit. lia.
  - intros s' Hs'. apply (trailing_zeros_below 64); lia.
Qed.

Lemma candidates_u64 th : is_u64 (pending th) → 0 ≤ blocked th → is_u64 (candidates_of th).
Proof.
  intros Hp Hb. assert (0 ≤ unmaskable_bits) by (vm_compute; done).
  apply is_u64_lor; [apply is_u64_and_not; [by apply is_u64_and_not|done]|by apply is_u64_land].
Qed.

Lemma lowest_Some th s :
  is_u64 (pending th) → 0 ≤ blocked th → lowest th = Some s →
  1 ≤ s ≤ 64 ∧ candidate th s = true ∧ ∀ s', 1 ≤ s' < s → candidate th s' = false.
Proof.
  intros Hp Hb. unfold lowest. pose proof (candidates_u64 th Hp Hb) as Hu.
  destruct (Z.eqb_spec (candidates_of th) 0) as [|Hnz]; [done|]. intros [= <-].
  destruct (trailing_zeros_signal _ Hu Hnz) as (Hr & Hb1 & Hb2). split; [done|].
  rewrite candidates_testbit, Z.sub_add in Hb1 by lia. split; [done|].
  intros s' Hs'. specialize (Hb2 s' Hs'). by rewrite candidates_testbit, Z.sub_add in Hb2 by lia.
Qed.

Lemma lowest_None th s : lowest th = None → 1 ≤ s → candidate th s = false.
Proof.
  unfold lowest. destruct (Z.eqb_spec (candidates_of th) 0) as [Hz|]; [|done]. intros _ Hs.
  replace s with (s - 1 + 1) by lia. rewrite <- candidates_testbit, Hz by lia. apply Z.bits_0.
Qed.

(** ** Delivery: the loop against a single pass over the signals *)

(** The disposition drops the signal: ignored, or default with the default
    action of being ignored. *)
Definition ignored (t : SignalTable) (group : ProcessHandle) (signal : Z) : bool :=
  (handler (action t group signal) =? 1)
  || ((handler (action t group signal) =? 0) && default_ignored signal).

(** The thread when the handler for [signal] is entered. *)
Definition enter_handler (act : SignalAction) (signal frame : Z) (th : ThreadSlot) : ThreadSlot :=
  set_frame frame (set_blocked (sanitize_mask
    (Z.lor (Z.lor (blocked th) (a_mask act))
       (if Z.land (a_flags act) SA_NODEFER =? 0 then bit_of signal else 0))) th).

(** What happens to a signal that is not ignored: the delivery, the thread and
    the groups afterwards. *)
Definition deliver_one (t : SignalTable) (index : nat) (th : ThreadSlot) (group : ProcessHandle)
    (frame signal : Z) : Delivery * SignalTable :=
  let act := action t group signal in
  if (handler act =? 0) || unmaskable signal
  then (Terminate signal, map_threads <[index := th]> t)
  else
    (Handler signal act (blocked th),
     mkTable (if Z.land (a_flags act) SA_RESETHAND =? 0 then groups t
              else alter_slot group (set_group_action signal DEFAULT_ACTION) (groups t))
             (<[index := enter_handler act signal frame th]> (threads t))).

Lemma map_threads_alter f index t th :
  threads t !! index = Some th →
  map_threads (alter f index) t = map_threads <[index := f th]> t.
Proof. intros Hi. unfold map_threads. by rewrite (alter_insert_eq _ _ _ _ Hi). Qed.

Lemma map_threads_alter_put f index t th :
  (index < length (threads t))%nat →
  map_threads (alter f index) (map_threads <[index := th]> t) = map_threads <[index := f th]> t.
Proof.
  intros Hi. rewrite (map_threads_alter _ _ _ th) by by apply list_lookup_insert_eq.
  unfold map_threads. simpl. by rewrite list_insert_insert_eq.
Qed.

Lemma delivery_round_run index group frame t th :
  threads t !! index = Some th → is_u64 (pending th) → 0 ≤ blocked th →
  delivery_round index group frame t =
  match lowest th with
  | None => (Ok (Some Nothing), t)
  | Some s =>
      let th1 := set_pending (and_not (pending th) (bit_of s)) th in
      if ignored t group s then (Ok None, map_threads <[index := th1]> t)
      else let '(d, t') := deliver_one t index th1 group frame s in (Ok (Some d), t')
  end.
Proof.
  intros Hi Hp Hb. unfold delivery_round, lift. m_unfold.
  rewrite (slot_at_Some _ _ _ _ Hi). fold (candidates_of th).
  destruct (lowest th) as [s|] eqn:E.
  - pose proof (lowest_Some th s Hp Hb E) as [Hs _]. unfold lowest in E.
    destruct (candidates_of th =? 0); [done|]. injection E as ->.
    rewrite signal_bit_Ok by done. cbv beta iota zeta.
    rewrite (map_threads_alter _ _ _ _ Hi). fold (ignored t group s).
    destruct (ignored t group s); [done|]. unfold deliver_one.
    rewrite <- orb_assoc. fold (unmaskable s). destruct (_ || unmaskable s); [done|].
    rewrite map_threads_alter_put by by eapply lookup_lt_Some.
    by destruct (Z.land _ SA_RESETHAND =? 0).
  - unfold lowest in E. by destruct (candidates_of th =? 0).
Qed.

(** The pending bits once every candidate up to signal [k] is consumed. *)
Definition pending_after (th : ThreadSlot) (k : Z) : Z :=
  and_not (pending th) (Z.land (candidates_of th) (Z.ones k)).

(** The first of the signals 1 to 64 that satisfies [p]. *)
Definition first_signal (p : Z → bool) : option Z :=
  i ← position p (seqZ 1 MAXIMUM_SIGNAL); seqZ 1 MAXIMUM_SIGNAL !! i.

Definition deliver_reference (t : SignalTable) (index : nat) (th : ThreadSlot)
    (group : ProcessHandle) (frame : Z) : Delivery * SignalTable :=
  match first_signal (λ s, candidate th s && negb (ignored t group s)) with
  | None => (Nothing, map_threads <[index := set_pending (pending_after th 64) th]> t)
  | Some s => deliver_one t index (set_pending (pending_after th s) th) group frame s
  end.

Lemma first_signal_Some p s :
  first_signal p = Some s ↔
  1 ≤ s ≤ 64 ∧ p s = true ∧ ∀ s', 1 ≤ s' < s → p s' = false.
Proof.
  unfold first_signal. rewrite bind_Some. split.
  - intros (i & (x & Hx & Hp & Hlt)%position_Some & Hs). rewrite Hx in Hs. injection Hs as ->.
    apply lookup_seqZ in Hx as [-> Hi]. unfold MAXIMUM_SIGNAL in *.
    split; [lia|]. split; [done|]. intros s' Hs'.
    apply (Hlt (Z.to_nat (s' - 1))); [lia|]. apply lookup_seqZ. lia.
  - intros (Hs & Hp & Hlt). exists (Z.to_nat (s - 1)).
    assert (seqZ 1 MAXIMUM_SIGNAL !! Z.to_nat (s - 1) = Some s) as Hl
      by (apply lookup_seqZ; unfold MAXIMUM_SIGNAL; lia).
    split; [|done]. apply position_Some. exists s. split_and!; [done..|].
    intros j y Hj [-> ?]%lookup_seqZ. apply Hlt. lia.
Qed.

Lemma first_signal_None p :
  first_signal p = None ↔ ∀ s, 1 ≤ s ≤ 64 → p s = false.
Proof.
  split.
  - unfold first_signal. intros Hn s Hs. destruct (position p _) as [i|] eqn:E; simpl in Hn.
    { apply position_lookup in E as (x & Hx & _). by rewrite Hx in Hn. }
    rewrite position_None in E. apply (E (Z.to_nat (s - 1))).
    apply lookup_seqZ. unfold MAXIMUM_SIGNAL. lia.
  - intros H. destruct (first_signal p) as [s|] eqn:E; [|done].
    apply first_signal_Some in E as (Hs & Hp & _). rewrite H in Hp by done. done.
Qed.

Lemma pending_after_testbit th k n :
  0 ≤ k → 0 ≤ n →
  Z.testbit (pending_after th k) n =
    Z.testbit (pending th) n && negb (candidate th (n + 1) && (n + 1 <=? k)).
Proof.
  intros Hk Hn. unfold pending_after, and_not.
  rewrite Z.ldiff_spec, Z.land_spec, candidates_testbit, Z.testbit_ones_nonneg by done.
  do 2 f_equal. f_equal. lia.
Qed.

Lemma pending_after_u64 th k : 0 ≤ k → is_u64 (pending th) → is_u64 (pending_after th k).
Proof.
  intros Hk Hp. apply is_u64_and_not; [done|]. apply Z.land_nonneg. right.
  rewrite Z.ones_equiv. pose proof (Z.pow_pos_nonneg 2 k). lia.
Qed.

Lemma candidate_after th k s :
  0 ≤ k → 1 ≤ s →
  candidate (set_pending (pending_after th k) th) s = candidate th s && (k <? s).
Proof.
  intros Hk Hs. unfold candidate at 1. simpl. rewrite pending_after_testbit by lia.
  replace (s - 1 + 1) with s by lia. rewrite Z.leb_antisym. unfold candidate.
  by destruct (Z.testbit (pending th) _), (Z.testbit (blocked th) _), (unmaskable s), (k <? s).
Qed.

Lemma set_pending_twice p q th : set_pending p (set_pending q th) = set_pending p th.
Proof. done. Qed.

(** Consuming the next candidate [s] after [k] moves on to [s]. *)
Lemma pending_after_next th k s :
  0 ≤ k < s → candidate th s = true →
  (∀ s', k < s' < s → candidate th s' = false) →
  and_not (pending_after th k) (bit_of s) = pending_after th s.
Proof.
  intros Hk Hs Hno. apply Z.bits_inj'. intros n Hn. unfold and_not.
  rewrite Z.ldiff_spec, !pending_after_testbit, bit_of_testbit by lia.
  destruct (Z.eqb_spec s (n + 1)) as [<-|Hne].
  - rewrite Hs, Z.leb_refl. simpl. by rewrite !andb_false_r.
  - simpl. rewrite andb_true_r. do 2 f_equal.
    destruct (Z.leb_spec (n + 1) k), (Z.leb_spec (n + 1) s); try lia; try done.
    rewrite Hno by lia. done.
Qed.

Section Loop.
Context (t : SignalTable) (index : nat) (th : ThreadSlot) (group : ProcessHandle) (frame : Z).
Hypothesis Hi : threads t !! index = Some th.
Hypothesis Hp : is_u64 (pending th).
Hypothesis Hb : 0 ≤ blocked th.

(** The next candidate once those up to [k] are consumed. *)
Lemma lowest_after k :
  0 ≤ k →
  match lowest (set_pending (pending_after th k) th) with
  | Some s => k < s ≤ 64 ∧ candidate th s = true ∧ (∀ s', k < s' < s → candidate th s' = false)
  | None => ∀ s, k < s → candidate th s = false
  end.
Proof.
  intros Hk. pose proof (pending_after_u64 th k Hk Hp) as Hpk.
  destruct (lowest _) as [s|] eqn:E.
  - apply lowest_Some in E as (Hs & Hc & Hlow); [|done..].
    rewrite candidate_after in Hc by lia. apply andb_true_iff in Hc as [Hc Hks].
    split_and!; [lia|lia|done|]. intros s' Hs'. specialize (Hlow s' ltac:(lia)).
    rewrite candidate_after in Hlow by lia. apply andb_false_iff in Hlow as [?|?]; [done|lia].
  - intros s Hs. pose proof (lowest_None _ s E ltac:(lia)) as Hn.
    rewrite candidate_after in Hn by lia. apply andb_false_iff in Hn as [?|?]; [done|lia].
Qed.

(** The candidates up to [k] are all ignored. *)
Definition all_ignored (k : Z) : Prop :=
  ∀ s, 1 ≤ s ≤ k → candidate th s = true → ignored t group s = true.

Lemma deliver_reference_at k s :
  0 ≤ k → all_ignored k → k < s ≤ 64 → candidate th s = true → ignored t group s = false →
  (∀ s', k < s' < s → candidate th s' = false) →
  deliver_reference t index th group frame =
    deliver_one t index (set_pending (pending_after th s) th) group frame s.
Proof.
  intros Hk Hign Hs Hc Hg Hgap. unfold deliver_reference.
  rewrite (proj2 (first_signal_Some _ s)); [done|]. rewrite Hc, Hg. split_and!; [lia|lia|done|].
  intros s' Hs'. destruct (candidate th s') eqn:Hc'; [|done]. simpl.
  destruct (decide (s' ≤ k)); [by rewrite Hign by (done || lia)|].
  by rewrite Hgap in Hc' by lia.
Qed.

Lemma deliver_reference_none k :
  0 ≤ k ≤ 64 → all_ignored k → (∀ s, k < s → candidate th s = false) →
  deliver_reference t index th group frame =
    (Nothing, map_threads <[index := set_pending (pending_after th k) th]> t).
Proof.
  intros Hk Hign Hnone. unfold deliver_reference. rewrite (proj2 (first_signal_None _)).
  - assert (pending_after th 64 = pending_after th k) as ->; [|done].
    apply Z.bits_inj'. intros n Hn. rewrite !pending_after_testbit by lia. do 2 f_equal.
    destruct (Z.leb_spec (n + 1) k), (Z.leb_spec (n + 1) 64); try lia; try done.
    by rewrite Hnone by lia.
  - intros s Hs. destruct (decide (s ≤ k)); [|by rewrite Hnone by lia].
    destruct (candidate th s) eqn:Hc; [|done]. by rewrite Hign by (done || lia).
Qed.

(** With the candidates up to [k] consumed, all of them ignored, the loop
    returns what the single pass returns if its fuel covers the signals left. *)
Lemma delivery_loop_from fuel k :
  0 ≤ k ≤ 64 → 64 - k < Z.of_nat fuel → all_ignored k →
  delivery_loop fuel index group frame
    (map_threads <[index := set_pending (pending_after th k) th]> t) =
    let '(d, t') := deliver_reference t index th group frame in Some (Ok d, t').
Proof.
  revert k. induction fuel as [|fuel IH]; intros k Hk Hfuel Hign; [lia|]. simpl.
  pose proof (pending_after_u64 th k ltac:(lia) Hp) as Hpk.
  rewrite (delivery_round_run _ _ _ _ (set_pending (pending_after th k) th));
    [|apply list_lookup_insert_eq; by eapply lookup_lt_Some|done..].
  pose proof (lowest_after k ltac:(lia)) as Hl. destruct (lowest _) as [s|].
  - destruct Hl as (Hs & Hc & Hgap). rewrite set_pending_twice. simpl (pending _).
    rewrite pending_after_next by (done || lia).
    change (ignored (map_threads _ t) group s) with (ignored t group s).
    destruct (ignored t group s) eqn:Hg.
    + unfold map_threads. simpl. rewrite list_insert_insert_eq.
      apply (IH s); [lia..|]. intros s' Hs' Hc'. destruct (decide (s' ≤ k)); [apply Hign; lia || done|].
      destruct (decide (s' = s)) as [->|]; [done|]. by rewrite Hgap in Hc' by lia.
    + rewrite (deliver_reference_at k s) by (done || lia). unfold deliver_one.
      change (action (map_threads _ t) group s) with (action t group s).
      unfold map_threads. simpl. rewrite !list_insert_insert_eq. by destruct (_ || unmaskable s).
  - by rewrite (deliver_reference_none k).
Qed.

Lemma delivery_loop_run :
  delivery_loop (S SIGNAL_COUNT) index group frame t =
    let '(d, t') := deliver_reference t index th group frame in Some (Ok d, t').
Proof.
  rewrite <- (delivery_loop_from (S SIGNAL_COUNT) 0); [|done|done|intros s ?; lia].
  f_equal. unfold map_threads, pending_after, and_not. simpl.
  rewrite Z.land_0_r, Z.ldiff_0_r. destruct t as [gs ths], th as [o b p fr]. unfold set_pending.
  simpl in *. by rewrite list_insert_id.
Qed.
End Loop.

(** ** The table invariant *)

Record thread_wf (th : ThreadSlot) : Prop := {
  tw_blocked : mask_ok (blocked th);
  tw_pending : is_u64 (pending th);
  (** [queue] refuses SIGSTOP, so it is never pending *)
  tw_stop : Z.testbit (pending th) (SIGSTOP - 1) = false;
  tw_frame : active_frame_of th = 0 ∨ valid_user_code (active_frame_of th) = true;
}.

Record action_wf (s : Z) (act : SignalAction) : Prop := {
  aw_valid : validate_action s act = Ok tt;
  aw_mask : mask_ok (a_mask act);
  (** SIGKILL and SIGSTOP keep their default disposition *)
  aw_unmaskable : unmaskable s = true → act = DEFAULT_ACTION;
}.

Record group_wf (g : GroupSlot) : Prop := {
  gw_length : length (actions g) = SIGNAL_COUNT;
  gw_actions s act : 1 ≤ s ≤ 64 → actions g !! action_index s = Some act → action_wf s act;
}.

Record table_wf (t : SignalTable) : Prop := {
  wf_groups_length : length (groups t) = MAXIMUM_ENTRIES;
  wf_threads_length : length (threads t) = MAXIMUM_ENTRIES;
  wf_groups_unique : unique_keys (groups t);
  wf_threads_unique : unique_keys (threads t);
  wf_group i g : groups t !! i = Some g → group_wf g;
  wf_thread i th : threads t !! i = Some th → thread_wf th;
}.

Lemma default_action_wf s : 1 ≤ s ≤ 64 → action_wf s DEFAULT_ACTION.
Proof.
  intros Hs. split; [|apply mask_ok_0|done].
  unfold validate_action. by rewrite signal_bit_Ok.
Qed.

Lemma empty_actions_wf o : group_wf (mkGroup o (actions EMPTY_GROUP)).
Proof.
  split; [apply length_replicate|]. intros s act Hs. cbv [actions EMPTY_GROUP].
  intros [-> _]%lookup_replicate. by apply default_action_wf.
Qed.

Lemma fresh_thread_wf o : thread_wf (mkThread o 0 0 0).
Proof.
  split; simpl; [apply mask_ok_0|by unfold is_u64, U64_MAX|done|by left].
Qed.

Lemma sig_table_wf_boot : table_wf SIGNALS.
Proof.
  split; cbv [groups threads SIGNALS];
    try apply length_replicate; try by apply unique_keys_replicate.
  - intros i g [-> _]%lookup_replicate. apply empty_actions_wf.
  - intros i th [-> _]%lookup_replicate. apply fresh_thread_wf.
Qed.

Lemma action_index_inj s s' : 1 ≤ s → 1 ≤ s' → action_index s = action_index s' → s = s'.
Proof. unfold action_index. lia. Qed.

Lemma set_group_action_wf s act g :
  1 ≤ s → group_wf g → action_wf s act → group_wf (set_group_action s act g).
Proof.
  intros Hs [Hl Ha] Hact. split; simpl; [by rewrite length_insert|].
  intros s' act' Hs' [(He & <- & _)|[_ H]]%lookup_insert_cases; [|by apply Ha].
  apply action_index_inj in He; [by subst|lia..].
Qed.

Lemma put_thread_wf t i th th' :
  table_wf t → threads t !! i = Some th →
  (key th' = key th ∨ slot_occupied th' = false ∨ find_slot (key th') (threads t) = None) →
  thread_wf th' → table_wf (map_threads <[i := th']> t).
Proof.
  intros [] Hi Hk Hw. split; simpl; [done|by rewrite length_insert|done| |done|].
  - by eapply unique_keys_insert.
  - intros j x [(_ & <- & _)|[_ ?]]%lookup_insert_cases; eauto.
Qed.

Lemma put_group_wf t i g g' :
  table_wf t → groups t !! i = Some g →
  (key g' = key g ∨ slot_occupied g' = false ∨ find_slot (key g') (groups t) = None) →
  group_wf g' → table_wf (map_groups <[i := g']> t).
Proof.
  intros [] Hi Hk Hw. split; simpl; [by rewrite length_insert|done| |done| |done].
  - by eapply unique_keys_insert.
  - intros j x [(_ & <- & _)|[_ ?]]%lookup_insert_cases; eauto.
Qed.

Lemma alter_threads_wf t k f :
  table_wf t →
  (∀ th, key th = k → thread_wf th → thread_wf (f th) ∧ (key (f th) = k ∨ slot_occupied (f th) = false)) →
  table_wf (map_threads (alter_slot k f) t).
Proof.
  intros Hw Hf. unfold map_threads. rewrite alter_slot_insert.
  pose proof (find_slot_Some k (threads t)) as Hk.
  destruct (find_slot k (threads t)) as [i|]; [|by destruct t].
  destruct (Hk i eq_refl) as (th & Hi & _ & Hkey). rewrite Hi.
  destruct (Hf th Hkey) as [Hw' Hc]; [by eapply wf_thread|].
  apply (put_thread_wf t i th); [done..| |done]. rewrite Hkey. tauto.
Qed.

Lemma alter_groups_wf t k f :
  table_wf t →
  (∀ g, key g = k → group_wf g → group_wf (f g) ∧ (key (f g) = k ∨ slot_occupied (f g) = false)) →
  table_wf (map_groups (alter_slot k f) t).
Proof.
  intros Hw Hf. unfold map_groups. rewrite alter_slot_insert.
  pose proof (find_slot_Some k (groups t)) as Hk.
  destruct (find_slot k (groups t)) as [i|]; [|by destruct t].
  destruct (Hk i eq_refl) as (g & Hi & _ & Hkey). rewrite Hi.
  destruct (Hf g Hkey) as [Hw' Hc]; [by eapply wf_group|].
  apply (put_group_wf t i g); [done..| |done]. rewrite Hkey. tauto.
Qed.

(** The state a thread without a slot is in. *)
Definition thread_state (t : SignalTable) (o : ProcessHandle) : ThreadSlot :=
  default (mkThread o 0 0 0) (lookup_slot o (threads t)).

(** [thread_mut] finds the slot of the owner or claims a free one; either way
    no thread's state changes. *)
Record claims (t : SignalTable) (o : ProcessHandle) (i : nat) (t' : SignalTable) : Prop := {
  cl_wf : table_wf t';
  cl_groups : groups t' = groups t;
  cl_slot : threads t' !! i = Some (thread_state t o);
  cl_owner : t_owner (thread_state t o) = o;
  cl_other o' : o' ≠ o → lookup_slot o' (threads t') = lookup_slot o' (threads t);
}.

Lemma thread_mut_run t o :
  table_wf t → valid_owner o = true →
  thread_mut o t = (Err Capacity, t) ∨
  ∃ i t', thread_mut o t = (Ok i, t') ∧ claims t o i t'.
Proof.
  intros Hw Hv. unfold thread_mut. m_unfold.
  pose proof (lookup_slot_cases o (threads t)) as Hc. unfold lookup_slot in Hc.
  destruct (find_slot o (threads t)) as [i|] eqn:Hf; simpl in Hc.
  - right. exists i, t. split; [done|]. destruct (threads t !! i) as [th|] eqn:Hi; [|done].
    destruct Hc as (_ & _ & _ & Hk & _).
    assert (thread_state t o = th) as Hs
      by (unfold thread_state; by rewrite (lookup_slot_find _ _ _ _ Hf Hi)).
    by split; rewrite ?Hs.
  - destruct (free_slot (threads t)) as [i|] eqn:Hfree; [|by left]. right.
    apply position_lookup in Hfree as (th & Hi & Ho%negb_true_iff).
    exists i, (map_threads <[i := mkThread o 0 0 0]> t). split; [done|].
    assert (thread_state t o = mkThread o 0 0 0) as Hs
      by (unfold thread_state, lookup_slot; by rewrite Hf).
    pose proof (put_thread_wf t i th (mkThread o 0 0 0) Hw Hi) as Hw'.
    specialize (Hw' ltac:(by right; right) (fresh_thread_wf o)).
    split; rewrite ?Hs; simpl; [done|done| |done|].
    + apply list_lookup_insert_eq. by eapply lookup_lt_Some.
    + intros o' Hne. apply (lookup_slot_insert_ne _ _ _ th); [apply Hw|apply Hw'|done|by right|by left].
Qed.

Lemma lookup_thread_wf t o th : table_wf t → lookup_slot o (threads t) = Some th → thread_wf th.
Proof.
  intros Hw Hl. apply lookup_slot_Some in Hl as (_ & _ & i & Hi); [|apply Hw].
  by eapply wf_thread.
Qed.

Lemma claims_put t o i t' th :
  claims t o i t' → t_owner th = o → thread_wf th → table_wf (map_threads <[i := th]> t').
Proof.
  intros [Hw _ Hi Ho _] Hk Hth. apply (put_thread_wf _ _ _ _ Hw Hi); [|done].
  left. unfold key, thread_keyed. congruence.
Qed.

Lemma claims_thread_wf t o i t' : claims t o i t' → thread_wf (thread_state t o).
Proof. intros [Hw _ Hi _ _]. by eapply wf_thread. Qed.

Lemma update_mask_wf o op rep t :
  table_wf t → (∀ m, rep = Some m → is_u64 m) → table_wf (update_mask o op rep t).2.
Proof.
  intros Hw Hm. unfold update_mask. m_unfold.
  destruct (valid_owner o) eqn:Hv; [|done].
  destruct (negb _); [|done].
  destruct (thread_mut_run t o Hw Hv) as [->|(i & t' & -> & Hc)]; [done|].
  rewrite (slot_at_Some _ _ _ _ (cl_slot _ _ _ _ Hc)).
  destruct rep as [m|]; [|apply Hc]. pose proof (mask_ok_sanitize m (Hm m eq_refl)) as Hok.
  pose proof (claims_thread_wf _ _ _ _ Hc) as [Hb Hp Hs Hf].
  assert (∀ b, mask_ok b →
    table_wf (map_threads <[i := set_blocked b (thread_state t o)]> t')) as Hput.
  { intros b Hbk. apply (claims_put _ _ _ _ _ Hc); [by apply Hc|by split]. }
  destruct (op =? 0); [by apply Hput, mask_ok_lor|].
  destruct (op =? 1); [by apply Hput, mask_ok_and_not|].
  destruct (op =? 2); [by apply Hput|]. apply Hc.
Qed.

Lemma inherit_mask_wf p c t : table_wf t → table_wf (inherit_mask p c t).2.
Proof.
  intros Hw. unfold inherit_mask. m_unfold.
  destruct (valid_owner p), (valid_owner c) eqn:Hv; try done. cbn.
  destruct (thread_mut_run t c Hw Hv) as [->|(i & t' & -> & Hc)]; [done|].
  cbn. rewrite (map_threads_alter _ _ _ _ (cl_slot _ _ _ _ Hc)).
  pose proof (claims_thread_wf _ _ _ _ Hc) as [Hb Hp Hs Hf].
  apply (claims_put _ _ _ _ _ Hc); [by apply Hc|]. split; simpl; [|done..].
  destruct (lookup_slot p (threads t)) as [th|] eqn:E; [|apply mask_ok_0].
  apply (lookup_thread_wf _ _ _ Hw E).
Qed.

(** Setting the bit of a signal [queue] admits. *)
Lemma set_pending_bit_wf th s :
  thread_wf th → 1 ≤ s ≤ 64 → s ≠ SIGSTOP →
  thread_wf (set_pending (Z.lor (pending th) (bit_of s)) th).
Proof.
  intros [Hb Hp Hs Hf] Hr Hne. split; cbn [set_pending pending blocked active_frame_of]; [done| | |done].
  - apply is_u64_lor; [done|by apply bit_of_u64].
  - rewrite Z.lor_spec, bit_of_testbit, Hs by (unfold SIGSTOP; lia). unfold SIGSTOP in *. lia.
Qed.

Lemma queue_wf o s t : table_wf t → table_wf (queue o s t).2.
Proof.
  intros Hw. unfold queue, lift. m_unfold. destruct (valid_owner o) eqn:Hv; [|done].
  destruct (signal_bit s) as [bit|] eqn:Hb; [|done]. apply signal_bit_Ok_inv in Hb as [Hs ->].
  destruct (Z.eqb_spec s SIGSTOP) as [|Hne]; [done|]. cbn.
  destruct (thread_mut_run t o Hw Hv) as [->|(i & t' & -> & Hc)]; [done|].
  cbn. rewrite (map_threads_alter _ _ _ _ (cl_slot _ _ _ _ Hc)).
  apply (claims_put _ _ _ _ _ Hc); [by apply Hc|].
  apply set_pending_bit_wf; [by eapply claims_thread_wf|done..].
Qed.

(** Clearing pending bits keeps a thread well formed. *)
Lemma clear_pending_wf th b : thread_wf th → 0 ≤ b → thread_wf (set_pending (and_not (pending th) b) th).
Proof.
  intros [Hb Hp Hs Hf] Hr. split; cbn [set_pending pending blocked active_frame_of]; [done| | |done].
  - by apply is_u64_and_not.
  - unfold and_not. by rewrite Z.ldiff_spec, Hs.
Qed.

Lemma bit_of_nonneg s : 0 ≤ bit_of s.
Proof. unfold bit_of. apply Z.shiftl_nonneg. lia. Qed.

Lemma dequeue_wf o m t : table_wf t → table_wf (dequeue_for_signalfd o m t).2.
Proof.
  intros Hw. unfold dequeue_for_signalfd. destruct (lookup_slot o (threads t)); [|done].
  destruct (_ =? 0); [done|]. simpl. apply alter_threads_wf; [done|].
  intros th Hk Hth. split; [|by left]. apply clear_pending_wf; [done|apply bit_of_nonneg].
Qed.

Lemma finish_sigreturn_wf o frame m t :
  table_wf t → is_u64 m → table_wf (finish_sigreturn o frame m t).2.
Proof.
  intros Hw Hm. unfold finish_sigreturn. m_unfold.
  destruct (find_slot o (threads t)) as [i|] eqn:Hf; [|done].
  destruct (find_slot_Some _ _ _ Hf) as (th & Hi & _ & Hk).
  rewrite (slot_at_Some _ _ _ _ Hi). destruct (negb _); [|done]. cbn.
  apply (put_thread_wf _ _ _ _ Hw Hi); [by left|].
  destruct (wf_thread _ Hw _ _ Hi). split; simpl; [by apply mask_ok_sanitize|done|done|by left].
Qed.

Lemma clear_thread_wf o g t : table_wf t → table_wf (clear_thread o g t).
Proof.
  intros Hw. unfold clear_thread.
  assert (table_wf (map_threads (alter_slot o (λ _, EMPTY_THREAD)) t)) as Hw'.
  { apply alter_threads_wf; [done|]. intros th _ _. split; [apply fresh_thread_wf|by right]. }
  destruct g as [g|]; [|done]. apply alter_groups_wf; [done|].
  intros gs _ _. split; [apply empty_actions_wf|by right].
Qed.

Lemma exec_actions_wf g :
  group_wf g →
  group_wf (mkGroup (g_owner g) (update_where (λ act, negb (handler act =? SIG_IGN))
    (λ _, DEFAULT_ACTION) (actions g))).
Proof.
  intros [Hl Ha]. split; simpl; [by rewrite update_where_length|].
  intros s act Hs. rewrite update_where_lookup. intros (a0 & H0 & ->)%fmap_Some.
  destruct (negb _); [by apply default_action_wf|by apply Ha].
Qed.

Lemma reset_for_exec_wf o t : table_wf t → table_wf (reset_for_exec o t).
Proof.
  intros Hw. unfold reset_for_exec. apply alter_threads_wf.
  - apply alter_groups_wf; [done|]. intros g Hk Hg. split; [by apply exec_actions_wf|by left].
  - intros th Hk [Hb Hp Hs Hf]. split; [|by left].
    split; simpl; [done|by unfold is_u64, U64_MAX|done|by left].
Qed.

Lemma group_index_run g b t :
  table_wf t → valid_owner g = true →
  group_index g b t = (Err Capacity, t) ∨ group_index g b t = (Ok None, t) ∨
  ∃ i gs t', group_index g b t = (Ok (Some i), t') ∧ table_wf t' ∧
    groups t' !! i = Some gs ∧ key gs = g.
Proof.
  intros Hw Hv. unfold group_index. m_unfold.
  destruct (find_slot g (groups t)) as [i|] eqn:Hf.
  { right; right. destruct (find_slot_Some _ _ _ Hf) as (gs & Hi & _ & Hk).
    exists i, gs, t. done. }
  destruct b; [|by right; left].
  destruct (free_slot (groups t)) as [i|] eqn:Hfree; [|by left]. right; right.
  apply position_lookup in Hfree as (gs & Hi & Ho%negb_true_iff).
  exists i, (mkGroup g (actions EMPTY_GROUP)), (map_groups <[i := mkGroup g (actions EMPTY_GROUP)]> t).
  split_and!; [done| | |done].
  - apply (put_group_wf t i gs); [done..|by right; right|apply empty_actions_wf].
  - cbv [map_groups groups]. apply list_lookup_insert_eq. by eapply lookup_lt_Some.
Qed.

Lemma set_action_wf g s rep t :
  table_wf t → (∀ act, rep = Some act → is_u64 (a_mask act)) → table_wf (set_action g s rep t).2.
Proof.
  intros Hw Hr. unfold set_action, lift. m_unfold. destruct (valid_owner g) eqn:Hv; [|done].
  destruct (signal_bit s) as [bit|] eqn:Hb; [|done]. apply signal_bit_Ok_inv in Hb as [Hs ->].
  destruct rep as [act|]; cbv beta iota.
  - destruct (unmaskable s) eqn:Hu; unfold unmaskable in Hu; rewrite Hu; [done|]. cbn [negb].
    destruct (validate_action s act) as [[]|] eqn:Hva; [|done].
    destruct (group_index_run g (bool_decide (is_Some (Some act))) t Hw Hv)
      as [->|[->|(i & gs & t' & -> & Hw' & Hi & Hk)]]; [done..|]. cbn [snd].
    rewrite (slot_at_Some _ _ _ _ Hi). apply (put_group_wf _ _ _ _ Hw' Hi); [by left|].
    apply set_group_action_wf; [lia|by eapply wf_group|]. split.
    + exact Hva.
    + apply mask_ok_sanitize. by apply Hr.
    + unfold unmaskable. by rewrite Hu.
  - destruct (group_index_run g (bool_decide (is_Some (@None SignalAction))) t Hw Hv)
      as [->|[->|(i & gs & t' & -> & Hw' & Hi & Hk)]]; done.
Qed.

Lemma action_action_wf t g s : table_wf t → 1 ≤ s ≤ 64 → action_wf s (action t g s).
Proof.
  intros Hw Hs. unfold action. destruct (lookup_slot g (groups t)) as [gs|] eqn:E;
    [|by apply default_action_wf].
  apply lookup_slot_Some in E as (_ & _ & i & Hi); [|apply Hw].
  destruct (wf_group _ Hw _ _ Hi) as [Hl Ha]. eapply (Ha s); [done|].
  apply slot_at_lookup. rewrite Hl. unfold action_index, SIGNAL_COUNT, MAXIMUM_SIGNAL. lia.
Qed.

Lemma pending_after_wf th k : 0 ≤ k → thread_wf th → thread_wf (set_pending (pending_after th k) th).
Proof.
  intros Hk Hth. apply clear_pending_wf; [done|]. apply Z.land_nonneg. left.
  pose proof (candidates_u64 th (tw_pending _ Hth)) as Hc.
  apply Hc. apply Hth.
Qed.

Lemma deliver_one_wf t i th0 th group frame s :
  table_wf t → threads t !! i = Some th0 → t_owner th = t_owner th0 → thread_wf th →
  valid_user_code frame = true → 1 ≤ s ≤ 64 →
  table_wf (deliver_one t i th group frame s).2.
Proof.
  intros Hw Hi Hk Hth Hframe Hs. unfold deliver_one. destruct (_ || unmaskable s).
  { apply (put_thread_wf _ _ _ _ Hw Hi); [by left|done]. }
  assert (thread_wf (enter_handler (action t group s) s frame th)) as Hin.
  { destruct Hth as [Hb Hp Hst Hf]. split; simpl; [|done|done|by right].
    apply mask_ok_sanitize, is_u64_lor; [apply is_u64_lor; [apply Hb|]|].
    - apply (action_action_wf t group s Hw Hs).
    - destruct (_ =? 0); [by apply bit_of_u64|by unfold is_u64, U64_MAX]. }
  pose proof (put_thread_wf _ _ _ (enter_handler (action t group s) s frame th) Hw Hi
    ltac:(by left) Hin) as Hw'.
  cbn [snd]. destruct (_ =? 0); [done|].
  apply (alter_groups_wf _ group (set_group_action s DEFAULT_ACTION)) in Hw'; [done|].
  intros g Hg Hgw. split; [|by left]. apply set_group_action_wf; [lia|done|by apply default_action_wf].
Qed.

Lemma deliver_reference_wf t i th group frame :
  table_wf t → threads t !! i = Some th → valid_user_code frame = true →
  table_wf (deliver_reference t i th group frame).2.
Proof.
  intros Hw Hi Hframe. unfold deliver_reference. pose proof (wf_thread _ Hw _ _ Hi) as Hth.
  destruct (first_signal _) as [s|] eqn:E.
  - apply first_signal_Some in E as (Hs & _). apply (deliver_one_wf t i th); try done.
    apply pending_after_wf; [lia|done].
  - apply (put_thread_wf _ _ _ _ Hw Hi); [by left|]. by apply pending_after_wf.
Qed.

Lemma begin_delivery_run t own group frame i th :
  table_wf t → valid_owner group = true → valid_user_code frame = true →
  find_slot own (threads t) = Some i → threads t !! i = Some th →
  begin_delivery own group frame t =
    if active_frame_of th =? 0 then
      let '(d, t') := deliver_reference t i th group frame in Some (Ok d, t')
    else Some (Ok Nothing, t).
Proof.
  intros Hw Hg Hframe Hf Hi. unfold begin_delivery.
  destruct (find_slot_Some _ _ _ Hf) as (_ & _ & Hv & _). rewrite Hv, Hg, Hframe, Hf. simpl.
  rewrite (slot_at_Some _ _ _ _ Hi). destruct (active_frame_of th =? 0); [|done]. simpl.
  pose proof (wf_thread _ Hw _ _ Hi) as Hth. apply delivery_loop_run; [done|apply Hth|apply Hth].
Qed.

(** ** Runs *)

Inductive Op :=
| OpSetAction (group : ProcessHandle) (signal : Z) (replacement : option SignalAction)
| OpMask (owner : ProcessHandle) (operation : Z) (replacement : option Z)
| OpInherit (parent child : ProcessHandle)
| OpQueue (owner : ProcessHandle) (signal : Z)
| OpDequeue (owner : ProcessHandle) (mask : Z)
| OpDeliver (owner group : ProcessHandle) (frame : Z)
| OpSigreturn (owner : ProcessHandle) (frame restored_mask : Z)
| OpClear (owner : ProcessHandle) (group : option ProcessHandle)
| OpExec (owner : ProcessHandle).

Definition exec (op : Op) (t : SignalTable) : option SignalTable :=
  match op with
  | OpSetAction g s rep => Some (set_action g s rep t).2
  | OpMask o op rep => Some (update_mask o op rep t).2
  | OpInherit p c => Some (inherit_mask p c t).2
  | OpQueue o s => Some (queue o s t).2
  | OpDequeue o m => Some (dequeue_for_signalfd o m t).2
  | OpDeliver o g frame => snd <$> begin_delivery o g frame t
  | OpSigreturn o frame m => Some (finish_sigreturn o frame m t).2
  | OpClear o g => Some (clear_thread o g t)
  | OpExec o => Some (reset_for_exec o t)
  end.

(** The masks are [u64] values. *)
Definition op_in_range (op : Op) : Prop :=
  match op with
  | OpSetAction _ _ (Some act) => is_u64 (a_mask act)
  | OpMask _ _ (Some m) => is_u64 m
  | OpSigreturn _ _ m => is_u64 m
  | _ => True
  end.

Fixpoint exec_all (ops : list Op) (t : SignalTable) : option SignalTable :=
  match ops with [] => Some t | op :: ops => t' ← exec op t; exec_all ops t' end.

Lemma begin_delivery_total t own group frame :
  table_wf t →
  ∃ r t', begin_delivery own group frame t = Some (r, t') ∧ table_wf t'.
Proof.
  intros Hw.
  destruct (valid_owner own && valid_owner group && valid_user_code frame) eqn:Hv.
  - apply andb_true_iff in Hv as [[Hv Hg]%andb_true_iff Hframe].
    destruct (find_slot own (threads t)) as [i|] eqn:Hf.
    + destruct (find_slot_Some _ _ _ Hf) as (th & Hi & _).
      rewrite (begin_delivery_run _ _ _ _ i th) by done.
      destruct (active_frame_of th =? 0); [|eauto].
      pose proof (deliver_reference_wf t i th group frame Hw Hi Hframe) as Hw'.
      destruct (deliver_reference t i th group frame). eauto.
    + unfold begin_delivery. rewrite Hv, Hg, Hframe, Hf. simpl. eauto.
  - unfold begin_delivery. destruct (valid_owner own), (valid_owner group), (valid_user_code frame);
      simpl; eauto; done.
Qed.

Lemma sig_exec_wf op t :
  table_wf t → op_in_range op → ∃ t', exec op t = Some t' ∧ table_wf t'.
Proof.
  intros Hw Hr. destruct op; simpl in *;
    try (eexists; split; [reflexivity|]).
  - apply set_action_wf; [done|]. by intros act ->.
  - apply update_mask_wf; [done|]. by intros act ->.
  - by apply inherit_mask_wf.
  - by apply queue_wf.
  - by apply dequeue_wf.
  - destruct (begin_delivery_total t owner group frame Hw) as (r & t' & -> & Hw'). eauto.
  - by apply finish_sigreturn_wf.
  - by apply clear_thread_wf.
  - by apply reset_for_exec_wf.
Qed.

Lemma deliver_one_pending t i th group frame s :
  (i < length (threads t))%nat →
  let '(d, t') := deliver_one t i th group frame s in
  (d = Terminate s ∨ unmaskable s = false ∧ ∃ act mask, d = Handler s act mask) ∧
  ∃ th', threads t' !! i = Some th' ∧ pending th' = pending th.
Proof.
  intros Hi. unfold deliver_one.
  destruct (handler (action t group s) =? 0), (unmaskable s) eqn:Hu; simpl;
    (split; [first [by left|by right; eauto]|]);
    (eexists; split; [by apply list_lookup_insert_eq|done]).
Qed.

(** ** Properties *)

(** From boot on, every sequence of signal operations runs to completion
    (the delivery loop included) and leaves a well-formed table: owners are
    unique, stored masks never contain SIGKILL or SIGSTOP, their dispositions
    are always the default, SIGSTOP is never pending, and every stored handler
    passed validation. *)
Theorem signal_runs_total (ops : list Op) :
  Forall op_in_range ops → ∃ t, exec_all ops SIGNALS = Some t ∧ table_wf t.
Proof.
  intros Hops. pose proof sig_table_wf_boot as Hw. revert Hw. generalize SIGNALS.
  induction Hops as [|op ops Hop _ IH]; intros t Hw; simpl; [eauto|].
  destruct (sig_exec_wf op t Hw Hop) as (t' & -> & Hw'). simpl. by apply IH.
Qed.

(** What the single pass leaves pending. *)
Lemma delivery_consumes t i th group frame :
  threads t !! i = Some th →
  ∃ d t', (let '(d, t') := deliver_reference t i th group frame in Some (Ok d, t')) = Some (Ok d : Result Delivery SignalError, t') ∧
    deliver_reference t i th group frame = (d, t') ∧
    (∀ s, 1 ≤ s → ∃ th', threads t' !! i = Some th' ∧
      let last := match d with Nothing => 64 | Terminate s | Handler s _ _ => s end in
      Z.testbit (pending th') (s - 1) =
        Z.testbit (pending th) (s - 1) && negb (candidate th s && (s <=? last))).
Proof.
  intros Hi. pose proof (lookup_lt_Some _ _ _ Hi) as Hlt.
  assert (∀ s k, 1 ≤ s → 0 ≤ k → Z.testbit (pending_after th k) (s - 1) =
    Z.testbit (pending th) (s - 1) && negb (candidate th s && (s <=? k))) as Hbit.
  { intros s k Hs Hk. rewrite pending_after_testbit by lia. by replace (s - 1 + 1) with s by lia. }
  unfold deliver_reference. destruct (first_signal _) as [s|] eqn:E.
  - apply first_signal_Some in E as (Hs & _).
    pose proof (deliver_one_pending t i (set_pending (pending_after th s) th) group frame s Hlt) as Hd.
    destruct (deliver_one _ _ _ _ _ _) as [d t']. destruct Hd as (Hd & th' & Hth' & Hp').
    do 2 eexists. split; [done|]. split; [done|]. intros s' Hs'. exists th'. split; [done|].
    rewrite Hp'. destruct Hd as [->|(_ & act & mask & ->)]; apply Hbit; lia.
  - do 2 eexists. split; [done|]. split; [done|]. intros s' Hs'. eexists.
    split; [by apply list_lookup_insert_eq|apply Hbit; lia].
Qed.

(** C5. Every call of [begin_delivery] returns. An owner, group or frame that is
    not valid, or an owner without a slot, is refused and nothing changes; while
    a handler of the thread is active, nothing is delivered and nothing changes.
    Otherwise the delivery loop, which picks the lowest bit round after round,
    does what a single pass over the signals in increasing order does: it
    delivers the first candidate that is not ignored, and consumes exactly the
    candidates up to it. *)
Theorem signal_delivery_reference (t : SignalTable) (own group : ProcessHandle) (frame : Z) :
  table_wf t →
  match find_slot own (threads t) with
  | Some i =>
      if valid_owner group && valid_user_code frame then
        ∃ th, threads t !! i = Some th ∧
          if active_frame_of th =? 0 then
            ∃ d t', begin_delivery own group frame t = Some (Ok d, t') ∧
              deliver_reference t i th group frame = (d, t') ∧
              (∀ s, 1 ≤ s → ∃ th', threads t' !! i = Some th' ∧
                let last := match d with Nothing => 64 | Terminate s | Handler s _ _ => s end in
                Z.testbit (pending th') (s - 1) =
                  Z.testbit (pending th) (s - 1) && negb (candidate th s && (s <=? last)))
          else begin_delivery own group frame t = Some (Ok Nothing, t)
      else begin_delivery own group frame t = Some (Err InvalidOwner, t)
  | None => begin_delivery own group frame t = Some (Err InvalidOwner, t)
  end.
Proof.
  intros Hw. destruct (find_slot own (threads t)) as [i|] eqn:Hf.
  2: { unfold begin_delivery. rewrite Hf. by destruct (_ || _). }
  destruct (find_slot_Some _ _ _ Hf) as (th & Hi & Hv & _).
  destruct (valid_owner group && valid_user_code frame) eqn:Hg.
  2: { unfold begin_delivery. rewrite <-orb_assoc, <-negb_andb, Hg. simpl. by rewrite orb_true_r. }
  apply andb_true_iff in Hg as [Hg Hframe]. exists th. split; [done|]. rewrite (begin_delivery_run _ _ _ _ i th) by done.
  destruct (active_frame_of th =? 0); [|done]. by apply delivery_consumes.
Qed.

(** SIGKILL is never blocked, ignored, caught or lost: when it is pending
    on a thread outside a handler, delivery either terminates the thread with
    it, or first delivers a lower-numbered signal and leaves it pending. *)
Theorem signal_kill_not_lost (t : SignalTable) (own group : ProcessHandle) (frame : Z)
    (i : nat) (th : ThreadSlot) :
  table_wf t → valid_owner group = true → valid_user_code frame = true →
  find_slot own (threads t) = Some i → threads t !! i = Some th → active_frame_of th = 0 →
  Z.testbit (pending th) (SIGKILL - 1) = true →
  ∃ d t', begin_delivery own group frame t = Some (Ok d, t') ∧
    match d with
    | Nothing => False
    | Terminate s | Handler s _ _ =>
        s ≤ SIGKILL ∧ (s = SIGKILL → d = Terminate SIGKILL) ∧
        (s < SIGKILL → ∃ th', threads t' !! i = Some th' ∧
                         Z.testbit (pending th') (SIGKILL - 1) = true)
    end.
Proof.
  intros Hw Hg Hframe Hf Hi Hact Hp. rewrite (begin_delivery_run _ _ _ _ i th) by done.
  rewrite Hact. simpl (0 =? 0). cbv iota. pose proof (lookup_lt_Some _ _ _ Hi) as Hlt.
  assert (1 ≤ SIGKILL ≤ 64) as Hrange by (unfold SIGKILL; lia).
  assert (candidate th SIGKILL = true) as Hc by (unfold candidate; rewrite Hp; apply orb_true_r).
  pose proof (aw_unmaskable _ _ (action_action_wf t group SIGKILL Hw Hrange) eq_refl) as Hdef.
  assert (ignored t group SIGKILL = false) as Hg' by (unfold ignored; by rewrite Hdef).
  unfold deliver_reference. destruct (first_signal _) as [s|] eqn:E.
  2: { rewrite first_signal_None in E. specialize (E SIGKILL Hrange). by rewrite Hc, Hg' in E. }
  apply first_signal_Some in E as (Hs & _ & Hlow).
  destruct (decide (SIGKILL < s)).
  { specialize (Hlow SIGKILL ltac:(lia)). by rewrite Hc, Hg' in Hlow. }
  pose proof (deliver_one_pending t i (set_pending (pending_after th s) th) group frame s Hlt) as Hd.
  destruct (deliver_one _ _ _ _ _ _) as [d t']. destruct Hd as (Hd & th' & Hth' & Hp').
  exists d, t'. split; [done|].
  assert (s < SIGKILL → Z.testbit (pending th') (SIGKILL - 1) = true) as Hkeep.
  { intros Hlt'. rewrite Hp'. simpl (pending _). rewrite pending_after_testbit, Hp by lia.
    destruct (Z.leb_spec (SIGKILL - 1 + 1) s); [lia|]. by rewrite andb_false_r. }
  destruct Hd as [->|(Hu & act & mask & ->)]; split_and!; eauto; try lia; [by intros ->|].
  intros ->. done.
Qed.

Lemma deliver_reference_handler t i th group frame s act mask t' :
  deliver_reference t i th group frame = (Handler s act mask, t') →
  mask = blocked th ∧ 1 ≤ s ≤ 64 ∧ act = action t group s ∧
  threads t' = <[i := enter_handler act s frame (set_pending (pending_after th s) th)]> (threads t).
Proof.
  unfold deliver_reference. destruct (first_signal _) as [s'|] eqn:E; [|done].
  apply first_signal_Some in E as (Hs & _). unfold deliver_one.
  destruct (_ || _); [done|]. by intros [= <- <- <- <-].
Qed.

Lemma valid_user_code_pos frame : valid_user_code frame = true → 0 < frame.
Proof. unfold valid_user_code, USER_ADDRESS_MINIMUM. lia. Qed.

Lemma finish_sigreturn_run t own frame mask i th :
  find_slot own (threads t) = Some i → threads t !! i = Some th →
  finish_sigreturn own frame mask t =
    if (frame =? 0) || negb (active_frame_of th =? frame) then (Err InvalidFrame, t)
    else (Ok tt, map_threads
            <[i := set_frame 0 (set_blocked (sanitize_mask mask) th)]> t).
Proof.
  intros Hf Hi. unfold finish_sigreturn. m_unfold. rewrite Hf, (slot_at_Some _ _ _ _ Hi).
  by destruct (_ || _).
Qed.

(** A delivery that enters a handler leaves the thread inside it. *)
Lemma begin_delivery_handler t t' own group frame s act mask i th :
  table_wf t → find_slot own (threads t) = Some i → threads t !! i = Some th →
  begin_delivery own group frame t = Some (Ok (Handler s act mask), t') →
  valid_user_code frame = true ∧ mask = blocked th ∧ table_wf t' ∧
  find_slot own (threads t') = Some i ∧
  threads t' !! i = Some (enter_handler act s frame (set_pending (pending_after th s) th)).
Proof.
  intros Hw Hf Hi Hb. pose proof (lookup_lt_Some _ _ _ Hi) as Hlt.
  destruct (begin_delivery_total t own group frame Hw) as (r & t1 & Hb' & Hw').
  rewrite Hb in Hb'. injection Hb' as <- <-.
  assert (valid_owner group = true ∧ valid_user_code frame = true) as [Hg Hframe].
  { unfold begin_delivery in Hb. destruct (valid_owner group), (valid_user_code frame); try done;
      by rewrite ?orb_true_r in Hb. }
  rewrite (begin_delivery_run _ _ _ _ i th) in Hb by done.
  destruct (active_frame_of th =? 0); [|done].
  destruct (deliver_reference t i th group frame) as [d t1] eqn:Hd. injection Hb as -> ->.
  apply deliver_reference_handler in Hd as (-> & Hs & -> & Hths).
  assert (threads t' !! i = Some (enter_handler (action t group s) s frame
    (set_pending (pending_after th s) th))) as Hi' by (rewrite Hths; by apply list_lookup_insert_eq).
  split_and!; try done. destruct (find_slot_Some _ _ _ Hf) as (th0 & Hi0 & Hv & Hk).
  rewrite Hi in Hi0. injection Hi0 as <-. eapply find_slot_at; [apply Hw'|done..].
Qed.

(** C29. Handler entry and return are inverse on the mask: after a delivery
    enters a handler, the frame is active, only a return with exactly that
    frame is accepted, and returning with the saved mask restores the mask the
    thread had and leaves no active frame. *)
Theorem signal_sigreturn_restores (t t' : SignalTable) (own group : ProcessHandle)
    (frame s mask : Z) (act : SignalAction) (i : nat) (th : ThreadSlot) :
  table_wf t → find_slot own (threads t) = Some i → threads t !! i = Some th →
  begin_delivery own group frame t = Some (Ok (Handler s act mask), t') →
  (∀ f m, f ≠ frame → finish_sigreturn own f m t' = (Err InvalidFrame, t')) ∧
  ∃ t'' th', finish_sigreturn own frame mask t' = (Ok tt, t'') ∧
    lookup_slot own (threads t'') = Some th' ∧
    blocked th' = blocked th ∧ active_frame_of th' = 0 ∧
    pending th' = pending_after th s ∧
    finish_sigreturn own frame mask t'' = (Err InvalidFrame, t'').
Proof.
  intros Hw Hf Hi Hb. destruct (begin_delivery_handler _ _ _ _ _ _ _ _ _ _ Hw Hf Hi Hb)
    as (Hframe & -> & Hw' & Hf' & Hi'). set (th1 := enter_handler _ _ _ _) in Hi'.
  pose proof (valid_user_code_pos _ Hframe) as Hpos.
  pose proof (tw_blocked _ (wf_thread _ Hw _ _ Hi)) as Hmask.
  pose proof (finish_sigreturn_wf own frame (blocked th) t' Hw' (proj1 Hmask)) as Hw2.
  destruct (find_slot_Some _ _ _ Hf') as (th0 & Hi0 & Hv & Hk). rewrite Hi' in Hi0. injection Hi0 as <-.
  rewrite (finish_sigreturn_run _ _ _ _ i th1) in Hw2 |- * by done. split.
  - intros f m Hne. rewrite (finish_sigreturn_run _ _ _ _ i th1) by done. simpl.
    by destruct (Z.eqb_spec frame f), (Z.eqb_spec f 0); subst.
  - simpl in *. rewrite Z.eqb_refl in *. destruct (Z.eqb_spec frame 0); [lia|]. simpl in *.
    set (th2 := set_frame 0 _) in *. set (t2 := map_threads _ t') in *.
    assert (threads t2 !! i = Some th2) as Hi2
      by (apply list_lookup_insert_eq; by eapply lookup_lt_Some).
    assert (find_slot own (threads t2) = Some i) as Hf2
      by (eapply find_slot_at; [apply Hw2|done..]).
    exists t2, th2. split_and!; [done|by eapply lookup_slot_find| |done..|].
    + by apply sanitize_mask_id.
    + rewrite (finish_sigreturn_run _ _ _ _ i th2) by done. simpl.
      by destruct frame.
Qed.

(** A successful exec resets exactly what it should: caught dispositions of
    the process return to default and ignored ones stay, its mask is kept, its
    pending signals and active frame are dropped, and no other process or
    group is touched. *)
Theorem signal_exec_resets (t : SignalTable) (o : ProcessHandle) :
  table_wf t →
  let t' := reset_for_exec o t in
  (∀ s, 1 ≤ s ≤ 64 →
     action t' o s = if handler (action t o s) =? SIG_IGN then action t o s else DEFAULT_ACTION) ∧
  (∀ g s, g ≠ o → action t' g s = action t g s) ∧
  thread_state t' o = mkThread (t_owner (thread_state t o)) (blocked (thread_state t o)) 0 0 ∧
  (∀ o', o' ≠ o → thread_state t' o' = thread_state t o').
Proof.
  intros Hw. pose proof (wf_groups_unique _ Hw) as Hug. pose proof (wf_threads_unique _ Hw) as Hut.
  unfold reset_for_exec, action, thread_state. simpl. split_and!.
  - intros s Hs. rewrite lookup_alter_slot_eq by (done || by intros; left).
    destruct (lookup_slot o (groups t)) as [g|] eqn:E; simpl; [|done].
    apply lookup_slot_Some in E as (Hv & Hk & i & Hi); [|done].
    unfold slot_occupied, key, group_keyed in *. simpl. rewrite Hk, Hv. simpl.
    pose proof (gw_length _ (wf_group _ Hw _ _ Hi)) as Hl.
    assert (action_index s < length (actions g))%nat as Hlt
      by (rewrite Hl; unfold action_index, SIGNAL_COUNT, MAXIMUM_SIGNAL; lia).
    pose proof (slot_at_lookup DEFAULT_ACTION _ _ Hlt) as Ha.
    unfold slot_at at 1. rewrite update_where_lookup, Ha. simpl. by destruct (_ =? SIG_IGN).
  - intros g s Hne. by rewrite lookup_alter_slot_ne by (done || by intros; left).
  - rewrite lookup_alter_slot_eq by (done || by intros; left).
    destruct (lookup_slot o (threads t)) as [th|] eqn:E; simpl; [|done].
    apply lookup_slot_Some in E as (Hv & Hk & _); [|done].
    unfold slot_occupied, key, thread_keyed in *. simpl. rewrite <- Hk in Hv. by rewrite Hv.
  - intros o' Hne. by rewrite lookup_alter_slot_ne by (done || by intros; left).
Qed.

(** While a handler frame is active no signal is delivered at all, SIGKILL
    included: [delivery_pending] is false and [begin_delivery] does nothing
    although SIGKILL is pending. *)
Theorem signal_kill_deferred_by_handler (t : SignalTable) (own group : ProcessHandle) (frame : Z)
    (th : ThreadSlot) :
  lookup_slot own (threads t) = Some th → active_frame_of th ≠ 0 →
  Z.testbit (pending th) (SIGKILL - 1) = true →
  valid_owner group = true → valid_user_code frame = true →
  delivery_pending own t = false ∧ begin_delivery own group frame t = Some (Ok Nothing, t).
Proof.
  intros Hl Hact _ Hg Hframe. unfold delivery_pending, begin_delivery. rewrite Hl.
  pose proof (lookup_slot_cases own (threads t)) as Hc. rewrite Hl in Hc.
  destruct Hc as (i & Hf & Hi & _ & Hv). rewrite Hv, Hg, Hframe, Hf. simpl.
  rewrite (slot_at_Some _ _ _ _ Hi). by destruct (Z.eqb_spec (active_frame_of th) 0).
Qed.

(** ** What a signalfd sees *)

(** [dequeue_for_signalfd] takes the lowest signal that is pending and in the
    mask; it changes nothing else. *)
Lemma dequeue_run t o m :
  table_wf t →
  match dequeue_for_signalfd o m t with
  | (None, t') => t' = t ∧ pending_for_signalfd o m t = false
  | (Some s, t') =>
      pending_for_signalfd o m t = true ∧ 1 ≤ s ≤ 64 ∧
      Z.testbit (Z.land (pending_mask o t) m) (s - 1) = true ∧
      (∀ s', 1 ≤ s' < s → Z.testbit (Z.land (pending_mask o t) m) (s' - 1) = false) ∧
      pending_mask o t' = and_not (pending_mask o t) (bit_of s) ∧
      (∀ o', o' ≠ o → pending_mask o' t' = pending_mask o' t)
  end.
Proof.
  intros Hw. pose proof (wf_threads_unique _ Hw) as Hu.
  unfold dequeue_for_signalfd, pending_for_signalfd, pending_mask.
  destruct (lookup_slot o (threads t)) as [th|] eqn:E; [|done].
  pose proof (lookup_thread_wf _ _ _ Hw E) as Hth.
  pose proof (is_u64_land _ m (tw_pending _ Hth)) as Hsel.
  destruct (Z.eqb_spec (Z.land (pending th) m) 0) as [|Hnz]; [done|].
  destruct (trailing_zeros_signal _ Hsel Hnz) as (Hs & Hb1 & Hb2). split_and!; try done; try lia.
  - simpl. rewrite lookup_alter_slot_eq, E by (done || by intros; left). simpl.
    apply lookup_slot_Some in E as (Hv & Hk & _); [|done].
    unfold slot_occupied, key, thread_keyed in *. simpl. by rewrite Hk, Hv.
  - intros o' Hne. simpl. by rewrite lookup_alter_slot_ne by (done || by intros; left).
Qed.

(** ** Witnesses *)

Definition sample_owner : ProcessHandle := mkHandle 5 2.
Definition sample_action : SignalAction := mkAction 0x400000 SA_RESTORER 0x401000 0x3.
(** Signal 10 is caught, 12 ignored; 12, 10 and SIGKILL are queued. *)
Definition sample_ops : list Op :=
  [OpSetAction sample_owner 10 (Some sample_action);
   OpSetAction sample_owner 12 (Some (mkAction 1 0 0 0));
   OpMask sample_owner 0 (Some 0x10);
   OpQueue sample_owner 12; OpQueue sample_owner 10].
Definition sample_signals : SignalTable := default SIGNALS (exec_all sample_ops SIGNALS).
Definition sample_thread : ThreadSlot := mkThread sample_owner 0x10 0xa00 0.

Lemma sig_sample_ops_in_range : Forall op_in_range sample_ops.
Proof. repeat constructor; simpl; unfold is_u64, U64_MAX; lia. Qed.

Lemma sample_signals_wf : table_wf sample_signals.
Proof.
  unfold sample_signals. pose proof sig_sample_ops_in_range as Hr.
  assert (∀ t, table_wf t → ∃ t', exec_all sample_ops t = Some t' ∧ table_wf t') as H.
  { induction Hr as [|op ops Hop _ IH]; intros t Hw; simpl; [eauto|].
    destruct (sig_exec_wf op t Hw Hop) as (t' & -> & Hw'). simpl. by apply IH. }
  by destruct (H SIGNALS sig_table_wf_boot) as (t' & -> & Hw').
Qed.

Lemma signal_runs_total_witness : ∃ t, exec_all sample_ops SIGNALS = Some t ∧ table_wf t.
Proof. apply signal_runs_total. exact sig_sample_ops_in_range. Defined.

Lemma signal_delivery_reference_witness :
  find_slot sample_owner (threads sample_signals) = Some 0%nat ∧
  match find_slot sample_owner (threads sample_signals) with
  | Some i =>
      if valid_owner sample_owner && valid_user_code 0x7000 then
        ∃ th, threads sample_signals !! i = Some th ∧
          if active_frame_of th =? 0 then
            ∃ d t', begin_delivery sample_owner sample_owner 0x7000 sample_signals = Some (Ok d, t') ∧
              deliver_reference sample_signals i th sample_owner 0x7000 = (d, t') ∧
              (∀ s, 1 ≤ s → ∃ th', threads t' !! i = Some th' ∧
                let last := match d with Nothing => 64 | Terminate s | Handler s _ _ => s end in
                Z.testbit (pending th') (s - 1) =
                  Z.testbit (pending th) (s - 1) && negb (candidate th s && (s <=? last)))
          else begin_delivery sample_owner sample_owner 0x7000 sample_signals = Some (Ok Nothing, sample_signals)
      else begin_delivery sample_owner sample_owner 0x7000 sample_signals = Some (Err InvalidOwner, sample_signals)
  | None => begin_delivery sample_owner sample_owner 0x7000 sample_signals = Some (Err InvalidOwner, sample_signals)
  end.
Proof.
  split; [vm_compute; reflexivity|]. exact (signal_delivery_reference sample_signals sample_owner sample_owner 0x7000 sample_signals_wf).
Defined.

Definition kill_signals : SignalTable := (queue sample_owner SIGKILL sample_signals).2.

Lemma kill_signals_wf : table_wf kill_signals.
Proof. apply queue_wf, sample_signals_wf. Qed.

Lemma signal_kill_not_lost_witness :
  ∃ d t', begin_delivery sample_owner sample_owner 0x7000 kill_signals = Some (Ok d, t') ∧
    match d with
    | Nothing => False
    | Terminate s | Handler s _ _ =>
        s ≤ SIGKILL ∧ (s = SIGKILL → d = Terminate SIGKILL) ∧
        (s < SIGKILL → ∃ th', threads t' !! 0%nat = Some th' ∧
                         Z.testbit (pending th') (SIGKILL - 1) = true)
    end.
Proof.
  apply (signal_kill_not_lost kill_signals sample_owner sample_owner 0x7000 0
    (mkThread sample_owner 0x10 0xb00 0)); [exact kill_signals_wf|vm_compute; reflexivity..].
Defined.

Definition handler_signals : SignalTable :=
  match begin_delivery sample_owner sample_owner 0x7000 sample_signals with
  | Some (_, t) => t | None => SIGNALS end.

Lemma signal_sigreturn_restores_witness :
  (∀ f m, f ≠ 0x7000 →
     finish_sigreturn sample_owner f m handler_signals = (Err InvalidFrame, handler_signals)) ∧
  ∃ t'' th', finish_sigreturn sample_owner 0x7000 0x10 handler_signals = (Ok tt, t'') ∧
    lookup_slot sample_owner (threads t'') = Some th' ∧
    blocked th' = 0x10 ∧ active_frame_of th' = 0 ∧
    pending th' = pending_after sample_thread 10 ∧
    finish_sigreturn sample_owner 0x7000 0x10 t'' = (Err InvalidFrame, t'').
Proof.
  apply (signal_sigreturn_restores sample_signals handler_signals sample_owner sample_owner
    0x7000 10 0x10 sample_action 0 sample_thread); [exact sample_signals_wf|vm_compute; reflexivity..].
Defined.

Lemma signal_exec_resets_witness :
  let t' := reset_for_exec sample_owner sample_signals in
  (∀ s, 1 ≤ s ≤ 64 →
     action t' sample_owner s =
       if handler (action sample_signals sample_owner s) =? SIG_IGN
       then action sample_signals sample_owner s else DEFAULT_ACTION) ∧
  (∀ g s, g ≠ sample_owner → action t' g s = action sample_signals g s) ∧
  thread_state t' sample_owner = mkThread sample_owner 0x10 0 0 ∧
  (∀ o', o' ≠ sample_owner → thread_state t' o' = thread_state sample_signals o').
Proof. apply (signal_exec_resets sample_signals sample_owner). exact sample_signals_wf. Defined.

Lemma signal_kill_deferred_by_handler_witness :
  delivery_pending sample_owner (queue sample_owner SIGKILL handler_signals).2 = false ∧
  begin_delivery sample_owner sample_owner 0x8000 (queue sample_owner SIGKILL handler_signals).2
    = Some (Ok Nothing, (queue sample_owner SIGKILL handler_signals).2).
Proof.
  apply (signal_kill_deferred_by_handler (queue sample_owner SIGKILL handler_signals).2
    sample_owner sample_owner 0x8000 (mkThread sample_owner 0x213 0x900 0x7000));
    [vm_compute; reflexivity|done|vm_compute; reflexivity..].
Defined.
