(* ===== verification/SignalFd.v ===== *)
(** * Signal descriptors: linux_signalfd.rs

    The table of signalfd slots and every operation of the file. [read],
    [readiness] and [readiness_generation] also use the signal table
    (Signal.v), so they run on the pair of both; a read holds the two locks one
    after the other, which [read_mask] and [dequeue] keep apart. *)

From stdpp Require Import prelude list numbers option.
From Stdlib Require Import ZArith Lia.
From S2P Require Import Prelude.
From S2P Require Import Handles.
From S2P Require Import OwnedTable.
From S2P Require Import KeyedTable.
From S2P Require Import EventFd.
From S2P Require Import Signal.

Definition SFD_NONBLOCK : Z := 0x800.
Definition SFD_CLOEXEC : Z := 0x80000.
Definition SIGNALFD_ALLOWED_FLAGS : Z := Z.lor SFD_NONBLOCK SFD_CLOEXEC.
Definition SIGNALFD_INFO_BYTES : nat := 128.

Definition MAXIMUM_SIGNALFDS : nat := 32.
Definition SIGNALFD_BASE : Z := 0x4000.

Inductive SignalFdError :=
| InvalidArgument
| BadFileDescriptor
| WouldBlock
| Capacity.

#[global] Instance SignalFdError_eq_dec : EqDecision SignalFdError.
Proof. solve_decision. Defined.

Record SignalFdSlot := mkSlot {
  owner : ProcessHandle;
  mask : Z;
  flags : Z;
}.

Definition EMPTY : SignalFdSlot := mkSlot NO_PROCESS 0 0.

Definition occupied (s : SignalFdSlot) : bool := valid_owner (owner s).

Abbreviation Table := (list SignalFdSlot).

(** The static table at boot. *)
Definition SIGNALFDS : Table := replicate MAXIMUM_SIGNALFDS EMPTY.

Definition index_for_fd (fd : Z) : option nat :=
  base_index SIGNALFD_BASE MAXIMUM_SIGNALFDS fd.
Definition fd_for_index (index : nat) : Z := base_fd SIGNALFD_BASE index.

#[global] Instance signalfd_slots : OwnedSlots ProcessHandle SignalFdSlot SignalFdError := {
  empty_slot := EMPTY;
  owned_by := λ own s, occupied s && handle_eqb (owner s) own;
  index_of := index_for_fd;
  fd_of := fd_for_index;
  table_size := MAXIMUM_SIGNALFDS;
  bad_descriptor := BadFileDescriptor;
  index_of_Some := base_index_Some SIGNALFD_BASE MAXIMUM_SIGNALFDS;
  empty_unowned := λ own, eq_refl;
}.

Definition create (own : ProcessHandle) (msk flg : Z) : M Table SignalFdError Z :=
  _ ← ensure (valid_owner own && (and_not flg SIGNALFD_ALLOWED_FLAGS =? 0)) InvalidArgument;
  table ← getS;
  index ← ok_or (position (λ s, negb (occupied s)) table) Capacity;
  _ ← store index (mkSlot own msk flg);
  mret (fd_for_index index).

Definition update (own : ProcessHandle) (fd msk : Z) : M Table SignalFdError unit :=
  index ← fd_index fd;
  slot ← owned_slot own index;
  store index (mkSlot (owner slot) msk (flags slot)).

Definition close (own : ProcessHandle) (fd : Z) : M Table SignalFdError unit :=
  index ← fd_index fd;
  _ ← owned_slot own index;
  store index EMPTY.

Definition close_all (own : ProcessHandle) (table : Table) : nat * Table :=
  if negb (valid_owner own) then (O, table)
  else close_where (λ s, handle_eqb (owner s) own) table.

Definition close_on_exec (own : ProcessHandle) (table : Table) : nat * Table :=
  if negb (valid_owner own) then (O, table)
  else close_where
    (λ s, handle_eqb (owner s) own && negb (Z.land (flags s) SFD_CLOEXEC =? 0)) table.

(** ** Operations on both tables *)

Record World := mkWorld {
  signalfds : Table;
  signals : Signal.SignalTable;
}.

Abbreviation WM := (M World SignalFdError).

(** A step under the lock of the descriptor table. *)
Definition on_fds {A} (m : M Table SignalFdError A) : WM A :=
  zoom signalfds (λ t w, mkWorld t (signals w)) (λ e, e) m.

(** [u32::to_ne_bytes] on the little-endian target. *)
Definition to_ne_bytes (v : Z) : list Z :=
  [v mod 256; (v / 2 ^ 8) mod 256; (v / 2 ^ 16) mod 256; (v / 2 ^ 24) mod 256].

(** The slot's mask and owner, read under the descriptor lock. *)
Definition read_mask (own : ProcessHandle) (fd : Z) : WM (Z * ProcessHandle) :=
  on_fds (index ← fd_index fd; slot ← owned_slot own index; mret (mask slot, owner slot)).

(** [linux_signal::dequeue_for_signalfd(slot_owner, mask)] under the signal lock. *)
Definition dequeue (own : ProcessHandle) (msk : Z) : WM Z :=
  λ w, let '(o, t) := Signal.dequeue_for_signalfd own msk (signals w) in
       (match o with Some signal => Ok signal | None => Err WouldBlock end,
        mkWorld (signalfds w) t).

(** The record written: the signal number, then zeros; the rest of a longer
    buffer is left alone. *)
Definition write_info (signal : Z) (output : list Z) : list Z :=
  to_ne_bytes signal ++ replicate (SIGNALFD_INFO_BYTES - 4) 0 ++ drop SIGNALFD_INFO_BYTES output.

Definition read (own : ProcessHandle) (fd : Z) (output : list Z) : WM (nat * list Z) :=
  _ ← ensure (negb ((length output <? SIGNALFD_INFO_BYTES)%nat
                    || negb (length output mod SIGNALFD_INFO_BYTES =? 0)%nat)) InvalidArgument;
  '(msk, slot_owner) ← read_mask own fd;
  signal ← dequeue slot_owner msk;
  mret (SIGNALFD_INFO_BYTES, write_info signal output).

Definition readiness (own : ProcessHandle) (fd : Z) : WM Z :=
  '(msk, _) ← read_mask own fd;
  w ← getS;
  mret (if Signal.pending_for_signalfd own msk (signals w) then EventFd.READY_IN else 0).

Definition readiness_generation (own : ProcessHandle) (fd : Z) : WM Z :=
  '(msk, _) ← read_mask own fd;
  w ← getS;
  mret (Z.land (Signal.pending_mask own (signals w)) msk).

(** ** Access *)

Lemma owned_by_signalfd own s :
  owned_by own s = true ↔ owner s = own ∧ valid_owner own = true.
Proof.
  simpl. unfold occupied. rewrite andb_true_iff, handle_eqb_eq. split; intros [? ?]; subst; done.
Qed.

Lemma read_mask_run own fd w :
  read_mask own fd w =
  match lookup_owned (signalfds w) own fd with
  | Some (_, s) => (Ok (mask s, own), w)
  | None => (Err BadFileDescriptor, w)
  end.
Proof.
  unfold read_mask, on_fds, zoom. rewrite access_run. destruct w as [t sg]. simpl.
  destruct (lookup_owned t own fd) as [[i s]|] eqn:E; [|done].
  apply lookup_owned_Some in E as (_ & _ & [<- _]%owned_by_signalfd). done.
Qed.

(** The bytes of a [u32] give it back. *)
Definition from_ne_bytes (l : list Z) : Z :=
  match l with
  | [a; b; c; d] => a + b * 2 ^ 8 + c * 2 ^ 16 + d * 2 ^ 24
  | _ => 0
  end.

Lemma sfd_from_to_ne_bytes v : is_u32 v → from_ne_bytes (to_ne_bytes v) = v.
Proof.
  unfold is_u32, U32_MAX, from_ne_bytes, to_ne_bytes. intros Hv.
  pose proof (Z.div_mod v (2 ^ 8)). pose proof (Z.div_mod (v / 2 ^ 8) (2 ^ 8)).
  pose proof (Z.div_mod (v / 2 ^ 16) (2 ^ 8)).
  assert (v / 2 ^ 16 = v / 2 ^ 8 / 2 ^ 8) as E1 by (by rewrite Z.div_div by lia).
  assert (v / 2 ^ 24 = v / 2 ^ 16 / 2 ^ 8) as E2 by (by rewrite Z.div_div by lia).
  assert (0 ≤ v / 2 ^ 24 < 2 ^ 8)
    by (split; [apply Z.div_pos; lia|apply Z.div_lt_upper_bound; lia]).
  rewrite (Z.mod_small (v / 2 ^ 24)) by lia.
  change 256 with (2 ^ 8). rewrite E1 in *. lia.
Qed.

Lemma write_info_length s output :
  (SIGNALFD_INFO_BYTES ≤ length output)%nat → length (write_info s output) = length output.
Proof.
  intros Hl. unfold write_info. rewrite !length_app, length_replicate, length_drop.
  unfold SIGNALFD_INFO_BYTES in *. simpl length at 1. lia.
Qed.

(** The buffers [read] accepts. *)
Definition whole_records (output : list Z) : Prop :=
  (SIGNALFD_INFO_BYTES ≤ length output)%nat ∧ (length output mod SIGNALFD_INFO_BYTES = 0)%nat.

Lemma sfd_read_run own fd output w i s :
  lookup_owned (signalfds w) own fd = Some (i, s) → whole_records output →
  read own fd output w =
  match Signal.dequeue_for_signalfd own (mask s) (signals w) with
  | (Some signal, t) =>
      (Ok (SIGNALFD_INFO_BYTES, write_info signal output), mkWorld (signalfds w) t)
  | (None, t) => (Err WouldBlock, mkWorld (signalfds w) t)
  end.
Proof.
  intros Hs [Hl Hm]. unfold read.
  destruct (Nat.ltb_spec (length output) SIGNALFD_INFO_BYTES); [lia|].
  rewrite Hm, Nat.eqb_refl. m_unfold. cbn [negb orb]. cbv iota beta. rewrite read_mask_run, Hs. unfold dequeue.
  by destruct (Signal.dequeue_for_signalfd own (mask s) (signals w)) as [[signal|] t].
Qed.

Lemma sfd_readiness_run own fd w i s :
  lookup_owned (signalfds w) own fd = Some (i, s) →
  readiness own fd w =
    (Ok (if Signal.pending_for_signalfd own (mask s) (signals w) then EventFd.READY_IN else 0), w).
Proof. intros Hs. unfold readiness. m_unfold. by rewrite read_mask_run, Hs. Qed.

(** ** Properties *)

(** A read of a signalfd takes exactly one signal: the lowest-numbered one
    that is pending for the owner and selected by the mask. Its number is in the
    first four bytes, only its pending bit is cleared, and no other thread and
    no descriptor changes. Readiness is [READY_IN] exactly when such a read
    succeeds; otherwise the read reports [WouldBlock] and changes nothing. *)
Theorem signalfd_read_lowest (w : World) (own : ProcessHandle) (fd : Z) (i : nat)
    (slot : SignalFdSlot) (output : list Z) :
  Signal.table_wf (signals w) → lookup_owned (signalfds w) own fd = Some (i, slot) →
  whole_records output →
  let selected := Z.land (Signal.pending_mask own (signals w)) (mask slot) in
  (readiness own fd w = (Ok 0, w) ∧ read own fd output w = (Err WouldBlock, w)) ∨
  (readiness own fd w = (Ok EventFd.READY_IN, w) ∧
   ∃ s buffer w', read own fd output w = (Ok (SIGNALFD_INFO_BYTES, buffer), w') ∧
     from_ne_bytes (take 4 buffer) = s ∧ length buffer = length output ∧
     Z.testbit selected (s - 1) = true ∧
     (∀ s', 1 ≤ s' < s → Z.testbit selected (s' - 1) = false) ∧
     Signal.pending_mask own (signals w') =
       and_not (Signal.pending_mask own (signals w)) (Signal.bit_of s) ∧
     (∀ o', o' ≠ own →
        Signal.pending_mask o' (signals w') = Signal.pending_mask o' (signals w)) ∧
     signalfds w' = signalfds w).
Proof.
  intros Hw Hs Hout. rewrite (sfd_readiness_run _ _ _ _ _ Hs), (sfd_read_run _ _ _ _ _ _ Hs Hout).
  pose proof (Signal.dequeue_run (signals w) own (mask slot) Hw) as Hd.
  destruct (Signal.dequeue_for_signalfd own (mask slot) (signals w)) as [[s|] t'].
  - destruct Hd as (Hp & Hr & Hb & Hlow & Hmask & Hother). right. rewrite Hp. split; [done|].
    do 3 eexists. split; [done|]. split_and!; [|by apply write_info_length, Hout|done..].
    apply (sfd_from_to_ne_bytes s). unfold is_u32, U32_MAX. lia.
  - destruct Hd as [-> Hp]. left. rewrite Hp. by destruct w.
Qed.

(** The mask of a signalfd is not sanitised, so SIGKILL can be read away: a
    process that creates a signalfd for SIGKILL and has it pending reads it
    from the descriptor, after which it is no longer pending. *)
Theorem signalfd_swallows_kill (w : World) (own : ProcessHandle) (fd : Z) (table : Table)
    (output : list Z) :
  Signal.table_wf (signals w) → length (signalfds w) = MAXIMUM_SIGNALFDS →
  create own (Signal.bit_of Signal.SIGKILL) 0 (signalfds w) = (Ok fd, table) →
  Z.testbit (Signal.pending_mask own (signals w)) (Signal.SIGKILL - 1) = true →
  whole_records output →
  ∃ w', read own fd output (mkWorld table (signals w)) =
          (Ok (SIGNALFD_INFO_BYTES, write_info Signal.SIGKILL output), w') ∧
    Z.testbit (Signal.pending_mask own (signals w')) (Signal.SIGKILL - 1) = false.
Proof.
  intros Hw Hlen Hc Hk Hout. unfold create, store in Hc. m_unfold. simpl in Hc.
  destruct (valid_owner own) eqn:Hv; [|done]. simpl in Hc.
  destruct (position _ (signalfds w)) as [i|] eqn:Hpos; [|done]. injection Hc as <- <-.
  pose proof (position_lt _ _ _ Hpos) as Hlt.
  set (slot := mkSlot own (Signal.bit_of Signal.SIGKILL) 0).
  assert (lookup_owned (<[i := slot]> (signalfds w)) own (fd_for_index i) = Some (i, slot)) as Hs.
  { apply lookup_owned_Some. split_and!.
    - apply (index_of_Some (OwnedSlots := signalfd_slots)). simpl. lia.
    - by apply list_lookup_insert_eq.
    - by apply owned_by_signalfd. }
  erewrite sfd_read_run by done. simpl (signals _). simpl (mask _).
  pose proof (Signal.dequeue_run (signals w) own (Signal.bit_of Signal.SIGKILL) Hw) as Hd.
  assert (∀ s, 1 ≤ s → Z.testbit (Signal.bit_of Signal.SIGKILL) (s - 1) = (s =? Signal.SIGKILL)) as Hbit.
  { intros s Hs'. rewrite Signal.bit_of_testbit by (unfold Signal.SIGKILL; lia).
    rewrite Z.sub_add. apply Z.eqb_sym. }
  destruct (Signal.dequeue_for_signalfd _ _ _) as [[s|] t'].
  - destruct Hd as (_ & Hr & Hb & _ & Hmask & _).
    rewrite Z.land_spec, Hbit, andb_true_iff in Hb by lia. destruct Hb as [_ ->%Z.eqb_eq].
    eexists. split; [done|]. simpl (signals _). rewrite Hmask. unfold and_not.
    by rewrite Z.ldiff_spec, Hbit, andb_false_r by (unfold Signal.SIGKILL; lia).
  - destruct Hd as [_ Hd]. unfold Signal.pending_for_signalfd in Hd.
    apply negb_false_iff, Z.eqb_eq in Hd.
    apply (f_equal (λ x, Z.testbit x (Signal.SIGKILL - 1))) in Hd.
    by rewrite Z.land_spec, Hk, Hbit, Z.bits_0 in Hd by (unfold Signal.SIGKILL; lia).
Qed.

(** ** Witnesses *)

Definition sample_world : World :=
  mkWorld (<[3%nat := mkSlot Signal.sample_owner 0xfff 0]> SIGNALFDS) Signal.kill_signals.

Lemma signalfd_read_lowest_witness :
  let selected := Z.land (Signal.pending_mask Signal.sample_owner Signal.kill_signals) 0xfff in
  let w := sample_world in
  (readiness Signal.sample_owner 0x4003 w = (Ok 0, w) ∧
   read Signal.sample_owner 0x4003 (replicate 128 7) w = (Err WouldBlock, w)) ∨
  (readiness Signal.sample_owner 0x4003 w = (Ok EventFd.READY_IN, w) ∧
   ∃ s buffer w',
     read Signal.sample_owner 0x4003 (replicate 128 7) w = (Ok (SIGNALFD_INFO_BYTES, buffer), w') ∧
     from_ne_bytes (take 4 buffer) = s ∧ length buffer = length (replicate 128 7) ∧
     Z.testbit selected (s - 1) = true ∧
     (∀ s', 1 ≤ s' < s → Z.testbit selected (s' - 1) = false) ∧
     Signal.pending_mask Signal.sample_owner (signals w') =
       and_not (Signal.pending_mask Signal.sample_owner (signals w)) (Signal.bit_of s) ∧
     (∀ o', o' ≠ Signal.sample_owner →
        Signal.pending_mask o' (signals w') = Signal.pending_mask o' (signals w)) ∧
     signalfds w' = signalfds w).
Proof.
  apply (signalfd_read_lowest sample_world Signal.sample_owner 0x4003 3
    (mkSlot Signal.sample_owner 0xfff 0) (replicate 128 7)).
  - exact Signal.kill_signals_wf.
  - vm_compute. reflexivity.
  - split; [vm_compute; lia|reflexivity].
Defined.

Lemma signalfd_swallows_kill_witness :
  ∃ w', read Signal.sample_owner 0x4000 (replicate 128 7)
          (mkWorld (create Signal.sample_owner (Signal.bit_of Signal.SIGKILL) 0 SIGNALFDS).2
             Signal.kill_signals) =
          (Ok (SIGNALFD_INFO_BYTES, write_info Signal.SIGKILL (replicate 128 7)), w') ∧
    Z.testbit (Signal.pending_mask Signal.sample_owner (signals w')) (Signal.SIGKILL - 1) = false.
Proof.
  apply (signalfd_swallows_kill (mkWorld SIGNALFDS Signal.kill_signals) Signal.sample_owner 0x4000 _
    (replicate 128 7)).
  - exact Signal.kill_signals_wf.
  - reflexivity.
  - vm_compute. reflexivity.
  - vm_compute. reflexivity.
  - split; [vm_compute; lia|reflexivity].
Defined.
