(* ===== verification/MemFd.v ===== *)
(** * Anonymous memory files: linux_memfd.rs

    The table of memfd slots and every operation of the file, as compiled for
    the kernel target, where creation, resizing and closing also call the
    process runtime that owns the pages. The runtime is the interface
    [SharedMemory]: the size it holds for an identity, and what its three calls
    do to it (process/x86_64.rs, [linux_shared_memory_*]). [truncate] releases
    the table lock around the runtime call, so its two critical sections are
    definitions of their own. *)

From stdpp Require Import prelude list numbers option gmap.
From Stdlib Require Import ZArith Lia.
From S2P Require Import Prelude.
From S2P Require Import Handles.
From S2P Require Import GenTable.
From S2P Require Import EventFd.

Definition MFD_CLOEXEC : Z := 0x0001.
Definition MFD_ALLOW_SEALING : Z := 0x0002.
Definition MFD_ALLOWED_FLAGS : Z := Z.lor MFD_CLOEXEC MFD_ALLOW_SEALING.
Definition MAXIMUM_MEMFD_NAME_BYTES : nat := 249.
Definition MAXIMUM_MEMFD_BYTES : Z := 1024 * 1024.

Definition MAXIMUM_MEMFDS : nat := 32.
Definition INDEX_BITS : Z := 6.

Inductive MemfdError :=
| InvalidArgument
| BadFileDescriptor
| Capacity
| PermissionDenied
| OperationNotSupported.

#[global] Instance MemfdError_eq_dec : EqDecision MemfdError.
Proof. solve_decision. Defined.

Record MemfdSnapshot := mkSnapshot {
  identity : Z;
  sn_size_bytes : Z;
  sn_flags : Z;
  sn_name_length : nat;
  sn_name : list Z;
}.

Record MemfdSlot := mkSlot {
  occupied : bool;
  m_generation : Z;
  m_owner : ProcessHandle;
  m_flags : Z;
  name_length : nat;
  name : list Z;
  size_bytes : Z;
  offset : Z;
}.

Definition EMPTY : MemfdSlot :=
  mkSlot false 0 NO_PROCESS 0 0 (replicate MAXIMUM_MEMFD_NAME_BYTES 0) 0 0.

Abbreviation Table := (list MemfdSlot).

(** The static table at boot. *)
Definition MEMFDS : Table := replicate MAXIMUM_MEMFDS EMPTY.

#[global] Program Instance memfd_slots : GenSlots MemfdSlot MemfdError := {
  gs_empty := EMPTY;
  gs_live := occupied;
  gs_generation := m_generation;
  gs_owner := m_owner;
  gs_bits := INDEX_BITS;
  gs_size := MAXIMUM_MEMFDS;
  gs_bad := BadFileDescriptor;
}.
Next Obligation. done. Qed.
Next Obligation. done. Qed.
Next Obligation. done. Qed.

Definition encode (index : nat) (gen : Z) : option Z :=
  encode_handle INDEX_BITS MAXIMUM_MEMFDS index gen.
Definition decode (handle : Z) : option (nat * Z) :=
  decode_handle INDEX_BITS MAXIMUM_MEMFDS handle.

Definition resolve (slots : Table) (own : ProcessHandle) (handle : Z) :
    Result (nat * MemfdSlot) MemfdError :=
  gs_resolve slots own handle.

(** ** The runtime that owns the pages *)

Class SharedMemory (R : Type) := {
  (** the size of an identity whose descriptor is open *)
  shm_size : R → Z → option Z;
  shm_create : Z → R → bool * R;
  shm_resize : Z → Z → Z → R → bool * R;
  shm_close : Z → R → bool * R;
  shm_create_spec : ∀ h r ok r', shm_create h r = (ok, r') →
    (if ok then shm_size r' h = Some 0 else shm_size r' h = shm_size r h) ∧
    ∀ h', h' ≠ h → shm_size r' h' = shm_size r h';
  (** the resize is refused unless the caller names the current size *)
  shm_resize_spec : ∀ h expected size r ok r', shm_resize h expected size r = (ok, r') →
    (if ok then shm_size r h = Some expected ∧ shm_size r' h = Some size
     else shm_size r' h = shm_size r h) ∧
    ∀ h', h' ≠ h → shm_size r' h' = shm_size r h';
  shm_close_spec : ∀ h r ok r', shm_close h r = (ok, r') →
    (if ok then shm_size r' h = None else shm_size r' h = shm_size r h) ∧
    ∀ h', h' ≠ h → shm_size r' h' = shm_size r h';
}.

Section Operations.
Context {R : Type} `{SM : !SharedMemory R}.

Record World := mkWorld {
  memfds : Table;
  runtime : R;
}.

Abbreviation WM := (M World MemfdError).

Definition set_memfds (t : Table) (w : World) : World := mkWorld t (runtime w).

(** A critical section under the table lock. *)
Definition locked {A} (m : M Table MemfdError A) : WM A :=
  zoom memfds set_memfds (λ e, e) m.

(** A runtime call; its failure is error [e]. *)
Definition call (f : R → bool * R) (e : MemfdError) : WM unit :=
  λ w, let '(ok, r') := f (runtime w) in
       (if ok then Ok tt else Err e, mkWorld (memfds w) r').

(** [name] copied to the front of a zeroed array *)
Definition stored_name (nm : list Z) : list Z :=
  nm ++ replicate (MAXIMUM_MEMFD_NAME_BYTES - length nm) 0.

(** The first critical section of [create]. *)
Definition create_slot (own : ProcessHandle) (nm : list Z) (flg : Z) :
    M Table MemfdError (nat * Z) :=
  slots ← getS;
  index ← ok_or (position (λ s, negb (occupied s)) slots) Capacity;
  gen ← ok_or (next_handle_generation INDEX_BITS (m_generation (slot_at EMPTY slots index)))
          Capacity;
  handle ← ok_or (encode index gen) Capacity;
  _ ← putS (<[index := mkSlot true gen own flg (length nm) (stored_name nm) 0 0]> slots);
  mret (index, handle).

(** [MemfdSlot { generation, ..MemfdSlot::EMPTY }] *)
Definition freed (gen : Z) : MemfdSlot :=
  mkSlot false gen NO_PROCESS 0 0 (replicate MAXIMUM_MEMFD_NAME_BYTES 0) 0 0.

(** The runtime call of [create]; when it fails the slot is freed again. *)
Definition create_backing (index : nat) (handle : Z) : WM Z := λ w,
  match call (shm_create handle) Capacity w with
  | (Ok _, w') => (Ok handle, w')
  | (Err e, w') =>
      let slots := memfds w' in
      (Err e, set_memfds (<[index := freed (m_generation (slot_at EMPTY slots index))]> slots) w')
  end.

Definition create (own : ProcessHandle) (nm : list Z) (flg : Z) : WM Z :=
  _ ← ensure (valid_owner own && (length nm <=? MAXIMUM_MEMFD_NAME_BYTES)%nat
              && negb (bool_decide (0 ∈ nm)) && (and_not flg MFD_ALLOWED_FLAGS =? 0)) InvalidArgument;
  '(index, handle) ← locked (create_slot own nm flg);
  create_backing index handle.

(** The two critical sections of [truncate]. *)
Definition truncate_observe (own : ProcessHandle) (handle : Z) :
    M Table MemfdError (nat * MemfdSlot) :=
  λ slots, (resolve slots own handle, slots).

Definition truncate_commit (own : ProcessHandle) (handle : Z) (index : nat) (current : MemfdSlot)
    (size : Z) : M Table MemfdError unit :=
  '(_, observed) ← truncate_observe own handle;
  _ ← ensure (size_bytes observed =? size_bytes current) PermissionDenied;
  modifyS (λ slots,
    let s := slot_at EMPTY slots index in
    <[index := mkSlot (occupied s) (m_generation s) (m_owner s) (m_flags s) (name_length s) (name s)
                 size (Z.min (offset s) size)]> slots).

Definition truncate (own : ProcessHandle) (handle size : Z) : WM unit :=
  _ ← ensure (size <=? MAXIMUM_MEMFD_BYTES) InvalidArgument;
  '(index, current) ← locked (truncate_observe own handle);
  _ ← call (shm_resize handle (size_bytes current) size) OperationNotSupported;
  locked (truncate_commit own handle index current size).

Definition seek (own : ProcessHandle) (handle off whence : Z) : WM Z :=
  locked (
    slots ← getS;
    '(index, slot) ← truncate_observe own handle;
    base ← (if whence =? 0 then mret 0
            else if whence =? 1 then mret (offset slot)
            else if whence =? 2 then mret (size_bytes slot)
            else throw InvalidArgument);
    let next := base + off in
    _ ← ensure ((0 <=? next) && (next <=? U64_MAX)) InvalidArgument;
    _ ← putS (<[index := mkSlot (occupied slot) (m_generation slot) (m_owner slot) (m_flags slot)
                          (name_length slot) (name slot) (size_bytes slot) next]> slots);
    mret next).

Definition snapshot (own : ProcessHandle) (handle : Z) : WM MemfdSnapshot :=
  locked (
    '(_, slot) ← truncate_observe own handle;
    mret (mkSnapshot handle (size_bytes slot) (m_flags slot) (name_length slot) (name slot))).

Definition readiness (own : ProcessHandle) (handle : Z) : WM Z :=
  locked (
    _ ← truncate_observe own handle;
    mret (Z.lor EventFd.READY_IN EventFd.READY_OUT)).

Definition close (own : ProcessHandle) (handle : Z) : WM unit :=
  '(index, _) ← locked (truncate_observe own handle);
  _ ← call (shm_close handle) PermissionDenied;
  locked (
    '(_, slot) ← truncate_observe own handle;
    modifyS (λ slots, <[index := freed (m_generation slot)]> slots)).
End Operations.

Arguments World : clear implicits.
#[local] Arguments truncate_observe : simpl never.
#[local] Arguments truncate_commit : simpl never.

(** ** The table *)

Record slot_wf (s : MemfdSlot) : Prop := {
  wf_generation : 0 ≤ m_generation s;
  wf_name : length (name s) = MAXIMUM_MEMFD_NAME_BYTES;
  wf_name_length : (name_length s ≤ MAXIMUM_MEMFD_NAME_BYTES)%nat;
  wf_size : 0 ≤ size_bytes s ≤ MAXIMUM_MEMFD_BYTES;
  wf_offset : is_u64 (offset s);
  (** a free slot keeps nothing but its generation *)
  wf_free : occupied s = false → s = freed (m_generation s);
}.

Definition table_wf (t : Table) : Prop :=
  length t = MAXIMUM_MEMFDS ∧ ∀ i s, t !! i = Some s → slot_wf s.

Lemma mfd_freed_wf g : 0 ≤ g → slot_wf (freed g).
Proof.
  intros Hg. split; unfold freed; cbn [m_generation name name_length size_bytes offset]; try done.
  unfold MAXIMUM_MEMFD_NAME_BYTES. lia.
Qed.

Lemma mfd_table_wf_boot : table_wf MEMFDS.
Proof.
  split; [done|]. intros i s [-> _]%lookup_replicate. by apply (mfd_freed_wf 0).
Qed.

Lemma mfd_table_wf_insert t i s : table_wf t → slot_wf s → table_wf (<[i := s]> t).
Proof.
  intros [Hl Hw] Hs. split; [by rewrite length_insert|].
  intros j x [(_ & <- & _)|[_ ?]]%lookup_insert_cases; eauto.
Qed.

Lemma names_wf t own h i s : table_wf t → names t own h i s → slot_wf s.
Proof. intros [_ Hw] (_ & Hi & _). by eapply Hw. Qed.

Lemma observe_cases t own h :
  (∃ i s, truncate_observe own h t = (Ok (i, s), t) ∧ names t own h i s) ∨
  truncate_observe own h t = (Err BadFileDescriptor, t).
Proof.
  unfold truncate_observe, resolve.
  destruct (gs_resolve_cases t own h) as [(i & s & -> & Hn)| ->]; eauto.
Qed.

Lemma observe_names t own h i s :
  names t own h i s → truncate_observe own h t = (Ok (i, s), t).
Proof. intros Hn. unfold truncate_observe, resolve. by rewrite (proj2 (gs_resolve_Ok _ _ _ _ _) Hn). Qed.

(** A handle is determined by its slot and generation. *)
Lemma decode_inj h h' x : gs_decode h = Some x → gs_decode h' = Some x → h = h'.
Proof.
  destruct x as [i g]. unfold gs_decode.
  intros (_ & _ & ->)%decode_handle_Some (_ & _ & ->)%decode_handle_Some;
    [done|apply gs_bits_range|apply gs_bits_range].
Qed.

(** The state after the first critical section of [create]. *)
Record created (own : ProcessHandle) (nm : list Z) (flg : Z) (t : Table)
    (i : nat) (h : Z) (s s' : MemfdSlot) : Prop := {
  cr_slot : t !! i = Some s;
  cr_free : occupied s = false;
  cr_new : s' = mkSlot true (m_generation s + 1) own flg (length nm) (stored_name nm) 0 0;
  cr_names : names (<[i := s']> t) own h i s';
}.

Lemma create_slot_run own nm flg t :
  table_wf t →
  create_slot own nm flg t = (Err Capacity, t) ∨
  ∃ i h s s', created own nm flg t i h s s' ∧
    create_slot own nm flg t = (Ok (i, h), <[i := s']> t).
Proof.
  intros [_ Hw]. unfold create_slot. m_unfold.
  destruct (position _ t) as [i|] eqn:Hp; [|by left].
  apply position_lookup in Hp as (s & Hi & Ho%negb_true_iff).
  rewrite (slot_at_Some _ _ _ _ Hi).
  destruct (next_handle_generation _ _) as [g|] eqn:Hn; [|by left].
  destruct (encode i g) as [h|] eqn:He; [|by left]. right.
  pose proof (proj1 (next_handle_generation_Some INDEX_BITS ltac:(done) _ _) Hn) as [-> _].
  exists i, h, s, (mkSlot true (m_generation s + 1) own flg (length nm) (stored_name nm) 0 0).
  split; [|done]. split; [done..|].
  by apply (fresh_handle t own i s); [|apply (Hw i s Hi)|..].
Qed.

(** ** The table and the runtime agree on sizes *)

Section Coherence.
Context {R : Type} `{SM : !SharedMemory R}.

Definition coherent (t : Table) (r : R) : Prop :=
  ∀ own h i s, names t own h i s → shm_size r h = Some (size_bytes s).

Record world_wf (w : World R) : Prop := {
  ww_table : table_wf (memfds w);
  ww_coherent : coherent (memfds w) (runtime w);
}.

(** Storing slot [i] after a runtime call on the handle [h] of that slot. *)
Lemma coherent_put t r r' i h g s' :
  gs_decode h = Some (i, g) →
  (∀ h', h' ≠ h → shm_size r' h' = shm_size r h') →
  (occupied s' = true → m_generation s' = g ∧ shm_size r' h = Some (size_bytes s')) →
  coherent t r → coherent (<[i := s']> t) r'.
Proof.
  intros Hd Hother Hs' Hc o' h' j x (Hd' & Hj & Hl & Ho).
  apply lookup_insert_cases in Hj as [(<- & <- & _)|[Hne Hj]].
  - destruct (Hs' Hl) as [Hg Hsz]. replace h' with h; [done|].
    eapply decode_inj; [exact Hd|]. by rewrite <- Hg.
  - rewrite Hother by congruence. by apply (Hc o' h' j x).
Qed.

Lemma coherent_ext t r r' :
  (∀ h, shm_size r' h = shm_size r h) → coherent t r → coherent t r'.
Proof. intros He Hc own h i s Hn. rewrite He. by eapply Hc. Qed.

(** A failed call changes no size. *)
Lemma sizes_same (r r' : R) h :
  shm_size r' h = shm_size r h → (∀ h', h' ≠ h → shm_size r' h' = shm_size r h') →
  ∀ h', shm_size r' h' = shm_size r h'.
Proof. intros He Ho h'. destruct (decide (h' = h)) as [->|]; auto. Qed.

Lemma create_world_wf own nm flg w : world_wf w → world_wf (create own nm flg w).2.
Proof.
  intros [Ht Hc]. unfold create, locked. m_unfold.
  destruct (valid_owner own && _ && _ && _) eqn:Hv; [|done].
  apply andb_true_iff in Hv as [[[_ Hlen]%andb_true_iff _]%andb_true_iff _].
  apply Nat.leb_le in Hlen.
  destruct (create_slot_run own nm flg (memfds w) Ht) as [->|(i & h & s & s' & Hcr & ->)];
    [by destruct w|].
  unfold create_backing, call. cbn [map_err set_memfds memfds runtime].
  destruct (shm_create h (runtime w)) as [ok r'] eqn:Hr. apply shm_create_spec in Hr as [Hh Ho].
  destruct Hcr as [Hi Hfree Hnew Hn]. destruct Hn as (Hd & Hi' & _).
  pose proof (proj2 Ht i s Hi) as Hs. pose proof (wf_generation _ Hs) as Hg.
  destruct ok; cbn [fst snd]; split; cbn [set_memfds memfds runtime].
  - apply mfd_table_wf_insert; [done|]. subst s'. split; cbn [m_generation name name_length size_bytes offset occupied]; try done.
    + lia.
    + unfold stored_name. rewrite length_app, length_replicate. lia.
  - apply (coherent_put _ (runtime w) _ _ h (gs_generation s')); try done. by subst s'.
  - rewrite list_insert_insert_eq. apply mfd_table_wf_insert; [done|]. apply mfd_freed_wf.
    rewrite (slot_at_Some _ _ _ _ Hi'). subst s'. simpl. lia.
  - rewrite list_insert_insert_eq.
    by apply (coherent_put _ (runtime w) _ _ h (gs_generation s')).
Qed.

(** The slot after a truncation. *)
Definition with_size (s : MemfdSlot) (size : Z) : MemfdSlot :=
  mkSlot (occupied s) (m_generation s) (m_owner s) (m_flags s) (name_length s) (name s)
    size (Z.min (offset s) size).

Lemma truncate_run own h size (w : World R) :
  truncate own h size w =
  if size <=? MAXIMUM_MEMFD_BYTES then
    match resolve (memfds w) own h with
    | Err e => (Err e, w)
    | Ok (i, s) =>
        let '(ok, r') := shm_resize h (size_bytes s) size (runtime w) in
        if ok then (Ok tt, mkWorld (<[i := with_size s size]> (memfds w)) r')
        else (Err OperationNotSupported, mkWorld (memfds w) r')
    end
  else (Err InvalidArgument, w).
Proof.
  unfold truncate, locked, call, truncate_commit, truncate_observe. m_unfold. destruct w as [t r]. simpl.
  destruct (size <=? MAXIMUM_MEMFD_BYTES); [|done]. simpl.
  destruct (resolve t own h) as [[i s]|e] eqn:Hres; [|done]. cbn.
  destruct (shm_resize h (size_bytes s) size r) as [[] r']; cbn; [|done].
  rewrite Hres, Z.eqb_refl. cbn. apply gs_resolve_Ok in Hres as (_ & Hi & _).
  by rewrite (slot_at_Some _ _ _ _ Hi).
Qed.

Lemma truncate_world_wf own h size w :
  world_wf w → 0 ≤ size → world_wf (truncate own h size w).2.
Proof.
  intros [Ht Hc] Hsize. rewrite truncate_run. destruct (Z.leb_spec size MAXIMUM_MEMFD_BYTES); [|done].
  unfold resolve. destruct (gs_resolve_cases (memfds w) own h) as [(i & s & -> & Hn)| ->]; [|done].
  destruct (shm_resize h (size_bytes s) size (runtime w)) as [ok r'] eqn:Hr.
  apply shm_resize_spec in Hr as [Hh Ho]. destruct (names_wf _ _ _ _ _ Ht Hn).
  destruct Hn as (Hd & Hi & Hl & _). simpl in Hl.
  destruct ok; split; cbn [fst snd memfds runtime]; try done.
  - apply mfd_table_wf_insert; [done|]. split; simpl; try done; [|congruence].
    unfold is_u64, MAXIMUM_MEMFD_BYTES in *. lia.
  - apply (coherent_put _ (runtime w) _ _ h (gs_generation s)); try done.
    intros _. split; [done|apply Hh].
  - eapply coherent_ext; [|done]. by apply sizes_same with h.
Qed.

(** The slot after a seek. *)
Definition with_offset (s : MemfdSlot) (next : Z) : MemfdSlot :=
  mkSlot (occupied s) (m_generation s) (m_owner s) (m_flags s) (name_length s) (name s)
    (size_bytes s) next.

Lemma seek_run own h off wh (w : World R) :
  (seek own h off wh w).2 = w ∨
  ∃ i s next, names (memfds w) own h i s ∧ is_u64 next ∧
    (seek own h off wh w).2 = set_memfds (<[i := with_offset s next]> (memfds w)) w.
Proof.
  unfold seek, locked. m_unfold. destruct w as [t r]. cbn [memfds set_memfds runtime].
  destruct (observe_cases t own h) as [(i & s & -> & Hn)| ->]; [|by left].
  destruct (wh =? 0), (wh =? 1), (wh =? 2); cbn;
    try (by left);
    match goal with |- context [(0 <=? ?n) && _] => destruct (Z.leb_spec 0 n), (Z.leb_spec n U64_MAX) end;
    cbn; first [by left|right; exists i, s; eexists; split; [done|]; split; [|done]; done].
Qed.

Lemma seek_world_wf own h off wh w : world_wf w → world_wf (seek own h off wh w).2.
Proof.
  intros [Ht Hc]. destruct (seek_run own h off wh w) as [->|(i & s & next & Hn & Hnext & ->)]; [done|].
  destruct (names_wf _ _ _ _ _ Ht Hn). pose proof Hn as (Hd & Hi & Hl & _). simpl in Hl.
  split; cbn [set_memfds memfds runtime].
  - apply mfd_table_wf_insert; [done|]. split; simpl; try done. congruence.
  - apply (coherent_put _ (runtime w) _ _ h (gs_generation s)); try done. intros _. split; [done|].
    by apply (Hc _ _ _ _ Hn).
Qed.

Lemma mfd_close_run own h (w : World R) :
  close own h w =
  match resolve (memfds w) own h with
  | Err e => (Err e, w)
  | Ok (i, s) =>
      let '(ok, r') := shm_close h (runtime w) in
      if ok then (Ok tt, mkWorld (<[i := freed (m_generation s)]> (memfds w)) r')
      else (Err PermissionDenied, mkWorld (memfds w) r')
  end.
Proof.
  unfold close, locked, call, truncate_observe. m_unfold. destruct w as [t r]. simpl.
  destruct (resolve t own h) as [[i s]|e] eqn:Hres; [|done]. cbn.
  destruct (shm_close h r) as [[] r']; cbn; [|done]. by rewrite Hres.
Qed.

Lemma close_world_wf own h w : world_wf w → world_wf (close own h w).2.
Proof.
  intros [Ht Hc]. rewrite mfd_close_run. unfold resolve.
  destruct (gs_resolve_cases (memfds w) own h) as [(i & s & -> & Hn)| ->]; [|done].
  destruct (shm_close h (runtime w)) as [ok r'] eqn:Hr. apply shm_close_spec in Hr as [Hh Ho]. pose proof (names_wf _ _ _ _ _ Ht Hn) as Hs.
  destruct Hn as (Hd & Hi & _). destruct ok; split; cbn [fst snd memfds runtime]; try done.
  - apply mfd_table_wf_insert; [done|]. apply mfd_freed_wf, Hs.
  - by apply (coherent_put _ (runtime w) _ _ h (gs_generation s)).
  - eapply coherent_ext; [|done]. by apply sizes_same with h.
Qed.

(** ** Runs of whole operations *)

Inductive Op :=
| OpCreate (own : ProcessHandle) (nm : list Z) (flg : Z)
| OpTruncate (own : ProcessHandle) (h size : Z)
| OpSeek (own : ProcessHandle) (h off whence : Z)
| OpClose (own : ProcessHandle) (h : Z).

Definition exec (op : Op) (w : World R) : World R :=
  match op with
  | OpCreate own nm flg => (create own nm flg w).2
  | OpTruncate own h size => (truncate own h size w).2
  | OpSeek own h off whence => (seek own h off whence w).2
  | OpClose own h => (close own h w).2
  end.

(** A size is a [usize]. *)
Definition op_in_range (op : Op) : Prop :=
  match op with OpTruncate _ _ size => 0 ≤ size | _ => True end.

Definition exec_all (ops : list Op) (w : World R) : World R := foldl (λ w op, exec op w) w ops.

Lemma mfd_exec_wf op w : world_wf w → op_in_range op → world_wf (exec op w).
Proof.
  intros Hw Hr. destruct op; simpl in *;
    [by apply create_world_wf|by apply truncate_world_wf|by apply seek_world_wf|by apply close_world_wf].
Qed.

Lemma mfd_exec_all_wf ops w : Forall op_in_range ops → world_wf w → world_wf (exec_all ops w).
Proof.
  intros Hops. revert w. induction Hops as [|op ops Hop _ IH]; intros w Hw; simpl; [done|].
  apply IH. by apply mfd_exec_wf.
Qed.

(** [create] in closed form. *)
Lemma mfd_create_run own nm flg (w : World R) :
  table_wf (memfds w) →
  (∃ e, create own nm flg w = (Err e, w)) ∨
  ∃ i h s s' ok r', created own nm flg (memfds w) i h s s' ∧ shm_create h (runtime w) = (ok, r') ∧
    create own nm flg w =
      if ok : bool then (Ok h, mkWorld (<[i := s']> (memfds w)) r')
      else (Err Capacity, mkWorld (<[i := freed (m_generation s')]> (memfds w)) r').
Proof.
  intros Ht. unfold create, locked. m_unfold.
  destruct (valid_owner own && _ && _ && _); [|left; eauto].
  destruct (create_slot_run own nm flg (memfds w) Ht) as [->|(i & h & s & s' & Hcr & ->)];
    [left; destruct w; eauto|]. right.
  destruct (shm_create h (runtime w)) as [ok r'] eqn:Hr.
  exists i, h, s, s', ok, r'. split; [done|]. split; [done|].
  unfold create_backing, call. simpl. rewrite Hr. destruct ok; [done|]. simpl.
  destruct Hcr as [Hi _ _ (_ & Hi' & _)]. rewrite (slot_at_Some _ _ _ _ Hi').
  unfold set_memfds. simpl. by rewrite list_insert_insert_eq.
Qed.

Lemma exec_evolves op w : table_wf (memfds w) → evolves (memfds w) (memfds (exec op w)).
Proof.
  intros Ht. destruct op as [own nm flg|own h size|own h off wh|own h]; simpl.
  - destruct (mfd_create_run own nm flg w Ht) as [[e ->]|(i & h & s & s' & ok & r' & [Hi Hf Hnew _] & _ & ->)];
      [done|]. destruct ok; simpl; (eapply evolves_insert; [done|]);
      apply slot_evolves_next; subst s'; simpl; lia.
  - rewrite truncate_run. destruct (size <=? _); [|done]. unfold resolve.
    destruct (gs_resolve_cases (memfds w) own h) as [(i & s & -> & _ & Hi & _)| ->]; [|done].
    destruct (shm_resize _ _ _ _) as [[] r']; simpl; [|done].
    eapply evolves_insert; [done|]. by apply slot_evolves_same.
  - destruct (seek_run own h off wh w) as [->|(i & s & next & (_ & Hi & _) & _ & ->)]; [done|].
    simpl. eapply evolves_insert; [done|]. by apply slot_evolves_same.
  - rewrite mfd_close_run. unfold resolve.
    destruct (gs_resolve_cases (memfds w) own h) as [(i & s & -> & _ & Hi & _)| ->]; [|done].
    destruct (shm_close _ _) as [[] r']; simpl; [|done].
    eapply evolves_insert; [done|]. by apply slot_evolves_freed.
Qed.

Lemma exec_all_evolves ops w :
  world_wf w → Forall op_in_range ops → evolves (memfds w) (memfds (exec_all ops w)).
Proof.
  intros Hw Hops. revert w Hw. induction Hops as [|op ops Hop _ IH]; intros w Hw; simpl; [done|].
  etransitivity; [apply exec_evolves, Hw|]. apply IH. by apply mfd_exec_wf.
Qed.

(** ** Properties *)

(** C26. Run one after the other, the memfd operations keep the table and the
    runtime that owns the pages in agreement: for every live handle the runtime
    holds exactly the size the table records, sizes stay within the limit, and
    a free slot keeps nothing but its generation. This holds for every runtime
    that meets the [SharedMemory] interface. *)
Theorem memfd_sequential_coherent (ops : list Op) (r : R) :
  Forall op_in_range ops → world_wf (exec_all ops (mkWorld MEMFDS r)).
Proof.
  intros Hops. apply mfd_exec_all_wf; [done|]. split; [apply mfd_table_wf_boot|].
  intros own h i s (_ & [-> _]%lookup_replicate & Hl & _). done.
Qed.

(** The life of a handle: a new memfd has the given name and flags and size
    0; whatever whole operations run meanwhile, once its handle is closed it
    resolves for nobody ever again, even after its slot is reused. *)
Theorem memfd_handle_lifecycle (w w1 w3 : World R) (own own' : ProcessHandle) (nm : list Z)
    (flg h : Z) (ops ops' : list Op) :
  world_wf w → Forall op_in_range ops → Forall op_in_range ops' →
  create own nm flg w = (Ok h, w1) → close own h (exec_all ops w1) = (Ok tt, w3) →
  snapshot own h w1 = (Ok (mkSnapshot h 0 flg (length nm) (stored_name nm)), w1) ∧
  resolve (memfds (exec_all ops' w3)) own' h = Err BadFileDescriptor.
Proof.
  intros Hw Hops Hops' Hc Hcl.
  pose proof (create_world_wf own nm flg w Hw) as Hw1. rewrite Hc in Hw1. simpl in Hw1.
  pose proof (mfd_exec_all_wf ops w1 Hops Hw1) as Hw2.
  pose proof (close_world_wf own h _ Hw2) as Hw3. rewrite Hcl in Hw3. simpl in Hw3. split.
  - destruct (mfd_create_run own nm flg w (ww_table _ Hw))
      as [[e Hrun]|(i & h' & s & s' & ok & r' & [_ _ Hnew Hn] & _ & Hrun)];
      rewrite Hrun in Hc; [done|]. destruct ok; [|done]. injection Hc as -> <-.
    unfold snapshot, locked, truncate_observe, resolve. m_unfold. simpl.
    rewrite (proj2 (gs_resolve_Ok _ _ _ _ _) Hn). by subst s'.
  - rewrite mfd_close_run in Hcl. unfold resolve in *.
    destruct (gs_resolve_cases (memfds (exec_all ops w1)) own h) as [(i & s & Hres & Hn)|Hres];
      rewrite Hres in Hcl; [|done].
    destruct (shm_close _ _) as [[] r']; [|done]. injection Hcl as <-.
    pose proof Hn as (_ & Hi & _). apply (dead_handle _ _ _ _ _ _ _ Hn
      (evolves_insert _ i s (freed (m_generation s)) Hi ltac:(by apply slot_evolves_freed))).
    + intros s' Hs' _. apply lookup_insert_cases in Hs' as [(_ & <- & _)|[? _]]; done.
    + by apply (exec_all_evolves ops' _ Hw3).
Qed.

(** ** Interleaved truncations

    Between its critical sections a [truncate] holds no lock, so the phases of
    several calls may interleave. *)

Inductive Pending :=
| Observed (own : ProcessHandle) (h : Z) (index : nat) (current : MemfdSlot) (size : Z)
| Resized (own : ProcessHandle) (h : Z) (index : nat) (current : MemfdSlot) (size : Z).

Inductive Phase :=
| PhObserve (tid : nat) (own : ProcessHandle) (h size : Z)
| PhResize (tid : nat)
| PhCommit (tid : nat).

Definition phase (ph : Phase) (st : World R * gmap nat Pending) : World R * gmap nat Pending :=
  let '(w, p) := st in
  match ph with
  | PhObserve tid own h size =>
      if size <=? MAXIMUM_MEMFD_BYTES then
        match locked (truncate_observe own h) w with
        | (Ok (i, current), w') => (w', <[tid := Observed own h i current size]> p)
        | (Err _, w') => (w', p)
        end
      else st
  | PhResize tid =>
      match p !! tid with
      | Some (Observed own h i current size) =>
          match call (shm_resize h (size_bytes current) size) OperationNotSupported w with
          | (Ok _, w') => (w', <[tid := Resized own h i current size]> p)
          | (Err _, w') => (w', delete tid p)
          end
      | _ => st
      end
  | PhCommit tid =>
      match p !! tid with
      | Some (Resized own h i current size) =>
          ((locked (truncate_commit own h i current size) w).2, delete tid p)
      | _ => st
      end
  end.

Definition run_phases (phs : list Phase) (st : World R * gmap nat Pending) :
    World R * gmap nat Pending := foldl (λ st ph, phase ph st) st phs.

(** The phases of one call, back to back, are the whole operation. *)
Lemma truncate_phases tid own h size (w : World R) :
  run_phases [PhObserve tid own h size; PhResize tid; PhCommit tid] (w, ∅) =
    ((truncate own h size w).2, ∅).
Proof.
  unfold run_phases, truncate. m_unfold. simpl.
  destruct (size <=? MAXIMUM_MEMFD_BYTES); simpl; [|by rewrite !lookup_empty].
  destruct (resolve (memfds w) own h) as [[i current]|e]; simpl; [|by rewrite !lookup_empty].
  rewrite lookup_insert_eq. set (w1 := set_memfds _ w).
  destruct (call _ _ w1) as [[u|e] w2]; simpl.
  - rewrite insert_insert_eq, lookup_insert_eq. by rewrite delete_insert_id.
  - by rewrite delete_insert_id, lookup_empty.
Qed.
End Coherence.

(** A runtime that keeps one size per open identity. *)
#[global] Program Instance map_runtime : SharedMemory (gmap Z Z) := {
  shm_size := λ r h, r !! h;
  shm_create := λ h r, match r !! h with Some _ => (false, r) | None => (true, <[h := 0]> r) end;
  shm_resize := λ h expected size r,
    if decide (r !! h = Some expected) then (true, <[h := size]> r) else (false, r);
  shm_close := λ h r, match r !! h with Some _ => (true, delete h r) | None => (false, r) end;
}.
Next Obligation.
  simpl. intros h r ok r'. destruct (r !! h) eqn:E; intros [= <- <-]; [done|].
  split; [apply lookup_insert_eq|]. intros. by apply lookup_insert_ne.
Qed.
Next Obligation.
  simpl. intros h expected size r ok r'. destruct (decide _) as [E|E]; intros [= <- <-]; [|done].
  split; [split; [done|apply lookup_insert_eq]|]. intros. by apply lookup_insert_ne.
Qed.
Next Obligation.
  simpl. intros h r ok r'. destruct (r !! h) eqn:E; intros [= <- <-]; [|done].
  split; [apply lookup_delete_eq|]. intros. by apply lookup_delete_ne.
Qed.

Definition sample_owner : ProcessHandle := mkHandle 4 9.
Definition sample_ops : list Op :=
  [OpCreate sample_owner [97; 98] MFD_CLOEXEC; OpTruncate sample_owner 65 8192].
(** Handle 65 names a memfd of 8192 bytes. *)
Definition sample_world : World (gmap Z Z) := exec_all sample_ops (mkWorld MEMFDS ∅).

(** Interleaved truncations of one memfd can leave the table and the
    runtime with different sizes although every call has returned: a call that
    observed 8192 bytes is overtaken by a complete truncation to 4096 and by
    the runtime half of one back to 8192; its own resize then succeeds on the
    recycled size, its commit is refused, and the other commit records 8192
    bytes where the runtime holds 12288. *)
Theorem memfd_truncate_race :
  let '(w, p) := run_phases
    [PhObserve 3 sample_owner 65 12288;
     PhObserve 4 sample_owner 65 4096; PhResize 4; PhCommit 4;
     PhObserve 1 sample_owner 65 8192; PhResize 1;
     PhResize 3; PhCommit 3; PhCommit 1] (sample_world, ∅) in
  p = ∅ ∧
  (snapshot sample_owner 65 sample_world).1 =
    Ok (mkSnapshot 65 8192 MFD_CLOEXEC 2 (stored_name [97; 98])) ∧
  (snapshot sample_owner 65 w).1 =
    Ok (mkSnapshot 65 8192 MFD_CLOEXEC 2 (stored_name [97; 98])) ∧
  shm_size (runtime sample_world) 65 = Some 8192 ∧ shm_size (runtime w) 65 = Some 12288.
Proof. vm_compute. split_and!; reflexivity. Qed.

(** ** Witnesses *)

Lemma mfd_sample_ops_in_range : Forall op_in_range sample_ops.
Proof. repeat constructor; simpl; lia. Qed.

Lemma memfd_sequential_coherent_witness : world_wf sample_world.
Proof. apply (memfd_sequential_coherent sample_ops ∅). exact mfd_sample_ops_in_range. Defined.

Lemma boot_world_wf : world_wf (mkWorld MEMFDS (∅ : gmap Z Z)).
Proof. apply (mfd_exec_all_wf []); [done|]. split; [apply mfd_table_wf_boot|].
  by intros own h i s (_ & [-> _]%lookup_replicate & Hl & _). Qed.

Lemma memfd_handle_lifecycle_witness :
  let w1 := (create sample_owner [97; 98] MFD_CLOEXEC (mkWorld MEMFDS (∅ : gmap Z Z))).2 in
  snapshot sample_owner 65 w1 =
    (Ok (mkSnapshot 65 0 MFD_CLOEXEC 2 (stored_name [97; 98])), w1) ∧
  resolve (memfds (exec_all [OpCreate sample_owner [99] 0]
    (close sample_owner 65 (exec_all [OpTruncate sample_owner 65 4096] w1)).2)) sample_owner 65
    = Err BadFileDescriptor.
Proof.
  apply (memfd_handle_lifecycle (mkWorld MEMFDS (∅ : gmap Z Z)) _ _ sample_owner sample_owner [97; 98]
    MFD_CLOEXEC 65 [OpTruncate sample_owner 65 4096] [OpCreate sample_owner [99] 0]).
  - exact boot_world_wf.
  - repeat constructor; simpl; lia.
  - repeat constructor.
  - vm_compute. reflexivity.
  - vm_compute. reflexivity.
Defined.
