(* ===== verification/UnixDgram.v ===== *)
(** * Unix datagram sockets: linux_unix_dgram.rs

    The endpoint table with its bounded message queues and every operation of
    the file. The queue of an endpoint is a ring (RingQueue.v); the theorems are
    about the list of messages it stands for. *)

From stdpp Require Import prelude list numbers option.
From Stdlib Require Import ZArith Lia.
From S2P Require Import Prelude.
From S2P Require Import Handles.
From S2P Require Import RingQueue.
From S2P Require Import GenTable.
From S2P Require Import EventFd.
From S2P Require Import UnixAddress.

#[local] Arguments Nat.modulo : simpl never.

Definition SOCKET_BUFFER_BYTES : nat := Z.to_nat 4096.

Definition SOCK_DGRAM : Z := 2.
Definition MSG_PEEK : Z := 0x2.
Definition MSG_DONTWAIT : Z := 0x40.
Definition MSG_NOSIGNAL : Z := 0x4000.
Definition SEND_FLAGS : Z := Z.lor MSG_DONTWAIT MSG_NOSIGNAL.
Definition RECEIVE_FLAGS : Z := Z.lor MSG_PEEK MSG_DONTWAIT.
Definition MAXIMUM_DATAGRAM_BYTES : nat := SOCKET_BUFFER_BYTES.

Definition MAXIMUM_ENDPOINTS : nat := 32.
Definition MAXIMUM_QUEUE_LENGTH : nat := 32.
Definition ENDPOINT_INDEX_BITS : Z := 8.

Arguments SOCKET_BUFFER_BYTES : simpl never.
Arguments MAXIMUM_DATAGRAM_BYTES : simpl never.
Arguments MAXIMUM_QUEUE_LENGTH : simpl never.

Inductive DatagramError :=
| InvalidArgument
| BadFileDescriptor
| AddressInUse
| ConnectionRefused
| NotConnected
| WouldBlock
| Capacity
| OperationNotSupported.

#[global] Instance DatagramError_eq_dec : EqDecision DatagramError.
Proof. solve_decision. Defined.

Record ReceivedDatagram := mkReceived {
  rd_bytes : nat;
  rd_sender : ProcessHandle;
  rd_sender_address : UnixAddress;
  truncated : bool;
}.

Record Datagram := mkDatagram {
  sender : ProcessHandle;
  sender_address : UnixAddress;
  d_length : nat;
  d_bytes : list Z;
}.

Definition ZERO_PAYLOAD : list Z := replicate MAXIMUM_DATAGRAM_BYTES 0.
Arguments ZERO_PAYLOAD : simpl never.
Definition EMPTY_DATAGRAM : Datagram := mkDatagram NO_PROCESS UNNAMED 0 ZERO_PAYLOAD.
Arguments EMPTY_DATAGRAM : simpl never.

Record Endpoint := mkEndpoint {
  e_owner : ProcessHandle;
  e_generation : Z;
  address : UnixAddress;
  e_bound : bool;
  e_passcred : bool;
  queue_head : nat;
  queue_length : nat;
  queue : list Datagram;
  readiness_gen : Z;
}.

Definition EMPTY_QUEUE : list Datagram := replicate MAXIMUM_QUEUE_LENGTH EMPTY_DATAGRAM.
Arguments EMPTY_QUEUE : simpl never.

(** [Endpoint { owner, generation, ..Endpoint::EMPTY }] *)
Definition fresh_endpoint (own : ProcessHandle) (gen : Z) : Endpoint :=
  mkEndpoint own gen UNNAMED false false 0 0 EMPTY_QUEUE 0.
Definition EMPTY : Endpoint := fresh_endpoint NO_PROCESS 0.

Definition occupied (e : Endpoint) : bool := valid_owner (e_owner e).

Abbreviation Table := (list Endpoint).
Abbreviation DM := (M Table DatagramError).

(** The static table at boot. *)
Definition ENDPOINTS : Table := replicate MAXIMUM_ENDPOINTS EMPTY.

#[global] Program Instance dgram_slots : GenSlots Endpoint DatagramError := {
  gs_empty := EMPTY;
  gs_live := occupied;
  gs_generation := e_generation;
  gs_owner := e_owner;
  gs_bits := ENDPOINT_INDEX_BITS;
  gs_size := MAXIMUM_ENDPOINTS;
  gs_bad := BadFileDescriptor;
}.
Next Obligation. done. Qed.
Next Obligation. done. Qed.
Next Obligation. done. Qed.

Definition next_generation (current : Z) : option Z :=
  next_handle_generation ENDPOINT_INDEX_BITS current.
Definition encode (index : nat) (gen : Z) : option Z :=
  encode_handle ENDPOINT_INDEX_BITS MAXIMUM_ENDPOINTS index gen.
Definition decode (handle : Z) : option (nat * Z) :=
  decode_handle ENDPOINT_INDEX_BITS MAXIMUM_ENDPOINTS handle.

(** The slot the returned reference points to, and its index. *)
Definition endpoint (own : ProcessHandle) (handle : Z) : DM (nat * Endpoint) :=
  λ table, (gs_resolve table own handle, table).

Definition set_endpoint (index : nat) (e : Endpoint) : DM unit :=
  modifyS (λ table, <[index := e]> table).

Definition create (own : ProcessHandle) : DM Z :=
  _ ← ensure (valid_owner own) InvalidArgument;
  table ← getS;
  index ← ok_or (position (λ e, negb (occupied e)) table) Capacity;
  gen ← ok_or (next_generation (e_generation (slot_at EMPTY table index))) Capacity;
  _ ← set_endpoint index (fresh_endpoint own gen);
  ok_or (encode index gen) Capacity.

(** [slot.occupied() && slot.bound && slot.address == address] *)
Definition bound_at (a : UnixAddress) (e : Endpoint) : bool :=
  occupied e && e_bound e && bool_decide (address e = a).

Definition bind (own : ProcessHandle) (handle : Z) (a : UnixAddress) : DM unit :=
  _ ← ensure (negb (is_unnamed a)) InvalidArgument;
  '(index, slot) ← endpoint own handle;
  _ ← ensure (negb (e_bound slot)) InvalidArgument;
  table ← getS;
  _ ← ensure (negb (existsb (bound_at a) table)) AddressInUse;
  set_endpoint index
    (mkEndpoint (e_owner slot) (e_generation slot) a true (e_passcred slot)
       (queue_head slot) (queue_length slot) (queue slot) (readiness_gen slot)).

Definition set_passcred (own : ProcessHandle) (handle : Z) (enabled : bool) : DM unit :=
  '(index, slot) ← endpoint own handle;
  set_endpoint index
    (mkEndpoint (e_owner slot) (e_generation slot) (address slot) (e_bound slot) enabled
       (queue_head slot) (queue_length slot) (queue slot) (readiness_gen slot)).

Definition passcred (own : ProcessHandle) (handle : Z) : DM bool :=
  '(_, slot) ← endpoint own handle;
  mret (e_passcred slot).

Definition with_queue (e : Endpoint) (hd n : nat) (q : list Datagram) (gen : Z) : Endpoint :=
  mkEndpoint (e_owner e) (e_generation e) (address e) (e_bound e) (e_passcred e) hd n q gen.

(** The datagram [send] builds: the payload in front of a zeroed buffer. *)
Definition datagram_of (own : ProcessHandle) (from : UnixAddress) (input : list Z) : Datagram :=
  mkDatagram own from (length input) (input ++ drop (length input) ZERO_PAYLOAD).

Definition send (own : ProcessHandle) (handle : Z) (destination : UnixAddress)
    (input : list Z) (flags : Z) : DM nat :=
  _ ← ensure ((and_not flags SEND_FLAGS =? 0)
              && (length input <=? MAXIMUM_DATAGRAM_BYTES)%nat) InvalidArgument;
  '(_, origin) ← endpoint own handle;
  _ ← ensure (negb (e_bound origin && bool_decide (destination = address origin))) ConnectionRefused;
  let from := if e_bound origin then address origin else UNNAMED in
  table ← getS;
  destination_index ← ok_or (position (bound_at destination) table) ConnectionRefused;
  let target := slot_at EMPTY table destination_index in
  _ ← ensure (negb (MAXIMUM_QUEUE_LENGTH <=? queue_length target)%nat) WouldBlock;
  let queue_index := ((queue_head target + queue_length target) mod MAXIMUM_QUEUE_LENGTH)%nat in
  let gen := if (queue_length target =? 0)%nat
             then wrapping_add U64_MAX (readiness_gen target) 1 else readiness_gen target in
  _ ← set_endpoint destination_index
        (with_queue target (queue_head target) (queue_length target + 1)
           (<[queue_index := datagram_of own from input]> (queue target)) gen);
  mret (length input).

(** Returns the description and the output buffer. *)
Definition receive (own : ProcessHandle) (handle : Z) (output : list Z) (flags : Z) :
    DM (ReceivedDatagram * list Z) :=
  _ ← ensure (and_not flags RECEIVE_FLAGS =? 0) InvalidArgument;
  '(index, slot) ← endpoint own handle;
  _ ← ensure (negb (queue_length slot =? 0)%nat) WouldBlock;
  let queue_index := queue_head slot in
  let datagram := slot_at EMPTY_DATAGRAM (queue slot) queue_index in
  let requested := d_length datagram in
  let copied := (requested `min` length output)%nat in
  let output' := take copied (d_bytes datagram) ++ drop copied output in
  let cut := (copied <? requested)%nat in
  _ ← (if Z.land flags MSG_PEEK =? 0 then
         let n := (queue_length slot - 1)%nat in
         set_endpoint index
           (with_queue slot ((queue_index + 1) mod MAXIMUM_QUEUE_LENGTH)%nat n
              (<[queue_index := EMPTY_DATAGRAM]> (queue slot))
              (if (n =? 0)%nat then wrapping_add U64_MAX (readiness_gen slot) 1
               else readiness_gen slot))
       else mret tt);
  mret (mkReceived copied (sender datagram) (sender_address datagram) cut, output').

Definition readiness (own : ProcessHandle) (handle : Z) : DM Z :=
  '(_, slot) ← endpoint own handle;
  mret (Z.lor EventFd.READY_OUT (if negb (queue_length slot =? 0)%nat then EventFd.READY_IN else 0)).

Definition readiness_generation (own : ProcessHandle) (handle : Z) : DM Z :=
  '(_, slot) ← endpoint own handle;
  mret (readiness_gen slot).

Definition local_address (own : ProcessHandle) (handle : Z) : DM UnixAddress :=
  '(_, slot) ← endpoint own handle;
  mret (address slot).

Definition bound (a : UnixAddress) (table : Table) : bool := existsb (bound_at a) table.

Definition peer_address (own : ProcessHandle) (handle : Z) : DM UnixAddress :=
  '(_, slot) ← endpoint own handle;
  if e_bound slot then mret UNNAMED else throw NotConnected.

(** [Endpoint { generation: previous, ..Endpoint::EMPTY }] *)
Definition freed (e : Endpoint) : Endpoint := fresh_endpoint NO_PROCESS (e_generation e).

Definition close (own : ProcessHandle) (handle : Z) : DM unit :=
  '(index, slot) ← endpoint own handle;
  set_endpoint index (freed slot).

Definition close_all (own : ProcessHandle) (table : Table) : nat * Table :=
  if negb (valid_owner own) then (O, table)
  else (countb (λ e, handle_eqb (e_owner e) own) table,
        update_where (λ e, handle_eqb (e_owner e) own) freed table).

(** ** The queue of an endpoint as a list of messages *)

Record Message := mkMessage {
  m_sender : ProcessHandle;
  m_address : UnixAddress;
  m_payload : list Z;
}.

Definition message_of (d : Datagram) : Message :=
  mkMessage (sender d) (sender_address d) (take (d_length d) (d_bytes d)).

Definition queued (e : Endpoint) : list Datagram :=
  ring_view EMPTY_DATAGRAM MAXIMUM_QUEUE_LENGTH (queue e) (queue_head e) (queue_length e).
Definition messages (e : Endpoint) : list Message := message_of <$> queued e.

Lemma message_of_datagram own from input :
  message_of (datagram_of own from input) = mkMessage own from input.
Proof. unfold message_of, datagram_of. simpl. by rewrite take_app_length. Qed.

Record endpoint_wf (e : Endpoint) : Prop := {
  wf_generation : 0 ≤ e_generation e;
  wf_head : (queue_head e < MAXIMUM_QUEUE_LENGTH)%nat;
  wf_length : (queue_length e ≤ MAXIMUM_QUEUE_LENGTH)%nat;
  wf_queue : length (queue e) = MAXIMUM_QUEUE_LENGTH;
  wf_gen : is_u64 (readiness_gen e);
  wf_payloads : Forall (λ d, (d_length d ≤ length (d_bytes d))%nat) (queue e);
  (** nothing survives in a free slot but its generation *)
  wf_free : occupied e = false → e = fresh_endpoint NO_PROCESS (e_generation e);
}.

Record table_wf (t : Table) : Prop := {
  wf_size : length t = MAXIMUM_ENDPOINTS;
  wf_endpoint i e : t !! i = Some e → endpoint_wf e;
  (** at most one live endpoint is bound at an address *)
  wf_unique i j e e' a : t !! i = Some e → t !! j = Some e' →
    bound_at a e = true → bound_at a e' = true → i = j;
}.

Lemma queue_capacity_pos : (0 < MAXIMUM_QUEUE_LENGTH)%nat.
Proof. unfold MAXIMUM_QUEUE_LENGTH. lia. Qed.

Lemma dgram_fresh_endpoint_wf own g : 0 ≤ g → own = NO_PROCESS ∨ valid_owner own = true →
  endpoint_wf (fresh_endpoint own g).
Proof.
  intros Hg Ho. pose proof queue_capacity_pos.
  split; cbn [fresh_endpoint e_generation queue_head queue_length queue readiness_gen]; try done; try lia.
  - apply Forall_replicate. apply Nat.le_0_l.
  - unfold occupied. simpl. destruct Ho as [->| ->]; done.
Qed.

Lemma fresh_endpoint_unbound a own g : bound_at a (fresh_endpoint own g) = false.
Proof. unfold bound_at. simpl. by rewrite andb_false_r. Qed.

Lemma bound_at_inv a e : bound_at a e = true → occupied e = true ∧ e_bound e = true ∧ address e = a.
Proof.
  unfold bound_at. rewrite !andb_true_iff, bool_decide_eq_true. tauto.
Qed.

Lemma dgram_table_wf_boot : table_wf ENDPOINTS.
Proof.
  split; [apply length_replicate|..].
  - intros i e [-> _]%lookup_replicate. apply dgram_fresh_endpoint_wf; [done|by left].
  - intros i j e e' a [-> _]%lookup_replicate _ Hb. unfold EMPTY in Hb. by rewrite fresh_endpoint_unbound in Hb.
Qed.

(** Storing an endpoint bound where the old one was, unbound, or bound at an
    address nobody uses. *)
Lemma dgram_table_wf_insert t i e e' :
  table_wf t → t !! i = Some e → endpoint_wf e' →
  (∀ a, bound_at a e' = true → bound_at a e = true ∨ existsb (bound_at a) t = false) →
  table_wf (<[i := e']> t).
Proof.
  intros [Hs He Hu] Hi Hw Hb. split; [by rewrite length_insert|..].
  - intros j x [(_ & <- & _)|[_ ?]]%lookup_insert_cases; eauto.
  - assert (∀ j x a, j ≠ i → t !! j = Some x → bound_at a x = true → bound_at a e' = true → False) as Hd.
    { intros j x a Hne Hj Hx He'. destruct (Hb a He') as [Hold|Hnone].
      - by destruct (Hne (Hu j i x e a Hj Hi Hx Hold)).
      - apply not_true_iff_false in Hnone. apply Hnone, existsb_exists. exists x.
        split; [|done]. apply list_elem_of_In. by eapply list_elem_of_lookup_2. }
    intros j k x y a [(<- & <- & _)|[Hj Hx]]%lookup_insert_cases
      [(<- & <- & _)|[Hk Hy]]%lookup_insert_cases Hbx Hby; [done| | |by eapply Hu].
    + destruct (Hd k y a); congruence.
    + destruct (Hd j x a); congruence.
Qed.

Lemma with_queue_bound a e hd n q g : bound_at a (with_queue e hd n q g) = bound_at a e.
Proof. done. Qed.

Lemma endpoint_cases t own h :
  (∃ i e, endpoint own h t = (Ok (i, e), t) ∧ names t own h i e) ∨
  endpoint own h t = (Err BadFileDescriptor, t).
Proof.
  unfold endpoint. destruct (gs_resolve_cases t own h) as [(i & e & -> & Hn)| ->]; eauto.
Qed.

(** ** Operations in closed form *)

Definition origin_address (e : Endpoint) : UnixAddress := if e_bound e then address e else UNNAMED.

(** The endpoint after [d] is queued and after the head is taken. *)
Definition enqueue (d : Datagram) (e : Endpoint) : Endpoint :=
  with_queue e (queue_head e) (queue_length e + 1)
    (<[((queue_head e + queue_length e) mod MAXIMUM_QUEUE_LENGTH)%nat := d]> (queue e))
    (if (queue_length e =? 0)%nat then wrapping_add U64_MAX (readiness_gen e) 1
     else readiness_gen e).
Definition dequeue (e : Endpoint) : Endpoint :=
  with_queue e ((queue_head e + 1) mod MAXIMUM_QUEUE_LENGTH)%nat (queue_length e - 1)
    (<[queue_head e := EMPTY_DATAGRAM]> (queue e))
    (if (queue_length e - 1 =? 0)%nat then wrapping_add U64_MAX (readiness_gen e) 1
     else readiness_gen e).

Lemma enqueue_queued d e :
  endpoint_wf e → (queue_length e < MAXIMUM_QUEUE_LENGTH)%nat →
  queued (enqueue d e) = queued e ++ [d].
Proof.
  intros [_ Hh Hl Hq _ _ _] Hn. unfold queued, enqueue. simpl.
  rewrite Nat.add_1_r. by apply ring_view_insert.
Qed.

Lemma dequeue_queued e :
  endpoint_wf e → queue_length e ≠ O →
  queued e = slot_at EMPTY_DATAGRAM (queue e) (queue_head e) :: queued (dequeue e).
Proof.
  intros [_ Hh Hl Hq _ _ _] Hn. unfold queued, dequeue. simpl.
  rewrite ring_view_insert_head by lia. rewrite <- ring_view_S by done. f_equal. lia.
Qed.

Lemma enqueue_wf d e :
  endpoint_wf e → (queue_length e < MAXIMUM_QUEUE_LENGTH)%nat → occupied e = true →
  (d_length d ≤ length (d_bytes d))%nat → endpoint_wf (enqueue d e).
Proof.
  intros [] Hn Ho Hd. split; simpl; try done; try lia.
  - by rewrite length_insert.
  - destruct (_ =? 0)%nat; [|done]. by apply wrapping_add_range.
  - by apply Forall_insert.
  - unfold occupied in *. simpl. congruence.
Qed.

Lemma dequeue_wf_endpoint e :
  endpoint_wf e → occupied e = true → endpoint_wf (dequeue e).
Proof.
  intros [] Ho. split; simpl; try done; try lia.
  - apply Nat.mod_upper_bound. pose proof queue_capacity_pos. lia.
  - by rewrite length_insert.
  - destruct (_ =? 0)%nat; [|done]. by apply wrapping_add_range.
  - apply Forall_insert; [done|]. apply Nat.le_0_l.
  - unfold occupied in *. simpl. congruence.
Qed.

Lemma datagram_of_fits own from input :
  (d_length (datagram_of own from input) ≤ length (d_bytes (datagram_of own from input)))%nat.
Proof. simpl. rewrite length_app. lia. Qed.

Lemma dgram_send_run own h dest input flags t :
  send own h dest input flags t =
  if (and_not flags SEND_FLAGS =? 0) && (length input <=? MAXIMUM_DATAGRAM_BYTES)%nat then
    match gs_resolve t own h with
    | Err e => (Err e, t)
    | Ok (_, o) =>
        if e_bound o && bool_decide (dest = address o) then (Err ConnectionRefused, t)
        else
          match position (bound_at dest) t with
          | None => (Err ConnectionRefused, t)
          | Some j =>
              let target := slot_at EMPTY t j in
              if (MAXIMUM_QUEUE_LENGTH <=? queue_length target)%nat then (Err WouldBlock, t)
              else (Ok (length input),
                    <[j := enqueue (datagram_of own (origin_address o) input) target]> t)
          end
    end
  else (Err InvalidArgument, t).
Proof.
  unfold send, endpoint, set_endpoint. m_unfold. destruct (_ && _); [|done].
  destruct (gs_resolve t own h) as [[i o]|e]; [|done].
  destruct (e_bound o && _); cbv [negb]; [done|].
  destruct (position (bound_at dest) t) as [j|]; [|done].
  by destruct (MAXIMUM_QUEUE_LENGTH <=? queue_length (slot_at EMPTY t j))%nat.
Qed.

(** What a receiver gets for the datagram at the head. *)
Definition received (d : Datagram) (output : list Z) : ReceivedDatagram * list Z :=
  let copied := (d_length d `min` length output)%nat in
  (mkReceived copied (sender d) (sender_address d) (copied <? d_length d)%nat,
   take copied (d_bytes d) ++ drop copied output).

Lemma dgram_receive_run own h output flags t :
  receive own h output flags t =
  if and_not flags RECEIVE_FLAGS =? 0 then
    match gs_resolve t own h with
    | Err e => (Err e, t)
    | Ok (i, e) =>
        if (queue_length e =? 0)%nat then (Err WouldBlock, t)
        else (Ok (received (slot_at EMPTY_DATAGRAM (queue e) (queue_head e)) output),
              if Z.land flags MSG_PEEK =? 0 then <[i := dequeue e]> t else t)
    end
  else (Err InvalidArgument, t).
Proof.
  unfold receive, endpoint, set_endpoint. m_unfold. destruct (_ =? 0); [|done].
  destruct (gs_resolve t own h) as [[i e]|e]; [|done].
  destruct (queue_length e =? 0)%nat; simpl; [done|]. by destruct (Z.land flags MSG_PEEK =? 0).
Qed.

Lemma dgram_create_run own t :
  table_wf t →
  (∃ e, create own t = (Err e, t)) ∨
  ∃ i h e, t !! i = Some e ∧ occupied e = false ∧ valid_owner own = true ∧
    names (<[i := fresh_endpoint own (e_generation e + 1)]> t) own h i
      (fresh_endpoint own (e_generation e + 1)) ∧
    create own t = (Ok h, <[i := fresh_endpoint own (e_generation e + 1)]> t).
Proof.
  intros Hw. unfold create, set_endpoint. m_unfold.
  destruct (valid_owner own) eqn:Hv; [|left; eauto].
  destruct (position _ t) as [i|] eqn:Hp; [|left; eauto].
  apply position_lookup in Hp as (e & Hi & Ho%negb_true_iff). rewrite (slot_at_Some _ _ _ _ Hi).
  unfold next_generation.
  destruct (next_handle_generation _ (e_generation e)) as [g|] eqn:Hn; [|left; eauto]. right.
  pose proof (wf_generation _ (wf_endpoint _ Hw _ _ Hi)) as Hg.
  assert (i < MAXIMUM_ENDPOINTS)%nat as Hlt
    by (rewrite <- (wf_size _ Hw); by eapply lookup_lt_Some).
  destruct (encode_handle_next ENDPOINT_INDEX_BITS MAXIMUM_ENDPOINTS ltac:(done)
    i _ _ Hlt Hg Hn) as [h Hh].
  pose proof (proj1 (next_handle_generation_Some ENDPOINT_INDEX_BITS ltac:(done) _ _) Hn) as [-> _].
  exists i, h, e. split_and!; try done.
  - by apply (fresh_handle t own i e).
  - unfold encode. by rewrite Hh.
Qed.

(** ** Runs *)

Inductive Op :=
| OpCreate (own : ProcessHandle)
| OpBind (own : ProcessHandle) (h : Z) (a : UnixAddress)
| OpPasscred (own : ProcessHandle) (h : Z) (enabled : bool)
| OpSend (own : ProcessHandle) (h : Z) (dest : UnixAddress) (input : list Z) (flags : Z)
| OpReceive (own : ProcessHandle) (h : Z) (output : list Z) (flags : Z)
| OpClose (own : ProcessHandle) (h : Z)
| OpCloseAll (own : ProcessHandle).

Definition exec (op : Op) (t : Table) : Table :=
  match op with
  | OpCreate own => (create own t).2
  | OpBind own h a => (bind own h a t).2
  | OpPasscred own h b => (set_passcred own h b t).2
  | OpSend own h dest input flags => (send own h dest input flags t).2
  | OpReceive own h output flags => (receive own h output flags t).2
  | OpClose own h => (close own h t).2
  | OpCloseAll own => (close_all own t).2
  end.

Definition exec_all (ops : list Op) (t : Table) : Table := foldl (λ t op, exec op t) t ops.

Lemma freed_unbound a e : bound_at a (freed e) = false.
Proof. apply fresh_endpoint_unbound. Qed.

Lemma dgram_freed_wf e : endpoint_wf e → endpoint_wf (freed e).
Proof. intros Hw. apply dgram_fresh_endpoint_wf; [apply Hw|by left]. Qed.

Lemma meta_wf e a b c :
  endpoint_wf e → occupied e = true →
  endpoint_wf (mkEndpoint (e_owner e) (e_generation e) a b c
                 (queue_head e) (queue_length e) (queue e) (readiness_gen e)).
Proof. intros [] Ho. split; simpl; try done. unfold occupied in *. simpl. congruence. Qed.

Lemma bind_wf own h a t : table_wf t → table_wf (bind own h a t).2.
Proof.
  intros Hw. unfold bind, set_endpoint. m_unfold. destruct (negb (is_unnamed a)); [|done].
  destruct (endpoint_cases t own h) as [(i & e & -> & (_ & Hi & Hl & _))| ->]; [|done].
  destruct (negb (e_bound e)); [|done]. destruct (existsb (bound_at a) t) eqn:Hex; [done|].
  cbn. apply (dgram_table_wf_insert t i e); [done..| |].
  - apply meta_wf; [by eapply wf_endpoint|done].
  - intros a' Hb. right. apply bound_at_inv in Hb as (_ & _ & Ha). simpl in Ha. by subst a'.
Qed.

Lemma send_wf own h dest input flags t : table_wf t → table_wf (send own h dest input flags t).2.
Proof.
  intros Hw. rewrite dgram_send_run. destruct (_ && _); [|done].
  destruct (gs_resolve t own h) as [[i o]|e]; [|done]. destruct (e_bound o && _); [done|].
  destruct (position (bound_at dest) t) as [j|] eqn:Hp; [|done].
  apply position_lookup in Hp as (e & Hj & Hb). rewrite (slot_at_Some _ _ _ _ Hj). cbv zeta.
  destruct (Nat.leb_spec MAXIMUM_QUEUE_LENGTH (queue_length e)); [done|]. cbn [snd].
  apply (dgram_table_wf_insert t j e); [done..| |by left].
  apply enqueue_wf; [by eapply wf_endpoint|done|apply (bound_at_inv _ _ Hb)|apply datagram_of_fits].
Qed.

Lemma receive_wf own h output flags t : table_wf t → table_wf (receive own h output flags t).2.
Proof.
  intros Hw. rewrite dgram_receive_run. destruct (_ =? 0); [|done].
  destruct (gs_resolve_cases t own h) as [(i & e & -> & (_ & Hi & Hl & _))| ->]; [|done].
  destruct (queue_length e =? 0)%nat; [done|]. simpl. destruct (_ =? 0); [|done].
  apply (dgram_table_wf_insert t i e); [done..| |by left].
  apply dequeue_wf_endpoint; [by eapply wf_endpoint|done].
Qed.

Lemma close_all_wf own t : table_wf t → table_wf (close_all own t).2.
Proof.
  intros [Hs He Hu]. unfold close_all. destruct (negb _); [by split|]. simpl. split.
  - by rewrite update_where_length.
  - intros i e'. rewrite update_where_lookup. intros (e & Hi & ->)%fmap_Some.
    destruct (handle_eqb _ _); [apply dgram_freed_wf|]; by eapply He.
  - intros i j x y a. rewrite !update_where_lookup.
    intros (e & Hi & ->)%fmap_Some (e' & Hj & ->)%fmap_Some.
    destruct (handle_eqb (e_owner e) own); [by rewrite freed_unbound|].
    destruct (handle_eqb (e_owner e') own); [rewrite freed_unbound; by intros ? ?|]. by apply Hu.
Qed.

Lemma dgram_exec_wf op t : table_wf t → table_wf (exec op t).
Proof.
  intros Hw. destruct op as [own|own h a|own h b|own h dest input flags|own h output flags|own h|own]; simpl.
  - destruct (dgram_create_run own t Hw) as [[e ->]|(i & h & e & Hi & Ho & Hv & _ & ->)]; [done|].
    apply (dgram_table_wf_insert t i e); [done..| |].
    + apply dgram_fresh_endpoint_wf; [|by right]. pose proof (wf_generation _ (wf_endpoint _ Hw _ _ Hi)). lia.
    + intros a. by rewrite fresh_endpoint_unbound.
  - by apply bind_wf.
  - unfold set_passcred, set_endpoint. m_unfold.
    destruct (endpoint_cases t own h) as [(i & e & -> & (_ & Hi & Hl & _))| ->]; [|done].
    cbn. apply (dgram_table_wf_insert t i e); [done..| |by left].
    apply meta_wf; [by eapply wf_endpoint|done].
  - by apply send_wf.
  - by apply receive_wf.
  - unfold close, set_endpoint. m_unfold.
    destruct (endpoint_cases t own h) as [(i & e & -> & (_ & Hi & _))| ->]; [|done].
    cbn. apply (dgram_table_wf_insert t i e);
      [done..|apply dgram_freed_wf; by eapply wf_endpoint|]. intros a. by rewrite freed_unbound.
  - by apply close_all_wf.
Qed.

Lemma dgram_exec_all_wf ops t : table_wf t → table_wf (exec_all ops t).
Proof. revert t. induction ops; simpl; eauto using dgram_exec_wf. Qed.

(** ** What passes through an endpoint *)

(** The message a step queued on endpoint [i]. *)
Definition given (i : nat) (op : Op) (t : Table) : list Message :=
  match op with
  | OpSend own h dest input flags =>
      match send own h dest input flags t, gs_resolve t own h, position (bound_at dest) t with
      | (Ok _, _), Ok (_, o), Some j =>
          if (j =? i)%nat then [mkMessage own (origin_address o) input] else []
      | _, _, _ => []
      end
  | _ => []
  end.

(** What a consuming receive on endpoint [i] returned: the description and the
    bytes copied. *)
Definition taken (i : nat) (op : Op) (t : Table) : list (ReceivedDatagram * list Z) :=
  match op with
  | OpReceive own h output flags =>
      match receive own h output flags t, gs_resolve t own h with
      | (Ok (rd, buffer), _), Ok (j, _) =>
          if (j =? i)%nat && (Z.land flags MSG_PEEK =? 0) then [(rd, take (rd_bytes rd) buffer)] else []
      | _, _ => []
      end
  | _ => []
  end.

Fixpoint all_given (i : nat) (ops : list Op) (t : Table) : list Message :=
  match ops with [] => [] | op :: ops => given i op t ++ all_given i ops (exec op t) end.
Fixpoint all_taken (i : nat) (ops : list Op) (t : Table) : list (ReceivedDatagram * list Z) :=
  match ops with [] => [] | op :: ops => taken i op t ++ all_taken i ops (exec op t) end.

(** A message received: sender and address exact, the bytes a prefix of the
    payload, all of it unless the receiver was told it was truncated. *)
Definition received_as (m : Message) (r : ReceivedDatagram * list Z) : Prop :=
  rd_sender r.1 = m_sender m ∧ rd_sender_address r.1 = m_address m ∧
  r.2 = take (rd_bytes r.1) (m_payload m) ∧
  (truncated r.1 = false → r.2 = m_payload m).

Definition continues (e e' : Endpoint) (inp : list Message)
    (out : list (ReceivedDatagram * list Z)) : Prop :=
  e_generation e ≤ e_generation e' ∧
  (occupied e' = true → e_generation e' = e_generation e →
   occupied e = true ∧
   ∃ consumed, Forall2 received_as consumed out ∧ messages e ++ inp = consumed ++ messages e').

Lemma dgram_continues_refl e : continues e e [] [].
Proof. split; [lia|]. intros Ho _. split; [done|]. exists []. split; [constructor|]. by rewrite app_nil_r. Qed.

Lemma dgram_continues_trans e1 e2 e3 i1 i2 o1 o2 :
  continues e1 e2 i1 o1 → continues e2 e3 i2 o2 → continues e1 e3 (i1 ++ i2) (o1 ++ o2).
Proof.
  intros [Hg1 H1] [Hg2 H2]. split; [lia|]. intros Ho Hg.
  destruct H2 as [Ho2 (c2 & Hf2 & Hm2)]; [done|lia|].
  destruct H1 as [Ho1 (c1 & Hf1 & Hm1)]; [done|lia|]. split; [done|].
  exists (c1 ++ c2). split; [by apply Forall2_app|].
  by rewrite app_assoc, Hm1, <- !app_assoc, Hm2.
Qed.

(** A step that leaves the queue of a live endpoint alone. *)
Lemma continues_same e e' :
  e_generation e' = e_generation e → occupied e' = occupied e → queued e' = queued e →
  continues e e' [] [].
Proof.
  intros Hg Ho Hq. split; [lia|]. intros Hoc _. split; [congruence|]. exists [].
  split; [constructor|]. unfold messages. by rewrite Hq, app_nil_r.
Qed.

Lemma continues_later e e' inp out :
  e_generation e < e_generation e' ∨ e_generation e' = e_generation e ∧ occupied e' = false →
  continues e e' inp out.
Proof. intros [Hg|[Hg Ho]]; (split; [lia|]); intros Ho' Hg'; [lia|congruence]. Qed.

Lemma continues_enqueue e own from input :
  endpoint_wf e → (queue_length e < MAXIMUM_QUEUE_LENGTH)%nat → occupied e = true →
  continues e (enqueue (datagram_of own from input) e) [mkMessage own from input] [].
Proof.
  intros Hw Hn Ho. split; [simpl; lia|]. intros _ _. split; [done|]. exists []. split; [constructor|].
  unfold messages. rewrite enqueue_queued, fmap_app by done. simpl. by rewrite message_of_datagram.
Qed.

Lemma received_message d output :
  (d_length d ≤ length (d_bytes d))%nat →
  let '(rd, buffer) := received d output in
  received_as (message_of d) (rd, take (rd_bytes rd) buffer).
Proof.
  intros Hd. unfold received, received_as, message_of. simpl.
  rewrite take_app_length' by (rewrite length_take; lia). rewrite take_take.
  split_and!; try done; [f_equal; lia|]. intros Hc%Nat.ltb_ge. f_equal. lia.
Qed.

Lemma continues_dequeue e output :
  endpoint_wf e → queue_length e ≠ O → occupied e = true →
  let '(rd, buffer) := received (slot_at EMPTY_DATAGRAM (queue e) (queue_head e)) output in
  continues e (dequeue e) [] [(rd, take (rd_bytes rd) buffer)].
Proof.
  intros Hw Hn Ho. set (d := slot_at _ _ _).
  assert (d_length d ≤ length (d_bytes d))%nat as Hd.
  { eapply (Forall_lookup_1 _ _ (queue_head e) _ (wf_payloads _ Hw)). apply slot_at_lookup.
    rewrite (wf_queue _ Hw). apply Hw. }
  pose proof (received_message d output Hd) as Hr. destruct (received d output) as [rd buffer].
  split; [simpl; lia|]. intros _ _. split; [done|]. exists [message_of d].
  split; [constructor; [done|constructor]|]. unfold messages. rewrite (dequeue_queued e) by done.
  by rewrite app_nil_r.
Qed.

Lemma send_continues own h dest input flags t i e :
  table_wf t → t !! i = Some e →
  ∃ e', exec (OpSend own h dest input flags) t !! i = Some e' ∧
    continues e e' (given i (OpSend own h dest input flags) t) [].
Proof.
  intros Hw Hi. assert (∃ e', t !! i = Some e' ∧ continues e e' [] []) as Hsame
    by eauto using dgram_continues_refl.
  simpl. rewrite dgram_send_run. destruct (_ && _); [|done].
  destruct (gs_resolve t own h) as [[k o]|e0]; [|done]. destruct (e_bound o && _); [done|].
  destruct (position (bound_at dest) t) as [j|] eqn:Hp; [|done].
  apply position_lookup in Hp as (ej & Hj & Hb). rewrite (slot_at_Some _ _ _ _ Hj). cbv zeta.
  destruct (Nat.leb_spec MAXIMUM_QUEUE_LENGTH (queue_length ej)); [done|]. cbn [fst snd].
  destruct (Nat.eqb_spec j i) as [->|Hne].
  - rewrite Hi in Hj. injection Hj as <-. eexists.
    split; [apply list_lookup_insert_eq; by eapply lookup_lt_Some|].
    apply continues_enqueue; [by eapply wf_endpoint|done|apply (bound_at_inv _ _ Hb)].
  - by rewrite list_lookup_insert_ne.
Qed.

Lemma receive_continues own h output flags t i e :
  table_wf t → t !! i = Some e →
  ∃ e', exec (OpReceive own h output flags) t !! i = Some e' ∧
    continues e e' [] (taken i (OpReceive own h output flags) t).
Proof.
  intros Hw Hi. assert (∃ e', t !! i = Some e' ∧ continues e e' [] []) as Hsame
    by eauto using dgram_continues_refl.
  simpl. rewrite dgram_receive_run. destruct (and_not _ _ =? 0); [|done].
  destruct (gs_resolve_cases t own h) as [(j & ej & -> & (_ & Hj & Hl & _))| ->]; [|done].
  destruct (Nat.eqb_spec (queue_length ej) 0); [done|].
  destruct (received _ output) as [rd buffer] eqn:Hr. cbn [fst snd].
  destruct (Z.land flags MSG_PEEK =? 0); [|by rewrite andb_false_r]. rewrite andb_true_r.
  destruct (Nat.eqb_spec j i) as [->|Hne].
  - rewrite Hi in Hj. injection Hj as <-. eexists.
    split; [apply list_lookup_insert_eq; by eapply lookup_lt_Some|].
    pose proof (continues_dequeue e output (wf_endpoint _ Hw _ _ Hi) ltac:(done) Hl) as Hc.
    by rewrite Hr in Hc.
  - by rewrite list_lookup_insert_ne.
Qed.

(** A step that stores [e'] in slot [j] and moves no message. *)
Lemma store_continues (t : Table) (i j : nat) (e ej e' : Endpoint) :
  t !! i = Some e → t !! j = Some ej → continues ej e' [] [] →
  ∃ x, <[j := e']> t !! i = Some x ∧ continues e x [] [].
Proof.
  intros Hi Hj Hc. destruct (decide (j = i)) as [->|Hne].
  - rewrite Hi in Hj. injection Hj as <-. eexists.
    split; [apply list_lookup_insert_eq; by eapply lookup_lt_Some|done].
  - rewrite list_lookup_insert_ne by done. eauto using dgram_continues_refl.
Qed.

Lemma freed_continues e : continues e (freed e) [] [].
Proof. apply continues_later. by right. Qed.

Lemma dgram_exec_continues op t i e :
  table_wf t → t !! i = Some e →
  ∃ e', exec op t !! i = Some e' ∧ continues e e' (given i op t) (taken i op t).
Proof.
  intros Hw Hi. assert (∃ e', t !! i = Some e' ∧ continues e e' [] []) as Hsame
    by eauto using dgram_continues_refl.
  destruct op as [own|own h a|own h b|own h dest input flags|own h output flags|own h|own].
  4: by apply send_continues.
  4: by apply receive_continues.
  all: simpl.
  - destruct (dgram_create_run own t Hw) as [[x ->]|(j & h & ej & Hj & Ho & _ & _ & ->)]; [done|].
    eapply store_continues; [done..|]. apply continues_later. left. simpl. lia.
  - unfold bind, set_endpoint. m_unfold. destruct (negb (is_unnamed a)); [|done].
    destruct (endpoint_cases t own h) as [(j & ej & -> & (_ & Hj & _))| ->]; [|done].
    destruct (negb (e_bound ej)); [|done]. destruct (negb _); [|done].
    cbn. eapply store_continues; [done..|]. by apply continues_same.
  - unfold set_passcred, set_endpoint. m_unfold.
    destruct (endpoint_cases t own h) as [(j & ej & -> & (_ & Hj & _))| ->]; [|done].
    cbn. eapply store_continues; [done..|]. by apply continues_same.
  - unfold close, set_endpoint. m_unfold.
    destruct (endpoint_cases t own h) as [(j & ej & -> & (_ & Hj & _))| ->]; [|done].
    cbn. eapply store_continues; [done..|]. apply freed_continues.
  - unfold close_all. destruct (negb _); [done|]. simpl. rewrite update_where_lookup, Hi. simpl.
    eexists. split; [done|]. destruct (handle_eqb _ _); [apply freed_continues|apply dgram_continues_refl].
Qed.

(** ** Properties *)

(** From boot on, after any sequence of datagram operations, the endpoint
    table is well formed: at most one live endpoint is bound at an address,
    queue positions are in bounds, and a free slot keeps nothing but its
    generation. *)
Theorem dgram_table_invariant (ops : list Op) : table_wf (exec_all ops ENDPOINTS).
Proof. apply dgram_exec_all_wf, dgram_table_wf_boot. Qed.

(** C12. Messages are delivered exactly once, in order and intact: as long as an
    endpoint is not closed, over any interleaving of operations, the messages
    its receivers consumed followed by the queue are the old queue followed by
    the messages accepted for it. A receiver gets the sender, its address and
    the whole payload, or a prefix of it and the truncation mark. *)
Theorem dgram_exactly_once (ops : list Op) (t : Table) (i : nat) (e : Endpoint) :
  table_wf t → t !! i = Some e →
  ∃ e', exec_all ops t !! i = Some e' ∧ e_generation e ≤ e_generation e' ∧
    (occupied e' = true → e_generation e' = e_generation e →
     ∃ consumed, Forall2 received_as consumed (all_taken i ops t) ∧
       messages e ++ all_given i ops t = consumed ++ messages e').
Proof.
  intros Hw Hi. assert (∃ e', exec_all ops t !! i = Some e' ∧
    continues e e' (all_given i ops t) (all_taken i ops t)) as (e' & He' & Hg & Hc).
  { revert t e Hw Hi. induction ops as [|op ops IH]; intros t e Hw Hi; simpl.
    { eauto using dgram_continues_refl. }
    destruct (dgram_exec_continues op t i e Hw Hi) as (e1 & He1 & H1).
    destruct (IH (exec op t) e1 (dgram_exec_wf op t Hw) He1) as (e2 & He2 & H2).
    eauto using dgram_continues_trans. }
  exists e'. split_and!; [done..|]. intros Ho Hge. apply (Hc Ho Hge).
Qed.

(** A send either changes nothing, with the reason, or appends the message
    to the queue of the one live endpoint bound at the destination and changes
    no other endpoint. *)
Theorem dgram_send_outcome (own : ProcessHandle) (h : Z) (dest : UnixAddress) (input : list Z)
    (flags : Z) (t t' : Table) (i : nat) (o : Endpoint) (x : Result nat DatagramError) :
  table_wf t → names t own h i o → send own h dest input flags t = (x, t') →
  match x with
  | Ok n =>
      n = length input ∧ (n ≤ MAXIMUM_DATAGRAM_BYTES)%nat ∧
      ∃ j e e', t !! j = Some e ∧ bound_at dest e = true ∧ j ≠ i ∧ t' = <[j := e']> t ∧
        messages e' = messages e ++ [mkMessage own (origin_address o) input] ∧
        (∀ k y, t !! k = Some y → bound_at dest y = true → k = j)
  | Err ConnectionRefused =>
      t' = t ∧ (existsb (bound_at dest) t = false ∨ e_bound o = true ∧ address o = dest)
  | Err WouldBlock =>
      t' = t ∧ ∃ j e, t !! j = Some e ∧ bound_at dest e = true ∧
        length (messages e) = MAXIMUM_QUEUE_LENGTH
  | Err InvalidArgument =>
      t' = t ∧ (and_not flags SEND_FLAGS ≠ 0 ∨ (MAXIMUM_DATAGRAM_BYTES < length input)%nat)
  | Err _ => False
  end.
Proof.
  intros Hw Hn. rewrite dgram_send_run, (proj2 (gs_resolve_Ok _ _ _ _ _) Hn).
  destruct (Z.eqb_spec (and_not flags SEND_FLAGS) 0) as [Hfl|Hfl],
    (Nat.leb_spec (length input) MAXIMUM_DATAGRAM_BYTES) as [Hlen|Hlen];
    cbn [andb]; try (intros [= <- <-]; split; [done|]; (by left) || by right).
  destruct (e_bound o && bool_decide (dest = address o)) eqn:Hself.
  { apply andb_true_iff in Hself as [Hb ->%bool_decide_eq_true]. intros [= <- <-]. eauto. }
  destruct (position (bound_at dest) t) as [j|] eqn:Hp.
  2: { intros [= <- <-]. split; [done|]. left. apply not_true_iff_false. intros (y & Hy & Hby)%existsb_exists.
       apply list_elem_of_In, list_elem_of_lookup in Hy as [k Hk]. rewrite position_None in Hp.
       by rewrite (Hp k y Hk) in Hby. }
  apply position_lookup in Hp as (e & Hj & Hb). rewrite (slot_at_Some _ _ _ _ Hj). cbv zeta.
  pose proof (wf_endpoint _ Hw _ _ Hj) as He.
  destruct (Nat.leb_spec MAXIMUM_QUEUE_LENGTH (queue_length e)) as [Hfull|Hfree]; intros [= <- <-].
  - split; [done|]. exists j, e. split_and!; [done..|]. unfold messages, queued.
    rewrite length_fmap, ring_view_length. pose proof (wf_length _ He). lia.
  - split; [done|]. split; [done|]. exists j, e. eexists. split_and!; try done.
    + intros ->. destruct Hn as (_ & Hi & _). rewrite Hj in Hi. injection Hi as ->.
      apply bound_at_inv in Hb as (_ & Hbo & Ha). by rewrite Hbo, Ha, bool_decide_true in Hself.
    + unfold messages. rewrite enqueue_queued, fmap_app by done. simpl. by rewrite message_of_datagram.
    + intros k y Hk Hy. by apply (wf_unique _ Hw k j y e dest).
Qed.

(** ** Witnesses *)

Definition alice : ProcessHandle := mkHandle 3 1.
Definition bob : ProcessHandle := mkHandle 4 1.
Definition bob_address : UnixAddress := default UNNAMED (new_address [47; 98]).
(** Alice holds handle 257, Bob handle 258, bound at his address. *)
Definition sample_table : Table :=
  exec_all [OpCreate alice; OpCreate bob; OpBind bob 258 bob_address] ENDPOINTS.
Definition bob_endpoint : Endpoint :=
  mkEndpoint bob 1 bob_address true false 0 0 EMPTY_QUEUE 0.

Lemma dgram_sample_wf : table_wf sample_table.
Proof. apply dgram_exec_all_wf, dgram_table_wf_boot. Qed.

Definition sample_traffic : list Op :=
  [OpSend alice 257 bob_address [1; 2; 3] 0; OpSend alice 257 bob_address [4] 0;
   OpReceive bob 258 [0; 0] MSG_PEEK; OpReceive bob 258 [0; 0] 0].

Lemma dgram_exactly_once_witness :
  ∃ e', exec_all sample_traffic sample_table !! 1%nat = Some e' ∧
    e_generation bob_endpoint ≤ e_generation e' ∧
    (occupied e' = true → e_generation e' = e_generation bob_endpoint →
     ∃ consumed, Forall2 received_as consumed (all_taken 1 sample_traffic sample_table) ∧
       messages bob_endpoint ++ all_given 1 sample_traffic sample_table
         = consumed ++ messages e').
Proof.
  apply (dgram_exactly_once sample_traffic sample_table 1 bob_endpoint).
  - exact dgram_sample_wf.
  - vm_compute. reflexivity.
Defined.

Lemma dgram_send_outcome_witness :
  1%nat = 1%nat ∧ (1 ≤ MAXIMUM_DATAGRAM_BYTES)%nat ∧
  ∃ j e e', sample_table !! j = Some e ∧ bound_at bob_address e = true ∧ j ≠ 0%nat ∧
    (send alice 257 bob_address [9] 0 sample_table).2 = <[j := e']> sample_table ∧
    messages e' = messages e ++ [mkMessage alice UNNAMED [9]] ∧
    (∀ k y, sample_table !! k = Some y → bound_at bob_address y = true → k = j).
Proof.
  apply (dgram_send_outcome alice 257 bob_address [9] 0 sample_table
    (send alice 257 bob_address [9] 0 sample_table).2 0 (fresh_endpoint alice 1) (Ok 1%nat)).
  - exact dgram_sample_wf.
  - split_and!; vm_compute; reflexivity.
  - apply injective_projections; [vm_compute; reflexivity|reflexivity].
Defined.
