(* ===== verification/Epoll.v ===== *)
(** * Readiness multiplexing: linux_epoll.rs

    The table of epoll instances with their watches and every operation of the
    file. Watches name open objects by [ObjectKey] (linux_fd.rs) and their
    readiness is asked of the descriptor layer while the epoll lock is not held;
    that layer is the interface [ReadinessWorld]. A [wait] therefore has three
    parts, [wait_snapshot], [scan] and [wait_publish], between which other
    operations may run. *)

From stdpp Require Import prelude list numbers option.
From Stdlib Require Import ZArith Lia.
From S2P Require Import Prelude.
From S2P Require Import Handles.
From S2P Require Import OwnedTable.
From S2P Require Import ObjectKey.
From S2P Require Import EventFd.

Definition EPOLL_CLOEXEC : Z := 0x80000.
Definition EPOLL_ALLOWED_FLAGS : Z := EPOLL_CLOEXEC.

Definition EPOLL_CTL_ADD : Z := 1.
Definition EPOLL_CTL_DEL : Z := 2.
Definition EPOLL_CTL_MOD : Z := 3.

Definition EPOLLIN : Z := READY_IN.
Definition EPOLLOUT : Z := READY_OUT.
Definition EPOLLERR : Z := READY_ERR.
Definition EPOLLHUP : Z := READY_HUP.
Definition EPOLLET : Z := Z.shiftl 1 31.
Definition EPOLL_INTEREST_MASK : Z :=
  Z.lor (Z.lor (Z.lor (Z.lor EPOLLIN EPOLLOUT) EPOLLERR) EPOLLHUP) EPOLLET.

Definition MAXIMUM_EPOLL_OBJECTS : nat := 16.
Definition MAXIMUM_EPOLL_WATCHES : nat := 64.
Definition EPOLL_BASE : Z := 0x1000.

Arguments MAXIMUM_EPOLL_WATCHES : simpl never.

Inductive EpollError :=
| InvalidArgument
| BadFileDescriptor
| AlreadyExists
| NotFound
| Capacity.

#[global] Instance EpollError_eq_dec : EqDecision EpollError.
Proof. solve_decision. Defined.

Record ReadyEvent := mkEvent {
  ev_events : Z;
  ev_data : Z;
}.

Record Watch := mkWatch {
  target : ObjectKey;
  registration : Z;
  events : Z;
  data : Z;
  last_ready : Z;
  last_generation : Z;
  edge_seen : bool;
}.

Definition EMPTY_WATCH : Watch := mkWatch EMPTY_KEY 0 0 0 0 0 false.

Definition watching (w : Watch) : bool := negb (key_is_empty (target w)).

Record EpollSlot := mkSlot {
  e_owner : ProcessHandle;
  e_flags : Z;
  next_registration : Z;
  watches : list Watch;
}.

Definition NO_WATCHES : list Watch := replicate MAXIMUM_EPOLL_WATCHES EMPTY_WATCH.
Arguments NO_WATCHES : simpl never.
Definition EMPTY : EpollSlot := mkSlot NO_PROCESS 0 0 NO_WATCHES.

Definition occupied (s : EpollSlot) : bool := valid_owner (e_owner s).

Abbreviation Table := (list EpollSlot).
Abbreviation TM := (M Table EpollError).

(** The static table at boot. *)
Definition EPOLLS : Table := replicate MAXIMUM_EPOLL_OBJECTS EMPTY.

Definition index_for_fd (fd : Z) : option nat := base_index EPOLL_BASE MAXIMUM_EPOLL_OBJECTS fd.
Definition fd_for_index (index : nat) : Z := base_fd EPOLL_BASE index.

#[global] Instance epoll_slots : OwnedSlots ProcessHandle EpollSlot EpollError := {
  empty_slot := EMPTY;
  owned_by := λ own s, occupied s && handle_eqb (e_owner s) own;
  index_of := index_for_fd;
  fd_of := fd_for_index;
  table_size := MAXIMUM_EPOLL_OBJECTS;
  bad_descriptor := BadFileDescriptor;
  index_of_Some := base_index_Some EPOLL_BASE MAXIMUM_EPOLL_OBJECTS;
  empty_unowned := λ own, eq_refl;
}.

Definition create (own : ProcessHandle) (flg : Z) : TM Z :=
  _ ← ensure (valid_owner own && (and_not flg EPOLL_ALLOWED_FLAGS =? 0)) InvalidArgument;
  table ← getS;
  index ← ok_or (position (λ s, negb (occupied s)) table) Capacity;
  _ ← store index (mkSlot own flg 0 NO_WATCHES);
  mret (fd_for_index index).

(** [next_registration.checked_add(1).filter(|r| *r != 0)] *)
Definition next_reg (current : Z) : option Z :=
  match checked_add U64_MAX current 1 with
  | Some r => if r =? 0 then None else Some r
  | None => None
  end.

(** The watch a registration starts with. *)
Definition armed (key : ObjectKey) (reg evs dat : Z) : Watch := mkWatch key reg evs dat 0 0 false.

(** The part of [ctl] under the epoll lock. *)
Definition ctl_locked (own : ProcessHandle) (epfd operation : Z) (key : ObjectKey) (evs dat : Z) :
    TM unit :=
  index ← fd_index epfd;
  slot ← owned_slot own index;
  let existing := position (λ w, key_eqb (target w) key) (watches slot) in
  let arm pos :=
    reg ← ok_or (next_reg (next_registration slot)) Capacity;
    store index (mkSlot (e_owner slot) (e_flags slot) reg
                   (<[pos := armed key reg evs dat]> (watches slot))) in
  if operation =? EPOLL_CTL_ADD then
    match existing with
    | Some _ => throw AlreadyExists
    | None =>
        pos ← ok_or (position (λ w, negb (watching w)) (watches slot)) Capacity;
        arm pos
    end
  else if operation =? EPOLL_CTL_MOD then
    pos ← ok_or existing NotFound;
    arm pos
  else if operation =? EPOLL_CTL_DEL then
    pos ← ok_or existing NotFound;
    store index (mkSlot (e_owner slot) (e_flags slot) (next_registration slot)
                   (<[pos := EMPTY_WATCH]> (watches slot)))
  else throw InvalidArgument.

(** [ready & ((events & !EPOLLET) | EPOLLERR | EPOLLHUP)] *)
Definition interest (watch : Watch) (ready : Z) : Z :=
  Z.land ready (Z.lor (Z.lor (and_not (events watch) EPOLLET) EPOLLERR) EPOLLHUP).
Definition is_edge (watch : Watch) : bool := negb (Z.land (events watch) EPOLLET =? 0).

(** One pass of the loop of [wait] over an occupied watch: [answer] is what the
    target reported, [room] whether the output has space. *)
Definition visit (watch : Watch) (answer : option (Z * Z)) (room : bool) :
    Watch * option ReadyEvent :=
  let ready := match answer with Some (ready, _) => ready | None => Z.lor EPOLLERR EPOLLHUP end in
  let gen := match answer with Some (_, gen) => gen | None => 0 end in
  let invalid := match answer with Some _ => false | None => true end in
  let interested := interest watch ready in
  let edge := is_edge watch in
  let should_report :=
    if invalid then true
    else if edge then negb (interested =? 0)
                      && (negb (edge_seen watch) || negb (last_generation watch =? gen))
    else negb (interested =? 0) in
  let emitted := should_report && room in
  let event_bits := if invalid then Z.lor interested (Z.lor EPOLLERR EPOLLHUP) else interested in
  let seen := if edge && emitted then true
              else if edge && (interested =? 0) then false else edge_seen watch in
  let gen' := if edge && emitted then gen
              else if edge && (interested =? 0) then gen else last_generation watch in
  (mkWatch (target watch) (registration watch) (events watch) (data watch) interested gen' seen,
   if emitted then Some (mkEvent event_bits (data watch)) else None).

Definition wait_snapshot (own : ProcessHandle) (epfd : Z) : TM (list Watch) :=
  index ← fd_index epfd;
  slot ← owned_slot own index;
  mret (watches slot).

(** [current.last_ready = watch.last_ready; ...] on the watch of the same
    target and registration, if it is still there. *)
Definition publish_one (current : list Watch) (watch : Watch) : list Watch :=
  match position (λ c, key_eqb (target c) (target watch)
                       && (registration c =? registration watch)) current with
  | Some pos =>
      alter (λ c, mkWatch (target c) (registration c) (events c) (data c)
                    (last_ready watch) (last_generation watch) (edge_seen watch)) pos current
  | None => current
  end.

Definition wait_publish (own : ProcessHandle) (epfd : Z) (scanned : list Watch) : TM unit :=
  index ← fd_index epfd;
  slot ← owned_slot own index;
  store index (mkSlot (e_owner slot) (e_flags slot) (next_registration slot)
                 (foldl publish_one (watches slot) scanned)).

(** The targets of the watches, in the order of the array. *)
Definition watched_targets (ws : list Watch) : list ObjectKey := target <$> filter watching ws.

(** [close] copies the watched keys into the caller's array of length [room]. *)
Definition close (own : ProcessHandle) (epfd : Z) (room : nat) : TM (list ObjectKey) :=
  index ← fd_index epfd;
  slot ← owned_slot own index;
  let keys := watched_targets (watches slot) in
  _ ← ensure (length keys <=? room)%nat Capacity;
  _ ← store index EMPTY;
  mret keys.

Definition remove_target (key : ObjectKey) (table : Table) : nat * Table :=
  (sum_list ((λ s, if occupied s then countb (λ w, key_eqb (target w) key) (watches s) else O) <$> table),
   (λ s, if occupied s
         then mkSlot (e_owner s) (e_flags s) (next_registration s)
                (update_where (λ w, key_eqb (target w) key) (λ _, EMPTY_WATCH) (watches s))
         else s) <$> table).

(** ** Asking the descriptor layer *)

Class ReadinessWorld (W : Type) := {
  epolls : W → Table;
  set_epolls : Table → W → W;
  (** [linux_fd::readiness_by_key(target).ok()] *)
  target_readiness : ObjectKey → W → option (Z * Z) * W;
  epolls_set : ∀ t w, epolls (set_epolls t w) = t;
  (** asking for readiness does not touch the epoll table *)
  epolls_readiness : ∀ k w, epolls (target_readiness k w).2 = epolls w;
  (** an empty key names nothing *)
  readiness_empty : ∀ k w, key_is_empty k = true → (target_readiness k w).1 = None;
}.

Section World.
Context {W : Type} `{RW : !ReadinessWorld W}.

Definition on_epolls {A} (m : TM A) : M W EpollError A := zoom epolls set_epolls (λ e, e) m.

Definition ctl (own : ProcessHandle) (epfd operation : Z) (key : ObjectKey) (evs dat : Z) :
    M W EpollError unit :=
  _ ← ensure (and_not evs EPOLL_INTEREST_MASK =? 0) InvalidArgument;
  _ ← (if operation =? EPOLL_CTL_DEL then mret tt
       else answer ← liftS (target_readiness key);
            ensure (bool_decide (is_Some answer)) InvalidArgument);
  on_epolls (ctl_locked own epfd operation key evs dat).

(** The loop of [wait]; [room] is the space left in the output. *)
Fixpoint scan (ws : list Watch) (room : nat) (w : W) : list Watch * list ReadyEvent * W :=
  match ws with
  | [] => ([], [], w)
  | watch :: ws =>
      if watching watch then
        let '(answer, w1) := target_readiness (target watch) w in
        let '(watch', ev) := visit watch answer (0 <? room)%nat in
        let room' := match ev with Some _ => (room - 1)%nat | None => room end in
        let '(ws', evs, w2) := scan ws room' w1 in
        (watch' :: ws', option_list ev ++ evs, w2)
      else
        let '(ws', evs, w2) := scan ws room w in (watch :: ws', evs, w2)
  end.

(** Returns the events written to the front of the output. *)
Definition wait (own : ProcessHandle) (epfd : Z) (room : nat) : M W EpollError (list ReadyEvent) :=
  _ ← ensure (negb (room =? 0)%nat) InvalidArgument;
  ws ← on_epolls (wait_snapshot own epfd);
  '(scanned, evs) ← liftS (scan ws room);
  _ ← on_epolls (wait_publish own epfd scanned);
  mret evs.

(** The watch would make a [poll] on the epoll descriptor readable. *)
Definition pending (watch : Watch) (answer : option (Z * Z)) : bool :=
  let '(ready, gen) := default (Z.lor EPOLLERR EPOLLHUP, 0) answer in
  let edge := is_edge watch in
  let edge_pending := negb edge || negb (edge_seen watch) || negb (last_generation watch =? gen) in
  negb (interest watch ready =? 0) && edge_pending.

(** The loop of [readiness]: returns at the first pending watch. *)
Fixpoint poll (ws : list Watch) (w : W) : Z * W :=
  match ws with
  | [] => (0, w)
  | watch :: ws =>
      if watching watch then
        let '(answer, w1) := target_readiness (target watch) w in
        if pending watch answer then (EPOLLIN, w1) else poll ws w1
      else poll ws w
  end.

Definition readiness (own : ProcessHandle) (epfd : Z) : M W EpollError Z :=
  ws ← on_epolls (wait_snapshot own epfd);
  liftS (poll ws).
End World.

(** ** The table invariant *)

Record watch_wf (bound : Z) (w : Watch) : Prop := {
  ww_empty : watching w = false → w = EMPTY_WATCH;
  ww_registration : watching w = true → 1 ≤ registration w ≤ bound;
  ww_events : and_not (events w) EPOLL_INTEREST_MASK = 0;
}.

Record slot_wf (s : EpollSlot) : Prop := {
  sw_length : length (watches s) = MAXIMUM_EPOLL_WATCHES;
  sw_next : is_u64 (next_registration s);
  sw_watch i w : watches s !! i = Some w → watch_wf (next_registration s) w;
  (** an object is watched at most once, and registration numbers are unique *)
  sw_targets i j w w' : watches s !! i = Some w → watches s !! j = Some w' →
    watching w = true → target w = target w' → i = j;
  sw_registrations i j w w' : watches s !! i = Some w → watches s !! j = Some w' →
    watching w = true → registration w = registration w' → i = j;
  sw_free : occupied s = false → s = EMPTY;
}.

Definition table_wf (t : Table) : Prop :=
  length t = MAXIMUM_EPOLL_OBJECTS ∧ ∀ i s, t !! i = Some s → slot_wf s.

Lemma empty_watch_wf bound : watch_wf bound EMPTY_WATCH.
Proof. split; done. Qed.

Lemma no_watches_lookup i w : NO_WATCHES !! i = Some w → w = EMPTY_WATCH.
Proof. unfold NO_WATCHES. by intros [-> _]%lookup_replicate. Qed.

Lemma fresh_slot_wf own flg : (valid_owner own = false → mkSlot own flg 0 NO_WATCHES = EMPTY) →
  slot_wf (mkSlot own flg 0 NO_WATCHES).
Proof.
  intros Hfree. split; cbn [watches next_registration].
  - apply length_replicate.
  - done.
  - intros i w ->%no_watches_lookup. apply empty_watch_wf.
  - by intros i j w w' ->%no_watches_lookup.
  - by intros i j w w' ->%no_watches_lookup.
  - done.
Qed.

Lemma ep_table_wf_boot : table_wf EPOLLS.
Proof. split; [done|]. intros i s [-> _]%lookup_replicate. by apply fresh_slot_wf. Qed.

Lemma ep_table_wf_insert t i s : table_wf t → slot_wf s → table_wf (<[i := s]> t).
Proof.
  intros [Hl Hw] Hs. split; [by rewrite length_insert|].
  intros j x [(_ & <- & _)|[_ ?]]%lookup_insert_cases; eauto.
Qed.

(** Storing a watch: a fresh registration on a target nobody else watches, or
    an empty one. *)
Lemma slot_wf_arm s pos key evs dat reg :
  slot_wf s → occupied s = true → key_is_empty key = false →
  next_reg (next_registration s) = Some reg → and_not evs EPOLL_INTEREST_MASK = 0 →
  (∀ i w, i ≠ pos → watches s !! i = Some w → target w ≠ key) →
  slot_wf (mkSlot (e_owner s) (e_flags s) reg (<[pos := armed key reg evs dat]> (watches s))).
Proof.
  intros [Hl Hn Hw Ht Hr Hf] Ho Hk Hreg Hev Hother. unfold next_reg in Hreg.
  destruct (checked_add _ _ _) as [r|] eqn:Hadd; [|done]. apply checked_add_Some in Hadd as [-> Hmax].
  destruct (_ =? 0); [done|]. injection Hreg as <-. unfold is_u64 in Hn.
  assert (∀ i w, watches s !! i = Some w → watching w = true →
    registration w ≤ next_registration s) as Hold by (intros i w Hi Hwt; by apply (Hw i w Hi)).
  split; cbn [watches next_registration].
  - by rewrite length_insert.
  - unfold is_u64. lia.
  - intros i w [(_ & <- & _)|[_ Hi]]%lookup_insert_cases.
    + split; simpl; [unfold watching; simpl; by rewrite Hk|lia|done].
    + destruct (Hw i w Hi) as [He Hrg Hevw]. split; [done| |done]. intros Hwt. specialize (Hrg Hwt). lia.
  - intros i j w w' [(<- & <- & _)|[Hi Hwi]]%lookup_insert_cases
      [(<- & <- & _)|[Hj Hwj]]%lookup_insert_cases Hwt Heq; [done| | |by eapply Ht]; simpl in *.
    + by destruct (Hother j w').
    + by destruct (Hother i w).
  - intros i j w w' [(<- & <- & _)|[Hi Hwi]]%lookup_insert_cases
      [(<- & <- & _)|[Hj Hwj]]%lookup_insert_cases Hwt Heq; [done| | |by eapply Hr]; simpl in *.
    + destruct (watching w') eqn:Hw'; [specialize (Hold j w' Hwj Hw'); lia|].
      apply (Hw j w' Hwj) in Hw'. subst w'. simpl in Heq. lia.
    + specialize (Hold i w Hwi Hwt). lia.
  - unfold occupied in *. simpl. congruence.
Qed.

(** What deletions and [wait] do to a watch: remove it, or change only the
    readiness it last saw. *)
Definition watch_kept (w w' : Watch) : Prop :=
  target w' = target w ∧ registration w' = registration w ∧ events w' = events w ∧
  data w' = data w ∧ (watching w = false → w' = w).
Definition watch_step (w w' : Watch) : Prop := w' = EMPTY_WATCH ∨ watch_kept w w'.

#[global] Instance watch_kept_preorder : PreOrder watch_kept.
Proof.
  split; [by intros w; split_and!|].
  intros a b c (H1 & H2 & H3 & H4 & H5) (K1 & K2 & K3 & K4 & K5). split_and!; try congruence.
  intros Hno. rewrite K5; [by apply H5|]. unfold watching in *. by rewrite H1.
Qed.

Lemma watch_step_live w w' :
  watch_step w w' → watching w' = true →
  target w' = target w ∧ registration w' = registration w ∧ watching w = true.
Proof.
  intros [->|(Ht & Hr & _)] Hw; [done|]. unfold watching in *. by rewrite <- Ht.
Qed.

Lemma slot_wf_step s ws' :
  slot_wf s → occupied s = true → Forall2 watch_step (watches s) ws' →
  slot_wf (mkSlot (e_owner s) (e_flags s) (next_registration s) ws').
Proof.
  intros [Hl Hn Hw Ht Hr Hf] Ho Hst.
  assert (∀ i w', ws' !! i = Some w' → ∃ w, watches s !! i = Some w ∧ watch_step w w') as Hback
    by (intros i w' Hi; by apply (Forall2_lookup_r _ _ _ _ _ Hst Hi)).
  split; cbn [watches next_registration]; try done.
  - by rewrite <- (Forall2_length Hst).
  - intros i w' Hi. destruct (Hback i w' Hi) as (w & Hw0 & [->|(Ht' & Hr' & Hev' & _ & Hid)]);
      [apply empty_watch_wf|]. destruct (Hw i w Hw0) as [He Hrg Hev]. split.
    + unfold watching. rewrite Ht'. intros Hno. rewrite Hid by done. by apply He.
    + unfold watching. rewrite Ht', Hr'. done.
    + by rewrite Hev'.
  - intros i j w w' Hi Hj Hwt Heq.
    destruct (Hback i w Hi) as (a & Ha & Hsa), (Hback j w' Hj) as (b & Hb & Hsb).
    destruct (watch_step_live _ _ Hsa Hwt) as (Hta & _ & Hwa).
    apply (Ht i j a b); [done..|]. rewrite <- Hta, Heq.
    eapply watch_step_live; [done|]. unfold watching in *. by rewrite <- Heq.
  - intros i j w w' Hi Hj Hwt Heq.
    destruct (Hback i w Hi) as (a & Ha & Hsa), (Hback j w' Hj) as (b & Hb & Hsb).
    destruct (watch_step_live _ _ Hsa Hwt) as (_ & Hra & Hwa).
    apply (Hr i j a b); [done..|]. destruct Hsb as [->|(_ & Hrb & _)]; [|congruence].
    simpl in Heq. pose proof (ww_registration _ _ (Hw i a Ha) Hwa). lia.
  - unfold occupied in *. simpl. congruence.
Qed.

Lemma Forall2_insert_self {A} (P : A → A → Prop) (l : list A) i x y :
  (∀ z, P z z) → l !! i = Some x → P x y → Forall2 P l (<[i := y]> l).
Proof.
  intros Hrefl Hi Hxy. apply Forall2_lookup. intros j. destruct (decide (i = j)) as [<-|Hne].
  - rewrite Hi, list_lookup_insert_eq by (by eapply lookup_lt_Some). by constructor.
  - rewrite list_lookup_insert_ne by done. destruct (l !! j); by constructor.
Qed.

Lemma Forall2_update_where {A} (P : A → A → Prop) (p : A → bool) f (l : list A) :
  (∀ x, P x (if p x then f x else x)) → Forall2 P l (update_where p f l).
Proof. intros Hp. apply Forall2_fmap_r, Forall_Forall2_diag, Forall_true. done. Qed.

(** A scanned watch that watches nothing is the empty watch, and every empty
    watch of the table is. *)
Definition empties (ws : list Watch) : Prop :=
  ∀ i w, ws !! i = Some w → watching w = false → w = EMPTY_WATCH.

Lemma publish_one_kept ws w :
  empties ws → (watching w = false → w = EMPTY_WATCH) →
  Forall2 watch_kept ws (publish_one ws w).
Proof.
  intros He Hw. unfold publish_one. destruct (position _ ws) as [pos|] eqn:Hp.
  - apply position_lookup in Hp as (c & Hc & Hm). rewrite (alter_insert_eq _ _ _ _ Hc).
    apply (Forall2_insert_self _ _ _ c); [done|done|].
    apply andb_true_iff in Hm as [Hk%bool_decide_eq_true _]. split_and!; try done.
    intros Hno. rewrite (He pos c Hc Hno). rewrite Hw; [done|].
    unfold watching in *. by rewrite <- Hk.
  - done.
Qed.

Lemma empties_kept ws ws' : empties ws → Forall2 watch_kept ws ws' → empties ws'.
Proof.
  intros He Hk i w' Hi Hno. destruct (Forall2_lookup_r _ _ _ _ _ Hk Hi) as (w & Hw & (Ht & _ & _ & _ & Hid)).
  assert (watching w = false) as Hno' by (unfold watching in *; by rewrite <- Ht).
  rewrite Hid by done. by eapply He.
Qed.

Lemma publish_kept ws scanned :
  empties ws → Forall (λ w, watching w = false → w = EMPTY_WATCH) scanned →
  Forall2 watch_kept ws (foldl publish_one ws scanned).
Proof.
  intros He Hs. revert ws He. induction Hs as [|w scanned Hw _ IH]; intros ws He; simpl.
  - done.
  - pose proof (publish_one_kept ws w He Hw) as Hk.
    etransitivity; [exact Hk|]. apply IH. by eapply empties_kept.
Qed.

Lemma slot_empties s : slot_wf s → empties (watches s).
Proof. intros Hs i w Hi Hno. by apply (sw_watch _ Hs i w Hi). Qed.

Lemma owned_occupied own s : owned_by own s = true → occupied s = true.
Proof. simpl. by intros [? _]%andb_true_iff. Qed.

Lemma ep_lookup_owned_wf t own fd i s :
  table_wf t → lookup_owned t own fd = Some (i, s) →
  t !! i = Some s ∧ slot_wf s ∧ occupied s = true.
Proof.
  intros [_ Hw] (_ & Hi & Ho)%lookup_owned_Some.
  split_and!; [done|by eapply Hw|by eapply owned_occupied].
Qed.

(** [ctl] under the lock, in closed form. *)
Lemma ctl_run own epfd op key evs dat t :
  ctl_locked own epfd op key evs dat t =
  match lookup_owned t own epfd with
  | None => (Err BadFileDescriptor, t)
  | Some (i, s) =>
      let existing := position (λ w, key_eqb (target w) key) (watches s) in
      let arm pos :=
        match next_reg (next_registration s) with
        | Some reg => (Ok tt, <[i := mkSlot (e_owner s) (e_flags s) reg
                                       (<[pos := armed key reg evs dat]> (watches s))]> t)
        | None => (Err Capacity, t)
        end in
      if op =? EPOLL_CTL_ADD then
        match existing with
        | Some _ => (Err AlreadyExists, t)
        | None =>
            match position (λ w, negb (watching w)) (watches s) with
            | Some pos => arm pos
            | None => (Err Capacity, t)
            end
        end
      else if op =? EPOLL_CTL_MOD then
        match existing with Some pos => arm pos | None => (Err NotFound, t) end
      else if op =? EPOLL_CTL_DEL then
        match existing with
        | Some pos => (Ok tt, <[i := mkSlot (e_owner s) (e_flags s) (next_registration s)
                                       (<[pos := EMPTY_WATCH]> (watches s))]> t)
        | None => (Err NotFound, t)
        end
      else (Err InvalidArgument, t)
  end.
Proof.
  unfold ctl_locked. rewrite access_run. destruct (lookup_owned t own epfd) as [[i s]|]; [|done].
  unfold store. m_unfold. destruct (op =? EPOLL_CTL_ADD).
  - destruct (position (λ w, key_eqb (target w) key) (watches s)); [done|].
    destruct (position _ (watches s)); [|done]. by destruct (next_reg _).
  - destruct (op =? EPOLL_CTL_MOD).
    + destruct (position _ (watches s)); [|done]. by destruct (next_reg _).
    + destruct (op =? EPOLL_CTL_DEL); [|done]. by destruct (position _ (watches s)).
Qed.

Lemma watching_target w key : target w = key → key_is_empty key = false → watching w = true.
Proof. intros <- Hk. unfold watching. by rewrite Hk. Qed.

Lemma ctl_locked_wf own epfd op key evs dat t :
  table_wf t → op = EPOLL_CTL_DEL ∨ key_is_empty key = false →
  and_not evs EPOLL_INTEREST_MASK = 0 → table_wf (ctl_locked own epfd op key evs dat t).2.
Proof.
  intros Hw Hk Hev. rewrite ctl_run. cbv zeta. destruct (lookup_owned t own epfd) as [[i s]|] eqn:E; [|done].
  destruct (ep_lookup_owned_wf _ _ _ _ _ Hw E) as (Hi & Hs & Ho).
  destruct (Z.eqb_spec op EPOLL_CTL_ADD) as [->|].
  { destruct Hk as [|Hk]; [done|]. destruct (position (λ w, key_eqb (target w) key) (watches s)) eqn:Hex; [done|].
    destruct (position (λ w, negb (watching w)) (watches s)) as [pos|]; [|done].
    destruct (next_reg _) as [reg|] eqn:Hreg; [|done].
    apply ep_table_wf_insert; [done|]. apply slot_wf_arm; try done.
    intros j w _ Hj Ht. rewrite position_None in Hex. specialize (Hex j w Hj).
    apply bool_decide_eq_false in Hex. done. }
  destruct (Z.eqb_spec op EPOLL_CTL_MOD) as [->|].
  { destruct Hk as [|Hk]; [done|]. destruct (position _ (watches s)) as [pos|] eqn:Hex; [|done].
    apply position_lookup in Hex as (w & Hp & Ht%bool_decide_eq_true).
    destruct (next_reg _) as [reg|] eqn:Hreg; [|done].
    apply ep_table_wf_insert; [done|]. apply slot_wf_arm; try done.
    intros j w' Hne Hj Ht'. apply Hne. apply (sw_targets _ Hs j pos w' w); [done..| |congruence].
    by eapply watching_target. }
  destruct (Z.eqb_spec op EPOLL_CTL_DEL) as [->|]; [|done].
  destruct (position _ (watches s)) as [pos|] eqn:Hex; [|done].
  apply position_lookup in Hex as (w & Hp & _).
  apply ep_table_wf_insert; [done|]. apply slot_wf_step; [done..|].
  apply (Forall2_insert_self _ _ _ w); [by right|done|by left].
Qed.

Lemma publish_run own epfd scanned t :
  wait_publish own epfd scanned t =
  match lookup_owned t own epfd with
  | None => (Err BadFileDescriptor, t)
  | Some (i, s) =>
      (Ok tt, <[i := mkSlot (e_owner s) (e_flags s) (next_registration s)
                       (foldl publish_one (watches s) scanned)]> t)
  end.
Proof.
  unfold wait_publish. rewrite access_run. by destruct (lookup_owned t own epfd) as [[i s]|].
Qed.

Lemma publish_wf own epfd scanned t :
  table_wf t → Forall (λ w, watching w = false → w = EMPTY_WATCH) scanned →
  table_wf (wait_publish own epfd scanned t).2.
Proof.
  intros Hw Hsc. rewrite publish_run. destruct (lookup_owned t own epfd) as [[i s]|] eqn:E; [|done].
  destruct (ep_lookup_owned_wf _ _ _ _ _ Hw E) as (Hi & Hs & Ho).
  apply ep_table_wf_insert; [done|]. apply slot_wf_step; [done..|].
  pose proof (publish_kept (watches s) scanned (slot_empties s Hs) Hsc) as Hk.
  eapply Forall2_impl; [|exact Hk]. by right.
Qed.

Lemma ep_close_run own epfd room t :
  close own epfd room t =
  match lookup_owned t own epfd with
  | None => (Err BadFileDescriptor, t)
  | Some (i, s) =>
      if (length (watched_targets (watches s)) <=? room)%nat
      then (Ok (watched_targets (watches s)), <[i := EMPTY]> t) else (Err Capacity, t)
  end.
Proof.
  unfold close. rewrite access_run. destruct (lookup_owned t own epfd) as [[i s]|]; [|done].
  unfold store. m_unfold. by destruct (_ <=? room)%nat.
Qed.

Lemma remove_target_wf key t : table_wf t → table_wf (remove_target key t).2.
Proof.
  intros [Hl Hw]. unfold remove_target. simpl. split; [by rewrite length_fmap|].
  intros i s'. rewrite list_lookup_fmap. intros (s & Hi & ->)%fmap_Some.
  destruct (occupied s) eqn:Ho; [|by eapply Hw]. apply slot_wf_step; [by eapply Hw|done|].
  apply Forall2_update_where. intros w. destruct (key_eqb _ _); [by left|by right].
Qed.

Lemma empty_slot_wf : slot_wf EMPTY.
Proof. by apply fresh_slot_wf. Qed.

Lemma ep_create_wf own flg t : table_wf t → table_wf (create own flg t).2.
Proof.
  intros Hw. unfold create, store. m_unfold. destruct (valid_owner own) eqn:Hv; [|done]. simpl.
  destruct (_ =? 0); [|done]. destruct (position _ t); [|done]. cbn.
  apply ep_table_wf_insert; [done|]. apply fresh_slot_wf. congruence.
Qed.

Lemma ep_close_wf own epfd room t : table_wf t → table_wf (close own epfd room t).2.
Proof.
  intros Hw. rewrite ep_close_run. destruct (lookup_owned t own epfd) as [[i s]|]; [|done].
  destruct (_ <=? room)%nat; [|done]. apply ep_table_wf_insert; [done|apply empty_slot_wf].
Qed.

Lemma visit_kept watch answer room :
  watching watch = true → watch_kept watch (visit watch answer room).1.
Proof.
  intros Hw. unfold visit, watch_kept. simpl. split_and!; try done. congruence.
Qed.

Section Runs.
Context {W : Type} `{RW : !ReadinessWorld W}.

Lemma scan_kept ws room w :
  let '(ws', _, w') := scan ws room w in Forall2 watch_kept ws ws' ∧ epolls w' = epolls w.
Proof.
  revert room w. induction ws as [|watch ws IH]; intros room w; cbn [scan]; [done|].
  destruct (watching watch) eqn:Hw.
  - destruct (target_readiness (target watch) w) as [answer w1] eqn:Ha.
    pose proof (epolls_readiness (target watch) w) as He. rewrite Ha in He. simpl in He.
    pose proof (visit_kept watch answer (0 <? room)%nat Hw) as Hk.
    destruct (visit watch answer _) as [watch' ev]. simpl in Hk.
    specialize (IH (match ev with Some _ => (room - 1)%nat | None => room end) w1).
    destruct (scan ws _ w1) as [[ws' evs] w2]. destruct IH as [Hk' He'].
    split; [by constructor|congruence].
  - specialize (IH room w). destruct (scan ws room w) as [[ws' evs] w2]. destruct IH as [Hk' He'].
    split; [by constructor|done].
Qed.

Lemma scanned_empties ws ws' :
  empties ws → Forall2 watch_kept ws ws' →
  Forall (λ w, watching w = false → w = EMPTY_WATCH) ws'.
Proof. intros He Hk. apply Forall_lookup. intros i w Hi. by apply (empties_kept _ _ He Hk i w Hi). Qed.

(** [wait] in closed form. *)
Lemma wait_run own epfd room w :
  room ≠ O →
  wait own epfd room w =
  match lookup_owned (epolls w) own epfd with
  | None => (Err BadFileDescriptor, set_epolls (epolls w) w)
  | Some (i, s) =>
      let '(ws', evs, w') := scan (watches s) room (set_epolls (epolls w) w) in
      (Ok evs, set_epolls (<[i := mkSlot (e_owner s) (e_flags s) (next_registration s)
                                    (foldl publish_one (watches s) ws')]> (epolls w)) w')
  end.
Proof.
  intros Hr. unfold wait, on_epolls. m_unfold. destruct (Nat.eqb_spec room 0); [done|]. simpl.
  unfold wait_snapshot. rewrite access_run.
  destruct (lookup_owned (epolls w) own epfd) as [[i s]|] eqn:E; simpl; [|done].
  pose proof (scan_kept (watches s) room (set_epolls (epolls w) w)) as Hk.
  destruct (scan _ room _) as [[ws' evs] w'] eqn:Hs. simpl. destruct Hk as [_ He].
  rewrite epolls_set in He. rewrite He, publish_run, E. done.
Qed.

Inductive Op :=
| OpCreate (own : ProcessHandle) (flg : Z)
| OpCtl (own : ProcessHandle) (epfd operation : Z) (key : ObjectKey) (evs dat : Z)
| OpWait (own : ProcessHandle) (epfd : Z) (room : nat)
| OpReadiness (own : ProcessHandle) (epfd : Z)
| OpClose (own : ProcessHandle) (epfd : Z) (room : nat)
| OpRemove (key : ObjectKey).

Definition exec (op : Op) (w : W) : W :=
  match op with
  | OpCreate own flg => (on_epolls (create own flg) w).2
  | OpCtl own epfd operation key evs dat => (ctl own epfd operation key evs dat w).2
  | OpWait own epfd room => (wait own epfd room w).2
  | OpReadiness own epfd => (readiness own epfd w).2
  | OpClose own epfd room => (on_epolls (close own epfd room) w).2
  | OpRemove key => set_epolls (remove_target key (epolls w)).2 w
  end.

Definition exec_all (ops : list Op) (w : W) : W := foldl (λ w op, exec op w) w ops.

Lemma on_epolls_state {A} (m : TM A) w :
  epolls (on_epolls m w).2 = (m (epolls w)).2.
Proof. unfold on_epolls, zoom. destruct (m (epolls w)) as [r t]. apply epolls_set. Qed.

Lemma poll_epolls ws w : epolls (poll ws w).2 = epolls w.
Proof.
  revert w. induction ws as [|watch ws IH]; intros w; simpl; [done|].
  destruct (watching watch); [|done]. pose proof (epolls_readiness (target watch) w) as He.
  destruct (target_readiness (target watch) w) as [answer w1]. simpl in He.
  destruct (pending watch answer); simpl; [done|]. by rewrite IH.
Qed.

Lemma ctl_wf own epfd op key evs dat w :
  table_wf (epolls w) → table_wf (epolls (ctl own epfd op key evs dat w).2).
Proof.
  intros Hw. unfold ctl. m_unfold.
  destruct (Z.eqb_spec (and_not evs EPOLL_INTEREST_MASK) 0) as [Hev|]; [|done].
  destruct (Z.eqb_spec op EPOLL_CTL_DEL) as [->|Hop].
  - rewrite on_epolls_state. apply ctl_locked_wf; [done|by left|done].
  - pose proof (epolls_readiness key w) as He. pose proof (readiness_empty key w) as Hem.
    destruct (target_readiness key w) as [answer w1]. simpl in *.
    destruct (bool_decide _) eqn:Ha; [|simpl; by rewrite He].
    rewrite on_epolls_state, He. apply ctl_locked_wf; [done| |done]. right.
    destruct (key_is_empty key); [|done]. rewrite Hem in Ha by done. done.
Qed.

Lemma wait_wf own epfd room w :
  table_wf (epolls w) → table_wf (epolls (wait own epfd room w).2).
Proof.
  intros Hw. destruct (decide (room = O)) as [->|Hr]; [done|]. rewrite wait_run by done.
  destruct (lookup_owned (epolls w) own epfd) as [[i s]|] eqn:E; simpl; [|by rewrite epolls_set].
  destruct (ep_lookup_owned_wf _ _ _ _ _ Hw E) as (Hi & Hs & Ho).
  pose proof (scan_kept (watches s) room (set_epolls (epolls w) w)) as Hk.
  destruct (scan _ room _) as [[ws' evs] w']. destruct Hk as [Hk _]. simpl. rewrite epolls_set.
  pose proof (publish_wf own epfd ws' (epolls w) Hw) as Hp. rewrite publish_run, E in Hp.
  apply Hp. by eapply scanned_empties; [apply slot_empties|].
Qed.

Lemma ep_exec_wf op w : table_wf (epolls w) → table_wf (epolls (exec op w)).
Proof.
  intros Hw. destruct op; simpl.
  - rewrite on_epolls_state. by apply ep_create_wf.
  - by apply ctl_wf.
  - by apply wait_wf.
  - unfold readiness, on_epolls. m_unfold. unfold wait_snapshot. rewrite access_run.
    destruct (lookup_owned (epolls w) own epfd) as [[i s]|]; simpl; [|by rewrite epolls_set].
    pose proof (poll_epolls (watches s) (set_epolls (epolls w) w)) as Hp.
    destruct (poll _ _) as [r w']. simpl in *. by rewrite Hp, epolls_set.
  - rewrite on_epolls_state. by apply ep_close_wf.
  - rewrite epolls_set. by apply remove_target_wf.
Qed.

Lemma ep_exec_all_wf ops w : table_wf (epolls w) → table_wf (epolls (exec_all ops w)).
Proof. revert w. induction ops as [|op ops IH]; intros w Hw; simpl; [done|]. by apply IH, ep_exec_wf. Qed.

(** Whatever the descriptor layer answers, every sequence of epoll
    operations keeps the table well formed: within an instance an object is
    watched at most once, registration numbers are unique and never reused, and
    a slot without a watch or an owner is empty. *)
Theorem epoll_table_wf (ops : list Op) (w : W) :
  table_wf (epolls w) → table_wf (epolls (exec_all ops w)).
Proof. apply ep_exec_all_wf. Qed.
End Runs.

(** ** What a wait reports

    For the moment of a call, a descriptor layer in which asking is a pure
    observation. *)

Class StableWorld (W : Type) `{RW : !ReadinessWorld W} := {
  answer : W → ObjectKey → option (Z * Z);
  answer_now : ∀ w k, (target_readiness k w).1 = answer w k;
  answer_after : ∀ w k k', answer (target_readiness k w).2 k' = answer w k';
  answer_set : ∀ w t k, answer (set_epolls t w) k = answer w k;
}.

(** What a watch contributes to the output, given the answers of the targets. *)
Definition report (ans : ObjectKey → option (Z * Z)) (watch : Watch) : option ReadyEvent :=
  if watching watch then (visit watch (ans (target watch)) true).2 else None.

(** The watch after a visit with space in the output. *)
Definition visited (ans : ObjectKey → option (Z * Z)) (watch : Watch) : Watch :=
  if watching watch then (visit watch (ans (target watch)) true).1 else watch.

Lemma visit_no_room watch a : (visit watch a false).2 = None.
Proof. unfold visit. simpl. by rewrite andb_false_r. Qed.

(** Publishing what was scanned from an unchanged slot stores it. *)
Section Publish.
Context (s : EpollSlot) (Hs : slot_wf s).

Lemma publish_empty ws : empties ws → publish_one ws EMPTY_WATCH = ws.
Proof.
  intros He. unfold publish_one. destruct (position _ ws) as [pos|] eqn:Hp; [|done].
  apply position_lookup in Hp as (c & Hc & [Hk%bool_decide_eq_true _]%andb_true_iff).
  rewrite (alter_insert_eq _ _ _ _ Hc). simpl in Hk.
  assert (c = EMPTY_WATCH) as -> by (apply (He pos c Hc); unfold watching; by rewrite Hk).
  by apply list_insert_id.
Qed.

Lemma publish_at ws pos c w :
  Forall2 watch_kept (watches s) ws → ws !! pos = Some c → watch_kept c w → watching c = true →
  publish_one ws w = <[pos := w]> ws.
Proof.
  intros Hk Hc (Ht & Hr & He & Hd & _) Hwt. unfold publish_one.
  assert (position (λ c0, key_eqb (target c0) (target w) && (registration c0 =? registration w)) ws
    = Some pos) as ->.
  { apply position_Some. exists c. split; [done|].
    rewrite Ht, Hr, Z.eqb_refl. unfold key_eqb. rewrite bool_decide_true by done. split; [done|].
    intros j y Hj Hy. apply andb_false_iff. left. apply bool_decide_eq_false. intros Heq.
    destruct (Forall2_lookup_r _ _ _ _ _ Hk Hy) as (y0 & Hy0 & (Hty & _)).
    destruct (Forall2_lookup_r _ _ _ _ _ Hk Hc) as (c0 & Hc0 & (Htc & _)).
    assert (pos = j); [|lia]. apply (sw_targets _ Hs pos j c0 y0); [done..| |congruence].
    unfold watching in *. by rewrite <- Htc. }
  rewrite (alter_insert_eq _ _ _ _ Hc). f_equal. destruct w. simpl in *. by subst.
Qed.

Lemma publish_prefix ws' k :
  Forall2 watch_kept (watches s) ws' → (k ≤ length ws')%nat →
  foldl publish_one (watches s) (take k ws') = take k ws' ++ drop k (watches s).
Proof.
  intros Hk. induction k as [|k IH]; intros Hlen; [done|].
  destruct (lookup_lt_is_Some_2 ws' k) as [w Hw]; [lia|].
  destruct (Forall2_lookup_r _ _ _ _ _ Hk Hw) as (c & Hc & Hcw).
  rewrite (take_S_r _ _ _ Hw), foldl_app, IH by lia. simpl.
  assert (length (take k ws') = k) as Hl by (rewrite length_take; lia).
  assert (Forall2 watch_kept (watches s) (take k ws' ++ drop k (watches s))) as Hmid.
  { rewrite <- (take_drop k (watches s)) at 1. apply Forall2_app; [by apply Forall2_take|done]. }
  assert ((take k ws' ++ drop k (watches s)) !! k = Some c) as Hmidk.
  { rewrite lookup_app_r, Hl, Nat.sub_diag, lookup_drop by lia. by rewrite Nat.add_0_r. }
  rewrite (drop_S _ _ _ Hc) in *. destruct (watching c) eqn:Hwt.
  - rewrite (publish_at _ k c w) by done. rewrite insert_app_r_alt by lia.
    rewrite Hl, Nat.sub_diag. simpl. by rewrite <- app_assoc.
  - assert (w = EMPTY_WATCH) as ->.
    { destruct Hcw as (_ & _ & _ & _ & Hid). rewrite Hid by done. by apply (slot_empties s Hs k c). }
    assert (c = EMPTY_WATCH) as -> by by apply (slot_empties s Hs k c).
    rewrite publish_empty; [by rewrite <- app_assoc|].
    eapply empties_kept; [by apply slot_empties|exact Hmid].
Qed.

Lemma publish_all ws' :
  Forall2 watch_kept (watches s) ws' → foldl publish_one (watches s) ws' = ws'.
Proof.
  intros Hk. pose proof (publish_prefix ws' (length ws') Hk ltac:(done)) as Hp.
  rewrite firstn_all, drop_ge, app_nil_r in Hp; [done|]. by rewrite (Forall2_length Hk).
Qed.
End Publish.

Section Reports.
Context {W : Type} `{RW : !ReadinessWorld W} `{SW : !StableWorld W}.

Lemma omap_report_cons ans watch ws :
  omap (report ans) (watch :: ws) = option_list (report ans watch) ++ omap (report ans) ws.
Proof. simpl. by destruct (report ans watch). Qed.

Lemma scan_events ans ws room w :
  (∀ k, answer w k = ans k) →
  let '(ws', evs, w') := scan ws room w in
  evs = take room (omap (report ans) ws) ∧
  (∀ k, answer w' k = ans k) ∧
  ((length ws ≤ room)%nat → ws' = visited ans <$> ws).
Proof.
  revert room w. induction ws as [|watch ws IH]; intros room w Hans; cbn [scan].
  { split_and!; [by destruct room|done..]. }
  rewrite fmap_cons, omap_report_cons. unfold report at 1, visited at 1.
  destruct (watching watch) eqn:Hw.
  - pose proof (answer_now w (target watch)) as Hn. pose proof (answer_after w (target watch)) as Hc.
    destruct (target_readiness (target watch) w) as [a w1]. simpl in Hn, Hc. rewrite Hans in Hn. subst a.
    assert (∀ k, answer w1 k = ans k) as Hans1 by (intros k; by rewrite Hc).
    destruct room as [|room].
    + change (0 <? 0)%nat with false. pose proof (visit_no_room watch (ans (target watch))) as Hnr.
      destruct (visit watch (ans (target watch)) false) as [watch' ev]. simpl in Hnr. subst ev.
      specialize (IH O w1 Hans1). destruct (scan ws O w1) as [[ws' evs] w2]. destruct IH as (-> & Ha & _).
      split_and!; [done|done|simpl; lia].
    + change (0 <? S room)%nat with true.
      destruct (visit watch (ans (target watch)) true) as [watch' ev]. cbn [fst snd].
      specialize (IH (match ev with Some _ => (S room - 1)%nat | None => S room end) w1 Hans1).
      destruct (scan ws _ w1) as [[ws' evs] w2]. destruct IH as (-> & Ha & Hv). split_and!; [|done|].
      * destruct ev; simpl; [by rewrite Nat.sub_0_r|done].
      * intros Hl. simpl in Hl. rewrite Hv; [done|]. destruct ev; lia.
  - specialize (IH room w Hans). destruct (scan ws room w) as [[ws' evs] w2].
    destruct IH as (-> & Ha & Hv). split_and!; [done|done|]. intros Hl. simpl in Hl. rewrite Hv; [done|lia].
Qed.

(** The world after a wait whose output holds every watch. *)
Lemma wait_reports own epfd room w i s :
  table_wf (epolls w) → lookup_owned (epolls w) own epfd = Some (i, s) → room ≠ O →
  ∃ w', wait own epfd room w = (Ok (take room (omap (report (answer w)) (watches s))), w') ∧
    (∀ k, answer w' k = answer w k) ∧
    ((MAXIMUM_EPOLL_WATCHES ≤ room)%nat →
     epolls w' = <[i := mkSlot (e_owner s) (e_flags s) (next_registration s)
                          (visited (answer w) <$> watches s)]> (epolls w)).
Proof.
  intros Hw E Hr. destruct (ep_lookup_owned_wf _ _ _ _ _ Hw E) as (Hi & Hs & Ho).
  rewrite wait_run, E by done.
  pose proof (scan_events (answer w) (watches s) room (set_epolls (epolls w) w)
    ltac:(intros k; apply answer_set)) as Hsc.
  pose proof (scan_kept (watches s) room (set_epolls (epolls w) w)) as Hk.
  destruct (scan _ room _) as [[ws' evs] w']. destruct Hsc as (-> & Ha & Hv), Hk as [Hk _].
  eexists. split; [done|]. split; [intros k; by rewrite answer_set|].
  intros Hlen. rewrite epolls_set, publish_all by done. rewrite Hv; [done|]. by rewrite (sw_length _ Hs).
Qed.

(** C17. A wait reports exactly the watches that are due, in the order of the
    table and as many as the output holds; it fails only for an empty output or
    a foreign descriptor, and never changes what the targets answer. *)
Theorem epoll_wait_reports (own : ProcessHandle) (epfd : Z) (room : nat) (w : W) :
  table_wf (epolls w) →
  (wait own epfd room w).1 =
    (if (room =? 0)%nat then Err InvalidArgument
     else match lookup_owned (epolls w) own epfd with
          | None => Err BadFileDescriptor
          | Some (_, s) => Ok (take room (omap (report (answer w)) (watches s)))
          end) ∧
  (∀ k, answer (wait own epfd room w).2 k = answer w k).
Proof.
  intros Hw. destruct (Nat.eqb_spec room 0) as [->|Hr]; [done|].
  destruct (lookup_owned (epolls w) own epfd) as [[i s]|] eqn:E.
  - by destruct (wait_reports own epfd room w i s Hw E Hr) as (w' & -> & Ha & _).
  - rewrite wait_run, E by done. split; [done|]. intros k. apply answer_set.
Qed.
End Reports.

(** After a visit, an edge-triggered watch on a live target remembers whether
    it was ready and the generation it saw. *)
Lemma visit_edge watch ready gen :
  is_edge watch = true →
  let watch' := (visit watch (Some (ready, gen)) true).1 in
  edge_seen watch' = negb (interest watch ready =? 0) ∧
  (edge_seen watch' = true → last_generation watch' = gen).
Proof.
  intros He. unfold visit. simpl. rewrite He, andb_true_r. simpl.
  destruct (interest watch ready =? 0); simpl; [done|].
  destruct (edge_seen watch), (Z.eqb_spec (last_generation watch) gen); simpl; done.
Qed.

(** Whether a visit reports an edge-triggered watch on a live target. *)
Lemma visit_edge_reports watch ready gen :
  is_edge watch = true →
  is_Some (visit watch (Some (ready, gen)) true).2 ↔
  interest watch ready ≠ 0 ∧ (edge_seen watch = false ∨ last_generation watch ≠ gen).
Proof.
  intros He. unfold visit. simpl. rewrite He, andb_true_r.
  destruct (Z.eqb_spec (interest watch ready) 0); simpl; [split; [by intros [??]|by intros [? _]]|].
  destruct (edge_seen watch), (Z.eqb_spec (last_generation watch) gen); simpl;
    (split; [intros [? ?]|]); try done; try by (intros _; eexists).
  - intros [_ [?|?]]; done.
  - split; [done|]. by right.
  - split; [done|]. by left.
  - split; [done|]. by left.
Qed.

Lemma visited_kept ans watch : watch_kept watch (visited ans watch).
Proof. unfold visited. destruct (watching watch) eqn:Hw; [by apply visit_kept|done]. Qed.

Section Edges.
Context {W : Type} `{RW : !ReadinessWorld W} `{SW : !StableWorld W}.

(** C11. Edge-triggered watches report changes: after a wait that could report
    everything, and whatever happens to the targets in between, the next wait
    reports such a watch on a live target exactly when the target is ready and
    either was not ready at the first wait or has moved to another generation
    since; a level-triggered one whenever the target is ready. *)
Theorem epoll_edge_triggered (own : ProcessHandle) (epfd : Z) (room : nat) (w w1 w2 : W)
    (i : nat) (s : EpollSlot) (evs : list ReadyEvent) :
  table_wf (epolls w) → lookup_owned (epolls w) own epfd = Some (i, s) →
  (MAXIMUM_EPOLL_WATCHES ≤ room)%nat →
  wait own epfd room w = (Ok evs, w1) → epolls w2 = epolls w1 →
  ∃ s', lookup_owned (epolls w2) own epfd = Some (i, s') ∧
    (wait own epfd room w2).1 = Ok (take room (omap (report (answer w2)) (watches s'))) ∧
    Forall2 (λ watch watch', watching watch = true →
      ∀ ready1 gen1 ready2 gen2,
        answer w (target watch) = Some (ready1, gen1) →
        answer w2 (target watch) = Some (ready2, gen2) →
        is_Some (report (answer w2) watch') ↔
          interest watch ready2 ≠ 0 ∧
          (is_edge watch = true → interest watch ready1 = 0 ∨ gen1 ≠ gen2))
      (watches s) (watches s').
Proof.
  intros Hw E Hroom Hrun Heq. assert (room ≠ O) as Hr by (unfold MAXIMUM_EPOLL_WATCHES in *; lia).
  destruct (wait_reports own epfd room w i s Hw E Hr) as (w1' & Hrun' & _ & Hst).
  rewrite Hrun in Hrun'. injection Hrun' as -> <-. specialize (Hst Hroom).
  pose proof (wait_wf own epfd room w Hw) as Hw1. rewrite Hrun in Hw1. simpl in Hw1.
  rewrite <- Heq in Hst, Hw1. set (s' := mkSlot _ _ _ _) in Hst.
  apply lookup_owned_Some in E as (Hfd & Hi & Hown).
  assert (lookup_owned (epolls w2) own epfd = Some (i, s')) as E'.
  { apply lookup_owned_Some. split_and!; [done| |done]. rewrite Hst. apply list_lookup_insert_eq.
    by eapply lookup_lt_Some. }
  exists s'. split; [done|].
  destruct (wait_reports own epfd room w2 i s' Hw1 E' Hr) as (w3 & -> & _). split; [done|].
  apply Forall2_fmap_r, Forall_Forall2_diag, Forall_true. intros watch Hwt r1 g1 r2 g2 H1 H2.
  destruct (visited_kept (answer w) watch) as (Ht & _ & Hev & _). unfold report.
  assert (watching (visited (answer w) watch) = true) as -> by (unfold watching in *; by rewrite Ht).
  rewrite Ht, H2. unfold visited. rewrite Hwt, H1.
  set (watch' := (visit watch (Some (r1, g1)) true).1) in *.
  assert (is_edge watch' = is_edge watch) as Hedge by done.
  assert (∀ r, interest watch' r = interest watch r) as Hint by done.
  destruct (is_edge watch) eqn:He.
  - rewrite visit_edge_reports, Hint by done.
    destruct (visit_edge watch r1 g1 He) as [Hseen Hgen]. fold watch' in Hseen, Hgen. rewrite Hseen in *.
    destruct (Z.eqb_spec (interest watch r1) 0); simpl in *.
    + split; (intros [? _]; split; [done|]); auto.
    + rewrite (Hgen eq_refl). apply and_iff_compat_l. split; [intros [?|?]; [done|by right]|].
      intros Hc. destruct (Hc eq_refl); [done|by right].
  - unfold visit. rewrite Hedge, Hint. simpl. rewrite andb_true_r.
    destruct (Z.eqb_spec (interest watch r2) 0); simpl.
    + split; [by intros [? ?]|by intros [? _]].
    + split; [by intros _|intros _; by eexists].
Qed.

(** Whether a poll on the epoll descriptor sees a watch is whether a wait
    would report it, on live targets. *)
Lemma pending_reports watch a : is_Some a → pending watch a = bool_decide (is_Some (visit watch a true).2).
Proof.
  intros [[ready gen] ->]. unfold pending, visit. simpl. rewrite andb_true_r.
  by destruct (interest watch ready =? 0), (is_edge watch), (edge_seen watch), (last_generation watch =? gen).
Qed.

Lemma poll_run ans ws w :
  (∀ k, answer w k = ans k) →
  (∀ j watch, ws !! j = Some watch → watching watch = true → is_Some (ans (target watch))) →
  (poll ws w).1 = match omap (report ans) ws with [] => 0 | _ => EPOLLIN end.
Proof.
  revert w. induction ws as [|watch ws IH]; intros w Hans Hlive; cbn [poll]; [done|].
  rewrite omap_report_cons. unfold report at 1.
  assert (∀ j y, ws !! j = Some y → watching y = true → is_Some (ans (target y))) as Hrest
    by (intros j y Hy; by apply (Hlive (S j))).
  destruct (watching watch) eqn:Hw; [|by apply IH].
  pose proof (answer_now w (target watch)) as Hn. pose proof (answer_after w (target watch)) as Hc.
  destruct (target_readiness (target watch) w) as [a w1]. simpl in Hn, Hc. rewrite Hans in Hn. subst a.
  rewrite pending_reports by by apply (Hlive O).
  destruct (visit watch (ans (target watch)) true).2 as [ev|]; simpl.
  - done.
  - apply IH; [|done]. intros k. by rewrite Hc.
Qed.

(** Polling an epoll descriptor is accurate: while every watched object is
    alive, it is readable exactly when a wait with a non-empty output would
    return an event. *)
Theorem epoll_readiness_predicts_wait (own : ProcessHandle) (epfd : Z) (room : nat) (w : W)
    (i : nat) (s : EpollSlot) :
  table_wf (epolls w) → lookup_owned (epolls w) own epfd = Some (i, s) → room ≠ O →
  (∀ j watch, watches s !! j = Some watch → watching watch = true →
     is_Some (answer w (target watch))) →
  ∃ evs, (wait own epfd room w).1 = Ok evs ∧
    (readiness own epfd w).1 = Ok (match evs with [] => 0 | _ => EPOLLIN end).
Proof.
  intros Hw E Hr Hlive. destruct (wait_reports own epfd room w i s Hw E Hr) as (w' & -> & _).
  eexists. split; [done|]. unfold readiness, on_epolls. m_unfold. unfold wait_snapshot.
  rewrite access_run, E. simpl.
  pose proof (poll_run (answer w) (watches s) (set_epolls (epolls w) w)
    ltac:(intros k; apply answer_set) Hlive) as Hp.
  destruct (poll _ _) as [r w2]. simpl in *. rewrite Hp. f_equal.
  destruct room as [|room]; [done|]. by destruct (omap _ (watches s)).
Qed.
End Edges.

(** A successful ADD or MOD stores a watch with the next registration number. *)
Lemma ctl_arms own epfd op key evs dat t t1 i s :
  lookup_owned t own epfd = Some (i, s) → slot_wf s → op ≠ EPOLL_CTL_DEL →
  ctl_locked own epfd op key evs dat t = (Ok tt, t1) →
  ∃ pos s1, (pos < length (watches s))%nat ∧ t1 = <[i := s1]> t ∧ e_owner s1 = e_owner s ∧
    watches s1 = <[pos := armed key (next_registration s + 1) evs dat]> (watches s).
Proof.
  intros E Hs Hop. rewrite ctl_run, E. cbv zeta.
  assert (∀ reg, next_reg (next_registration s) = Some reg → reg = next_registration s + 1) as Hreg.
  { unfold next_reg. intros reg. destruct (checked_add _ _ _) as [r|] eqn:Ha; [|done].
    apply checked_add_Some in Ha as [-> _]. destruct (_ =? 0); [done|]. by intros [= <-]. }
  destruct (op =? EPOLL_CTL_ADD).
  - destruct (position (λ w, key_eqb (target w) key) (watches s)); [done|].
    destruct (position _ (watches s)) as [pos|] eqn:Hp; [|done].
    destruct (next_reg _) as [reg|]; [|done]. intros [= <-]. rewrite (Hreg reg) by done.
    exists pos. eexists. split; [by eapply position_lt|done].
  - destruct (op =? EPOLL_CTL_MOD).
    + destruct (position _ (watches s)) as [pos|] eqn:Hp; [|done].
      destruct (next_reg _) as [reg|]; [|done]. intros [= <-]. rewrite (Hreg reg) by done.
      exists pos. eexists. split; [by eapply position_lt|done].
    + by destruct (Z.eqb_spec op EPOLL_CTL_DEL).
Qed.

(** Publishing leaves alone a watch whose registration none of the scanned
    watches has. *)
Lemma publish_keeps ws scanned pos w :
  Forall (λ x, registration x ≠ registration w) scanned → ws !! pos = Some w →
  foldl publish_one ws scanned !! pos = Some w.
Proof.
  intros Hs. revert ws. induction Hs as [|x scanned Hx _ IH]; intros ws Hp; simpl; [done|].
  apply IH. unfold publish_one. destruct (position _ ws) as [k|] eqn:Hk; [|done].
  apply position_lookup in Hk as (c & Hc & [_ Hr%Z.eqb_eq]%andb_true_iff).
  rewrite (alter_insert_eq _ _ _ _ Hc). rewrite list_lookup_insert_ne; [done|]. congruence.
Qed.

(** A watch armed while a wait is scanning is not overwritten by it: after
    an ADD or MOD that runs between the snapshot of a wait and its write-back,
    the write-back leaves the new registration exactly as it was armed, so its
    first event is not lost. *)
Theorem epoll_rearm_survives_wait (own : ProcessHandle) (epfd op : Z) (key : ObjectKey)
    (evs dat : Z) (t t1 t2 : Table) (i : nat) (s : EpollSlot) (scanned : list Watch) :
  table_wf t → lookup_owned t own epfd = Some (i, s) → op ≠ EPOLL_CTL_DEL →
  Forall2 watch_kept (watches s) scanned →
  ctl_locked own epfd op key evs dat t = (Ok tt, t1) →
  wait_publish own epfd scanned t1 = (Ok tt, t2) →
  ∃ s2 pos, lookup_owned t2 own epfd = Some (i, s2) ∧
    watches s2 !! pos = Some (armed key (next_registration s + 1) evs dat).
Proof.
  intros Hw E Hop Hsc Hctl Hpub.
  destruct (ep_lookup_owned_wf _ _ _ _ _ Hw E) as (Hi & Hs & Ho).
  destruct (ctl_arms _ _ _ _ _ _ _ _ _ _ E Hs Hop Hctl) as (pos & s1 & Hpos & -> & Hown & Hws).
  apply lookup_owned_Some in E as (Hfd & _ & Hby). pose proof (lookup_lt_Some _ _ _ Hi) as Hlt.
  assert (∀ x, e_owner x = e_owner s → owned_by own x = true) as Howned.
  { intros x Hx. revert Hby. simpl. unfold occupied. by rewrite Hx. }
  assert (lookup_owned (<[i := s1]> t) own epfd = Some (i, s1)) as E1.
  { apply lookup_owned_Some. split_and!; [done|by apply list_lookup_insert_eq|by apply Howned]. }
  rewrite publish_run, E1 in Hpub. injection Hpub as <-. rewrite list_insert_insert_eq.
  eexists _, pos. split.
  - apply lookup_owned_Some. split_and!; [done|by apply list_lookup_insert_eq|by apply Howned].
  - simpl. apply publish_keeps; [|rewrite Hws; by apply list_lookup_insert_eq].
    apply Forall_lookup. intros j x Hj. simpl.
    destruct (Forall2_lookup_r _ _ _ _ _ Hsc Hj) as (x0 & Hx0 & (_ & -> & _)).
    destruct (sw_watch _ Hs j x0 Hx0) as [Hem Hrg _]. pose proof (sw_next _ Hs) as Hn. unfold is_u64 in Hn.
    destruct (watching x0) eqn:Hwt; [specialize (Hrg eq_refl); lia|]. rewrite Hem by done. simpl. lia.
Qed.

(** ** Witnesses *)

(** A descriptor layer with fixed answers. *)
Record FixedWorld := mkFixed {
  fw_epolls : Table;
  fw_answers : list (ObjectKey * (Z * Z));
}.

Fixpoint fixed_answer (l : list (ObjectKey * (Z * Z))) (k : ObjectKey) : option (Z * Z) :=
  match l with
  | [] => None
  | (k', a) :: l => if key_eqb k' k then Some a else fixed_answer l k
  end.

#[global] Program Instance fixed_world : ReadinessWorld FixedWorld := {
  epolls := fw_epolls;
  set_epolls := λ t w, mkFixed t (fw_answers w);
  target_readiness := λ k w, (if key_is_empty k then None else fixed_answer (fw_answers w) k, w);
}.
Next Obligation. done. Qed.
Next Obligation. done. Qed.
Next Obligation. intros k w Hk. simpl. by rewrite Hk. Qed.

#[global] Program Instance fixed_stable : StableWorld FixedWorld := {
  answer := λ w k, if key_is_empty k then None else fixed_answer (fw_answers w) k;
}.
Next Obligation. done. Qed.
Next Obligation. done. Qed.
Next Obligation. done. Qed.

Definition sample_owner : ProcessHandle := mkHandle 2 1.
Definition pipe_key : ObjectKey := mkKey 5 1.
Definition timer_key : ObjectKey := mkKey 6 1.
Definition sample_answers : list (ObjectKey * (Z * Z)) :=
  [(pipe_key, (EPOLLIN, 7)); (timer_key, (EPOLLIN, 3))].
(** Instance 0x1000 watches a pipe edge-triggered and a timer level-triggered. *)
Definition sample_world : FixedWorld :=
  exec_all [OpCreate sample_owner 0;
            OpCtl sample_owner 0x1000 EPOLL_CTL_ADD pipe_key (Z.lor EPOLLIN EPOLLET) 11;
            OpCtl sample_owner 0x1000 EPOLL_CTL_ADD timer_key EPOLLIN 22]
    (mkFixed EPOLLS sample_answers).
Definition sample_slot : EpollSlot := slot_at EMPTY (fw_epolls sample_world) 0.

Lemma epoll_table_wf_witness : table_wf (epolls sample_world).
Proof. apply epoll_table_wf. exact ep_table_wf_boot. Defined.

Lemma sample_world_wf : table_wf (epolls sample_world).
Proof.
  apply ep_exec_all_wf. exact ep_table_wf_boot.
Qed.

Lemma epoll_wait_reports_witness :
  (wait sample_owner 0x1000 8 sample_world).1 =
    Ok (take 8 (omap (report (answer sample_world)) (watches sample_slot))) ∧
  (∀ k, answer (wait sample_owner 0x1000 8 sample_world).2 k = answer sample_world k).
Proof. exact (epoll_wait_reports sample_owner 0x1000 8 sample_world sample_world_wf). Defined.

Definition later_world : FixedWorld :=
  mkFixed (fw_epolls (wait sample_owner 0x1000 64 sample_world).2)
    [(pipe_key, (EPOLLIN, 8)); (timer_key, (EPOLLIN, 3))].

Lemma epoll_edge_triggered_witness :
  ∃ s', lookup_owned (epolls later_world) sample_owner 0x1000 = Some (0%nat, s') ∧
    (wait sample_owner 0x1000 64 later_world).1 =
      Ok (take 64 (omap (report (answer later_world)) (watches s'))) ∧
    Forall2 (λ watch watch', watching watch = true →
      ∀ ready1 gen1 ready2 gen2,
        answer sample_world (target watch) = Some (ready1, gen1) →
        answer later_world (target watch) = Some (ready2, gen2) →
        is_Some (report (answer later_world) watch') ↔
          interest watch ready2 ≠ 0 ∧
          (is_edge watch = true → interest watch ready1 = 0 ∨ gen1 ≠ gen2))
      (watches sample_slot) (watches s').
Proof.
  apply (epoll_edge_triggered sample_owner 0x1000 64 sample_world
    (wait sample_owner 0x1000 64 sample_world).2 later_world 0 sample_slot
    [mkEvent EPOLLIN 11; mkEvent EPOLLIN 22]).
  - exact sample_world_wf.
  - vm_compute. reflexivity.
  - unfold MAXIMUM_EPOLL_WATCHES. lia.
  - vm_compute. reflexivity.
  - reflexivity.
Defined.

Lemma epoll_readiness_predicts_wait_witness :
  ∃ evs, (wait sample_owner 0x1000 1 sample_world).1 = Ok evs ∧
    (readiness sample_owner 0x1000 sample_world).1 = Ok (match evs with [] => 0 | _ => EPOLLIN end).
Proof.
  apply (epoll_readiness_predicts_wait sample_owner 0x1000 1 sample_world 0 sample_slot).
  - exact sample_world_wf.
  - vm_compute. reflexivity.
  - done.
  - apply (Forall_lookup (λ watch, watching watch = true → is_Some (answer sample_world (target watch)))).
    assert (watches sample_slot =
      [mkWatch pipe_key 1 (Z.lor EPOLLIN EPOLLET) 11 0 0 false; mkWatch timer_key 2 EPOLLIN 22 0 0 false]
      ++ replicate 62 EMPTY_WATCH) as -> by (vm_compute; reflexivity).
    apply Forall_app. split; [repeat constructor; by eexists|]. by apply Forall_replicate.
Defined.

Lemma epoll_rearm_survives_wait_witness :
  ∃ s2 pos, lookup_owned
      (wait_publish sample_owner 0x1000 (visited (answer sample_world) <$> watches sample_slot)
        (ctl_locked sample_owner 0x1000 EPOLL_CTL_MOD pipe_key (Z.lor EPOLLIN EPOLLET) 33
          (fw_epolls sample_world)).2).2 sample_owner 0x1000 = Some (0%nat, s2) ∧
    watches s2 !! pos = Some (armed pipe_key 3 (Z.lor EPOLLIN EPOLLET) 33).
Proof.
  apply (epoll_rearm_survives_wait sample_owner 0x1000 EPOLL_CTL_MOD pipe_key
    (Z.lor EPOLLIN EPOLLET) 33 (fw_epolls sample_world)
    (ctl_locked sample_owner 0x1000 EPOLL_CTL_MOD pipe_key (Z.lor EPOLLIN EPOLLET) 33
          (fw_epolls sample_world)).2 _ 0 sample_slot
    (visited (answer sample_world) <$> watches sample_slot)).
  - exact sample_world_wf.
  - vm_compute. reflexivity.
  - done.
  - apply Forall2_fmap_r, Forall_Forall2_diag, Forall_true. intros watch. apply visited_kept.
  - vm_compute. reflexivity.
  - vm_compute. reflexivity.
Defined.
