(* ===== verification/Lifecycle.v ===== *)
(** * The process lifecycle and scheduler (process/lifecycle.rs)

    The fixed table of 64 processes, the PID allocator, the scheduler epoch,
    and the atomics the interrupt path reads. Every operation runs with the
    table lock held, so it is one transition of the state [Lifecycle]; the
    stores to the atomics happen in it in the order of the source.

    The theorems: one user process at most is running and the published
    execution identity names it; every selection yields a valid dispatch
    context; a return authority is accepted exactly while it is the latest
    decision; the round robin reaches every runnable process; identifiers are
    not reused; exits are reported once. *)

From stdpp Require Import prelude list numbers option.
From Stdlib Require Import ZArith Lia.
From S2P Require Import Prelude.
From S2P Require Import Handles.
From S2P Require Import Context.

Definition NO_PID : Z := 0.
Definition INIT_PID : Z := 1.
Definition PID0_GENERATION : Z := 1.
Definition PID0_IDENTITY : Z := Z.shiftl PID0_GENERATION 32.

(** process/abi.rs *)
Inductive ExecutionAbi := ArachNative | LinuxX86_64.

Definition is_linux (a : ExecutionAbi) : bool :=
  match a with LinuxX86_64 => true | ArachNative => false end.

Inductive ProcessPhase := Free | Installing | Runnable | Running | Blocked | Zombie.

#[global] Instance ProcessPhase_eq_dec : EqDecision ProcessPhase.
Proof. solve_decision. Defined.

Definition phase_eqb (a b : ProcessPhase) : bool := bool_decide (a = b).

Record ProcessLaunch := mkLaunch {
  address_space_root : Z;
  entry_point : Z;
  user_stack_pointer : Z;
  kernel_stack_pointer : Z;
  image_measurement_root : Z;
  capability_root : Z;
  service_class : Z;
  priority : Z;
  abi : ExecutionAbi;
}.

(** [ProcessLaunch::validate] *)
Definition validate_launch (l : ProcessLaunch) : bool :=
  valid_page_table_root (address_space_root l)
  && valid_user_address (entry_point l)
  && valid_user_address (user_stack_pointer l)
  && valid_kernel_stack_pointer (kernel_stack_pointer l)
  && negb (image_measurement_root l =? 0)
  && negb (capability_root l =? 0).

Record ExecutionAuthority := mkAuthority {
  ea_handle : ProcessHandle;
  ea_epoch : Z;
}.

(** [ProcessHandle::encode] and [decode]: generation in the upper half. *)
Definition encode (h : ProcessHandle) : Z := Z.lor (Z.shiftl (generation h) 32) (pid h).

Definition decode (encoded : Z) : option ProcessHandle :=
  if encoded =? 0 then None
  else
    let h := mkHandle (encoded mod 2 ^ 32) (Z.shiftr encoded 32 mod 2 ^ 32) in
    if (pid h =? NO_PID) || (generation h =? 0) then None else Some h.

Definition encode_identity (a : ExecutionAuthority) : Z := encode (ea_handle a).

(** [ExecutionAuthority::decode] *)
Definition decode_authority (identity epoch : Z) : option ExecutionAuthority :=
  if epoch =? 0 then None
  else match decode identity with None => None | Some h => Some (mkAuthority h epoch) end.

Record ProcessSnapshot := mkSnapshot {
  ps_handle : ProcessHandle;
  ps_thread_group : Z;
  ps_parent : Z;
  ps_phase : ProcessPhase;
  ps_launch : ProcessLaunch;
  ps_exit_code : Z;
  ps_wait_sequence : Z;
}.

Record ScheduledProcess := mkScheduled {
  sp_handle : ProcessHandle;
  sp_context : DispatchContext;
  sp_epoch : Z;
}.

Definition authorized_return (s : ScheduledProcess) : AuthorizedUserReturn :=
  mkReturn (sp_context s) (pid (sp_handle s)) (generation (sp_handle s)) (sp_epoch s).

Record Pid0Authority := mkPid0 {
  p0_generation : Z;
  p0_epoch : Z;
}.

Inductive ScheduleDecision :=
| User (s : ScheduledProcess)
| Pid0 (a : Pid0Authority).

Record ProcessSlot := mkSlot {
  occupied : bool;
  s_generation : Z;
  s_pid : Z;
  thread_group : Z;
  parent : Z;
  phase : ProcessPhase;
  launch : ProcessLaunch;
  context : SavedUserContext;
  fs_base : Z;
  exit_code : Z;
  wait_sequence : Z;
}.

Definition EMPTY_LAUNCH : ProcessLaunch := mkLaunch 0 0 0 0 0 0 0 0 ArachNative.

Definition EMPTY : ProcessSlot :=
  mkSlot false 1 0 0 0 Free EMPTY_LAUNCH EMPTY_CONTEXT 0 0 0.

(** [*slot = ProcessSlot::EMPTY; slot.generation = g] *)
Definition retired (g : Z) : ProcessSlot :=
  mkSlot false g 0 0 0 Free EMPTY_LAUNCH EMPTY_CONTEXT 0 0 0.

Definition handle_of (s : ProcessSlot) : ProcessHandle := mkHandle (s_pid s) (s_generation s).

(** [ProcessSlot::snapshot] *)
Definition slot_snapshot (s : ProcessSlot) : ProcessSnapshot :=
  mkSnapshot (handle_of s) (thread_group s) (parent s) (phase s) (launch s) (exit_code s)
    (wait_sequence s).

(** Assignments to the fields of one slot. *)
Definition with_phase (p : ProcessPhase) (s : ProcessSlot) : ProcessSlot :=
  mkSlot (occupied s) (s_generation s) (s_pid s) (thread_group s) (parent s) p (launch s)
    (context s) (fs_base s) (exit_code s) (wait_sequence s).
Definition with_context (c : SavedUserContext) (s : ProcessSlot) : ProcessSlot :=
  mkSlot (occupied s) (s_generation s) (s_pid s) (thread_group s) (parent s) (phase s) (launch s)
    c (fs_base s) (exit_code s) (wait_sequence s).
Definition with_launch (l : ProcessLaunch) (s : ProcessSlot) : ProcessSlot :=
  mkSlot (occupied s) (s_generation s) (s_pid s) (thread_group s) (parent s) (phase s) l
    (context s) (fs_base s) (exit_code s) (wait_sequence s).
Definition with_fs_base (b : Z) (s : ProcessSlot) : ProcessSlot :=
  mkSlot (occupied s) (s_generation s) (s_pid s) (thread_group s) (parent s) (phase s) (launch s)
    (context s) b (exit_code s) (wait_sequence s).
Definition with_exit_code (c : Z) (s : ProcessSlot) : ProcessSlot :=
  mkSlot (occupied s) (s_generation s) (s_pid s) (thread_group s) (parent s) (phase s) (launch s)
    (context s) (fs_base s) c (wait_sequence s).
Definition with_wait_sequence (n : Z) (s : ProcessSlot) : ProcessSlot :=
  mkSlot (occupied s) (s_generation s) (s_pid s) (thread_group s) (parent s) (phase s) (launch s)
    (context s) (fs_base s) (exit_code s) n.
Definition with_occupied (s : ProcessSlot) : ProcessSlot :=
  mkSlot true (s_generation s) (s_pid s) (thread_group s) (parent s) (phase s) (launch s)
    (context s) (fs_base s) (exit_code s) (wait_sequence s).

Record ProcessTable := mkTable {
  slots : list ProcessSlot;
  next_pid : Z;
  scheduler_epoch : Z;
}.

(** [ProcessTable::new] *)
Definition new_table : ProcessTable := mkTable (replicate MAXIMUM_PROCESSES EMPTY) 2 0.

(** The locked table and the two atomics. *)
Record Lifecycle := mkLifecycle {
  table : ProcessTable;
  CURRENT_EXECUTION : Z;
  CURRENT_SCHEDULER_EPOCH : Z;
}.

Definition boot : Lifecycle := mkLifecycle new_table PID0_IDENTITY 0.

Inductive LifecycleError :=
| InvalidLaunch
| InvalidContext
| Capacity
| InvalidHandle
| InvalidTransition
| NotChild
| StillRunning
| NoChild
| EpochExhausted
| StaleDispatchAuthority
| StalePreemptionAuthority
| StalePid0Authority
| Pid0Immutable.

#[global] Instance LifecycleError_eq_dec : EqDecision LifecycleError.
Proof. solve_decision. Defined.

(** ** The table *)

(** [slot.occupied && slot.pid == pid] *)
Definition has_pid (p : Z) (s : ProcessSlot) : bool := occupied s && (s_pid s =? p).

(** [slot.occupied && slot.pid == h.pid && slot.generation == h.generation] *)
Definition is_slot (h : ProcessHandle) (s : ProcessSlot) : bool :=
  occupied s && (s_pid s =? pid h) && (s_generation s =? generation h).

Definition is_runnable (s : ProcessSlot) : bool := occupied s && phase_eqb (phase s) Runnable.
Definition is_running (s : ProcessSlot) : bool := occupied s && phase_eqb (phase s) Running.

(** [!slot.occupied && slot.generation != u32::MAX] *)
Definition claimable (s : ProcessSlot) : bool := negb (occupied s) && negb (s_generation s =? U32_MAX).

Definition with_next_pid (p : Z) (t : ProcessTable) : ProcessTable :=
  mkTable (slots t) p (scheduler_epoch t).

(** The loop body of [allocate_pid], at most [n] times. *)
Fixpoint allocate_pid_loop (n : nat) (t : ProcessTable) : option Z * ProcessTable :=
  match n with
  | O => (None, t)
  | S n =>
      let candidate := Z.max (next_pid t) 2 in
      let t := with_next_pid (Z.max (wrapping_add U32_MAX candidate 1) 2) t in
      if existsb (has_pid candidate) (slots t) then allocate_pid_loop n t
      else (Some candidate, t)
  end.

Definition allocate_pid (t : ProcessTable) : option Z * ProcessTable :=
  allocate_pid_loop (S MAXIMUM_PROCESSES) t.

Definition slot_by_handle (t : ProcessTable) (h : ProcessHandle) : option ProcessSlot :=
  find (is_slot h) (slots t).

Definition slot_by_pid (t : ProcessTable) (p : Z) : option ProcessSlot :=
  find (has_pid p) (slots t).

(** [(1..=len).map(|offset| (after + offset) % len)] *)
Definition round_robin (after len : nat) : list nat :=
  (λ offset, (after + offset) mod len)%nat <$> seq 1 len.

Definition next_runnable_index (t : ProcessTable) (after : nat) : option nat :=
  find (λ index, is_runnable (slot_at EMPTY (slots t) index)) (round_robin after (length (slots t))).

Definition scheduled (t : ProcessTable) (index : nat) (u : SavedUserContext) (epoch : Z) :
    ScheduledProcess :=
  let slot := slot_at EMPTY (slots t) index in
  mkScheduled (handle_of slot)
    (mkDispatch u (address_space_root (launch slot)) (kernel_stack_pointer (launch slot))
       (fs_base slot))
    epoch.

Definition next_scheduler_epoch (epoch : Z) : Result Z LifecycleError :=
  match checked_add U64_MAX epoch 1 with Some next => Ok next | None => Err EpochExhausted end.

(** ** Operations *)

Abbreviation LM := (M Lifecycle LifecycleError).

Definition liftR {A} (r : Result A LifecycleError) : LM A := λ w, (r, w).

(** [context.validate().map_err(|_| InvalidContext)?] *)
Definition valid_or {E} (r : Result unit E) : LM unit := liftR (map_err (λ _, InvalidContext) r).

(** The assignments the operations make. *)
Definition on_table (f : ProcessTable → ProcessTable) (w : Lifecycle) : Lifecycle :=
  mkLifecycle (f (table w)) (CURRENT_EXECUTION w) (CURRENT_SCHEDULER_EPOCH w).
Definition on_slot (i : nat) (f : ProcessSlot → ProcessSlot) : Lifecycle → Lifecycle :=
  on_table (λ t, mkTable (alter f i (slots t)) (next_pid t) (scheduler_epoch t)).
Definition set_epoch (e : Z) : Lifecycle → Lifecycle :=
  on_table (λ t, mkTable (slots t) (next_pid t) e).
Definition store_current (encoded : Z) (w : Lifecycle) : Lifecycle :=
  mkLifecycle (table w) encoded (CURRENT_SCHEDULER_EPOCH w).
Definition publish_scheduler_epoch (e : Z) (w : Lifecycle) : Lifecycle :=
  mkLifecycle (table w) (CURRENT_EXECUTION w) e.

Definition current_handle (w : Lifecycle) : option ProcessHandle := decode (CURRENT_EXECUTION w).

Definition snapshot (p : Z) (w : Lifecycle) : option ProcessSnapshot :=
  slot_snapshot <$> slot_by_pid (table w) p.

Definition snapshot_exact (h : ProcessHandle) (w : Lifecycle) : option ProcessSnapshot :=
  slot_snapshot <$> slot_by_handle (table w) h.

Definition current_pid (w : Lifecycle) : Z :=
  match current_handle w with Some h => pid h | None => NO_PID end.

Definition current_thread_group (w : Lifecycle) : Z :=
  match h ← current_handle w; snapshot_exact h w with
  | Some s => ps_thread_group s
  | None => NO_PID
  end.

(** [slot.occupied && slot.thread_group == group] *)
Definition in_group (g : Z) (s : ProcessSlot) : bool := occupied s && (thread_group s =? g).

(** [slot.occupied && slot.pid == group && slot.thread_group == group] *)
Definition leads (g : Z) (s : ProcessSlot) : bool :=
  occupied s && (s_pid s =? g) && (thread_group s =? g).

Definition current_thread_group_member_count (w : Lifecycle) : nat :=
  match current_handle w with
  | None => 0
  | Some current =>
      match thread_group <$> slot_by_handle (table w) current with
      | None => 0
      | Some group => countb (in_group group) (slots (table w))
      end
  end.

Definition current_execution_abi (w : Lifecycle) : ExecutionAbi :=
  match h ← current_handle w; snapshot_exact h w with
  | Some s => abi (ps_launch s)
  | None => ArachNative
  end.

Definition current_is_thread_group_leader (w : Lifecycle) : bool :=
  match current_handle w with
  | None => false
  | Some h =>
      match snapshot_exact h w with None => false | Some s => pid h =? ps_thread_group s end
  end.

Definition current_thread_group_handle (w : Lifecycle) : option ProcessHandle :=
  current ← current_handle w;
  slot ← slot_by_handle (table w) current;
  handle_of <$> find (leads (thread_group slot)) (slots (table w)).

(** The read of the interrupt path: epoch, identity, epoch again. The state
    may change between the reads, so each has its own. *)
Definition current_execution_authority_from_irq (w1 w2 w3 : Lifecycle) :
    option ExecutionAuthority :=
  let epoch_before := CURRENT_SCHEDULER_EPOCH w1 in
  h ← decode (CURRENT_EXECUTION w2);
  let epoch_after := CURRENT_SCHEDULER_EPOCH w3 in
  if (epoch_before =? 0) || negb (epoch_before =? epoch_after) then None
  else Some (mkAuthority h epoch_before).

Definition current_user_handle : LM ProcessHandle :=
  w ← getS;
  if CURRENT_EXECUTION w =? PID0_IDENTITY then throw Pid0Immutable
  else ok_or (decode (CURRENT_EXECUTION w)) InvalidHandle.

(** The leader, the group's handles padded to the table's size, their number. *)
Definition current_thread_group_handles :
    LM (ProcessHandle * list (option ProcessHandle) * nat) :=
  current ← current_user_handle;
  w ← getS;
  slot ← ok_or (slot_by_handle (table w) current) InvalidHandle;
  let group := thread_group slot in
  leader ← ok_or (handle_of <$> find (leads group) (slots (table w))) InvalidHandle;
  let members := (λ s, Some (handle_of s)) <$> filter (λ s, in_group group s = true) (slots (table w)) in
  mret (leader, members ++ replicate (MAXIMUM_PROCESSES - length members) None, length members).

Definition pid0_authority (epoch : Z) : Pid0Authority := mkPid0 PID0_GENERATION epoch.

Definition validate_pid0_authority (a : Pid0Authority) : LM unit :=
  w ← getS;
  ensure (negb (negb (CURRENT_EXECUTION w =? PID0_IDENTITY)
            || negb (p0_generation a =? PID0_GENERATION)
            || negb (p0_epoch a =? scheduler_epoch (table w)))) StalePid0Authority.

Definition current_pid0_authority : LM Pid0Authority :=
  w ← getS;
  let authority := pid0_authority (scheduler_epoch (table w)) in
  validate_pid0_authority authority;;
  mret authority.

Definition authorize_pid0 (a : Pid0Authority) : LM unit := validate_pid0_authority a.

Definition publish_current (h : ProcessHandle) : LM unit :=
  ensure (negb (pid h =? NO_PID)) Pid0Immutable;;
  w ← getS;
  slot ← ok_or (slot_by_handle (table w) h) InvalidHandle;
  ensure (phase_eqb (phase slot) Running) InvalidTransition;;
  modifyS (store_current (encode h)).

Definition register_init (l : ProcessLaunch) : LM ProcessHandle :=
  ensure (validate_launch l) InvalidLaunch;;
  w ← getS;
  ensure (negb (bool_decide (is_Some (slot_by_pid (table w) INIT_PID)))) InvalidTransition;;
  i ← ok_or (position claimable (slots (table w))) Capacity;
  let g := s_generation (slot_at EMPTY (slots (table w)) i) in
  modifyS (on_slot i (λ s, mkSlot true (s_generation s) INIT_PID INIT_PID NO_PID Runnable l
    (initial (entry_point l) (user_stack_pointer l)) 0 0 0));;
  mret (mkHandle INIT_PID g).

(** [self.allocate_pid().ok_or(Capacity)?] on the locked table *)
Definition take_pid : LM Z := λ w,
  let '(p, t) := allocate_pid (table w) in ok_or p Capacity (on_table (λ _, t) w).

Definition commit_child (parent_pid : Z) (l : ProcessLaunch) : LM ProcessHandle :=
  ensure (negb ((parent_pid =? NO_PID) || negb (validate_launch l))) InvalidLaunch;;
  w ← getS;
  parent_slot ← ok_or (slot_by_pid (table w) parent_pid) InvalidHandle;
  ensure (negb (phase_eqb (phase parent_slot) Free || phase_eqb (phase parent_slot) Zombie))
    InvalidTransition;;
  p ← take_pid;
  w ← getS;
  let epoch := scheduler_epoch (table w) in
  i ← ok_or (position claimable (slots (table w))) Capacity;
  modifyS (on_slot i with_occupied);;
  g ← ok_or (checked_add U32_MAX (s_generation (slot_at EMPTY (slots (table w)) i)) 1) Capacity;
  modifyS (on_slot i (λ _, mkSlot true g p p parent_pid Runnable l
    (initial (entry_point l) (user_stack_pointer l)) 0 0 epoch));;
  mret (mkHandle p g).

(** The index of the slot a handle names. *)
Definition index_of (h : ProcessHandle) (e : LifecycleError) : LM nat :=
  w ← getS; ok_or (position (is_slot h) (slots (table w))) e.

(** [table.slots[i].phase == Running] or fail *)
Definition require_running (i : nat) (e : LifecycleError) : LM unit :=
  w ← getS; ensure (phase_eqb (phase (slot_at EMPTY (slots (table w)) i)) Running) e.

(** The caller's slot: the exact generation that is executing, which must be
    in the running phase. *)
Definition running_current : LM nat :=
  current ← current_user_handle;
  current_index ← index_of current InvalidHandle;
  require_running current_index InvalidTransition;;
  mret current_index.

(** [next_scheduler_epoch(table.scheduler_epoch)?] *)
Definition next_epoch_now : LM Z :=
  w ← getS; liftR (next_scheduler_epoch (scheduler_epoch (table w))).

Definition clone_current_thread (parent_context : SavedUserContext)
    (child_stack child_fs : Z) : LM (ProcessHandle * ScheduledProcess) :=
  ensure (negb (negb (valid_user_address child_stack) || negb (valid_user_tls_base child_fs)))
    InvalidContext;;
  valid_or (validate_context parent_context);;
  current_index ← running_current;
  w ← getS;
  let parent_slot := slot_at EMPTY (slots (table w)) current_index in
  ensure (is_linux (abi (launch parent_slot))) InvalidTransition;;
  p ← take_pid;
  w ← getS;
  child_index ← ok_or (position claimable (slots (table w))) Capacity;
  g ← ok_or (checked_add U32_MAX (s_generation (slot_at EMPTY (slots (table w)) child_index)) 1)
    Capacity;
  next_epoch ← next_epoch_now;
  let child_context := with_stack child_stack (set_syscall_result 0 parent_context) in
  valid_or (validate_context child_context);;
  let parent_context := set_syscall_result p parent_context in
  let parent_return := scheduled (table w) current_index parent_context next_epoch in
  valid_or (validate_dispatch (sp_context parent_return));;
  modifyS (on_slot child_index (λ _, mkSlot true g p (thread_group parent_slot)
    (parent parent_slot) Runnable (launch parent_slot) child_context child_fs 0 next_epoch));;
  modifyS (on_slot current_index (with_context parent_context));;
  modifyS (set_epoch next_epoch);;
  modifyS (publish_scheduler_epoch next_epoch);;
  mret (mkHandle p g, parent_return).

(** [generation.checked_add(1).unwrap_or(u32::MAX)] *)
Definition retired_generation (g : Z) : Z := default U32_MAX (checked_add U32_MAX g 1).

(** The slot given up: emptied, one generation further. *)
Definition retire (s : ProcessSlot) : ProcessSlot := retired (retired_generation (s_generation s)).

Definition discard_runnable_thread (h : ProcessHandle) : LM unit :=
  current ← current_user_handle;
  w ← getS;
  current_slot ← ok_or (slot_by_handle (table w) current) InvalidHandle;
  i ← index_of h InvalidHandle;
  let slot := slot_at EMPTY (slots (table w)) i in
  ensure (negb (negb (phase_eqb (phase slot) Runnable)
            || negb (thread_group slot =? thread_group current_slot)
            || (s_pid slot =? thread_group slot))) InvalidTransition;;
  modifyS (on_slot i retire).

Definition mark_running (h : ProcessHandle) : LM ProcessSnapshot :=
  ensure (negb (pid h =? NO_PID)) Pid0Immutable;;
  w ← getS;
  ensure (negb (negb (CURRENT_EXECUTION w =? PID0_IDENTITY)
            || existsb is_running (slots (table w)))) InvalidTransition;;
  index ← index_of h InvalidHandle;
  ensure (phase_eqb (phase (slot_at EMPTY (slots (table w)) index)) Runnable) InvalidTransition;;
  next_epoch ← next_epoch_now;
  modifyS (set_epoch next_epoch);;
  modifyS (on_slot index (with_phase Running));;
  w ← getS;
  let snap := slot_snapshot (slot_at EMPTY (slots (table w)) index) in
  modifyS (store_current (encode (ps_handle snap)));;
  modifyS (publish_scheduler_epoch next_epoch);;
  mret snap.

Definition resume_current (saved : SavedUserContext) : LM ScheduledProcess :=
  valid_or (validate_context saved);;
  current_index ← running_current;
  next_epoch ← next_epoch_now;
  w ← getS;
  let s := scheduled (table w) current_index saved next_epoch in
  valid_or (validate_dispatch (sp_context s));;
  modifyS (on_slot current_index (with_context saved));;
  modifyS (set_epoch next_epoch);;
  modifyS (publish_scheduler_epoch next_epoch);;
  mret s.

Definition current_replacement_index (current : ProcessHandle) : LM nat :=
  index ← index_of current InvalidHandle;
  w ← getS;
  let slot := slot_at EMPTY (slots (table w)) index in
  ensure (negb (negb (phase_eqb (phase slot) Running)
            || negb (is_linux (abi (launch slot)))
            || negb (s_pid slot =? thread_group slot)
            || negb (countb (in_group (thread_group slot)) (slots (table w)) =? 1)%nat))
    InvalidTransition;;
  mret index.

Definition preflight_current_image_replacement : LM ProcessHandle :=
  current ← current_user_handle;
  current_replacement_index current;;
  next_epoch_now;;
  mret current.

Definition replace_current_image (root entry user_stack measurement : Z) : LM ScheduledProcess :=
  current ← current_user_handle;
  current_index ← current_replacement_index current;
  w ← getS;
  let old := launch (slot_at EMPTY (slots (table w)) current_index) in
  let replacement := mkLaunch root entry user_stack (kernel_stack_pointer old) measurement
    (capability_root old) (service_class old) (priority old) (abi old) in
  ensure (validate_launch replacement) InvalidLaunch;;
  let u := initial entry user_stack in
  next_epoch ← next_epoch_now;
  let s := mkScheduled current (mkDispatch u root (kernel_stack_pointer replacement) 0) next_epoch in
  valid_or (validate_dispatch (sp_context s));;
  modifyS (on_slot current_index (with_launch replacement));;
  modifyS (on_slot current_index (with_context u));;
  modifyS (on_slot current_index (with_fs_base 0));;
  modifyS (set_epoch next_epoch);;
  modifyS (publish_scheduler_epoch next_epoch);;
  mret s.

Definition current_fs_base : LM Z :=
  current ← current_user_handle;
  w ← getS;
  ok_or (fs_base <$> slot_by_handle (table w) current) InvalidHandle.

Definition set_current_fs_base (base : Z) : LM unit :=
  ensure (valid_user_tls_base base) InvalidContext;;
  i ← running_current;
  modifyS (on_slot i (with_fs_base base)).

Definition authorize_user_return (a : AuthorizedUserReturn) : LM ScheduledProcess :=
  valid_or (validate_return a);;
  let h := mkHandle (ret_pid a) (ret_generation a) in
  w ← getS;
  ensure (negb (negb (bool_decide (current_handle w = Some h))
            || negb (scheduler_epoch (table w) =? ret_epoch a))) StaleDispatchAuthority;;
  index ← index_of h StaleDispatchAuthority;
  require_running index StaleDispatchAuthority;;
  let expected := scheduled (table w) index (context (slot_at EMPTY (slots (table w)) index))
    (scheduler_epoch (table w)) in
  ensure (bool_decide (authorized_return expected = a)) StaleDispatchAuthority;;
  mret expected.

(** The common second half of [schedule_yield] and [schedule_preempt]. *)
Definition rotate (current_index : nat) (saved : SavedUserContext) : LM ScheduledProcess :=
  w ← getS;
  let target_index := default current_index (next_runnable_index (table w) current_index) in
  next_epoch ← next_epoch_now;
  let target_user :=
    if (target_index =? current_index)%nat then saved
    else context (slot_at EMPTY (slots (table w)) target_index) in
  let s := scheduled (table w) target_index target_user next_epoch in
  valid_or (validate_dispatch (sp_context s));;
  modifyS (on_slot current_index (with_context saved));;
  modifyS (on_slot current_index (with_phase Runnable));;
  modifyS (set_epoch next_epoch);;
  modifyS (on_slot target_index (with_phase Running));;
  modifyS (store_current (encode (sp_handle s)));;
  modifyS (publish_scheduler_epoch next_epoch);;
  mret s.

Definition schedule_yield (saved : SavedUserContext) : LM ScheduledProcess :=
  valid_or (validate_context saved);;
  let saved := set_syscall_result 0 saved in
  current_index ← running_current;
  rotate current_index saved.

Definition schedule_preempt (saved : SavedUserContext) (a : ExecutionAuthority) :
    LM ScheduledProcess :=
  valid_or (validate_context saved);;
  w ← getS;
  ensure (negb (negb (CURRENT_EXECUTION w =? encode (ea_handle a))
            || negb (scheduler_epoch (table w) =? ea_epoch a))) StalePreemptionAuthority;;
  current_index ← index_of (ea_handle a) StalePreemptionAuthority;
  require_running current_index StalePreemptionAuthority;;
  rotate current_index saved.

(** A candidate with its dispatch state, refused when that is invalid. *)
Definition select_target (index : option nat) (next_epoch : Z) :
    LM (option (nat * ScheduledProcess)) :=
  w ← getS;
  match index with
  | None => mret None
  | Some i =>
      let s := scheduled (table w) i (context (slot_at EMPTY (slots (table w)) i)) next_epoch in
      valid_or (validate_dispatch (sp_context s));;
      mret (Some (i, s))
  end.

(** Makes the target the running process, or PID0 without one. *)
Definition hand_over (target : option (nat * ScheduledProcess)) (next_epoch : Z) :
    LM ScheduleDecision :=
  match target with
  | Some (target_index, s) =>
      modifyS (on_slot target_index (with_phase Running));;
      modifyS (store_current (encode (sp_handle s)));;
      modifyS (publish_scheduler_epoch next_epoch);;
      mret (User s)
  | None =>
      modifyS (store_current PID0_IDENTITY);;
      modifyS (publish_scheduler_epoch next_epoch);;
      mret (Pid0 (pid0_authority next_epoch))
  end.

Definition schedule_block (saved : SavedUserContext) : LM ScheduleDecision :=
  valid_or (validate_context saved);;
  current_index ← running_current;
  next_epoch ← next_epoch_now;
  w ← getS;
  target ← select_target (next_runnable_index (table w) current_index) next_epoch;
  modifyS (on_slot current_index (with_context saved));;
  modifyS (on_slot current_index (with_phase Blocked));;
  modifyS (on_slot current_index (with_wait_sequence next_epoch));;
  modifyS (set_epoch next_epoch);;
  hand_over target next_epoch.

Definition schedule_exit (code : Z) : LM ScheduleDecision :=
  current_index ← running_current;
  next_epoch ← next_epoch_now;
  w ← getS;
  target ← select_target (next_runnable_index (table w) current_index) next_epoch;
  modifyS (on_slot current_index (with_phase Zombie));;
  modifyS (on_slot current_index (with_exit_code code));;
  modifyS (on_slot current_index (with_wait_sequence next_epoch));;
  modifyS (set_epoch next_epoch);;
  hand_over target next_epoch.

(** The loop of [schedule_exit_group] over the table: every member but the
    leader is retired, the leader becomes the zombie of the group. *)
Definition end_group (group code next_epoch : Z) (leader_index : nat) (l : list ProcessSlot) :
    list ProcessSlot :=
  imap (λ index s,
    if negb (occupied s) || negb (thread_group s =? group) then s
    else if (index =? leader_index)%nat
    then with_wait_sequence next_epoch (with_exit_code code (with_phase Zombie s))
    else retire s) l.

Definition schedule_exit_group (code : Z) : LM ScheduleDecision :=
  current_index ← running_current;
  w ← getS;
  let group := thread_group (slot_at EMPTY (slots (table w)) current_index) in
  leader_index ← ok_or (position (leads group) (slots (table w))) InvalidHandle;
  next_epoch ← next_epoch_now;
  let candidate := find (λ index,
      let slot := slot_at EMPTY (slots (table w)) index in
      is_runnable slot && negb (thread_group slot =? group))
    (round_robin current_index (length (slots (table w)))) in
  target ← select_target candidate next_epoch;
  modifyS (on_table (λ t,
    mkTable (end_group group code next_epoch leader_index (slots t)) (next_pid t)
      (scheduler_epoch t)));;
  modifyS (set_epoch next_epoch);;
  hand_over target next_epoch.

Definition schedule_thread_exit : LM ScheduleDecision :=
  current_index ← running_current;
  w ← getS;
  let current_slot := slot_at EMPTY (slots (table w)) current_index in
  ensure (negb (s_pid current_slot =? thread_group current_slot)) InvalidTransition;;
  next_epoch ← next_epoch_now;
  target ← select_target (next_runnable_index (table w) current_index) next_epoch;
  modifyS (on_slot current_index retire);;
  modifyS (set_epoch next_epoch);;
  hand_over target next_epoch.

Definition schedule_from_pid0 (a : Pid0Authority) : LM ScheduleDecision :=
  validate_pid0_authority a;;
  w ← getS;
  ensure (negb (existsb is_running (slots (table w)))) InvalidTransition;;
  next_epoch ← next_epoch_now;
  target ← select_target (position is_runnable (slots (table w))) next_epoch;
  modifyS (set_epoch next_epoch);;
  hand_over target next_epoch.

Definition mark_runnable (h : ProcessHandle) : LM unit :=
  ensure (negb (pid h =? NO_PID)) Pid0Immutable;;
  i ← index_of h InvalidHandle;
  w ← getS;
  let slot := slot_at EMPTY (slots (table w)) i in
  ensure (phase_eqb (phase slot) Running || phase_eqb (phase slot) Blocked) InvalidTransition;;
  modifyS (on_slot i (with_phase Runnable)).

Definition mark_blocked (h : ProcessHandle) : LM unit :=
  ensure (negb (pid h =? NO_PID)) Pid0Immutable;;
  i ← index_of h InvalidHandle;
  require_running i InvalidTransition;;
  modifyS (on_slot i (with_phase Blocked)).

(** [slot.occupied && slot.parent == parent], and the requested PID *)
Definition waited_for (parent_pid : Z) (requested : option Z) (s : ProcessSlot) : bool :=
  occupied s && (parent s =? parent_pid)
  && match requested with Some p => s_pid s =? p | None => true end.

Fixpoint wait_scan (parent_pid : Z) (requested : option Z) (saw_child : bool)
    (l : list ProcessSlot) : Result ProcessSnapshot LifecycleError :=
  match l with
  | [] => if saw_child then Err StillRunning else Err NoChild
  | s :: l =>
      if negb (waited_for parent_pid requested s) then wait_scan parent_pid requested saw_child l
      else if phase_eqb (phase s) Zombie then Ok (slot_snapshot s)
      else wait_scan parent_pid requested true l
  end.

Definition wait_child (parent_pid : Z) (requested : option Z) : LM ProcessSnapshot :=
  w ← getS; liftR (wait_scan parent_pid requested false (slots (table w))).

Definition reap_child (parent_pid : Z) (h : ProcessHandle) : LM Z :=
  ensure (negb (pid h =? NO_PID)) Pid0Immutable;;
  i ← index_of h InvalidHandle;
  w ← getS;
  let slot := slot_at EMPTY (slots (table w)) i in
  ensure (parent slot =? parent_pid) NotChild;;
  ensure (phase_eqb (phase slot) Zombie) StillRunning;;
  modifyS (on_slot i retire);;
  mret (exit_code slot).

(** [slots.iter().cycle().skip(start).take(len)] *)
Definition cycled (start : nat) (l : list ProcessSlot) : list ProcessSlot :=
  (λ k, slot_at EMPTY l ((start + k) mod length l)%nat) <$> seq 0 (length l).

Definition next_runnable (after_pid : Z) (w : Lifecycle) : option ProcessSnapshot :=
  let start :=
    match position (has_pid after_pid) (slots (table w)) with Some i => S i | None => O end in
  slot_snapshot <$> find is_runnable (cycled start (slots (table w))).

(** ** Execution identities *)

Definition handle_ok (h : ProcessHandle) : Prop := 1 ≤ pid h ≤ U32_MAX ∧ 1 ≤ generation h ≤ U32_MAX.

Lemma encode_sum h : 0 ≤ pid h ≤ U32_MAX → encode h = generation h * 2 ^ 32 + pid h.
Proof. unfold encode, U32_MAX. intros Hp. apply lor_shiftl_sum; lia. Qed.

Lemma encode_inj h h' : handle_ok h → handle_ok h' → encode h = encode h' → h = h'.
Proof.
  intros [Hp Hg] [Hp' Hg']. rewrite !encode_sum by lia. unfold U32_MAX in *.
  destruct h, h'; simpl in *. intros. f_equal; lia.
Qed.

Lemma decode_encode h : handle_ok h → decode (encode h) = Some h.
Proof.
  intros [Hp Hg]. unfold decode. rewrite encode_sum by lia. unfold U32_MAX, NO_PID in *.
  destruct (Z.eqb_spec (generation h * 2 ^ 32 + pid h) 0); [lia|].
  rewrite Z.shiftr_div_pow2, Z.div_add_l by lia.
  rewrite (Z.div_small (pid h)), Z.add_0_r, (Z.mod_small (generation h)) by lia.
  rewrite Z.add_comm, Z.mod_add, Z.mod_small by lia. simpl.
  destruct (Z.eqb_spec (pid h) 0); [lia|]. destruct (Z.eqb_spec (generation h) 0); [lia|].
  by destruct h.
Qed.

Lemma encode_not_pid0 h : handle_ok h → encode h ≠ PID0_IDENTITY.
Proof.
  intros [Hp Hg]. rewrite encode_sum by lia. unfold U32_MAX in *.
  change PID0_IDENTITY with (2 ^ 32). lia.
Qed.

(** ** Well-formedness *)

Record slot_wf (epoch : Z) (s : ProcessSlot) : Prop := {
  sw_generation : 1 ≤ s_generation s ≤ U32_MAX;
  sw_free : occupied s = false → s = retired (s_generation s);
  sw_pid : occupied s = true → 1 ≤ s_pid s ≤ U32_MAX;
  sw_phase : occupied s = true → phase s ≠ Free ∧ phase s ≠ Installing;
  sw_launch : occupied s = true → validate_launch (launch s) = true;
  sw_context : occupied s = true → valid_context (context s) = true;
  sw_fs : occupied s = true → valid_user_tls_base (fs_base s) = true;
  sw_wait : wait_sequence s ≤ epoch;
}.

Record table_wf (t : ProcessTable) : Prop := {
  tw_length : length (slots t) = MAXIMUM_PROCESSES;
  tw_slots : ∀ i s, slots t !! i = Some s → slot_wf (scheduler_epoch t) s;
  tw_pids : ∀ i j s s', slots t !! i = Some s → slots t !! j = Some s' →
    occupied s = true → occupied s' = true → s_pid s = s_pid s' → i = j;
  tw_next : 2 ≤ next_pid t ≤ U32_MAX;
  tw_epoch : is_u64 (scheduler_epoch t);
}.

(** The published identity is PID0 or an encoded handle; a running slot is the
    one it names; the interrupt path's epoch is the table's. *)
Record wf (w : Lifecycle) : Prop := {
  wf_table : table_wf (table w);
  wf_current : CURRENT_EXECUTION w = PID0_IDENTITY ∨
    ∃ h, handle_ok h ∧ CURRENT_EXECUTION w = encode h;
  wf_running : ∀ i s, slots (table w) !! i = Some s → is_running s = true →
    CURRENT_EXECUTION w = encode (handle_of s);
  wf_epoch : CURRENT_SCHEDULER_EPOCH w = scheduler_epoch (table w);
}.

(** No slot is running: the state between giving up the CPU and handing it on. *)
Definition none_running (t : ProcessTable) : Prop :=
  ∀ i s, slots t !! i = Some s → is_running s = false.

Lemma slot_wf_mono e e' s : slot_wf e s → e ≤ e' → slot_wf e' s.
Proof. intros [] He. constructor; try done. lia. Qed.

Lemma retired_wf e g : 0 ≤ e → 1 ≤ g ≤ U32_MAX → slot_wf e (retired g).
Proof. intros He Hg. by constructor. Qed.

Lemma retire_wf e s : 0 ≤ e → slot_wf e s → slot_wf e (retire s).
Proof.
  intros He Hs. pose proof (sw_generation _ _ Hs). apply retired_wf; [done|].
  unfold retired_generation. destruct (checked_add _ _ _) eqn:E; simpl; [|lia].
  apply checked_add_Some in E. lia.
Qed.

Lemma is_running_iff s : is_running s = true ↔ occupied s = true ∧ phase s = Running.
Proof. unfold is_running, phase_eqb. by rewrite andb_true_iff, bool_decide_eq_true. Qed.

Lemma not_running s : phase s ≠ Running → is_running s = false.
Proof. intros Hp. unfold is_running, phase_eqb. rewrite bool_decide_false by done. apply andb_false_r. Qed.

Lemma is_runnable_iff s : is_runnable s = true ↔ occupied s = true ∧ phase s = Runnable.
Proof. unfold is_runnable, phase_eqb. by rewrite andb_true_iff, bool_decide_eq_true. Qed.

Lemma is_slot_iff h s : is_slot h s = true ↔ occupied s = true ∧ handle_of s = h.
Proof.
  unfold is_slot, handle_of. destruct h. simpl. rewrite !andb_true_iff, !Z.eqb_eq. naive_solver.
Qed.

Lemma has_pid_iff p s : has_pid p s = true ↔ occupied s = true ∧ s_pid s = p.
Proof. unfold has_pid. by rewrite andb_true_iff, Z.eqb_eq. Qed.

Lemma handle_of_ok e s : slot_wf e s → occupied s = true → handle_ok (handle_of s).
Proof. intros Hs Ho. split; [by apply (sw_pid _ _ Hs)|apply (sw_generation _ _ Hs)]. Qed.

Lemma boot_wf : wf boot.
Proof.
  split; [|by left|..|done].
  - split; try done.
    + intros i s [-> _]%lookup_replicate. by apply retired_wf.
    + intros i j s s' [-> _]%lookup_replicate. done.
  - intros i s [-> _]%lookup_replicate. done.
Qed.

(** ** Updates of the table *)

Lemma on_slot_compose i f g w : on_slot i g (on_slot i f w) = on_slot i (λ s, g (f s)) w.
Proof.
  unfold on_slot, on_table. simpl. do 2 f_equal. apply list_eq. intros j.
  destruct (decide (i = j)) as [->|].
  - rewrite !list_lookup_alter_eq. by destruct (_ !! j).
  - by rewrite !list_lookup_alter_ne.
Qed.

Lemma slots_on_slot i f w s :
  slots (table w) !! i = Some s → slots (table (on_slot i f w)) = <[i := f s]> (slots (table w)).
Proof. apply alter_insert_eq. Qed.

(** Replacing one slot: the newcomer is well formed and its PID, when it is
    occupied, is taken by no other slot. *)
Lemma replace_wf w i s f e :
  table_wf (table w) → slots (table w) !! i = Some s →
  scheduler_epoch (table w) ≤ e ≤ U64_MAX → slot_wf e (f s) →
  (occupied (f s) = true → ∀ j x, j ≠ i → slots (table w) !! j = Some x → occupied x = true →
     s_pid x ≠ s_pid (f s)) →
  table_wf (table (set_epoch e (on_slot i f w))).
Proof.
  intros Hw Hi He Hf Hpid. pose proof (tw_epoch _ Hw) as Hep. unfold is_u64 in Hep.
  assert (slots (table (set_epoch e (on_slot i f w))) = <[i := f s]> (slots (table w))) as Hsl
    by by apply slots_on_slot.
  split; try rewrite Hsl; simpl.
  - rewrite length_insert. apply Hw.
  - intros j x [(<- & <- & _)|[_ Hx]]%lookup_insert_cases; [done|].
    eapply slot_wf_mono; [by eapply tw_slots|lia].
  - intros j k x y [(<- & <- & _)|[Hj Hx]]%lookup_insert_cases
      [(<- & <- & _)|[Hk Hy]]%lookup_insert_cases Ox Oy Hp.
    + done.
    + by destruct (Hpid Ox k y).
    + by destruct (Hpid Oy j x).
    + by eapply tw_pids.
  - apply Hw.
  - unfold is_u64. lia.
Qed.

(** The same for a change that keeps the identity or frees the slot. *)
Lemma update_wf w i s f e :
  table_wf (table w) → slots (table w) !! i = Some s →
  scheduler_epoch (table w) ≤ e ≤ U64_MAX → slot_wf e (f s) →
  (occupied (f s) = true → occupied s = true ∧ s_pid (f s) = s_pid s) →
  table_wf (table (set_epoch e (on_slot i f w))).
Proof.
  intros Hw Hi He Hf Hid. eapply replace_wf; [done..|].
  intros [Ho Hp]%Hid j x Hj Hx Ox Hxp. apply Hj. eapply (tw_pids _ Hw); eauto. congruence.
Qed.

Lemma set_epoch_same w : set_epoch (scheduler_epoch (table w)) w = w.
Proof. by destruct w as [[]]. Qed.

(** The same without a new epoch. *)
Lemma amend_wf w i s f :
  table_wf (table w) → slots (table w) !! i = Some s →
  slot_wf (scheduler_epoch (table w)) (f s) →
  (occupied (f s) = true → occupied s = true ∧ s_pid (f s) = s_pid s) →
  table_wf (table (on_slot i f w)).
Proof.
  intros Hw Hi Hf Hid. pose proof (tw_epoch _ Hw) as He. unfold is_u64 in He.
  rewrite <- (set_epoch_same (on_slot i f w)). eapply update_wf; [done..|simpl; lia|done|done].
Qed.

Lemma slot_at_runnable l j :
  is_runnable (slot_at EMPTY l j) = true → l !! j = Some (slot_at EMPTY l j).
Proof. unfold slot_at. by destruct (l !! j). Qed.

Lemma next_runnable_index_Some t after j :
  next_runnable_index t after = Some j →
  ∃ s, slots t !! j = Some s ∧ is_runnable s = true.
Proof. intros [_ H]%find_some. eauto using slot_at_runnable. Qed.

Lemma none_running_other w i s :
  wf w → slots (table w) !! i = Some s → is_running s = true →
  ∀ j x, slots (table w) !! j = Some x → is_running x = true → j = i.
Proof.
  intros Hw Hi Hr j x Hj Hx. pose proof (wf_running _ Hw _ _ Hi Hr) as H1.
  pose proof (wf_running _ Hw _ _ Hj Hx) as H2.
  pose proof (wf_table _ Hw) as Ht. apply is_running_iff in Hr as [Ho _]. apply is_running_iff in Hx as [Ox _].
  rewrite H1 in H2. apply encode_inj in H2;
    [|by eapply handle_of_ok; [eapply (tw_slots _ Ht)|]..].
  eapply (tw_pids _ Ht); [done..|]. by injection H2.
Qed.

(** ** The caller and the hand-over *)

(** The caller's slot index, or why there is none. *)
Definition caller (w : Lifecycle) : Result nat LifecycleError := (running_current w).1.

Lemma running_current_run w : running_current w = (caller w, w).
Proof.
  unfold caller, running_current, current_user_handle, index_of, require_running. m_unfold.
  destruct (_ =? _); [done|]. destruct (decode _); [|done]. destruct (position _ _); [|done].
  by destruct (phase_eqb _ _).
Qed.

Lemma caller_Ok w i :
  wf w → caller w = Ok i →
  ∃ s, slots (table w) !! i = Some s ∧ is_running s = true ∧ CURRENT_EXECUTION w = encode (handle_of s).
Proof.
  intros Hw. unfold caller, running_current, current_user_handle, index_of, require_running. m_unfold.
  destruct (_ =? _); [done|]. destruct (decode _) as [h|]; [|done].
  destruct (position _ _) as [k|] eqn:Hk; [|done].
  apply position_lookup in Hk as (s & Hs & [Ho Hh]%is_slot_iff). rewrite (slot_at_Some _ _ _ _ Hs).
  destruct (phase_eqb (phase s) Running) eqn:Hp; [|done]. intros [= <-].
  assert (is_running s = true) as Hr by (unfold is_running; by rewrite Ho).
  exists s. split_and!; [done..|]. by eapply wf_running.
Qed.

(** The caller is found whenever some process is running. *)
Lemma caller_running w i s :
  wf w → slots (table w) !! i = Some s → is_running s = true → caller w = Ok i.
Proof.
  intros Hw Hs Hr. pose proof (wf_running _ Hw _ _ Hs Hr) as Hc. pose proof (wf_table _ Hw) as Ht.
  apply is_running_iff in Hr as [Ho Hp].
  pose proof (handle_of_ok _ _ (tw_slots _ Ht _ _ Hs) Ho) as Hok.
  unfold caller, running_current, current_user_handle, index_of, require_running. m_unfold. rewrite Hc.
  destruct (Z.eqb_spec (encode (handle_of s)) PID0_IDENTITY); [by destruct (encode_not_pid0 _ Hok)|].
  rewrite decode_encode by done.
  destruct (position_is_Some (is_slot (handle_of s)) _ _ _ Hs) as [k Hk]; [by apply is_slot_iff|].
  rewrite Hk. apply position_lookup in Hk as (x & Hx & [Ox Hh]%is_slot_iff).
  assert (k = i) as -> by (eapply (tw_pids _ Ht); [done..|by injection Hh]).
  rewrite (slot_at_Some _ _ _ _ Hs), Hp. done.
Qed.

Lemma caller_Err w e : wf w → caller w = Err e → none_running (table w).
Proof.
  intros Hw Hc i s Hs. destruct (is_running s) eqn:Hr; [|done].
  by rewrite (caller_running w i s Hw Hs Hr) in Hc.
Qed.

(** The decision a candidate index stands for. *)
Definition target_of (t : ProcessTable) (index : option nat) (e : Z) :
    option (nat * ScheduledProcess) :=
  (λ i, (i, scheduled t i (context (slot_at EMPTY (slots t) i)) e)) <$> index.

Lemma validate_launch_iff l :
  validate_launch l = true ↔
    valid_page_table_root (address_space_root l) = true ∧ valid_user_address (entry_point l) = true ∧
    valid_user_address (user_stack_pointer l) = true ∧
    valid_kernel_stack_pointer (kernel_stack_pointer l) = true ∧
    image_measurement_root l ≠ 0 ∧ capability_root l ≠ 0.
Proof.
  unfold validate_launch. rewrite !andb_true_iff, !negb_true_iff, !Z.eqb_neq. tauto.
Qed.

Lemma dispatch_valid t i s u e :
  table_wf t → slots t !! i = Some s → occupied s = true → valid_context u = true →
  validate_dispatch (sp_context (scheduled t i u e)) = Ok tt.
Proof.
  intros Ht Hi Ho Hu. unfold scheduled. rewrite (slot_at_Some _ _ _ _ Hi).
  pose proof (tw_slots _ Ht _ _ Hi) as Hs. pose proof (sw_launch _ _ Hs Ho) as Hl.
  apply validate_launch_iff in Hl as (? & ? & ? & ? & _).
  apply validate_dispatch_Ok. split_and!; try done. by apply (sw_fs _ _ Hs).
Qed.

Lemma select_target_run index e w :
  table_wf (table w) →
  (∀ j, index = Some j → ∃ s, slots (table w) !! j = Some s ∧ is_runnable s = true) →
  select_target index e w = (Ok (target_of (table w) index e), w).
Proof.
  intros Ht Hidx. unfold select_target. m_unfold. destruct index as [j|]; [|done].
  destruct (Hidx j eq_refl) as (s & Hs & [Ho _]%is_runnable_iff).
  unfold valid_or, liftR. erewrite dispatch_valid; [done|done..|].
  rewrite (slot_at_Some _ _ _ _ Hs). eapply (sw_context _ _ (tw_slots _ Ht _ _ Hs)); done.
Qed.

(** The state a hand-over leaves. *)
Definition handed (target : option (nat * ScheduledProcess)) (e : Z) (w : Lifecycle) : Lifecycle :=
  (hand_over target e w).2.

Definition decision (target : option (nat * ScheduledProcess)) (e : Z) : ScheduleDecision :=
  match target with Some (_, s) => User s | None => Pid0 (pid0_authority e) end.

Lemma hand_over_run target e w : hand_over target e w = (Ok (decision target e), handed target e w).
Proof. by destruct target as [[]|]. Qed.

(** A target chosen from a table: a runnable slot with its own handle. *)
Definition target_ok (t : ProcessTable) (target : option (nat * ScheduledProcess)) : Prop :=
  ∀ j sp, target = Some (j, sp) →
    ∃ s, slots t !! j = Some s ∧ is_runnable s = true ∧ sp_handle sp = handle_of s.

(** Handing the CPU over, with no process running, to a runnable process or
    to PID0 gives a well-formed state. *)
Lemma handed_wf target w :
  table_wf (table w) → none_running (table w) → target_ok (table w) target →
  wf (handed target (scheduler_epoch (table w)) w).
Proof.
  intros Ht Hn Htg. destruct target as [[j sp]|]; unfold handed, hand_over; m_unfold; simpl.
  - destruct (Htg j sp eq_refl) as (s & Hs & [Ho Hp]%is_runnable_iff & ->).
    pose proof (tw_slots _ Ht _ _ Hs) as Hsw.
    assert (slot_wf (scheduler_epoch (table w)) (with_phase Running s)) as Hsw'
      by (destruct Hsw; constructor; simpl; auto; congruence).
    split; simpl; [|right; exists (handle_of s); split; [by eapply handle_of_ok|done]| |done].
    + by eapply (amend_wf w).
    + intros i x. rewrite (alter_insert_eq _ _ _ _ Hs).
      intros [(<- & <- & _)|[_ Hx]]%lookup_insert_cases; [done|]. intros Hr. by rewrite (Hn _ _ Hx) in Hr.
  - split; simpl; [done|by left| |done]. intros i s Hs Hr. by rewrite (Hn _ _ Hs) in Hr.
Qed.

(** ** Context switches *)

Lemma next_epoch_Ok e e' : next_scheduler_epoch e = Ok e' ↔ e' = e + 1 ∧ e + 1 ≤ U64_MAX.
Proof.
  unfold next_scheduler_epoch. destruct (checked_add _ _ _) as [x|] eqn:E.
  - apply checked_add_Some in E. naive_solver.
  - apply checked_add_None in E. split; [done|]. lia.
Qed.

Lemma next_epoch_now_run w : next_epoch_now w = (next_scheduler_epoch (scheduler_epoch (table w)), w).
Proof. done. Qed.

(** The table after the caller's slot changed and the epoch advanced. *)
Definition departed (i : nat) (f : ProcessSlot → ProcessSlot) (e : Z) (w : Lifecycle) : Lifecycle :=
  set_epoch e (on_slot i f w).

Lemma departed_others i f e w k :
  k ≠ i → slots (table (departed i f e w)) !! k = slots (table w) !! k.
Proof. intros Hk. simpl. by rewrite list_lookup_alter_ne. Qed.

(** A candidate index: a runnable slot. *)
Definition index_ok (t : ProcessTable) (index : option nat) : Prop :=
  ∀ j, index = Some j → ∃ s, slots t !! j = Some s ∧ is_runnable s = true.

(** The same process: nothing that identifies it has changed. *)
Definition same_process (s s' : ProcessSlot) : Prop :=
  occupied s = true ∧ occupied s' = true ∧ handle_of s' = handle_of s ∧
  thread_group s' = thread_group s ∧ parent s' = parent s.

(** What happens to a slot when the caller gives the CPU up. *)
Inductive departs (s : ProcessSlot) : ProcessSlot → Prop :=
| departs_not : departs s s
| departs_off s' : same_process s s' → phase s = Running →
    phase s' = Runnable ∨ phase s' = Blocked → departs s s'
| departs_exit s' : same_process s s' → phase s' = Zombie → departs s s'
| departs_retire : occupied s = true → departs s (retire s).

(** The outcome of a successful context switch: with no process running in
    [w1], the next epoch begins with the candidate or with PID0. *)
Record switched (w w1 : Lifecycle) (index : option nat) (d : ScheduleDecision) (w' : Lifecycle) :
    Prop := {
  sd_table : table_wf (table w1);
  sd_none : none_running (table w1);
  sd_index : index_ok (table w1) index;
  sd_epoch : scheduler_epoch (table w1) = scheduler_epoch (table w) + 1;
  sd_next : next_pid (table w1) = next_pid (table w);
  sd_departs : ∀ k s, slots (table w) !! k = Some s →
    ∃ s1, slots (table w1) !! k = Some s1 ∧ departs s s1;
  sd_decision : d = decision (target_of (table w1) index (scheduler_epoch (table w1)))
                      (scheduler_epoch (table w1));
  sd_state : w' = handed (target_of (table w1) index (scheduler_epoch (table w1)))
                    (scheduler_epoch (table w1)) w1;
}.

Lemma target_of_ok t index e : index_ok t index → target_ok t (target_of t index e).
Proof.
  intros Hidx j sp. destruct index as [k|]; [|done]. intros [= <- <-].
  destruct (Hidx k eq_refl) as (s & Hs & Hr). exists s. split_and!; [done..|].
  simpl. by rewrite (slot_at_Some _ _ _ _ Hs).
Qed.

Lemma switched_wf w w1 index d w' : switched w w1 index d w' → wf w'.
Proof. intros []. subst. apply handed_wf; [done..|]. by apply target_of_ok. Qed.

Lemma departs_id s s' : departs s s' → occupied s' = true → occupied s = true ∧ s_pid s' = s_pid s.
Proof.
  intros [| ? (? & ? & [= ? ?] & _) |? (? & ? & [= ? ?] & _)|] Ho; try done.
Qed.

Section Departure.
Context (w : Lifecycle) (i : nat) (s : ProcessSlot) (f : ProcessSlot → ProcessSlot) (e : Z).
Let w1 := departed i f e w.
Hypothesis Hw : wf w.
Hypothesis Hi : slots (table w) !! i = Some s.
Hypothesis Hr : is_running s = true.
Hypothesis He : next_scheduler_epoch (scheduler_epoch (table w)) = Ok e.
Hypothesis Hf : slot_wf e (f s).
Hypothesis Hnr : is_running (f s) = false.
Hypothesis Hid : departs s (f s).

Lemma departed_slots : slots (table w1) = <[i := f s]> (slots (table w)).
Proof. by apply slots_on_slot. Qed.

Lemma departed_table_wf : table_wf (table w1).
Proof.
  pose proof (proj1 (next_epoch_Ok _ _) He) as [He1 He2].
  eapply update_wf; [apply Hw|done|lia|done|]. by apply departs_id.
Qed.

Lemma departed_none : none_running (table w1).
Proof.
  intros j x. rewrite departed_slots. intros [(<- & <- & _)|[Hj Hx]]%lookup_insert_cases; [done|].
  destruct (is_running x) eqn:Hxr; [|done]. destruct Hj. symmetry. by eapply none_running_other.
Qed.

Lemma departed_departs k x :
  slots (table w) !! k = Some x → ∃ x1, slots (table w1) !! k = Some x1 ∧ departs x x1.
Proof.
  intros Hk. rewrite departed_slots. destruct (decide (i = k)) as [<-|Hne].
  - exists (f s). rewrite list_lookup_insert_eq by by eapply lookup_lt_Some.
    split; [done|]. by assert (x = s) as -> by congruence.
  - exists x. rewrite list_lookup_insert_ne by done. split; [done|]. constructor.
Qed.

Lemma departed_slot j : j ≠ i → slot_at EMPTY (slots (table w1)) j = slot_at EMPTY (slots (table w)) j.
Proof. intros Hj. unfold slot_at. by rewrite departed_slots, list_lookup_insert_ne. Qed.

Lemma departed_scheduled j u e' :
  j ≠ i → scheduled (table w) j u e' = scheduled (table w1) j u e'.
Proof. intros Hj. unfold scheduled. by rewrite departed_slot. Qed.

(** A runnable candidate is not the caller. *)
Lemma departed_target index :
  index_ok (table w) index →
  index_ok (table w1) index ∧ target_of (table w) index e = target_of (table w1) index e.
Proof.
  intros Hidx. destruct index as [j|]; [|by split].
  destruct (Hidx j eq_refl) as (x & Hx & Hxr).
  assert (j ≠ i) as Hj.
  { intros ->. assert (x = s) as -> by congruence.
    apply is_running_iff in Hr as [_ Hp]. apply is_runnable_iff in Hxr as [_ Hp']. congruence. }
  split.
  - intros k [= <-]. exists x. by rewrite departed_slots, list_lookup_insert_ne.
  - simpl. by rewrite departed_slot, (departed_scheduled j).
Qed.

Lemma departed_switched index :
  index_ok (table w) index →
  switched w w1 index (decision (target_of (table w) index e) e)
    (handed (target_of (table w) index e) e w1).
Proof.
  intros Hidx. destruct (departed_target index Hidx) as [Hok ->].
  split; try done; [apply departed_table_wf|apply departed_none|
    by apply next_epoch_Ok in He as [-> _]|apply departed_departs].
Qed.
End Departure.

(** What the operations leave in the caller's slot. *)
Definition preempted (saved : SavedUserContext) (s : ProcessSlot) : ProcessSlot :=
  with_phase Runnable (with_context saved s).
Definition blocked (saved : SavedUserContext) (e : Z) (s : ProcessSlot) : ProcessSlot :=
  with_wait_sequence e (with_phase Blocked (with_context saved s)).
Definition exited (code e : Z) (s : ProcessSlot) : ProcessSlot :=
  with_wait_sequence e (with_exit_code code (with_phase Zombie s)).

Section Slots.
Context (e e' : Z) (s : ProcessSlot).
Hypothesis Hs : slot_wf e s.
Hypothesis Ho : occupied s = true.
Hypothesis He : e ≤ e'.

Lemma preempted_wf saved : valid_context saved = true → slot_wf e' (preempted saved s).
Proof. destruct Hs. intros. constructor; simpl; auto; [congruence|lia]. Qed.

Lemma blocked_wf saved : valid_context saved = true → slot_wf e' (blocked saved e' s).
Proof. destruct Hs. intros. constructor; simpl; auto; [congruence|lia]. Qed.

Lemma exited_wf code : slot_wf e' (exited code e' s).
Proof. destruct Hs. intros. constructor; simpl; auto; [congruence|lia]. Qed.

Lemma with_context_wf saved : valid_context saved = true → slot_wf e' (with_context saved s).
Proof. destruct Hs. intros. constructor; simpl; auto; [congruence|lia]. Qed.

Lemma with_phase_wf p : p ≠ Free → p ≠ Installing → slot_wf e' (with_phase p s).
Proof. destruct Hs. intros. constructor; simpl; auto; [congruence|lia]. Qed.
End Slots.

Lemma valid_or_run c w :
  valid_or (validate_context c) w = (if valid_context c then Ok tt else Err InvalidContext, w).
Proof. unfold valid_or, liftR, valid_context. by destruct (validate_context c) as [[]|]. Qed.

Lemma next_runnable_ok t i : index_ok t (next_runnable_index t i).
Proof. intros j. apply next_runnable_index_Some. Qed.

Lemma handed_steps j sp e w :
  publish_scheduler_epoch e (store_current (encode (sp_handle sp)) (on_slot j (with_phase Running) w))
    = handed (Some (j, sp)) e w.
Proof. done. Qed.

(** The caller's slot after a rotation, and the one chosen. *)
Definition rotated (i : nat) (saved : SavedUserContext) (e : Z) (w : Lifecycle) : Lifecycle :=
  departed i (preempted saved) e w.
Definition rotation_target (w : Lifecycle) (i : nat) : nat :=
  default i (next_runnable_index (table w) i).

Section Rotation.
Context (w : Lifecycle) (i : nat) (s : ProcessSlot) (saved : SavedUserContext) (e : Z).
Hypothesis Hw : wf w.
Hypothesis Hi : slots (table w) !! i = Some s.
Hypothesis Hr : is_running s = true.
Hypothesis Hc : valid_context saved = true.
Hypothesis He : next_scheduler_epoch (scheduler_epoch (table w)) = Ok e.

Lemma rotated_slots : slots (table (rotated i saved e w)) = <[i := preempted saved s]> (slots (table w)).
Proof. by apply slots_on_slot. Qed.

Lemma rotation_slot_wf : slot_wf e (preempted saved s).
Proof.
  pose proof (proj1 (next_epoch_Ok _ _) He) as [He1 _].
  eapply preempted_wf;
    [by apply (tw_slots _ (wf_table _ Hw) i)|by apply is_running_iff in Hr as [? _]|lia|done].
Qed.

Lemma rotation_index_ok : index_ok (table (rotated i saved e w)) (Some (rotation_target w i)).
Proof.
  unfold rotation_target, default, from_option.
  destruct (next_runnable_index (table w) i) as [k|] eqn:Hk.
  - apply (proj1 (departed_target w i s (preempted saved) e Hi Hr (Some k)
      ltac:(rewrite <- Hk; apply next_runnable_ok))).
  - intros k [= <-]. exists (preempted saved s).
    rewrite rotated_slots, list_lookup_insert_eq by by eapply lookup_lt_Some. split; [done|].
    apply is_runnable_iff. by apply is_running_iff in Hr as [? _].
Qed.

Lemma rotation_scheduled j :
  scheduled (table w) j
    (if (j =? i)%nat then saved else context (slot_at EMPTY (slots (table w)) j)) e
  = scheduled (table (rotated i saved e w)) j
      (context (slot_at EMPTY (slots (table (rotated i saved e w))) j)) e.
Proof.
  unfold scheduled, slot_at. rewrite rotated_slots. destruct (Nat.eqb_spec j i) as [->|Hne].
  - rewrite Hi, list_lookup_insert_eq by by eapply lookup_lt_Some. done.
  - by rewrite list_lookup_insert_ne.
Qed.

Lemma rotated_switched :
  let target := target_of (table (rotated i saved e w)) (Some (rotation_target w i)) e in
  switched w (rotated i saved e w) (Some (rotation_target w i)) (decision target e)
    (handed target e (rotated i saved e w)).
Proof.
  pose proof rotation_index_ok as Hidx. pose proof rotation_slot_wf as Hsw.
  apply is_running_iff in Hr as Hr'.
  assert (departs s (preempted saved s)) as Hd
    by (apply departs_off; [|apply Hr'|by left]; split_and!; try done; apply Hr').
  split; try done; [by eapply departed_table_wf|eapply departed_none; [done..|by apply not_running]|
    by apply next_epoch_Ok in He as [-> _]|by eapply departed_departs].
Qed.

Lemma rotate_run :
  ∃ sp w', rotate i saved w = (Ok sp, w') ∧
    switched w (rotated i saved e w) (Some (rotation_target w i)) (User sp) w'.
Proof.
  pose proof rotated_switched as Hsd. eexists _, _. split; [|exact Hsd].
  destruct (rotation_index_ok _ eq_refl) as (x & Hx & [Ho _]%is_runnable_iff).
  pose proof (sd_table _ _ _ _ _ Hsd) as Ht1.
  unfold rotate. m_unfold. fold (rotation_target w i). rewrite next_epoch_now_run, He.
  rewrite rotation_scheduled. unfold valid_or, liftR. erewrite dispatch_valid; [|done..|].
  - rewrite on_slot_compose. done.
  - rewrite (slot_at_Some _ _ _ _ Hx). by apply (sw_context _ _ (tw_slots _ Ht1 _ _ Hx)).
Qed.
End Rotation.

(** An operation that, when it succeeds, is a context switch, and changes
    nothing otherwise. *)
Definition switches (m : LM ScheduleDecision) (w : Lifecycle) : Prop :=
  match m w with
  | (Ok d, w') => ∃ w1 index, switched w w1 index d w'
  | (Err _, w') => w' = w
  end.

(** The same, from the caller's slot, which it leaves in a state [q], to the
    next runnable one after it. *)
Definition rotates (q : ProcessSlot → Prop) (m : LM ScheduleDecision) (w : Lifecycle) : Prop :=
  match m w with
  | (Ok d, w') => ∃ w1 i index, caller w = Ok i ∧ switched w w1 index d w' ∧
      (∀ k, k ≠ i → slots (table w1) !! k = slots (table w) !! k) ∧
      (∀ s s1, slots (table w) !! i = Some s → slots (table w1) !! i = Some s1 →
         departs s s1 ∧ q s1) ∧
      (index = next_runnable_index (table w) i ∨ next_runnable_index (table w) i = None)
  | (Err _, w') => w' = w
  end.

Lemma rotates_switches q m w : rotates q m w → switches m w.
Proof. unfold rotates, switches. destruct (m w) as [[d|] w']; [|done]. naive_solver. Qed.

Definition as_user (m : LM ScheduledProcess) : LM ScheduleDecision := s ← m; mret (User s).

Lemma rotate_rotates w i s saved :
  wf w → slots (table w) !! i = Some s → is_running s = true → valid_context saved = true →
  rotates (λ s1, phase s1 = Runnable) (as_user (rotate i saved)) w.
Proof.
  intros Hw Hi Hr Hc. unfold rotates, as_user. m_unfold.
  destruct (next_scheduler_epoch (scheduler_epoch (table w))) as [e|x] eqn:He.
  - destruct (rotate_run w i s saved e Hw Hi Hr Hc He) as (sp & w' & -> & Hsd).
    eexists _, i, _. split_and!; [by eapply caller_running|exact Hsd|by apply departed_others| |].
    { intros x s1 Hx. assert (x = s) as -> by congruence. simpl. rewrite list_lookup_alter_eq, Hi.
      intros [= <-]. apply is_running_iff in Hr as [Ho Hp]. split; [|done]. apply departs_off; auto. done. }
    unfold rotation_target.
    destruct (next_runnable_index (table w) i); [by left|by right].
  - unfold rotate. m_unfold. by rewrite next_epoch_now_run, He.
Qed.

Lemma yield_rotates saved w : wf w → rotates (λ s1, phase s1 = Runnable) (as_user (schedule_yield saved)) w.
Proof.
  intros Hw. unfold rotates, as_user, schedule_yield. m_unfold. rewrite valid_or_run.
  destruct (valid_context saved) eqn:Hc; [|done]. rewrite running_current_run.
  destruct (caller w) as [i|] eqn:Hcl; [|done].
  destruct (caller_Ok w i Hw Hcl) as (s & Hs & Hr & _). rewrite <- Hcl.
  exact (rotate_rotates w i s (set_syscall_result 0 saved) Hw Hs Hr Hc).
Qed.

Lemma index_of_run h e w :
  index_of h e w = (match position (is_slot h) (slots (table w)) with Some i => Ok i | None => Err e end, w).
Proof. unfold index_of. m_unfold. by destruct (position _ _). Qed.

Lemma preempt_rotates saved a w : wf w → rotates (λ s1, phase s1 = Runnable) (as_user (schedule_preempt saved a)) w.
Proof.
  intros Hw. unfold rotates, as_user, schedule_preempt. m_unfold. rewrite valid_or_run.
  destruct (valid_context saved) eqn:Hc; [|done].
  destruct (negb _); [|done]. rewrite index_of_run.
  destruct (position _ _) as [i|] eqn:Hi; [|done].
  apply position_lookup in Hi as (s & Hs & [Ho _]%is_slot_iff).
  unfold require_running. m_unfold. rewrite (slot_at_Some _ _ _ _ Hs).
  destruct (phase_eqb (phase s) Running) eqn:Hp; [|done].
  apply (rotate_rotates w i s saved Hw Hs); [|done]. unfold is_running. by rewrite Ho.
Qed.

(** The operations that give the CPU up: the caller's slot becomes [f s], then
    the next runnable slot or PID0 takes over. *)
Lemma departure_rotates (q : ProcessSlot → Prop) w i s f e :
  q (f s) → wf w → caller w = Ok i → slots (table w) !! i = Some s → is_running s = true →
  next_scheduler_epoch (scheduler_epoch (table w)) = Ok e →
  slot_wf e (f s) → phase (f s) ≠ Running → departs s (f s) →
  let target := target_of (table w) (next_runnable_index (table w) i) e in
  ∃ w1 i' index, (Ok i : Result nat LifecycleError) = Ok i' ∧ switched w w1 index (decision target e) (handed target e (departed i f e w)) ∧
    (∀ k, k ≠ i' → slots (table w1) !! k = slots (table w) !! k) ∧
    (∀ s s1, slots (table w) !! i' = Some s → slots (table w1) !! i' = Some s1 → departs s s1 ∧ q s1) ∧
    (index = next_runnable_index (table w) i' ∨ next_runnable_index (table w) i' = None).
Proof.
  intros Hq Hw Hc Hi Hr He Hf Hp Hd target. eexists _, i, _.
  split_and!; [done| |by apply departed_others| |by left];
    [|intros x s1 Hx; simpl; rewrite list_lookup_alter_eq, Hx; intros [= <-];
      by assert (x = s) as -> by congruence].
  eapply departed_switched; try done; [by apply not_running|apply next_runnable_ok].
Qed.

Lemma block_rotates saved w : wf w → rotates (λ s1, phase s1 = Blocked) (schedule_block saved) w.
Proof.
  intros Hw. unfold rotates, schedule_block. m_unfold. rewrite valid_or_run.
  destruct (valid_context saved) eqn:Hc; [|done]. rewrite running_current_run.
  destruct (caller w) as [i|] eqn:Hcl; [|done].
  destruct (caller_Ok w i Hw Hcl) as (s & Hs & Hr & _). rewrite next_epoch_now_run.
  destruct (next_scheduler_epoch _) as [e|] eqn:He; [|done].
  rewrite select_target_run by (apply Hw || apply next_runnable_ok).
  rewrite !on_slot_compose. fold (departed i (blocked saved e) e w). rewrite hand_over_run.
  apply is_running_iff in Hr as Hr'.
  apply (departure_rotates _ w i s); try done;
    [|apply departs_off; [|apply Hr'|by right]; by split_and!; try apply Hr'].
  eapply blocked_wf; [by apply (tw_slots _ (wf_table _ Hw) i)|apply Hr'|done].
Qed.

Lemma exit_rotates code w : wf w → rotates (λ s1, phase s1 = Zombie) (schedule_exit code) w.
Proof.
  intros Hw. unfold rotates, schedule_exit. m_unfold. rewrite running_current_run.
  destruct (caller w) as [i|] eqn:Hcl; [|done].
  destruct (caller_Ok w i Hw Hcl) as (s & Hs & Hr & _). rewrite next_epoch_now_run.
  destruct (next_scheduler_epoch _) as [e|] eqn:He; [|done].
  rewrite select_target_run by (apply Hw || apply next_runnable_ok).
  rewrite !on_slot_compose. fold (departed i (exited code e) e w). rewrite hand_over_run.
  apply is_running_iff in Hr as Hr'.
  apply (departure_rotates _ w i s); try done;
    [|apply departs_exit; [|done]; by split_and!; try apply Hr'].
  eapply exited_wf; [by apply (tw_slots _ (wf_table _ Hw) i)|apply Hr'].
Qed.

Lemma thread_exit_rotates w : wf w → rotates (λ s1, phase s1 = Free) schedule_thread_exit w.
Proof.
  intros Hw. unfold rotates, schedule_thread_exit. m_unfold. rewrite running_current_run.
  destruct (caller w) as [i|] eqn:Hcl; [|done].
  destruct (caller_Ok w i Hw Hcl) as (s & Hs & Hr & _). destruct (negb _); [|done].
  rewrite next_epoch_now_run. destruct (next_scheduler_epoch _) as [e|] eqn:He; [|done].
  rewrite select_target_run by (apply Hw || apply next_runnable_ok).
  fold (departed i retire e w). rewrite hand_over_run.
  pose proof (proj1 (next_epoch_Ok _ _) He) as [He1 _]. pose proof (tw_epoch _ (wf_table _ Hw)) as H0.
  apply (departure_rotates _ w i s); try done;
    [|apply departs_retire; by apply is_running_iff in Hr as [? _]].
  apply retire_wf; [unfold is_u64 in H0; lia|].
  eapply slot_wf_mono; [by apply (tw_slots _ (wf_table _ Hw) i)|lia].
Qed.

Lemma set_epoch_wf e w :
  table_wf (table w) → next_scheduler_epoch (scheduler_epoch (table w)) = Ok e →
  table_wf (table (set_epoch e w)).
Proof.
  intros [Hl Hs Hp Hn He] [-> Hm]%next_epoch_Ok. unfold is_u64 in He.
  split; simpl; try done; [|unfold is_u64; lia].
  intros i s Hi. eapply slot_wf_mono; [by eapply Hs|lia].
Qed.

Lemma existsb_false_none (p : ProcessSlot → bool) l :
  existsb p l = false → ∀ i s, l !! i = Some s → p s = false.
Proof.
  intros H i s Hi. destruct (p s) eqn:Hp; [|done].
  assert (existsb p l = true) as Ht; [|congruence].
  apply existsb_exists. exists s. split; [|done]. by apply list_elem_of_In, list_elem_of_lookup_2 with i.
Qed.

Lemma from_pid0_switches a w : wf w → switches (schedule_from_pid0 a) w.
Proof.
  intros Hw. unfold switches, schedule_from_pid0, validate_pid0_authority. m_unfold.
  destruct (negb _); [|done]. destruct (existsb _ _) eqn:Hx; [done|]. cbn [negb].
  rewrite next_epoch_now_run. destruct (next_scheduler_epoch _) as [e|] eqn:He; [|done].
  assert (index_ok (table w) (position is_runnable (slots (table w)))) as Hidx
    by (intros j; apply position_lookup).
  rewrite select_target_run by (done || apply Hw). rewrite hand_over_run.
  pose proof (proj1 (next_epoch_Ok _ _) He) as [-> _].
  exists (set_epoch (scheduler_epoch (table w) + 1) w), (position is_runnable (slots (table w))).
  split; try done.
  - by apply set_epoch_wf; [apply Hw|].
  - exact (existsb_false_none is_running _ Hx).
  - intros k s Hk. exists s. split; [done|constructor].
Qed.

(** What [schedule_exit_group] makes of one slot. *)
Definition ended (group code e : Z) (leader j : nat) (s : ProcessSlot) : ProcessSlot :=
  if negb (in_group group s) then s
  else if (j =? leader)%nat then exited code e s else retire s.

Lemma end_group_lookup group code e leader l j :
  end_group group code e leader l !! j = ended group code e leader j <$> l !! j.
Proof.
  unfold end_group, ended, in_group. rewrite list_lookup_imap.
  destruct (l !! j) as [s|]; [|done]. simpl. by destruct (occupied s), (thread_group s =? group).
Qed.

Lemma ended_phase group code e leader j s :
  in_group group s = true → phase (ended group code e leader j s) ≠ Running.
Proof. unfold ended. intros ->. simpl. by destruct (_ =? _)%nat. Qed.

Lemma ended_departs group code e leader j s : departs s (ended group code e leader j s).
Proof.
  unfold ended. destruct (in_group group s) eqn:Hg; [|constructor].
  apply andb_true_iff in Hg as [Ho _]. simpl.
  destruct (_ =? _)%nat; [by apply departs_exit|by apply departs_retire].
Qed.

Lemma ended_wf e e' group code leader j s :
  0 ≤ e' → e ≤ e' → slot_wf e s → slot_wf e' (ended group code e' leader j s).
Proof.
  intros H0 He Hs. unfold ended. destruct (in_group group s) eqn:Hg; simpl; [|by eapply slot_wf_mono].
  apply andb_true_iff in Hg as [Ho _]. destruct (_ =? _)%nat; [by eapply exited_wf|].
  apply retire_wf; [done|]. by eapply slot_wf_mono.
Qed.

(** The table after a thread group ended. *)
Definition group_ended (group code e : Z) (leader : nat) (w : Lifecycle) : Lifecycle :=
  set_epoch e (on_table (λ t,
    mkTable (end_group group code e leader (slots t)) (next_pid t) (scheduler_epoch t)) w).

Lemma group_ended_wf group code e leader w :
  table_wf (table w) → next_scheduler_epoch (scheduler_epoch (table w)) = Ok e →
  table_wf (table (group_ended group code e leader w)).
Proof.
  intros Ht [-> Hm]%next_epoch_Ok. pose proof (tw_epoch _ Ht) as H0. unfold is_u64 in H0.
  split; simpl.
  - unfold end_group. rewrite length_imap. apply Ht.
  - intros j x. rewrite end_group_lookup. intros (s & Hs & ->)%fmap_Some.
    eapply ended_wf; [lia| |by eapply tw_slots]. lia.
  - intros j k x y. rewrite !end_group_lookup. intros (s & Hs & ->)%fmap_Some (s' & Hs' & ->)%fmap_Some.
    intros [Ho ->]%(departs_id _ _ (ended_departs _ _ _ _ _ _))
      [Ho' ->]%(departs_id _ _ (ended_departs _ _ _ _ _ _)). by eapply tw_pids.
  - apply Ht.
  - unfold is_u64. lia.
Qed.

(** A candidate outside the group. *)
Definition outside (w : Lifecycle) (group : Z) (index : option nat) : Prop :=
  ∀ j, index = Some j → ∃ x, slots (table w) !! j = Some x ∧ is_runnable x = true ∧
    in_group group x = false.

Lemma exit_group_cases code w :
  wf w →
  (∃ x, schedule_exit_group code w = (Err x, w)) ∨
  ∃ i s leader e index,
    slots (table w) !! i = Some s ∧ is_running s = true ∧
    position (leads (thread_group s)) (slots (table w)) = Some leader ∧
    next_scheduler_epoch (scheduler_epoch (table w)) = Ok e ∧ outside w (thread_group s) index ∧
    schedule_exit_group code w =
      (Ok (decision (target_of (table w) index e) e),
       handed (target_of (table w) index e) e (group_ended (thread_group s) code e leader w)).
Proof.
  intros Hw. unfold schedule_exit_group. m_unfold. rewrite running_current_run.
  destruct (caller w) as [i|] eqn:Hcl; [|left; by eexists].
  destruct (caller_Ok w i Hw Hcl) as (s & Hs & Hr & _). rewrite (slot_at_Some _ _ _ _ Hs).
  destruct (position _ _) as [leader|] eqn:Hl; [|left; by eexists]. rewrite next_epoch_now_run.
  destruct (next_scheduler_epoch _) as [e|] eqn:He; [|left; by eexists]. right.
  set (index := find _ _). assert (outside w (thread_group s) index) as Hidx.
  { intros j [_ [Hx Hg]%andb_true_iff]%find_some. eexists. split; [by apply slot_at_runnable|].
    split; [done|]. unfold in_group. by rewrite (proj1 (negb_true_iff _) Hg), andb_false_r. }
  rewrite select_target_run by (apply Hw || (intros j Hj; destruct (Hidx j Hj) as (x & ? & ? & _); eauto)).
  fold (group_ended (thread_group s) code e leader w). rewrite hand_over_run.
  exists i, s, leader, e, index. done.
Qed.

(** Slots outside the group are untouched. *)
Lemma group_ended_outside w group code e leader j x :
  slots (table w) !! j = Some x → in_group group x = false →
  slots (table (group_ended group code e leader w)) !! j = Some x.
Proof. intros Hj Hg. simpl. rewrite end_group_lookup, Hj. simpl. unfold ended. by rewrite Hg. Qed.

Lemma group_ended_target w group code e leader index :
  outside w group index →
  index_ok (table (group_ended group code e leader w)) index ∧
  target_of (table w) index e = target_of (table (group_ended group code e leader w)) index e.
Proof.
  intros Hidx. destruct index as [j|]; [|by split]. destruct (Hidx j eq_refl) as (x & Hx & Hr & Hg).
  pose proof (group_ended_outside w group code e leader j x Hx Hg) as Hx'. split.
  - intros k [= <-]. eauto.
  - unfold target_of, scheduled. cbv [fmap option_fmap option_map].
    by rewrite (slot_at_Some _ _ _ _ Hx), (slot_at_Some _ _ _ _ Hx').
Qed.

Lemma group_ended_none w i s code e leader :
  wf w → slots (table w) !! i = Some s → is_running s = true →
  none_running (table (group_ended (thread_group s) code e leader w)).
Proof.
  intros Hw Hi Hr j x. simpl. rewrite end_group_lookup. intros (y & Hy & ->)%fmap_Some.
  destruct (in_group (thread_group s) y) eqn:Hg; [by apply not_running, ended_phase|].
  unfold ended. rewrite Hg. simpl. destruct (is_running y) eqn:Hyr; [|done].
  assert (j = i) as -> by by eapply (none_running_other w i s).
  assert (y = s) as -> by congruence. apply is_running_iff in Hr as [Ho _].
  unfold in_group in Hg. by rewrite Ho, Z.eqb_refl in Hg.
Qed.

Lemma exit_group_switches code w : wf w → switches (schedule_exit_group code) w.
Proof.
  intros Hw. unfold switches.
  destruct (exit_group_cases code w Hw) as [[x ->]|(i & s & leader & e & index & Hi & Hr & _ & He & Hidx & ->)];
    [done|]. exists (group_ended (thread_group s) code e leader w), index.
  destruct (group_ended_target w (thread_group s) code e leader index Hidx) as [Hok ->].
  pose proof (proj1 (next_epoch_Ok _ _) He) as [He1 _]. split; try done.
  - by apply group_ended_wf; [apply Hw|].
  - by eapply group_ended_none.
  - intros k x Hk. simpl. rewrite end_group_lookup, Hk. eexists. split; [done|]. apply ended_departs.
Qed.

(** ** The PID allocator *)

(** The PIDs 2 .. u32::MAX in a circle. *)
Definition PID_RANGE : Z := U32_MAX - 1.
Definition nth_pid (start : Z) (k : nat) : Z := 2 + (start - 2 + Z.of_nat k) mod PID_RANGE.

Lemma nth_pid_0 p : 2 ≤ p ≤ U32_MAX → nth_pid p 0 = p.
Proof. unfold nth_pid, PID_RANGE, U32_MAX. intros. rewrite Z.mod_small; lia. Qed.

Lemma next_pid_step p :
  2 ≤ p ≤ U32_MAX → Z.max (wrapping_add U32_MAX p 1) 2 = nth_pid p 1.
Proof.
  unfold nth_pid, wrapping_add, PID_RANGE, U32_MAX. intros Hp. destruct (Z.eq_dec p 4294967295) as [->|].
  - done.
  - rewrite !Z.mod_small; lia.
Qed.

Lemma nth_pid_range p k : 2 ≤ nth_pid p k ≤ U32_MAX.
Proof.
  unfold nth_pid. pose proof (Z.mod_pos_bound (p - 2 + Z.of_nat k) PID_RANGE ltac:(done)).
  unfold PID_RANGE in *. lia.
Qed.

Lemma nth_pid_S p k : nth_pid (nth_pid p 1) k = nth_pid p (S k).
Proof.
  unfold nth_pid. rewrite Z.add_simpl_l, Zplus_mod_idemp_l. f_equal. f_equal. lia.
Qed.

Lemma nth_pid_inj p j k :
  Z.of_nat j < PID_RANGE → Z.of_nat k < PID_RANGE → nth_pid p j = nth_pid p k → j = k.
Proof.
  unfold nth_pid. intros Hj Hk H.
  assert ((Z.of_nat j - Z.of_nat k) mod PID_RANGE = 0) as H0.
  { replace (Z.of_nat j - Z.of_nat k) with ((p - 2 + Z.of_nat j) - (p - 2 + Z.of_nat k)) by lia.
    rewrite Zminus_mod. replace ((p - 2 + Z.of_nat j) mod PID_RANGE)
      with ((p - 2 + Z.of_nat k) mod PID_RANGE) by lia. by rewrite Z.sub_diag. }
  apply Z.mod_divide in H0 as [q Hq]; [|done]. unfold PID_RANGE, U32_MAX in *. assert (q = 0) by lia. lia.
Qed.

(** The loop tries the PIDs in order and returns the first free one. *)
Lemma allocate_loop_spec n t :
  2 ≤ next_pid t ≤ U32_MAX →
  (∃ k, (k < n)%nat ∧
     allocate_pid_loop n t = (Some (nth_pid (next_pid t) k), with_next_pid (nth_pid (next_pid t) (S k)) t) ∧
     existsb (has_pid (nth_pid (next_pid t) k)) (slots t) = false ∧
     ∀ m, (m < k)%nat → existsb (has_pid (nth_pid (next_pid t) m)) (slots t) = true) ∨
  (allocate_pid_loop n t).1 = None ∧
     ∀ m, (m < n)%nat → existsb (has_pid (nth_pid (next_pid t) m)) (slots t) = true.
Proof.
  revert t. induction n as [|n IH]; intros t Ht; [right; split; [done|lia]|].
  cbn [allocate_pid_loop]. cbv zeta. rewrite Z.max_l by lia. rewrite next_pid_step by done.
  change (slots (with_next_pid _ t)) with (slots t).
  destruct (existsb (has_pid (next_pid t)) (slots t)) eqn:Hx.
  - assert (∀ m, (m < S n)%nat → (∀ m', (m' < m)%nat →
      existsb (has_pid (nth_pid (nth_pid (next_pid t) 1) m')) (slots t) = true) →
      ∀ m', (m' < S m)%nat → existsb (has_pid (nth_pid (next_pid t) m')) (slots t) = true) as Hup.
    { intros m _ Hm [|m'] Hm'; [by rewrite nth_pid_0|]. rewrite <- nth_pid_S. apply Hm. lia. }
    destruct (IH (with_next_pid (nth_pid (next_pid t) 1) t)) as [(k & Hk & -> & Hf & Hall)|[Hn Hall]];
      [apply nth_pid_range|..].
    + left. exists (S k). simpl in *. rewrite !nth_pid_S in *.
      split_and!; [lia|done|done|]. apply Hup; [lia|done].
    + right. split; [done|]. apply Hup; [lia|done].
  - left. exists O. rewrite nth_pid_0 by done. split_and!; [lia|done|done|lia].
Qed.

(** PIDs never run out: there is one more candidate than slots. *)
Lemma allocate_pid_spec t :
  table_wf t →
  ∃ k, (k ≤ MAXIMUM_PROCESSES)%nat ∧
    allocate_pid t = (Some (nth_pid (next_pid t) k), with_next_pid (nth_pid (next_pid t) (S k)) t) ∧
    (∀ j s, slots t !! j = Some s → has_pid (nth_pid (next_pid t) k) s = false) ∧
    ∀ m, (m < k)%nat → existsb (has_pid (nth_pid (next_pid t) m)) (slots t) = true.
Proof.
  intros Ht. destruct (allocate_loop_spec (S MAXIMUM_PROCESSES) t (tw_next _ Ht))
    as [(k & Hk & Ha & Hf & Hall)|[_ Hall]].
  - exists k. split_and!; [lia|done|by apply existsb_false_none|done].
  - exfalso.
    assert (NoDup (nth_pid (next_pid t) <$> seq 0 (S MAXIMUM_PROCESSES))) as Hnd.
    { apply NoDup_fmap_2_strong; [|apply NoDup_seq]. intros j k Hj Hk.
      apply elem_of_seq in Hj, Hk. unfold MAXIMUM_PROCESSES in *.
      apply nth_pid_inj; unfold PID_RANGE, U32_MAX; lia. }
    assert (nth_pid (next_pid t) <$> seq 0 (S MAXIMUM_PROCESSES) ⊆ s_pid <$> slots t) as Hsub.
    { intros p (m & -> & Hm)%list_elem_of_fmap. apply elem_of_seq in Hm.
      specialize (Hall m ltac:(lia)). apply existsb_exists in Hall as (s & Hs & [_ Hp]%has_pid_iff).
      rewrite <- Hp. apply list_elem_of_fmap_2. by apply list_elem_of_In. }
    apply NoDup_submseteq in Hsub; [|done]. apply submseteq_length in Hsub.
    rewrite !length_fmap, length_seq, (tw_length _ Ht) in Hsub. lia.
Qed.

(** ** The process state machine

    What one operation may do to one slot. [born] holds of the PIDs the
    operation may introduce. *)

Inductive phase_step : ProcessPhase → ProcessPhase → Prop :=
| phase_stay p : phase_step p p
| phase_dispatch : phase_step Runnable Running
| phase_preempt : phase_step Running Runnable
| phase_block : phase_step Running Blocked
| phase_wake : phase_step Blocked Runnable
| phase_exit p : phase_step p Zombie.

Inductive slot_step (born : Z → Prop) (s : ProcessSlot) : ProcessSlot → Prop :=
| step_stay : slot_step born s s
| step_phase s' : same_process s s' → phase_step (phase s) (phase s') → slot_step born s s'
| step_retire : occupied s = true → slot_step born s (retire s)
| step_install s' : occupied s = false → occupied s' = true → phase s' = Runnable →
    s_generation s ≤ s_generation s' → born (s_pid s') → slot_step born s s'.

(** PIDs an operation may introduce: init's, or the first one the allocator
    found free. *)
Definition allocates (t t' : ProcessTable) (k : nat) : Prop :=
  next_pid t' = nth_pid (next_pid t) (S k) ∧
  ∀ m, (m < k)%nat → existsb (has_pid (nth_pid (next_pid t) m)) (slots t) = true.

Definition born (t t' : ProcessTable) (p : Z) : Prop :=
  p = INIT_PID ∨ ∃ k, allocates t t' k ∧ p = nth_pid (next_pid t) k.

Record steps (w w' : Lifecycle) : Prop := {
  st_wf : wf w';
  st_slots : ∀ i s, slots (table w) !! i = Some s →
    ∃ s', slots (table w') !! i = Some s' ∧ slot_step (born (table w) (table w')) s s';
  st_epoch : scheduler_epoch (table w) ≤ scheduler_epoch (table w');
  st_next : next_pid (table w') = next_pid (table w) ∨ ∃ k, allocates (table w) (table w') k;
}.

Lemma steps_refl w : wf w → steps w w.
Proof.
  intros Hw. split; [done| |done|by left]. intros i s Hs. exists s. split; [done|constructor].
Qed.

Lemma departs_step B s s1 : departs s s1 → slot_step B s s1.
Proof.
  intros [|s' Hsp Hp [Hp'|Hp']|s' Hsp Hp|Ho].
  - constructor.
  - apply step_phase; [done|]. rewrite Hp, Hp'. constructor.
  - apply step_phase; [done|]. rewrite Hp, Hp'. constructor.
  - apply step_phase; [done|]. rewrite Hp. constructor.
  - by constructor.
Qed.

Lemma departs_dispatch B s s1 :
  departs s s1 → is_runnable s1 = true → slot_step B s (with_phase Running s1).
Proof.
  intros Hd [Ho Hr]%is_runnable_iff. apply step_phase.
  - destruct Hd as [|s' (? & ? & ? & ? & ?)|s' ?|?]; done.
  - simpl. destruct Hd as [|s' ? -> _|s' ? ?|?]; [rewrite Hr; constructor|constructor|congruence|done].
Qed.

Lemma switched_steps w w1 index d w' : switched w w1 index d w' → steps w w'.
Proof.
  intros Hsd. pose proof (switched_wf _ _ _ _ _ Hsd) as Hwf.
  destruct Hsd as [Ht Hn Hidx He Hnp Hd _ Hst]. split; [done|..].
  - intros i s Hi. destruct (Hd i s Hi) as (s1 & Hs1 & Hds). subst w'. unfold handed, hand_over, target_of.
    destruct index as [j|]; cbn [fmap option_fmap option_map]; m_unfold; simpl;
      [|exists s1; split; [done|by apply departs_step]].
    destruct (Hidx j eq_refl) as (x & Hx & Hxr). rewrite (alter_insert_eq _ _ _ _ Hx).
    destruct (decide (j = i)) as [->|Hne].
    + assert (x = s1) as -> by congruence. eexists.
      rewrite list_lookup_insert_eq by by eapply lookup_lt_Some. split; [done|by apply departs_dispatch].
    + exists s1. rewrite list_lookup_insert_ne by done. split; [done|by apply departs_step].
  - subst w'. destruct index; simpl; lia.
  - left. subst w'. by destruct index.
Qed.

Lemma switches_steps m w : wf w → switches m w → steps w (m w).2.
Proof.
  unfold switches. intros Hw. destruct (m w) as [[d|] w']; [|intros ->; by apply steps_refl].
  intros (w1 & index & Hsd). by eapply switched_steps.
Qed.

Lemma slot_step_mono (B B' : Z → Prop) s s' :
  (∀ p, B p → B' p) → slot_step B s s' → slot_step B' s s'.
Proof.
  intros HB [|x ? ?|?|x ? ? ? ? ?];
    [apply step_stay|by apply step_phase|by apply step_retire|apply step_install; auto].
Qed.

Lemma slot_step_id s s' :
  slot_step (λ _, False) s s' → occupied s' = true → same_process s s'.
Proof. intros [] Ho; done. Qed.

(** Changing one slot without making it running. *)
Lemma change_steps w i s f e :
  wf w → slots (table w) !! i = Some s → scheduler_epoch (table w) ≤ e ≤ U64_MAX →
  slot_wf e (f s) → slot_step (λ _, False) s (f s) →
  (is_running (f s) = true → is_running s = true) →
  steps w (publish_scheduler_epoch e (departed i f e w)).
Proof.
  intros Hw Hi He Hf Hstep Hrun. pose proof (wf_table _ Hw) as Ht.
  assert (slots (table (publish_scheduler_epoch e (departed i f e w)))
    = <[i := f s]> (slots (table w))) as Hsl by by apply slots_on_slot.
  split; [split; [|apply Hw| |done]| |simpl; lia|by left].
  - eapply update_wf; [done..|]. intros Ho.
    destruct (slot_step_id _ _ Hstep Ho) as (? & _ & [= ? ?] & _). done.
  - intros j x. rewrite Hsl.
    intros [(<- & <- & _)|[_ Hx]]%lookup_insert_cases Hr; [|by eapply (wf_running _ Hw)].
    pose proof (proj1 (is_running_iff _) Hr) as [Ho _].
    destruct (slot_step_id _ _ Hstep Ho) as (_ & _ & -> & _).
    eapply (wf_running _ Hw); [done|]. by apply Hrun.
  - intros j x Hj. rewrite Hsl. destruct (decide (i = j)) as [<-|Hne].
    + assert (x = s) as -> by congruence. exists (f s).
      rewrite list_lookup_insert_eq by by eapply lookup_lt_Some. split; [done|].
      by eapply slot_step_mono, Hstep.
    + exists x. rewrite list_lookup_insert_ne by done. split; [done|constructor].
Qed.

Lemma amend_steps w i s f :
  wf w → slots (table w) !! i = Some s → slot_wf (scheduler_epoch (table w)) (f s) →
  slot_step (λ _, False) s (f s) → (is_running (f s) = true → is_running s = true) →
  steps w (on_slot i f w).
Proof.
  intros Hw Hi Hf Hstep Hrun. pose proof (tw_epoch _ (wf_table _ Hw)) as He. unfold is_u64 in He.
  replace (on_slot i f w) with
    (publish_scheduler_epoch (scheduler_epoch (table w)) (departed i f (scheduler_epoch (table w)) w)).
  - by eapply change_steps; [..|lia| | |].
  - rewrite <- (wf_epoch _ Hw) at 1. by destruct w as [[]].
Qed.

(** Filling a free slot. *)
Lemma install_steps w i s s' t :
  wf w → slots (table w) !! i = Some s → claimable s = true →
  slots t = <[i := s']> (slots (table w)) → scheduler_epoch (table w) ≤ scheduler_epoch t →
  is_u64 (scheduler_epoch t) → slot_wf (scheduler_epoch t) s' → phase s' = Runnable →
  s_generation s ≤ s_generation s' →
  next_pid t = next_pid (table w) ∨ (∃ k, allocates (table w) t k) → 
  born (table w) t (s_pid s') → (∀ j x, slots (table w) !! j = Some x → has_pid (s_pid s') x = false) →
  occupied s' = true →
  steps w (mkLifecycle t (CURRENT_EXECUTION w) (scheduler_epoch t)).
Proof.
  intros Hw Hi [Hfree Hmax]%andb_true_iff Hsl He He64 Hwf Hp Hg Hnext Hborn Hfresh Ho.
  pose proof (wf_table _ Hw) as Ht. apply negb_true_iff in Hfree.
  split; [split; [|apply Hw| |done]| |done|done]; simpl.
  - split; try rewrite Hsl; [| | | |done].
    + rewrite length_insert. apply Ht.
    + intros j x [(<- & <- & _)|[_ Hx]]%lookup_insert_cases; [done|].
      eapply slot_wf_mono; [by eapply tw_slots|lia].
    + intros j k x y [(<- & <- & _)|[Hj Hx]]%lookup_insert_cases
        [(<- & <- & _)|[Hk Hy]]%lookup_insert_cases Ox Oy Hxy; [done|..].
      * pose proof (Hfresh _ _ Hy) as H. unfold has_pid in H. by rewrite Oy, Hxy, Z.eqb_refl in H.
      * pose proof (Hfresh _ _ Hx) as H. unfold has_pid in H. by rewrite Ox, Hxy, Z.eqb_refl in H.
      * by eapply tw_pids.
    + destruct Hnext as [-> |(k & -> & _)]; [apply Ht|apply nth_pid_range].
  - rewrite Hsl. intros j x [(<- & <- & _)|[_ Hx]]%lookup_insert_cases Hr.
    + by rewrite (not_running s') in Hr by congruence.
    + by eapply (wf_running _ Hw).
  - intros j x Hj. rewrite Hsl. destruct (decide (i = j)) as [<-|Hne].
    + assert (x = s) as -> by congruence. exists s'.
      rewrite list_lookup_insert_eq by by eapply lookup_lt_Some. split; [done|]. by apply step_install.
    + exists x. rewrite list_lookup_insert_ne by done. split; [done|constructor].
Qed.

(** ** Every operation takes a step of the machine *)

Lemma take_pid_run w :
  wf w →
  ∃ k, take_pid w = (Ok (nth_pid (next_pid (table w)) k),
      on_table (with_next_pid (nth_pid (next_pid (table w)) (S k))) w) ∧
    (∀ j s, slots (table w) !! j = Some s → has_pid (nth_pid (next_pid (table w)) k) s = false) ∧
    ∀ m, (m < k)%nat → existsb (has_pid (nth_pid (next_pid (table w)) m)) (slots (table w)) = true.
Proof.
  intros Hw. destruct (allocate_pid_spec _ (wf_table _ Hw)) as (k & _ & Ha & Hf & Hm).
  exists k. unfold take_pid. rewrite Ha. done.
Qed.

Lemma pid_taken_steps w k :
  wf w → (∀ m, (m < k)%nat → existsb (has_pid (nth_pid (next_pid (table w)) m)) (slots (table w)) = true) →
  steps w (on_table (with_next_pid (nth_pid (next_pid (table w)) (S k))) w).
Proof.
  intros Hw Hm. pose proof (wf_table _ Hw) as [].
  split; [split; [split; try done; apply nth_pid_range|apply Hw..]| |done|by right; exists k].
  intros i s Hi. exists s. split; [done|constructor].
Qed.

Lemma claimable_next s e :
  slot_wf e s → claimable s = true → checked_add U32_MAX (s_generation s) 1 = Some (s_generation s + 1).
Proof.
  intros Hs [_ Hm%negb_true_iff%Z.eqb_neq]%andb_true_iff. apply checked_add_Some.
  pose proof (sw_generation _ _ Hs). lia.
Qed.

(** The slot a launch fills. *)
Definition launched (g p group parent_pid : Z) (l : ProcessLaunch) (e : Z) : ProcessSlot :=
  mkSlot true g p group parent_pid Runnable l (initial (entry_point l) (user_stack_pointer l)) 0 0 e.

Lemma launched_wf g p group parent_pid l e e' :
  1 ≤ g ≤ U32_MAX → 1 ≤ p ≤ U32_MAX → validate_launch l = true → e ≤ e' →
  slot_wf e' (launched g p group parent_pid l e).
Proof.
  intros Hg Hp Hl He. constructor; simpl; auto; [done|].
  intros _. apply validate_launch_iff in Hl as (_ & ? & ? & _). by apply valid_context_initial.
Qed.

Lemma register_init_steps l w : wf w → steps w (register_init l w).2.
Proof.
  intros Hw. unfold register_init. m_unfold. destruct (validate_launch l) eqn:Hl; [|by apply steps_refl].
  case_bool_decide as Hs; [by apply steps_refl|]. cbn [negb].
  destruct (position claimable _) as [i|] eqn:Hi; [|by apply steps_refl].
  apply position_lookup in Hi as (s & Hi & Hcl). simpl. pose proof (wf_table _ Hw) as Ht.
  pose proof (tw_slots _ Ht _ _ Hi) as Hsw. pose proof (tw_epoch _ Ht) as He. unfold is_u64 in He.
  assert (∀ j x, slots (table w) !! j = Some x → has_pid INIT_PID x = false) as Hno.
  { intros j x Hx. destruct (has_pid INIT_PID x) eqn:Hp; [|done]. destruct Hs. unfold slot_by_pid.
    destruct (find (has_pid INIT_PID) (slots (table w))) eqn:E; [eauto|].
    by rewrite (find_none _ _ E x) in Hp by by apply list_elem_of_In, list_elem_of_lookup_2 with j. }
  unfold on_slot, on_table. rewrite (wf_epoch _ Hw).
  eapply (install_steps w i s (launched (s_generation s) INIT_PID INIT_PID NO_PID l 0)
    (mkTable _ _ (scheduler_epoch (table w)))); try done.
  - simpl. by rewrite (alter_insert_eq _ _ _ _ Hi).
  - apply launched_wf; [apply (sw_generation _ _ Hsw)|done|done|simpl; lia].
  - by left.
  - by left.
Qed.

Lemma commit_child_steps p l w : wf w → steps w (commit_child p l w).2.
Proof.
  intros Hw. unfold commit_child. m_unfold.
  destruct (negb ((p =? NO_PID) || negb (validate_launch l))) eqn:Hl; [|by apply steps_refl].
  destruct (slot_by_pid _ _) as [ps|]; [|by apply steps_refl].
  destruct (negb (phase_eqb _ _ || _)); [|by apply steps_refl].
  destruct (take_pid_run w Hw) as (k & -> & Hfresh & Hm). cbn [table slots on_table with_next_pid].
  destruct (position claimable _) as [i|] eqn:Hi; [|by apply pid_taken_steps].
  apply position_lookup in Hi as (s & Hi & Hcl). rewrite (slot_at_Some _ _ _ _ Hi).
  pose proof (wf_table _ Hw) as Ht. pose proof (tw_slots _ Ht _ _ Hi) as Hsw.
  rewrite (claimable_next _ _ Hsw Hcl). simpl. rewrite on_slot_compose.
  apply negb_true_iff, orb_false_iff in Hl as [_ Hl%negb_false_iff].
  unfold on_slot, on_table. simpl. rewrite (wf_epoch _ Hw).
  pose proof (nth_pid_range (next_pid (table w)) k). pose proof (sw_generation _ _ Hsw).
  pose proof (claimable_next _ _ Hsw Hcl) as [_ ?]%checked_add_Some.
  eapply (install_steps w i s (launched (s_generation s + 1) (nth_pid (next_pid (table w)) k)
    (nth_pid (next_pid (table w)) k) p l (scheduler_epoch (table w)))
    (mkTable _ _ (scheduler_epoch (table w)))); try done.
  - simpl. by rewrite (alter_insert_eq _ _ _ _ Hi).
  - apply Ht.
  - apply launched_wf; [lia|lia|done|simpl; lia].
  - simpl. lia.
  - right. by exists k.
  - right. by exists k.
Qed.

(** A change that leaves every process and its phase alone. *)
Record quiet (w w1 : Lifecycle) : Prop := {
  qt_slots : ∀ k s1, slots (table w1) !! k = Some s1 →
    ∃ s, slots (table w) !! k = Some s ∧ (s1 = s ∨ same_process s s1 ∧ phase s1 = phase s);
  qt_length : length (slots (table w1)) = length (slots (table w));
  qt_next : next_pid (table w1) = next_pid (table w);
  qt_epoch : scheduler_epoch (table w) ≤ scheduler_epoch (table w1);
}.

Lemma quiet_has_pid w w1 p :
  quiet w w1 → existsb (has_pid p) (slots (table w1)) = true →
  existsb (has_pid p) (slots (table w)) = true.
Proof.
  intros Hq (s1 & Hin & [Ho Hp]%has_pid_iff)%existsb_exists.
  apply list_elem_of_In, list_elem_of_lookup in Hin as [k Hk].
  destruct (qt_slots _ _ Hq k s1 Hk) as (s & Hs & Hcase). apply existsb_exists. exists s.
  split; [by apply list_elem_of_In, list_elem_of_lookup_2 with k|]. apply has_pid_iff.
  destruct Hcase as [->|[(? & ? & [= ? ?] & _) _]]; [done|]. split; [done|congruence].
Qed.

Lemma quiet_slot_step B s s1 s' :
  s1 = s ∨ same_process s s1 ∧ phase s1 = phase s → slot_step B s1 s' → slot_step B s s'.
Proof.
  intros [->|[Hsp Hph]] Hst; [done|]. destruct Hsp as (Ho & Ho1 & Hh & Hg & Hpa).
  destruct Hst as [|x (? & ? & Hh' & Hg' & Hpa') Hps|_|x Hf]; [| | |congruence].
  - apply step_phase; [done|]. rewrite Hph. constructor.
  - apply step_phase; [|by rewrite <- Hph]. split_and!; congruence.
  - replace (retire s1) with (retire s); [by constructor|].
    injection Hh as _ Hgen. unfold retire. by rewrite Hgen.
Qed.

Lemma steps_quiet w w1 w' : quiet w w1 → steps w1 w' → steps w w'.
Proof.
  intros Hq [Hwf Hst He Hn].
  assert (∀ k, allocates (table w1) (table w') k → allocates (table w) (table w') k) as Hal.
  { intros k [Hk Hm]. rewrite (qt_next _ _ Hq) in *. split; [done|]. intros m Hlt.
    apply (quiet_has_pid w w1); auto. }
  split; [done| | |].
  - intros i s Hi. destruct (lookup_lt_is_Some_2 (slots (table w1)) i) as [s1 Hs1].
    { rewrite (qt_length _ _ Hq). by eapply lookup_lt_Some. }
    destruct (qt_slots _ _ Hq i s1 Hs1) as (x & Hx & Hcase). assert (x = s) as -> by congruence.
    destruct (Hst i s1 Hs1) as (s' & Hs' & Hstep). exists s'. split; [done|].
    eapply quiet_slot_step; [done|]. eapply slot_step_mono; [|done].
    intros p [->|(k & Hk & ->)]; [by left|]. right. exists k. split; [by apply Hal|].
    by rewrite (qt_next _ _ Hq).
  - pose proof (qt_epoch _ _ Hq). lia.
  - destruct Hn as [->|[k Hk]]; [left; apply Hq|right; eauto].
Qed.

Lemma quiet_context w i s c e :
  slots (table w) !! i = Some s → occupied s = true → scheduler_epoch (table w) ≤ e →
  quiet w (publish_scheduler_epoch e (departed i (with_context c) e w)).
Proof.
  intros Hi Ho He. assert (slots (table (publish_scheduler_epoch e (departed i (with_context c) e w)))
    = <[i := with_context c s]> (slots (table w))) as Hsl by by apply slots_on_slot.
  split; [| |done|done]; rewrite Hsl; [|apply length_insert].
  intros k s1 [(<- & <- & _)|[_ Hk]]%lookup_insert_cases; eauto. exists s. split; [done|]. right. done.
Qed.

Lemma context_steps w i s c e :
  wf w → slots (table w) !! i = Some s → is_running s = true → valid_context c = true →
  next_scheduler_epoch (scheduler_epoch (table w)) = Ok e →
  steps w (publish_scheduler_epoch e (departed i (with_context c) e w)).
Proof.
  intros Hw Hi Hr Hc [-> He]%next_epoch_Ok. apply is_running_iff in Hr as Hr'.
  eapply change_steps; try done; [lia|..].
  - eapply with_context_wf; [by apply (tw_slots _ (wf_table _ Hw) i)|apply Hr'|lia|done].
  - apply step_phase; [|constructor]. split_and!; try done; apply Hr'.
Qed.

(** The slot of a cloned thread. *)
Definition cloned (g p : Z) (s : ProcessSlot) (c : SavedUserContext) (fs e : Z) : ProcessSlot :=
  mkSlot true g p (thread_group s) (parent s) Runnable (launch s) c fs 0 e.

Section Clone.
Context (w : Lifecycle) (i c k : nat) (s x : ProcessSlot) (ctx : SavedUserContext) (sp fs e : Z).
Hypothesis Hw : wf w.
Hypothesis Hi : slots (table w) !! i = Some s.
Hypothesis Hr : is_running s = true.
Hypothesis Hctx : valid_context ctx = true.
Hypothesis Hsp : valid_user_address sp = true.
Hypothesis Hfs : valid_user_tls_base fs = true.
Hypothesis Hc : slots (table w) !! c = Some x.
Hypothesis Hcl : claimable x = true.
Hypothesis Hfresh :
  ∀ j y, slots (table w) !! j = Some y → has_pid (nth_pid (next_pid (table w)) k) y = false.
Hypothesis Hm :
  ∀ m, (m < k)%nat → existsb (has_pid (nth_pid (next_pid (table w)) m)) (slots (table w)) = true.
Hypothesis He : next_scheduler_epoch (scheduler_epoch (table w)) = Ok e.
Let p := nth_pid (next_pid (table w)) k.
Let child := cloned (s_generation x + 1) p s (with_stack sp (set_syscall_result 0 ctx)) fs e.
Let parent_context := set_syscall_result p ctx.

Lemma clone_distinct : c ≠ i.
Proof.
  intros ->. assert (x = s) as -> by congruence. apply is_running_iff in Hr as [Ho _].
  apply andb_true_iff in Hcl as [Hf _]. by rewrite Ho in Hf.
Qed.

Lemma cloned_wf : slot_wf e child.
Proof.
  pose proof (wf_table _ Hw) as Ht. apply is_running_iff in Hr as [Ho _].
  pose proof (tw_slots _ Ht _ _ Hi) as Hs. pose proof (tw_slots _ Ht _ _ Hc) as Hx.
  pose proof (claimable_next _ _ Hx Hcl) as [_ Hmax]%checked_add_Some.
  pose proof (sw_generation _ _ Hx). pose proof (nth_pid_range (next_pid (table w)) k) as Hp.
  constructor; simpl; try done; try lia; intros _.
  - by apply (sw_launch _ _ Hs).
  - by apply valid_context_with_stack.
Qed.

Lemma clone_final_steps :
  steps w (publish_scheduler_epoch e (set_epoch e (on_slot i (with_context parent_context)
    (on_slot c (λ _, child) (on_table (with_next_pid (nth_pid (next_pid (table w)) (S k))) w))))).
Proof.
  pose proof (wf_table _ Hw) as Ht. apply is_running_iff in Hr as Hr'.
  pose proof (proj1 (next_epoch_Ok _ _) He) as [He1 He2]. pose proof (tw_epoch _ Ht) as H0.
  pose proof clone_distinct as Hne. unfold is_u64 in H0.
  assert (valid_context parent_context = true) as Hpc by done.
  pose proof (context_steps w i s parent_context e Hw Hi Hr Hpc He) as Hst1.
  assert (scheduler_epoch (table w) ≤ e) as Hle by lia.
  pose proof (quiet_context w i s parent_context e Hi ltac:(apply Hr') Hle) as Hq.
  eapply steps_quiet; [exact Hq|].
  set (wA := publish_scheduler_epoch e (departed i (with_context parent_context) e w)) in *.
  assert (slots (table wA) = <[i := with_context parent_context s]> (slots (table w))) as HslA
    by by apply slots_on_slot.
  assert (∀ j y, slots (table wA) !! j = Some y → has_pid p y = false) as HfreshA.
  { intros j y. rewrite HslA. intros [(<- & <- & _)|[_ Hy]]%lookup_insert_cases; [|by eapply Hfresh].
    exact (Hfresh _ _ Hi). }
  assert (∀ m, (m < k)%nat → existsb (has_pid (nth_pid (next_pid (table wA)) m)) (slots (table wA)) = true) as HmA.
  { intros m Hlt. specialize (Hm m Hlt). apply existsb_exists in Hm as (y & Hin & Hp).
    apply list_elem_of_In, list_elem_of_lookup in Hin as [j Hj]. apply existsb_exists.
    destruct (decide (i = j)) as [<-|Hij].
    - assert (y = s) as -> by congruence. exists (with_context parent_context s). split; [|done].
      apply list_elem_of_In, list_elem_of_lookup_2 with i. rewrite HslA, list_lookup_insert_eq; [done|].
      by eapply lookup_lt_Some.
    - exists y. split; [|done]. apply list_elem_of_In, list_elem_of_lookup_2 with j.
      by rewrite HslA, list_lookup_insert_ne. }
  eapply (install_steps wA c x child (mkTable _ (nth_pid (next_pid (table w)) (S k)) e));
    [apply Hst1| |done| |done| |apply cloned_wf|done| | | |done|done].
  - by rewrite HslA, list_lookup_insert_ne.
  - rewrite HslA. cbn [slots table on_slot on_table with_next_pid]. rewrite (alter_insert_eq _ _ _ _ Hc).
    rewrite (alter_insert_eq _ _ i s) by by rewrite list_lookup_insert_ne.
    by rewrite list_insert_insert_ne.
  - unfold is_u64. simpl. lia.
  - simpl. lia.
  - right. exists k. by split.
  - right. exists k. by split.
Qed.
End Clone.

(** The outcomes of a clone: refused, refused after a PID was taken, or a new
    runnable thread in a free slot. *)
Lemma clone_cases ctx sp fs w :
  wf w →
  (∃ x, clone_current_thread ctx sp fs w = (Err x, w)) ∨
  (∃ x k, (∀ m, (m < k)%nat →
       existsb (has_pid (nth_pid (next_pid (table w)) m)) (slots (table w)) = true) ∧
     clone_current_thread ctx sp fs w
     = (Err x, on_table (with_next_pid (nth_pid (next_pid (table w)) (S k))) w)) ∨
  ∃ i c k s x e,
    let p := nth_pid (next_pid (table w)) k in
    slots (table w) !! i = Some s ∧ is_running s = true ∧ valid_context ctx = true ∧
    valid_user_address sp = true ∧ valid_user_tls_base fs = true ∧
    slots (table w) !! c = Some x ∧ claimable x = true ∧
    (∀ j y, slots (table w) !! j = Some y → has_pid p y = false) ∧
    (∀ m, (m < k)%nat →
       existsb (has_pid (nth_pid (next_pid (table w)) m)) (slots (table w)) = true) ∧
    next_scheduler_epoch (scheduler_epoch (table w)) = Ok e ∧
    clone_current_thread ctx sp fs w =
      (Ok (mkHandle p (s_generation x + 1), scheduled (table w) i (set_syscall_result p ctx) e),
       publish_scheduler_epoch e (set_epoch e (on_slot i (with_context (set_syscall_result p ctx))
         (on_slot c (λ _, cloned (s_generation x + 1) p s
            (with_stack sp (set_syscall_result 0 ctx)) fs e)
            (on_table (with_next_pid (nth_pid (next_pid (table w)) (S k))) w))))).
Proof.
  intros Hw. unfold clone_current_thread. m_unfold.
  destruct (valid_user_address sp) eqn:Hsp; [|left; by eexists].
  destruct (valid_user_tls_base fs) eqn:Hfs; [|left; by eexists]. cbn [negb orb].
  rewrite valid_or_run. destruct (valid_context ctx) eqn:Hctx; [|left; by eexists].
  rewrite running_current_run. destruct (caller w) as [i|] eqn:Hcl; [|left; by eexists].
  destruct (caller_Ok w i Hw Hcl) as (s & Hi & Hr & _). rewrite (slot_at_Some _ _ _ _ Hi).
  destruct (is_linux _); [|left; by eexists]. right.
  destruct (take_pid_run w Hw) as (k & -> & Hfresh & Hm). cbn [table slots on_table with_next_pid].
  destruct (position claimable _) as [c|] eqn:Hc; [|left; by eexists _, k].
  apply position_lookup in Hc as (x & Hc & Hclx). rewrite (slot_at_Some _ _ _ _ Hc).
  pose proof (wf_table _ Hw) as Ht. pose proof (tw_slots _ Ht _ _ Hc) as Hx.
  rewrite (claimable_next _ _ Hx Hclx), next_epoch_now_run.
  cbn [table on_table with_next_pid scheduler_epoch].
  destruct (next_scheduler_epoch _) as [e|] eqn:He; [|left; by eexists _, k]. right.
  rewrite valid_or_run, valid_context_with_stack by done.
  apply is_running_iff in Hr as Hr'. unfold valid_or, liftR.
  erewrite (dispatch_valid _ i s);
    [|exact (wf_table _ (st_wf _ _ (pid_taken_steps w k Hw Hm)))|done|apply Hr'|done].
  exists i, c, k, s, x, e. split_and!; done.
Qed.

Lemma clone_steps ctx sp fs w : wf w → steps w (clone_current_thread ctx sp fs w).2.
Proof.
  intros Hw. destruct (clone_cases ctx sp fs w Hw) as [[x ->]|[(x & k & Hm & ->)|
    (i & c & k & s & x & e & Hi & Hr & Hctx & Hsp & Hfs & Hc & Hclx & Hfresh & Hm & He & ->)]].
  - by apply steps_refl.
  - by apply pid_taken_steps.
  - by eapply (clone_final_steps w i c k s x ctx sp fs e).
Qed.

Lemma discard_steps h w : wf w → steps w (discard_runnable_thread h w).2.
Proof.
  intros Hw. unfold discard_runnable_thread, current_user_handle. m_unfold.
  destruct (_ =? _); [by apply steps_refl|]. destruct (decode _); [|by apply steps_refl].
  destruct (slot_by_handle _ _); [|by apply steps_refl]. rewrite index_of_run.
  destruct (position _ _) as [i|] eqn:Hi; [|by apply steps_refl].
  destruct (negb (_ || _)); [|by apply steps_refl].
  apply position_lookup in Hi as (s & Hs & [Ho _]%is_slot_iff).
  pose proof (wf_table _ Hw) as Ht. pose proof (tw_epoch _ Ht) as He. unfold is_u64 in He.
  eapply amend_steps; [done..| | |done].
  - apply retire_wf; [lia|by eapply tw_slots].
  - by apply step_retire.
Qed.

Lemma reap_steps p h w : wf w → steps w (reap_child p h w).2.
Proof.
  intros Hw. unfold reap_child. m_unfold. destruct (negb _); [|by apply steps_refl].
  rewrite index_of_run. destruct (position _ _) as [i|] eqn:Hi; [|by apply steps_refl].
  destruct (_ =? _); [|by apply steps_refl]. destruct (phase_eqb _ _); [|by apply steps_refl].
  apply position_lookup in Hi as (s & Hs & [Ho _]%is_slot_iff).
  pose proof (wf_table _ Hw) as Ht. pose proof (tw_epoch _ Ht) as He. unfold is_u64 in He.
  eapply amend_steps; [done..| | |done].
  - apply retire_wf; [lia|by eapply tw_slots].
  - by apply step_retire.
Qed.

(** A change of phase that does not dispatch. *)
Lemma phase_steps w i s p :
  wf w → slots (table w) !! i = Some s → occupied s = true →
  p ≠ Free → p ≠ Installing → p ≠ Running → phase_step (phase s) p →
  steps w (on_slot i (with_phase p) w).
Proof.
  intros Hw Hi Ho H1 H2 H3 Hp. eapply amend_steps; [done..| | |].
  - eapply with_phase_wf; [by apply (tw_slots _ (wf_table _ Hw) i)|done..].
  - by apply step_phase.
  - by rewrite not_running.
Qed.

Lemma mark_runnable_steps h w : wf w → steps w (mark_runnable h w).2.
Proof.
  intros Hw. unfold mark_runnable. m_unfold. destruct (negb _); [|by apply steps_refl].
  rewrite index_of_run. destruct (position _ _) as [i|] eqn:Hi; [|by apply steps_refl].
  apply position_lookup in Hi as (s & Hs & [Ho _]%is_slot_iff). rewrite (slot_at_Some _ _ _ _ Hs).
  destruct (_ || _) eqn:Hp; [|by apply steps_refl]. eapply phase_steps; try done.
  apply orb_true_iff in Hp as [->%bool_decide_eq_true| ->%bool_decide_eq_true]; constructor.
Qed.

Lemma mark_blocked_steps h w : wf w → steps w (mark_blocked h w).2.
Proof.
  intros Hw. unfold mark_blocked. m_unfold. destruct (negb _); [|by apply steps_refl].
  rewrite index_of_run. destruct (position _ _) as [i|] eqn:Hi; [|by apply steps_refl].
  apply position_lookup in Hi as (s & Hs & [Ho _]%is_slot_iff).
  unfold require_running. m_unfold. rewrite (slot_at_Some _ _ _ _ Hs).
  destruct (phase_eqb _ _) eqn:Hp; [|by apply steps_refl]. eapply phase_steps; try done.
  apply bool_decide_eq_true in Hp as ->. constructor.
Qed.

Lemma resume_steps saved w : wf w → steps w (resume_current saved w).2.
Proof.
  intros Hw. unfold resume_current. m_unfold. rewrite valid_or_run.
  destruct (valid_context saved) eqn:Hc; [|by apply steps_refl]. rewrite running_current_run.
  destruct (caller w) as [i|] eqn:Hcl; [|by apply steps_refl].
  destruct (caller_Ok w i Hw Hcl) as (s & Hi & Hr & _). rewrite next_epoch_now_run.
  destruct (next_scheduler_epoch _) as [e|] eqn:He; [|by apply steps_refl].
  apply is_running_iff in Hr as Hr'. unfold valid_or, liftR.
  rewrite (dispatch_valid _ i s) by (done || apply Hr' || apply Hw). by eapply context_steps.
Qed.

Lemma set_fs_steps base w : wf w → steps w (set_current_fs_base base w).2.
Proof.
  intros Hw. unfold set_current_fs_base. m_unfold.
  destruct (valid_user_tls_base base) eqn:Hb; [|by apply steps_refl]. rewrite running_current_run.
  destruct (caller w) as [i|] eqn:Hcl; [|by apply steps_refl].
  destruct (caller_Ok w i Hw Hcl) as (s & Hi & [Ho Hp]%is_running_iff & _).
  pose proof (tw_slots _ (wf_table _ Hw) _ _ Hi) as [].
  eapply amend_steps; [done..| | |by intros _; apply is_running_iff].
  - constructor; simpl; auto; congruence.
  - apply step_phase; [done|constructor].
Qed.

(** A new image keeps the process. *)
Definition with_image (l : ProcessLaunch) (c : SavedUserContext) (s : ProcessSlot) : ProcessSlot :=
  with_fs_base 0 (with_context c (with_launch l s)).

Lemma replacement_index_run current w :
  wf w →
  (∃ e, current_replacement_index current w = (Err e, w)) ∨
  ∃ i s, slots (table w) !! i = Some s ∧ is_running s = true ∧ handle_of s = current ∧
    abi (launch s) = LinuxX86_64 ∧ s_pid s = thread_group s ∧
    countb (in_group (thread_group s)) (slots (table w)) = 1%nat ∧
    current_replacement_index current w = (Ok i, w).
Proof.
  intros Hw. unfold current_replacement_index. m_unfold. rewrite index_of_run.
  destruct (position _ _) as [i|] eqn:Hi; [|left; eauto].
  apply position_lookup in Hi as (s & Hs & [Ho Hh]%is_slot_iff). rewrite (slot_at_Some _ _ _ _ Hs).
  destruct (phase_eqb (phase s) Running) eqn:Hp; [|left; by eexists].
  destruct (is_linux (abi (launch s))) eqn:Hl; [|left; by eexists].
  destruct (s_pid s =? thread_group s) eqn:Hg; [|left; by eexists].
  destruct (countb _ _ =? 1)%nat eqn:Hn; [|left; by eexists]. right. exists i, s.
  split_and!; try done.
  - unfold is_running. by rewrite Ho.
  - by destruct (abi (launch s)).
  - by apply Z.eqb_eq.
  - by apply Nat.eqb_eq.
Qed.

Lemma replace_steps root entry stack meas w :
  wf w → steps w (replace_current_image root entry stack meas w).2.
Proof.
  intros Hw. unfold replace_current_image, current_user_handle. m_unfold.
  destruct (_ =? _); [by apply steps_refl|]. destruct (decode _) as [h|]; [|by apply steps_refl].
  destruct (replacement_index_run h w Hw) as [[x ->]|(i & s & Hi & Hr & _ & _ & _ & _ & ->)];
    [by apply steps_refl|]. rewrite (slot_at_Some _ _ _ _ Hi).
  destruct (validate_launch _) eqn:Hl; [|by apply steps_refl]. rewrite next_epoch_now_run.
  destruct (next_scheduler_epoch _) as [e|] eqn:He; [|by apply steps_refl].
  apply is_running_iff in Hr as Hr'. unfold valid_or, liftR.
  destruct (map_err _ _) as [[]|]; [|by apply steps_refl].
  rewrite !on_slot_compose. fold (departed i (with_image (mkLaunch root entry stack
    (kernel_stack_pointer (launch s)) meas (capability_root (launch s)) (service_class (launch s))
    (priority (launch s)) (abi (launch s))) (initial entry stack)) e w).
  pose proof (proj1 (next_epoch_Ok _ _) He) as [-> He2].
  pose proof (tw_slots _ (wf_table _ Hw) _ _ Hi) as []. destruct Hr' as [Ho Hp].
  apply validate_launch_iff in Hl as Hv. simpl in Hv.
  eapply change_steps; try done; [lia| |].
  - constructor; simpl; auto; try lia; [congruence|]. intros _. apply valid_context_initial; apply Hv.
  - apply step_phase; [done|constructor].
Qed.

Lemma mark_running_steps h w : wf w → steps w (mark_running h w).2.
Proof.
  intros Hw. unfold mark_running. m_unfold. destruct (negb _); [|by apply steps_refl].
  destruct (CURRENT_EXECUTION w =? PID0_IDENTITY) eqn:Hcur; [|by apply steps_refl].
  destruct (existsb _ _) eqn:Hx; [by apply steps_refl|]. cbn [negb orb]. rewrite index_of_run.
  destruct (position _ _) as [i|] eqn:Hi; [|by apply steps_refl].
  apply position_lookup in Hi as (s & Hs & [Ho Hh]%is_slot_iff). rewrite (slot_at_Some _ _ _ _ Hs).
  destruct (phase_eqb (phase s) Runnable) eqn:Hp; [|by apply steps_refl]. rewrite next_epoch_now_run.
  destruct (next_scheduler_epoch _) as [e|] eqn:He; [|by apply steps_refl].
  set (sp := scheduled (table w) i (context s) e).
  assert (slot_at EMPTY (slots (table (on_slot i (with_phase Running) (set_epoch e w)))) i
    = with_phase Running s) as ->.
  { apply slot_at_Some. simpl. rewrite (alter_insert_eq _ _ _ _ Hs), list_lookup_insert_eq; [done|].
    by eapply lookup_lt_Some. }
  pose proof (proj1 (next_epoch_Ok _ _) He) as [He1 _].
  eapply (switched_steps w (set_epoch e w) (Some i)). split; try done.
  - by apply set_epoch_wf; [apply Hw|].
  - exact (existsb_false_none is_running _ Hx).
  - intros j [= <-]. exists s. split; [done|]. unfold is_runnable. by rewrite Ho.
  - intros k x Hk. exists x. split; [done|constructor].
  - unfold handed, hand_over, target_of. cbn [fmap option_fmap option_map]. m_unfold. simpl.
    by rewrite (slot_at_Some _ _ _ _ Hs).
Qed.

Lemma publish_current_run h w : wf w → (publish_current h w).2 = w.
Proof.
  intros Hw. unfold publish_current, slot_by_handle. m_unfold. destruct (negb _); [|done].
  destruct (find _ _) as [s|] eqn:Hf; [|done].
  destruct (phase_eqb (phase s) Running) eqn:Hp; [|done]. simpl.
  apply find_some in Hf as [Hin [Ho <-]%is_slot_iff].
  apply list_elem_of_In, list_elem_of_lookup in Hin as [i Hi]. unfold store_current.
  rewrite <- (wf_running _ Hw i s Hi); [by destruct w|]. unfold is_running. by rewrite Ho.
Qed.
