(* ===== verification/Scheduling.v ===== *)
(** * Runs of the process lifecycle

    Sequences of lifecycle operations ([Op], [exec]) from the boot state, and
    the properties of process/lifecycle.rs over them: exclusive execution,
    the slot state machine, return authorities, the round robin, process
    identities, and exits. *)

From stdpp Require Import prelude list numbers option.
From Stdlib Require Import ZArith Lia.
From S2P Require Import Prelude.
From S2P Require Import Handles.
From S2P Require Import Context.
From S2P Require Import Lifecycle.

Inductive Op :=
| OpRegister (l : ProcessLaunch)
| OpCommit (parent_pid : Z) (l : ProcessLaunch)
| OpClone (c : SavedUserContext) (stack fs : Z)
| OpDiscard (h : ProcessHandle)
| OpMarkRunning (h : ProcessHandle)
| OpResume (saved : SavedUserContext)
| OpReplace (root entry stack measurement : Z)
| OpSetFs (base : Z)
| OpYield (saved : SavedUserContext)
| OpPreempt (saved : SavedUserContext) (a : ExecutionAuthority)
| OpBlock (saved : SavedUserContext)
| OpExit (code : Z)
| OpExitGroup (code : Z)
| OpThreadExit
| OpFromPid0 (a : Pid0Authority)
| OpMarkRunnable (h : ProcessHandle)
| OpMarkBlocked (h : ProcessHandle)
| OpReap (parent_pid : Z) (h : ProcessHandle)
| OpPublish (h : ProcessHandle).

(** What an operation hands to the architecture's return path: the decision
    of a successful scheduling call. *)
Definition decided {A} (f : A → option ScheduleDecision) (r : Result A LifecycleError * Lifecycle) :
    option ScheduleDecision * Lifecycle :=
  (match r.1 with Ok a => f a | Err _ => None end, r.2).

Definition exec (op : Op) (w : Lifecycle) : option ScheduleDecision * Lifecycle :=
  match op with
  | OpRegister l => decided (λ _, None) (register_init l w)
  | OpCommit p l => decided (λ _, None) (commit_child p l w)
  | OpClone c stack fs => decided (λ r, Some (User r.2)) (clone_current_thread c stack fs w)
  | OpDiscard h => decided (λ _, None) (discard_runnable_thread h w)
  | OpMarkRunning h => decided (λ _, None) (mark_running h w)
  | OpResume saved => decided (λ s, Some (User s)) (resume_current saved w)
  | OpReplace root entry stack m =>
      decided (λ s, Some (User s)) (replace_current_image root entry stack m w)
  | OpSetFs base => decided (λ _, None) (set_current_fs_base base w)
  | OpYield saved => decided (λ s, Some (User s)) (schedule_yield saved w)
  | OpPreempt saved a => decided (λ s, Some (User s)) (schedule_preempt saved a w)
  | OpBlock saved => decided Some (schedule_block saved w)
  | OpExit code => decided Some (schedule_exit code w)
  | OpExitGroup code => decided Some (schedule_exit_group code w)
  | OpThreadExit => decided Some (schedule_thread_exit w)
  | OpFromPid0 a => decided Some (schedule_from_pid0 a w)
  | OpMarkRunnable h => decided (λ _, None) (mark_runnable h w)
  | OpMarkBlocked h => decided (λ _, None) (mark_blocked h w)
  | OpReap p h => decided (λ _, None) (reap_child p h w)
  | OpPublish h => decided (λ _, None) (publish_current h w)
  end.

Definition exec_all (ops : list Op) (w : Lifecycle) : Lifecycle :=
  foldl (λ w op, (exec op w).2) w ops.

Lemma as_user_state m w : (as_user m w).2 = (m w).2.
Proof. unfold as_user. m_unfold. by destruct (m w) as [[]]. Qed.

Lemma exec_steps op w : wf w → steps w (exec op w).2.
Proof.
  intros Hw. destruct op; simpl.
  - by apply register_init_steps.
  - by apply commit_child_steps.
  - by apply clone_steps.
  - by apply discard_steps.
  - by apply mark_running_steps.
  - by apply resume_steps.
  - by apply replace_steps.
  - by apply set_fs_steps.
  - rewrite <- as_user_state. by eapply switches_steps, rotates_switches, yield_rotates.
  - rewrite <- as_user_state. by eapply switches_steps, rotates_switches, preempt_rotates.
  - by eapply switches_steps, rotates_switches, block_rotates.
  - by eapply switches_steps, rotates_switches, exit_rotates.
  - by apply switches_steps, exit_group_switches.
  - by eapply switches_steps, rotates_switches, thread_exit_rotates.
  - by apply switches_steps, from_pid0_switches.
  - by apply mark_runnable_steps.
  - by apply mark_blocked_steps.
  - by apply reap_steps.
  - rewrite publish_current_run by done. by apply steps_refl.
Qed.

Lemma exec_all_app ops1 ops2 w : exec_all (ops1 ++ ops2) w = exec_all ops2 (exec_all ops1 w).
Proof. apply foldl_app. Qed.

Lemma exec_all_wf ops w : wf w → wf (exec_all ops w).
Proof.
  revert w. induction ops as [|op ops IH]; intros w Hw; simpl; [done|].
  apply IH. by eapply st_wf, exec_steps.
Qed.

Lemma reachable_wf ops : wf (exec_all ops boot).
Proof. apply exec_all_wf, boot_wf. Qed.

Lemma exec_all_epoch ops w :
  wf w → scheduler_epoch (table w) ≤ scheduler_epoch (table (exec_all ops w)).
Proof.
  revert w. induction ops as [|op ops IH]; intros w Hw; simpl; [done|].
  pose proof (exec_steps op w Hw) as Hst. pose proof (st_epoch _ _ Hst).
  specialize (IH _ (st_wf _ _ Hst)). lia.
Qed.

(** ** Exclusive execution *)

(** C1. After any operations at most one process is running, the published
    execution identity decodes to exactly that process, the epoch the interrupt
    path reads is the table's, and every live process could be dispatched: its
    saved context, address space, kernel stack and TLS base are valid. *)
Theorem lifecycle_exclusive_execution (ops : list Op) :
  let w := exec_all ops boot in
  (∀ i j s s', slots (table w) !! i = Some s → slots (table w) !! j = Some s' →
     is_running s = true → is_running s' = true → i = j) ∧
  (∀ i s, slots (table w) !! i = Some s → is_running s = true →
     current_handle w = Some (handle_of s)) ∧
  CURRENT_SCHEDULER_EPOCH w = scheduler_epoch (table w) ∧
  (∀ i s e, slots (table w) !! i = Some s → occupied s = true →
     validate_dispatch (sp_context (scheduled (table w) i (context s) e)) = Ok tt).
Proof.
  pose proof (reachable_wf ops) as Hw. cbv zeta. set (w := exec_all ops boot) in *.
  pose proof (wf_table _ Hw) as Ht. split_and!.
  - intros i j s s' Hi Hj Hr Hr'. symmetry. by eapply (none_running_other w i s).
  - intros i s Hi Hr. unfold current_handle. rewrite (wf_running _ Hw _ _ Hi Hr).
    apply decode_encode. apply is_running_iff in Hr as [Ho _].
    by eapply handle_of_ok; [eapply (tw_slots _ Ht)|].
  - apply Hw.
  - intros i s e Hi Ho. eapply dispatch_valid; [done..|]. by eapply (sw_context _ _ (tw_slots _ Ht _ _ Hi)).
Qed.

(** C14. The slot state machine: an operation leaves a slot as it is, moves its
    process along a permitted phase change (a zombie is never dispatched, a
    blocked process must be woken before it runs), retires it to the next
    generation, or fills a free slot with a runnable process. *)
Theorem lifecycle_state_machine (ops : list Op) (op : Op) (i : nat) :
  let w := exec_all ops boot in
  let w' := (exec op w).2 in
  (i < MAXIMUM_PROCESSES)%nat →
  ∃ s s', slots (table w) !! i = Some s ∧ slots (table w') !! i = Some s' ∧
    slot_step (born (table w) (table w')) s s'.
Proof.
  intros w w' Hi. pose proof (reachable_wf ops) as Hw.
  destruct (lookup_lt_is_Some_2 (slots (table w)) i) as [s Hs].
  { subst w. by rewrite (tw_length _ (wf_table _ Hw)). }
  destruct (st_slots _ _ (exec_steps op w Hw) i s Hs) as (s' & Hs' & Hstep). eauto 10.
Qed.

(** ** Return authorities *)

(** [sp] is the decision of [w]: the running slot as the table has it. *)
Definition issued (sp : ScheduledProcess) (w : Lifecycle) : Prop :=
  ∃ i s, slots (table w) !! i = Some s ∧ is_running s = true ∧
    sp = scheduled (table w) i (context s) (scheduler_epoch (table w)).

Lemma issued_handle sp w i s :
  slots (table w) !! i = Some s → sp = scheduled (table w) i (context s) (scheduler_epoch (table w)) →
  sp_handle sp = handle_of s ∧ sp_epoch sp = scheduler_epoch (table w).
Proof. intros Hi ->. simpl. by rewrite (slot_at_Some _ _ _ _ Hi). Qed.

(** The slot of the running process is found by its handle. *)
Lemma position_running w i s :
  wf w → slots (table w) !! i = Some s → is_running s = true →
  position (is_slot (handle_of s)) (slots (table w)) = Some i.
Proof.
  intros Hw Hi [Ho Hp]%is_running_iff.
  destruct (position_is_Some (is_slot (handle_of s)) _ _ _ Hi) as [k Hk]; [by apply is_slot_iff|].
  rewrite Hk. apply position_lookup in Hk as (x & Hx & [Ox Hh]%is_slot_iff). f_equal.
  eapply (tw_pids _ (wf_table _ Hw)); [done..|]. by injection Hh.
Qed.

Lemma current_running w i s :
  wf w → slots (table w) !! i = Some s → is_running s = true → current_handle w = Some (handle_of s).
Proof.
  intros Hw Hi Hr. unfold current_handle. rewrite (wf_running _ Hw _ _ Hi Hr). apply decode_encode.
  apply is_running_iff in Hr as [Ho _].
  by eapply handle_of_ok; [eapply (tw_slots _ (wf_table _ Hw))|].
Qed.

Lemma issued_valid sp w :
  wf w → issued sp w → 0 < scheduler_epoch (table w) → validate_return (authorized_return sp) = Ok tt.
Proof.
  intros Hw (i & s & Hi & [Ho Hp]%is_running_iff & ->) He. pose proof (wf_table _ Hw) as Ht.
  destruct (handle_of_ok _ _ (tw_slots _ Ht _ _ Hi) Ho) as [Hpid Hgen].
  unfold validate_return, authorized_return. simpl. rewrite (slot_at_Some _ _ _ _ Hi).
  simpl in Hpid, Hgen. destruct (Z.eqb_spec (s_pid s) 0); [lia|].
  destruct (Z.eqb_spec (s_generation s) 0); [lia|].
  destruct (Z.eqb_spec (scheduler_epoch (table w)) 0); [lia|]. cbn [orb].
  pose proof (dispatch_valid (table w) i s (context s) 0 Ht Hi Ho
    (sw_context _ _ (tw_slots _ Ht _ _ Hi) Ho)) as Hd.
  unfold scheduled in Hd. rewrite (slot_at_Some _ _ _ _ Hi) in Hd. exact Hd.
Qed.

(** An authority whose fields pass validation is accepted exactly when it is
    the decision of the state. *)
Lemma authorize_run a w :
  wf w → validate_return a = Ok tt →
  (∀ sp, issued sp w → authorized_return sp = a → authorize_user_return a w = (Ok sp, w)) ∧
  ((∀ sp, issued sp w → authorized_return sp ≠ a) →
     authorize_user_return a w = (Err StaleDispatchAuthority, w)).
Proof.
  intros Hw Hv. unfold authorize_user_return. m_unfold. unfold valid_or, liftR. rewrite Hv. simpl. split.
  - intros sp (i & s & Hi & Hr & ->) <-. simpl. rewrite (slot_at_Some _ _ _ _ Hi).
    change (mkHandle (s_pid s) (s_generation s)) with (handle_of s).
    rewrite (bool_decide_true (current_handle w = _)) by by eapply current_running.
    rewrite Z.eqb_refl. cbn [negb orb]. rewrite index_of_run, (position_running w i s) by done.
    unfold require_running. m_unfold. rewrite (slot_at_Some _ _ _ _ Hi).
    apply is_running_iff in Hr as [Ho Hp]. rewrite Hp. simpl.
    rewrite bool_decide_true; [done|].
    unfold scheduled, authorized_return. by rewrite (slot_at_Some _ _ _ _ Hi).
  - intros Hno. destruct (negb (negb _ || _)) eqn:Hcur; [|done]. rewrite index_of_run.
    destruct (position _ _) as [i|] eqn:Hpos; [|done].
    apply position_lookup in Hpos as (s & Hi & [Ho Hh]%is_slot_iff).
    unfold require_running. m_unfold. rewrite (slot_at_Some _ _ _ _ Hi).
    destruct (phase_eqb (phase s) Running) eqn:Hp; [|done].
    rewrite bool_decide_false; [done|]. apply Hno. exists i, s. split_and!; try done.
    unfold is_running. by rewrite Ho.
Qed.

(** A state has one decision. *)
Lemma issued_unique sp sp' w : wf w → issued sp w → issued sp' w → sp = sp'.
Proof.
  intros Hw (i & s & Hi & Hr & ->) (j & s' & Hj & Hr' & ->).
  assert (j = i) as -> by by eapply (none_running_other w i s). by assert (s' = s) as -> by congruence.
Qed.

(** Every decision begins a new epoch and, for a user process, is the one of
    the state the operation leaves. *)
Definition issues (w : Lifecycle) (r : option ScheduleDecision * Lifecycle) : Prop :=
  ∀ d, r.1 = Some d → scheduler_epoch (table r.2) = scheduler_epoch (table w) + 1 ∧
    ∀ sp, d = User sp → issued sp r.2.

Lemma switched_issued w w1 index d w' :
  switched w w1 index d w' →
  scheduler_epoch (table w') = scheduler_epoch (table w) + 1 ∧ ∀ sp, d = User sp → issued sp w'.
Proof.
  intros [Ht Hn Hidx He _ _ -> ->]. rewrite <- He. split; [by destruct index|].
  intros sp. destruct index as [j|]; [|done]. intros [= <-].
  destruct (Hidx j eq_refl) as (x & Hx & [Ho Hr]%is_runnable_iff).
  exists j, (with_phase Running x). unfold handed, hand_over, target_of.
  cbv [fmap option_fmap option_map]. m_unfold. simpl. unfold scheduled, slot_at. simpl.
  rewrite (alter_insert_eq _ _ _ _ Hx), list_lookup_insert_eq, Hx by by eapply lookup_lt_Some.
  split_and!; try done. by apply is_running_iff.
Qed.

Lemma switches_issues m w :
  switches m w → issues w (decided Some (m w)).
Proof.
  unfold switches, issues, decided. destruct (m w) as [[d|] w']; [|done].
  intros (w1 & index & Hsd) d' [= <-]. by eapply switched_issued.
Qed.

Lemma user_switches_issues m w :
  switches (as_user m) w → issues w (decided (λ s, Some (User s)) (m w)).
Proof.
  unfold switches, issues, decided, as_user. m_unfold. destruct (m w) as [[s|] w']; [|done].
  intros (w1 & index & Hsd) d' [= <-]. by eapply switched_issued.
Qed.

Lemma resume_issues saved w :
  wf w → issues w (decided (λ s, Some (User s)) (resume_current saved w)).
Proof.
  intros Hw. unfold issues, decided, resume_current. m_unfold. rewrite valid_or_run.
  destruct (valid_context saved) eqn:Hc; [|done]. rewrite running_current_run.
  destruct (caller w) as [i|] eqn:Hcl; [|done].
  destruct (caller_Ok w i Hw Hcl) as (s & Hi & Hr & _). rewrite next_epoch_now_run.
  destruct (next_scheduler_epoch _) as [e|] eqn:He; [|done].
  apply is_running_iff in Hr as Hr'. unfold valid_or, liftR.
  rewrite (dispatch_valid _ i s) by (done || apply Hr' || apply Hw). simpl.
  intros d [= <-]. split; [by apply next_epoch_Ok in He as [-> _]|]. intros sp [= <-].
  exists i, (with_context saved s). unfold scheduled, slot_at. simpl.
  rewrite (alter_insert_eq _ _ _ _ Hi), list_lookup_insert_eq, Hi by by eapply lookup_lt_Some. done.
Qed.

Lemma replace_issues root entry stack meas w :
  wf w → issues w (decided (λ s, Some (User s)) (replace_current_image root entry stack meas w)).
Proof.
  intros Hw. unfold issues, decided, replace_current_image, current_user_handle. m_unfold.
  destruct (_ =? _); [done|]. destruct (decode _) as [h|]; [|done].
  destruct (replacement_index_run h w Hw) as [[x ->]|(i & s & Hi & Hr & Hh & _ & _ & _ & ->)]; [done|].
  rewrite (slot_at_Some _ _ _ _ Hi). destruct (validate_launch _); [|done]. rewrite next_epoch_now_run.
  destruct (next_scheduler_epoch _) as [e|] eqn:He; [|done]. unfold valid_or, liftR.
  destruct (map_err _ _) as [[]|]; [|done]. rewrite !on_slot_compose. simpl.
  intros d [= <-]. split; [by apply next_epoch_Ok in He as [-> _]|]. intros sp [= <-].
  eexists i, _. unfold scheduled, slot_at. simpl.
  rewrite (alter_insert_eq _ _ _ _ Hi), list_lookup_insert_eq by by eapply lookup_lt_Some.
  split_and!; [done|done|]. by rewrite <- Hh.
Qed.

Lemma clone_issues ctx stack fs w :
  wf w → issues w (decided (λ r, Some (User r.2)) (clone_current_thread ctx stack fs w)).
Proof.
  intros Hw. unfold issues, decided. destruct (clone_cases ctx stack fs w Hw) as [[x ->]|[(x & k & Hm & ->)|
    (i & c & k & s & x & e & Hi & Hr & Hctx & Hsp & Hfs & Hc & Hclx & Hfresh & Hm & He & ->)]];
    [done..|]. simpl. intros d [= <-]. split; [by apply next_epoch_Ok in He as [-> _]|]. intros sp [= <-].
  assert (c ≠ i) as Hne by by eapply clone_distinct.
  eexists i, _. unfold scheduled, slot_at. simpl.
  rewrite list_lookup_alter_eq, list_lookup_alter_ne, Hi by done. simpl. split_and!; done.
Qed.

Lemma exec_issues op w : wf w → issues w (exec op w).
Proof.
  intros Hw. destruct op; simpl; try (by intros d; unfold decided; simpl; destruct (_ w).1).
  - by apply clone_issues.
  - by apply resume_issues.
  - by apply replace_issues.
  - by eapply user_switches_issues, rotates_switches, yield_rotates.
  - by eapply user_switches_issues, rotates_switches, preempt_rotates.
  - by eapply switches_issues, rotates_switches, block_rotates.
  - by eapply switches_issues, rotates_switches, exit_rotates.
  - by apply switches_issues, exit_group_switches.
  - by eapply switches_issues, rotates_switches, thread_exit_rotates.
  - by apply switches_issues, from_pid0_switches.
Qed.

(** C10. A return authority is good for one return: the state that issued it
    accepts it and no other, and once any later operation has issued another
    decision it is refused as stale for good. *)
Theorem lifecycle_return_authority (ops : list Op) (op : Op) (sp : ScheduledProcess) :
  let w := exec_all ops boot in
  (exec op w).1 = Some (User sp) →
  let w' := (exec op w).2 in
  authorize_user_return (authorized_return sp) w' = (Ok sp, w') ∧
  (∀ a sp', (authorize_user_return a w').1 = Ok sp' → a = authorized_return sp) ∧
  (∀ ops1 op1 ops2, (exec op1 (exec_all ops1 w')).1 ≠ None →
     (authorize_user_return (authorized_return sp)
        (exec_all ops2 (exec op1 (exec_all ops1 w')).2)).1 = Err StaleDispatchAuthority).
Proof.
  intros w Hop w'. pose proof (reachable_wf ops : wf w) as Hw.
  pose proof (st_wf _ _ (exec_steps op w Hw) : wf w') as Hw'.
  destruct (exec_issues op w Hw _ Hop) as [He Hiss]. specialize (Hiss sp eq_refl).
  pose proof (tw_epoch _ (wf_table _ Hw)) as H0. unfold is_u64 in H0.
  pose proof (issued_valid sp w' Hw' Hiss ltac:(subst w'; lia)) as Hv. split_and!.
  - by apply authorize_run.
  - intros a sp' Ha. destruct (decide (authorized_return sp = a)) as [->|Hne]; [done|].
    destruct (validate_return a) as [[]|] eqn:Hva.
    + rewrite (proj2 (authorize_run a w' Hw' Hva)) in Ha; [done|].
      intros sp2 H2. by rewrite (issued_unique sp2 sp w').
    + unfold authorize_user_return, valid_or, liftR in Ha. m_unfold. by rewrite Hva in Ha.
  - intros ops1 op1 ops2 H1. set (w1 := exec_all ops1 w') in *.
    pose proof (exec_all_wf ops1 w' Hw' : wf w1) as Hw1.
    pose proof (exec_all_epoch ops1 w' Hw') as E1. fold w1 in E1.
    destruct (exec op1 w1).1 as [d|] eqn:Hd; [|done]. destruct (exec_issues op1 w1 Hw1 d Hd) as [E2 _].
    pose proof (st_wf _ _ (exec_steps op1 w1 Hw1)) as Hw2.
    pose proof (exec_all_epoch ops2 _ Hw2) as E3.
    rewrite (proj2 (authorize_run _ _ (exec_all_wf ops2 _ Hw2) Hv)); [done|].
    intros sp2 (i & s & Hi & _ & ->) Heq%(f_equal ret_epoch).
    destruct Hiss as (i' & s' & Hi' & _ & ->). simpl in Heq. unfold w' in *. lia.
Qed.

(** ** The round robin *)

Lemma find_seq (p : nat → bool) (f : nat → nat) a n t :
  find p (f <$> seq a n) = Some t →
  ∃ o, (a ≤ o < a + n)%nat ∧ t = f o ∧ p t = true ∧
    ∀ o', (a ≤ o' < o)%nat → p (f o') = false.
Proof.
  revert a. induction n as [|n IH]; intros a; simpl; [done|]. destruct (p (f a)) eqn:Hp.
  - intros [= <-]. exists a. split_and!; [lia|lia|done|done|lia].
  - intros (o & Ho & -> & Hpt & Hlt)%IH. exists o. split_and!; [lia|lia|done|done|].
    intros o' Ho'. destruct (decide (o' = a)) as [->|]; [done|]. apply Hlt. lia.
Qed.

Lemma find_seq_some (p : nat → bool) (f : nat → nat) a n o :
  (a ≤ o < a + n)%nat → p (f o) = true → is_Some (find p (f <$> seq a n)).
Proof.
  intros Ho Hp. destruct (find p (f <$> seq a n)) eqn:E; [eauto|].
  assert (In (f o) (f <$> seq a n)) as Hin.
  { apply list_elem_of_In, list_elem_of_fmap_2, elem_of_seq. lia. }
  by rewrite (find_none _ _ E _ Hin) in Hp.
Qed.

(** How many slots after [c] the round robin meets [j]. *)
Definition distance (c j : nat) : nat :=
  ((j + MAXIMUM_PROCESSES - c) mod MAXIMUM_PROCESSES)%nat.

Lemma distance_pos c j :
  (c < MAXIMUM_PROCESSES)%nat → (j < MAXIMUM_PROCESSES)%nat → c ≠ j →
  (1 ≤ distance c j < MAXIMUM_PROCESSES)%nat.
Proof.
  unfold distance, MAXIMUM_PROCESSES. intros. destruct (decide (c ≤ j)%nat).
  - replace (j + 64 - c)%nat with (j - c + 1 * 64)%nat by lia. rewrite Nat.Div0.mod_add, Nat.mod_small; lia.
  - rewrite Nat.mod_small; lia.
Qed.

Lemma distance_step c j o :
  (c < MAXIMUM_PROCESSES)%nat → (j < MAXIMUM_PROCESSES)%nat → c ≠ j → (1 ≤ o)%nat →
  (o = distance c j → (c + o) mod MAXIMUM_PROCESSES = j)%nat ∧
  (o < distance c j → distance ((c + o) mod MAXIMUM_PROCESSES) j = distance c j - o)%nat.
Proof.
  unfold distance, MAXIMUM_PROCESSES. intros Hc Hj Hne Ho.
  assert ((j + 64 - c) mod 64 = if decide (c ≤ j)%nat then j - c else j + 64 - c)%nat as ->.
  { destruct (decide (c ≤ j)%nat).
    - replace (j + 64 - c)%nat with (j - c + 1 * 64)%nat by lia. rewrite Nat.Div0.mod_add, Nat.mod_small; lia.
    - rewrite Nat.mod_small; lia. }
  split.
  - intros ->. destruct (decide (c ≤ j)%nat).
    + rewrite Nat.mod_small; lia.
    + replace (c + (j + 64 - c))%nat with (j + 1 * 64)%nat by lia. rewrite Nat.Div0.mod_add, Nat.mod_small; lia.
  - destruct (decide (c ≤ j)%nat); intros Hlt.
    + rewrite (Nat.mod_small (c + o)) by lia.
      replace (j + 64 - (c + o))%nat with (j - c - o + 1 * 64)%nat by lia.
      rewrite Nat.Div0.mod_add, Nat.mod_small; lia.
    + destruct (decide (c + o < 64)%nat).
      * rewrite (Nat.mod_small (c + o)) by lia. rewrite Nat.mod_small; lia.
      * replace (c + o)%nat with (c + o - 64 + 1 * 64)%nat by lia.
        rewrite Nat.Div0.mod_add, (Nat.mod_small (c + o - 64)) by lia.
        replace (j + 64 - (c + o - 64))%nat with (j + 64 - c - o + 1 * 64)%nat by lia.
        rewrite Nat.Div0.mod_add, Nat.mod_small; lia.
Qed.

(** From [c], the round robin stops at a runnable [j] or before it. *)
Lemma next_runnable_distance w c j s :
  wf w → (c < MAXIMUM_PROCESSES)%nat → slots (table w) !! j = Some s → is_runnable s = true → c ≠ j →
  ∃ t, next_runnable_index (table w) c = Some t ∧
    (t = j ∨ (distance t j < distance c j)%nat).
Proof.
  intros Hw Hc Hj Hr Hne. pose proof (tw_length _ (wf_table _ Hw)) as Hlen.
  assert (j < MAXIMUM_PROCESSES)%nat as Hjl by (rewrite <- Hlen; by eapply lookup_lt_Some).
  pose proof (distance_pos c j Hc Hjl Hne) as Hd.
  pose proof (proj1 (distance_step c j (distance c j) Hc Hjl Hne ltac:(lia)) eq_refl) as Hjj. unfold next_runnable_index, round_robin. rewrite Hlen.
  destruct (find_seq_some (λ index, is_runnable (slot_at EMPTY (slots (table w)) index))
    (λ offset, (c + offset) mod MAXIMUM_PROCESSES)%nat 1 MAXIMUM_PROCESSES (distance c j)) as [t Ht].
  - lia.
  - by rewrite Hjj, (slot_at_Some _ _ _ _ Hj).
  - exists t. split; [done|]. apply find_seq in Ht as (o & Ho & -> & Hp & Hlt).
    destruct (decide (o < distance c j)%nat).
    + right. rewrite (proj2 (distance_step c j o Hc Hjl Hne ltac:(lia))); lia.
    + left. destruct (decide (o = distance c j)) as [->|]; [done|].
      specialize (Hlt (distance c j) ltac:(lia)). cbv beta in Hlt.
      by rewrite Hjj, (slot_at_Some _ _ _ _ Hj), Hr in Hlt.
Qed.

(** A process that runs or waits for the CPU. *)
Definition active (s : ProcessSlot) : bool := is_running s || is_runnable s.

(** A dead process whose status has not been collected. *)
Definition zombie (s : ProcessSlot) : bool := occupied s && phase_eqb (phase s) Zombie.

Lemma active_iff s : active s = true ↔ occupied s = true ∧ (phase s = Running ∨ phase s = Runnable).
Proof. unfold active. rewrite orb_true_iff, is_running_iff, is_runnable_iff. tauto. Qed.

Lemma zombie_iff s : zombie s = true ↔ occupied s = true ∧ phase s = Zombie.
Proof. unfold zombie, phase_eqb. by rewrite andb_true_iff, bool_decide_eq_true. Qed.

Lemma claimable_free s : claimable s = true → occupied s = false.
Proof. intros [Hf _]%andb_true_iff. by apply negb_true_iff. Qed.

(** What an operation that does not schedule does to a slot: fill a free one,
    change the caller's registers or image, wake a blocked process or collect a
    zombie among [B]. *)
Inductive touched (B : ProcessHandle → Prop) (s : ProcessSlot) : ProcessSlot → Prop :=
| touched_not : touched B s s
| touched_claim s' : claimable s = true → phase s' ≠ Blocked → touched B s s'
| touched_caller s' : is_running s = true → same_process s s' → phase s' = phase s → touched B s s'
| touched_wake : phase s = Blocked → B (handle_of s) → touched B s (with_phase Runnable s)
| touched_reap : zombie s = true → B (handle_of s) → touched B s (retire s).

Definition footprint (B : ProcessHandle → Prop) (w w' : Lifecycle) : Prop :=
  ∀ i s, slots (table w) !! i = Some s → ∃ s', slots (table w') !! i = Some s' ∧ touched B s s'.

Lemma footprint_slots B w w' : slots (table w') = slots (table w) → footprint B w w'.
Proof. intros Hsl i s Hi. exists s. rewrite Hsl. split; [done|constructor]. Qed.

Lemma footprint_alter B w w' i s f :
  slots (table w') = alter f i (slots (table w)) → slots (table w) !! i = Some s → touched B s (f s) →
  footprint B w w'.
Proof.
  intros Hsl Hi Hf j x Hj. rewrite Hsl. destruct (decide (i = j)) as [<-|Hne].
  - exists (f x). rewrite list_lookup_alter_eq, Hj. by assert (x = s) as -> by congruence.
  - exists x. rewrite list_lookup_alter_ne by done. split; [done|constructor].
Qed.

Lemma footprint_register l w : footprint (λ _, False) w (register_init l w).2.
Proof.
  unfold register_init. m_unfold. destruct (validate_launch l); [|by apply footprint_slots].
  destruct (negb _); [|by apply footprint_slots].
  destruct (position claimable _) as [i|] eqn:Hi; [|by apply footprint_slots].
  apply position_lookup in Hi as (x & Hx & Hcl). eapply footprint_alter; [done..|]. by apply touched_claim.
Qed.

Lemma footprint_commit p l w : wf w → footprint (λ _, False) w (commit_child p l w).2.
Proof.
  intros Hw. unfold commit_child. m_unfold. destruct (negb (_ || negb _)); [|by apply footprint_slots].
  destruct (slot_by_pid _ _) as [ps|]; [|by apply footprint_slots].
  destruct (negb (phase_eqb _ _ || _)); [|by apply footprint_slots].
  destruct (take_pid_run w Hw) as (k & -> & _). cbn [table slots on_table with_next_pid].
  destruct (position claimable _) as [i|] eqn:Hi; [|by apply footprint_slots].
  apply position_lookup in Hi as (x & Hx & Hcl).
  rewrite (slot_at_Some _ _ _ _ Hx), (claimable_next _ _ (tw_slots _ (wf_table _ Hw) _ _ Hx) Hcl).
  rewrite on_slot_compose. eapply footprint_alter; [done..|]. by apply touched_claim.
Qed.

Lemma footprint_clone c stack fs w : wf w → footprint (λ _, False) w (clone_current_thread c stack fs w).2.
Proof.
  intros Hw. destruct (clone_cases c stack fs w Hw) as [[x ->]|[(x & k & Hm & ->)|
    (i & ci & k & s & x & e & Hi & Hr & _ & _ & _ & Hc & Hclx & _ & _ & He & ->)]];
    [by apply footprint_slots..|].
  assert (ci ≠ i) as Hne by by eapply clone_distinct. apply is_running_iff in Hr as Hr'.
  intros j y Hj. simpl. destruct (decide (i = j)) as [<-|Hij]; [|destruct (decide (ci = j)) as [<-|Hcj]].
  - rewrite list_lookup_alter_eq, list_lookup_alter_ne, Hj by done. eexists. split; [done|].
    assert (y = s) as -> by congruence. apply touched_caller; [done| |done]. split_and!; try done; apply Hr'.
  - rewrite list_lookup_alter_ne, list_lookup_alter_eq, Hj by done. eexists. split; [done|].
    assert (y = x) as -> by congruence. by apply touched_claim.
  - rewrite !list_lookup_alter_ne by done. exists y. split; [done|constructor].
Qed.

(** A change of the caller's slot that keeps the process and its phase. *)
Lemma footprint_caller w w' c f :
  wf w → caller w = Ok c → slots (table w') = alter f c (slots (table w)) →
  (∀ s, occupied s = true → same_process s (f s) ∧ phase (f s) = phase s) →
  footprint (λ _, False) w w'.
Proof.
  intros Hw Hc Hsl Hf. destruct (caller_Ok w c Hw Hc) as (y & Hy & Hyr & _).
  eapply footprint_alter; [done..|]. destruct (Hf y) as [? ?]; [by apply is_running_iff in Hyr as [? _]|].
  by apply touched_caller.
Qed.

Lemma footprint_replace root entry stack meas w :
  wf w → footprint (λ _, False) w (replace_current_image root entry stack meas w).2.
Proof.
  intros Hw. unfold replace_current_image, current_user_handle. m_unfold.
  destruct (_ =? _); [by apply footprint_slots|]. destruct (decode _) as [h|]; [|by apply footprint_slots].
  destruct (replacement_index_run h w Hw) as [[x ->]|(i & s & Hi & Hr & _ & _ & _ & _ & ->)];
    [by apply footprint_slots|]. destruct (validate_launch _); [|by apply footprint_slots].
  rewrite next_epoch_now_run. destruct (next_scheduler_epoch _) as [e|]; [|by apply footprint_slots].
  unfold valid_or, liftR. destruct (map_err _ _) as [[]|]; [|by apply footprint_slots].
  rewrite !on_slot_compose. by eapply footprint_caller; [done|eapply caller_running| |].
Qed.

Lemma footprint_resume saved w : wf w → footprint (λ _, False) w (resume_current saved w).2.
Proof.
  intros Hw. unfold resume_current. m_unfold. rewrite valid_or_run.
  destruct (valid_context saved); [|by apply footprint_slots]. rewrite running_current_run.
  destruct (caller w) as [i|] eqn:Hc; [|by apply footprint_slots]. rewrite next_epoch_now_run.
  destruct (next_scheduler_epoch _) as [e|]; [|by apply footprint_slots].
  unfold valid_or, liftR. destruct (map_err _ _) as [[]|]; [|by apply footprint_slots].
  by eapply footprint_caller.
Qed.

Lemma footprint_set_fs base w : wf w → footprint (λ _, False) w (set_current_fs_base base w).2.
Proof.
  intros Hw. unfold set_current_fs_base. m_unfold.
  destruct (valid_user_tls_base _); [|by apply footprint_slots].
  rewrite running_current_run. destruct (caller w) as [i|] eqn:Hc; [|by apply footprint_slots].
  by eapply footprint_caller.
Qed.

Lemma mark_runnable_cases h w :
  (mark_runnable h w).2 = w ∨ ∃ i s, slots (table w) !! i = Some s ∧ occupied s = true ∧ handle_of s = h ∧
    (phase s = Running ∨ phase s = Blocked) ∧ mark_runnable h w = (Ok tt, on_slot i (with_phase Runnable) w).
Proof.
  unfold mark_runnable. m_unfold. destruct (negb _); [|by left].
  rewrite index_of_run. destruct (position _ _) as [i|] eqn:Hi; [|by left].
  apply position_lookup in Hi as (s & Hs & [Ho Hh]%is_slot_iff). rewrite (slot_at_Some _ _ _ _ Hs).
  destruct (_ || _) eqn:Hp; [|by left]. right. exists i, s. split_and!; try done.
  apply orb_true_iff in Hp as [Hp|Hp]; apply bool_decide_eq_true in Hp; auto.
Qed.

Lemma footprint_mark_runnable h w :
  wf w → current_handle w ≠ Some h → footprint (λ h', h' = h) w (mark_runnable h w).2.
Proof.
  intros Hw Hcur. destruct (mark_runnable_cases h w) as [->|(i & s & Hi & Ho & Hh & Hp & ->)];
    [by apply footprint_slots|]. eapply footprint_alter; [done..|]. destruct Hp as [Hp|Hp].
  - destruct Hcur. rewrite <- Hh. eapply current_running; [done..|]. by apply is_running_iff.
  - by apply touched_wake.
Qed.

Lemma footprint_reap p h w : footprint (λ h', h' = h) w (reap_child p h w).2.
Proof.
  unfold reap_child. m_unfold. destruct (negb _); [|by apply footprint_slots].
  rewrite index_of_run. destruct (position _ _) as [i|] eqn:Hi; [|by apply footprint_slots].
  apply position_lookup in Hi as (s & Hs & [Ho Hh]%is_slot_iff). rewrite (slot_at_Some _ _ _ _ Hs).
  destruct (_ =? _); [|by apply footprint_slots].
  destruct (phase_eqb _ _) eqn:Hp; [|by apply footprint_slots].
  eapply footprint_alter; [done..|]. apply touched_reap; [|done]. unfold zombie. by rewrite Ho.
Qed.

Lemma mark_running_busy h w c : wf w → caller w = Ok c → (mark_running h w).2 = w.
Proof.
  intros Hw Hc. destruct (caller_Ok w c Hw Hc) as (s & Hs & Hr & _).
  assert (existsb is_running (slots (table w)) = true) as Hx.
  { apply existsb_exists. exists s. split; [|done]. by apply list_elem_of_In, list_elem_of_lookup_2 with c. }
  unfold mark_running. m_unfold. destruct (negb (pid h =? NO_PID)); [|done]. by rewrite Hx, orb_true_r.
Qed.

(** The switching operations of the round robin. *)
Definition switching (op : Op) : bool :=
  match op with
  | OpYield _ | OpPreempt _ _ | OpBlock _ | OpExit _ | OpThreadExit => true
  | _ => false
  end.

(** An operation that does not end or demote processes other than by the
    caller's own choice: no group exit, no clone rollback, no demotion of the
    running process from outside. *)
Definition fair (op : Op) (w : Lifecycle) : bool :=
  match op with
  | OpExitGroup _ | OpDiscard _ | OpMarkBlocked _ | OpFromPid0 _ => false
  | OpMarkRunnable h => negb (bool_decide (current_handle w = Some h))
  | _ => true
  end.

Lemma fair_footprint op w c :
  wf w → caller w = Ok c → fair op w = true → switching op = false → ∃ B, footprint B w (exec op w).2.
Proof.
  intros Hw Hc Hf Hs. destruct op; simpl in *; try done; eexists.
  - apply footprint_register.
  - by apply footprint_commit.
  - by apply footprint_clone.
  - erewrite mark_running_busy by done. by apply (footprint_slots (λ _, False)).
  - by apply footprint_resume.
  - by apply footprint_replace.
  - by apply footprint_set_fs.
  - apply footprint_mark_runnable; [done|]. apply negb_true_iff in Hf. by apply bool_decide_eq_false in Hf.
  - apply footprint_reap.
  - rewrite publish_current_run by done. by apply (footprint_slots (λ _, False)).
Qed.

Lemma touched_active B s s' :
  touched B s s' → active s = true → same_process s s' ∧ phase s' = phase s.
Proof.
  intros Ht [Ho Hp]%active_iff. destruct Ht as [|? Hc%claimable_free _|? ? ? ?|Hb _|[_ Hz]%zombie_iff _]; try done;
    naive_solver congruence.
Qed.

Lemma exec_rotates op w :
  wf w → switching op = true →
  ∃ q m, rotates q m w ∧ (exec op w).2 = (m w).2 ∧
    ((exec op w).1 = None → (m w).2 = w) ∧
    (∀ d, (exec op w).1 = Some d → (m w).1 = Ok d).
Proof.
  assert (∀ q m, wf w → rotates q (as_user m) w → ∃ q' m', rotates q' m' w ∧
    (decided (λ s, Some (User s)) (m w)).2 = (m' w).2 ∧
    ((decided (λ s, Some (User s)) (m w)).1 = None → (m' w).2 = w) ∧
    (∀ d, (decided (λ s, Some (User s)) (m w)).1 = Some d → (m' w).1 = Ok d)) as Hu.
  { intros q m Hw Hr. exists q, (as_user m). split; [done|]. revert Hr. unfold rotates, as_user, decided.
    m_unfold. destruct (m w) as [[s|x] w']; simpl; naive_solver. }
  assert (∀ q m, rotates q m w → ∃ q' m', rotates q' m' w ∧ (decided Some (m w)).2 = (m' w).2 ∧
    ((decided Some (m w)).1 = None → (m' w).2 = w) ∧
    (∀ d, (decided Some (m w)).1 = Some d → (m' w).1 = Ok d)) as Hd.
  { intros q m Hr. exists q, m. split; [done|]. revert Hr. unfold rotates, decided.
    destruct (m w) as [[s|x] w']; simpl; naive_solver. }
  intros Hw Hs. destruct op; try done; simpl.
  - by eapply Hu, yield_rotates.
  - by eapply Hu, preempt_rotates.
  - by eapply Hd, block_rotates.
  - by eapply Hd, exit_rotates.
  - by eapply Hd, thread_exit_rotates.
Qed.

(** The successful context switches of a run, and the runs that are fair. *)
Definition switched_over (op : Op) (w : Lifecycle) : bool :=
  switching op && bool_decide (is_Some (exec op w).1).

Fixpoint turns (ops : list Op) (w : Lifecycle) : nat :=
  match ops with
  | [] => 0
  | op :: ops => Nat.b2n (switched_over op w) + turns ops (exec op w).2
  end.

Fixpoint fair_run (ops : list Op) (w : Lifecycle) : bool :=
  match ops with
  | [] => true
  | op :: ops => fair op w && fair_run ops (exec op w).2
  end.

(** Slot [c] runs, the process [h] in slot [j] waits for the CPU. *)
Record waiting (w : Lifecycle) (c j : nat) (h : ProcessHandle) : Prop := {
  wt_wf : wf w;
  wt_caller : caller w = Ok c;
  wt_slot : ∃ s, slots (table w) !! j = Some s ∧ is_runnable s = true ∧ handle_of s = h;
}.

Lemma waiting_range w c j h :
  waiting w c j h → (c < MAXIMUM_PROCESSES)%nat ∧ (j < MAXIMUM_PROCESSES)%nat ∧ c ≠ j.
Proof.
  intros [Hw Hc (s & Hj & Hr & _)]. destruct (caller_Ok w c Hw Hc) as (x & Hx & Hxr & _).
  rewrite <- (tw_length _ (wf_table _ Hw)). split_and!; [by eapply lookup_lt_Some..|].
  intros ->. assert (x = s) as -> by congruence.
  apply is_running_iff in Hxr as [_ ?]. apply is_runnable_iff in Hr as [_ ?]. congruence.
Qed.

Lemma waiting_footprint B w w' c j h :
  waiting w c j h → wf w' → footprint B w w' → waiting w' c j h.
Proof.
  intros [Hw Hc (s & Hj & Hr & Hh)] Hw' Hg. destruct (caller_Ok w c Hw Hc) as (x & Hx & Hxr & _).
  destruct (Hg c x Hx) as (x' & Hx' & Ht). destruct (Hg j s Hj) as (s' & Hs' & Ht').
  destruct (touched_active _ _ _ Ht) as [(_ & Ho & _) Hp]; [unfold active; by rewrite Hxr|].
  destruct (touched_active _ _ _ Ht') as [(_ & Ho' & Hh' & _) Hp']; [unfold active; by rewrite Hr, orb_true_r|].
  split; [done| |].
  - eapply caller_running; [done..|]. apply is_running_iff. split; [done|].
    apply is_running_iff in Hxr as [_ ?]. congruence.
  - exists s'. split_and!; [done| |congruence]. apply is_runnable_iff. split; [done|].
    apply is_runnable_iff in Hr as [_ ?]. congruence.
Qed.

(** A switch dispatches the waiting process or brings the round robin closer. *)
Lemma waiting_rotates q m w c j h d w' :
  waiting w c j h → rotates q m w → m w = (Ok d, w') →
  current_handle w' = Some h ∨
  ∃ t, waiting w' t j h ∧ (distance t j < distance c j)%nat.
Proof.
  intros Hwt Hrot Hm. pose proof (waiting_range _ _ _ _ Hwt) as (Hcl & Hjl & Hne).
  destruct Hwt as [Hw Hc (s & Hj & Hr & Hh)]. unfold rotates in Hrot. rewrite Hm in Hrot.
  destruct Hrot as (w1 & i & index & Hi & Hsd & Hoth & _ & Hidx). assert (i = c) as -> by congruence.
  destruct (next_runnable_distance w c j s Hw Hcl Hj Hr Hne) as (t & Ht & Hdist).
  destruct Hidx as [->|?]; [|congruence]. rewrite Ht in Hsd.
  pose proof (switched_wf _ _ _ _ _ Hsd) as Hw'. destruct Hsd as [Ht1 _ Hok _ _ _ _ ->].
  destruct (Hok t eq_refl) as (x & Hx & [Ho Hp]%is_runnable_iff).
  set (w' := handed _ _ _) in *.
  assert (slots (table w') = <[t := with_phase Running x]> (slots (table w1))) as Hsl
    by (by apply alter_insert_eq).
  assert (slots (table w') !! t = Some (with_phase Running x)) as Htr
    by (rewrite Hsl; apply list_lookup_insert_eq; by eapply lookup_lt_Some).
  assert (is_running (with_phase Running x) = true) as Hrun by by apply is_running_iff.
  destruct (decide (t = j)) as [->|Htj]; [|destruct Hdist as [?|Hlt]; [done|]].
  - left. rewrite Hoth in Hx by done. assert (x = s) as -> by congruence.
    rewrite <- Hh. by apply (current_running w' j (with_phase Running s)).
  - right. exists t. split; [|done]. split; [done|by eapply caller_running|].
    exists s. split_and!; [|done..]. rewrite Hsl, list_lookup_insert_ne by done. by rewrite Hoth.
Qed.

Lemma fair_step op w c j h :
  waiting w c j h → fair op w = true →
  if switched_over op w
  then current_handle (exec op w).2 = Some h ∨
       ∃ t, waiting (exec op w).2 t j h ∧ (distance t j < distance c j)%nat
  else waiting (exec op w).2 c j h.
Proof.
  intros Hwt Hf. pose proof (wt_wf _ _ _ _ Hwt) as Hw. unfold switched_over.
  destruct (switching op) eqn:Hs; simpl.
  - destruct (exec_rotates op w Hw Hs) as (q & m & Hrot & -> & Hnone & Hsome).
    case_bool_decide as Hd.
    + destruct Hd as [d Hd]. specialize (Hsome d Hd). eapply waiting_rotates; [done..|].
      rewrite <- Hsome. by apply surjective_pairing.
    + rewrite Hnone; [done|]. by apply eq_None_not_Some.
  - destruct (fair_footprint op w c) as [B HB]; [done|by eapply wt_caller|done..|].
    eapply waiting_footprint; [done|by eapply st_wf, exec_steps|done].
Qed.

Lemma fair_run_reaches ops w c j h :
  waiting w c j h → fair_run ops w = true → (distance c j ≤ turns ops w)%nat →
  ∃ ops1 ops2, ops = ops1 ++ ops2 ∧ current_handle (exec_all ops1 w) = Some h.
Proof.
  revert w c. induction ops as [|op ops IH]; intros w c Hwt Hf Ht; simpl in *.
  - pose proof (waiting_range _ _ _ _ Hwt) as (Hc & Hj & Hne). pose proof (distance_pos c j Hc Hj Hne). lia.
  - apply andb_true_iff in Hf as [Hf Hfr]. pose proof (fair_step op w c j h Hwt Hf) as Hst.
    destruct (switched_over op w); simpl in Ht.
    + destruct Hst as [Hd|(t & Hwt' & Hlt)]; [by exists [op], ops|].
      destruct (IH _ t Hwt' Hfr ltac:(lia)) as (o1 & o2 & -> & Hcur). by exists (op :: o1), o2.
    + destruct (IH _ c Hst Hfr Ht) as (o1 & o2 & -> & Hcur). by exists (op :: o1), o2.
Qed.

(** C9. Nobody starves: in any run without group exits and clone rollbacks, a
    process that waits for the CPU is dispatched before 63 further context
    switches have happened, whatever the processes do in between. *)
Theorem lifecycle_round_robin (before ops : list Op) (c j : nat) (s : ProcessSlot) :
  let w := exec_all before boot in
  caller w = Ok c → slots (table w) !! j = Some s → is_runnable s = true →
  fair_run ops w = true → (MAXIMUM_PROCESSES ≤ S (turns ops w))%nat →
  ∃ ops1 ops2, ops = ops1 ++ ops2 ∧ current_handle (exec_all ops1 w) = Some (handle_of s).
Proof.
  intros w Hc Hj Hr Hf Ht. assert (waiting w c j (handle_of s)) as Hwt
    by (split; [apply reachable_wf|done|eauto]).
  pose proof (waiting_range _ _ _ _ Hwt) as (Hcl & Hjl & Hne). pose proof (distance_pos c j Hcl Hjl Hne).
  eapply fair_run_reaches; [done..|lia].
Qed.

(** ** Identities *)

(** Some slot carries exactly this process. *)
Definition alive (h : ProcessHandle) (w : Lifecycle) : Prop :=
  ∃ i s, slots (table w) !! i = Some s ∧ occupied s = true ∧ handle_of s = h.

(** Every PID in use has been handed out: it is below the allocator. *)
Definition below (w : Lifecycle) : Prop :=
  ∀ i s, slots (table w) !! i = Some s → occupied s = true → s_pid s < next_pid (table w).

Lemma slot_by_handle_None h w : slot_by_handle (table w) h = None ↔ ¬ alive h w.
Proof.
  unfold slot_by_handle, alive. split.
  - intros Hf (i & s & Hi & Ho & Hh).
    pose proof (find_none _ _ Hf s) as Hn. rewrite (proj2 (is_slot_iff h s)) in Hn by done.
    discriminate Hn. by apply list_elem_of_In, list_elem_of_lookup_2 with i.
  - intros Hna. destruct (find _ _) as [s|] eqn:E; [|done]. destruct Hna.
    apply find_some in E as [Hin Hs%is_slot_iff]. apply list_elem_of_In, list_elem_of_lookup in Hin as [i Hi].
    by exists i, s.
Qed.

Lemma snapshot_exact_None h w : snapshot_exact h w = None ↔ ¬ alive h w.
Proof. unfold snapshot_exact. by rewrite fmap_None, slot_by_handle_None. Qed.

(** While the allocator has not gone round, it hands out its next PID. *)
Lemma allocates_below w w' k :
  wf w → below w → allocates (table w) (table w') k → k = O.
Proof.
  intros Hw Hb [_ Hm]. destruct k as [|k]; [done|]. specialize (Hm O ltac:(lia)).
  rewrite nth_pid_0 in Hm by apply (tw_next _ (wf_table _ Hw)).
  apply existsb_exists in Hm as (s & Hin & [Ho Hp]%has_pid_iff).
  apply list_elem_of_In, list_elem_of_lookup in Hin as [i Hi]. specialize (Hb i s Hi Ho). lia.
Qed.

Lemma nth_pid_1 p : 2 ≤ p < U32_MAX → nth_pid p 1 = p + 1.
Proof. unfold nth_pid, PID_RANGE, U32_MAX. intros. rewrite Z.mod_small; lia. Qed.

Lemma steps_next w w' :
  wf w → below w → next_pid (table w) < U32_MAX → steps w w' →
  next_pid (table w) ≤ next_pid (table w') ≤ next_pid (table w) + 1.
Proof.
  intros Hw Hb Hn Hst. pose proof (tw_next _ (wf_table _ Hw)).
  destruct (st_next _ _ Hst) as [->|[k Hk]]; [lia|].
  pose proof (allocates_below _ _ _ Hw Hb Hk) as ->. destruct Hk as [-> _]. rewrite nth_pid_1; lia.
Qed.

Lemma born_below w w' p :
  wf w → below w → next_pid (table w) < U32_MAX → born (table w) (table w') p →
  p = INIT_PID ∨ p = next_pid (table w) ∧ next_pid (table w') = next_pid (table w) + 1.
Proof.
  intros Hw Hb Hn. pose proof (tw_next _ (wf_table _ Hw)) as Hr.
  intros [->|(k & Hk & ->)]; [by left|right].
  pose proof (allocates_below _ _ _ Hw Hb Hk) as ->. destruct Hk as [-> _].
  rewrite nth_pid_0, nth_pid_1 by lia. done.
Qed.

(** Where a process found after a step comes from. *)
Lemma steps_origin w w' i s' :
  wf w → steps w w' → slots (table w') !! i = Some s' → occupied s' = true →
  (∃ s, slots (table w) !! i = Some s ∧ occupied s = true ∧ handle_of s = handle_of s') ∨
  born (table w) (table w') (s_pid s').
Proof.
  intros Hw Hst Hi Ho. destruct (lookup_lt_is_Some_2 (slots (table w)) i) as [s Hs].
  { rewrite (tw_length _ (wf_table _ Hw)), <- (tw_length _ (wf_table _ (st_wf _ _ Hst))).
    by eapply lookup_lt_Some. }
  destruct (st_slots _ _ Hst i s Hs) as (x & Hx & Hstep). assert (x = s') as -> by congruence.
  destruct Hstep as [|y (? & ? & ? & _) _|?|y ? ? ? ? ?]; [left; eauto|left; eauto|done|by right].
Qed.

Lemma steps_below w w' :
  wf w → below w → next_pid (table w) < U32_MAX → steps w w' → below w'.
Proof.
  intros Hw Hb Hn Hst i s' Hi Ho. pose proof (steps_next _ _ Hw Hb Hn Hst).
  pose proof (tw_next _ (wf_table _ Hw)).
  destruct (steps_origin _ _ _ _ Hw Hst Hi Ho) as [(s & Hs & Hso & [= Hp _])|Hborn].
  - specialize (Hb i s Hs Hso). lia.
  - destruct (born_below _ _ _ Hw Hb Hn Hborn) as [->|[-> ->]]; unfold INIT_PID; lia.
Qed.

Lemma steps_dead w w' h :
  wf w → below w → next_pid (table w) < U32_MAX → steps w w' →
  INIT_PID < pid h < next_pid (table w) → ¬ alive h w → ¬ alive h w'.
Proof.
  intros Hw Hb Hn Hst Hp Hd (i & s' & Hi & Ho & Hh).
  destruct (steps_origin _ _ _ _ Hw Hst Hi Ho) as [(s & Hs & Hso & Hsh)|Hborn].
  - destruct Hd. exists i, s. split_and!; [done..|congruence].
  - subst h. simpl in Hp. destruct (born_below _ _ _ Hw Hb Hn Hborn) as [Heq|[Heq _]]; lia.
Qed.

Lemma exec_all_below ops w :
  wf w → below w → next_pid (table w) + Z.of_nat (length ops) ≤ U32_MAX →
  below (exec_all ops w) ∧
  next_pid (table w) ≤ next_pid (table (exec_all ops w)) ≤ next_pid (table w) + Z.of_nat (length ops) ∧
  ∀ h, INIT_PID < pid h < next_pid (table w) → ¬ alive h w → ¬ alive h (exec_all ops w).
Proof.
  revert w. induction ops as [|op ops IH]; intros w Hw Hb Hn; [split_and!; [done|simpl; lia..|done]|].
  cbn [length] in Hn. pose proof (exec_steps op w Hw) as Hst.
  assert (next_pid (table w) < U32_MAX) as Hlt by lia.
  pose proof (steps_next _ _ Hw Hb Hlt Hst). pose proof (steps_below _ _ Hw Hb Hlt Hst) as Hb'.
  destruct (IH _ (st_wf _ _ Hst) Hb' ltac:(lia)) as (Hb2 & Hn2 & Hd2).
  cbn [exec_all foldl length] in *. unfold exec_all in *. split_and!; [done|lia|lia|].
  intros h Hp Hd. apply Hd2; [lia|]. by apply (steps_dead w).
Qed.

Lemma boot_below : below boot.
Proof. by intros i s [-> _]%lookup_replicate. Qed.

(** C16. The identities of processes other than init are not recycled: once
    the exact generation of a process whose PID the allocator handed out is gone,
    its handle resolves to nothing ever again, in any run of fewer operations than
    there are PIDs. Init's fixed PID is left out: it can be registered anew, and
    its old handle can then resolve again ([lifecycle_init_handle_returns]). *)
Theorem lifecycle_identity_not_reused (ops1 ops2 : list Op) (h : ProcessHandle) :
  let w := exec_all ops1 boot in
  Z.of_nat (length ops1 + length ops2) < U32_MAX - 1 →
  INIT_PID < pid h < next_pid (table w) → snapshot_exact h w = None →
  snapshot_exact h (exec_all ops2 w) = None.
Proof.
  intros w Hlen Hp Hd. destruct (exec_all_below ops1 boot boot_wf boot_below) as (Hb & Hn & _).
  { simpl. lia. }
  simpl in Hn. apply snapshot_exact_None in Hd. apply snapshot_exact_None.
  apply (exec_all_below ops2 w); [apply reachable_wf|done| |done|done]. unfold w. lia.
Qed.

(** ** Creating processes *)

Lemma find_Some_iff h w s :
  wf w → slot_by_handle (table w) h = Some s ↔
    ∃ i, slots (table w) !! i = Some s ∧ occupied s = true ∧ handle_of s = h.
Proof.
  intros Hw. unfold slot_by_handle. split.
  - intros [Hin [Ho Hh]%is_slot_iff]%find_some.
    apply list_elem_of_In, list_elem_of_lookup in Hin as [i Hi]. eauto.
  - intros (i & Hi & Ho & Hh). destruct (find (is_slot h) (slots (table w))) as [x|] eqn:E.
    + apply find_some in E as [Hin [Hox Hhx]%is_slot_iff].
      apply list_elem_of_In, list_elem_of_lookup in Hin as [j Hj].
      assert (j = i) as -> by (eapply (tw_pids _ (wf_table _ Hw)); [done..|]; rewrite <- Hhx in Hh; by injection Hh).
      congruence.
    + destruct (proj1 (slot_by_handle_None h w) E). by exists i, s.
Qed.

(** Filling a free slot changes what one handle resolves to. *)
Lemma install_lookup w w' i s s' h :
  wf w → wf w' → slots (table w) !! i = Some s → occupied s = false →
  slots (table w') = <[i := s']> (slots (table w)) → occupied s' = true →
  slot_by_handle (table w') h =
    if decide (h = handle_of s') then Some s' else slot_by_handle (table w) h.
Proof.
  intros Hw Hw' Hi Hf Hsl Ho. destruct (decide _) as [->|Hne].
  - apply find_Some_iff; [done|]. exists i. rewrite Hsl, list_lookup_insert_eq by by eapply lookup_lt_Some. done.
  - apply option_eq. intros x. rewrite !find_Some_iff by done. split; intros (j & Hj & Ho' & Hh).
    + rewrite Hsl in Hj. apply lookup_insert_cases in Hj as [(<- & <- & _)|[_ Hj]]; [congruence|eauto].
    + exists j. rewrite Hsl, list_lookup_insert_ne; [done|]. intros ->. congruence.
Qed.

Lemma slot_by_pid_None p w :
  (∀ j s, slots (table w) !! j = Some s → has_pid p s = false) → slot_by_pid (table w) p = None.
Proof.
  intros H. unfold slot_by_pid. destruct (find _ _) as [s|] eqn:E; [|done].
  apply find_some in E as [Hin Hp]. apply list_elem_of_In, list_elem_of_lookup in Hin as [i Hi].
  by rewrite (H i s Hi) in Hp.
Qed.

(** Installing a child of a live process fails only when no slot is free:
    PIDs cannot run out. Otherwise the child gets a PID nobody uses, is
    runnable with the launch as given and the caller as parent, and every
    other handle resolves to what it did. *)
Theorem lifecycle_commit_child (ops : list Op) (p : Z) (l : ProcessLaunch) (ps : ProcessSnapshot) :
  let w := exec_all ops boot in
  p ≠ NO_PID → validate_launch l = true → snapshot p w = Some ps → ps_phase ps ≠ Zombie →
  match position claimable (slots (table w)) with
  | None => (commit_child p l w).1 = Err Capacity ∧
      slots (table (commit_child p l w).2) = slots (table w)
  | Some _ => ∃ h w', commit_child p l w = (Ok h, w') ∧ snapshot (pid h) w = None ∧
      snapshot_exact h w' =
        Some (mkSnapshot h (pid h) p Runnable l 0 (scheduler_epoch (table w))) ∧
      ∀ h', h' ≠ h → snapshot_exact h' w' = snapshot_exact h' w
  end.
Proof.
  intros w Hp Hl Hps Hz. pose proof (reachable_wf ops : wf w) as Hw.
  pose proof (st_wf _ _ (commit_child_steps p l w Hw)) as Hw'. revert Hw'.
  unfold snapshot in Hps. apply fmap_Some in Hps as (x & Hx & ->). simpl in Hz.
  assert (phase x ≠ Free) as Hfree.
  { apply find_some in Hx as [Hin [Ho _]%has_pid_iff].
    apply list_elem_of_In, list_elem_of_lookup in Hin as [i Hi].
    by apply (sw_phase _ _ (tw_slots _ (wf_table _ Hw) _ _ Hi)). }
  unfold commit_child. m_unfold. destruct (Z.eqb_spec p NO_PID); [done|]. rewrite Hl. cbn [negb orb]. rewrite Hx.
  unfold phase_eqb. rewrite !bool_decide_false by done. cbn [negb orb].
  destruct (take_pid_run w Hw) as (k & -> & Hfresh & Hm). cbn [table slots on_table with_next_pid].
  destruct (position claimable _) as [i|] eqn:Hi; [|done].
  apply position_lookup in Hi as (y & Hi & Hcl). rewrite (slot_at_Some _ _ _ _ Hi).
  rewrite (claimable_next _ _ (tw_slots _ (wf_table _ Hw) _ _ Hi) Hcl). cbn [snd].
  set (h := mkHandle _ _). set (w' := on_slot i _ _). intros Hw'. exists h, w'.
  assert (slots (table w') = <[i := launched (generation h) (pid h) (pid h) p l (scheduler_epoch (table w))]>
    (slots (table w))) as Hsl.
  { unfold w'. rewrite on_slot_compose. exact (alter_insert_eq _ _ _ _ Hi). }
  assert (occupied y = false) as Hfy by (apply andb_true_iff in Hcl as [? _]; by apply negb_true_iff).
  split_and!; [done| | |].
  - unfold snapshot. by rewrite slot_by_pid_None.
  - unfold snapshot_exact. rewrite (install_lookup w w' i y _ h Hw Hw' Hi Hfy Hsl eq_refl). by rewrite decide_True.
  - intros h' Hne. unfold snapshot_exact. rewrite (install_lookup w w' i y _ h' Hw Hw' Hi Hfy Hsl eq_refl).
    by rewrite decide_False.
Qed.

(** ** Exits *)

(** A process that neither runs nor waits for the CPU. *)
Definition parked (s : ProcessSlot) : bool :=
  occupied s && (phase_eqb (phase s) Blocked || phase_eqb (phase s) Zombie).

(** The caller of a system call belongs to this thread group. *)
Definition calls_from (group : Z) (w : Lifecycle) : bool :=
  match caller w with
  | Ok i => thread_group (slot_at EMPTY (slots (table w)) i) =? group
  | Err _ => false
  end.

(** An operation that cannot touch this parked process: it is not its
    collection by its own parent, not the wake-up of a sleeper, and not a group
    exit by a member of its own thread group. *)
Definition spares (s : ProcessSlot) (w : Lifecycle) (op : Op) : bool :=
  match op with
  | OpReap p h => negb (handle_eqb h (handle_of s) && (p =? parent s))
  | OpMarkRunnable h => negb (handle_eqb h (handle_of s)) || phase_eqb (phase s) Zombie
  | OpExitGroup _ => negb (calls_from (thread_group s) w)
  | _ => true
  end.

(** Every operation of the sequence spares the process, each in the state it
    runs in. *)
Fixpoint spares_all (s : ProcessSlot) (w : Lifecycle) (ops : list Op) : bool :=
  match ops with
  | [] => true
  | op :: rest => spares s w op && spares_all s (exec op w).2 rest
  end.

(** Parked processes are left alone. *)
Definition keeps (w w' : Lifecycle) (i : nat) (s : ProcessSlot) : Prop :=
  slots (table w) !! i = Some s → parked s = true → slots (table w') !! i = Some s.

Lemma parked_iff s : parked s = true ↔ occupied s = true ∧ (phase s = Blocked ∨ phase s = Zombie).
Proof. unfold parked, phase_eqb. by rewrite andb_true_iff, orb_true_iff, !bool_decide_eq_true. Qed.

Lemma keeps_refl w i s : keeps w w i s.
Proof. by intros Hi _. Qed.

Lemma keeps_slots w w' i s : slots (table w') = slots (table w) → keeps w w' i s.
Proof. by intros Hsl Hi _; rewrite Hsl. Qed.

Lemma keeps_alter w w' i s k f :
  slots (table w') = alter f k (slots (table w)) →
  (∀ x, slots (table w) !! k = Some x → parked x = false) → keeps w w' i s.
Proof.
  intros Hsl Hx Hi Hz. rewrite Hsl. destruct (decide (k = i)) as [->|]; [|by rewrite list_lookup_alter_ne].
  by rewrite (Hx s Hi) in Hz.
Qed.

Lemma keeps_trans w w1 w2 i s : keeps w w1 i s → keeps w1 w2 i s → keeps w w2 i s.
Proof. intros H1 H2 Hi Hz. by apply H2; [apply H1|]. Qed.

Lemma active_not_parked s : phase s = Running ∨ phase s = Runnable → parked s = false.
Proof. unfold parked, phase_eqb. by intros [-> | ->]; apply andb_false_r. Qed.

(** The hand-over of a switch touches only a runnable slot. *)
Lemma keeps_handed index e w i s : index_ok (table w) index → keeps w (handed (target_of (table w) index e) e w) i s.
Proof.
  intros Hidx. destruct index as [j|]; [|by apply keeps_slots].
  destruct (Hidx j eq_refl) as (x & Hx & [_ Hr]%is_runnable_iff). eapply keeps_alter; [done|].
  intros y Hy. assert (y = x) as -> by congruence. apply active_not_parked. by right.
Qed.

Lemma keeps_rotates q m w i s : wf w → rotates q m w → keeps w (m w).2 i s.
Proof.
  intros Hw Hrot. unfold rotates in Hrot. destruct (m w) as [[d|x] w']; simpl; [|subst; apply keeps_refl].
  destruct Hrot as (w1 & c & index & Hc & Hsd & Hoth & _).
  destruct (caller_Ok w c Hw Hc) as (y & Hy & [_ Hyr]%is_running_iff & _).
  pose proof Hsd as [_ _ Hidx _ _ _ _ ->].
  eapply keeps_trans; [|by apply keeps_handed]. intros Hi Hz. rewrite Hoth; [done|].
  intros ->. assert (y = s) as -> by congruence. by rewrite active_not_parked in Hz by by left.
Qed.

Lemma keeps_footprint B w w' i s : footprint B w w' → ¬ B (handle_of s) → keeps w w' i s.
Proof.
  intros Hf HB Hi [Ho Hz]%parked_iff. destruct (Hf i s Hi) as (s' & Hs' & Ht).
  destruct Ht as [|? Hc%claimable_free _|? [_ ?]%is_running_iff ? ?|_ ?|_ ?]; naive_solver congruence.
Qed.

(** A change of one slot that is running or runnable. *)
Lemma keeps_active w w' i s k f p :
  slots (table w') = alter f k (slots (table w)) →
  phase_eqb (phase (slot_at EMPTY (slots (table w)) k)) p = true → p = Running ∨ p = Runnable →
  keeps w w' i s.
Proof.
  intros Hsl Hp%bool_decide_eq_true Hpp. eapply keeps_alter; [done|]. intros x Hx.
  rewrite (slot_at_Some _ _ _ _ Hx) in Hp. apply active_not_parked. by subst p.
Qed.

Lemma keeps_discard h w i s : keeps w (discard_runnable_thread h w).2 i s.
Proof.
  unfold discard_runnable_thread, current_user_handle. m_unfold.
  destruct (_ =? _); [apply keeps_refl|]. destruct (decode _); [|apply keeps_refl].
  destruct (slot_by_handle _ _); [|apply keeps_refl]. rewrite index_of_run.
  destruct (position _ _) as [k|] eqn:Hk; [|apply keeps_refl].
  destruct (phase_eqb (phase (slot_at EMPTY (slots (table w)) k)) Runnable) eqn:Hp; [|apply keeps_refl].
  destruct (negb _); [|apply keeps_refl]. eapply keeps_active; [done..|by right].
Qed.

Lemma keeps_mark_running h w i s : keeps w (mark_running h w).2 i s.
Proof.
  unfold mark_running. m_unfold. destruct (negb _); [|apply keeps_refl].
  destruct (negb (_ || _)); [|apply keeps_refl]. rewrite index_of_run.
  destruct (position _ _) as [k|]; [|apply keeps_refl].
  destruct (phase_eqb _ _) eqn:Hp; [|apply keeps_refl].
  rewrite next_epoch_now_run. destruct (next_scheduler_epoch _) as [e|]; [|apply keeps_refl].
  eapply keeps_active; [done..|by right].
Qed.

Lemma keeps_mark_blocked h w i s : keeps w (mark_blocked h w).2 i s.
Proof.
  unfold mark_blocked, require_running. m_unfold. destruct (negb _); [|apply keeps_refl].
  rewrite index_of_run. destruct (position _ _) as [k|]; [|apply keeps_refl].
  destruct (phase_eqb _ _) eqn:Hp; [|apply keeps_refl]. eapply keeps_active; [done..|by left].
Qed.

Lemma keeps_mark_runnable h w i s :
  wf w → handle_of s ≠ h ∨ phase s = Zombie → keeps w (mark_runnable h w).2 i s.
Proof.
  intros Hw Hs. destruct (mark_runnable_cases h w) as [->|(k & y & Hk & _ & Hh & Hp & ->)]; [apply keeps_refl|].
  intros Hi Hz. simpl. destruct (decide (k = i)) as [->|]; [|by rewrite list_lookup_alter_ne].
  assert (y = s) as -> by congruence. naive_solver congruence.
Qed.

Lemma keeps_from_pid0 a w i s : wf w → keeps w (schedule_from_pid0 a w).2 i s.
Proof.
  intros Hw. unfold schedule_from_pid0, validate_pid0_authority. m_unfold.
  destruct (negb _); [|apply keeps_refl]. destruct (existsb _ _); [apply keeps_refl|]. cbn [negb].
  rewrite next_epoch_now_run. destruct (next_scheduler_epoch _) as [e|]; [|apply keeps_refl].
  assert (index_ok (table w) (position is_runnable (slots (table w)))) as Hidx
    by (intros j; apply position_lookup).
  rewrite select_target_run by (done || apply Hw). rewrite hand_over_run.
  exact (keeps_handed _ e (set_epoch e w) i s Hidx).
Qed.

Lemma leads_iff g s : leads g s = true ↔ occupied s = true ∧ s_pid s = g ∧ thread_group s = g.
Proof. unfold leads. rewrite !andb_true_iff, !Z.eqb_eq. tauto. Qed.

Lemma in_group_iff g s : in_group g s = true ↔ occupied s = true ∧ thread_group s = g.
Proof. unfold in_group. by rewrite andb_true_iff, Z.eqb_eq. Qed.

Lemma handed_lookup t index e w k :
  slots (table (handed (target_of t index e) e w)) !! k =
    (if decide (index = Some k) then with_phase Running else id) <$> slots (table w) !! k.
Proof.
  unfold handed, hand_over, target_of. destruct index as [j|]; cbv [fmap option_fmap option_map]; m_unfold; simpl.
  - destruct (decide (Some j = Some k)) as [[= ->]|Hne]; [by rewrite list_lookup_alter_eq|].
    rewrite list_lookup_alter_ne by congruence. by destruct (_ !! k).
  - by destruct (_ !! k).
Qed.

Section GroupExit.
Context (w : Lifecycle) (code e : Z) (leader : nat) (s y : ProcessSlot) (index : option nat).
Let g := thread_group s.
Let w' := handed (target_of (table w) index e) e (group_ended g code e leader w).
Hypothesis Hw : wf w.
Hypothesis Hy : slots (table w) !! leader = Some y.
Hypothesis Hl : leads g y = true.
Hypothesis Hidx : outside w g index.

Lemma group_exit_lookup k :
  slots (table w') !! k = (λ x,
    (if decide (index = Some k) then with_phase Running else id) (ended g code e leader k x))
    <$> slots (table w) !! k.
Proof. unfold w'. rewrite handed_lookup. simpl. rewrite end_group_lookup. by destruct (_ !! k). Qed.

Lemma group_exit_index k x :
  slots (table w) !! k = Some x → in_group g x = true → index ≠ Some k.
Proof. intros Hk Hg Hik. destruct (Hidx k Hik) as (z & Hz & _ & Hout). congruence. Qed.

Lemma group_exit_members k x :
  slots (table w') !! k = Some x → in_group g x = true →
  k = leader ∧ x = exited code e y.
Proof.
  rewrite group_exit_lookup. intros (x0 & Hx0 & ->)%fmap_Some Hg.
  destruct (in_group g x0) eqn:Hg0.
  - rewrite decide_False in Hg |- * by by eapply group_exit_index. unfold id, ended in *.
    rewrite Hg0 in Hg |- *. simpl in *. destruct (Nat.eqb_spec k leader) as [->|]; [|done].
    split; [done|]. by assert (x0 = y) as -> by congruence.
  - assert (ended g code e leader k x0 = x0) as Heq by (unfold ended; by rewrite Hg0).
    rewrite Heq in Hg. destruct (decide _); unfold id, in_group in *; simpl in *; congruence.
Qed.

Lemma group_exit_leader : slots (table w') !! leader = Some (exited code e y).
Proof.
  assert (in_group g y = true) as Hg by (apply leads_iff in Hl as (? & ? & ?); by apply in_group_iff).
  rewrite group_exit_lookup, Hy. simpl. rewrite decide_False by by eapply group_exit_index.
  unfold id, ended. by rewrite Hg, Nat.eqb_refl.
Qed.

Lemma group_exit_others k x :
  wf w' → slots (table w) !! k = Some x → in_group g x = false →
  slots (table w') !! k = Some x ∨
  is_runnable x = true ∧ slots (table w') !! k = Some (with_phase Running x) ∧
    current_handle w' = Some (handle_of x).
Proof.
  intros Hw' Hk Hg. pose proof (group_exit_lookup k) as Hlk. rewrite Hk in Hlk. simpl in Hlk.
  unfold ended in Hlk. rewrite Hg in Hlk. simpl in Hlk. destruct (decide (index = Some k)) as [Hik|]; [|by left].
  right. destruct (Hidx k Hik) as (z & Hz & Hr & _). assert (z = x) as -> by congruence.
  split_and!; [done..|]. apply (current_running w' k (with_phase Running x) Hw' Hlk).
  apply is_running_iff. by apply is_runnable_iff in Hr as [? _].
Qed.
End GroupExit.

Lemma keeps_exit_group code w i s :
  wf w → calls_from (thread_group s) w = false → keeps w (schedule_exit_group code w).2 i s.
Proof.
  intros Hw Hcf Hi Hz. pose proof (st_wf _ _ (exec_steps (OpExitGroup code) w Hw)) as Hw'. simpl in Hw'.
  destruct (exit_group_cases code w Hw) as [[x Hx]|(k & c & leader & e & index & Hk & Hr & _ & _ & Hidx & Hx)];
    rewrite Hx in Hw' |- *; [done|].
  unfold calls_from in Hcf. rewrite (caller_running w k c), (slot_at_Some _ _ _ _ Hk) in Hcf by done.
  destruct (group_exit_others w code e leader c index Hidx i s Hw' Hi) as [?|(Hrun & _)]; [|done|].
  - unfold in_group. by rewrite Z.eqb_sym, Hcf, andb_false_r.
  - apply is_runnable_iff in Hrun as [_ Hp]. rewrite active_not_parked in Hz; [done|by right].
Qed.

Lemma keeps_reap p h w i s :
  handle_of s ≠ h ∨ p ≠ parent s → keeps w (reap_child p h w).2 i s.
Proof.
  intros [Hs|Hs]; [by eapply keeps_footprint; [apply footprint_reap|]|].
  unfold reap_child. m_unfold. destruct (negb _); [|apply keeps_refl].
  rewrite index_of_run. destruct (position _ _) as [k|]; [|apply keeps_refl].
  destruct (_ =? p) eqn:Hp; [|apply keeps_refl]. destruct (phase_eqb _ _); [|apply keeps_refl].
  intros Hi _. simpl. rewrite list_lookup_alter_ne; [done|]. intros ->.
  rewrite (slot_at_Some _ _ _ _ Hi) in Hp. apply Z.eqb_eq in Hp. congruence.
Qed.

Lemma exec_keeps op w i s : wf w → spares s w op = true → keeps w (exec op w).2 i s.
Proof.
  intros Hw Hsp.
  assert (∀ w', footprint (λ _, False) w w' → keeps w w' i s) as Hf
    by (intros w' H; eapply keeps_footprint; [done|tauto]).
  assert (∀ q m, rotates q (as_user m) w → keeps w (m w).2 i s) as Hu
    by (intros q m H; rewrite <- as_user_state; by eapply keeps_rotates).
  destruct op; simpl in *; try done.
  - apply Hf, footprint_register.
  - by apply Hf, footprint_commit.
  - by apply Hf, footprint_clone.
  - apply keeps_discard.
  - apply keeps_mark_running.
  - by apply Hf, footprint_resume.
  - by apply Hf, footprint_replace.
  - by apply Hf, footprint_set_fs.
  - by eapply Hu, yield_rotates.
  - by eapply Hu, preempt_rotates.
  - by eapply keeps_rotates, block_rotates.
  - by eapply keeps_rotates, exit_rotates.
  - by apply keeps_exit_group, negb_true_iff.
  - by eapply keeps_rotates, thread_exit_rotates.
  - by apply keeps_from_pid0.
  - apply keeps_mark_runnable; [done|]. apply orb_true_iff in Hsp as [Hsp|Hsp%bool_decide_eq_true]; [left|by right].
    intros Heq. by rewrite Heq, handle_eqb_refl in Hsp.
  - apply keeps_mark_blocked.
  - apply keeps_reap. apply negb_true_iff, andb_false_iff in Hsp as [Hsp|Hsp%Z.eqb_neq]; [left|by right].
    intros Heq. by rewrite Heq, handle_eqb_refl in Hsp.
  - rewrite publish_current_run by done. apply keeps_refl.
Qed.

Lemma exec_all_keeps ops w i s :
  wf w → spares_all s w ops = true → keeps w (exec_all ops w) i s.
Proof.
  revert w. induction ops as [|op ops IH]; intros w Hw Hsp; simpl in *; [apply keeps_refl|].
  apply andb_true_iff in Hsp as [Hop Hops]. eapply keeps_trans; [by apply exec_keeps|].
  apply IH; [by eapply st_wf, exec_steps|done].
Qed.

Lemma exit_slot code w i s d w' :
  wf w → caller w = Ok i → slots (table w) !! i = Some s → schedule_exit code w = (Ok d, w') →
  slots (table w') !! i = Some (exited code (scheduler_epoch (table w) + 1) s).
Proof.
  intros Hw Hc Hi. unfold schedule_exit. m_unfold. rewrite running_current_run, Hc, next_epoch_now_run.
  destruct (next_scheduler_epoch _) as [e|] eqn:He; [|done].
  rewrite select_target_run by (apply Hw || apply next_runnable_ok).
  rewrite !on_slot_compose. fold (departed i (exited code e) e w). rewrite hand_over_run.
  intros [= _ <-]. pose proof (proj1 (next_epoch_Ok _ _) He) as [-> _].
  destruct (caller_Ok w i Hw Hc) as (x & Hx & Hr & _). assert (x = s) as -> by congruence.
  destruct (departed_target w i s (exited code (scheduler_epoch (table w) + 1))
    (scheduler_epoch (table w) + 1) Hi Hr _ (next_runnable_ok (table w) i)) as [Hidx ->].
  apply keeps_handed; [done| |].
  - simpl. by rewrite list_lookup_alter_eq, Hi.
  - apply parked_iff. split; [by apply is_running_iff in Hr as [? _]|by right].
Qed.

Lemma wait_scan_found p q saw l i s :
  l !! i = Some s → zombie s = true → waited_for p q s = true →
  (∀ j x, l !! j = Some x → waited_for p q x = true → j = i) →
  wait_scan p q saw l = Ok (slot_snapshot s).
Proof.
  revert saw i. induction l as [|x l IH]; intros saw i Hi [Ho Hz]%zombie_iff Hwf Hu; [done|].
  simpl. destruct (waited_for p q x) eqn:Hx; simpl.
  - specialize (Hu O x eq_refl Hx) as <-. injection Hi as ->. by rewrite Hz.
  - destruct i as [|i]; [injection Hi as ->; congruence|]. eapply IH; [done|by apply zombie_iff|done|].
    intros j y Hj Hy. by injection (Hu (S j) y Hj Hy).
Qed.

(** C13. An exit status is delivered exactly once: after a process exits, and
    after any further operations other than its collection by its own parent and
    a group exit called from its own thread group, its parent's wait returns
    that very process and its status, reaping returns the status, and then the
    process is gone and cannot be reaped again. Exits and group exits of other
    processes, attempts to wake the zombie, and attempts of a process that is
    not its parent to reap it are among the operations allowed in between. *)
Theorem lifecycle_exit_status_once (before ops : list Op) (code : Z) (i : nat) (s : ProcessSlot)
    (d : ScheduleDecision) (w' : Lifecycle) :
  let w := exec_all before boot in
  caller w = Ok i → slots (table w) !! i = Some s → schedule_exit code w = (Ok d, w') →
  spares_all (slot_at EMPTY (slots (table w')) i) w' ops = true →
  let w2 := exec_all ops w' in
  (∃ snap, wait_child (parent s) (Some (s_pid s)) w2 = (Ok snap, w2) ∧
     ps_handle snap = handle_of s ∧ ps_exit_code snap = code) ∧
  ∃ w3, reap_child (parent s) (handle_of s) w2 = (Ok code, w3) ∧
    snapshot_exact (handle_of s) w3 = None ∧
    ∀ p, reap_child p (handle_of s) w3 = (Err InvalidHandle, w3).
Proof.
  intros w Hc Hi Hex Hsp w2. pose proof (reachable_wf before : wf w) as Hw.
  assert (wf w') as Hw'.
  { pose proof (st_wf _ _ (exec_steps (OpExit code) w Hw)) as H. simpl in H. by rewrite Hex in H. }
  pose proof (exec_all_wf ops w' Hw' : wf w2) as Hw2. pose proof (wf_table _ Hw2) as Ht2.
  set (z := exited code (scheduler_epoch (table w) + 1) s).
  destruct (caller_Ok w i Hw Hc) as (x & Hx & [Ho _]%is_running_iff & _). assert (x = s) as -> by congruence.
  assert (slots (table w2) !! i = Some z) as Hz.
  { pose proof (exit_slot _ _ _ _ _ _ Hw Hc Hi Hex) as Hzs. rewrite (slot_at_Some _ _ _ _ Hzs) in Hsp.
    by apply (exec_all_keeps ops w' i z Hw' Hsp); [|apply parked_iff; auto]. }
  split.
  - exists (slot_snapshot z). split; [|done]. unfold wait_child. m_unfold. unfold liftR. f_equal.
    apply (wait_scan_found _ _ _ _ i); [done|by apply zombie_iff| |].
    + unfold waited_for. simpl. by rewrite Ho, !Z.eqb_refl.
    + intros j y Hj Hy. unfold waited_for in Hy. rewrite !andb_true_iff, !Z.eqb_eq in Hy.
      destruct Hy as [[Hoy _] Hpy]. by eapply (tw_pids _ Ht2).
  - pose proof (handle_of_ok _ _ (tw_slots _ Ht2 _ _ Hz) Ho) as [Hp _]. simpl in Hp.
    unfold reap_child. m_unfold. simpl. unfold NO_PID. destruct (Z.eqb_spec (s_pid s) 0); [lia|]. cbn [negb].
    destruct (position_is_Some (is_slot (handle_of s)) _ _ _ Hz) as [k Hk]; [by apply is_slot_iff|].
    rewrite index_of_run, Hk. apply position_lookup in Hk as (y & Hy & [Hoy Hhy]%is_slot_iff).
    assert (k = i) as -> by (eapply (tw_pids _ Ht2); [done..|by injection Hhy]).
    clear y Hy Hoy Hhy. rewrite (slot_at_Some _ _ _ _ Hz). simpl. rewrite Z.eqb_refl. eexists. split; [done|].
    assert (position (is_slot (handle_of s)) (slots (table (on_slot i retire w2))) = None) as Hgone.
    { apply position_None. intros j v. rewrite (slots_on_slot _ _ _ _ Hz).
      intros [(<- & <- & _)|[Hne Hv]]%lookup_insert_cases; [done|].
      destruct (is_slot (handle_of s) v) eqn:E; [|done]. apply is_slot_iff in E as [Hov Hhv].
      destruct Hne. symmetry. eapply (tw_pids _ Ht2); [done..|]. by injection Hhv. }
    split.
    + apply snapshot_exact_None. intros (j & v & Hv & Hov & Hhv).
      pose proof (proj1 (position_None _ _) Hgone j v Hv) as E.
      by rewrite (proj2 (is_slot_iff _ _)) in E.
    + intros p. by rewrite index_of_run, Hgone.
Qed.

(** A group exit ends the whole thread group in one transition: what is
    left of the group is its leader, a zombie with the status of the group; the
    CPU goes to a runnable process outside the group or to PID0; every process
    outside the group that is not dispatched is untouched. *)
Theorem lifecycle_exit_group (ops : list Op) (code : Z) (i : nat) (s : ProcessSlot)
    (d : ScheduleDecision) (w' : Lifecycle) :
  let w := exec_all ops boot in
  caller w = Ok i → slots (table w) !! i = Some s → schedule_exit_group code w = (Ok d, w') →
  (∃ k x, slots (table w') !! k = Some x ∧ in_group (thread_group s) x = true) ∧
  (∀ k x, slots (table w') !! k = Some x → in_group (thread_group s) x = true →
     s_pid x = thread_group s ∧ phase x = Zombie ∧ exit_code x = code) ∧
  (∀ k x, slots (table w) !! k = Some x → in_group (thread_group s) x = false →
     slots (table w') !! k = Some x ∨
     is_runnable x = true ∧ slots (table w') !! k = Some (with_phase Running x) ∧
       current_handle w' = Some (handle_of x)) ∧
  (∀ sp, d = User sp → ∃ x, slot_by_handle (table w) (sp_handle sp) = Some x ∧
     is_runnable x = true ∧ thread_group x ≠ thread_group s).
Proof.
  intros w Hc Hi Hex. pose proof (reachable_wf ops : wf w) as Hw. pose proof (wf_table _ Hw) as Ht.
  assert (wf w') as Hw'.
  { pose proof (st_wf _ _ (exec_steps (OpExitGroup code) w Hw)) as H. simpl in H. by rewrite Hex in H. }
  destruct (exit_group_cases code w Hw) as [[x Hx]|(i' & s' & leader & e & index & Hi' & Hr & Hl & He & Hidx & Hx)];
    rewrite Hex in Hx; [done|]. injection Hx as -> ->.
  rewrite (caller_running w i' s') in Hc by done. injection Hc as ->. assert (s' = s) as -> by congruence.
  apply position_lookup in Hl as (y & Hy & Hl). split_and!.
  - exists leader, (exited code e y). split; [by apply group_exit_leader|].
    apply leads_iff in Hl as (? & ? & ?). by apply in_group_iff.
  - intros k x Hk Hg. destruct (group_exit_members w code e leader s y index Hy Hl Hidx k x Hk Hg) as [-> ->].
    apply leads_iff in Hl as (_ & ? & _). done.
  - intros k x Hk Hg. by eapply (group_exit_others w code e leader s).
  - intros sp Hd. destruct index as [j|]; [|done]. injection Hd as <-.
    destruct (Hidx j eq_refl) as (x & Hx & Hrx & Hout). exists x. simpl. rewrite (slot_at_Some _ _ _ _ Hx).
    apply is_runnable_iff in Hrx as Hr'. split_and!; [|done|].
    + apply find_Some_iff; [done|]. exists j. split_and!; [done|apply Hr'|done].
    + intros Heq. unfold in_group in Hout. destruct Hr' as [Ho _]. by rewrite Ho, Heq, Z.eqb_refl in Hout.
Qed.

(** ** Sleepers *)

(** No process has been put to sleep. *)
Definition no_sleeper (w w' : Lifecycle) : Prop :=
  ∀ i s, slots (table w') !! i = Some s → phase s = Blocked → slots (table w) !! i = Some s.

Lemma no_sleeper_refl w : no_sleeper w w.
Proof. by intros i s Hi _. Qed.

Lemma no_sleeper_trans w w1 w2 : no_sleeper w w1 → no_sleeper w1 w2 → no_sleeper w w2.
Proof. intros H1 H2 i s Hi Hp. by apply H1; [apply H2|]. Qed.

Lemma no_sleeper_alter w w' k f :
  slots (table w') = alter f k (slots (table w)) → (∀ s, phase (f s) ≠ Blocked) → no_sleeper w w'.
Proof.
  intros Hsl Hf i s. rewrite Hsl. destruct (decide (k = i)) as [->|]; [|by rewrite list_lookup_alter_ne].
  rewrite list_lookup_alter_eq. intros (x & _ & ->)%fmap_Some Hp. by destruct (Hf x).
Qed.

Lemma no_sleeper_footprint B w w' : wf w → wf w' → footprint B w w' → no_sleeper w w'.
Proof.
  intros Hw Hw' Hf i s' Hi Hp. destruct (lookup_lt_is_Some_2 (slots (table w)) i) as [s Hs].
  { rewrite (tw_length _ (wf_table _ Hw)), <- (tw_length _ (wf_table _ Hw')). by eapply lookup_lt_Some. }
  destruct (Hf i s Hs) as (x & Hx & Ht). assert (x = s') as -> by congruence.
  destruct Ht as [|? ? ?|? [_ Hr]%is_running_iff ? ?|? ?|? ?]; [done|done|congruence|done|done].
Qed.

Lemma no_sleeper_handed t index e w : no_sleeper w (handed (target_of t index e) e w).
Proof. destruct index as [j|]; [|by intros i s]. by eapply no_sleeper_alter. Qed.

Lemma no_sleeper_rotates (q : ProcessSlot → Prop) m w :
  (∀ s, q s → phase s ≠ Blocked) → wf w → rotates q m w → no_sleeper w (m w).2.
Proof.
  intros Hq Hw Hrot. unfold rotates in Hrot. destruct (m w) as [[d|x] w']; simpl; [|subst; apply no_sleeper_refl].
  destruct Hrot as (w1 & c & index & Hc & Hsd & Hoth & Hcl & _). pose proof Hsd as [_ _ _ _ _ _ _ ->].
  eapply no_sleeper_trans; [|apply no_sleeper_handed]. intros i s Hi Hp.
  destruct (decide (i = c)) as [->|]; [|by rewrite <- Hoth].
  destruct (caller_Ok w c Hw Hc) as (y & Hy & _). destruct (Hcl y s Hy Hi) as [_ ?%Hq]. done.
Qed.

Lemma no_sleeper_exit_group code w : wf w → no_sleeper w (schedule_exit_group code w).2.
Proof.
  intros Hw. destruct (exit_group_cases code w Hw) as [[x ->]|(i & s & leader & e & index & _ & _ & _ & _ & _ & ->)];
    [apply no_sleeper_refl|]. eapply no_sleeper_trans; [|apply no_sleeper_handed].
  intros k x. simpl. rewrite end_group_lookup. intros (y & Hy & ->)%fmap_Some Hp.
  unfold ended in *. destruct (in_group _ y); [|done]. simpl in *. by destruct (_ =? _)%nat.
Qed.

Lemma no_sleeper_from_pid0 a w : no_sleeper w (schedule_from_pid0 a w).2.
Proof.
  unfold schedule_from_pid0, validate_pid0_authority, select_target. m_unfold.
  destruct (negb _); [|apply no_sleeper_refl]. destruct (existsb _ _); [apply no_sleeper_refl|]. cbn [negb].
  rewrite next_epoch_now_run. destruct (next_scheduler_epoch _) as [e|]; [|apply no_sleeper_refl].
  destruct (position _ _) as [j|]; [|by intros i s]. unfold valid_or, liftR.
  destruct (map_err _ _) as [[]|]; [|apply no_sleeper_refl]. by eapply no_sleeper_alter.
Qed.

Lemma no_sleeper_discard h w : no_sleeper w (discard_runnable_thread h w).2.
Proof.
  unfold discard_runnable_thread, current_user_handle. m_unfold.
  destruct (_ =? _); [apply no_sleeper_refl|]. destruct (decode _); [|apply no_sleeper_refl].
  destruct (slot_by_handle _ _); [|apply no_sleeper_refl]. rewrite index_of_run.
  destruct (position _ _) as [k|]; [|apply no_sleeper_refl].
  destruct (negb _); [|apply no_sleeper_refl]. by eapply no_sleeper_alter.
Qed.

Lemma no_sleeper_mark_running h w : no_sleeper w (mark_running h w).2.
Proof.
  unfold mark_running. m_unfold. destruct (negb _); [|apply no_sleeper_refl].
  destruct (negb (_ || _)); [|apply no_sleeper_refl]. rewrite index_of_run.
  destruct (position _ _) as [k|]; [|apply no_sleeper_refl].
  destruct (phase_eqb _ _); [|apply no_sleeper_refl].
  rewrite next_epoch_now_run. destruct (next_scheduler_epoch _) as [e|]; [|apply no_sleeper_refl].
  by eapply no_sleeper_alter.
Qed.

Lemma no_sleeper_mark_runnable h w : no_sleeper w (mark_runnable h w).2.
Proof.
  destruct (mark_runnable_cases h w) as [->|(k & y & _ & _ & _ & _ & ->)]; [apply no_sleeper_refl|].
  by eapply no_sleeper_alter.
Qed.

(** The operations that put a process to sleep. *)
Definition sleeps (op : Op) : bool :=
  match op with OpBlock _ | OpMarkBlocked _ => true | _ => false end.

Lemma exec_no_sleeper op w : wf w → sleeps op = false → no_sleeper w (exec op w).2.
Proof.
  intros Hw Hs. pose proof (st_wf _ _ (exec_steps op w Hw)) as Hw'.
  assert (∀ B, footprint B w (exec op w).2 → no_sleeper w (exec op w).2) as Hf
    by (intros B; by apply no_sleeper_footprint).
  assert (∀ (q : ProcessSlot → Prop) m, (∀ s, q s → phase s ≠ Blocked) → rotates q (as_user m) w →
    no_sleeper w (m w).2) as Hu
    by (intros q m Hq H; rewrite <- as_user_state; by eapply no_sleeper_rotates).
  assert (∀ p, p ≠ Blocked → ∀ s, phase s = p → phase s ≠ Blocked) as Hne by congruence.
  destruct op; simpl in *; try done.
  - by eapply Hf, footprint_register.
  - by eapply Hf, footprint_commit.
  - by eapply Hf, footprint_clone.
  - apply no_sleeper_discard.
  - apply no_sleeper_mark_running.
  - by eapply Hf, footprint_resume.
  - by eapply Hf, footprint_replace.
  - by eapply Hf, footprint_set_fs.
  - eapply Hu; [by apply (Hne Runnable)|by apply yield_rotates].
  - eapply Hu; [by apply (Hne Runnable)|by apply preempt_rotates].
  - eapply no_sleeper_rotates; [by apply (Hne Zombie)|done|by apply exit_rotates].
  - by apply no_sleeper_exit_group.
  - eapply no_sleeper_rotates; [by apply (Hne Free)|done|by apply thread_exit_rotates].
  - apply no_sleeper_from_pid0.
  - apply no_sleeper_mark_runnable.
  - by eapply Hf, footprint_reap.
  - rewrite publish_current_run by done. apply no_sleeper_refl.
Qed.

(** ** Who has the CPU *)

(** The published identity is PID0's or that of a running process. *)
Definition settled (w : Lifecycle) : Prop :=
  CURRENT_EXECUTION w = PID0_IDENTITY ∨
  ∃ i s, slots (table w) !! i = Some s ∧ is_running s = true.

Lemma settled_switches m w : switches m w → settled w → settled (m w).2.
Proof.
  unfold switches. destruct (m w) as [[d|] w']; [|by intros ->]. intros (w1 & index & Hsd) _.
  destruct Hsd as [_ _ Hidx _ _ _ _ ->]. destruct index as [j|]; [|by left]. right.
  destruct (Hidx j eq_refl) as (x & Hx & [Ho _]%is_runnable_iff). exists j, (with_phase Running x).
  simpl. rewrite list_lookup_alter_eq, Hx. split; [done|]. by apply is_running_iff.
Qed.

Lemma settled_footprint B w w' :
  footprint B w w' → CURRENT_EXECUTION w' = CURRENT_EXECUTION w → settled w → settled w'.
Proof.
  intros Hf Hc [?|(i & s & Hi & Hr)]; [left; congruence|right].
  destruct (Hf i s Hi) as (s' & Hs' & Ht). exists i, s'. split; [done|].
  destruct (touched_active _ _ _ Ht) as [(_ & Ho & _) Hp]; [unfold active; by rewrite Hr|].
  apply is_running_iff. apply is_running_iff in Hr as [_ ?]. split; [done|congruence].
Qed.

(** The operations that change the published identity are the switches. *)
Lemma exec_current op w :
  wf w → switching op = false →
  match op with OpMarkRunning _ | OpExitGroup _ | OpFromPid0 _ => False | _ => True end →
  CURRENT_EXECUTION (exec op w).2 = CURRENT_EXECUTION w.
Proof.
  intros Hw Hs Hop. destruct op; try done; simpl.
  - unfold register_init. m_unfold. by repeat case_match; simplify_eq.
  - unfold commit_child. m_unfold. destruct (take_pid_run w Hw) as (k & Hk & _).
    destruct (negb _); [|done]. destruct (slot_by_pid _ _); [|done]. destruct (negb _); [|done].
    rewrite Hk. destruct (position _ _); [|done]. by destruct (checked_add _ _ _).
  - by destruct (clone_cases c stack fs w Hw) as [[x ->]|[(x & k & Hm & ->)|
      (i & ci & k & s & x & e & _ & _ & _ & _ & _ & _ & _ & _ & _ & _ & ->)]].
  - unfold discard_runnable_thread, current_user_handle, index_of. m_unfold. by repeat case_match; simplify_eq.
  - unfold resume_current, next_epoch_now, valid_or, liftR. m_unfold. rewrite running_current_run.
    by repeat case_match; simplify_eq.
  - unfold replace_current_image, current_user_handle, next_epoch_now, valid_or, liftR. m_unfold.
    destruct (_ =? _); [done|]. destruct (decode _) as [h|]; [|done].
    destruct (replacement_index_run h w Hw) as [[x ->]|(i & s & _ & _ & _ & _ & _ & _ & ->)]; [done|].
    by repeat case_match; simplify_eq.
  - unfold set_current_fs_base. m_unfold. destruct (valid_user_tls_base base); [|done].
    rewrite running_current_run. by destruct (caller w).
  - unfold mark_runnable, index_of. m_unfold. by repeat case_match; simplify_eq.
  - unfold mark_blocked, require_running, index_of. m_unfold. by repeat case_match; simplify_eq.
  - unfold reap_child, index_of. m_unfold. by repeat case_match; simplify_eq.
  - by rewrite publish_current_run.
Qed.

Lemma settled_discard h w : settled w → settled (discard_runnable_thread h w).2.
Proof.
  intros Hs. unfold discard_runnable_thread, current_user_handle. m_unfold.
  destruct (_ =? _); [done|]. destruct (decode _); [|done]. destruct (slot_by_handle _ _); [|done].
  rewrite index_of_run. destruct (position _ _) as [k|]; [|done].
  destruct (phase_eqb _ _) eqn:Hp; [|done]. destruct (negb _); [|done].
  apply bool_decide_eq_true in Hp. destruct Hs as [|(i & s & Hi & [Ho Hr]%is_running_iff)]; [by left|].
  right. exists i, s. simpl. split; [|by apply is_running_iff]. rewrite list_lookup_alter_ne; [done|].
  intros ->. rewrite (slot_at_Some _ _ _ _ Hi) in Hp. congruence.
Qed.

Lemma settled_mark_running h w : settled w → settled (mark_running h w).2.
Proof.
  intros Hs. unfold mark_running. m_unfold. destruct (negb _); [|done].
  destruct (negb (_ || _)); [|done]. rewrite index_of_run.
  destruct (position _ _) as [k|] eqn:Hk; [|done]. destruct (phase_eqb _ _); [|done].
  rewrite next_epoch_now_run. destruct (next_scheduler_epoch _) as [e|]; [|done].
  apply position_lookup in Hk as (x & Hx & [Ho _]%is_slot_iff).
  right. eexists k, _. simpl. rewrite list_lookup_alter_eq, Hx. split; [done|]. by apply is_running_iff.
Qed.

Definition marks (op : Op) : bool :=
  match op with OpMarkRunnable _ | OpMarkBlocked _ => true | _ => false end.

Lemma exec_settled op w : wf w → marks op = false → settled w → settled (exec op w).2.
Proof.
  intros Hw Hop Hs.
  assert (∀ B, switching op = false →
    match op with OpMarkRunning _ | OpExitGroup _ | OpFromPid0 _ => False | _ => True end →
    footprint B w (exec op w).2 → settled (exec op w).2) as Hf.
  { intros B Hsw Hm Hfp. eapply settled_footprint; [done|by apply exec_current|done]. }
  assert (∀ q m, rotates q m w → settled (m w).2) as Hr
    by (intros q m H; by eapply settled_switches; [eapply rotates_switches|]).
  assert (∀ q m, rotates q (as_user m) w → settled (m w).2) as Hu
    by (intros q m H; rewrite <- as_user_state; by eapply Hr).
  destruct op; try done.
  - eapply Hf; [done..|]. apply footprint_register.
  - eapply Hf; [done..|]. by apply footprint_commit.
  - eapply Hf; [done..|]. by apply footprint_clone.
  - by apply settled_discard.
  - by apply settled_mark_running.
  - eapply Hf; [done..|]. by apply footprint_resume.
  - eapply Hf; [done..|]. by apply footprint_replace.
  - eapply Hf; [done..|]. by apply footprint_set_fs.
  - by eapply Hu, yield_rotates.
  - by eapply Hu, preempt_rotates.
  - by eapply Hr, block_rotates.
  - by eapply Hr, exit_rotates.
  - by apply settled_switches; [apply exit_group_switches|].
  - by eapply Hr, thread_exit_rotates.
  - by apply settled_switches; [apply from_pid0_switches|].
  - eapply Hf; [done..|]. apply footprint_reap.
  - simpl. by rewrite publish_current_run.
Qed.

(** ** Witnesses *)

Definition sample_launch (seed : Z) : ProcessLaunch :=
  mkLaunch (0x1000 + seed * 0x1000) 0x2000 0x8000 (KERNEL_ADDRESS_MINIMUM + seed * 0x4000)
    (Z.max seed 1) (Z.max seed 1) seed 10 LinuxX86_64.
Definition sample_saved : SavedUserContext := initial 0x2000 0x8000.
Definition init_handle : ProcessHandle := mkHandle INIT_PID 1.
Definition child_handle : ProcessHandle := mkHandle 2 2.

(** Init runs and has installed one child. *)
Definition two_processes : list Op :=
  [OpRegister (sample_launch 1); OpMarkRunning init_handle; OpCommit INIT_PID (sample_launch 2)].
(** The child has been dispatched. *)
Definition child_runs : list Op := two_processes ++ [OpYield sample_saved].
(** The child has a second thread. *)
Definition threaded_child : list Op := child_runs ++ [OpClone sample_saved 0x9000 0x7000].

Definition slot_of (w : Lifecycle) (i : nat) : ProcessSlot := slot_at EMPTY (slots (table w)) i.

Lemma lifecycle_state_machine_witness :
  ∃ s s', slots (table (exec_all two_processes boot)) !! 1%nat = Some s ∧
    slots (table (exec (OpYield sample_saved) (exec_all two_processes boot)).2) !! 1%nat = Some s' ∧
    slot_step (born (table (exec_all two_processes boot))
      (table (exec (OpYield sample_saved) (exec_all two_processes boot)).2)) s s'.
Proof. apply (lifecycle_state_machine two_processes (OpYield sample_saved) 1). unfold MAXIMUM_PROCESSES. lia. Defined.

Definition child_dispatch : ScheduledProcess :=
  mkScheduled child_handle
    (mkDispatch (initial 0x2000 0x8000) 0x3000 (KERNEL_ADDRESS_MINIMUM + 2 * 0x4000) 0) 2.

Lemma lifecycle_return_authority_witness :
  let w' := (exec (OpYield sample_saved) (exec_all two_processes boot)).2 in
  authorize_user_return (authorized_return child_dispatch) w' = (Ok child_dispatch, w') ∧
  (∀ a sp', (authorize_user_return a w').1 = Ok sp' → a = authorized_return child_dispatch) ∧
  (∀ ops1 op1 ops2, (exec op1 (exec_all ops1 w')).1 ≠ None →
     (authorize_user_return (authorized_return child_dispatch)
        (exec_all ops2 (exec op1 (exec_all ops1 w')).2)).1 = Err StaleDispatchAuthority).
Proof.
  apply (lifecycle_return_authority two_processes (OpYield sample_saved)). vm_compute. reflexivity.
Defined.

Lemma lifecycle_round_robin_witness :
  ∃ ops1 ops2, replicate 63 (OpYield sample_saved) = ops1 ++ ops2 ∧
    current_handle (exec_all ops1 (exec_all two_processes boot)) = Some child_handle.
Proof.
  apply (lifecycle_round_robin two_processes (replicate 63 (OpYield sample_saved)) 0 1
    (slot_of (exec_all two_processes boot) 1)).
  - vm_compute. reflexivity.
  - vm_compute. reflexivity.
  - vm_compute. reflexivity.
  - vm_compute. reflexivity.
  - vm_compute. reflexivity.
Defined.

(** The child exits, is reaped, and another child is installed. *)
Definition child_gone : list Op := child_runs ++ [OpExit 7; OpReap INIT_PID child_handle].

Lemma lifecycle_identity_not_reused_witness :
  snapshot_exact child_handle
    (exec_all [OpCommit INIT_PID (sample_launch 3)] (exec_all child_gone boot)) = None.
Proof.
  apply (lifecycle_identity_not_reused child_gone [OpCommit INIT_PID (sample_launch 3)] child_handle).
  - vm_compute. reflexivity.
  - vm_compute. done.
  - vm_compute. reflexivity.
Defined.

(** Init and a child run, init exits and is collected, the child's own child
    takes the slot init had, and init is registered anew, in a slot never used
    before: init's first handle, dead in between, resolves again. *)
Definition init_gone : list Op :=
  two_processes ++ [OpExit 0; OpReap NO_PID init_handle; OpCommit 2 (sample_launch 3)].

Lemma lifecycle_init_handle_returns :
  let w := exec_all init_gone boot in
  snapshot_exact init_handle w = None ∧
  ps_launch <$> snapshot_exact init_handle (exec_all [OpRegister (sample_launch 4)] w) = Some (sample_launch 4).
Proof. vm_compute. done. Qed.

Lemma lifecycle_commit_child_witness :
  let w := exec_all two_processes boot in
  ∃ h w', commit_child INIT_PID (sample_launch 3) w = (Ok h, w') ∧ snapshot (pid h) w = None ∧
    snapshot_exact h w' =
      Some (mkSnapshot h (pid h) INIT_PID Runnable (sample_launch 3) 0 (scheduler_epoch (table w))) ∧
    ∀ h', h' ≠ h → snapshot_exact h' w' = snapshot_exact h' w.
Proof.
  intros w. pose proof (lifecycle_commit_child two_processes INIT_PID (sample_launch 3)
    (slot_snapshot (slot_of (exec_all two_processes boot) 0))
    ltac:(done) ltac:(vm_compute; reflexivity) ltac:(vm_compute; reflexivity)
    ltac:(vm_compute; discriminate)) as H.
  assert (position claimable (slots (table (exec_all two_processes boot))) = Some 2%nat) as Hp
    by (vm_compute; reflexivity).
  cbv zeta in H. rewrite Hp in H. exact H.
Defined.

(** The decision of a successful scheduling call. *)
Definition chosen (r : Result ScheduleDecision LifecycleError) : ScheduleDecision :=
  match r with Ok d => d | Err _ => Pid0 (pid0_authority 0) end.

Definition running_child (c : SavedUserContext) : ProcessSlot :=
  with_phase Running (with_context c (launched 2 2 2 INIT_PID (sample_launch 2) 1)).

(** What happens between the exit of the child and its collection: a vain
    attempt to wake it, a stranger's attempt to reap it, and a group exit of
    another group. *)
Definition meanwhile : list Op :=
  [OpYield sample_saved; OpMarkRunnable child_handle; OpReap 7 child_handle; OpExitGroup 3].

Lemma lifecycle_exit_status_once_witness :
  let w2 := exec_all meanwhile (schedule_exit 7 (exec_all child_runs boot)).2 in
  (∃ snap, wait_child INIT_PID (Some 2) w2 = (Ok snap, w2) ∧
     ps_handle snap = child_handle ∧ ps_exit_code snap = 7) ∧
  ∃ w3, reap_child INIT_PID child_handle w2 = (Ok 7, w3) ∧
    snapshot_exact child_handle w3 = None ∧
    ∀ p, reap_child p child_handle w3 = (Err InvalidHandle, w3).
Proof.
  apply (lifecycle_exit_status_once child_runs meanwhile 7 1 (running_child (initial 0x2000 0x8000))
    (chosen (schedule_exit 7 (exec_all child_runs boot)).1)
    (schedule_exit 7 (exec_all child_runs boot)).2).
  - vm_compute. reflexivity.
  - vm_compute. reflexivity.
  - apply injective_projections; [vm_compute; reflexivity|reflexivity].
  - vm_compute. reflexivity.
Defined.

(** A group exit called from the zombie's own thread group replaces the status
    the zombie exited with: the leader exits with 7, its second thread ends the
    group with 9, and the parent collects 9. *)
Lemma lifecycle_group_exit_restates :
  (reap_child INIT_PID child_handle (exec_all [OpExit 7] (exec_all threaded_child boot))).1 = Ok 7 ∧
  (reap_child INIT_PID child_handle
     (exec_all [OpExit 7; OpExitGroup 9] (exec_all threaded_child boot))).1 = Ok 9.
Proof. vm_compute. done. Qed.

Lemma lifecycle_exit_group_witness :
  let w := exec_all threaded_child boot in
  let w' := (schedule_exit_group 9 w).2 in
  (∃ k x, slots (table w') !! k = Some x ∧ in_group 2 x = true) ∧
  (∀ k x, slots (table w') !! k = Some x → in_group 2 x = true →
     s_pid x = 2 ∧ phase x = Zombie ∧ exit_code x = 9).
Proof.
  intros w w'. destruct (lifecycle_exit_group threaded_child 9 1
    (running_child (set_syscall_result 3 sample_saved)) (chosen (schedule_exit_group 9 w).1) w')
    as (H1 & H2 & _).
  - vm_compute. reflexivity.
  - vm_compute. reflexivity.
  - apply injective_projections; [vm_compute; reflexivity|reflexivity].
  - exact (conj H1 H2).
Defined.

(** ** A thread group that outlives its leader *)

(** The leader of a two-thread group exits alone, its parent reaps it, and the
    remaining thread is dispatched. *)
Definition orphaned_thread : list Op :=
  threaded_child ++ [OpExit 0; OpYield sample_saved; OpReap INIT_PID child_handle; OpYield sample_saved].

(** The remaining thread runs, but neither ending its group nor collecting its
    members succeeds: no slot leads the group any more. The system-call path
    halts the machine on either failure. *)
Lemma lifecycle_orphaned_thread_group :
  let w := exec_all orphaned_thread boot in
  ps_phase <$> snapshot_exact (mkHandle 3 2) w = Some Running ∧
  snapshot_exact child_handle w = None ∧
  (schedule_exit_group 0 w).1 = Err InvalidHandle ∧
  (current_thread_group_handles w).1 = Err InvalidHandle.
Proof. vm_compute. done. Qed.
