(* ===== verification/Futex.v ===== *)
(** * Private futexes (linux_futex.rs)

    The table of waiters keyed by address space and address, and the wait and
    wake calls over it and the process lifecycle. The queue lock is held across
    the comparison of the user word, the insertion and the block, so a call is
    one transition of [FutexWorld].

    The table refines a first-in first-out queue. Over runs of the system the
    queued waiters are exactly the blocked processes, so no sleeper is lost,
    and a wake readies exactly the longest waiting ones. *)

From stdpp Require Import prelude list numbers option sorting.
From Stdlib Require Import ZArith Lia.
From S2P Require Import Prelude.
From S2P Require Import Handles.
From S2P Require Import Context.
From S2P Require Import Lifecycle.
From S2P Require Import Scheduling.

Definition MAXIMUM_FUTEX_WAITERS : nat := MAXIMUM_PROCESSES.
Definition FUTEX_WORD_BYTES : Z := 4.

Record FutexKey := mkKey {
  key_root : Z;
  key_address : Z;
}.

#[global] Instance FutexKey_eq_dec : EqDecision FutexKey.
Proof. solve_decision. Defined.

Record FutexWaiter := mkWaiter {
  w_owner : ProcessHandle;
  w_key : FutexKey;
  w_sequence : Z;
}.

Definition EMPTY_WAITER : FutexWaiter := mkWaiter NO_PROCESS (mkKey 0 0) 0.

(** [FutexWaiter::occupied] *)
Definition waits (x : FutexWaiter) : bool :=
  valid_owner (w_owner x) && negb (w_sequence x =? 0).

Record FutexTable := mkFutexes {
  waiters : list FutexWaiter;
  next_sequence : Z;
}.

(** [FutexTable::new] *)
Definition new_futexes : FutexTable := mkFutexes (replicate MAXIMUM_FUTEX_WAITERS EMPTY_WAITER) 1.

Inductive FutexQueueError := InvalidOwner | InvalidAddress | AlreadyWaiting | QueueCapacity.

Inductive FutexWaitError (E : Type) :=
| Queue (e : FutexQueueError)
| UserMemory (e : E)
| ValueChanged
| LifecycleFailed (e : LifecycleError).
Arguments Queue {E}.
Arguments UserMemory {E}.
Arguments ValueChanged {E}.
Arguments LifecycleFailed {E}.

Abbreviation FM := (M FutexTable FutexQueueError).

(** [waiter.occupied() && waiter.owner == owner] *)
Definition waits_for (h : ProcessHandle) (x : FutexWaiter) : bool :=
  waits x && handle_eqb (w_owner x) h.

(** [waiter.occupied() && waiter.key == key] *)
Definition waits_on (k : FutexKey) (x : FutexWaiter) : bool :=
  waits x && bool_decide (w_key x = k).

Definition contains_owner (t : FutexTable) (h : ProcessHandle) : bool :=
  existsb (waits_for h) (waiters t).

Definition enqueue (h : ProcessHandle) (k : FutexKey) : FM unit :=
  t ← getS;
  ensure (negb (contains_owner t h)) AlreadyWaiting;;
  let sequence := next_sequence t in
  next ← ok_or (checked_add U64_MAX sequence 1) QueueCapacity;
  i ← ok_or (position (λ x, negb (waits x)) (waiters t)) QueueCapacity;
  putS (mkFutexes (<[i := mkWaiter h k sequence]> (waiters t)) next).

(** [min_by_key(|(_, waiter)| waiter.sequence)] over the waiters on [k] from
    position [i], [best] being the minimum so far: the first one of least
    sequence. *)
Fixpoint oldest_from (k : FutexKey) (i : nat) (best : option (nat * Z)) (l : list FutexWaiter) :
    option (nat * Z) :=
  match l with
  | [] => best
  | x :: l =>
      let best :=
        if waits_on k x
        then match best with
             | Some (_, s) => if w_sequence x <? s then Some (i, w_sequence x) else best
             | None => Some (i, w_sequence x)
             end
        else best in
      oldest_from k (S i) best l
  end.

Definition oldest (k : FutexKey) (l : list FutexWaiter) : option nat :=
  fst <$> oldest_from k 0 None l.

Definition take_oldest (k : FutexKey) (t : FutexTable) : option ProcessHandle * FutexTable :=
  match oldest k (waiters t) with
  | None => (None, t)
  | Some i =>
      (Some (w_owner (slot_at EMPTY_WAITER (waiters t) i)),
       mkFutexes (<[i := EMPTY_WAITER]> (waiters t)) (next_sequence t))
  end.

Definition cancel (h : ProcessHandle) (t : FutexTable) : bool * FutexTable :=
  match position (waits_for h) (waiters t) with
  | None => (false, t)
  | Some i => (true, mkFutexes (<[i := EMPTY_WAITER]> (waiters t)) (next_sequence t))
  end.

Definition valid_address (address : Z) : bool :=
  (USER_ADDRESS_MINIMUM <=? address)
  && (address mod FUTEX_WORD_BYTES =? 0)
  && match checked_add U64_MAX address FUTEX_WORD_BYTES with
     | Some last => last <=? USER_ADDRESS_LIMIT
     | None => false
     end.

(** The lifecycle and the futex table. *)
Record FutexWorld := mkFutexWorld {
  life : Lifecycle;
  futexes : FutexTable;
}.

Definition current_owner_and_key (address : Z) (w : Lifecycle) :
    Result (ProcessHandle * FutexKey) FutexQueueError :=
  if negb (valid_address address) then Err InvalidAddress
  else
    match current_handle w with
    | None => Err InvalidOwner
    | Some owner =>
        match snapshot_exact owner w with
        | None => Err InvalidOwner
        | Some s => Ok (owner, mkKey (address_space_root (ps_launch s)) address)
        end
    end.

Section Calls.
Context {E : Type}.

Definition on_futexes {A F} (f : FutexQueueError → F) (m : FM A) : M FutexWorld F A :=
  zoom futexes (λ t w, mkFutexWorld (life w) t) f m.
Definition on_life {A F} (f : LifecycleError → F) (m : LM A) : M FutexWorld F A :=
  zoom life (λ l w, mkFutexWorld l (futexes w)) f m.

(** [wait_current]; [word] is what reading the user word gives. *)
Definition wait_current (address expected : Z) (saved : SavedUserContext) (word : Result Z E) :
    M FutexWorld (FutexWaitError E) ScheduleDecision :=
  w ← getS;
  match current_owner_and_key address (life w) with
  | Err e => throw (Queue e)
  | Ok (owner, key) =>
      ensure (negb (contains_owner (futexes w) owner)) (Queue AlreadyWaiting);;
      match word with
      | Err e => throw (UserMemory e)
      | Ok observed =>
          ensure (observed =? expected) ValueChanged;;
          on_futexes Queue (enqueue owner key);;
          w ← getS;
          match schedule_block saved (life w) with
          | (Ok decision, l) => putS (mkFutexWorld l (futexes w));; mret decision
          | (Err e, l) =>
              putS (mkFutexWorld l (cancel owner (futexes w)).2);; throw (LifecycleFailed e)
          end
      end
  end.
End Calls.

(** The loop of [wake_current], at most [fuel] rounds; [None] when they do not
    suffice. *)
Fixpoint wake_loop (fuel : nat) (key : FutexKey) (maximum woken : Z) (w : FutexWorld) :
    option (Z * FutexWorld) :=
  match fuel with
  | O => None
  | S fuel =>
      if negb (woken <? maximum) then Some (woken, w)
      else
        match take_oldest key (futexes w) with
        | (None, _) => Some (woken, w)
        | (Some owner, t) =>
            let '(r, l) := mark_runnable owner (life w) in
            wake_loop fuel key maximum (if is_ok r then woken + 1 else woken) (mkFutexWorld l t)
        end
  end.

(** Every round but the last removes a waiter. *)
Definition wake_fuel (w : FutexWorld) : nat := S (countb waits (waiters (futexes w))).

Definition wake_current (address maximum : Z) (w : FutexWorld) :
    option (Result Z FutexQueueError * FutexWorld) :=
  match current_owner_and_key address (life w) with
  | Err e => Some (Err e, w)
  | Ok (_, key) =>
      match wake_loop (wake_fuel w) key maximum 0 w with
      | Some (woken, w') => Some (Ok woken, w')
      | None => None
      end
  end.

Definition cancel_wait (h : ProcessHandle) (w : FutexWorld) : bool * FutexWorld :=
  let '(r, t) := cancel h (futexes w) in (r, mkFutexWorld (life w) t).

(** ** The table as a queue *)

Section Sorted.
Context {A : Type} (R : A → A → Prop).

Lemma sorted_snoc l y :
  StronglySorted R l → Forall (λ x, R x y) l → StronglySorted R (l ++ [y]).
Proof.
  induction 1 as [|x l Hs IH Hx]; intros Hy; simpl; [repeat constructor|].
  inversion_clear Hy. constructor; [by apply IH|]. apply Forall_app. by repeat constructor.
Qed.

Lemma sorted_remove l1 x l2 : StronglySorted R (l1 ++ x :: l2) → StronglySorted R (l1 ++ l2).
Proof.
  induction l1 as [|y l1 IH]; simpl; intros Hs; apply StronglySorted_inv in Hs as [Hs Hy]; [done|].
  constructor; [by apply IH|]. apply Forall_app in Hy as [Hy1 Hy2].
  inversion_clear Hy2. by apply Forall_app.
Qed.

Lemma sorted_before l1 x l2 y : StronglySorted R (l1 ++ x :: l2) → y ∈ l1 → R y x.
Proof.
  induction l1 as [|z l1 IH]; simpl; intros Hs; [by intros ?%elem_of_nil|].
  apply StronglySorted_inv in Hs as [Hs Hz]. intros [->|Hy]%elem_of_cons; [|by apply IH].
  apply Forall_app in Hz as [_ Hz]. by inversion_clear Hz.
Qed.
End Sorted.

Section Slots.
Context {A : Type} (P : A → bool).
Implicit Types (l : list A).
Abbreviation chosen l := (filter (λ x, P x = true) l).

Lemma filter_fill l i x y :
  l !! i = Some x → P x = false → P y = true → chosen (<[i := y]> l) ≡ₚ y :: chosen l.
Proof.
  revert i. induction l as [|z l IH]; intros [|i] Hi Hx Hy; simplify_eq/=.
  - rewrite !filter_cons, Hy, Hx. done.
  - rewrite !filter_cons. specialize (IH i Hi Hx Hy). destruct (decide _); rewrite IH; [constructor|done].
Qed.

Lemma filter_clear l i x y :
  l !! i = Some x → P x = true → P y = false → chosen l ≡ₚ x :: chosen (<[i := y]> l).
Proof.
  revert i. induction l as [|z l IH]; intros [|i] Hi Hx Hy; simplify_eq/=.
  - rewrite !filter_cons, Hy, Hx. done.
  - rewrite !filter_cons. specialize (IH i Hi Hx Hy). destruct (decide _); rewrite IH; [constructor|done].
Qed.

Lemma filter_full l : length (chosen l) = length l ↔ ∀ i x, l !! i = Some x → P x = true.
Proof.
  induction l as [|z l IH]; simpl.
  { split; [intros _ i x; by rewrite lookup_nil|done]. }
  rewrite filter_cons. pose proof (length_filter (λ x, P x = true) l). destruct (decide (P z = true)) as [Hz|Hz]; simpl.
  - split.
    + intros [= Hl] [|i] x Hx; simplify_eq/=; [done|]. by eapply IH.
    + intros H0. f_equal. apply IH. intros i x Hx. by apply (H0 (S i)).
  - split; [lia|]. intros H0. by destruct Hz, (H0 O z).
Qed.
End Slots.

(** [q] is the waiters of [t], longest waiting first. *)
Record represents (t : FutexTable) (q : list FutexWaiter) : Prop := {
  rp_length : length (waiters t) = MAXIMUM_FUTEX_WAITERS;
  rp_perm : q ≡ₚ filter (λ x, waits x = true) (waiters t);
  rp_sorted : StronglySorted (λ a b, w_sequence a < w_sequence b) q;
  rp_next : Forall (λ x, w_sequence x < next_sequence t) q;
  rp_owners : NoDup (w_owner <$> q);
  rp_first : 1 ≤ next_sequence t;
}.

Lemma represents_new : represents new_futexes [].
Proof. split; simpl; try done; constructor. Qed.

Section Represented.
Context (t : FutexTable) (q : list FutexWaiter).
Hypothesis Hq : represents t q.

Lemma represents_elem x : x ∈ q ↔ ∃ i, waiters t !! i = Some x ∧ waits x = true.
Proof.
  rewrite (rp_perm _ _ Hq), list_elem_of_filter, list_elem_of_lookup. naive_solver.
Qed.

Lemma represents_contains h : contains_owner t h = true ↔ h ∈ w_owner <$> q.
Proof.
  unfold contains_owner. rewrite existsb_exists, list_elem_of_fmap. split.
  - intros (x & Hin & [Hw Hh]%andb_true_iff). apply handle_eqb_eq in Hh. exists x. split; [done|].
    apply represents_elem. apply list_elem_of_In, list_elem_of_lookup in Hin as [i Hi]. eauto.
  - intros (x & -> & (i & Hi & Hw)%represents_elem). exists x.
    split; [by apply list_elem_of_In, list_elem_of_lookup_2 with i|].
    unfold waits_for. by rewrite Hw, handle_eqb_refl.
Qed.

(** A free slot exists unless all of them wait. *)
Lemma represents_free :
  position (λ x, negb (waits x)) (waiters t) = None ↔ length q = MAXIMUM_FUTEX_WAITERS.
Proof.
  rewrite (rp_perm _ _ Hq), <- (rp_length _ _ Hq), filter_full, position_None.
  split; intros H i x Hx; [by apply negb_false_iff, (H i)|by apply negb_false_iff; apply (H i)].
Qed.

Lemma represents_bound : (length q ≤ MAXIMUM_FUTEX_WAITERS)%nat.
Proof. rewrite (rp_perm _ _ Hq), <- (rp_length _ _ Hq). apply length_filter. Qed.

(** Clearing the slot of a waiter removes it from the queue. *)
Lemma represents_clear i x :
  waiters t !! i = Some x → waits x = true →
  ∃ q1 q2, q = q1 ++ x :: q2 ∧
    represents (mkFutexes (<[i := EMPTY_WAITER]> (waiters t)) (next_sequence t)) (q1 ++ q2).
Proof.
  intros Hi Hx. assert (x ∈ q) as (q1 & q2 & ->)%list_elem_of_split by (apply represents_elem; eauto).
  exists q1, q2. split; [done|]. destruct Hq as [Hl Hp Hs Hn Ho Hf]. split; simpl.
  - by rewrite length_insert.
  - rewrite (filter_clear waits _ i x EMPTY_WAITER Hi Hx eq_refl) in Hp.
    rewrite <- Permutation_middle in Hp. by apply Permutation_cons_inv in Hp.
  - by eapply sorted_remove.
  - apply Forall_app in Hn as [H1 H2]. inversion_clear H2. by apply Forall_app.
  - rewrite fmap_app in *. simpl in Ho. apply NoDup_app in Ho as (H1 & H2 & H3).
    apply NoDup_cons in H3 as [_ H3]. apply NoDup_app. split_and!; [done| |done].
    intros o Ho1 Ho2. by apply (H2 o Ho1); right.
  - done.
Qed.

(** Filling a free slot appends to the queue. *)
Lemma represents_fill i x h k :
  waiters t !! i = Some x → waits x = false → valid_owner h = true → h ∉ w_owner <$> q →
  represents (mkFutexes (<[i := mkWaiter h k (next_sequence t)]> (waiters t)) (next_sequence t + 1))
    (q ++ [mkWaiter h k (next_sequence t)]).
Proof.
  intros Hi Hx Hh Hno. destruct Hq as [Hl Hp Hs Hn Ho Hf]. split; simpl.
  - by rewrite length_insert.
  - rewrite (filter_fill waits _ i x _ Hi Hx), <- Hp.
    + by rewrite Permutation_app_comm.
    + unfold waits. simpl. rewrite Hh. destruct (Z.eqb_spec (next_sequence t) 0); [lia|done].
  - by apply sorted_snoc.
  - apply Forall_app. split; [|repeat constructor; simpl; lia].
    eapply Forall_impl; [done|]. simpl. lia.
  - rewrite fmap_app. apply NoDup_app. split_and!; [done| |apply NoDup_singleton].
    intros o Ho1 Ho2%list_elem_of_singleton. simpl in Ho2. by subst o.
  - lia.
Qed.
End Represented.

(** ** The oldest waiter *)

(** What the scan has found so far: the least sequence among the waiters on
    [k], in the position recorded. *)
Definition best_ok (k : FutexKey) (l : list FutexWaiter) (best : option (nat * Z)) : Prop :=
  match best with
  | None => ∀ j y, l !! j = Some y → waits_on k y = false
  | Some (i, s) =>
      (∃ x, l !! i = Some x ∧ waits_on k x = true ∧ w_sequence x = s) ∧
      ∀ j y, l !! j = Some y → waits_on k y = true → s ≤ w_sequence y
  end.

Lemma oldest_from_ok k l1 l2 best :
  best_ok k l1 best → best_ok k (l1 ++ l2) (oldest_from k (length l1) best l2).
Proof.
  revert l1 best. induction l2 as [|x l2 IH]; intros l1 best Hb; simpl; [by rewrite app_nil_r|].
  replace (S (length l1)) with (length (l1 ++ [x])) by (rewrite length_app; simpl; lia).
  replace (l1 ++ x :: l2) with ((l1 ++ [x]) ++ l2) by by rewrite <- app_assoc. apply IH.
  assert (∀ j y, (l1 ++ [x]) !! j = Some y → l1 !! j = Some y ∨ j = length l1 ∧ y = x) as Hlk.
  { intros j y [?|[? Hj]]%lookup_app_Some; [by left|right]. apply list_lookup_singleton_Some in Hj. lia || naive_solver lia. }
  assert ((l1 ++ [x]) !! length l1 = Some x) as Hx by by rewrite list_lookup_middle.
  destruct (waits_on k x) eqn:Hw; [destruct best as [[i s]|]; [destruct (Z.ltb_spec (w_sequence x) s)|]|].
  - destruct Hb as [_ Hmin]. split; [eauto|]. intros j y [Hy|[_ ->]]%Hlk Hyw; [|lia].
    specialize (Hmin j y Hy Hyw). lia.
  - destruct Hb as [(z & Hz & Hzw) Hmin]. split.
    + exists z. split; [by apply lookup_app_l_Some|done].
    + intros j y [Hy|[_ ->]]%Hlk Hyw; [by eapply Hmin|lia].
  - split; [eauto|]. intros j y [Hy|[_ ->]]%Hlk Hyw; [|lia]. by rewrite (Hb j y Hy) in Hyw.
  - destruct best as [[i s]|].
    + destruct Hb as [(z & Hz & Hzw) Hmin]. split; [exists z; split; [by apply lookup_app_l_Some|done]|].
      intros j y [Hy|[_ ->]]%Hlk Hyw; [by eapply Hmin|congruence].
    + intros j y [Hy|[_ ->]]%Hlk; [by eapply Hb|done].
Qed.

Lemma oldest_spec k l :
  match oldest k l with
  | None => ∀ j y, l !! j = Some y → waits_on k y = false
  | Some i => ∃ x, l !! i = Some x ∧ waits_on k x = true ∧
      ∀ j y, l !! j = Some y → waits_on k y = true → w_sequence x ≤ w_sequence y
  end.
Proof.
  assert (best_ok k [] None) as H0 by by intros j y. pose proof (oldest_from_ok k [] l None H0) as Hb.
  simpl in Hb. unfold oldest. destruct (oldest_from k 0 None l) as [[i s]|]; simpl; [|done].
  destruct Hb as [(x & Hx & Hw & <-) Hmin]. eauto.
Qed.

(** ** The specification: a first-in first-out queue *)

(** The waiting processes with what they wait on, in order of arrival, and the
    number the next arrival gets. *)
Record Fifo := mkFifo {
  pending : list (ProcessHandle * FutexKey);
  arrival : Z;
}.

(** Removes the first element satisfying [p]. *)
Fixpoint remove_first {A} (p : A → bool) (l : list A) : option (A * list A) :=
  match l with
  | [] => None
  | x :: l =>
      if p x then Some (x, l)
      else match remove_first p l with Some (y, l) => Some (y, x :: l) | None => None end
  end.

Inductive QueueOp :=
| QEnqueue (h : ProcessHandle) (k : FutexKey)
| QTake (k : FutexKey)
| QCancel (h : ProcessHandle).

Inductive QueueOut :=
| Enqueued (r : Result unit FutexQueueError)
| Taken (o : option ProcessHandle)
| Cancelled (b : bool).

Definition table_step (op : QueueOp) (t : FutexTable) : QueueOut * FutexTable :=
  match op with
  | QEnqueue h k => let '(r, t) := enqueue h k t in (Enqueued r, t)
  | QTake k => let '(o, t) := take_oldest k t in (Taken o, t)
  | QCancel h => let '(b, t) := cancel h t in (Cancelled b, t)
  end.

Definition fifo_step (op : QueueOp) (f : Fifo) : QueueOut * Fifo :=
  match op with
  | QEnqueue h k =>
      if existsb (λ e, handle_eqb e.1 h) (pending f) then (Enqueued (Err AlreadyWaiting), f)
      else if (U64_MAX <=? arrival f) || (MAXIMUM_FUTEX_WAITERS <=? length (pending f))%nat
      then (Enqueued (Err QueueCapacity), f)
      else (Enqueued (Ok tt), mkFifo (pending f ++ [(h, k)]) (arrival f + 1))
  | QTake k =>
      match remove_first (λ e, bool_decide (e.2 = k)) (pending f) with
      | None => (Taken None, f)
      | Some (e, rest) => (Taken (Some e.1), mkFifo rest (arrival f))
      end
  | QCancel h =>
      match remove_first (λ e, handle_eqb e.1 h) (pending f) with
      | None => (Cancelled false, f)
      | Some (_, rest) => (Cancelled true, mkFifo rest (arrival f))
      end
  end.

Fixpoint outputs {S} (step : QueueOp → S → QueueOut * S) (ops : list QueueOp) (s : S) : list QueueOut :=
  match ops with
  | [] => []
  | op :: ops => let '(o, s) := step op s in o :: outputs step ops s
  end.

(** Processes that can wait: real generations. *)
Definition op_ok (op : QueueOp) : Prop :=
  match op with QEnqueue h _ => valid_owner h = true | _ => True end.

Definition entry (x : FutexWaiter) : ProcessHandle * FutexKey := (w_owner x, w_key x).

Definition refines (t : FutexTable) (f : Fifo) : Prop :=
  ∃ q, represents t q ∧ pending f = entry <$> q ∧ arrival f = next_sequence t.

Lemma remove_first_split {A} (p : A → bool) l1 x l2 :
  (∀ y, y ∈ l1 → p y = false) → p x = true → remove_first p (l1 ++ x :: l2) = Some (x, l1 ++ l2).
Proof.
  induction l1 as [|y l1 IH]; intros Hl Hx; simpl; [by rewrite Hx|].
  rewrite (Hl y) by left. rewrite IH; [done| |done]. intros z Hz. apply Hl. by right.
Qed.

Lemma remove_first_None {A} (p : A → bool) l : (∀ y, y ∈ l → p y = false) → remove_first p l = None.
Proof.
  induction l as [|y l IH]; intros Hl; simpl; [done|].
  rewrite (Hl y) by left. rewrite IH; [done|]. intros z Hz. apply Hl. by right.
Qed.

Section Steps.
Context (t : FutexTable) (q : list FutexWaiter).
Hypothesis Hq : represents t q.

(** Taking returns the longest waiting process on the key. *)
Lemma take_oldest_run k :
  (∃ q1 x q2 t', q = q1 ++ x :: q2 ∧ w_key x = k ∧ (∀ y, y ∈ q1 → w_key y ≠ k) ∧
     take_oldest k t = (Some (w_owner x), t') ∧ next_sequence t' = next_sequence t ∧
     represents t' (q1 ++ q2)) ∨
  take_oldest k t = (None, t) ∧ ∀ y, y ∈ q → w_key y ≠ k.
Proof.
  unfold take_oldest. pose proof (oldest_spec k (waiters t)) as Ho.
  destruct (oldest k (waiters t)) as [i|].
  - left. destruct Ho as (x & Hi & [Hx Hk%bool_decide_eq_true]%andb_true_iff & Hmin).
    destruct (represents_clear t q Hq i x Hi Hx) as (q1 & q2 & Heq & Hr). subst q.
    exists q1, x, q2. rewrite (slot_at_Some _ _ _ _ Hi). eexists. split_and!; try done.
    intros y Hy Hyk. pose proof (sorted_before _ _ _ _ _ (rp_sorted _ _ Hq) Hy) as Hlt. simpl in Hlt.
    destruct (proj1 (represents_elem t _ Hq y)) as (j & Hj & Hyw); [by apply elem_of_app; left|].
    specialize (Hmin j y Hj). unfold waits_on in Hmin. rewrite Hyw, bool_decide_true in Hmin by done.
    specialize (Hmin eq_refl). lia.
  - right. split; [done|]. intros y (j & Hj & Hyw)%(represents_elem t q Hq) Hk. specialize (Ho j y Hj).
    unfold waits_on in Ho. by rewrite Hyw, bool_decide_true in Ho.
Qed.

Lemma cancel_run h :
  (∃ q1 x q2 t', q = q1 ++ x :: q2 ∧ w_owner x = h ∧ (∀ y, y ∈ q1 ++ q2 → w_owner y ≠ h) ∧
     cancel h t = (true, t') ∧ next_sequence t' = next_sequence t ∧ represents t' (q1 ++ q2)) ∨
  cancel h t = (false, t) ∧ ∀ y, y ∈ q → w_owner y ≠ h.
Proof.
  unfold cancel. destruct (position (waits_for h) (waiters t)) as [i|] eqn:Hp.
  - left. apply position_lookup in Hp as (x & Hi & [Hx Hh%handle_eqb_eq]%andb_true_iff).
    destruct (represents_clear t q Hq i x Hi Hx) as (q1 & q2 & Heq & Hr). subst q.
    exists q1, x, q2. eexists. split_and!; try done. intros y Hy Hyh.
    pose proof (rp_owners _ _ Hq) as Hnd. rewrite <- Permutation_middle in Hnd. simpl in Hnd.
    apply NoDup_cons in Hnd as [Hno _]. apply Hno. rewrite Hh, <- Hyh. by apply list_elem_of_fmap_2.
  - right. split; [done|]. intros y (j & Hj & Hyw)%(represents_elem t q Hq) Hyh.
    pose proof (proj1 (position_None _ _) Hp j y Hj) as Hf. unfold waits_for in Hf.
    by rewrite Hyw, (proj2 (handle_eqb_eq _ _) Hyh) in Hf.
Qed.

Lemma enqueue_run h k :
  valid_owner h = true →
  enqueue h k t =
    (if bool_decide (h ∈ w_owner <$> q) then (Err AlreadyWaiting, t)
     else if (U64_MAX <=? next_sequence t) || (MAXIMUM_FUTEX_WAITERS <=? length q)%nat
     then (Err QueueCapacity, t)
     else (Ok tt, (enqueue h k t).2)) ∧
  (h ∉ w_owner <$> q → next_sequence t < U64_MAX → (length q < MAXIMUM_FUTEX_WAITERS)%nat →
     next_sequence (enqueue h k t).2 = next_sequence t + 1 ∧
     represents (enqueue h k t).2 (q ++ [mkWaiter h k (next_sequence t)])).
Proof.
  intros Hh. unfold enqueue. m_unfold.
  assert (contains_owner t h = bool_decide (h ∈ w_owner <$> q)) as ->.
  { apply eq_bool_prop_intro. rewrite bool_decide_spec. rewrite <- (represents_contains t q Hq).
    by destruct (contains_owner t h). }
  case_bool_decide as Hin; [by split|]. cbn [negb].
  pose proof (represents_free t q Hq) as Hfree. pose proof (represents_bound t q Hq) as Hb.
  destruct (Z.leb_spec U64_MAX (next_sequence t)) as [Hmax|Hmax]; cbn [orb].
  - rewrite (proj2 (checked_add_None _ _ _)) by lia. split; [done|]. lia.
  - rewrite (proj2 (checked_add_Some U64_MAX (next_sequence t) 1 (next_sequence t + 1))) by lia.
    destruct (position _ (waiters t)) as [i|] eqn:Hi.
    + destruct (Nat.leb_spec MAXIMUM_FUTEX_WAITERS (length q)).
      { assert (length q = MAXIMUM_FUTEX_WAITERS) as Hfull%Hfree by lia. congruence. }
      split; [done|]. intros _ _ _. split; [done|].
      apply position_lookup in Hi as (x & Hi & Hx%negb_true_iff). by apply (represents_fill t q Hq i x).
    + destruct (Nat.leb_spec MAXIMUM_FUTEX_WAITERS (length q)); [split; [done|lia]|].
      rewrite (proj1 Hfree) in H by done. lia.
Qed.
End Steps.

Lemma refines_step op t f :
  op_ok op → refines t f →
  (table_step op t).1 = (fifo_step op f).1 ∧ refines (table_step op t).2 (fifo_step op f).2.
Proof.
  intros Hop (q & Hq & Hp & Ha). unfold refines. destruct op as [h k|k|h]; simpl in *.
  - destruct (enqueue_run t q Hq h k Hop) as [Hrun Hok].
    assert (existsb (λ e : ProcessHandle * FutexKey, handle_eqb e.1 h) (pending f) = bool_decide (h ∈ w_owner <$> q)) as ->.
    { apply eq_bool_prop_intro. rewrite bool_decide_spec, Hp, Is_true_true, existsb_exists, list_elem_of_fmap.
      setoid_rewrite <- list_elem_of_In. setoid_rewrite list_elem_of_fmap. setoid_rewrite handle_eqb_eq.
      naive_solver. }
    rewrite Hp, Ha, length_fmap. destruct (enqueue h k t) as [r t'] eqn:E. simpl in Hok.
    case_bool_decide as Hin; [injection Hrun as -> ->; eauto|].
    destruct (_ || _) eqn:Hc; [injection Hrun as -> ->; eauto|].
    injection Hrun as ->. apply orb_false_iff in Hc as [?%Z.leb_gt ?%Nat.leb_gt].
    destruct Hok as [Hn Hr]; [done..|]. split; [done|]. eexists. split; [done|].
    simpl. by rewrite fmap_app, Hn.
  - destruct (take_oldest_run t q Hq k) as [(q1 & x & q2 & t' & -> & Hk & Hbefore & -> & Hn & Hr)|[-> Hno]].
    + rewrite Hp, fmap_app. simpl. rewrite remove_first_split.
      * split; [done|]. exists (q1 ++ q2). rewrite fmap_app. split_and!; [done..|simpl; congruence].
      * intros e (y & -> & Hy)%list_elem_of_fmap. apply bool_decide_eq_false. by apply Hbefore.
      * by apply bool_decide_eq_true.
    + rewrite remove_first_None; [eauto|]. intros e He. rewrite Hp in He.
      apply list_elem_of_fmap in He as (y & -> & Hy). apply bool_decide_eq_false. by apply Hno.
  - destruct (cancel_run t q Hq h) as [(q1 & x & q2 & t' & -> & Hh & Hothers & -> & Hn & Hr)|[-> Hno]].
    + rewrite Hp, fmap_app. simpl. rewrite remove_first_split.
      * split; [done|]. exists (q1 ++ q2). rewrite fmap_app. split_and!; [done..|simpl; congruence].
      * intros e (y & -> & Hy)%list_elem_of_fmap. apply handle_eqb_ne, Hothers, elem_of_app. by left.
      * by apply handle_eqb_eq.
    + rewrite remove_first_None; [eauto|]. intros e He. rewrite Hp in He.
      apply list_elem_of_fmap in He as (y & -> & Hy). by apply handle_eqb_ne, Hno.
Qed.

(** C6. The waiter table implements a first-in first-out queue per key: any
    sequence of enqueues, takes and cancellations on the table answers exactly
    as the queue specification, which knows arrivals in order and neither
    slots nor sequence numbers. *)
Theorem futex_fifo_refinement (ops : list QueueOp) :
  Forall op_ok ops →
  outputs table_step ops new_futexes = outputs fifo_step ops (mkFifo [] 1).
Proof.
  assert (∀ t f, refines t f → Forall op_ok ops →
    outputs table_step ops t = outputs fifo_step ops f) as H.
  { induction ops as [|op ops IH]; intros t f Href Hops; [done|]. inversion_clear Hops as [|? ? Hop Hrest].
    destruct (refines_step op t f Hop Href) as [Ho Href']. simpl.
    destruct (table_step op t) as [o t'], (fifo_step op f) as [o' f']. simpl in *. subst o'.
    f_equal. by apply IH. }
  apply H. exists []. split_and!; [apply represents_new|done|done].
Qed.

(** ** Who sleeps *)

(** The process exists and is blocked. *)
Definition asleep (l : Lifecycle) (h : ProcessHandle) : Prop :=
  ∃ i s, slots (table l) !! i = Some s ∧ occupied s = true ∧ phase s = Blocked ∧ handle_of s = h.

Lemma asleep_snapshot l h :
  wf l → asleep l h ↔ ps_phase <$> snapshot_exact h l = Some Blocked.
Proof.
  intros Hw. unfold snapshot_exact. split.
  - intros (i & s & Hi & Ho & Hp & Hh). rewrite (proj2 (find_Some_iff h l s Hw)) by eauto. simpl. by f_equal.
  - intros (ps & Hs & Hp)%fmap_Some. apply fmap_Some in Hs as (s & (i & Hi & Ho & Hh)%find_Some_iff & ->); [|done].
    by exists i, s.
Qed.

(** What the futex code does not itself do with the lifecycle: every operation
    but putting to sleep, waking, and ending a group. *)
Definition ordinary (op : Op) : bool :=
  match op with
  | OpBlock _ | OpMarkBlocked _ | OpMarkRunnable _ | OpExitGroup _ => false
  | _ => true
  end.

Lemma reap_keeps_blocked p h w i s :
  slots (table w) !! i = Some s → phase s = Blocked →
  slots (table (reap_child p h w).2) !! i = Some s.
Proof.
  intros Hi Hp. unfold reap_child. m_unfold. destruct (negb (_ =? _)); [|done].
  rewrite index_of_run. destruct (position _ _) as [k|] eqn:Hk; [|done].
  destruct (_ =? p); [|done]. destruct (phase_eqb _ _) eqn:Hz; [|done]. simpl.
  rewrite list_lookup_alter_ne; [done|]. intros ->.
  rewrite (slot_at_Some _ _ _ _ Hi) in Hz. apply bool_decide_eq_true in Hz. congruence.
Qed.

Lemma asleep_exec op l h :
  wf l → ordinary op = true → asleep (exec op l).2 h ↔ asleep l h.
Proof.
  intros Hw Hop. split; intros (i & s & Hi & Ho & Hp & Hh); exists i, s; split_and!; try done.
  - by apply (exec_no_sleeper op l Hw ltac:(by destruct op) i s).
  - destruct op; try (by apply (exec_keeps _ l i s Hw); [|done|apply parked_iff; auto]).
    all: done || by apply reap_keeps_blocked.
Qed.

(** A hand-over wakes nobody and puts nobody to sleep. *)
Lemma asleep_handed index e l h :
  index_ok (table l) index → asleep (handed (target_of (table l) index e) e l) h ↔ asleep l h.
Proof.
  intros Hidx. unfold asleep. split; intros (i & s & Hi & Ho & Hp & Hh); exists i.
  - rewrite handed_lookup in Hi. apply fmap_Some in Hi as (x & Hx & ->).
    destruct (decide (index = Some i)); [done|]. by exists x.
  - exists s. rewrite handed_lookup, Hi, decide_False; [done|]. intros ->.
    destruct (Hidx i eq_refl) as (x & Hx & [_ Hr]%is_runnable_iff). congruence.
Qed.

Lemma departs_blocked s s1 :
  departs s s1 → is_running s = true → phase s1 = Blocked → occupied s1 = true ∧ handle_of s1 = handle_of s.
Proof.
  intros Hd [Ho Hr]%is_running_iff Hb. destruct Hd as [|s1 Hs|s1 Hs|]; [congruence| |congruence|done].
  by destruct Hs as (_ & Hocc & Hh & _).
Qed.

Lemma asleep_block saved l o d l' h :
  wf l → current_handle l = Some o → schedule_block saved l = (Ok d, l') →
  asleep l' h ↔ asleep l h ∨ h = o.
Proof.
  intros Hw Ho Hb. pose proof (block_rotates saved l Hw) as Hrot. unfold rotates in Hrot. rewrite Hb in Hrot.
  destruct Hrot as (l1 & c & index & Hc & Hsd & Hoth & Hdep & _).
  destruct (caller_Ok l c Hw Hc) as (x & Hx & Hr & _).
  pose proof (current_running l c x Hw Hx Hr) as Hcur.
  destruct Hsd as [_ _ Hidx _ _ Hd _ ->]. rewrite asleep_handed by done. destruct (Hd c x Hx) as (x1 & Hx1 & _).
  destruct (Hdep x x1 Hx Hx1) as [Hdx Hbl]. destruct (departs_blocked _ _ Hdx Hr Hbl) as [Hocc Hh1].
  assert (handle_of x1 = o) as Hox by congruence. unfold asleep. split.
  - intros (i & s & Hi & ? & ? & ?). destruct (decide (i = c)) as [->|Hne]; [right; congruence|].
    left. rewrite Hoth in Hi by done. by exists i, s.
  - intros [(i & s & Hi & ? & Hp & ?)| ->]; [|by exists c, x1]. exists i, s. rewrite Hoth; [done|].
    intros ->. assert (s = x) as -> by congruence. apply is_running_iff in Hr as [_ ?]. congruence.
Qed.

Lemma asleep_wake l o :
  wf l → asleep l o →
  ∃ l', mark_runnable o l = (Ok tt, l') ∧ wf l' ∧ CURRENT_EXECUTION l' = CURRENT_EXECUTION l ∧
    (settled l → settled l') ∧ (∀ h, asleep l' h ↔ asleep l h ∧ h ≠ o).
Proof.
  intros Hw (i & s & Hi & Ho & Hp & Hh).
  assert (mark_runnable o l = (Ok tt, on_slot i (with_phase Runnable) l)) as Hrun.
  { unfold mark_runnable. m_unfold. destruct (handle_of_ok _ _ (tw_slots _ (wf_table _ Hw) _ _ Hi) Ho) as [Hpid _].
    rewrite Hh in Hpid. destruct (Z.eqb_spec (pid o) NO_PID) as [Heq|]; [unfold NO_PID in Heq; lia|]. cbn [negb].
    rewrite index_of_run. destruct (position_is_Some (is_slot o) _ _ _ Hi) as [k Hk]; [by apply is_slot_iff|].
    rewrite Hk. apply position_lookup in Hk as (x & Hx & [Ox Hxh]%is_slot_iff).
    assert (k = i) as -> by (eapply (tw_pids _ (wf_table _ Hw)); [done..|]; rewrite <- Hxh in Hh; by injection Hh).
    rewrite (slot_at_Some _ _ _ _ Hi). unfold phase_eqb. rewrite Hp. done. }
  eexists. split; [done|]. split_and!.
  - pose proof (st_wf _ _ (exec_steps (OpMarkRunnable o) l Hw)) as Hw'. simpl in Hw'. by rewrite Hrun in Hw'.
  - done.
  - intros [?|(j & x & Hj & Hr)]; [by left|right]. exists j, x. simpl.
    rewrite list_lookup_alter_ne; [done|]. intros ->. apply is_running_iff in Hr as [_ ?]. congruence.
  - intros h. unfold asleep. simpl. split.
    + intros (j & x & Hj & Ox & Hpx & Hx). destruct (decide (j = i)) as [->|Hne].
      { rewrite list_lookup_alter_eq, Hi in Hj. simplify_eq/=. }
      rewrite list_lookup_alter_ne in Hj by done. split; [by exists j, x|]. intros ->. apply Hne.
      eapply (tw_pids _ (wf_table _ Hw)); [done..|]. rewrite <- Hh in Hx. by injection Hx.
    + intros [(j & x & Hj & Ox & Hpx & Hx) Hne]. exists j, x. rewrite list_lookup_alter_ne; [done|]. congruence.
Qed.

(** ** The caller's thread group *)

(** What waking does not change: who is in which slot, in which group. *)
Definition ids (l : Lifecycle) : list (bool * ProcessHandle * Z) :=
  (λ s, (occupied s, handle_of s, thread_group s)) <$> slots (table l).

(** [h] is in the thread group of the calling process. *)
Definition peer (l : Lifecycle) (h : ProcessHandle) : Prop :=
  ∃ c i o g, current_handle l = Some o ∧ ids l !! c = Some (true, o, g) ∧ ids l !! i = Some (true, h, g).

Lemma ids_lookup l i h g :
  ids l !! i = Some (true, h, g) ↔
  ∃ s, slots (table l) !! i = Some s ∧ in_group g s = true ∧ handle_of s = h.
Proof.
  unfold ids. rewrite list_lookup_fmap, fmap_Some. split.
  - intros (s & Hs & [= Ho Hh Hg]). exists s. by rewrite in_group_iff.
  - intros (s & Hs & [Ho Hg]%in_group_iff & Hh). exists s. by rewrite Ho, Hg, Hh.
Qed.

Lemma ids_with_phase i p l : ids (on_slot i (with_phase p) l) = ids l.
Proof.
  unfold ids. apply list_eq. intros k. rewrite !list_lookup_fmap. simpl.
  destruct (decide (i = k)) as [->|]; [|by rewrite list_lookup_alter_ne].
  rewrite list_lookup_alter_eq. by destruct (_ !! k).
Qed.

Lemma mark_runnable_ids o l : ids (mark_runnable o l).2 = ids l.
Proof.
  destruct (mark_runnable_cases o l) as [->|(i & s & _ & _ & _ & _ & ->)]; [done|apply ids_with_phase].
Qed.

Lemma peer_running l c x h :
  wf l → slots (table l) !! c = Some x → is_running x = true →
  peer l h ↔ ∃ i s, slots (table l) !! i = Some s ∧ in_group (thread_group x) s = true ∧ handle_of s = h.
Proof.
  intros Hw Hc Hr. pose proof (current_running l c x Hw Hc Hr) as Hcur.
  apply is_running_iff in Hr as [Ho _]. unfold peer. setoid_rewrite ids_lookup. split.
  - intros (c' & i & o & g & Ho' & (x' & Hc' & [Hx' Hg]%in_group_iff & Hhx) & (s & Hi & Hs & Hh)).
    assert (c' = c) as -> by (eapply (tw_pids _ (wf_table _ Hw)); [done..|];
      assert (handle_of x' = handle_of x) as [=] by congruence; done).
    assert (x' = x) as -> by congruence. exists i, s. by subst g.
  - intros (i & s & Hi & Hs & Hh). exists c, i, (handle_of x), (thread_group x). split; [done|]. split.
    + exists x. split_and!; [done| |done]. by apply in_group_iff.
    + by exists s.
Qed.

Lemma asleep_exit_group code l d l' h :
  wf l → schedule_exit_group code l = (Ok d, l') → asleep l' h ↔ asleep l h ∧ ¬ peer l h.
Proof.
  intros Hw Hrun. destruct (exit_group_cases code l Hw) as
    [[x Heq]|(c & x & leader & e & index & Hc & Hr & _ & He & Hidx & Heq)]; [congruence|].
  rewrite Heq in Hrun. injection Hrun as _ <-.
  destruct (group_ended_target l (thread_group x) code e leader index Hidx) as [Hok ->].
  rewrite asleep_handed by done. rewrite (peer_running l c x h Hw Hc Hr). unfold asleep. split.
  - intros (i & s & Hi & Ho & Hp & Hh). simpl in Hi. rewrite end_group_lookup in Hi.
    apply fmap_Some in Hi as (y & Hy & ->). unfold ended in *.
    destruct (in_group (thread_group x) y) eqn:Hg; simpl in *; [by destruct (_ =? _)%nat|].
    split; [by exists i, y|]. intros (j & z & Hj & Hz & Hzh). apply in_group_iff in Hz as Hz'.
    assert (j = i) as -> by (eapply (tw_pids _ (wf_table _ Hw)); [done|done|apply Hz'|done|];
      rewrite <- Hzh in Hh; by injection Hh).
    congruence.
  - intros [(i & s & Hi & Ho & Hp & Hh) Hno]. exists i, s. split; [|done]. simpl.
    rewrite end_group_lookup, Hi. simpl. unfold ended.
    destruct (in_group (thread_group x) s) eqn:Hg; [|done]. destruct Hno. by exists i, s.
Qed.

(** The handles the exit path collects are the caller's peers. *)
Lemma group_handles_peers l leader hs n :
  wf l → settled l → current_thread_group_handles l = (Ok (leader, hs, n), l) →
  ∀ h, Some h ∈ take n hs ↔ peer l h.
Proof.
  intros Hw Hs Hrun h. unfold current_thread_group_handles, current_user_handle in Hrun. revert Hrun. m_unfold.
  destruct (Z.eqb_spec (CURRENT_EXECUTION l) PID0_IDENTITY) as [|Hne]; [done|].
  destruct Hs as [|(c & x & Hc & Hr)]; [done|].
  pose proof (current_running l c x Hw Hc Hr) as Hcur. unfold current_handle in Hcur. rewrite Hcur.
  rewrite (proj2 (find_Some_iff (handle_of x) l x Hw)) by (apply is_running_iff in Hr as [? _]; eauto).
  destruct (handle_of <$> find _ _); [|done]. intros [= <- <- <-].
  rewrite take_app_length, list_elem_of_fmap, (peer_running l c x h Hw Hc Hr).
  setoid_rewrite list_elem_of_filter. setoid_rewrite list_elem_of_lookup. naive_solver.
Qed.

(** ** Runs of the system *)

(** What processes do: lifecycle operations, futex waits and wakes, the
    cancellation of the caller's own wait on its way out or through an
    exec, and the exit of a whole group. The exit path cancels the wait of
    every member, waking on the addresses its robust list and clear-tid word
    name, and then ends the group. *)
Inductive FOp :=
| FLife (op : Op)
| FWait (address expected : Z) (saved : SavedUserContext) (word : Result Z unit)
| FWake (address maximum : Z)
| FCancel
| FGroupExit (code : Z) (wakes : ProcessHandle → list Z).

Definition woken (address maximum : Z) (w : FutexWorld) : FutexWorld :=
  match wake_current address maximum w with Some (_, w') => w' | None => w end.

(** The futex part of [cleanup_linux_thread_exit]. *)
Definition cleanup_thread (wakes : ProcessHandle → list Z) (w : FutexWorld) (h : ProcessHandle) : FutexWorld :=
  foldl (λ w address, woken address 1 w) (cancel_wait h w).2 (wakes h).

(** The futex and lifecycle part of [schedule_linux_exit_group_return]; where
    it halts the machine the world stays as it was. *)
Definition group_exit (code : Z) (wakes : ProcessHandle → list Z) (w : FutexWorld) : FutexWorld :=
  match current_thread_group_handles (life w) with
  | (Err _, _) => w
  | (Ok (_, handles, count), _) =>
      let w1 := foldl (cleanup_thread wakes) w (omap id (take count handles)) in
      match schedule_exit_group code (life w1) with
      | (Err _, _) => w
      | (Ok _, l) => mkFutexWorld l (futexes w1)
      end
  end.

Definition fexec (op : FOp) (w : FutexWorld) : FutexWorld :=
  match op with
  | FLife op => if ordinary op then mkFutexWorld (exec op (life w)).2 (futexes w) else w
  | FWait address expected saved word => (wait_current address expected saved word w).2
  | FWake address maximum => woken address maximum w
  | FCancel =>
      match current_handle (life w) with Some h => (cancel_wait h w).2 | None => w end
  | FGroupExit code wakes => group_exit code wakes w
  end.

Definition frun (ops : list FOp) : FutexWorld :=
  foldl (λ w op, fexec op w) (mkFutexWorld boot new_futexes) ops.

(** The queued waiters are blocked processes, and every blocked process but
    those in [D] is queued. *)
Record synced (D : ProcessHandle → Prop) (w : FutexWorld) (q : list FutexWaiter) : Prop := {
  sy_queue : represents (futexes w) q;
  sy_wf : wf (life w);
  sy_settled : settled (life w);
  sy_asleep : ∀ h, h ∈ w_owner <$> q → asleep (life w) h;
  sy_queued : ∀ h, asleep (life w) h → h ∈ w_owner <$> q ∨ D h;
}.

Abbreviation nobody := (λ _ : ProcessHandle, False).

Lemma synced_boot : synced nobody (mkFutexWorld boot new_futexes) [].
Proof.
  split; simpl; [apply represents_new|apply boot_wf|by left|by intros h ?%elem_of_nil|].
  intros h (i & s & Hi & Ho & _). apply lookup_replicate in Hi as [-> _]. done.
Qed.

Lemma synced_awake D w q h :
  synced D w q → current_handle (life w) = Some h → h ∉ w_owner <$> q.
Proof.
  intros [Hq Hw Hs Ha _] Hcur Hin. destruct (Ha h Hin) as (i & s & Hi & Ho & Hp & Hh).
  destruct Hs as [Hz|(c & x & Hc & Hr)].
  - unfold current_handle in Hcur. by rewrite Hz in Hcur.
  - pose proof (current_running _ c x Hw Hc Hr) as Hx. apply is_running_iff in Hr as [Hox Hrx].
    assert (i = c) as -> by (eapply (tw_pids _ (wf_table _ Hw)); [done..|];
      assert (handle_of s = handle_of x) as [=] by congruence; done).
    congruence.
Qed.

Lemma synced_life D w q op :
  synced D w q → ordinary op = true → synced D (mkFutexWorld (exec op (life w)).2 (futexes w)) q.
Proof.
  intros [Hq Hw Hs Ha Hb] Hop. split; simpl; [done|by eapply st_wf, exec_steps| | |].
  - apply exec_settled; [done| |done]. by destruct op.
  - intros h Hh. apply asleep_exec; auto.
  - intros h Hh. apply Hb. by eapply asleep_exec.
Qed.

(** ** Waiting *)

Lemma current_owner_Ok address l o k :
  wf l → current_owner_and_key address l = Ok (o, k) →
  current_handle l = Some o ∧ valid_owner o = true ∧ o ∈ handle_of <$> slots (table l).
Proof.
  intros Hw. unfold current_owner_and_key. destruct (negb _); [done|].
  destruct (current_handle l) as [h|]; [|done]. destruct (snapshot_exact h l) as [s|] eqn:Hs; [|done].
  intros [= -> _]. split; [done|].
  apply fmap_Some in Hs as (x & (i & Hi & Ho & Hh)%find_Some_iff & _); [|done].
  destruct (handle_of_ok _ _ (tw_slots _ (wf_table _ Hw) _ _ Hi) Ho) as [Hp Hg]. subst o. split.
  - unfold valid_owner. apply andb_true_iff. rewrite !negb_true_iff, !Z.eqb_neq. simpl in *. lia.
  - apply list_elem_of_fmap_2. by eapply list_elem_of_lookup_2.
Qed.

(** The caller is not queued, so the table has room for it. *)
Lemma synced_room D w q o :
  synced D w q → current_handle (life w) = Some o → o ∈ handle_of <$> slots (table (life w)) →
  (length q < MAXIMUM_FUTEX_WAITERS)%nat.
Proof.
  intros Hsy Ho Hin. pose proof (synced_awake _ _ _ _ Hsy Ho) as Hno. destruct Hsy as [Hq Hw _ Ha _].
  assert (o :: (w_owner <$> q) ⊆+ handle_of <$> slots (table (life w))) as Hle%submseteq_length.
  { apply NoDup_submseteq; [apply NoDup_cons; split; [done|apply Hq]|].
    intros h [->|Hh]%elem_of_cons; [done|]. destruct (Ha h Hh) as (i & s & Hi & _ & _ & <-).
    apply list_elem_of_fmap_2. by eapply list_elem_of_lookup_2. }
  simpl in Hle. rewrite !length_fmap, (tw_length _ (wf_table _ Hw)) in Hle. unfold MAXIMUM_FUTEX_WAITERS. lia.
Qed.

(** Cancelling the wait just queued restores the queue. *)
Lemma cancel_last t q x :
  represents t (q ++ [x]) → w_owner x ∉ w_owner <$> q →
  ∃ t', cancel (w_owner x) t = (true, t') ∧ represents t' q.
Proof.
  intros Hq Hno. destruct (cancel_run t _ Hq (w_owner x)) as
    [(q1 & y & q2 & t' & Heq & Hy & _ & Hc & _ & Hr)|[_ Habs]].
  - exists t'. split; [done|]. destruct q2 as [|z q2 _] using rev_ind.
    { apply app_inj_tail in Heq as [-> _]. by rewrite app_nil_r in Hr. }
    replace (q1 ++ y :: q2 ++ [z]) with ((q1 ++ y :: q2) ++ [z]) in Heq by by rewrite <- app_assoc.
    apply app_inj_tail in Heq as [-> _]. destruct Hno. rewrite <- Hy. apply list_elem_of_fmap_2.
    apply elem_of_app. right. left.
  - destruct (Habs x); [|done]. apply elem_of_app. right. by left.
Qed.

Definition wait_outcome {E} (address expected : Z) (saved : SavedUserContext) (word : Result Z E)
    (w : FutexWorld) (q : list FutexWaiter) : Prop :=
  let call := wait_current address expected saved word w in
  match current_owner_and_key address (life w) with
  | Err e => call = (Err (Queue e), w)
  | Ok (o, k) =>
      match word with
      | Err e => call = (Err (UserMemory e), w)
      | Ok v =>
          if negb (v =? expected) then call = (Err ValueChanged, w)
          else if U64_MAX <=? next_sequence (futexes w) then call = (Err (Queue QueueCapacity), w)
          else
            match schedule_block saved (life w) with
            | (Err e, _) =>
                ∃ t, call = (Err (LifecycleFailed e), mkFutexWorld (life w) t) ∧ represents t q
            | (Ok d, l) =>
                ∃ t, call = (Ok d, mkFutexWorld l t) ∧ asleep l o ∧
                  represents t (q ++ [mkWaiter o k (next_sequence (futexes w))])
            end
      end
  end.

Lemma synced_wait_outcome {E} D w q address expected saved (word : Result Z E) :
  synced D w q → wait_outcome address expected saved word w q.
Proof.
  intros Hsy. pose proof Hsy as [Hq Hw _ Ha Hb]. unfold wait_outcome, wait_current, on_futexes. m_unfold.
  destruct (current_owner_and_key address (life w)) as [[o k]|e] eqn:Hk; [|done].
  destruct (current_owner_Ok _ _ _ _ Hw Hk) as (Hcur & Hvo & Hin).
  pose proof (synced_awake _ _ _ _ Hsy Hcur) as Hno.
  destruct (contains_owner (futexes w) o) eqn:Hco; [by apply (represents_contains _ _ Hq) in Hco|].
  cbn [negb]. destruct word as [v|e]; [|done]. destruct (v =? expected); [|done]. cbn [negb].
  destruct (enqueue_run _ _ Hq o k Hvo) as [Hrun Hok]. pose proof (synced_room _ _ _ _ Hsy Hcur Hin) as Hroom.
  rewrite bool_decide_false in Hrun by done. rewrite (proj2 (Nat.leb_gt _ _) Hroom), orb_false_r in Hrun.
  destruct (Z.leb_spec U64_MAX (next_sequence (futexes w))) as [|Hseq]; rewrite Hrun; [by destruct w|]. simpl.
  destruct (Hok Hno Hseq Hroom) as [_ Hr]. pose proof (block_rotates saved (life w) Hw) as Hrot. unfold rotates in Hrot.
  destruct (schedule_block saved (life w)) as [[d|e] l] eqn:Hbl.
  - eexists. split_and!; [done| |done]. eapply asleep_block; eauto.
  - subst l. destruct (cancel_last _ _ _ Hr Hno) as (t' & Hc & Hr'). simpl in Hc. rewrite Hc. eauto.
Qed.

Lemma synced_wait w q address expected saved word :
  synced nobody w q → ∃ q', synced nobody (wait_current (E := unit) address expected saved word w).2 q'.
Proof.
  intros Hsy. pose proof (synced_wait_outcome _ _ _ address expected saved word Hsy) as Ho.
  pose proof Hsy as [Hq Hw Hs Ha Hb]. unfold wait_outcome in Ho.
  destruct (current_owner_and_key address (life w)) as [[o k]|e] eqn:Hk; [|rewrite Ho; eauto].
  destruct word as [v|e]; [|rewrite Ho; eauto]. destruct (negb _); [rewrite Ho; eauto|].
  destruct (_ <=? _); [rewrite Ho; eauto|].
  destruct (current_owner_Ok _ _ _ _ Hw Hk) as (Hcur & _).
  destruct (schedule_block saved (life w)) as [[d|e] l] eqn:Hbl; destruct Ho as (t & -> & Hr); simpl.
  - destruct Hr as [_ Hr]. pose proof (st_wf _ _ (exec_steps (OpBlock saved) _ Hw)) as Hw'.
    pose proof (exec_settled (OpBlock saved) _ Hw eq_refl Hs) as Hs'. simpl in Hw', Hs'. rewrite Hbl in Hw', Hs'.
    eexists. split; simpl; [done..| |].
    all: intros h; rewrite (asleep_block saved _ o d l h Hw Hcur Hbl), fmap_app; set_solver.
  - exists q. by split.
Qed.

(** ** Waking *)

Definition on_key (k : FutexKey) (x : FutexWaiter) : bool := bool_decide (w_key x = k).

(** The waiters on [k] among [q], in its order. *)
Definition waiting_on (k : FutexKey) (q : list FutexWaiter) : list FutexWaiter :=
  filter (λ x, w_key x = k) q.

(** [q] without its first [n] waiters on [k]. *)
Fixpoint served (k : FutexKey) (n : nat) (q : list FutexWaiter) : list FutexWaiter :=
  match n with
  | O => q
  | S n => match remove_first (on_key k) q with Some (_, q) => served k n q | None => q end
  end.

(** The slots with the given processes made runnable. *)
Definition readied (hs : list ProcessHandle) (s : ProcessSlot) : ProcessSlot :=
  if occupied s && bool_decide (handle_of s ∈ hs) then with_phase Runnable s else s.

Lemma waiting_on_none k q : (∀ y, y ∈ q → w_key y ≠ k) → waiting_on k q = [].
Proof.
  intros Hq. unfold waiting_on. destruct (filter _ q) as [|y l] eqn:Hf; [done|]. exfalso.
  assert (y ∈ filter (λ x, w_key x = k) q) as [Hy Hin]%list_elem_of_filter by (rewrite Hf; left). by destruct (Hq y).
Qed.

Lemma waiting_on_split k q1 x q2 :
  w_key x = k → (∀ y, y ∈ q1 → w_key y ≠ k) →
  waiting_on k (q1 ++ x :: q2) = x :: waiting_on k (q1 ++ q2).
Proof.
  intros Hx Hq1%waiting_on_none. unfold waiting_on in *.
  by rewrite !filter_app, filter_cons, decide_True, Hq1 by done.
Qed.

Lemma mark_runnable_slots o l :
  wf l → asleep l o → slots (table (mark_runnable o l).2) = readied [o] <$> slots (table l).
Proof.
  intros Hw Ha. destruct (mark_runnable_cases o l) as [Heq|(i & s & Hi & Ho & Hh & _ & ->)].
  { exfalso. destruct (asleep_wake l o Hw Ha) as (l' & Hrun & _ & _ & _ & Has).
    rewrite Hrun in Heq. simpl in Heq. subst l'. by apply Has in Ha as [_ ?]. }
  simpl. apply list_eq. intros k. rewrite list_lookup_fmap. unfold readied.
  destruct (decide (i = k)) as [->|Hne].
  - rewrite list_lookup_alter_eq, Hi. simpl. by rewrite Ho, bool_decide_true by (by apply list_elem_of_singleton).
  - rewrite list_lookup_alter_ne by done. destruct (slots (table l) !! k) as [x|] eqn:Hk; [|done]. simpl.
    destruct (occupied x) eqn:Hox; [|done]. rewrite bool_decide_false; [done|].
    intros Hx%list_elem_of_singleton. destruct Hne. eapply (tw_pids _ (wf_table _ Hw)); [done..|].
    rewrite <- Hh in Hx. by injection Hx.
Qed.

Lemma readied_cons o hs (l : list ProcessSlot) : readied hs <$> (readied [o] <$> l) = readied (o :: hs) <$> l.
Proof.
  rewrite <- list_fmap_compose. apply list_fmap_ext. intros i s _. unfold compose, readied.
  destruct (occupied s) eqn:Ho; [|by cbn [andb]; rewrite Ho]. cbn [andb].
  destruct (decide (handle_of s = o)) as [He|He].
  - rewrite (bool_decide_true (_ ∈ [o])) by by apply list_elem_of_singleton.
    rewrite (bool_decide_true (_ ∈ o :: hs)) by (rewrite He; left). simpl. rewrite Ho. simpl.
    by destruct (bool_decide _).
  - rewrite (bool_decide_false (_ ∈ [o])) by by rewrite list_elem_of_singleton. rewrite Ho. cbn [andb].
    rewrite (bool_decide_ext (handle_of s ∈ hs) (handle_of s ∈ o :: hs)); [done|].
    rewrite elem_of_cons. naive_solver.
Qed.

(** One round: the first waiter on the key leaves the queue and is readied. *)
Lemma synced_take D w q q1 x q2 t :
  synced D w q → q = q1 ++ x :: q2 → represents t (q1 ++ q2) →
  ∃ l, mark_runnable (w_owner x) (life w) = (Ok tt, l) ∧ synced D (mkFutexWorld l t) (q1 ++ q2) ∧
    CURRENT_EXECUTION l = CURRENT_EXECUTION (life w) ∧ ids l = ids (life w) ∧
    slots (table l) = readied [w_owner x] <$> slots (table (life w)).
Proof.
  intros [Hq Hw Hs Ha Hb] -> Hr.
  assert (asleep (life w) (w_owner x)) as Hx.
  { apply Ha, list_elem_of_fmap_2, elem_of_app. right. left. }
  destruct (asleep_wake _ _ Hw Hx) as (l & Hrun & Hw' & Hc & Hs' & Has). exists l.
  pose proof (mark_runnable_slots _ _ Hw Hx) as Hsl. pose proof (mark_runnable_ids (w_owner x) (life w)) as Hid.
  rewrite Hrun in Hsl, Hid. split_and!; [done| |done..].
  pose proof (rp_owners _ _ Hq) as Hnd. rewrite fmap_app, fmap_cons, <- Permutation_middle in Hnd.
  apply NoDup_cons in Hnd as [Hno _]. rewrite fmap_app in Ha, Hb. simpl in Ha, Hb.
  split; simpl; [done|done|by apply Hs'| |]; intros h; rewrite Has, ?fmap_app.
  - intros Hh. split; [apply Ha; set_solver|]. intros ->. by destruct Hno.
  - intros [Hh Hne]. specialize (Hb h Hh). set_solver.
Qed.

Lemma wake_loop_run fuel : ∀ D w q k maximum count,
  synced D w q → (length q < fuel)%nat →
  let n := Nat.min (Z.to_nat (maximum - count)) (length (waiting_on k q)) in
  ∃ w', wake_loop fuel k maximum count w = Some (count + Z.of_nat n, w') ∧
    synced D w' (served k n q) ∧ CURRENT_EXECUTION (life w') = CURRENT_EXECUTION (life w) ∧
    ids (life w') = ids (life w) ∧
    slots (table (life w')) = readied (w_owner <$> take n (waiting_on k q)) <$> slots (table (life w)).
Proof.
  assert (∀ w : FutexWorld, slots (table (life w)) = readied [] <$> slots (table (life w))) as Hnil.
  { intros w. symmetry. etrans; [|apply list_fmap_id]. apply list_fmap_ext. intros i s _. unfold readied.
    rewrite bool_decide_false by apply not_elem_of_nil. by rewrite andb_false_r. }
  induction fuel as [|fuel IH]; intros D w q k maximum count Hsy Hlen n; [lia|]. simpl.
  destruct (Z.ltb_spec count maximum) as [Hlt|Hge]; simpl.
  - pose proof Hsy as [Hq _ _ _ _].
    destruct (take_oldest_run _ _ Hq k) as [(q1 & x & q2 & t & Heq & Hk & Hq1 & Htake & _ & Hr)|[Htake Hno]].
    + rewrite Htake. destruct (synced_take _ _ _ _ _ _ _ Hsy Heq Hr) as (l & -> & Hsy' & Hc & Hid & Hsl). simpl.
      assert (waiting_on k q = x :: waiting_on k (q1 ++ q2)) as Hwo by (rewrite Heq; by apply waiting_on_split).
      subst n. rewrite Hwo. replace (Z.to_nat (maximum - count)) with (S (Z.to_nat (maximum - (count + 1)))) by lia.
      simpl. rewrite Heq, length_app in Hlen. simpl in Hlen.
      destruct (IH _ _ _ k maximum (count + 1) Hsy' ltac:(rewrite length_app; lia)) as (w' & Hrun & Hs' & Hc' & Hid' & Hsl').
      exists w'. simpl in *. split_and!; [rewrite Hrun; do 2 f_equal; lia| |congruence|congruence|].
      * rewrite Heq. rewrite remove_first_split; [done| |by apply bool_decide_eq_true].
        intros y Hy. apply bool_decide_eq_false. auto.
      * by rewrite Hsl', Hsl, readied_cons.
    + rewrite Htake. assert (waiting_on k q = []) as Hwo by by apply waiting_on_none.
      subst n. rewrite Hwo, Nat.min_0_r. exists w. simpl. rewrite Z.add_0_r. auto.
  - subst n. replace (Z.to_nat (maximum - count)) with O by lia. exists w. simpl. rewrite Z.add_0_r. auto.
Qed.

Lemma represents_count t q : represents t q → countb waits (waiters t) = length q.
Proof.
  intros Hq. rewrite (rp_perm _ _ Hq). induction (waiters t) as [|x l IH]; simpl; [done|].
  rewrite filter_cons. destruct (waits x); simpl; by rewrite IH.
Qed.

(** What a wake does: [n] processes are readied and leave the queue. *)
Definition wakes_first (k : FutexKey) (n : nat) (w w' : FutexWorld) (q : list FutexWaiter) : Prop :=
  represents (futexes w') (served k n q) ∧
  slots (table (life w')) = readied (w_owner <$> take n (waiting_on k q)) <$> slots (table (life w)) ∧
  CURRENT_EXECUTION (life w') = CURRENT_EXECUTION (life w).

Lemma synced_wake_run D w q address maximum :
  synced D w q →
  match current_owner_and_key address (life w) with
  | Err e => wake_current address maximum w = Some (Err e, w)
  | Ok (_, k) =>
      let n := Nat.min (Z.to_nat maximum) (length (waiting_on k q)) in
      ∃ w', wake_current address maximum w = Some (Ok (Z.of_nat n), w') ∧ wakes_first k n w w' q ∧
        synced D w' (served k n q) ∧ ids (life w') = ids (life w)
  end.
Proof.
  intros Hsy. unfold wake_current. destruct (current_owner_and_key address (life w)) as [[o k]|e]; [|done].
  pose proof (represents_count _ _ (sy_queue _ _ _ Hsy)) as Hcount.
  destruct (wake_loop_run (wake_fuel w) D w q k maximum 0 Hsy) as (w' & Hrun & Hsy' & Hc & Hid & Hsl).
  { unfold wake_fuel. lia. }
  rewrite Z.sub_0_r in *. exists w'. rewrite Hrun. split; [done|]. split; [|done].
  split; [apply Hsy'|done].
Qed.

Lemma served_subset k n q : served k n q ⊆ q.
Proof.
  revert q. induction n as [|n IH]; intros q; simpl; [done|].
  destruct (remove_first (on_key k) q) as [[x q']|] eqn:Hr; [|done]. etrans; [apply IH|]. clear IH.
  revert q' Hr. induction q as [|y q IHq]; intros q' Hr; simpl in Hr; [done|].
  destruct (on_key k y); simplify_eq; [by intros z; right|].
  destruct (remove_first _ q) as [[z r]|]; simplify_eq. intros z' [->|Hz]%elem_of_cons; [left|right].
  by apply (IHq r).
Qed.

(** What an exit path's wakes keep: the peers of the caller. *)
Lemma synced_woken D w q address maximum :
  synced D w q →
  ∃ q', synced D (woken address maximum w) q' ∧
    (∀ h, peer (life (woken address maximum w)) h ↔ peer (life w) h) ∧
    (∀ h, h ∈ w_owner <$> q' → h ∈ w_owner <$> q).
Proof.
  intros Hsy. unfold woken. pose proof (synced_wake_run D w q address maximum Hsy) as Hrun.
  destruct (current_owner_and_key address (life w)) as [[o k]|e]; [|rewrite Hrun; eauto].
  destruct Hrun as (w' & -> & (_ & _ & Hc) & Hsy' & Hid). eexists. split; [done|]. split.
  - intros h. unfold peer, current_handle. by rewrite Hid, Hc.
  - intros h (x & -> & Hx%served_subset)%list_elem_of_fmap. by apply list_elem_of_fmap_2.
Qed.

Lemma synced_weaken (D D' : ProcessHandle → Prop) w q : (∀ h, D h → D' h) → synced D w q → synced D' w q.
Proof. intros HD [Hq Hw Hs Ha Hb]. split; [done..|]. intros h Hh. destruct (Hb h Hh); auto. Qed.

Lemma synced_cancel D w q h :
  synced D w q → ∃ q', synced (λ h', D h' ∨ h' = h) (cancel_wait h w).2 q' ∧ life (cancel_wait h w).2 = life w ∧
    (h ∉ w_owner <$> q') ∧ (∀ h', h' ∈ w_owner <$> q' → h' ∈ w_owner <$> q).
Proof.
  intros Hsy. pose proof Hsy as [Hq Hw Hs Ha Hb]. unfold cancel_wait.
  destruct (cancel_run _ _ Hq h) as [(q1 & x & q2 & t & -> & Hx & Hno & -> & _ & Hr)|[-> Hno]]; simpl.
  - exists (q1 ++ q2). rewrite fmap_app in Ha, Hb. simpl in Ha, Hb. split_and!; [|done| |].
    + split; simpl; try done; intros h'; rewrite fmap_app; [intros; apply Ha|intros Hh; specialize (Hb h' Hh)]; set_solver.
    + intros (y & -> & Hy)%list_elem_of_fmap. by destruct (Hno y).
    + intros h'. rewrite !fmap_app. simpl. set_solver.
  - exists q. split_and!; [destruct w; eapply synced_weaken; [|done]; auto|done| |done].
    intros (y & -> & Hy)%list_elem_of_fmap. by destruct (Hno y).
Qed.

(** ** Group exit *)

Lemma synced_cleanup D wakes w q h :
  synced D w q →
  ∃ q', synced (λ h', D h' ∨ h' = h) (cleanup_thread wakes w h) q' ∧
    (∀ h', peer (life (cleanup_thread wakes w h)) h' ↔ peer (life w) h') ∧
    (∀ h', h' ∈ w_owner <$> q' → h' ∈ w_owner <$> q ∧ h' ≠ h).
Proof.
  intros Hsy. unfold cleanup_thread. destruct (synced_cancel D w q h Hsy) as (q1 & Hsy1 & Hlife & Hno & Hsub).
  assert (∀ h', peer (life (cancel_wait h w).2) h' ↔ peer (life w) h') as Hp by by rewrite Hlife.
  revert q1 Hsy1 Hno Hsub Hp. generalize (cancel_wait h w).2 as w1. clear Hlife.
  induction (wakes h) as [|a l IH]; intros w1 q1 Hsy1 Hno Hsub Hp; simpl.
  { exists q1. split_and!; [done..|]. intros h' Hh. split; [by apply Hsub|]. by intros ->. }
  destruct (synced_woken _ _ _ a 1 Hsy1) as (q2 & Hsy2 & Hp2 & Hsub2).
  destruct (IH _ q2 Hsy2) as (q' & Hsy' & Hp' & Hsub'); [by intros ?%Hsub2|by intros h' ?%Hsub2; apply Hsub| |].
  { intros h'. by rewrite Hp2. }
  by exists q'.
Qed.

Lemma synced_cleanups hs : ∀ D wakes w q,
  synced D w q →
  let w1 := foldl (cleanup_thread wakes) w hs in
  ∃ q', synced (λ h, D h ∨ h ∈ hs) w1 q' ∧ (∀ h, peer (life w1) h ↔ peer (life w) h) ∧
    (∀ h, h ∈ w_owner <$> q' → h ∈ w_owner <$> q ∧ h ∉ hs).
Proof.
  induction hs as [|h hs IH]; intros D wakes w q Hsy; simpl.
  { exists q. split_and!; [by eapply synced_weaken; [|done]; auto|done|].
    intros h Hh. split; [done|apply not_elem_of_nil]. }
  destruct (synced_cleanup D wakes w q h Hsy) as (q1 & Hsy1 & Hp1 & Hsub1).
  destruct (IH _ wakes _ q1 Hsy1) as (q' & Hsy' & Hp' & Hsub'). exists q'. split_and!.
  - eapply synced_weaken; [|done]. intros h'. rewrite elem_of_cons. tauto.
  - intros h'. by rewrite Hp'.
  - intros h' [[Hq Hne]%Hsub1 Hno]%Hsub'. split; [done|]. by intros [->|?]%elem_of_cons.
Qed.

Lemma synced_group_exit code wakes w q :
  synced nobody w q → ∃ q', synced nobody (group_exit code wakes w) q'.
Proof.
  intros Hsy. unfold group_exit. destruct (current_thread_group_handles (life w)) as [[[[leader hs] n]|] l] eqn:Hg; [|eauto].
  assert (l = life w) as ->.
  { revert Hg. unfold current_thread_group_handles, current_user_handle. m_unfold. by repeat case_match; intros; simplify_eq. }
  pose proof (group_handles_peers _ _ _ _ (sy_wf _ _ _ Hsy) (sy_settled _ _ _ Hsy) Hg) as Hpeers.
  destruct (synced_cleanups (omap id (take n hs)) nobody wakes w q Hsy) as (q' & Hsy' & Hp & Hsub).
  set (w1 := foldl _ _ _) in *. pose proof Hsy' as [Hq Hw Hs Ha Hb].
  destruct (schedule_exit_group code (life w1)) as [[d|] l'] eqn:Hex; [|eauto].
  pose proof (st_wf _ _ (exec_steps (OpExitGroup code) _ Hw)) as Hw'.
  pose proof (exec_settled (OpExitGroup code) _ Hw eq_refl Hs) as Hs'. simpl in Hw', Hs'. rewrite Hex in Hw', Hs'.
  assert (∀ h, h ∈ omap id (take n hs) ↔ peer (life w1) h) as Hmem.
  { intros h. rewrite Hp, <- Hpeers, list_elem_of_omap. naive_solver. }
  exists q'. split; simpl; [done..| |]; intros h; rewrite (asleep_exit_group code _ d l' h Hw Hex), <- Hmem.
  - intros Hh. split; [by apply Ha|]. by apply Hsub in Hh as [_ ?].
  - intros [Hh Hno]. destruct (Hb h Hh) as [?|[[]|?]]; [by left|done].
Qed.

Lemma synced_fexec op w q : synced nobody w q → ∃ q', synced nobody (fexec op w) q'.
Proof.
  intros Hsy. destruct op as [op|a v saved word|a m| |code wakes]; simpl.
  - destruct (ordinary op) eqn:Hop; [|eauto]. exists q. by apply synced_life.
  - by apply synced_wait with q.
  - destruct (synced_woken _ _ _ a m Hsy) as (q' & Hsy' & _). eauto.
  - destruct (current_handle (life w)) as [h|] eqn:Hh; [|eauto]. pose proof (synced_awake _ _ _ _ Hsy Hh) as Hno.
    exists q. unfold cancel_wait. destruct (cancel_run _ _ (sy_queue _ _ _ Hsy) h) as
      [(q1 & x & q2 & t & -> & Hx & _)|[-> _]]; [|by destruct w].
    destruct Hno. rewrite <- Hx. apply list_elem_of_fmap_2, elem_of_app. right. left.
  - by apply synced_group_exit with q.
Qed.

Lemma frun_synced ops : ∃ q, synced nobody (frun ops) q.
Proof.
  unfold frun. assert (∀ w q, synced nobody w q → ∃ q', synced nobody (foldl (λ w op, fexec op w) w ops) q') as H.
  { induction ops as [|op ops IH]; intros w q Hsy; simpl; [eauto|].
    destruct (synced_fexec op w q Hsy) as [q' Hsy']. by apply IH with q'. }
  eapply H, synced_boot.
Qed.

(** C3. No sleeper is lost and none is invented. After any run of waits,
    wakes, cancellations, exits and other lifecycle operations, the processes
    queued in the futex table are exactly the blocked ones, and the CPU
    belongs to PID0 or to a running process. *)
Theorem futex_sleepers_queued (ops : list FOp) :
  let w := frun ops in
  (∀ h, contains_owner (futexes w) h = true ↔ ps_phase <$> snapshot_exact h (life w) = Some Blocked) ∧
  (CURRENT_EXECUTION (life w) = PID0_IDENTITY ∨
   ∃ h, current_handle (life w) = Some h ∧ ps_phase <$> snapshot_exact h (life w) = Some Running).
Proof.
  intros w. destruct (frun_synced ops) as (q & [Hq Hw Hs Ha Hb]). fold w in Hq, Hw, Hs, Ha, Hb. split.
  - intros h. rewrite (represents_contains _ _ Hq), <- asleep_snapshot by done. split; [apply Ha|].
    intros Hh. by destruct (Hb h Hh).
  - destruct Hs as [?|(i & s & Hi & Hr)]; [by left|right]. exists (handle_of s).
    split; [by eapply current_running|]. apply is_running_iff in Hr as [Ho Hp]. unfold snapshot_exact.
    rewrite (proj2 (find_Some_iff (handle_of s) _ s Hw)) by eauto. simpl. by f_equal.
Qed.

(** What a wait does, on every branch, in any reachable state. It blocks
    the caller and queues it last when the word has the expected value, and
    otherwise leaves the processes and the queue as they were. It never finds
    the caller queued already, and the table never runs out of slots. *)
Theorem futex_wait_outcome (ops : list FOp) {E} (address expected : Z) (saved : SavedUserContext)
    (word : Result Z E) :
  ∃ q, represents (futexes (frun ops)) q ∧ wait_outcome address expected saved word (frun ops) q.
Proof.
  destruct (frun_synced ops) as (q & Hsy). exists q. split; [apply Hsy|by eapply synced_wait_outcome].
Qed.

(** C8. A wake terminates and readies exactly the longest waiting processes
    on its key, at most [maximum] of them, and returns their number. Every
    other process stays as it was, and every other waiter stays queued in its
    place. *)
Theorem futex_wake_exact (ops : list FOp) (address maximum : Z) :
  let w := frun ops in
  ∃ q, represents (futexes w) q ∧
    match current_owner_and_key address (life w) with
    | Err e => wake_current address maximum w = Some (Err e, w)
    | Ok (_, k) =>
        let n := Nat.min (Z.to_nat maximum) (length (waiting_on k q)) in
        ∃ w', wake_current address maximum w = Some (Ok (Z.of_nat n), w') ∧ wakes_first k n w w' q
    end.
Proof.
  intros w. destruct (frun_synced ops) as (q & Hsy). exists q. split; [apply Hsy|].
  pose proof (synced_wake_run _ _ _ address maximum Hsy) as Hrun. fold w in Hrun.
  destruct (current_owner_and_key address (life w)) as [[o k]|e]; [|done]. naive_solver.
Qed.

(** A queue of one waiter that is woken, with a second arrival cancelled. *)
Lemma futex_fifo_refinement_witness :
  let h1 := mkHandle 1 1 in let h2 := mkHandle 2 1 in let k := mkKey 4096 8192 in
  let ops := [QEnqueue h1 k; QEnqueue h2 k; QEnqueue h1 k; QTake k; QCancel h2; QTake k] in
  outputs table_step ops new_futexes = outputs fifo_step ops (mkFifo [] 1) ∧
  outputs fifo_step ops (mkFifo [] 1)
  = [Enqueued (Ok tt); Enqueued (Ok tt); Enqueued (Err AlreadyWaiting); Taken (Some h1); Cancelled true; Taken None].
Proof.
  intros h1 h2 k ops. split; [|reflexivity]. apply (futex_fifo_refinement ops).
  repeat constructor.
Defined.

(** A child waits on a word and gives the CPU back to init. *)
Lemma futex_wait_blocks :
  let w := frun ((FLife <$> child_runs) ++ [FWait 0x3000 5 sample_saved (Ok 5)]) in
  ps_phase <$> snapshot_exact child_handle (life w) = Some Blocked ∧
  contains_owner (futexes w) child_handle = true ∧
  current_handle (life w) = Some init_handle.
Proof. vm_compute. done. Qed.
