(* ===== verification/OpenFlags.v ===== *)
(** * Open flags (linux_file.rs) *)

From Stdlib Require Import ZArith.
From S2P Require Import Prelude.

Definition O_ACCMODE : Z := 0x3.
Definition O_RDONLY : Z := 0.
Definition O_WRONLY : Z := 0x1.
Definition O_RDWR : Z := 0x2.
Definition O_CREAT : Z := 0x40.
Definition O_EXCL : Z := 0x80.
Definition O_TRUNC : Z := 0x200.
Definition O_APPEND : Z := 0x400.
Definition O_NONBLOCK : Z := 0x800.
Definition O_LARGEFILE : Z := 0x8000.
Definition O_DIRECTORY : Z := 0x10000.
Definition O_CLOEXEC : Z := 0x80000.
