(* ===== verification/FdTable.v ===== *)
(** * The descriptor table: linux_fd.rs

    Descriptor spaces, open objects with their three reference counts, and
    every critical section of the file. An operation of the descriptor layer is
    one or more of these sections with calls into the backends between them,
    so any interleaving of concurrent calls is a sequence of sections.

    An open object is held by descriptors, by transfers in flight, by epoll
    watches and by active operations (leases). The invariant [wf] says that the
    counts are exact and that an object exists exactly as long as it is held. *)

From stdpp Require Import prelude list numbers option.
From Stdlib Require Import ZArith Lia.
From S2P Require Import Prelude.
From S2P Require Import Handles.
From S2P Require Import ObjectKey.
From S2P Require Import OpenFlags.

Definition MAXIMUM_FILE_DESCRIPTORS : nat := 128.
Definition MAXIMUM_TRANSFER_DESCRIPTORS : nat := 8.
Definition FD_CLOEXEC : Z := 1.
Definition MAXIMUM_DESCRIPTOR_SPACES : nat := MAXIMUM_PROCESSES.
Definition MAXIMUM_OPEN_OBJECTS : nat := MAXIMUM_DESCRIPTOR_SPACES * MAXIMUM_FILE_DESCRIPTORS.

Arguments MAXIMUM_FILE_DESCRIPTORS : simpl never.
Arguments MAXIMUM_DESCRIPTOR_SPACES : simpl never.
Arguments MAXIMUM_OPEN_OBJECTS : simpl never.

(** [File] carries the error of the file backend. *)
Inductive DescriptorError (F : Type) :=
| InvalidArgument
| BadFileDescriptor
| Capacity
| WouldBlock
| BrokenPipe
| IllegalSeek
| AlreadyExists
| NotFound
| AddressFamilyNotSupported
| AddressInUse
| ConnectionRefused
| AlreadyConnected
| NotConnected
| NotSocket
| OperationNotSupported
| OperationNotPermitted
| PermissionDenied
| Io
| FileFailed (e : F).
Arguments InvalidArgument {F}.
Arguments BadFileDescriptor {F}.
Arguments Capacity {F}.
Arguments WouldBlock {F}.
Arguments BrokenPipe {F}.
Arguments IllegalSeek {F}.
Arguments AlreadyExists {F}.
Arguments NotFound {F}.
Arguments AddressFamilyNotSupported {F}.
Arguments AddressInUse {F}.
Arguments ConnectionRefused {F}.
Arguments AlreadyConnected {F}.
Arguments NotConnected {F}.
Arguments NotSocket {F}.
Arguments OperationNotSupported {F}.
Arguments OperationNotPermitted {F}.
Arguments PermissionDenied {F}.
Arguments Io {F}.
Arguments FileFailed {F}.

Inductive OpenObjectKind :=
| Empty
| ConsoleInput
| ConsoleOutput
| ConsoleError
| File (fd : Z)
| MemFd (fd : Z)
| EventFd (fd : Z)
| TimerFd (fd : Z)
| SignalFd (fd : Z)
| Epoll (fd : Z)
| PipeRead (handle : Z)
| PipeWrite (handle : Z)
| UnixSocket (handle : Z)
| UnixDatagram (handle : Z).

#[global] Instance OpenObjectKind_eq_dec : EqDecision OpenObjectKind.
Proof. solve_decision. Defined.

Definition kind_occupied (k : OpenObjectKind) : bool :=
  match k with Empty => false | _ => true end.

Record OpenObject := mkObject {
  generation : Z;
  owner : ProcessHandle;
  references : Z;
  descriptor_references : Z;
  active_operations : Z;
  closing : bool;
  status_flags : Z;
  kind : OpenObjectKind;
}.

Definition EMPTY_OBJECT : OpenObject := mkObject 0 NO_PROCESS 0 0 0 false 0 Empty.

Record FinalObject := mkFinal {
  f_owner : ProcessHandle;
  f_kind : OpenObjectKind;
}.

Definition with_generation (g : Z) (o : OpenObject) : OpenObject :=
  mkObject g (owner o) (references o) (descriptor_references o) (active_operations o) (closing o)
    (status_flags o) (kind o).
Definition with_references (n : Z) (o : OpenObject) : OpenObject :=
  mkObject (generation o) (owner o) n (descriptor_references o) (active_operations o) (closing o)
    (status_flags o) (kind o).
Definition with_descriptor_references (n : Z) (o : OpenObject) : OpenObject :=
  mkObject (generation o) (owner o) (references o) n (active_operations o) (closing o)
    (status_flags o) (kind o).
Definition with_active (n : Z) (o : OpenObject) : OpenObject :=
  mkObject (generation o) (owner o) (references o) (descriptor_references o) n (closing o)
    (status_flags o) (kind o).
Definition with_closing (o : OpenObject) : OpenObject :=
  mkObject (generation o) (owner o) (references o) (descriptor_references o) (active_operations o) true
    (status_flags o) (kind o).
Definition with_status (f : Z) (o : OpenObject) : OpenObject :=
  mkObject (generation o) (owner o) (references o) (descriptor_references o) (active_operations o)
    (closing o) f (kind o).

(** [OpenObject::take]: what is to be finalized, and the slot emptied with its
    generation kept. *)
Definition take_object (o : OpenObject) : FinalObject * OpenObject :=
  (mkFinal (owner o) (kind o), with_generation (generation o) EMPTY_OBJECT).

(** [object] is one more than the index, zero in a free slot. *)
Record DescriptorSlot := mkSlot {
  object : Z;
  flags : Z;
}.

Definition EMPTY_DESCRIPTOR : DescriptorSlot := mkSlot 0 0.
Definition slot_used (d : DescriptorSlot) : bool := negb (object d =? 0).
Definition new_descriptor (object_index : nat) (flg : Z) : DescriptorSlot :=
  mkSlot (Z.of_nat object_index mod (U16_MAX + 1) + 1) flg.
Definition object_index (d : DescriptorSlot) : option nat :=
  if slot_used d then Some (Z.to_nat (object d - 1)) else None.

Record DescriptorSpace := mkSpace {
  space_owner : ProcessHandle;
  descriptors : list DescriptorSlot;
}.

Definition NO_DESCRIPTORS : list DescriptorSlot := replicate MAXIMUM_FILE_DESCRIPTORS EMPTY_DESCRIPTOR.
Arguments NO_DESCRIPTORS : simpl never.
Definition EMPTY_SPACE : DescriptorSpace := mkSpace NO_PROCESS NO_DESCRIPTORS.
Definition space_used (s : DescriptorSpace) : bool := valid_owner (space_owner s).

Record DescriptorRegistry := mkRegistry {
  spaces : list DescriptorSpace;
  objects : list OpenObject;
}.

Definition EMPTY_REGISTRY : DescriptorRegistry :=
  mkRegistry (replicate MAXIMUM_DESCRIPTOR_SPACES EMPTY_SPACE)
    (replicate MAXIMUM_OPEN_OBJECTS EMPTY_OBJECT).

Record ObjectLease := mkLease {
  l_key : ObjectKey;
  l_owner : ProcessHandle;
  l_kind : OpenObjectKind;
  l_status_flags : Z;
}.

(** ** Updates *)

Definition set_object (i : nat) (o : OpenObject) (r : DescriptorRegistry) : DescriptorRegistry :=
  mkRegistry (spaces r) (<[i := o]> (objects r)).
Definition on_object (i : nat) (f : OpenObject → OpenObject) (r : DescriptorRegistry) : DescriptorRegistry :=
  mkRegistry (spaces r) (alter f i (objects r)).
Definition on_space (s : nat) (f : DescriptorSpace → DescriptorSpace) (r : DescriptorRegistry) :
    DescriptorRegistry :=
  mkRegistry (alter f s (spaces r)) (objects r).
Definition with_owner (own : ProcessHandle) (s : DescriptorSpace) : DescriptorSpace :=
  mkSpace own (descriptors s).
(** [registry.spaces[space].descriptors[fd] = slot] *)
Definition set_descriptor (space fd : nat) (slot : DescriptorSlot) : DescriptorRegistry → DescriptorRegistry :=
  on_space space (λ s, mkSpace (space_owner s) (<[fd := slot]> (descriptors s))).

Definition descriptors_of (r : DescriptorRegistry) (space : nat) : list DescriptorSlot :=
  descriptors (slot_at EMPTY_SPACE (spaces r) space).
Definition object_at (r : DescriptorRegistry) (i : nat) : OpenObject :=
  slot_at EMPTY_OBJECT (objects r) i.

(** ** Critical sections *)

Section Registry.
Context {F : Type}.
Abbreviation RM := (M DescriptorRegistry (DescriptorError F)).

Definition find_space (l : list DescriptorSpace) (own : ProcessHandle) : option nat :=
  position (λ s, space_used s && handle_eqb (space_owner s) own) l.

(** [generation.checked_add(1).filter(|g| *g != 0)] *)
Definition next_object_generation (g : Z) : option Z :=
  match checked_add U32_MAX g 1 with
  | Some g => if g =? 0 then None else Some g
  | None => None
  end.

Definition allocate_object (own : ProcessHandle) (k : OpenObjectKind) (status : Z) : RM nat :=
  r ← getS;
  index ← ok_or (position (λ o, negb (kind_occupied (kind o))) (objects r)) Capacity;
  gen ← ok_or (next_object_generation (generation (object_at r index))) Capacity;
  modifyS (set_object index (mkObject gen own 0 0 0 false status k));;
  mret index.

(** [references = 1; descriptor_references = 1] *)
Definition first_reference (o : OpenObject) : OpenObject :=
  with_descriptor_references 1 (with_references 1 o).

(** The roll-back of [initialize_standard_descriptors]: the descriptors below
    [fd] are emptied and their objects taken. *)
Definition undo_standard (space fd : nat) (r : DescriptorRegistry) : DescriptorRegistry :=
  foldl (λ r k,
    let index := default O (object_index (slot_at EMPTY_DESCRIPTOR (descriptors_of r space) k)) in
    on_object index (λ o, (take_object o).2) (set_descriptor space k EMPTY_DESCRIPTOR r)) r (seq 0 fd).

Definition standard_objects : list (OpenObjectKind * Z) :=
  [(ConsoleInput, O_RDONLY); (ConsoleOutput, O_WRONLY); (ConsoleError, O_WRONLY)].

Fixpoint initialize_from (space fd : nat) (standard : list (OpenObjectKind * Z)) : RM unit :=
  match standard with
  | [] => mret tt
  | (k, status) :: standard =>
      r ← getS;
      let own := space_owner (slot_at EMPTY_SPACE (spaces r) space) in
      match allocate_object own k status r with
      | (Err e, r') => putS (undo_standard space fd r');; throw e
      | (Ok index, r') =>
          putS (set_descriptor space fd (new_descriptor index 0) (on_object index first_reference r'));;
          initialize_from space (S fd) standard
      end
  end.

Definition initialize_standard_descriptors (space : nat) : RM unit :=
  initialize_from space 0 standard_objects.

Definition ensure_space (own : ProcessHandle) : RM nat :=
  ensure (valid_owner own) PermissionDenied;;
  r ← getS;
  match find_space (spaces r) own with
  | Some index => mret index
  | None =>
      index ← ok_or (position (λ s, negb (space_used s)) (spaces r)) Capacity;
      modifyS (on_space index (with_owner own));;
      r ← getS;
      match initialize_standard_descriptors index r with
      | (Err _, r') => putS (on_space index (with_owner NO_PROCESS) r');; throw Capacity
      | (Ok _, r') => putS r';; mret index
      end
  end.

(** The used descriptor [fd] of a space. *)
Definition lookup_descriptor (space : nat) (fd : Z) : RM DescriptorSlot :=
  r ← getS;
  match descriptors_of r space !! Z.to_nat fd with
  | Some d => if slot_used d then mret d else throw BadFileDescriptor
  | None => throw BadFileDescriptor
  end.

(** The index a used descriptor names. *)
Definition target_index (d : DescriptorSlot) : nat := default O (object_index d).

Definition install_backend_object (descriptor_owner backend_owner : ProcessHandle) (k : OpenObjectKind)
    (status : Z) (close_on_exec : bool) : RM Z :=
  space ← ensure_space descriptor_owner;
  r ← getS;
  fd ← ok_or (position (λ d, negb (slot_used d)) (descriptors_of r space)) Capacity;
  index ← allocate_object backend_owner k status;
  modifyS (on_object index first_reference);;
  modifyS (set_descriptor space fd (new_descriptor index (z_of_bool close_on_exec)));;
  mret (Z.of_nat fd).

Definition install_object (own : ProcessHandle) (k : OpenObjectKind) (status : Z) (close_on_exec : bool) : RM Z :=
  install_backend_object own own k status close_on_exec.

Definition install_object_pair (own : ProcessHandle) (k1 : OpenObjectKind) (status1 : Z)
    (k2 : OpenObjectKind) (status2 : Z) (close_on_exec : bool) : RM (Z * Z) :=
  space ← ensure_space own;
  r ← getS;
  let free_descriptors := indices (λ d, negb (slot_used d)) (descriptors_of r space) in
  fd1 ← ok_or (free_descriptors !! 0%nat) Capacity;
  fd2 ← ok_or (free_descriptors !! 1%nat) Capacity;
  let free_objects := indices (λ o, negb (kind_occupied (kind o))) (objects r) in
  i1 ← ok_or (free_objects !! 0%nat) Capacity;
  i2 ← ok_or (free_objects !! 1%nat) Capacity;
  g1 ← ok_or (next_object_generation (generation (object_at r i1))) Capacity;
  g2 ← ok_or (next_object_generation (generation (object_at r i2))) Capacity;
  modifyS (set_object i1 (mkObject g1 own 1 1 0 false status1 k1));;
  modifyS (set_object i2 (mkObject g2 own 1 1 0 false status2 k2));;
  modifyS (set_descriptor space fd1 (new_descriptor i1 (z_of_bool close_on_exec)));;
  modifyS (set_descriptor space fd2 (new_descriptor i2 (z_of_bool close_on_exec)));;
  mret (Z.of_nat fd1, Z.of_nat fd2).

(** One more active operation on the object at [index], which must satisfy
    [p]. *)
Definition lease_object (index : nat) (p : OpenObject → bool) (key : OpenObject → ObjectKey) : RM ObjectLease :=
  r ← getS;
  o ← ok_or (objects r !! index) BadFileDescriptor;
  ensure (p o) BadFileDescriptor;;
  n ← ok_or (checked_add U16_MAX (active_operations o) 1) Capacity;
  modifyS (set_object index (with_active n o));;
  mret (mkLease (key o) (owner o) (kind o) (status_flags o)).

Definition acquire_descriptor (own : ProcessHandle) (fd : Z) : RM ObjectLease :=
  space ← ensure_space own;
  d ← lookup_descriptor space fd;
  let index := target_index d in
  lease_object index (λ o, kind_occupied (kind o) && negb (closing o)) (λ o, new_key index (generation o)).

Definition acquire_key (key : ObjectKey) : RM ObjectLease :=
  index ← ok_or (key_index key) BadFileDescriptor;
  lease_object index
    (λ o, kind_occupied (kind o) && (generation o =? k_generation key) && negb (closing o)) (λ _, key).

Definition maybe_take_closing (o : OpenObject) : option FinalObject * OpenObject :=
  if closing o && (references o =? 0) && (active_operations o =? 0)
  then let '(f, o') := take_object o in (Some f, o')
  else (None, o).

(** Changes the object at [index] and takes it when nothing holds it. *)
Definition settle (index : nat) (o : OpenObject) (r : DescriptorRegistry) :
    option FinalObject * DescriptorRegistry :=
  let '(pending, o') := maybe_take_closing o in (pending, set_object index o' r).

(** The locked part of [release_lease]. *)
Definition release_locked (key : ObjectKey) (r : DescriptorRegistry) :
    option FinalObject * DescriptorRegistry :=
  match key_index key with
  | None => (None, r)
  | Some index =>
      let o := object_at r index in
      if negb (generation o =? k_generation key) || (active_operations o =? 0) then (None, r)
      else settle index (with_active (active_operations o - 1) o) r
  end.

Definition retain_key (key : ObjectKey) : RM unit :=
  index ← ok_or (key_index key) BadFileDescriptor;
  r ← getS;
  o ← ok_or (objects r !! index) BadFileDescriptor;
  ensure (kind_occupied (kind o) && (generation o =? k_generation key)
          && negb (descriptor_references o =? 0) && negb (closing o)) BadFileDescriptor;;
  n ← ok_or (checked_add U16_MAX (references o) 1) Capacity;
  modifyS (set_object index (with_references n o)).

(** The locked part of [drop_key_reference]. *)
Definition drop_locked (key : ObjectKey) (r : DescriptorRegistry) :
    option FinalObject * DescriptorRegistry :=
  match key_index key with
  | None => (None, r)
  | Some index =>
      let o := object_at r index in
      if negb (generation o =? k_generation key) || (references o =? 0) then (None, r)
      else
        let o := with_references (references o - 1) o in
        let o := if references o =? 0 then with_closing o else o in
        settle index o r
  end.

(** One descriptor reference less; whether it was the last one. *)
Definition unreference (o : OpenObject) : OpenObject * bool :=
  let o := with_descriptor_references (descriptor_references o - 1) (with_references (references o - 1) o) in
  if descriptor_references o =? 0 then (with_closing o, true) else (o, false).

(** The locked part of [close]: the object to finalize and the key whose epoll
    watches are to be detached. *)
Definition close_locked (own : ProcessHandle) (fd : Z) : RM (option FinalObject * option ObjectKey) :=
  space ← ensure_space own;
  d ← lookup_descriptor space fd;
  let index := target_index d in
  r ← getS;
  let o := object_at r index in
  ensure (negb ((references o =? 0) || (descriptor_references o =? 0))) BadFileDescriptor;;
  modifyS (set_descriptor space (Z.to_nat fd) EMPTY_DESCRIPTOR);;
  let '(o, last) := unreference o in
  pending ← liftS (settle index o);
  mret (pending, if last then Some (new_key index (generation o)) else None).

(** [references] and [descriptor_references] of the object one up. *)
Definition reference (index : nat) : RM unit :=
  r ← getS;
  let o := object_at r index in
  n ← ok_or (checked_add U16_MAX (references o) 1) Capacity;
  m ← ok_or (checked_add U16_MAX (descriptor_references o) 1) Capacity;
  modifyS (set_object index (with_descriptor_references m (with_references n o))).

Definition duplicate (own : ProcessHandle) (old_fd minimum : Z) (close_on_exec : bool) : RM Z :=
  ensure (negb (MAXIMUM_FILE_DESCRIPTORS <=? Z.to_nat minimum)%nat) InvalidArgument;;
  space ← ensure_space own;
  d ← lookup_descriptor space old_fd;
  let index := target_index d in
  r ← getS;
  let gen := generation (object_at r index) in
  target ← ok_or ((λ k, (Z.to_nat minimum + k)%nat) <$>
    position (λ d, negb (slot_used d)) (drop (Z.to_nat minimum) (descriptors_of r space))) Capacity;
  let o := object_at r index in
  ensure (negb (negb (kind_occupied (kind o)) || negb (generation o =? gen) || closing o)) BadFileDescriptor;;
  reference index;;
  modifyS (set_descriptor space target (new_descriptor index (z_of_bool close_on_exec)));;
  mret (Z.of_nat target).

(** The locked part of [duplicate_to] for distinct descriptors. *)
Definition duplicate_to_locked (own : ProcessHandle) (old_fd new_fd : Z) (close_on_exec : bool) :
    RM (option FinalObject * option ObjectKey) :=
  space ← ensure_space own;
  source ← lookup_descriptor space old_fd;
  let source_index := target_index source in
  r ← getS;
  let so := object_at r source_index in
  ensure (negb (negb (kind_occupied (kind so)) || closing so)) BadFileDescriptor;;
  let existing := slot_at EMPTY_DESCRIPTOR (descriptors_of r space) (Z.to_nat new_fd) in
  out ←
    (if slot_used existing then
       let existing_index := target_index existing in
       if negb (existing_index =? source_index)%nat then
         let eo := object_at r existing_index in
         ensure (negb ((references eo =? 0) || (descriptor_references eo =? 0))) BadFileDescriptor;;
         reference source_index;;
         r ← getS;
         let '(o, last) := unreference (object_at r existing_index) in
         pending ← liftS (settle existing_index o);
         mret (pending, if last then Some (new_key existing_index (generation o)) else None)
       else mret (None, None)
     else reference source_index;; mret (None, None));
  modifyS (set_descriptor space (Z.to_nat new_fd) (new_descriptor source_index (z_of_bool close_on_exec)));;
  mret out.

(** The checks of [capture_transfers] for one descriptor, [keys] being those
    already captured. *)
Definition capture_one (space : nat) (keys : list ObjectKey) (fd : Z) : RM ObjectKey :=
  d ← lookup_descriptor space fd;
  let index := target_index d in
  r ← getS;
  let o := object_at r index in
  ensure (negb (negb (kind_occupied (kind o)) || closing o)) BadFileDescriptor;;
  ensure (match kind o with UnixSocket _ | Epoll _ => false | _ => true end) OperationNotSupported;;
  let key := new_key index (generation o) in
  let reservations := Z.of_nat (countb (key_eqb key) keys) + 1 in
  ensure (reservations <=? U16_MAX) Capacity;;
  ok_or (checked_add U16_MAX (references o) reservations) Capacity;;
  ok_or (checked_add U16_MAX (descriptor_references o) reservations) Capacity;;
  mret key.

Fixpoint capture_keys (space : nat) (keys : list ObjectKey) (fds : list Z) : RM (list ObjectKey) :=
  match fds with
  | [] => mret keys
  | fd :: fds => key ← capture_one space keys fd; capture_keys space (keys ++ [key]) fds
  end.

(** [references += 1; descriptor_references += 1] *)
Definition reserve (r : DescriptorRegistry) (key : ObjectKey) : DescriptorRegistry :=
  on_object (default O (key_index key)) (λ o,
    with_descriptor_references (descriptor_references o + 1) (with_references (references o + 1) o)) r.

(** [room] is the length of the output. *)
Definition capture_transfers (own : ProcessHandle) (fds : list Z) (room : nat) : RM (list ObjectKey) :=
  ensure (negb ((MAXIMUM_TRANSFER_DESCRIPTORS <? length fds)%nat || (room <? length fds)%nat)) InvalidArgument;;
  space ← ensure_space own;
  keys ← capture_keys space [] fds;
  modifyS (λ r, foldl reserve r keys);;
  mret keys.

(** A token whose object can be installed. *)
Definition token_live (r : DescriptorRegistry) (key : ObjectKey) : bool :=
  match key_index key with
  | None => false
  | Some index =>
      let o := object_at r index in
      negb (negb (kind_occupied (kind o)) || negb (generation o =? k_generation key)
            || (references o =? 0) || (descriptor_references o =? 0) || closing o)
  end.

Definition install_tokens (space : nat) (close_on_exec : bool) (r : DescriptorRegistry)
    (targets : list (nat * ObjectKey)) : DescriptorRegistry :=
  foldl (λ r '(fd, key),
    set_descriptor space fd (new_descriptor (default O (key_index key)) (z_of_bool close_on_exec)) r) r targets.

(** The descriptors the tokens get; the tokens are used up. *)
Definition install_transfers (own : ProcessHandle) (tokens : list ObjectKey) (close_on_exec : bool)
    (room : nat) : RM (list Z) :=
  ensure (negb ((MAXIMUM_TRANSFER_DESCRIPTORS <? length tokens)%nat || (room <? length tokens)%nat))
    InvalidArgument;;
  space ← ensure_space own;
  r ← getS;
  let targets := take (length tokens) (indices (λ d, negb (slot_used d)) (descriptors_of r space)) in
  ensure (length targets =? length tokens)%nat Capacity;;
  ensure (forallb (token_live r) tokens) BadFileDescriptor;;
  modifyS (λ r, install_tokens space close_on_exec r (zip targets tokens));;
  mret (Z.of_nat <$> targets).

(** The locked part of one round of [release_transfers]. *)
Definition release_transfer_locked (key : ObjectKey) (r : DescriptorRegistry) :
    option FinalObject * bool * DescriptorRegistry :=
  match key_index key with
  | None => (None, false, r)
  | Some index =>
      let o := object_at r index in
      if negb (generation o =? k_generation key) || (references o =? 0) || (descriptor_references o =? 0)
      then (None, false, r)
      else
        let '(o, last) := unreference o in
        let '(pending, r) := settle index o r in
        (pending, last, r)
  end.

Definition descriptor_flags (own : ProcessHandle) (fd : Z) : RM Z :=
  space ← ensure_space own;
  d ← lookup_descriptor space fd;
  mret (if negb (Z.land (flags d) 1 =? 0) then FD_CLOEXEC else 0).

Definition set_descriptor_flags (own : ProcessHandle) (fd flg : Z) : RM unit :=
  ensure (and_not flg FD_CLOEXEC =? 0) InvalidArgument;;
  space ← ensure_space own;
  d ← lookup_descriptor space fd;
  modifyS (set_descriptor space (Z.to_nat fd)
    (mkSlot (object d) (z_of_bool (negb (Z.land flg FD_CLOEXEC =? 0))))).

Definition set_status_flags (own : ProcessHandle) (fd requested : Z) : RM unit :=
  space ← ensure_space own;
  d ← lookup_descriptor space fd;
  modifyS (on_object (target_index d) (λ o,
    with_status (Z.lor (and_not (status_flags o) O_NONBLOCK) (Z.land requested O_NONBLOCK)) o)).

(** One round of [close_matching]'s loop: what has been closed, is to be
    finalized and detached so far. *)
Definition Closing : Type := DescriptorRegistry * nat * list FinalObject * list ObjectKey.

Definition saturating_unreference (o : OpenObject) : OpenObject :=
  with_descriptor_references (Z.max 0 (descriptor_references o - 1))
    (with_references (Z.max 0 (references o - 1)) o).

Definition close_descriptor (space : nat) (only_close_on_exec : bool) (acc : Closing) (fd : nat) : Closing :=
  let '(r, closed, pending, detached) := acc in
  let d := slot_at EMPTY_DESCRIPTOR (descriptors_of r space) fd in
  if negb (slot_used d) || only_close_on_exec && (Z.land (flags d) FD_CLOEXEC =? 0) then acc
  else
    let index := target_index d in
    let r := set_descriptor space fd EMPTY_DESCRIPTOR r in
    let o := saturating_unreference (object_at r index) in
    let last := descriptor_references o =? 0 in
    let o := if last then with_closing o else o in
    let detached := if last then detached ++ [new_key index (generation o)] else detached in
    let '(final, r) := settle index o r in
    let pending := match final with Some f => pending ++ [f] | None => pending end in
    (r, S closed, pending, detached).

(** The locked part of [close_matching]. *)
Definition close_matching_locked (own : ProcessHandle) (only_close_on_exec : bool) (r : DescriptorRegistry) :
    nat * list FinalObject * list ObjectKey * DescriptorRegistry :=
  match find_space (spaces r) own with
  | None => (O, [], [], r)
  | Some space =>
      let '(r, closed, pending, detached) :=
        foldl (close_descriptor space only_close_on_exec) (r, O, [], []) (seq 0 MAXIMUM_FILE_DESCRIPTORS) in
      let r := if only_close_on_exec then r else on_space space (with_owner NO_PROCESS) r in
      (closed, pending, detached, r)
  end.
End Registry.

(** ** The invariant *)

(** What holds an object besides its descriptors: by key, the leases of active
    operations, the transfers in flight and the epoll watches. *)
Record Holders := mkHolders {
  leases : ObjectKey → nat;
  transfers : ObjectKey → nat;
  watches : ObjectKey → nat;
}.

Definition points (i : nat) (d : DescriptorSlot) : bool := object d =? Z.of_nat i + 1.

(** The number of descriptors of all spaces that name object [i]. *)
Definition named_by (r : DescriptorRegistry) (i : nat) : nat :=
  sum_list_with (λ s, countb (points i) (descriptors s)) (spaces r).

(** An object named by [d] descriptors, [t] transfers, [w] watches and [l]
    leases. *)
Record object_live (d t w l : nat) (o : OpenObject) : Prop := {
  ol_descriptors : descriptor_references o = Z.of_nat (d + t);
  ol_references : references o = Z.of_nat (d + t + w);
  ol_active : active_operations o = Z.of_nat l;
  ol_closing : closing o = (descriptor_references o =? 0);
  ol_held : (0 < d + t + w + l)%nat;
  ol_generation : 1 ≤ generation o ≤ U32_MAX;
  ol_bounds : references o ≤ U16_MAX ∧ active_operations o ≤ U16_MAX;
}.

Definition object_free (d : nat) (o : OpenObject) : Prop :=
  d = O ∧ ∃ g, 0 ≤ g ≤ U32_MAX ∧ o = with_generation g EMPTY_OBJECT.

Definition object_ok (d t w l : nat) (o : OpenObject) : Prop :=
  if kind_occupied (kind o) then object_live d t w l o else object_free d o.

Definition key_of (i : nat) (o : OpenObject) : ObjectKey := new_key i (generation o).

(** A slot names an object of the table or is [EMPTY_DESCRIPTOR]. *)
Definition slot_ok (d : DescriptorSlot) : Prop :=
  0 ≤ object d ≤ Z.of_nat MAXIMUM_OPEN_OBJECTS ∧ (slot_used d = false → d = EMPTY_DESCRIPTOR).

Record spaces_wf (l : list DescriptorSpace) : Prop := {
  sw_length : length l = MAXIMUM_DESCRIPTOR_SPACES;
  sw_descriptors : ∀ k s, l !! k = Some s → length (descriptors s) = MAXIMUM_FILE_DESCRIPTORS;
  sw_free : ∀ k s, l !! k = Some s → space_used s = false → s = EMPTY_SPACE;
  sw_owners : ∀ j k s s', l !! j = Some s → l !! k = Some s' → space_used s = true →
    space_owner s = space_owner s' → j = k;
  sw_range : ∀ k s fd d, l !! k = Some s → descriptors s !! fd = Some d → slot_ok d;
}.

Record wf (h : Holders) (r : DescriptorRegistry) : Prop := {
  wf_spaces : spaces_wf (spaces r);
  wf_length : length (objects r) = MAXIMUM_OPEN_OBJECTS;
  wf_object : ∀ i o, objects r !! i = Some o →
    object_ok (named_by r i) (transfers h (key_of i o)) (watches h (key_of i o)) (leases h (key_of i o)) o;
  wf_keys : ∀ k, (0 < leases h k + transfers h k + watches h k)%nat →
    ∃ i o, objects r !! i = Some o ∧ kind_occupied (kind o) = true ∧ k = key_of i o;
}.

Definition nobody : Holders := mkHolders (λ _, O) (λ _, O) (λ _, O).

(** One holder more or less on a key. *)
Definition more (k : ObjectKey) (f : ObjectKey → nat) : ObjectKey → nat :=
  λ k', if key_eqb k k' then S (f k') else f k'.
Definition fewer (k : ObjectKey) (f : ObjectKey → nat) : ObjectKey → nat :=
  λ k', if key_eqb k k' then pred (f k') else f k'.

Lemma more_eq k f : more k f k = S (f k).
Proof. unfold more. by rewrite (proj2 (key_eqb_eq _ _)). Qed.
Lemma fewer_eq k f : fewer k f k = pred (f k).
Proof. unfold fewer. by rewrite (proj2 (key_eqb_eq _ _)). Qed.
Lemma more_ne k f k' : k ≠ k' → more k f k' = f k'.
Proof. unfold more. intros Hne. destruct (key_eqb k k') eqn:E; [|done]. by apply key_eqb_eq in E. Qed.
Lemma fewer_ne k f k' : k ≠ k' → fewer k f k' = f k'.
Proof. unfold fewer. intros Hne. destruct (key_eqb k k') eqn:E; [|done]. by apply key_eqb_eq in E. Qed.

Lemma key_of_inj i o j o' :
  (i < MAXIMUM_OPEN_OBJECTS)%nat → (j < MAXIMUM_OPEN_OBJECTS)%nat →
  key_of i o = key_of j o' → i = j ∧ generation o = generation o'.
Proof. unfold MAXIMUM_OPEN_OBJECTS. intros Hi Hj. apply new_key_inj; unfold U16_MAX; simpl in *; lia. Qed.

Lemma sum_list_with_insert {A} (f : A → nat) (l : list A) i x y :
  l !! i = Some x → (sum_list_with f (<[i := y]> l) + f x = sum_list_with f l + f y)%nat.
Proof.
  revert i. induction l as [|z l IH]; intros [|i] Hi; simplify_eq/=; [lia|]. specialize (IH i Hi). lia.
Qed.

(** ** Descriptors *)

Lemma set_descriptor_run r space fd slot s :
  spaces r !! space = Some s →
  set_descriptor space fd slot r
  = mkRegistry (<[space := mkSpace (space_owner s) (<[fd := slot]> (descriptors s))]> (spaces r)) (objects r).
Proof.
  intros Hs. unfold set_descriptor, on_space. f_equal. apply list_eq. intros k.
  destruct (decide (space = k)) as [->|Hne].
  - rewrite list_lookup_alter_eq, list_lookup_insert_eq, Hs by by eapply lookup_lt_Some. done.
  - by rewrite list_lookup_alter_ne, list_lookup_insert_ne.
Qed.

Lemma named_by_set r space fd slot s d i :
  spaces r !! space = Some s → descriptors s !! fd = Some d →
  (named_by (set_descriptor space fd slot r) i + Nat.b2n (points i d)
   = named_by r i + Nat.b2n (points i slot))%nat.
Proof.
  intros Hs Hd. rewrite (set_descriptor_run _ _ _ _ _ Hs). unfold named_by. simpl.
  pose proof (sum_list_with_insert (λ s, countb (points i) (descriptors s)) _ _ _
    (mkSpace (space_owner s) (<[fd := slot]> (descriptors s))) Hs) as H1.
  pose proof (countb_insert (points i) _ _ _ slot Hd) as H2. simpl in H1. lia.
Qed.

Lemma spaces_wf_set r space fd slot :
  spaces_wf (spaces r) → (∀ s, spaces r !! space = Some s → space_used s = true) →
  slot_ok slot → spaces_wf (spaces (set_descriptor space fd slot r)).
Proof.
  intros [Hl Hd Hf Ho Hr] Hu Hslot. unfold set_descriptor, on_space. simpl.
  assert (∀ k s', alter (λ s, mkSpace (space_owner s) (<[fd:=slot]> (descriptors s))) space (spaces r) !! k = Some s' →
    ∃ s, spaces r !! k = Some s ∧ space_owner s' = space_owner s ∧ length (descriptors s') = length (descriptors s) ∧
      (s' = s ∨ k = space ∧ descriptors s' = <[fd := slot]> (descriptors s))) as Hlk.
  { intros k s'. destruct (decide (space = k)) as [->|Hne].
    - rewrite list_lookup_alter_eq. intros (s & Hs & ->)%fmap_Some. exists s. simpl. rewrite length_insert. split_and!; auto.
    - rewrite list_lookup_alter_ne by done. eauto 6. }
  split.
  - by rewrite length_alter.
  - intros k s' (s & Hs & _ & -> & _)%Hlk. eauto.
  - intros k s' (s & Hs & Hown & _ & Hc)%Hlk Hfree.
    assert (space_used s = false) as Hsf by (unfold space_used in *; by rewrite <- Hown).
    destruct Hc as [->|[-> _]]; [by eapply Hf|]. rewrite (Hu s Hs) in Hsf. done.
  - intros j k s' t' (s & Hs & Hown & _)%Hlk (t & Ht & Hown' & _)%Hlk Hused Heq.
    eapply (Ho j k s t); [done..| |congruence]. unfold space_used in *. by rewrite <- Hown.
  - intros k s' fd' d (s & Hs & _ & _ & Hc)%Hlk Hd'. destruct Hc as [->|[_ Hds]]; [by eapply Hr|].
    rewrite Hds in Hd'. destruct (decide (fd = fd')) as [->|].
    + apply list_lookup_insert_Some in Hd' as [(_ & <- & _)|[? _]]; [done|done].
    + rewrite list_lookup_insert_ne in Hd' by done. by eapply Hr.
Qed.

(** ** One object changes *)

Definition same_at (k : ObjectKey) (h h' : Holders) : Prop :=
  leases h' k = leases h k ∧ transfers h' k = transfers h k ∧ watches h' k = watches h k.

Definition held (h : Holders) (k : ObjectKey) : nat := (leases h k + transfers h k + watches h k)%nat.

Section Change.
Context (h : Holders) (r : DescriptorRegistry) (i : nat) (o : OpenObject).
Hypothesis Hw : wf h r.
Hypothesis Hi : objects r !! i = Some o.

Lemma object_index_lt : (i < MAXIMUM_OPEN_OBJECTS)%nat.
Proof. rewrite <- (wf_length _ _ Hw). by eapply lookup_lt_Some. Qed.

Lemma key_of_ne j x y : objects r !! j = Some x → j ≠ i → key_of j x ≠ key_of i y.
Proof.
  intros Hj Hne Heq. apply key_of_inj in Heq as [? _]; [done| |apply object_index_lt].
  rewrite <- (wf_length _ _ Hw). by eapply lookup_lt_Some.
Qed.

(** A key of index [i] that is held is the object's own. *)
Lemma held_generation x : (0 < held h (key_of i x))%nat → kind_occupied (kind o) = true ∧ generation x = generation o.
Proof.
  intros Hh. destruct (wf_keys _ _ Hw _ Hh) as (j & y & Hj & Hk & Heq).
  destruct (decide (j = i)) as [->|Hne]; [|by destruct (key_of_ne j y x Hj Hne)].
  assert (y = o) as -> by congruence. apply key_of_inj in Heq as [_ ?]; [done|apply object_index_lt..].
Qed.

Lemma wf_update h' r' o' :
  spaces_wf (spaces r') → objects r' = <[i := o']> (objects r) →
  (∀ j, j ≠ i → named_by r' j = named_by r j) →
  (∀ k, (∀ x, k ≠ key_of i x) → same_at k h h') →
  object_ok (named_by r' i) (transfers h' (key_of i o')) (watches h' (key_of i o')) (leases h' (key_of i o')) o' →
  (∀ x, (0 < held h' (key_of i x))%nat → kind_occupied (kind o') = true ∧ generation x = generation o') →
  wf h' r'.
Proof.
  intros Hsp Hobj Hnb Hsame Hok Hlive. pose proof object_index_lt as Hlt. split; [done| | |].
  - by rewrite Hobj, length_insert, (wf_length _ _ Hw).
  - intros j x. rewrite Hobj. destruct (decide (i = j)) as [<-|Hne].
    + rewrite list_lookup_insert_eq by (rewrite (wf_length _ _ Hw); done). by intros [= <-].
    + rewrite list_lookup_insert_ne by done. intros Hj.
      destruct (Hsame (key_of j x)) as (-> & -> & ->); [intros y; by apply key_of_ne|].
      rewrite Hnb by done. by apply (wf_object _ _ Hw).
  - intros k Hk. destruct (decide (k_index k = k_index (key_of i o'))) as [Hki|Hki].
    + assert (k = key_of i (with_generation (k_generation k) o')) as Heq.
      { unfold key_of, new_key in *. simpl in *. rewrite <- Hki. by destruct k. }
      rewrite Heq in Hk. destruct (Hlive _ Hk) as [Hocc Hgen]. exists i, o'. split_and!; [|done|].
      * rewrite Hobj, list_lookup_insert_eq; [done|]. by rewrite (wf_length _ _ Hw).
      * rewrite Heq. unfold key_of. by rewrite <- Hgen.
    + assert (∀ x, k ≠ key_of i x) as Hne by (intros x ->; by apply Hki).
      destruct (Hsame k Hne) as (Hl & Ht & Hwt). rewrite Hl, Ht, Hwt in Hk.
      destruct (wf_keys _ _ Hw k Hk) as (j & x & Hj & Hocc & ->). exists j, x. split; [|done].
      rewrite Hobj, list_lookup_insert_ne; [done|]. intros ->. by destruct (Hne x).
Qed.

(** The object changes within its generation, and only its own key's holders. *)
Lemma wf_change h' r' o' :
  spaces_wf (spaces r') → objects r' = <[i := o']> (objects r) → generation o' = generation o →
  (∀ j, j ≠ i → named_by r' j = named_by r j) → (∀ k, k ≠ key_of i o → same_at k h h') →
  object_ok (named_by r' i) (transfers h' (key_of i o)) (watches h' (key_of i o)) (leases h' (key_of i o)) o' →
  (kind_occupied (kind o') = false → held h' (key_of i o) = O) →
  wf h' r'.
Proof.
  intros Hsp Hobj Hgen Hnb Hsame Hok Hfree. assert (key_of i o' = key_of i o) as Hkey by (unfold key_of; by rewrite Hgen).
  apply (wf_update h' r' o'); [done..| |by rewrite Hkey|].
  - intros k Hk. apply Hsame, Hk.
  - intros x Hx. rewrite Hgen. destruct (decide (key_of i x = key_of i o)) as [Heq|Hne].
    + rewrite Heq in Hx. apply key_of_inj in Heq as [_ Hg]; [|apply object_index_lt..]. split; [|done].
      destruct (kind_occupied (kind o')); [done|]. rewrite (Hfree eq_refl) in Hx. lia.
    + destruct (Hsame _ Hne) as (Hl & Ht & Hwt). unfold held in Hx. rewrite Hl, Ht, Hwt in Hx.
      destruct (held_generation x Hx) as [_ Hg]. destruct Hne. unfold key_of. by rewrite Hg.
Qed.

(** The next tenant of a free slot. *)
Lemma wf_tenant r' o' :
  kind_occupied (kind o) = false → generation o' ≠ generation o →
  spaces_wf (spaces r') → objects r' = <[i := o']> (objects r) →
  (∀ j, j ≠ i → named_by r' j = named_by r j) →
  object_ok (named_by r' i) 0 0 0 o' → wf h r'.
Proof.
  intros Hfree Hgen Hsp Hobj Hnb Hok.
  assert (∀ x, held h (key_of i x) = O) as Hzero.
  { intros x. destruct (held h (key_of i x)) eqn:E; [done|].
    destruct (held_generation x) as [Hocc _]; [rewrite E; lia|]. congruence. }
  pose proof (Hzero o') as Hz. unfold held in Hz.
  apply (wf_update h r' o'); [done..| | |].
  - intros k _. by split_and!.
  - replace (transfers h (key_of i o')) with O by lia. replace (watches h (key_of i o')) with O by lia.
    by replace (leases h (key_of i o')) with O by lia.
  - intros x Hx. rewrite Hzero in Hx. lia.
Qed.
End Change.

(** ** Settling an object *)

(** The counts are exact but nothing may hold the object any more. *)
Record object_near (d t w l : nat) (o : OpenObject) : Prop := {
  on_descriptors : descriptor_references o = Z.of_nat (d + t);
  on_references : references o = Z.of_nat (d + t + w);
  on_active : active_operations o = Z.of_nat l;
  on_closing : closing o = (descriptor_references o =? 0);
  on_generation : 1 ≤ generation o ≤ U32_MAX;
  on_bounds : references o ≤ U16_MAX ∧ active_operations o ≤ U16_MAX;
}.

Lemma object_live_near d t w l o : object_live d t w l o → object_near d t w l o.
Proof. intros []. by split. Qed.

(** An object is taken exactly when its last holder is gone. *)
Lemma maybe_take_run d t w l o :
  object_near d t w l o → kind_occupied (kind o) = true →
  maybe_take_closing o =
    (if (d + t + w + l =? 0)%nat
     then (Some (mkFinal (owner o) (kind o)), with_generation (generation o) EMPTY_OBJECT)
     else (None, o)) ∧
  object_ok d t w l (maybe_take_closing o).2.
Proof.
  intros [Hd Hr Ha Hc Hg Hb] Ho. unfold maybe_take_closing, take_object.
  rewrite Hc, Hd, Hr, Ha. destruct (Nat.eqb_spec (d + t + w + l) 0) as [Hz|Hz].
  - assert (d = O ∧ t = O ∧ w = O ∧ l = O) as (-> & -> & -> & ->) by lia. simpl. split; [done|].
    split; [done|]. exists (generation o). split; [lia|done].
  - assert ((Z.of_nat (d + t) =? 0) && (Z.of_nat (d + t + w) =? 0) && (Z.of_nat l =? 0) = false) as ->.
    { apply not_true_is_false. rewrite !andb_true_iff, !Z.eqb_eq. lia. }
    split; [done|]. unfold object_ok. simpl. rewrite Ho. split; try done. lia.
Qed.

Section Settle.
Context (h : Holders) (r : DescriptorRegistry) (i : nat) (o : OpenObject).
Hypothesis Hw : wf h r.
Hypothesis Hi : objects r !! i = Some o.
Hypothesis Ho : kind_occupied (kind o) = true.

Lemma live_object :
  object_live (named_by r i) (transfers h (key_of i o)) (watches h (key_of i o)) (leases h (key_of i o)) o.
Proof. pose proof (wf_object _ _ Hw _ _ Hi) as Hok. unfold object_ok in Hok. by rewrite Ho in Hok. Qed.

(** Changing the counts of a live object and settling it. *)
Lemma wf_settle h' r1 o1 :
  spaces_wf (spaces r1) → objects r1 = objects r → generation o1 = generation o →
  kind o1 = kind o → owner o1 = owner o →
  (∀ j, j ≠ i → named_by r1 j = named_by r j) → (∀ k, k ≠ key_of i o → same_at k h h') →
  object_near (named_by r1 i) (transfers h' (key_of i o)) (watches h' (key_of i o)) (leases h' (key_of i o)) o1 →
  wf h' (settle i o1 r1).2 ∧
  (settle i o1 r1).1 =
    (if (named_by r1 i + held h' (key_of i o) =? 0)%nat then Some (mkFinal (owner o) (kind o)) else None).
Proof.
  intros Hsp Hobj Hgen Hkind Hown Hnb Hsame Hnear.
  destruct (maybe_take_run _ _ _ _ o1 Hnear) as [Hrun Hok]; [congruence|].
  assert (∀ n, named_by (set_object i n r1) = named_by r1) as Hns by done.
  unfold settle, held. rewrite <- Hkind, <- Hown.
  replace (named_by r1 i + (leases h' (key_of i o) + transfers h' (key_of i o) + watches h' (key_of i o)))%nat
    with (named_by r1 i + transfers h' (key_of i o) + watches h' (key_of i o) + leases h' (key_of i o))%nat by lia.
  destruct (maybe_take_closing o1) as [f o2]. simpl in *.
  split; [|by destruct (_ =? _)%nat; injection Hrun as -> ->].
  apply (wf_change h r i o Hw Hi h' _ o2); try done.
  - simpl. by rewrite Hobj.
  - destruct (_ =? _)%nat; injection Hrun as -> ->; simpl; done.
  - intros Hfree. destruct (Nat.eqb_spec (named_by r1 i + transfers h' (key_of i o) + watches h' (key_of i o) + leases h' (key_of i o)) 0).
    + unfold held. lia.
    + injection Hrun as -> ->. rewrite Hkind in Hfree. congruence.
Qed.
End Settle.

(** ** Primitive transitions *)

Definition with_leases (f : ObjectKey → nat) (h : Holders) : Holders := mkHolders f (transfers h) (watches h).
Definition with_transfers (f : ObjectKey → nat) (h : Holders) : Holders := mkHolders (leases h) f (watches h).
Definition with_watches (f : ObjectKey → nat) (h : Holders) : Holders := mkHolders (leases h) (transfers h) f.

Lemma same_more_lease k h k' : k' ≠ k → same_at k' h (with_leases (more k (leases h)) h).
Proof. intros Hne. split_and!; [|done..]. simpl. by rewrite more_ne. Qed.
Lemma same_fewer_lease k h k' : k' ≠ k → same_at k' h (with_leases (fewer k (leases h)) h).
Proof. intros Hne. split_and!; [|done..]. simpl. by rewrite fewer_ne. Qed.
Lemma same_more_transfer k h k' : k' ≠ k → same_at k' h (with_transfers (more k (transfers h)) h).
Proof. intros Hne. split_and!; [done| |done]. simpl. by rewrite more_ne. Qed.
Lemma same_fewer_transfer k h k' : k' ≠ k → same_at k' h (with_transfers (fewer k (transfers h)) h).
Proof. intros Hne. split_and!; [done| |done]. simpl. by rewrite fewer_ne. Qed.
Lemma same_more_watch k h k' : k' ≠ k → same_at k' h (with_watches (more k (watches h)) h).
Proof. intros Hne. split_and!; [done..|]. simpl. by rewrite more_ne. Qed.
Lemma same_fewer_watch k h k' : k' ≠ k → same_at k' h (with_watches (fewer k (watches h)) h).
Proof. intros Hne. split_and!; [done..|]. simpl. by rewrite fewer_ne. Qed.

Lemma named_by_object j x r i : named_by (set_object j x r) i = named_by r i.
Proof. done. Qed.

Lemma points_empty i : points i EMPTY_DESCRIPTOR = false.
Proof. unfold points. apply Z.eqb_neq. simpl. lia. Qed.

Lemma points_new i j f :
  (j < MAXIMUM_OPEN_OBJECTS)%nat → points i (new_descriptor j f) = (j =? i)%nat.
Proof.
  unfold MAXIMUM_OPEN_OBJECTS. intros Hj. unfold points, new_descriptor. simpl.
  rewrite Z.mod_small by (unfold U16_MAX; simpl in Hj; lia).
  destruct (Nat.eqb_spec j i) as [->|]; [apply Z.eqb_refl|apply Z.eqb_neq; lia].
Qed.

(** A used descriptor in range names the object at its index. *)
Lemma points_target i d : 0 ≤ object d → slot_used d = true → points i d = (target_index d =? i)%nat.
Proof.
  unfold points, target_index, object_index. intros Hr Hu. rewrite Hu. simpl.
  unfold slot_used in Hu. apply negb_true_iff, Z.eqb_neq in Hu.
  destruct (Nat.eqb_spec (Z.to_nat (object d - 1)) i); [apply Z.eqb_eq|apply Z.eqb_neq]; lia.
Qed.

Lemma object_target d : 0 ≤ object d → slot_used d = true → object d = Z.of_nat (target_index d) + 1.
Proof.
  intros Hr Hu. pose proof (points_target (target_index d) d Hr Hu) as Hp.
  rewrite Nat.eqb_refl in Hp. by apply Z.eqb_eq in Hp.
Qed.

Lemma object_new i f : (i < MAXIMUM_OPEN_OBJECTS)%nat → object (new_descriptor i f) = Z.of_nat i + 1.
Proof.
  intros Hi. pose proof (points_new i i f Hi) as Hp. rewrite Nat.eqb_refl in Hp. by apply Z.eqb_eq in Hp.
Qed.

Lemma points_unused i d : slot_used d = false → points i d = false.
Proof. unfold slot_used, points. rewrite negb_false_iff. intros ?%Z.eqb_eq. apply Z.eqb_neq. lia. Qed.

(** A used space and one of its descriptors. *)
Definition descriptor_at (r : DescriptorRegistry) (space fd : nat) (d : DescriptorSlot) : Prop :=
  ∃ s, spaces r !! space = Some s ∧ space_used s = true ∧ descriptors s !! fd = Some d.

Lemma descriptor_space r space fd d :
  descriptor_at r space fd d → ∀ s, spaces r !! space = Some s → space_used s = true.
Proof. intros (s & Hs & Hu & _) s' Hs'. congruence. Qed.

Lemma named_by_put r space fd d slot i :
  descriptor_at r space fd d →
  (named_by (set_descriptor space fd slot r) i + Nat.b2n (points i d) = named_by r i + Nat.b2n (points i slot))%nat.
Proof. intros (s & Hs & _ & Hd). by eapply named_by_set. Qed.

Lemma new_descriptor_range i f :
  (i < MAXIMUM_OPEN_OBJECTS)%nat → slot_ok (new_descriptor i f).
Proof.
  unfold slot_ok, MAXIMUM_OPEN_OBJECTS. intros Hi. unfold slot_used, new_descriptor. simpl.
  rewrite Z.mod_small by (unfold U16_MAX; simpl in Hi; lia). simpl in Hi. split; [lia|].
  intros Hz%negb_false_iff%Z.eqb_eq. lia.
Qed.

Lemma empty_descriptor_range : slot_ok EMPTY_DESCRIPTOR.
Proof. split; [split; [done|apply Nat2Z.is_nonneg]|done]. Qed.

Section Primitives.
Context (h : Holders) (r : DescriptorRegistry) (i : nat) (o : OpenObject).
Hypothesis Hw : wf h r.
Hypothesis Hi : objects r !! i = Some o.
Hypothesis Ho : kind_occupied (kind o) = true.
Let k := key_of i o.

Lemma wf_lease :
  active_operations o + 1 ≤ U16_MAX →
  wf (with_leases (more k (leases h)) h) (set_object i (with_active (active_operations o + 1) o) r).
Proof.
  intros Hmax. destruct (live_object h r i o Hw Hi Ho) as [Hd Hr Ha Hc Hh Hg Hb].
  eapply (wf_change h r i o Hw Hi); [apply Hw|done|done|done|apply same_more_lease| |simpl; congruence].
  unfold object_ok. simpl. rewrite Ho. fold k in Ha, Hd, Hr, Hh |- *. rewrite named_by_object, more_eq. split; simpl; try done; lia.
Qed.

Lemma wf_release :
  (0 < leases h k)%nat →
  let '(f, r') := settle i (with_active (active_operations o - 1) o) r in
  wf (with_leases (fewer k (leases h)) h) r' ∧
  f = (if (named_by r i + pred (held h k) =? 0)%nat then Some (mkFinal (owner o) (kind o)) else None).
Proof.
  intros Hpos. destruct (live_object h r i o Hw Hi Ho) as [Hd Hr Ha Hc Hh Hg Hb].
  destruct (wf_settle h r i o Hw Hi Ho (with_leases (fewer k (leases h)) h) r
    (with_active (active_operations o - 1) o)) as [Hw' Hf]; try done; [apply Hw|apply same_fewer_lease| |].
  - fold k in Ha, Hd, Hr |- *. simpl. rewrite fewer_eq. split; simpl; try done; lia.
  - destruct (settle _ _ _) as [f r']. split; [done|]. simpl in Hf. rewrite Hf. unfold held. fold k. simpl. rewrite fewer_eq.
    by replace (pred (leases h k) + transfers h k + watches h k)%nat
      with (pred (leases h k + transfers h k + watches h k))%nat by lia.
Qed.

Lemma wf_retain :
  (descriptor_references o =? 0) = false → references o + 1 ≤ U16_MAX →
  wf (with_watches (more k (watches h)) h) (set_object i (with_references (references o + 1) o) r).
Proof.
  intros Hnz Hmax. destruct (live_object h r i o Hw Hi Ho) as [Hd Hr Ha Hc Hh Hg Hb].
  eapply (wf_change h r i o Hw Hi); [apply Hw|done|done|done|apply same_more_watch| |simpl; congruence].
  unfold object_ok. simpl. rewrite Ho. fold k in Ha, Hd, Hr, Hh |- *. rewrite named_by_object, more_eq. split; simpl; try done; lia.
Qed.

Lemma wf_drop :
  (0 < watches h k)%nat →
  let o1 := with_references (references o - 1) o in
  let '(f, r') := settle i (if references o1 =? 0 then with_closing o1 else o1) r in
  wf (with_watches (fewer k (watches h)) h) r' ∧
  f = (if (named_by r i + pred (held h k) =? 0)%nat then Some (mkFinal (owner o) (kind o)) else None).
Proof.
  intros Hpos o1. destruct (live_object h r i o Hw Hi Ho) as [Hd Hr Ha Hc Hh Hg Hb].
  assert ((if references o1 =? 0 then with_closing o1 else o1) = o1) as ->.
  { destruct (Z.eqb_spec (references o1) 0) as [Hz|]; [|done].
    assert (closing o = true) as Hcl by (rewrite Hc; apply Z.eqb_eq; simpl in Hz; fold k in Hr, Hd, Hpos; lia).
    unfold o1, with_closing, with_references. simpl. by rewrite Hcl. }
  destruct (wf_settle h r i o Hw Hi Ho (with_watches (fewer k (watches h)) h) r o1) as [Hw' Hf]; try done;
    [apply Hw|apply same_fewer_watch| |].
  - fold k in Ha, Hd, Hr |- *. simpl. rewrite fewer_eq. split; simpl; try done; lia.
  - destruct (settle _ _ _) as [f r']. split; [done|]. simpl in Hf. rewrite Hf. unfold held. fold k. simpl. rewrite fewer_eq.
    by replace (leases h k + transfers h k + pred (watches h k))%nat
      with (pred (leases h k + transfers h k + watches h k))%nat by lia.
Qed.
End Primitives.

Definition referenced (o : OpenObject) : OpenObject :=
  with_descriptor_references (descriptor_references o + 1) (with_references (references o + 1) o).

Section Descriptors.
Context (h : Holders) (r : DescriptorRegistry) (i : nat) (o : OpenObject).
Hypothesis Hw : wf h r.
Hypothesis Hi : objects r !! i = Some o.
Let k := key_of i o.

Lemma lookup_object_at : object_at r i = o.
Proof. by apply slot_at_Some. Qed.

Section Live.
Hypothesis Ho : kind_occupied (kind o) = true.

Lemma unreference_near d t w l :
  (0 < d + t)%nat → object_near d t w l o →
  ∀ d' t', (d' + t' = pred (d + t))%nat → object_near d' t' w l (unreference o).1 ∧
    (unreference o).2 = (d' + t' =? 0)%nat.
Proof.
  intros Hpos [Hd Hr Ha Hc Hg Hb] d' t' Heq. unfold unreference. simpl.
  destruct (Z.eqb_spec (descriptor_references o - 1) 0); (split; [split; simpl; try done; try lia|simpl]).
  - symmetry. apply Nat.eqb_eq. lia.
  - rewrite Hc. transitivity false; [apply Z.eqb_neq; lia|symmetry; apply Z.eqb_neq; lia].
  - symmetry. apply Nat.eqb_neq. lia.
Qed.

Lemma unreference_fields : generation (unreference o).1 = generation o ∧ kind (unreference o).1 = kind o ∧
  owner (unreference o).1 = owner o.
Proof. unfold unreference. by destruct (_ =? 0). Qed.

(** A descriptor of the object is closed. *)
Lemma wf_unreference space fd d :
  descriptor_at r space fd d → slot_used d = true → target_index d = i →
  let '(f, r') := settle i (unreference o).1 (set_descriptor space fd EMPTY_DESCRIPTOR r) in
  wf h r' ∧
  f = (if (pred (named_by r i) + held h k =? 0)%nat then Some (mkFinal (owner o) (kind o)) else None) ∧
  (unreference o).2 = (pred (named_by r i) + transfers h k =? 0)%nat ∧ (0 < named_by r i)%nat.
Proof.
  intros Hd Hu Ht. pose proof (live_object h r i o Hw Hi Ho) as Hlive. fold k in Hlive.
  pose proof (wf_spaces _ _ Hw) as Hsp. pose proof Hd as (s & Hs & _ & Hds).
  assert (0 ≤ object d) as Hrange by (eapply (sw_range _ Hsp _ _ _ _ Hs Hds)).
  pose proof (named_by_put r space fd d EMPTY_DESCRIPTOR i Hd) as Hnb.
  rewrite points_empty, (points_target i d), Ht, Nat.eqb_refl in Hnb by done. simpl in Hnb.
  destruct (unreference_near (named_by r i) (transfers h k) (watches h k) (leases h k)) with
    (d' := named_by (set_descriptor space fd EMPTY_DESCRIPTOR r) i) (t' := transfers h k) as [Hnear Hlast];
    [lia|by apply object_live_near|lia|].
  destruct unreference_fields as (Hgen & Hkind & Hown).
  destruct (wf_settle h r i o Hw Hi Ho h (set_descriptor space fd EMPTY_DESCRIPTOR r) (unreference o).1) as [Hw' Hf]; try done.
  - apply spaces_wf_set; [done|by eapply descriptor_space|apply empty_descriptor_range].
  - intros j Hne. pose proof (named_by_put r space fd d EMPTY_DESCRIPTOR j Hd) as Hj.
    rewrite points_empty, (points_target j d) in Hj by done. destruct (Nat.eqb_spec (target_index d) j); simpl in Hj; [congruence|lia].
  - destruct (settle _ _ _) as [f r']. simpl in Hw', Hf. split_and!; [done| | |lia].
    + rewrite Hf. by replace (pred (named_by r i)) with (named_by (set_descriptor space fd EMPTY_DESCRIPTOR r) i) by lia.
    + by replace (pred (named_by r i)) with (named_by (set_descriptor space fd EMPTY_DESCRIPTOR r) i) by lia.
Qed.

(** A transfer of the object is dropped. *)
Lemma wf_release_transfer :
  (0 < transfers h k)%nat →
  let '(f, r') := settle i (unreference o).1 r in
  wf (with_transfers (fewer k (transfers h)) h) r' ∧
  f = (if (named_by r i + pred (held h k) =? 0)%nat then Some (mkFinal (owner o) (kind o)) else None) ∧
  (unreference o).2 = (named_by r i + pred (transfers h k) =? 0)%nat.
Proof.
  intros Hpos. pose proof (live_object h r i o Hw Hi Ho) as Hlive. fold k in Hlive.
  destruct (unreference_near (named_by r i) (transfers h k) (watches h k) (leases h k)) with
    (d' := named_by r i) (t' := pred (transfers h k)) as [Hnear Hlast];
    [lia|by apply object_live_near|lia|].
  destruct unreference_fields as (Hgen & Hkind & Hown).
  destruct (wf_settle h r i o Hw Hi Ho (with_transfers (fewer k (transfers h)) h) r (unreference o).1) as [Hw' Hf]; try done;
    [apply Hw|apply same_fewer_transfer|simpl; fold k; by rewrite fewer_eq|].
  destruct (settle _ _ _) as [f r']. simpl in Hw', Hf. split_and!; [done| |done].
  rewrite Hf. unfold held. fold k. simpl. rewrite fewer_eq.
  by replace (leases h k + pred (transfers h k) + watches h k)%nat
    with (pred (leases h k + transfers h k + watches h k))%nat by lia.
Qed.

Lemma wf_reserve :
  closing o = false → references o + 1 ≤ U16_MAX →
  wf (with_transfers (more k (transfers h)) h) (set_object i (referenced o) r).
Proof.
  intros Hcl Hmax. destruct (live_object h r i o Hw Hi Ho) as [Hd Hr Ha Hc Hh Hg Hb].
  eapply (wf_change h r i o Hw Hi); [apply Hw|done|done|done|apply same_more_transfer| |simpl; congruence].
  unfold object_ok. simpl. rewrite Ho. fold k in Ha, Hd, Hr, Hh |- *. rewrite named_by_object, more_eq.
  split; simpl; try done; try lia. rewrite Hcl. symmetry. apply Z.eqb_neq. lia.
Qed.

(** A free descriptor comes to name the object. *)
Lemma named_by_fill space fd d f j :
  descriptor_at r space fd d → slot_used d = false →
  named_by (set_descriptor space fd (new_descriptor i f) r) j
  = (named_by r j + Nat.b2n (i =? j))%nat.
Proof.
  intros Hd Hu. pose proof (named_by_put r space fd d (new_descriptor i f) j Hd) as Hnb.
  rewrite (points_unused j d), points_new in Hnb by (done || by eapply object_index_lt). simpl in Hnb. lia.
Qed.

Lemma wf_reference space fd d f :
  descriptor_at r space fd d → slot_used d = false → closing o = false → references o + 1 ≤ U16_MAX →
  wf h (set_descriptor space fd (new_descriptor i f) (set_object i (referenced o) r)).
Proof.
  intros Hd Hu Hcl Hmax. destruct (live_object h r i o Hw Hi Ho) as [Hds Hr Ha Hc Hh Hg Hb].
  pose proof (named_by_fill space fd d f) as Hnb. pose proof (object_index_lt h r i o Hw Hi) as Hlt.
  assert (∀ j, named_by (set_descriptor space fd (new_descriptor i f) (set_object i (referenced o) r)) j
    = named_by (set_descriptor space fd (new_descriptor i f) r) j) as Hso by done.
  eapply (wf_change h r i o Hw Hi); [|done|done| |done| |simpl; congruence].
  - apply (spaces_wf_set r); [apply Hw|by eapply descriptor_space|by apply new_descriptor_range].
  - intros j Hne. rewrite Hso, Hnb by done. destruct (Nat.eqb_spec i j); [congruence|simpl; lia].
  - unfold object_ok. simpl. rewrite Ho, Hso, Hnb, Nat.eqb_refl by done. simpl. fold k in Ha, Hds, Hr, Hh |- *.
    split; simpl; try done; try lia. rewrite Hcl. symmetry. apply Z.eqb_neq. lia.
Qed.

(** A transfer in flight becomes a descriptor. *)
Lemma wf_deliver space fd d f :
  descriptor_at r space fd d → slot_used d = false → (0 < transfers h k)%nat →
  wf (with_transfers (fewer k (transfers h)) h) (set_descriptor space fd (new_descriptor i f) r).
Proof.
  intros Hd Hu Hpos. destruct (live_object h r i o Hw Hi Ho) as [Hds Hr Ha Hc Hh Hg Hb].
  pose proof (named_by_fill space fd d f) as Hnb. pose proof (object_index_lt h r i o Hw Hi) as Hlt.
  eapply (wf_change h r i o Hw Hi _ _ o); [| |done| |apply same_fewer_transfer| |congruence].
  - apply spaces_wf_set; [apply Hw|by eapply descriptor_space|by apply new_descriptor_range].
  - simpl. by rewrite list_insert_id.
  - intros j Hne. rewrite Hnb by done. destruct (Nat.eqb_spec i j); [congruence|simpl; lia].
  - unfold object_ok. rewrite Ho, Hnb, Nat.eqb_refl by done. simpl. fold k in Ha, Hds, Hr, Hh |- *. rewrite fewer_eq.
    split; simpl; try done; try lia.
Qed.
End Live.

(** A free object gets its first descriptor. *)
Lemma wf_install space fd d f own status kd :
  kind_occupied (kind o) = false → kind_occupied kd = true → generation o + 1 ≤ U32_MAX →
  descriptor_at r space fd d → slot_used d = false →
  wf h (set_descriptor space fd (new_descriptor i f)
    (set_object i (mkObject (generation o + 1) own 1 1 0 false status kd) r)).
Proof.
  intros Ho Hkd Hgen Hd Hu. pose proof (named_by_fill space fd d f) as Hnb.
  pose proof (object_index_lt h r i o Hw Hi) as Hlt. pose proof (wf_object _ _ Hw _ _ Hi) as Hok.
  unfold object_ok in Hok. rewrite Ho in Hok. destruct Hok as (Hz & g & Hg & ->). simpl in Hgen.
  set (o' := mkObject _ _ _ _ _ _ _ _).
  assert (∀ j, named_by (set_descriptor space fd (new_descriptor i f) (set_object i o' r)) j
    = named_by (set_descriptor space fd (new_descriptor i f) r) j) as Hso by done.
  eapply (wf_tenant h r i _ Hw Hi _ o'); [done|simpl; lia| |done| |].
  - apply (spaces_wf_set r); [apply Hw|by eapply descriptor_space|by apply new_descriptor_range].
  - intros j Hne. rewrite Hso, Hnb by done. destruct (Nat.eqb_spec i j); [congruence|simpl; lia].
  - unfold object_ok, o'. simpl. rewrite Hkd, Hso, Hnb, Nat.eqb_refl, Hz by done. simpl.
    split; simpl; try done; try (unfold U16_MAX; lia).
Qed.
End Descriptors.

(** ** Spaces *)

Definition space_of (r : DescriptorRegistry) (own : ProcessHandle) (space : nat) : Prop :=
  ∃ s, spaces r !! space = Some s ∧ space_used s = true ∧ space_owner s = own.

(** Nothing that was in use has changed. *)
Definition extends (r r' : DescriptorRegistry) : Prop :=
  (∀ i o, objects r !! i = Some o → kind_occupied (kind o) = true → objects r' !! i = Some o) ∧
  (∀ k s, spaces r !! k = Some s → space_used s = true → spaces r' !! k = Some s).

#[global] Instance extends_preorder : PreOrder extends.
Proof.
  split; [by intros r|]. intros r1 r2 r3 [Ho1 Hs1] [Ho2 Hs2]. split; eauto.
Qed.

Lemma find_space_Some r own space :
  find_space (spaces r) own = Some space → space_of r own space.
Proof.
  intros (s & Hs & [Hu Ho]%andb_true_iff)%position_lookup. apply handle_eqb_eq in Ho. by exists s.
Qed.

Lemma find_space_None r own :
  find_space (spaces r) own = None →
  ∀ k s, spaces r !! k = Some s → space_used s = true → space_owner s ≠ own.
Proof.
  intros Hn k s Hk Hu Heq. pose proof (proj1 (position_None _ _) Hn k s Hk) as Hf. simpl in Hf.
  by rewrite Hu, (proj2 (handle_eqb_eq _ _) Heq) in Hf.
Qed.

(** An empty space changes hands. *)
Lemma wf_with_owner h r space s own :
  wf h r → spaces r !! space = Some s → descriptors s = NO_DESCRIPTORS →
  own = NO_PROCESS ∨ valid_owner own = true ∧
    (∀ k s', spaces r !! k = Some s' → space_used s' = true → space_owner s' ≠ own) →
  wf h (on_space space (with_owner own) r).
Proof.
  intros Hw Hs Hnone Hown. destruct Hw as [[Hl Hd Hf Ho Hr] Hlen Hobj Hkeys].
  assert (∀ k s', spaces (on_space space (with_owner own) r) !! k = Some s' →
    k = space ∧ s' = mkSpace own NO_DESCRIPTORS ∨ k ≠ space ∧ spaces r !! k = Some s') as Hlk.
  { intros k s'. simpl. destruct (decide (space = k)) as [->|Hne].
    - rewrite list_lookup_alter_eq, Hs. intros [= <-]. left. unfold with_owner. by rewrite Hnone.
    - rewrite list_lookup_alter_ne by done. auto. }
  assert (∀ i, named_by (on_space space (with_owner own) r) i = named_by r i) as Hnb.
  { intros i. unfold named_by. simpl. apply Nat.add_cancel_r with (p := countb (points i) (descriptors s)).
    assert (alter (with_owner own) space (spaces r) = <[space := with_owner own s]> (spaces r)) as ->.
    { apply list_eq. intros k. destruct (decide (space = k)) as [->|Hne].
      - by rewrite list_lookup_alter_eq, Hs, list_lookup_insert_eq by by eapply lookup_lt_Some.
      - by rewrite list_lookup_alter_ne, list_lookup_insert_ne. }
    apply (sum_list_with_insert (λ s, countb (points i) (descriptors s)) _ _ _ (with_owner own s) Hs). }
  split; [|done| |done].
  - split; [by simpl; rewrite length_alter| | | |].
    + intros k s' [[-> ->]|[_ Hk]]%Hlk; [done|eauto].
    + intros k s' [[-> ->]|[_ Hk]]%Hlk; [|eauto]. destruct Hown as [->|[Hv _]]; [done|].
      unfold space_used. simpl. by rewrite Hv.
    + intros j k s1 s2 [[-> ->]|[Hj H1]]%Hlk [[-> ->]|[Hk H2]]%Hlk Hu Heq; simpl in *; [done| | |by eapply Ho].
      * destruct Hown as [->|[_ Hno]]; [done|]. destruct (Hno k s2); try done.
        unfold space_used in *. simpl in Hu. by rewrite <- Heq.
      * destruct Hown as [Hnp|[_ Hno]]; [|by destruct (Hno j s1)].
        unfold space_used in Hu. by rewrite Heq, Hnp in Hu.
    + intros k s' fd d [[-> ->]|[_ Hk]]%Hlk Hd'; [|by eapply Hr]. simpl in Hd'.
      apply lookup_replicate in Hd' as [-> _]. apply empty_descriptor_range.
  - intros i o Hi. rewrite Hnb. by apply Hobj.
Qed.

(** ** Stock *)

(** Kinds with state in a backend, whose finalization must happen once. *)
Definition backed (k : OpenObjectKind) : bool :=
  match k with Empty | ConsoleInput | ConsoleOutput | ConsoleError => false | _ => true end.

#[global] Instance FinalObject_eq_dec : EqDecision FinalObject.
Proof. solve_decision. Defined.

Definition is_final (f x : FinalObject) : bool := backed (f_kind x) && bool_decide (x = f).
Definition final_of (o : OpenObject) : FinalObject := mkFinal (owner o) (kind o).

(** How many open objects there are of an owner and kind. *)
Definition stock (r : DescriptorRegistry) (f : FinalObject) : nat :=
  countb (λ o, is_final f (final_of o)) (objects r).
Definition tally (f : FinalObject) (l : list FinalObject) : nat := countb (is_final f) l.

Lemma stock_set r i o o' f :
  objects r !! i = Some o →
  (stock (set_object i o' r) f + Nat.b2n (is_final f (final_of o))
   = stock r f + Nat.b2n (is_final f (final_of o')))%nat.
Proof. intros Hi. apply (countb_insert (λ o, is_final f (final_of o))). done. Qed.

Lemma stock_same r i o o' f :
  objects r !! i = Some o → final_of o' = final_of o → stock (set_object i o' r) f = stock r f.
Proof. intros Hi Heq. pose proof (stock_set r i o o' f Hi) as H. rewrite Heq in H. lia. Qed.

Lemma stock_unbacked r i o o' f :
  objects r !! i = Some o → backed (kind o) = false → backed (kind o') = false → stock (set_object i o' r) f = stock r f.
Proof.
  intros Hi Hb Hb'. pose proof (stock_set r i o o' f Hi) as H. unfold is_final, final_of in H. simpl in H.
  rewrite Hb, Hb' in H. simpl in H. lia.
Qed.

Lemma stock_settle r i o o1 f :
  objects r !! i = Some o → final_of o1 = final_of o →
  (stock (settle i o1 r).2 f + tally f (option_list (settle i o1 r).1) = stock r f)%nat.
Proof.
  intros Hi Heq. unfold settle, maybe_take_closing, take_object. destruct (_ && _).
  - simpl. pose proof (stock_set r i o (with_generation (generation o1) EMPTY_OBJECT) f Hi) as H.
    unfold tally. simpl. change (mkFinal (owner o1) (kind o1)) with (final_of o1). rewrite Heq.
    change (is_final f (final_of (with_generation (generation o1) EMPTY_OBJECT))) with false in H.
    destruct (is_final f (final_of o)); simpl in *; lia.
  - cbn [fst snd option_list]. rewrite (stock_same r i o o1 f Hi Heq). unfold tally. simpl. lia.
Qed.

Lemma stock_descriptor space fd slot r f : stock (set_descriptor space fd slot r) f = stock r f.
Proof. done. Qed.

(** A free slot gets a tenant. *)
Lemma stock_install r i o o' f :
  objects r !! i = Some o → kind_occupied (kind o) = false →
  stock (set_object i o' r) f = (stock r f + tally f [final_of o'])%nat.
Proof.
  intros Hi Ho. pose proof (stock_set r i o o' f Hi) as Hs.
  assert (is_final f (final_of o) = false) as Hf by (unfold is_final, final_of; simpl; by destruct (kind o)).
  rewrite Hf in Hs. unfold tally. simpl. destruct (is_final f (final_of o')); simpl in *; lia.
Qed.

(** ** Standard descriptors *)

Lemma allocate_run {F} own kd status (r : DescriptorRegistry) :
  (∃ e, allocate_object (F := F) own kd status r = (Err e, r)) ∨
  ∃ i o, objects r !! i = Some o ∧ kind_occupied (kind o) = false ∧ generation o + 1 ≤ U32_MAX ∧
    allocate_object (F := F) own kd status r =
      (Ok i, set_object i (mkObject (generation o + 1) own 0 0 0 false status kd) r).
Proof.
  unfold allocate_object. m_unfold. destruct (position _ _) as [i|] eqn:Hp; [|left; by eexists].
  apply position_lookup in Hp as (o & Hi & Ho%negb_true_iff). unfold object_at. rewrite (slot_at_Some _ _ _ _ Hi).
  unfold next_object_generation. destruct (checked_add U32_MAX (generation o) 1) as [g|] eqn:Hg; [|left; by eexists].
  apply checked_add_Some in Hg as [-> Hg]. destruct (_ =? 0); [left; by eexists|]. right. eauto 8.
Qed.

(** Descriptors [lo] to [hi] of the space are the standard ones just made, each
    the only holder of its object, and all others are free. *)
Record standing (r0 r : DescriptorRegistry) (space : nat) (own : ProcessHandle) (lo hi : nat) : Prop := {
  st_space : space_of r own space;
  st_base : extends r0 r;
  st_unused : ∀ s, spaces r0 !! space = Some s → space_used s = false;
  st_stock : ∀ f, stock r f = stock r0 f;
  st_made : ∀ k, (lo ≤ k < hi)%nat → ∃ i o, descriptor_at r space k (new_descriptor i 0) ∧
    objects r !! i = Some o ∧ kind_occupied (kind o) = true ∧ references o = 1 ∧ active_operations o = 0 ∧ backed (kind o) = false ∧
    (∀ o0, objects r0 !! i = Some o0 → kind_occupied (kind o0) = false);
  st_free : ∀ k, (k < MAXIMUM_FILE_DESCRIPTORS)%nat → (k < lo ∨ hi ≤ k)%nat →
    descriptor_at r space k EMPTY_DESCRIPTOR;
}.

Lemma descriptor_at_set r space fd slot k d :
  descriptor_at r space k d → (fd < MAXIMUM_FILE_DESCRIPTORS)%nat → spaces_wf (spaces r) →
  descriptor_at (set_descriptor space fd slot r) space k (if decide (k = fd) then slot else d).
Proof.
  intros (s & Hs & Hu & Hd) Hlt Hsp. exists (mkSpace (space_owner s) (<[fd := slot]> (descriptors s))).
  split_and!; [|done|].
  - unfold set_descriptor, on_space. simpl. by rewrite list_lookup_alter_eq, Hs.
  - simpl. destruct (decide (k = fd)) as [->|]; [|by rewrite list_lookup_insert_ne].
    apply list_lookup_insert_eq. by rewrite (sw_descriptors _ Hsp _ _ Hs).
Qed.

Lemma space_of_set r space fd slot own space' :
  space_of r own space' → space_of (set_descriptor space fd slot r) own space'.
Proof.
  intros (s & Hs & Hu & Ho). unfold space_of, set_descriptor, on_space. simpl. destruct (decide (space = space')) as [->|Hne].
  - rewrite list_lookup_alter_eq, Hs. simpl. eauto.
  - rewrite list_lookup_alter_ne by done. eauto.
Qed.

Lemma named_by_pos r space fd d i : descriptor_at r space fd d → points i d = true → (0 < named_by r i)%nat.
Proof.
  intros (s & Hs & _ & Hd) Hp. pose proof (countb_pos (points i) _ _ _ Hd Hp) as Hc. unfold named_by.
  apply list_elem_of_lookup_2 in Hs. apply list_elem_of_split in Hs as (l1 & l2 & ->).
  rewrite sum_list_with_app. simpl. lia.
Qed.

Lemma on_set_object i f x r : (i < length (objects r))%nat → on_object i f (set_object i x r) = set_object i (f x) r.
Proof.
  intros Hi. unfold on_object, set_object. simpl. f_equal. apply list_eq. intros k.
  destruct (decide (i = k)) as [->|Hne].
  - by rewrite list_lookup_alter_eq, !list_lookup_insert_eq.
  - by rewrite list_lookup_alter_ne, !list_lookup_insert_ne.
Qed.

Lemma on_object_set i f x r : objects r !! i = Some x → on_object i f r = set_object i (f x) r.
Proof. intros Hi. rewrite <- on_set_object by by eapply lookup_lt_Some. unfold set_object. rewrite list_insert_id by done. by destruct r. Qed.

Lemma set_set_descriptor_object space fd slot i x r :
  set_descriptor space fd slot (set_object i x r) = set_object i x (set_descriptor space fd slot r).
Proof. done. Qed.

(** A change to a slot in use before [r0], or to a space in use before it,
    breaks [extends]; others keep it. *)
Lemma extends_object r0 r i x :
  extends r0 r → (∀ o0, objects r0 !! i = Some o0 → kind_occupied (kind o0) = false) → extends r0 (set_object i x r).
Proof.
  intros [Ho Hs] Hfree. split; [|done]. intros j o Hj Hocc. simpl. rewrite list_lookup_insert_ne; [by apply Ho|].
  intros ->. by rewrite (Hfree o Hj) in Hocc.
Qed.

Lemma extends_space r0 r space f :
  extends r0 r → (∀ s, spaces r0 !! space = Some s → space_used s = false) → extends r0 (on_space space f r).
Proof.
  intros [Ho Hs] Hfree. split; [done|]. intros k s Hk Hu. simpl. rewrite list_lookup_alter_ne; [by apply Hs|].
  intros ->. by rewrite (Hfree s Hk) in Hu.
Qed.

Lemma extends_unused r0 r i o :
  extends r0 r → objects r !! i = Some o → kind_occupied (kind o) = false →
  ∀ o0, objects r0 !! i = Some o0 → kind_occupied (kind o0) = false.
Proof.
  intros [Ho _] Hi Hf o0 H0. destruct (kind_occupied (kind o0)) eqn:E; [|done]. rewrite (Ho _ _ H0 E) in Hi. congruence.
Qed.

Section Standing.
Context (h : Holders) (r0 : DescriptorRegistry) (space : nat) (own : ProcessHandle).

Lemma standing_install r fd i o kd status :
  wf h r → standing r0 r space own 0 fd → (fd < MAXIMUM_FILE_DESCRIPTORS)%nat →
  objects r !! i = Some o → kind_occupied (kind o) = false → generation o + 1 ≤ U32_MAX →
  kind_occupied kd = true → backed kd = false →
  let r' := set_descriptor space fd (new_descriptor i 0)
    (set_object i (mkObject (generation o + 1) own 1 1 0 false status kd) r) in
  wf h r' ∧ standing r0 r' space own 0 (S fd).
Proof.
  intros Hw [Hsp Hb Hun Hst Hmade Hfree] Hlt Hi Ho Hg Hkd Hbk r'. pose proof (Hfree fd Hlt ltac:(lia)) as Hd.
  pose proof (wf_spaces _ _ Hw) as Hsw.
  assert (wf h r') as Hw' by (eapply wf_install; eauto).
  split; [done|]. split.
  - by apply space_of_set.
  - unfold r'. rewrite set_set_descriptor_object. apply extends_object; [by apply extends_space|by eapply extends_unused].
  - done.
  - intros f. rewrite <- Hst. apply (stock_unbacked r i o _ f Hi); [|done]. by destruct (kind o).
  - intros k Hk. destruct (decide (k = fd)) as [->|Hne].
    + eexists i, _. split; [|split; [by simpl; apply list_lookup_insert_eq; eapply lookup_lt_Some|]].
      * pose proof (descriptor_at_set _ _ _ (new_descriptor i 0) _ _ Hd Hlt Hsw) as H1.
        by rewrite decide_True in H1 by done.
      * split_and!; [done..|]. by eapply extends_unused.
    + destruct (Hmade k ltac:(lia)) as (j & x & Hdj & Hj & Hx). exists j, x. split_and!; try apply Hx.
      * pose proof (descriptor_at_set _ _ _ (new_descriptor i 0) _ _ Hdj Hlt Hsw) as H1.
        by rewrite decide_False in H1 by done.
      * simpl. rewrite list_lookup_insert_ne; [done|]. intros ->. destruct Hx as [Hx _]. congruence.
  - intros k Hkl Hk. destruct (decide (k = fd)) as [->|Hne]; [lia|].
    pose proof (descriptor_at_set _ _ _ (new_descriptor i 0) _ _ (Hfree k Hkl ltac:(lia)) Hlt Hsw) as H1.
    by rewrite decide_False in H1 by done.
Qed.

Lemma target_new i f : (i < MAXIMUM_OPEN_OBJECTS)%nat → target_index (new_descriptor i f) = i ∧ slot_used (new_descriptor i f) = true.
Proof.
  intros Hi. pose proof (new_descriptor_range i f Hi) as [Hr _]. pose proof (points_new i i f Hi) as Hp.
  rewrite Nat.eqb_refl in Hp. unfold points in Hp. apply Z.eqb_eq in Hp.
  assert (slot_used (new_descriptor i f) = true) as Hu by (unfold slot_used; apply negb_true_iff, Z.eqb_neq; lia).
  split; [|done]. unfold target_index, object_index. rewrite Hu, Hp. simpl. lia.
Qed.

Lemma descriptors_at r space' k d : descriptor_at r space' k d → slot_at EMPTY_DESCRIPTOR (descriptors_of r space') k = d.
Proof.
  intros (s & Hs & _ & Hd). unfold descriptors_of. rewrite (slot_at_Some _ _ _ _ Hs). by apply slot_at_Some.
Qed.

Lemma standing_undo r k fd :
  wf h r → standing r0 r space own k fd → (k < fd)%nat → (fd ≤ MAXIMUM_FILE_DESCRIPTORS)%nat →
  let index := default O (object_index (slot_at EMPTY_DESCRIPTOR (descriptors_of r space) k)) in
  let r' := on_object index (λ o, (take_object o).2) (set_descriptor space k EMPTY_DESCRIPTOR r) in
  wf h r' ∧ standing r0 r' space own (S k) fd.
Proof.
  intros Hw [Hsp Hb Hun Hstk Hmade Hfree] Hlt Hfd index r'. pose proof (wf_spaces _ _ Hw) as Hsw.
  destruct (Hmade k ltac:(lia)) as (i & o & Hd & Hi & Ho & Href & Hact & Hbk & Hfr).
  pose proof (object_index_lt h r i o Hw Hi) as Hil. destruct (target_new i 0 Hil) as [Ht Hu].
  assert (index = i) as -> by (unfold index; by rewrite (descriptors_at _ _ _ _ Hd)).
  pose proof (live_object h r i o Hw Hi Ho) as [Hds Hr Ha Hc Hh Hg _].
  set (r1 := set_descriptor space k EMPTY_DESCRIPTOR r) in *.
  pose proof (named_by_put r space k _ EMPTY_DESCRIPTOR i Hd) as Hnb. fold r1 in Hnb.
  rewrite points_empty, points_new, Nat.eqb_refl in Hnb by done. simpl in Hnb.
  pose proof (wf_unreference h r i o Hw Hi Ho space k _ Hd Hu Ht) as Hun'. fold r1 in Hun'.
  assert ((settle i (unreference o).1 r1).2 = r') as Heq.
  { unfold r'. rewrite (on_object_set i _ o) by done. unfold settle, unreference. simpl.
    replace (descriptor_references o - 1) with 0 by lia. simpl. unfold maybe_take_closing. simpl.
    rewrite Href, Hact. done. }
  destruct (settle i (unreference o).1 r1) as [f r2]. simpl in Heq. subst r2. destruct Hun' as (Hw' & _).
  split; [done|]. assert (∀ j d, (j < MAXIMUM_FILE_DESCRIPTORS)%nat → descriptor_at r space j d →
    descriptor_at r1 space j (if decide (j = k) then EMPTY_DESCRIPTOR else d)) as Hda.
  { intros j d Hj Hdj. apply descriptor_at_set; [done|lia|done]. }
  split.
  - by apply space_of_set.
  - unfold r'. rewrite (on_object_set i _ o) by done. apply extends_object; [by apply extends_space|done].
  - done.
  - intros f0. unfold r'. rewrite (on_object_set i _ o) by done. rewrite <- Hstk.
    by apply (stock_unbacked r1 i o).
  - intros j Hj. destruct (Hmade j ltac:(lia)) as (i' & x & Hd' & Hi' & Hx). exists i', x.
    pose proof (Hda j _ ltac:(lia) Hd') as Hdj. rewrite decide_False in Hdj by lia. split_and!; try apply Hx; [done|].
    unfold r'. rewrite (on_object_set i _ o) by done. simpl. rewrite list_lookup_insert_ne; [done|]. intros <-.
    assert (0 < named_by r1 i)%nat as Hpos by (eapply named_by_pos; [exact Hdj|]; by rewrite points_new, Nat.eqb_refl).
    lia.
  - intros j Hj Hc'. destruct (decide (j = k)) as [->|Hne].
    + pose proof (Hda k _ ltac:(lia) Hd) as H1. by rewrite decide_True in H1 by done.
    + pose proof (Hda j _ Hj (Hfree j Hj ltac:(lia))) as H1. by rewrite decide_False in H1 by done.
Qed.

Lemma undo_standing fd : ∀ r,
  wf h r → standing r0 r space own 0 fd → (fd ≤ MAXIMUM_FILE_DESCRIPTORS)%nat →
  wf h (undo_standard space fd r) ∧ standing r0 (undo_standard space fd r) space own fd fd.
Proof.
  unfold undo_standard. replace (seq 0 fd) with (seq 0 (fd - 0)) by (f_equal; lia).
  assert (∀ n k r, (k + n = fd)%nat → wf h r → standing r0 r space own k fd → (fd ≤ MAXIMUM_FILE_DESCRIPTORS)%nat →
    let r' := foldl (λ r k, on_object (default O (object_index (slot_at EMPTY_DESCRIPTOR (descriptors_of r space) k)))
      (λ o, (take_object o).2) (set_descriptor space k EMPTY_DESCRIPTOR r)) r (seq k n) in
    wf h r' ∧ standing r0 r' space own fd fd) as Hgen; [|intros r; apply Hgen; lia].
  induction n as [|n IH]; intros k r Hk Hw Hst Hfd; simpl.
  - by replace k with fd in Hst by lia.
  - destruct (standing_undo r k fd Hw Hst ltac:(lia) Hfd) as [Hw' Hst']. apply IH; [lia|done..].
Qed.

Lemma initialize_standing {F} std : ∀ fd r,
  wf h r → standing r0 r space own 0 fd → (fd + length std ≤ MAXIMUM_FILE_DESCRIPTORS)%nat →
  Forall (λ p, kind_occupied p.1 = true ∧ backed p.1 = false) std →
  match initialize_from (F := F) space fd std r with
  | (Ok _, r') => wf h r' ∧ standing r0 r' space own 0 (fd + length std)
  | (Err _, r') => wf h r' ∧ ∃ k, standing r0 r' space own k k
  end.
Proof.
  induction std as [|[kd status] std IH]; intros fd r Hw Hst Hlen Hall; simpl.
  { rewrite Nat.add_0_r. by split. }
  inversion_clear Hall as [|? ? [Hkd Hbk] Hrest]. simpl in *. m_unfold.
  pose proof (st_space _ _ _ _ _ _ Hst) as (s & Hs & Hu & Hown). rewrite (slot_at_Some _ _ _ _ Hs), Hown.
  destruct (allocate_run (F := F) own kd status r) as [[e ->]|(i & o & Hi & Ho & Hg & ->)].
  - destruct (undo_standing fd r Hw Hst ltac:(lia)) as [Hw' Hst']. eauto.
  - rewrite on_set_object by by eapply lookup_lt_Some.
    destruct (standing_install r fd i o kd status Hw Hst ltac:(lia) Hi Ho Hg Hkd Hbk) as [Hw' Hst'].
    specialize (IH (S fd) _ Hw' Hst' ltac:(lia) Hrest).
    replace (fd + S (length std))%nat with (S fd + length std)%nat by lia. exact IH.
Qed.
End Standing.

Lemma ensure_space_wf {F} h r own :
  wf h r →
  match ensure_space (F := F) own r with
  | (Ok space, r') => wf h r' ∧ space_of r' own space ∧ extends r r' ∧ ∀ f, stock r' f = stock r f
  | (Err _, r') => wf h r' ∧ extends r r' ∧ ∀ f, stock r' f = stock r f
  end.
Proof.
  intros Hw. unfold ensure_space. m_unfold. destruct (valid_owner own) eqn:Hv; [|done].
  destruct (find_space (spaces r) own) as [space|] eqn:Hfs.
  { split_and!; [done|by apply find_space_Some|done..]. }
  destruct (position _ (spaces r)) as [space|] eqn:Hp; [|done].
  apply position_lookup in Hp as (s & Hs & Hu%negb_true_iff).
  pose proof (sw_free _ (wf_spaces _ _ Hw) _ _ Hs Hu) as ->.
  set (r1 := on_space space (with_owner own) r).
  assert (wf h r1) as Hw1 by (eapply wf_with_owner; [done..|]; right; split; [done|by apply find_space_None]).
  assert (spaces r1 !! space = Some (mkSpace own NO_DESCRIPTORS)) as Hs1
    by (unfold r1; simpl; by rewrite list_lookup_alter_eq, Hs).
  assert (extends r r1) as He1 by (apply extends_space; [done|]; intros s' Hs'; by simplify_eq).
  assert (standing r r1 space own 0 0) as Hst.
  { split; [by eexists|done|intros s' Hs'; by simplify_eq|done|lia|]. intros k Hk _. eexists. split_and!; [done..|].
    apply lookup_replicate. done. }
  pose proof (initialize_standing (F := F) h r space own standard_objects 0 r1 Hw1 Hst) as Hini.
  unfold initialize_standard_descriptors. destruct (initialize_from space 0 standard_objects r1) as [[u|e] r2].
  - destruct Hini as [Hw2 Hst2]; [unfold MAXIMUM_FILE_DESCRIPTORS; simpl; lia|by repeat constructor|].
    split_and!; [done|apply Hst2..].
  - destruct Hini as [Hw2 (k & Hst2)]; [unfold MAXIMUM_FILE_DESCRIPTORS; simpl; lia|by repeat constructor|].
    destruct Hst2 as [(s2 & Hs2 & Hu2 & Ho2) Hb Hun Hstk _ Hfree]. split_and!; [| |done].
    + eapply wf_with_owner; [done..| |by left]. apply list_eq_same_length with (n := MAXIMUM_FILE_DESCRIPTORS);
        [apply length_replicate|by eapply (sw_descriptors _ (wf_spaces _ _ Hw2))|].
      intros j d d' Hj Hd Hd'. destruct (Hfree j Hj ltac:(lia)) as (s3 & Hs3 & _ & Hd3).
      apply lookup_replicate in Hd' as [-> _]. congruence.
    + by apply extends_space.
Qed.
