(* ===== verification/FdRefs.v ===== *)
(** * Reference counting of open objects

    Every critical section of the descriptor table (FdTable) keeps the counts
    exact and hands an object out for finalization when, and only when, its
    last holder goes. The theorems are about arbitrary sequences of sections,
    so about any interleaving of concurrent system calls. *)

From stdpp Require Import prelude list numbers option.
From Stdlib Require Import ZArith Lia.
From S2P Require Import Prelude.
From S2P Require Import Handles.
From S2P Require Import ObjectKey.
From S2P Require Import OpenFlags.
From S2P Require Import FdTable.

(** ** Operations *)

(** [r'] is well formed for [h'], and every backed object installed or present
    before is still there or has been handed out for finalization. *)
Definition balanced (h' : Holders) (r r' : DescriptorRegistry) (installed finals : list FinalObject) : Prop :=
  wf h' r' ∧ ∀ f, (stock r' f + tally f finals = stock r f + tally f installed)%nat.

Lemma balanced_quiet h' r r' : wf h' r' → (∀ f, stock r' f = stock r f) → balanced h' r r' [] [].
Proof. intros Hw Hs. split; [done|]. intros f. by rewrite Hs. Qed.

Lemma balanced_trans r r1 h' r' installed finals :
  (∀ f, stock r1 f = stock r f) → balanced h' r1 r' installed finals → balanced h' r r' installed finals.
Proof. intros Hs [Hw Hb]. split; [done|]. intros f. by rewrite Hb, Hs. Qed.

(** A used descriptor names a live object that is not being closed. *)
Lemma used_descriptor h r space fd d :
  wf h r → descriptor_at r space fd d → slot_used d = true →
  ∃ o, objects r !! target_index d = Some o ∧ kind_occupied (kind o) = true ∧ closing o = false ∧
    1 ≤ descriptor_references o ∧ 1 ≤ references o.
Proof.
  intros Hw Hd Hu. pose proof Hd as (s & Hs & _ & Hds).
  pose proof (sw_range _ (wf_spaces _ _ Hw) _ _ _ _ Hs Hds) as [Hr _].
  pose proof (points_target (target_index d) d ltac:(lia) Hu) as Hp. rewrite Nat.eqb_refl in Hp.
  pose proof (named_by_pos _ _ _ _ _ Hd Hp) as Hpos.
  destruct (lookup_lt_is_Some_2 (objects r) (target_index d)) as [o Ho].
  { rewrite (wf_length _ _ Hw). unfold target_index, object_index. rewrite Hu. simpl.
    unfold slot_used in Hu. apply negb_true_iff, Z.eqb_neq in Hu. lia. }
  exists o. pose proof (wf_object _ _ Hw _ _ Ho) as Hok. unfold object_ok in Hok.
  destruct (kind_occupied (kind o)) eqn:Hk; [|destruct Hok; lia].
  destruct Hok as [Hdr Href _ Hc _ _ _]. split_and!; [done..| |lia|lia]. rewrite Hc. apply Z.eqb_neq. lia.
Qed.

Lemma lookup_run {F} h r own space fd :
  wf h r → space_of r own space →
  lookup_descriptor (F := F) space fd r = (Err BadFileDescriptor, r) ∨
  ∃ d o, lookup_descriptor (F := F) space fd r = (Ok d, r) ∧ descriptor_at r space (Z.to_nat fd) d ∧
    slot_used d = true ∧ objects r !! target_index d = Some o ∧ kind_occupied (kind o) = true ∧
    closing o = false ∧ 1 ≤ descriptor_references o ∧ 1 ≤ references o.
Proof.
  intros Hw (s & Hs & Hu & _). unfold lookup_descriptor. m_unfold. unfold descriptors_of.
  rewrite (slot_at_Some _ _ _ _ Hs). destruct (descriptors s !! Z.to_nat fd) as [d|] eqn:Hd; [|by left].
  destruct (slot_used d) eqn:Hud; [|by left]. right.
  assert (descriptor_at r space (Z.to_nat fd) d) as Hda by by exists s.
  destruct (used_descriptor h r space _ d Hw Hda Hud) as (o & Ho). exists d, o. split_and!; try done; apply Ho.
Qed.

Lemma free_descriptor r own space fd :
  space_of r own space → position (λ d, negb (slot_used d)) (descriptors_of r space) = Some fd →
  ∃ d, descriptor_at r space fd d ∧ slot_used d = false.
Proof.
  intros (s & Hs & Hu & _) (d & Hd & Hn%negb_true_iff)%position_lookup. unfold descriptors_of in Hd.
  rewrite (slot_at_Some _ _ _ _ Hs) in Hd. exists d. split; [by exists s|done].
Qed.

(** A descriptor keeps its object and changes its flags. *)
Lemma wf_reflag h r space fd d slot :
  wf h r → descriptor_at r space fd d → slot_used d = true → object slot = object d → wf h (set_descriptor space fd slot r).
Proof.
  intros Hw Hd Hused Heq. pose proof Hd as (s & Hs & _ & Hds).
  assert (∀ i, named_by (set_descriptor space fd slot r) i = named_by r i) as Hnb.
  { intros i. pose proof (named_by_put r space fd d slot i Hd) as H. unfold points in H. rewrite Heq in H. lia. }
  destruct Hw as [Hsp Hl Ho Hk]. split; [|done| |done].
  - apply spaces_wf_set; [done|by eapply descriptor_space|]. destruct (sw_range _ Hsp _ _ _ _ Hs Hds) as [Hr _].
    unfold slot_ok, slot_used in *. by rewrite Heq, Hused.
  - intros i o Hi. rewrite Hnb. by apply Ho.
Qed.

Lemma descriptor_of_space r own space fd :
  spaces_wf (spaces r) → space_of r own space → (fd < MAXIMUM_FILE_DESCRIPTORS)%nat →
  descriptor_at r space fd (slot_at EMPTY_DESCRIPTOR (descriptors_of r space) fd).
Proof.
  intros Hsp (s & Hs & Hu & _) Hfd. exists s. unfold descriptors_of. rewrite (slot_at_Some _ _ _ _ Hs).
  split_and!; [done..|]. apply slot_at_lookup. by rewrite (sw_descriptors _ Hsp _ _ Hs).
Qed.

Section Operations.
Context {F : Type} (h : Holders) (r : DescriptorRegistry).
Hypothesis Hw : wf h r.

(** The space is there, or is made; the rest of the operation continues from
    a state with the same stock. *)
Lemma ensure_cases own :
  (∃ e r1, ensure_space (F := F) own r = (Err e, r1) ∧ wf h r1 ∧ ∀ f, stock r1 f = stock r f) ∨
  ∃ space r1, ensure_space (F := F) own r = (Ok space, r1) ∧ wf h r1 ∧ (∀ f, stock r1 f = stock r f) ∧
    space_of r1 own space ∧ extends r r1.
Proof.
  pose proof (ensure_space_wf (F := F) h r own Hw) as He. destruct (ensure_space own r) as [[space|e] r1].
  - destruct He as (Hw1 & Hs & Hx & Hst). right. by exists space, r1.
  - destruct He as (Hw1 & _ & Hst). left. by exists e, r1.
Qed.

Ltac in_space :=
  match goal with
  | |- context [ensure_space ?own _] =>
      destruct (ensure_cases own) as [(e & r1 & -> & Hw1 & Hst)|(space & r1 & -> & Hw1 & Hst & Hsp & _)];
      [by apply balanced_quiet|]
  end.

Lemma install_backend_wf own backend kd status coe :
  kind_occupied kd = true →
  match install_backend_object (F := F) own backend kd status coe r with
  | (Ok _, r') => balanced h r r' [mkFinal backend kd] []
  | (Err _, r') => balanced h r r' [] []
  end.
Proof.
  intros Hkd. unfold install_backend_object. m_unfold.
  in_space. destruct (position _ _) as [fd|] eqn:Hfd; [|by apply balanced_quiet].
  destruct (free_descriptor r1 own space fd Hsp Hfd) as (d & Hd & Hu).
  destruct (allocate_run (F := F) backend kd status r1) as [[e ->]|(i & o & Hi & Ho & Hg & ->)]; [by apply balanced_quiet|].
  rewrite on_set_object by by eapply lookup_lt_Some. eapply balanced_trans; [done|]. split.
  - by eapply (wf_install h r1 i o Hw1 Hi space fd d).
  - intros f. rewrite stock_descriptor, (stock_install r1 i o _ f Hi Ho). exact (Nat.add_0_r _).
Qed.

Lemma lease_wf index o p key :
  objects r !! index = Some o → (p o = true → kind_occupied (kind o) = true) → key o = key_of index o →
  match lease_object (F := F) index p key r with
  | (Ok l, r') => wf (with_leases (more (l_key l) (leases h)) h) r' ∧ l_key l = key_of index o ∧
      l_owner l = owner o ∧ l_kind l = kind o ∧ kind_occupied (kind o) = true ∧ (∀ f, stock r' f = stock r f)
  | (Err _, r') => r' = r
  end.
Proof.
  intros Hi Hp Hkey. unfold lease_object. m_unfold. rewrite Hi. destruct (p o) eqn:Hpo; [|done].
  destruct (checked_add _ _ _) as [n|] eqn:Hn; [|done]. apply checked_add_Some in Hn as [-> Hn]. simpl.
  rewrite Hkey. split_and!; try done; [by apply wf_lease; auto|by apply Hp|].
  intros f. by apply (stock_same r index o).
Qed.

Lemma close_wf own fd :
  match close_locked (F := F) own fd r with
  | (Ok (p, _), r') => balanced h r r' [] (option_list p)
  | (Err _, r') => balanced h r r' [] []
  end.
Proof.
  unfold close_locked. m_unfold.
  in_space.
  destruct (lookup_run (F := F) h r1 own space fd Hw1 Hsp) as [->|(d & o & -> & Hd & Hu & Hi & Hk & _ & Hdr & Hrf)];
    [by apply balanced_quiet|].
  rewrite (lookup_object_at r1 _ o Hi).
  destruct (Z.eqb_spec (references o) 0); [lia|]. destruct (Z.eqb_spec (descriptor_references o) 0); [lia|].
  cbn [negb orb]. pose proof (wf_unreference h r1 _ o Hw1 Hi Hk space _ d Hd Hu eq_refl) as Hun.
  destruct (unreference o) as [o1 last] eqn:Ho1. cbn [fst snd] in *.
  pose proof (stock_settle (set_descriptor space (Z.to_nat fd) EMPTY_DESCRIPTOR r1) (target_index d) o o1) as Hss.
  destruct (settle _ _ _) as [p r']. cbn [fst snd] in *. destruct Hun as (Hw' & _).
  eapply balanced_trans; [exact Hst|]. split; [done|]. intros f. rewrite Hss; [done|done|].
  unfold unreference in Ho1. destruct (_ =? 0) in Ho1; by injection Ho1 as <- <-.
Qed.

Lemma reference_run r1 i o :
  objects r1 !! i = Some o →
  reference (F := F) i r1 = (Err Capacity, r1) ∨
  reference (F := F) i r1 = (Ok tt, set_object i (referenced o) r1) ∧ references o + 1 ≤ U16_MAX.
Proof.
  intros Hi. unfold reference. m_unfold. rewrite (lookup_object_at r1 i o Hi).
  destruct (checked_add U16_MAX (references o) 1) as [n|] eqn:Hn; [|by left].
  destruct (checked_add U16_MAX (descriptor_references o) 1) as [m|] eqn:Hm; [|by left].
  apply checked_add_Some in Hn as [-> Hn]. apply checked_add_Some in Hm as [-> _]. by right.
Qed.

Lemma referenced_final o : final_of (referenced o) = final_of o.
Proof. done. Qed.

Lemma duplicate_wf own old minimum coe :
  balanced h r (duplicate (F := F) own old minimum coe r).2 [] [].
Proof.
  unfold duplicate. m_unfold. destruct (negb _); [|by apply balanced_quiet].
  in_space.
  destruct (lookup_run (F := F) h r1 own space old Hw1 Hsp) as [->|(d & o & -> & Hd & Hu & Hi & Hk & Hcl & _)];
    [by apply balanced_quiet|].
  destruct (position _ _) as [k|] eqn:Hp; [|by apply balanced_quiet]. cbv [fmap option_fmap option_map].
  rewrite (lookup_object_at r1 _ o Hi), Hk, Hcl, Z.eqb_refl. cbn [negb orb].
  destruct (reference_run r1 _ o Hi) as [->|[-> Hmax]]; [by apply balanced_quiet|].
  apply position_lookup in Hp as (d' & Hd' & Hu'%negb_true_iff). rewrite lookup_drop in Hd'.
  destruct Hsp as (s & Hs & Hus & _). unfold descriptors_of in Hd'. rewrite (slot_at_Some _ _ _ _ Hs) in Hd'.
  apply balanced_quiet; [|by intros f; simpl; rewrite <- Hst; apply (stock_same r1 _ o)].
  by eapply (wf_reference h r1 _ o Hw1 Hi Hk space _ d'); [exists s|..].
Qed.

Lemma settle_descriptor space fd slot i o r1 :
  settle i o (set_descriptor space fd slot r1)
  = ((settle i o r1).1, set_descriptor space fd slot (settle i o r1).2).
Proof. unfold settle. by destruct (maybe_take_closing o). Qed.

Lemma settle_spaces i o r1 : spaces (settle i o r1).2 = spaces r1.
Proof. unfold settle. by destruct (maybe_take_closing o). Qed.

Lemma settle_set i o j x r1 :
  i ≠ j → settle i o (set_object j x r1) = ((settle i o r1).1, set_object j x (settle i o r1).2).
Proof.
  intros Hne. unfold settle. destruct (maybe_take_closing o) as [p o']. simpl. f_equal.
  unfold set_object. simpl. f_equal. by apply list_insert_insert_ne.
Qed.

Lemma set_descriptor_twice space fd a b r1 :
  set_descriptor space fd a (set_descriptor space fd b r1) = set_descriptor space fd a r1.
Proof.
  unfold set_descriptor, on_space. simpl. f_equal. apply list_eq. intros k. destruct (decide (space = k)) as [->|].
  - rewrite !list_lookup_alter_eq. destruct (spaces r1 !! k); simpl; [|done]. by rewrite list_insert_insert_eq.
  - by rewrite !list_lookup_alter_ne.
Qed.

Lemma duplicate_to_wf own old new coe :
  0 ≤ new < Z.of_nat MAXIMUM_FILE_DESCRIPTORS →
  match duplicate_to_locked (F := F) own old new coe r with
  | (Ok (p, _), r') => balanced h r r' [] (option_list p)
  | (Err _, r') => balanced h r r' [] []
  end.
Proof.
  intros Hnew. unfold duplicate_to_locked. m_unfold.
  in_space.
  destruct (lookup_run (F := F) h r1 own space old Hw1 Hsp) as [->|(d & o & -> & Hd & Hu & Hi & Hk & Hcl & _)];
    [by apply balanced_quiet|].
  rewrite (lookup_object_at r1 _ o Hi), Hk, Hcl. cbn [negb orb].
  pose proof (descriptor_of_space r1 own space (Z.to_nat new) (wf_spaces _ _ Hw1) Hsp ltac:(lia)) as Hex.
  set (ex := slot_at EMPTY_DESCRIPTOR _ _) in *. destruct (slot_used ex) eqn:Hue.
  - destruct (used_descriptor h r1 space _ _ Hw1 Hex Hue) as (eo & Hei & Hek & Hecl & Hedr & Herf).
    destruct (Nat.eqb_spec (target_index ex) (target_index d)) as [Heq|Hne]; cbn [negb].
    + apply balanced_quiet; [|done]. apply (wf_reflag h r1 space (Z.to_nat new) ex); [done..|].
      destruct Hex as (s & Hs & _ & Hds). pose proof (sw_range _ (wf_spaces _ _ Hw1) _ _ _ _ Hs Hds) as [Hr _].
      rewrite object_new by by eapply object_index_lt. rewrite (object_target ex) by (done || lia). by rewrite Heq.
    + rewrite (lookup_object_at r1 _ eo Hei).
      destruct (Z.eqb_spec (references eo) 0); [lia|]. destruct (Z.eqb_spec (descriptor_references eo) 0); [lia|]. cbn [negb orb].
      destruct (reference_run r1 _ o Hi) as [->|[-> Hmax]]; [by apply balanced_quiet|].
      rewrite (lookup_object_at _ _ eo) by (simpl; by rewrite list_lookup_insert_ne).
      pose proof (wf_unreference h r1 _ eo Hw1 Hei Hek space _ ex Hex Hue eq_refl) as Hun.
      assert (final_of (unreference eo).1 = final_of eo) as Hfin by (unfold unreference; by destruct (_ =? 0)).
      destruct (unreference eo) as [o1 last]. cbn [fst snd] in *. rewrite settle_set by done. cbn [fst snd].
      pose proof (λ f, stock_settle r1 (target_index ex) eo o1 f Hei Hfin) as Hss. rewrite settle_descriptor in Hun.
      assert (objects (settle (target_index ex) o1 r1).2 !! target_index d = Some o) as Hi2.
      { unfold settle. destruct (maybe_take_closing o1). simpl. by rewrite list_lookup_insert_ne. }
      pose proof (settle_spaces (target_index ex) o1 r1) as Hsp2.
      destruct (settle (target_index ex) o1 r1) as [p r2]. cbn [fst snd] in *. destruct Hun as (Hw2 & _).
      eapply balanced_trans; [exact Hst|]. split; [|intros f; rewrite stock_descriptor, (stock_same r2 _ o) by done; rewrite Hss; symmetry; apply Nat.add_0_r].
      rewrite <- (set_descriptor_twice space (Z.to_nat new) _ EMPTY_DESCRIPTOR).
      set (r3 := set_descriptor space (Z.to_nat new) EMPTY_DESCRIPTOR r2) in *.
      assert (descriptor_at r3 space (Z.to_nat new) EMPTY_DESCRIPTOR) as Hd2.
      { pose proof (descriptor_at_set r1 space (Z.to_nat new) EMPTY_DESCRIPTOR (Z.to_nat new) ex Hex ltac:(lia) (wf_spaces _ _ Hw1)) as H1.
        rewrite decide_True in H1 by done. unfold descriptor_at in *. unfold r3. simpl in *. by rewrite Hsp2. }
      exact (wf_reference h r3 _ o Hw2 Hi2 Hk space _ _ _ Hd2 eq_refl Hcl Hmax).
  - destruct (reference_run r1 _ o Hi) as [->|[-> Hmax]]; [by apply balanced_quiet|].
    apply balanced_quiet; [by eapply (wf_reference h r1 _ o Hw1 Hi Hk space _ ex)|].
    intros f. rewrite stock_descriptor, <- Hst. by apply (stock_same r1 _ o).
Qed.

Lemma generation_run g g' : next_object_generation g = Some g' → g' = g + 1 ∧ g + 1 ≤ U32_MAX.
Proof.
  unfold next_object_generation. destruct (checked_add _ _ _) as [x|] eqn:Hx; [|done].
  apply checked_add_Some in Hx as [-> Hx]. destruct (_ =? 0); [done|]. by intros [= <-].
Qed.

Lemma install_pair_wf own k1 s1 k2 s2 coe :
  kind_occupied k1 = true → kind_occupied k2 = true →
  match install_object_pair (F := F) own k1 s1 k2 s2 coe r with
  | (Ok _, r') => balanced h r r' [mkFinal own k1; mkFinal own k2] []
  | (Err _, r') => balanced h r r' [] []
  end.
Proof.
  intros Hk1 Hk2. unfold install_object_pair. m_unfold.
  in_space.
  pose proof (descriptor_of_space r1 own space) as Hds.
  pose proof (indices_from_elem (λ d, negb (slot_used d)) 0 (descriptors_of r1 space)) as Hid.
  destruct (indices _ (descriptors_of r1 space)) as [|fd1 [|fd2 rest]] eqn:Hfree; cbn [lookup list_lookup]; [by apply balanced_quiet..|].
  pose proof (indices_from_sorted _ _ _ _ _ Hfree fd2 ltac:(left)) as Hlt.
  destruct (proj1 (Hid fd1) ltac:(left)) as (_ & d1 & Hd1 & Hu1%negb_true_iff).
  destruct (proj1 (Hid fd2) ltac:(right; left)) as (_ & d2 & Hd2 & Hu2%negb_true_iff). rewrite Nat.sub_0_r in Hd1, Hd2.
  pose proof (indices_from_elem (λ o, negb (kind_occupied (kind o))) 0 (objects r1)) as Hio.
  destruct (indices _ (objects r1)) as [|i1 [|i2 rest']] eqn:Hfo; cbn [lookup list_lookup]; [by apply balanced_quiet..|].
  pose proof (indices_from_sorted _ _ _ _ _ Hfo i2 ltac:(left)) as Hlti.
  destruct (proj1 (Hio i1) ltac:(left)) as (_ & o1 & Ho1 & Hf1%negb_true_iff).
  destruct (proj1 (Hio i2) ltac:(right; left)) as (_ & o2 & Ho2 & Hf2%negb_true_iff). rewrite Nat.sub_0_r in Ho1, Ho2.
  rewrite (lookup_object_at r1 _ o1 Ho1), (lookup_object_at r1 _ o2 Ho2).
  destruct (next_object_generation (generation o1)) as [g1|] eqn:Hg1; [|by apply balanced_quiet].
  destruct (next_object_generation (generation o2)) as [g2|] eqn:Hg2; [|by apply balanced_quiet].
  apply generation_run in Hg1 as [-> Hg1]. apply generation_run in Hg2 as [-> Hg2].
  destruct Hsp as (s & Hs & Hus & _). unfold descriptors_of in Hd1, Hd2. rewrite (slot_at_Some _ _ _ _ Hs) in Hd1, Hd2.
  assert (descriptor_at r1 space fd1 d1) as Ha1 by by exists s. assert (descriptor_at r1 space fd2 d2) as Ha2 by by exists s.
  set (n1 := mkObject (generation o1 + 1) own 1 1 0 false s1 k1). set (n2 := mkObject (generation o2 + 1) own 1 1 0 false s2 k2).
  set (r2 := set_descriptor space fd1 (new_descriptor i1 (z_of_bool coe)) (set_object i1 n1 r1)).
  assert (wf h r2) as Hw2 by by eapply (wf_install h r1 i1 o1 Hw1 Ho1 space fd1 d1).
  assert (objects r2 !! i2 = Some o2) as Ho2' by (simpl; rewrite list_lookup_insert_ne by lia; done).
  assert (descriptor_at r2 space fd2 d2) as Ha2'.
  { pose proof (descriptor_at_set (set_object i1 n1 r1) space fd1 (new_descriptor i1 (z_of_bool coe)) fd2 d2 Ha2) as H1.
    rewrite decide_False in H1 by lia. apply H1; [|apply Hw1]. rewrite <- (sw_descriptors _ (wf_spaces _ _ Hw1) _ _ Hs).
    by eapply lookup_lt_Some. }
  eapply balanced_trans; [exact Hst|]. split; [by eapply (wf_install h r2 i2 o2 Hw2 Ho2' space fd2 d2)|].
  intros f. rewrite !stock_descriptor, (stock_install (set_object i1 n1 r1) i2 o2 n2 f) by done.
  rewrite (stock_install r1 i1 o1 n1 f) by done. unfold tally. simpl. change (final_of n1) with (mkFinal own k1).
  change (final_of n2) with (mkFinal own k2). destruct (is_final _ _), (is_final _ _); lia.
Qed.

Lemma set_descriptor_flags_wf own fd flg : balanced h r (set_descriptor_flags (F := F) own fd flg r).2 [] [].
Proof.
  unfold set_descriptor_flags. m_unfold. destruct (_ =? 0); [|by apply balanced_quiet].
  in_space.
  destruct (lookup_run (F := F) h r1 own space fd Hw1 Hsp) as [->|(d & o & -> & Hd & Hu & _)]; [by apply balanced_quiet|].
  apply balanced_quiet; [by eapply wf_reflag|done].
Qed.

Lemma set_status_flags_wf own fd flg : balanced h r (set_status_flags (F := F) own fd flg r).2 [] [].
Proof.
  unfold set_status_flags. m_unfold.
  in_space.
  destruct (lookup_run (F := F) h r1 own space fd Hw1 Hsp) as [->|(d & o & -> & Hd & _ & Hi & Hk & _)]; [by apply balanced_quiet|].
  cbn [snd]. rewrite (on_object_set _ _ o) by done. apply balanced_quiet.
  - pose proof (live_object h r1 _ o Hw1 Hi Hk) as Hlive.
    eapply (wf_change h r1 _ o Hw1 Hi); [apply Hw1|done|done|done|by intros k _| |simpl; congruence].
    unfold object_ok. simpl. rewrite Hk. destruct Hlive. by split.
  - intros f. rewrite <- Hst. by apply (stock_same r1 _ o).
Qed.

Lemma descriptor_flags_wf own fd : balanced h r (descriptor_flags (F := F) own fd r).2 [] [].
Proof.
  unfold descriptor_flags. m_unfold.
  in_space.
  by destruct (lookup_run (F := F) h r1 own space fd Hw1 Hsp) as [->|(d & o & -> & _)]; apply balanced_quiet.
Qed.
End Operations.

(** ** Holders by key *)

Lemma wf_ext h h' r : (∀ k, same_at k h h') → wf h r → wf h' r.
Proof.
  intros Hs [Hsp Hl Ho Hk]. split; [done|done| |].
  - intros i o Hi. destruct (Hs (key_of i o)) as (-> & -> & ->). by apply Ho.
  - intros k. destruct (Hs k) as (-> & -> & ->). apply Hk.
Qed.

(** A held key names its object. *)
Lemma held_object h r key :
  wf h r → (0 < held h key)%nat →
  ∃ i o, objects r !! i = Some o ∧ kind_occupied (kind o) = true ∧ key = key_of i o ∧ key_index key = Some i ∧
    object_at r i = o ∧ generation o = k_generation key.
Proof.
  intros Hw Hh. destruct (wf_keys _ _ Hw key Hh) as (i & o & Hi & Ho & ->). exists i, o.
  pose proof (live_object h r i o Hw Hi Ho) as [_ _ _ _ _ Hg _].
  pose proof (object_index_lt h r i o Hw Hi) as Hlt. unfold MAXIMUM_OPEN_OBJECTS in Hlt. simpl in Hlt.
  split_and!; try done; [|by apply slot_at_Some].
  apply new_key_index; [unfold U16_MAX; lia|lia].
Qed.

Lemma key_of_index key i o :
  is_u16 (k_index key) → key_index key = Some i → generation o = k_generation key → key = key_of i o.
Proof.
  intros Hu Hi Hg. unfold key_index in Hi. destruct (_ || _); [done|]. injection Hi as <-.
  unfold key_of, new_key. rewrite Hg, Z2Nat.id, Z.mod_small by (unfold is_u16, U16_MAX in *; lia). by destruct key.
Qed.

Section Holding.
Context {F : Type} (h : Holders) (r : DescriptorRegistry).
Hypothesis Hw : wf h r.

Lemma acquire_descriptor_wf own fd :
  match acquire_descriptor (F := F) own fd r with
  | (Ok l, r') => balanced (with_leases (more (l_key l) (leases h)) h) r r' [] []
  | (Err _, r') => balanced h r r' [] []
  end.
Proof.
  unfold acquire_descriptor. m_unfold.
  destruct (ensure_cases (F := F) h r Hw own) as [(e & r1 & -> & Hw1 & Hst)|(space & r1 & -> & Hw1 & Hst & Hsp & _)];
    [by apply balanced_quiet|].
  destruct (lookup_run (F := F) h r1 own space fd Hw1 Hsp) as [->|(d & o & -> & _ & _ & Hi & _)]; [by apply balanced_quiet|].
  pose proof (lease_wf (F := F) h r1 Hw1 (target_index d) o (λ o, kind_occupied (kind o) && negb (closing o))
    (λ o, new_key (target_index d) (generation o)) Hi) as Hl.
  destruct (lease_object _ _ _ r1) as [[l|e] r'].
  - destruct Hl as (Hw' & _ & _ & _ & _ & Hs'); [by intros [? _]%andb_true_iff|done|].
    apply balanced_quiet; [done|]. intros f. by rewrite Hs'.
  - rewrite Hl; [by apply balanced_quiet|by intros [? _]%andb_true_iff|done].
Qed.

Lemma acquire_key_wf key :
  is_u16 (k_index key) →
  match acquire_key (F := F) key r with
  | (Ok l, r') => balanced (with_leases (more (l_key l) (leases h)) h) r r' [] []
  | (Err _, r') => balanced h r r' [] []
  end.
Proof.
  intros Hu. unfold acquire_key. m_unfold. destruct (key_index key) as [i|] eqn:Hi; [|by apply balanced_quiet].
  destruct (objects r !! i) as [o|] eqn:Ho.
  - set (p := λ o, _ && _ && _). pose proof (lease_wf (F := F) h r Hw i o p (λ _, key) Ho) as Hl.
    destruct (p o) eqn:Hp.
    + unfold p in Hp. rewrite !andb_true_iff in Hp. destruct Hp as [[Hk Hg%Z.eqb_eq] _].
      pose proof (key_of_index key i o Hu Hi Hg) as Hkey.
      destruct (lease_object _ _ _ r) as [[l|e] r'].
      * destruct Hl as (Hw' & _ & _ & _ & _ & Hs'); [done..|]. by apply balanced_quiet.
      * rewrite Hl by done. by apply balanced_quiet.
    + unfold lease_object. m_unfold. rewrite Ho, Hp. by apply balanced_quiet.
  - unfold lease_object. m_unfold. rewrite Ho. by apply balanced_quiet.
Qed.

Lemma release_wf key :
  (0 < leases h key)%nat →
  let '(p, r') := release_locked key r in
  balanced (with_leases (fewer key (leases h)) h) r r' [] (option_list p).
Proof.
  intros Hpos. destruct (held_object h r key Hw) as (i & o & Hi & Ho & Hkey & Hki & Hat & Hgen); [unfold held; lia|].
  unfold release_locked. rewrite Hki, Hat, Hgen, Z.eqb_refl.
  pose proof (live_object h r i o Hw Hi Ho) as [_ _ Ha _ _ _ _]. rewrite <- Hkey in Ha.
  destruct (Z.eqb_spec (active_operations o) 0); [lia|]. cbn [negb orb].
  pose proof (wf_release h r i o Hw Hi Ho) as Hr. rewrite <- Hkey in Hr. specialize (Hr Hpos).
  pose proof (λ f, stock_settle r i o (with_active (active_operations o - 1) o) f Hi eq_refl) as Hs.
  destruct (settle _ _ _) as [p r']. destruct Hr as [Hw' _]. split; [done|]. intros f. rewrite Hs. symmetry. apply Nat.add_0_r.
Qed.

Lemma drop_wf key :
  (0 < watches h key)%nat →
  let '(p, r') := drop_locked key r in
  balanced (with_watches (fewer key (watches h)) h) r r' [] (option_list p).
Proof.
  intros Hpos. destruct (held_object h r key Hw) as (i & o & Hi & Ho & Hkey & Hki & Hat & Hgen); [unfold held; lia|].
  unfold drop_locked. rewrite Hki, Hat, Hgen, Z.eqb_refl.
  pose proof (live_object h r i o Hw Hi Ho) as [_ Hr0 _ _ _ _ _]. rewrite <- Hkey in Hr0.
  destruct (Z.eqb_spec (references o) 0); [lia|]. cbn [negb orb].
  pose proof (wf_drop h r i o Hw Hi Ho) as Hr. rewrite <- Hkey in Hr. specialize (Hr Hpos).
  set (o1 := if references _ =? 0 then _ else _) in *.
  assert (final_of o1 = final_of o) as Hfin by (unfold o1; by destruct (_ =? 0)).
  pose proof (λ f, stock_settle r i o o1 f Hi Hfin) as Hs.
  cbv zeta in Hr. destruct (settle _ _ _) as [p r']. destruct Hr as [Hw' _]. split; [done|].
  intros f. rewrite Hs. symmetry. apply Nat.add_0_r.
Qed.

Lemma retain_wf key :
  is_u16 (k_index key) →
  match retain_key (F := F) key r with
  | (Ok _, r') => balanced (with_watches (more key (watches h)) h) r r' [] []
  | (Err _, r') => r' = r
  end.
Proof.
  intros Hu. unfold retain_key. m_unfold. destruct (key_index key) as [i|] eqn:Hi; [|done].
  destruct (objects r !! i) as [o|] eqn:Ho; [|done]. destruct (_ && _) eqn:Hp; [|done].
  rewrite !andb_true_iff in Hp. destruct Hp as [[[Hk Hg%Z.eqb_eq] Hd%negb_true_iff] _].
  destruct (checked_add _ _ _) as [n|] eqn:Hn; [|done]. apply checked_add_Some in Hn as [-> Hn].
  rewrite (key_of_index key i o Hu Hi Hg).
  apply balanced_quiet; [by apply wf_retain|]. intros f. by apply (stock_same r i o).
Qed.

Lemma release_transfer_wf key :
  (0 < transfers h key)%nat →
  let '(p, _, r') := release_transfer_locked key r in
  balanced (with_transfers (fewer key (transfers h)) h) r r' [] (option_list p).
Proof.
  intros Hpos. destruct (held_object h r key Hw) as (i & o & Hi & Ho & Hkey & Hki & Hat & Hgen); [unfold held; lia|].
  unfold release_transfer_locked. rewrite Hki, Hat, Hgen, Z.eqb_refl.
  pose proof (live_object h r i o Hw Hi Ho) as [Hd0 Hr0 _ _ _ _ _]. rewrite <- Hkey in Hr0, Hd0.
  destruct (Z.eqb_spec (references o) 0); [lia|]. destruct (Z.eqb_spec (descriptor_references o) 0); [lia|]. cbn [negb orb].
  pose proof (wf_release_transfer h r i o Hw Hi Ho) as Hr. rewrite <- Hkey in Hr. specialize (Hr Hpos).
  assert (final_of (unreference o).1 = final_of o) as Hfin by (unfold unreference; by destruct (_ =? 0)).
  pose proof (λ f, stock_settle r i o _ f Hi Hfin) as Hs.
  destruct (unreference o) as [o1 last]. cbn [fst snd] in *. destruct (settle _ _ _) as [p r']. destruct Hr as [Hw' _].
  split; [done|]. intros f. rewrite Hs. symmetry. apply Nat.add_0_r.
Qed.
End Holding.

(** ** Transfers *)

Definition count_key (l : list ObjectKey) (k : ObjectKey) : nat := countb (key_eqb k) l.

(** A live object that has room for [n] more references. *)
Definition room_for (r : DescriptorRegistry) (n : nat) (key : ObjectKey) : Prop :=
  ∃ i o, objects r !! i = Some o ∧ kind_occupied (kind o) = true ∧ closing o = false ∧ key = key_of i o ∧
    references o + Z.of_nat n ≤ U16_MAX.

Definition more_transfers (l : list ObjectKey) (h : Holders) : Holders :=
  with_transfers (λ k, (count_key l k + transfers h k)%nat) h.

Lemma count_key_cons x l k : count_key (x :: l) k = (Nat.b2n (key_eqb k x) + count_key l k)%nat.
Proof. unfold count_key. simpl. by destruct (key_eqb k x). Qed.

Lemma key_eqb_refl k : key_eqb k k = true.
Proof. by apply key_eqb_eq. Qed.

Lemma key_eqb_ne a b : a ≠ b → key_eqb a b = false.
Proof. intros Hne. by apply bool_decide_eq_false. Qed.

Section Reserve.
Context (h : Holders) (r : DescriptorRegistry) (key : ObjectKey) (n : nat).
Hypothesis Hw : wf h r.
Hypothesis Hroom : room_for r (S n) key.

Lemma reserve_one :
  wf (with_transfers (more key (transfers h)) h) (reserve r key) ∧
  (∀ f, stock (reserve r key) f = stock r f) ∧ room_for (reserve r key) n key ∧
  (∀ key' m, key' ≠ key → room_for r m key' → room_for (reserve r key) m key').
Proof.
  destruct Hroom as (i & o & Hi & Ho & Hc & Hkey & Hmax).
  pose proof (live_object h r i o Hw Hi Ho) as [_ _ _ _ _ Hg _]. pose proof (object_index_lt h r i o Hw Hi) as Hlt.
  assert (key_index key = Some i) as Hki.
  { rewrite Hkey. unfold MAXIMUM_OPEN_OBJECTS in Hlt. simpl in Hlt. apply new_key_index; [unfold U16_MAX; lia|lia]. }
  unfold reserve. rewrite Hki. simpl. rewrite (on_object_set i _ o r Hi). fold (referenced o). split_and!.
  - rewrite Hkey. apply wf_reserve; [done..|lia].
  - intros f. by apply (stock_same r i o).
  - exists i, (referenced o). split_and!; try done; [|simpl; lia].
    simpl. apply list_lookup_insert_eq. by eapply lookup_lt_Some.
  - intros key' m Hne (j & x & Hj & Hx). exists j, x. split; [|done]. simpl. rewrite list_lookup_insert_ne; [done|].
    intros ->. assert (x = o) as -> by congruence. destruct Hx as (_ & _ & -> & _). by destruct Hne.
Qed.
End Reserve.

Lemma reserve_all keys : ∀ h r,
  wf h r → (∀ key, key ∈ keys → room_for r (count_key keys key) key) →
  wf (more_transfers keys h) (foldl reserve r keys) ∧ ∀ f, stock (foldl reserve r keys) f = stock r f.
Proof.
  induction keys as [|key keys IH]; intros h r Hw Hroom; simpl.
  { split; [|done]. eapply wf_ext; [|done]. by intros k. }
  assert (count_key (key :: keys) key = S (count_key keys key)) as Hc by (by rewrite count_key_cons, key_eqb_refl).
  destruct (reserve_one h r key (count_key keys key) Hw) as (Hw' & Hst & Hsame & Hother).
  { rewrite <- Hc. apply Hroom. left. }
  destruct (IH _ _ Hw') as [Hw2 Hst2].
  { intros key' Hin. destruct (decide (key' = key)) as [->|Hne]; [done|]. apply Hother; [done|].
    rewrite <- (Nat.add_0_l (count_key keys key')).
    replace 0%nat with (Nat.b2n (key_eqb key' key)) by by rewrite key_eqb_ne. rewrite <- count_key_cons. apply Hroom. by right. }
  split; [|intros f; by rewrite Hst2, Hst]. eapply wf_ext; [|done]. intros k. split_and!; try done. simpl.
  rewrite count_key_cons. unfold more. destruct (decide (key = k)) as [->|Hne].
  - rewrite !key_eqb_refl. simpl. lia.
  - rewrite !key_eqb_ne by congruence. simpl. lia.
Qed.

Lemma count_key_app l1 l2 k : count_key (l1 ++ l2) k = (count_key l1 k + count_key l2 k)%nat.
Proof. apply countb_app. Qed.

Lemma capture_keys_run {F} fds : ∀ h r own space keys,
  wf h r → space_of r own space → (∀ key, key ∈ keys → room_for r (count_key keys key) key) →
  match capture_keys (F := F) space keys fds r with
  | (Ok all, r') => r' = r ∧ ∀ key, key ∈ all → room_for r (count_key all key) key
  | (Err _, r') => r' = r
  end.
Proof.
  induction fds as [|fd fds IH]; intros h r own space keys Hw Hsp Hroom; simpl; [by m_unfold|].
  m_unfold. unfold capture_one. m_unfold.
  destruct (lookup_run (F := F) h r own space fd Hw Hsp) as [->|(d & o & -> & Hd & _ & Hi & Hk & Hcl & _)]; [done|].
  rewrite (lookup_object_at r _ o Hi), Hk, Hcl. cbn [negb orb].
  destruct (match kind o with UnixSocket _ | Epoll _ => false | _ => true end); [|done].
  set (key := new_key (target_index d) (generation o)). destruct (_ <=? U16_MAX); [|done].
  destruct (checked_add U16_MAX (references o) _) as [x|] eqn:Hx; [|done]. apply checked_add_Some in Hx as [_ Hx].
  destruct (checked_add U16_MAX (descriptor_references o) _); [|done].
  eapply IH; [done..|]. intros key' Hin. rewrite count_key_app, count_key_cons.
  destruct (decide (key' = key)) as [->|Hne].
  - exists (target_index d), o. split_and!; try done. rewrite key_eqb_refl. fold (count_key keys key) in Hx. change (Nat.b2n true) with 1%nat. change (count_key [] key) with O. lia.
  - rewrite key_eqb_ne by done. simpl. rewrite Nat.add_0_r. apply Hroom.
    apply elem_of_app in Hin as [?|Hin]; [done|]. by apply list_elem_of_singleton in Hin.
Qed.

Lemma capture_wf {F} h r own fds room :
  wf h r →
  match capture_transfers (F := F) own fds room r with
  | (Ok keys, r') => balanced (more_transfers keys h) r r' [] []
  | (Err _, r') => balanced h r r' [] []
  end.
Proof.
  intros Hw. unfold capture_transfers. m_unfold. destruct (negb _); [|by apply balanced_quiet].
  destruct (ensure_cases (F := F) h r Hw own) as [(e & r1 & -> & Hw1 & Hst)|(space & r1 & -> & Hw1 & Hst & Hsp & _)];
    [by apply balanced_quiet|].
  pose proof (capture_keys_run (F := F) fds h r1 own space [] Hw1 Hsp) as Hc.
  destruct (capture_keys space [] fds r1) as [[keys|e] r2].
  - destruct Hc as [-> Hroom]; [by intros key ?%elem_of_nil|]. destruct (reserve_all keys h r1 Hw1 Hroom) as [Hw2 Hst2].
    apply balanced_quiet; [done|]. intros f. by rewrite Hst2.
  - rewrite Hc; [by apply balanced_quiet|by intros key ?%elem_of_nil].
Qed.

Definition fewer_transfers (l : list ObjectKey) (h : Holders) : Holders :=
  with_transfers (λ k, (transfers h k - count_key l k)%nat) h.

Lemma space_of_settle r own space i o : space_of r own space → space_of (settle i o r).2 own space.
Proof. unfold space_of. by rewrite settle_spaces. Qed.

(** Distinct free slots of the space get the tokens. *)
Lemma install_tokens_wf coe own space tokens : ∀ h r targets,
  wf h r → (∀ k, (count_key tokens k ≤ transfers h k)%nat) → NoDup targets →
  (∀ fd, fd ∈ targets → (fd < MAXIMUM_FILE_DESCRIPTORS)%nat ∧ ∃ d, descriptor_at r space fd d ∧ slot_used d = false) →
  space_of r own space → length targets = length tokens →
  wf (fewer_transfers tokens h) (install_tokens space coe r (zip targets tokens)) ∧
  objects (install_tokens space coe r (zip targets tokens)) = objects r.
Proof.
  induction tokens as [|key tokens IH]; intros h r [|fd targets] Hw Hheld Hnd Hfree Hsp [=]; simpl.
  { split; [|done]. eapply wf_ext; [|done]. intros k. split_and!; try done. apply Nat.sub_0_r. }
  inversion_clear Hnd as [|?? Hnin Hnd']. pose proof (Hheld key) as Hk.
  rewrite count_key_cons, key_eqb_refl in Hk. simpl in Hk.
  destruct (held_object h r key Hw) as (i & o & Hi & Ho & Hkey & -> & _); [unfold held; lia|].
  destruct (Hfree fd) as (Hfd & d & Hd & Hu); [by left|]. simpl.
  set (slot := new_descriptor i (z_of_bool coe)).
  assert (wf (with_transfers (fewer key (transfers h)) h) (set_descriptor space fd slot r)) as Hw'.
  { rewrite Hkey. apply (wf_deliver h r i o Hw Hi Ho space fd d); [done..|]. rewrite <- Hkey. lia. }
  edestruct (IH _ (set_descriptor space fd slot r) targets Hw') as [Hw2 Hobj]; [|exact Hnd'| |by apply space_of_set|done|].
  - intros k. specialize (Hheld k). rewrite count_key_cons in Hheld. simpl. unfold fewer.
    destruct (decide (key = k)) as [->|Hne]; [rewrite key_eqb_refl in *|rewrite key_eqb_ne in * by congruence]; simpl in *; lia.
  - intros fd' Hin. destruct (Hfree fd') as (Hfd' & d' & Hd' & Hu'); [by right|]. split; [done|]. exists d'.
    pose proof (descriptor_at_set r space fd slot fd' d' Hd' Hfd (wf_spaces _ _ Hw)) as Hat.
    destruct (decide (fd' = fd)) as [->|]; [done|]. done.
  - split; [|done]. eapply wf_ext; [|done]. intros k. split_and!; try done. simpl. rewrite count_key_cons. unfold fewer.
    destruct (decide (key = k)) as [->|Hne]; [rewrite !key_eqb_refl|rewrite !key_eqb_ne by congruence]; simpl; lia.
Qed.

Lemma install_transfers_wf {F} h r own tokens coe room :
  wf h r → (∀ k, (count_key tokens k ≤ transfers h k)%nat) →
  match install_transfers (F := F) own tokens coe room r with
  | (Ok _, r') => balanced (fewer_transfers tokens h) r r' [] []
  | (Err _, r') => balanced h r r' [] []
  end.
Proof.
  intros Hw Hheld. unfold install_transfers. m_unfold. destruct (negb _); [|by apply balanced_quiet].
  destruct (ensure_cases (F := F) h r Hw own) as [(e & r1 & -> & Hw1 & Hst)|(space & r1 & -> & Hw1 & Hst & Hsp & _)];
    [by apply balanced_quiet|].
  set (targets := take _ _). destruct (Nat.eqb_spec (length targets) (length tokens)) as [Hlen|]; [|by apply balanced_quiet].
  destruct (forallb _ _); [|by apply balanced_quiet].
  edestruct (install_tokens_wf coe own space tokens h r1 targets) as [Hw2 Hobj]; [done|done| | |done|done|].
  - eapply sublist_NoDup; [|apply sublist_take]. apply indices_from_NoDup.
  - intros fd (n & Hn & _)%elem_of_take. apply list_elem_of_lookup_2, indices_from_elem in Hn as (_ & d & Hd & Hu%negb_true_iff).
    rewrite Nat.sub_0_r in Hd.
    destruct Hsp as (s & Hs & Hus & _). unfold descriptors_of in Hd. rewrite (slot_at_Some _ _ _ _ Hs) in Hd. split.
    + apply lookup_lt_Some in Hd. by rewrite (sw_descriptors _ (wf_spaces _ _ Hw1) _ _ Hs) in Hd.
    + exists d. split; [by exists s|done].
  - apply balanced_quiet; [done|]. intros f. unfold stock. rewrite Hobj. apply Hst.
Qed.

(** ** Closing a process's descriptors *)

Lemma saturating_unreference_eq o :
  1 ≤ descriptor_references o → 1 ≤ references o →
  saturating_unreference o = with_descriptor_references (descriptor_references o - 1) (with_references (references o - 1) o).
Proof. intros Hd Hr. unfold saturating_unreference. by rewrite !Z.max_r by lia. Qed.

(** A descriptor [close_matching] closes. *)
Definition closes (only_close_on_exec : bool) (d : DescriptorSlot) : bool :=
  slot_used d && negb (only_close_on_exec && (Z.land (flags d) FD_CLOEXEC =? 0)).

(** A round closes the descriptor as [close] does, or leaves everything. *)
Lemma close_descriptor_run h r own space coe closed pending detached fd :
  wf h r → space_of r own space → (fd < MAXIMUM_FILE_DESCRIPTORS)%nat →
  let d := slot_at EMPTY_DESCRIPTOR (descriptors_of r space) fd in
  let '(r', closed', pending', _) := close_descriptor space coe (r, closed, pending, detached) fd in
  ∃ p, balanced h r r' [] p ∧ pending' = pending ++ p ∧ space_of r' own space ∧
  if closes coe d then closed' = S closed ∧ spaces r' = spaces (set_descriptor space fd EMPTY_DESCRIPTOR r)
  else closed' = closed ∧ r' = r.
Proof.
  intros Hw Hsp Hfd d. pose proof (descriptor_of_space r own space fd (wf_spaces _ _ Hw) Hsp Hfd) as Hd. fold d in Hd.
  unfold close_descriptor, closes. fold d. destruct (slot_used d) eqn:Hu; cbn [negb orb andb].
  2: { exists []. rewrite app_nil_r. split_and!; done. }
  destruct (coe && _) eqn:Hc; cbn [negb].
  { exists []. rewrite app_nil_r. split_and!; done. }
  destruct (used_descriptor h r space fd d Hw Hd Hu) as (o & Hi & Hk & _ & Hdr & Hrf).
  change (object_at (set_descriptor space fd EMPTY_DESCRIPTOR r) (target_index d)) with (object_at r (target_index d)).
  rewrite (lookup_object_at r _ o Hi), saturating_unreference_eq by done.
  pose proof (wf_unreference h r _ o Hw Hi Hk space fd d Hd Hu eq_refl) as Hun. unfold unreference in Hun.
  set (o0 := with_descriptor_references _ _) in *. set (last := descriptor_references o0 =? 0) in *.
  assert ((if last then (with_closing o0, true) else (o0, false)).1 = if last then with_closing o0 else o0) as E by by destruct last.
  rewrite E in Hun. clear E. set (o1 := if last then _ else _) in *.
  assert (final_of o1 = final_of o) as Hfin by (unfold o1; by destruct last).
  pose proof (λ f, stock_settle (set_descriptor space fd EMPTY_DESCRIPTOR r) (target_index d) o o1 f Hi Hfin) as Hss.
  pose proof (settle_spaces (target_index d) o1 (set_descriptor space fd EMPTY_DESCRIPTOR r)) as Hspc.
  destruct (settle _ _ _) as [p r']. cbn [fst snd] in *. destruct Hun as (Hw' & _). exists (option_list p). split_and!; try done.
  - split; [done|]. intros f. rewrite Hss. symmetry. apply Nat.add_0_r.
  - destruct p; simpl; [done|by rewrite app_nil_r].
  - unfold space_of. rewrite Hspc. by apply space_of_set.
Qed.

Definition swept (only_close_on_exec : bool) (d : DescriptorSlot) : DescriptorSlot :=
  if closes only_close_on_exec d then EMPTY_DESCRIPTOR else d.

Definition swept_to (only_close_on_exec : bool) (n : nat) (l : list DescriptorSlot) : list DescriptorSlot :=
  (swept only_close_on_exec <$> take n l) ++ drop n l.

Lemma swept_to_length coe n l : length (swept_to coe n l) = length l.
Proof. unfold swept_to. rewrite length_app, length_fmap, length_take, length_drop. lia. Qed.

Lemma swept_to_lookup coe n l d : l !! n = Some d → swept_to coe n l !! n = Some d.
Proof.
  intros Hd. unfold swept_to. pose proof (lookup_lt_Some _ _ _ Hd) as Hlt.
  rewrite lookup_app_r; rewrite length_fmap, length_take; [|lia]. rewrite lookup_drop. rewrite <- Hd. f_equal. lia.
Qed.

Lemma swept_to_S coe n l d : l !! n = Some d → swept_to coe (S n) l = <[n := swept coe d]> (swept_to coe n l).
Proof.
  intros Hd. pose proof (lookup_lt_Some _ _ _ Hd) as Hlt. unfold swept_to. rewrite (take_S_r _ _ d Hd).
  rewrite fmap_app, <- app_assoc. simpl.
  rewrite insert_app_r_alt; rewrite length_fmap, length_take; [|lia]. f_equal.
  rewrite (drop_S _ _ _ Hd). by replace (n - n `min` length l)%nat with O by lia.
Qed.

Lemma set_descriptor_spaces r r' space fd s l slot :
  spaces r' = <[space := mkSpace (space_owner s) l]> (spaces r) → spaces r !! space = Some s →
  spaces (set_descriptor space fd slot r') = <[space := mkSpace (space_owner s) (<[fd := slot]> l)]> (spaces r).
Proof.
  intros Hr Hs. unfold set_descriptor, on_space. simpl. rewrite Hr. pose proof (lookup_lt_Some _ _ _ Hs) as Hlt.
  apply list_eq. intros k. destruct (decide (space = k)) as [->|Hne].
  - by rewrite list_lookup_alter_eq, !list_lookup_insert_eq.
  - by rewrite list_lookup_alter_ne, !list_lookup_insert_ne.
Qed.

Lemma balanced_app h' r r1 r2 p q :
  balanced h' r r1 [] p → balanced h' r1 r2 [] q → balanced h' r r2 [] (p ++ q).
Proof.
  intros [_ H1] [Hw H2]. split; [done|]. intros f. specialize (H1 f). specialize (H2 f). unfold tally in *.
  rewrite countb_app. change (countb (is_final f) []) with O in *. lia.
Qed.

(** The first [n] rounds of the loop. *)
Lemma close_loop h r own space s coe n :
  wf h r → spaces r !! space = Some s → space_used s = true → space_owner s = own → (n ≤ MAXIMUM_FILE_DESCRIPTORS)%nat →
  let '(r', closed, pending, _) := foldl (close_descriptor space coe) (r, O, [], []) (seq 0 n) in
  balanced h r r' [] pending ∧ space_of r' own space ∧ closed = countb (closes coe) (take n (descriptors s)) ∧
  spaces r' = <[space := mkSpace (space_owner s) (swept_to coe n (descriptors s))]> (spaces r).
Proof.
  intros Hw Hs Hu Ho. induction n as [|n IH]; intros Hn.
  { simpl. split_and!; [by apply balanced_quiet|by exists s|done|]. unfold swept_to. rewrite drop_0. simpl.
    rewrite list_insert_id; [done|]. rewrite Hs. by destruct s. }
  rewrite seq_S, foldl_app. simpl. specialize (IH ltac:(lia)).
  destruct (foldl _ _ _) as [[[r1 closed] pending] detached]. destruct IH as (Hb & Hsp & Hcl & Hspc).
  pose proof (close_descriptor_run h r1 own space coe closed pending detached n (proj1 Hb) Hsp ltac:(lia)) as Hrun.
  destruct (lookup_lt_is_Some_2 (descriptors s) n) as [d Hd].
  { by rewrite (sw_descriptors _ (wf_spaces _ _ Hw) _ _ Hs). }
  assert (slot_at EMPTY_DESCRIPTOR (descriptors_of r1 space) n = d) as Hat.
  { apply slot_at_Some. unfold descriptors_of. erewrite slot_at_Some.
    2: { rewrite Hspc. apply list_lookup_insert_eq. by eapply lookup_lt_Some. } by apply swept_to_lookup. }
  cbv zeta in Hrun. rewrite Hat in Hrun. destruct (close_descriptor _ _ _ _) as [[[r' closed'] pending'] detached'].
  destruct Hrun as (p & Hb' & -> & Hsp' & Hcase). split_and!; [by eapply balanced_app|done| |].
  - rewrite (take_S_r _ _ d Hd), countb_app. simpl. destruct (closes coe d); [destruct Hcase as [-> _]; lia|destruct Hcase as [-> _]; lia].
  - rewrite (swept_to_S coe n _ d Hd). unfold swept at 1. destruct (closes coe d); destruct Hcase as [_ Hr'].
    + rewrite Hr'. by apply set_descriptor_spaces.
    + by rewrite Hr', Hspc, (list_insert_id (swept_to _ _ _) _ _ (swept_to_lookup coe n _ d Hd)).
Qed.

Lemma swept_none l : (∀ d, d ∈ l → slot_ok d) → swept_to false (length l) l = replicate (length l) EMPTY_DESCRIPTOR.
Proof.
  intros Hok. unfold swept_to. rewrite firstn_all, drop_all, app_nil_r. induction l as [|d l IH]; [done|]. simpl. f_equal.
  - unfold swept, closes. simpl. rewrite andb_true_r. destruct (slot_used d) eqn:Hu; [done|]. apply Hok; [left|done].
  - apply IH. intros x Hx. apply Hok. by right.
Qed.

(** After [close_matching] the space holds what it is to keep, and a process
    that exits has no space. *)
Lemma close_matching_wf h r own coe :
  wf h r →
  let '(closed, pending, _, r') := close_matching_locked own coe r in
  balanced h r r' [] pending ∧
  match find_space (spaces r) own with
  | None => closed = O ∧ r' = r
  | Some space => ∃ s, spaces r !! space = Some s ∧ space_owner s = own ∧ closed = countb (closes coe) (descriptors s) ∧
      spaces r' = <[space := if coe then mkSpace own (swept true <$> descriptors s) else EMPTY_SPACE]> (spaces r)
  end.
Proof.
  intros Hw. unfold close_matching_locked. destruct (find_space (spaces r) own) as [space|] eqn:Hf.
  2: { split; [by apply balanced_quiet|done]. }
  destruct (find_space_Some r own space Hf) as (s & Hs & Hu & Ho).
  pose proof (close_loop h r own space s coe _ Hw Hs Hu Ho (le_n _)) as Hl.
  pose proof (sw_descriptors _ (wf_spaces _ _ Hw) _ _ Hs) as Hlen. pose proof (lookup_lt_Some _ _ _ Hs) as Hlt.
  destruct (foldl _ _ _) as [[[r1 closed] pending] detached]. destruct Hl as ([Hw1 Hb] & Hsp & Hcl & Hspc).
  rewrite <- Hlen, firstn_all in Hcl. rewrite <- Hlen in Hspc. destruct coe.
  { split; [done|]. exists s. split_and!; try done. rewrite Hspc, Ho. unfold swept_to.
    by rewrite firstn_all, drop_all, app_nil_r. }
  rewrite swept_none, Hlen in Hspc.
  2: { intros d [fd Hd]%list_elem_of_lookup. by eapply (sw_range _ (wf_spaces _ _ Hw)). }
  assert (spaces r1 !! space = Some (mkSpace (space_owner s) NO_DESCRIPTORS)) as Hs1.
  { rewrite Hspc. by apply list_lookup_insert_eq. }
  split; [split; [by eapply wf_with_owner; [done|done|done|left]|done]|]. exists s. split_and!; try done.
  simpl. apply list_eq. intros k. destruct (decide (space = k)) as [->|Hne].
  - by rewrite list_lookup_alter_eq, Hs1, list_lookup_insert_eq.
  - by rewrite list_lookup_alter_ne, Hspc, !list_lookup_insert_ne.
Qed.
