(* ===== verification/FdTrace.v ===== *)
(** * Sequences of descriptor-table sections

    Every system call on descriptors is a sequence of critical sections of the
    registry lock (FdTable). A [Call] is one section with its arguments, a
    [System] the registry together with what is outstanding: the leases of
    operations in progress, the transfer tokens in flight, the epoll watches,
    and the history of objects installed and handed out for finalization.
    [run] executes any interleaving of sections in which a holder gives back
    only what it holds; the theorems are about all of them. *)

From stdpp Require Import prelude list numbers option.
From Stdlib Require Import ZArith Lia.
From S2P Require Import Prelude.
From S2P Require Import Handles.
From S2P Require Import ObjectKey.
From S2P Require Import OpenFlags.
From S2P Require Import FdTable.
From S2P Require Import FdRefs.

(** ** What a section leaves alone *)

(** The object keeps its identity, or is taken. *)
Definition kept (o o' : OpenObject) : Prop :=
  generation o' = generation o ∧ (final_of o' = final_of o ∨ kind_occupied (kind o') = false).

#[global] Instance kept_preorder : PreOrder kept.
Proof.
  split; [by split; [|left]|]. intros a b c [Hab Ha] [Hbc Hb]. split; [congruence|].
  destruct Hb as [Hb|]; [|auto]. destruct Ha as [Ha|Ha]; [left; congruence|]. right. unfold final_of in Hb. congruence.
Qed.

Lemma kept_same o o' : generation o' = generation o → final_of o' = final_of o → kept o o'.
Proof. by split; [|left]. Qed.

(** Work on behalf of [own] inside one section. *)
Record calm (own : ProcessHandle) (r r' : DescriptorRegistry) : Prop := {
  calm_objects : ∀ i o', objects r' !! i = Some o' → ∃ o, objects r !! i = Some o ∧ kept o o';
  calm_spaces : ∀ k s, spaces r !! k = Some s → space_used s = true → space_owner s ≠ own → spaces r' !! k = Some s;
}.

#[global] Instance calm_preorder own : PreOrder (calm own).
Proof.
  split; [intros r; split; [|done]; intros i o Ho; by exists o|]. intros a b c [Ho1 Hs1] [Ho2 Hs2]. split.
  - intros i o'' (o' & Ho' & Hl)%Ho2. destruct (Ho1 i o' Ho') as (o & Ho & Hl'). exists o. split; [done|by etrans].
  - eauto.
Qed.

Lemma calm_set_object own r i o' : kept (object_at r i) o' → calm own r (set_object i o' r).
Proof.
  intros Hl. split; [|done]. intros j x. simpl. intros [(-> & -> & Hlt)|[Hne Hj]]%list_lookup_insert_Some; [|by exists x].
  exists (object_at r j). split; [by apply slot_at_lookup|done].
Qed.

Lemma calm_on_object own r i f : (∀ o, kept o (f o)) → calm own r (on_object i f r).
Proof.
  intros Hl. split; [|done]. intros j x. simpl. destruct (decide (i = j)) as [->|Hne].
  - rewrite list_lookup_alter_eq. intros (o & Ho & ->)%fmap_Some. eauto.
  - rewrite list_lookup_alter_ne by done. intros Hx. by exists x.
Qed.

Lemma calm_set_descriptor own r space fd slot : space_of r own space → calm own r (set_descriptor space fd slot r).
Proof.
  intros (s & Hs & _ & Ho). split; [intros i o Hi; by exists o|]. intros k x Hx _ Hne. simpl. rewrite list_lookup_alter_ne; [done|].
  intros ->. congruence.
Qed.

Lemma kept_take o o1 : generation o1 = generation o → final_of o1 = final_of o → kept o (maybe_take_closing o1).2.
Proof. intros Hg Hf. unfold maybe_take_closing. destruct (_ && _); (split; [done|]); auto. Qed.

Lemma calm_settle own r i o1 p r' :
  settle i o1 r = (p, r') → generation o1 = generation (object_at r i) → final_of o1 = final_of (object_at r i) →
  calm own r r'.
Proof.
  unfold settle. intros Hs Hg Hf. pose proof (kept_take _ o1 Hg Hf) as Hl. destruct (maybe_take_closing o1) as [p' o'].
  injection Hs as _ <-. by apply calm_set_object.
Qed.

Lemma unreference_same o o1 last : unreference o = (o1, last) → generation o1 = generation o ∧ final_of o1 = final_of o.
Proof. unfold unreference. destruct (_ =? 0); by intros [= <- _]. Qed.

(** Installing leaves alone what is in use, apart from the descriptors of
    [own]. *)
Record grows (own : ProcessHandle) (r r' : DescriptorRegistry) : Prop := {
  grows_objects : ∀ i o, objects r !! i = Some o → kind_occupied (kind o) = true → objects r' !! i = Some o;
  grows_spaces : ∀ k s, spaces r !! k = Some s → space_used s = true → space_owner s ≠ own → spaces r' !! k = Some s;
}.

#[global] Instance grows_preorder own : PreOrder (grows own).
Proof. split; [done|]. intros a b c [Ho1 Hs1] [Ho2 Hs2]. split; eauto. Qed.

Lemma extends_grows own r r' : extends r r' → grows own r r'.
Proof. intros [Ho Hs]. split; eauto. Qed.

Lemma grows_set_descriptor own r space fd slot : space_of r own space → grows own r (set_descriptor space fd slot r).
Proof. intros Hsp. split; [done|]. by apply calm_set_descriptor. Qed.

Lemma grows_set_object own r i o o' :
  objects r !! i = Some o → kind_occupied (kind o) = false → grows own r (set_object i o' r).
Proof.
  intros Hi Hk. split; [|done]. intros j x Hj Hx. simpl. rewrite list_lookup_insert_ne; [done|]. intros ->. congruence.
Qed.

Definition respects (own : ProcessHandle) (r r' : DescriptorRegistry) : Prop :=
  ∃ r1, grows own r r1 ∧ calm own r1 r'.

Lemma calm_respects own r r' : calm own r r' → respects own r r'.
Proof. intros Hc. by exists r. Qed.

Lemma grows_respects own r r' : grows own r r' → respects own r r'.
Proof. intros Hg. by exists r'. Qed.

(** What is in use is still the same, or is free. *)
Lemma respects_object own r r' i o o' :
  respects own r r' → objects r !! i = Some o → kind_occupied (kind o) = true → objects r' !! i = Some o' → kept o o'.
Proof.
  intros (r1 & [Hx _] & [Ho _]) Hi Hk Hi'. destruct (Ho i o' Hi') as (o1 & Hi1 & Hl).
  by assert (o1 = o) as <- by (pose proof (Hx i o Hi Hk); congruence).
Qed.

Lemma respects_space own r r' k s :
  respects own r r' → spaces r !! k = Some s → space_used s = true → space_owner s ≠ own → spaces r' !! k = Some s.
Proof. intros (r1 & [_ Hx] & [_ Hs]) Hk Hu Hne. eauto. Qed.

Section Respects.
Context {F : Type} (h : Holders) (r : DescriptorRegistry).
Hypothesis Hw : wf h r.

(** After [ensure_space] the section works in its own space. *)
Ltac own_space :=
  m_unfold;
  match goal with
  | |- respects ?own _ _ =>
      let He := fresh "He" in
      pose proof (ensure_space_wf (F := F) h r own Hw) as He;
      destruct (ensure_space own r) as [[space|e] r1];
      [destruct He as (_ & Hsp & Hx & _); exists r1; split; [by apply extends_grows|]|destruct He as (_ & Hx & _); by apply grows_respects, extends_grows]
  end.

Lemma lookup_same space fd r1 : (lookup_descriptor (F := F) space fd r1).2 = r1.
Proof. unfold lookup_descriptor. m_unfold. destruct (_ !! _) as [d|]; [|done]. by destruct (slot_used d). Qed.

Ltac look_up :=
  match goal with
  | |- context [lookup_descriptor ?space ?fd ?r1] =>
      pose proof (lookup_same space fd r1);
      destruct (lookup_descriptor space fd r1) as [[d|?] ?]; cbn [snd] in *; subst; [|done]
  end.

Lemma calm_reference own i r1 : calm own r1 (reference (F := F) i r1).2.
Proof.
  unfold reference. m_unfold. destruct (checked_add _ _ _); [|done]. destruct (checked_add _ _ _); [|done].
  apply calm_set_object. by apply kept_same.
Qed.

Lemma reference_spaces i r1 : spaces (reference (F := F) i r1).2 = spaces r1.
Proof. unfold reference. m_unfold. by repeat destruct (checked_add _ _ _). Qed.

Lemma calm_lease own i p key r1 : calm own r1 (lease_object (F := F) i p key r1).2.
Proof.
  unfold lease_object. m_unfold. destruct (objects r1 !! i) as [o|] eqn:Hi; [|done]. destruct (p o); [|done].
  destruct (checked_add _ _ _); [|done]. apply calm_set_object. unfold object_at. rewrite (slot_at_Some _ _ _ _ Hi).
  by apply kept_same.
Qed.

Ltac own_growth :=
  m_unfold;
  match goal with
  | |- respects ?own _ _ =>
      let He := fresh "He" in
      pose proof (ensure_space_wf (F := F) h r own Hw) as He; apply grows_respects;
      destruct (ensure_space own r) as [[space|e] r1];
      [destruct He as (_ & Hsp & Hx%(extends_grows own) & _); etrans; [exact Hx|]
      |destruct He as (_ & Hx & _); by apply extends_grows]
  end.

Lemma install_backend_respects own backend kd status coe :
  respects own r (install_backend_object (F := F) own backend kd status coe r).2.
Proof.
  unfold install_backend_object. own_growth. destruct (position _ _) as [fd|]; [|done].
  destruct (allocate_run (F := F) backend kd status r1) as [[e ->]|(i & o & Hi & Ho & _ & ->)]; [done|].
  rewrite on_set_object by by eapply lookup_lt_Some. cbn [snd].
  etrans; [by eapply (grows_set_object own r1 i o)|]. by apply grows_set_descriptor.
Qed.

Lemma acquire_descriptor_respects own fd : respects own r (acquire_descriptor (F := F) own fd r).2.
Proof.
  unfold acquire_descriptor. own_space. look_up.
  match goal with |- context [lease_object ?i ?p ?key r1] => pose proof (calm_lease own i p key r1) as Hl end.
  by destruct (lease_object _ _ _ _) as [[]].
Qed.

Lemma close_respects own fd : respects own r (close_locked (F := F) own fd r).2.
Proof.
  unfold close_locked. own_space. look_up. destruct (negb _); [|done].
  destruct (unreference _) as [o1 last] eqn:Ho1. apply unreference_same in Ho1 as [Hg Hf].
  destruct (settle _ _ _) as [p r'] eqn:Hs. cbn [snd]. etrans; [by apply calm_set_descriptor|]. by eapply calm_settle.
Qed.

Lemma duplicate_respects own old minimum coe : respects own r (duplicate (F := F) own old minimum coe r).2.
Proof.
  unfold duplicate. m_unfold. destruct (negb _); [|by apply calm_respects]. own_space. look_up.
  destruct (_ <$> _) as [fd|]; [|done]. destruct (negb _); [|done].
  pose proof (calm_reference own (target_index d) r1) as Hr. pose proof (reference_spaces (target_index d) r1) as Hs.
  destruct (reference _ _) as [[] r2]; [|done]. cbn [snd] in *. etrans; [exact Hr|]. apply calm_set_descriptor.
  unfold space_of. by rewrite Hs.
Qed.

Lemma duplicate_to_respects own old new coe : respects own r (duplicate_to_locked (F := F) own old new coe r).2.
Proof.
  unfold duplicate_to_locked. own_space. look_up. destruct (negb _); [|done]. set (i := target_index d).
  pose proof (calm_reference own i r1) as Hr. pose proof (reference_spaces i r1) as Hs.
  set (ex := slot_at EMPTY_DESCRIPTOR _ _). destruct (slot_used ex).
  - destruct (negb _); [|by apply calm_set_descriptor]. destruct (negb _); [|done].
    destruct (reference i r1) as [[] r2]; [|done]. cbn [snd] in *.
    destruct (unreference _) as [o1 last] eqn:Ho1. apply unreference_same in Ho1 as [Hg Hf].
    pose proof (settle_spaces (target_index ex) o1 r2) as Hsp2.
    destruct (settle _ _ _) as [p r3] eqn:Hset. cbn [snd] in *. etrans; [exact Hr|]. etrans; [by eapply calm_settle|].
    apply calm_set_descriptor. unfold space_of. by rewrite Hsp2, Hs.
  - destruct (reference i r1) as [[] r2]; [|done]. cbn [snd] in *. etrans; [exact Hr|]. apply calm_set_descriptor.
    unfold space_of. by rewrite Hs.
Qed.

Lemma install_pair_respects own k1 s1 k2 s2 coe : respects own r (install_object_pair (F := F) own k1 s1 k2 s2 coe r).2.
Proof.
  unfold install_object_pair. own_growth. destruct (_ !! 0%nat) as [fd1|]; [|done]. destruct (_ !! 1%nat) as [fd2|]; [|done].
  destruct (_ !! 0%nat) as [i1|] eqn:Hi1; [|done]. destruct (_ !! 1%nat) as [i2|] eqn:Hi2; [|done].
  destruct (next_object_generation _) as [g1|]; [|done]. destruct (next_object_generation _) as [g2|]; [|done].
  pose proof Hi1 as (_ & o1 & H1 & Hk1%negb_true_iff)%list_elem_of_lookup_2%indices_from_elem.
  pose proof Hi2 as (_ & o2 & H2 & Hk2%negb_true_iff)%list_elem_of_lookup_2%indices_from_elem.
  rewrite Nat.sub_0_r in H1, H2. cbn [snd].
  assert (i1 ≠ i2) as Hne by (intros ->; by pose proof (NoDup_lookup _ _ _ _ (indices_from_NoDup _ _ _) Hi1 Hi2)).
  etrans; [by apply (grows_set_object own r1 i1 o1)|].
  etrans; [by apply (grows_set_object own _ i2 o2); [simpl; rewrite list_lookup_insert_ne|]|].
  etrans; [by apply (grows_set_descriptor own _ space fd1)|]. apply grows_set_descriptor. by apply space_of_set.
Qed.

Lemma set_descriptor_flags_respects own fd flg : respects own r (set_descriptor_flags (F := F) own fd flg r).2.
Proof.
  unfold set_descriptor_flags. m_unfold. destruct (_ =? 0); [|by apply calm_respects]. own_space. look_up.
  by apply calm_set_descriptor.
Qed.

Lemma set_status_flags_respects own fd flg : respects own r (set_status_flags (F := F) own fd flg r).2.
Proof. unfold set_status_flags. own_space. look_up. apply calm_on_object. intros o. by apply kept_same. Qed.

Lemma descriptor_flags_respects own fd : respects own r (descriptor_flags (F := F) own fd r).2.
Proof. unfold descriptor_flags. own_space. by look_up. Qed.

Lemma capture_keys_same space fds : ∀ keys r1, (capture_keys (F := F) space keys fds r1).2 = r1.
Proof.
  induction fds as [|fd fds IH]; intros keys r1; [done|]. simpl. unfold capture_one. m_unfold.
  pose proof (lookup_same space fd r1). destruct (lookup_descriptor space fd r1) as [[d|?] ?]; cbn [snd] in *; subst; [|done].
  destruct (negb _); [|done]. destruct (match kind _ with UnixSocket _ | Epoll _ => false | _ => true end); [|done].
  destruct (_ <=? U16_MAX); [|done]. destruct (checked_add _ _ _); [|done]. destruct (checked_add _ _ _); [|done]. apply IH.
Qed.

Lemma capture_respects own fds room : respects own r (capture_transfers (F := F) own fds room r).2.
Proof.
  unfold capture_transfers. m_unfold. destruct (negb _); [|by apply calm_respects]. own_space.
  pose proof (capture_keys_same space fds [] r1). destruct (capture_keys _ _ _ _) as [[keys|?] ?]; cbn [snd] in *; subst; [|done].
  clear Hx Hsp. revert r1. induction keys as [|key keys IH]; intros r1; [done|]. simpl. etrans; [|apply IH].
  apply calm_on_object. intros o. by apply kept_same.
Qed.

Lemma install_transfers_respects own tokens coe room :
  respects own r (install_transfers (F := F) own tokens coe room r).2.
Proof.
  unfold install_transfers. m_unfold. destruct (negb _); [|by apply calm_respects]. own_space.
  destruct (_ =? _)%nat; [|done]. destruct (forallb _ _); [|done]. cbn [snd]. set (targets := zip _ _). clearbody targets.
  clear Hx. revert r1 Hsp. induction targets as [|[fd key] targets IH]; intros r1 Hsp; [done|]. simpl.
  etrans; [|apply IH; by apply space_of_set]. by apply calm_set_descriptor.
Qed.

Lemma acquire_key_respects own key : respects own r (acquire_key (F := F) key r).2.
Proof.
  apply calm_respects. unfold acquire_key. m_unfold. destruct (key_index key) as [i|]; [|done].
  match goal with |- context [lease_object ?i ?p ?key r] => pose proof (calm_lease own i p key r) as Hl end.
  by destruct (lease_object _ _ _ _) as [[]].
Qed.

Lemma retain_respects own key : respects own r (retain_key (F := F) key r).2.
Proof.
  apply calm_respects. unfold retain_key. m_unfold. destruct (key_index key) as [i|]; [|done].
  destruct (objects r !! i) as [o|] eqn:Hi; [|done]. destruct (_ && _); [|done]. destruct (checked_add _ _ _); [|done].
  apply calm_set_object. unfold object_at. rewrite (slot_at_Some _ _ _ _ Hi). by apply kept_same.
Qed.
End Respects.

Lemma release_respects own key r : respects own r (release_locked key r).2.
Proof.
  apply calm_respects. unfold release_locked. destruct (key_index key) as [i|]; [|done]. destruct (_ || _); [done|].
  destruct (settle _ _ _) as [p r'] eqn:Hs. by eapply calm_settle.
Qed.

Lemma drop_respects own key r : respects own r (drop_locked key r).2.
Proof.
  apply calm_respects. unfold drop_locked. destruct (key_index key) as [i|]; [|done]. destruct (_ || _); [done|].
  destruct (settle _ _ _) as [p r'] eqn:Hs. eapply calm_settle; [done|by destruct (_ =? _)..].
Qed.

Lemma release_transfer_respects own key r : respects own r (release_transfer_locked key r).2.
Proof.
  apply calm_respects. unfold release_transfer_locked. destruct (key_index key) as [i|]; [|done]. destruct (_ || _); [done|].
  destruct (unreference _) as [o1 last] eqn:Ho1. apply unreference_same in Ho1 as [Hg Hf].
  destruct (settle _ _ _) as [p r'] eqn:Hs. by eapply calm_settle.
Qed.

Lemma calm_close_descriptor own space coe closed pending detached fd r :
  space_of r own space →
  let '(r', _, _, _) := close_descriptor space coe (r, closed, pending, detached) fd in
  calm own r r' ∧ space_of r' own space.
Proof.
  intros Hsp. unfold close_descriptor. destruct (_ || _); [done|]. set (d := slot_at _ _ _).
  set (r1 := set_descriptor space fd EMPTY_DESCRIPTOR r).
  match goal with |- context [settle _ ?x _] => set (o1 := x) end.
  pose proof (settle_spaces (target_index d) o1 r1) as Hs1. destruct (settle _ _ _) as [p r'] eqn:Hs. cbn [snd] in Hs1. split.
  - etrans; [by apply (calm_set_descriptor own r space fd EMPTY_DESCRIPTOR)|]. eapply calm_settle; [exact Hs|unfold o1..]; by destruct (_ =? 0).
  - unfold space_of. rewrite Hs1. by apply space_of_set.
Qed.

Lemma close_matching_respects own coe r : respects own r (close_matching_locked own coe r).2.
Proof.
  apply calm_respects. unfold close_matching_locked. destruct (find_space (spaces r) own) as [space|] eqn:Hf; [|done].
  apply find_space_Some in Hf. generalize (seq 0 MAXIMUM_FILE_DESCRIPTORS). intros l.
  assert (let '(r', _, _, _) := foldl (close_descriptor space coe) (r, O, [], []) l in calm own r r' ∧ space_of r' own space) as Hl.
  { revert Hf. generalize O (@nil FinalObject) (@nil ObjectKey). revert r.
    induction l as [|fd l IH]; intros r closed pending detached Hsp; [done|]. cbn [foldl].
    pose proof (calm_close_descriptor own space coe closed pending detached fd r Hsp) as Hc.
    destruct (close_descriptor _ _ _ _) as [[[r1 closed1] pending1] detached1]. destruct Hc as [Hc Hsp1].
    specialize (IH r1 closed1 pending1 detached1 Hsp1). destruct (foldl _ _ l) as [[[r2 ?] ?] ?]. destruct IH as [Hc2 Hsp2].
    split; [by etrans|done]. }
  destruct (foldl _ _ l) as [[[r2 ?] ?] ?]. destruct Hl as [Hc (s & Hs & Hu & Ho)]. destruct coe; [done|].
  etrans; [exact Hc|]. split; [intros i o Hi; by exists o|]. intros k x Hx _ Hne. simpl. rewrite list_lookup_alter_ne; [done|].
  intros ->. congruence.
Qed.

(** ** The system *)

(** One critical section with its arguments. *)
Inductive Call :=
| Install (own backend : ProcessHandle) (k : OpenObjectKind) (status : Z) (close_on_exec : bool)
| InstallPair (own : ProcessHandle) (k1 : OpenObjectKind) (status1 : Z) (k2 : OpenObjectKind) (status2 : Z) (close_on_exec : bool)
| Acquire (own : ProcessHandle) (fd : Z)
| AcquireKey (own : ProcessHandle) (key : ObjectKey)
| Release (own : ProcessHandle) (key : ObjectKey)
| Retain (own : ProcessHandle) (key : ObjectKey)
| Drop (own : ProcessHandle) (key : ObjectKey)
| Close (own : ProcessHandle) (fd : Z)
| Duplicate (own : ProcessHandle) (old_fd minimum : Z) (close_on_exec : bool)
| DuplicateTo (own : ProcessHandle) (old_fd new_fd : Z) (close_on_exec : bool)
| Capture (own : ProcessHandle) (fds : list Z) (room : nat)
| InstallTransfers (own : ProcessHandle) (toks : list ObjectKey) (close_on_exec : bool) (room : nat)
| ReleaseTransfer (own : ProcessHandle) (key : ObjectKey)
| DescriptorFlags (own : ProcessHandle) (fd : Z)
| SetDescriptorFlags (own : ProcessHandle) (fd flg : Z)
| SetStatusFlags (own : ProcessHandle) (fd flg : Z)
| CloseMatching (own : ProcessHandle) (only_close_on_exec : bool).

(** The process on whose behalf the section runs. *)
Definition caller (c : Call) : ProcessHandle :=
  match c with
  | Install own _ _ _ _ | InstallPair own _ _ _ _ _ | Acquire own _ | AcquireKey own _ | Release own _ | Retain own _
  | Drop own _ | Close own _ | Duplicate own _ _ _ | DuplicateTo own _ _ _ | Capture own _ _ | InstallTransfers own _ _ _
  | ReleaseTransfer own _ | DescriptorFlags own _ | SetDescriptorFlags own _ _ | SetStatusFlags own _ _
  | CloseMatching own _ => own
  end.

Record System := mkSystem {
  registry : DescriptorRegistry;
  active : list ObjectLease;
  in_flight : list ObjectKey;
  watched : list ObjectKey;
  installed : list FinalObject;
  finalized : list FinalObject;
}.

Definition BOOT : System := mkSystem EMPTY_REGISTRY [] [] [] [] [].

Definition holders (s : System) : Holders :=
  mkHolders (count_key (l_key <$> active s)) (count_key (in_flight s)) (count_key (watched s)).

Fixpoint remove_by {A} (p : A → bool) (l : list A) : list A :=
  match l with
  | [] => []
  | x :: l => if p x then l else x :: remove_by p l
  end.

Definition remove_key (l : list ObjectKey) (key : ObjectKey) : list ObjectKey := remove_by (key_eqb key) l.
Definition remove_lease (key : ObjectKey) : list ObjectLease → list ObjectLease :=
  remove_by (λ l, key_eqb key (l_key l)).

(** A holder gives back what it holds; kinds installed are those of objects;
    key indices are [u16]; [duplicate_to] has checked its new descriptor. *)
Definition permitted (c : Call) (s : System) : bool :=
  match c with
  | Install _ _ k _ _ => kind_occupied k
  | InstallPair _ k1 _ k2 _ _ => kind_occupied k1 && kind_occupied k2
  | AcquireKey _ key | Retain _ key => (0 <=? k_index key) && (k_index key <=? U16_MAX)
  | Release _ key => existsb (λ l, key_eqb key (l_key l)) (active s)
  | Drop _ key => existsb (key_eqb key) (watched s)
  | DuplicateTo _ _ new_fd _ => (0 <=? new_fd) && (new_fd <? Z.of_nat MAXIMUM_FILE_DESCRIPTORS)
  | InstallTransfers _ toks _ _ => forallb (λ key, count_key toks key <=? count_key (in_flight s) key)%nat toks
  | ReleaseTransfer _ key => existsb (key_eqb key) (in_flight s)
  | _ => true
  end.

Section System.
Context {F : Type}.

Definition at_registry (s : System) (r : DescriptorRegistry) : System :=
  mkSystem r (active s) (in_flight s) (watched s) (installed s) (finalized s).
Definition finalizing (s : System) (r : DescriptorRegistry) (l : list FinalObject) : System :=
  mkSystem r (active s) (in_flight s) (watched s) (installed s) (finalized s ++ l).
Definition installing (s : System) (r : DescriptorRegistry) (l : list FinalObject) : System :=
  mkSystem r (active s) (in_flight s) (watched s) (installed s ++ l) (finalized s).
Definition leasing (s : System) (r : DescriptorRegistry) (l : ObjectLease) : System :=
  mkSystem r (l :: active s) (in_flight s) (watched s) (installed s) (finalized s).

Definition section (c : Call) (s : System) : System :=
  let r := registry s in
  match c with
  | Install own backend k status coe =>
      match install_backend_object (F := F) own backend k status coe r with
      | (Ok _, r) => installing s r [mkFinal backend k]
      | (Err _, r) => at_registry s r
      end
  | InstallPair own k1 status1 k2 status2 coe =>
      match install_object_pair (F := F) own k1 status1 k2 status2 coe r with
      | (Ok _, r) => installing s r [mkFinal own k1; mkFinal own k2]
      | (Err _, r) => at_registry s r
      end
  | Acquire own fd =>
      match acquire_descriptor (F := F) own fd r with
      | (Ok l, r) => leasing s r l
      | (Err _, r) => at_registry s r
      end
  | AcquireKey _ key =>
      match acquire_key (F := F) key r with
      | (Ok l, r) => leasing s r l
      | (Err _, r) => at_registry s r
      end
  | Release _ key =>
      let '(p, r) := release_locked key r in
      mkSystem r (remove_lease key (active s)) (in_flight s) (watched s) (installed s) (finalized s ++ option_list p)
  | Retain _ key =>
      match retain_key (F := F) key r with
      | (Ok _, r) => mkSystem r (active s) (in_flight s) (key :: watched s) (installed s) (finalized s)
      | (Err _, r) => at_registry s r
      end
  | Drop _ key =>
      let '(p, r) := drop_locked key r in
      mkSystem r (active s) (in_flight s) (remove_key (watched s) key) (installed s) (finalized s ++ option_list p)
  | Close own fd =>
      match close_locked (F := F) own fd r with
      | (Ok (p, _), r) => finalizing s r (option_list p)
      | (Err _, r) => at_registry s r
      end
  | Duplicate own old_fd minimum coe => at_registry s (duplicate (F := F) own old_fd minimum coe r).2
  | DuplicateTo own old_fd new_fd coe =>
      match duplicate_to_locked (F := F) own old_fd new_fd coe r with
      | (Ok (p, _), r) => finalizing s r (option_list p)
      | (Err _, r) => at_registry s r
      end
  | Capture own fds room =>
      match capture_transfers (F := F) own fds room r with
      | (Ok keys, r) => mkSystem r (active s) (keys ++ in_flight s) (watched s) (installed s) (finalized s)
      | (Err _, r) => at_registry s r
      end
  | InstallTransfers own toks coe room =>
      match install_transfers (F := F) own toks coe room r with
      | (Ok _, r) => mkSystem r (active s) (foldl remove_key (in_flight s) toks) (watched s) (installed s) (finalized s)
      | (Err _, r) => at_registry s r
      end
  | ReleaseTransfer _ key =>
      let '(p, _, r) := release_transfer_locked key r in
      mkSystem r (active s) (remove_key (in_flight s) key) (watched s) (installed s) (finalized s ++ option_list p)
  | DescriptorFlags own fd => at_registry s (descriptor_flags (F := F) own fd r).2
  | SetDescriptorFlags own fd flg => at_registry s (set_descriptor_flags (F := F) own fd flg r).2
  | SetStatusFlags own fd flg => at_registry s (set_status_flags (F := F) own fd flg r).2
  | CloseMatching own coe =>
      let '(_, pending, _, r) := close_matching_locked own coe r in finalizing s r pending
  end.

Definition do_call (s : System) (c : Call) : System := if permitted c s then section c s else s.

Definition run (calls : list Call) : System := foldl do_call BOOT calls.
End System.

(** ** The invariant *)

(** The object of a lease is there, and is the one leased. *)
Definition leased (r : DescriptorRegistry) (l : ObjectLease) : Prop :=
  ∃ i o, objects r !! i = Some o ∧ kind_occupied (kind o) = true ∧ l_key l = key_of i o ∧
    final_of o = mkFinal (l_owner l) (l_kind l).

Record inv (s : System) : Prop := {
  inv_wf : wf (holders s) (registry s);
  inv_stock : ∀ f, (stock (registry s) f + tally f (finalized s) = tally f (installed s))%nat;
  inv_leases : ∀ l, l ∈ active s → leased (registry s) l;
}.

Lemma balanced_ext h h' r r' inst fin :
  (∀ k, same_at k h h') → balanced h r r' inst fin → balanced h' r r' inst fin.
Proof. intros Hs [Hw Hb]. split; [by eapply wf_ext|done]. Qed.

Lemma count_key_remove l key k :
  existsb (key_eqb key) l = true → count_key (remove_key l key) k = fewer key (count_key l) k.
Proof.
  unfold remove_key, fewer. induction l as [|x l IH]; [done|]. simpl. destruct (key_eqb key x) eqn:Hx; simpl.
  - apply key_eqb_eq in Hx as ->. intros _. rewrite count_key_cons. destruct (decide (x = k)) as [->|Hne].
    + by rewrite !key_eqb_refl.
    + by rewrite !key_eqb_ne by congruence.
  - intros He. rewrite !count_key_cons, (IH He). destruct (key_eqb key k) eqn:Hk; [|done]. apply key_eqb_eq in Hk as ->.
    by rewrite Hx.
Qed.

Lemma count_key_pos l key : existsb (key_eqb key) l = true → (0 < count_key l key)%nat.
Proof.
  induction l as [|x l IH]; [done|]. simpl. rewrite count_key_cons. destruct (key_eqb key x); simpl; [lia|]. intros ?%IH. lia.
Qed.

Lemma count_key_more l key k : count_key (key :: l) k = more key (count_key l) k.
Proof.
  rewrite count_key_cons. unfold more. destruct (decide (key = k)) as [->|Hne]; [by rewrite key_eqb_refl|].
  by rewrite !key_eqb_ne by congruence.
Qed.

Lemma remove_lease_keys key l : l_key <$> remove_lease key l = remove_key (l_key <$> l) key.
Proof.
  unfold remove_lease, remove_key. induction l as [|x l IH]; [done|]. simpl. destruct (key_eqb key (l_key x)); [done|].
  simpl. by f_equal.
Qed.

Lemma existsb_keys key l : existsb (λ l, key_eqb key (l_key l)) l = existsb (key_eqb key) (l_key <$> l).
Proof. induction l as [|x l IH]; [done|]. simpl. by rewrite IH. Qed.

Lemma remove_by_sub {A} (p : A → bool) l x : x ∈ remove_by p l → x ∈ l.
Proof.
  induction l as [|y l IH]; [done|]. simpl. destruct (p y); [by right|]. rewrite !elem_of_cons. intros [->|Hx]; auto.
Qed.

Lemma count_key_elem l key : key ∈ l → (0 < count_key l key)%nat.
Proof.
  induction 1 as [|key' y l _ IH]; rewrite count_key_cons; [rewrite key_eqb_refl; simpl; lia|lia].
Qed.

Lemma count_key_0 l key : key ∉ l → count_key l key = O.
Proof.
  induction l as [|x l IH]; [done|]. rewrite not_elem_of_cons, count_key_cons. intros [Hne Hl].
  by rewrite key_eqb_ne, IH.
Qed.

(** Keys of different states agree only at the same index. *)
Lemma live_key_inj h h' r r' i i' o o' :
  wf h r → wf h' r' → objects r !! i = Some o → objects r' !! i' = Some o' → key_of i o = key_of i' o' → i = i'.
Proof.
  intros Hw Hw' Hi Hi' Heq. pose proof (object_index_lt _ _ i o Hw Hi) as H1. pose proof (object_index_lt _ _ i' o' Hw' Hi') as H2.
  by apply key_of_inj in Heq as [-> _].
Qed.

(** A section keeps the invariant when it keeps the counts, leaves alone what
    is in use and adds only leases of live objects. *)
Lemma inv_next own s s' inst fin :
  inv s → balanced (holders s') (registry s) (registry s') inst fin →
  installed s' = installed s ++ inst → finalized s' = finalized s ++ fin →
  respects own (registry s) (registry s') → (∀ l, l ∈ active s' → l ∈ active s ∨ leased (registry s') l) → inv s'.
Proof.
  intros [Hw Hst Hl] [Hw' Hb] Hinst Hfin Hresp Hact. split; [done| |].
  - intros f. specialize (Hst f). specialize (Hb f). rewrite Hinst, Hfin. unfold tally in *. rewrite !countb_app. lia.
  - intros l Hin. destruct (Hact l Hin) as [Hold|]; [|done]. destruct (Hl l Hold) as (i & o & Hi & Ho & Hk & Hf).
    destruct (held_object _ _ (l_key l) Hw') as (i' & o' & Hi' & Ho' & Hk' & Hki & _ & Hg).
    { unfold held, holders. simpl. enough (0 < count_key (l_key <$> active s') (l_key l))%nat by lia.
      apply count_key_elem, list_elem_of_fmap. eauto. }
    assert (i' = i) as -> by (eapply live_key_inj; [exact Hw'|exact Hw|done..|congruence]).
    exists i, o'. split_and!; try done. destruct (respects_object own _ _ i o o' Hresp Hi Ho Hi') as [_ [E|E]]; congruence.
Qed.

Lemma lease_leased {F} i p key r :
  (∀ o, objects r !! i = Some o → p o = true → kind_occupied (kind o) = true ∧ key o = key_of i o) →
  match lease_object (F := F) i p key r with (Ok l, r') => leased r' l | _ => True end.
Proof.
  intros Hp. unfold lease_object. m_unfold. destruct (objects r !! i) as [o|] eqn:Hi; [|done].
  destruct (p o) eqn:Hpo; [|done]. destruct (checked_add _ _ _) as [n|]; [|done]. destruct (Hp o eq_refl Hpo) as [Hk ->].
  exists i, (with_active n o). split_and!; try done. simpl. apply list_lookup_insert_eq. by eapply lookup_lt_Some.
Qed.

Lemma acquire_leased {F} own fd r :
  match acquire_descriptor (F := F) own fd r with (Ok l, r') => leased r' l | _ => True end.
Proof.
  unfold acquire_descriptor. m_unfold. destruct (ensure_space own r) as [[space|e] r1]; [|done].
  destruct (lookup_descriptor space fd r1) as [[d|e] r2]; [|done].
  pose proof (lease_leased (F := F) (target_index d) (λ o, kind_occupied (kind o) && negb (closing o))
    (λ o, new_key (target_index d) (generation o)) r2) as Hl.
  destruct (lease_object _ _ _ _) as [[l|e] r3]; [|done]. apply Hl. intros o _ [Hk _]%andb_true_iff. done.
Qed.

Lemma acquire_key_leased {F} key r :
  is_u16 (k_index key) → match acquire_key (F := F) key r with (Ok l, r') => leased r' l | _ => True end.
Proof.
  intros Hu. unfold acquire_key. m_unfold. destruct (key_index key) as [i|] eqn:Hi; [|done].
  pose proof (lease_leased (F := F) i (λ o, kind_occupied (kind o) && (generation o =? k_generation key) && negb (closing o))
    (λ _, key) r) as Hl.
  destruct (lease_object _ _ _ _) as [[l|e] r3]; [|done]. apply Hl.
  intros o Ho [[Hk Hg%Z.eqb_eq]%andb_true_iff _]%andb_true_iff. split; [done|by apply key_of_index].
Qed.

(** What one section does: the counts stay exact, and what is in use is left
    alone apart from the caller's own descriptors. *)
Definition accounted (c : Call) (s s' : System) : Prop :=
  (∃ inst fin, balanced (holders s') (registry s) (registry s') inst fin ∧
    installed s' = installed s ++ inst ∧ finalized s' = finalized s ++ fin) ∧
  respects (caller c) (registry s) (registry s') ∧
  (∀ l, l ∈ active s' → l ∈ active s ∨ leased (registry s') l).

Section Accounted.
Context {F : Type} (s : System).
Hypothesis Hi : inv s.

Lemma accounted_quiet c r' :
  balanced (holders s) (registry s) r' [] [] → respects (caller c) (registry s) r' → accounted c s (at_registry s r').
Proof. intros Hb Hr. split_and!; [exists [], []; by rewrite !app_nil_r|done|auto]. Qed.

Lemma accounted_final c r' p :
  balanced (holders s) (registry s) r' [] p → respects (caller c) (registry s) r' → accounted c s (finalizing s r' p).
Proof. intros Hb Hr. split_and!; [exists [], p; by rewrite !app_nil_r|done|auto]. Qed.

Lemma accounted_install c r' p :
  balanced (holders s) (registry s) r' p [] → respects (caller c) (registry s) r' → accounted c s (installing s r' p).
Proof. intros Hb Hr. split_and!; [exists p, []; by rewrite !app_nil_r|done|auto]. Qed.

Lemma accounted_lease c r' l :
  balanced (with_leases (more (l_key l) (leases (holders s))) (holders s)) (registry s) r' [] [] →
  respects (caller c) (registry s) r' → leased r' l → accounted c s (leasing s r' l).
Proof.
  intros Hb Hr Hl. split_and!; [exists [], []; rewrite !app_nil_r; split; [|done]|done|].
  - eapply balanced_ext; [|done]. intros k. split_and!; try done. apply count_key_more.
  - intros l'. simpl. intros [->|?]%elem_of_cons; auto.
Qed.

Lemma install_accounted own backend k status coe :
  kind_occupied k = true → let c := Install own backend k status coe in accounted c s (section (F := F) c s).
Proof.
  intros Hk c. simpl. pose proof (install_backend_wf (F := F) _ _ (inv_wf s Hi) own backend k status coe Hk) as Hb.
  pose proof (install_backend_respects (F := F) _ _ (inv_wf s Hi) own backend k status coe) as Hr.
  destruct (install_backend_object _ _ _ _ _ _) as [[fd|e] r'].
  - by apply accounted_install.
  - by apply accounted_quiet.
Qed.

Lemma install_pair_accounted own k1 s1 k2 s2 coe :
  kind_occupied k1 = true → kind_occupied k2 = true →
  let c := InstallPair own k1 s1 k2 s2 coe in accounted c s (section (F := F) c s).
Proof.
  intros Hk1 Hk2 c. simpl. pose proof (install_pair_wf (F := F) _ _ (inv_wf s Hi) own k1 s1 k2 s2 coe Hk1 Hk2) as Hb.
  pose proof (install_pair_respects (F := F) _ _ (inv_wf s Hi) own k1 s1 k2 s2 coe) as Hr.
  destruct (install_object_pair _ _ _ _ _ _ _) as [[fd|e] r'].
  - by apply accounted_install.
  - by apply accounted_quiet.
Qed.

Lemma acquire_accounted own fd : let c := Acquire own fd in accounted c s (section (F := F) c s).
Proof.
  simpl. pose proof (acquire_descriptor_wf (F := F) _ _ (inv_wf s Hi) own fd) as Hb.
  pose proof (acquire_descriptor_respects (F := F) _ _ (inv_wf s Hi) own fd) as Hr.
  pose proof (acquire_leased (F := F) own fd (registry s)) as Hl. destruct (acquire_descriptor _ _ _) as [[l|e] r'].
  - by apply accounted_lease.
  - by apply accounted_quiet.
Qed.

Lemma acquire_key_accounted own key :
  is_u16 (k_index key) → let c := AcquireKey own key in accounted c s (section (F := F) c s).
Proof.
  intros Hu c. simpl. pose proof (acquire_key_wf (F := F) _ _ (inv_wf s Hi) key Hu) as Hb.
  pose proof (acquire_key_respects (F := F) (registry s) own key) as Hr.
  pose proof (acquire_key_leased (F := F) key (registry s) Hu) as Hl. destruct (acquire_key _ _) as [[l|e] r'].
  - by apply accounted_lease.
  - by apply accounted_quiet.
Qed.

Lemma release_accounted own key :
  existsb (λ l, key_eqb key (l_key l)) (active s) = true →
  let c := Release own key in accounted c s (section (F := F) c s).
Proof.
  rewrite existsb_keys. intros Hk c. simpl.
  pose proof (release_wf _ _ (inv_wf s Hi) key (count_key_pos _ _ Hk)) as Hb.
  pose proof (release_respects own key (registry s)) as Hr. destruct (release_locked _ _) as [p r'].
  split_and!; [exists [], (option_list p); rewrite app_nil_r; split; [|done]|done|].
  - eapply balanced_ext; [|done]. intros k. split_and!; try done. simpl. by rewrite remove_lease_keys, count_key_remove.
  - intros l Hl. left. by apply remove_by_sub in Hl.
Qed.

Lemma retain_accounted own key :
  is_u16 (k_index key) → let c := Retain own key in accounted c s (section (F := F) c s).
Proof.
  intros Hu c. simpl. pose proof (retain_wf (F := F) _ _ (inv_wf s Hi) key Hu) as Hb.
  pose proof (retain_respects (F := F) (registry s) own key) as Hr. destruct (retain_key _ _) as [[l|e] r'].
  - split_and!; [exists [], []; rewrite !app_nil_r; split; [|done]|done|auto].
    eapply balanced_ext; [|done]. intros k. split_and!; try done. apply count_key_more.
  - subst r'. apply accounted_quiet; [|done]. apply balanced_quiet; [apply Hi|done].
Qed.

Lemma drop_accounted own key :
  existsb (key_eqb key) (watched s) = true → let c := Drop own key in accounted c s (section (F := F) c s).
Proof.
  intros Hk c. simpl. pose proof (drop_wf _ _ (inv_wf s Hi) key (count_key_pos _ _ Hk)) as Hb.
  pose proof (drop_respects own key (registry s)) as Hr. destruct (drop_locked _ _) as [p r'].
  split_and!; [exists [], (option_list p); rewrite app_nil_r; split; [|done]|done|auto].
  eapply balanced_ext; [|done]. intros k. split_and!; try done. simpl. by rewrite count_key_remove.
Qed.

Lemma release_transfer_accounted own key :
  existsb (key_eqb key) (in_flight s) = true → let c := ReleaseTransfer own key in accounted c s (section (F := F) c s).
Proof.
  intros Hk c. simpl. pose proof (release_transfer_wf _ _ (inv_wf s Hi) key (count_key_pos _ _ Hk)) as Hb.
  pose proof (release_transfer_respects own key (registry s)) as Hr. destruct (release_transfer_locked _ _) as [[p last] r'].
  split_and!; [exists [], (option_list p); rewrite app_nil_r; split; [|done]|done|auto].
  eapply balanced_ext; [|done]. intros k. split_and!; try done. simpl. by rewrite count_key_remove.
Qed.

Lemma close_accounted own fd : let c := Close own fd in accounted c s (section (F := F) c s).
Proof.
  simpl. pose proof (close_wf (F := F) _ _ (inv_wf s Hi) own fd) as Hb.
  pose proof (close_respects (F := F) _ _ (inv_wf s Hi) own fd) as Hr. destruct (close_locked _ _ _) as [[[p k]|e] r'].
  - by apply accounted_final.
  - by apply accounted_quiet.
Qed.

Lemma duplicate_to_accounted own old new coe :
  0 ≤ new < Z.of_nat MAXIMUM_FILE_DESCRIPTORS →
  let c := DuplicateTo own old new coe in accounted c s (section (F := F) c s).
Proof.
  intros Hn c. simpl. pose proof (duplicate_to_wf (F := F) _ _ (inv_wf s Hi) own old new coe Hn) as Hb.
  pose proof (duplicate_to_respects (F := F) _ _ (inv_wf s Hi) own old new coe) as Hr.
  destruct (duplicate_to_locked _ _ _ _ _) as [[[p k]|e] r'].
  - by apply accounted_final.
  - by apply accounted_quiet.
Qed.

Lemma capture_accounted own fds room : let c := Capture own fds room in accounted c s (section (F := F) c s).
Proof.
  simpl. pose proof (capture_wf (F := F) _ _ own fds room (inv_wf s Hi)) as Hb.
  pose proof (capture_respects (F := F) _ _ (inv_wf s Hi) own fds room) as Hr.
  destruct (capture_transfers _ _ _ _) as [[keys|e] r']; [|by apply accounted_quiet].
  split_and!; [exists [], []; rewrite !app_nil_r; split; [|done]|done|auto].
  eapply balanced_ext; [|done]. intros k. split_and!; try done. apply count_key_app.
Qed.

Lemma tokens_in_flight (toks l : list ObjectKey) :
  forallb (λ key, count_key toks key <=? count_key l key)%nat toks = true → ∀ k, (count_key toks k ≤ count_key l k)%nat.
Proof.
  intros Hf k. destruct (decide (k ∈ toks)) as [Hin|Hout]; [|rewrite count_key_0 by done; lia].
  rewrite forallb_forall in Hf. apply Nat.leb_le, Hf. by apply list_elem_of_In.
Qed.

Lemma count_key_removes toks : ∀ l,
  (∀ k, (count_key toks k ≤ count_key l k)%nat) →
  ∀ k, count_key (foldl remove_key l toks) k = (count_key l k - count_key toks k)%nat.
Proof.
  induction toks as [|key toks IH]; intros l Hle k; [symmetry; apply Nat.sub_0_r|]. cbn [foldl].
  pose proof (Hle key) as Hk. rewrite count_key_cons, key_eqb_refl in Hk. simpl in Hk.
  assert (existsb (key_eqb key) l = true) as He.
  { apply existsb_exists. exists key. split; [|apply key_eqb_refl]. apply list_elem_of_In.
    destruct (decide (key ∈ l)) as [|Hn]; [done|]. rewrite (count_key_0 _ _ Hn) in Hk. lia. }
  assert (∀ k, count_key (key :: toks) k = more key (count_key toks) k) as Hc by (intros; apply count_key_more).
  rewrite IH; [rewrite count_key_remove by done|intros k'; rewrite count_key_remove by done; specialize (Hle k')];
    rewrite Hc in *; unfold more, fewer in *; destruct (key_eqb key _); lia.
Qed.

Lemma install_transfers_accounted own toks coe room :
  forallb (λ key, count_key toks key <=? count_key (in_flight s) key)%nat toks = true →
  let c := InstallTransfers own toks coe room in accounted c s (section (F := F) c s).
Proof.
  intros Ht c. simpl. pose proof (tokens_in_flight _ _ Ht) as Hle.
  pose proof (install_transfers_wf (F := F) _ _ own toks coe room (inv_wf s Hi) Hle) as Hb.
  pose proof (install_transfers_respects (F := F) _ _ (inv_wf s Hi) own toks coe room) as Hr.
  destruct (install_transfers _ _ _ _ _) as [[fds|e] r']; [|by apply accounted_quiet].
  split_and!; [exists [], []; rewrite !app_nil_r; split; [|done]|done|auto].
  eapply balanced_ext; [|done]. intros k. split_and!; try done. simpl. by rewrite count_key_removes.
Qed.

Lemma close_matching_accounted own coe : let c := CloseMatching own coe in accounted c s (section (F := F) c s).
Proof.
  simpl. pose proof (close_matching_wf _ _ own coe (inv_wf s Hi)) as Hb.
  pose proof (close_matching_respects own coe (registry s)) as Hr.
  destruct (close_matching_locked _ _ _) as [[[n p] k] r']. destruct Hb as [Hb _]. by apply accounted_final.
Qed.

(** Every permitted section is accounted for. *)
Lemma section_accounted c : permitted c s = true → accounted c s (section (F := F) c s).
Proof.
  destruct c; simpl; intros Hp;
    try (apply andb_true_iff in Hp as [Hp1 Hp2]; try apply Z.leb_le in Hp1; try apply Z.leb_le in Hp2; try apply Z.ltb_lt in Hp2).
  - by apply install_accounted.
  - by apply install_pair_accounted.
  - apply acquire_accounted.
  - by apply acquire_key_accounted.
  - by apply release_accounted.
  - by apply retain_accounted.
  - by apply drop_accounted.
  - apply close_accounted.
  - apply accounted_quiet; [apply duplicate_wf|eapply duplicate_respects]; apply Hi.
  - by apply duplicate_to_accounted.
  - apply capture_accounted.
  - by apply install_transfers_accounted.
  - by apply release_transfer_accounted.
  - apply accounted_quiet; [apply descriptor_flags_wf|eapply descriptor_flags_respects]; apply Hi.
  - apply accounted_quiet; [apply set_descriptor_flags_wf|eapply set_descriptor_flags_respects]; apply Hi.
  - apply accounted_quiet; [apply set_status_flags_wf|eapply set_status_flags_respects]; apply Hi.
  - apply close_matching_accounted.
Qed.
End Accounted.

Lemma inv_section {F} c s : inv s → permitted c s = true → inv (section (F := F) c s).
Proof.
  intros Hi Hp. destruct (section_accounted (F := F) s Hi c Hp) as ((inst & fin & Hb & Hin & Hfin) & Hr & Hl).
  by eapply inv_next.
Qed.

(** ** Theorems *)

Lemma countb_replicate {A} (p : A → bool) n x : p x = false → countb p (replicate n x) = O.
Proof. intros Hx. induction n as [|n IH]; [done|]. simpl. by rewrite Hx. Qed.

Lemma named_by_boot i : named_by EMPTY_REGISTRY i = O.
Proof.
  unfold named_by, EMPTY_REGISTRY. cbn [spaces]. generalize MAXIMUM_DESCRIPTOR_SPACES. intros n.
  induction n as [|n IH]; [done|]. cbn [replicate sum_list_with]. rewrite IH. unfold EMPTY_SPACE, NO_DESCRIPTORS. cbn [descriptors].
  rewrite countb_replicate; [done|]. unfold points. apply Z.eqb_neq. cbn [object EMPTY_DESCRIPTOR]. lia.
Qed.

Lemma inv_boot : inv BOOT.
Proof.
  split.
  - split.
    + split; cbn [registry BOOT EMPTY_REGISTRY spaces].
      * apply length_replicate.
      * intros k s [-> _]%lookup_replicate. apply length_replicate.
      * by intros k s [-> _]%lookup_replicate.
      * by intros j k s s' [-> _]%lookup_replicate.
      * intros k s fd d [-> _]%lookup_replicate [-> _]%lookup_replicate. apply empty_descriptor_range.
    + apply length_replicate.
    + intros i o [-> _]%lookup_replicate. unfold object_ok. simpl. split; [apply named_by_boot|].
      exists 0. split; [unfold U32_MAX; lia|done].
    + intros k. simpl. unfold count_key. simpl. lia.
  - intros f. unfold stock, BOOT, EMPTY_REGISTRY. cbn [registry objects]. by rewrite countb_replicate.
  - by intros l ?%elem_of_nil.
Qed.

Lemma inv_do {F} s c : inv s → inv (do_call (F := F) s c).
Proof. intros Hi. unfold do_call. destruct (permitted c s) eqn:Hp; [|done]. by apply inv_section. Qed.

Lemma inv_run {F} calls : inv (run (F := F) calls).
Proof.
  unfold run. generalize inv_boot. generalize BOOT. induction calls as [|c calls IH]; intros s Hi; [done|].
  cbn [foldl]. by apply IH, inv_do.
Qed.

(** C18. In every reachable state the three counters of an open object are
    exact: [descriptor_references] counts the descriptors of all processes that
    name it and the transfers in flight, [references] those and the epoll
    watches, [active_operations] the leases. The object is closing exactly when
    the first is zero, the counters fit their [u16], and something holds it: no
    object outlives its last holder. *)
Theorem fd_counts_exact {F} calls i o :
  let s := run (F := F) calls in
  objects (registry s) !! i = Some o → kind_occupied (kind o) = true →
  let key := key_of i o in
  let named := (named_by (registry s) i + count_key (in_flight s) key)%nat in
  let watches := count_key (watched s) key in
  let operations := count_key (l_key <$> active s) key in
  descriptor_references o = Z.of_nat named ∧ references o = Z.of_nat (named + watches) ∧
  active_operations o = Z.of_nat operations ∧ closing o = (named =? 0)%nat ∧
  references o ≤ U16_MAX ∧ active_operations o ≤ U16_MAX ∧ (0 < named + watches + operations)%nat.
Proof.
  intros s Hi Ho key named watches operations. pose proof (inv_run (F := F) calls) as [Hw _ _].
  destruct (live_object _ _ i o Hw Hi Ho) as [Hd Hr Ha Hc Hh _ [Hb1 Hb2]]. split_and!; try done.
  rewrite Hc, Hd. destruct (Nat.eqb_spec named 0) as [Hz|Hz]; [apply Z.eqb_eq|apply Z.eqb_neq]; unfold named, key, s in *; simpl in *; lia.
Qed.

(** C19. Finalization happens exactly once: of every owner and kind, the
    objects ever installed are the open ones and those handed out for
    finalization. Nothing is finalized twice and nothing vanishes. *)
Theorem fd_finalized_once {F} calls f :
  let s := run (F := F) calls in
  tally f (installed s) = (stock (registry s) f + tally f (finalized s))%nat.
Proof. intros s. symmetry. apply (inv_run (F := F) calls). Qed.

(** C20. Whatever runs meanwhile, an operation works on the object it leased:
    until it gives the lease back, the object at the lease's key is open under
    the same generation, owner and kind, so its backend has not been finalized
    or given to someone else. *)
Theorem fd_lease_protected {F} calls l :
  let s := run (F := F) calls in
  l ∈ active s →
  ∃ i o, key_index (l_key l) = Some i ∧ objects (registry s) !! i = Some o ∧
    generation o = k_generation (l_key l) ∧ owner o = l_owner l ∧ kind o = l_kind l ∧
    kind_occupied (kind o) = true ∧ 1 ≤ active_operations o.
Proof.
  intros s Hl. pose proof (inv_run (F := F) calls) as [Hw _ Hls]. fold s in Hw, Hls.
  destruct (Hls l Hl) as (i & o & Hi & Ho & Hk & [= Hown Hkind]).
  assert (0 < count_key (l_key <$> active s) (l_key l))%nat as Hpos by (apply count_key_elem, list_elem_of_fmap; eauto).
  destruct (held_object _ _ (l_key l) Hw) as (i' & o' & Hi' & Ho' & Hk' & Hki & _ & Hg); [unfold held; simpl; lia|].
  assert (i' = i) as -> by (eapply live_key_inj; [exact Hw|exact Hw|done..|congruence]).
  assert (o' = o) as -> by congruence. exists i, o. split_and!; try done.
  destruct (live_object _ _ i o Hw Hi Ho) as [_ _ Ha _ _ _ _]. simpl in Ha. rewrite <- Hk in Ha. lia.
Qed.

(** ** Instances *)

Definition ALICE : ProcessHandle := mkHandle 3 1.
Definition BOB : ProcessHandle := mkHandle 4 1.

(** Alice makes an event descriptor, marks it close-on-exec and duplicates it;
    Bob makes a timer. *)
Definition SESSION : list Call :=
  [Install ALICE ALICE (EventFd 7) O_RDWR true; Duplicate ALICE 3 0 false; Install BOB BOB (TimerFd 9) O_RDWR false].

Abbreviation PLAYED := (run (F := unit) SESSION).
Abbreviation OVERTAKEN := (run (F := unit) (SESSION ++ [Acquire ALICE 3; Close ALICE 3; Close ALICE 4])).

Lemma fd_counts_exact_witness :
  ∃ o, objects (registry PLAYED) !! 3%nat = Some o ∧
    descriptor_references o = Z.of_nat (named_by (registry PLAYED) 3 + count_key (in_flight PLAYED) (key_of 3 o)).
Proof.
  set (o := mkObject 1 ALICE 2 2 0 false O_RDWR (EventFd 7)).
  assert (objects (registry PLAYED) !! 3%nat = Some o) as Ho by (vm_compute; reflexivity).
  exists o. split; [exact Ho|]. apply (fd_counts_exact (F := unit) SESSION 3 o Ho eq_refl).
Defined.

(** The lease outlives both descriptors of the object. *)
Lemma fd_lease_protected_witness :
  ∃ i o, objects (registry OVERTAKEN) !! i = Some o ∧ kind o = EventFd 7 ∧ 1 ≤ active_operations o.
Proof.
  set (l := mkLease (mkKey 3 1) ALICE (EventFd 7) O_RDWR).
  assert (active OVERTAKEN = [l]) as E by (vm_compute; reflexivity).
  assert (l ∈ active OVERTAKEN) as Hl by (rewrite E; left).
  destruct (fd_lease_protected (F := unit) _ l Hl) as (i & o & _ & Ho & _ & _ & Hk & _ & Ha).
  exists i, o. split_and!; [exact Ho|exact Hk|exact Ha].
Defined.
