(* ===== verification/FdNames.v ===== *)
(** * What descriptors name

    [resolve] is the object a process reaches through a descriptor. The
    theorems say how the sections of FdTable change it, in every state the
    system of FdTrace reaches: a process's descriptors change by its own calls
    only, [dup] and [dup2] make one more name of the same object, and exec
    closes the descriptors marked for it and no others. *)

From stdpp Require Import prelude list numbers option.
From Stdlib Require Import ZArith Lia.
From S2P Require Import Prelude.
From S2P Require Import Handles.
From S2P Require Import ObjectKey.
From S2P Require Import OpenFlags.
From S2P Require Import FdTable.
From S2P Require Import FdRefs.
From S2P Require Import FdTrace.

(** The key, owner and kind of the object a slot names. *)
Definition name (r : DescriptorRegistry) (d : DescriptorSlot) : option (ObjectKey * FinalObject) :=
  if slot_used d then
    let o := object_at r (target_index d) in Some (key_of (target_index d) o, final_of o)
  else None.

Definition resolve (r : DescriptorRegistry) (own : ProcessHandle) (fd : Z) : option (ObjectKey * FinalObject) :=
  space ← find_space (spaces r) own;
  d ← descriptors_of r space !! Z.to_nat fd;
  name r d.

Lemma find_space_of h r own space : wf h r → space_of r own space → find_space (spaces r) own = Some space.
Proof.
  intros Hw (s & Hs & Hu & Ho). destruct (find_space (spaces r) own) as [k|] eqn:Hf.
  - destruct (find_space_Some r own k Hf) as (s' & Hs' & Hu' & Ho'). f_equal.
    apply (sw_owners _ (wf_spaces _ _ Hw) k space s' s); [done..|congruence].
  - by destruct (find_space_None r own Hf space s Hs Hu).
Qed.

Lemma ensure_found {F} r own space :
  find_space (spaces r) own = Some space → ensure_space (F := F) own r = (Ok space, r).
Proof.
  intros Hf. unfold ensure_space. m_unfold.
  destruct (find_space_Some r own space Hf) as (s & _ & Hu & Ho). unfold space_used in Hu. rewrite Ho in Hu. by rewrite Hu, Hf.
Qed.

Lemma resolve_space r own space fd :
  find_space (spaces r) own = Some space → resolve r own fd = descriptors_of r space !! Z.to_nat fd ≫= name r.
Proof. intros Hf. unfold resolve. by rewrite Hf. Qed.

(** A descriptor that is there before and after names the same object. *)
Lemma name_kept own h h' r r' space fd space' fd' d :
  wf h r → wf h' r' → respects own r r' → descriptor_at r space fd d → descriptor_at r' space' fd' d → name r' d = name r d.
Proof.
  intros Hw Hw' Hr Hd Hd'. unfold name. destruct (slot_used d) eqn:Hu; [|done].
  destruct (used_descriptor h r space fd d Hw Hd Hu) as (o & Hi & Ho & _).
  destruct (used_descriptor h' r' space' fd' d Hw' Hd' Hu) as (o' & Hi' & Ho' & _).
  rewrite (lookup_object_at r _ o Hi), (lookup_object_at r' _ o' Hi').
  destruct (respects_object own r r' _ o o' Hr Hi Ho Hi') as [Hg [Hf|Hf]]; [|congruence]. unfold key_of. by rewrite Hg, Hf.
Qed.

Lemma descriptor_at_of r own space fd d :
  find_space (spaces r) own = Some space → descriptors_of r space !! fd = Some d → descriptor_at r space fd d.
Proof.
  intros (s & Hs & Hu & _)%find_space_Some Hd. exists s. unfold descriptors_of in Hd. by rewrite (slot_at_Some _ _ _ _ Hs) in Hd.
Qed.

(** C21. A process's descriptors change by its own calls only: a section run
    on behalf of another process, whatever it closes, duplicates, installs,
    transfers or finalizes, leaves every descriptor number of the process with
    the object it had. *)
Theorem fd_isolation {F} calls c own space :
  let s := run (F := F) calls in
  own ≠ caller c → find_space (spaces (registry s)) own = Some space →
  ∀ fd, resolve (registry (do_call (F := F) s c)) own fd = resolve (registry s) own fd.
Proof.
  intros s Hne Hf fd. pose proof (inv_run (F := F) calls) as Hi. fold s in Hi. unfold do_call.
  destruct (permitted c s) eqn:Hp; [|done]. set (s' := section c s).
  pose proof (inv_wf _ (inv_section (F := F) c s Hi Hp)) as Hw'. fold s' in Hw'.
  destruct (section_accounted (F := F) s Hi c Hp) as (_ & Hr & _). fold s' in Hr.
  destruct (find_space_Some _ own space Hf) as (sp & Hs & Hu & Ho).
  pose proof (respects_space _ _ _ space sp Hr Hs Hu) as Hs'. rewrite Ho in Hs'. specialize (Hs' Hne).
  assert (find_space (spaces (registry s')) own = Some space) as Hf' by (eapply find_space_of; [done|by exists sp]).
  rewrite (resolve_space _ own space), (resolve_space _ own space) by done.
  assert (descriptors_of (registry s') space = descriptors_of (registry s) space) as Hds.
  { unfold descriptors_of. by rewrite (slot_at_Some _ _ _ _ Hs), (slot_at_Some _ _ _ _ Hs'). }
  rewrite Hds. destruct (descriptors_of _ _ !! _) as [d|] eqn:Hd; [|done]. simpl.
  eapply (name_kept (caller c)); [apply Hi|done|done|by eapply descriptor_at_of|].
  eapply descriptor_at_of; [done|]. by rewrite Hds.
Qed.

(** ** Duplication *)

(** The slots of the process's space after a section that fills one of them. *)
Definition fills (r r' : DescriptorRegistry) (space fd : nat) (slot : DescriptorSlot) : Prop :=
  descriptors_of r' space = <[fd := slot]> (descriptors_of r space).

(** The descriptor filled names the object of [d], the others what they did. *)
Lemma fills_names own h r r' space old fd d f :
  wf h r → wf h r' → respects own r r' →
  find_space (spaces r) own = Some space → find_space (spaces r') own = Some space →
  (fd < MAXIMUM_FILE_DESCRIPTORS)%nat →
  descriptors_of r space !! old = Some d → slot_used d = true → old ≠ fd →
  fills r r' space fd (new_descriptor (target_index d) f) →
  resolve r' own (Z.of_nat fd) = resolve r own (Z.of_nat old) ∧ resolve r own (Z.of_nat old) ≠ None ∧
  ∀ k, 0 ≤ k → k ≠ Z.of_nat fd → resolve r' own k = resolve r own k.
Proof.
  intros Hw Hw' Hr Hf Hf' Hfd Hd Hu Hne Hfill.
  assert (∀ k x, k ≠ fd → descriptors_of r space !! k = Some x → name r' x = name r x) as Hkeep.
  { intros k x Hk Hx. eapply (name_kept own h h r r'); [done..|by eapply descriptor_at_of|].
    eapply descriptor_at_of; [done|]. rewrite Hfill, list_lookup_insert_ne by done. done. }
  rewrite !(resolve_space r own space), !(resolve_space r' own space) by done. rewrite !Nat2Z.id, Hfill, Hd.
  destruct (used_descriptor h r space old d Hw) as (o & Hi & _); [by eapply descriptor_at_of|done|].
  pose proof (object_index_lt h r _ o Hw Hi) as Hlt.
  rewrite list_lookup_insert_eq.
  2: { apply find_space_Some in Hf as (s & Hs & _). unfold descriptors_of. rewrite (slot_at_Some _ _ _ _ Hs).
       by rewrite (sw_descriptors _ (wf_spaces _ _ Hw) _ _ Hs). }
  simpl. split_and!.
  - rewrite <- (Hkeep old d) by done. unfold name. destruct (target_new (target_index d) f Hlt) as [Ht Hun]. by rewrite Hu, Hun, Ht.
  - unfold name. by rewrite Hu.
  - intros k Hk0 Hk. rewrite (resolve_space r own space), (resolve_space r' own space), Hfill by done.
    rewrite list_lookup_insert_ne by lia. destruct (descriptors_of r space !! Z.to_nat k) as [x|] eqn:Hx; [|done]. apply (Hkeep (Z.to_nat k)); [lia|done].
Qed.

Lemma fills_set r own space fd slot r0 :
  find_space (spaces r) own = Some space → spaces r0 = spaces r →
  fills r (set_descriptor space fd slot r0) space fd slot ∧ space_of (set_descriptor space fd slot r0) own space.
Proof.
  intros Hf Heq. apply find_space_Some in Hf as (s & Hs & Hu & Ho). split.
  - unfold fills, descriptors_of, set_descriptor, on_space. simpl. rewrite Heq.
    unfold slot_at. rewrite list_lookup_alter_eq, Hs. done.
  - apply space_of_set. unfold space_of. rewrite Heq. by exists s.
Qed.

Lemma lookup_found {F} r space fd :
  match descriptors_of r space !! Z.to_nat fd with
  | Some d => lookup_descriptor (F := F) space fd r = (if slot_used d then Ok d else Err BadFileDescriptor, r)
  | None => lookup_descriptor (F := F) space fd r = (Err BadFileDescriptor, r)
  end.
Proof. unfold lookup_descriptor. m_unfold. destruct (_ !! _) as [d|]; [|done]. by destruct (slot_used d). Qed.

Lemma unresolved r own space fd d :
  find_space (spaces r) own = Some space → descriptors_of r space !! Z.to_nat fd = Some d →
  (resolve r own fd = None ↔ slot_used d = false).
Proof. intros Hf Hd. rewrite (resolve_space r own space), Hd by done. simpl. unfold name. by destruct (slot_used d). Qed.

Section Duplicate.
Context {F : Type} (h : Holders) (r : DescriptorRegistry) (own : ProcessHandle) (space : nat).
Hypothesis Hw : wf h r.
Hypothesis Hf : find_space (spaces r) own = Some space.

Lemma duplicate_run old minimum coe :
  match duplicate (F := F) own old minimum coe r with
  | (Err e, r') => r' = r ∧
      (e = InvalidArgument ∧ (MAXIMUM_FILE_DESCRIPTORS ≤ Z.to_nat minimum)%nat ∨
       e = BadFileDescriptor ∧ resolve r own old = None ∨ e = Capacity)
  | (Ok fd, r') => ∃ d n x, fd = Z.of_nat (Z.to_nat minimum + n) ∧ descriptors_of r space !! Z.to_nat old = Some d ∧
      slot_used d = true ∧ position (λ d, negb (slot_used d)) (drop (Z.to_nat minimum) (descriptors_of r space)) = Some n ∧
      descriptors_of r space !! (Z.to_nat minimum + n)%nat = Some x ∧ slot_used x = false ∧
      fills r r' space (Z.to_nat minimum + n) (new_descriptor (target_index d) (z_of_bool coe)) ∧ space_of r' own space
  end.
Proof.
  unfold duplicate. m_unfold. destruct (Nat.leb_spec MAXIMUM_FILE_DESCRIPTORS (Z.to_nat minimum)); cbn [negb]; [auto|].
  rewrite (ensure_found r own space Hf). pose proof (lookup_found (F := F) r space old) as Hl.
  destruct (descriptors_of r space !! Z.to_nat old) as [d|] eqn:Hd.
  2: { rewrite Hl. split; [done|]. right. left. split; [done|]. by rewrite (resolve_space r own space), Hd. }
  rewrite Hl. destruct (slot_used d) eqn:Hu.
  2: { split; [done|]. right. left. split; [done|]. by eapply unresolved. }
  destruct (used_descriptor h r space _ d Hw (descriptor_at_of _ _ _ _ _ Hf Hd) Hu) as (o & Hi & Hk & Hcl & _).
  destruct (position _ _) as [n|] eqn:Hp; cbv [fmap option_fmap option_map]; [|auto].
  rewrite (lookup_object_at r _ o Hi), Hk, Hcl, Z.eqb_refl. cbn [negb orb].
  destruct (reference_run (F := F) r _ o Hi) as [->|[-> _]]; [auto|].
  pose proof Hp as (x & Hx & Hux%negb_true_iff)%position_lookup. rewrite lookup_drop in Hx.
  exists d, n, x. split_and!; try done; by eapply fills_set.
Qed.

Lemma duplicate_to_run old new coe :
  0 ≤ new < Z.of_nat MAXIMUM_FILE_DESCRIPTORS →
  match duplicate_to_locked (F := F) own old new coe r with
  | (Err e, r') => r' = r ∧ (e = BadFileDescriptor ∧ resolve r own old = None ∨ e = Capacity)
  | (Ok _, r') => ∃ d, descriptors_of r space !! Z.to_nat old = Some d ∧ slot_used d = true ∧
      fills r r' space (Z.to_nat new) (new_descriptor (target_index d) (z_of_bool coe)) ∧ space_of r' own space
  end.
Proof.
  intros Hn. unfold duplicate_to_locked. m_unfold. rewrite (ensure_found r own space Hf).
  pose proof (lookup_found (F := F) r space old) as Hl. destruct (descriptors_of r space !! Z.to_nat old) as [d|] eqn:Hd.
  2: { rewrite Hl. split; [done|]. left. split; [done|]. by rewrite (resolve_space r own space), Hd. }
  rewrite Hl. destruct (slot_used d) eqn:Hu.
  2: { split; [done|]. left. split; [done|]. by eapply unresolved. }
  destruct (used_descriptor h r space _ d Hw (descriptor_at_of _ _ _ _ _ Hf Hd) Hu) as (o & Hi & Hk & Hcl & _).
  rewrite (lookup_object_at r _ o Hi), Hk, Hcl. cbn [negb orb].
  pose proof (descriptor_of_space r own space (Z.to_nat new) (wf_spaces _ _ Hw) (find_space_Some _ _ _ Hf) ltac:(lia)) as Hex.
  set (ex := slot_at EMPTY_DESCRIPTOR _ _) in *. destruct (slot_used ex) eqn:Hue.
  - destruct (used_descriptor h r space _ _ Hw Hex Hue) as (eo & Hei & Hek & _ & Hedr & Herf).
    destruct (negb _); [|exists d; split_and!; try done; by eapply fills_set].
    rewrite (lookup_object_at r _ eo Hei).
    destruct (Z.eqb_spec (references eo) 0); [lia|]. destruct (Z.eqb_spec (descriptor_references eo) 0); [lia|]. cbn [negb orb].
    destruct (reference_run (F := F) r _ o Hi) as [->|[-> _]]; [auto|]. destruct (unreference _) as [o1 last].
    set (r1 := set_object _ _ r). pose proof (settle_spaces (target_index ex) o1 r1) as Hss.
    destruct (settle _ _ _) as [p r2]. cbn [snd] in Hss. exists d. split_and!; try done; by eapply fills_set.
  - destruct (reference_run (F := F) r _ o Hi) as [->|[-> _]]; [auto|]. exists d. split_and!; try done; by eapply fills_set.
Qed.
End Duplicate.

(** [dup] in every reachable state: on success the new descriptor is the
    lowest free one from [minimum] up, it names the object of the old one, and
    every other descriptor names what it did; on failure nothing changes, and
    the error says why. *)
Theorem fd_duplicate {F} calls own space old minimum coe :
  let r := registry (run (F := F) calls) in
  find_space (spaces r) own = Some space → 0 ≤ old → 0 ≤ minimum →
  match duplicate (F := F) own old minimum coe r with
  | (Ok fd, r') =>
      minimum ≤ fd ∧ resolve r own fd = None ∧ (∀ k, minimum ≤ k < fd → resolve r own k ≠ None) ∧
      resolve r own old ≠ None ∧ resolve r' own fd = resolve r own old ∧
      ∀ k, 0 ≤ k → k ≠ fd → resolve r' own k = resolve r own k
  | (Err e, r') => r' = r ∧
      (e = InvalidArgument ∧ Z.of_nat MAXIMUM_FILE_DESCRIPTORS ≤ minimum ∨
       e = BadFileDescriptor ∧ resolve r own old = None ∨ e = Capacity)
  end.
Proof.
  intros r Hf Ho Hm. pose proof (inv_wf _ (inv_run (F := F) calls)) as Hw. fold r in Hw.
  pose proof (duplicate_run (F := F) _ r own space Hw Hf old minimum coe) as Hrun.
  pose proof (duplicate_respects (F := F) _ r Hw own old minimum coe) as Hr.
  pose proof (duplicate_wf (F := F) _ r Hw own old minimum coe) as [Hw' _].
  destruct (duplicate own old minimum coe r) as [[fd|e] r']; cbn [snd] in *.
  2: { destruct Hrun as [-> [[-> Hx]|Hx]]; split; try done; [left; split; [done|lia]|auto]. }
  destruct Hrun as (d & n & x & -> & Hd & Hu & Hp & Hx & Hux & Hfill & Hsp).
  destruct (fills_names own (holders (run (F := F) calls)) r r' space (Z.to_nat old) (Z.to_nat minimum + n) d (z_of_bool coe)) as (H1 & H2 & H3); try done.
  - by eapply find_space_of.
  - apply lookup_lt_Some in Hx. pose proof (find_space_Some _ _ _ Hf) as (s & Hs & _). unfold descriptors_of in Hx.
    by rewrite (slot_at_Some _ _ _ _ Hs), (sw_descriptors _ (wf_spaces _ _ Hw) _ _ Hs) in Hx.
  - intros Heq. rewrite Heq in Hd. congruence.
  - rewrite Z2Nat.id in H1, H2 by done. split_and!; try done; [lia| |].
    + eapply unresolved; [done| |exact Hux]. by rewrite Nat2Z.id.
    + intros k Hk. apply position_Some in Hp as (_ & _ & _ & Hlow).
      destruct (lookup_lt_is_Some_2 (descriptors_of r space) (Z.to_nat k)) as [y Hy].
      { apply lookup_lt_Some in Hx. lia. }
      rewrite (unresolved r own space k y Hf Hy).
      specialize (Hlow (Z.to_nat k - Z.to_nat minimum)%nat y ltac:(lia)). rewrite lookup_drop in Hlow.
      replace (Z.to_nat minimum + (Z.to_nat k - Z.to_nat minimum))%nat with (Z.to_nat k) in Hlow by lia.
      specialize (Hlow Hy). apply negb_false_iff in Hlow. by rewrite Hlow.
Qed.

(** [dup2] of distinct descriptors in every reachable state: the new
    descriptor names the object of the old one whatever it named before, every
    other descriptor names what it did, and a failure changes nothing. *)
Theorem fd_duplicate_to {F} calls own space old new coe :
  let r := registry (run (F := F) calls) in
  find_space (spaces r) own = Some space → 0 ≤ old → 0 ≤ new < Z.of_nat MAXIMUM_FILE_DESCRIPTORS → old ≠ new →
  match duplicate_to_locked (F := F) own old new coe r with
  | (Ok _, r') =>
      resolve r own old ≠ None ∧ resolve r' own new = resolve r own old ∧
      ∀ k, 0 ≤ k → k ≠ new → resolve r' own k = resolve r own k
  | (Err e, r') => r' = r ∧ (e = BadFileDescriptor ∧ resolve r own old = None ∨ e = Capacity)
  end.
Proof.
  intros r Hf Ho Hn Hne. pose proof (inv_wf _ (inv_run (F := F) calls)) as Hw. fold r in Hw.
  pose proof (duplicate_to_run (F := F) _ r own space Hw Hf old new coe Hn) as Hrun.
  pose proof (duplicate_to_respects (F := F) _ r Hw own old new coe) as Hr.
  pose proof (duplicate_to_wf (F := F) _ r Hw own old new coe Hn) as Hb.
  destruct (duplicate_to_locked own old new coe r) as [[[p key]|e] r']; [|done]. cbn [snd] in *.
  destruct Hb as [Hw' _]. destruct Hrun as (d & Hd & Hu & Hfill & Hsp).
  destruct (fills_names own (holders (run (F := F) calls)) r r' space (Z.to_nat old) (Z.to_nat new) d (z_of_bool coe)) as (H1 & H2 & H3); try done;
    [by eapply find_space_of|lia|lia|].
  rewrite !Z2Nat.id in * by lia. done.
Qed.

(** ** Exec and exit *)

(** The descriptor is there and marked close-on-exec. *)
Definition marked (r : DescriptorRegistry) (own : ProcessHandle) (fd : Z) : bool :=
  match find_space (spaces r) own with
  | Some space =>
      match descriptors_of r space !! Z.to_nat fd with
      | Some d => slot_used d && negb (Z.land (flags d) FD_CLOEXEC =? 0)
      | None => false
      end
  | None => false
  end.

(** Exec closes exactly the descriptors marked close-on-exec and leaves
    every other one its object; exit gives the whole space back. Both hand out
    for finalization only what nothing else holds, which the count of
    C91 carries. *)
Theorem fd_close_matching {F} calls own space :
  let r := registry (run (F := F) calls) in
  find_space (spaces r) own = Some space →
  (∀ fd, resolve (close_matching_locked own true r).2 own fd = if marked r own fd then None else resolve r own fd) ∧
  find_space (spaces (close_matching_locked own false r).2) own = None.
Proof.
  intros r Hf. pose proof (inv_wf _ (inv_run (F := F) calls)) as Hw. fold r in Hw. split.
  - intros fd. pose proof (close_matching_wf _ r own true Hw) as Hc. pose proof (close_matching_respects own true r) as Hr.
    destruct (close_matching_locked own true r) as [[[closed pending] det] r']. rewrite Hf in Hc. cbn [snd] in *.
    destruct Hc as ([Hw' _] & s & Hs & Ho & _ & Hsp). pose proof (lookup_lt_Some _ _ _ Hs) as Hlt.
    assert (spaces r' !! space = Some (mkSpace own (swept true <$> descriptors s))) as Hs' by (rewrite Hsp; by apply list_lookup_insert_eq).
    assert (find_space (spaces r') own = Some space) as Hf'.
    { eapply find_space_of; [done|]. eexists. split; [exact Hs'|]. split; [|done].
      apply find_space_Some in Hf as (s2 & Hs2 & Hu & <-). done. }
    unfold marked. rewrite Hf, (resolve_space r own space), (resolve_space r' own space) by done.
    assert (descriptors_of r' space = swept true <$> descriptors_of r space) as Hds.
    { unfold descriptors_of. by rewrite (slot_at_Some _ _ _ _ Hs), (slot_at_Some _ _ _ _ Hs'). }
    rewrite Hds, list_lookup_fmap. destruct (descriptors_of r space !! Z.to_nat fd) as [d|] eqn:Hd; [|done]. simpl.
    unfold swept, closes. simpl. destruct (slot_used d && negb _) eqn:Hc; [done|].
    eapply (name_kept own); [done..|by eapply descriptor_at_of|]. eapply (descriptor_at_of r' own space (Z.to_nat fd)); [done|].
    rewrite Hds, list_lookup_fmap, Hd. simpl. unfold swept, closes. simpl. by rewrite Hc.
  - pose proof (close_matching_wf _ r own false Hw) as Hc.
    destruct (close_matching_locked own false r) as [[[closed pending] det] r']. rewrite Hf in Hc. cbn [snd] in *.
    destruct Hc as ([Hw' _] & s & Hs & Ho & _ & Hsp). pose proof (lookup_lt_Some _ _ _ Hs) as Hlt.
    destruct (find_space (spaces r') own) as [k|] eqn:Hf'; [|done]. apply find_space_Some in Hf' as (s' & Hs' & Hu & Ho').
    rewrite Hsp in Hs'. apply list_lookup_insert_Some in Hs' as [(_ & <- & _)|[Hne Hs']]; [done|].
    destruct Hne. symmetry. eapply (sw_owners _ (wf_spaces _ _ Hw)); [exact Hs'|exact Hs|done|congruence].
Qed.

(** ** Instances *)

Abbreviation TABLE := (registry PLAYED).

Lemma session_space : find_space (spaces TABLE) ALICE = Some 0%nat.
Proof. vm_compute. reflexivity. Qed.

Lemma fd_isolation_witness :
  resolve (registry (do_call (F := unit) PLAYED (CloseMatching BOB false))) ALICE 3 = resolve TABLE ALICE 3.
Proof. apply (fd_isolation (F := unit) SESSION (CloseMatching BOB false) ALICE 0); [discriminate|exact session_space]. Defined.

Lemma fd_duplicate_witness :
  (duplicate (F := unit) ALICE 4 10 false TABLE).1 = Ok 10 ∧
  resolve (duplicate (F := unit) ALICE 4 10 false TABLE).2 ALICE 10 = resolve TABLE ALICE 4.
Proof.
  assert ((duplicate (F := unit) ALICE 4 10 false TABLE).1 = Ok 10) as E by (vm_compute; reflexivity).
  pose proof (fd_duplicate (F := unit) SESSION ALICE 0 4 10 false session_space ltac:(lia) ltac:(lia)) as H.
  cbv zeta in H.
  destruct (duplicate ALICE 4 10 false TABLE) as [[fd|e] r']; cbn [fst snd] in *; [|discriminate E].
  injection E as ->. split; [reflexivity|]. apply H.
Defined.

Lemma fd_duplicate_to_witness :
  (duplicate_to_locked (F := unit) ALICE 4 1 false TABLE).1 = Ok (Some (mkFinal ALICE ConsoleOutput), Some (mkKey 1 1)) ∧
  resolve (duplicate_to_locked (F := unit) ALICE 4 1 false TABLE).2 ALICE 1 = resolve TABLE ALICE 4.
Proof.
  assert ((duplicate_to_locked (F := unit) ALICE 4 1 false TABLE).1
    = Ok (Some (mkFinal ALICE ConsoleOutput), Some (mkKey 1 1))) as E by (vm_compute; reflexivity).
  pose proof (fd_duplicate_to (F := unit) SESSION ALICE 0 4 1 false session_space ltac:(lia)
    ltac:(unfold MAXIMUM_FILE_DESCRIPTORS; lia) ltac:(lia)) as H.
  cbv zeta in H.
  destruct (duplicate_to_locked ALICE 4 1 false TABLE) as [[out|e] r']; cbn [fst snd] in *; [|discriminate E].
  split; [exact E|]. apply H.
Defined.

Lemma fd_close_matching_witness :
  marked TABLE ALICE 3 = true ∧ resolve (close_matching_locked ALICE true TABLE).2 ALICE 3 = None ∧
  marked TABLE ALICE 4 = false ∧ resolve (close_matching_locked ALICE true TABLE).2 ALICE 4 = resolve TABLE ALICE 4.
Proof.
  assert (marked TABLE ALICE 3 = true) as M3 by (vm_compute; reflexivity).
  assert (marked TABLE ALICE 4 = false) as M4 by (vm_compute; reflexivity).
  destruct (fd_close_matching (F := unit) SESSION ALICE 0 session_space) as [H _].
  cbv zeta in H.
  pose proof (H 3) as H3. rewrite M3 in H3. pose proof (H 4) as H4. rewrite M4 in H4.
  split_and!; [exact M3|exact H3|exact M4|exact H4].
Defined.
