(* ===== verification/Socket.v ===== *)
(** * Unix stream sockets: linux_socket.rs

    Endpoints, listen queues and full-duplex connections, with every operation
    of the file. A connection has a byte ring and a queue of descriptor
    transfers ("rights") in each direction; a rights record carries the stream
    position of the byte it was sent with. Operations that discard transfers
    return them, and the descriptor layer releases them after the lock is
    dropped, as the code does.

    The two-element arrays of the source are pairs, indexed by the side of the
    connection; [room] is the length of an output slice. *)

From stdpp Require Import prelude list numbers option.
From Stdlib Require Import ZArith Lia.
From S2P Require Import Prelude.
From S2P Require Import Handles.
From S2P Require Import ObjectKey.
From S2P Require Import RingQueue.
From S2P Require Import EventFd.
From S2P Require Import UnixAddress.
From S2P Require Import FdTable.

#[local] Arguments Nat.modulo : simpl never.

Definition AF_UNIX : Z := 1.
Definition SOCK_STREAM : Z := 1.
Definition SOCK_DGRAM : Z := 2.
Definition SOCK_NONBLOCK : Z := 0x800.
Definition SOCK_CLOEXEC : Z := 0x80000.
Definition SOCKET_TYPE_MASK : Z := 0xf.
Definition SOCKET_ALLOWED_FLAGS : Z := Z.lor SOCK_NONBLOCK SOCK_CLOEXEC.
Definition SHUT_RD : Z := 0.
Definition SHUT_WR : Z := 1.
Definition SHUT_RDWR : Z := 2.
Definition MSG_PEEK : Z := 0x2.
Definition MSG_DONTWAIT : Z := 0x40.
Definition MSG_NOSIGNAL : Z := 0x4000.
Definition SEND_FLAGS : Z := Z.lor MSG_DONTWAIT MSG_NOSIGNAL.
Definition RECEIVE_FLAGS : Z := Z.lor MSG_PEEK MSG_DONTWAIT.
Definition SOCKET_BUFFER_BYTES : nat := Z.to_nat 4096.
Definition MAXIMUM_LISTEN_BACKLOG : nat := 8.
Definition MAXIMUM_RIGHTS_RECORDS : nat := 8.
Definition MAXIMUM_ENDPOINTS : nat := 64.
Definition MAXIMUM_CONNECTIONS : nat := 32.
Definition ENDPOINT_INDEX_BITS : Z := 8.

Arguments SOCKET_BUFFER_BYTES : simpl never.
Arguments MAXIMUM_LISTEN_BACKLOG : simpl never.
Arguments MAXIMUM_RIGHTS_RECORDS : simpl never.
Arguments MAXIMUM_ENDPOINTS : simpl never.
Arguments MAXIMUM_CONNECTIONS : simpl never.

Inductive SocketError :=
| InvalidArgument
| BadFileDescriptor
| AddressFamilyNotSupported
| AddressInUse
| ConnectionRefused
| AlreadyConnected
| NotConnected
| WouldBlock
| BrokenPipe
| Capacity
| OperationNotSupported.

Record PeerCredentials := mkCredentials {
  c_pid : Z;
  c_uid : Z;
  c_gid : Z;
}.

Inductive EndpointState := Unbound | Bound | Listening | Connected.

#[global] Instance EndpointState_eq_dec : EqDecision EndpointState.
Proof. solve_decision. Defined.

Definition state_eqb (a b : EndpointState) : bool := bool_decide (a = b).

Record EndpointSlot := mkEndpoint {
  occupied : bool;
  ep_generation : Z;
  ep_owner : ProcessHandle;
  state : EndpointState;
  address : UnixAddress;
  connection_index : nat;
  connection_generation : Z;
  side : nat;
  backlog : nat;
  pending_head : nat;
  pending_length : nat;
  pending : list Z;
  ep_readiness : Z;
}.

Definition NO_PENDING : list Z := replicate MAXIMUM_LISTEN_BACKLOG 0.
Arguments NO_PENDING : simpl never.

(** [EMPTY] with a generation. *)
Definition vacant_endpoint (gen : Z) : EndpointSlot :=
  mkEndpoint false gen NO_PROCESS Unbound UNNAMED 255 0 0 0 0 0 NO_PENDING 0.
Definition EMPTY_ENDPOINT : EndpointSlot := vacant_endpoint 0.

Record ByteQueue := mkQueue {
  q_head : nat;
  q_length : nat;
  q_sequence : Z;
  q_bytes : list Z;
}.

Definition ZERO_BUFFER : list Z := replicate SOCKET_BUFFER_BYTES 0.
Arguments ZERO_BUFFER : simpl never.
Definition EMPTY_BYTES : ByteQueue := mkQueue 0 0 0 ZERO_BUFFER.

Definition clear (q : ByteQueue) : ByteQueue :=
  mkQueue 0 0 (wrapping_add U64_MAX (q_sequence q) (Z.of_nat (q_length q))) ZERO_BUFFER.
(** [ByteQueue::reset] *)
Definition reset_queue (q : ByteQueue) : ByteQueue := EMPTY_BYTES.
Definition tail_sequence (q : ByteQueue) : option Z :=
  checked_add U64_MAX (q_sequence q) (Z.of_nat (q_length q)).

Record RightsRecord := mkRecord {
  r_sequence : Z;
  r_count : nat;
  r_tokens : list ObjectKey;
}.

Definition NO_TOKENS : list ObjectKey := replicate MAXIMUM_TRANSFER_DESCRIPTORS EMPTY_KEY.
Definition EMPTY_RECORD : RightsRecord := mkRecord 0 0 NO_TOKENS.

Record RightsQueue := mkRights {
  rq_head : nat;
  rq_length : nat;
  records : list RightsRecord;
}.

Definition NO_RECORDS : list RightsRecord := replicate MAXIMUM_RIGHTS_RECORDS EMPTY_RECORD.
Arguments NO_RECORDS : simpl never.
Definition EMPTY_RIGHTS : RightsQueue := mkRights 0 0 NO_RECORDS.

(** [RightsQueue::push]: the tokens move into the queue. *)
Definition push (sequence : Z) (tokens : list ObjectKey) (q : RightsQueue) : option RightsQueue :=
  if (length tokens =? 0)%nat || (MAXIMUM_TRANSFER_DESCRIPTORS <? length tokens)%nat
     || (MAXIMUM_RIGHTS_RECORDS <=? rq_length q)%nat || existsb key_is_empty tokens
  then None
  else
    let index := ((rq_head q + rq_length q) mod MAXIMUM_RIGHTS_RECORDS)%nat in
    let record := mkRecord sequence (length tokens) (tokens ++ drop (length tokens) NO_TOKENS) in
    Some (mkRights (rq_head q) (S (rq_length q)) (<[index := record]> (records q))).

Definition record_at (q : RightsQueue) (offset : nat) : option RightsRecord :=
  if (rq_length q <=? offset)%nat then None
  else Some (slot_at EMPTY_RECORD (records q) ((rq_head q + offset) mod MAXIMUM_RIGHTS_RECORDS)%nat).

(** [RightsQueue::pop]: the tokens copied to the output, and the queue. *)
Definition pop (room : nat) (q : RightsQueue) : list ObjectKey * RightsQueue :=
  if (rq_length q =? 0)%nat then ([], q)
  else
    let index := rq_head q in
    let record := slot_at EMPTY_RECORD (records q) index in
    let count := (r_count record `min` room)%nat in
    (take count (r_tokens record),
     mkRights ((index + 1) mod MAXIMUM_RIGHTS_RECORDS)%nat (rq_length q - 1)
       (<[index := EMPTY_RECORD]> (records q))).

(** [while self.length != 0]: the length is the number of rounds. *)
Fixpoint drain_loop (rounds room : nat) (q : RightsQueue) : list ObjectKey * RightsQueue :=
  match rounds with
  | O => ([], q)
  | S rounds =>
      let '(out, q) := pop room q in
      let '(rest, q) := drain_loop rounds (room - length out) q in
      (out ++ rest, q)
  end.

Definition drain (room : nat) (q : RightsQueue) : list ObjectKey * RightsQueue :=
  let '(out, q) := drain_loop (rq_length q) room q in
  (out, mkRights 0 (rq_length q) (records q)).

(** [RightsQueue::reset_empty] *)
Definition reset_rights (q : RightsQueue) : RightsQueue :=
  mkRights 0 0 ((λ _, EMPTY_RECORD) <$> records q).

(** The element of a two-element array on a side. *)
Definition at_side {A} (p : A * A) (s : nat) : A := match s with O => p.1 | _ => p.2 end.
Definition set_side {A} (s : nat) (x : A) (p : A * A) : A * A := match s with O => (x, p.2) | _ => (p.1, x) end.

Record ConnectionSlot := mkConnection {
  c_occupied : bool;
  c_generation : Z;
  endpoint_handles : Z * Z;
  owners : ProcessHandle * ProcessHandle;
  addresses : UnixAddress * UnixAddress;
  endpoint_open : bool * bool;
  read_open : bool * bool;
  write_open : bool * bool;
  outgoing : ByteQueue * ByteQueue;
  outgoing_rights : RightsQueue * RightsQueue;
  c_readiness : Z;
}.

Definition EMPTY_CONNECTION : ConnectionSlot :=
  mkConnection false 0 (0, 0) (NO_PROCESS, NO_PROCESS) (UNNAMED, UNNAMED) (false, false) (false, false)
    (false, false) (EMPTY_BYTES, EMPTY_BYTES) (EMPTY_RIGHTS, EMPTY_RIGHTS) 0.

Definition both {A} (f : A → A) (p : A * A) : A * A := (f p.1, f p.2).

(** [ConnectionSlot::initialize] *)
Definition initialize (gen first_handle second_handle : Z) (first_owner second_owner : ProcessHandle)
    (first_address second_address : UnixAddress) (c : ConnectionSlot) : ConnectionSlot :=
  mkConnection true gen (first_handle, second_handle) (first_owner, second_owner) (first_address, second_address)
    (true, true) (true, true) (true, true) (both reset_queue (outgoing c)) (both reset_rights (outgoing_rights c)) 1.

Definition reset_preserving_generation (c : ConnectionSlot) : ConnectionSlot :=
  mkConnection false (c_generation c) (0, 0) (NO_PROCESS, NO_PROCESS) (UNNAMED, UNNAMED) (false, false) (false, false)
    (false, false) (both reset_queue (outgoing c)) (both reset_rights (outgoing_rights c)) 0.

Record SocketRegistry := mkRegistry {
  endpoints : list EndpointSlot;
  connections : list ConnectionSlot;
}.

Definition REGISTRY : SocketRegistry :=
  mkRegistry (replicate MAXIMUM_ENDPOINTS EMPTY_ENDPOINT) (replicate MAXIMUM_CONNECTIONS EMPTY_CONNECTION).

Abbreviation SM := (M SocketRegistry SocketError).

Definition next_endpoint_generation (current : Z) : option Z := next_handle_generation ENDPOINT_INDEX_BITS current.
Definition next_connection_generation (current : Z) : option Z :=
  match checked_add U32_MAX current 1 with
  | Some g => if g =? 0 then None else Some g
  | None => None
  end.
Definition encode_endpoint (index : nat) (gen : Z) : option Z :=
  encode_handle ENDPOINT_INDEX_BITS MAXIMUM_ENDPOINTS index gen.
Definition decode_endpoint (handle : Z) : option (nat * Z) :=
  decode_handle ENDPOINT_INDEX_BITS MAXIMUM_ENDPOINTS handle.

Definition endpoint_at (r : SocketRegistry) (i : nat) : EndpointSlot := slot_at EMPTY_ENDPOINT (endpoints r) i.
Definition connection_at (r : SocketRegistry) (i : nat) : ConnectionSlot := slot_at EMPTY_CONNECTION (connections r) i.
Definition set_endpoint (i : nat) (e : EndpointSlot) (r : SocketRegistry) : SocketRegistry :=
  mkRegistry (<[i := e]> (endpoints r)) (connections r).
Definition set_connection (i : nat) (c : ConnectionSlot) (r : SocketRegistry) : SocketRegistry :=
  mkRegistry (endpoints r) (<[i := c]> (connections r)).

Definition resolved_endpoint (r : SocketRegistry) (own : ProcessHandle) (handle : Z) :
    Result (nat * EndpointSlot) SocketError :=
  match decode_endpoint handle with
  | None => Err BadFileDescriptor
  | Some (index, gen) =>
      let e := endpoint_at r index in
      if negb (occupied e) || negb (ep_generation e =? gen) || negb (handle_eqb (ep_owner e) own)
      then Err BadFileDescriptor
      else Ok (index, e)
  end.

Definition resolved_connection (r : SocketRegistry) (e : EndpointSlot) (handle : Z) :
    Result (nat * nat) SocketError :=
  if negb (state_eqb (state e) Connected) then Err NotConnected
  else
    match connections r !! connection_index e with
    | None => Err BadFileDescriptor
    | Some c =>
        if c_occupied c && (c_generation c =? connection_generation e) && (side e <? 2)%nat
           && (at_side (endpoint_handles c) (side e) =? handle) && handle_eqb (at_side (owners c) (side e)) (ep_owner e)
        then Ok (connection_index e, side e)
        else Err BadFileDescriptor
    end.

Definition endpoint (own : ProcessHandle) (handle : Z) : SM (nat * EndpointSlot) :=
  λ r, (resolved_endpoint r own handle, r).
Definition connection (e : EndpointSlot) (handle : Z) : SM (nat * nat) :=
  λ r, (resolved_connection r e handle, r).

(** [wrapping_add(1)], skipping zero. *)
Definition advance_generation (g : Z) : Z :=
  let g := wrapping_add U64_MAX g 1 in if g =? 0 then 1 else g.

Definition retire_endpoint (e : EndpointSlot) : EndpointSlot := vacant_endpoint (ep_generation e).

(** The discarded tokens and the retired connection. *)
Definition retire_connection (room : nat) (c : ConnectionSlot) : list ObjectKey * ConnectionSlot :=
  let '(first, q1) := drain room (outgoing_rights c).1 in
  let '(second, q2) := drain (room - length first) (outgoing_rights c).2 in
  (first ++ second,
   reset_preserving_generation
     (mkConnection (c_occupied c) (c_generation c) (endpoint_handles c) (owners c) (addresses c) (endpoint_open c)
        (read_open c) (write_open c) (outgoing c) (q1, q2) (c_readiness c))).

Definition initialize_endpoint (index : nat) (own : ProcessHandle) : SM Z :=
  r ← getS;
  gen ← ok_or (next_endpoint_generation (ep_generation (endpoint_at r index))) Capacity;
  handle ← ok_or (encode_endpoint index gen) Capacity;
  modifyS (set_endpoint index (mkEndpoint true gen own Unbound UNNAMED 255 0 0 0 0 0 NO_PENDING 1));;
  mret handle.

(** The endpoint becomes side [sd] of a connection. *)
Definition connected (index : nat) (gen : Z) (sd : nat) (e : EndpointSlot) : EndpointSlot :=
  mkEndpoint (occupied e) (ep_generation e) (ep_owner e) Connected (address e) index gen sd
    (backlog e) (pending_head e) (pending_length e) (pending e) (ep_readiness e).

Definition initialize_connected_endpoint (index : nat) (own : ProcessHandle) (connection_index : nat)
    (connection_generation : Z) (sd : nat) : SM Z :=
  handle ← initialize_endpoint index own;
  modifyS (λ r, set_endpoint index (connected connection_index connection_generation sd (endpoint_at r index)) r);;
  mret handle.

Definition validate_create (domain socket_type protocol : Z) : Result unit SocketError :=
  if negb (domain =? AF_UNIX) then Err AddressFamilyNotSupported
  else if negb (and_not socket_type (Z.lor SOCKET_TYPE_MASK SOCKET_ALLOWED_FLAGS) =? 0) then Err InvalidArgument
  else if negb (Z.land socket_type SOCKET_TYPE_MASK =? SOCK_STREAM) || negb (protocol =? 0)
  then Err OperationNotSupported
  else Ok tt.

Definition create (own : ProcessHandle) (domain socket_type protocol : Z) : SM Z :=
  ensure (valid_owner own) InvalidArgument;;
  of_result (validate_create domain socket_type protocol);;
  r ← getS;
  index ← ok_or (position (λ e, negb (occupied e)) (endpoints r)) Capacity;
  initialize_endpoint index own.

Definition create_pair (own : ProcessHandle) (domain socket_type protocol : Z) : SM (Z * Z) :=
  ensure (valid_owner own) InvalidArgument;;
  of_result (validate_create domain socket_type protocol);;
  r ← getS;
  let free_endpoints := indices (λ e, negb (occupied e)) (endpoints r) in
  first_index ← ok_or (free_endpoints !! 0%nat) Capacity;
  second_index ← ok_or (free_endpoints !! 1%nat) Capacity;
  connection_index ← ok_or (position (λ c, negb (c_occupied c)) (connections r)) Capacity;
  gen ← ok_or (next_connection_generation (c_generation (connection_at r connection_index))) Capacity;
  first ← initialize_connected_endpoint first_index own connection_index gen 0;
  r ← getS;
  match initialize_connected_endpoint second_index own connection_index gen 1 r with
  | (Ok second, r) =>
      putS (set_connection connection_index
        (initialize gen first second own own UNNAMED UNNAMED (connection_at r connection_index)) r);;
      mret (first, second)
  | (Err e, r) => putS (set_endpoint first_index (retire_endpoint (endpoint_at r first_index)) r);; throw e
  end.

Definition bound (a : UnixAddress) (e : EndpointSlot) : EndpointSlot :=
  mkEndpoint (occupied e) (ep_generation e) (ep_owner e) Bound a (connection_index e) (connection_generation e) (side e)
    (backlog e) (pending_head e) (pending_length e) (pending e) (advance_generation (ep_readiness e)).

(** Another endpoint than [index] has the address. *)
Definition address_taken (r : SocketRegistry) (index : nat) (a : UnixAddress) : bool :=
  existsb (λ '(k, e), negb (k =? index)%nat && occupied e && negb (is_unnamed (address e)) && bool_decide (address e = a))
    (zip (seq 0 (length (endpoints r))) (endpoints r)).

Definition bind (own : ProcessHandle) (handle : Z) (a : UnixAddress) : SM unit :=
  ensure (negb (is_unnamed a)) InvalidArgument;;
  '(index, e) ← endpoint own handle;
  ensure (state_eqb (state e) Unbound) InvalidArgument;;
  r ← getS;
  ensure (negb (address_taken r index a)) AddressInUse;;
  modifyS (set_endpoint index (bound a (endpoint_at r index))).

Definition listening (n : nat) (e : EndpointSlot) : EndpointSlot :=
  mkEndpoint (occupied e) (ep_generation e) (ep_owner e) Listening (address e) (connection_index e)
    (connection_generation e) (side e) n (pending_head e) (pending_length e) (pending e)
    (advance_generation (ep_readiness e)).

Definition listen (own : ProcessHandle) (handle : Z) (wanted : nat) : SM unit :=
  '(index, e) ← endpoint own handle;
  ensure (state_eqb (state e) Bound || state_eqb (state e) Listening) InvalidArgument;;
  modifyS (λ r, set_endpoint index
    (listening (1 `max` (wanted `min` MAXIMUM_LISTEN_BACKLOG))%nat (endpoint_at r index)) r).

Definition with_pending (hd n : nat) (l : list Z) (e : EndpointSlot) : EndpointSlot :=
  mkEndpoint (occupied e) (ep_generation e) (ep_owner e) (state e) (address e) (connection_index e)
    (connection_generation e) (side e) (backlog e) hd n l (advance_generation (ep_readiness e)).

(** The server end joins the listener's queue. *)
Definition enqueue_pending (handle : Z) (e : EndpointSlot) : EndpointSlot :=
  let tail := ((pending_head e + pending_length e) mod MAXIMUM_LISTEN_BACKLOG)%nat in
  with_pending (pending_head e) (S (pending_length e)) (<[tail := handle]> (pending e)) e.

Definition advance_endpoint (e : EndpointSlot) : EndpointSlot :=
  with_pending (pending_head e) (pending_length e) (pending e) e.

Definition listens_at (a : UnixAddress) (e : EndpointSlot) : bool :=
  occupied e && state_eqb (state e) Listening && bool_decide (address e = a).

Definition connect (own : ProcessHandle) (handle : Z) (a : UnixAddress) : SM unit :=
  ensure (negb (is_unnamed a)) InvalidArgument;;
  '(client_index, client) ← endpoint own handle;
  match state client with
  | Connected => throw AlreadyConnected
  | Listening => throw InvalidArgument
  | Unbound | Bound =>
      r ← getS;
      listener_index ← ok_or (position (listens_at a) (endpoints r)) ConnectionRefused;
      let listener := endpoint_at r listener_index in
      ensure (negb (backlog listener <=? pending_length listener)%nat) WouldBlock;;
      server_index ← ok_or (position (λ e, negb (occupied e)) (endpoints r)) Capacity;
      connection_index ← ok_or (position (λ c, negb (c_occupied c)) (connections r)) Capacity;
      gen ← ok_or (next_connection_generation (c_generation (connection_at r connection_index))) Capacity;
      server_handle ← initialize_connected_endpoint server_index (ep_owner listener) connection_index gen 1;
      modifyS (λ r, set_endpoint client_index
        (advance_endpoint (connected connection_index gen 0 (endpoint_at r client_index))) r);;
      modifyS (λ r, set_connection connection_index
        (initialize gen handle server_handle own (ep_owner listener) (address client) (address listener)
           (connection_at r connection_index)) r);;
      modifyS (λ r, set_endpoint listener_index (enqueue_pending server_handle (endpoint_at r listener_index)) r)
  end.

Definition dequeue_pending (e : EndpointSlot) : EndpointSlot :=
  with_pending ((pending_head e + 1) mod MAXIMUM_LISTEN_BACKLOG)%nat (pending_length e - 1)
    (<[pending_head e := 0]> (pending e)) e.

Definition accept (own : ProcessHandle) (handle : Z) : SM (Z * UnixAddress) :=
  '(listener_index, listener) ← endpoint own handle;
  ensure (state_eqb (state listener) Listening) InvalidArgument;;
  ensure (negb (pending_length listener =? 0)%nat) WouldBlock;;
  let accepted := slot_at 0 (pending listener) (pending_head listener) in
  '(_, e) ← endpoint own accepted;
  '(connection_index, sd) ← connection e accepted;
  r ← getS;
  let peer := at_side (addresses (connection_at r connection_index)) (1 - sd) in
  modifyS (λ r, set_endpoint listener_index (dequeue_pending (endpoint_at r listener_index)) r);;
  mret (accepted, peer).

(** The connection with new queues on side [s], its readiness advanced. *)
Definition with_channel (s : nat) (q : ByteQueue) (rights : RightsQueue) (c : ConnectionSlot) : ConnectionSlot :=
  mkConnection (c_occupied c) (c_generation c) (endpoint_handles c) (owners c) (addresses c) (endpoint_open c)
    (read_open c) (write_open c) (set_side s q (outgoing c)) (set_side s rights (outgoing_rights c)) (c_readiness c).
Definition advance_connection (c : ConnectionSlot) : ConnectionSlot :=
  mkConnection (c_occupied c) (c_generation c) (endpoint_handles c) (owners c) (addresses c) (endpoint_open c)
    (read_open c) (write_open c) (outgoing c) (outgoing_rights c) (advance_generation (c_readiness c)).

(** How many of the [copied] bytes at hand a receive takes, and whether it
    takes the rights record at the front: it stops before a second record. *)
Definition plan (q : ByteQueue) (rights : RightsQueue) (copied : nat) (peek : bool) (rights_room : nat) :
    Result (nat * bool) SocketError :=
  match record_at rights 0 with
  | None => Ok (copied, false)
  | Some first =>
      match checked_add U64_MAX (q_sequence q) (Z.of_nat copied) with
      | None => Err Capacity
      | Some initial_end =>
          if r_sequence first <? q_sequence q then Err BadFileDescriptor
          else
            match tail_sequence q with
            | None => Err Capacity
            | Some tail =>
                if tail <=? r_sequence first then Err BadFileDescriptor
                else if (r_sequence first <? initial_end) && negb peek then
                  if (rights_room <? r_count first)%nat then Err Capacity
                  else
                    match record_at rights 1 with
                    | Some second =>
                        if r_sequence second <? initial_end
                        then Ok (Z.to_nat (r_sequence second - q_sequence q), true)
                        else Ok (copied, true)
                    | None => Ok (copied, true)
                    end
                else Ok (copied, false)
            end
      end
  end.

(** Returns the bytes copied to the output and the tokens. *)
Definition receive_message (own : ProcessHandle) (handle : Z) (room : nat) (flags : Z) (rights_room : nat) :
    SM (list Z * list ObjectKey) :=
  ensure (and_not flags RECEIVE_FLAGS =? 0) OperationNotSupported;;
  '(_, e) ← endpoint own handle;
  '(index, sd) ← connection e handle;
  r ← getS;
  let c := connection_at r index in
  if negb (at_side (read_open c) sd) then mret ([], [])
  else if (room =? 0)%nat then mret ([], [])
  else
    let incoming := (1 - sd)%nat in
    let q := at_side (outgoing c) incoming in
    let rights := at_side (outgoing_rights c) incoming in
    if (q_length q =? 0)%nat then
      if at_side (write_open c) incoming then throw WouldBlock else mret ([], [])
    else
      let peek := negb (Z.land flags MSG_PEEK =? 0) in
      '(copied, deliver) ← of_result (plan q rights (room `min` q_length q) peek rights_room);
      if peek then mret (ring_view 0 SOCKET_BUFFER_BYTES (q_bytes q) (q_head q) copied, [])
      else
        let '(data, hd) := ring_drain 0 SOCKET_BUFFER_BYTES (q_bytes q) (q_head q) copied in
        match checked_add U64_MAX (q_sequence q) (Z.of_nat copied) with
        | None =>
            putS (set_connection index
              (with_channel incoming (mkQueue hd (q_length q - copied) (q_sequence q) (q_bytes q)) rights c) r);;
            throw Capacity
        | Some sequence =>
            let q := mkQueue hd (q_length q - copied) sequence (q_bytes q) in
            let '(tokens, rights) := (if (deliver : bool) then pop rights_room rights else ([], rights)) in
            putS (set_connection index (advance_connection (with_channel incoming q rights c)) r);;
            mret (data, tokens)
        end.

(** [receive] up to the release of the discarded tokens, which it returns. *)
Definition receive_locked (own : ProcessHandle) (handle : Z) (room : nat) (flags : Z) :
    SM (list Z * list ObjectKey) :=
  receive_message own handle room flags MAXIMUM_TRANSFER_DESCRIPTORS.

Definition send_message (own : ProcessHandle) (handle : Z) (input : list Z) (flags : Z) (rights : list ObjectKey) :
    SM nat :=
  ensure (and_not flags SEND_FLAGS =? 0) OperationNotSupported;;
  '(_, e) ← endpoint own handle;
  '(index, sd) ← connection e handle;
  r ← getS;
  let c := connection_at r index in
  let peer := (1 - sd)%nat in
  ensure (at_side (write_open c) sd && at_side (read_open c) peer) BrokenPipe;;
  if (length input =? 0)%nat then
    ensure (length rights =? 0)%nat InvalidArgument;; mret O
  else
    let q := at_side (outgoing c) sd in
    let available := (SOCKET_BUFFER_BYTES - q_length q)%nat in
    ensure (negb (available =? 0)%nat) WouldBlock;;
    let copied := (length input `min` available)%nat in
    rights_sequence ← ok_or (tail_sequence q) Capacity;
    pushed ← (if (length rights =? 0)%nat then mret (at_side (outgoing_rights c) sd)
              else ok_or (push rights_sequence rights (at_side (outgoing_rights c) sd)) Capacity);
    let '(ring, n) := ring_fill SOCKET_BUFFER_BYTES (q_bytes q) (q_head q) (q_length q) (take copied input) in
    putS (set_connection index
      (advance_connection (with_channel sd (mkQueue (q_head q) n (q_sequence q) ring) pushed c)) r);;
    mret copied.

Definition send (own : ProcessHandle) (handle : Z) (input : list Z) (flags : Z) : SM nat :=
  send_message own handle input flags [].

Definition write (own : ProcessHandle) (handle : Z) (input : list Z) : SM nat := send own handle input 0.

Definition close_read (sd : nat) (c : ConnectionSlot) : ConnectionSlot :=
  mkConnection (c_occupied c) (c_generation c) (endpoint_handles c) (owners c) (addresses c) (endpoint_open c)
    (set_side sd false (read_open c)) (write_open c) (outgoing c) (outgoing_rights c) (c_readiness c).
Definition close_write (sd : nat) (c : ConnectionSlot) : ConnectionSlot :=
  mkConnection (c_occupied c) (c_generation c) (endpoint_handles c) (owners c) (addresses c) (endpoint_open c)
    (read_open c) (set_side sd false (write_open c)) (outgoing c) (outgoing_rights c) (c_readiness c).
Definition close_endpoint (sd : nat) (c : ConnectionSlot) : ConnectionSlot :=
  mkConnection (c_occupied c) (c_generation c) (endpoint_handles c) (owners c) (addresses c)
    (set_side sd false (endpoint_open c)) (read_open c) (write_open c) (outgoing c) (outgoing_rights c) (c_readiness c).

(** The incoming direction of side [sd] is emptied; its tokens are returned. *)
Definition discard_incoming (room sd : nat) (c : ConnectionSlot) : list ObjectKey * ConnectionSlot :=
  let incoming := (1 - sd)%nat in
  let '(tokens, rights) := drain room (at_side (outgoing_rights c) incoming) in
  (tokens, with_channel incoming (clear (at_side (outgoing c) incoming)) rights c).

(** [shutdown] up to the release of the tokens it returns. *)
Definition shutdown_locked (own : ProcessHandle) (handle how : Z) : SM (list ObjectKey) :=
  ensure (negb (SHUT_RDWR <? how)) InvalidArgument;;
  '(_, e) ← endpoint own handle;
  '(index, sd) ← connection e handle;
  r ← getS;
  let c := connection_at r index in
  let '(tokens, c) :=
    if (how =? SHUT_RD) || (how =? SHUT_RDWR)
    then discard_incoming (MAXIMUM_RIGHTS_RECORDS * MAXIMUM_TRANSFER_DESCRIPTORS) sd (close_read sd c)
    else ([], c) in
  let c := if (how =? SHUT_WR) || (how =? SHUT_RDWR) then close_write sd c else c in
  putS (set_connection index (advance_connection c) r);;
  mret tokens.

Definition readiness (own : ProcessHandle) (handle : Z) : SM Z :=
  '(_, e) ← endpoint own handle;
  if state_eqb (state e) Listening then mret (if (pending_length e =? 0)%nat then 0 else READY_IN)
  else
    '(index, sd) ← connection e handle;
    r ← getS;
    let c := connection_at r index in
    let peer := (1 - sd)%nat in
    let ready := 0 in
    let ready :=
      if negb (q_length (at_side (outgoing c) peer) =? 0)%nat || negb (at_side (write_open c) peer)
      then Z.lor ready READY_IN else ready in
    let ready :=
      if at_side (write_open c) sd && at_side (read_open c) peer
         && (q_length (at_side (outgoing c) sd) <? SOCKET_BUFFER_BYTES)%nat
      then Z.lor ready READY_OUT else ready in
    let ready := if negb (at_side (read_open c) peer) then Z.lor ready READY_ERR else ready in
    let ready := if negb (at_side (write_open c) peer) then Z.lor ready READY_HUP else ready in
    mret ready.

Definition readiness_generation (own : ProcessHandle) (handle : Z) : SM Z :=
  '(_, e) ← endpoint own handle;
  if state_eqb (state e) Listening then mret (ep_readiness e)
  else
    '(index, _) ← connection e handle;
    r ← getS;
    mret (c_readiness (connection_at r index)).

Definition local_address (own : ProcessHandle) (handle : Z) : SM UnixAddress :=
  '(_, e) ← endpoint own handle;
  if state_eqb (state e) Connected then
    '(index, sd) ← connection e handle;
    r ← getS;
    mret (at_side (addresses (connection_at r index)) sd)
  else mret (address e).

Definition peer_address (own : ProcessHandle) (handle : Z) : SM UnixAddress :=
  '(_, e) ← endpoint own handle;
  '(index, sd) ← connection e handle;
  r ← getS;
  mret (at_side (addresses (connection_at r index)) (1 - sd)).

Definition peer_credentials (own : ProcessHandle) (handle : Z) : SM PeerCredentials :=
  '(_, e) ← endpoint own handle;
  '(index, sd) ← connection e handle;
  r ← getS;
  mret (mkCredentials (pid (at_side (owners (connection_at r index)) (1 - sd))) 0 0).

Definition is_listener (own : ProcessHandle) (handle : Z) : SM bool :=
  '(_, e) ← endpoint own handle;
  mret (state_eqb (state e) Listening).

(** The connection of an endpoint that is closed, and the tokens discarded. *)
Definition leave (room sd : nat) (c : ConnectionSlot) : list ObjectKey * ConnectionSlot :=
  let '(tokens, c) := discard_incoming room sd (close_write sd (close_read sd (close_endpoint sd c))) in
  let c := advance_connection c in
  if negb (endpoint_open c).1 && negb (endpoint_open c).2 then
    let '(rest, c) := retire_connection (room - length tokens) c in (tokens ++ rest, c)
  else (tokens, c).

Definition close_connected_endpoint (index room : nat) (r : SocketRegistry) : list ObjectKey * SocketRegistry :=
  let e := endpoint_at r index in
  let '(tokens, r) :=
    if state_eqb (state e) Connected then
      match connections r !! connection_index e with
      | Some c =>
          if c_occupied c && (c_generation c =? connection_generation e) && (side e <? 2)%nat
             && (at_side (endpoint_handles c) (side e) =? default 0 (encode_endpoint index (ep_generation e)))
          then let '(tokens, c) := leave room (side e) c in (tokens, set_connection (connection_index e) c r)
          else ([], r)
      | None => ([], r)
      end
    else ([], r) in
  (tokens, set_endpoint index (retire_endpoint (endpoint_at r index)) r).

(** The loop of [close] over the server ends a listener has queued. *)
Definition close_pending (own : ProcessHandle) (acc : list ObjectKey * nat * SocketRegistry) (handle : Z) :
    list ObjectKey * nat * SocketRegistry :=
  let '(tokens, room, r) := acc in
  match decode_endpoint handle with
  | None => acc
  | Some (index, gen) =>
      let queued := endpoint_at r index in
      if occupied queued && (ep_generation queued =? gen) && handle_eqb (ep_owner queued) own
         && state_eqb (state queued) Connected
      then let '(out, r) := close_connected_endpoint index room r in (tokens ++ out, (room - length out)%nat, r)
      else acc
  end.

Definition MAXIMUM_CLOSE_DISCARDS : nat :=
  MAXIMUM_LISTEN_BACKLOG * MAXIMUM_RIGHTS_RECORDS * MAXIMUM_TRANSFER_DESCRIPTORS.

(** [close] up to the release of the tokens it returns. *)
Definition close_locked (own : ProcessHandle) (handle : Z) : SM (list ObjectKey) :=
  '(index, e) ← endpoint own handle;
  r ← getS;
  let '(tokens, r) :=
    if state_eqb (state e) Listening then
      let queued := ring_view 0 MAXIMUM_LISTEN_BACKLOG (pending e) (pending_head e) (pending_length e) in
      let r := set_endpoint index (retire_endpoint (endpoint_at r index)) r in
      let '(tokens, _, r) := foldl (close_pending own) ([], MAXIMUM_CLOSE_DISCARDS, r) queued in
      (tokens, r)
    else close_connected_endpoint index MAXIMUM_CLOSE_DISCARDS r in
  putS r;;
  mret tokens.
