(* ===== verification/SocketStream.v ===== *)
(** * Streams of a Unix socket connection

    What one direction of a connection of Socket.v stands for: the queue of
    bytes in flight, each with the descriptor transfers sent along with it.
    Sending appends to it; receiving takes a prefix that stops before a second
    set of transfers. Byte ring, rights ring and sequence numbers are shown to
    implement exactly that. *)

From stdpp Require Import prelude list numbers option.
From Stdlib Require Import ZArith Lia.
From S2P Require Import Prelude.
From S2P Require Import Handles.
From S2P Require Import ObjectKey.
From S2P Require Import RingQueue.
From S2P Require Import EventFd.
From S2P Require Import UnixAddress.
From S2P Require Import FdTable.
From S2P Require Import Socket.

#[local] Arguments Nat.modulo : simpl never.

(** ** The rights ring as a list of records *)

Definition tokens_of (x : RightsRecord) : list ObjectKey := take (r_count x) (r_tokens x).

Definition record_wf (x : RightsRecord) : Prop :=
  (1 ≤ r_count x ≤ MAXIMUM_TRANSFER_DESCRIPTORS)%nat ∧ length (r_tokens x) = MAXIMUM_TRANSFER_DESCRIPTORS.

Definition rights_view (q : RightsQueue) : list RightsRecord :=
  ring_view EMPTY_RECORD MAXIMUM_RIGHTS_RECORDS (records q) (rq_head q) (rq_length q).

Record rights_wf (q : RightsQueue) : Prop := {
  rw_head : (rq_head q < MAXIMUM_RIGHTS_RECORDS)%nat;
  rw_length : (rq_length q ≤ MAXIMUM_RIGHTS_RECORDS)%nat;
  rw_records : length (records q) = MAXIMUM_RIGHTS_RECORDS;
  rw_each : Forall record_wf (rights_view q);
}.

Lemma tokens_of_length x : record_wf x → length (tokens_of x) = r_count x.
Proof. intros [Hc Hl]. unfold tokens_of. rewrite length_take. lia. Qed.

Lemma tokens_of_nonempty x : record_wf x → tokens_of x ≠ [].
Proof. intros Hx E. pose proof (tokens_of_length x Hx) as Hl. rewrite E in Hl. simpl in Hl. destruct Hx as [[Hc _] _]. lia. Qed.

Lemma rights_view_length q : length (rights_view q) = rq_length q.
Proof. apply ring_view_length. Qed.

(** [record(offset)] *)
Lemma record_at_view q offset : record_at q offset = rights_view q !! offset.
Proof.
  unfold record_at, rights_view, ring_view. rewrite list_lookup_fmap.
  destruct (Nat.leb_spec (rq_length q) offset) as [Hle|Hlt].
  - by rewrite lookup_ge_None_2 by by rewrite length_seq.
  - by rewrite lookup_seq_lt.
Qed.

Lemma push_spec sequence tokens q q' :
  rights_wf q → push sequence tokens q = Some q' →
  rights_wf q' ∧ existsb key_is_empty tokens = false ∧
  ∃ x, rights_view q' = rights_view q ++ [x] ∧ r_sequence x = sequence ∧ tokens_of x = tokens ∧ tokens ≠ [].
Proof.
  intros [Hh Hl Hr He]. unfold push. destruct (_ || _) eqn:Hg; [done|]. intros [= <-].
  rewrite !orb_false_iff in Hg. destruct Hg as [[[H0 H8] Hn] Hk].
  apply Nat.eqb_neq in H0. apply Nat.ltb_ge in H8. apply Nat.leb_gt in Hn.
  set (x := mkRecord sequence (length tokens) (tokens ++ drop (length tokens) NO_TOKENS)).
  assert (tokens_of x = tokens) as Ht by (unfold tokens_of; simpl; by rewrite take_app_length).
  assert (rights_view (mkRights (rq_head q) (S (rq_length q))
    (<[((rq_head q + rq_length q) mod MAXIMUM_RIGHTS_RECORDS)%nat := x]> (records q))) = rights_view q ++ [x]) as Hv
    by (by apply ring_view_insert).
  split_and!; [split; simpl; [done|lia|by rewrite length_insert|]|done|].
  - rewrite Hv. apply Forall_app. split; [done|]. constructor; [|done]. split; [simpl; lia|].
    simpl. rewrite length_app, length_drop. unfold NO_TOKENS. rewrite length_replicate. lia.
  - exists x. split_and!; try done. by destruct tokens.
Qed.

Lemma pop_spec room q x rest :
  rights_wf q → rights_view q = x :: rest → (r_count x ≤ room)%nat →
  ∃ q', pop room q = (tokens_of x, q') ∧ rights_wf q' ∧ rights_view q' = rest ∧ rq_length q' = length rest.
Proof.
  intros [Hh Hl Hr He] Hv Hroom. pose proof (rights_view_length q) as Hlen. rewrite Hv in Hlen. simpl in Hlen.
  unfold pop. destruct (Nat.eqb_spec (rq_length q) 0); [lia|].
  assert (rights_view q = slot_at EMPTY_RECORD (records q) (rq_head q)
    :: ring_view EMPTY_RECORD MAXIMUM_RIGHTS_RECORDS (records q) ((rq_head q + 1) mod MAXIMUM_RIGHTS_RECORDS) (length rest)) as Hs.
  { unfold rights_view. rewrite <- Hlen. by apply ring_view_S. }
  rewrite Hv in Hs. injection Hs as Hx Hrest. rewrite <- Hx. set (q' := mkRights _ _ _). exists q'.
  assert (rights_view q' = rest) as Hv'.
  { unfold q', rights_view. simpl. rewrite <- Hlen. replace (S (length rest) - 1)%nat with (length rest) by lia.
    rewrite ring_view_insert_head by lia. done. }
  split_and!; [unfold tokens_of; do 2 f_equal; lia|split|done|unfold q'; simpl; lia].
  - unfold q'. simpl. apply Nat.mod_upper_bound. unfold MAXIMUM_RIGHTS_RECORDS. lia.
  - unfold q'. simpl. lia.
  - unfold q'. simpl. by rewrite length_insert.
  - rewrite Hv'. rewrite Hv in He. by apply Forall_cons_1 in He as [_ ?].
Qed.

Definition all_tokens (l : list RightsRecord) : list ObjectKey := l ≫= tokens_of.

Lemma all_tokens_bound l :
  Forall record_wf l → (length (all_tokens l) ≤ length l * MAXIMUM_TRANSFER_DESCRIPTORS)%nat.
Proof.
  induction 1 as [|x l Hx _ IH]; [done|]. change (all_tokens (x :: l)) with (tokens_of x ++ all_tokens l).
  rewrite length_app. cbn [length]. rewrite Nat.mul_succ_l.
  pose proof (tokens_of_length x Hx) as Ht. destruct Hx as [[_ Hc] _]. lia.
Qed.

Lemma drain_loop_spec l : ∀ q room,
  rights_wf q → rights_view q = l → (length (all_tokens l) ≤ room)%nat →
  ∃ q', drain_loop (length l) room q = (all_tokens l, q') ∧ rights_wf q' ∧ rights_view q' = [] ∧ rq_length q' = O.
Proof.
  induction l as [|x l IH]; intros q room Hw Hv Hroom.
  { exists q. split_and!; try done. rewrite <- rights_view_length. by rewrite Hv. }
  assert (record_wf x) as Hx by (pose proof (rw_each _ Hw) as He; rewrite Hv in He; by apply Forall_cons_1 in He as [? _]).
  pose proof (tokens_of_length x Hx) as Ht.
  assert (length (all_tokens (x :: l)) = (r_count x + length (all_tokens l))%nat) as Hlen.
  { change (all_tokens (x :: l)) with (tokens_of x ++ all_tokens l). by rewrite length_app, Ht. }
  destruct (pop_spec room q x l Hw Hv) as (q1 & Hp & Hw1 & Hv1 & _); [lia|]. cbn [drain_loop length]. rewrite Hp.
  destruct (IH q1 (room - length (tokens_of x))%nat Hw1 Hv1) as (q2 & -> & Hw2 & Hv2 & Hl2); [lia|].
  exists q2. by split_and!.
Qed.

Lemma drain_spec room q :
  rights_wf q → (length (all_tokens (rights_view q)) ≤ room)%nat →
  ∃ q', drain room q = (all_tokens (rights_view q), q') ∧ rights_wf q' ∧ rights_view q' = [].
Proof.
  intros Hw Hroom. destruct (drain_loop_spec (rights_view q) q room Hw eq_refl Hroom) as (q' & Hd & [Hh Hl Hr He] & Hv & Hlen).
  unfold drain. rewrite rights_view_length in Hd. rewrite Hd. eexists. split; [done|].
  assert (rights_view (mkRights 0 (rq_length q') (records q')) = []) as Hv'.
  { apply nil_length_inv. by rewrite rights_view_length. }
  split; [|done]. split; simpl; [unfold MAXIMUM_RIGHTS_RECORDS; lia|done|done|]. by rewrite Hv'.
Qed.

Lemma reset_rights_wf q : length (records q) = MAXIMUM_RIGHTS_RECORDS → rights_wf (reset_rights q) ∧ rights_view (reset_rights q) = [].
Proof.
  intros Hr. split; [|done]. split; simpl; [unfold MAXIMUM_RIGHTS_RECORDS; lia..|by rewrite length_fmap|]. constructor.
Qed.

(** ** One direction as an annotated stream *)

(** A byte in flight with the transfers sent along with it. *)
Abbreviation Item := (Z * list ObjectKey)%type.

Definition plain (b : Z) : Item := (b, []).

(** Marks the bytes from stream position [s] on with the records. *)
Fixpoint annotate (s : Z) (data : list Z) (l : list RightsRecord) : list Item :=
  match data with
  | [] => []
  | b :: data =>
      match l with
      | x :: rest =>
          if r_sequence x =? s then (b, tokens_of x) :: annotate (s + 1) data rest
          else plain b :: annotate (s + 1) data l
      | [] => plain b :: annotate (s + 1) data []
      end
  end.

Definition contents (q : ByteQueue) : list Z := ring_view 0 SOCKET_BUFFER_BYTES (q_bytes q) (q_head q) (q_length q).

Definition stream (q : ByteQueue) (rights : RightsQueue) : list Item :=
  annotate (q_sequence q) (contents q) (rights_view rights).

(** What sending appends: the transfers go with the first byte. *)
Definition message (data : list Z) (tokens : list ObjectKey) : list Item :=
  match data with
  | [] => []
  | b :: data => (b, tokens) :: (plain <$> data)
  end.

(** How many items a receive with [room] takes: it stops before a second set of
    transfers. *)
Fixpoint chunk (room : nat) (seen : bool) (l : list Item) : nat :=
  match room, l with
  | S room, (_, tokens) :: l =>
      if seen && negb (bool_decide (tokens = [])) then O
      else S (chunk room (seen || negb (bool_decide (tokens = []))) l)
  | _, _ => O
  end.

(** Records at increasing positions of a range. *)
Fixpoint positions (lo hi : Z) (l : list RightsRecord) : Prop :=
  match l with
  | [] => True
  | x :: l => lo ≤ r_sequence x < hi ∧ positions (r_sequence x + 1) hi l
  end.

Lemma positions_weaken lo lo' hi hi' l : lo' ≤ lo → hi ≤ hi' → positions lo hi l → positions lo' hi' l.
Proof.
  intros Hlo Hhi. revert lo lo' Hlo. induction l as [|x l IH]; [done|]. simpl. intros lo lo' Hlo [Hx Hl].
  split; [lia|]. by apply (IH (r_sequence x + 1)).
Qed.

Lemma positions_snoc lo hi l x :
  positions lo hi l → hi ≤ r_sequence x → lo ≤ r_sequence x → positions lo (r_sequence x + 1) (l ++ [x]).
Proof.
  revert lo. induction l as [|y l IH]; simpl; intros lo; [lia|]. intros [Hy Hl] Hx Hlo. split; [lia|].
  apply IH; [done|lia|lia].
Qed.

Lemma positions_below lo hi l : positions lo hi l → hi ≤ lo → l = [].
Proof. destruct l as [|x l]; [done|]. simpl. lia. Qed.

Lemma annotate_plain s data : annotate s data [] = plain <$> data.
Proof. revert s. induction data as [|b data IH]; intros s; simpl; [done|]. by rewrite IH. Qed.

(** Records past the data leave no mark. *)
Lemma annotate_app s d1 d2 l1 l2 :
  positions s (s + Z.of_nat (length d1)) l1 → positions (s + Z.of_nat (length d1)) (s + Z.of_nat (length d1 + length d2)) l2 →
  annotate s (d1 ++ d2) (l1 ++ l2) = annotate s d1 l1 ++ annotate (s + Z.of_nat (length d1)) d2 l2.
Proof.
  revert s l1. induction d1 as [|b d1 IH]; intros s l1 H1 H2.
  { simpl in H1. rewrite (positions_below _ _ _ H1) by lia. simpl. by rewrite Z.add_0_r. }
  assert (s + Z.of_nat (length (b :: d1)) = s + 1 + Z.of_nat (length d1)) as E1 by (simpl; lia).
  assert (s + Z.of_nat (length (b :: d1) + length d2) = s + 1 + Z.of_nat (length d1 + length d2)) as E2 by (simpl; lia).
  rewrite E1 in H1, H2 |- *. rewrite E2 in H2. clear E1 E2.
  destruct l1 as [|x l1]; cbn [app].
  - cbn [annotate]. destruct l2 as [|y l2].
    + simpl. f_equal. rewrite !annotate_plain. by rewrite fmap_app.
    + pose proof H2 as [Hy _]. destruct (Z.eqb_spec (r_sequence y) s); [lia|]. simpl. f_equal. apply (IH (s + 1) []); done.
  - destruct H1 as [Hx Hl]. cbn [annotate]. destruct (Z.eqb_spec (r_sequence x) s) as [Heq|Hne]; simpl; f_equal.
    + apply IH; [|done]. eapply positions_weaken; [| |exact Hl]; lia.
    + apply (IH (s + 1) (x :: l1)); [|done]. split; [lia|done].
Qed.

Lemma annotate_length s data l : length (annotate s data l) = length data.
Proof.
  revert s l. induction data as [|b data IH]; intros s l; [done|]. simpl. destruct l as [|x l]; [simpl; by rewrite IH|].
  destruct (_ =? _); simpl; by rewrite IH.
Qed.

Lemma annotate_bytes s data l : (annotate s data l).*1 = data.
Proof.
  revert s l. induction data as [|b data IH]; intros s l; [done|]. simpl. destruct l as [|x l]; [simpl; by rewrite IH|].
  destruct (_ =? _); simpl; by rewrite IH.
Qed.

Lemma annotate_tokens s data l :
  positions s (s + Z.of_nat (length data)) l → (annotate s data l).*2 ≫= id = all_tokens l.
Proof.
  revert s l. induction data as [|b data IH]; intros s l Hp.
  { rewrite (positions_below _ _ _ Hp) by (simpl; lia). done. }
  replace (s + Z.of_nat (length (b :: data))) with (s + 1 + Z.of_nat (length data)) in Hp by (simpl; lia).
  simpl. destruct l as [|x l]; [by apply (IH (s + 1) [])|]. destruct Hp as [Hx Hl].
  destruct (Z.eqb_spec (r_sequence x) s) as [Heq|Hne].
  - cbn. rewrite IH; [done|]. eapply positions_weaken; [| |exact Hl]; lia.
  - cbn. apply IH. split; [lia|done].
Qed.

(** Where a receive stops: the first mark, or the second one when none has been
    seen, if it is within reach. *)
Lemma chunk_annotate s data l room seen :
  Forall record_wf l → positions s (s + Z.of_nat (length data)) l →
  chunk room seen (annotate s data l) =
    (room `min` (match (if seen then l else tail l) with
                 | x :: _ => Z.to_nat (r_sequence x - s)
                 | [] => length data
                 end `min` length data))%nat.
Proof.
  revert s l room seen. induction data as [|b data IH]; intros s l room seen Hw Hp.
  { cbn [length]. rewrite !Nat.min_0_r. by destruct room. }
  replace (s + Z.of_nat (length (b :: data))) with (s + 1 + Z.of_nat (length data)) in Hp by (simpl; lia).
  destruct room as [|room]; [simpl; lia|]. cbn [annotate]. destruct l as [|x l].
  { unfold plain. cbn [chunk]. rewrite bool_decide_true by done. cbn [negb]. rewrite andb_false_r, orb_false_r.
    rewrite (IH (s + 1) []) by done. destruct seen; cbn [list.tail length]; lia. }
  destruct Hp as [Hx Hl]. apply Forall_cons_1 in Hw as [Hxw Hw].
  destruct (Z.eqb_spec (r_sequence x) s) as [Heq|Hne].
  - cbn [chunk]. rewrite bool_decide_false by by apply tokens_of_nonempty. cbn [negb]. destruct seen; cbn [andb orb].
    + rewrite Heq, Z.sub_diag. cbn [length]. change (Z.to_nat 0) with O. lia.
    + assert (positions (s + 1) (s + 1 + Z.of_nat (length data)) l) as Hl' by (eapply positions_weaken; [| |exact Hl]; lia).
      rewrite (IH (s + 1) l) by done. destruct l as [|y l]; cbn [list.tail length]; [lia|]. destruct Hl' as [Hy _]. lia.
  - unfold plain. cbn [chunk]. rewrite bool_decide_true by done. cbn [negb]. rewrite andb_false_r, orb_false_r.
    rewrite (IH (s + 1) (x :: l)); [|by constructor|split; [lia|done]].
    destruct seen; cbn [list.tail length]; [lia|]. destruct l as [|y l]; cbn [list.tail length]; [lia|]. destruct Hl as [Hy _]. lia.
Qed.

(** ** The operations on one direction *)

Record channel_wf (q : ByteQueue) (rights : RightsQueue) : Prop := {
  cw_head : (q_head q < SOCKET_BUFFER_BYTES)%nat;
  cw_length : (q_length q ≤ SOCKET_BUFFER_BYTES)%nat;
  cw_bytes : length (q_bytes q) = SOCKET_BUFFER_BYTES;
  cw_sequence : is_u64 (q_sequence q);
  cw_rights : rights_wf rights;
  cw_positions : positions (q_sequence q) (q_sequence q + Z.of_nat (q_length q)) (rights_view rights);
}.

Lemma contents_length q : length (contents q) = q_length q.
Proof. apply ring_view_length. Qed.

Lemma stream_length q rights : length (stream q rights) = q_length q.
Proof. unfold stream. by rewrite annotate_length, contents_length. Qed.

Lemma stream_split q rights n l1 l2 :
  channel_wf q rights → (n ≤ q_length q)%nat → rights_view rights = l1 ++ l2 →
  positions (q_sequence q) (q_sequence q + Z.of_nat n) l1 →
  positions (q_sequence q + Z.of_nat n) (q_sequence q + Z.of_nat (q_length q)) l2 →
  take n (stream q rights) = annotate (q_sequence q) (take n (contents q)) l1 ∧
  drop n (stream q rights) = annotate (q_sequence q + Z.of_nat n) (drop n (contents q)) l2.
Proof.
  intros Hw Hn Hv H1 H2. pose proof (contents_length q) as Hl.
  assert (length (take n (contents q)) = n) as Ht by (rewrite length_take; lia).
  assert (stream q rights = annotate (q_sequence q) (take n (contents q)) l1
    ++ annotate (q_sequence q + Z.of_nat n) (drop n (contents q)) l2) as ->.
  { unfold stream. rewrite Hv, <- (take_drop n (contents q)) at 1. rewrite annotate_app; rewrite Ht; [done|done|].
    rewrite length_drop, Hl. by replace (n + (q_length q - n))%nat with (q_length q) by lia. }
  rewrite take_app_length', drop_app_length' by by rewrite annotate_length. done.
Qed.

Lemma stream_tokens q rights n l1 l2 :
  channel_wf q rights → (n ≤ q_length q)%nat → rights_view rights = l1 ++ l2 →
  positions (q_sequence q) (q_sequence q + Z.of_nat n) l1 →
  positions (q_sequence q + Z.of_nat n) (q_sequence q + Z.of_nat (q_length q)) l2 →
  (take n (stream q rights)).*2 ≫= id = all_tokens l1.
Proof.
  intros Hw Hn Hv H1 H2. destruct (stream_split q rights n l1 l2 Hw Hn Hv H1 H2) as [-> _].
  apply annotate_tokens. rewrite length_take, contents_length. by replace (n `min` q_length q)%nat with n by lia.
Qed.

(** Taking [n] bytes off the ring, and the records [l1] with them. *)
Lemma channel_take q rights n l1 l2 rights' hd sequence :
  channel_wf q rights → (n ≤ q_length q)%nat → rights_view rights = l1 ++ l2 →
  positions (q_sequence q) (q_sequence q + Z.of_nat n) l1 →
  positions (q_sequence q + Z.of_nat n) (q_sequence q + Z.of_nat (q_length q)) l2 →
  rights_wf rights' → rights_view rights' = l2 → hd = ((q_head q + n) mod SOCKET_BUFFER_BYTES)%nat →
  sequence = q_sequence q + Z.of_nat n → is_u64 sequence →
  let q' := mkQueue hd (q_length q - n) sequence (q_bytes q) in
  channel_wf q' rights' ∧ stream q' rights' = drop n (stream q rights).
Proof.
  intros Hw Hn Hv H1 H2 Hr' Hv' -> -> Hu q'. destruct (stream_split q rights n l1 l2 Hw Hn Hv H1 H2) as [_ ->].
  destruct Hw as [Hh Hl Hb Hs Hr Hp]. split.
  - split; simpl; [apply Nat.mod_upper_bound; lia|lia|done|done|done|]. rewrite Hv'.
    by replace (q_sequence q + Z.of_nat n + Z.of_nat (q_length q - n)) with (q_sequence q + Z.of_nat (q_length q)) by lia.
  - unfold stream, contents. simpl. rewrite Hv'. f_equal.
    rewrite (ring_view_split (q_bytes q) (q_head q) (q_length q) n Hn), drop_app_length'; [done|]. symmetry. apply ring_view_length.
Qed.

(** What a receive plans, on the stream: it takes the chunk at the front with
    its transfers, if they fit the output. *)
Lemma plan_spec q rights copied rights_room :
  channel_wf q rights → q_sequence q + Z.of_nat (q_length q) ≤ U64_MAX → (0 < copied ≤ q_length q)%nat →
  let n := chunk copied false (stream q rights) in
  let tokens := (take n (stream q rights)).*2 ≫= id in
  plan q rights copied true rights_room = Ok (copied, false) ∧
  (0 < n ≤ copied)%nat ∧
  ∃ l1 l2, rights_view rights = l1 ++ l2 ∧ tokens = all_tokens l1 ∧
    positions (q_sequence q) (q_sequence q + Z.of_nat n) l1 ∧
    positions (q_sequence q + Z.of_nat n) (q_sequence q + Z.of_nat (q_length q)) l2 ∧
    plan q rights copied false rights_room =
      (if (rights_room <? length tokens)%nat then Err Capacity
       else Ok (n, match l1 with [] => false | _ => true end)) ∧
    (length l1 ≤ 1)%nat.
Proof.
  intros Hw Hmax Hc n tokens. pose proof Hw as [Hh Hl Hb Hs Hr Hp]. pose proof (rw_each _ Hr) as Heach.
  assert (n = (copied `min` (match list.tail (rights_view rights) with
    | x :: _ => Z.to_nat (r_sequence x - q_sequence q) | [] => q_length q end `min` q_length q))%nat) as Hn.
  { unfold n, stream. rewrite chunk_annotate; rewrite ?contents_length; done. }
  assert (∀ l1 l2, rights_view rights = l1 ++ l2 → (n ≤ q_length q)%nat →
    positions (q_sequence q) (q_sequence q + Z.of_nat n) l1 →
    positions (q_sequence q + Z.of_nat n) (q_sequence q + Z.of_nat (q_length q)) l2 → tokens = all_tokens l1) as Htok.
  { intros l1 l2 Hv Hle H1 H2. by apply (stream_tokens q rights n l1 l2). }
  unfold plan. rewrite !record_at_view. unfold tail_sequence, checked_add.
  destruct (rights_view rights) as [|x l] eqn:Hv; cbn [lookup list_lookup list.tail] in *.
  { split_and!; [done|lia|lia|]. exists [], []. rewrite (Htok [] []) by (done || lia). split_and!; try done; [|simpl; lia].
    replace n with copied by lia. by destruct rights_room. }
  destruct Hp as [Hx Hpl]. apply Forall_cons_1 in Heach as [Hxw Hlw].
  destruct (Z.leb_spec (q_sequence q + Z.of_nat copied) U64_MAX); [|lia].
  destruct (Z.ltb_spec (r_sequence x) (q_sequence q)); [lia|].
  destruct (Z.leb_spec (q_sequence q + Z.of_nat (q_length q)) U64_MAX); [|lia].
  destruct (Z.leb_spec (q_sequence q + Z.of_nat (q_length q)) (r_sequence x)); [lia|].
  rewrite andb_false_r. destruct (Z.ltb_spec (r_sequence x) (q_sequence q + Z.of_nat copied)) as [Hin|Hout]; cbn [andb negb].
  - assert (Z.of_nat n > r_sequence x - q_sequence q ∧ (0 < n ≤ copied)%nat ∧
      positions (q_sequence q + Z.of_nat n) (q_sequence q + Z.of_nat (q_length q)) l ∧
      n = match l !! 0%nat with
          | Some y => if r_sequence y <? q_sequence q + Z.of_nat copied then Z.to_nat (r_sequence y - q_sequence q) else copied
          | None => copied end) as (Hgt & Hpos & Hl2 & Hval).
    { destruct l as [|y l]; cbn [lookup list_lookup]; [split_and!; try done; lia|]. destruct Hpl as [Hy Hpl].
      destruct (Z.ltb_spec (r_sequence y) (q_sequence q + Z.of_nat copied)); split_and!; try lia; split; try lia; done. }
    split_and!; [done|lia|lia|]. exists [x], l. pose proof (Htok [x] l) as Ht.
    assert (positions (q_sequence q) (q_sequence q + Z.of_nat n) [x]) as Hf1 by (simpl; split; [lia|done]).
    assert (length tokens = r_count x) as Hlen.
    { rewrite Ht by (done || lia). unfold all_tokens. simpl. rewrite app_nil_r. by apply tokens_of_length. }
    split_and!; try done; [apply Ht; done || lia|]. rewrite Hlen. destruct (_ <? _)%nat; [done|].
    rewrite Hval. destruct (l !! 0%nat) as [y|]; [|done]. by destruct (_ <? _).
  - assert (n = copied) as Hcn. { destruct l as [|y l]; [lia|]. destruct Hpl as [Hy _]. lia. }
    split_and!; [done|lia|lia|]. exists [], (x :: l).
    assert (positions (q_sequence q + Z.of_nat n) (q_sequence q + Z.of_nat (q_length q)) (x :: l)) as Hf2 by (split; [lia|done]).
    rewrite (Htok [] (x :: l)) by (done || lia). split_and!; try done; [|simpl; lia].
    rewrite Hcn. by destruct rights_room.
Qed.

(** Filling the ring with [data], the transfers at its first byte. *)
Lemma channel_send q rights data tokens pushed t ring m :
  channel_wf q rights → (0 < length data)%nat → (length data ≤ SOCKET_BUFFER_BYTES - q_length q)%nat →
  tail_sequence q = Some t →
  (if (length tokens =? 0)%nat then pushed = rights else push t tokens rights = Some pushed) →
  ring_fill SOCKET_BUFFER_BYTES (q_bytes q) (q_head q) (q_length q) data = (ring, m) →
  let q' := mkQueue (q_head q) m (q_sequence q) ring in
  channel_wf q' pushed ∧ stream q' pushed = stream q rights ++ message data tokens ∧ m = (q_length q + length data)%nat.
Proof.
  intros [Hh Hl Hb Hs Hr Hp] Hpos Hfit Ht Hpush Hfill q'. apply checked_add_Some in Ht as [-> Ht].
  destruct (ring_fill_spec (d := 0) (q_bytes q) (q_head q) (q_length q) data Hh Hb ltac:(lia)) as (ring' & Hf & Hrl & Hrv).
  rewrite Hfill in Hf. injection Hf as <- ->.
  assert (contents q' = contents q ++ data) as Hc by done.
  set (t := q_sequence q + Z.of_nat (q_length q)) in *.
  assert (rights_wf pushed ∧ ∃ l2, rights_view pushed = rights_view rights ++ l2 ∧ annotate t data l2 = message data tokens ∧
    positions t (t + Z.of_nat (length data)) l2) as (Hrp & l2 & Hv & Hm & Hl2).
  { destruct (Nat.eqb_spec (length tokens) 0) as [H0|Hn].
    - subst pushed. split; [done|]. exists []. rewrite app_nil_r. split_and!; [done| |done].
      apply nil_length_inv in H0 as ->. rewrite annotate_plain. by destruct data.
    - destruct (push_spec t tokens rights pushed Hr Hpush) as (Hrp & _ & x & Hv & Hxs & Hxt & _). split; [done|].
      exists [x]. split_and!; [done| |simpl; split; [lia|done]].
      destruct data as [|b data]; [simpl in Hpos; lia|]. simpl. rewrite Hxs, Z.eqb_refl, Hxt. by rewrite annotate_plain. }
  assert (q_sequence q + Z.of_nat (q_length q + length data) = t + Z.of_nat (length data)) as Hend by lia.
  split_and!; [|unfold stream; simpl; rewrite Hc, Hv, annotate_app|done].
  - split; simpl; [done|lia|done|done|done|]. rewrite Hv, Hend. clear -Hp Hl2 Hpos.
    assert (∀ lo l1, positions lo t l1 → positions t (t + Z.of_nat (length data)) l2 → lo ≤ t →
      positions lo (t + Z.of_nat (length data)) (l1 ++ l2)) as Happ.
    { intros lo l1. revert lo. induction l1 as [|y l1 IH]; intros lo H1 H2 Hlo; cbn [app].
      - eapply positions_weaken; [exact Hlo|reflexivity|done].
      - destruct H1 as [Hy H1]. split; [lia|]. apply IH; [done|done|lia]. }
    apply Happ; [done|done|lia].
  - rewrite contents_length. fold t. by rewrite Hm.
  - by rewrite contents_length.
  - rewrite contents_length, Hend. by fold t.
Qed.

(** Emptying the direction. *)
Lemma channel_discard room q rights :
  channel_wf q rights → (length (all_tokens (rights_view rights)) ≤ room)%nat →
  ∃ rights', drain room rights = (all_tokens (rights_view rights), rights') ∧
    channel_wf (clear q) rights' ∧ stream (clear q) rights' = [] ∧ rights_view rights' = [].
Proof.
  intros [Hh Hl Hb Hs Hr Hp] Hroom. destruct (drain_spec room rights Hr Hroom) as (rights' & -> & Hr' & Hv). exists rights'.
  split_and!; [done| |unfold stream; by rewrite Hv|done]. split; cbn [clear q_head q_length q_bytes q_sequence]; [unfold SOCKET_BUFFER_BYTES; lia..|apply length_replicate| |done|by rewrite Hv].
  unfold is_u64, wrapping_add. set (a := _ + Z.of_nat _). pose proof (Z.mod_pos_bound a (U64_MAX + 1) ltac:(done)). lia.
Qed.

Lemma channel_reset rights : length (records rights) = MAXIMUM_RIGHTS_RECORDS →
  channel_wf EMPTY_BYTES (reset_rights rights) ∧ rights_view (reset_rights rights) = [].
Proof.
  intros Hr. destruct (reset_rights_wf rights Hr) as [Hw Hv]. split; [|done].
  split; cbn [EMPTY_BYTES q_head q_length q_bytes q_sequence]; [unfold SOCKET_BUFFER_BYTES; lia..|apply length_replicate|unfold is_u64, U64_MAX; lia|done|by rewrite Hv].
Qed.

(** Near the end of the sequence numbers, a direction with records refuses. *)
Lemma plan_overflow q rights copied peek rights_room :
  channel_wf q rights → U64_MAX < q_sequence q + Z.of_nat (q_length q) → rights_view rights ≠ [] →
  ∃ e, plan q rights copied peek rights_room = Err e.
Proof.
  intros [_ _ _ _ _ Hp] Hmax Hv. unfold plan. rewrite record_at_view.
  destruct (rights_view rights) as [|x l]; [done|]. cbn [lookup list_lookup]. destruct (checked_add _ _ _); [|by eexists].
  destruct (_ <? _); [by eexists|]. unfold tail_sequence, checked_add. destruct (Z.leb_spec (q_sequence q + Z.of_nat (q_length q)) U64_MAX); [lia|].
  by eexists.
Qed.

Lemma plan_empty q rights copied peek rights_room :
  rights_view rights = [] → plan q rights copied peek rights_room = Ok (copied, false).
Proof. intros Hv. unfold plan. by rewrite record_at_view, Hv. Qed.

(** What a receive that is not refused takes: [n] bytes and the records [l1]. *)
Lemma plan_taken q rights copied rights_room n deliver :
  channel_wf q rights → (0 < copied ≤ q_length q)%nat → plan q rights copied false rights_room = Ok (n, deliver) →
  (0 < n ≤ copied)%nat ∧
  ∃ l1 l2 rights', rights_view rights = l1 ++ l2 ∧
    positions (q_sequence q) (q_sequence q + Z.of_nat n) l1 ∧
    positions (q_sequence q + Z.of_nat n) (q_sequence q + Z.of_nat (q_length q)) l2 ∧
    (if deliver then pop rights_room rights else ([], rights)) = (all_tokens l1, rights') ∧
    rights_wf rights' ∧ rights_view rights' = l2.
Proof.
  intros Hw Hc Hplan. destruct (decide (rights_view rights = [])) as [Hv|Hv].
  { rewrite plan_empty in Hplan by done. injection Hplan as <- <-. split; [lia|]. exists [], [], rights.
    split_and!; try done. apply Hw. }
  destruct (decide (q_sequence q + Z.of_nat (q_length q) ≤ U64_MAX)) as [Hmax|Hmax].
  2: { destruct (plan_overflow q rights copied false rights_room Hw) as [e He]; [lia|done|congruence]. }
  destruct (plan_spec q rights copied rights_room Hw Hmax Hc) as (_ & Hn & l1 & l2 & Hv12 & Htok & H1 & H2 & Hp & Hl1).
  rewrite Hplan in Hp. set (m := chunk copied false (stream q rights)) in *.
  destruct (Nat.ltb_spec rights_room (length ((take m (stream q rights)).*2 ≫= id))) as [|Hfit]; [done|].
  injection Hp as -> ->. split; [done|]. rewrite Htok in Hfit. exists l1, l2. destruct l1 as [|x l1].
  - exists rights. split_and!; try done. apply Hw.
  - destruct l1; [|simpl in Hl1; lia]. pose proof (rw_each _ (cw_rights _ _ Hw)) as He. rewrite Hv12 in He.
    apply Forall_cons_1 in He as [Hx _]. pose proof (tokens_of_length x Hx) as Hlx.
    assert (all_tokens [x] = tokens_of x) as Hall by (unfold all_tokens; simpl; by rewrite app_nil_r).
    rewrite Hall in Hfit |- *.
    destruct (pop_spec rights_room rights x l2 (cw_rights _ _ Hw) Hv12) as (rights' & Hpop & Hr' & Hv' & _); [lia|].
    exists rights'. by split_and!.
Qed.

(** The number of items with transfers. *)
Definition marks (l : list Item) : nat := countb (λ x, negb (bool_decide (x.2 = []))) l.

Lemma annotate_marks s data l :
  Forall record_wf l → positions s (s + Z.of_nat (length data)) l → marks (annotate s data l) = length l.
Proof.
  revert s l. induction data as [|b data IH]; intros s l Hw Hp.
  { rewrite (positions_below _ _ _ Hp) by (simpl; lia). done. }
  replace (s + Z.of_nat (length (b :: data))) with (s + 1 + Z.of_nat (length data)) in Hp by (simpl; lia).
  unfold marks in *. cbn [annotate]. destruct l as [|x l]; [by apply (IH (s + 1) [])|]. destruct Hp as [Hx Hl].
  destruct (Z.eqb_spec (r_sequence x) s) as [Heq|Hne]; cbn [countb snd plain].
  - apply Forall_cons_1 in Hw as [Hxw Hw]. rewrite bool_decide_false by by apply tokens_of_nonempty. simpl. f_equal.
    apply IH; [done|]. eapply positions_weaken; [| |exact Hl]; lia.
  - rewrite bool_decide_true by done. simpl. apply (IH (s + 1) (x :: l)); [done|split; [lia|done]].
Qed.

Lemma stream_marks q rights : channel_wf q rights → marks (stream q rights) = rq_length rights.
Proof.
  intros [_ _ _ _ Hr Hp]. unfold stream. rewrite annotate_marks; [apply rights_view_length|apply Hr|by rewrite contents_length].
Qed.
