(* ===== verification/SocketTrace.v ===== *)
(** * Sequences of stream-socket operations

    The registry of Socket.v under any sequence of operations, by any processes
    and with any handles. Connections keep their streams intact, descriptor
    transfers are neither lost nor duplicated, and endpoints and connections
    stay linked to each other. *)

From stdpp Require Import prelude list numbers option.
From Stdlib Require Import ZArith Lia.
From S2P Require Import Prelude.
From S2P Require Import Handles.
From S2P Require Import ObjectKey.
From S2P Require Import RingQueue.
From S2P Require Import EventFd.
From S2P Require Import UnixAddress.
From S2P Require Import FdTable.
From S2P Require Import Socket.
From S2P Require Import SocketStream.

#[local] Arguments Nat.modulo : simpl never.

(** ** Connections *)

(** The bytes in flight from side [s], with their transfers. *)
Definition flight (c : ConnectionSlot) (s : nat) : list Item :=
  stream (at_side (outgoing c) s) (at_side (outgoing_rights c) s).

(** How many bytes side [s] has sent in the life of the connection. *)
Definition total (c : ConnectionSlot) (s : nat) : Z :=
  q_sequence (at_side (outgoing c) s) + Z.of_nat (q_length (at_side (outgoing c) s)).

Record connection_wf (c : ConnectionSlot) : Prop := {
  kw_channel : ∀ s, (s < 2)%nat → channel_wf (at_side (outgoing c) s) (at_side (outgoing_rights c) s);
  kw_deaf : ∀ s, (s < 2)%nat → at_side (read_open c) s = false → flight c (1 - s) = [];
  kw_gone : ∀ s, (s < 2)%nat → at_side (endpoint_open c) s = false →
    at_side (read_open c) s = false ∧ at_side (write_open c) s = false;
  kw_occupied : c_occupied c = (endpoint_open c).1 || (endpoint_open c).2;
  kw_generation : is_u32 (c_generation c);
}.

Lemma at_set_side {A} s (x : A) p : at_side (set_side s x p) s = x.
Proof. by destruct s. Qed.

Lemma at_set_other {A} s (x : A) p : (s < 2)%nat → at_side (set_side s x p) (1 - s) = at_side p (1 - s).
Proof. destruct s as [|[|s]]; [done|done|lia]. Qed.

Lemma set_side_cases {A} s s' (x : A) p :
  (s < 2)%nat → (s' < 2)%nat → at_side (set_side s x p) s' = if decide (s' = s) then x else at_side p s'.
Proof. destruct s as [|[|s]], s' as [|[|s']]; intros; try lia; done. Qed.

Lemma other_side s : (s < 2)%nat → (1 - (1 - s) = s)%nat ∧ (1 - s < 2)%nat ∧ (1 - s ≠ s)%nat.
Proof. lia. Qed.

Lemma flight_nil c s : channel_wf (at_side (outgoing c) s) (at_side (outgoing_rights c) s) →
  flight c s = [] ↔ q_length (at_side (outgoing c) s) = O.
Proof.
  intros Hw. unfold flight. rewrite <- (stream_length (at_side (outgoing c) s) (at_side (outgoing_rights c) s)).
  split; [by intros ->|apply nil_length_inv].
Qed.

(** Tokens in flight from side [s]. *)
Definition flight_tokens (c : ConnectionSlot) (s : nat) : list ObjectKey :=
  all_tokens (rights_view (at_side (outgoing_rights c) s)).

Lemma flight_tokens_stream c s :
  channel_wf (at_side (outgoing c) s) (at_side (outgoing_rights c) s) → (flight c s).*2 ≫= id = flight_tokens c s.
Proof. intros [_ _ _ _ _ Hp]. apply annotate_tokens. by rewrite contents_length. Qed.

Lemma flight_tokens_nil c s :
  channel_wf (at_side (outgoing c) s) (at_side (outgoing_rights c) s) → flight c s = [] → flight_tokens c s = [].
Proof. intros Hw Hf. by rewrite <- flight_tokens_stream, Hf. Qed.

Lemma flight_tokens_bound c s :
  channel_wf (at_side (outgoing c) s) (at_side (outgoing_rights c) s) →
  (length (flight_tokens c s) ≤ MAXIMUM_RIGHTS_RECORDS * MAXIMUM_TRANSFER_DESCRIPTORS)%nat.
Proof.
  intros [_ _ _ _ [_ Hl _ He] _]. pose proof (all_tokens_bound _ He) as Hb. rewrite rights_view_length in Hb.
  unfold flight_tokens. unfold MAXIMUM_TRANSFER_DESCRIPTORS in *. lia.
Qed.

(** ** The registry *)

Definition locate (r : SocketRegistry) (own : ProcessHandle) (handle : Z) : Result (nat * nat) SocketError :=
  match resolved_endpoint r own handle with
  | Ok (_, e) => resolved_connection r e handle
  | Err x => Err x
  end.

(** The operations that work on a connection start by locating it. *)
Lemma located {A} own handle (k : nat → nat → SM A) r :
  ('(_, e) ← endpoint own handle; '(i, s) ← connection e handle; k i s) r
  = match locate r own handle with Ok (i, s) => k i s r | Err x => (Err x, r) end.
Proof.
  unfold endpoint, connection, locate. m_unfold. destruct (resolved_endpoint r own handle) as [[k' e]|x]; [|done].
  by destruct (resolved_connection r e handle) as [[i s]|x].
Qed.

Lemma located_connection r own handle i s :
  locate r own handle = Ok (i, s) →
  ∃ c, connections r !! i = Some c ∧ c_occupied c = true ∧ (s < 2)%nat ∧ connection_at r i = c ∧
    at_side (endpoint_handles c) s = handle ∧ at_side (owners c) s = own.
Proof.
  unfold locate. destruct (resolved_endpoint r own handle) as [[k e]|x] eqn:He; [|done].
  unfold resolved_connection. destruct (negb _); [done|]. destruct (connections r !! connection_index e) as [c|] eqn:Hc; [|done].
  destruct (_ && _) eqn:Hg; [|done]. intros [= <- <-]. rewrite !andb_true_iff in Hg.
  destruct Hg as [[[[Ho _] Hs%Nat.ltb_lt] Hh%Z.eqb_eq] Hw%handle_eqb_eq]. exists c. split_and!; try done.
  - unfold connection_at. by apply slot_at_Some.
  - unfold resolved_endpoint in He. destruct (decode_endpoint handle) as [[k' g]|]; [|done].
    destruct (_ || _) eqn:Hg; [done|]. injection He as _ <-. rewrite !orb_false_iff in Hg.
    destruct Hg as [_ Hown%negb_false_iff%handle_eqb_eq]. congruence.
Qed.

(** ** Receiving and sending *)

(** [c'] is [c] with other queues on side [s]. *)
Record rechanneled (c c' : ConnectionSlot) (s : nat) : Prop := {
  rc_occupied : c_occupied c' = c_occupied c;
  rc_generation : c_generation c' = c_generation c;
  rc_handles : endpoint_handles c' = endpoint_handles c;
  rc_owners : owners c' = owners c;
  rc_addresses : addresses c' = addresses c;
  rc_endpoint : endpoint_open c' = endpoint_open c;
  rc_read : read_open c' = read_open c;
  rc_write : write_open c' = write_open c;
  rc_outgoing : at_side (outgoing c') (1 - s) = at_side (outgoing c) (1 - s);
  rc_rights : at_side (outgoing_rights c') (1 - s) = at_side (outgoing_rights c) (1 - s);
}.

Lemma rechanneled_wf c c' s :
  (s < 2)%nat → connection_wf c → rechanneled c c' s →
  channel_wf (at_side (outgoing c') s) (at_side (outgoing_rights c') s) →
  (at_side (read_open c) (1 - s) = false → flight c' s = []) → connection_wf c'.
Proof.
  intros Hs [Hc Hd Hg Ho Hgen] [E1 E2 E3 E4 E5 E6 E7 E8 E9 E10] Hch Hdeaf. split.
  - intros t Ht. destruct (decide (t = s)) as [->|]; [done|]. assert (t = 1 - s)%nat as -> by lia.
    rewrite E9, E10. apply Hc. lia.
  - intros t Ht. rewrite E7. destruct (decide (t = s)) as [->|]; intros Hr.
    + unfold flight. rewrite E9, E10. by apply Hd.
    + assert (t = 1 - s)%nat as -> by lia. replace (1 - (1 - s))%nat with s by lia. by apply Hdeaf.
  - intros t Ht. rewrite E6, E7, E8. by apply Hg.
  - by rewrite E1, E6.
  - by rewrite E2.
Qed.

Lemma with_channel_rechanneled s q rights c : (s < 2)%nat → rechanneled c (with_channel s q rights c) s.
Proof. intros Hs. split; try done; by apply at_set_other. Qed.

Lemma advance_rechanneled s q rights c : (s < 2)%nat → rechanneled c (advance_connection (with_channel s q rights c)) s.
Proof. intros Hs. split; try done; by apply at_set_other. Qed.

(** The result of a receive on the stream in flight, and how many items it
    takes off. *)
Definition receive_spec (c : ConnectionSlot) (s room : nat) (peek : bool) (rights_room : nat) :
    Result (list Z * list ObjectKey * nat) SocketError :=
  let items := flight c (1 - s) in
  if negb (at_side (read_open c) s) then Ok ([], [], O)
  else if (room =? 0)%nat then Ok ([], [], O)
  else if bool_decide (items = []) then
    if at_side (write_open c) (1 - s) then Err WouldBlock else Ok ([], [], O)
  else if peek then Ok ((take room items).*1, [], O)
  else
    let n := chunk room false items in
    let tokens := (take n items).*2 ≫= id in
    if (rights_room <? length tokens)%nat then Err Capacity else Ok ((take n items).*1, tokens, n).

Lemma chunk_min room seen l : chunk (room `min` length l)%nat seen l = chunk room seen l.
Proof.
  revert room seen. induction l as [|[b tokens] l IH]; intros [|room] seen; try done. cbn [chunk length Nat.min].
  destruct (seen && _); [done|]. by rewrite IH.
Qed.

Lemma take_min {A} n (l : list A) : take (n `min` length l) l = take n l.
Proof. destruct (decide (n ≤ length l)%nat); [f_equal; lia|]. rewrite !take_ge by lia. done. Qed.

Definition peeks (flags : Z) : bool := negb (Z.land flags MSG_PEEK =? 0).

(** What a receive does to the connection it is located on. *)
Record takes (c c' : ConnectionSlot) (s n : nat) : Prop := {
  tk_rest : rechanneled c c' s;
  tk_wf : channel_wf (at_side (outgoing c') s) (at_side (outgoing_rights c') s);
  tk_flight : flight c' s = drop n (flight c s);
  tk_total : total c' s = total c s;
}.

Section Receive.
Context (r : SocketRegistry) (own : ProcessHandle) (handle : Z) (i s : nat) (c : ConnectionSlot).
Hypothesis Hloc : locate r own handle = Ok (i, s).
Hypothesis Hc : connection_at r i = c.
Hypothesis Hw : connection_wf c.
Hypothesis Hs : (s < 2)%nat.

Lemma receive_start room flags rights_room :
  and_not flags RECEIVE_FLAGS = 0 →
  receive_message own handle room flags rights_room r =
    let q := at_side (outgoing c) (1 - s) in
    let rights := at_side (outgoing_rights c) (1 - s) in
    if negb (at_side (read_open c) s) then (Ok ([], []), r)
    else if (room =? 0)%nat then (Ok ([], []), r)
    else if (q_length q =? 0)%nat then (if at_side (write_open c) (1 - s) then Err WouldBlock else Ok ([], []), r)
    else
      match plan q rights (room `min` q_length q) (peeks flags) rights_room with
      | Err e => (Err e, r)
      | Ok (copied, deliver) =>
          if peeks flags then (Ok (ring_view 0 SOCKET_BUFFER_BYTES (q_bytes q) (q_head q) copied, []), r)
          else
            let '(data, hd) := ring_drain 0 SOCKET_BUFFER_BYTES (q_bytes q) (q_head q) copied in
            match checked_add U64_MAX (q_sequence q) (Z.of_nat copied) with
            | None =>
                (Err Capacity, set_connection i
                  (with_channel (1 - s) (mkQueue hd (q_length q - copied) (q_sequence q) (q_bytes q)) rights c) r)
            | Some sequence =>
                let '(tokens, rights) := if deliver then pop rights_room rights else ([], rights) in
                (Ok (data, tokens), set_connection i
                  (advance_connection (with_channel (1 - s) (mkQueue hd (q_length q - copied) sequence (q_bytes q)) rights c)) r)
            end
      end.
Proof.
  intros Hf. unfold receive_message. rewrite <- Hc.
  match goal with |- (ensure ?b ?e;; ?m) r = _ => assert ((ensure b e;; m) r = m r) as -> end.
  { m_unfold. by rewrite Hf. }
  rewrite located, Hloc. m_unfold. rewrite Hc. cbv zeta. fold (peeks flags).
  destruct (negb _); [done|]. destruct (room =? 0)%nat; [done|]. destruct (_ =? 0)%nat; [by destruct (at_side (write_open c) (1 - s))|].
  destruct (plan _ _ _ _ _) as [[copied deliver]|e]; [|done]. destruct (peeks flags); [done|].
  destruct (ring_drain _ _ _ _ _) as [data hd]. destruct (checked_add _ _ _); [|done].
  by destruct (if deliver then _ else _) as [tokens rights].
Qed.

Lemma flight_head n : (n ≤ q_length (at_side (outgoing c) (1 - s)))%nat →
  ring_view 0 SOCKET_BUFFER_BYTES (q_bytes (at_side (outgoing c) (1 - s))) (q_head (at_side (outgoing c) (1 - s))) n
  = (take n (flight c (1 - s))).*1.
Proof.
  intros Hn. unfold flight, stream. rewrite fmap_take, annotate_bytes. unfold contents.
  rewrite (ring_view_split _ _ _ n Hn), take_app_length'; [done|]. symmetry. apply ring_view_length.
Qed.

(** A receive is what [receive_spec] says of the stream in flight. *)
Lemma receive_run room flags rights_room :
  and_not flags RECEIVE_FLAGS = 0 → total c (1 - s) ≤ U64_MAX →
  match receive_spec c s room (peeks flags) rights_room with
  | Err e => receive_message own handle room flags rights_room r = (Err e, r)
  | Ok (data, tokens, n) =>
      if (n =? 0)%nat then receive_message own handle room flags rights_room r = (Ok (data, tokens), r)
      else ∃ c', receive_message own handle room flags rights_room r = (Ok (data, tokens), set_connection i c' r) ∧
             takes c c' (1 - s) n
  end.
Proof.
  intros Hf Hmax. rewrite receive_start by done. unfold receive_spec. cbv zeta.
  pose proof (kw_channel _ Hw (1 - s) ltac:(lia)) as Hch. pose proof (flight_nil c (1 - s) Hch) as Hnil.
  set (q := at_side (outgoing c) (1 - s)) in *. set (rights := at_side (outgoing_rights c) (1 - s)) in *.
  destruct (negb _); [done|]. destruct (Nat.eqb_spec room 0) as [|Hroom]; [done|].
  destruct (Nat.eqb_spec (q_length q) 0) as [H0|Hn0].
  { rewrite bool_decide_true by by apply Hnil. by destruct (at_side (write_open c) (1 - s)). }
  rewrite bool_decide_false by by rewrite Hnil.
  assert (length (flight c (1 - s)) = q_length q) as Hlen by apply stream_length.
  destruct (plan_spec q rights (room `min` q_length q) rights_room Hch Hmax ltac:(lia)) as (Hpeek & Hn & l1 & l2 & Hplan).
  change (stream q rights) with (flight c (1 - s)) in Hn, Hplan. rewrite <- Hlen, chunk_min, Hlen in Hn, Hplan.
  destruct (peeks flags).
  { rewrite Hpeek, flight_head by (fold q; lia). by rewrite <- Hlen, take_min. }
  set (n := chunk room false (flight c (1 - s))) in *. destruct Hplan as (_ & _ & _ & _ & Hplan & _). rewrite Hplan.
  set (tokens := (take n (flight c (1 - s))).*2 ≫= id) in *. destruct (rights_room <? length tokens)%nat; [done|].
  destruct (plan_taken q rights (room `min` q_length q)%nat rights_room _ _ Hch ltac:(lia) Hplan) as (_ & m1 & m2 & rights' & Hv & H1 & H2 & Hpop & Hr' & Hvr).
  destruct (Nat.eqb_spec n 0); [lia|]. rewrite ring_drain_spec by apply Hch. rewrite Hpop.
  assert (tokens = all_tokens m1) as -> by (apply (stream_tokens q rights n m1 m2); done || lia).
  assert (checked_add U64_MAX (q_sequence q) (Z.of_nat n) = Some (q_sequence q + Z.of_nat n)) as ->.
  { unfold total in Hmax. fold q in Hmax. apply checked_add_Some. split; [done|lia]. }
  rewrite flight_head by (fold q; lia). eexists. split; [done|].
  destruct (channel_take q rights n m1 m2 rights' ((q_head q + n) mod SOCKET_BUFFER_BYTES)%nat (q_sequence q + Z.of_nat n))
    as [Hch' Hst]; try done; [lia| |].
  { pose proof (cw_sequence _ _ Hch). unfold total in Hmax. fold q in Hmax. unfold is_u64 in *. lia. }
  split; [apply advance_rechanneled; lia|unfold flight, total..]; simpl; rewrite ?at_set_side; try done. simpl. fold q. lia.
Qed.

(** Whatever the counters, a receive keeps the connection well formed, and the
    transfers that leave it are those it returns. *)
Lemma receive_effect room flags rights_room :
  let '(x, r') := receive_message own handle room flags rights_room r in
  let tokens := match x with Ok (_, tokens) => tokens | Err _ => [] end in
  r' = r ∧ tokens = [] ∨
  ∃ c', r' = set_connection i c' r ∧ rechanneled c c' (1 - s) ∧ connection_wf c' ∧
    flight_tokens c (1 - s) = tokens ++ flight_tokens c' (1 - s).
Proof.
  destruct (decide (and_not flags RECEIVE_FLAGS = 0)) as [Hf|Hf].
  2: { unfold receive_message. m_unfold. apply Z.eqb_neq in Hf as ->. by left. }
  rewrite receive_start by done. cbv zeta.
  pose proof (kw_channel _ Hw (1 - s) ltac:(lia)) as Hch. pose proof (flight_nil c (1 - s) Hch) as Hnil.
  destruct (at_side (read_open c) s) eqn:Hro; cbn [negb]; [|by left].
  set (q := at_side (outgoing c) (1 - s)) in *. set (rights := at_side (outgoing_rights c) (1 - s)) in *.
  destruct (Nat.eqb_spec room 0) as [|Hroom]; [by left|].
  destruct (Nat.eqb_spec (q_length q) 0) as [H0|Hn0]; [by destruct (at_side (write_open c) (1 - s)); left|].
  destruct (plan q rights _ _ _) as [[n deliver]|e] eqn:Hplan; [|by left].
  destruct (peeks flags) eqn:Hpk; [by left|].
  destruct (plan_taken q rights (room `min` q_length q)%nat rights_room _ _ Hch ltac:(lia) Hplan) as (Hn & m1 & m2 & rights' & Hv & H1 & H2 & Hpop & Hr' & Hvr).
  rewrite ring_drain_spec by apply Hch. destruct (checked_add _ _ _) as [sq|] eqn:Hsq.
  - rewrite Hpop. right. eexists. split; [done|]. apply checked_add_Some in Hsq as [-> Hsq].
    destruct (channel_take q rights n m1 m2 rights' ((q_head q + n) mod SOCKET_BUFFER_BYTES)%nat (q_sequence q + Z.of_nat n))
      as [Hch' Hst]; try done; [lia| |].
    { pose proof (cw_sequence _ _ Hch). unfold is_u64 in *. lia. }
    split_and!; [by apply advance_rechanneled; lia| |].
    + eapply (rechanneled_wf c _ (1 - s)); [lia|done|by apply advance_rechanneled; lia| |].
      * simpl. by rewrite !at_set_side.
      * replace (1 - (1 - s))%nat with s by lia. congruence.
    + unfold flight_tokens. simpl. rewrite at_set_side. fold rights. rewrite Hv, Hvr. apply bind_app.
  - assert (rights_view rights = []) as Hnr.
    { destruct (decide (rights_view rights = [])) as [|Hne]; [done|]. exfalso. unfold plan in Hplan.
      rewrite record_at_view in Hplan. destruct (rights_view rights) as [|x l]; [done|]. cbn [lookup list_lookup] in Hplan.
      unfold checked_add in Hsq, Hplan. destruct (Z.leb_spec (q_sequence q + Z.of_nat n) U64_MAX); [done|].
      destruct (Z.leb_spec (q_sequence q + Z.of_nat (room `min` q_length q)) U64_MAX); [lia|done]. }
    right. eexists. split; [done|]. split_and!; [by apply with_channel_rechanneled; lia| |].
    + eapply (rechanneled_wf c _ (1 - s)); [lia|done|by apply with_channel_rechanneled; lia| |].
      * simpl. rewrite !at_set_side. destruct Hch as [Hh Hl Hb Hsq' Hr Hp].
        split; simpl; [apply Nat.mod_upper_bound; lia|lia|done|done|done|by rewrite Hnr].
      * replace (1 - (1 - s))%nat with s by lia. congruence.
    + unfold flight_tokens. simpl. rewrite at_set_side. fold rights. by rewrite Hnr.
Qed.
End Receive.

(** A set of transfers a direction can take. *)
Definition sendable (items : list Item) (rights : list ObjectKey) : bool :=
  (length rights <=? MAXIMUM_TRANSFER_DESCRIPTORS)%nat && (marks items <? MAXIMUM_RIGHTS_RECORDS)%nat
  && negb (existsb key_is_empty rights).

(** The result of a send, from the stream in flight. *)
Definition send_spec (c : ConnectionSlot) (s : nat) (input : list Z) (rights : list ObjectKey) : Result nat SocketError :=
  let items := flight c s in
  if negb (at_side (write_open c) s && at_side (read_open c) (1 - s)) then Err BrokenPipe
  else if (length input =? 0)%nat then if (length rights =? 0)%nat then Ok O else Err InvalidArgument
  else if (length items =? SOCKET_BUFFER_BYTES)%nat then Err WouldBlock
  else if U64_MAX <? total c s then Err Capacity
  else if negb (length rights =? 0)%nat && negb (sendable items rights) then Err Capacity
  else Ok (length input `min` (SOCKET_BUFFER_BYTES - length items))%nat.

(** What a send of [data] does to the connection. *)
Record gives (c c' : ConnectionSlot) (s : nat) (data : list Z) (rights : list ObjectKey) : Prop := {
  gv_rest : rechanneled c c' s;
  gv_wf : channel_wf (at_side (outgoing c') s) (at_side (outgoing_rights c') s);
  gv_flight : flight c' s = flight c s ++ message data rights;
  gv_total : total c' s = total c s + Z.of_nat (length data);
}.

Section Send.
Context (r : SocketRegistry) (own : ProcessHandle) (handle : Z) (i s : nat) (c : ConnectionSlot).
Hypothesis Hloc : locate r own handle = Ok (i, s).
Hypothesis Hc : connection_at r i = c.
Hypothesis Hw : connection_wf c.
Hypothesis Hs : (s < 2)%nat.

Lemma push_sendable t rights :
  (0 < length rights)%nat →
  (∃ q, push t rights (at_side (outgoing_rights c) s) = Some q) ↔ sendable (flight c s) rights = true.
Proof.
  intros Hpos. pose proof (stream_marks _ _ (kw_channel _ Hw s Hs)) as Hm. fold (flight c s) in Hm.
  unfold push, sendable. rewrite Hm. destruct (Nat.eqb_spec (length rights) 0); [lia|].
  destruct (Nat.ltb_spec MAXIMUM_TRANSFER_DESCRIPTORS (length rights)), (Nat.leb_spec (length rights) MAXIMUM_TRANSFER_DESCRIPTORS);
    try lia; [split; [by intros []|done]|].
  destruct (Nat.leb_spec MAXIMUM_RIGHTS_RECORDS (rq_length (at_side (outgoing_rights c) s))),
    (Nat.ltb_spec (rq_length (at_side (outgoing_rights c) s)) MAXIMUM_RIGHTS_RECORDS); try lia; [split; [by intros []|done]|].
  destruct (existsb key_is_empty rights); cbn; [split; [by intros []|done]|]. split; [done|by eexists].
Qed.

(** A send is what [send_spec] says of the stream in flight. *)
Lemma send_run input flags rights :
  and_not flags SEND_FLAGS = 0 →
  match send_spec c s input rights with
  | Err e => send_message own handle input flags rights r = (Err e, r)
  | Ok O => send_message own handle input flags rights r = (Ok O, r) ∧ input = [] ∧ rights = []
  | Ok n => ∃ c', send_message own handle input flags rights r = (Ok n, set_connection i c' r) ∧
              gives c c' s (take n input) rights ∧ at_side (read_open c) (1 - s) = true
  end.
Proof.
  intros Hf. unfold send_message.
  match goal with |- context [(ensure ?b ?e;; ?m) r] => assert ((ensure b e;; m) r = m r) as -> end.
  { m_unfold. by rewrite Hf. }
  rewrite located, Hloc. m_unfold. rewrite Hc. unfold send_spec. cbv zeta.
  pose proof (kw_channel _ Hw s Hs) as Hch. pose proof (stream_length (at_side (outgoing c) s) (at_side (outgoing_rights c) s)) as Hlen.
  fold (flight c s) in Hlen. rewrite Hlen. pose proof (push_sendable (total c s) rights) as Hps.
  set (q := at_side (outgoing c) s) in *. set (rq := at_side (outgoing_rights c) s) in *.
  destruct (at_side (write_open c) s && at_side (read_open c) (1 - s)) eqn:Hopen; cbn [negb]; [|done].
  apply andb_true_iff in Hopen as [_ Hro].
  destruct (Nat.eqb_spec (length input) 0) as [Hi0|Hi0].
  { destruct (Nat.eqb_spec (length rights) 0) as [Hr0|]; [|done].
    by apply nil_length_inv in Hi0 as ->; apply nil_length_inv in Hr0 as ->. }
  pose proof (cw_length _ _ Hch) as Hle.
  destruct (Nat.eqb_spec (SOCKET_BUFFER_BYTES - q_length q) 0) as [Hfull|Hroom]; cbn [negb].
  { destruct (Nat.eqb_spec (q_length q) SOCKET_BUFFER_BYTES); [done|lia]. }
  destruct (Nat.eqb_spec (q_length q) SOCKET_BUFFER_BYTES); [lia|].
  assert (tail_sequence q = if total c s <=? U64_MAX then Some (total c s) else None) as Htail by done.
  destruct (Z.leb_spec (total c s) U64_MAX) as [Hmax|Hmax], (Z.ltb_spec U64_MAX (total c s)); try lia; rewrite Htail; [|done].
  destruct (length input `min` (SOCKET_BUFFER_BYTES - q_length q))%nat as [|n'] eqn:En; [lia|].
  assert (length (take (S n') input) = S n') as Hn by (rewrite length_take; lia).
  destruct (ring_fill _ _ _ _ _) as [ring m] eqn:Hfill.
  assert (∀ pushed, (if (length rights =? 0)%nat then pushed = rq else push (total c s) rights rq = Some pushed) →
    gives c (advance_connection (with_channel s (mkQueue (q_head q) m (q_sequence q) ring) pushed c)) s (take (S n') input) rights) as Hgive.
  { intros pushed Hpush. destruct (channel_send q rq (take (S n') input) rights pushed (total c s) ring m) as (Hch' & Hst & Hm);
      try done; [lia|lia|]. split; [by apply advance_rechanneled|unfold flight, total..]; simpl; rewrite ?at_set_side; try done.
    simpl. rewrite Hm. fold q. simpl in Hn. rewrite Hn. lia. }
  destruct (Nat.eqb_spec (length rights) 0) as [Hr0|Hr0]; cbn [negb andb].
  { eexists. split; [done|]. split; [|done]. by apply Hgive. }
  destruct (push (total c s) rights rq) as [pushed|] eqn:Hpush.
  - destruct (sendable (flight c s) rights) eqn:Hsd; [|by assert (false = true) by (apply Hps; [lia|eauto])].
    eexists. split; [done|]. split; [|done]. by apply Hgive.
  - destruct (sendable (flight c s) rights) eqn:Hsd; [|done]. destruct Hps as [_ Hps]; [lia|]. by destruct (Hps eq_refl).
Qed.
End Send.

(** ** Shutting down and closing *)

Definition ROOM : nat := MAXIMUM_RIGHTS_RECORDS * MAXIMUM_TRANSFER_DESCRIPTORS.

(** [c'] is [c] with some directions closed. *)
Record narrowed (c c' : ConnectionSlot) : Prop := {
  na_occupied : c_occupied c' = c_occupied c;
  na_generation : c_generation c' = c_generation c;
  na_handles : endpoint_handles c' = endpoint_handles c;
  na_owners : owners c' = owners c;
  na_addresses : addresses c' = addresses c;
}.

Lemma discard_effect room s c :
  (s < 2)%nat → (ROOM ≤ room)%nat →
  channel_wf (at_side (outgoing c) (1 - s)) (at_side (outgoing_rights c) (1 - s)) →
  ∃ c', discard_incoming room s c = (flight_tokens c (1 - s), c') ∧ rechanneled c c' (1 - s) ∧
    channel_wf (at_side (outgoing c') (1 - s)) (at_side (outgoing_rights c') (1 - s)) ∧
    flight c' (1 - s) = [] ∧ flight_tokens c' (1 - s) = [].
Proof.
  intros Hs Hroom Hch. pose proof (flight_tokens_bound c (1 - s) Hch) as Hb. fold ROOM in Hb.
  destruct (channel_discard room _ _ Hch) as (rights' & Hd & Hch' & Hst & Hv).
  { etrans; [exact Hb|exact Hroom]. }
  unfold discard_incoming. rewrite Hd. eexists. split; [done|].
  unfold flight, flight_tokens. cbn [with_channel outgoing outgoing_rights]. rewrite !at_set_side, Hv.
  split_and!; [apply with_channel_rechanneled; lia|done..].
Qed.

(** The state of a connection after [shutdown(how)] on side [s]. *)
Record shut (c c' : ConnectionSlot) (s : nat) (how : Z) : Prop := {
  sh_rest : narrowed c c';
  sh_endpoint : endpoint_open c' = endpoint_open c;
  sh_read : read_open c' = if how =? SHUT_WR then read_open c else set_side s false (read_open c);
  sh_write : write_open c' = if how =? SHUT_RD then write_open c else set_side s false (write_open c);
  sh_outgoing : at_side (outgoing c') s = at_side (outgoing c) s;
  sh_rights : at_side (outgoing_rights c') s = at_side (outgoing_rights c) s;
  sh_channel : channel_wf (at_side (outgoing c') (1 - s)) (at_side (outgoing_rights c') (1 - s));
  sh_incoming : if how =? SHUT_WR then
      at_side (outgoing c') (1 - s) = at_side (outgoing c) (1 - s) ∧
      at_side (outgoing_rights c') (1 - s) = at_side (outgoing_rights c) (1 - s)
    else flight c' (1 - s) = [] ∧ flight_tokens c' (1 - s) = [];
}.

Lemma shut_wf c c' s how : (s < 2)%nat → connection_wf c → shut c c' s how → connection_wf c'.
Proof.
  intros Hs [Hc Hd Hg Ho Hgen] [[E1 E2 _ _ _] E6 E7 E8 E9 E10 Hch Hin]. split.
  - intros t Ht. destruct (decide (t = s)) as [->|]; [rewrite E9, E10; by apply Hc|]. by assert (t = 1 - s)%nat as -> by lia.
  - intros t Ht Hr. destruct (decide (t = s)) as [->|Hne].
    + rewrite E7 in Hr. destruct (how =? SHUT_WR); [|apply Hin]. unfold flight. destruct Hin as [-> ->]. by apply Hd.
    + assert (t = 1 - s)%nat as -> by lia. replace (1 - (1 - s))%nat with s by lia. unfold flight. rewrite E9, E10.
      replace s with (1 - (1 - s))%nat by lia. apply Hd; [lia|]. rewrite E7 in Hr.
      destruct (how =? SHUT_WR); [done|]. by rewrite at_set_other in Hr.
  - intros t Ht He. rewrite E6 in He. destruct (Hg t Ht He) as [Hr Hwr]. rewrite E7, E8.
    destruct (how =? SHUT_WR), (how =? SHUT_RD); split; try done; rewrite set_side_cases by done; by case_decide.
  - by rewrite E1, E6.
  - by rewrite E2.
Qed.

Lemma shutdown_effect r own handle i s c how :
  locate r own handle = Ok (i, s) → connection_at r i = c → connection_wf c → (s < 2)%nat → 0 ≤ how ≤ SHUT_RDWR →
  ∃ c', shutdown_locked own handle how r =
          (Ok (if how =? SHUT_WR then [] else flight_tokens c (1 - s)), set_connection i c' r) ∧ shut c c' s how.
Proof.
  intros Hloc Hc Hw Hs Hhow. unfold shutdown_locked.
  match goal with |- context [(ensure ?b ?e;; ?m) r] => assert ((ensure b e;; m) r = m r) as -> end.
  { m_unfold. by destruct (Z.ltb_spec SHUT_RDWR how); [lia|]. }
  rewrite located, Hloc. m_unfold. rewrite Hc. clear Hloc Hc.
  pose proof (kw_channel _ Hw (1 - s) ltac:(lia)) as Hch.
  destruct (discard_effect ROOM s (close_read s c) Hs (le_n _) Hch) as (c1 & Hd & [] & Hch1 & Hf & Ht).
  fold ROOM. rewrite Hd. change (flight_tokens (close_read s c) (1 - s)) with (flight_tokens c (1 - s)).
  replace (1 - (1 - s))%nat with s in * by lia.
  assert (how = SHUT_RD ∨ how = SHUT_WR ∨ how = SHUT_RDWR) as [->|[->| ->]] by (unfold SHUT_RD, SHUT_WR, SHUT_RDWR in *; lia);
    cbn [Z.eqb orb SHUT_RD SHUT_WR SHUT_RDWR Pos.eqb]; eexists; (split; [done|]).
  - split; cbn; try done.
  - split; cbn; try done.
  - split; cbn; try done. by rewrite rc_write0.
Qed.

(** The state of a connection that side [s] has left, its peer still there. *)
Record left_by (c c' : ConnectionSlot) (s : nat) : Prop := {
  lv_rest : narrowed c c';
  lv_endpoint : endpoint_open c' = set_side s false (endpoint_open c);
  lv_read : read_open c' = set_side s false (read_open c);
  lv_write : write_open c' = set_side s false (write_open c);
  lv_outgoing : at_side (outgoing c') s = at_side (outgoing c) s;
  lv_rights : at_side (outgoing_rights c') s = at_side (outgoing_rights c) s;
  lv_channel : channel_wf (at_side (outgoing c') (1 - s)) (at_side (outgoing_rights c') (1 - s));
  lv_incoming : flight c' (1 - s) = [];
  lv_tokens : flight_tokens c' (1 - s) = [];
}.

(** A connection both sides have left. *)
Record vacated (c c' : ConnectionSlot) : Prop := {
  va_occupied : c_occupied c' = false;
  va_generation : c_generation c' = c_generation c;
  va_tokens : ∀ s, (s < 2)%nat → flight_tokens c' s = [];
}.

Lemma left_by_wf c c' s :
  (s < 2)%nat → connection_wf c → at_side (endpoint_open c) (1 - s) = true → c_occupied c = true →
  left_by c c' s → connection_wf c'.
Proof.
  intros Hs [Hc Hd Hg Ho Hgen] Hpeer Hocc [[E1 E2 _ _ _] E6 E7 E8 E9 E10 Hch Hin _]. split.
  - intros t Ht. destruct (decide (t = s)) as [->|]; [rewrite E9, E10; by apply Hc|]. by assert (t = 1 - s)%nat as -> by lia.
  - intros t Ht Hr. destruct (decide (t = s)) as [->|Hne]; [done|].
    assert (t = 1 - s)%nat as -> by lia. replace (1 - (1 - s))%nat with s by lia. unfold flight. rewrite E9, E10.
    replace s with (1 - (1 - s))%nat by lia. apply Hd; [lia|]. by rewrite E7, at_set_other in Hr.
  - intros t Ht He. rewrite E6 in He. rewrite E7, E8. rewrite set_side_cases in He |- * by done.
    rewrite set_side_cases by done. case_decide; [done|]. by apply Hg.
  - rewrite E1, E6, Hocc. destruct s as [|[|s]]; [|simpl in *; by rewrite Hpeer|lia]. simpl in *. by rewrite Hpeer.
  - by rewrite E2.
Qed.

Lemma reset_connection_wf c :
  is_u32 (c_generation c) → length (records (outgoing_rights c).1) = MAXIMUM_RIGHTS_RECORDS →
  length (records (outgoing_rights c).2) = MAXIMUM_RIGHTS_RECORDS →
  connection_wf (reset_preserving_generation c) ∧ vacated c (reset_preserving_generation c).
Proof.
  intros Hg H1 H2. destruct (channel_reset _ H1) as [Hw1 Hv1]. destruct (channel_reset _ H2) as [Hw2 Hv2]. split; split; try done.
  - intros [|[|s]] Hs; [done|done|lia].
  - intros [|[|s]] Hs _; [by unfold flight, stream|by unfold flight, stream|lia].
  - intros [|[|s]] Hs; [done|done|lia].
Qed.

Lemma drain_empty room q : rights_wf q → rights_view q = [] →
  ∃ q', drain room q = ([], q') ∧ length (records q') = MAXIMUM_RIGHTS_RECORDS.
Proof.
  intros Hw Hv. destruct (drain_spec room q Hw) as (q' & Hd & [_ _ Hr _] & _); rewrite Hv in *; [unfold all_tokens; simpl; lia|].
  by exists q'.
Qed.

Lemma flight_view_nil c s : channel_wf (at_side (outgoing c) s) (at_side (outgoing_rights c) s) →
  flight c s = [] → rights_view (at_side (outgoing_rights c) s) = [].
Proof.
  intros Hw Hf. pose proof (stream_marks _ _ Hw) as Hm. fold (flight c s) in Hm. rewrite Hf in Hm.
  apply nil_length_inv. by rewrite rights_view_length.
Qed.

Lemma leave_effect room s c :
  connection_wf c → c_occupied c = true → (s < 2)%nat → (ROOM ≤ room)%nat →
  ∃ c', leave room s c = (flight_tokens c (1 - s), c') ∧ connection_wf c' ∧
    if at_side (endpoint_open c) (1 - s) then left_by c c' s
    else vacated c c' ∧ flight_tokens c s = [].
Proof.
  intros Hw Hocc Hs Hroom. set (c0 := close_write s (close_read s (close_endpoint s c))).
  pose proof (kw_channel _ Hw (1 - s) ltac:(lia)) as Hch.
  destruct (discard_effect room s c0 Hs Hroom Hch) as (c1 & Hd & Hrc & Hch1 & Hf & Ht).
  change (flight_tokens c0 (1 - s)) with (flight_tokens c (1 - s)) in Hd.
  unfold leave. fold c0. rewrite Hd. cbn [advance_connection endpoint_open].
  pose proof Hrc as [R1 R2 R3 R4 R5 R6 R7 R8 R9 R10]. replace (1 - (1 - s))%nat with s in R9, R10 by lia.
  assert (endpoint_open c1 = set_side s false (endpoint_open c)) as He by done.
  assert (left_by c (advance_connection c1) s) as Hleft by (split; try done; by split).
  assert (negb (endpoint_open c1).1 && negb (endpoint_open c1).2 = negb (at_side (endpoint_open c) (1 - s))) as ->.
  { rewrite He. destruct s as [|[|s]]; simpl; [done|by rewrite andb_true_r|lia]. }
  destruct (at_side (endpoint_open c) (1 - s)) eqn:Hpeer; cbn [negb].
  { eexists. split; [done|]. split; [by eapply left_by_wf|done]. }
  destruct (kw_gone _ Hw (1 - s) ltac:(lia) Hpeer) as [Hdeaf _].
  assert (flight c s = []) as Hfs. { replace s with (1 - (1 - s))%nat by lia. apply (kw_deaf _ Hw); [lia|done]. }
  pose proof (kw_channel _ Hw s Hs) as Hchs. pose proof (flight_view_nil c s Hchs Hfs) as Hvs.
  pose proof (flight_view_nil c1 (1 - s) Hch1 Hf) as Hv1.
  assert (∀ t, (t < 2)%nat → rights_wf (at_side (outgoing_rights c1) t) ∧ rights_view (at_side (outgoing_rights c1) t) = []) as Hboth.
  { intros t Ht2. destruct (decide (t = s)) as [->|]; [rewrite R10; split; [apply Hchs|done]|].
    assert (t = 1 - s)%nat as -> by lia. split; [apply Hch1|done]. }
  destruct (Hboth O) as [Hw0 Hv0]; [lia|]. destruct (Hboth 1%nat) as [Hw1 Hvv1]; [lia|]. cbn [at_side] in Hw0, Hv0, Hw1, Hvv1.
  unfold retire_connection. cbn [advance_connection outgoing_rights c_occupied c_generation].
  destruct (drain_empty (room - length (flight_tokens c (1 - s))) _ Hw0 Hv0) as (q1 & -> & Hq1).
  destruct (drain_empty (room - length (flight_tokens c (1 - s)) - length (@nil ObjectKey)) _ Hw1 Hvv1) as (q2 & -> & Hq2).
  rewrite !app_nil_r. eexists. split; [done|]. set (c2 := mkConnection _ _ _ _ _ _ _ _ _ _ _).
  destruct (reset_connection_wf c2) as [Hwc Hva]; [unfold c2; simpl; rewrite R2; apply Hw|done|done|].
  split; [done|]. split; [|by apply flight_tokens_nil]. destruct Hva as [Va1 Va2 Va3]. by split.
Qed.

(** ** The registry invariant *)

Definition MAXIMUM_GENERATION : Z := Z.shiftr U32_MAX ENDPOINT_INDEX_BITS.

Record endpoint_wf (e : EndpointSlot) : Prop := {
  ew_generation : 0 ≤ ep_generation e ≤ MAXIMUM_GENERATION;
  ew_live : occupied e = true → 1 ≤ ep_generation e;
  ew_head : (pending_head e < MAXIMUM_LISTEN_BACKLOG)%nat;
  ew_length : (pending_length e ≤ MAXIMUM_LISTEN_BACKLOG)%nat;
  ew_pending : length (pending e) = MAXIMUM_LISTEN_BACKLOG;
  ew_backlog : (backlog e ≤ MAXIMUM_LISTEN_BACKLOG)%nat;
}.

(** The endpoint is a live end of a connection. *)
Definition joined (e : EndpointSlot) : bool := occupied e && state_eqb (state e) Connected.

(** Endpoint [k] is side [side e] of the connection [c]. *)
Record linked (k : nat) (e : EndpointSlot) (c : ConnectionSlot) : Prop := {
  lk_occupied : c_occupied c = true;
  lk_generation : c_generation c = connection_generation e;
  lk_side : (side e < 2)%nat;
  lk_handle : encode_endpoint k (ep_generation e) = Some (at_side (endpoint_handles c) (side e));
  lk_owner : at_side (owners c) (side e) = ep_owner e;
  lk_open : at_side (endpoint_open c) (side e) = true;
  lk_positive : 1 ≤ ep_generation e;
}.

Record registry_wf (r : SocketRegistry) : Prop := {
  rw_endpoints : length (endpoints r) = MAXIMUM_ENDPOINTS;
  rw_connections : length (connections r) = MAXIMUM_CONNECTIONS;
  rw_connection : ∀ i c, connections r !! i = Some c → connection_wf c;
  rw_endpoint : ∀ k e, endpoints r !! k = Some e → endpoint_wf e;
  rw_link : ∀ k e, endpoints r !! k = Some e → joined e = true →
    ∃ c, connections r !! connection_index e = Some c ∧ linked k e c;
  rw_back : ∀ i c s, connections r !! i = Some c → (s < 2)%nat → at_side (endpoint_open c) s = true →
    ∃ k e, endpoints r !! k = Some e ∧ joined e = true ∧ connection_index e = i ∧ side e = s;
}.

Lemma encode_endpoint_inj i1 g1 i2 g2 h :
  0 ≤ g1 → 0 ≤ g2 → encode_endpoint i1 g1 = Some h → encode_endpoint i2 g2 = Some h → i1 = i2 ∧ g1 = g2.
Proof. apply (encode_handle_inj ENDPOINT_INDEX_BITS MAXIMUM_ENDPOINTS); unfold ENDPOINT_INDEX_BITS, MAXIMUM_ENDPOINTS; lia. Qed.

Lemma decode_encode_endpoint i g h : 0 ≤ g → encode_endpoint i g = Some h → decode_endpoint h = Some (i, g).
Proof. apply (decode_encode_handle ENDPOINT_INDEX_BITS MAXIMUM_ENDPOINTS); unfold ENDPOINT_INDEX_BITS, MAXIMUM_ENDPOINTS; lia. Qed.

(** No two endpoints are the same side of a connection. *)
Lemma linked_inj k k' e e' c :
  linked k e c → linked k' e' c → side e = side e' → k = k'.
Proof.
  intros L L' Hs. pose proof (lk_handle _ _ _ L) as H1. pose proof (lk_handle _ _ _ L') as H2. rewrite <- Hs in H2.
  pose proof (lk_positive _ _ _ L). pose proof (lk_positive _ _ _ L').
  by destruct (encode_endpoint_inj k (ep_generation e) k' (ep_generation e') _ ltac:(lia) ltac:(lia) H1 H2).
Qed.

Lemma insert_lookup_Some {A} (l : list A) i j x y :
  <[i := x]> l !! j = Some y → j = i ∧ y = x ∨ j ≠ i ∧ l !! j = Some y.
Proof. intros [(<- & <- & _)|[Hne Hj]]%list_lookup_insert_Some; auto. Qed.

Section Updates.
Context (r : SocketRegistry).
Hypothesis Hw : registry_wf r.

(** An endpoint that is no end of a connection changes and stays so. *)
Lemma wf_set_endpoint k e e' :
  endpoints r !! k = Some e → joined e = false → endpoint_wf e' → joined e' = false → registry_wf (set_endpoint k e' r).
Proof.
  intros Hk Hj Hwe Hj'. destruct Hw as [Hle Hlc Hc He Hl Hb]. split; simpl; [by rewrite length_insert|done|done| | |].
  - intros k' x [[-> ->]|[_ Hx]]%insert_lookup_Some; eauto.
  - intros k' x [[-> ->]|[_ Hx]]%insert_lookup_Some Hjx; [congruence|eauto].
  - intros i c s Hi Hs Ho. destruct (Hb i c s Hi Hs Ho) as (k' & x & Hx & Hjx & Hi' & Hs'). exists k', x.
    split; [|done]. rewrite list_lookup_insert_ne; [done|]. intros ->. congruence.
Qed.

(** A connection keeps its ends. *)
Lemma wf_set_connection i c c' :
  connections r !! i = Some c → connection_wf c' → narrowed c c' → endpoint_open c' = endpoint_open c →
  registry_wf (set_connection i c' r).
Proof.
  intros Hi Hwc [E1 E2 E3 E4 _] E5. destruct Hw as [Hle Hlc Hc He Hl Hb]. split; simpl; [done|by rewrite length_insert| |done| |].
  - intros j x [[-> ->]|[_ Hx]]%insert_lookup_Some; eauto.
  - intros k e Hk Hj. destruct (Hl k e Hk Hj) as (x & Hx & L). destruct (decide (connection_index e = i)) as [Heq|Hne].
    + exists c'. rewrite Heq in *. rewrite list_lookup_insert_eq by by eapply lookup_lt_Some. split; [done|].
      assert (x = c) as -> by congruence. destruct L as [L1 L2 L3 L4 L5 L6 L7]. split; congruence.
    + exists x. by rewrite list_lookup_insert_ne.
  - intros j x s [[-> ->]|[_ Hx]]%insert_lookup_Some Hs Ho; [|eauto]. rewrite E5 in Ho. eauto.
Qed.

(** Two endpoints become the ends of a free connection. *)
Lemma wf_join r' i c c' k1 e1 e1' k2 e2 e2' :
  connections r !! i = Some c → c_occupied c = false → connection_wf c' →
  endpoint_open c' = (true, true) → endpoints r !! k1 = Some e1 → joined e1 = false →
  endpoints r !! k2 = Some e2 → joined e2 = false → k1 ≠ k2 →
  endpoint_wf e1' → endpoint_wf e2' → joined e1' = true → joined e2' = true →
  connection_index e1' = i → connection_index e2' = i → side e1' = 0%nat → side e2' = 1%nat →
  linked k1 e1' c' → linked k2 e2' c' →
  endpoints r' = <[k1 := e1']> (<[k2 := e2']> (endpoints r)) → connections r' = <[i := c']> (connections r) →
  registry_wf r'.
Proof.
  intros Hi Ho Hwc Hopen Hk1 Hj1 Hk2 Hj2 Hne Hw1 Hw2 Hj1' Hj2' Hi1 Hi2 Hs1 Hs2 L1 L2 He' Hc'.
  destruct Hw as [Hle Hlc Hc He Hl Hb]. pose proof (lookup_lt_Some _ _ _ Hi) as Hlt.
  assert (endpoints r' !! k1 = Some e1') as G1.
  { rewrite He'. apply list_lookup_insert_eq. rewrite length_insert. by eapply lookup_lt_Some. }
  assert (endpoints r' !! k2 = Some e2') as G2.
  { rewrite He', list_lookup_insert_ne by done. apply list_lookup_insert_eq. by eapply lookup_lt_Some. }
  assert (∀ k x, endpoints r' !! k = Some x → k = k1 ∧ x = e1' ∨ k = k2 ∧ x = e2' ∨ k ≠ k1 ∧ k ≠ k2 ∧ endpoints r !! k = Some x) as Hcase.
  { intros k x. rewrite He'. intros [[-> ->]|[? [[-> ->]|[? Hx]]%insert_lookup_Some]]%insert_lookup_Some; auto. }
  assert (connections r' !! i = Some c') as Gc by (rewrite Hc'; by apply list_lookup_insert_eq).
  split; [by rewrite He', !length_insert|by rewrite Hc', length_insert| | | |].
  - rewrite Hc'. intros j x [[-> ->]|[_ Hx]]%insert_lookup_Some; eauto.
  - intros k x [[-> ->]|[[-> ->]|(_ & _ & Hx)]]%Hcase; eauto.
  - intros k x [[-> ->]|[[-> ->]|(_ & _ & Hx)]]%Hcase Hj; [rewrite Hi1; eauto|rewrite Hi2; eauto|].
    destruct (Hl k x Hx Hj) as (y & Hy & L). exists y. split; [|done]. rewrite Hc', list_lookup_insert_ne; [done|].
    intros ->. destruct L. congruence.
  - rewrite Hc'. intros j x s [[-> ->]|[Hj Hx]]%insert_lookup_Some Hs Hos.
    + destruct s as [|[|s]]; [exists k1, e1'|exists k2, e2'|lia]; done.
    + destruct (Hb j x s Hx Hs Hos) as (k & e & Hk & Hje & Hik & Hsk). exists k, e. split; [|done].
      rewrite He', !list_lookup_insert_ne; [done| |]; intros ->; congruence.
Qed.
End Updates.

Lemma vacant_wf g : 0 ≤ g ≤ MAXIMUM_GENERATION → endpoint_wf (vacant_endpoint g).
Proof. intros Hg. split; cbn; try done; unfold MAXIMUM_LISTEN_BACKLOG; lia. Qed.

Lemma joined_inv e : joined e = true → occupied e = true ∧ state e = Connected.
Proof. unfold joined, state_eqb. intros [Ho Hs%bool_decide_eq_true]%andb_true_iff. done. Qed.

(** The connection after [leave], with its peer or without. *)
Definition departed (c c' : ConnectionSlot) (s : nat) : Prop :=
  if at_side (endpoint_open c) (1 - s) then left_by c c' s else vacated c c' ∧ flight_tokens c s = [].

Lemma departed_generation c c' s : departed c c' s → c_generation c' = c_generation c.
Proof. unfold departed. destruct (at_side _ _); [by intros [[]]|by intros [[] _]]. Qed.

Lemma departed_open c c' s t :
  (s < 2)%nat → (t < 2)%nat → connection_wf c' → departed c c' s →
  at_side (endpoint_open c') t = true →
  t ≠ s ∧ at_side (endpoint_open c) t = true ∧ c_occupied c' = c_occupied c ∧ endpoint_handles c' = endpoint_handles c ∧ owners c' = owners c.
Proof.
  intros Hs Ht Hw. unfold departed. destruct (at_side (endpoint_open c) (1 - s)) eqn:Hp.
  - intros [[] E _ _ _ _ _ _ _] Ho. rewrite E, set_side_cases in Ho by done. destruct (decide (t = s)); [done|].
    assert (t = 1 - s)%nat as -> by lia. done.
  - intros [[Ho _ _] _] Ht'. rewrite (kw_occupied _ Hw) in Ho. apply orb_false_iff in Ho as [H1 H2].
    destruct t as [|[|t]]; simpl in Ht'; [congruence|congruence|lia].
Qed.

Lemma wf_leave r k e c c' :
  registry_wf r → endpoints r !! k = Some e → joined e = true → connections r !! connection_index e = Some c →
  linked k e c → connection_wf c' → departed c c' (side e) →
  registry_wf (mkRegistry (<[k := retire_endpoint e]> (endpoints r)) (<[connection_index e := c']> (connections r))).
Proof.
  intros [Hle Hlc Hc He Hl Hb] Hk Hj Hi L Hwc Hd. pose proof (lk_side _ _ _ L) as Hs.
  pose proof (lookup_lt_Some _ _ _ Hi) as Hlt. split; simpl; [by rewrite length_insert..| | | |].
  - intros j x [[-> ->]|[_ Hx]]%insert_lookup_Some; eauto.
  - intros k' x [[-> ->]|[_ Hx]]%insert_lookup_Some; [apply vacant_wf, (He k e Hk)|eauto].
  - intros k' x [[-> ->]|[Hne Hx]]%insert_lookup_Some Hjx; [done|]. destruct (Hl k' x Hx Hjx) as (y & Hy & L').
    destruct (decide (connection_index x = connection_index e)) as [Heq|Hdiff].
    + exists c'. rewrite Heq in *. split; [by apply list_lookup_insert_eq|]. assert (y = c) as -> by congruence.
      assert (side x ≠ side e) as Hsx. { intros Hsx. apply Hne. by eapply linked_inj. }
      destruct L' as [L1 L2 L3 L4 L5 L6 L7]. pose proof (departed_generation c c' _ Hd) as Hg.
      unfold departed in Hd. assert (side x = 1 - side e)%nat as Hsx' by lia. rewrite Hsx' in *. rewrite L6 in Hd.
      destruct Hd as [[E1 E2 E3 E4 _] E5 _ _ _ _ _ _ _]. split; rewrite ?Hsx'; try congruence.
      rewrite E5. by rewrite at_set_other.
    + exists y. by rewrite list_lookup_insert_ne.
  - intros j x s [[-> ->]|[Hne Hx]]%insert_lookup_Some Hss Ho.
    + destruct (departed_open c c' (side e) s Hs Hss Hwc Hd Ho) as (Hse & Ho' & _).
      destruct (Hb _ c s Hi Hss Ho') as (k' & y & Hy & Hjy & Hiy & Hsy). exists k', y. split; [|done].
      rewrite list_lookup_insert_ne; [done|]. intros ->. congruence.
    + destruct (Hb j x s Hx Hss Ho) as (k' & y & Hy & Hjy & Hiy & Hsy). exists k', y. split; [|done].
      rewrite list_lookup_insert_ne; [done|]. intros ->. congruence.
Qed.

(** Closing an endpoint outside the accept queues. *)
Lemma close_connected_run r k e room :
  registry_wf r → endpoints r !! k = Some e → occupied e = true → (ROOM ≤ room)%nat →
  if state_eqb (state e) Connected then
    ∃ c c', connections r !! connection_index e = Some c ∧ linked k e c ∧ connection_wf c' ∧ departed c c' (side e) ∧
      close_connected_endpoint k room r =
        (flight_tokens c (1 - side e),
         mkRegistry (<[k := retire_endpoint e]> (endpoints r)) (<[connection_index e := c']> (connections r)))
  else close_connected_endpoint k room r = ([], set_endpoint k (retire_endpoint e) r).
Proof.
  intros Hw Hk Ho Hroom. unfold close_connected_endpoint.
  assert (∀ r0, endpoints r0 = endpoints r → endpoint_at r0 k = e) as Hat.
  { intros r0 Hr0. unfold endpoint_at. rewrite Hr0. by apply slot_at_Some. }
  rewrite (Hat r eq_refl). destruct (state_eqb (state e) Connected) eqn:Hst; [|by rewrite Hat].
  assert (joined e = true) as Hj by (unfold joined; by rewrite Ho, Hst).
  destruct (rw_link _ Hw k e Hk Hj) as (c & Hc & L). rewrite Hc. pose proof L as [L1 L2 L3 L4 L5 L6 L7].
  rewrite L1, L2, Z.eqb_refl, L4, Z.eqb_refl. destruct (Nat.ltb_spec (side e) 2); [|lia]. cbn [andb default].
  destruct (leave_effect room (side e) c (rw_connection _ Hw _ _ Hc) L1 L3 Hroom) as (c' & -> & Hwc & Hd).
  exists c, c'. split_and!; try done. by rewrite Hat.
Qed.
