(* ===== verification/SocketRun.v ===== *)
(** * Sequences of stream-socket operations

    The registry of Socket.v under any sequence of operations, by any processes
    and with any handles: streams stay intact, descriptor transfers are neither
    lost nor duplicated, endpoints and connections stay linked. *)

From stdpp Require Import prelude list numbers option.
From Stdlib Require Import ZArith Lia.
From S2P Require Import Prelude.
From S2P Require Import Handles.
From S2P Require Import ObjectKey.
From S2P Require Import RingQueue.
From S2P Require Import EventFd.
From S2P Require Import UnixAddress.
From S2P Require Import FdTable.
From S2P Require Import Socket.
From S2P Require Import SocketStream.
From S2P Require Import SocketTrace.

#[local] Arguments Nat.modulo : simpl never.

(** ** One step *)

(** The tokens a connection holds, and the registry holds. *)
Definition held (c : ConnectionSlot) : list ObjectKey := flight_tokens c 0 ++ flight_tokens c 1.
Definition in_flight (r : SocketRegistry) : list ObjectKey := connections r ≫= held.

(** A receive returns bytes and tokens. *)
Abbreviation Delivery := (list Z * list ObjectKey)%type.
Definition observe (part : list Item) : Delivery := (part.*1, part.*2 ≫= id).

(** [c] became [c'] while [given] entered the direction from side [s] and
    [taken] left it. As long as the connection lives and its reader listens,
    what entered is what leaves, in order and with the transfers on their
    bytes, and no delivery merges two sets of transfers. *)
Record later (c c' : ConnectionSlot) (s : nat) (given : list Item) (taken : list Delivery) : Prop := {
  lt_generation : c_generation c ≤ c_generation c';
  lt_occupied : c_generation c' = c_generation c → c_occupied c' = true → c_occupied c = true;
  lt_read : c_generation c' = c_generation c → c_occupied c' = true →
    at_side (read_open c') (1 - s) = true → at_side (read_open c) (1 - s) = true;
  lt_stream : c_generation c' = c_generation c → c_occupied c' = true → at_side (read_open c') (1 - s) = true →
    total c s + Z.of_nat (length given) ≤ U64_MAX →
    total c' s = total c s + Z.of_nat (length given) ∧
    ∃ parts, taken = observe <$> parts ∧ Forall (λ part, marks part ≤ 1)%nat parts ∧
      flight c s ++ given = concat parts ++ flight c' s;
}.

Record step (r : SocketRegistry) (given : nat → nat → list Item) (taken : nat → nat → list Delivery)
    (entered returned : list ObjectKey) (r' : SocketRegistry) : Prop := {
  st_wf : registry_wf r';
  st_tokens : in_flight r ++ entered ≡ₚ returned ++ in_flight r';
  st_later : ∀ i c, connections r !! i = Some c →
    ∃ c', connections r' !! i = Some c' ∧ ∀ s, (s < 2)%nat → later c c' s (given i s) (taken i s);
}.

Definition nothing {A} (i s : nat) : list A := [].
Definition both_of {A} (f g : nat → nat → list A) (i s : nat) : list A := f i s ++ g i s.

Lemma later_refl c s : later c c s [] [].
Proof.
  split; try done. intros _ _ _ _. split; [simpl; lia|]. exists []. split_and!; try done. by rewrite app_nil_r.
Qed.

Lemma later_trans c1 c2 c3 s g1 t1 g2 t2 :
  later c1 c2 s g1 t1 → later c2 c3 s g2 t2 → later c1 c3 s (g1 ++ g2) (t1 ++ t2).
Proof.
  intros [Hg1 Ho1 Hr1 Hs1] [Hg2 Ho2 Hr2 Hs2].
  assert (c_generation c3 = c_generation c1 → c_generation c3 = c_generation c2 ∧ c_generation c2 = c_generation c1) as Hg by lia.
  split; [lia|intros [E1 E2]%Hg; auto..|]. intros [E1 E2]%Hg Ho Hr Hmax. rewrite length_app in *.
  destruct (Hs1 E2 (Ho2 E1 Ho) (Hr2 E1 Ho Hr) ltac:(lia)) as [T1 (p1 & -> & M1 & F1)].
  destruct (Hs2 E1 Ho Hr ltac:(lia)) as [T2 (p2 & -> & M2 & F2)]. split; [lia|]. exists (p1 ++ p2).
  rewrite fmap_app, concat_app. split_and!; [done|by apply Forall_app|]. by rewrite <- app_assoc, <- F2, !app_assoc, F1.
Qed.

Lemma step_refl r : registry_wf r → step r nothing nothing [] [] r.
Proof.
  intros Hw. split; [done|by rewrite app_nil_r|]. intros i c Hc. exists c. split; [done|]. intros s _. apply later_refl.
Qed.

Lemma step_trans r1 r2 r3 g1 t1 e1 o1 g2 t2 e2 o2 :
  step r1 g1 t1 e1 o1 r2 → step r2 g2 t2 e2 o2 r3 →
  step r1 (both_of g1 g2) (both_of t1 t2) (e1 ++ e2) (o1 ++ o2) r3.
Proof.
  intros [_ P1 L1] [W2 P2 L2]. split; [done| |].
  - rewrite app_assoc, P1, <- !app_assoc, P2. done.
  - intros i c Hc. destruct (L1 i c Hc) as (c' & Hc' & Hl1). destruct (L2 i c' Hc') as (c'' & Hc'' & Hl2).
    exists c''. split; [done|]. intros s Hs. unfold both_of. by eapply later_trans; eauto.
Qed.

(** The connections stay as they are. *)
Lemma step_same r r' : registry_wf r' → connections r' = connections r → step r nothing nothing [] [] r'.
Proof.
  intros Hw E. split; [done|unfold in_flight; by rewrite E, app_nil_r|].
  intros i c Hc. exists c. rewrite E. split; [done|]. intros s _. apply later_refl.
Qed.

Lemma held_insert l i c : l !! i = Some c →
  ∃ rest, l ≫= held ≡ₚ held c ++ rest ∧ ∀ c', <[i := c']> l ≫= held ≡ₚ held c' ++ rest.
Proof.
  intros Hi. assert (∀ c', <[i := c']> l ≫= held ≡ₚ held c' ++ ((take i l ++ drop (S i) l) ≫= held)) as H.
  { intros c'. rewrite insert_take_drop by by eapply lookup_lt_Some. rewrite !bind_app. simpl. by rewrite Permutation_app_swap_app. }
  eexists. split; [|exact H]. rewrite <- H. by rewrite list_insert_id.
Qed.

(** Only connection [i] changes. *)
Lemma step_one r r' i c c' given taken entered returned :
  registry_wf r' → connections r !! i = Some c → connections r' = <[i := c']> (connections r) →
  held c ++ entered ≡ₚ returned ++ held c' →
  (∀ s, (s < 2)%nat → later c c' s (given i s) (taken i s)) →
  (∀ j s, j ≠ i → given j s = [] ∧ taken j s = []) → step r given taken entered returned r'.
Proof.
  intros Hw Hi E Hp Hl Hother. split; [done| |].
  - unfold in_flight. rewrite E. destruct (held_insert _ _ _ Hi) as (rest & H1 & H2). rewrite H1, H2.
    rewrite (Permutation_app_comm _ rest), <- app_assoc, Hp. rewrite (Permutation_app_swap_app rest). by rewrite (Permutation_app_comm rest).
  - intros j x Hx. rewrite E. destruct (decide (j = i)) as [->|Hne].
    + exists c'. rewrite list_lookup_insert_eq by by eapply lookup_lt_Some. split; [done|]. assert (x = c) as -> by congruence. done.
    + exists x. rewrite list_lookup_insert_ne by done. split; [done|]. intros s _. destruct (Hother j s Hne) as [-> ->].
      apply later_refl.
Qed.

(** The held tokens after a change on side [s]. *)
Lemma held_side c s : (s < 2)%nat → held c ≡ₚ flight_tokens c s ++ flight_tokens c (1 - s).
Proof. intros Hs. unfold held. destruct s as [|[|s]]; [done|apply Permutation_app_comm|lia]. Qed.

(** A direction whose queues stay as they are. *)
Lemma later_idle c c' s :
  narrowed c c' → at_side (outgoing c') s = at_side (outgoing c) s →
  at_side (outgoing_rights c') s = at_side (outgoing_rights c) s →
  (at_side (read_open c') (1 - s) = true → at_side (read_open c) (1 - s) = true) → later c c' s [] [].
Proof.
  intros [Ho Hg _ _ _] H1 H2 Hr. split; [lia|congruence|auto|]. intros _ _ _ _. unfold total, flight. rewrite H1, H2.
  split; [simpl; lia|]. exists []. split_and!; try done. by rewrite app_nil_r.
Qed.

(** A direction whose reader is gone. *)
Lemma later_deaf c c' s given taken :
  narrowed c c' → at_side (read_open c') (1 - s) = false → later c c' s given taken.
Proof. intros [Ho Hg _ _ _] Hr. split; [lia|congruence|congruence|congruence]. Qed.

Lemma rechanneled_narrowed c c' s : rechanneled c c' s → narrowed c c'.
Proof. by intros []; split. Qed.

Lemma rechanneled_later c c' s : (s < 2)%nat → rechanneled c c' s → later c c' (1 - s) [] [].
Proof.
  intros Hs H. apply later_idle; [by eapply rechanneled_narrowed|apply H|apply H|]. by rewrite (rc_read _ _ _ H).
Qed.

Lemma same_rights c c' s :
  at_side (outgoing_rights c') s = at_side (outgoing_rights c) s → flight_tokens c' s = flight_tokens c s.
Proof. unfold flight_tokens. by intros ->. Qed.

(** ** The operations *)

Inductive Op :=
| OpCreate (own : ProcessHandle) (domain socket_type protocol : Z)
| OpCreatePair (own : ProcessHandle) (domain socket_type protocol : Z)
| OpBind (own : ProcessHandle) (handle : Z) (a : UnixAddress)
| OpListen (own : ProcessHandle) (handle : Z) (wanted : nat)
| OpConnect (own : ProcessHandle) (handle : Z) (a : UnixAddress)
| OpAccept (own : ProcessHandle) (handle : Z)
| OpReceive (own : ProcessHandle) (handle : Z) (room : nat) (flags : Z) (rights_room : nat)
| OpSend (own : ProcessHandle) (handle : Z) (input : list Z) (flags : Z) (rights : list ObjectKey)
| OpShutdown (own : ProcessHandle) (handle : Z) (how : N)
| OpClose (own : ProcessHandle) (handle : Z).

Definition exec (op : Op) (r : SocketRegistry) : SocketRegistry :=
  match op with
  | OpCreate own domain socket_type protocol => (create own domain socket_type protocol r).2
  | OpCreatePair own domain socket_type protocol => (create_pair own domain socket_type protocol r).2
  | OpBind own handle a => (bind own handle a r).2
  | OpListen own handle wanted => (listen own handle wanted r).2
  | OpConnect own handle a => (connect own handle a r).2
  | OpAccept own handle => (accept own handle r).2
  | OpReceive own handle room flags rights_room => (receive_message own handle room flags rights_room r).2
  | OpSend own handle input flags rights => (send_message own handle input flags rights r).2
  | OpShutdown own handle how => (shutdown_locked own handle (Z.of_N how) r).2
  | OpClose own handle => (close_locked own handle r).2
  end.

(** What the operation puts into the direction from side [s] of connection
    [i], and what it delivers from it. *)
Definition given (r : SocketRegistry) (op : Op) (i s : nat) : list Item :=
  match op with
  | OpSend own handle input flags rights =>
      match locate r own handle, (send_message own handle input flags rights r).1 with
      | Ok (j, t), Ok n => if (j =? i)%nat && (t =? s)%nat then message (take n input) rights else []
      | _, _ => []
      end
  | _ => []
  end.

Definition taken (r : SocketRegistry) (op : Op) (i s : nat) : list Delivery :=
  match op with
  | OpReceive own handle room flags rights_room =>
      match locate r own handle, (receive_message own handle room flags rights_room r).1 with
      | Ok (j, t), Ok delivery => if (j =? i)%nat && (1 - t =? s)%nat && negb (peeks flags) then [delivery] else []
      | _, _ => []
      end
  | _ => []
  end.

(** The tokens the operation moves in, and those it hands back. *)
Definition entered (r : SocketRegistry) (op : Op) : list ObjectKey :=
  match op with
  | OpSend own handle input flags rights =>
      match (send_message own handle input flags rights r).1 with Ok _ => rights | Err _ => [] end
  | _ => []
  end.

Definition returned (r : SocketRegistry) (op : Op) : list ObjectKey :=
  match op with
  | OpReceive own handle room flags rights_room =>
      match (receive_message own handle room flags rights_room r).1 with Ok (_, tokens) => tokens | Err _ => [] end
  | OpShutdown own handle how =>
      match (shutdown_locked own handle (Z.of_N how) r).1 with Ok tokens => tokens | Err _ => [] end
  | OpClose own handle => match (close_locked own handle r).1 with Ok tokens => tokens | Err _ => [] end
  | _ => []
  end.

Definition stepped (r : SocketRegistry) (op : Op) : Prop :=
  step r (given r op) (taken r op) (entered r op) (returned r op) (exec op r).

Lemma plain_tokens (data : list Z) : (plain <$> data).*2 ≫= id = [].
Proof. by induction data. Qed.

Lemma message_tokens data rights : data ≠ [] → (message data rights).*2 ≫= id = rights.
Proof.
  destruct data as [|b data]; [done|]. intros _. unfold message. rewrite fmap_cons, bind_cons, plain_tokens. apply app_nil_r.
Qed.

Lemma message_length data rights : length (message data rights) = length data.
Proof. destruct data; [done|]. simpl. by rewrite length_fmap. Qed.

Lemma chunk_marks room seen (l : list Item) :
  (marks (take (chunk room seen l) l) ≤ if seen then 0 else 1)%nat.
Proof.
  revert room seen. induction l as [|[b tokens] l IH]; intros [|room] seen; cbn [chunk take]; try (unfold marks; simpl; lia).
  destruct seen, (decide (tokens = [])) as [Ht|Ht]; cbn [andb orb];
    rewrite ?(bool_decide_true _ Ht), ?(bool_decide_false _ Ht); cbn [negb andb orb take]; unfold marks in *; cbn [countb snd]; [| lia | |].
  - rewrite (bool_decide_true _ Ht). simpl. apply (IH room true).
  - rewrite (bool_decide_true _ Ht). simpl. apply (IH room false).
  - rewrite (bool_decide_false _ Ht). cbn [negb z_of_bool]. pose proof (IH room true). simpl in *. lia.
Qed.

(** What a receive delivers, from the result. *)
Definition delivered (flags : Z) (x : Result Delivery SocketError) : list Delivery :=
  match x with Ok delivery => if peeks flags then [] else [delivery] | Err _ => [] end.

Section Transfer.
Context (r : SocketRegistry) (own : ProcessHandle) (handle : Z) (i s : nat) (c : ConnectionSlot).
Hypothesis Hw : registry_wf r.
Hypothesis Hloc : locate r own handle = Ok (i, s).
Hypothesis Hi : connections r !! i = Some c.
Hypothesis Hc : connection_at r i = c.
Hypothesis Hs : (s < 2)%nat.

Lemma shutdown_stepped how : Z.of_N how ≤ SHUT_RDWR → stepped r (OpShutdown own handle how).
Proof using All.
  intros Hhow'. assert (0 ≤ Z.of_N how ≤ SHUT_RDWR) as Hhow by lia. clear Hhow'. pose proof (rw_connection _ Hw _ _ Hi) as Hwc.
  destruct (shutdown_effect r own handle i s c (Z.of_N how) Hloc Hc Hwc Hs Hhow) as (c' & Hrun & Hsh).
  unfold stepped, given, taken, entered, returned, exec. rewrite Hrun. cbn [fst snd].
  pose proof (shut_wf _ _ _ _ Hs Hwc Hsh) as Hwc'. pose proof Hsh as [Hn E1 E2 E3 E4 E5 E6 E7].
  apply (step_one r _ i c c'); try done.
  - by apply (wf_set_connection r Hw i c c').
  - rewrite app_nil_r, (held_side c s Hs), (held_side c' s Hs), (Permutation_app_comm (flight_tokens c s)).
    rewrite (same_rights c c' s E5). destruct (Z.of_N how =? SHUT_WR).
    + rewrite (same_rights c c' (1 - s)) by apply E7. cbn [app]. apply Permutation_app_comm.
    + destruct E7 as [_ ->]. by rewrite app_nil_r.
  - intros t Ht. destruct (decide (t = s)) as [->|Hne].
    + apply later_idle; [done..|]. rewrite E2. destruct (Z.of_N how =? SHUT_WR); [done|]. by rewrite at_set_other.
    + assert (t = 1 - s)%nat as -> by lia. destruct (Z.of_N how =? SHUT_WR) eqn:Hwr.
      * apply later_idle; [done|apply E7|apply E7|by rewrite E2].
      * apply later_deaf; [done|]. rewrite E2. replace (1 - (1 - s))%nat with s by lia. apply at_set_side.
Qed.

Lemma gives_tokens c' data rights :
  connection_wf c → gives c c' s data rights → data ≠ [] → flight_tokens c' s = flight_tokens c s ++ rights.
Proof.
  intros Hwc [_ Hch Hf _] Hd. rewrite <- (flight_tokens_stream c'), Hf by done.
  rewrite fmap_app, bind_app, message_tokens by done. by rewrite flight_tokens_stream by by apply Hwc.
Qed.

Lemma gives_later c' data rights : gives c c' s data rights → later c c' s (message data rights) [].
Proof.
  intros [[Ho Hg _ _ _ _ Hr _ _ _] _ Hf Ht]. split; [lia|congruence|congruence|]. intros _ _ _ _.
  rewrite message_length. split; [done|]. exists []. by rewrite Hf.
Qed.

Lemma send_stepped input flags rights :
  and_not flags SEND_FLAGS = 0 → stepped r (OpSend own handle input flags rights).
Proof using All.
  intros Hf. pose proof (rw_connection _ Hw _ _ Hi) as Hwc. pose proof (send_run r own handle i s c Hloc Hc Hwc Hs input flags rights Hf) as Hrun.
  unfold stepped, given, taken, entered, returned, exec. rewrite Hloc.
  destruct (send_spec c s input rights) as [[|n]|e] eqn:Hspec.
  - destruct Hrun as (-> & -> & ->). cbn [fst snd]. eapply step_one with (i := i) (c := c) (c' := c); try done.
    + by rewrite list_insert_id.
    + by rewrite app_nil_r.
    + intros t Ht. rewrite take_nil. simpl. replace (if _ && _ then _ else _) with (@nil Item) by by destruct (_ && _). apply later_refl.
    + intros j t Hne. by destruct (Nat.eqb_spec i j); [congruence|].
  - destruct Hrun as (c' & -> & Hgv & Hro). cbn [fst snd].
    assert (take (S n) input ≠ []) as Hd.
    { unfold send_spec in Hspec. destruct (negb _); [done|]. destruct (Nat.eqb_spec (length input) 0) as [|Hne]; [by case_match|].
      by destruct input. }
    pose proof (gv_rest _ _ _ _ _ Hgv) as Hrc.
    assert (connection_wf c') as Hwc'. { eapply rechanneled_wf; [done|done|done|apply Hgv|congruence]. }
    eapply step_one with (i := i) (c := c) (c' := c'); try done.
    + apply (wf_set_connection r Hw i c c'); [done|done|by eapply rechanneled_narrowed|apply Hrc].
    + rewrite (held_side c s Hs), (held_side c' s Hs), (gives_tokens c' _ _ Hwc Hgv Hd).
      rewrite (same_rights c c' (1 - s)) by apply Hrc. simpl. rewrite <- !app_assoc. apply Permutation_app_head, Permutation_app_comm.
    + intros t Ht. rewrite Nat.eqb_refl. destruct (Nat.eqb_spec s t) as [<-|Hne]; simpl; [by apply gives_later|].
      assert (t = 1 - s)%nat as -> by lia. by apply rechanneled_later.
    + intros j t Hne. by destruct (Nat.eqb_spec i j); [congruence|].
  - rewrite Hrun. cbn [fst snd]. by apply step_refl.
Qed.
Lemma takes_later c' n room :
  n = chunk room false (flight c (1 - s)) → takes c c' (1 - s) n →
  later c c' (1 - s) [] [observe (take n (flight c (1 - s)))].
Proof.
  intros Hn [[Ho Hg _ _ _ _ Hr _ _ _] _ Hf Ht]. split; [lia|congruence|congruence|]. intros _ _ _ _.
  split; [simpl; lia|]. exists [take n (flight c (1 - s))]. split_and!; [done| |].
  - apply Forall_singleton. rewrite Hn. apply (chunk_marks room false).
  - rewrite Hf, app_nil_r. simpl. by rewrite app_nil_r, take_drop.
Qed.

Lemma receive_later room flags rights_room x r' c' :
  receive_message own handle room flags rights_room r = (x, r') → connections r' !! i = Some c' →
  rechanneled c c' (1 - s) ∨ c' = c → later c c' (1 - s) [] (delivered flags x).
Proof using All.
  intros Hrun Hc' Hsame. pose proof (rw_connection _ Hw _ _ Hi) as Hwc.
  assert (∀ g t, (total c (1 - s) ≤ U64_MAX → later c c' (1 - s) g t) → later c c' (1 - s) g t) as Hbound.
  { intros g t Hl. destruct (Z.leb_spec (total c (1 - s)) U64_MAX); [auto|].
    destruct Hsame as [[Ho Hg _ _ _ _ Hr _ _ _]| ->]; (split; [lia|congruence|congruence|lia]). }
  apply Hbound. intros Hmax. destruct (decide (and_not flags RECEIVE_FLAGS = 0)) as [Hf|Hf].
  2: { unfold receive_message in Hrun. m_unfold. apply Z.eqb_neq in Hf. rewrite Hf in Hrun. injection Hrun as <- <-.
       assert (c' = c) as -> by congruence. apply later_refl. }
  pose proof (receive_run r own handle i s c Hloc Hc Hwc Hs room flags rights_room Hf Hmax) as Hrr. rewrite Hrun in Hrr.
  unfold receive_spec in Hrr. cbv zeta in Hrr.
  assert (∀ data tokens, (x, r') = (Ok (data, tokens), r) → peeks flags = true ∨ data = [] ∧ tokens = [] →
    later c c' (1 - s) [] (delivered flags x)) as Hno.
  { intros data tokens [= -> ->] Hd. assert (c' = c) as -> by congruence. simpl.
    destruct (peeks flags); [apply later_refl|]. destruct Hd as [|[-> ->]]; [done|].
    split; try done. intros _ _ _ _. split; [simpl; lia|]. exists [[]]. split_and!; [done|repeat constructor|by rewrite app_nil_r]. }
  assert (∀ e, (x, r') = (Err e, r) → later c c' (1 - s) [] (delivered flags x)) as Herr.
  { intros e [= -> ->]. assert (c' = c) as -> by congruence. apply later_refl. }
  destruct (negb _); [cbn in Hrr; eauto|]. destruct (room =? 0)%nat; [cbn in Hrr; eauto|].
  case_bool_decide as Hnil; [destruct (at_side (write_open c) (1 - s)); cbn in Hrr; eauto|].
  destruct (peeks flags) eqn:Hpk; [cbn in Hrr; eauto|]. set (n := chunk room false (flight c (1 - s))) in *.
  destruct (rights_room <? _)%nat; [eauto|]. destruct (Nat.eqb_spec n 0) as [H0|H0].
  { eapply Hno; [done|]. rewrite H0. by right. }
  destruct Hrr as (c'' & [= -> ->] & Htk). simpl in Hc'. rewrite list_lookup_insert_eq in Hc' by by eapply lookup_lt_Some.
  injection Hc' as <-. unfold delivered. rewrite Hpk. by eapply takes_later.
Qed.

Lemma receive_stepped room flags rights_room : stepped r (OpReceive own handle room flags rights_room).
Proof using All.
  pose proof (rw_connection _ Hw _ _ Hi) as Hwc.
  pose proof (receive_effect r own handle i s c Hloc Hc Hwc Hs room flags rights_room) as Heff.
  unfold stepped, given, taken, entered, returned, exec. rewrite Hloc.
  destruct (receive_message own handle room flags rights_room r) as [x r'] eqn:Hrun. cbn [fst snd].
  assert (∃ c', r' = set_connection i c' r ∧ connection_wf c' ∧ (rechanneled c c' (1 - s) ∨ c' = c) ∧
    flight_tokens c (1 - s) = match x with Ok (_, tokens) => tokens | Err _ => [] end ++ flight_tokens c' (1 - s)) as (c' & -> & Hwc' & Hsame & Htok).
  { destruct Heff as [[-> ->]|(c' & -> & Hrc & Hwc' & Ht)]; [|exists c'; by auto].
    exists c. split_and!; [|done|by right|done]. unfold set_connection. rewrite list_insert_id by done. by destruct r. }
  assert (connections (set_connection i c' r) !! i = Some c') as Hi'.
  { simpl. rewrite list_lookup_insert_eq; [done|]. by eapply lookup_lt_Some. }
  assert (later c c' s [] []) as Hback.
  { destruct Hsame as [Hrc| ->]; [|apply later_refl]. replace s with (1 - (1 - s))%nat by lia. apply rechanneled_later; [lia|done]. }
  assert (narrowed c c' ∧ endpoint_open c' = endpoint_open c ∧ flight_tokens c' s = flight_tokens c s) as (Hn & Ho & Hts).
  { destruct Hsame as [Hrc| ->]; [|done]. split_and!; [by eapply rechanneled_narrowed|apply Hrc|].
    apply same_rights. pose proof (rc_rights _ _ _ Hrc) as E. by replace (1 - (1 - s))%nat with s in E by lia. }
  eapply step_one with (i := i) (c := c) (c' := c'); try done.
  - by apply (wf_set_connection r Hw i c c').
  - rewrite app_nil_r, (held_side c s Hs), (held_side c' s Hs), Hts, Htok. apply Permutation_app_swap_app.
  - intros t Ht. rewrite Nat.eqb_refl. destruct (Nat.eqb_spec (1 - s) t) as [<-|Hne]; cbn [andb].
    + pose proof (receive_later room flags rights_room x _ c' Hrun Hi' Hsame) as Hl. unfold delivered in Hl.
      destruct x; [|done]. by destruct (peeks flags).
    + assert (t = s) as -> by lia. by destruct x.
  - intros j t Hne. destruct (Nat.eqb_spec i j); [congruence|]. by destruct x.
Qed.
End Transfer.

(** An operation that fails before it locates a connection. *)
Lemma unlocated_stepped r own handle x op :
  registry_wf r → locate r own handle = Err x →
  (∃ room flags rights_room, op = OpReceive own handle room flags rights_room) ∨
  (∃ input flags rights, op = OpSend own handle input flags rights) ∨ (∃ how, op = OpShutdown own handle how) →
  stepped r op.
Proof.
  intros Hw Hloc Hop.
  assert (∀ {A} b e (m : nat → nat → SM A), ∃ y, (ensure b e;; '(_, e) ← endpoint own handle; '(i, s) ← connection e handle; m i s) r = (Err y, r)) as Hfail.
  { intros A b e m. destruct b; [exists x|by exists e]. pose proof (located own handle m r) as E. rewrite Hloc in E. exact E. }
  unfold stepped. destruct Hop as [(room & flags & rights_room & ->)|[(input & flags & rights & ->)|(how & ->)]];
    unfold given, taken, entered, returned, exec; rewrite ?Hloc.
  - assert (∃ y, receive_message own handle room flags rights_room r = (Err y, r)) as [y ->] by apply Hfail. by apply step_refl.
  - assert (∃ y, send_message own handle input flags rights r = (Err y, r)) as [y ->] by apply Hfail. by apply step_refl.
  - assert (∃ y, shutdown_locked own handle (Z.of_N how) r = (Err y, r)) as [y ->] by apply Hfail. by apply step_refl.
Qed.

(** ** Endpoints *)

Lemma generation_bound : MAXIMUM_GENERATION = 2 ^ (32 - ENDPOINT_INDEX_BITS) - 1.
Proof. done. Qed.

Lemma resolved_endpoint_Some r own handle k e :
  registry_wf r → resolved_endpoint r own handle = Ok (k, e) →
  endpoints r !! k = Some e ∧ endpoint_at r k = e ∧ occupied e = true ∧ ep_owner e = own ∧
  encode_endpoint k (ep_generation e) = Some handle.
Proof.
  intros Hw. unfold resolved_endpoint. destruct (decode_endpoint handle) as [[k' g]|] eqn:Hd; [|done].
  destruct (_ || _) eqn:Hg; [done|]. intros [= -> <-]. rewrite !orb_false_iff, !negb_false_iff in Hg.
  destruct Hg as [[Ho Hgen%Z.eqb_eq] Hown%handle_eqb_eq].
  destruct (decode_handle_Some ENDPOINT_INDEX_BITS MAXIMUM_ENDPOINTS ltac:(done) _ _ _ Hd) as (Hk & _ & _).
  destruct (lookup_lt_is_Some_2 (endpoints r) k) as [e He]; [by rewrite rw_endpoints|].
  assert (endpoint_at r k = e) as E by by apply slot_at_Some. rewrite E in *. split_and!; try done. rewrite Hgen.
  apply (encode_decode_handle ENDPOINT_INDEX_BITS MAXIMUM_ENDPOINTS); try done. rewrite <- Hgen, <- generation_bound.
  apply (rw_endpoint _ Hw _ _ He).
Qed.

Lemma not_joined e : state e ≠ Connected → joined e = false.
Proof. intros Hs. unfold joined, state_eqb. rewrite bool_decide_false by done. apply andb_false_r. Qed.

Lemma free_not_joined e : occupied e = false → joined e = false.
Proof. unfold joined. by intros ->. Qed.

(** A free slot becomes an endpoint, or nothing happens. *)
Lemma initialize_endpoint_run r k e own :
  endpoint_wf e → endpoints r !! k = Some e →
  initialize_endpoint k own r = (Err Capacity, r) ∨
  ∃ h g, initialize_endpoint k own r =
      (Ok h, set_endpoint k (mkEndpoint true g own Unbound UNNAMED 255 0 0 0 0 0 NO_PENDING 1) r) ∧
    encode_endpoint k g = Some h ∧ 1 ≤ g ≤ MAXIMUM_GENERATION.
Proof.
  intros Hwe Hk. assert (endpoint_at r k = e) as E by by apply slot_at_Some. unfold initialize_endpoint. m_unfold. rewrite E. destruct (next_endpoint_generation _) as [g|] eqn:Hg; [|by left].
  destruct (encode_endpoint k g) as [h|] eqn:Hh; [|by left]. right. exists h, g. split_and!; try done;
    unfold next_endpoint_generation in Hg; rewrite next_handle_generation_Some in Hg by done; rewrite <- ?generation_bound in *;
    pose proof (ew_generation _ Hwe); lia.
Qed.

Lemma fresh_endpoint_wf g own st i cg sd :
  1 ≤ g ≤ MAXIMUM_GENERATION → endpoint_wf (mkEndpoint true g own st UNNAMED i cg sd 0 0 0 NO_PENDING 1).
Proof. intros Hg. split; cbn; try done; unfold MAXIMUM_LISTEN_BACKLOG; lia. Qed.

Lemma create_stepped r own domain socket_type protocol : registry_wf r → stepped r (OpCreate own domain socket_type protocol).
Proof.
  intros Hw. unfold stepped, given, taken, entered, returned, exec, create. m_unfold.
  destruct (valid_owner own); [|by apply step_refl]. destruct (validate_create _ _ _); [|by apply step_refl].
  destruct (position _ (endpoints r)) as [k|] eqn:Hk; [|by apply step_refl].
  apply position_lookup in Hk as (e & Hk & Hfree%negb_true_iff).
  destruct (initialize_endpoint_run r k e own (rw_endpoint _ Hw _ _ Hk) Hk) as [->|(h & g & -> & Hh & Hg)]; [by apply step_refl|].
  apply step_same; [|done]. apply (wf_set_endpoint r Hw k e); [done|by apply free_not_joined|by apply fresh_endpoint_wf|done].
Qed.

(** The endpoint keeps its slot but is no end of a connection. *)
Lemma step_endpoint r k e e' :
  registry_wf r → endpoints r !! k = Some e → joined e = false → endpoint_wf e' → joined e' = false →
  step r nothing nothing [] [] (set_endpoint k e' r).
Proof. intros Hw Hk Hj Hwe Hj'. apply step_same; [|done]. by apply (wf_set_endpoint r Hw k e). Qed.

Lemma bind_stepped r own handle a : registry_wf r → stepped r (OpBind own handle a).
Proof.
  intros Hw. unfold stepped, given, taken, entered, returned, exec, bind, endpoint. m_unfold.
  destruct (negb (is_unnamed a)); [|by apply step_refl].
  destruct (resolved_endpoint r own handle) as [[k e]|x] eqn:Hr; [|by apply step_refl].
  destruct (resolved_endpoint_Some r own handle k e Hw Hr) as (Hk & E & Ho & _).
  destruct (state_eqb (state e) Unbound) eqn:Hst; [|by apply step_refl]. apply bool_decide_eq_true in Hst.
  destruct (negb (address_taken r k a)); [|by apply step_refl]. rewrite E. cbn [snd].
  eapply step_endpoint; [done|done|apply not_joined; congruence| |by apply not_joined].
  destruct (rw_endpoint _ Hw _ _ Hk). by split.
Qed.

Lemma listen_stepped r own handle wanted : registry_wf r → stepped r (OpListen own handle wanted).
Proof.
  intros Hw. unfold stepped, given, taken, entered, returned, exec, listen, endpoint. m_unfold.
  destruct (resolved_endpoint r own handle) as [[k e]|x] eqn:Hr; [|by apply step_refl].
  destruct (resolved_endpoint_Some r own handle k e Hw Hr) as (Hk & E & Ho & _).
  destruct (_ || _) eqn:Hst; [|by apply step_refl]. rewrite E. cbn [snd].
  eapply step_endpoint; [done|done| | |by apply not_joined].
  - apply not_joined. unfold state_eqb in Hst. rewrite orb_true_iff, !bool_decide_eq_true in Hst. intros Hc. destruct Hst; congruence.
  - destruct (rw_endpoint _ Hw _ _ Hk). split; try done. cbn [listening backlog]. unfold MAXIMUM_LISTEN_BACKLOG. lia.
Qed.

Lemma accept_stepped r own handle : registry_wf r → stepped r (OpAccept own handle).
Proof.
  intros Hw. unfold stepped, given, taken, entered, returned, exec, accept, endpoint, connection. m_unfold.
  destruct (resolved_endpoint r own handle) as [[k e]|x] eqn:Hr; [|by apply step_refl].
  destruct (resolved_endpoint_Some r own handle k e Hw Hr) as (Hk & E & Ho & _).
  destruct (state_eqb (state e) Listening) eqn:Hst; [|by apply step_refl]. apply bool_decide_eq_true in Hst.
  destruct (negb _); [|by apply step_refl].
  destruct (resolved_endpoint r own (slot_at 0 (pending e) (pending_head e))) as [[k' e']|x]; [|by apply step_refl].
  destruct (resolved_connection r e' _) as [[i s]|x]; [|by apply step_refl]. rewrite E. cbn [snd].
  eapply step_endpoint; [done|done|apply not_joined; congruence| |apply not_joined; simpl; congruence].
  destruct (rw_endpoint _ Hw _ _ Hk). split; try done; cbn [dequeue_pending with_pending pending_head pending_length pending].
  - apply Nat.mod_upper_bound. done.
  - lia.
  - by rewrite length_insert.
Qed.

(** ** Connecting *)

Abbreviation end_of g own i cg sd := (mkEndpoint true g own Connected UNNAMED i cg sd 0 0 0 NO_PENDING 1).

Lemma initialize_connected_run r k e own i cg sd :
  endpoint_wf e → endpoints r !! k = Some e →
  initialize_connected_endpoint k own i cg sd r = (Err Capacity, r) ∨
  ∃ h g, initialize_connected_endpoint k own i cg sd r = (Ok h, set_endpoint k (end_of g own i cg sd) r) ∧
    encode_endpoint k g = Some h ∧ 1 ≤ g ≤ MAXIMUM_GENERATION.
Proof.
  intros Hwe Hk. unfold initialize_connected_endpoint. m_unfold.
  destruct (initialize_endpoint_run r k e own Hwe Hk) as [->|(h & g & -> & Hh & Hg)]; [by left|]. right. exists h, g.
  split; [|done]. unfold set_endpoint, endpoint_at. cbn [endpoints connections]. rewrite list_insert_insert_eq.
  erewrite slot_at_Some by (apply list_lookup_insert_eq; by eapply lookup_lt_Some). done.
Qed.

Lemma free_held c : connection_wf c → c_occupied c = false → held c = [].
Proof.
  intros [Hc Hd Hg Ho _] Hf. rewrite Hf in Ho. symmetry in Ho. apply orb_false_iff in Ho as [H0 H1].
  unfold held. rewrite !flight_tokens_nil; try done; try (apply Hc; lia).
  - by apply (Hd O); [lia|]; apply (Hg O); [lia|].
  - by apply (Hd 1%nat); [lia|]; apply (Hg 1%nat); [lia|].
Qed.

Lemma initialize_wf c g h1 h2 o1 o2 a1 a2 :
  connection_wf c → is_u32 g →
  connection_wf (initialize g h1 h2 o1 o2 a1 a2 c) ∧ held (initialize g h1 h2 o1 o2 a1 a2 c) = [].
Proof.
  intros [Hc _ _ _ _] Hg. pose proof (Hc O ltac:(lia)) as [_ _ _ _ [_ _ H1 _] _]. pose proof (Hc 1%nat ltac:(lia)) as [_ _ _ _ [_ _ H2 _] _].
  destruct (channel_reset _ H1) as [Hw1 Hv1]. destruct (channel_reset _ H2) as [Hw2 Hv2]. split.
  - split; try done; intros [|[|s]] Hs; try done; lia.
  - unfold held, flight_tokens. cbn [initialize outgoing_rights both fst snd at_side]. cbn [at_side] in *. by rewrite Hv1, Hv2.
Qed.

Lemma next_connection_generation_Some g g' :
  next_connection_generation g = Some g' → g' = g + 1 ∧ g' ≤ U32_MAX.
Proof.
  unfold next_connection_generation. destruct (checked_add _ _ _) as [x|] eqn:E; [|done]. apply checked_add_Some in E.
  case_match; naive_solver lia.
Qed.

(** A free connection is taken into use. *)
Lemma step_join r r' i c c' :
  registry_wf r → registry_wf r' → connections r !! i = Some c → c_occupied c = false →
  c_generation c < c_generation c' → held c' = [] → connections r' = <[i := c']> (connections r) →
  step r nothing nothing [] [] r'.
Proof.
  intros Hw Hw' Hi Hf Hg Hh E. eapply (step_one r r' i c c'); try done.
  - rewrite Hh, (free_held c (rw_connection _ Hw _ _ Hi) Hf). done.
  - intros s _. split; [lia|lia|lia|lia].
Qed.

Lemma end_linked k g own i cg sd c h :
  encode_endpoint k g = Some h → 1 ≤ g → (sd < 2)%nat → at_side (endpoint_handles c) sd = h →
  at_side (owners c) sd = own → c_occupied c = true → c_generation c = cg → at_side (endpoint_open c) sd = true →
  linked k (end_of g own i cg sd) c.
Proof. intros Hh Hg Hs E1 E2 E3 E4 E5. split; try done. cbn [side ep_generation]. by rewrite E1. Qed.

Lemma create_pair_stepped r own domain socket_type protocol :
  registry_wf r → stepped r (OpCreatePair own domain socket_type protocol).
Proof.
  intros Hw. unfold stepped, given, taken, entered, returned, exec, create_pair. m_unfold.
  destruct (valid_owner own); [|by apply step_refl]. destruct (validate_create _ _ _); [|by apply step_refl].
  destruct (indices _ (endpoints r)) as [|k1 [|k2 rest]] eqn:Hfree; [by apply step_refl..|]. cbn [lookup list_lookup].
  assert (∃ e1, endpoints r !! k1 = Some e1 ∧ occupied e1 = false) as (e1 & Hk1 & Ho1).
  { assert (k1 ∈ indices_from (λ e, negb (occupied e)) 0 (endpoints r)) as Hin by (rewrite Hfree; left).
    apply indices_from_elem in Hin as (_ & e1 & He & Ho%negb_true_iff). rewrite Nat.sub_0_r in He. eauto. }
  assert (∃ e2, endpoints r !! k2 = Some e2 ∧ occupied e2 = false) as (e2 & Hk2 & Ho2).
  { assert (k2 ∈ indices_from (λ e, negb (occupied e)) 0 (endpoints r)) as Hin by (rewrite Hfree; right; left).
    apply indices_from_elem in Hin as (_ & e2 & He & Ho%negb_true_iff). rewrite Nat.sub_0_r in He. eauto. }
  assert (k1 < k2)%nat as Hlt by (eapply indices_from_sorted; [exact Hfree|left]).
  destruct (position _ (connections r)) as [i|] eqn:Hi; [|by apply step_refl].
  apply position_lookup in Hi as (c & Hi & Hoc%negb_true_iff). assert (connection_at r i = c) as Ec by by apply slot_at_Some.
  rewrite Ec. destruct (next_connection_generation _) as [cg|] eqn:Hcg; [|by apply step_refl].
  apply next_connection_generation_Some in Hcg as [Ecg Hcg]. pose proof (rw_connection _ Hw _ _ Hi) as Hwc.
  destruct (initialize_connected_run r k1 e1 own i cg 0 (rw_endpoint _ Hw _ _ Hk1) Hk1) as [->|(h1 & g1 & -> & Hh1 & Hg1)];
    [by apply step_refl|].
  set (r1 := set_endpoint k1 _ r). assert (endpoints r1 !! k2 = Some e2) as Hk2'.
  { simpl. rewrite list_lookup_insert_ne by lia. done. }
  destruct (initialize_connected_run r1 k2 e2 own i cg 1 (rw_endpoint _ Hw _ _ Hk2) Hk2') as [->|(h2 & g2 & -> & Hh2 & Hg2)].
  - cbn [snd]. assert (endpoint_at r1 k1 = end_of g1 own i cg 0) as E1.
    { apply slot_at_Some. simpl. apply list_lookup_insert_eq. by eapply lookup_lt_Some. }
    rewrite E1. unfold r1, set_endpoint. cbn [endpoints connections]. rewrite list_insert_insert_eq.
    apply (step_endpoint r k1 e1); [done|done|by apply free_not_joined|apply vacant_wf; simpl; lia|done].
  - cbn [snd]. assert (connection_at (set_endpoint k2 (end_of g2 own i cg 1) r1) i = c) as Ec2 by by apply slot_at_Some.
    rewrite Ec2. set (c' := initialize _ _ _ _ _ _ _ c).
    destruct (initialize_wf c cg h1 h2 own own UNNAMED UNNAMED Hwc) as [Hwc' Hheld]; [pose proof (kw_generation _ Hwc); unfold is_u32 in *; lia|].
    eapply (step_join r _ i c c'); try done; [|simpl; lia].
    apply (wf_join r Hw _ i c c' k1 e1 (end_of g1 own i cg 0) k2 e2 (end_of g2 own i cg 1)); try done;
      try (by apply free_not_joined); try (by apply fresh_endpoint_wf); try lia.
    + by eapply end_linked; [done|lia|lia|..].
    + by eapply end_linked; [done|lia|lia|..].
    + simpl. apply list_insert_insert_ne. lia.
Qed.

Lemma match_join {A} (st : EndpointState) (a b d : A) :
  st = Unbound ∨ st = Bound → match st with Connected => a | Listening => b | Unbound | Bound => d end = d.
Proof. by intros [-> | ->]. Qed.

(** What a successful [connect] does: the client and a new server end are the
    two sides of a free connection, and the server end is queued. *)
Record connecting (r : SocketRegistry) (own : ProcessHandle) (handle : Z) (a : UnixAddress)
    (kc kl ks i : nat) (ec el : EndpointSlot) (c : ConnectionSlot) (hs gs cg : Z) : Prop := {
  cn_client : endpoints r !! kc = Some ec ∧ occupied ec = true ∧ ep_owner ec = own;
  cn_handle : encode_endpoint kc (ep_generation ec) = Some handle;
  cn_state : state ec = Unbound ∨ state ec = Bound;
  cn_listener : position (listens_at a) (endpoints r) = Some kl;
  cn_listening : endpoints r !! kl = Some el ∧ occupied el = true ∧ state el = Listening ∧ address el = a;
  cn_room : (pending_length el < backlog el)%nat;
  cn_server : encode_endpoint ks gs = Some hs ∧ 1 ≤ gs ≤ MAXIMUM_GENERATION;
  cn_free : ∃ es, endpoints r !! ks = Some es ∧ occupied es = false;
  cn_connection : connections r !! i = Some c ∧ c_occupied c = false;
  cn_generation : cg = c_generation c + 1 ∧ cg ≤ U32_MAX;
  cn_distinct : kc ≠ kl ∧ kc ≠ ks ∧ kl ≠ ks;
}.

Definition connects (r : SocketRegistry) (own : ProcessHandle) (handle : Z)
    (kc kl ks i : nat) (ec el : EndpointSlot) (c : ConnectionSlot) (hs gs cg : Z) : SocketRegistry :=
  mkRegistry
    (<[kl := enqueue_pending hs el]> (<[kc := advance_endpoint (connected i cg 0 ec)]>
      (<[ks := end_of gs (ep_owner el) i cg 1]> (endpoints r))))
    (<[i := initialize cg handle hs own (ep_owner el) (address ec) (address el) c]> (connections r)).

Lemma connect_run r own handle a :
  registry_wf r →
  (∃ e, connect own handle a r = (Err e, r)) ∨
  ∃ kc kl ks i ec el c hs gs cg, connecting r own handle a kc kl ks i ec el c hs gs cg ∧
    connect own handle a r = (Ok tt, connects r own handle kc kl ks i ec el c hs gs cg).
Proof.
  intros Hw. unfold connect, endpoint. m_unfold. destruct (negb (is_unnamed a)); [|by left; eexists].
  destruct (resolved_endpoint r own handle) as [[kc ec]|x] eqn:Hr; [|by left; eexists].
  destruct (resolved_endpoint_Some r own handle kc ec Hw Hr) as (Hkc & Ekc & Hoc & Hown & Hhc).
  destruct (decide (state ec = Unbound ∨ state ec = Bound)) as [Hst|Hst].
  2: { left. destruct (state ec); try (by eexists); exfalso; apply Hst; auto. }
  rewrite (match_join _ _ _ _ Hst). clear Hr.
  destruct (position (listens_at a) (endpoints r)) as [kl|] eqn:Hkl; [|by left; eexists].
  pose proof (position_lookup _ _ _ Hkl) as (el & Hel & Hlis). unfold listens_at, state_eqb in Hlis.
  rewrite !andb_true_iff, !bool_decide_eq_true in Hlis. destruct Hlis as [[Hol Hsl] Hal].
  assert (endpoint_at r kl = el) as Ekl by by apply slot_at_Some. rewrite Ekl.
  destruct (Nat.leb_spec (backlog el) (pending_length el)) as [|Hroom]; cbn [negb]; [by left; eexists|].
  destruct (position (λ e, negb (occupied e)) (endpoints r)) as [ks|] eqn:Hks; [|by left; eexists].
  apply position_lookup in Hks as (es & Hes & Hos%negb_true_iff).
  destruct (position _ (connections r)) as [i|] eqn:Hi; [|by left; eexists].
  apply position_lookup in Hi as (c & Hi & Hocc%negb_true_iff). assert (connection_at r i = c) as Ec by by apply slot_at_Some.
  rewrite Ec. destruct (next_connection_generation _) as [cg|] eqn:Hcg; [|by left; eexists].
  apply next_connection_generation_Some in Hcg.
  destruct (initialize_connected_run r ks es (ep_owner el) i cg 1 (rw_endpoint _ Hw _ _ Hes) Hes) as [->|(hs & gs & -> & Hhs & Hgs)];
    [by left; eexists|].
  assert (kc ≠ kl ∧ kc ≠ ks ∧ kl ≠ ks) as (N1 & N2 & N3).
  { split_and!; intros ->; [|congruence|congruence]. assert (ec = el) as -> by congruence. destruct Hst; congruence. }
  right. exists kc, kl, ks, i, ec, el, c, hs, gs, cg. split; [split; eauto|].
  unfold connects, set_connection, set_endpoint, connection_at, endpoint_at. cbn [endpoints connections].
  rewrite (slot_at_Some _ _ kc ec) by by rewrite list_lookup_insert_ne.
  rewrite (slot_at_Some _ _ kl el) by (rewrite !list_lookup_insert_ne; done).
  rewrite (slot_at_Some _ _ i c) by done. done.
Qed.

Lemma connects_wf r own handle a kc kl ks i ec el c hs gs cg :
  registry_wf r → connecting r own handle a kc kl ks i ec el c hs gs cg →
  registry_wf (connects r own handle kc kl ks i ec el c hs gs cg).
Proof.
  intros Hw [(Hkc & Hoc & Hown) Hhc Hst Hpos (Hkl & Hol & Hsl & Hal) Hroom [Hhs Hgs] (es & Hes & Hos) [Hi Hocc] [Ecg Hcg] (N1 & N2 & N3)].
  pose proof (rw_connection _ Hw _ _ Hi) as Hwc. pose proof (rw_endpoint _ Hw _ _ Hkl) as Hwl. pose proof (rw_endpoint _ Hw _ _ Hkc) as Hwe.
  destruct (initialize_wf c cg handle hs own (ep_owner el) (address ec) (address el) Hwc) as [Hwc' _];
    [pose proof (kw_generation _ Hwc); unfold is_u32 in *; lia|].
  pose proof (ew_live _ Hwe Hoc) as Hlive. unfold connects. set (c' := initialize _ _ _ _ _ _ _ c) in *.
  set (r1 := mkRegistry (<[kc := advance_endpoint (connected i cg 0 ec)]> (<[ks := end_of gs (ep_owner el) i cg 1]> (endpoints r)))
    (<[i := c']> (connections r))).
  assert (registry_wf r1) as Hw1.
  { apply (wf_join r Hw _ i c c' kc ec (advance_endpoint (connected i cg 0 ec)) ks es (end_of gs (ep_owner el) i cg 1)); try done.
    - apply not_joined. destruct Hst; congruence.
    - by apply free_not_joined.
    - destruct Hwe. by split.
    - by apply fresh_endpoint_wf.
    - unfold joined. simpl. by rewrite Hoc.
    - split; try done. simpl. lia.
    - by eapply end_linked; [done|lia|lia|..]. }
  apply (wf_set_endpoint r1 Hw1 kl el); [|apply not_joined; congruence| |apply not_joined; simpl; congruence].
  - simpl. by rewrite !list_lookup_insert_ne.
  - destruct Hwl. split; try done; cbn [enqueue_pending with_pending pending_length pending]; [lia|by rewrite length_insert].
Qed.

Lemma connect_stepped r own handle a : registry_wf r → stepped r (OpConnect own handle a).
Proof.
  intros Hw. unfold stepped, given, taken, entered, returned, exec.
  destruct (connect_run r own handle a Hw) as [[e ->]|(kc & kl & ks & i & ec & el & c & hs & gs & cg & Hcn & ->)]; [by apply step_refl|].
  cbn [snd]. pose proof Hcn as [_ _ _ _ _ _ _ _ [Hi Hocc] [Ecg Hcg] _]. pose proof (rw_connection _ Hw _ _ Hi) as Hwc.
  eapply step_join; [done|by eapply connects_wf|done|done| | |done].
  - simpl. lia.
  - apply initialize_wf; [done|]. pose proof (kw_generation _ Hwc). unfold is_u32 in *. lia.
Qed.

(** ** Closing *)

Lemma departed_later c c' s t :
  (s < 2)%nat → (t < 2)%nat → departed c c' s → later c c' t [] [].
Proof.
  intros Hs Ht. unfold departed. destruct (at_side (endpoint_open c) (1 - s)).
  - intros [Hn _ E2 _ E4 E5 _ _ _]. destruct (decide (t = s)) as [->|Hne].
    + apply later_idle; try done. by rewrite E2, at_set_other.
    + assert (t = 1 - s)%nat as -> by lia. apply later_deaf; [done|]. rewrite E2. replace (1 - (1 - s))%nat with s by lia. apply at_set_side.
  - intros [[Ho Hg _] _]. split; [lia|congruence..].
Qed.

Lemma departed_held c c' s : (s < 2)%nat → departed c c' s → held c ++ [] ≡ₚ flight_tokens c (1 - s) ++ held c'.
Proof.
  intros Hs Hd. rewrite app_nil_r, (held_side c s Hs), (held_side c' s Hs). unfold departed in Hd.
  destruct (at_side (endpoint_open c) (1 - s)).
  - destruct Hd as [_ _ _ _ _ E5 _ _ E9]. rewrite E9, (same_rights c c' s E5), app_nil_r. apply Permutation_app_comm.
  - destruct Hd as [[_ _ Ht] ->]. rewrite !Ht by lia. by rewrite !app_nil_r.
Qed.

Lemma close_connected_step r k e room :
  registry_wf r → endpoints r !! k = Some e → occupied e = true → (ROOM ≤ room)%nat →
  let '(tokens, r') := close_connected_endpoint k room r in
  step r nothing nothing [] tokens r' ∧ (length tokens ≤ ROOM)%nat.
Proof.
  intros Hw Hk Ho Hroom. pose proof (close_connected_run r k e room Hw Hk Ho Hroom) as Hrun.
  destruct (state_eqb (state e) Connected) eqn:Hst.
  - destruct Hrun as (c & c' & Hc & L & Hwc & Hd & ->). pose proof (lk_side _ _ _ L) as Hs.
    assert (joined e = true) as Hj by (unfold joined; by rewrite Ho, Hst). split.
    + eapply step_one; [by eapply wf_leave|done|done|by apply departed_held|intros t Ht; by apply (departed_later c c' (side e))|done].
    + apply flight_tokens_bound, (rw_connection _ Hw _ _ Hc). lia.
  - rewrite Hrun. split; [|simpl; lia]. eapply step_endpoint; [done|done|unfold joined; by rewrite Hst, andb_false_r| |done].
    apply vacant_wf, (rw_endpoint _ Hw _ _ Hk).
Qed.

Lemma close_pending_steps own handles : ∀ r0 r tokens room,
  step r0 nothing nothing [] tokens r → (ROOM * length handles ≤ room)%nat →
  let '(tokens', _, r') := foldl (close_pending own) (tokens, room, r) handles in
  step r0 nothing nothing [] tokens' r'.
Proof.
  induction handles as [|h handles IH]; intros r0 r tokens room Hstep Hroom; [done|]. cbn [foldl length] in *.
  unfold close_pending at 2. destruct (decode_endpoint h) as [[k g]|] eqn:Hd; [|apply IH; [done|lia]].
  destruct (_ && _) eqn:Hq; [|apply IH; [done|lia]]. rewrite !andb_true_iff in Hq. destruct Hq as [[[Ho _] _] _].
  pose proof (st_wf _ _ _ _ _ _ Hstep) as Hw.
  destruct (decode_handle_Some ENDPOINT_INDEX_BITS MAXIMUM_ENDPOINTS ltac:(done) _ _ _ Hd) as (Hk & _ & _).
  destruct (lookup_lt_is_Some_2 (endpoints r) k) as [e He]; [by rewrite rw_endpoints|].
  assert (endpoint_at r k = e) as E by by apply slot_at_Some. rewrite E in Ho.
  pose proof (close_connected_step r k e room Hw He Ho ltac:(lia)) as Hcl.
  destruct (close_connected_endpoint k room r) as [out r']. destruct Hcl as [Hs Hlen].
  apply IH; [|lia]. exact (step_trans _ _ _ _ _ _ _ _ _ _ _ Hstep Hs).
Qed.

Lemma close_stepped r own handle : registry_wf r → stepped r (OpClose own handle).
Proof.
  intros Hw. unfold stepped, given, taken, entered, returned, exec, close_locked, endpoint. m_unfold.
  destruct (resolved_endpoint r own handle) as [[k e]|x] eqn:Hr; [|by apply step_refl].
  destruct (resolved_endpoint_Some r own handle k e Hw Hr) as (Hk & E & Ho & _). rewrite E.
  destruct (state_eqb (state e) Listening) eqn:Hst.
  - apply bool_decide_eq_true in Hst. set (r1 := set_endpoint k _ r).
    assert (step r nothing nothing [] [] r1) as Hs1.
    { eapply step_endpoint; [done|done|apply not_joined; congruence| |done]. apply vacant_wf, (rw_endpoint _ Hw _ _ Hk). }
    set (queued := ring_view _ _ _ _ _).
    pose proof (close_pending_steps own queued r r1 [] MAXIMUM_CLOSE_DISCARDS Hs1) as Hfold.
    destruct (foldl _ _ _) as [[tokens room] r']. apply Hfold. unfold queued. rewrite ring_view_length.
    pose proof (ew_length _ (rw_endpoint _ Hw _ _ Hk)). unfold MAXIMUM_CLOSE_DISCARDS, ROOM. 
    unfold MAXIMUM_LISTEN_BACKLOG, MAXIMUM_RIGHTS_RECORDS, MAXIMUM_TRANSFER_DESCRIPTORS in *. lia.
  - pose proof (close_connected_step r k e MAXIMUM_CLOSE_DISCARDS Hw Hk Ho) as Hcl.
    destruct (close_connected_endpoint _ _ r) as [tokens r']. apply Hcl.
    unfold MAXIMUM_CLOSE_DISCARDS, ROOM, MAXIMUM_LISTEN_BACKLOG. lia.
Qed.

(** Every operation is a step. *)
Lemma op_stepped r op : registry_wf r → stepped r op.
Proof.
  intros Hw. destruct op as [| | | | | |own handle room flags rights_room|own handle input flags rights|own handle how|].
  all: try (destruct (locate r own handle) as [[i s]|x] eqn:Hloc; [|eapply unlocated_stepped; eauto 10];
            destruct (located_connection r own handle i s Hloc) as (c & Hi & _ & Hs & Hc & _)).
  - by apply create_stepped.
  - by apply create_pair_stepped.
  - by apply bind_stepped.
  - by apply listen_stepped.
  - by apply connect_stepped.
  - by apply accept_stepped.
  - by eapply receive_stepped.
  - destruct (decide (and_not flags SEND_FLAGS = 0)) as [Hf|Hf%Z.eqb_neq]; [by eapply send_stepped|].
    unfold stepped, given, taken, entered, returned, exec, send_message. rewrite Hloc, Hf. by apply step_refl.
  - destruct (Z.ltb_spec SHUT_RDWR (Z.of_N how)) as [Hgt|Hle]; [|by eapply shutdown_stepped].
    unfold stepped, given, taken, entered, returned, exec, shutdown_locked. apply Z.ltb_lt in Hgt. rewrite Hgt. by apply step_refl.
  - by apply close_stepped.
Qed.

(** ** Sequences *)

Definition run (ops : list Op) (r : SocketRegistry) : SocketRegistry := foldl (λ r op, exec op r) r ops.

(** What a sequence puts in and takes out. *)
Fixpoint all_given (ops : list Op) (r : SocketRegistry) (i s : nat) : list Item :=
  match ops with [] => [] | op :: ops => given r op i s ++ all_given ops (exec op r) i s end.
Fixpoint all_taken (ops : list Op) (r : SocketRegistry) (i s : nat) : list Delivery :=
  match ops with [] => [] | op :: ops => taken r op i s ++ all_taken ops (exec op r) i s end.
Fixpoint all_entered (ops : list Op) (r : SocketRegistry) : list ObjectKey :=
  match ops with [] => [] | op :: ops => entered r op ++ all_entered ops (exec op r) end.
Fixpoint all_returned (ops : list Op) (r : SocketRegistry) : list ObjectKey :=
  match ops with [] => [] | op :: ops => returned r op ++ all_returned ops (exec op r) end.

Lemma run_step ops : ∀ r, registry_wf r →
  step r (all_given ops r) (all_taken ops r) (all_entered ops r) (all_returned ops r) (run ops r).
Proof.
  induction ops as [|op ops IH]; intros r Hw; [by apply step_refl|].
  pose proof (op_stepped r op Hw) as H1. exact (step_trans _ _ _ _ _ _ _ _ _ _ _ H1 (IH _ (st_wf _ _ _ _ _ _ H1))).
Qed.

Lemma boot_connection_wf : connection_wf EMPTY_CONNECTION ∧ held EMPTY_CONNECTION = [].
Proof.
  assert (∀ s, channel_wf (at_side (outgoing EMPTY_CONNECTION) s) (at_side (outgoing_rights EMPTY_CONNECTION) s)) as Hch.
  { assert (length NO_RECORDS = MAXIMUM_RIGHTS_RECORDS) as Hl by done.
    destruct (channel_reset EMPTY_RIGHTS Hl) as [Hw _]. intros [|s]; exact Hw. }
  split; [|done]. split; try done; intros [|[|s]] Hs; try done; lia.
Qed.

Lemma socket_boot_wf : registry_wf REGISTRY.
Proof.
  split; try done.
  - intros i c [-> _]%lookup_replicate. apply boot_connection_wf.
  - intros k e [-> _]%lookup_replicate. apply vacant_wf. done.
  - intros k e [-> _]%lookup_replicate. done.
  - intros i c [|[|s]] [-> _]%lookup_replicate; done.
Qed.

Lemma boot_in_flight : in_flight REGISTRY = [].
Proof.
  unfold in_flight. cbn [connections REGISTRY]. induction MAXIMUM_CONNECTIONS as [|n IH]; [done|].
  cbn [replicate]. rewrite bind_cons, IH, (proj2 boot_connection_wf). done.
Qed.

Lemma run_wf ops : registry_wf (run ops REGISTRY).
Proof. exact (st_wf _ _ _ _ _ _ (run_step ops REGISTRY socket_boot_wf)). Qed.

(** A live end of a connection is found by its handle. *)
Lemma joined_located r k e :
  registry_wf r → endpoints r !! k = Some e → joined e = true →
  ∃ h, encode_endpoint k (ep_generation e) = Some h ∧ locate r (ep_owner e) h = Ok (connection_index e, side e).
Proof.
  intros Hw Hk Hj. destruct (rw_link _ Hw k e Hk Hj) as (c & Hc & [L1 L2 L3 L4 L5 L6 L7]). destruct (joined_inv e Hj) as [Ho Hst].
  exists (at_side (endpoint_handles c) (side e)). split; [done|]. unfold locate, resolved_endpoint.
  rewrite (decode_encode_endpoint k (ep_generation e) _ ltac:(lia) L4). assert (endpoint_at r k = e) as -> by by apply slot_at_Some.
  rewrite Ho, Z.eqb_refl, handle_eqb_refl. cbn [negb orb]. unfold resolved_connection, state_eqb.
  rewrite bool_decide_true by done. cbn [negb]. rewrite Hc, L1, L2, Z.eqb_refl, Z.eqb_refl, L5, handle_eqb_refl.
  destruct (Nat.ltb_spec (side e) 2); [done|lia].
Qed.

(** The queue of server ends of a listener. *)
Definition queue (e : EndpointSlot) : list Z :=
  ring_view 0 MAXIMUM_LISTEN_BACKLOG (pending e) (pending_head e) (pending_length e).

Lemma enqueue_queue h e :
  endpoint_wf e → (pending_length e < MAXIMUM_LISTEN_BACKLOG)%nat → queue (enqueue_pending h e) = queue e ++ [h].
Proof. intros [_ _ Hh _ Hp _] Hn. unfold queue. cbn. by apply ring_view_insert. Qed.

(** ** Properties *)

(** C30. Stream integrity. Take any two moments of any history of
    operations by any processes, and a connection in use at the second that is
    the one of the first (same slot and generation) and whose reader has not
    stopped reading. What was in flight plus what was sent since is what the
    receives delivered, in order, followed by what is still in flight; every
    set of transfers is delivered with its byte, and no receive delivers two
    sets. The bound excludes a connection that has carried 2^64 bytes. *)
Theorem socket_stream_intact (before after : list Op) (i s : nat) (c c' : ConnectionSlot) :
  (s < 2)%nat →
  connections (run before REGISTRY) !! i = Some c →
  connections (run after (run before REGISTRY)) !! i = Some c' →
  c_occupied c' = true → c_generation c' = c_generation c → at_side (read_open c') (1 - s) = true →
  total c s + Z.of_nat (length (all_given after (run before REGISTRY) i s)) ≤ U64_MAX →
  ∃ parts, all_taken after (run before REGISTRY) i s = observe <$> parts ∧
    Forall (λ part, marks part ≤ 1)%nat parts ∧
    flight c s ++ all_given after (run before REGISTRY) i s = concat parts ++ flight c' s.
Proof.
  intros Hs Hc Hc' Ho Hg Hr Hmax. destruct (run_step after _ (run_wf before)) as [_ _ Hl].
  destruct (Hl i c Hc) as (x & Hx & Hlater). assert (x = c') as -> by congruence.
  by destruct (lt_stream _ _ _ _ _ (Hlater s Hs) Hg Ho Hr Hmax) as [_ Hparts].
Qed.

(** C31. Descriptor transfers are conserved: over any operations from boot,
    the transfers that sends moved into sockets are exactly, with
    multiplicity, those that receives, shutdowns and closes handed back and
    those still in flight. *)
Theorem socket_rights_conserved (ops : list Op) :
  all_entered ops REGISTRY ≡ₚ all_returned ops REGISTRY ++ in_flight (run ops REGISTRY).
Proof. destruct (run_step ops REGISTRY socket_boot_wf) as [_ Hp _]. by rewrite boot_in_flight in Hp. Qed.

(** Endpoints and connections stay linked: after any operations, every
    connected endpoint resolves through its handle to its own side of its
    connection, two endpoints never share a side, and a connection in use
    has a live endpoint, so no connection slot leaks. *)
Theorem socket_links (ops : list Op) :
  (∀ k e, endpoints (run ops REGISTRY) !! k = Some e → occupied e = true → state e = Connected →
    ∃ h, encode_endpoint k (ep_generation e) = Some h ∧
      locate (run ops REGISTRY) (ep_owner e) h = Ok (connection_index e, side e) ∧
      ∀ k' e', endpoints (run ops REGISTRY) !! k' = Some e' → occupied e' = true → state e' = Connected →
        connection_index e' = connection_index e → side e' = side e → k' = k) ∧
  (∀ i c, connections (run ops REGISTRY) !! i = Some c → c_occupied c = true →
    ∃ k e, endpoints (run ops REGISTRY) !! k = Some e ∧ occupied e = true ∧ state e = Connected ∧ connection_index e = i).
Proof.
  pose proof (run_wf ops) as Hw. assert (∀ e, occupied e = true → state e = Connected → joined e = true) as Hjoin.
  { intros e Ho Hst. unfold joined, state_eqb. by rewrite Ho, bool_decide_true. }
  split.
  - intros k e Hk Ho Hst. destruct (joined_located _ k e Hw Hk (Hjoin e Ho Hst)) as (h & Hh & Hloc). exists h. split_and!; try done.
    intros k' e' Hk' Ho' Hst' Hi Hs. destruct (rw_link _ Hw k e Hk (Hjoin e Ho Hst)) as (c & Hc & L).
    destruct (rw_link _ Hw k' e' Hk' (Hjoin e' Ho' Hst')) as (x & Hx & L'). assert (x = c) as -> by congruence.
    by eapply linked_inj.
  - intros i c Hi Ho. rewrite (kw_occupied _ (rw_connection _ Hw _ _ Hi)) in Ho.
    assert (∃ s, (s < 2)%nat ∧ at_side (endpoint_open c) s = true) as (s & Hs & Hopen).
    { apply orb_true_iff in Ho as [Ho|Ho]; [exists O|exists 1%nat]; (split; [lia|done]). }
    destruct (rw_back _ Hw i c s Hi Hs Hopen) as (k & e & Hk & Hj & He & _). exists k, e.
    destruct (joined_inv e Hj). done.
Qed.

(** A receive in any reachable registry, on every branch: it returns
    what [receive_spec] says of the stream in flight, changes nothing when
    it takes nothing or fails, and otherwise takes exactly the first [n]
    items off that direction and leaves the rest of the connection alone. *)
Theorem socket_receive (ops : list Op) (own : ProcessHandle) (handle : Z) (i s : nat) (c : ConnectionSlot)
    (room : nat) (flags : Z) (rights_room : nat) :
  locate (run ops REGISTRY) own handle = Ok (i, s) → connections (run ops REGISTRY) !! i = Some c →
  and_not flags RECEIVE_FLAGS = 0 → total c (1 - s) ≤ U64_MAX →
  match receive_spec c s room (peeks flags) rights_room with
  | Err e => receive_message own handle room flags rights_room (run ops REGISTRY) = (Err e, run ops REGISTRY)
  | Ok (data, tokens, n) =>
      if (n =? 0)%nat
      then receive_message own handle room flags rights_room (run ops REGISTRY) = (Ok (data, tokens), run ops REGISTRY)
      else ∃ c', receive_message own handle room flags rights_room (run ops REGISTRY)
                   = (Ok (data, tokens), set_connection i c' (run ops REGISTRY)) ∧ takes c c' (1 - s) n
  end.
Proof.
  intros Hloc Hi Hf Hmax. destruct (located_connection _ _ _ _ _ Hloc) as (x & Hx & _ & Hs & Hat & _).
  assert (x = c) as -> by congruence. apply receive_run; try done. exact (rw_connection _ (run_wf ops) _ _ Hi).
Qed.

(** A send in any reachable registry, on every branch: [send_spec]
    says from the stream in flight whether it fails, blocks or accepts [n]
    bytes; then exactly those bytes are appended, the transfers on the first. *)
Theorem socket_send (ops : list Op) (own : ProcessHandle) (handle : Z) (i s : nat) (c : ConnectionSlot)
    (input : list Z) (flags : Z) (rights : list ObjectKey) :
  locate (run ops REGISTRY) own handle = Ok (i, s) → connections (run ops REGISTRY) !! i = Some c →
  and_not flags SEND_FLAGS = 0 →
  match send_spec c s input rights with
  | Err e => send_message own handle input flags rights (run ops REGISTRY) = (Err e, run ops REGISTRY)
  | Ok O => send_message own handle input flags rights (run ops REGISTRY) = (Ok O, run ops REGISTRY) ∧ input = [] ∧ rights = []
  | Ok n => ∃ c', send_message own handle input flags rights (run ops REGISTRY)
                    = (Ok n, set_connection i c' (run ops REGISTRY)) ∧
              gives c c' s (take n input) rights ∧ at_side (read_open c) (1 - s) = true
  end.
Proof.
  intros Hloc Hi Hf. destruct (located_connection _ _ _ _ _ Hloc) as (x & Hx & _ & Hs & Hat & _).
  assert (x = c) as -> by congruence. apply send_run; try done. exact (rw_connection _ (run_wf ops) _ _ Hi).
Qed.

(** A successful connect joins the client and a new server end as
    sides 0 and 1 of one connection with nothing in flight, and appends the
    server end to the queue of the first listener at the address, which
    stays within its backlog. *)
Theorem socket_connect (ops : list Op) (own : ProcessHandle) (handle : Z) (a : UnixAddress) (r' : SocketRegistry) :
  connect own handle a (run ops REGISTRY) = (Ok tt, r') →
  ∃ k e e' h i c, position (listens_at a) (endpoints (run ops REGISTRY)) = Some k ∧
    endpoints (run ops REGISTRY) !! k = Some e ∧ endpoints r' !! k = Some e' ∧ queue e' = queue e ++ [h] ∧
    (length (queue e') ≤ backlog e)%nat ∧
    locate r' own handle = Ok (i, 0%nat) ∧ locate r' (ep_owner e) h = Ok (i, 1%nat) ∧
    connections r' !! i = Some c ∧ flight c 0 = [] ∧ flight c 1 = [].
Proof.
  pose proof (run_wf ops) as Hw. intros Hrun.
  destruct (connect_run _ own handle a Hw) as [[e Herr]|(kc & kl & ks & i & ec & el & c & hs & gs & cg & Hcn & Hok)]; [congruence|].
  assert (r' = connects (run ops REGISTRY) own handle kc kl ks i ec el c hs gs cg) as -> by congruence.
  pose proof (connects_wf _ _ _ _ _ _ _ _ _ _ _ _ _ _ Hw Hcn) as Hw'. set (r := run ops REGISTRY) in *.
  destruct Hcn as [(Hkc & Hoc & Hown) Hhc Hst Hpos (Hkl & Hol & Hsl & Hal) Hroom [Hhs Hgs] (es & Hes & Hos) [Hi Hocc] Hcg (N1 & N2 & N3)].
  set (r' := connects _ _ _ _ _ _ _ _ _ _ _ _ _) in *. pose proof (rw_endpoint _ Hw _ _ Hkl) as Hwl. pose proof (ew_backlog _ Hwl).
  assert (endpoints r' !! kl = Some (enqueue_pending hs el)) as Hkl'.
  { simpl. rewrite list_lookup_insert_eq; [done|]. rewrite !length_insert. by eapply lookup_lt_Some. }
  assert (endpoints r' !! kc = Some (advance_endpoint (connected i cg 0 ec))) as Hkc'.
  { simpl. rewrite list_lookup_insert_ne, list_lookup_insert_eq; [done| |done]. rewrite length_insert. by eapply lookup_lt_Some. }
  assert (endpoints r' !! ks = Some (end_of gs (ep_owner el) i cg 1)) as Hks'.
  { simpl. do 2 rewrite list_lookup_insert_ne by done. apply list_lookup_insert_eq. by eapply lookup_lt_Some. }
  destruct (joined_located r' kc _ Hw' Hkc') as (h & Hh & Hloc); [unfold joined; simpl; by rewrite Hoc|].
  destruct (joined_located r' ks _ Hw' Hks' eq_refl) as (h' & Hh' & Hloc').
  simpl in Hh, Hloc, Hh', Hloc'. assert (h = handle) as -> by congruence. assert (h' = hs) as -> by congruence. rewrite Hown in Hloc.
  exists kl, el, (enqueue_pending hs el), hs, i, (initialize cg handle hs own (ep_owner el) (address ec) (address el) c). split_and!; [done|done|exact Hkl'|apply enqueue_queue; [done|lia]| |done|done| |done|done].
  - unfold queue. rewrite ring_view_length. simpl. lia.
  - simpl. apply list_lookup_insert_eq. by eapply lookup_lt_Some.
Qed.

(** ** A session *)

Lemma run_app before after r : run (before ++ after) r = run after (run before r).
Proof. apply foldl_app. Qed.

Lemma connection_lookup ops i : (i < MAXIMUM_CONNECTIONS)%nat →
  connections (run ops REGISTRY) !! i = Some (connection_at (run ops REGISTRY) i).
Proof.
  intros Hi. destruct (lookup_lt_is_Some_2 (connections (run ops REGISTRY)) i) as [c Hc].
  { by rewrite (rw_connections _ (run_wf ops)). }
  rewrite Hc. f_equal. symmetry. by apply slot_at_Some.
Qed.

Definition SERVER : ProcessHandle := mkHandle 3 1.
Definition CLIENT : ProcessHandle := mkHandle 4 1.
Definition SERVICE : UnixAddress := mkAddress (47 :: replicate (UNIX_PATH_BYTES - 1) 0) 1.

(** A server listens; a client has a socket. *)
Definition LISTENING : list Op :=
  [OpCreate SERVER AF_UNIX SOCK_STREAM 0; OpBind SERVER 257 SERVICE; OpListen SERVER 257 4;
   OpCreate CLIENT AF_UNIX SOCK_STREAM 0].
(** The client connects; the server accepts. *)
Definition CONNECTED : list Op := LISTENING ++ [OpConnect CLIENT 258 SERVICE; OpAccept SERVER 257].
(** Two messages, each with a descriptor, and one receive. *)
Definition TALK : list Op :=
  [OpSend CLIENT 258 [1; 2; 3] 0 [mkKey 5 1]; OpSend CLIENT 258 [4] 0 [mkKey 6 1]; OpReceive SERVER 259 10 0 8].

(** The receive stops before the second message's descriptor. *)
Example talk_delivers : all_taken TALK (run CONNECTED REGISTRY) 0 0 = [([1; 2; 3], [mkKey 5 1])].
Proof. vm_compute. reflexivity. Qed.

Lemma socket_stream_intact_witness :
  ∃ parts, all_taken TALK (run CONNECTED REGISTRY) 0 0 = observe <$> parts ∧
    Forall (λ part, marks part ≤ 1)%nat parts ∧
    flight (connection_at (run CONNECTED REGISTRY) 0) 0 ++ all_given TALK (run CONNECTED REGISTRY) 0 0
    = concat parts ++ flight (connection_at (run TALK (run CONNECTED REGISTRY)) 0) 0.
Proof.
  apply (socket_stream_intact CONNECTED TALK 0 0 (connection_at (run CONNECTED REGISTRY) 0)
    (connection_at (run TALK (run CONNECTED REGISTRY)) 0)).
  - lia.
  - apply connection_lookup. vm_compute. lia.
  - rewrite <- run_app. apply connection_lookup. vm_compute. lia.
  - vm_compute. reflexivity.
  - vm_compute. reflexivity.
  - vm_compute. reflexivity.
  - vm_compute. discriminate.
Defined.

Lemma socket_receive_witness :
  match receive_spec (connection_at (run (CONNECTED ++ TALK) REGISTRY) 0) 1 10 (peeks 0) 8 with
  | Err e => receive_message SERVER 259 10 0 8 (run (CONNECTED ++ TALK) REGISTRY) = (Err e, run (CONNECTED ++ TALK) REGISTRY)
  | Ok (data, tokens, n) =>
      if (n =? 0)%nat
      then receive_message SERVER 259 10 0 8 (run (CONNECTED ++ TALK) REGISTRY) = (Ok (data, tokens), run (CONNECTED ++ TALK) REGISTRY)
      else ∃ c', receive_message SERVER 259 10 0 8 (run (CONNECTED ++ TALK) REGISTRY)
                   = (Ok (data, tokens), set_connection 0 c' (run (CONNECTED ++ TALK) REGISTRY)) ∧
                 takes (connection_at (run (CONNECTED ++ TALK) REGISTRY) 0) c' (1 - 1) n
  end.
Proof.
  apply (socket_receive (CONNECTED ++ TALK) SERVER 259 0 1 (connection_at (run (CONNECTED ++ TALK) REGISTRY) 0) 10 0 8).
  - vm_compute. reflexivity.
  - apply connection_lookup. vm_compute. lia.
  - vm_compute. reflexivity.
  - vm_compute. discriminate.
Defined.

Lemma socket_send_witness :
  match send_spec (connection_at (run CONNECTED REGISTRY) 0) 0 [1; 2] [mkKey 5 1] with
  | Err e => send_message CLIENT 258 [1; 2] 0 [mkKey 5 1] (run CONNECTED REGISTRY) = (Err e, run CONNECTED REGISTRY)
  | Ok O => send_message CLIENT 258 [1; 2] 0 [mkKey 5 1] (run CONNECTED REGISTRY) = (Ok O, run CONNECTED REGISTRY) ∧
            [1; 2] = [] ∧ [mkKey 5 1] = []
  | Ok n => ∃ c', send_message CLIENT 258 [1; 2] 0 [mkKey 5 1] (run CONNECTED REGISTRY)
                    = (Ok n, set_connection 0 c' (run CONNECTED REGISTRY)) ∧
              gives (connection_at (run CONNECTED REGISTRY) 0) c' 0 (take n [1; 2]) [mkKey 5 1] ∧
              at_side (read_open (connection_at (run CONNECTED REGISTRY) 0)) (1 - 0) = true
  end.
Proof.
  apply (socket_send CONNECTED CLIENT 258 0 0 (connection_at (run CONNECTED REGISTRY) 0) [1; 2] 0 [mkKey 5 1]).
  - vm_compute. reflexivity.
  - apply connection_lookup. vm_compute. lia.
  - vm_compute. reflexivity.
Defined.

Lemma socket_connect_witness :
  ∃ k e e' h i c, position (listens_at SERVICE) (endpoints (run LISTENING REGISTRY)) = Some k ∧
    endpoints (run LISTENING REGISTRY) !! k = Some e ∧
    endpoints (connect CLIENT 258 SERVICE (run LISTENING REGISTRY)).2 !! k = Some e' ∧ queue e' = queue e ++ [h] ∧
    (length (queue e') ≤ backlog e)%nat ∧
    locate (connect CLIENT 258 SERVICE (run LISTENING REGISTRY)).2 CLIENT 258 = Ok (i, 0%nat) ∧
    locate (connect CLIENT 258 SERVICE (run LISTENING REGISTRY)).2 (ep_owner e) h = Ok (i, 1%nat) ∧
    connections (connect CLIENT 258 SERVICE (run LISTENING REGISTRY)).2 !! i = Some c ∧ flight c 0 = [] ∧ flight c 1 = [].
Proof.
  apply (socket_connect LISTENING CLIENT 258 SERVICE (connect CLIENT 258 SERVICE (run LISTENING REGISTRY)).2).
  assert (is_ok (connect CLIENT 258 SERVICE (run LISTENING REGISTRY)).1 = true) as Hok by (vm_compute; reflexivity).
  destruct (connect CLIENT 258 SERVICE (run LISTENING REGISTRY)) as [[[]|e] r']; [reflexivity|discriminate Hok].
Defined.
