(* ===== verification/Sums.v ===== *)
(** * Finite sums of integers, and congruence

    [a ≡[p] b] is congruence modulo [p]; sums, products and powers respect it,
    so congruences are rewritten under them. *)

From stdpp Require Import prelude list numbers.
From Stdlib Require Import ZArith Lia.
From S2P Require Import Prelude.

(** [f 0 + … + f (n - 1)] *)
Fixpoint sum (n : nat) (f : nat → Z) : Z :=
  match n with O => 0 | S n => sum n f + f n end.

Lemma sum_ext n f g : (∀ i, (i < n)%nat → f i = g i) → sum n f = sum n g.
Proof. induction n as [|n IH]; intros H; simpl; [done|]. rewrite IH, H by (intros; try apply H; lia). done. Qed.

Lemma sum_add n f g : sum n (λ i, f i + g i) = sum n f + sum n g.
Proof. induction n as [|n IH]; simpl; lia. Qed.

Lemma sum_sub n f g : sum n (λ i, f i - g i) = sum n f - sum n g.
Proof. induction n as [|n IH]; simpl; lia. Qed.

Lemma sum_scale n c f : sum n (λ i, c * f i) = c * sum n f.
Proof. induction n as [|n IH]; simpl; lia. Qed.

Lemma sum_scale_r n c f : sum n (λ i, f i * c) = sum n f * c.
Proof. induction n as [|n IH]; simpl; lia. Qed.

Lemma sum_zero n f : (∀ i, (i < n)%nat → f i = 0) → sum n f = 0.
Proof. induction n as [|n IH]; intros H; simpl; [done|]. rewrite IH, H by (intros; try apply H; lia). done. Qed.

Lemma sum_swap n m (f : nat → nat → Z) : sum n (λ i, sum m (f i)) = sum m (λ j, sum n (λ i, f i j)).
Proof.
  induction n as [|n IH]; simpl; [by rewrite sum_zero|]. by rewrite IH, sum_add.
Qed.

Lemma sum_nonneg n f : (∀ i, (i < n)%nat → 0 ≤ f i) → 0 ≤ sum n f.
Proof.
  induction n as [|n IH]; intros H; simpl; [done|]. pose proof (H n ltac:(lia)). pose proof (IH ltac:(intros; apply H; lia)). lia.
Qed.

Lemma sum_mono n f g : (∀ i, (i < n)%nat → f i ≤ g i) → sum n f ≤ sum n g.
Proof.
  induction n as [|n IH]; intros H; simpl; [done|]. pose proof (H n ltac:(lia)). pose proof (IH ltac:(intros; apply H; lia)). lia.
Qed.

(** The only term that counts. *)
Lemma sum_one n k c : (k < n)%nat → sum n (λ i, if (i =? k)%nat then c i else 0) = c k.
Proof.
  induction n as [|n IH]; intros Hk; simpl; [lia|]. destruct (Nat.eqb_spec n k) as [->|Hne].
  - rewrite sum_zero; [lia|]. intros i Hi. by destruct (Nat.eqb_spec i k); [lia|].
  - rewrite IH by lia. lia.
Qed.

(** ** Congruence *)

Record cong (p a b : Z) : Prop := mkCong { cong_mod : a mod p = b mod p }.

Declare Scope congruence_scope.
Notation "a ≡[ p ] b" := (cong p a b) (at level 70, p at level 200) : congruence_scope.
Open Scope congruence_scope.

#[global] Instance cong_equivalence p : Equivalence (cong p).
Proof. split; [done|by intros a b [E]; split|]. intros a b c [E1] [E2]. split. congruence. Qed.

#[global] Instance cong_add p : Proper (cong p ==> cong p ==> cong p) Z.add.
Proof. intros a b [E1] c d [E2]. split. by rewrite Zplus_mod, E1, E2, <- Zplus_mod. Qed.

#[global] Instance cong_sub p : Proper (cong p ==> cong p ==> cong p) Z.sub.
Proof. intros a b [E1] c d [E2]. split. by rewrite Zminus_mod, E1, E2, <- Zminus_mod. Qed.

#[global] Instance cong_mul p : Proper (cong p ==> cong p ==> cong p) Z.mul.
Proof. intros a b [E1] c d [E2]. split. by rewrite Zmult_mod, E1, E2, <- Zmult_mod. Qed.

#[global] Instance cong_pow p : Proper (cong p ==> eq ==> cong p) Z.pow.
Proof.
  intros a b E n ? <-. destruct (Z.leb_spec 0 n) as [Hn|Hn]; [|by rewrite !Z.pow_neg_r].
  pattern n. apply natlike_ind; [done| |done]. intros x Hx IH. rewrite !Z.pow_succ_r by done. by apply cong_mul.
Qed.

Lemma mod_cong p a : a mod p ≡[p] a.
Proof. split. apply Zmod_mod. Qed.

Lemma cong_mod_eq p a b : a ≡[p] b → 0 ≤ a < p → a = b mod p.
Proof. intros [E] Ha. by rewrite <- E, Z.mod_small. Qed.

Lemma cong_unique p a b : a ≡[p] b → 0 ≤ a < p → 0 ≤ b < p → a = b.
Proof. intros [E] Ha Hb. by rewrite !Z.mod_small in E by done. Qed.

Lemma sum_congr p n f g : (∀ i, (i < n)%nat → f i ≡[p] g i) → sum n f ≡[p] sum n g.
Proof.
  induction n as [|n IH]; intros H; simpl; [done|]. rewrite IH, H by (intros; try apply H; lia). done.
Qed.

#[global] Instance cong_sum p n : Proper (pointwise_relation _ (cong p) ==> cong p) (sum n).
Proof. intros f g E. apply sum_congr. intros i _. apply E. Qed.

Lemma sum_list (l : list Z) : foldl Z.add 0 l = sum (length l) (slot_at 0 l).
Proof.
  induction l as [|x l IH] using rev_ind; [done|]. rewrite foldl_app, length_app, Nat.add_comm. simpl. rewrite IH.
  f_equal.
  - apply sum_ext. intros i Hi. unfold slot_at. by rewrite lookup_app_l.
  - unfold slot_at. by rewrite list_lookup_middle.
Qed.
