(* ===== verification/ExactNtt.v ===== *)
(** * Exact spectral convolution: certified_math/exact_ntt.rs

    A 64-point number-theoretic transform over two prime fields, the exact
    circular convolution built from it by the Chinese remainder theorem, and
    the fair queue that smooths its deficits with it. The loops of the
    transform do not depend on the data; they are written for any type of
    values with a butterfly, so that the same loops run on rows of coefficients
    in ExactNttProofs.v. *)

From stdpp Require Import prelude list numbers.
From Stdlib Require Import ZArith Lia.
From S2P Require Import Prelude.

Definition NTT_LENGTH : nat := 64.
Definition MODULUS_0 : Z := 998244353.
Definition MODULUS_1 : Z := 1004535809.
Definition PRIMITIVE_ROOT_0 : Z := 3.
Definition PRIMITIVE_ROOT_1 : Z := 3.
Definition CRT_MODULUS : Z := MODULUS_0 * MODULUS_1.
Definition U128_MAX : Z := 2 ^ 128 - 1.
Arguments NTT_LENGTH : simpl never.
Arguments MODULUS_0 : simpl never.
Arguments MODULUS_1 : simpl never.
Arguments U128_MAX : simpl never.

Inductive ExactNttError := CoefficientBound | Arithmetic | InvalidClassCount | ZeroSecret.

Record Modulus := mkModulus { value : Z; primitive_root : Z }.
Definition MOD_0 : Modulus := mkModulus MODULUS_0 PRIMITIVE_ROOT_0.
Definition MOD_1 : Modulus := mkModulus MODULUS_1 PRIMITIVE_ROOT_1.

(** Additions are at 64 bits, the product at 128, where it cannot overflow. *)
Definition add_mod (left right modulus : Z) : Z :=
  let sum := wrapping_add U64_MAX left right in
  if modulus <=? sum then sum - modulus else sum.

Definition sub_mod (left right modulus : Z) : Z :=
  if right <=? left then left - right else wrapping_add U64_MAX left modulus - right.

Definition mul_mod (left right modulus : Z) : Z := (left * right) mod modulus.

(** [while exponent != 0]: an exponent of 64 bits takes at most 64 rounds. *)
Fixpoint pow_loop (rounds : nat) (base exponent modulus result : Z) : Z :=
  match rounds with
  | O => result
  | S rounds =>
      if exponent =? 0 then result
      else
        let result := if Z.land exponent 1 =? 0 then result else mul_mod result base modulus in
        pow_loop rounds (mul_mod base base modulus) (Z.shiftr exponent 1) modulus result
  end.

Definition pow_mod (base exponent modulus : Z) : Z := pow_loop 64 (base mod modulus) exponent modulus 1.

Definition inverse_mod (x modulus : Z) : Z := pow_mod x (modulus - 2) modulus.

(** [while reverse & bit != 0 { … }; reverse ^= bit]: [bit] is gone after 6
    shifts. *)
Fixpoint carry (rounds : nat) (reverse bit : Z) : Z :=
  match rounds with
  | O => Z.lxor reverse bit
  | S rounds =>
      if Z.land reverse bit =? 0 then Z.lxor reverse bit
      else carry rounds (Z.lxor reverse bit) (Z.shiftr bit 1)
  end.

(** ** The transform *)

Section Loops.
Context {A : Type} (d : A) (butterfly : A → A → Z → A * A) (scale : A → Z → A).

Definition swap (i j : nat) (values : list A) : list A :=
  <[i := slot_at d values j]> (<[j := slot_at d values i]> values).

(** [while index < NTT_LENGTH]; [n] rounds are left. *)
Fixpoint reverse_loop (n index : nat) (reverse : Z) (values : list A) : list A :=
  match n with
  | O => values
  | S n =>
      let reverse := carry 7 reverse (Z.shiftr (Z.of_nat NTT_LENGTH) 1) in
      let values := if Z.of_nat index <? reverse then swap index (Z.to_nat reverse) values else values in
      reverse_loop n (S index) reverse values
  end.

Definition bit_reverse (values : list A) : list A := reverse_loop (NTT_LENGTH - 1) 1 0 values.

(** [while offset < half]; [first] is [block + offset]. *)
Fixpoint offset_loop (n : nat) (modulus stage_root : Z) (first half : nat) (twiddle : Z) (values : list A) : list A :=
  match n with
  | O => values
  | S n =>
      let '(low, high) := butterfly (slot_at d values first) (slot_at d values (first + half)) twiddle in
      offset_loop n modulus stage_root (S first) half (mul_mod twiddle stage_root modulus)
        (<[(first + half)%nat := high]> (<[first := low]> values))
  end.

(** [while block < NTT_LENGTH] *)
Fixpoint block_loop (n : nat) (modulus stage_root : Z) (block len : nat) (values : list A) : list A :=
  match n with
  | O => values
  | S n =>
      let half := (len / 2)%nat in
      block_loop n modulus stage_root (block + len) len (offset_loop half modulus stage_root block half 1 values)
  end.

(** [while length <= NTT_LENGTH] *)
Fixpoint stage_loop (n : nat) (modulus direction_root : Z) (len : nat) (values : list A) : list A :=
  match n with
  | O => values
  | S n =>
      let stage_root := pow_mod direction_root (Z.of_nat (NTT_LENGTH / len)) modulus in
      stage_loop n modulus direction_root (len * 2) (block_loop (NTT_LENGTH / len) modulus stage_root 0 len values)
  end.

Definition transform_with (modulus : Modulus) (inverse : bool) (values : list A) : list A :=
  let values := bit_reverse values in
  let root := pow_mod (primitive_root modulus) ((value modulus - 1) / Z.of_nat NTT_LENGTH) (value modulus) in
  let direction_root := if inverse then inverse_mod root (value modulus) else root in
  let values := stage_loop 6 (value modulus) direction_root 2 values in
  if inverse then
    let length_inverse := inverse_mod (Z.of_nat NTT_LENGTH) (value modulus) in
    (λ x, scale x length_inverse) <$> values
  else values.
End Loops.

Definition butterfly (modulus : Z) (even odd twiddle : Z) : Z * Z :=
  let odd := mul_mod odd twiddle modulus in
  (add_mod even odd modulus, sub_mod even odd modulus).

Definition transform (values : list Z) (modulus : Modulus) (inverse : bool) : list Z :=
  transform_with 0 (butterfly (value modulus)) (λ x c, mul_mod x c (value modulus)) modulus inverse values.

(** ** The convolution *)

Definition convolution_mod (left right : list Z) (modulus : Modulus) : list Z :=
  let left_hat := (λ x, x mod value modulus) <$> left in
  let right_hat := (λ x, x mod value modulus) <$> right in
  let left_hat := transform left_hat modulus false in
  let right_hat := transform right_hat modulus false in
  transform (zip_with (λ x y, mul_mod x y (value modulus)) left_hat right_hat) modulus true.

(** [sum = sum.checked_add(value)?; max = max.max(value)] over an array. *)
Fixpoint sum_and_max (l : list Z) (total largest : Z) : option (Z * Z) :=
  match l with
  | [] => Some (total, largest)
  | x :: l =>
      match checked_add U128_MAX total x with
      | Some total => sum_and_max l total (largest `max` x)
      | None => None
      end
  end.

Definition checked_mul (a b : Z) : option Z := if a * b <=? U128_MAX then Some (a * b) else None.

Definition coefficient_upper_bound (left right : list Z) : Result Z ExactNttError :=
  match sum_and_max left 0 0, sum_and_max right 0 0 with
  | Some (left_sum, left_max), Some (right_sum, right_max) =>
      match checked_mul left_sum right_max, checked_mul right_sum left_max with
      | Some bound_a, Some bound_b => Ok (bound_a `min` bound_b)
      | _, _ => Err Arithmetic
      end
  | _, _ => Err Arithmetic
  end.

Definition crt_pair (residue_0 residue_1 : Z) : Z :=
  let p0_mod_p1 := MODULUS_0 mod MODULUS_1 in
  let p0_inverse := inverse_mod p0_mod_p1 MODULUS_1 in
  let delta :=
    if residue_0 mod MODULUS_1 <=? residue_1 then residue_1 - residue_0 mod MODULUS_1
    else wrapping_add U64_MAX residue_1 MODULUS_1 - residue_0 mod MODULUS_1 in
  let multiplier := mul_mod delta p0_inverse MODULUS_1 in
  residue_0 + MODULUS_0 * multiplier.

(** The loop that combines the residues, with its check. *)
Fixpoint combine (bound : Z) (residues : list (Z * Z)) : Result (list Z) ExactNttError :=
  match residues with
  | [] => Ok []
  | (r0, r1) :: residues =>
      let x := crt_pair r0 r1 in
      if (bound <? x) || (U64_MAX <? x) then Err Arithmetic
      else match combine bound residues with Ok l => Ok (x :: l) | Err e => Err e end
  end.

Definition circular_convolution_exact (left right : list Z) : Result (list Z) ExactNttError :=
  match coefficient_upper_bound left right with
  | Err e => Err e
  | Ok bound =>
      if (CRT_MODULUS <=? bound) || (U64_MAX <? bound) then Err CoefficientBound
      else combine bound (zip (convolution_mod left right MOD_0) (convolution_mod left right MOD_1))
  end.

(** ** The fair queue *)

Record SpectralDecision := mkDecision {
  class : Z;
  raw_deficit : Z;
  smoothed_deficit : Z;
  epoch : Z;
  root : Z;
}.

Record ExactSpectralFairQueue := mkQueue {
  deficits : list Z;
  kernel : list Z;
  classes : nat;
  cursor : nat;
  q_epoch : Z;
  secret : Z;
}.

Definition wrapping_mul (a b : Z) : Z := (a * b) mod 2 ^ 64.

Definition mix (state word : Z) : Z :=
  let state := Z.lxor state (wrapping_mul word 0x9e3779b97f4a7c15) in
  let state := Z.lxor state (Z.shiftr state 30) in
  let state := wrapping_mul state 0xbf58476d1ce4e5b9 in
  let state := Z.lxor state (Z.shiftr state 27) in
  let state := wrapping_mul state 0x94d049bb133111eb in
  Z.lxor state (Z.shiftr state 31).

Definition decision_root (key : Z) (decision : SpectralDecision) : Z :=
  let state := mix key (class decision) in
  let state := mix state (raw_deficit decision) in
  let state := mix state (smoothed_deficit decision) in
  mix state (epoch decision).

Definition verify (decision : SpectralDecision) (key : Z) : bool := root decision =? decision_root key decision.

Definition KERNEL : list Z := [8; 4; 2; 1] ++ replicate (NTT_LENGTH - 7) 0 ++ [1; 2; 4].

Definition new_queue (n : nat) (key : Z) : Result ExactSpectralFairQueue ExactNttError :=
  if (n =? 0)%nat || (NTT_LENGTH <? n)%nat then Err InvalidClassCount
  else if key =? 0 then Err ZeroSecret
  else Ok (mkQueue (replicate NTT_LENGTH 0) KERNEL n 0 1 key).

(** [self.epoch.wrapping_add(1).max(1)] *)
Definition advance_epoch (e : Z) : Z := wrapping_add U64_MAX e 1 `max` 1.

Abbreviation QM := (M ExactSpectralFairQueue ExactNttError).

Definition with_deficit (i : nat) (x : Z) (q : ExactSpectralFairQueue) : ExactSpectralFairQueue :=
  mkQueue (<[i := x]> (deficits q)) (kernel q) (classes q) (cursor q) (advance_epoch (q_epoch q)) (secret q).

Definition charge (i : nat) (amount : Z) : QM unit :=
  q ← getS;
  ensure (negb (classes q <=? i)%nat) InvalidClassCount;;
  x ← ok_or (checked_add U64_MAX (slot_at 0 (deficits q) i) amount) Arithmetic;
  putS (with_deficit i x q).

Definition credit (i : nat) (amount : Z) : QM unit :=
  q ← getS;
  ensure (negb (classes q <=? i)%nat) InvalidClassCount;;
  putS (with_deficit i (0 `max` (slot_at 0 (deficits q) i - amount)) q).

Definition smoothed (q : ExactSpectralFairQueue) : Result (list Z) ExactNttError :=
  circular_convolution_exact (deficits q) (kernel q).

(** [for distance in 1..classes]: the best class seen and its value. *)
Fixpoint select_loop (values : list Z) (n start : nat) (distances : list nat) (selected : nat) (selected_value : Z) : nat * Z :=
  match distances with
  | [] => (selected, selected_value)
  | distance :: distances =>
      let candidate := ((start + distance) mod n)%nat in
      let x := slot_at 0 values candidate in
      if selected_value <? x then select_loop values n start distances candidate x
      else select_loop values n start distances selected selected_value
  end.

Definition select : QM SpectralDecision :=
  q ← getS;
  values ← of_result (smoothed q);
  let n := classes q in
  let start := (cursor q mod n)%nat in
  let '(selected, selected_value) := select_loop values n start (seq 1 (n - 1)) start (slot_at 0 values start) in
  let e := advance_epoch (q_epoch q) in
  putS (mkQueue (deficits q) (kernel q) n ((selected + 1) mod n)%nat e (secret q));;
  let decision := mkDecision (Z.of_nat selected) (slot_at 0 (deficits q) selected) selected_value e 0 in
  mret (mkDecision (Z.of_nat selected) (slot_at 0 (deficits q) selected) selected_value e (decision_root (secret q) decision)).

Definition serve (amount : Z) : QM SpectralDecision :=
  decision ← select;
  credit (Z.to_nat (class decision)) amount;;
  mret decision.
