(* ===== verification/ExactNttProofs.v ===== *)
(** * The exact convolution is exact

    The transform is linear with coefficients that do not depend on the data:
    its loops, run on rows of coefficients instead of residues, give the matrix
    it applies. The matrices of the two fields and directions are evaluated
    once; their product identities are what the convolution theorem needs. *)

From stdpp Require Import prelude list numbers.
From Stdlib Require Import ZArith Lia.
From S2P Require Import Prelude.
From S2P Require Import Sums.
From S2P Require Import ExactNtt.

(** ** Two runs of the loops side by side *)

Section Parallel.
Context {A B : Type} (da : A) (db : B) (fa : A → A → Z → A * A) (fb : B → B → Z → B * B).
Context (sa : A → Z → A) (sb : B → Z → B) (R : A → B → Prop).
Hypothesis R_default : R da db.
Hypothesis R_butterfly : ∀ x y u v w, R x u → R y v → R (fa x y w).1 (fb u v w).1 ∧ R (fa x y w).2 (fb u v w).2.
Hypothesis R_scale : ∀ x u w, R x u → R (sa x w) (sb u w).

Lemma slot_at_related la lb i : Forall2 R la lb → R (slot_at da la i) (slot_at db lb i).
Proof.
  intros H. unfold slot_at. destruct (la !! i) as [a|] eqn:Ha.
  - by destruct (Forall2_lookup_l _ _ _ _ _ H Ha) as (b & -> & Hr).
  - apply lookup_ge_None in Ha. rewrite (Forall2_length H) in Ha. by rewrite (lookup_ge_None_2 lb i Ha).
Qed.

Lemma reverse_loop_related n : ∀ index reverse la lb,
  Forall2 R la lb → Forall2 R (reverse_loop da n index reverse la) (reverse_loop db n index reverse lb).
Proof.
  induction n as [|n IH]; intros index reverse la lb H; [done|]. cbn [reverse_loop]. apply IH.
  destruct (_ <? _); [|done]. unfold swap. by repeat apply Forall2_insert; try apply slot_at_related.
Qed.

Lemma offset_loop_related n modulus stage_root half : ∀ first w la lb,
  Forall2 R la lb →
  Forall2 R (offset_loop da fa n modulus stage_root first half w la) (offset_loop db fb n modulus stage_root first half w lb).
Proof.
  induction n as [|n IH]; intros first w la lb H; [done|]. cbn [offset_loop].
  destruct (R_butterfly (slot_at da la first) (slot_at da la (first + half)) (slot_at db lb first) (slot_at db lb (first + half)) w)
    as [H1 H2]; [by apply slot_at_related..|].
  destruct (fa _ _ _), (fb _ _ _). apply IH. by repeat apply Forall2_insert.
Qed.

Lemma block_loop_related n modulus stage_root len : ∀ block la lb,
  Forall2 R la lb →
  Forall2 R (block_loop da fa n modulus stage_root block len la) (block_loop db fb n modulus stage_root block len lb).
Proof.
  induction n as [|n IH]; intros block la lb H; [done|]. cbn [block_loop]. by apply IH, offset_loop_related.
Qed.

Lemma stage_loop_related n modulus direction_root : ∀ len la lb,
  Forall2 R la lb →
  Forall2 R (stage_loop da fa n modulus direction_root len la) (stage_loop db fb n modulus direction_root len lb).
Proof.
  induction n as [|n IH]; intros len la lb H; [done|]. cbn [stage_loop]. by apply IH, block_loop_related.
Qed.

Lemma transform_related modulus inverse la lb :
  Forall2 R la lb →
  Forall2 R (transform_with da fa sa modulus inverse la) (transform_with db fb sb modulus inverse lb).
Proof.
  intros H. unfold transform_with, bit_reverse. cbv zeta.
  pose proof (stage_loop_related 6 (value modulus)
    (if inverse then inverse_mod (pow_mod (primitive_root modulus) ((value modulus - 1) / Z.of_nat NTT_LENGTH) (value modulus)) (value modulus)
     else pow_mod (primitive_root modulus) ((value modulus - 1) / Z.of_nat NTT_LENGTH) (value modulus)) 2
    _ _ (reverse_loop_related (NTT_LENGTH - 1) 1 0 la lb H)) as Hs.
  destruct inverse; [|done]. apply Forall2_fmap. eapply Forall2_impl; [|exact Hs]. intros. by apply R_scale.
Qed.
End Parallel.

(** ** The matrix of a transform *)

Definition row_butterfly (p : Z) (even odd : list Z) (w : Z) : list Z * list Z :=
  (zip_with (λ x y, if y =? 0 then x else (x + y * w) mod p) even odd,
   zip_with (λ x y, if y =? 0 then x else (x - y * w) mod p) even odd).
Definition row_scale (p : Z) (row : list Z) (c : Z) : list Z := (λ x, (x * c) mod p) <$> row.
Definition zero_row : list Z := replicate NTT_LENGTH 0.
Definition unit_row (i : nat) : list Z := (λ j, if (j =? i)%nat then 1 else 0) <$> seq 0 NTT_LENGTH.

Definition matrix (modulus : Modulus) (inverse : bool) : list (list Z) :=
  transform_with zero_row (row_butterfly (value modulus)) (row_scale (value modulus)) modulus inverse
    (unit_row <$> seq 0 NTT_LENGTH).

Definition dot (row v : list Z) : Z := sum NTT_LENGTH (λ j, slot_at 0 row j * slot_at 0 v j).

Lemma slot_at_fmap {X Y} (f : X → Y) (dx : X) (dy : Y) l i :
  (i < length l)%nat → slot_at dy (f <$> l) i = f (slot_at dx l i).
Proof.
  intros Hi. unfold slot_at. rewrite list_lookup_fmap. by destruct (lookup_lt_is_Some_2 l i Hi) as [x ->].
Qed.

Lemma slot_at_zip_with {X Y W} (f : X → Y → W) (dx : X) (dy : Y) (dw : W) l k i :
  (i < length l)%nat → length k = length l →
  slot_at dw (zip_with f l k) i = f (slot_at dx l i) (slot_at dy k i).
Proof.
  intros Hi Hl. unfold slot_at. rewrite lookup_zip_with.
  destruct (lookup_lt_is_Some_2 l i Hi) as [x ->]. destruct (lookup_lt_is_Some_2 k i) as [y ->]; [lia|]. done.
Qed.

Lemma slot_at_seq_fmap {X} (f : nat → X) (dx : X) n i : (i < n)%nat → slot_at dx (f <$> seq 0 n) i = f i.
Proof. intros Hi. unfold slot_at. rewrite list_lookup_fmap, lookup_seq_lt by done. done. Qed.

(** [x] is the residue of the row applied to [v]. *)
Definition applied (p : Z) (v row : list Z) (x : Z) : Prop := length row = NTT_LENGTH ∧ x = dot row v mod p.

Section Applied.
Context (p : Z) (v : list Z).
Hypothesis Hp : 0 < p ≤ 2 ^ 62.

Lemma add_mod_spec x y : 0 ≤ x < p → 0 ≤ y < p → add_mod x y p = (x + y) mod p.
Proof.
  intros Hx Hy. unfold add_mod, wrapping_add, U64_MAX. rewrite (Z.mod_small (x + y)) by lia.
  destruct (Z.leb_spec p (x + y)); [|by rewrite Z.mod_small by lia].
  apply (Z.mod_unique_pos _ _ 1); lia.
Qed.

Lemma sub_mod_spec x y : 0 ≤ x < p → 0 ≤ y < p → sub_mod x y p = (x - y) mod p.
Proof.
  intros Hx Hy. unfold sub_mod, wrapping_add, U64_MAX. rewrite (Z.mod_small (x + p)) by lia.
  destruct (Z.leb_spec y x); [by rewrite Z.mod_small by lia|]. apply (Z.mod_unique_pos _ _ (-1)); lia.
Qed.

Lemma dot_zip (f : Z → Z → Z) (c1 c2 : Z) r1 r2 :
  length r1 = NTT_LENGTH → length r2 = NTT_LENGTH → (∀ x y, f x y mod p = (c1 * x + c2 * y) mod p) →
  dot (zip_with f r1 r2) v mod p = (c1 * dot r1 v + c2 * dot r2 v) mod p.
Proof.
  intros H1 H2 Hf. unfold dot. rewrite <- !sum_scale, <- sum_add. apply cong_mod, sum_congr. intros j Hj. split.
  rewrite (slot_at_zip_with f 0 0) by lia. rewrite Zmult_mod, Hf, <- Zmult_mod. f_equal. lia.
Qed.

Ltac row_case :=
  match goal with |- context [if ?y =? 0 then _ else _] => destruct (Z.eqb_spec y 0) as [->|] end;
  [f_equal; lia|rewrite Z.mod_mod by lia; f_equal; lia].

Lemma applied_butterfly r1 r2 x y w :
  applied p v r1 x → applied p v r2 y →
  applied p v (row_butterfly p r1 r2 w).1 (butterfly p x y w).1 ∧
  applied p v (row_butterfly p r1 r2 w).2 (butterfly p x y w).2.
Proof.
  intros [H1 ->] [H2 ->]. unfold row_butterfly, butterfly. cbn [fst snd].
  pose proof (Z.mod_pos_bound (dot r1 v) p ltac:(lia)). unfold mul_mod. set (o := (dot r2 v mod p * w) mod p).
  assert (0 ≤ o < p) by (apply Z.mod_pos_bound; lia). assert (o = (dot r2 v * w) mod p) as Ho by (unfold o; apply Zmult_mod_idemp_l).
  split; (split; [rewrite length_zip_with; lia|]).
  - rewrite add_mod_spec by done. rewrite (dot_zip _ 1 w) by (try done; intros; row_case).
    rewrite Ho, <- Zplus_mod. f_equal. lia.
  - rewrite sub_mod_spec by done. rewrite (dot_zip _ 1 (- w)) by (try done; intros; row_case).
    rewrite Ho, <- Zminus_mod. f_equal. lia.
Qed.

Lemma applied_scale r x c : applied p v r x → applied p v (row_scale p r c) (mul_mod x c p).
Proof.
  intros [H ->]. unfold applied, row_scale, mul_mod. split; [by rewrite length_fmap|].
  rewrite Zmult_mod_idemp_l. unfold dot. rewrite <- sum_scale_r. apply cong_mod, sum_congr. intros j Hj. split.
  rewrite (slot_at_fmap _ 0) by lia. rewrite Zmult_mod_idemp_l. f_equal. lia.
Qed.

Lemma applied_zero : applied p v zero_row 0.
Proof.
  split; [apply length_replicate|]. unfold dot. rewrite sum_zero; [done|]. intros i Hi. unfold slot_at, zero_row.
  by rewrite lookup_replicate_2.
Qed.

Lemma dot_unit i : (i < NTT_LENGTH)%nat → dot (unit_row i) v = slot_at 0 v i.
Proof.
  intros Hi. unfold dot. erewrite sum_ext; [apply (sum_one NTT_LENGTH i (slot_at 0 v)); done|].
  intros j Hj. cbv beta. unfold unit_row. rewrite slot_at_seq_fmap by done. destruct (j =? i)%nat; lia.
Qed.

Lemma applied_units :
  length v = NTT_LENGTH → Forall (λ x, 0 ≤ x < p) v → Forall2 (applied p v) (unit_row <$> seq 0 NTT_LENGTH) v.
Proof.
  intros Hl Hr. apply Forall2_same_length_lookup. split; [by rewrite length_fmap, length_seq|].
  intros i row x Hrow Hx. pose proof (lookup_lt_Some _ _ _ Hx) as Hi. rewrite list_lookup_fmap, lookup_seq_lt in Hrow by lia.
  injection Hrow as <-. split; [unfold unit_row; by rewrite length_fmap, length_seq|].
  rewrite dot_unit by lia. unfold slot_at. rewrite Hx. simpl. symmetry. apply Z.mod_small.
  rewrite Forall_lookup in Hr. eauto.
Qed.
End Applied.

(** The transform applies its matrix. *)
Lemma transform_matrix modulus inverse v :
  0 < value modulus ≤ 2 ^ 62 → length v = NTT_LENGTH → Forall (λ x, 0 ≤ x < value modulus) v →
  Forall2 (applied (value modulus) v) (matrix modulus inverse) (transform v modulus inverse).
Proof.
  intros Hp Hl Hr. apply transform_related; [by apply applied_zero|by intros; apply applied_butterfly|by intros; apply applied_scale|].
  by apply applied_units.
Qed.

(** ** What the matrices are *)

(** The powers of [g] below the 64th. *)
Fixpoint powers (p g : Z) (n : nat) (x : Z) : list Z :=
  match n with O => [] | S n => x :: powers p g n ((x * g) mod p) end.

Definition times (i j : nat) : nat := Z.to_nat ((Z.of_nat i * Z.of_nat j) mod 64).

(** The matrix with [c * g ^ (i * j)] in row [i] and column [j], from a table of
    [c * g ^ i]. *)
Definition dft (table : list Z) : list (list Z) :=
  (λ i, (λ j, slot_at 0 table (times i j)) <$> seq 0 NTT_LENGTH) <$> seq 0 NTT_LENGTH.

Definition table (p g c : Z) : list Z := (λ x, (x * c) mod p) <$> powers p g NTT_LENGTH 1.

Definition root_of (m : Modulus) : Z := pow_mod (primitive_root m) ((value m - 1) / Z.of_nat NTT_LENGTH) (value m).
Definition inverse_root_of (m : Modulus) : Z := inverse_mod (root_of m) (value m).
Definition length_inverse_of (m : Modulus) : Z := inverse_mod (Z.of_nat NTT_LENGTH) (value m).

Lemma matrix_0_forward : matrix MOD_0 false = dft (table MODULUS_0 (root_of MOD_0) 1).
Proof. apply (bool_decide_eq_true_1 _). vm_compute. reflexivity. Qed.

Lemma matrix_0_backward : matrix MOD_0 true = dft (table MODULUS_0 (inverse_root_of MOD_0) (length_inverse_of MOD_0)).
Proof. apply (bool_decide_eq_true_1 _). vm_compute. reflexivity. Qed.

Lemma matrix_1_forward : matrix MOD_1 false = dft (table MODULUS_1 (root_of MOD_1) 1).
Proof. apply (bool_decide_eq_true_1 _). vm_compute. reflexivity. Qed.

Lemma matrix_1_backward : matrix MOD_1 true = dft (table MODULUS_1 (inverse_root_of MOD_1) (length_inverse_of MOD_1)).
Proof. apply (bool_decide_eq_true_1 _). vm_compute. reflexivity. Qed.

(** ** The convolution theorem *)

(** The integer reference: the coefficient of [x ^ k] modulo [x ^ 64 - 1]. *)
Definition naive (left right : list Z) (k : nat) : Z :=
  sum NTT_LENGTH (λ i, sum NTT_LENGTH (λ j,
    if ((i + j) mod NTT_LENGTH =? k)%nat then slot_at 0 left i * slot_at 0 right j else 0)).

Lemma powers_lookup p g n : 0 < p → ∀ x i, (i < n)%nat → slot_at 0 (powers p g n x) i ≡[p] x * g ^ Z.of_nat i.
Proof.
  intros Hp. induction n as [|n IH]; intros x i Hi; [lia|]. destruct i as [|i]; cbn [powers].
  { unfold slot_at. simpl. by rewrite Z.mul_1_r. }
  change (slot_at 0 (x :: powers p g n ((x * g) mod p)) (S i)) with (slot_at 0 (powers p g n ((x * g) mod p)) i).
  rewrite IH by lia. rewrite mod_cong, Nat2Z.inj_succ, Z.pow_succ_r by lia. by rewrite Z.mul_assoc.
Qed.

Lemma powers_length p g x n : length (powers p g n x) = n.
Proof. revert x. induction n as [|n IH]; intros x; simpl; [done|]. by rewrite IH. Qed.

Lemma table_entry p g c i : 0 < p → (i < NTT_LENGTH)%nat → slot_at 0 (table p g c) i ≡[p] g ^ Z.of_nat i * c.
Proof.
  intros Hp Hi. unfold table. rewrite (slot_at_fmap _ 0) by by rewrite powers_length.
  rewrite mod_cong, powers_lookup by done. by rewrite Z.mul_1_l.
Qed.

Lemma times_spec i j : times i j = ((i * j) mod 64)%nat.
Proof. unfold times. rewrite <- Nat2Z.inj_mul. change 64 with (Z.of_nat 64). by rewrite <- Nat2Z.inj_mod, Nat2Z.id. Qed.

(** A 64th root of unity. *)
Lemma power_wrap p w n : w ^ 64 ≡[p] 1 → w ^ Z.of_nat n ≡[p] w ^ Z.of_nat (n mod 64).
Proof.
  intros Hw. rewrite (Nat.div_mod_eq n 64) at 1. rewrite Nat2Z.inj_add, Nat2Z.inj_mul, Z.pow_add_r, Z.pow_mul_r by lia.
  change (Z.of_nat 64) with 64. rewrite Hw, Z.pow_1_l by lia. by rewrite Z.mul_1_l.
Qed.

(** The facts about a field that are evaluated. *)
Record field_ok (m : Modulus) (g u c : Z) : Prop := {
  fo_range : 1 < value m ≤ 2 ^ 62;
  fo_order : g ^ 64 ≡[value m] 1;
  fo_root : g * u ≡[value m] 1;
  fo_length : 64 * c ≡[value m] 1;
  fo_sums : ∀ k, (0 < k < NTT_LENGTH)%nat →
    sum NTT_LENGTH (λ t, slot_at 0 (table (value m) g 1) (times t k)) ≡[value m] 0;
  fo_forward : matrix m false = dft (table (value m) g 1);
  fo_backward : matrix m true = dft (table (value m) u c);
}.

Section Field.
Context (m : Modulus) (g u c : Z).
Hypothesis Hfield : field_ok m g u c.
Abbreviation p := (value m).

Lemma p_positive : 1 < p.
Proof. apply Hfield. Qed.

Lemma g_order : g ^ 64 ≡[p] 1.
Proof. apply Hfield. Qed.

Lemma g_inverse : g * u ≡[p] 1.
Proof. apply Hfield. Qed.

Lemma c_inverse : 64 * c ≡[p] 1.
Proof. apply Hfield. Qed.

Lemma g_wrap n : g ^ Z.of_nat n ≡[p] g ^ Z.of_nat (n mod 64).
Proof. apply power_wrap, g_order. Qed.

Lemma g_sums k : (0 < k < NTT_LENGTH)%nat → sum NTT_LENGTH (λ t, g ^ Z.of_nat (t * k)) ≡[p] 0.
Proof.
  intros Hk. rewrite <- (fo_sums _ _ _ _ Hfield k Hk). apply sum_congr. intros t Ht. pose proof p_positive.
  rewrite times_spec, table_entry, Z.mul_1_r by (try apply Nat.mod_upper_bound; lia). apply g_wrap.
Qed.

Lemma u_power n : (n ≤ 64)%nat → u ^ Z.of_nat n ≡[p] g ^ Z.of_nat (64 - n).
Proof.
  intros Hn. transitivity (g ^ Z.of_nat (64 - n) * (g * u) ^ Z.of_nat n).
  - rewrite Z.pow_mul_l, Z.mul_assoc, <- Z.pow_add_r by lia.
    replace (Z.of_nat (64 - n) + Z.of_nat n) with 64 by lia. by rewrite g_order, Z.mul_1_l.
  - by rewrite g_inverse, Z.pow_1_l, Z.mul_1_r by lia.
Qed.

Lemma u_power_mul k t : (k ≤ 64)%nat → u ^ Z.of_nat (k * t) ≡[p] g ^ Z.of_nat ((64 - k) * t).
Proof. intros Hk. rewrite !Nat2Z.inj_mul, !Z.pow_mul_r by lia. by rewrite u_power. Qed.

Lemma backward_forward k s : (k < NTT_LENGTH)%nat →
  sum NTT_LENGTH (λ t, (u ^ Z.of_nat (k * t) * c) * g ^ Z.of_nat (t * s)) ≡[p] if (s mod NTT_LENGTH =? k)%nat then 1 else 0.
Proof.
  intros Hk. set (e := ((64 - k + s) mod 64)%nat). pose proof (Nat.mod_upper_bound (64 - k + s) 64 ltac:(lia)) as He. fold e in He.
  transitivity (c * sum NTT_LENGTH (λ t, g ^ Z.of_nat (t * e))).
  - rewrite <- sum_scale. apply sum_congr. intros t Ht. rewrite u_power_mul by (unfold NTT_LENGTH in *; lia).
    transitivity (c * g ^ Z.of_nat (t * (64 - k + s))).
    { replace (Z.of_nat (t * (64 - k + s))) with (Z.of_nat ((64 - k) * t) + Z.of_nat (t * s)) by nia.
      rewrite Z.pow_add_r by apply Nat2Z.is_nonneg. split. f_equal. ring. }
    rewrite g_wrap, (g_wrap (t * e)). unfold e. by rewrite Nat.Div0.mul_mod_idemp_r.
  - unfold NTT_LENGTH in *. destruct (Nat.eqb_spec (s mod 64) k) as [Hs|Hs].
    + assert (e = 0%nat) as ->. { unfold e. rewrite <- Nat.Div0.add_mod_idemp_r, Hs. replace (64 - k + k)%nat with 64%nat by lia. done. }
      erewrite sum_ext; [|intros t Ht; rewrite Nat.mul_0_r; reflexivity]. change (sum 64 (λ _, g ^ Z.of_nat 0)) with 64.
      rewrite Z.mul_comm. apply c_inverse.
    + rewrite g_sums; [by rewrite Z.mul_0_r|]. split; [|done]. destruct (decide (e = 0%nat)) as [E|]; [|lia]. exfalso. apply Hs.
      unfold e in E. apply Nat.Div0.mod_divides in E as [q Hq].
      assert (s = k + (q - 1) * 64)%nat as -> by nia. rewrite Nat.Div0.mod_add. by apply Nat.mod_small.
Qed.

(** Transform, multiply, transform back. *)
Lemma convolution_theorem l r k : (k < NTT_LENGTH)%nat →
  sum NTT_LENGTH (λ t, (u ^ Z.of_nat (k * t) * c) *
    (sum NTT_LENGTH (λ i, g ^ Z.of_nat (t * i) * slot_at 0 l i) * sum NTT_LENGTH (λ j, g ^ Z.of_nat (t * j) * slot_at 0 r j)))
  ≡[p] naive l r k.
Proof.
  intros Hk. transitivity (sum NTT_LENGTH (λ i, sum NTT_LENGTH (λ j, slot_at 0 l i * slot_at 0 r j *
    sum NTT_LENGTH (λ t, (u ^ Z.of_nat (k * t) * c) * g ^ Z.of_nat (t * (i + j)))))).
  - apply eq_subrelation; [apply _|]. rewrite (sum_ext _ _ (λ t, sum NTT_LENGTH (λ i, sum NTT_LENGTH (λ j,
      slot_at 0 l i * slot_at 0 r j * ((u ^ Z.of_nat (k * t) * c) * g ^ Z.of_nat (t * (i + j))))))).
    + rewrite sum_swap. apply sum_ext. intros i _. rewrite sum_swap. apply sum_ext. intros j _. apply sum_scale.
    + intros t _. rewrite <- sum_scale_r, <- sum_scale. apply sum_ext. intros i _. rewrite <- sum_scale, <- sum_scale. apply sum_ext.
      intros j _. rewrite Nat.mul_add_distr_l, Nat2Z.inj_add, Z.pow_add_r by lia. ring.
  - apply sum_congr. intros i _. apply sum_congr. intros j _. rewrite backward_forward by done.
    destruct (_ =? _)%nat; [by rewrite Z.mul_1_r|by rewrite Z.mul_0_r].
Qed.

Lemma u_order : u ^ 64 ≡[p] 1.
Proof. rewrite (u_power 64) by lia. done. Qed.
End Field.

(** Row [k] of a transform whose matrix holds the powers of [w]. *)
Lemma transform_entry m inverse w c v k :
  1 < value m ≤ 2 ^ 62 → w ^ 64 ≡[value m] 1 → matrix m inverse = dft (table (value m) w c) →
  length v = NTT_LENGTH → Forall (λ x, 0 ≤ x < value m) v → (k < NTT_LENGTH)%nat →
  length (transform v m inverse) = NTT_LENGTH ∧
  slot_at 0 (transform v m inverse) k = sum NTT_LENGTH (λ j, w ^ Z.of_nat (k * j) * c * slot_at 0 v j) mod value m.
Proof.
  intros Hp Hw Hm Hl Hr Hk. pose proof (transform_matrix m inverse v ltac:(lia) Hl Hr) as HF. rewrite Hm in HF.
  assert (length (transform v m inverse) = NTT_LENGTH) as Hlen.
  { rewrite <- (Forall2_length HF). unfold dft. by rewrite length_fmap, length_seq. }
  split; [done|]. unfold slot_at at 1. destruct (lookup_lt_is_Some_2 (transform v m inverse) k) as [x Hx]; [lia|].
  rewrite Hx. cbn [default]. destruct (Forall2_lookup_r _ _ _ _ _ HF Hx) as (row & Hrow & _ & ->).
  unfold dft in Hrow. rewrite list_lookup_fmap, lookup_seq_lt in Hrow by done. apply (inj Some) in Hrow. subst row.
  apply cong_mod. unfold dot. apply sum_congr. intros j Hj. rewrite slot_at_seq_fmap by done.
  rewrite Nat.add_0_l, times_spec, table_entry by (try apply Nat.mod_upper_bound; lia).
  by rewrite <- power_wrap.
Qed.

Definition sums_ok (p : Z) (t : list Z) : bool :=
  forallb (λ k, sum NTT_LENGTH (λ i, slot_at 0 t (times i k)) mod p =? 0) (seq 1 63).

Lemma sums_checked p t :
  sums_ok p t = true →
  ∀ k, (0 < k < NTT_LENGTH)%nat → sum NTT_LENGTH (λ i, slot_at 0 t (times i k)) ≡[p] 0.
Proof.
  unfold sums_ok. generalize (λ k, sum NTT_LENGTH (λ i, slot_at 0 t (times i k))). intros f H k Hk.
  rewrite forallb_forall in H. split. rewrite Zmod_0_l. apply Z.eqb_eq, H, in_seq. unfold NTT_LENGTH in Hk. lia.
Qed.

Lemma field_0 : field_ok MOD_0 (root_of MOD_0) (inverse_root_of MOD_0) (length_inverse_of MOD_0).
Proof.
  split; [done|split; vm_compute; reflexivity..| |exact matrix_0_forward|exact matrix_0_backward].
  apply sums_checked. vm_compute. reflexivity.
Qed.

Lemma field_1 : field_ok MOD_1 (root_of MOD_1) (inverse_root_of MOD_1) (length_inverse_of MOD_1).
Proof.
  split; [done|split; vm_compute; reflexivity..| |exact matrix_1_forward|exact matrix_1_backward].
  apply sums_checked. vm_compute. reflexivity.
Qed.

Lemma products_range p (l r : list Z) : 0 < p → Forall (λ x, 0 ≤ x < p) (zip_with (λ x y, mul_mod x y p) l r).
Proof.
  intros Hp. apply Forall_lookup. intros i x Hx. rewrite lookup_zip_with in Hx.
  destruct (l !! i), (r !! i); try done. injection Hx as <-. by apply Z.mod_pos_bound.
Qed.

Section Convolution.
Context (m : Modulus) (g u c : Z).
Hypothesis Hfield : field_ok m g u c.
Abbreviation p := (value m).

Lemma reduced_ok (l : list Z) : length l = NTT_LENGTH →
  length ((λ x, x mod p) <$> l) = NTT_LENGTH ∧ Forall (λ x, 0 ≤ x < p) ((λ x, x mod p) <$> l).
Proof.
  intros Hl. split; [by rewrite length_fmap|]. apply Forall_fmap, Forall_true. intros x. simpl.
  apply Z.mod_pos_bound. pose proof (fo_range _ _ _ _ Hfield). lia.
Qed.

Lemma forward_entry v k :
  length v = NTT_LENGTH → Forall (λ x, 0 ≤ x < p) v → (k < NTT_LENGTH)%nat →
  slot_at 0 (transform v m false) k = sum NTT_LENGTH (λ j, g ^ Z.of_nat (k * j) * slot_at 0 v j) mod p.
Proof.
  intros Hl Hr Hk. destruct Hfield as [H1 H2 _ _ _ H3 _].
  destruct (transform_entry m false g 1 v k H1 H2 H3 Hl Hr Hk) as [_ ->]. f_equal. apply sum_ext. intros j _. by rewrite Z.mul_1_r.
Qed.

Lemma transform_length v inverse :
  length v = NTT_LENGTH → Forall (λ x, 0 ≤ x < p) v → length (transform v m inverse) = NTT_LENGTH.
Proof.
  intros Hl Hr. pose proof (u_order m g u c Hfield) as Hu. destruct Hfield as [H1 H2 _ _ _ H3 H4]. destruct inverse.
  - apply (transform_entry m true u c v 0 H1 Hu H4 Hl Hr). unfold NTT_LENGTH. lia.
  - apply (transform_entry m false g 1 v 0 H1 H2 H3 Hl Hr). unfold NTT_LENGTH. lia.
Qed.

Lemma backward_entry v k :
  length v = NTT_LENGTH → Forall (λ x, 0 ≤ x < p) v → (k < NTT_LENGTH)%nat →
  slot_at 0 (transform v m true) k = sum NTT_LENGTH (λ t, u ^ Z.of_nat (k * t) * c * slot_at 0 v t) mod p.
Proof.
  intros Hl Hr Hk. pose proof (u_order m g u c Hfield) as Hu. destruct Hfield as [H1 _ _ _ _ _ H4].
  by destruct (transform_entry m true u c v k H1 Hu H4 Hl Hr Hk) as [_ ->].
Qed.

Lemma convolution_mod_spec l r k :
  length l = NTT_LENGTH → length r = NTT_LENGTH → (k < NTT_LENGTH)%nat →
  length (convolution_mod l r m) = NTT_LENGTH ∧ slot_at 0 (convolution_mod l r m) k = naive l r k mod p.
Proof.
  intros Hl Hr Hk. unfold convolution_mod. destruct (reduced_ok l Hl) as [Hl1 Hl2]. destruct (reduced_ok r Hr) as [Hr1 Hr2].
  set (l' := (λ x, x mod p) <$> l) in *. set (r' := (λ x, x mod p) <$> r) in *.
  set (hat := zip_with _ _ _). pose proof (fo_range _ _ _ _ Hfield) as Hp.
  pose proof (transform_length l' false Hl1 Hl2) as Hlt. pose proof (transform_length r' false Hr1 Hr2) as Hrt.
  assert (length hat = NTT_LENGTH) as Hhat by (unfold hat; rewrite length_zip_with; lia).
  assert (Forall (λ x, 0 ≤ x < p) hat) as Hrange.
  { apply products_range. lia. }
  split; [by apply transform_length|]. rewrite backward_entry by done. apply cong_mod.
  rewrite <- (convolution_theorem m g u c Hfield l r k Hk). apply sum_congr. intros t Ht.
  apply cong_mul; [done|]. unfold hat. rewrite (slot_at_zip_with _ 0 0) by lia. unfold mul_mod. rewrite mod_cong.
  rewrite !forward_entry, !mod_cong by done.
  apply cong_mul; apply sum_congr; intros j Hj; (apply cong_mul; [done|]); unfold l', r'; rewrite (slot_at_fmap _ 0) by lia; apply mod_cong.
Qed.
End Convolution.

(** ** Bounds *)

Definition total (l : list Z) : Z := sum NTT_LENGTH (slot_at 0 l).
Definition largest (l : list Z) : Z := foldl Z.max 0 l.

Lemma foldl_max_le l : ∀ x, x ≤ foldl Z.max x l ∧ Forall (λ y, y ≤ foldl Z.max x l) l.
Proof.
  induction l as [|y l IH]; intros x; simpl; [by split; [lia|constructor]|].
  destruct (IH (x `max` y)) as [H1 H2]. split; [lia|]. constructor; [lia|done].
Qed.

Lemma slot_at_Forall (P : Z → Prop) l i : P 0 → Forall P l → P (slot_at 0 l i).
Proof.
  intros H0 H. unfold slot_at. destruct (l !! i) as [x|] eqn:E; [|done]. rewrite Forall_lookup in H. eauto.
Qed.

Lemma slot_largest l i : slot_at 0 l i ≤ largest l.
Proof. apply (slot_at_Forall (λ y, y ≤ largest l)); apply foldl_max_le. Qed.

Lemma foldl_add_shift (l : list Z) : ∀ x, foldl Z.add x l = x + foldl Z.add 0 l.
Proof. induction l as [|y l IH]; intros x; cbn [foldl]; [lia|]. rewrite IH, (IH (0 + y)). lia. Qed.

Lemma sum_and_max_spec l : ∀ t x,
  Forall is_u64 l → 0 ≤ t → t + Z.of_nat (length l) * U64_MAX ≤ U128_MAX →
  sum_and_max l t x = Some (t + foldl Z.add 0 l, foldl Z.max x l).
Proof.
  induction l as [|y l IH]; intros t x Hl Ht Hmax; cbn [sum_and_max foldl]; [by rewrite Z.add_0_r|].
  apply Forall_cons_1 in Hl as [Hy Hl]. unfold is_u64, U64_MAX in Hy. cbn [length] in Hmax. unfold U64_MAX in *.
  assert (checked_add U128_MAX t y = Some (t + y)) as -> by (apply checked_add_Some; split; [done|lia]).
  rewrite IH by (done || lia). f_equal. f_equal. rewrite (foldl_add_shift l (0 + y)). lia.
Qed.

Lemma sum_and_max_array l :
  length l = NTT_LENGTH → Forall is_u64 l → sum_and_max l 0 0 = Some (total l, largest l).
Proof.
  intros Hl Hu. rewrite sum_and_max_spec; [|done|done|rewrite Hl; unfold NTT_LENGTH, U64_MAX, U128_MAX; lia].
  f_equal. f_equal. unfold total. by rewrite sum_list, Hl, Z.add_0_l.
Qed.

Lemma naive_comm l r k : naive l r k = naive r l k.
Proof.
  unfold naive. rewrite sum_swap. apply sum_ext. intros i _. apply sum_ext. intros j _. rewrite (Nat.add_comm j i).
  destruct (_ =? _)%nat; lia.
Qed.

(** Given [i], one [j] contributes to the coefficient. *)
Lemma naive_partner i k : (i < NTT_LENGTH)%nat → (k < NTT_LENGTH)%nat →
  ∃ j, (j < NTT_LENGTH)%nat ∧ ∀ j', (j' < NTT_LENGTH)%nat → ((i + j') mod NTT_LENGTH =? k)%nat = (j' =? j)%nat.
Proof.
  unfold NTT_LENGTH. intros Hi Hk. exists (if (i <=? k)%nat then k - i else k + 64 - i)%nat.
  destruct (Nat.leb_spec i k); (split; [lia|]); intros j' Hj'.
  all: assert ((i + j') mod 64 = if (i + j' <? 64)%nat then i + j' else i + j' - 64)%nat as ->
    by (destruct (Nat.ltb_spec (i + j') 64); [apply Nat.mod_small; lia|]; symmetry; apply (Nat.mod_unique _ _ 1); lia).
  all: destruct (Nat.ltb_spec (i + j') 64); apply eq_true_iff_eq; rewrite !Nat.eqb_eq; lia.
Qed.

Lemma naive_bound l r k : (k < NTT_LENGTH)%nat → Forall is_u64 l → Forall is_u64 r →
  0 ≤ naive l r k ≤ total l * largest r.
Proof.
  intros Hk Hl Hr.
  assert (∀ i, 0 ≤ slot_at 0 l i) as Hl0 by (intros; apply (slot_at_Forall (λ x, 0 ≤ x)); [done|]; eapply Forall_impl; [|exact Hl]; by intros x []).
  assert (∀ i, 0 ≤ slot_at 0 r i) as Hr0 by (intros; apply (slot_at_Forall (λ x, 0 ≤ x)); [done|]; eapply Forall_impl; [|exact Hr]; by intros x []).
  split.
  - apply sum_nonneg. intros i _. apply sum_nonneg. intros j _. destruct (_ =? _)%nat; [|done]. pose proof (Hl0 i). pose proof (Hr0 j). nia.
  - unfold naive, total. rewrite <- sum_scale_r. apply sum_mono. intros i Hi.
    destruct (naive_partner i k Hi Hk) as (j & Hj & Hu).
    rewrite (sum_ext _ _ (λ j', if (j' =? j)%nat then slot_at 0 l i * slot_at 0 r j' else 0)) by (intros j' Hj'; by rewrite Hu).
    rewrite (sum_one NTT_LENGTH j (λ j', slot_at 0 l i * slot_at 0 r j')) by done.
    pose proof (slot_largest r j). pose proof (Hl0 i). nia.
Qed.

(** ** Combining the residues *)

Lemma p0_inverse : MODULUS_0 * inverse_mod (MODULUS_0 mod MODULUS_1) MODULUS_1 ≡[MODULUS_1] 1.
Proof. split. vm_compute. reflexivity. Qed.

Lemma crt_unique x y :
  0 ≤ x < CRT_MODULUS → 0 ≤ y < CRT_MODULUS → x ≡[MODULUS_0] y → x ≡[MODULUS_1] y → x = y.
Proof.
  intros Hx Hy [E0] [E1]. pose proof p0_inverse as Hinv. set (p := MODULUS_0) in *. set (q := MODULUS_1) in *. unfold CRT_MODULUS in *. fold p q in Hx, Hy.
  assert (0 < p ∧ 0 < q) as [Hp Hq] by done.
  apply Z.cong_iff_0 in E0. apply Z.cong_iff_0 in E1. apply Z.mod_divide in E0 as [a Ha]; [|lia].
  assert (a ≡[q] 0) as [Ea].
  { transitivity (a * (p * inverse_mod (p mod q) q)); [by rewrite Hinv, Z.mul_1_r|].
    transitivity (inverse_mod (p mod q) q * (x - y)); [split; f_equal; rewrite Ha; ring|].
    assert (x - y ≡[q] 0) as -> by (split; rewrite E1; symmetry; apply Zmod_0_l). by rewrite Z.mul_0_r. }
  rewrite Zmod_0_l in Ea. apply Z.mod_divide in Ea as [b Hb]; [|lia]. subst a.
  replace (b * q * p) with (b * (p * q)) in Ha by ring. assert (0 < p * q) by nia. clear - Hx Hy Ha H. set (n := p * q) in *. clearbody n.
  assert (b = 0) by nia. nia.
Qed.

Lemma crt_pair_exact x : 0 ≤ x < CRT_MODULUS → crt_pair (x mod MODULUS_0) (x mod MODULUS_1) = x.
Proof.
  intros Hx. unfold crt_pair. pose proof p0_inverse as Hinv. set (p := MODULUS_0) in *. set (q := MODULUS_1) in *. set (inv := inverse_mod (p mod q) q) in *.
  assert (0 < p < 2 ^ 30 ∧ 0 < q < 2 ^ 30) as [Hp Hq] by done.
  pose proof (Z.mod_pos_bound x p ltac:(lia)). pose proof (Z.mod_pos_bound x q ltac:(lia)).
  pose proof (Z.mod_pos_bound (x mod p) q ltac:(lia)).
  set (delta := if _ <=? _ then _ else _). assert (delta ≡[q] x - x mod p) as Hd.
  { unfold delta, wrapping_add, U64_MAX. destruct (_ <=? _); [by rewrite !mod_cong|].
    rewrite (Z.mod_small (x mod q + q)) by lia. rewrite !mod_cong.
    split. replace (x + q - x mod p) with (x - x mod p + 1 * q) by ring. apply Z_mod_plus_full. }
  set (mult := mul_mod delta inv q). assert (0 ≤ mult < q) as Hm by (apply Z.mod_pos_bound; lia).
  apply crt_unique; [unfold CRT_MODULUS; fold p q; nia|done| |].
  - fold p. assert (p * mult ≡[p] 0) as -> by (split; by rewrite Z.mul_comm, Z_mod_mult, Zmod_0_l). by rewrite mod_cong, Z.add_0_r.
  - fold q. unfold mult, mul_mod. rewrite (mod_cong q (delta * inv)). transitivity (x mod p + delta * (p * inv)); [split; f_equal; ring|].
    rewrite Hinv, Hd, Z.mul_1_r. split. f_equal. lia.
Qed.

Lemma combine_exact bound xs :
  bound < CRT_MODULUS → bound ≤ U64_MAX → Forall (λ x, 0 ≤ x ≤ bound) xs →
  combine bound ((λ x, (x mod MODULUS_0, x mod MODULUS_1)) <$> xs) = Ok xs.
Proof.
  intros H1 H2 Hx. induction Hx as [|x xs Hx _ IH]; [done|]. rewrite fmap_cons. cbn [combine].
  rewrite crt_pair_exact by lia. destruct (Z.ltb_spec bound x); [lia|]. destruct (Z.ltb_spec U64_MAX x); [lia|].
  cbn [orb]. by rewrite IH.
Qed.

Lemma exact_convolution (left right : list Z) :
  length left = NTT_LENGTH → length right = NTT_LENGTH → Forall is_u64 left → Forall is_u64 right →
  circular_convolution_exact left right =
    if (U128_MAX <? total left * largest right) || (U128_MAX <? total right * largest left) then Err Arithmetic
    else
      let bound := (total left * largest right) `min` (total right * largest left) in
      if (CRT_MODULUS <=? bound) || (U64_MAX <? bound) then Err CoefficientBound
      else Ok (naive left right <$> seq 0 NTT_LENGTH).
Proof.
  intros Hl Hr Ul Ur. unfold circular_convolution_exact, coefficient_upper_bound. rewrite !sum_and_max_array by done.
  unfold checked_mul. rewrite (Z.ltb_antisym (total left * _)), (Z.ltb_antisym (total right * _)).
  destruct (total left * largest right <=? U128_MAX), (total right * largest left <=? U128_MAX); try done. cbn [negb orb].
  set (bound := Z.min _ _). destruct (Z.leb_spec CRT_MODULUS bound) as [|Hcrt]; [done|].
  destruct (Z.ltb_spec U64_MAX bound) as [|Hu]; [done|]. cbn [negb orb].
  assert (zip (convolution_mod left right MOD_0) (convolution_mod left right MOD_1)
    = (λ x, (x mod MODULUS_0, x mod MODULUS_1)) <$> (naive left right <$> seq 0 NTT_LENGTH)) as ->.
  { apply list_eq_same_length with NTT_LENGTH; [by rewrite !length_fmap, length_seq| |].
    { rewrite length_zip_with. destruct (convolution_mod_spec _ _ _ _ field_0 left right 0 Hl Hr ltac:(unfold NTT_LENGTH; lia)) as [-> _].
      destruct (convolution_mod_spec _ _ _ _ field_1 left right 0 Hl Hr ltac:(unfold NTT_LENGTH; lia)) as [-> _]. done. }
    intros k x y Hk Hx Hy. rewrite !list_lookup_fmap, lookup_seq_lt in Hy by done. injection Hy as <-.
    destruct (convolution_mod_spec _ _ _ _ field_0 left right k Hl Hr Hk) as [_ E0].
    destruct (convolution_mod_spec _ _ _ _ field_1 left right k Hl Hr Hk) as [_ E1].
    revert E0 E1 Hx. generalize (convolution_mod left right MOD_0), (convolution_mod left right MOD_1). intros l0 l1 E0 E1 Hx.
    rewrite lookup_zip_with in Hx. unfold slot_at in E0, E1. destruct (l0 !! k), (l1 !! k); try done. injection Hx as <-.
    simpl in E0, E1. by rewrite E0, E1. }
  apply combine_exact; [done|done|]. apply Forall_fmap, Forall_forall. intros k Hk%in_seq. simpl.
  pose proof (naive_bound left right k ltac:(lia) Ul Ur). pose proof (naive_bound right left k ltac:(lia) Ur Ul).
  rewrite (naive_comm right left) in *. lia.
Qed.

(** ** Properties *)

(** C27. The fast convolution is the exact integer convolution. For any two
    arrays of 64-bit integers, [circular_convolution_exact] fails exactly when
    the coefficient bound overflows 128 bits or is not below the product of
    the moduli and 2^64, and otherwise returns, for every [k], the integer
    sum of the products [left i * right j] with [i + j = k] modulo 64: no
    modular residue, no 64-bit wrap-around, and never the internal
    [Arithmetic] error of the recombination. *)
Theorem ntt_convolution_exact (left right : list Z) :
  length left = NTT_LENGTH → length right = NTT_LENGTH → Forall is_u64 left → Forall is_u64 right →
  circular_convolution_exact left right =
    if (U128_MAX <? total left * largest right) || (U128_MAX <? total right * largest left) then Err Arithmetic
    else
      let bound := (total left * largest right) `min` (total right * largest left) in
      if (CRT_MODULUS <=? bound) || (U64_MAX <? bound) then Err CoefficientBound
      else Ok (naive left right <$> seq 0 NTT_LENGTH).
Proof. apply exact_convolution. Qed.

Lemma field_of m : m = MOD_0 ∨ m = MOD_1 → ∃ g u c, field_ok m g u c.
Proof. intros [-> | ->]; eauto using field_0, field_1. Qed.

(** The inverse transform undoes the transform, in both fields and for every
    array of residues. *)
Theorem ntt_transform_inverse (m : Modulus) (v : list Z) :
  m = MOD_0 ∨ m = MOD_1 → length v = NTT_LENGTH → Forall (λ x, 0 ≤ x < value m) v →
  transform (transform v m false) m true = v.
Proof.
  intros Hm Hl Hr. destruct (field_of m Hm) as (g & u & c & Hf). pose proof (fo_range _ _ _ _ Hf) as Hp.
  pose proof (transform_length m g u c Hf v false Hl Hr) as Hl'.
  assert (Forall (λ x, 0 ≤ x < value m) (transform v m false)) as Hr'.
  { apply Forall_lookup. intros k x Hx. pose proof (lookup_lt_Some _ _ _ Hx) as Hk. rewrite Hl' in Hk.
    pose proof (forward_entry m g u c Hf v k Hl Hr Hk) as E. erewrite slot_at_Some in E by exact Hx. rewrite E.
    apply Z.mod_pos_bound. lia. }
  apply list_eq_same_length with NTT_LENGTH; [done|by eapply transform_length|].
  intros k x y Hk Hx Hy. pose proof (backward_entry m g u c Hf _ k Hl' Hr' Hk) as E. erewrite slot_at_Some in E by exact Hx.
  subst x. symmetry. apply cong_mod_eq; [|by eapply (proj1 (Forall_lookup _ _) Hr)]. symmetry.
  transitivity (sum NTT_LENGTH (λ j, slot_at 0 v j * sum NTT_LENGTH (λ t, u ^ Z.of_nat (k * t) * c * g ^ Z.of_nat (t * j)))).
  - rewrite (sum_ext _ (λ j, slot_at 0 v j * _) (λ j, sum NTT_LENGTH (λ t, slot_at 0 v j * (u ^ Z.of_nat (k * t) * c * g ^ Z.of_nat (t * j)))))
      by (intros; symmetry; apply sum_scale).
    rewrite sum_swap. apply sum_congr. intros t Ht. rewrite (forward_entry m g u c Hf v t Hl Hr Ht).
    rewrite (mod_cong _ (sum _ _)). rewrite <- sum_scale. apply sum_congr. intros j _. split. f_equal. ring.
  - transitivity (sum NTT_LENGTH (λ j, if (j =? k)%nat then slot_at 0 v j else 0)).
    + apply sum_congr. intros j Hj. rewrite (backward_forward m g u c Hf k j Hk), (Nat.mod_small j) by done.
      destruct (j =? k)%nat; [by rewrite Z.mul_1_r|by rewrite Z.mul_0_r].
    + rewrite (sum_one NTT_LENGTH k (slot_at 0 v)) by done. by erewrite slot_at_Some by exact Hy.
Qed.

(** ** Modular powers *)

Lemma pow_loop_spec m rounds : 0 < m → ∀ b e r,
  0 ≤ e < 2 ^ Z.of_nat rounds → pow_loop rounds b e m r ≡[m] r * b ^ e.
Proof.
  intros Hm. induction rounds as [|rounds IH]; intros b e r He; cbn [pow_loop].
  { assert (e = 0) as -> by (simpl in He; lia). by rewrite Z.mul_1_r. }
  destruct (Z.eqb_spec e 0) as [->|Hne]; [by rewrite Z.mul_1_r|].
  rewrite Nat2Z.inj_succ, Z.pow_succ_r in He by lia. rewrite (Z.shiftr_div_pow2 e 1) by lia.
  pose proof (Z.div_mod e 2 ltac:(lia)) as Hdm. pose proof (Z.mod_pos_bound e 2 ltac:(lia)) as Hb.
  rewrite IH by (change (2 ^ 1) with 2; split; [apply Z.div_pos; lia|apply Z.div_lt_upper_bound; lia]).
  replace (Z.land e 1) with (e mod 2) by (symmetry; apply (Z.land_ones e 1); lia). change (2 ^ 1) with 2. unfold mul_mod.
  assert (0 ≤ e / 2) as Hh by (apply Z.div_pos; lia). set (h := e / 2) in *.
  rewrite (mod_cong m (b * b)). rewrite <- (Z.pow_2_r b), <- Z.pow_mul_r by lia. destruct (Z.eqb_spec (e mod 2) 0) as [E|E].
  - by replace (2 * h) with e by lia.
  - rewrite (mod_cong m (r * b)), <- Z.mul_assoc, <- Z.pow_succ_r by lia.
    by replace (Z.succ (2 * h)) with e by lia.
Qed.

Lemma pow_loop_range m rounds : 1 < m → ∀ b e r, 0 ≤ r < m → 0 ≤ pow_loop rounds b e m r < m.
Proof.
  intros Hm. induction rounds as [|rounds IH]; intros b e r Hr; cbn [pow_loop]; [done|]. destruct (e =? 0); [done|].
  apply IH. destruct (_ =? 0); [done|]. apply Z.mod_pos_bound. lia.
Qed.

(** Square and multiply ends within the 64 rounds of a 64-bit exponent. *)
Lemma pow_mod_spec b e m : 1 < m → 0 ≤ e ≤ U64_MAX → pow_mod b e m = b ^ e mod m.
Proof.
  intros Hm He. unfold pow_mod. apply cong_mod_eq; [|apply pow_loop_range; lia].
  rewrite pow_loop_spec by (unfold U64_MAX in He; lia). by rewrite mod_cong, Z.mul_1_l.
Qed.

(** ** The fair queue *)

Record queue_wf (q : ExactSpectralFairQueue) : Prop := {
  qw_classes : (0 < classes q ≤ NTT_LENGTH)%nat;
  qw_deficits : length (deficits q) = NTT_LENGTH;
  qw_u64 : Forall is_u64 (deficits q);
  qw_kernel : kernel q = KERNEL;
}.

(** The class [distance] places after [start] is the first of the largest. *)
Record first_largest (f : nat → Z) (n start distance rounds : nat) : Prop := {
  fl_distance : (distance < rounds)%nat;
  fl_largest : ∀ d, (d < rounds)%nat → f ((start + d) mod n)%nat ≤ f ((start + distance) mod n)%nat;
  fl_first : ∀ d, (d < distance)%nat → f ((start + d) mod n)%nat < f ((start + distance) mod n)%nat;
}.

Lemma select_loop_spec values n start k : ∀ a distance,
  first_largest (slot_at 0 values) n start distance a →
  ∃ distance', first_largest (slot_at 0 values) n start distance' (a + k) ∧
    select_loop values n start (seq a k) ((start + distance) mod n) (slot_at 0 values ((start + distance) mod n)) =
      (((start + distance') mod n)%nat, slot_at 0 values ((start + distance') mod n)%nat).
Proof.
  induction k as [|k IH]; intros a distance [H1 H2 H3].
  { exists distance. rewrite Nat.add_0_r. by split. }
  cbn [seq select_loop]. replace (a + S k)%nat with (S a + k)%nat by lia.
  destruct (Z.ltb_spec (slot_at 0 values ((start + distance) mod n)) (slot_at 0 values ((start + a) mod n))) as [Hlt|Hle].
  - apply (IH (S a) a). split; [lia| |].
    + intros d Hd. destruct (decide (d = a)) as [->|]; [lia|]. pose proof (H2 d ltac:(lia)). lia.
    + intros d Hd. pose proof (H2 d Hd). lia.
  - apply (IH (S a) distance). split; [lia| |done]. intros d Hd. destruct (decide (d = a)) as [->|]; [done|]. apply H2. lia.
Qed.

Lemma kernel_u64 : length KERNEL = NTT_LENGTH ∧ Forall is_u64 KERNEL.
Proof. split; [done|]. apply Forall_lookup. intros i x Hx. do 64 (destruct i as [|i]; [injection Hx as <-; done|]). done. Qed.

Lemma ntt_values d : length d = NTT_LENGTH → Forall is_u64 d →
  ∀ values, circular_convolution_exact d KERNEL = Ok values → ∀ k, (k < NTT_LENGTH)%nat → slot_at 0 values k = naive d KERNEL k.
Proof.
  intros Hl Hu values E k Hk. destruct kernel_u64 as [Kl Ku]. rewrite exact_convolution in E by done.
  destruct (_ || _) in E; [done|]. cbv zeta in E. destruct (_ || _) in E; [done|].
  apply (f_equal (λ x, match x with Ok l => l | Err _ => [] end)) in E. subst values. by apply slot_at_seq_fmap.
Qed.

(** The scheduler's choice. When [select] succeeds, the class it returns is
    the first, going round from the cursor, among those whose smoothed deficit
    is the largest; the smoothed deficit it reports is the exact circular
    convolution of the deficits with the kernel; the cursor moves past the
    class, the deficits stay, and the decision verifies under the secret. *)
Theorem fair_queue_select (q q' : ExactSpectralFairQueue) (decision : SpectralDecision) :
  queue_wf q → select q = (Ok decision, q') →
  ∃ distance, first_largest (naive (deficits q) KERNEL) (classes q) (cursor q mod classes q) distance (classes q) ∧
    class decision = Z.of_nat ((cursor q mod classes q + distance) mod classes q) ∧
    smoothed_deficit decision = naive (deficits q) KERNEL ((cursor q mod classes q + distance) mod classes q) ∧
    cursor q' = (((cursor q mod classes q + distance) mod classes q + 1) mod classes q)%nat ∧
    deficits q' = deficits q ∧ verify decision (secret q) = true ∧ queue_wf q'.
Proof.
  intros Hq Hrun. pose proof Hq as [Hn Hd Hu Hk]. unfold select in Hrun. m_unfold. unfold smoothed in Hrun. rewrite Hk in Hrun.
  destruct kernel_u64 as [Kl Ku]. pose proof (ntt_values (deficits q) Hd Hu) as Hv.
  destruct (circular_convolution_exact (deficits q) KERNEL) as [values|e]; [|done]. set (n := classes q) in *.
  set (start := (cursor q mod n)%nat) in *. specialize (Hv values eq_refl).
  destruct (select_loop_spec values n start (n - 1) 1 0) as (distance & Hfl & Hsel).
  { split; [lia| |lia]. intros d Hd0. assert (d = 0%nat) as -> by lia. done. }
  rewrite Nat.add_0_r in Hsel. rewrite (Nat.mod_small start n) in Hsel by (apply Nat.mod_upper_bound; lia). rewrite Hsel in Hrun.
  replace (1 + (n - 1))%nat with n in Hfl by lia. injection Hrun as <- <-. exists distance.
  assert (∀ d, slot_at 0 values ((start + d) mod n)%nat = naive (deficits q) KERNEL ((start + d) mod n)%nat) as Hval.
  { intros d. apply Hv. pose proof (Nat.mod_upper_bound (start + d) n). lia. }
  split_and!; try done.
  - destruct Hfl as [F1 F2 F3]. split; [done| |]; intros d Hd'; rewrite <- !Hval; auto.
  - apply Hval.
  - unfold verify, decision_root. cbn. apply Z.eqb_refl.
Qed.

(** ** Witnesses *)

Definition sample_left : list Z := <[7%nat := 19]> (<[0%nat := 1000000]> (replicate NTT_LENGTH 0)).
Definition sample_right : list Z := <[63%nat := 3]> (<[0%nat := 11]> (replicate NTT_LENGTH 0)).

Lemma sample_u64 : Forall is_u64 sample_left ∧ Forall is_u64 sample_right.
Proof.
  assert (∀ n, Forall is_u64 (replicate n 0)) as H0 by (intros; by apply Forall_replicate).
  split; repeat apply Forall_insert; done.
Qed.

Lemma ntt_convolution_exact_witness :
  circular_convolution_exact sample_left sample_right =
    if (U128_MAX <? total sample_left * largest sample_right) || (U128_MAX <? total sample_right * largest sample_left)
    then Err Arithmetic
    else
      let bound := (total sample_left * largest sample_right) `min` (total sample_right * largest sample_left) in
      if (CRT_MODULUS <=? bound) || (U64_MAX <? bound) then Err CoefficientBound
      else Ok (naive sample_left sample_right <$> seq 0 NTT_LENGTH).
Proof. apply ntt_convolution_exact; [reflexivity|reflexivity|apply sample_u64|apply sample_u64]. Defined.

(** On this input the convolution succeeds. *)
Example sample_convolution :
  is_ok (circular_convolution_exact sample_left sample_right) = true ∧ naive sample_left sample_right 6 = 57.
Proof. vm_compute. done. Qed.

Lemma ntt_transform_inverse_witness : transform (transform sample_left MOD_0 false) MOD_0 true = sample_left.
Proof.
  apply ntt_transform_inverse; [by left|reflexivity|].
  assert (∀ n, Forall (λ x, 0 ≤ x < value MOD_0) (replicate n 0)) as H0 by (intros; by apply Forall_replicate).
  repeat apply Forall_insert; done.
Defined.

(** Four classes; the third is the furthest behind. *)
Definition sample_queue : ExactSpectralFairQueue :=
  mkQueue (<[2%nat := 40]> (<[0%nat := 7]> (replicate NTT_LENGTH 0))) KERNEL 4 1 5 77.
Definition chosen : SpectralDecision := match (select sample_queue).1 with Ok x => x | Err _ => mkDecision 0 0 0 0 0 end.
Definition after : ExactSpectralFairQueue := (select sample_queue).2.

Lemma fair_queue_select_witness :
  ∃ distance, first_largest (naive (deficits sample_queue) KERNEL) (classes sample_queue)
      (cursor sample_queue mod classes sample_queue) distance (classes sample_queue) ∧
    class chosen = Z.of_nat ((cursor sample_queue mod classes sample_queue + distance) mod classes sample_queue) ∧
    smoothed_deficit chosen
      = naive (deficits sample_queue) KERNEL ((cursor sample_queue mod classes sample_queue + distance) mod classes sample_queue) ∧
    cursor after = (((cursor sample_queue mod classes sample_queue + distance) mod classes sample_queue + 1) mod classes sample_queue)%nat ∧
    deficits after = deficits sample_queue ∧ verify chosen (secret sample_queue) = true ∧ queue_wf after.
Proof.
  apply (fair_queue_select sample_queue after chosen).
  - split; [unfold NTT_LENGTH; simpl; lia|reflexivity| |reflexivity].
    assert (∀ n, Forall is_u64 (replicate n 0)) as H0 by (intros; by apply Forall_replicate).
    repeat apply Forall_insert; done.
  - assert (is_ok (select sample_queue).1 = true) as Hok by (vm_compute; reflexivity).
    unfold after, chosen. destruct (select sample_queue) as [[x|e] q']; [reflexivity|discriminate Hok].
Defined.
