(* ===== verification/Iova.v ===== *)
(** * I/O virtual address leases: hw/iova.rs

    A fixed-capacity, first-fit allocator of page ranges inside an aperture,
    around reserved ranges, with generation-checked lease handles. The const
    generics [LEASES] and [RESERVED] are the lengths of the two arrays. *)

From stdpp Require Import prelude list numbers option.
From Stdlib Require Import ZArith Lia.
From S2P Require Import Prelude.

Definition IOVA_PAGE_SIZE : Z := 4096.

Inductive IovaError :=
| InvalidRange | InvalidRequest | InvalidCapacity | ReservedCapacity | ReservedOutsideAperture
| OverlappingReservedRanges | LeaseCapacity | AddressSpaceExhausted | ExactRangeUnavailable | StaleLease
| BatchOutputMismatch.

Record IovaRange := mkRange { rg_start : Z; rg_end : Z }.
Definition EMPTY_RANGE : IovaRange := mkRange 0 0.

(** [IovaRange::new] *)
Definition new_range (start len : Z) : Result IovaRange IovaError :=
  match checked_add U64_MAX start len with
  | None => Err InvalidRange
  | Some stop =>
      if (len =? 0) || negb (start mod IOVA_PAGE_SIZE =? 0) || negb (len mod IOVA_PAGE_SIZE =? 0)
         || negb (stop mod IOVA_PAGE_SIZE =? 0)
      then Err InvalidRange
      else Ok (mkRange start stop)
  end.

Definition range_length (r : IovaRange) : Z := rg_end r - rg_start r.
Definition page_count (r : IovaRange) : Z := range_length r / IOVA_PAGE_SIZE.
Definition contains (r other : IovaRange) : bool := (rg_start r <=? rg_start other) && (rg_end other <=? rg_end r).
Definition overlaps (r other : IovaRange) : bool := (rg_start r <? rg_end other) && (rg_start other <? rg_end r).

(** [IovaLease]: the raw 64-bit handle. *)
Definition INVALID_LEASE : Z := 0.
Definition from_raw (raw : Z) : option Z :=
  let slot := raw mod 2 ^ 32 in
  let gen := Z.shiftr raw 32 in
  if (slot =? 0) || (gen =? 0) then None else Some raw.
Definition new_lease (slot : nat) (gen : Z) : Z := Z.lor (Z.shiftl gen 32) (Z.of_nat slot + 1).
Definition lease_slot (lease : Z) : option nat :=
  let encoded := lease mod 2 ^ 32 in
  if encoded =? 0 then None else Some (Z.to_nat (encoded - 1)).
Definition lease_generation (lease : Z) : Z := Z.shiftr lease 32.

Record IovaRequest := mkRequest { rq_page_count : Z; alignment_pages : Z }.

(** [IovaRequest::new] *)
Definition new_request (pages alignment : Z) : Result IovaRequest IovaError :=
  if (pages =? 0) || (alignment =? 0) || negb (is_power_of_two alignment) then Err InvalidRequest
  else if (pages * IOVA_PAGE_SIZE <=? U64_MAX) && (alignment * IOVA_PAGE_SIZE <=? U64_MAX)
  then Ok (mkRequest pages alignment)
  else Err InvalidRequest.

Record LeaseSlot := mkSlot { ls_range : IovaRange; ls_generation : Z; active : bool }.
Definition EMPTY_SLOT : LeaseSlot := mkSlot EMPTY_RANGE 0 false.

Record IovaLedger := mkLedger {
  aperture : IovaRange;
  reserved : list IovaRange;
  reserved_count : nat;
  leases : list LeaseSlot;
  active_count : nat;
}.

(** [&self.reserved[..self.reserved_count]] *)
Definition reserved_ranges (l : IovaLedger) : list IovaRange := take (reserved_count l) (reserved l).

(** [for index in (position..count).rev() { reserved[index + 1] = reserved[index] }];
    [n] rounds are left. *)
Fixpoint shift_up (n position : nat) (l : list IovaRange) : list IovaRange :=
  match n with
  | O => l
  | S n => shift_up n position (<[(position + n + 1)%nat := slot_at EMPTY_RANGE l (position + n)]> l)
  end.

Definition insert_reserved (r : IovaRange) (l : IovaLedger) : Result IovaLedger IovaError :=
  if negb (contains (aperture l) r) then Err ReservedOutsideAperture
  else if existsb (λ existing, overlaps existing r) (reserved_ranges l) then Err OverlappingReservedRanges
  else
    let count := reserved_count l in
    let pos := default count (position (λ existing, rg_start r <? rg_start existing) (reserved_ranges l)) in
    let shifted := shift_up (count - pos) pos (reserved l) in
    Ok (mkLedger (aperture l) (<[pos := r]> shifted) (S count) (leases l) (active_count l)).

Fixpoint insert_all (rs : list IovaRange) (l : IovaLedger) : Result IovaLedger IovaError :=
  match rs with
  | [] => Ok l
  | r :: rs => match insert_reserved r l with Ok l => insert_all rs l | Err e => Err e end
  end.

(** [IovaLedger::<LEASES, RESERVED>::new] *)
Definition new_ledger (LEASES RESERVED : nat) (ap : IovaRange) (rs : list IovaRange) : Result IovaLedger IovaError :=
  if (LEASES =? 0)%nat || (U32_MAX <? Z.of_nat LEASES) then Err InvalidCapacity
  else if (RESERVED <? length rs)%nat then Err ReservedCapacity
  else insert_all rs (mkLedger ap (replicate RESERVED EMPTY_RANGE) 0 (replicate LEASES EMPTY_SLOT) 0).

Definition align_up (v alignment : Z) : option Z :=
  match checked_add U64_MAX v (alignment - 1) with
  | Some x => Some (and_not x (alignment - 1))
  | None => None
  end.

(** The reserved ranges, then the leased ones. *)
Definition blockers (l : IovaLedger) : list IovaRange := reserved_ranges l ++ (ls_range <$> filter (λ s, active s = true) (leases l)).

(** The end of the last blocker the candidate runs into, or zero. *)
Definition advance_to (candidate : IovaRange) (bs : list IovaRange) : Z :=
  foldl (λ x b, if overlaps candidate b then x `max` rg_end b else x) 0 bs.

(** The search loop. Every round passes a blocker for good, so that one round
    per blocker and a last one are enough; [None] stands for running out. *)
Fixpoint fit_loop (fuel : nat) (bs : list IovaRange) (limit len alignment start : Z) : option (Result IovaRange IovaError) :=
  match fuel with
  | O => None
  | S fuel =>
      match checked_add U64_MAX start len with
      | None => Some (Err AddressSpaceExhausted)
      | Some stop =>
          if limit <? stop then Some (Err AddressSpaceExhausted)
          else
            let candidate := mkRange start stop in
            let next := advance_to candidate bs in
            if next =? 0 then Some (Ok candidate)
            else
              match align_up next alignment with
              | None => Some (Err AddressSpaceExhausted)
              | Some start => fit_loop fuel bs limit len alignment start
              end
      end
  end.

Definition first_fit (rq : IovaRequest) (l : IovaLedger) : Result IovaRange IovaError :=
  let len := rq_page_count rq * IOVA_PAGE_SIZE in
  let alignment := alignment_pages rq * IOVA_PAGE_SIZE in
  if (U64_MAX <? len) || (U64_MAX <? alignment) then Err InvalidRequest
  else
    match align_up (rg_start (aperture l)) alignment with
    | None => Err AddressSpaceExhausted
    | Some start =>
        default (Err AddressSpaceExhausted)
          (fit_loop (S (length (blockers l))) (blockers l) (rg_end (aperture l)) len alignment start)
    end.

Definition slot_free (s : LeaseSlot) : bool := negb (active s) && negb (ls_generation s =? U32_MAX).

Definition grant (index : nat) (r : IovaRange) (l : IovaLedger) : Z * IovaLedger :=
  let gen := ls_generation (slot_at EMPTY_SLOT (leases l) index) + 1 in
  (new_lease index gen,
   mkLedger (aperture l) (reserved l) (reserved_count l) (<[index := mkSlot r gen true]> (leases l)) (S (active_count l))).

Abbreviation LM := (M IovaLedger IovaError).

Definition reserve (rq : IovaRequest) : LM Z :=
  l ← getS;
  index ← ok_or (position slot_free (leases l)) LeaseCapacity;
  r ← of_result (first_fit rq l);
  liftS (grant index r).

Definition reserve_aligned (pages alignment : Z) : LM Z :=
  rq ← of_result (new_request pages alignment);
  reserve rq.

Definition reserve_pages (pages : Z) : LM Z := reserve_aligned pages 1.

Definition reserve_exact (r : IovaRange) : LM Z :=
  l ← getS;
  ensure (contains (aperture l) r && negb (existsb (λ b, overlaps b r) (reserved_ranges l))
          && negb (existsb (λ s, active s && overlaps (ls_range s) r) (leases l))) ExactRangeUnavailable;;
  index ← ok_or (position slot_free (leases l)) LeaseCapacity;
  liftS (grant index r).

(** The loop over the requests, on the candidate copy. *)
Fixpoint reserve_each (rqs : list IovaRequest) : LM (list Z) :=
  match rqs with
  | [] => mret []
  | rq :: rqs => lease ← reserve rq; rest ← reserve_each rqs; mret (lease :: rest)
  end.

(** [output_len] is the length of the output slice; the candidate ledger is
    committed only when the whole batch succeeded. *)
Definition reserve_many (rqs : list IovaRequest) (output_len : nat) : LM (list Z) :=
  l ← getS;
  ensure (negb ((length rqs =? 0)%nat || negb (length rqs =? output_len)%nat || (length (leases l) <? length rqs)%nat))
    BatchOutputMismatch;;
  match reserve_each rqs l with
  | (Ok staged, candidate) => putS candidate;; mret staged
  | (Err e, _) => throw e
  end.

Definition live_slot (l : IovaLedger) (lease : Z) : option (nat * LeaseSlot) :=
  index ← lease_slot lease;
  s ← leases l !! index;
  if active s && (ls_generation s =? lease_generation lease) then Some (index, s) else None.

Definition range_of (lease : Z) : LM IovaRange :=
  l ← getS;
  '(_, s) ← ok_or (live_slot l lease) StaleLease;
  mret (ls_range s).

Definition release (lease : Z) : LM IovaRange :=
  l ← getS;
  '(index, s) ← ok_or (live_slot l lease) StaleLease;
  putS (mkLedger (aperture l) (reserved l) (reserved_count l)
          (<[index := mkSlot EMPTY_RANGE (ls_generation s) false]> (leases l)) (active_count l - 1));;
  mret (ls_range s).
