(* ===== verification/IovaProofs.v ===== *)
(** * Address leases never overlap, and the search is first fit *)

From stdpp Require Import prelude list numbers option.
From Stdlib Require Import ZArith Lia.
From S2P Require Import Prelude.
From S2P Require Import Iova.

(** ** Aligning *)

Lemma align_up_spec v k :
  0 ≤ v → 0 ≤ k ≤ 63 →
  match align_up v (2 ^ k) with
  | Some x => (2 ^ k | x) ∧ v ≤ x ≤ U64_MAX ∧ ∀ y, (2 ^ k | y) → v ≤ y → x ≤ y
  | None => ∀ y, (2 ^ k | y) → v ≤ y → U64_MAX < y
  end.
Proof. exact (round_up_spec v k). Qed.

(** ** The search *)

Definition range_ok (r : IovaRange) : Prop :=
  0 ≤ rg_start r < rg_end r ∧ rg_end r ≤ U64_MAX ∧ (IOVA_PAGE_SIZE | rg_start r) ∧ (IOVA_PAGE_SIZE | rg_end r).

(** An aligned place for [len] bytes between [base] and [limit], clear of the
    blockers. *)
Record fits (bs : list IovaRange) (base limit len alignment x : Z) : Prop := {
  ft_aligned : (alignment | x);
  ft_base : base ≤ x;
  ft_limit : x + len ≤ limit;
  ft_clear : Forall (λ b, overlaps (mkRange x (x + len)) b = false) bs;
}.

Lemma overlaps_true r s : overlaps r s = true ↔ rg_start r < rg_end s ∧ rg_start s < rg_end r.
Proof. unfold overlaps. by rewrite andb_true_iff, !Z.ltb_lt. Qed.

Lemma overlaps_false r s : overlaps r s = false ↔ rg_end s ≤ rg_start r ∨ rg_end r ≤ rg_start s.
Proof. unfold overlaps. rewrite andb_false_iff, !Z.ltb_ge. done. Qed.

Lemma overlaps_comm r s : overlaps r s = overlaps s r.
Proof. unfold overlaps. apply andb_comm. Qed.

Lemma advance_to_spec c bs : Forall range_ok bs → ∀ x0, 0 ≤ x0 →
  let x := foldl (λ x b, if overlaps c b then x `max` rg_end b else x) x0 bs in
  x0 ≤ x ∧ Forall (λ b, overlaps c b = true → rg_end b ≤ x) bs ∧
  (x = x0 ∨ ∃ b, b ∈ bs ∧ overlaps c b = true ∧ rg_end b = x).
Proof.
  induction 1 as [|b bs Hb _ IH]; intros x0 Hx0; simpl; [by split_and!; [lia|constructor|left]|].
  destruct (overlaps c b) eqn:Ho.
  - destruct (IH (x0 `max` rg_end b) ltac:(lia)) as (H1 & H2 & H3). split_and!; [lia|constructor; [lia|done]|].
    destruct H3 as [->|(b' & Hin & Hb')]; [|right; exists b'; split; [by right|done]].
    destruct (decide (rg_end b ≤ x0)); [left; lia|]. right. exists b. split_and!; [by left|done|lia].
  - destruct (IH x0 Hx0) as (H1 & H2 & H3). split_and!; [done|constructor; [congruence|done]|].
    destruct H3 as [->|(b' & Hin & Hb')]; [by left|right; exists b'; split; [by right|done]].
Qed.

Lemma countb_lt {A} (p q : A → bool) l x :
  (∀ y, p y = true → q y = true) → x ∈ l → q x = true → p x = false → (countb p l < countb q l)%nat.
Proof.
  intros Hpq Hin Hq Hp. assert (∀ k, (countb p k ≤ countb q k)%nat) as Hle.
  { induction k as [|y k IH]; simpl; [lia|]. specialize (Hpq y). destruct (p y), (q y); naive_solver lia. }
  induction l as [|y l IH]; [by apply elem_of_nil in Hin|]. simpl. apply elem_of_cons in Hin as [<-|Hin].
  - rewrite Hp, Hq. pose proof (Hle l). lia.
  - specialize (IH Hin). specialize (Hpq y). destruct (p y), (q y); naive_solver lia.
Qed.

Section Search.
Context (bs : list IovaRange) (base limit len k : Z).
Hypothesis Hbs : Forall range_ok bs.
Hypothesis Hlen : 0 < len.
Hypothesis Hlimit : limit ≤ U64_MAX.
Hypothesis Hk : 0 ≤ k ≤ 63.
Abbreviation al := (2 ^ k).

Lemma fit_loop_spec fuel : ∀ start,
  (countb (λ b, start <? rg_end b)%Z bs < fuel)%nat → 0 ≤ start → base ≤ start → (al | start) →
  (∀ y, fits bs base limit len al y → start ≤ y) →
  ∃ res, fit_loop fuel bs limit len al start = Some res ∧
    match res with
    | Ok r => r = mkRange (rg_start r) (rg_start r + len) ∧ fits bs base limit len al (rg_start r) ∧ 0 ≤ rg_start r ∧
        ∀ y, fits bs base limit len al y → rg_start r ≤ y
    | Err e => e = AddressSpaceExhausted ∧ ∀ y, ¬ fits bs base limit len al y
    end.
Proof using All.
  induction fuel as [|fuel IH]; intros start Hfuel H0 Hbase Hal Hmin; [lia|]. cbn [fit_loop].
  destruct (checked_add U64_MAX start len) as [stop|] eqn:Hstop.
  2: { apply checked_add_None in Hstop. eexists. split; [done|]. split; [done|]. intros y Hy. pose proof (Hmin y Hy).
       pose proof (ft_limit _ _ _ _ _ _ Hy). lia. }
  apply checked_add_Some in Hstop as [-> Hstop].
  destruct (Z.ltb_spec limit (start + len)) as [Hlt|Hle].
  { eexists. split; [done|]. split; [done|]. intros y Hy. pose proof (Hmin y Hy). pose proof (ft_limit _ _ _ _ _ _ Hy). lia. }
  set (c := mkRange start (start + len)). destruct (advance_to_spec c bs Hbs 0 (Z.le_refl 0)) as (A1 & A2 & A3).
  change (foldl _ 0 bs) with (advance_to c bs) in A1, A2, A3. destruct (Z.eqb_spec (advance_to c bs) 0) as [E|Hne].
  { eexists. split; [done|]. split; [done|]. split_and!; [|done|done]. split; try done. rewrite Forall_forall in A2, Hbs |- *.
    intros b Hb. destruct (overlaps _ b) eqn:Ho; [|done]. specialize (A2 b Hb Ho). destruct (Hbs b Hb) as [Hr _]. lia. }
  destruct A3 as [|(b & Hb & Ho & He)]; [done|]. apply overlaps_true in Ho as [Ho1 Ho2]. simpl in Ho1, Ho2.
  assert (∀ y, fits bs base limit len al y → advance_to c bs ≤ y) as Hnext.
  { intros y Hy. pose proof (Hmin y Hy). pose proof (ft_clear _ _ _ _ _ _ Hy) as Hc. rewrite Forall_forall in Hc.
    specialize (Hc b (proj1 (list_elem_of_In _ _) Hb)). apply overlaps_false in Hc. simpl in Hc. lia. }
  pose proof (align_up_spec (advance_to c bs) k A1 Hk) as Hup. destruct (align_up _ _) as [start'|].
  - destruct Hup as (U1 & U2 & U3). apply IH; [|lia|lia|done|].
    + assert (countb (λ b, start' <? rg_end b)%Z bs < countb (λ b, start <? rg_end b)%Z bs)%nat; [|lia].
      apply (countb_lt _ _ bs b); [|done|by apply Z.ltb_lt|apply Z.ltb_ge; lia]. intros y Hy%Z.ltb_lt. apply Z.ltb_lt. lia.
    + intros y Hy. apply U3; [apply Hy|by apply Hnext].
  - eexists. split; [done|]. split; [done|]. intros y Hy. pose proof (Hup y (ft_aligned _ _ _ _ _ _ Hy) (Hnext y Hy)).
    pose proof (ft_limit _ _ _ _ _ _ Hy). lia.
Qed.
End Search.

(** ** Reserved ranges *)

Fixpoint ordered (l : list IovaRange) : Prop :=
  match l with
  | [] => True
  | r :: l => Forall (λ s, rg_end r ≤ rg_start s) l ∧ ordered l
  end.

Lemma ordered_insert r l1 l2 :
  ordered (l1 ++ l2) → Forall (λ s, rg_end s ≤ rg_start r) l1 → Forall (λ s, rg_end r ≤ rg_start s) l2 →
  ordered (l1 ++ r :: l2).
Proof.
  induction l1 as [|s l1 IH]; simpl; [done|]. intros [Hs Ho] H1 H2. apply Forall_cons_1 in H1 as [Hsr H1].
  split; [|by apply IH]. apply Forall_app in Hs as [Hs1 Hs2]. apply Forall_app. split; [done|]. by constructor.
Qed.

Lemma ordered_after a l1 l2 : ordered (l1 ++ a :: l2) → Forall (λ s, rg_end a ≤ rg_start s) l2.
Proof. intros Ho. induction l1 as [|s l1 IH]; simpl in Ho; [apply Ho|by apply IH, Ho]. Qed.

Lemma shift_up_lookup n pos : ∀ l i, (pos + n < length l)%nat →
  shift_up n pos l !! i = if decide (pos < i ≤ pos + n)%nat then l !! (i - 1)%nat else l !! i.
Proof.
  induction n as [|n IH]; intros l i Hl; cbn [shift_up]; [case_decide; [lia|done]|].
  rewrite IH by (rewrite length_insert; lia).
  assert (l !! (pos + n)%nat = Some (slot_at EMPTY_RANGE l (pos + n))) as Hn.
  { unfold slot_at. destruct (lookup_lt_is_Some_2 l (pos + n)) as [x ->]; [lia|done]. }
  repeat case_decide; try lia.
  - rewrite list_lookup_insert_ne by lia. done.
  - assert (i = pos + n + 1)%nat as -> by lia. rewrite list_lookup_insert_eq by lia. by replace (pos + n + 1 - 1)%nat with (pos + n)%nat by lia.
  - rewrite list_lookup_insert_ne by lia. done.
Qed.

Lemma shift_up_length n pos : ∀ l, length (shift_up n pos l) = length l.
Proof. induction n as [|n IH]; intros l; cbn [shift_up]; [done|]. by rewrite IH, length_insert. Qed.

(** The shifting loop makes room for one range. *)
Lemma shift_insert n pos r l : (pos + n < length l)%nat →
  take (S (pos + n)) (<[pos := r]> (shift_up n pos l)) = take pos (take (pos + n) l) ++ r :: drop pos (take (pos + n) l).
Proof.
  intros Hl. apply list_eq. intros i. destruct (decide (i < S (pos + n))%nat) as [Hi|Hi].
  - rewrite lookup_take_lt by done. destruct (decide (i = pos)) as [->|Hne].
    + rewrite list_lookup_insert_eq by (rewrite shift_up_length; lia).
      rewrite lookup_app_r by (rewrite !length_take; lia). rewrite !length_take. rewrite (Nat.min_l pos) by lia. by rewrite Nat.sub_diag.
    + rewrite list_lookup_insert_ne, shift_up_lookup by done. destruct (decide (i < pos)%nat).
      * case_decide; [lia|]. rewrite lookup_app_l by (rewrite !length_take; lia). by rewrite !lookup_take_lt by lia.
      * case_decide; [|lia]. rewrite lookup_app_r by (rewrite !length_take; lia). rewrite !length_take.
        rewrite (Nat.min_l pos) by lia. replace (i - pos)%nat with (S (i - 1 - pos)) by lia. simpl. rewrite lookup_drop, lookup_take_lt by lia. f_equal. lia.
  - rewrite lookup_take_ge by lia. symmetry. apply lookup_ge_None. rewrite length_app. simpl.
    rewrite length_take, length_drop, !length_take. lia.
Qed.

(** ** The ledger *)

Definition inside (ap r : IovaRange) : Prop := rg_start ap ≤ rg_start r ∧ rg_end r ≤ rg_end ap.

Lemma contains_inside ap r : contains ap r = true ↔ inside ap r.
Proof. unfold contains, inside. by rewrite andb_true_iff, !Z.leb_le. Qed.

Record ledger_wf (l : IovaLedger) : Prop := {
  lw_aperture : range_ok (aperture l);
  lw_room : (reserved_count l ≤ length (reserved l))%nat;
  lw_reserved : Forall (λ r, range_ok r ∧ inside (aperture l) r) (reserved_ranges l);
  lw_ordered : ordered (reserved_ranges l);
  lw_capacity : Z.of_nat (length (leases l)) ≤ U32_MAX;
  lw_generation : ∀ i s, leases l !! i = Some s → 0 ≤ ls_generation s ≤ U32_MAX;
  lw_lease : ∀ i s, leases l !! i = Some s → active s = true →
    range_ok (ls_range s) ∧ inside (aperture l) (ls_range s) ∧
    Forall (λ b, overlaps b (ls_range s) = false) (reserved_ranges l);
  lw_disjoint : ∀ i j s t, leases l !! i = Some s → leases l !! j = Some t → i ≠ j →
    active s = true → active t = true → overlaps (ls_range s) (ls_range t) = false;
  lw_count : active_count l = countb active (leases l);
}.

(** Where the search for a place stops, the ranges before end below the new one
    and the ranges after start above it. *)
Lemma reserved_split (old : list IovaRange) r :
  range_ok r → Forall range_ok old → ordered old → Forall (λ s, overlaps s r = false) old →
  let pos := default (length old) (position (λ existing, rg_start r <? rg_start existing) old) in
  Forall (λ s, rg_end s ≤ rg_start r) (take pos old) ∧ Forall (λ s, rg_end r ≤ rg_start s) (drop pos old).
Proof.
  intros [Hr _] Hok Ho Hclear. simpl. rewrite Forall_lookup in Hok, Hclear.
  assert (∀ i s, old !! i = Some s → rg_start s ≤ rg_start r → rg_end s ≤ rg_start r) as Hlow.
  { intros i s Hs Hle. pose proof (Hclear i s Hs) as Hov. apply overlaps_false in Hov. lia. }
  destruct (position _ old) as [q|] eqn:Hq; simpl.
  - apply position_Some in Hq as (a & Ha & Hlt%Z.ltb_lt & Hmin). split.
    + apply Forall_lookup. intros i s Hs. apply lookup_take_Some in Hs as [Hs Hi]. apply (Hlow i s Hs). by apply Z.ltb_ge, (Hmin i).
    + pose proof (Hclear q a Ha) as Hov. apply overlaps_false in Hov. pose proof (proj1 (Hok q a Ha)) as Hoka.
      assert (rg_end r ≤ rg_start a) as Hra by lia. rewrite <- (take_drop_middle old q a Ha) in Ho. apply ordered_after in Ho.
      rewrite (drop_S old a q Ha). constructor; [done|]. eapply Forall_impl; [|exact Ho]. simpl. intros s Hs. lia.
  - rewrite position_None in Hq. rewrite take_ge, drop_ge by lia. split; [|constructor].
    apply Forall_lookup. intros i s Hs. apply (Hlow i s Hs). by apply Z.ltb_ge, (Hq i).
Qed.

Lemma insert_reserved_wf r l l' :
  ledger_wf l → (reserved_count l < length (reserved l))%nat → range_ok r → (∀ i s, leases l !! i = Some s → active s = false) →
  insert_reserved r l = Ok l' →
  ledger_wf l' ∧ aperture l' = aperture l ∧ leases l' = leases l ∧ length (reserved l') = length (reserved l) ∧
  reserved_count l' = S (reserved_count l) ∧ reserved_ranges l' ≡ₚ r :: reserved_ranges l.
Proof.
  intros [W1 W2 W3 W4 W5 W6 W7 W8 W9] Hroom Hr Hidle. unfold insert_reserved.
  destruct (contains (aperture l) r) eqn:Hc; [|done]. apply contains_inside in Hc.
  destruct (existsb _ _) eqn:Hex; [done|]. intros [= <-]. cbn [aperture leases reserved reserved_count].
  set (old := reserved_ranges l) in *. assert (length old = reserved_count l) as Hlen.
  { unfold old, reserved_ranges. rewrite length_take. lia. }
  assert (Forall (λ s, overlaps s r = false) old) as Hclear.
  { apply Forall_forall. intros s Hs. destruct (overlaps s r) eqn:Ho; [|done]. exfalso.
    assert (existsb (λ existing, overlaps existing r) old = true); [|congruence]. apply existsb_exists. eauto. }
  set (pos := default (reserved_count l) (position _ old)).
  assert (pos ≤ reserved_count l)%nat as Hpos.
  { unfold pos. destruct (position _ old) as [q|] eqn:Hq; simpl; [|lia]. pose proof (position_lt _ _ _ Hq). lia. }
  assert (take (S (reserved_count l)) (<[pos := r]> (shift_up (reserved_count l - pos) pos (reserved l)))
    = take pos old ++ r :: drop pos old) as Hnew.
  { replace (S (reserved_count l)) with (S (pos + (reserved_count l - pos))) by lia. rewrite shift_insert by lia.
    by replace (pos + (reserved_count l - pos))%nat with (reserved_count l) by lia. }
  assert (Forall (λ s, rg_end s ≤ rg_start r) (take pos old) ∧ Forall (λ s, rg_end r ≤ rg_start s) (drop pos old)) as [Hbefore Hafter].
  { unfold pos. rewrite <- Hlen. apply (reserved_split old r); try done. eapply Forall_impl; [|exact W3]. by intros s []. }
  split; [|rewrite length_insert, shift_up_length; split_and!; try done; unfold reserved_ranges at 1; cbn [reserved reserved_count];
    by rewrite Hnew, <- Permutation_middle, take_drop].
  split; unfold reserved_ranges; cbn [aperture leases reserved reserved_count active_count]; try done.
  - rewrite length_insert, shift_up_length. lia.
  - rewrite Hnew. rewrite <- (take_drop pos old) in W3. apply Forall_app in W3 as [A B]. apply Forall_app. split; [done|].
    constructor; done.
  - rewrite Hnew. apply ordered_insert; [by rewrite take_drop|done|done].
  - intros i s Hs Ha. by rewrite (Hidle i s Hs) in Ha.
Qed.

Lemma insert_all_wf rs : ∀ l l',
  ledger_wf l → (reserved_count l + length rs ≤ length (reserved l))%nat → Forall range_ok rs →
  (∀ i s, leases l !! i = Some s → active s = false) → insert_all rs l = Ok l' →
  ledger_wf l' ∧ aperture l' = aperture l ∧ leases l' = leases l ∧ reserved_ranges l' ≡ₚ rs ++ reserved_ranges l.
Proof.
  induction rs as [|r rs IH]; intros l l' Hw Hroom Hok Hidle; cbn [insert_all length] in *; [by intros [= <-]|].
  apply Forall_cons_1 in Hok as [Hr Hok]. destruct (insert_reserved r l) as [l1|e] eqn:Hins; [|done].
  destruct (insert_reserved_wf r l l1 Hw ltac:(lia) Hr Hidle Hins) as (Hw1 & Ea & El & Er & Ec & Ep). intros Hall.
  destruct (IH l1 l' Hw1 ltac:(lia) Hok ltac:(by rewrite El) Hall) as (Hw' & Ea' & El' & Ep').
  split_and!; [done|congruence|congruence|]. rewrite Ep', Ep. simpl. by rewrite <- Permutation_middle.
Qed.

Lemma new_ledger_wf LEASES RESERVED ap rs l :
  range_ok ap → Forall range_ok rs → new_ledger LEASES RESERVED ap rs = Ok l →
  ledger_wf l ∧ aperture l = ap ∧ reserved_ranges l ≡ₚ rs.
Proof.
  intros Hap Hrs. unfold new_ledger. destruct (_ || _) eqn:Hcap; [done|]. apply orb_false_iff in Hcap as [_ Hcap%Z.ltb_ge].
  destruct (Nat.ltb_spec RESERVED (length rs)) as [|Hroom]; [done|]. intros Hall.
  eapply (insert_all_wf rs _ l) in Hall; cbn [reserved_count reserved leases aperture reserved_ranges take] in *.
  - rewrite app_nil_r in Hall. naive_solver.
  - split; cbn; rewrite ?length_replicate; try done; try lia; try (by constructor).
    + intros i s [-> _]%lookup_replicate. done.
    + by intros i s [-> _]%lookup_replicate.
    + by intros i j s t [-> _]%lookup_replicate.
    + by rewrite countb_replicate_false.
  - rewrite length_replicate. lia.
  - done.
  - by intros i s [-> _]%lookup_replicate.
Qed.

Lemma blockers_leased l b :
  b ∈ blockers l ↔ b ∈ reserved_ranges l ∨ ∃ i s, leases l !! i = Some s ∧ active s = true ∧ ls_range s = b.
Proof.
  unfold blockers. rewrite elem_of_app, list_elem_of_fmap. split; intros [H|H]; try (by left); right.
  - destruct H as (s & -> & [Ha Hin]%list_elem_of_filter). apply list_elem_of_lookup in Hin as [i Hi]. eauto.
  - destruct H as (i & s & Hi & Ha & <-). exists s. split; [done|]. apply list_elem_of_filter. split; [done|].
    by eapply list_elem_of_lookup_2.
Qed.

Lemma blockers_ok l : ledger_wf l → Forall range_ok (blockers l).
Proof.
  intros Hw. apply list.Forall_forall. intros b Hb. apply blockers_leased in Hb as [Hb|(i & s & Hs & Ha & <-)].
  - pose proof (lw_reserved _ Hw) as H. rewrite list.Forall_forall in H. by apply H.
  - by destruct (lw_lease _ Hw i s Hs Ha).
Qed.

(** ** Granting and releasing *)

(** A range that can be leased. *)
Definition leasable (l : IovaLedger) (r : IovaRange) : Prop :=
  range_ok r ∧ inside (aperture l) r ∧ Forall (λ b, overlaps r b = false) (blockers l).

Lemma leasable_reserved l r : leasable l r → Forall (λ b, overlaps b r = false) (reserved_ranges l).
Proof.
  intros (_ & _ & H). unfold blockers in H. apply Forall_app in H as [H _]. eapply Forall_impl; [|exact H].
  intros b. by rewrite overlaps_comm.
Qed.

Lemma leasable_lease l r i s : leasable l r → leases l !! i = Some s → active s = true → overlaps r (ls_range s) = false.
Proof.
  intros (_ & _ & H) Hs Ha. rewrite list.Forall_forall in H. apply H, blockers_leased. eauto 10.
Qed.

Lemma grant_wf l index s r :
  ledger_wf l → leases l !! index = Some s → slot_free s = true → leasable l r → ledger_wf (grant index r l).2.
Proof.
  intros Hw Hs Hfree Hr. pose proof Hw as [W1 W2 W3 W4 W5 W6 W7 W8 W9]. unfold slot_free in Hfree.
  apply andb_true_iff in Hfree as [Hi%negb_true_iff Hg%negb_true_iff%Z.eqb_neq].
  unfold grant. cbn [snd]. rewrite (slot_at_Some _ _ _ _ Hs). pose proof (lookup_lt_Some _ _ _ Hs) as Hlt.
  split; cbn [aperture reserved reserved_count leases active_count]; try done.
  - by rewrite length_insert.
  - intros i t [(<- & <- & _)|[_ Ht]]%list_lookup_insert_Some; [simpl; pose proof (W6 _ _ Hs); lia|eauto].
  - intros i t [(<- & <- & _)|[_ Ht]]%list_lookup_insert_Some Ha; [|eauto]. simpl. destruct Hr as (R1 & R2 & R3).
    split_and!; [done|done|]. by apply (leasable_reserved l r).
  - intros i j t u [(<- & <- & _)|[Hni Ht]]%list_lookup_insert_Some [(<- & <- & _)|[Hnj Hu]]%list_lookup_insert_Some Hne Ha Hb; simpl in *.
    + done.
    + by eapply leasable_lease.
    + rewrite overlaps_comm. by eapply leasable_lease.
    + eauto.
  - rewrite W9. pose proof (countb_insert active (leases l) index s (mkSlot r (ls_generation s + 1) true) Hs) as Hc.
    rewrite Hi in Hc. simpl in Hc. lia.
Qed.

Lemma live_slot_Some l lease i s :
  live_slot l lease = Some (i, s) ↔
  lease_slot lease = Some i ∧ leases l !! i = Some s ∧ active s = true ∧ ls_generation s = lease_generation lease.
Proof.
  unfold live_slot. destruct (lease_slot lease) as [k|]; simpl; [|split; [done|by intros [? _]]].
  destruct (leases l !! k) as [t|] eqn:Ht; simpl; [|split; [done|intros (E & Hs & _); congruence]].
  destruct (active t && _) eqn:Hg.
  - apply andb_true_iff in Hg as [Ha Hg%Z.eqb_eq]. split; [intros [= <- <-]; done|]. intros (E & Hs & _). congruence.
  - split; [done|]. intros (E & Hs & Ha & Hgen). assert (t = s) as -> by congruence. rewrite Ha, Hgen, Z.eqb_refl in Hg. done.
Qed.

Definition release_state (l : IovaLedger) (i : nat) (s : LeaseSlot) : IovaLedger :=
  mkLedger (aperture l) (reserved l) (reserved_count l) (<[i := mkSlot EMPTY_RANGE (ls_generation s) false]> (leases l)) (active_count l - 1).

Lemma release_run l lease :
  release lease l = match live_slot l lease with
                    | Some (i, s) => (Ok (ls_range s), release_state l i s)
                    | None => (Err StaleLease, l)
                    end.
Proof. unfold release. m_unfold. by destruct (live_slot l lease) as [[i s]|]. Qed.

Lemma iova_release_wf l i s :
  ledger_wf l → leases l !! i = Some s → active s = true → ledger_wf (release_state l i s).
Proof.
  intros [W1 W2 W3 W4 W5 W6 W7 W8 W9] Hs Ha. pose proof (lookup_lt_Some _ _ _ Hs) as Hlt.
  split; cbn [release_state aperture reserved reserved_count leases active_count]; try done.
  - by rewrite length_insert.
  - intros j t [(<- & <- & _)|[_ Ht]]%list_lookup_insert_Some; [simpl; eauto|eauto].
  - intros j t [(<- & <- & _)|[_ Ht]]%list_lookup_insert_Some Hat; [done|eauto].
  - intros j k t u [(<- & <- & _)|[_ Ht]]%list_lookup_insert_Some [(<- & <- & _)|[_ Hu]]%list_lookup_insert_Some; try done. eauto.
  - rewrite W9. pose proof (countb_insert active (leases l) i s (mkSlot EMPTY_RANGE (ls_generation s) false) Hs) as Hc.
    rewrite Ha in Hc. simpl in Hc. lia.
Qed.

(** ** Handles *)

Lemma new_lease_value slot gen : Z.of_nat slot < U32_MAX → new_lease slot gen = gen * 2 ^ 32 + (Z.of_nat slot + 1).
Proof. intros Hs. unfold new_lease. apply lor_shiftl_sum; [lia|]. unfold U32_MAX in Hs. lia. Qed.

Lemma lease_decode slot gen :
  Z.of_nat slot < U32_MAX →
  lease_slot (new_lease slot gen) = Some slot ∧ lease_generation (new_lease slot gen) = gen.
Proof.
  intros Hs. rewrite new_lease_value by done. unfold U32_MAX in Hs. unfold lease_slot, lease_generation.
  rewrite Z.add_comm, Z_mod_plus_full, Z.shiftr_div_pow2, Z.div_add, (Z.mod_small _ (2 ^ 32)), (Z.div_small _ (2 ^ 32)) by lia.
  destruct (Z.eqb_spec (Z.of_nat slot + 1) 0); [lia|]. split; [f_equal; lia|done].
Qed.

(** A 64-bit handle is determined by what it decodes to. *)
Lemma lease_inj a b i : lease_slot a = Some i → lease_slot b = Some i → lease_generation a = lease_generation b → a = b.
Proof.
  unfold lease_slot, lease_generation. rewrite !Z.shiftr_div_pow2 by lia.
  pose proof (Z.div_mod a (2 ^ 32) ltac:(lia)) as Ha. pose proof (Z.div_mod b (2 ^ 32) ltac:(lia)) as Hb.
  pose proof (Z.mod_pos_bound a (2 ^ 32) ltac:(lia)). pose proof (Z.mod_pos_bound b (2 ^ 32) ltac:(lia)).
  destruct (Z.eqb_spec (a mod 2 ^ 32) 0); [done|]. destruct (Z.eqb_spec (b mod 2 ^ 32) 0); [done|].
  intros [= E1] [= E2] E3. lia.
Qed.

(** ** Requests *)

Record request_ok (rq : IovaRequest) (k : Z) : Prop := {
  ro_pages : 1 ≤ rq_page_count rq;
  ro_length : rq_page_count rq * IOVA_PAGE_SIZE ≤ U64_MAX;
  ro_power : 12 ≤ k ≤ 63;
  ro_alignment : alignment_pages rq * IOVA_PAGE_SIZE = 2 ^ k;
}.

Lemma new_request_ok pages alignment :
  0 ≤ pages → 0 ≤ alignment →
  match new_request pages alignment with
  | Ok rq => ∃ k, request_ok rq k ∧ rq = mkRequest pages alignment
  | Err e => e = InvalidRequest
  end.
Proof.
  intros Hp Ha. unfold new_request. destruct (_ || _) eqn:Hg; [done|]. rewrite !orb_false_iff in Hg.
  destruct Hg as [[Hp0%Z.eqb_neq Ha0%Z.eqb_neq] Hpow%negb_false_iff%power_of_two_spec]. destruct Hpow as (k & Hk & ->).
  destruct (_ && _) eqn:Hm; [|done]. apply andb_true_iff in Hm as [H1%Z.leb_le H2%Z.leb_le]. exists (k + 12). split; [|done].
  assert (2 ^ k * IOVA_PAGE_SIZE = 2 ^ (k + 12)) as E by (unfold IOVA_PAGE_SIZE; by rewrite Z.pow_add_r by lia).
  split; simpl; [lia|done| |done]. split; [lia|]. rewrite E in H2. destruct (Z.leb_spec (k + 12) 63); [done|].
  pose proof (Z.pow_le_mono_r 2 64 (k + 12) ltac:(lia) ltac:(lia)). unfold U64_MAX in H2. lia.
Qed.

Section Fit.
Context (l : IovaLedger) (rq : IovaRequest) (k : Z).
Hypothesis Hw : ledger_wf l.
Hypothesis Hrq : request_ok rq k.
Abbreviation len := (rq_page_count rq * IOVA_PAGE_SIZE).
Abbreviation fitting := (fits (blockers l) (rg_start (aperture l)) (rg_end (aperture l)) len (alignment_pages rq * IOVA_PAGE_SIZE)).

Lemma first_fit_spec :
  match first_fit rq l with
  | Ok r => rg_end r = rg_start r + len ∧ fitting (rg_start r) ∧ 0 ≤ rg_start r ∧ ∀ y, fitting y → rg_start r ≤ y
  | Err e => e = AddressSpaceExhausted ∧ ∀ y, ¬ fitting y
  end.
Proof using All.
  destruct Hrq as [R1 R2 R3 R4]. destruct (lw_aperture _ Hw) as ((A1 & A2) & A3 & _). unfold first_fit. rewrite R4.
  destruct (Z.ltb_spec U64_MAX len); [lia|]. destruct (Z.ltb_spec U64_MAX (2 ^ k)) as [Hbad|_].
  { pose proof (Z.pow_le_mono_r 2 k 63 ltac:(lia) ltac:(lia)). unfold U64_MAX in Hbad. lia. }
  cbn [orb]. pose proof (align_up_spec (rg_start (aperture l)) k A1 ltac:(lia)) as Hup.
  destruct (align_up _ _) as [start|].
  - destruct Hup as (U1 & U2 & U3).
    destruct (fit_loop_spec (blockers l) (rg_start (aperture l)) (rg_end (aperture l)) len k (blockers_ok l Hw)
      ltac:(unfold IOVA_PAGE_SIZE; lia) A3 ltac:(lia) (S (length (blockers l))) start) as (res & -> & Hres).
    + pose proof (countb_le_length (λ b, start <? rg_end b) (blockers l)). lia.
    + lia.
    + lia.
    + done.
    + intros y [F1 F2 _ _]. by apply U3.
    + simpl. destruct res as [r|e]; [|done]. destruct Hres as (E & F & H0 & Hmin). split_and!; try done. by rewrite E at 1.
  - split; [done|]. intros y [F1 F2 F3 _]. pose proof (Hup y F1 F2). pose proof R1. unfold IOVA_PAGE_SIZE in *. lia.
Qed.

Lemma fitting_leasable r : rg_end r = rg_start r + len → 0 ≤ rg_start r → fitting (rg_start r) → leasable l r.
Proof using All.
  intros E H0 [F1 F2 F3 F4]. destruct Hrq as [R1 R2 R3 R4]. destruct (lw_aperture _ Hw) as (_ & A3 & _).
  assert (IOVA_PAGE_SIZE | rg_start r) as Hd.
  { etrans; [|exact F1]. apply Z.divide_factor_r. }
  assert (IOVA_PAGE_SIZE | rg_start r + len) by (apply Z.divide_add_r; [done|apply Z.divide_factor_r]).
  unfold leasable, range_ok, inside. rewrite E. split_and!; try done; try lia; try (unfold IOVA_PAGE_SIZE; lia).
  destruct r as [a b]. simpl in *. by rewrite E.
Qed.

(** [reserve], on every branch. *)
Lemma reserve_run :
  match position slot_free (leases l) with
  | None => reserve rq l = (Err LeaseCapacity, l)
  | Some i =>
      (reserve rq l = (Err AddressSpaceExhausted, l) ∧ ∀ y, ¬ fitting y) ∨
      ∃ r, reserve rq l = (Ok (grant i r l).1, (grant i r l).2) ∧ leasable l r ∧ rg_end r = rg_start r + len ∧
        fitting (rg_start r) ∧ ∀ y, fitting y → rg_start r ≤ y
  end.
Proof using All.
  unfold reserve. m_unfold. destruct (position slot_free (leases l)) as [i|]; [|done]. pose proof first_fit_spec as Hff.
  destruct (first_fit rq l) as [r|e].
  - destruct Hff as (E & F & H0 & Hmin). right. exists r. split_and!; try done. by apply fitting_leasable.
  - destruct Hff as [-> Hno]. by left.
Qed.
End Fit.

(** ** How a ledger evolves *)

(** A slot keeps its contents under one generation, except that its lease may
    end; a slot given out again carries a greater generation. *)
Definition slot_later (s t : LeaseSlot) : Prop :=
  ls_generation s ≤ ls_generation t ∧ (ls_generation t = ls_generation s → active t = true → t = s).

Record ledger_later (l l' : IovaLedger) : Prop := {
  ll_aperture : aperture l' = aperture l;
  ll_reserved : reserved_ranges l' = reserved_ranges l;
  ll_slot : ∀ i s, leases l !! i = Some s → ∃ t, leases l' !! i = Some t ∧ slot_later s t;
}.

Instance slot_later_preorder : PreOrder slot_later.
Proof.
  split; [intros s; split; [lia|done]|]. intros s t u [H1 H2] [H3 H4]. split; [lia|]. intros E Ha.
  assert (u = t) as -> by (apply H4; [lia|done]). by apply H2.
Qed.

Instance ledger_later_preorder : PreOrder ledger_later.
Proof.
  split.
  - intros l. split; [done|done|]. intros i s Hs. exists s. by split.
  - intros l1 l2 l3 [A1 A2 A3] [B1 B2 B3]. split; [congruence|congruence|]. intros i s Hs.
    destruct (A3 _ _ Hs) as (t & Ht & H1). destruct (B3 _ _ Ht) as (u & Hu & H2). exists u. split; [done|by etrans].
Qed.

Definition advanced (l l' : IovaLedger) : Prop := ledger_wf l' ∧ ledger_later l l'.

Lemma advanced_refl l : ledger_wf l → advanced l l.
Proof. by split. Qed.

Lemma advanced_trans l1 l2 l3 : advanced l1 l2 → advanced l2 l3 → advanced l1 l3.
Proof. intros [_ H1] [H2 H3]. split; [done|by etrans]. Qed.

(** Replacing one slot by a later one. *)
Lemma slot_replaced l i s t n :
  leases l !! i = Some s → slot_later s t →
  ledger_later l (mkLedger (aperture l) (reserved l) (reserved_count l) (<[i := t]> (leases l)) n).
Proof.
  intros Hs Hst. split; [done|done|]. intros j u Hu. cbn [leases]. destruct (decide (i = j)) as [<-|Hne].
  - exists t. rewrite list_lookup_insert_eq by (by eapply lookup_lt_Some). split; [done|]. by replace u with s by congruence.
  - exists u. by rewrite list_lookup_insert_ne.
Qed.

Lemma grant_advanced l i r : ledger_wf l → position slot_free (leases l) = Some i → leasable l r → advanced l (grant i r l).2.
Proof.
  intros Hw (s & Hs & Hfree)%position_lookup Hr. split; [by eapply grant_wf|].
  unfold grant. cbn [snd]. rewrite (slot_at_Some _ _ _ _ Hs). apply (slot_replaced _ _ s); [done|]. split; simpl; lia.
Qed.

Lemma release_advanced l lease : ledger_wf l → advanced l (release lease l).2.
Proof.
  intros Hw. rewrite release_run. destruct (live_slot l lease) as [[i s]|] eqn:E; [|by apply advanced_refl].
  apply live_slot_Some in E as (_ & Hs & Ha & _). split; [by apply iova_release_wf|].
  apply (slot_replaced _ _ s); [done|]. by split.
Qed.

Lemma reserve_advanced l rq k : ledger_wf l → request_ok rq k → advanced l (reserve rq l).2.
Proof.
  intros Hw Hrq. pose proof (reserve_run l rq k Hw Hrq) as Hrun. destruct (position slot_free (leases l)) as [i|] eqn:Hp.
  - destruct Hrun as [[-> _]|(r & -> & Hr & _)]; [by apply advanced_refl|]. by apply grant_advanced.
  - rewrite Hrun. by apply advanced_refl.
Qed.

Lemma reserve_exact_free l r :
  contains (aperture l) r && negb (existsb (λ b, overlaps b r) (reserved_ranges l))
    && negb (existsb (λ s, active s && overlaps (ls_range s) r) (leases l)) = true →
  range_ok r → leasable l r.
Proof.
  intros [[Hc%contains_inside Hres]%andb_true_iff Hls]%andb_true_iff Hok. split_and!; [done|done|].
  rewrite list.Forall_forall. intros b [Hb|(j & s & Hs & Ha & <-)]%blockers_leased; apply not_true_is_false; intros Ho.
  - apply negb_true_iff, not_true_iff_false in Hres. apply Hres, existsb_exists. exists b. rewrite <- list_elem_of_In, overlaps_comm. done.
  - apply negb_true_iff, not_true_iff_false in Hls. apply Hls, existsb_exists. exists s.
    rewrite <- list_elem_of_In, overlaps_comm, Ho, Ha. split; [by eapply list_elem_of_lookup_2|done].
Qed.

Lemma reserve_exact_advanced l r : ledger_wf l → range_ok r → advanced l (reserve_exact r l).2.
Proof.
  intros Hw Hr. unfold reserve_exact. m_unfold. destruct (_ && _) eqn:Hg; [|by apply advanced_refl].
  destruct (position slot_free (leases l)) as [i|] eqn:Hp; [|by apply advanced_refl].
  apply grant_advanced; [done|done|]. by apply reserve_exact_free.
Qed.

Lemma reserve_each_advanced rqs : Forall (λ rq, ∃ k, request_ok rq k) rqs → ∀ l, ledger_wf l → advanced l (reserve_each rqs l).2.
Proof.
  induction 1 as [|rq rqs [k Hrq] Hrqs IH]; intros l Hw; cbn [reserve_each]; m_unfold; [by apply advanced_refl|].
  pose proof (reserve_advanced l rq k Hw Hrq) as H1. destruct (reserve rq l) as [[lease|e] l1]; [|done].
  pose proof (IH l1 (proj1 H1)) as H2. destruct (reserve_each rqs l1) as [[rest|e] l2]; by eapply advanced_trans.
Qed.

(** ** What the granting operations keep *)

(** No live lease is touched. *)
Definition kept (l l' : IovaLedger) : Prop := ∀ i s, leases l !! i = Some s → active s = true → leases l' !! i = Some s.

Lemma kept_live l l' lease i s : kept l l' → live_slot l lease = Some (i, s) → live_slot l' lease = Some (i, s).
Proof. intros Hk (H1 & H2 & H3 & H4)%live_slot_Some. apply live_slot_Some. eauto. Qed.

(** What a grant gives: a handle that was not live, and that resolves to the
    range granted. *)
Lemma grant_run l i r :
  ledger_wf l → position slot_free (leases l) = Some i →
  kept l (grant i r l).2 ∧ live_slot l (grant i r l).1 = None ∧
  ∃ s, live_slot (grant i r l).2 (grant i r l).1 = Some (i, s) ∧ ls_range s = r.
Proof.
  intros Hw (s & Hs & Hfree)%position_lookup. pose proof (lookup_lt_Some _ _ _ Hs) as Hlt.
  apply andb_true_iff in Hfree as [Hidle%negb_true_iff _]. unfold grant. rewrite (slot_at_Some _ _ _ _ Hs). cbn [fst snd].
  pose proof (lw_capacity _ Hw). destruct (lease_decode i (ls_generation s + 1) ltac:(lia)) as [D1 D2]. split_and!.
  - intros j t Ht Ha. cbn [leases]. rewrite list_lookup_insert_ne; [done|]. intros ->. congruence.
  - destruct (live_slot l _) as [[j t]|] eqn:E; [|done]. apply live_slot_Some in E as (E1 & E2 & E3 & _). congruence.
  - exists (mkSlot r (ls_generation s + 1) true). split; [|done]. apply live_slot_Some. cbn [leases].
    by rewrite list_lookup_insert_eq, D1, D2.
Qed.

(** A lease answers a request. *)
Definition serves (l : IovaLedger) (rq : IovaRequest) (lease : Z) : Prop :=
  ∃ i s, live_slot l lease = Some (i, s) ∧ range_length (ls_range s) = rq_page_count rq * IOVA_PAGE_SIZE ∧
    (alignment_pages rq * IOVA_PAGE_SIZE | rg_start (ls_range s)).

Lemma reserve_serves l rq k lease l' :
  ledger_wf l → request_ok rq k → reserve rq l = (Ok lease, l') →
  kept l l' ∧ live_slot l lease = None ∧ serves l' rq lease.
Proof.
  intros Hw Hrq Hok. pose proof (reserve_run l rq k Hw Hrq) as Hrun.
  destruct (position slot_free (leases l)) as [i|] eqn:Hp; [|congruence].
  destruct Hrun as [[Hbad _]|(r & Hr & _ & Hlen & Hfit & _)]; [congruence|]. rewrite Hr in Hok.
  destruct (grant_run l i r Hw Hp) as (G1 & G2 & s & G3 & <-). destruct (grant i _ l) as [a b]. injection Hok as <- <-. split_and!; [done|done|]. exists i, s. split_and!; [done| |].
  - unfold range_length. lia.
  - by destruct Hfit.
Qed.

Lemma reserve_each_run rqs : Forall (λ rq, ∃ k, request_ok rq k) rqs → ∀ l staged l',
  ledger_wf l → reserve_each rqs l = (Ok staged, l') →
  kept l l' ∧ Forall (λ lease, live_slot l lease = None) staged ∧ NoDup staged ∧ Forall2 (serves l') rqs staged.
Proof.
  induction 1 as [|rq rqs [k Hrq] Hrqs IH]; intros l staged l' Hw; cbn [reserve_each]; m_unfold.
  { intros [= <- <-]. split_and!; [by intros i s|constructor|constructor|constructor]. }
  pose proof (reserve_advanced l rq k Hw Hrq) as [Hw1 _].
  destruct (reserve rq l) as [[lease|e] l1] eqn:E1; [|done]. destruct (reserve_each rqs l1) as [[rest|e] l2] eqn:E2; [|done].
  intros [= <- <-]. destruct (reserve_serves _ _ _ _ _ Hw Hrq E1) as (K1 & N1 & i & s & S1 & S2).
  destruct (IH l1 rest l2 Hw1 E2) as (K2 & N2 & D2 & F2). split_and!.
  - intros j t Ht Ha. apply K2; [by apply K1|done].
  - constructor; [done|]. eapply Forall_impl; [|exact N2]. simpl. intros a Ha.
    destruct (live_slot l a) as [[j t]|] eqn:El; [|done]. by rewrite (kept_live _ _ _ _ _ K1 El) in Ha.
  - constructor; [|done]. intros Hin. rewrite list.Forall_forall in N2. by rewrite (N2 _ Hin) in S1.
  - constructor; [|done]. exists i, s. split; [by apply (kept_live l1)|done].
Qed.

(** ** Sequences of operations *)

(** The calls a client can make; ranges and requests come from their checked
    constructors, and a failing constructor makes no call. *)
Inductive Op :=
  | ReserveAligned (pages alignment : Z)
  | ReserveExact (start len : Z)
  | ReserveMany (rqs : list (Z * Z)) (output_len : nat)
  | Release (lease : Z).

Fixpoint new_requests (rqs : list (Z * Z)) : Result (list IovaRequest) IovaError :=
  match rqs with
  | [] => Ok []
  | (pages, alignment) :: rqs =>
      match new_request pages alignment, new_requests rqs with
      | Ok rq, Ok rest => Ok (rq :: rest)
      | Err e, _ | _, Err e => Err e
      end
  end.

Definition exec (op : Op) (l : IovaLedger) : IovaLedger :=
  match op with
  | ReserveAligned pages alignment => (reserve_aligned pages alignment l).2
  | ReserveExact start len => match new_range start len with Ok r => (reserve_exact r l).2 | Err _ => l end
  | ReserveMany rqs n => match new_requests rqs with Ok rqs => (reserve_many rqs n l).2 | Err _ => l end
  | Release lease => (release lease l).2
  end.

(** The arguments are unsigned. *)
Definition op_typed (op : Op) : Prop :=
  match op with
  | ReserveAligned pages alignment => 0 ≤ pages ∧ 0 ≤ alignment
  | ReserveExact start len => 0 ≤ start ∧ 0 ≤ len
  | ReserveMany rqs _ => Forall (λ '(pages, alignment), 0 ≤ pages ∧ 0 ≤ alignment) rqs
  | Release _ => True
  end.

Definition run_ops (ops : list Op) (l : IovaLedger) : IovaLedger := foldl (λ l op, exec op l) l ops.

Lemma new_range_ok start len r : 0 ≤ start → 0 ≤ len → new_range start len = Ok r → range_ok r ∧ r = mkRange start (start + len).
Proof.
  intros H1 H2. unfold new_range, checked_add. destruct (Z.leb_spec (start + len) U64_MAX); [|done].
  destruct (_ || _) eqn:Hg; [done|]. intros [= <-]. rewrite !orb_false_iff, !negb_false_iff, !Z.eqb_eq in Hg.
  destruct Hg as (((Hz%Z.eqb_neq & Hs) & _) & He). unfold range_ok. simpl. rewrite <- !Z.mod_divide by done. split_and!; lia || done.
Qed.

Lemma new_requests_ok rqs : Forall (λ '(pages, alignment), 0 ≤ pages ∧ 0 ≤ alignment) rqs → ∀ out,
  new_requests rqs = Ok out → Forall (λ rq, ∃ k, request_ok rq k) out.
Proof.
  induction 1 as [|[pages alignment] rqs [H1 H2] _ IH]; intros out; simpl; [intros [= <-]; constructor|].
  pose proof (new_request_ok pages alignment H1 H2) as Hrq. destruct (new_request pages alignment) as [rq|e]; [|done].
  destruct (new_requests rqs) as [rest|e]; [|done]. intros [= <-]. destruct Hrq as (k & Hrq & _). constructor; [by exists k|by apply IH].
Qed.

(** [reserve_many]: all of the batch, or none of it. *)
Lemma reserve_many_run rqs n l :
  reserve_many rqs n l =
  if (length rqs =? 0)%nat || negb (length rqs =? n)%nat || (length (leases l) <? length rqs)%nat then (Err BatchOutputMismatch, l)
  else match reserve_each rqs l with (Ok staged, l') => (Ok staged, l') | (Err e, _) => (Err e, l) end.
Proof.
  unfold reserve_many. m_unfold. destruct (_ || _); [done|]. simpl. by destruct (reserve_each rqs l) as [[staged|e] l'].
Qed.

Lemma exec_advanced op l : op_typed op → ledger_wf l → advanced l (exec op l).
Proof.
  intros Ht Hw. destruct op as [pages alignment|start len|rqs n|lease]; simpl in *.
  - destruct Ht as [H1 H2]. unfold reserve_aligned. m_unfold. pose proof (new_request_ok pages alignment H1 H2) as Hrq.
    destruct (new_request pages alignment) as [rq|e]; [|by apply advanced_refl]. destruct Hrq as (k & Hrq & _).
    by apply (reserve_advanced l rq k).
  - destruct Ht as [H1 H2]. destruct (new_range start len) as [r|e] eqn:Hr; [|by apply advanced_refl].
    apply new_range_ok in Hr as [Hr _]; [|done|done]. by apply reserve_exact_advanced.
  - destruct (new_requests rqs) as [out|e] eqn:Hr; [|by apply advanced_refl]. apply new_requests_ok in Hr; [|done].
    rewrite reserve_many_run. destruct (_ || _); [by apply advanced_refl|]. pose proof (reserve_each_advanced out Hr l Hw) as Ha.
    destruct (reserve_each out l) as [[staged|e] l']; [done|by apply advanced_refl].
  - by apply release_advanced.
Qed.

Lemma run_ops_advanced ops l : Forall op_typed ops → ledger_wf l → advanced l (run_ops ops l).
Proof.
  intros Hops. revert l. induction Hops as [|op ops Hop _ IH]; intros l Hw; [by apply advanced_refl|].
  simpl. pose proof (exec_advanced op l Hop Hw) as H1. eapply advanced_trans; [exact H1|]. apply IH, H1.
Qed.

(** A ledger that a client can reach. *)
Record reached (LEASES RESERVED : nat) (ap : IovaRange) (rs : list IovaRange) (ops : list Op) (l : IovaLedger) : Prop := {
  rc_aperture : range_ok ap;
  rc_ranges : Forall range_ok rs;
  rc_typed : Forall op_typed ops;
  rc_new : ∃ l0, new_ledger LEASES RESERVED ap rs = Ok l0 ∧ l = run_ops ops l0;
}.

Lemma reached_wf LEASES RESERVED ap rs ops l : reached LEASES RESERVED ap rs ops l →
  ledger_wf l ∧ aperture l = ap ∧ reserved_ranges l ≡ₚ rs.
Proof.
  intros [H1 H2 H3 (l0 & H4 & ->)]. destruct (new_ledger_wf _ _ _ _ _ H1 H2 H4) as (Hw & Ea & Er).
  destruct (run_ops_advanced ops l0 H3 Hw) as [Hw' [La Lr _]]. split_and!; [done|congruence|by rewrite Lr].
Qed.

Lemma range_of_run l lease :
  range_of lease l = (match live_slot l lease with Some (_, s) => Ok (ls_range s) | None => Err StaleLease end, l).
Proof. unfold range_of. m_unfold. by destruct (live_slot l lease) as [[i s]|]. Qed.

(** A handle whose slot no longer carries its generation, or carries it without
    being leased, stays dead. *)
Lemma dead_stays l l' lease :
  live_slot l lease = None → (∀ i s, lease_slot lease = Some i → leases l !! i = Some s → lease_generation lease ≤ ls_generation s) →
  (∀ i, lease_slot lease = Some i → is_Some (leases l !! i)) → ledger_later l l' → live_slot l' lease = None.
Proof.
  intros Hdead Hgen Hin [_ _ Hl]. destruct (live_slot l' lease) as [[i t]|] eqn:E; [|done].
  apply live_slot_Some in E as (E1 & E2 & E3 & E4). destruct (Hin _ E1) as [s Hs]. pose proof (Hgen _ _ E1 Hs) as Hle.
  destruct (Hl _ _ Hs) as (t' & Ht' & Hge & Hsame). assert (t' = t) as -> by congruence.
  assert (t = s) as -> by (apply Hsame; [lia|done]).
  assert (live_slot l lease = Some (i, s)) as Hlive by (by apply live_slot_Some). congruence.
Qed.

(** ** Properties *)

(** C24. Whatever sequence of reservations and releases a client made, two
    different handles that resolve name disjoint ranges, each a non-empty
    page-aligned part of the aperture that meets none of the ranges reserved
    when the ledger was built. *)
Theorem iova_leases_disjoint LEASES RESERVED ap rs ops l a b ra rb :
  reached LEASES RESERVED ap rs ops l → a ≠ b →
  (range_of a l).1 = Ok ra → (range_of b l).1 = Ok rb →
  overlaps ra rb = false ∧ range_ok ra ∧ contains ap ra = true ∧ ∀ r, r ∈ rs → overlaps r ra = false.
Proof.
  intros (Hw & Ea & Er)%reached_wf Hne. rewrite !range_of_run. cbn [fst].
  destruct (live_slot l a) as [[i s]|] eqn:Ha; [|done]. destruct (live_slot l b) as [[j t]|] eqn:Hb; [|done].
  intros [= <-] [= <-]. apply live_slot_Some in Ha as (A1 & A2 & A3 & A4). apply live_slot_Some in Hb as (B1 & B2 & B3 & B4).
  destruct (lw_lease _ Hw _ _ A2 A3) as (L1 & L2 & L3). split_and!; [|done| |].
  - apply (lw_disjoint _ Hw i j); try done. intros <-. apply Hne, (lease_inj a b i); congruence.
  - rewrite <- Ea. by apply contains_inside.
  - intros r Hr. rewrite list.Forall_forall in L3. apply L3. by rewrite Er.
Qed.

(** The aligned reservation in every reachable ledger: a request with a
    zero count, an alignment that is no power of two or a size beyond 64 bits
    is rejected; a full ledger reports its capacity; otherwise the search ends
    with the lowest aligned address of the aperture where the range meets no
    reserved and no leased range, and the returned handle resolves to it, or,
    exactly when there is no such address, with an exhausted address space. An
    error changes nothing. *)
Theorem iova_first_fit LEASES RESERVED ap rs ops l pages alignment :
  reached LEASES RESERVED ap rs ops l → 0 ≤ pages → 0 ≤ alignment →
  let fitting := fits (blockers l) (rg_start ap) (rg_end ap) (pages * IOVA_PAGE_SIZE) (alignment * IOVA_PAGE_SIZE) in
  match reserve_aligned pages alignment l with
  | (Ok lease, l') =>
      ∃ x, (range_of lease l').1 = Ok (mkRange x (x + pages * IOVA_PAGE_SIZE)) ∧ fitting x ∧ ∀ y, fitting y → x ≤ y
  | (Err e, l') =>
      l' = l ∧
      (e = InvalidRequest ∧ (∀ rq, new_request pages alignment ≠ Ok rq) ∨
       e = LeaseCapacity ∧ Forall (λ s, slot_free s = false) (leases l) ∨
       e = AddressSpaceExhausted ∧ ∀ y, ¬ fitting y)
  end.
Proof.
  intros (Hw & <- & _)%reached_wf Hp Ha. unfold reserve_aligned. m_unfold. pose proof (new_request_ok pages alignment Hp Ha) as Hrq.
  destruct (new_request pages alignment) as [rq|e] eqn:Enew; cbv beta iota; [|naive_solver]. destruct Hrq as (k & Hrq & ->).
  pose proof (reserve_run l _ k Hw Hrq) as Hrun. destruct (position slot_free (leases l)) as [i|] eqn:Hpos; cbn [rq_page_count alignment_pages] in Hrun.
  - destruct Hrun as [[-> Hno]|(r & -> & Hr & Hlen & Hfit & Hmin)]; [naive_solver|].
    destruct (grant_run l i r Hw Hpos) as (_ & _ & s & Hs & Er). destruct (grant i r l) as [lease l']. cbn [fst snd] in *.
    exists (rg_start r). split_and!; [|done|done]. rewrite range_of_run, Hs. cbn [fst]. rewrite Er, <- Hlen. by destruct r.
  - rewrite Hrun. split; [done|]. right; left. split; [done|]. apply Forall_lookup. by apply position_None.
Qed.

(** C25. A released handle is dead for good: after any further operations, in
    which its slot may have been leased again many times, it does not resolve
    and cannot be released a second time. *)
Theorem iova_stale_forever LEASES RESERVED ap rs ops l lease r l' later :
  reached LEASES RESERVED ap rs ops l → release lease l = (Ok r, l') → Forall op_typed later →
  range_of lease (run_ops later l') = (Err StaleLease, run_ops later l') ∧
  release lease (run_ops later l') = (Err StaleLease, run_ops later l').
Proof.
  intros (Hw & _ & _)%reached_wf Hrel Hlater. pose proof (release_advanced l lease Hw) as [Hw' _].
  rewrite release_run in Hrel, Hw'. destruct (live_slot l lease) as [[i s]|] eqn:E; [|done]. injection Hrel as <- <-.
  apply live_slot_Some in E as (E1 & E2 & E3 & E4). pose proof (lookup_lt_Some _ _ _ E2) as Hlt.
  destruct (run_ops_advanced later _ Hlater Hw') as [_ Hl]. cbn [snd] in *.
  assert (leases (release_state l i s) !! i = Some (mkSlot EMPTY_RANGE (ls_generation s) false)) as Hslot
    by (by apply list_lookup_insert_eq).
  enough (live_slot (run_ops later (release_state l i s)) lease = None) as Hnone by (by rewrite range_of_run, release_run, Hnone).
  eapply (dead_stays (release_state l i s)); [| | |exact Hl].
  - destruct (live_slot (release_state l i s) lease) as [[j t]|] eqn:E5; [|done].
    apply live_slot_Some in E5 as (F1 & F2 & F3 & _). assert (j = i) as -> by congruence. rewrite Hslot in F2. by injection F2 as <-.
  - intros j t F1 F2. assert (j = i) as -> by congruence. rewrite Hslot in F2. injection F2 as <-. simpl. lia.
  - intros j F1. assert (j = i) as -> by congruence. eauto.
Qed.

(** A batch is reserved whole or not at all: an error leaves the ledger as
    it was; success gives one handle per request, all different and none live
    before, each resolving to a range of the requested size and alignment,
    while every handle live before still resolves as it did. *)
Theorem iova_batch_atomic LEASES RESERVED ap rs ops l rqs requests n :
  reached LEASES RESERVED ap rs ops l → op_typed (ReserveMany rqs n) → new_requests rqs = Ok requests →
  match reserve_many requests n l with
  | (Err _, l') => l' = l
  | (Ok staged, l') =>
      length staged = n ∧ NoDup staged ∧ Forall (λ lease, (range_of lease l).1 = Err StaleLease) staged ∧
      Forall2 (serves l') requests staged ∧
      ∀ lease r, (range_of lease l).1 = Ok r → (range_of lease l').1 = Ok r
  end.
Proof.
  intros (Hw & _ & _)%reached_wf Ht Hrq. apply new_requests_ok in Hrq; [|done]. rewrite reserve_many_run.
  destruct (_ || _) eqn:Hg; [done|]. rewrite !orb_false_iff, negb_false_iff, Nat.eqb_eq in Hg. destruct Hg as [[_ Hn] _].
  destruct (reserve_each requests l) as [[staged|e] l'] eqn:E; [|done].
  destruct (reserve_each_run requests Hrq l staged l' Hw E) as (K & N & D & F). split_and!; [|done| |done|].
  - by rewrite <- (Forall2_length F).
  - eapply Forall_impl; [|exact N]. simpl. intros lease Hl. by rewrite range_of_run, Hl.
  - intros lease r. rewrite !range_of_run. cbn [fst]. destruct (live_slot l lease) as [[i s]|] eqn:El; [|done].
    by rewrite (kept_live _ _ _ _ _ K El).
Qed.

(** ** A ledger of sixteen pages, two of them reserved, with four slots *)

Definition demo_ap : IovaRange := mkRange 0x10000 0x20000.
Definition demo_rs : list IovaRange := [mkRange 0x14000 0x15000; mkRange 0x10000 0x11000].
Definition demo_ops : list Op := [ReserveAligned 2 1; ReserveAligned 2 4; ReserveExact 0x13000 0x1000].
Definition demo_ledger : IovaLedger :=
  match new_ledger 4 2 demo_ap demo_rs with Ok l => run_ops demo_ops l | Err _ => mkLedger demo_ap [] 0 [] 0 end.

Lemma range_ok_dec r : (0 <=? rg_start r) && (rg_start r <? rg_end r) && (rg_end r <=? U64_MAX)
  && (rg_start r mod IOVA_PAGE_SIZE =? 0) && (rg_end r mod IOVA_PAGE_SIZE =? 0) = true → range_ok r.
Proof. rewrite !andb_true_iff, !Z.leb_le, !Z.eqb_eq, Z.ltb_lt. unfold range_ok. rewrite <- !Z.mod_divide by done. intuition lia. Qed.

Lemma demo_reached : reached 4 2 demo_ap demo_rs demo_ops demo_ledger.
Proof.
  split; [by apply range_ok_dec|repeat constructor; by apply range_ok_dec|repeat constructor; done|].
  eexists. split; [by vm_compute|by vm_compute].
Qed.

Lemma iova_leases_disjoint_witness :
  overlaps (mkRange 0x11000 0x13000) (mkRange 0x18000 0x1a000) = false ∧ range_ok (mkRange 0x11000 0x13000) ∧
  contains demo_ap (mkRange 0x11000 0x13000) = true ∧
  ∀ r, r ∈ demo_rs → overlaps r (mkRange 0x11000 0x13000) = false.
Proof.
  apply (iova_leases_disjoint 4 2 demo_ap demo_rs demo_ops demo_ledger (new_lease 0 1) (new_lease 1 1) _ (mkRange 0x18000 0x1a000));
    [exact demo_reached|done|by vm_compute|by vm_compute].
Defined.

Lemma iova_first_fit_witness :
  match reserve_aligned 3 2 demo_ledger with
  | (Ok lease, l') => ∃ x, (range_of lease l').1 = Ok (mkRange x (x + 3 * IOVA_PAGE_SIZE))
  | (Err e, l') => False
  end.
Proof.
  pose proof (iova_first_fit 4 2 demo_ap demo_rs demo_ops demo_ledger 3 2 demo_reached ltac:(lia) ltac:(lia)) as H.
  assert ((reserve_aligned 3 2 demo_ledger).1 = Ok (new_lease 3 1)) as E by (by vm_compute).
  destruct (reserve_aligned 3 2 demo_ledger) as [[lease|e] l']; [|done]. destruct H as (x & H & _). by exists x.
Defined.

Definition demo_later : list Op := [ReserveAligned 2 1; Release (new_lease 0 2); ReserveAligned 2 1].

Lemma iova_stale_forever_witness :
  range_of (new_lease 0 1) (run_ops demo_later (release (new_lease 0 1) demo_ledger).2) =
    (Err StaleLease, run_ops demo_later (release (new_lease 0 1) demo_ledger).2) ∧
  release (new_lease 0 1) (run_ops demo_later (release (new_lease 0 1) demo_ledger).2) =
    (Err StaleLease, run_ops demo_later (release (new_lease 0 1) demo_ledger).2).
Proof.
  apply (iova_stale_forever 4 2 demo_ap demo_rs demo_ops demo_ledger (new_lease 0 1) (mkRange 0x11000 0x13000));
    [exact demo_reached|by vm_compute|repeat constructor; done].
Defined.

Lemma iova_batch_atomic_witness :
  match reserve_many [mkRequest 1 1] 1 demo_ledger with
  | (Err _, l') => False
  | (Ok staged, l') => length staged = 1%nat ∧ NoDup staged
  end.
Proof.
  pose proof (iova_batch_atomic 4 2 demo_ap demo_rs demo_ops demo_ledger [(1, 1)] [mkRequest 1 1] 1 demo_reached
    ltac:(repeat constructor; done) ltac:(by vm_compute)) as H.
  assert ((reserve_many [mkRequest 1 1] 1 demo_ledger).1 = Ok [new_lease 3 1]) as E by (by vm_compute).
  destruct (reserve_many [mkRequest 1 1] 1 demo_ledger) as [[staged|e] l']; [|done]. by destruct H as (H1 & H2 & _).
Defined.
