(* ===== verification/RevTape.v ===== *)
(** * The reversible mutation tape: rev_tape.rs

    A tape records every mutation of a small world with the witness that undoes
    it; aborting runs the inverses from the tip to the root, committing drops
    the records. The properties relate the tape to a transaction that keeps a
    copy of the world: up to what the world shows (a queue cell outside the
    queue may hold anything), a tape behaves as that copy, provided no pop was
    refused after it had moved the queue. *)

From stdpp Require Import prelude list numbers.
From Stdlib Require Import ZArith Lia.
From S2P Require Import Prelude.
From S2P Require Import RingQueue.

#[local] Open Scope Z_scope.
#[local] Arguments Nat.modulo : simpl never.

Definition TAPE_CAP : nat := 256.
#[global] Arguments TAPE_CAP : simpl never.
Definition WITNESS_WORDS : nat := 4.

Inductive RevFault := Overflow | Underflow | BrokenInverse | Sealed | BadWitness.

Inductive MutOp := CounterAdd | CapOr | CapAndNot | TableInstall | TableClear | QueuePush | QueuePop.

Record Witness := mkWitness { words : list Z }.
Definition ZERO : Witness := mkWitness (replicate WITNESS_WORDS 0).

Record RevStep := mkStep { op : MutOp; target : nat; arg0 : Z; arg1 : Z; witness : Witness }.
Definition EMPTY_STEP : RevStep := mkStep CounterAdd 0 0 0 ZERO.

Record RevWorld := mkWorld {
  counters : list Z; caps : list Z; table : list Z; queue : list Z;
  q_head : nat; q_tail : nat; q_len : nat;
}.

Definition TABLE_EMPTY : Z := 0.
Definition new_world : RevWorld :=
  mkWorld (replicate 32 0) (replicate 32 0) (replicate 64 TABLE_EMPTY) (replicate 64 0) 0 0 0.

Record RevTape := mkTape { steps : list RevStep; len : nat; sealed : bool; epoch : Z }.
Definition new_tape : RevTape := mkTape (replicate TAPE_CAP EMPTY_STEP) 0 false 0.

(** A function stops with a fault of its own, or panics at an index out of
    range. *)
Inductive Stop := Fault (f : RevFault) | Panic.

Abbreviation WM := (M RevWorld Stop).

(** [x as i64], [x as u64], [x as u32] *)
Definition as_i64 (x : Z) : Z := (x + 2 ^ 63) mod 2 ^ 64 - 2 ^ 63.
Definition as_u64 (x : Z) : Z := x mod 2 ^ 64.
Definition as_u32 (x : Z) : Z := x mod 2 ^ 32.

Definition index (l : list Z) (i : nat) : WM Z := ok_or (l !! i) Panic.

Definition with_counters (l : list Z) (w : RevWorld) : RevWorld := mkWorld l (caps w) (table w) (queue w) (q_head w) (q_tail w) (q_len w).
Definition with_caps (l : list Z) (w : RevWorld) : RevWorld := mkWorld (counters w) l (table w) (queue w) (q_head w) (q_tail w) (q_len w).
Definition with_table (l : list Z) (w : RevWorld) : RevWorld := mkWorld (counters w) (caps w) l (queue w) (q_head w) (q_tail w) (q_len w).
Definition with_queue (l : list Z) (hd tl n : nat) (w : RevWorld) : RevWorld := mkWorld (counters w) (caps w) (table w) l hd tl n.

(** [w.words[0] = first; w.words[1] = second] over [Witness::ZERO] *)
Definition witness_of (first second : Z) : Witness := mkWitness (<[1%nat := second]> (<[0%nat := first]> (words ZERO))).

(** A write into [counters], [caps] or [table]; the old value is returned. *)
Definition forward_cell (get : RevWorld → list Z) (set : list Z → RevWorld → RevWorld) (i : nat) (f : Z → Z)
    (guard : Z → option Stop) : WM Z :=
  w ← getS;
  ensure (i <? length (get w))%nat (Fault BrokenInverse);;
  old ← index (get w) i;
  match guard old with
  | Some e => throw e
  | None => putS (set (<[i := f old]> (get w)) w);; mret old
  end.

Definition unguarded (old : Z) : option Stop := None.

Definition forward (step : RevStep) : WM Witness :=
  let i := target step in
  match op step with
  | CounterAdd =>
      old ← forward_cell counters with_counters i (λ old, as_i64 (old + as_i64 (arg0 step))) unguarded;
      mret (witness_of (as_u64 old) 0)
  | CapOr =>
      old ← forward_cell caps with_caps i (λ old, Z.lor old (arg0 step)) unguarded;
      mret (witness_of old 0)
  | CapAndNot =>
      old ← forward_cell caps with_caps i (λ old, and_not old (arg0 step)) unguarded;
      mret (witness_of old 0)
  | TableInstall =>
      _ ← forward_cell table with_table i (λ _, arg0 step)
            (λ old, if old =? TABLE_EMPTY then None else Some (Fault BrokenInverse));
      mret (witness_of TABLE_EMPTY 0)
  | TableClear =>
      old ← forward_cell table with_table i (λ _, TABLE_EMPTY)
              (λ old, if old =? arg0 step then None else Some (Fault BadWitness));
      mret (witness_of old 0)
  | QueuePush =>
      w ← getS;
      ensure (q_len w <? length (queue w))%nat (Fault Overflow);;
      _ ← index (queue w) (q_tail w);
      putS (with_queue (<[q_tail w := as_u32 (arg0 step)]> (queue w))
              (q_head w) ((q_tail w + 1) mod length (queue w))%nat (S (q_len w)) w);;
      mret (witness_of (Z.of_nat (q_tail w)) 0)
  | QueuePop =>
      w ← getS;
      ensure (negb (q_len w =? 0)%nat) (Fault Underflow);;
      v ← index (queue w) (q_head w);
      putS (with_queue (queue w) ((q_head w + 1) mod length (queue w))%nat (q_tail w) (q_len w - 1) w);;
      ensure (negb (negb (arg0 step =? 0) && negb (arg0 step =? v))) (Fault BadWitness);;
      mret (witness_of v (Z.of_nat (q_head w)))
  end.

Definition word (k : nat) (step : RevStep) : Z := slot_at 0 (words (witness step)) k.

(** A write of the inverse: [cells[i] = x]. *)
Definition restore (get : RevWorld → list Z) (set : list Z → RevWorld → RevWorld) (i : nat) (x : Z) : WM unit :=
  w ← getS;
  _ ← index (get w) i;
  putS (set (<[i := x]> (get w)) w).

Definition inverse (step : RevStep) : WM unit :=
  let i := target step in
  match op step with
  | CounterAdd => restore counters with_counters i (as_i64 (word 0 step))
  | CapOr | CapAndNot => restore caps with_caps i (word 0 step)
  | TableInstall =>
      w ← getS;
      now ← index (table w) i;
      ensure (now =? arg0 step) (Fault BrokenInverse);;
      restore table with_table i (word 0 step)
  | TableClear => restore table with_table i (word 0 step)
  | QueuePush =>
      w ← getS;
      ensure (negb (q_len w =? 0)%nat) (Fault BrokenInverse);;
      putS (with_queue (queue w) (q_head w) (Z.to_nat (as_u32 (word 0 step))) (q_len w - 1) w)
  | QueuePop =>
      w ← getS;
      let hd := Z.to_nat (as_u32 (word 1 step)) in
      _ ← index (queue w) hd;
      putS (with_queue (<[hd := as_u32 (word 0 step)]> (queue w)) hd (q_tail w) (S (q_len w)) w)
  end.

(** The tape and the world it is applied to. *)
Record Sys := mkSys { tape : RevTape; world : RevWorld }.
Abbreviation SM := (M Sys Stop).
Definition on_world {A} (m : WM A) : SM A := zoom world (λ w s, mkSys (tape s) w) id m.
Definition on_tape (f : RevTape → RevTape) : SM unit := modifyS (λ s, mkSys (f (tape s)) (world s)).

Definition with_witness (wit : Witness) (step : RevStep) : RevStep := mkStep (op step) (target step) (arg0 step) (arg1 step) wit.

Definition apply (step : RevStep) : SM unit :=
  s ← getS;
  ensure (negb (sealed (tape s))) (Fault Sealed);;
  ensure (negb (TAPE_CAP <=? len (tape s))%nat) (Fault Overflow);;
  wit ← on_world (forward step);
  on_tape (λ t, mkTape (<[len t := with_witness wit step]> (steps t)) (S (len t)) (sealed t) (epoch t)).

(** [while self.len > 0], from [n] recorded steps down. *)
Fixpoint abort_loop (n : nat) : SM unit :=
  match n with
  | O => mret tt
  | S n =>
      s ← getS;
      on_world (inverse (slot_at EMPTY_STEP (steps (tape s)) n));;
      on_tape (λ t, mkTape (steps t) n (sealed t) (epoch t));;
      abort_loop n
  end.

Definition abort : SM unit :=
  s ← getS;
  ensure (negb (sealed (tape s))) (Fault Sealed);;
  abort_loop (len (tape s)).

Definition commit : SM unit :=
  on_tape (λ t, mkTape (imap (λ i step, if (i <? len t)%nat then with_witness ZERO step else step) (steps t))
                  0 false (wrapping_add U64_MAX (epoch t) 1)).

(** ** What a world shows *)

Definition QUEUE_CAP : nat := 64.
Definition queued (w : RevWorld) : list Z := ring_view 0 QUEUE_CAP (queue w) (q_head w) (q_len w).

Record world_wf (w : RevWorld) : Prop := {
  ww_counters : Forall (λ x, - 2 ^ 63 ≤ x < 2 ^ 63) (counters w);
  ww_queue : length (queue w) = QUEUE_CAP;
  ww_values : Forall is_u32 (queue w);
  ww_head : (q_head w < QUEUE_CAP)%nat;
  ww_len : (q_len w ≤ QUEUE_CAP)%nat;
  ww_tail : q_tail w = ((q_head w + q_len w) mod QUEUE_CAP)%nat;
}.

(** Two worlds that agree but for the queue cells outside the queue. *)
Record same (w v : RevWorld) : Prop := {
  sm_counters : counters w = counters v;
  sm_caps : caps w = caps v;
  sm_table : table w = table v;
  sm_head : q_head w = q_head v;
  sm_tail : q_tail w = q_tail v;
  sm_len : q_len w = q_len v;
  sm_queued : queued w = queued v;
}.

#[global] Instance same_equivalence : Equivalence same.
Proof.
  split.
  - by intros w.
  - intros w v []. by split.
  - intros w v u [] []. split; congruence.
Qed.

Infix "≈" := same (at level 70).

Lemma as_i64_range x : - 2 ^ 63 ≤ as_i64 x < 2 ^ 63.
Proof. unfold as_i64. pose proof (Z.mod_pos_bound (x + 2 ^ 63) (2 ^ 64)). lia. Qed.

Lemma as_i64_as_u64 x : - 2 ^ 63 ≤ x < 2 ^ 63 → as_i64 (as_u64 x) = x.
Proof.
  intros Hx. unfold as_i64, as_u64. rewrite Z.add_mod_idemp_l by lia. rewrite Z.mod_small; lia.
Qed.

Lemma as_u32_range x : is_u32 (as_u32 x).
Proof. unfold as_u32, is_u32, U32_MAX. pose proof (Z.mod_pos_bound x (2 ^ 32)). lia. Qed.

Lemma as_u32_small x : is_u32 x → as_u32 x = x.
Proof. unfold as_u32, is_u32, U32_MAX. intros. apply Z.mod_small. lia. Qed.

Lemma as_u32_index (i : nat) : (i < QUEUE_CAP)%nat → Z.to_nat (as_u32 (Z.of_nat i)) = i.
Proof. unfold QUEUE_CAP. intros. rewrite as_u32_small by (unfold is_u32, U32_MAX; lia). lia. Qed.

(** ** One step *)

Lemma forward_cell_run get set i f guard w :
  forward_cell get set i f guard w =
  match get w !! i with
  | None => (Err (Fault BrokenInverse), w)
  | Some old => match guard old with Some e => (Err e, w) | None => (Ok old, set (<[i := f old]> (get w)) w) end
  end.
Proof.
  unfold forward_cell, index. m_unfold. destruct (get w !! i) as [old|] eqn:E.
  - pose proof (lookup_lt_Some _ _ _ E) as Hlt%Nat.ltb_lt. rewrite Hlt. by destruct (guard old).
  - apply lookup_ge_None in E. by apply Nat.ltb_ge in E as ->.
Qed.

Lemma forward_push_run step w : op step = QueuePush → world_wf w →
  forward step w =
  if (q_len w <? QUEUE_CAP)%nat
  then (Ok (witness_of (Z.of_nat (q_tail w)) 0),
        with_queue (<[q_tail w := as_u32 (arg0 step)]> (queue w)) (q_head w) ((q_tail w + 1) mod QUEUE_CAP) (S (q_len w)) w)
  else (Err (Fault Overflow), w).
Proof.
  intros Ho Hw. unfold forward. rewrite Ho. unfold index. m_unfold. rewrite (ww_queue _ Hw).
  destruct (_ <? _)%nat; [|done]. destruct (queue w !! q_tail w) eqn:E; [done|]. exfalso.
  apply lookup_ge_None in E. rewrite (ww_queue _ Hw), (ww_tail _ Hw) in E.
  pose proof (Nat.mod_upper_bound (q_head w + q_len w) QUEUE_CAP). unfold QUEUE_CAP in *. lia.
Qed.

Lemma forward_pop_run step w : op step = QueuePop → world_wf w →
  forward step w =
  match queued w with
  | [] => (Err (Fault Underflow), w)
  | v :: _ =>
      let w' := with_queue (queue w) ((q_head w + 1) mod QUEUE_CAP) (q_tail w) (q_len w - 1) w in
      if negb (arg0 step =? 0) && negb (arg0 step =? v) then (Err (Fault BadWitness), w')
      else (Ok (witness_of v (Z.of_nat (q_head w))), w')
  end.
Proof.
  intros Ho Hw. unfold forward. rewrite Ho. unfold index, queued. m_unfold. rewrite (ww_queue _ Hw).
  destruct (q_len w) as [|n] eqn:En; [done|]. rewrite ring_view_S by apply Hw. cbn [negb Nat.eqb].
  destruct (lookup_lt_is_Some_2 (queue w) (q_head w)) as [v Hv]. { rewrite (ww_queue _ Hw). apply Hw. }
  rewrite Hv, (slot_at_Some _ _ _ _ Hv). by destruct (_ && _).
Qed.

(** A push and a pop, on what the queue holds. *)
Lemma queued_push x w : world_wf w → (q_len w < QUEUE_CAP)%nat →
  queued (with_queue (<[q_tail w := x]> (queue w)) (q_head w) ((q_tail w + 1) mod QUEUE_CAP) (S (q_len w)) w) = queued w ++ [x].
Proof. intros Hw Hl. unfold queued. simpl. rewrite (ww_tail _ Hw). apply ring_view_insert; [apply Hw|done|apply Hw]. Qed.

Lemma queued_pop w : world_wf w → (0 < q_len w)%nat →
  queued w = slot_at 0 (queue w) (q_head w)
    :: queued (with_queue (queue w) ((q_head w + 1) mod QUEUE_CAP) (q_tail w) (q_len w - 1) w).
Proof.
  intros Hw Hl. unfold queued. simpl. replace (q_len w) with (S (q_len w - 1)) at 1 by lia. apply ring_view_S, Hw.
Qed.

Lemma queued_cons_len w x l : queued w = x :: l → (0 < q_len w)%nat.
Proof. intros Hq. pose proof (f_equal length Hq) as H. unfold queued in H. rewrite ring_view_length in H. simpl in H. lia. Qed.

Lemma push_wf x w : world_wf w → (q_len w < QUEUE_CAP)%nat → is_u32 x →
  world_wf (with_queue (<[q_tail w := x]> (queue w)) (q_head w) ((q_tail w + 1) mod QUEUE_CAP) (S (q_len w)) w).
Proof.
  intros Hw Hl Hx. destruct Hw as [W1 W2 W3 W4 W5 W6]. split; simpl; try done.
  - by rewrite length_insert.
  - by apply Forall_insert.
  - rewrite W6, Nat.Div0.add_mod_idemp_l. f_equal. lia.
Qed.

Lemma pop_wf w : world_wf w → (0 < q_len w)%nat →
  world_wf (with_queue (queue w) ((q_head w + 1) mod QUEUE_CAP) (q_tail w) (q_len w - 1) w).
Proof.
  intros [W1 W2 W3 W4 W5 W6] Hl. split; simpl; try done; try lia.
  - apply Nat.mod_upper_bound. unfold QUEUE_CAP. lia.
  - rewrite W6, Nat.Div0.add_mod_idemp_l. f_equal. lia.
Qed.

(** A write to one of the cell arrays does not concern the queue. *)
Lemma with_cells_wf w :
  world_wf w →
  (∀ l, Forall (λ x, - 2 ^ 63 ≤ x < 2 ^ 63) l → world_wf (with_counters l w)) ∧
  (∀ l, world_wf (with_caps l w)) ∧ (∀ l, world_wf (with_table l w)).
Proof. intros []. split_and!; intros; by split. Qed.

Lemma with_cells_same w v : w ≈ v →
  (∀ l, with_counters l w ≈ with_counters l v) ∧ (∀ l, with_caps l w ≈ with_caps l v) ∧ (∀ l, with_table l w ≈ with_table l v).
Proof. intros []. split_and!; intros; by split. Qed.

Lemma forward_wf step w : world_wf w → world_wf (forward step w).2.
Proof.
  intros Hw. destruct (with_cells_wf w Hw) as (Hc & Hp & Ht). destruct (op step) eqn:Ho.
  6: { rewrite forward_push_run by done. destruct (Nat.ltb_spec (q_len w) QUEUE_CAP); [|done]. apply push_wf; [done|done|apply as_u32_range]. }
  6: { rewrite forward_pop_run by done. destruct (queued w) as [|v l] eqn:Hq; [done|].
       pose proof (queued_cons_len _ _ _ Hq).
       destruct (_ && _); by apply pop_wf. }
  all: unfold forward; rewrite Ho; m_unfold; rewrite forward_cell_run; destruct (_ !! _) as [old|]; [|done]; unfold unguarded;
    repeat case_match; simplify_eq/=; auto.
  apply Hc, Forall_insert; [apply Hw|apply as_i64_range].
Qed.

Lemma forward_cell_same get set i f guard w v :
  get w = get v → (∀ l, set l w ≈ set l v) → w ≈ v →
  (forward_cell get set i f guard w).1 = (forward_cell get set i f guard v).1 ∧
  (forward_cell get set i f guard w).2 ≈ (forward_cell get set i f guard v).2.
Proof.
  intros Hg Hs Hwv. rewrite !forward_cell_run, Hg. destruct (_ !! _); [|done]. destruct (guard _); [done|]. split; [done|apply Hs].
Qed.

(** What a step does and answers depends only on what the world shows. *)
Lemma forward_same step w v : world_wf w → world_wf v → w ≈ v →
  (forward step w).1 = (forward step v).1 ∧ (forward step w).2 ≈ (forward step v).2.
Proof.
  intros Hw Hv Hs. destruct (with_cells_same w v Hs) as (Hc & Hp & Ht). pose proof Hs as [S1 S2 S3 S4 S5 S6 S7].
  destruct (op step) eqn:Ho.
  6: { rewrite !forward_push_run by done. rewrite <- S6, <- S5. destruct (Nat.ltb_spec (q_len w) QUEUE_CAP); [|done].
       split; [done|]. split; simpl; try congruence. rewrite (queued_push _ w) by done. rewrite S7, S5, S6.
       rewrite (queued_push _ v) by (done || lia). done. }
  6: { rewrite !forward_pop_run by done. rewrite <- S7. destruct (queued w) as [|x l] eqn:Hq; [done|]. rewrite <- S4.
       pose proof (queued_cons_len _ _ _ Hq).
       assert (with_queue (queue w) ((q_head w + 1) mod QUEUE_CAP) (q_tail w) (q_len w - 1) w
             ≈ with_queue (queue v) ((q_head w + 1) mod QUEUE_CAP) (q_tail v) (q_len v - 1) v).
       { split; simpl; try congruence. rewrite S4. pose proof (queued_pop w Hw ltac:(lia)) as Pw.
         pose proof (queued_pop v Hv ltac:(lia)) as Pv. congruence. }
       by destruct (_ && _). }
  all: unfold forward; rewrite Ho; m_unfold.
  all: match goal with H : ?w ≈ ?v |- context [forward_cell ?g ?s ?i ?f ?gd ?w] =>
         destruct (forward_cell_same g s i f gd w v) as [E1 E2]; [done|done|done|];
         destruct (forward_cell g s i f gd w) as [[]], (forward_cell g s i f gd v) as [[]]; by simplify_eq/= end.
Qed.

(** A refused step changes nothing, except a pop refused for its argument. *)
Lemma forward_refused step w e w' : world_wf w →
  forward step w = (Err e, w') → ¬ (op step = QueuePop ∧ e = Fault BadWitness) → w' = w.
Proof.
  intros Hw Hf Hn. destruct (op step) eqn:Ho.
  6: { rewrite forward_push_run in Hf by done. by destruct (_ <? _)%nat; simplify_eq. }
  6: { rewrite forward_pop_run in Hf by done. destruct (queued w); [by simplify_eq|]. destruct (_ && _); simplify_eq. naive_solver. }
  all: unfold forward in Hf; rewrite Ho in Hf; m_unfold; rewrite forward_cell_run in Hf; unfold unguarded in Hf;
    repeat case_match; by simplify_eq.
Qed.

Lemma forward_faults step w : world_wf w → (forward step w).1 ≠ Err Panic ∧ (forward step w).1 ≠ Err (Fault Sealed).
Proof.
  intros Hw. destruct (op step) eqn:Ho.
  6: { rewrite forward_push_run by done. by destruct (_ <? _)%nat. }
  6: { rewrite forward_pop_run by done. destruct (queued w); [done|]. by destruct (_ && _). }
  all: unfold forward; rewrite Ho; m_unfold; rewrite forward_cell_run; unfold unguarded; repeat case_match; by simplify_eq/=.
Qed.

Lemma restore_run get set i x v :
  restore get set i x v =
  match get v !! i with None => (Err Panic, v) | Some _ => (Ok tt, set (<[i := x]> (get v)) v) end.
Proof. unfold restore, index. m_unfold. by destruct (get v !! i). Qed.

Lemma forward_cell_Ok get set i f guard w old w' :
  forward_cell get set i f guard w = (Ok old, w') →
  get w !! i = Some old ∧ guard old = None ∧ w' = set (<[i := f old]> (get w)) w.
Proof. rewrite forward_cell_run. intros. by repeat case_match; simplify_eq. Qed.

(** Putting back the value a write found. *)
Lemma put_back (l l' : list Z) i x y : l !! i = Some x → <[i := y]> l = l' → l' !! i = Some y ∧ <[i := x]> l' = l.
Proof.
  intros Hx <-. pose proof (lookup_lt_Some _ _ _ Hx). split; [by apply list_lookup_insert_eq|].
  rewrite list_insert_insert_eq. by apply list_insert_id.
Qed.

Section Undo.
Context (step : RevStep) (w : RevWorld) (wit : Witness) (w' v' : RevWorld).
Hypothesis Hw : world_wf w.
Hypothesis Hf : forward step w = (Ok wit, w').
Hypothesis Hs : w' ≈ v'.
Hypothesis Hv : world_wf v'.
Abbreviation undone := (∃ v, inverse (with_witness wit step) v' = (Ok tt, v) ∧ w ≈ v).

Lemma undo_push : op step = QueuePush → undone.
Proof using All.
  intros Ho. rewrite forward_push_run in Hf by done. destruct (Nat.ltb_spec (q_len w) QUEUE_CAP) as [Hl|]; [|done].
  injection Hf as <- E. destruct Hs as [S1 S2 S3 S4 S5 S6 S7]. subst w'. simpl in *.
  unfold inverse. simpl. rewrite Ho. m_unfold. rewrite <- S6. simpl. eexists. split; [done|].
  assert (q_tail w < QUEUE_CAP)%nat. { rewrite (ww_tail _ Hw). apply Nat.mod_upper_bound. unfold QUEUE_CAP. lia. }
  split; simpl; try congruence; try lia.
  { rewrite <- (as_u32_index (q_tail w)) at 1 by done. done. }
  rewrite queued_push in S7 by done. unfold queued in *. simpl. rewrite <- S6, <- S4 in S7. rewrite <- S4, Nat.sub_0_r.
  replace (S (q_len w)) with (q_len w + 1)%nat in S7 by lia. rewrite ring_view_app in S7.
  by apply app_inj_2 in S7 as [S7 _].
Qed.

Lemma undo_pop : op step = QueuePop → undone.
Proof using All.
  intros Ho. rewrite forward_pop_run in Hf by done. destruct (queued w) as [|x l] eqn:Hq; [done|]. destruct (_ && _); [done|].
  injection Hf as <- E. pose proof (queued_cons_len _ _ _ Hq) as Hl. pose proof (queued_pop w Hw Hl) as Hp. rewrite Hq in Hp.
  rewrite E in Hp. injection Hp as Hx Hrest. destruct Hs as [S1 S2 S3 S4 S5 S6 S7]. subst w'. simpl in *.
  unfold inverse. simpl. rewrite Ho. unfold index. m_unfold. unfold word. cbn [witness with_witness].
  change (slot_at 0 (words (witness_of x (Z.of_nat (q_head w)))) 1) with (Z.of_nat (q_head w)).
  change (slot_at 0 (words (witness_of x (Z.of_nat (q_head w)))) 0) with x. rewrite as_u32_index by apply Hw.
  destruct (lookup_lt_is_Some_2 (queue v') (q_head w)) as [y ->]. { rewrite (ww_queue _ Hv). apply Hw. }
  assert (is_u32 x) as Hux.
  { subst x. destruct (lookup_lt_is_Some_2 (queue w) (q_head w)) as [z Hz]. { rewrite (ww_queue _ Hw). apply Hw. }
    rewrite (slot_at_Some _ _ _ _ Hz). pose proof (ww_values _ Hw) as Hvs. rewrite Forall_lookup in Hvs. eauto. }
  rewrite (as_u32_small x Hux). eexists. split; [done|]. split; simpl; try congruence; try lia.
  rewrite Hq, Hrest, S7. unfold queued. simpl. rewrite (ring_view_S _ _ (q_len v')) by apply Hw. rewrite <- S4, <- S6.
  rewrite ring_view_insert_head by (pose proof (ww_head _ Hw); pose proof (ww_len _ Hw); lia). f_equal.
  symmetry. apply slot_at_Some, list_lookup_insert_eq. rewrite (ww_queue _ Hv). apply Hw.
Qed.

(** The inverse of a recorded step undoes it, on any world that shows what the
    step left. *)
Lemma undo : undone.
Proof using All.
  destruct (op step) eqn:Ho; [| | | | |by apply undo_push|by apply undo_pop].
  all: unfold forward in Hf; rewrite Ho in Hf; m_unfold;
    match type of Hf with context [forward_cell ?g ?s ?i ?f ?gd ?x] =>
      destruct (forward_cell g s i f gd x) as [[old|e] w1] eqn:E; [|done]; injection Hf as <- <-;
      apply forward_cell_Ok in E as (E1 & E2 & E3) end;
    pose proof Hs as [S1 S2 S3 S4 S5 S6 S7]; subst w1; simpl in *; unfold inverse; simpl; rewrite Ho.
  all: match goal with H : <[?i := ?y]> ?l = ?l', E : ?l !! ?i = Some ?x |- _ =>
         destruct (put_back l l' i x y E H) as [P1 P2] end.
  4: { unfold index. m_unfold. rewrite P1, Z.eqb_refl, restore_run, P1. eexists. split; [done|].
       assert (old = TABLE_EMPTY) as -> by (destruct (Z.eqb_spec old TABLE_EMPTY); done). by split. }
  all: rewrite restore_run, P1; eexists; (split; [done|]); split; simpl; try done.
  pose proof (ww_counters _ Hw) as Hc. rewrite Forall_lookup in Hc.
  change (word 0 (with_witness (witness_of (as_u64 old) 0) step)) with (as_u64 old). rewrite as_i64_as_u64; eauto.
Qed.
End Undo.

Lemma inverse_queue step v :
  length (queue (inverse step v).2) = length (queue v) ∧
  (Forall is_u32 (queue v) → Forall is_u32 (queue (inverse step v).2)).
Proof.
  unfold inverse, restore, index. m_unfold. repeat case_match; simplify_eq/=; rewrite ?length_insert; auto.
  split; [done|]. intros. apply Forall_insert; [done|apply as_u32_range].
Qed.

Lemma same_wf w v : world_wf w → w ≈ v → length (queue v) = QUEUE_CAP → Forall is_u32 (queue v) → world_wf v.
Proof. intros [] []. split; congruence. Qed.

(** ** The recorded trail *)

(** [trail b l v]: the steps [l], each with its witness, lead from a world that
    shows what [b] does to one that shows what [v] does. *)
Inductive trail (b : RevWorld) : list RevStep → RevWorld → Prop :=
  | trail_nil v : b ≈ v → trail b [] v
  | trail_snoc l w step wit w' v :
      trail b l w → world_wf w → forward step w = (Ok wit, w') → w' ≈ v → trail b (l ++ [with_witness wit step]) v.

Lemma trail_snoc_inv b l x v : trail b (l ++ [x]) v →
  ∃ w step wit w', x = with_witness wit step ∧ trail b l w ∧ world_wf w ∧ forward step w = (Ok wit, w') ∧ w' ≈ v.
Proof.
  inversion 1 as [? ? E|l' w step wit w' ? Ht Hw Hf Hs E]; [by destruct l|]. apply app_inj_tail in E as [<- <-]. eauto 10.
Qed.

#[global] Instance trail_proper b l : Proper (same ==> iff) (trail b l).
Proof.
  assert (∀ v u, v ≈ u → trail b l v → trail b l u) as H.
  { intros v u Hvu Ht. inversion Ht; subst; [apply trail_nil; by etrans|]. eapply trail_snoc; [done|done|done|by etrans]. }
  intros v u Hvu. split; apply H; [done|by symmetry].
Qed.

(** Unwinding the tape leads back to where the trail started. *)
Lemma abort_loop_run n : ∀ b s,
  trail b (take n (steps (tape s))) (world s) → world_wf (world s) → (n ≤ length (steps (tape s)))%nat → len (tape s) = n →
  ∃ v, abort_loop n s = (Ok tt, mkSys (mkTape (steps (tape s)) 0 (sealed (tape s)) (epoch (tape s))) v) ∧ b ≈ v ∧ world_wf v.
Proof.
  induction n as [|n IH]; intros b [t v'] Ht Hv Hn Hlen; simpl in Ht, Hv, Hn, Hlen.
  { inversion Ht; [|by destruct l]. exists v'. destruct t; simpl in *; subst. done. }
  destruct (lookup_lt_is_Some_2 (steps t) n Hn) as [x Hx]. rewrite (take_S_r _ _ _ Hx) in Ht.
  apply trail_snoc_inv in Ht as (w & step & wit & w' & -> & Ht & Hw & Hf & Hs).
  destruct (undo step w wit w' v' Hw Hf Hs Hv) as (v & Hinv & Hwv).
  assert (world_wf v) as Hv1.
  { destruct (inverse_queue (with_witness wit step) v') as [Q1 Q2]. rewrite Hinv in Q1, Q2. simpl in Q1, Q2.
    apply (same_wf w); [done|done|rewrite Q1; apply Hv|apply Q2, Hv]. }
  cbn [abort_loop]. unfold on_world, on_tape. m_unfold. cbn [tape world]. rewrite (slot_at_Some _ _ _ _ Hx), Hinv.
  cbn [map_err tape world steps sealed epoch].
  destruct (IH b (mkSys (mkTape (steps t) n (sealed t) (epoch t)) v)) as (u & -> & Hu); simpl; [by rewrite <- Hwv|done|lia|done|].
  by exists u.
Qed.

(** ** The transaction a tape stands for *)

Record Txn := mkTxn { base : RevWorld; current : RevWorld; count : nat; commits : Z }.

Inductive Act := Apply (step : RevStep) | Abort | Commit.

Definition act (a : Act) : SM unit :=
  match a with Apply step => apply step | Abort => abort | Commit => commit end.

(** A transaction keeps a copy of the world; a refused step changes nothing. *)
Definition spec_act (a : Act) (x : Txn) : Result unit Stop * Txn :=
  match a with
  | Apply step =>
      if (TAPE_CAP <=? count x)%nat then (Err (Fault Overflow), x)
      else match forward step (current x) with
           | (Ok _, w) => (Ok tt, mkTxn (base x) w (S (count x)) (commits x))
           | (Err e, _) => (Err e, x)
           end
  | Abort => (Ok tt, mkTxn (base x) (base x) 0 (commits x))
  | Commit => (Ok tt, mkTxn (current x) (current x) 0 (wrapping_add U64_MAX (commits x) 1))
  end.

Fixpoint play {X} (f : Act → X → Result unit Stop * X) (acts : list Act) (x : X) : list (Result unit Stop) * X :=
  match acts with
  | [] => ([], x)
  | a :: acts => let '(r, x) := f a x in let '(rs, x) := play f acts x in (r :: rs, x)
  end.

(** A pop refused for its argument after it had moved the queue. *)
Definition refused_pop (a : Act) (r : Result unit Stop) : bool :=
  match a, r with
  | Apply step, Err (Fault BadWitness) => match op step with QueuePop => true | _ => false end
  | _, _ => false
  end.

Record refines (x : Txn) (s : Sys) : Prop := {
  rf_world : current x ≈ world s;
  rf_wf : world_wf (world s);
  rf_current : world_wf (current x);
  rf_base : world_wf (base x);
  rf_trail : trail (base x) (take (count x) (steps (tape s))) (world s);
  rf_count : len (tape s) = count x;
  rf_open : sealed (tape s) = false;
  rf_room : (count x ≤ TAPE_CAP)%nat;
  rf_steps : length (steps (tape s)) = TAPE_CAP;
  rf_epoch : epoch (tape s) = commits x;
}.

Definition record_step (wit : Witness) (step : RevStep) (t : RevTape) : RevTape :=
  mkTape (<[len t := with_witness wit step]> (steps t)) (S (len t)) (sealed t) (epoch t).

Lemma apply_run step t v : sealed t = false →
  apply step (mkSys t v) =
  if (TAPE_CAP <=? len t)%nat then (Err (Fault Overflow), mkSys t v)
  else match forward step v with
       | (Ok wit, v') => (Ok tt, mkSys (record_step wit step t) v')
       | (Err e, v') => (Err e, mkSys t v')
       end.
Proof.
  intros Ho. unfold apply, on_world, on_tape. m_unfold. cbn [tape world]. rewrite Ho. cbn [negb].
  destruct (_ <=? _)%nat; cbn [negb world]; [done|]. by destruct (forward step v) as [[wit|e] v'].
Qed.

Lemma apply_refines x s step : refines x s →
  refused_pop (Apply step) (act (Apply step) s).1 = false →
  (act (Apply step) s).1 = (spec_act (Apply step) x).1 ∧ refines (spec_act (Apply step) x).2 (act (Apply step) s).2.
Proof.
  destruct s as [t v]. intros Hx. pose proof Hx as [R1 R2 R3 R4 R5 R6 R7 R8 R9 R10]. cbn [act spec_act tape world] in *.
  rewrite (apply_run step t v R7), R6. destruct (Nat.leb_spec TAPE_CAP (count x)) as [|Hroom]; [done|].
  destruct (forward_same step (current x) v R3 R2 R1) as [Er Ew]. pose proof (forward_wf step v R2) as Wv.
  pose proof (forward_wf step (current x) R3) as Wc.
  destruct (forward step v) as [[wit|e] v1] eqn:Fv, (forward step (current x)) as [[wit'|e'] w1] eqn:Fw; simplify_eq/=; intros Hr.
  - split; [done|]. split; simpl; try done; try lia.
    + rewrite R6, (take_S_r _ _ (with_witness wit step)) by (apply list_lookup_insert_eq; lia).
      rewrite take_insert_ge by lia. by eapply trail_snoc.
    + by rewrite length_insert.
  - split; [done|]. rewrite (forward_refused step v e v1 R2 Fv); [done|]. intros [Ho ->]. by rewrite Ho in Hr.
Qed.

Definition proper_result (r : Result unit Stop) : Prop := r ≠ Err Panic ∧ r ≠ Err (Fault Sealed).

Lemma spec_act_proper x a : world_wf (current x) → proper_result (spec_act a x).1.
Proof.
  intros Hw. destruct a as [step| |]; cbn [spec_act]; [|done|done]. destruct (_ <=? _)%nat; [done|].
  pose proof (forward_faults step (current x) Hw) as [H1 H2].
  destruct (forward step (current x)) as [[wit|e] w]; simpl in *; [done|]. split; congruence.
Qed.

Lemma act_refines x s a : refines x s → refused_pop a (act a s).1 = false →
  (act a s).1 = (spec_act a x).1 ∧ refines (spec_act a x).2 (act a s).2.
Proof.
  intros Hx Hr. destruct a as [step| |]; [by apply apply_refines| |]; destruct Hx as [R1 R2 R3 R4 R5 R6 R7 R8 R9 R10];
    simpl; unfold abort, commit, on_tape; m_unfold; rewrite ?R7, ?R6; cbn [negb].
  - destruct (abort_loop_run (count x) (base x) s) as (v & -> & Hv & Hwf); [done|done|lia|done|]. split; [done|].
    split; simpl; try done; [by apply trail_nil|lia].
  - split; [done|]. split; simpl; try done; [by apply trail_nil|lia|by rewrite length_imap|by rewrite R10].
Qed.

Lemma play_refines acts : ∀ x s, refines x s →
  Forall2 (λ a r, refused_pop a r = false) acts (play act acts s).1 →
  (play act acts s).1 = (play spec_act acts x).1 ∧ refines (play spec_act acts x).2 (play act acts s).2 ∧
  Forall proper_result (play act acts s).1.
Proof.
  induction acts as [|a acts IH]; intros x s Hx Hr; [by split_and!|]. cbn [play] in *. pose proof (act_refines x s a Hx) as Ha.
  pose proof (spec_act_proper x a (rf_current _ _ Hx)) as Hp.
  destruct (act a s) as [r s1], (spec_act a x) as [r' x1]. destruct (play act acts s1) as [rs s2] eqn:Ep.
  simpl in Hr. apply Forall2_cons_1 in Hr as [Hr Hrs]. destruct (Ha Hr) as [E1 Hx1]. simpl in E1, Hx1, Hp. subst r'.
  specialize (IH x1 s1 Hx1). rewrite Ep in IH. destruct (IH Hrs) as (E & Hx2 & F). destruct (play spec_act acts x1) as [rs' x2].
  simpl in *. split_and!; [by rewrite E|done|by constructor].
Qed.

Definition boot : Sys := mkSys new_tape new_world.
Definition boot_txn : Txn := mkTxn new_world new_world 0 0.

Lemma boot_refines : refines boot_txn boot.
Proof.
  assert (world_wf new_world).
  { split; [|done| |unfold QUEUE_CAP; simpl; lia|unfold QUEUE_CAP; simpl; lia|done];
      simpl; repeat constructor; unfold is_u32, U32_MAX; lia. }
  split; try done; [by apply trail_nil|simpl; lia].
Qed.

(** ** Properties *)

(** C28. A tape and its world behave as a transaction that keeps a copy of the
    world: over every sequence of steps, aborts and commits from boot in which
    no pop was refused for its argument, every call answers as the transaction
    does (an abort always succeeds, a refused step changes nothing) and the
    world shows what the transaction's current copy shows; in particular an
    abort brings back the world of the last commit or abort, and nothing
    panics. *)
Theorem revtape_transaction acts :
  Forall2 (λ a r, refused_pop a r = false) acts (play act acts boot).1 →
  (play act acts boot).1 = (play spec_act acts boot_txn).1 ∧
  world (play act acts boot).2 ≈ current (play spec_act acts boot_txn).2 ∧
  Forall (λ r, r ≠ Err Panic ∧ r ≠ Err (Fault Sealed)) (play act acts boot).1.
Proof.
  intros Hr. destruct (play_refines acts _ _ boot_refines Hr) as (E & H & F). split_and!; [done|symmetry; apply H|].
  eapply Forall_impl; [|exact F]. by intros r [].
Qed.

(** A pop whose argument does not match the value at the head of a queue is
    refused only after the queue has moved: the call reports an error, records
    nothing, and has taken the value; aborting the tape right away succeeds and
    does not bring the value back. *)
Theorem revtape_refused_pop w step v rest :
  world_wf w → op step = QueuePop → queued w = v :: rest → arg0 step ≠ 0 → arg0 step ≠ v →
  ∃ w', apply step (mkSys new_tape w) = (Err (Fault BadWitness), mkSys new_tape w') ∧ queued w' = rest ∧
    abort (mkSys new_tape w') = (Ok tt, mkSys new_tape w') ∧ ¬ w ≈ w'.
Proof.
  intros Hw Ho Hq H0%Z.eqb_neq Hv%Z.eqb_neq. rewrite apply_run by done. rewrite forward_pop_run, Hq, H0, Hv by done. cbn [negb andb].
  eexists. split; [done|]. pose proof (queued_pop w Hw (queued_cons_len _ _ _ Hq)) as Hp. rewrite Hq in Hp.
  injection Hp as _ Hr. split_and!; [done|done|]. intros Hs%sm_len. simpl in Hs. pose proof (queued_cons_len _ _ _ Hq). lia.
Qed.

(** ** A tape at work *)

Definition demo_step (o : MutOp) (i : nat) (x : Z) : RevStep := mkStep o i x 0 ZERO.

Definition demo_acts : list Act :=
  [Apply (demo_step QueuePush 0 7); Commit; Apply (demo_step CounterAdd 3 5); Apply (demo_step QueuePop 0 7);
   Apply (demo_step QueuePush 0 9); Apply (demo_step TableClear 2 4); Apply (demo_step TableInstall 2 11); Abort].

Lemma revtape_transaction_witness :
  (play act demo_acts boot).1 = (play spec_act demo_acts boot_txn).1 ∧
  world (play act demo_acts boot).2 ≈ current (play spec_act demo_acts boot_txn).2 ∧
  Forall (λ r, r ≠ Err Panic ∧ r ≠ Err (Fault Sealed)) (play act demo_acts boot).1.
Proof. apply (revtape_transaction demo_acts). vm_compute. repeat constructor. Defined.

Definition demo_queue : RevWorld := (forward (demo_step QueuePush 0 7) new_world).2.

Lemma revtape_refused_pop_witness :
  ∃ w', apply (demo_step QueuePop 0 8) (mkSys new_tape demo_queue) = (Err (Fault BadWitness), mkSys new_tape w') ∧ queued w' = [] ∧
    abort (mkSys new_tape w') = (Ok tt, mkSys new_tape w') ∧ ¬ demo_queue ≈ w'.
Proof.
  apply (revtape_refused_pop demo_queue (demo_step QueuePop 0 8) 7 []); [|done|by vm_compute|done|done].
  apply forward_wf, (rf_base _ _ boot_refines).
Defined.
