(* ===== verification/UserMemory.v ===== *)
(** * User memory: the page walk and the user copies of syscalls.rs

    A system call reaches user memory by walking the four-level page tables of
    the active address space in physical memory and moving bytes through the
    kernel's linear direct map, one page span at a time. Physical memory is a
    function from addresses to bytes. *)

From stdpp Require Import prelude list numbers.
From Stdlib Require Import ZArith Lia.
From S2P Require Import Prelude.
From S2P Require Import Context.

#[local] Open Scope Z_scope.

Definition Memory : Type := Z → Z.

Definition PAGE_SIZE : Z := 4096.
Definition PAGE_ADDRESS_MASK : Z := 0x000ffffffffff000.
Definition ENTRY_PRESENT : Z := Z.shiftl 1 0.
Definition ENTRY_WRITABLE : Z := Z.shiftl 1 1.
Definition ENTRY_USER : Z := Z.shiftl 1 2.
Definition ENTRY_HUGE : Z := Z.shiftl 1 7.
Definition HIGHER_HALF_DIRECT_MAP_BASE : Z := 0xffff800000000000.
Definition EARLY_MAPPED_PHYSICAL_LIMIT : Z := 4 * 1024 * 1024 * 1024.

Inductive UserCopyError := InvalidRange | MissingMapping | PermissionDenied | HugePageUnsupported | UnmappedPhysicalMemory.

(** [mmio::direct_map_address]: the address at which the kernel sees a
    physical byte. *)
Definition direct_map_address (physical : Z) : option Z :=
  if EARLY_MAPPED_PHYSICAL_LIMIT <=? physical then None
  else checked_add U64_MAX HIGHER_HALF_DIRECT_MAP_BASE physical.

(** Accesses through a direct-map pointer: the map is linear. *)
Definition load_byte (pointer : Z) (mem : Memory) : Z := mem (pointer - HIGHER_HALF_DIRECT_MAP_BASE).
Definition store_byte (pointer x : Z) (mem : Memory) : Memory :=
  λ a, if a =? pointer - HIGHER_HALF_DIRECT_MAP_BASE then x else mem a.

Fixpoint load (pointer : Z) (n : nat) (mem : Memory) : list Z :=
  match n with O => [] | S n => load_byte pointer mem :: load (pointer + 1) n mem end.
Fixpoint store (pointer : Z) (bytes : list Z) (mem : Memory) : Memory :=
  match bytes with [] => mem | x :: bytes => store (pointer + 1) bytes (store_byte pointer x mem) end.

(** Little-endian, as on the target. *)
Definition from_ne_bytes (bytes : list Z) : Z := foldr (λ x rest, x + 256 * rest) 0 bytes.
Fixpoint to_ne_bytes (n : nat) (x : Z) : list Z :=
  match n with O => [] | S n => x mod 256 :: to_ne_bytes n (x / 256) end.

Definition valid_user_control_address (address : Z) : bool :=
  (USER_ADDRESS_MINIMUM <=? address) && (address <? USER_ADDRESS_LIMIT).

Definition read_active_entry (mem : Memory) (table : Z) (index : Z) : option Z :=
  if negb (Z.land table (PAGE_SIZE - 1) =? 0) || (512 <=? index) then None
  else
    physical ← checked_add U64_MAX table (index * 8);
    stop ← checked_add U64_MAX physical 8;
    if EARLY_MAPPED_PHYSICAL_LIMIT <? stop then None
    else
      pointer ← direct_map_address physical;
      Some (from_ne_bytes (load pointer 8 mem)).

(** The checks on one entry of the walk. *)
Definition entry_allows (write : bool) (entry : Z) : bool :=
  (Z.land entry (Z.lor ENTRY_PRESENT ENTRY_USER) =? Z.lor ENTRY_PRESENT ENTRY_USER)
  && negb (write && (Z.land entry ENTRY_WRITABLE =? 0)).

(** [for index in &indices[..3]] *)
Fixpoint walk_tables (read_entry : Z → Z → option Z) (write : bool) (indices : list Z) (table : Z) : Result Z UserCopyError :=
  match indices with
  | [] => Ok table
  | index :: indices =>
      match read_entry table index with
      | None => Err MissingMapping
      | Some entry =>
          if negb (entry_allows write entry) then Err PermissionDenied
          else if negb (Z.land entry ENTRY_HUGE =? 0) then Err HugePageUnsupported
          else walk_tables read_entry write indices (Z.land entry PAGE_ADDRESS_MASK)
      end
  end.

Definition table_index (address shift : Z) : Z := Z.land (Z.shiftr address shift) 0x1ff.

Definition translate_user_address_with_access (root address : Z) (write : bool) (read_entry : Z → Z → option Z) :
    Result Z UserCopyError :=
  if (root =? 0) || negb (Z.land root (PAGE_SIZE - 1) =? 0) || negb (valid_user_control_address address) then Err InvalidRange
  else if 256 <=? table_index address 39 then Err InvalidRange
  else
    match walk_tables read_entry write (table_index address <$> [39; 30; 21]) root with
    | Err e => Err e
    | Ok table =>
        match read_entry table (table_index address 12) with
        | None => Err MissingMapping
        | Some leaf =>
            if negb (entry_allows write leaf) then Err PermissionDenied
            else Ok (Z.lor (Z.land leaf PAGE_ADDRESS_MASK) (Z.land address (PAGE_SIZE - 1)))
        end
    end.

Definition translate_user_address (root address : Z) (read_entry : Z → Z → option Z) : Result Z UserCopyError :=
  translate_user_address_with_access root address false read_entry.

Definition translate_user_address_for_write (root address : Z) (read_entry : Z → Z → option Z) : Result Z UserCopyError :=
  translate_user_address_with_access root address true read_entry.

Definition page_remaining (user_address : Z) : nat := Z.to_nat (PAGE_SIZE - Z.land user_address (PAGE_SIZE - 1)).

(** The range check at the head of the three routines. *)
Definition user_range (start : Z) (n : nat) : Result unit UserCopyError :=
  match checked_add U64_MAX start (Z.of_nat n) with
  | None => Err InvalidRange
  | Some stop => if (start <? USER_ADDRESS_MINIMUM) || (USER_ADDRESS_LIMIT <? stop) then Err InvalidRange else Ok tt
  end.

(** One round: where the span of [n] bytes at [user_address] is in the direct
    map. *)
Definition span_pointer (mem : Memory) (root user_address : Z) (write : bool) (n : nat) : Result Z UserCopyError :=
  match translate_user_address_with_access root user_address write (read_active_entry mem) with
  | Err e => Err e
  | Ok physical =>
      match checked_add U64_MAX physical (Z.of_nat n) with
      | None => Err UnmappedPhysicalMemory
      | Some stop =>
          if EARLY_MAPPED_PHYSICAL_LIMIT <? stop then Err UnmappedPhysicalMemory
          else match direct_map_address physical with None => Err UnmappedPhysicalMemory | Some pointer => Ok pointer end
      end
  end.

(** [while checked < length]: a round covers at least one byte, so that as many
    rounds as bytes are enough. *)
Fixpoint validate_loop (rounds : nat) (mem : Memory) (root target : Z) (len checked : nat) : Result unit UserCopyError :=
  match rounds with
  | O => Ok tt
  | S rounds =>
      if (checked <? len)%nat then
        let user_address := target + Z.of_nat checked in
        match translate_user_address_for_write root user_address (read_active_entry mem) with
        | Err e => Err e
        | Ok physical =>
            let span := Nat.min (page_remaining user_address) (len - checked) in
            match checked_add U64_MAX physical (Z.of_nat span) with
            | None => Err UnmappedPhysicalMemory
            | Some stop =>
                if EARLY_MAPPED_PHYSICAL_LIMIT <? stop then Err UnmappedPhysicalMemory
                else validate_loop rounds mem root target len (checked + span)
            end
        end
      else Ok tt
  end.

Definition validate_user_write_range (mem : Memory) (root target : Z) (len : nat) : Result unit UserCopyError :=
  if (len =? 0)%nat then Ok tt
  else match user_range target len with Err e => Err e | Ok _ => validate_loop len mem root target len 0 end.

(** [copy_from_user]: the state is the target slice, which a failing copy
    leaves partly filled. *)
Definition blit (at_ : nat) (bytes buffer : list Z) : list Z := take at_ buffer ++ bytes ++ drop (at_ + length bytes) buffer.

Fixpoint copy_from_loop (rounds : nat) (mem : Memory) (root source : Z) (copied : nat) : M (list Z) UserCopyError unit :=
  match rounds with
  | O => mret tt
  | S rounds =>
      target ← getS;
      if (copied <? length target)%nat then
        let user_address := source + Z.of_nat copied in
        let n := Nat.min (page_remaining user_address) (length target - copied) in
        pointer ← of_result (span_pointer mem root user_address false n);
        modifyS (blit copied (load pointer n mem));;
        copy_from_loop rounds mem root source (copied + n)
      else mret tt
  end.

Definition copy_from_user (mem : Memory) (root source : Z) : M (list Z) UserCopyError unit :=
  target ← getS;
  if (length target =? 0)%nat then mret tt
  else of_result (user_range source (length target));; copy_from_loop (length target) mem root source 0.

(** [copy_to_user]: the state is physical memory. *)
Fixpoint copy_to_loop (rounds : nat) (root target : Z) (source : list Z) (copied : nat) : M Memory UserCopyError unit :=
  match rounds with
  | O => mret tt
  | S rounds =>
      if (copied <? length source)%nat then
        let user_address := target + Z.of_nat copied in
        let n := Nat.min (page_remaining user_address) (length source - copied) in
        mem ← getS;
        pointer ← of_result (span_pointer mem root user_address true n);
        modifyS (store pointer (take n (drop copied source)));;
        copy_to_loop rounds root target source (copied + n)
      else mret tt
  end.

Definition copy_to_user (root target : Z) (source : list Z) : M Memory UserCopyError unit :=
  if (length source =? 0)%nat then mret tt
  else of_result (user_range target (length source));; copy_to_loop (length source) root target source 0.

(** [copy_value_to_user] for an integer of [n] bytes. *)
Definition copy_value_to_user (root target : Z) (n : nat) (x : Z) : M Memory UserCopyError unit :=
  copy_to_user root target (to_ne_bytes n x).

Definition read_user_u64 (mem : Memory) (root address : Z) : Result Z UserCopyError :=
  match copy_from_user mem root address (replicate 8 0) with
  | (Ok _, encoded) => Ok (from_ne_bytes encoded)
  | (Err e, _) => Err e
  end.

Lemma to_ne_bytes_u8 n : ∀ v, Forall is_u8 (to_ne_bytes n v).
Proof. induction n as [|n IH]; intros v; constructor; [|apply IH]. unfold is_u8, U8_MAX. pose proof (Z.mod_pos_bound v 256). lia. Qed.
