(* ===== verification/UserMemoryProofs.v ===== *)
(** * Correctness of the user copies

    The copies of UserMemory.v move whole page spans. The reference moves one
    byte at a time through the translation of its own address. Where no
    user-writable byte takes part in a page walk, the two agree on every
    outcome, whence what a copy can touch, that a copied value reads back, and
    that a validated range can be written. *)

From stdpp Require Import prelude list numbers.
From Stdlib Require Import ZArith Lia.
From S2P Require Import Prelude.
From S2P Require Import Context.
From S2P Require Import UserMemory.

#[local] Open Scope Z_scope.
#[local] Arguments PAGE_SIZE : simpl never.
#[local] Arguments HIGHER_HALF_DIRECT_MAP_BASE : simpl never.

(** ** Addresses within a page *)

Lemma page_offset va : Z.land va (PAGE_SIZE - 1) = va mod PAGE_SIZE.
Proof. exact (Z.land_ones va 12 ltac:(lia)). Qed.

Lemma frame_shape leaf : ∃ q, Z.land leaf PAGE_ADDRESS_MASK = Z.shiftl q 12 ∧ 0 ≤ q < 2 ^ 40.
Proof.
  exists (Z.land (Z.shiftr leaf 12) (Z.ones 40)). split.
  - apply Z.bits_inj'. intros n Hn. rewrite Z.shiftl_spec, !Z.land_spec by done.
    change PAGE_ADDRESS_MASK with (Z.shiftl (Z.ones 40) 12). rewrite Z.shiftl_spec by done.
    destruct (Z.leb_spec 12 n).
    + rewrite Z.shiftr_spec by lia. by replace (n - 12 + 12) with n by lia.
    + rewrite !(Z.testbit_neg_r _ (n - 12)) by lia. by rewrite andb_false_r.
  - rewrite Z.land_ones by lia. apply Z.mod_pos_bound. lia.
Qed.

Lemma physical_sum leaf va :
  Z.lor (Z.land leaf PAGE_ADDRESS_MASK) (Z.land va (PAGE_SIZE - 1)) = Z.land leaf PAGE_ADDRESS_MASK + va mod PAGE_SIZE.
Proof.
  rewrite page_offset. destruct (frame_shape leaf) as (q & -> & _).
  rewrite lor_shiftl_sum; [by rewrite Z.shiftl_mul_pow2|lia|]. apply Z.mod_pos_bound. done.
Qed.

Lemma index_same_page va d s :
  0 ≤ d → va mod PAGE_SIZE + d < PAGE_SIZE → 12 ≤ s → table_index (va + d) s = table_index va s.
Proof.
  intros Hd Hp Hs. unfold table_index. f_equal. rewrite !Z.shiftr_div_pow2 by lia.
  replace (2 ^ s) with (PAGE_SIZE * 2 ^ (s - 12)) by (unfold PAGE_SIZE; rewrite <- (Z.pow_add_r 2 12) by lia; f_equal; lia).
  rewrite <- !Z.div_div by (try apply Z.pow_pos_nonneg; done || lia). f_equal.
  unfold PAGE_SIZE in *. pose proof (Z.div_mod va 4096 ltac:(lia)). pose proof (Z.mod_pos_bound va 4096 ltac:(lia)).
  symmetry. apply (Z.div_unique _ _ _ (va mod 4096 + d)); lia.
Qed.

(** The user addresses are whole pages. *)
Lemma valid_same_page va d :
  0 ≤ d → va mod PAGE_SIZE + d < PAGE_SIZE → valid_user_control_address (va + d) = valid_user_control_address va.
Proof.
  intros Hd Hp. unfold valid_user_control_address, USER_ADDRESS_MINIMUM, USER_ADDRESS_LIMIT, PAGE_SIZE in *.
  pose proof (Z.div_mod va 4096 ltac:(lia)). pose proof (Z.mod_pos_bound va 4096 ltac:(lia)).
  destruct (Z.leb_spec 0x1000 (va + d)), (Z.leb_spec 0x1000 va), (Z.ltb_spec (va + d) 0x800000000000), (Z.ltb_spec va 0x800000000000);
    simpl; lia.
Qed.

Section Translate.
Context (read_entry : Z → Z → option Z) (root : Z) (write : bool).
Abbreviation tr va := (translate_user_address_with_access root va write read_entry).

Lemma translate_same_page va d :
  0 ≤ d → va mod PAGE_SIZE + d < PAGE_SIZE →
  tr (va + d) = match tr va with Ok pa => Ok (pa + d) | Err e => Err e end.
Proof using.
  intros Hd Hp. unfold translate_user_address_with_access. rewrite valid_same_page by done.
  destruct (_ || _); [done|]. cbn [fmap list_fmap]. rewrite !index_same_page by (done || lia).
  destruct (_ <=? _); [done|]. destruct (walk_tables _ _ _ _) as [table|e]; [|done].
  destruct (read_entry _ _) as [leaf|]; [|done]. destruct (negb _); [done|]. rewrite !physical_sum. f_equal.
  unfold PAGE_SIZE in *. pose proof (Z.div_mod va 4096 ltac:(lia)). pose proof (Z.mod_pos_bound va 4096 ltac:(lia)).
  assert ((va + d) mod 4096 = va mod 4096 + d); [|lia]. symmetry. apply (Z.mod_unique _ _ (va / 4096)); lia.
Qed.

Lemma translate_range va pa : tr va = Ok pa → 0 ≤ pa < 2 ^ 52 ∧ pa mod PAGE_SIZE = va mod PAGE_SIZE.
Proof using.
  unfold translate_user_address_with_access. destruct (_ || _); [done|]. destruct (_ <=? _); [done|].
  destruct (walk_tables _ _ _ _) as [table|e]; [|done]. destruct (read_entry _ _) as [leaf|]; [|done].
  destruct (negb _); [done|]. rewrite physical_sum. intros [= <-]. destruct (frame_shape leaf) as (q & -> & Hq).
  rewrite Z.shiftl_mul_pow2 by lia. pose proof (Z.mod_pos_bound va PAGE_SIZE ltac:(done)) as Hm. unfold PAGE_SIZE in *. split; [lia|].
  rewrite Z.add_comm, Z_mod_plus_full. by rewrite Z.mod_mod.
Qed.
End Translate.

(** A writable byte is readable, at the same place. *)
Lemma walk_write_read read_entry l : ∀ table r, walk_tables read_entry true l table = Ok r → walk_tables read_entry false l table = Ok r.
Proof.
  induction l as [|i l IH]; intros table r; simpl; [done|]. destruct (read_entry _ _) as [x|]; [|done].
  unfold entry_allows. destruct (_ =? Z.lor _ _); simpl; [|done]. destruct (Z.land x ENTRY_WRITABLE =? 0); simpl; [done|].
  destruct (Z.land x ENTRY_HUGE =? 0); simpl; [apply IH|done].
Qed.

Lemma translate_write_read read_entry root va pa :
  translate_user_address_with_access root va true read_entry = Ok pa →
  translate_user_address_with_access root va false read_entry = Ok pa.
Proof.
  unfold translate_user_address_with_access. destruct (_ || _); [done|]. destruct (_ <=? _); [done|].
  destruct (walk_tables read_entry true _ _) as [table|e] eqn:E; [|done]. rewrite (walk_write_read _ _ _ _ E).
  destruct (read_entry _ _) as [x|]; [|done]. unfold entry_allows.
  destruct (_ =? Z.lor _ _); simpl; [|done]. by destruct (Z.land x ENTRY_WRITABLE =? 0).
Qed.

(** ** One byte *)

(** The physical address of a user byte, where the kernel can reach it. *)
Definition user_byte (write : bool) (mem : Memory) (root va : Z) : Result Z UserCopyError :=
  match translate_user_address_with_access root va write (read_active_entry mem) with
  | Err e => Err e
  | Ok pa => if EARLY_MAPPED_PHYSICAL_LIMIT <=? pa then Err UnmappedPhysicalMemory else Ok pa
  end.

Definition pointer_to (pa : Z) : Z := HIGHER_HALF_DIRECT_MAP_BASE + pa.

Lemma user_byte_write_read mem root va pa : user_byte true mem root va = Ok pa → user_byte false mem root va = Ok pa.
Proof.
  unfold user_byte. destruct (translate_user_address_with_access root va true _) as [x|] eqn:E; [|done].
  by rewrite (translate_write_read _ _ _ _ E).
Qed.

(** The page with the byte [pa] ends below the limit if [pa] is below it. *)
Lemma below_limit pa n :
  pa < EARLY_MAPPED_PHYSICAL_LIMIT → pa mod PAGE_SIZE + n ≤ PAGE_SIZE → pa + n ≤ EARLY_MAPPED_PHYSICAL_LIMIT.
Proof.
  unfold EARLY_MAPPED_PHYSICAL_LIMIT, PAGE_SIZE. intros. pose proof (Z.div_mod pa 4096 ltac:(lia)).
  pose proof (Z.mod_pos_bound pa 4096 ltac:(lia)). lia.
Qed.

Lemma user_byte_same_page write mem root va d :
  0 ≤ d → va mod PAGE_SIZE + d < PAGE_SIZE →
  user_byte write mem root (va + d) = match user_byte write mem root va with Ok pa => Ok (pa + d) | Err e => Err e end.
Proof.
  intros Hd Hp. unfold user_byte. rewrite translate_same_page by done.
  destruct (translate_user_address_with_access _ _ _ _) as [pa|e] eqn:E; [|done].
  apply translate_range in E as [_ E]. destruct (Z.leb_spec EARLY_MAPPED_PHYSICAL_LIMIT pa) as [|Hlt].
  - destruct (Z.leb_spec EARLY_MAPPED_PHYSICAL_LIMIT (pa + d)); [done|lia].
  - pose proof (below_limit pa (d + 1) Hlt ltac:(lia)). destruct (Z.leb_spec EARLY_MAPPED_PHYSICAL_LIMIT (pa + d)); [lia|done].
Qed.

Lemma page_remaining_spec va : Z.of_nat (page_remaining va) = PAGE_SIZE - va mod PAGE_SIZE ∧ (1 ≤ page_remaining va)%nat.
Proof.
  unfold page_remaining. rewrite page_offset. pose proof (Z.mod_pos_bound va PAGE_SIZE ltac:(done)). unfold PAGE_SIZE in *. lia.
Qed.

(** A span within a page is where its first byte is. *)
Lemma span_pointer_spec write mem root va n :
  (1 ≤ n ≤ page_remaining va)%nat →
  span_pointer mem root va write n = match user_byte write mem root va with Ok pa => Ok (pointer_to pa) | Err e => Err e end.
Proof.
  intros Hn. destruct (page_remaining_spec va) as [Hr _]. unfold span_pointer, user_byte.
  destruct (translate_user_address_with_access _ _ _ _) as [pa|e] eqn:E; [|done]. apply translate_range in E as [Hpa Hmod].
  destruct (checked_add U64_MAX pa (Z.of_nat n)) as [stop|] eqn:Hs.
  2: { apply checked_add_None in Hs. unfold U64_MAX, PAGE_SIZE in *. pose proof (Z.mod_pos_bound va 4096 ltac:(lia)). lia. }
  apply checked_add_Some in Hs as [-> _]. unfold direct_map_address.
  destruct (Z.leb_spec EARLY_MAPPED_PHYSICAL_LIMIT pa) as [Hge|Hlt].
  - destruct (Z.ltb_spec EARLY_MAPPED_PHYSICAL_LIMIT (pa + Z.of_nat n)); [done|lia].
  - pose proof (below_limit pa (Z.of_nat n) Hlt ltac:(lia)). destruct (Z.ltb_spec EARLY_MAPPED_PHYSICAL_LIMIT (pa + Z.of_nat n)); [lia|].
    destruct (checked_add U64_MAX HIGHER_HALF_DIRECT_MAP_BASE pa) eqn:Hc.
    + by apply checked_add_Some in Hc as [-> _].
    + apply checked_add_None in Hc. unfold U64_MAX, HIGHER_HALF_DIRECT_MAP_BASE, EARLY_MAPPED_PHYSICAL_LIMIT in *. lia.
Qed.

(** ** The reference: byte by byte *)

(** Writes the bytes at [va] and up, each where [place] puts it, until an
    address has no place. *)
Fixpoint poke (place : Z → Result Z UserCopyError) (va : Z) (bytes : list Z) : M Memory UserCopyError unit :=
  match bytes with
  | [] => mret tt
  | x :: bytes =>
      pa ← of_result (place va);
      modifyS (store_byte (pointer_to pa) x);;
      poke place (va + 1) bytes
  end.

(** Reads [n] bytes; what was read before a failure is returned too. *)
Fixpoint peek (place : Z → Result Z UserCopyError) (va : Z) (n : nat) (mem : Memory) : Result unit UserCopyError * list Z :=
  match n with
  | O => (Ok tt, [])
  | S n =>
      match place va with
      | Err e => (Err e, [])
      | Ok pa => let '(r, bytes) := peek place (va + 1) n mem in (r, load_byte (pointer_to pa) mem :: bytes)
      end
  end.

Lemma pointer_to_add pa k : pointer_to pa + k = pointer_to (pa + k).
Proof. unfold pointer_to. lia. Qed.

Lemma load_byte_to pa mem : load_byte (pointer_to pa) mem = mem pa.
Proof. unfold load_byte, pointer_to. f_equal. lia. Qed.

Lemma store_byte_to pa x mem a : store_byte (pointer_to pa) x mem a = if a =? pa then x else mem a.
Proof. unfold store_byte, pointer_to. by replace (HIGHER_HALF_DIRECT_MAP_BASE + pa - HIGHER_HALF_DIRECT_MAP_BASE) with pa by lia. Qed.

Section Spans.
Context (place : Z → Result Z UserCopyError).

(** A run of consecutive places. *)
Definition run_at (va pa : Z) (n : nat) : Prop := ∀ k, 0 ≤ k < Z.of_nat n → place (va + k) = Ok (pa + k).

Lemma run_at_S va pa n : run_at va pa (S n) → place va = Ok pa ∧ run_at (va + 1) (pa + 1) n.
Proof.
  intros H. split; [by rewrite <- (Z.add_0_r va), (H 0), Z.add_0_r by lia|].
  intros k Hk. replace (va + 1 + k) with (va + (k + 1)) by lia. rewrite H by lia. f_equal. lia.
Qed.

Lemma poke_span bytes rest : ∀ va pa mem,
  run_at va pa (length bytes) →
  poke place va (bytes ++ rest) mem = poke place (va + Z.of_nat (length bytes)) rest (store (pointer_to pa) bytes mem).
Proof.
  induction bytes as [|x bytes IH]; intros va pa mem H; simpl; [by rewrite Z.add_0_r|].
  apply run_at_S in H as [H0 H]. m_unfold. rewrite H0, pointer_to_add, (IH _ _ _ H).
  by replace (va + 1 + Z.of_nat (length bytes)) with (va + Z.pos (Pos.of_succ_nat (length bytes))) by lia.
Qed.

Lemma peek_span n m : ∀ va pa mem,
  run_at va pa n →
  peek place va (n + m) mem =
  let '(r, bytes) := peek place (va + Z.of_nat n) m mem in (r, load (pointer_to pa) n mem ++ bytes).
Proof.
  induction n as [|n IH]; intros va pa mem H; simpl; [rewrite Z.add_0_r; by destruct (peek _ _ _ _)|].
  apply run_at_S in H as [H0 H]. rewrite H0, (IH _ _ _ H), pointer_to_add.
  replace (va + Z.of_nat (S n)) with (va + 1 + Z.of_nat n) by lia. by destruct (peek _ _ _ _).
Qed.
End Spans.

Lemma user_byte_run write mem root va pa n :
  (n ≤ page_remaining va)%nat → user_byte write mem root va = Ok pa → run_at (user_byte write mem root) va pa n.
Proof.
  intros Hn H k Hk. destruct (page_remaining_spec va) as [Hr _]. rewrite user_byte_same_page by lia. by rewrite H.
Qed.

(** ** Walks that user writes do not reach *)

(** Agreement outside the bytes user space can write. *)
Definition reach (mem0 : Memory) (root : Z) (mem : Memory) : Prop :=
  ∀ a, (∀ va, user_byte true mem0 root va ≠ Ok a) → mem a = mem0 a.

(** No byte that user space can write takes part in a page walk. *)
Definition protected (mem0 : Memory) (root : Z) : Prop :=
  ∀ mem, reach mem0 root mem → ∀ write va,
    translate_user_address_with_access root va write (read_active_entry mem) =
    translate_user_address_with_access root va write (read_active_entry mem0).

Lemma reach_refl mem root : reach mem root mem.
Proof. by intros a. Qed.

Lemma reach_store_byte mem0 root mem va pa x :
  reach mem0 root mem → user_byte true mem0 root va = Ok pa → reach mem0 root (store_byte (pointer_to pa) x mem).
Proof.
  intros H Hva a Ha. rewrite store_byte_to. destruct (Z.eqb_spec a pa) as [->|]; [by destruct (Ha va)|by apply H].
Qed.

Lemma reach_store mem0 root bytes : ∀ va pa mem,
  reach mem0 root mem → run_at (user_byte true mem0 root) va pa (length bytes) → reach mem0 root (store (pointer_to pa) bytes mem).
Proof.
  induction bytes as [|x bytes IH]; intros va pa mem H Hr; simpl; [done|]. apply run_at_S in Hr as [H0 Hr].
  rewrite pointer_to_add. eapply IH; [|exact Hr]. by eapply reach_store_byte.
Qed.

Lemma reach_poke mem0 root bytes : ∀ va mem,
  reach mem0 root mem → reach mem0 root (poke (user_byte true mem0 root) va bytes mem).2.
Proof.
  induction bytes as [|x bytes IH]; intros va mem H; [done|]. simpl. m_unfold. destruct (user_byte _ _ _ va) as [pa|e] eqn:E; [|done].
  apply IH. by eapply reach_store_byte.
Qed.

Section Copies.
Context (mem0 : Memory) (root : Z).
Hypothesis Hprot : protected mem0 root.

Lemma user_byte_reach mem write va : reach mem0 root mem → user_byte write mem root va = user_byte write mem0 root va.
Proof using Hprot. intros H. unfold user_byte. by rewrite (Hprot mem H). Qed.

Lemma copy_to_loop_spec source rounds : ∀ target copied mem,
  (length source - copied ≤ rounds)%nat → (copied ≤ length source)%nat → reach mem0 root mem →
  copy_to_loop rounds root target source copied mem =
  poke (user_byte true mem0 root) (target + Z.of_nat copied) (drop copied source) mem.
Proof using Hprot.
  induction rounds as [|rounds IH]; intros target copied mem Hr Hc Hm; simpl.
  { by rewrite drop_ge by lia. }
  destruct (Nat.ltb_spec copied (length source)) as [Hlt|]; [|by rewrite drop_ge by lia].
  set (va := target + Z.of_nat copied). set (n := Nat.min _ _). destruct (page_remaining_spec va) as [_ Hp].
  m_unfold. rewrite span_pointer_spec, user_byte_reach by (done || lia).
  transitivity (poke (user_byte true mem0 root) va (take n (drop copied source) ++ drop n (drop copied source)) mem);
    [|by rewrite take_drop].
  assert (length (take n (drop copied source)) = n) as Hlen by (rewrite length_take, length_drop; lia).
  destruct (user_byte true mem0 root va) as [pa|e] eqn:E.
  - pose proof (user_byte_run true mem0 root va pa n ltac:(lia) E) as Hrun.
    rewrite IH, (poke_span _ _ _ va pa) by (try rewrite Hlen; try eapply reach_store; try rewrite Hlen; done || lia).
    rewrite Hlen, drop_drop. f_equal. unfold va. lia.
  - destruct (take n (drop copied source)) eqn:Et; [simpl in Hlen; lia|]. simpl. m_unfold. by rewrite E.
Qed.

(** [copy_to_user] writes byte by byte through the translation it started
    with. *)
Lemma copy_to_user_spec target source mem :
  reach mem0 root mem →
  copy_to_user root target source mem =
  match source, user_range target (length source) with
  | _ :: _, Err e => (Err e, mem)
  | _, _ => poke (user_byte true mem0 root) target source mem
  end.
Proof using Hprot.
  intros Hm. unfold copy_to_user. destruct source as [|x source]; [done|]. cbn [Nat.eqb length]. m_unfold.
  destruct (user_range _ _); [|done]. change (S (length source)) with (length (x :: source)).
  rewrite copy_to_loop_spec by (done || lia). simpl. by rewrite Z.add_0_r.
Qed.
End Copies.

Lemma blit_app (done_ bytes buffer : list Z) :
  (length done_ + length bytes ≤ length buffer)%nat →
  blit (length done_) bytes (done_ ++ drop (length done_) buffer) = (done_ ++ bytes) ++ drop (length (done_ ++ bytes)) buffer.
Proof.
  intros H. unfold blit. rewrite take_app_length, <- app_assoc. do 2 f_equal.
  rewrite drop_app_ge by lia. rewrite drop_drop, length_app. f_equal. lia.
Qed.

Lemma load_length n : ∀ pointer mem, length (load pointer n mem) = n.
Proof. induction n; intros; simpl; [done|]. by rewrite IHn. Qed.

Lemma copy_from_loop_spec mem root buffer rounds : ∀ source got,
  (length buffer - length got ≤ rounds)%nat → (length got ≤ length buffer)%nat →
  copy_from_loop rounds mem root source (length got) (got ++ drop (length got) buffer) =
  let '(r, bytes) := peek (user_byte false mem root) (source + Z.of_nat (length got)) (length buffer - length got) mem in
  (r, (got ++ bytes) ++ drop (length (got ++ bytes)) buffer).
Proof.
  induction rounds as [|rounds IH]; intros source got Hr Hg; simpl.
  { replace (length buffer - length got)%nat with O by lia. simpl. by rewrite app_nil_r. }
  m_unfold. assert (length (got ++ drop (length got) buffer) = length buffer) as -> by (rewrite length_app, length_drop; lia).
  destruct (Nat.ltb_spec (length got) (length buffer)) as [Hlt|].
  2: { replace (length buffer - length got)%nat with O by lia. simpl. by rewrite app_nil_r. }
  set (va := source + Z.of_nat (length got)). set (n := Nat.min _ _). destruct (page_remaining_spec va) as [_ Hp].
  rewrite span_pointer_spec by lia. destruct (user_byte false mem root va) as [pa|e] eqn:E.
  - pose proof (user_byte_run false mem root va pa n ltac:(lia) E) as Hrun.
    replace (length buffer - length got)%nat with (n + (length buffer - length got - n))%nat by lia.
    rewrite (peek_span _ _ _ va pa) by done. rewrite blit_app by (rewrite load_length; lia).
    replace (length got + n)%nat with (length (got ++ load (pointer_to pa) n mem)) by (by rewrite length_app, load_length).
    rewrite IH by (rewrite length_app, load_length; lia). rewrite length_app, load_length.
    replace (source + Z.of_nat (length got + n)) with (va + Z.of_nat n) by (unfold va; lia).
    replace (length buffer - (length got + n))%nat with (length buffer - length got - n)%nat by lia.
    destruct (peek _ _ _ _) as [r bytes]. by rewrite !app_assoc.
  - destruct (length buffer - length got)%nat as [|k] eqn:Ek; [lia|]. simpl. rewrite E. by rewrite app_nil_r.
Qed.

Lemma copy_from_user_spec mem root source buffer :
  copy_from_user mem root source buffer =
  match buffer, user_range source (length buffer) with
  | _ :: _, Err e => (Err e, buffer)
  | _, _ =>
      let '(r, bytes) := peek (user_byte false mem root) source (length buffer) mem in
      (r, bytes ++ drop (length bytes) buffer)
  end.
Proof.
  unfold copy_from_user. m_unfold. destruct buffer as [|x l] eqn:Eb; [done|]. rewrite <- Eb. cbn [Nat.eqb length].
  replace (length buffer =? 0)%nat with false by (by subst). destruct (user_range _ _); [|done].
  pose proof (copy_from_loop_spec mem root buffer (length buffer) source [] ltac:(simpl; lia) ltac:(simpl; lia)) as H.
  cbn [length app drop Z.of_nat] in H. rewrite Z.add_0_r, Nat.sub_0_r in H. exact H.
Qed.

(** ** What was written, and what is read *)

Lemma poke_peek_verdict place bytes : ∀ va mem mem', (poke place va bytes mem).1 = (peek place va (length bytes) mem').1.
Proof.
  induction bytes as [|x bytes IH]; intros va mem mem'; simpl; [done|]. m_unfold. destruct (place va) as [pa|e]; [|done].
  rewrite (IH _ _ mem'). by destruct (peek _ _ _ _).
Qed.

Lemma poke_unchanged place bytes a : ∀ va mem,
  (∀ k, 0 ≤ k < Z.of_nat (length bytes) → place (va + k) ≠ Ok a) → (poke place va bytes mem).2 a = mem a.
Proof.
  induction bytes as [|x bytes IH]; intros va mem H; simpl; [done|]. m_unfold. destruct (place va) as [pa|e] eqn:E; [|done].
  rewrite IH.
  - rewrite store_byte_to. destruct (Z.eqb_spec a pa) as [->|]; [|done]. destruct (H 0); [simpl; lia|by rewrite Z.add_0_r].
  - intros k Hk. replace (va + 1 + k) with (va + (k + 1)) by lia. apply H. simpl. lia.
Qed.

Lemma poke_u8 place bytes : Forall is_u8 bytes → ∀ va mem, (∀ a, is_u8 (mem a)) → ∀ a, is_u8 ((poke place va bytes mem).2 a).
Proof.
  induction 1 as [|x bytes Hx _ IH]; intros va mem Hm a; simpl; [done|]. m_unfold. destruct (place va) as [pa|e]; [|done].
  apply IH. intros b. rewrite store_byte_to. by destruct (b =? pa).
Qed.

(** No two addresses of a range have the same place. *)
Definition apart (place : Z → Result Z UserCopyError) (va : Z) (n : nat) : Prop :=
  ∀ i j pa, 0 ≤ i < j → j < Z.of_nat n → place (va + i) = Ok pa → place (va + j) ≠ Ok pa.

Lemma peek_poked place place' bytes : ∀ va mem mem',
  poke place va bytes mem = (Ok tt, mem') → apart place va (length bytes) →
  (∀ k pa, 0 ≤ k < Z.of_nat (length bytes) → place (va + k) = Ok pa → place' (va + k) = Ok pa) →
  peek place' va (length bytes) mem' = (Ok tt, bytes).
Proof.
  induction bytes as [|x bytes IH]; intros va mem mem' Hp Ha Hpl; simpl in *; [done|]. m_unfold.
  destruct (place va) as [pa|e] eqn:E; [|done].
  assert (∀ k, va + 1 + k = va + (k + 1)) as Hshift by (intros; lia).
  rewrite <- (Z.add_0_r va) in E at 1. rewrite <- (Z.add_0_r va) at 1. rewrite (Hpl 0 pa) by (done || lia).
  rewrite (IH (va + 1) (store_byte (pointer_to pa) x mem)); [|done| |].
  - rewrite load_byte_to. do 2 f_equal. pose proof (f_equal snd Hp) as Hm. simpl in Hm. rewrite <- Hm, poke_unchanged.
    + rewrite store_byte_to. by rewrite Z.eqb_refl.
    + intros k Hk. rewrite Hshift. apply (Ha 0 (k + 1) pa); lia || done.
  - intros i j q Hi Hj. rewrite !Hshift. apply Ha; lia.
  - intros k q Hk. rewrite !Hshift. apply Hpl. lia.
Qed.

Lemma validate_loop_spec mem root target len rounds : ∀ checked,
  (len - checked ≤ rounds)%nat → (checked ≤ len)%nat →
  validate_loop rounds mem root target len checked =
  (peek (user_byte true mem root) (target + Z.of_nat checked) (len - checked) mem).1.
Proof.
  induction rounds as [|rounds IH]; intros checked Hr Hc; cbn [validate_loop].
  { by replace (len - checked)%nat with O by lia. }
  destruct (Nat.ltb_spec checked len) as [Hlt|]; [|by replace (len - checked)%nat with O by lia].
  set (va := target + Z.of_nat checked). set (n := Nat.min _ _). destruct (page_remaining_spec va) as [_ Hp].
  pose proof (span_pointer_spec true mem root va n ltac:(lia)) as Hs. unfold span_pointer in Hs. unfold translate_user_address_for_write.
  assert (∀ e, user_byte true mem root va = Err e → (peek (user_byte true mem root) va (len - checked) mem).1 = Err e) as Hfail.
  { intros e He. destruct (len - checked)%nat eqn:El; [lia|]. simpl. by rewrite He. }
  destruct (translate_user_address_with_access _ _ _ _) as [pa|e] eqn:Et.
  2: { symmetry. apply Hfail. unfold user_byte. by rewrite Et. }
  destruct (checked_add _ _ _) as [stop|] eqn:Ec; [|by destruct (user_byte true mem root va) eqn:Eu; simplify_eq; symmetry; auto].
  apply checked_add_Some in Ec as [-> _].
  destruct (Z.ltb_spec EARLY_MAPPED_PHYSICAL_LIMIT (pa + Z.of_nat n)) as [|Hle]; [by destruct (user_byte true mem root va) eqn:Eu; simplify_eq; symmetry; auto|].
  destruct (user_byte true mem root va) as [pa'|e'] eqn:Eu.
  - pose proof (user_byte_run true mem root va pa' n ltac:(lia) Eu) as Hrun. rewrite IH by lia.
    replace (len - checked)%nat with (n + (len - (checked + n)))%nat by lia. rewrite (peek_span _ _ _ va pa') by done.
    replace (target + Z.of_nat (checked + n)) with (va + Z.of_nat n) by (unfold va; lia). by destruct (peek _ (va + Z.of_nat n) _ _).
  - exfalso. unfold user_byte in Eu. rewrite Et in Eu. destruct (Z.leb_spec EARLY_MAPPED_PHYSICAL_LIMIT pa); [lia|done].
Qed.

(** ** Page tables kept apart from user pages *)

(** [T l] holds the tables of level [l] under the user half of the root; no
    entry that lets user space write a page names one of them. *)
Record tables_apart (mem : Memory) (root : Z) (T : nat → Z → Prop) : Prop := {
  ta_root : T O root;
  ta_next : ∀ l t i e, (l < 3)%nat → T l t → 0 ≤ i < 512 → (l = O → i < 256) → read_active_entry mem t i = Some e →
    entry_allows false e = true → Z.land e ENTRY_HUGE = 0 → T (S l) (Z.land e PAGE_ADDRESS_MASK);
  ta_leaf : ∀ t i e, T 3%nat t → 0 ≤ i < 512 → read_active_entry mem t i = Some e → entry_allows true e = true →
    ∀ l t', (l ≤ 3)%nat → T l t' → Z.land e PAGE_ADDRESS_MASK ≠ t';
}.

Lemma table_index_range va s : 0 ≤ table_index va s < 512.
Proof. unfold table_index. change 0x1ff with (Z.ones 9). rewrite Z.land_ones by lia. by apply Z.mod_pos_bound. Qed.

Lemma allows_write_read e : entry_allows true e = true → entry_allows false e = true.
Proof. unfold entry_allows. destruct (_ =? Z.lor _ _); [done|]. by rewrite andb_false_l. Qed.

Lemma load_ext n : ∀ p mem mem', (∀ k, 0 ≤ k < Z.of_nat n → mem (p + k - HIGHER_HALF_DIRECT_MAP_BASE) = mem' (p + k - HIGHER_HALF_DIRECT_MAP_BASE)) →
  load p n mem = load p n mem'.
Proof.
  induction n as [|n IH]; intros p mem mem' H; simpl; [done|]. f_equal.
  - unfold load_byte. rewrite <- (Z.add_0_r p). apply H. lia.
  - apply IH. intros k Hk. replace (p + 1 + k) with (p + (k + 1)) by lia. apply H. lia.
Qed.

(** An entry depends only on the bytes of its table. *)
Lemma read_active_entry_ext mem mem' t i :
  0 ≤ i → (t mod PAGE_SIZE = 0 → ∀ a, t ≤ a < t + PAGE_SIZE → mem a = mem' a) → read_active_entry mem t i = read_active_entry mem' t i.
Proof.
  intros Hi H. unfold read_active_entry. destruct (_ || _) eqn:Hg; [done|].
  apply orb_false_iff in Hg as [Ha%negb_false_iff%Z.eqb_eq Hi2%Z.leb_gt]. rewrite page_offset in Ha.
  destruct (checked_add U64_MAX t (i * 8)) as [p|] eqn:Hp; cbn [mbind option_bind]; [|done]. apply checked_add_Some in Hp as [-> _].
  destruct (checked_add _ _ 8); cbn [mbind option_bind]; [|done]. destruct (_ <? _); [done|]. unfold direct_map_address.
  destruct (_ <=? _); cbn [mbind option_bind]; [done|]. destruct (checked_add _ HIGHER_HALF_DIRECT_MAP_BASE _) as [q|] eqn:Hq; cbn [mbind option_bind]; [|done].
  apply checked_add_Some in Hq as [-> _]. do 2 f_equal. apply load_ext. intros k Hk. apply (H Ha). unfold PAGE_SIZE. lia.
Qed.

Section Apart.
Context (mem0 : Memory) (root : Z) (T : nat → Z → Prop).
Hypothesis HT : tables_apart mem0 root T.

(** Indices from level [l] on. *)
Definition indices_at (l : nat) (ixs : list Z) : Prop := Forall (λ i, 0 ≤ i < 512) ixs ∧ (l = O → ∀ i rest, ixs = i :: rest → i < 256).

Lemma indices_at_cons l i ixs : indices_at l (i :: ixs) → 0 ≤ i < 512 ∧ (l = O → i < 256) ∧ indices_at (S l) ixs.
Proof. intros [[Hi His]%Forall_cons_1 H0]. split; [done|]. split; [intros Hl; by eapply H0|]. by split. Qed.

Lemma address_indices va : (256 <=? table_index va 39) = false → indices_at O (table_index va <$> [39; 30; 21]).
Proof. intros H%Z.leb_gt. split; [repeat constructor; apply table_index_range|]. by intros _ i rest [= <- _]. Qed.

Lemma walk_in_tables write ixs : ∀ l t r, (l + length ixs ≤ 3)%nat → T l t → indices_at l ixs →
  walk_tables (read_active_entry mem0) write ixs t = Ok r → T (l + length ixs)%nat r.
Proof using HT.
  induction ixs as [|i ixs IH]; intros l t r Hl Ht His; simpl in *; [intros [= <-]; by rewrite Nat.add_0_r|].
  apply indices_at_cons in His as (Hi & H0 & His). destruct (read_active_entry mem0 t i) as [e|] eqn:E; [|done].
  destruct (entry_allows write e) eqn:Ha; [|done]. destruct (Z.eqb_spec (Z.land e ENTRY_HUGE) 0) as [Hh|]; [|done]. simpl.
  replace (l + S (length ixs))%nat with (S l + length ixs)%nat by lia. apply IH; [lia| |done].
  apply (ta_next _ _ _ HT l t i e); try done; [lia|]. destruct write; [by apply allows_write_read|done].
Qed.

Lemma user_page_apart va pa l t a : user_byte true mem0 root va = Ok pa → (l ≤ 3)%nat → T l t →
  t mod PAGE_SIZE = 0 → t ≤ a < t + PAGE_SIZE → a ≠ pa.
Proof using HT.
  intros Hu Hl Ht Hm Ha ->. unfold user_byte, translate_user_address_with_access in Hu. destruct (_ || _); [done|].
  destruct (_ <=? table_index _ _) eqn:Hlow; [done|]. destruct (walk_tables _ _ _ _) as [leaf|] eqn:Hw; [|done].
  apply (walk_in_tables true _ O) in Hw; [|simpl; lia|apply HT|by apply address_indices]. clear Hlow.
  destruct (read_active_entry mem0 leaf _) as [e|] eqn:He; [|done]. destruct (entry_allows true e) eqn:Hal; [|done]. simpl in Hu.
  rewrite physical_sum in Hu. destruct (_ <=? _); [done|]. injection Hu as <-.
  apply (ta_leaf _ _ _ HT leaf _ e Hw (table_index_range _ _) He Hal l t Hl Ht).
  destruct (frame_shape e) as (q & Eq & _). rewrite Eq in *. rewrite Z.shiftl_mul_pow2 in * by lia.
  pose proof (Z.mod_pos_bound va PAGE_SIZE ltac:(done)). pose proof (Z.div_mod t PAGE_SIZE ltac:(done)) as Hd. unfold PAGE_SIZE in *. lia.
Qed.

Lemma entry_reach mem l t i : reach mem0 root mem → (l ≤ 3)%nat → T l t → 0 ≤ i →
  read_active_entry mem t i = read_active_entry mem0 t i.
Proof using HT.
  intros Hm Hl Ht Hi. apply read_active_entry_ext; [done|]. intros Hmod a Ha. apply Hm. intros va Hva.
  by apply (user_page_apart va a l t a).
Qed.

Lemma walk_reach mem write ixs : reach mem0 root mem → ∀ l t, (l + length ixs ≤ 3)%nat → T l t → indices_at l ixs →
  walk_tables (read_active_entry mem) write ixs t = walk_tables (read_active_entry mem0) write ixs t.
Proof using HT.
  intros Hm. induction ixs as [|i ixs IH]; intros l t Hl Ht His; simpl in *; [done|]. apply indices_at_cons in His as (Hi & H0 & His).
  rewrite (entry_reach mem l) by (done || lia). destruct (read_active_entry mem0 t i) as [e|] eqn:E; [|done].
  destruct (entry_allows write e) eqn:Ha; [|done]. destruct (Z.eqb_spec (Z.land e ENTRY_HUGE) 0) as [Hh|]; [|done]. simpl.
  apply (IH (S l)); [lia| |done]. apply (ta_next _ _ _ HT l t i e); try done; [lia|].
  destruct write; [by apply allows_write_read|done].
Qed.

Lemma tables_apart_protected : protected mem0 root.
Proof using HT.
  intros mem Hm write va. unfold translate_user_address_with_access. destruct (_ || _); [done|].
  destruct (_ <=? _) eqn:Hlow; [done|]. apply address_indices in Hlow as His.
  rewrite (walk_reach mem write _ Hm O root) by (done || simpl; lia || apply HT).
  destruct (walk_tables _ _ _ _) as [leaf|] eqn:Hw; [|done].
  apply (walk_in_tables write _ O) in Hw; [|simpl; lia|apply HT|done]. simpl in Hw.
  by rewrite (entry_reach mem 3) by (done || lia || apply table_index_range).
Qed.
End Apart.

(** ** What the copies do *)

(** Where no user-writable byte takes part in a page walk, [copy_to_user]
    does what copying byte by byte does, each byte to the place its own address
    is translated to before the copy: the same verdict and the same memory, on
    success and on failure, when the bytes before the failing page have been
    written and no others. *)
Lemma copy_to_bytewise mem root target source :
  protected mem root →
  copy_to_user root target source mem =
  match source, user_range target (length source) with
  | _ :: _, Err e => (Err e, mem)
  | _, _ => poke (user_byte true mem root) target source mem
  end.
Proof. intros Hp. apply (copy_to_user_spec mem root Hp), reach_refl. Qed.

(** Only places of the range are written, on success and on failure. *)
Lemma copy_to_unchanged mem root target source r mem' a :
  protected mem root → copy_to_user root target source mem = (r, mem') →
  (∀ k, 0 ≤ k < Z.of_nat (length source) → user_byte true mem root (target + k) ≠ Ok a) → mem' a = mem a.
Proof.
  intros Hp Hc Ha. rewrite copy_to_bytewise in Hc by done. pose proof (poke_unchanged (user_byte true mem root) source a target mem Ha) as Hu.
  destruct source as [|x l]; [by injection Hc as <- <-|]. destruct (user_range _ _); [|by injection Hc as <- <-]. by rewrite Hc in Hu.
Qed.

Lemma copy_to_u8 mem root target source r mem' :
  protected mem root → copy_to_user root target source mem = (r, mem') → Forall is_u8 source → (∀ a, is_u8 (mem a)) → ∀ a, is_u8 (mem' a).
Proof.
  intros Hp Hc Hs Hm a. rewrite copy_to_bytewise in Hc by done. pose proof (poke_u8 (user_byte true mem root) source Hs target mem Hm a) as Hu.
  destruct source as [|x l]; [by injection Hc as <- <-|]. destruct (user_range _ _); [|by injection Hc as <- <-]. by rewrite Hc in Hu.
Qed.

Lemma copy_to_reach mem root target source r mem' :
  protected mem root → copy_to_user root target source mem = (r, mem') → reach mem root mem'.
Proof. intros Hp Hc a Ha. by eapply copy_to_unchanged. Qed.

(** Where the addresses of the range have different places, the bytes read
    back. *)
Lemma copy_roundtrip mem root target source mem' buffer :
  protected mem root → copy_to_user root target source mem = (Ok tt, mem') →
  apart (user_byte true mem root) target (length source) → length buffer = length source →
  copy_from_user mem' root target buffer = (Ok tt, source).
Proof.
  intros Hp Hc Ha Hl. pose proof (copy_to_reach _ _ _ _ _ _ Hp Hc) as Hr. rewrite copy_to_bytewise in Hc by done. rewrite copy_from_user_spec.
  destruct source as [|x l]; [by destruct buffer|]. destruct buffer as [|y b]; [done|]. rewrite Hl.
  destruct (user_range _ _) as [[]|]; [|done].
  rewrite (peek_poked (user_byte true mem root) (user_byte false mem' root) (x :: l) target mem mem'); try done.
  - rewrite drop_ge by lia. by rewrite app_nil_r.
  - intros k pa _ Hk. rewrite (user_byte_reach mem root Hp mem') by done. by apply user_byte_write_read.
Qed.

(** [validate_user_write_range] is exact: it gives the verdict, error
    included, that copying any bytes of that length to that address gives. *)
Lemma validate_exact mem root target source :
  protected mem root →
  validate_user_write_range mem root target (length source) = (copy_to_user root target source mem).1.
Proof.
  intros Hp. rewrite copy_to_bytewise by done. unfold validate_user_write_range.
  destruct source as [|x l]; [done|]. cbn [Nat.eqb length]. destruct (user_range _ _); [|done].
  change (S (length l)) with (length (x :: l)). rewrite validate_loop_spec by lia. rewrite Nat.sub_0_r, Z.add_0_r.
  symmetry. apply poke_peek_verdict.
Qed.
