(* ===== verification/FrameAlloc.v ===== *)
(** * The physical frame allocator: core/abyss/src/frame.rs

    Two bitmaps, of the allocated and of the reserved frames, a search hint
    and a count of free frames; frame_pool.rs puts it behind a lock. The
    allocator refines a set of free frames: a frame or an aligned run is found
    whenever there is one, and is taken off the set exactly. *)

From stdpp Require Import prelude list numbers gmap.
From Stdlib Require Import ZArith Lia.
From S2P Require Import Prelude.

Definition PAGE_SIZE : Z := 4096.
Definition BITS_PER_WORD : nat := 64.

Inductive MemoryRegionKind := Usable | Reserved | AcpiReclaimable | AcpiNonVolatile | Defective.
Record MemoryRegion := mkRegion { rgn_start : Z; rgn_end : Z; kind : MemoryRegionKind }.

Record BitmapFrameAllocator := mkAllocator {
  allocated : list Z;
  reserved : list Z;
  frame_count : nat;
  next_search : nat;
  free_frames : nat;
}.

Inductive FrameAllocatorError :=
  AddressOverflow | StorageTooSmall | InvalidFrameCount | UnalignedFrame | FrameOutOfRange | ReservedFrame | DoubleFree.

(** ** Bitmaps *)

Definition bit_mask (bit : nat) : Z := Z.shiftl 1 (Z.of_nat (bit mod BITS_PER_WORD)).

(** A bitmap is indexed only below its capacity. *)
Definition bit_is_set (bitmap : list Z) (bit : nat) : bool :=
  negb (Z.land (slot_at 0 bitmap (bit / BITS_PER_WORD)) (bit_mask bit) =? 0).

Definition set_bit (bit : nat) (value : bool) (bitmap : list Z) : list Z :=
  alter (λ word, if value then Z.lor word (bit_mask bit) else and_not word (bit_mask bit)) (bit / BITS_PER_WORD)%nat bitmap.

Definition words_for_frames (frames : nat) : nat := (frames + (BITS_PER_WORD - 1)) / BITS_PER_WORD.

Definition frames_below (maximum_address : Z) : Result nat FrameAllocatorError :=
  match checked_add U64_MAX maximum_address (PAGE_SIZE - 1) with
  | None => Err AddressOverflow
  | Some x => Ok (Z.to_nat (x / PAGE_SIZE))
  end.

Definition align_up (value alignment : Z) : option Z :=
  match checked_add U64_MAX value (alignment - 1) with
  | Some rounded => Some (and_not rounded (alignment - 1))
  | None => None
  end.

Definition align_down (value alignment : Z) : Z := and_not value (alignment - 1).

Definition align_up_index (value alignment : nat) : option nat :=
  match align_up (Z.of_nat value) (Z.of_nat alignment) with Some x => Some (Z.to_nat x) | None => None end.

(** ** The allocator *)

Definition is_allocated (a : BitmapFrameAllocator) (frame : nat) : bool := bit_is_set (allocated a) frame.
Definition is_reserved (a : BitmapFrameAllocator) (frame : nat) : bool := bit_is_set (reserved a) frame.

Definition set_allocated (frame : nat) (value : bool) (a : BitmapFrameAllocator) : BitmapFrameAllocator :=
  mkAllocator (set_bit frame value (allocated a)) (reserved a) (frame_count a) (next_search a) (free_frames a).
Definition set_reserved (frame : nat) (value : bool) (a : BitmapFrameAllocator) : BitmapFrameAllocator :=
  mkAllocator (allocated a) (set_bit frame value (reserved a)) (frame_count a) (next_search a) (free_frames a).
Definition with_free (n : nat) (a : BitmapFrameAllocator) : BitmapFrameAllocator :=
  mkAllocator (allocated a) (reserved a) (frame_count a) (next_search a) n.
Definition with_hint (n : nat) (a : BitmapFrameAllocator) : BitmapFrameAllocator :=
  mkAllocator (allocated a) (reserved a) (frame_count a) n (free_frames a).

(** [for frame in first..first + n { f }] *)
Fixpoint for_frames (f : nat → BitmapFrameAllocator → BitmapFrameAllocator) (first n : nat) (a : BitmapFrameAllocator) :
    BitmapFrameAllocator :=
  match n with O => a | S n => for_frames f (S first) n (f first a) end.

Definition usable_frame (frame : nat) (a : BitmapFrameAllocator) : BitmapFrameAllocator :=
  let a := if is_allocated a frame then with_free (free_frames a + 1) a else a in
  set_reserved frame false (set_allocated frame false a).

Definition mark_usable (start stop : Z) (a : BitmapFrameAllocator) : BitmapFrameAllocator :=
  if stop <=? start then a
  else
    let first := Nat.min (Z.to_nat (start / PAGE_SIZE)) (frame_count a) in
    let last := Nat.min (Z.to_nat (stop / PAGE_SIZE)) (frame_count a) in
    for_frames usable_frame first (last - first) a.

Definition reserve_frame (frame : nat) (a : BitmapFrameAllocator) : BitmapFrameAllocator :=
  let a := if is_allocated a frame then a else with_free (free_frames a - 1) a in
  set_reserved frame true (set_allocated frame true a).

Definition reserve_range (start stop : Z) (a : BitmapFrameAllocator) : BitmapFrameAllocator :=
  if stop <=? start then a
  else
    match align_up stop PAGE_SIZE with
    | None => a
    | Some rounded_end =>
        let first := Nat.min (Z.to_nat (start / PAGE_SIZE)) (frame_count a) in
        let last := Nat.min (Z.to_nat (rounded_end / PAGE_SIZE)) (frame_count a) in
        for_frames reserve_frame first (last - first) a
    end.

Definition usable_region (maximum_address : Z) (a : BitmapFrameAllocator) (r : MemoryRegion) : BitmapFrameAllocator :=
  match kind r with
  | Usable =>
      match align_up (rgn_start r) PAGE_SIZE with
      | None => a
      | Some start => mark_usable start (align_down (rgn_end r `min` maximum_address) PAGE_SIZE) a
      end
  | _ => a
  end.

(** [BitmapFrameAllocator::new]; [storage_len] is the length of the storage
    slice, which is overwritten. *)
Definition new_allocator (regions : list MemoryRegion) (maximum_address : Z) (storage_len : nat) :
    Result BitmapFrameAllocator FrameAllocatorError :=
  match frames_below maximum_address with
  | Err e => Err e
  | Ok frames =>
      let words := words_for_frames frames in
      if (storage_len <? words * 2)%nat then Err StorageTooSmall
      else Ok (foldl (usable_region maximum_address)
                 (mkAllocator (replicate words U64_MAX) (replicate words U64_MAX) frames 0 0) regions)
  end.

Definition apply_reservations (reservations : list (Z * Z)) (a : BitmapFrameAllocator) : BitmapFrameAllocator :=
  foldl (λ a '(start, stop), reserve_range start stop a) a reservations.

Definition frame_address (frame : nat) : Z := Z.of_nat frame * PAGE_SIZE.

Definition allocate (a : BitmapFrameAllocator) : option Z * BitmapFrameAllocator :=
  if (free_frames a =? 0)%nat then (None, a)
  else
    match find_range (λ offset, negb (is_allocated a ((next_search a + offset) mod frame_count a)%nat)) 0 (frame_count a) with
    | None => (None, a)
    | Some offset =>
        let frame := ((next_search a + offset) mod frame_count a)%nat in
        let a := set_allocated frame true a in
        (Some (frame_address frame), with_hint ((frame + 1) mod frame_count a)%nat (with_free (free_frames a - 1) a))
    end.

(** The scan of [find_contiguous]; every round moves the candidate up, so that
    one round per frame and a last one are enough. *)
Fixpoint scan_contiguous (rounds : nat) (a : BitmapFrameAllocator) (candidate n alignment : nat) : option nat :=
  match rounds with
  | O => None
  | S rounds =>
      match checked_add U64_MAX (Z.of_nat candidate) (Z.of_nat n) with
      | None => None
      | Some stop =>
          if stop <=? Z.of_nat (frame_count a) then
            match find_range (is_allocated a) candidate n with
            | Some occupied =>
                match align_up_index (occupied + 1) alignment with
                | Some candidate => scan_contiguous rounds a candidate n alignment
                | None => None
                end
            | None => Some candidate
            end
          else None
      end
  end.

Definition find_contiguous (a : BitmapFrameAllocator) (search_start n alignment : nat) : option nat :=
  candidate ← align_up_index search_start alignment;
  scan_contiguous (S (frame_count a)) a candidate n alignment.

Definition allocate_contiguous (n alignment : nat) (a : BitmapFrameAllocator) : option Z * BitmapFrameAllocator :=
  if (n =? 0)%nat || (alignment =? 0)%nat || negb (is_power_of_two (Z.of_nat alignment)) || (free_frames a <? n)%nat then (None, a)
  else
    match (match find_contiguous a (next_search a) n alignment with
           | Some first => Some first
           | None => find_contiguous a 0 n alignment
           end) with
    | None => (None, a)
    | Some first =>
        let a := for_frames (λ frame, set_allocated frame true) first n a in
        (Some (frame_address first), with_hint ((first + n) mod frame_count a)%nat (with_free (free_frames a - n) a))
    end.

(** The validation of a release. *)
Fixpoint releasable (a : BitmapFrameAllocator) (first n : nat) : Result unit FrameAllocatorError :=
  match n with
  | O => Ok tt
  | S n =>
      if is_reserved a first then Err ReservedFrame
      else if negb (is_allocated a first) then Err DoubleFree
      else releasable a (S first) n
  end.

Definition deallocate_contiguous (address : Z) (n : nat) : M BitmapFrameAllocator FrameAllocatorError unit :=
  a ← getS;
  ensure (negb (n =? 0)%nat) InvalidFrameCount;;
  ensure (Z.land address (PAGE_SIZE - 1) =? 0) UnalignedFrame;;
  let first := Z.to_nat (address / PAGE_SIZE) in
  stop ← ok_or (checked_add U64_MAX (Z.of_nat first) (Z.of_nat n)) FrameOutOfRange;
  ensure (stop <=? Z.of_nat (frame_count a)) FrameOutOfRange;;
  of_result (releasable a first n);;
  modifyS (λ a, with_hint first (with_free (free_frames a + n) (for_frames (λ frame, set_allocated frame false) first n a))).

Definition deallocate (address : Z) : M BitmapFrameAllocator FrameAllocatorError unit := deallocate_contiguous address 1.
