(* ===== verification/FrameAllocProofs.v ===== *)
(** * Correctness of the frame allocator

    FrameAlloc.v refines a set of free frames, operation by operation and over
    every run; the set a booted allocator starts with is given exactly. *)

From stdpp Require Import prelude list numbers gmap.
From Stdlib Require Import ZArith Lia.
From S2P Require Import Prelude.
From S2P Require Import FrameAlloc.

#[local] Arguments Nat.modulo : simpl never.
#[local] Arguments Nat.div : simpl never.

(** ** Bits *)

Lemma land_bit w k : 0 ≤ k → (Z.land w (Z.shiftl 1 k) =? 0) = negb (Z.testbit w k).
Proof.
  intros Hk. destruct (Z.eqb_spec (Z.land w (Z.shiftl 1 k)) 0) as [E|E].
  - pose proof (f_equal (λ x, Z.testbit x k) E) as H. simpl in H.
    rewrite Z.land_spec, Z.shiftl_spec, Z.sub_diag, Z.bits_0 in H by done. simpl in H. rewrite andb_true_r in H. by rewrite H.
  - destruct (Z.testbit w k) eqn:Hb; [done|]. destruct E. apply zero_by_bits. intros n Hn. rewrite Z.land_spec, Z.shiftl_spec by done.
    destruct (decide (n = k)) as [->|Hne]; [by rewrite Hb|]. destruct (Z.ltb_spec n k).
    + by rewrite (Z.testbit_neg_r 1) by lia; rewrite andb_false_r.
    + replace (Z.testbit 1 (n - k)) with false; [by rewrite andb_false_r|]. symmetry. apply Z.bits_above_log2; simpl; lia.
Qed.

Lemma bit_is_set_testbit bitmap bit :
  bit_is_set bitmap bit = Z.testbit (slot_at 0 bitmap (bit / BITS_PER_WORD)) (Z.of_nat (bit mod BITS_PER_WORD)).
Proof. unfold bit_is_set, bit_mask. rewrite land_bit by lia. apply negb_involutive. Qed.

Lemma mask_testbit (i j : nat) : Z.testbit (Z.shiftl 1 (Z.of_nat i)) (Z.of_nat j) = bool_decide (i = j).
Proof.
  rewrite Z.shiftl_spec by lia. case_bool_decide as H; [subst; by rewrite Z.sub_diag|].
  destruct (Nat.ltb_spec j i); [by rewrite Z.testbit_neg_r by lia|]. apply Z.bits_above_log2; simpl; lia.
Qed.

Lemma bit_is_set_set bitmap i j v : (i / BITS_PER_WORD < length bitmap)%nat →
  bit_is_set (set_bit i v bitmap) j = if decide (i = j) then v else bit_is_set bitmap j.
Proof.
  intros Hl. rewrite !bit_is_set_testbit. unfold set_bit.
  destruct (lookup_lt_is_Some_2 _ _ Hl) as [w Hw].
  destruct (decide (i / BITS_PER_WORD = j / BITS_PER_WORD)%nat) as [E|E].
  - rewrite <- E, (slot_at_Some _ _ _ w Hw).
    rewrite (slot_at_Some _ _ _ (if v then Z.lor w (bit_mask i) else and_not w (bit_mask i)))
      by (by rewrite list_lookup_alter_eq, Hw).
    unfold bit_mask, and_not. destruct v.
    + rewrite Z.lor_spec, mask_testbit. case_bool_decide as H; case_decide as Hd; subst; rewrite ?orb_true_r, ?orb_false_r; try done.
      exfalso. apply Hd. rewrite (Nat.div_mod_eq i BITS_PER_WORD), (Nat.div_mod_eq j BITS_PER_WORD), E, H. done.
    + rewrite Z.ldiff_spec, mask_testbit. case_bool_decide as H; case_decide as Hd; subst; rewrite ?andb_true_r, ?andb_false_r; try done.
      exfalso. apply Hd. rewrite (Nat.div_mod_eq i BITS_PER_WORD), (Nat.div_mod_eq j BITS_PER_WORD), E, H. done.
  - rewrite decide_False by (by intros ->). unfold slot_at. by rewrite list_lookup_alter_ne.
Qed.

Lemma set_bit_length i v bitmap : length (set_bit i v bitmap) = length bitmap.
Proof. apply length_alter. Qed.

(** ** Counting *)

Definition b2n (b : bool) : nat := if b then 1 else 0.

Lemma countb_seq_change (p q : nat → bool) i n : (i < n)%nat → (∀ j, j ≠ i → q j = p j) →
  (countb q (seq 0 n) + b2n (p i) = countb p (seq 0 n) + b2n (q i))%nat.
Proof.
  intros Hi Hq. assert (∀ k m, (∀ j, j ∈ seq k m → j ≠ i) → countb q (seq k m) = countb p (seq k m)) as Hsame.
  { intros k m H. apply countb_ext. intros j x Hx. apply Hq, H. by eapply list_elem_of_lookup_2. }
  replace n with (i + (1 + (n - i - 1)))%nat by lia. rewrite !seq_app, !countb_app. simpl.
  rewrite !Hsame; [unfold b2n; destruct (p i), (q i); lia| |]; intros j [Hj1 Hj2]%elem_of_seq; lia.
Qed.

(** ** The invariant *)

Definition free_count (a : BitmapFrameAllocator) : nat := countb (λ i, negb (is_allocated a i)) (seq 0 (frame_count a)).

(** The bitmaps cover the frames. *)
Definition sized (a : BitmapFrameAllocator) : Prop :=
  length (allocated a) = words_for_frames (frame_count a) ∧ length (reserved a) = words_for_frames (frame_count a).

Record allocator_wf (a : BitmapFrameAllocator) : Prop := {
  aw_sized : sized a;
  aw_free : free_frames a = free_count a;
  aw_hint : (next_search a < frame_count a)%nat ∨ frame_count a = O;
  aw_reserved : ∀ i, (i < frame_count a)%nat → is_reserved a i = true → is_allocated a i = true;
  aw_count : Z.of_nat (frame_count a) ≤ 2 ^ 52;
}.

Lemma word_covers i n : (i < n)%nat → (i / BITS_PER_WORD < words_for_frames n)%nat.
Proof.
  unfold words_for_frames, BITS_PER_WORD. intros. apply Nat.Div0.div_lt_upper_bound.
  pose proof (Nat.div_mod_eq (n + (64 - 1)) 64). pose proof (Nat.mod_upper_bound (n + (64 - 1)) 64 ltac:(lia)). lia.
Qed.

Section SetBit.
Context (a : BitmapFrameAllocator) (i : nat) (v : bool).
Hypothesis Hs : sized a.
Hypothesis Hi : (i < frame_count a)%nat.

Lemma set_allocated_spec j : is_allocated (set_allocated i v a) j = if decide (i = j) then v else is_allocated a j.
Proof using Hs Hi. apply bit_is_set_set. simpl. rewrite (proj1 Hs). by apply word_covers. Qed.

Lemma set_reserved_spec j : is_reserved (set_reserved i v a) j = if decide (i = j) then v else is_reserved a j.
Proof using Hs Hi. apply bit_is_set_set. simpl. rewrite (proj2 Hs). by apply word_covers. Qed.

Lemma set_allocated_count :
  (free_count (set_allocated i v a) + b2n (negb (is_allocated a i)) = free_count a + b2n (negb v))%nat.
Proof using Hs Hi.
  unfold free_count. simpl. rewrite (countb_seq_change (λ j, negb (is_allocated a j)) (λ j, negb (is_allocated (set_allocated i v a) j)) i).
  - by rewrite set_allocated_spec, decide_True.
  - done.
  - intros j Hj. by rewrite set_allocated_spec, decide_False.
Qed.

Lemma set_sized : sized (set_allocated i v a) ∧ sized (set_reserved i v a).
Proof using Hs. destruct Hs. unfold sized. simpl. by rewrite !set_bit_length. Qed.
End SetBit.

Definition within (first n j : nat) : Prop := (first ≤ j < first + n)%nat.
#[global] Instance within_dec first n j : Decision (within first n j).
Proof. unfold within. apply _. Defined.

(** Marking a run. *)
Lemma mark_run v n : ∀ first a, sized a → (first + n ≤ frame_count a)%nat →
  let a' := for_frames (λ frame, set_allocated frame v) first n a in
  sized a' ∧ frame_count a' = frame_count a ∧ free_frames a' = free_frames a ∧ next_search a' = next_search a ∧
  reserved a' = reserved a ∧ (∀ j, is_allocated a' j = if decide (within first n j) then v else is_allocated a j) ∧
  ((∀ j, within first n j → is_allocated a j = negb v) →
   (free_count a' + b2n v * n = free_count a + b2n (negb v) * n)%nat).
Proof.
  induction n as [|n IH]; intros first a Hs Hf; cbn [for_frames].
  { split_and!; try done; [|intros; lia]. intros j. rewrite decide_False by (unfold within; lia). done. }
  pose proof (proj1 (set_sized a first v Hs)) as Hs1.
  destruct (IH (S first) (set_allocated first v a) Hs1 ltac:(simpl; lia)) as (A1 & A2 & A3 & A4 & A5 & A6 & A7).
  split_and!; try done.
  - intros j. rewrite A6, set_allocated_spec by (done || lia). unfold within. repeat case_decide; try done; lia.
  - intros Hall. pose proof (set_allocated_count a first v Hs ltac:(lia)) as Hc. rewrite Hall in Hc by (unfold within; lia).
    assert (∀ j, within (S first) n j → is_allocated (set_allocated first v a) j = negb v) as Hall1.
    { intros j Hj. rewrite set_allocated_spec by (done || lia). rewrite decide_False by (unfold within in Hj; lia).
      apply Hall. unfold within in *. lia. }
    specialize (A7 Hall1). unfold b2n in *. destruct v; simpl in *; lia.
Qed.

(** ** Free frames as a set *)

Definition free_set (a : BitmapFrameAllocator) : gset nat :=
  list_to_set (filter (λ i, is_allocated a i = false) (seq 0 (frame_count a))).

Lemma elem_of_free a i : i ∈ free_set a ↔ (i < frame_count a)%nat ∧ is_allocated a i = false.
Proof. unfold free_set. rewrite elem_of_list_to_set, list_elem_of_filter, elem_of_seq. naive_solver lia. Qed.

Definition run_set (first n : nat) : gset nat := list_to_set (seq first n).

Lemma elem_of_run first n i : i ∈ run_set first n ↔ within first n i.
Proof. unfold run_set, within. by rewrite elem_of_list_to_set, elem_of_seq. Qed.

Lemma free_count_zero a : free_count a = O ↔ free_set a = ∅.
Proof.
  unfold free_count. rewrite countb_zero. split.
  - intros H. apply set_eq. intros i. rewrite elem_of_free, elem_of_empty. split; [|done]. intros [Hi Hf].
    assert (seq 0 (frame_count a) !! i = Some i) as Hl by (apply lookup_seq; lia). pose proof (H i i Hl) as Hn. by rewrite Hf in Hn.
  - intros H i x [-> Hi]%lookup_seq. simpl. destruct (is_allocated a i) eqn:E; [done|]. exfalso.
    assert (i ∈ free_set a) as Hin by (by apply elem_of_free). rewrite H in Hin. by apply elem_of_empty in Hin.
Qed.

(** ** Allocation *)

Lemma allocator_wf_taken a first n hint :
  allocator_wf a → (first + n ≤ frame_count a)%nat → (hint < frame_count a)%nat →
  (∀ j, within first n j → is_allocated a j = false) →
  let a' := for_frames (λ frame, set_allocated frame true) first n a in
  let a'' := with_hint hint (with_free (free_frames a' - n) a') in
  allocator_wf a'' ∧ free_set a'' = free_set a ∖ run_set first n ∧ frame_count a'' = frame_count a ∧ reserved a'' = reserved a.
Proof.
  intros [W1 W2 W3 W4 W5] Hn Hh Hfree a' a''. destruct (mark_run true n first a W1 Hn) as (A1 & A2 & A3 & A4 & A5 & A6 & A7).
  fold a' in A1, A2, A3, A4, A5, A6, A7. split_and!; [|apply set_eq; intros i|done|done].
  - split; simpl; try done.
    + specialize (A7 Hfree). simpl in A7. change (free_count a'') with (free_count a'). unfold free_frames in *. simpl in *. lia.
    + left. lia.
    + intros i Hi Hr. change (is_allocated a'' i) with (is_allocated a' i). rewrite A6. case_decide; [done|]. apply W4; [lia|].
      unfold is_reserved in *. simpl in Hr. by rewrite A5 in Hr.
    + lia.
  - rewrite elem_of_difference, !elem_of_free, elem_of_run. change (is_allocated a'' i) with (is_allocated a' i).
    change (frame_count a'') with (frame_count a'). rewrite A2, A6. case_decide; naive_solver.
Qed.

Lemma allocate_spec a : allocator_wf a →
  match allocate a with
  | (None, a') => a' = a ∧ free_set a = ∅
  | (Some p, a') => ∃ f, f ∈ free_set a ∧ p = frame_address f ∧ free_set a' = free_set a ∖ {[f]} ∧
      allocator_wf a' ∧ frame_count a' = frame_count a ∧ reserved a' = reserved a
  end.
Proof.
  intros Hw. unfold allocate. destruct (Nat.eqb_spec (free_frames a) 0) as [Hz|Hz].
  { split; [done|]. apply free_count_zero. by rewrite <- (aw_free _ Hw). }
  assert (frame_count a ≠ O) as Hfc.
  { intros E. apply Hz. rewrite (aw_free _ Hw). unfold free_count. by rewrite E. }
  destruct (find_range _ 0 (frame_count a)) as [offset|] eqn:Hfind.
  - apply find_range_Some in Hfind as (_ & Hf%negb_true_iff & _). set (f := ((next_search a + offset) mod frame_count a)%nat) in *.
    assert (f < frame_count a)%nat as Hlt by (apply Nat.mod_upper_bound; done).
    destruct (allocator_wf_taken a f 1 ((f + 1) mod frame_count a)%nat Hw ltac:(lia)) as (B1 & B2 & B3 & B4).
    { by apply Nat.mod_upper_bound. } { intros j Hj. by replace j with f by (unfold within in Hj; lia). }
    exists f. split_and!; try done; [by apply elem_of_free|]. etrans; [exact B2|]. unfold run_set. simpl. set_solver.
  - exfalso. rewrite find_range_None in Hfind. apply Hz. rewrite (aw_free _ Hw). apply free_count_zero, set_eq. intros i.
    rewrite elem_of_free, elem_of_empty. split; [|done]. intros [Hi Hfree].
    destruct (aw_hint _ Hw) as [Hh|]; [|done]. set (o := if decide (next_search a ≤ i)%nat then (i - next_search a)%nat else (i + frame_count a - next_search a)%nat).
    specialize (Hfind o). assert ((next_search a + o) mod frame_count a = i)%nat as Ho.
    { unfold o. case_decide; [replace (next_search a + (i - next_search a))%nat with i by lia; by apply Nat.mod_small|].
      replace (next_search a + (i + frame_count a - next_search a))%nat with (i + 1 * frame_count a)%nat by lia.
      rewrite Nat.Div0.mod_add. by apply Nat.mod_small. }
    rewrite Ho, Hfree in Hfind. simpl in Hfind. assert (o < frame_count a)%nat by (unfold o; case_decide; lia). by specialize (Hfind ltac:(lia)).
Qed.

(** ** Runs *)

(** An aligned run of free frames. *)
Definition free_run (a : BitmapFrameAllocator) (n alignment first : nat) : Prop :=
  Nat.divide alignment first ∧ (first + n ≤ frame_count a)%nat ∧ ∀ j, within first n j → is_allocated a j = false.

Lemma align_up_index_spec (v al : nat) k : Z.of_nat v ≤ 2 ^ 53 → 0 ≤ k ≤ 63 → Z.of_nat al = 2 ^ k →
  ∃ x, align_up_index v al = Some x ∧ Nat.divide al x ∧ (v ≤ x)%nat ∧ ∀ y, Nat.divide al y → (v ≤ y)%nat → (x ≤ y)%nat.
Proof.
  intros Hv Hk Hal. unfold align_up_index, align_up. rewrite Hal. pose proof (round_up_spec (Z.of_nat v) k ltac:(lia) Hk) as H.
  destruct (match checked_add _ _ _ with Some _ => _ | None => _ end) as [x|].
  - destruct H as (H1 & H2 & H3). exists (Z.to_nat x). split_and!; [done| |lia|].
    + apply Nat2Z.divide. rewrite Hal, Z2Nat.id by lia. done.
    + intros y Hy%Nat2Z.divide Hle. rewrite Hal in Hy. pose proof (H3 (Z.of_nat y) Hy ltac:(lia)). lia.
  - exfalso. pose proof (H (2 ^ (k `max` 53))) as Hbig. unfold U64_MAX in Hbig.
    pose proof (Z.pow_le_mono_r 2 53 (k `max` 53) ltac:(lia) ltac:(lia)). pose proof (Z.pow_le_mono_r 2 (k `max` 53) 63 ltac:(lia) ltac:(lia)).
    assert (2 ^ k | 2 ^ (k `max` 53)); [|specialize (Hbig ltac:(done) ltac:(lia)); lia].
    exists (2 ^ (k `max` 53 - k)). rewrite <- Z.pow_add_r by lia. f_equal. lia.
Qed.

Section Scan.
Context (a : BitmapFrameAllocator) (n alignment : nat) (k : Z).
Hypothesis Hw : allocator_wf a.
Hypothesis Hk : 0 ≤ k ≤ 63.
Hypothesis Hal : Z.of_nat alignment = 2 ^ k.
Hypothesis Hn : (0 < n)%nat.
Hypothesis Hsmall : Z.of_nat n ≤ 2 ^ 52.
Abbreviation fits := (free_run a n alignment).

Lemma scan_spec rounds : ∀ candidate,
  (frame_count a < rounds + candidate)%nat → Nat.divide alignment candidate → Z.of_nat candidate ≤ U64_MAX - 2 ^ 52 →
  match scan_contiguous rounds a candidate n alignment with
  | Some first => fits first
  | None => ∀ first, (candidate ≤ first)%nat → ¬ fits first
  end.
Proof using Hw Hk Hal Hn Hsmall.
  induction rounds as [|rounds IH]; intros candidate Hr Hd Hc; cbn [scan_contiguous].
  { intros first Hle (_ & H & _). lia. }
  pose proof (aw_count _ Hw) as Hcount.
  destruct (checked_add U64_MAX (Z.of_nat candidate) (Z.of_nat n)) as [stop|] eqn:Hs; [|apply checked_add_None in Hs; lia].
  apply checked_add_Some in Hs as [-> _]. destruct (Z.leb_spec (Z.of_nat candidate + Z.of_nat n) (Z.of_nat (frame_count a))) as [Hin|Hout].
  2: { intros first Hle (_ & H & _). lia. }
  destruct (find_range (is_allocated a) candidate n) as [o|] eqn:Hf.
  - apply find_range_Some in Hf as (Ho & Hoa & _).
    destruct (align_up_index_spec (o + 1) alignment k ltac:(lia) Hk Hal) as (x & -> & X1 & X2 & X3).
    assert (∀ first, (candidate ≤ first)%nat → fits first → (x ≤ first)%nat) as Hskip.
    { intros first Hle (F1 & F2 & F3). apply X3; [done|]. destruct (Nat.leb_spec first o) as [Hfo|]; [|lia].
      rewrite (F3 o) in Hoa; [done|]. unfold within. lia. }
    destruct (Z.leb_spec (Z.of_nat x) (U64_MAX - 2 ^ 52)).
    + specialize (IH x ltac:(lia) X1 ltac:(lia)). destruct (scan_contiguous rounds a x n alignment) as [first|]; [done|].
      intros first Hle Hfit. by apply (IH first); [apply Hskip|].
    + destruct rounds as [|rounds]; cbn [scan_contiguous]; [intros first Hle Hfit; destruct Hfit as (_ & H1 & _); lia|].
      assert (∀ first, (candidate ≤ first)%nat → ¬ fits first) as Hno.
      { intros first Hle Hfit. pose proof (Hskip first Hle Hfit). destruct Hfit as (_ & H1 & _). unfold U64_MAX in *. lia. }
      destruct (checked_add U64_MAX (Z.of_nat x) (Z.of_nat n)) as [stop|] eqn:Hs2; [|done]. apply checked_add_Some in Hs2 as [-> _].
      destruct (Z.leb_spec (Z.of_nat x + Z.of_nat n) (Z.of_nat (frame_count a))); [unfold U64_MAX in *; lia|done].
  - split_and!; [done|lia|]. intros j Hj. rewrite find_range_None in Hf. by apply Hf.
Qed.

Lemma find_contiguous_spec start : (start ≤ frame_count a)%nat →
  match find_contiguous a start n alignment with
  | Some first => fits first
  | None => ∀ first, (start ≤ first)%nat → ¬ fits first
  end.
Proof using Hw Hk Hal Hn Hsmall.
  intros Hs. pose proof (aw_count _ Hw). unfold find_contiguous.
  destruct (align_up_index_spec start alignment k ltac:(lia) Hk Hal) as (x & -> & X1 & X2 & X3). cbn [mbind option_bind].
  assert (2 ^ k ≤ 2 ^ 63) as Hmax by (apply Z.pow_le_mono_r; lia).
  assert (Z.of_nat x ≤ U64_MAX - 2 ^ 52).
  { assert (x ≤ start + alignment)%nat; [|unfold U64_MAX; lia].
    assert (Nat.divide alignment (((start + alignment - 1) / alignment) * alignment)) as Hd by apply Nat.divide_factor_r.
    assert (0 < alignment)%nat by lia.
    pose proof (Nat.div_mod_eq (start + alignment - 1) alignment). pose proof (Nat.mod_upper_bound (start + alignment - 1) alignment ltac:(lia)).
    pose proof (X3 _ Hd ltac:(nia)). nia. }
  pose proof (scan_spec (S (frame_count a)) x ltac:(lia) X1 ltac:(done)) as Hscan.
  destruct (scan_contiguous _ _ _ _ _) as [first|]; [done|]. intros first Hle Hfit. apply (Hscan first); [|done].
  apply X3; [apply Hfit|done].
Qed.
End Scan.

Lemma free_count_le a : (free_count a ≤ frame_count a)%nat.
Proof. unfold free_count. etrans; [apply countb_le_length|]. by rewrite length_seq. Qed.

(** Runs of free frames, on the set. *)
Definition set_run (F : gset nat) (n alignment first : nat) : Prop := Nat.divide alignment first ∧ run_set first n ⊆ F.

Lemma set_run_free a n alignment first : (0 < n)%nat → set_run (free_set a) n alignment first ↔ free_run a n alignment first.
Proof.
  intros Hn. unfold set_run, free_run. split.
  - intros [H1 H2]. split_and!; [done| |].
    + specialize (H2 (first + n - 1)%nat). rewrite elem_of_run, elem_of_free in H2. unfold within in H2. destruct H2; lia.
    + intros j Hj. specialize (H2 j). rewrite elem_of_run, elem_of_free in H2. by apply H2.
  - intros (H1 & H2 & H3). split; [done|]. intros j Hj%elem_of_run. apply elem_of_free. split; [unfold within in Hj; lia|by apply H3].
Qed.

Lemma run_size F n alignment first : set_run F n alignment first → (n ≤ size F)%nat.
Proof.
  intros [_ H]. apply subseteq_size in H. unfold run_set in H. rewrite size_list_to_set in H by apply NoDup_seq. by rewrite length_seq in H.
Qed.

Lemma free_set_size a : size (free_set a) = free_count a.
Proof.
  unfold free_set, free_count. rewrite size_list_to_set by (apply NoDup_filter, NoDup_seq).
  induction (seq 0 (frame_count a)) as [|i l IH]; [done|]. rewrite filter_cons. simpl. case_decide as E.
  - rewrite E. simpl. by rewrite IH.
  - apply not_false_is_true in E. by rewrite E.
Qed.

Definition run_request_ok (n alignment : nat) : bool :=
  negb (n =? 0)%nat && negb (alignment =? 0)%nat && is_power_of_two (Z.of_nat alignment).

Lemma allocate_contiguous_spec a n alignment : allocator_wf a → Z.of_nat alignment ≤ U64_MAX →
  match allocate_contiguous n alignment a with
  | (None, a') => a' = a ∧ (run_request_ok n alignment = true → ∀ first, ¬ set_run (free_set a) n alignment first)
  | (Some p, a') => ∃ first, p = frame_address first ∧ run_request_ok n alignment = true ∧ set_run (free_set a) n alignment first ∧
      free_set a' = free_set a ∖ run_set first n ∧ allocator_wf a' ∧ frame_count a' = frame_count a ∧ reserved a' = reserved a
  end.
Proof.
  intros Hw Hal. unfold allocate_contiguous, run_request_ok.
  destruct (Nat.eqb_spec n 0) as [|Hn]; [by split|]. destruct (Nat.eqb_spec alignment 0) as [|Ha]; [by split|]. cbn [orb].
  destruct (is_power_of_two (Z.of_nat alignment)) eqn:Hp; cbn [negb orb andb]; [|by split].
  destruct (Nat.ltb_spec (free_frames a) n) as [Hlt|Hge].
  { split; [done|]. intros _ first H%run_size. rewrite free_set_size, <- (aw_free _ Hw) in H. lia. }
  apply power_of_two_spec in Hp as (k & Hk0 & Hk). pose proof (aw_count _ Hw). pose proof (free_count_le a). pose proof (aw_free _ Hw).
  assert (k ≤ 63) as Hk63.
  { destruct (Z.leb_spec k 63); [done|]. pose proof (Z.pow_le_mono_r 2 64 k ltac:(lia) ltac:(lia)). unfold U64_MAX in *. lia. }
  assert (0 < frame_count a)%nat as Hfc by lia.
  assert (∀ start, (start ≤ frame_count a)%nat → match find_contiguous a start n alignment with
    | Some first => free_run a n alignment first | None => ∀ first, (start ≤ first)%nat → ¬ free_run a n alignment first end) as Hfind.
  { intros start. apply (find_contiguous_spec a n alignment k); try done; lia. }
  assert (match (match find_contiguous a (next_search a) n alignment with Some first => Some first
                 | None => find_contiguous a 0 n alignment end) with
          | Some first => free_run a n alignment first | None => ∀ first, ¬ free_run a n alignment first end) as Hres.
  { pose proof (Hfind (next_search a) ltac:(destruct (aw_hint _ Hw); lia)). pose proof (Hfind O ltac:(lia)) as Hzero.
    destruct (find_contiguous a (next_search a) n alignment); [done|]. destruct (find_contiguous a 0 n alignment); [done|].
    intros first. apply Hzero. lia. }
  destruct (match find_contiguous _ _ _ _ with Some _ => _ | None => _ end) as [first|].
  - pose proof Hres as (F1 & F2 & F3). exists first. split_and!; [done|done|by apply set_run_free; [lia|]| | | |];
      eapply (allocator_wf_taken a first n ((first + n) mod frame_count a)%nat Hw F2) in F3 as (B1 & B2 & B3 & B4);
      try (apply Nat.mod_upper_bound; lia);
      destruct (mark_run true n first a (aw_sized _ Hw) F2) as (_ & A2 & _); rewrite A2; done.
  - split; [done|]. intros _ first. rewrite set_run_free by lia. apply Hres.
Qed.

(** ** Release *)

Lemma releasable_spec a n : ∀ first,
  match releasable a first n with
  | Ok _ => ∀ j, within first n j → is_reserved a j = false ∧ is_allocated a j = true
  | Err e => e = ReservedFrame ∧ (∃ j, within first n j ∧ is_reserved a j = true) ∨
             e = DoubleFree ∧ ∃ j, within first n j ∧ is_allocated a j = false
  end.
Proof.
  induction n as [|n IH]; intros first; simpl; [unfold within; intros; lia|].
  destruct (is_reserved a first) eqn:Hr; [left; split; [done|]; exists first; unfold within; split; [lia|done]|].
  destruct (is_allocated a first) eqn:Ha; simpl; [|right; split; [done|]; exists first; unfold within; split; [lia|done]].
  specialize (IH (S first)). destruct (releasable a (S first) n) as [[]|e].
  - intros j Hj. destruct (decide (j = first)) as [->|]; [done|]. apply IH. unfold within in *. lia.
  - destruct IH as [[-> (j & Hj & H)]|[-> (j & Hj & H)]]; [left|right]; (split; [done|]); exists j; (split; [unfold within in *; lia|done]).
Qed.

Lemma allocator_wf_released a first n :
  allocator_wf a → (0 < n)%nat → (first + n ≤ frame_count a)%nat →
  (∀ j, within first n j → is_reserved a j = false ∧ is_allocated a j = true) →
  let a' := with_hint first (with_free (free_frames a + n) (for_frames (λ frame, set_allocated frame false) first n a)) in
  allocator_wf a' ∧ free_set a' = free_set a ∪ run_set first n ∧ frame_count a' = frame_count a ∧ reserved a' = reserved a.
Proof.
  intros [W1 W2 W3 W4 W5] Hn Hfn Hrun a'. destruct (mark_run false n first a W1 Hfn) as (A1 & A2 & A3 & A4 & A5 & A6 & A7).
  set (b := for_frames _ first n a) in *. split_and!; [|apply set_eq; intros i|done|done].
  - split; simpl; try done.
    + assert (∀ j, within first n j → is_allocated a j = negb false) as Hall by (intros j Hj; apply Hrun, Hj).
      specialize (A7 Hall). simpl in A7. change (free_count a') with (free_count b). lia.
    + left. lia.
    + intros i Hi Hr. change (is_allocated a' i) with (is_allocated b i). rewrite A6.
      assert (is_reserved a i = true) as Hra by (unfold is_reserved in *; simpl in Hr; by rewrite A5 in Hr).
      case_decide as Hd; [|apply W4; [lia|done]]. destruct (Hrun i Hd). congruence.
    + lia.
  - rewrite elem_of_union, !elem_of_free, elem_of_run. change (is_allocated a' i) with (is_allocated b i).
    change (frame_count a') with (frame_count b). rewrite A2, A6. case_decide as Hd; [|naive_solver].
    split; [by right|]. intros _. split; [unfold within in Hd; lia|done].
Qed.

(** What a release is refused for. *)
Definition release_refused (frames : nat) (R : nat → bool) (F : gset nat) (address : Z) (n : nat) (e : FrameAllocatorError) : Prop :=
  let first := Z.to_nat (address / PAGE_SIZE) in
  match e with
  | InvalidFrameCount => n = O
  | UnalignedFrame => ¬ (PAGE_SIZE | address)
  | FrameOutOfRange => (frames < first + n)%nat
  | ReservedFrame => ∃ j, within first n j ∧ R j = true
  | DoubleFree => ∃ j, within first n j ∧ j ∈ F
  | _ => False
  end.

Lemma deallocate_contiguous_spec a address n : allocator_wf a → 0 ≤ address → Z.of_nat n ≤ 2 ^ 63 →
  match deallocate_contiguous address n a with
  | (Ok _, a') => ∃ first, address = frame_address first ∧ (0 < n)%nat ∧ (first + n ≤ frame_count a)%nat ∧
      run_set first n ## free_set a ∧ (∀ j, within first n j → is_reserved a j = false) ∧
      free_set a' = free_set a ∪ run_set first n ∧ allocator_wf a' ∧ frame_count a' = frame_count a ∧ reserved a' = reserved a
  | (Err e, a') => a' = a ∧ release_refused (frame_count a) (is_reserved a) (free_set a) address n e
  end.
Proof.
  intros Hw H0 Hbig. unfold deallocate_contiguous. m_unfold. destruct (Nat.eqb_spec n 0) as [->|Hn]; [done|]. cbn [negb].
  change (PAGE_SIZE - 1) with (Z.ones 12). rewrite Z.land_ones by lia. change (2 ^ 12) with PAGE_SIZE.
  destruct (Z.eqb_spec (address mod PAGE_SIZE) 0) as [Ha|Ha].
  2: { split; [done|]. simpl. by rewrite <- Z.mod_divide by done. }
  set (first := Z.to_nat (address / PAGE_SIZE)).
  pose proof (aw_count _ Hw). assert (0 ≤ address / PAGE_SIZE) as Hpos by (apply Z.div_pos; done).
  destruct (checked_add U64_MAX (Z.of_nat first) (Z.of_nat n)) as [stop|] eqn:Hs.
  2: { apply checked_add_None in Hs. split; [done|]. simpl. unfold U64_MAX in Hs. fold first. lia. }
  apply checked_add_Some in Hs as [-> _]. destruct (Z.leb_spec (Z.of_nat first + Z.of_nat n) (Z.of_nat (frame_count a))) as [Hle|Hgt].
  2: { split; [done|]. simpl. fold first. lia. }
  pose proof (releasable_spec a n first) as Hr. destruct (releasable a first n) as [[]|e].
  - exists first. destruct (allocator_wf_released a first n Hw ltac:(lia) ltac:(lia) Hr) as (B1 & B2 & B3 & B4). split_and!; try done; try lia.
    + unfold frame_address, first. rewrite Z2Nat.id by done. pose proof (Z.div_mod address PAGE_SIZE ltac:(done)). unfold PAGE_SIZE in *. lia.
    + apply elem_of_disjoint. intros j Hj%elem_of_run [_ Hf]%elem_of_free. destruct (Hr j Hj). congruence.
    + intros j Hj. by apply Hr.
  - split; [done|]. destruct Hr as [[-> Hj]|[-> (j & Hj & Hf)]]; [done|]. simpl. fold first. exists j. split; [done|].
    apply elem_of_free. unfold within in Hj. split; [lia|done].
Qed.

(** ** Runs of the allocator *)

Inductive Op := Alloc | AllocRun (n alignment : nat) | Release (address : Z) (n : nat).
Inductive Out := Given (p : option Z) | Released (r : Result unit FrameAllocatorError).

Definition step (op : Op) (a : BitmapFrameAllocator) : Out * BitmapFrameAllocator :=
  match op with
  | Alloc => let '(p, a) := allocate a in (Given p, a)
  | AllocRun n alignment => let '(p, a) := allocate_contiguous n alignment a in (Given p, a)
  | Release address n => let '(r, a) := deallocate_contiguous address n a in (Released r, a)
  end.

Definition op_typed (op : Op) : Prop :=
  match op with
  | Alloc => True
  | AllocRun n alignment => Z.of_nat alignment ≤ U64_MAX
  | Release address n => 0 ≤ address ∧ Z.of_nat n ≤ 2 ^ 63
  end.

(** What an operation may do to a set of free frames. *)
Definition spec_step (frames : nat) (R : nat → bool) (F : gset nat) (op : Op) (out : Out) (F' : gset nat) : Prop :=
  match op, out with
  | Alloc, Given None => F = ∅ ∧ F' = F
  | Alloc, Given (Some p) => ∃ f, f ∈ F ∧ p = frame_address f ∧ F' = F ∖ {[f]}
  | AllocRun n alignment, Given None => F' = F ∧ (run_request_ok n alignment = true → ∀ first, ¬ set_run F n alignment first)
  | AllocRun n alignment, Given (Some p) =>
      ∃ first, p = frame_address first ∧ run_request_ok n alignment = true ∧ set_run F n alignment first ∧ F' = F ∖ run_set first n
  | Release address n, Released (Ok _) =>
      ∃ first, address = frame_address first ∧ (0 < n)%nat ∧ (first + n ≤ frames)%nat ∧ run_set first n ## F ∧
        (∀ j, within first n j → R j = false) ∧ F' = F ∪ run_set first n
  | Release address n, Released (Err e) => F' = F ∧ release_refused frames R F address n e
  | _, _ => False
  end.

Fixpoint run_ops (ops : list Op) (a : BitmapFrameAllocator) : list Out * BitmapFrameAllocator :=
  match ops with
  | [] => ([], a)
  | op :: ops => let '(out, a) := step op a in let '(outs, a) := run_ops ops a in (out :: outs, a)
  end.

Inductive spec_run (frames : nat) (R : nat → bool) : gset nat → list Op → list Out → gset nat → Prop :=
  | spec_nil F : spec_run frames R F [] [] F
  | spec_cons F op out F1 ops outs F2 :
      spec_step frames R F op out F1 → spec_run frames R F1 ops outs F2 → spec_run frames R F (op :: ops) (out :: outs) F2.

Lemma step_refines op a : allocator_wf a → op_typed op →
  spec_step (frame_count a) (is_reserved a) (free_set a) op (step op a).1 (free_set (step op a).2) ∧
  allocator_wf (step op a).2 ∧ frame_count (step op a).2 = frame_count a ∧ reserved (step op a).2 = reserved a.
Proof.
  intros Hw Ht. destruct op as [|n alignment|address n]; simpl.
  - pose proof (allocate_spec a Hw) as H. destruct (allocate a) as [[p|] a']; simpl; [naive_solver|]. by destruct H as [-> H].
  - pose proof (allocate_contiguous_spec a n alignment Hw Ht) as H. destruct (allocate_contiguous n alignment a) as [[p|] a']; simpl;
      [naive_solver|]. by destruct H as [-> H].
  - destruct Ht as [H0 Hb]. pose proof (deallocate_contiguous_spec a address n Hw H0 Hb) as H.
    destruct (deallocate_contiguous address n a) as [[[]|e] a']; simpl; [naive_solver|]. by destruct H as [-> H].
Qed.

(** ** Boot *)

(** A loop body that sets both bits of a frame and keeps the count. *)
Definition sets_frame (f : nat → BitmapFrameAllocator → BitmapFrameAllocator) (v : bool) : Prop :=
  ∀ i a, allocator_wf a → (i < frame_count a)%nat →
    allocator_wf (f i a) ∧ frame_count (f i a) = frame_count a ∧
    (∀ j, is_allocated (f i a) j = if decide (i = j) then v else is_allocated a j).

Lemma set_both_wf a i v n :
  allocator_wf a → (i < frame_count a)%nat → (n + b2n (negb (is_allocated a i)) = free_count a + b2n (negb v))%nat →
  allocator_wf (set_reserved i v (set_allocated i v (with_free n a))).
Proof.
  intros [W1 W2 W3 W4 W5] Hi Hn. assert (sized (with_free n a)) as Hs by done. split; simpl; try done.
  - apply set_sized, set_sized. done.
  - pose proof (set_allocated_count (with_free n a) i v Hs Hi) as Hc. change (is_allocated (with_free n a) i) with (is_allocated a i) in Hc.
    change (free_count (with_free n a)) with (free_count a) in Hc.
    change (free_count (set_reserved i v (set_allocated i v (with_free n a)))) with (free_count (set_allocated i v (with_free n a))). lia.
  - intros j Hj. rewrite set_reserved_spec by (done || apply set_sized; done).
    change (is_allocated (set_reserved i v (set_allocated i v (with_free n a))) j) with (is_allocated (set_allocated i v (with_free n a)) j).
    rewrite set_allocated_spec by done. case_decide; [done|]. by apply W4.
Qed.

Lemma with_free_same a : with_free (free_frames a) a = a.
Proof. by destruct a. Qed.

Lemma usable_sets : sets_frame usable_frame false.
Proof.
  intros i a Hw Hi. pose proof (aw_free _ Hw) as Hf. unfold usable_frame. split; [|split; [by destruct (is_allocated a i)|]].
  - destruct (is_allocated a i) eqn:E; [apply set_both_wf; try done; rewrite E; simpl; lia|].
    rewrite <- (with_free_same a). apply set_both_wf; try done. rewrite E. simpl. lia.
  - intros j. destruct (is_allocated a i); apply (set_allocated_spec _ i false (aw_sized _ Hw) Hi).
Qed.

Lemma reserve_sets : sets_frame reserve_frame true.
Proof.
  intros i a Hw Hi. pose proof (aw_free _ Hw) as Hf. unfold reserve_frame. split; [|split; [by destruct (is_allocated a i)|]].
  - destruct (is_allocated a i) eqn:E; [rewrite <- (with_free_same a); apply set_both_wf; try done; rewrite E; simpl; lia|].
    apply set_both_wf; try done. rewrite E. simpl. pose proof (countb_pos (λ i, negb (is_allocated a i)) (seq 0 (frame_count a)) i i) as Hp.
    rewrite lookup_seq, E in Hp. specialize (Hp ltac:(lia) eq_refl). unfold free_count in *. lia.
  - intros j. destruct (is_allocated a i); apply (set_allocated_spec _ i true (aw_sized _ Hw) Hi).
Qed.

Lemma sets_run f v : sets_frame f v → ∀ n first a, allocator_wf a → (first + n ≤ frame_count a)%nat →
  let a' := for_frames f first n a in
  allocator_wf a' ∧ frame_count a' = frame_count a ∧ ∀ j, is_allocated a' j = if decide (within first n j) then v else is_allocated a j.
Proof.
  intros Hf. induction n as [|n IH]; intros first a Hw Hn; cbn [for_frames].
  { split_and!; try done. intros j. by rewrite decide_False by (unfold within; lia). }
  destruct (Hf first a Hw ltac:(lia)) as (A1 & A2 & A3). destruct (IH (S first) (f first a) A1 ltac:(lia)) as (B1 & B2 & B3).
  split_and!; [done|congruence|]. intros j. rewrite B3, A3. unfold within. repeat case_decide; done || lia.
Qed.

Lemma sets_range f v first last a : sets_frame f v → allocator_wf a →
  let a' := for_frames f (Nat.min first (frame_count a)) (Nat.min last (frame_count a) - Nat.min first (frame_count a)) a in
  allocator_wf a' ∧ frame_count a' = frame_count a ∧
  ∀ j, (j < frame_count a)%nat → is_allocated a' j = if decide (first ≤ j < last)%nat then v else is_allocated a j.
Proof.
  intros Hf Hw. destruct (Nat.leb_spec first last).
  - destruct (sets_run f v Hf (Nat.min last (frame_count a) - Nat.min first (frame_count a)) (Nat.min first (frame_count a)) a Hw ltac:(lia))
      as (A1 & A2 & A3). split_and!; [done|done|]. intros j Hj. rewrite A3. unfold within. repeat case_decide; done || lia.
  - replace (Nat.min last (frame_count a) - Nat.min first (frame_count a))%nat with O by lia. split_and!; try done.
    intros j Hj. rewrite decide_False by lia. done.
Qed.

(** A frame wholly inside a usable region, and one a reservation touches. *)
Definition usable_by (maximum_address : Z) (r : MemoryRegion) (f : nat) : Prop :=
  kind r = Usable ∧ rgn_start r ≤ frame_address f ∧ frame_address (S f) ≤ rgn_end r `min` maximum_address.
Definition touched_by (r : Z * Z) (f : nat) : Prop := r.1 < r.2 ∧ r.1 < frame_address (S f) ∧ frame_address f < r.2.
(** A reservation whose end rounds up to a page within 64 bits. *)
Definition honoured (r : Z * Z) : Prop := r.2 ≤ U64_MAX - (PAGE_SIZE - 1).

Lemma align_down_page x : 0 ≤ x → align_down x PAGE_SIZE = x / PAGE_SIZE * PAGE_SIZE.
Proof. intros Hx. unfold align_down, and_not. change (PAGE_SIZE - 1) with (Z.ones 12). rewrite Z.ldiff_ones_r, Z.shiftl_mul_pow2, Z.shiftr_div_pow2 by lia. done. Qed.

Lemma align_up_page x : 0 ≤ x → align_up x PAGE_SIZE = if x <=? U64_MAX - (PAGE_SIZE - 1) then Some ((x + (PAGE_SIZE - 1)) / PAGE_SIZE * PAGE_SIZE) else None.
Proof.
  intros Hx. unfold align_up. destruct (checked_add U64_MAX x (PAGE_SIZE - 1)) as [s|] eqn:E.
  - apply checked_add_Some in E as [-> E]. destruct (Z.leb_spec x (U64_MAX - (PAGE_SIZE - 1))); [|lia].
    f_equal. apply align_down_page. unfold PAGE_SIZE. lia.
  - apply checked_add_None in E. destruct (Z.leb_spec x (U64_MAX - (PAGE_SIZE - 1))); [lia|done].
Qed.

(** Indices against addresses: both roundings are Galois connections. *)
Lemma page_index_up x f : 0 ≤ x → (Z.to_nat (x / PAGE_SIZE) ≤ f)%nat ↔ x < frame_address (S f).
Proof. unfold frame_address, PAGE_SIZE. intros. pose proof (Z.div_mod x 4096 ltac:(lia)). pose proof (Z.mod_pos_bound x 4096 ltac:(lia)). lia. Qed.

Lemma usable_region_spec maximum_address a r :
  allocator_wf a → 0 ≤ rgn_start r → 0 ≤ rgn_end r → 0 ≤ maximum_address →
  let a' := usable_region maximum_address a r in
  allocator_wf a' ∧ frame_count a' = frame_count a ∧
  ∀ f, f ∈ free_set a' ↔ f ∈ free_set a ∨ (f < frame_count a)%nat ∧ usable_by maximum_address r f.
Proof.
  intros Hw Hs He Hm. unfold usable_region. pose proof (aw_count _ Hw) as Hcount.
  destruct (kind r) eqn:Hk;
    [|split_and!; [done|done|]; intros f; split; [by left|intros [|(_ & Hk' & _)]; [done|congruence]]..]. cbv zeta.
  rewrite align_up_page by done. destruct (Z.leb_spec (rgn_start r) (U64_MAX - (PAGE_SIZE - 1))) as [Hle|Hgt].
  2: { split_and!; [done|done|]. intros f. split; [by left|]. intros [|[Hf (_ & H & _)]]; [done|]. exfalso.
       unfold frame_address, U64_MAX, PAGE_SIZE in *. lia. }
  rewrite align_down_page by lia. unfold mark_usable. set (top := rgn_end r `min` maximum_address).
  set (start := (rgn_start r + (PAGE_SIZE - 1)) / PAGE_SIZE). set (stop := top / PAGE_SIZE).
  assert (∀ f, usable_by maximum_address r f ↔ (Z.to_nat start ≤ f < Z.to_nat stop)%nat) as Hu.
  { intros f. unfold usable_by, frame_address, start, stop, PAGE_SIZE. fold top.
    pose proof (Z.div_mod (rgn_start r + (4096 - 1)) 4096 ltac:(lia)). pose proof (Z.mod_pos_bound (rgn_start r + (4096 - 1)) 4096 ltac:(lia)).
    pose proof (Z.div_mod top 4096 ltac:(lia)). pose proof (Z.mod_pos_bound top 4096 ltac:(lia)). rewrite Hk.
    assert (0 ≤ top) by lia. split; [intros (_ & Hx & Hy); lia|intros Hz; split_and!; [done|lia|lia]]. }
  assert (stop * PAGE_SIZE / PAGE_SIZE = stop ∧ start * PAGE_SIZE / PAGE_SIZE = start) as [E1 E2] by (split; by apply Z.div_mul).
  destruct (Z.leb_spec (stop * PAGE_SIZE) (start * PAGE_SIZE)) as [Hemp|Hne].
  - split_and!; [done|done|]. intros f. rewrite Hu. split; [by left|]. intros [|[_ H]]; [done|]. unfold PAGE_SIZE in Hemp. lia.
  - rewrite E1, E2. destruct (sets_range usable_frame false (Z.to_nat start) (Z.to_nat stop) a usable_sets Hw) as (A1 & A2 & A3).
    split_and!; [done|done|]. intros f. rewrite !elem_of_free, A2, Hu. split.
    + intros [Hf Ha]. rewrite (A3 f Hf) in Ha. case_decide; [by right|by left].
    + intros [[Hf Ha]|[Hf Ha]]; (split; [done|]); rewrite (A3 f Hf); case_decide; done.
Qed.

Lemma reserve_range_spec a s e : allocator_wf a → 0 ≤ s → 0 ≤ e ≤ U64_MAX - (PAGE_SIZE - 1) →
  let a' := reserve_range s e a in
  allocator_wf a' ∧ frame_count a' = frame_count a ∧ ∀ f, f ∈ free_set a' ↔ f ∈ free_set a ∧ ¬ touched_by (s, e) f.
Proof.
  intros Hw Hs He. unfold reserve_range. destruct (Z.leb_spec e s) as [Hle|Hlt].
  { split_and!; [done|done|]. intros f. unfold touched_by. simpl. naive_solver lia. }
  rewrite align_up_page by lia. destruct (Z.leb_spec e (U64_MAX - (PAGE_SIZE - 1))); [|lia]. rewrite Z.div_mul by done.
  set (stop := (e + (PAGE_SIZE - 1)) / PAGE_SIZE).
  destruct (sets_range reserve_frame true (Z.to_nat (s / PAGE_SIZE)) (Z.to_nat stop) a reserve_sets Hw) as (A1 & A2 & A3).
  split_and!; [done|done|]. intros f. rewrite !elem_of_free, A2.
  assert (touched_by (s, e) f ↔ (Z.to_nat (s / PAGE_SIZE) ≤ f < Z.to_nat stop)%nat) as Ht.
  { unfold touched_by. simpl. rewrite <- page_index_up by done. unfold stop, frame_address, PAGE_SIZE.
    pose proof (Z.div_mod (e + (4096 - 1)) 4096 ltac:(lia)). pose proof (Z.mod_pos_bound (e + (4096 - 1)) 4096 ltac:(lia)). lia. }
  rewrite Ht. split.
  - intros [Hf Ha]. rewrite (A3 f Hf) in Ha. case_decide; done.
  - intros [[Hf Ha] Hn]. split; [done|]. rewrite (A3 f Hf). by rewrite decide_False.
Qed.

Lemma usable_regions_spec maximum_address rs : 0 ≤ maximum_address →
  Forall (λ r, 0 ≤ rgn_start r ∧ 0 ≤ rgn_end r) rs → ∀ a, allocator_wf a →
  let a' := foldl (usable_region maximum_address) a rs in
  allocator_wf a' ∧ frame_count a' = frame_count a ∧
  ∀ f, f ∈ free_set a' ↔ f ∈ free_set a ∨ (f < frame_count a)%nat ∧ ∃ r, r ∈ rs ∧ usable_by maximum_address r f.
Proof.
  intros Hm. induction 1 as [|r rs [H1 H2] _ IH]; intros a Hw; simpl.
  { split_and!; [done|done|]. intros f. split; [by left|]. intros [|[_ (r & Hr & _)]]; [done|]. by apply not_elem_of_nil in Hr. }
  destruct (usable_region_spec maximum_address a r Hw H1 H2 Hm) as (A1 & A2 & A3). destruct (IH _ A1) as (B1 & B2 & B3).
  split_and!; [done|congruence|]. intros f. rewrite B3, A3, A2. setoid_rewrite elem_of_cons. naive_solver.
Qed.

(** A reservation that is not honoured changes nothing at all. *)
Lemma reservation_dropped a s e : 0 ≤ e → ¬ honoured (s, e) → reserve_range s e a = a.
Proof.
  unfold honoured. simpl. intros H0 He. unfold reserve_range. destruct (e <=? s); [done|].
  rewrite align_up_page by done. by rewrite (proj2 (Z.leb_gt _ _)) by lia.
Qed.

Lemma reservations_spec rs : Forall (λ r : Z * Z, 0 ≤ r.1 ∧ 0 ≤ r.2) rs → ∀ a, allocator_wf a →
  let a' := apply_reservations rs a in
  allocator_wf a' ∧ frame_count a' = frame_count a ∧
  ∀ f, f ∈ free_set a' ↔ f ∈ free_set a ∧ ∀ r, r ∈ rs → honoured r → ¬ touched_by r f.
Proof.
  unfold apply_reservations. induction 1 as [|[s e] rs [H1 H2] _ IH]; intros a Hw; simpl.
  { split_and!; [done|done|]. intros f. split; [|naive_solver]. intros Hf. split; [done|]. intros r Hr. by apply not_elem_of_nil in Hr. }
  setoid_rewrite elem_of_cons. destruct (decide (e ≤ U64_MAX - (PAGE_SIZE - 1))) as [He|He].
  - destruct (reserve_range_spec a s e Hw H1 (conj H2 He)) as (A1 & A2 & A3). destruct (IH _ A1) as (B1 & B2 & B3).
    split_and!; [done|congruence|]. intros f. rewrite B3, A3. assert (honoured (s, e)) by done. naive_solver.
  - rewrite reservation_dropped by done. destruct (IH _ Hw) as (B1 & B2 & B3).
    split_and!; [done|done|]. intros f. rewrite B3. assert (¬ honoured (s, e)) by done. naive_solver.
Qed.

Lemma all_set_bits n i : (i < n)%nat → bit_is_set (replicate (words_for_frames n) U64_MAX) i = true.
Proof.
  intros Hi. rewrite bit_is_set_testbit. rewrite (slot_at_Some _ _ _ U64_MAX) by (apply lookup_replicate; split; [done|by apply word_covers]).
  change U64_MAX with (Z.ones 64). apply Z.ones_spec_low. pose proof (Nat.mod_upper_bound i BITS_PER_WORD ltac:(done)).
  unfold BITS_PER_WORD in *. lia.
Qed.

Lemma blank_wf n : Z.of_nat n ≤ 2 ^ 52 →
  allocator_wf (mkAllocator (replicate (words_for_frames n) U64_MAX) (replicate (words_for_frames n) U64_MAX) n 0 0) ∧
  free_set (mkAllocator (replicate (words_for_frames n) U64_MAX) (replicate (words_for_frames n) U64_MAX) n 0 0) = ∅.
Proof.
  intros Hn. set (a := mkAllocator _ _ _ _ _). assert (free_set a = ∅) as Hempty.
  { apply set_eq. intros i. rewrite elem_of_free, elem_of_empty. split; [|done]. intros [Hi Ha]. unfold is_allocated, a in Ha. simpl in Ha.
    by rewrite all_set_bits in Ha. }
  split; [|done]. split; simpl; try done.
  - unfold sized. simpl. by rewrite length_replicate.
  - symmetry. by apply free_count_zero.
  - destruct n; [by right|left; lia].
Qed.

Lemma new_allocator_spec regions maximum_address storage_len a :
  0 ≤ maximum_address → Forall (λ r, 0 ≤ rgn_start r ∧ 0 ≤ rgn_end r) regions →
  new_allocator regions maximum_address storage_len = Ok a →
  allocator_wf a ∧ ∀ f, f ∈ free_set a ↔ ∃ r, r ∈ regions ∧ usable_by maximum_address r f.
Proof.
  intros Hm Hr. unfold new_allocator, frames_below.
  destruct (checked_add U64_MAX maximum_address (PAGE_SIZE - 1)) as [x|] eqn:E; [|done]. apply checked_add_Some in E as [-> E].
  set (n := Z.to_nat ((maximum_address + (PAGE_SIZE - 1)) / PAGE_SIZE)).
  pose proof (Z.div_mod (maximum_address + (PAGE_SIZE - 1)) PAGE_SIZE ltac:(done)) as Hd.
  pose proof (Z.mod_pos_bound (maximum_address + (PAGE_SIZE - 1)) PAGE_SIZE ltac:(done)) as Hmod.
  assert (Z.of_nat n ≤ 2 ^ 52) as Hn. { unfold n, PAGE_SIZE, U64_MAX in *. lia. }
  destruct (_ <? _)%nat; [done|]. intros [= <-]. destruct (blank_wf n Hn) as [Hw Hempty].
  destruct (usable_regions_spec maximum_address regions Hm Hr _ Hw) as (A1 & A2 & A3). split; [done|].
  intros f. rewrite A3, Hempty. split; [intros [Hf|[_ Hf]]; [by apply elem_of_empty in Hf|done]|].
  intros Hf. right. split; [|done]. destruct Hf as (r & _ & _ & _ & Htop). unfold n, frame_address, PAGE_SIZE in *. simpl. lia.
Qed.

(** ** Properties *)

(** C22. The allocator refines a set of free frames: over every sequence of
    single and contiguous allocations and releases, an allocation gives out
    exactly a free frame or an aligned run of free frames, and fails only when
    there is none; a release gives back exactly the named run, and is refused,
    changing nothing, exactly for the reason it reports. *)
Theorem frame_allocator_refines ops a :
  allocator_wf a → Forall op_typed ops →
  spec_run (frame_count a) (is_reserved a) (free_set a) ops (run_ops ops a).1 (free_set (run_ops ops a).2) ∧
  allocator_wf (run_ops ops a).2.
Proof.
  intros Hw Ht. revert a Hw. induction Ht as [|op ops Hop _ IH]; intros a Hw; simpl; [split; [constructor|done]|].
  destruct (step_refines op a Hw Hop) as (S1 & S2 & S3 & S4). destruct (step op a) as [out a1]. simpl in *.
  specialize (IH a1 S2). destruct (run_ops ops a1) as [outs a2]. simpl in *. destruct IH as [I1 I2]. split; [|done].
  econstructor; [exact S1|]. rewrite S3 in I1. unfold is_reserved in I1. by rewrite S4 in I1.
Qed.

(** C23. At boot, for any memory map and any reservations, the free frames are
    exactly those that lie wholly inside a usable region of the memory map below
    the managed limit and that no honoured reservation touches, a reservation
    being honoured when its end rounds up to a page within 64 bits (the others
    have no effect); the count of free frames and the bitmaps agree. *)
Theorem frame_boot_exact regions maximum_address storage_len reservations a0 :
  0 ≤ maximum_address → Forall (λ r, 0 ≤ rgn_start r ∧ 0 ≤ rgn_end r) regions →
  Forall (λ r : Z * Z, 0 ≤ r.1 ∧ 0 ≤ r.2) reservations →
  new_allocator regions maximum_address storage_len = Ok a0 →
  allocator_wf (apply_reservations reservations a0) ∧
  ∀ f, f ∈ free_set (apply_reservations reservations a0) ↔
    (∃ r, r ∈ regions ∧ usable_by maximum_address r f) ∧
    ∀ r, r ∈ reservations → honoured r → ¬ touched_by r f.
Proof.
  intros Hm Hr Hs Hnew. destruct (new_allocator_spec regions maximum_address storage_len a0 Hm Hr Hnew) as [Hw Hf].
  destruct (reservations_spec reservations Hs a0 Hw) as (A1 & _ & A3). split; [done|]. intros f. by rewrite A3, Hf.
Qed.

Definition demo_regions : list MemoryRegion := [mkRegion 0 0x9f000 Usable; mkRegion 0x9f000 0x100000 Reserved; mkRegion 0x100000 0x140800 Usable].
Definition demo_reservations : list (Z * Z) := [(0, 0x2000); (0x100800, 0x103000)].
Definition demo_frames : BitmapFrameAllocator :=
  match new_allocator demo_regions 0x140000 16 with Ok a => apply_reservations demo_reservations a | Err _ => mkAllocator [] [] 0 0 0 end.

Lemma demo_boot : ∃ a, new_allocator demo_regions 0x140000 16 = Ok a ∧ demo_frames = apply_reservations demo_reservations a.
Proof. eexists. split; vm_compute; done. Qed.

Lemma demo_regions_ok : Forall (λ r, 0 ≤ rgn_start r ∧ 0 ≤ rgn_end r) demo_regions.
Proof. unfold demo_regions. repeat (apply Forall_cons_2; [simpl; lia|]). apply Forall_nil_2. Qed.
Lemma demo_reservations_ok : Forall (λ r : Z * Z, 0 ≤ r.1 ∧ 0 ≤ r.2) demo_reservations.
Proof. unfold demo_reservations. repeat (apply Forall_cons_2; [simpl; lia|]). apply Forall_nil_2. Qed.

Lemma demo_frames_wf : allocator_wf demo_frames.
Proof.
  destruct demo_boot as (a & Hn & ->). destruct (new_allocator_spec _ 0x140000 _ _ ltac:(lia) demo_regions_ok Hn) as [Hw _].
  apply (reservations_spec _ demo_reservations_ok _ Hw).
Qed.

Definition demo_ops : list Op := [Alloc; AllocRun 3 4; Release 0x4000 3; Release 0x4000 1; AllocRun 200 1].

Lemma frame_allocator_refines_witness :
  spec_run (frame_count demo_frames) (is_reserved demo_frames) (free_set demo_frames) demo_ops
    (run_ops demo_ops demo_frames).1 (free_set (run_ops demo_ops demo_frames).2) ∧ allocator_wf (run_ops demo_ops demo_frames).2.
Proof.
  apply (frame_allocator_refines demo_ops demo_frames); [exact demo_frames_wf|].
  unfold demo_ops. repeat (apply Forall_cons_2; [simpl; unfold U64_MAX; done || lia|]). apply Forall_nil_2.
Defined.

Definition demo_a0 : BitmapFrameAllocator :=
  match new_allocator demo_regions 0x140000 16 with Ok a => a | Err _ => mkAllocator [] [] 0 0 0 end.

(** A third reservation, dropped because its end is in the last page. *)
Definition demo_all_reservations : list (Z * Z) := demo_reservations ++ [(0x104000, U64_MAX)].

Lemma frame_boot_exact_witness :
  allocator_wf (apply_reservations demo_all_reservations demo_a0) ∧
  ∀ f, f ∈ free_set (apply_reservations demo_all_reservations demo_a0) ↔
    (∃ r, r ∈ demo_regions ∧ usable_by 0x140000 r f) ∧
    ∀ r, r ∈ demo_all_reservations → honoured r → ¬ touched_by r f.
Proof.
  apply (frame_boot_exact demo_regions 0x140000 16 demo_all_reservations demo_a0);
    [lia|exact demo_regions_ok| |by vm_compute].
  unfold demo_all_reservations. apply Forall_app. split; [exact demo_reservations_ok|].
  apply Forall_singleton. unfold U64_MAX. simpl. lia.
Defined.
