(* ===== verification/Wp.v ===== *)
(** * Postconditions of stateful computations

    A computation of the state and error monad against a postcondition for its
    result and one for its error, with one rule per combinator. *)

From stdpp Require Import prelude.
From S2P Require Import Prelude.

Definition wp {S E A} (m : M S E A) (Q : A → S → Prop) (R : E → S → Prop) (s : S) : Prop :=
  match m s with (Ok a, s') => Q a s' | (Err e, s') => R e s' end.

Section Rules.
Context {S E : Type}.
Implicit Types (s : S) (R : E → S → Prop).

Lemma wp_run {A} (m : M S E A) Q R s r s' : wp m Q R s → m s = (r, s') → match r with Ok a => Q a s' | Err e => R e s' end.
Proof. unfold wp. intros H Hm. rewrite Hm in H. by destruct r. Qed.

Lemma wp_of_run {A} (m : M S E A) (Q : A → S → Prop) R s a s' : m s = (Ok a, s') → Q a s' → wp m Q R s.
Proof. unfold wp. by intros ->. Qed.

Lemma wp_mono {A} (m : M S E A) (Q Q' : A → S → Prop) R R' s :
  wp m Q R s → (∀ a s', Q a s' → Q' a s') → (∀ e s', R e s' → R' e s') → wp m Q' R' s.
Proof. unfold wp. destruct (m s) as [[] ?]; auto. Qed.

Lemma wp_ret {A} (a : A) (Q : A → S → Prop) R s : Q a s → wp (mret a) Q R s.
Proof. done. Qed.

Lemma wp_throw {A} e (Q : A → S → Prop) R s : R e s → wp (throw e) Q R s.
Proof. done. Qed.

Lemma wp_bind {A B} (m : M S E A) (k : A → M S E B) Q R s :
  wp m (λ a, wp (k a) Q R) R s → wp (m ≫= k) Q R s.
Proof. unfold wp, mbind, M_bind. destruct (m s) as [[] ?]; done. Qed.

(** Sequencing when the first part is described by its run. *)
Lemma wp_bind_run {A B} (m : M S E A) (k : A → M S E B) Q R s a s' : m s = (Ok a, s') → wp (k a) Q R s' → wp (m ≫= k) Q R s.
Proof. intros H. unfold wp, mbind, M_bind. by rewrite H. Qed.

Lemma wp_assoc {A B C} (m : M S E A) (k : A → M S E B) (h : B → M S E C) Q R s :
  wp ((m ≫= k) ≫= h) Q R s → wp (m ≫= λ a, k a ≫= h) Q R s.
Proof. unfold wp, mbind, M_bind. destruct (m s) as [[] ?]; done. Qed.

Lemma wp_getS Q R s : Q s s → wp (getS : M S E S) Q R s.
Proof. done. Qed.

Lemma wp_putS s' Q R s : Q tt s' → wp (putS s' : M S E unit) Q R s.
Proof. done. Qed.

Lemma wp_modifyS f Q R s : Q tt (f s) → wp (modifyS f : M S E unit) Q R s.
Proof. done. Qed.

Lemma wp_ensure b (e : E) Q R s : (b = true → Q tt s) → (b = false → R e s) → wp (ensure b e) Q R s.
Proof. intros H1 H2. destruct b; [by apply H1|by apply H2]. Qed.

Lemma wp_ok_or {A} (o : option A) (e : E) Q R s : (∀ a, o = Some a → Q a s) → (o = None → R e s) → wp (ok_or o e) Q R s.
Proof. intros H1 H2. destruct o; [by apply H1|by apply H2]. Qed.

Lemma wp_of_result {A} (r : Result A E) Q R s : (∀ a, r = Ok a → Q a s) → (∀ e, r = Err e → R e s) → wp (of_result r) Q R s.
Proof. unfold wp, of_result. destruct r; auto. Qed.

(** An invariant that holds whatever the outcome. *)
Lemma wp_preserves {A} (m : M S E A) (I : S → Prop) s : wp m (λ _, I) (λ _, I) s → I (m s).2.
Proof. unfold wp. by destruct (m s) as [[] ?]. Qed.

End Rules.

(** One step of a computation. *)
Ltac wp_step :=
  lazymatch goal with
  | |- wp (mret _) _ _ _ => apply wp_ret
  | |- wp (throw _) _ _ _ => apply wp_throw
  | |- wp (_ ≫= _) _ _ _ => apply wp_bind
  | |- wp getS _ _ _ => apply wp_getS
  | |- wp (putS _) _ _ _ => apply wp_putS
  | |- wp (modifyS _) _ _ _ => apply wp_modifyS
  | |- wp (ensure _ _) _ _ _ => apply wp_ensure; [intros ?|intros ?]
  | |- wp (ok_or _ _) _ _ _ => apply wp_ok_or; [intros ? ?|intros ?]
  | |- wp (of_result _) _ _ _ => apply wp_of_result; intros ? ?
  | |- wp (if ?b then _ else _) _ _ _ => destruct b eqn:?
  end; cbv beta.
