(* ===== verification/AddressSpace.v ===== *)
(** * Process address spaces: process/x86_64.rs

    The pool of user address spaces: hardware page tables in allocator-owned
    frames, a ledger of the frames and pages of every process, memory shared
    between processes, and the operations that stage, commit, grow, protect and
    release an address space. Physical memory is reached through the trait
    [ProcessFrameMemory], here the class [FrameMemory]. *)

From stdpp Require Import prelude list numbers.
From Stdlib Require Import ZArith Lia.
From S2P Require Import Prelude.

Definition PAGE_SIZE : Z := 4096.
Definition PAGE_ADDRESS_MASK : Z := 0x000ffffffffff000.
Definition ENTRY_PRESENT : Z := Z.shiftl 1 0.
Definition ENTRY_WRITABLE : Z := Z.shiftl 1 1.
Definition ENTRY_USER : Z := Z.shiftl 1 2.
Definition ENTRY_ACCESSED : Z := Z.shiftl 1 5.
Definition ENTRY_DIRTY : Z := Z.shiftl 1 6.
Definition ENTRY_HUGE : Z := Z.shiftl 1 7.
Definition ENTRY_NO_EXECUTE : Z := Z.shiftl 1 63.
Definition USER_PML4_ENTRIES : Z := 256.
Definition TABLE_ENTRIES : Z := 512.
Definition USER_LIMIT : Z := 0x0000800000000000.

(** The sizes of the fixed pools, which the source chooses by [cfg!(test)]. *)
Record Config := mkConfig {
  MAXIMUM_PROCESS_PAGES : nat;
  MAXIMUM_OWNED_FRAMES : nat;
  MAXIMUM_RETAINED_PROCESSES : nat;
}.
Definition kernel_config : Config := mkConfig (32 * 1024) (32 * 1024 + 512) 16.
Definition test_config : Config := mkConfig 1024 1088 2.

Definition MAXIMUM_PROCESS_SEGMENTS : nat := 64.
Definition INITIAL_USER_STACK_BASE : Z := 0x00400000.
Definition LINUX_MMAP_BASE : Z := 0x000040000000.
Definition LINUX_MMAP_MAXIMUM_BYTES : Z := 16 * 1024 * 1024.
Definition MAXIMUM_SHARED_BACKINGS : nat := 32.
Definition MAXIMUM_MEMFD_BYTES : Z := 1024 * 1024.
Definition MAXIMUM_SHARED_PAGES : nat := 256.
Definition LINUX_BRK_BASE : Z := 0x000020000000.
Definition LINUX_BRK_MAXIMUM_BYTES : Z := 16 * 1024 * 1024.

(** The trait [ProcessFrameMemory]. *)
Class FrameMemory (Mem E : Type) := {
  allocate_zeroed : M Mem E Z;
  release : Z → M Mem E unit;
  read_entry : Z → Z → Mem → Result Z E;
  write_entry : Z → Z → Z → M Mem E unit;
  write_bytes : Z → Z → list Z → M Mem E unit;
}.

Inductive FrameBackedError (E : Type) :=
| Memory (e : E)
| InvalidState
| InvalidHandle
| InvalidRange
| InvalidUserRange
| InvalidPhysicalFrame
| CapacityExceeded
| MappingConflict
| CorruptHierarchy
| UnsupportedPermissions
| ActivationFailed
| RestoreFailed
| ActiveProcess.
Arguments Memory {E}.
Arguments InvalidState {E}.
Arguments InvalidHandle {E}.
Arguments InvalidRange {E}.
Arguments InvalidUserRange {E}.
Arguments InvalidPhysicalFrame {E}.
Arguments CapacityExceeded {E}.
Arguments MappingConflict {E}.
Arguments CorruptHierarchy {E}.
Arguments UnsupportedPermissions {E}.
Arguments ActivationFailed {E}.
Arguments RestoreFailed {E}.
Arguments ActiveProcess {E}.

Record MappingPermissions := mkPermissions { readable : bool; writable : bool; executable : bool }.

#[global] Instance MappingPermissions_eq_dec : EqDecision MappingPermissions.
Proof. solve_decision. Defined.

Record MappingRecord := mkMapping {
  occupied : bool;
  sealed : bool;
  releasable : bool;
  heap : bool;
  mp_generation : Z;
  mp_address : Z;
  memory_size : Z;
  first_page : nat;
  mp_page_count : nat;
  permissions : MappingPermissions;
  shared_identity : Z;
  shared_page_offset : nat;
}.
Definition NO_PERMISSIONS : MappingPermissions := mkPermissions false false false.
Definition EMPTY_MAPPING : MappingRecord := mkMapping false false false false 0 0 0 0 0 NO_PERMISSIONS 0 0.

Record SharedBacking := mkBacking {
  sb_occupied : bool;
  descriptor_open : bool;
  identity : Z;
  size_bytes : Z;
  allocated_pages : nat;
  mapping_references : nat;
  frames : list Z;
}.
Definition EMPTY_BACKING : SharedBacking := mkBacking false false 0 0 0 0 (replicate MAXIMUM_SHARED_PAGES 0).

Record PageRecord := mkPage { frame : Z; pg_address : Z }.
Definition EMPTY_PAGE : PageRecord := mkPage 0 0.

Inductive SpacePhase := Free | Staging | Committed.

#[global] Instance SpacePhase_eq_dec : EqDecision SpacePhase.
Proof. solve_decision. Defined.

Record ProcessImageInfo := mkInfo {
  entry_point : Z;
  segment_count : nat;
  address_space_root : option Z;
  info_owned_frames : nat;
  initial_stack_pointer : option Z;
}.
Definition NO_INFO : ProcessImageInfo := mkInfo 0 0 None 0 None.

Record FrameBackedSlot := mkSlot {
  phase : SpacePhase;
  root : option Z;
  generation : Z;
  image_start : Z;
  image_end : Z;
  mappings : list MappingRecord;
  mapping_count : nat;
  pages : list PageRecord;
  page_count : nat;
  owned_frames : list Z;
  owned_frame_count : nat;
  initial_stack_pages : nat;
  heap_break : Z;
  process_info : ProcessImageInfo;
}.

Definition EMPTY_SLOT (cfg : Config) : FrameBackedSlot :=
  mkSlot Free None 0 0 0 (replicate MAXIMUM_PROCESS_SEGMENTS EMPTY_MAPPING) 0 (replicate (MAXIMUM_PROCESS_PAGES cfg) EMPTY_PAGE) 0
    (replicate (MAXIMUM_OWNED_FRAMES cfg) 0) 0 0 LINUX_BRK_BASE NO_INFO.

Record FrameBackedSpace := mkSpace { sp_slot : nat; sp_generation : Z }.
Record FrameBackedMapping := mkHandle { space_slot : nat; hd_slot : nat; hd_generation : Z }.
Record ProcessImageHandle := mkProcess { ph_slot : nat; ph_generation : Z }.

(** Field updates of a slot. *)
Definition with_phase (x : SpacePhase) (s : FrameBackedSlot) : FrameBackedSlot :=
  mkSlot x (root s) (generation s) (image_start s) (image_end s) (mappings s) (mapping_count s) (pages s) (page_count s)
    (owned_frames s) (owned_frame_count s) (initial_stack_pages s) (heap_break s) (process_info s).
Definition with_root (x : option Z) (s : FrameBackedSlot) : FrameBackedSlot :=
  mkSlot (phase s) x (generation s) (image_start s) (image_end s) (mappings s) (mapping_count s) (pages s) (page_count s)
    (owned_frames s) (owned_frame_count s) (initial_stack_pages s) (heap_break s) (process_info s).
Definition with_image (g a b : Z) (s : FrameBackedSlot) : FrameBackedSlot :=
  mkSlot (phase s) (root s) g a b (mappings s) (mapping_count s) (pages s) (page_count s)
    (owned_frames s) (owned_frame_count s) (initial_stack_pages s) (heap_break s) (process_info s).
Definition with_mappings (l : list MappingRecord) (n : nat) (s : FrameBackedSlot) : FrameBackedSlot :=
  mkSlot (phase s) (root s) (generation s) (image_start s) (image_end s) l n (pages s) (page_count s)
    (owned_frames s) (owned_frame_count s) (initial_stack_pages s) (heap_break s) (process_info s).
Definition with_pages (l : list PageRecord) (n : nat) (s : FrameBackedSlot) : FrameBackedSlot :=
  mkSlot (phase s) (root s) (generation s) (image_start s) (image_end s) (mappings s) (mapping_count s) l n
    (owned_frames s) (owned_frame_count s) (initial_stack_pages s) (heap_break s) (process_info s).
Definition with_owned (l : list Z) (n : nat) (s : FrameBackedSlot) : FrameBackedSlot :=
  mkSlot (phase s) (root s) (generation s) (image_start s) (image_end s) (mappings s) (mapping_count s) (pages s) (page_count s)
    l n (initial_stack_pages s) (heap_break s) (process_info s).
Definition with_heap (stack : nat) (x : Z) (s : FrameBackedSlot) : FrameBackedSlot :=
  mkSlot (phase s) (root s) (generation s) (image_start s) (image_end s) (mappings s) (mapping_count s) (pages s) (page_count s)
    (owned_frames s) (owned_frame_count s) stack x (process_info s).
Definition with_info (x : ProcessImageInfo) (s : FrameBackedSlot) : FrameBackedSlot :=
  mkSlot (phase s) (root s) (generation s) (image_start s) (image_end s) (mappings s) (mapping_count s) (pages s) (page_count s)
    (owned_frames s) (owned_frame_count s) (initial_stack_pages s) (heap_break s) x.
Definition count_owned (s : FrameBackedSlot) : FrameBackedSlot :=
  let i := process_info s in
  with_info (mkInfo (entry_point i) (segment_count i) (address_space_root i) (owned_frame_count s) (initial_stack_pointer i)) s.
Definition set_page (k : nat) (p : PageRecord) (s : FrameBackedSlot) : FrameBackedSlot := with_pages (<[k := p]> (pages s)) (page_count s) s.
Definition set_mapping (k : nat) (m : MappingRecord) (s : FrameBackedSlot) : FrameBackedSlot :=
  with_mappings (<[k := m]> (mappings s)) (mapping_count s) s.

(** The value of an empty ledger. *)
Definition reset (cfg : Config) (s : FrameBackedSlot) : FrameBackedSlot :=
  mkSlot (phase s) (root s) (generation s) (image_start s) (image_end s) (replicate MAXIMUM_PROCESS_SEGMENTS EMPTY_MAPPING) 0
    (replicate (MAXIMUM_PROCESS_PAGES cfg) EMPTY_PAGE) 0 (owned_frames s) (owned_frame_count s) 0 LINUX_BRK_BASE NO_INFO.

Record FrameBackedAddressSpace (Mem : Type) := mkAddressSpace {
  memory : Mem;
  kernel_root : Z;
  active_slot : option nat;
  slots : list FrameBackedSlot;
  shared : list SharedBacking;
}.
Arguments mkAddressSpace {Mem}.
Arguments memory {Mem}.
Arguments kernel_root {Mem}.
Arguments active_slot {Mem}.
Arguments slots {Mem}.
Arguments shared {Mem}.

(** ** Entries *)

Definition user_mapping_entry (f : Z) (p : MappingPermissions) : Z :=
  Z.lor (Z.lor (Z.lor (Z.lor f ENTRY_USER) (if readable p then ENTRY_PRESENT else 0))
    (if writable p then ENTRY_WRITABLE else 0)) (if executable p then 0 else ENTRY_NO_EXECUTE).

Definition replace_user_mapping_permissions (entry : Z) (p : MappingPermissions) : Z :=
  Z.lor (Z.lor (Z.lor (and_not entry (Z.lor (Z.lor ENTRY_PRESENT ENTRY_WRITABLE) ENTRY_NO_EXECUTE))
    (if readable p then ENTRY_PRESENT else 0)) (if writable p then ENTRY_WRITABLE else 0))
    (if executable p then 0 else ENTRY_NO_EXECUTE).

Definition normalized_user_mapping_entry (entry : Z) : Z := and_not entry (Z.lor ENTRY_ACCESSED ENTRY_DIRTY).

Definition page_index (address shift : Z) : Z := Z.land (Z.shiftr address shift) 0x1ff.

Definition page_indices {E} (address : Z) : Result (list Z) (FrameBackedError E) :=
  if USER_LIMIT <=? address then Err InvalidUserRange else Ok (page_index address <$> [39; 30; 21; 12]).

Definition ranges_overlap (left_start left_end right_start right_size : Z) : bool :=
  match checked_add U64_MAX right_start right_size with
  | None => true
  | Some right_end => (left_start <? right_end) && (right_start <? left_end)
  end.

Definition next_generation (g : Z) : Z := let next := wrapping_add U32_MAX g 1 in if next =? 0 then 1 else next.

Definition is_page_aligned (p : Z) : bool := Z.land p (PAGE_SIZE - 1) =? 0.

(** [u16::try_from] *)
Definition try_u16 (n : nat) : option nat := if Z.of_nat n <=? U16_MAX then Some n else None.

(** [length.checked_add(PAGE_SIZE - 1).map(|value| value & !(PAGE_SIZE - 1))] *)
Definition round_up_page (x : Z) : option Z :=
  match checked_add U64_MAX x (PAGE_SIZE - 1) with Some y => Some (and_not y (PAGE_SIZE - 1)) | None => None end.

Section Space.
Context {Mem E : Type} `{!FrameMemory Mem E} (cfg : Config).
Abbreviation SM := (M (FrameBackedAddressSpace Mem) (FrameBackedError E)).

Definition with_memory (x : Mem) (s : FrameBackedAddressSpace Mem) : FrameBackedAddressSpace Mem :=
  mkAddressSpace x (kernel_root s) (active_slot s) (slots s) (shared s).
Definition on_memory {A} (m : M Mem E A) : SM A := zoom memory with_memory Memory m.
Definition read_table (t i : Z) : SM Z := s ← getS; of_result (map_err Memory (read_entry t i (memory s))).

Definition the_slot (i : nat) (s : FrameBackedAddressSpace Mem) : FrameBackedSlot := slot_at (EMPTY_SLOT cfg) (slots s) i.
Definition update_slot (i : nat) (f : FrameBackedSlot → FrameBackedSlot) (s : FrameBackedAddressSpace Mem) : FrameBackedAddressSpace Mem :=
  mkAddressSpace (memory s) (kernel_root s) (active_slot s) (alter f i (slots s)) (shared s).
Definition on_slot (i : nat) (f : FrameBackedSlot → FrameBackedSlot) : SM unit := modifyS (update_slot i f).
Definition get_slot (i : nat) : SM FrameBackedSlot := s ← getS; mret (the_slot i s).
Definition set_active (x : option nat) : SM unit :=
  modifyS (λ s, mkAddressSpace (memory s) (kernel_root s) x (slots s) (shared s)).

Definition the_backing (i : nat) (s : FrameBackedAddressSpace Mem) : SharedBacking := slot_at EMPTY_BACKING (shared s) i.
Definition update_backing (i : nat) (f : SharedBacking → SharedBacking) (s : FrameBackedAddressSpace Mem) : FrameBackedAddressSpace Mem :=
  mkAddressSpace (memory s) (kernel_root s) (active_slot s) (slots s) (alter f i (shared s)).
Definition on_backing (i : nat) (f : SharedBacking → SharedBacking) : SM unit := modifyS (update_backing i f).

(** [match m { Err(error) => { cleanup?; return Err(error) } ... }] *)
Definition or_undo {A} (m : SM A) (cleanup : SM unit) : SM A :=
  λ s, match m s with
       | (Ok a, s) => (Ok a, s)
       | (Err e, s) => match cleanup s with (Ok _, s) => (Err e, s) | (Err e', s) => (Err e', s) end
       end.

(** [FrameBackedAddressSpace::new] *)
Definition new_space (mem : Mem) (kroot : Z) : FrameBackedAddressSpace Mem :=
  mkAddressSpace mem kroot None (replicate (MAXIMUM_RETAINED_PROCESSES cfg) (EMPTY_SLOT cfg)) (replicate MAXIMUM_SHARED_BACKINGS EMPTY_BACKING).

(** ** Owned frames *)

Definition allocate_owned (i : nat) : SM Z :=
  slot ← get_slot i;
  ensure (negb (owned_frame_count slot =? length (owned_frames slot))%nat) CapacityExceeded;;
  f ← on_memory allocate_zeroed;
  if negb (is_page_aligned f) || negb (and_not f PAGE_ADDRESS_MASK =? 0) then
    on_memory (release f);; throw InvalidPhysicalFrame
  else
    on_slot i (λ s, with_owned (<[owned_frame_count s := f]> (owned_frames s)) (S (owned_frame_count s)) s);;
    mret f.

(** The loop of [release_owned]: the frames whose release failed, in order, and
    the first error. *)
Fixpoint release_each (fs : list Z) (mem : Mem) : list Z * option E * Mem :=
  match fs with
  | [] => ([], None, mem)
  | f :: fs =>
      match release f mem with
      | (Ok _, mem) => release_each fs mem
      | (Err e, mem) => let '(retained, _, mem) := release_each fs mem in (f :: retained, Some e, mem)
      end
  end.

Definition release_owned (i : nat) : SM unit :=
  s ← getS;
  let slot := the_slot i s in
  let '(retained, first_error, mem) := release_each (reverse (take (owned_frame_count slot) (owned_frames slot))) (memory s) in
  putS (with_memory mem s);;
  on_slot i (λ s, with_root None
    (with_owned (retained ++ replicate (MAXIMUM_OWNED_FRAMES cfg - length retained) 0) (length retained) s));;
  match first_error with Some e => throw (Memory e) | None => mret tt end.

Definition release_last_owned (i : nat) (f : Z) : SM unit :=
  slot ← get_slot i;
  match owned_frame_count slot with
  | O => throw CorruptHierarchy
  | S last =>
      ensure (slot_at 0 (owned_frames slot) last =? f) CorruptHierarchy;;
      on_memory (release f);;
      on_slot i (λ s, with_owned (<[last := 0]> (owned_frames s)) last s)
  end.

Definition release_owned_frame (i : nat) (f : Z) : SM unit :=
  slot ← get_slot i;
  k ← ok_or (position (Z.eqb f) (take (owned_frame_count slot) (owned_frames slot))) CorruptHierarchy;
  on_memory (release f);;
  on_slot i (λ s,
    let last := (owned_frame_count s - 1)%nat in
    with_owned (<[last := 0]> (<[k := slot_at 0 (owned_frames s) last]> (owned_frames s))) last s).

(** ** The hierarchy *)

(** [for index in &indices[..3]] of [ensure_leaf_slot]. *)
Fixpoint ensure_tables (i : nat) (indices : list Z) (table : Z) : SM Z :=
  match indices with
  | [] => mret table
  | index :: indices =>
      entry ← read_table table index;
      if negb (Z.land entry ENTRY_PRESENT =? 0) then
        ensure (Z.land entry ENTRY_HUGE =? 0) MappingConflict;;
        ensure_tables i indices (Z.land entry PAGE_ADDRESS_MASK)
      else
        next ← allocate_owned i;
        on_memory (write_entry table index (Z.lor (Z.lor (Z.lor next ENTRY_PRESENT) ENTRY_WRITABLE) ENTRY_USER));;
        ensure_tables i indices next
  end.

Definition ensure_leaf_slot (i : nat) (address : Z) : SM (Z * Z) :=
  indices ← of_result (page_indices address);
  ensure (slot_at 0 indices 0 <? USER_PML4_ENTRIES) InvalidUserRange;;
  slot ← get_slot i;
  top ← ok_or (root slot) InvalidState;
  table ← ensure_tables i (take 3 indices) top;
  leaf ← read_table table (slot_at 0 indices 3);
  ensure (leaf =? 0) MappingConflict;;
  mret (table, slot_at 0 indices 3).

Fixpoint follow_tables (indices : list Z) (table : Z) : SM Z :=
  match indices with
  | [] => mret table
  | index :: indices =>
      entry ← read_table table index;
      ensure (negb ((Z.land entry ENTRY_PRESENT =? 0) || negb (Z.land entry ENTRY_HUGE =? 0))) CorruptHierarchy;;
      follow_tables indices (Z.land entry PAGE_ADDRESS_MASK)
  end.

Definition leaf_slot (i : nat) (address : Z) : SM (Z * Z) :=
  indices ← of_result (page_indices address);
  slot ← get_slot i;
  top ← ok_or (root slot) InvalidState;
  table ← follow_tables (take 3 indices) top;
  mret (table, slot_at 0 indices 3).

(** [for index in USER_PML4_ENTRIES..TABLE_ENTRIES]: the kernel half is shared
    by every root. *)
Fixpoint copy_kernel_half (n : nat) (index top : Z) : SM unit :=
  match n with
  | O => mret tt
  | S n =>
      s ← getS;
      entry ← read_table (kernel_root s) index;
      on_memory (write_entry top index entry);;
      copy_kernel_half n (index + 1) top
  end.

Definition initialize_root (i : nat) : SM unit :=
  top ← allocate_owned i;
  on_slot i (with_root (Some top));;
  copy_kernel_half 256 USER_PML4_ENTRIES top.

Definition reset_records (i : nat) : SM unit := on_slot i (reset cfg).

Definition cleanup_transaction (i : nat) : SM unit :=
  set_active None;;
  on_slot i (with_phase Free);;
  reset_records i;;
  release_owned i.

Definition process_slot (p : ProcessImageHandle) : SM nat :=
  s ← getS;
  match slots s !! ph_slot p with
  | Some slot =>
      ensure (bool_decide (phase slot = Committed) && (generation slot =? ph_generation p)) InvalidHandle;; mret (ph_slot p)
  | None => throw InvalidHandle
  end.

(** ** Staging an image *)

Definition begin (first last : Z) : SM FrameBackedSpace :=
  s ← getS;
  ensure (negb (bool_decide (is_Some (active_slot s)) || (last <=? first) || (USER_LIMIT <? last)
                || negb (is_page_aligned (kernel_root s)))) InvalidState;;
  i ← ok_or (position (λ slot, bool_decide (phase slot = Free) && (owned_frame_count slot =? 0)%nat) (slots s)) CapacityExceeded;
  on_slot i (λ slot, with_phase Staging (with_image (next_generation (generation slot)) first last slot));;
  set_active (Some i);;
  reset_records i;;
  or_undo (initialize_root i) (cleanup_transaction i);;
  slot ← get_slot i;
  mret (mkSpace i (generation slot)).

(** [for page in 0..pages_needed] of [map_zeroed]. *)
Fixpoint map_zeroed_loop (n : nat) (i : nat) (address : Z) (page : nat) : SM unit :=
  match n with
  | O => mret tt
  | S n =>
      va ← ok_or (checked_add U64_MAX address (Z.of_nat page * PAGE_SIZE)) InvalidRange;
      f ← allocate_owned i;
      _ ← ensure_leaf_slot i va;
      on_slot i (λ s, with_pages (<[page_count s := mkPage f va]> (pages s)) (S (page_count s)) s);;
      map_zeroed_loop n i address (S page)
  end.

Definition map_zeroed (space : FrameBackedSpace) (address size : Z) : SM FrameBackedMapping :=
  stop ← ok_or (checked_add U64_MAX address size) InvalidRange;
  let i := sp_slot space in
  s ← getS;
  slot ← ok_or (slots s !! i) InvalidHandle;
  ensure (bool_decide (active_slot s = Some i) && bool_decide (phase slot = Staging) && (sp_generation space =? generation slot)
          && negb (size =? 0) && (Z.land address (PAGE_SIZE - 1) =? 0) && (image_start slot <=? address) && (stop <=? image_end slot))
    InvalidRange;;
  let pages_needed := Z.to_nat ((size + (PAGE_SIZE - 1)) / PAGE_SIZE) in
  ensure (negb ((pages_needed =? 0)%nat || (U16_MAX <? Z.of_nat pages_needed)
                || (length (pages slot) <? page_count slot + pages_needed)%nat)) CapacityExceeded;;
  let k := mapping_count slot in
  ensure (k <? length (mappings slot))%nat CapacityExceeded;;
  let first := page_count slot in
  map_zeroed_loop pages_needed i address 0;;
  first ← ok_or (try_u16 first) CapacityExceeded;
  count ← ok_or (try_u16 pages_needed) CapacityExceeded;
  on_slot i (λ slot, with_mappings
    (<[k := mkMapping true false false false (generation slot) address size first count NO_PERMISSIONS 0 0]> (mappings slot))
    (S (mapping_count slot)) slot);;
  slot ← get_slot i;
  mret (mkHandle i k (generation slot)).

(** [self.mapping(mapping)] *)
Definition staged_mapping (h : FrameBackedMapping) : SM MappingRecord :=
  s ← getS;
  ensure (bool_decide (active_slot s = Some (space_slot h))) InvalidHandle;;
  match mappings (the_slot (space_slot h) s) !! hd_slot h with
  | Some record => ensure (occupied record && (mp_generation record =? hd_generation h)) InvalidHandle;; mret record
  | None => throw InvalidHandle
  end.

Definition frame_for_mapping_page (i : nat) (m : MappingRecord) (page : nat) : SM Z :=
  ensure (page <? mp_page_count m)%nat InvalidRange;;
  s ← getS;
  record ← ok_or (pages (the_slot i s) !! (first_page m + page)%nat) CorruptHierarchy;
  if shared_identity m =? 0 then mret (frame record)
  else
    k ← ok_or (position (λ b, sb_occupied b && (identity b =? shared_identity m)) (shared s)) CorruptHierarchy;
    let b := the_backing k s in
    let page := (shared_page_offset m + page)%nat in
    ensure (negb ((allocated_pages b <=? page)%nat || negb (slot_at 0 (frames b) page =? frame record))) CorruptHierarchy;;
    mret (frame record).

(** [while copied < bytes.len()]: a round copies at least one byte. *)
Fixpoint copy_into_loop (rounds i : nat) (m : MappingRecord) (offset : Z) (bytes : list Z) : SM unit :=
  match rounds, bytes with
  | S rounds, _ :: _ =>
      let within := offset mod PAGE_SIZE in
      let n := Nat.min (Z.to_nat (PAGE_SIZE - within)) (length bytes) in
      f ← frame_for_mapping_page i m (Z.to_nat (offset / PAGE_SIZE));
      on_memory (write_bytes f within (take n bytes));;
      copy_into_loop rounds i m (offset + Z.of_nat n) (drop n bytes)
  | _, _ => mret tt
  end.

Definition copy_into (h : FrameBackedMapping) (offset : Z) (bytes : list Z) : SM unit :=
  record ← staged_mapping h;
  ensure (negb (sealed record) && match checked_add U64_MAX offset (Z.of_nat (length bytes)) with
                                  | Some stop => stop <=? memory_size record | None => false end) InvalidRange;;
  copy_into_loop (length bytes) (space_slot h) record offset bytes.

(** [for page in 0..record.page_count] of [seal]. *)
Fixpoint seal_loop (n i : nat) (m : MappingRecord) (p : MappingPermissions) (page : nat) : SM unit :=
  match n with
  | O => mret tt
  | S n =>
      slot ← get_slot i;
      let record := slot_at EMPTY_PAGE (pages slot) (first_page m + page) in
      '(table, index) ← leaf_slot i (pg_address record);
      let entry := Z.lor (Z.lor (frame record) ENTRY_PRESENT) ENTRY_USER in
      let entry := if writable p then Z.lor entry ENTRY_WRITABLE else entry in
      let entry := if executable p then entry else Z.lor entry ENTRY_NO_EXECUTE in
      on_memory (write_entry table index entry);;
      seal_loop n i m p (S page)
  end.

Definition with_seal (p : MappingPermissions) (m : MappingRecord) : MappingRecord :=
  mkMapping (occupied m) true (releasable m) (heap m) (mp_generation m) (mp_address m) (memory_size m) (first_page m) (mp_page_count m)
    p (shared_identity m) (shared_page_offset m).

Definition seal (h : FrameBackedMapping) (p : MappingPermissions) : SM unit :=
  record ← staged_mapping h;
  let i := space_slot h in
  ensure (negb (sealed record || negb (readable p) || (writable p && executable p))) UnsupportedPermissions;;
  seal_loop (mp_page_count record) i record p 0;;
  on_slot i (λ s, with_mappings (alter (with_seal p) (hd_slot h) (mappings s)) (mapping_count s) s).

Definition commit (space : FrameBackedSpace) (entry : Z) (segments : nat) : SM ProcessImageHandle :=
  let i := sp_slot space in
  s ← getS;
  slot ← ok_or (slots s !! i) InvalidHandle;
  let used := take (mapping_count slot) (mappings slot) in
  ensure (bool_decide (active_slot s = Some i) && bool_decide (phase slot = Staging) && (sp_generation space =? generation slot)
          && negb (mapping_count slot =? 0)%nat && negb (segments =? 0)%nat && (segments <=? MAXIMUM_PROCESS_SEGMENTS)%nat
          && forallb sealed used
          && existsb (λ m, executable (permissions m) && (mp_address m <=? entry) && (entry <? mp_address m + memory_size m)) used)
    InvalidState;;
  top ← ok_or (root slot) InvalidState;
  set_active None;;
  on_slot i (λ slot, with_info (mkInfo entry segments (Some top) (owned_frame_count slot) None) (with_phase Committed slot));;
  slot ← get_slot i;
  mret (mkProcess i (generation slot)).

Definition abort (space : FrameBackedSpace) : SM unit :=
  s ← getS;
  ensure (bool_decide (active_slot s = Some (sp_slot space))
          && match slots s !! sp_slot space with
             | Some slot => bool_decide (phase slot = Staging) && (generation slot =? sp_generation space)
             | None => false
             end) InvalidHandle;;
  cleanup_transaction (sp_slot space).

(** ** Shared memory *)

Definition opened (id : Z) (b : SharedBacking) : bool := sb_occupied b && descriptor_open b && (identity b =? id).

Definition linux_shared_memory_create (id : Z) : SM unit :=
  s ← getS;
  ensure (negb ((id =? 0) || existsb (λ b, identity b =? id) (shared s))) InvalidHandle;;
  k ← ok_or (position (λ b, negb (sb_occupied b)) (shared s)) CapacityExceeded;
  on_backing k (λ _, mkBacking true true id 0 0 0 (replicate MAXIMUM_SHARED_PAGES 0)).

(** [while allocated_pages > keep]: [n] frames are released, from the end. *)
Fixpoint release_shared_frames (n k : nat) : SM unit :=
  match n with
  | O => mret tt
  | S n =>
      s ← getS;
      let last := (allocated_pages (the_backing k s) - 1)%nat in
      on_memory (release (slot_at 0 (frames (the_backing k s)) last));;
      on_backing k (λ b, mkBacking (sb_occupied b) (descriptor_open b) (identity b) (size_bytes b) (allocated_pages b - 1)
                           (mapping_references b) (<[last := 0]> (frames b)));;
      release_shared_frames n k
  end.

Definition shrink_shared (k keep : nat) : SM unit :=
  s ← getS; release_shared_frames (allocated_pages (the_backing k s) - keep) k.

Definition linux_shared_memory_resize (id expected size : Z) : SM unit :=
  ensure (size <=? MAXIMUM_MEMFD_BYTES) InvalidRange;;
  s ← getS;
  k ← ok_or (position (opened id) (shared s)) InvalidHandle;
  let b := the_backing k s in
  ensure (size_bytes b =? expected) InvalidState;;
  ensure (negb ((size <? expected) && negb (mapping_references b =? 0)%nat)) InvalidState;;
  shrink_shared k (Z.to_nat ((size + (PAGE_SIZE - 1)) / PAGE_SIZE));;
  on_backing k (λ b, mkBacking (sb_occupied b) (descriptor_open b) (identity b) size (allocated_pages b) (mapping_references b) (frames b)).

Definition release_shared_backing (k : nat) : SM unit :=
  shrink_shared k 0;;
  on_backing k (λ _, EMPTY_BACKING).

Definition with_references (n : nat) (b : SharedBacking) : SharedBacking :=
  mkBacking (sb_occupied b) (descriptor_open b) (identity b) (size_bytes b) (allocated_pages b) n (frames b).

Definition linux_shared_memory_close (id : Z) : SM unit :=
  s ← getS;
  k ← ok_or (position (opened id) (shared s)) InvalidHandle;
  if (mapping_references (the_backing k s) =? 0)%nat then release_shared_backing k
  else on_backing k (λ b, mkBacking (sb_occupied b) false (identity b) (size_bytes b) (allocated_pages b) (mapping_references b) (frames b)).

Definition drop_shared_mapping_reference (id : Z) : SM unit :=
  s ← getS;
  k ← ok_or (position (λ b, sb_occupied b && (identity b =? id)) (shared s)) CorruptHierarchy;
  match mapping_references (the_backing k s) with
  | O => throw CorruptHierarchy
  | S remaining =>
      if (remaining =? 0)%nat && negb (descriptor_open (the_backing k s)) then
        on_backing k (with_references remaining);;
        or_undo (release_shared_backing k) (on_backing k (with_references (S remaining)))
      else on_backing k (with_references remaining)
  end.

(** [while allocated_pages < required_pages] *)
Fixpoint grow_shared (n k before : nat) : SM unit :=
  match n with
  | O => mret tt
  | S n =>
      f ← or_undo (on_memory allocate_zeroed) (shrink_shared k before);
      if negb (is_page_aligned f) || negb (and_not f PAGE_ADDRESS_MASK =? 0) then
        on_memory (release f);; shrink_shared k before;; throw InvalidPhysicalFrame
      else
        on_backing k (λ b, mkBacking (sb_occupied b) (descriptor_open b) (identity b) (size_bytes b) (S (allocated_pages b))
                             (mapping_references b) (<[allocated_pages b := f]> (frames b)));;
        grow_shared n k before
  end.

Definition ensure_shared_frames (k required : nat) : SM unit :=
  s ← getS;
  let before := allocated_pages (the_backing k s) in
  grow_shared (required - before) k before.

(** ** Finding room *)

Definition page_free (p : PageRecord) : bool := pg_address p =? 0.

Definition free_page_run (slot : FrameBackedSlot) (n : nat) : option nat :=
  if (n =? 0)%nat || (length (pages slot) <? n)%nat then None
  else find_range (λ start, forallb page_free (take n (drop start (pages slot)))) 0 (S (length (pages slot) - n)).

Definition free_mapping (slot : FrameBackedSlot) : nat :=
  default (mapping_count slot) (find_range (λ k, negb (occupied (slot_at EMPTY_MAPPING (mappings slot) k))) 0 (mapping_count slot)).

(** The ranges that keep a mapping away: the heap arena, the mappings, the
    pages. *)
Definition obstacles (slot : FrameBackedSlot) : list (Z * Z) :=
  (LINUX_BRK_BASE, LINUX_BRK_MAXIMUM_BYTES) :: ((λ m, (mp_address m, memory_size m)) <$> filter (λ m, occupied m = true) (mappings slot))
  ++ ((λ p, (pg_address p, PAGE_SIZE)) <$> filter (λ p, page_free p = false) (pages slot)).

(** The greatest end of an overlapping obstacle; [Err] where an end does not
    fit 64 bits. *)
Fixpoint last_obstacle (candidate stop : Z) (l : list (Z * Z)) (next : option Z) : Result (option Z) (FrameBackedError E) :=
  match l with
  | [] => Ok next
  | (start, size) :: l =>
      if ranges_overlap candidate stop start size then
        match checked_add U64_MAX start size with
        | None => Err InvalidRange
        | Some e => last_obstacle candidate stop l (Some (match next with Some x => x `max` e | None => e end))
        end
      else last_obstacle candidate stop l next
  end.

(** Every round passes an obstacle for good; [None] is never reached. *)
Fixpoint find_base_loop (rounds : nat) (slot : FrameBackedSlot) (candidate len : Z) : option (Result Z (FrameBackedError E)) :=
  match rounds with
  | O => None
  | S rounds =>
      match checked_add U64_MAX candidate len with
      | None => Some (Err InvalidRange)
      | Some stop =>
          if USER_LIMIT <? stop then Some (Err CapacityExceeded)
          else
            match last_obstacle candidate stop (obstacles slot) None with
            | Err e => Some (Err e)
            | Ok None => Some (Ok candidate)
            | Ok (Some next) =>
                match round_up_page next with
                | None => Some (Err InvalidRange)
                | Some candidate => find_base_loop rounds slot candidate len
                end
            end
      end
  end.

Definition find_linux_mmap_base (slot : FrameBackedSlot) (hint len : Z) : option (Result Z (FrameBackedError E)) :=
  let candidate := if hint =? 0 then LINUX_MMAP_BASE else and_not hint (PAGE_SIZE - 1) in
  let candidate := if candidate <? PAGE_SIZE then LINUX_MMAP_BASE else candidate in
  find_base_loop (S (length (obstacles slot))) slot candidate len.

(** A loop that ran out of rounds would not return. *)
Definition returned {A} (r : option (Result A (FrameBackedError E))) : SM A :=
  match r with Some r => of_result r | None => throw InvalidState end.

(** ** Mapping memory at run time *)

(** [for page in 0..page_count]; [k] is the next page record. *)
Fixpoint rollback_linux_mapping_pages (n i k : nat) : SM unit :=
  match n with
  | O => mret tt
  | S n =>
      slot ← get_slot i;
      let record := slot_at EMPTY_PAGE (pages slot) k in
      if page_free record then rollback_linux_mapping_pages n i (S k)
      else
        '(table, index) ← leaf_slot i (pg_address record);
        on_memory (write_entry table index 0);;
        release_owned_frame i (frame record);;
        on_slot i (set_page k EMPTY_PAGE);;
        rollback_linux_mapping_pages n i (S k)
  end.

(** [for page in (0..mapped).rev()] *)
Fixpoint rollback_shared_mapping_pages (mapped i start : nat) : SM unit :=
  match mapped with
  | O => mret tt
  | S page =>
      slot ← get_slot i;
      let record := slot_at EMPTY_PAGE (pages slot) (start + page) in
      '(table, index) ← leaf_slot i (pg_address record);
      on_memory (write_entry table index 0);;
      on_slot i (set_page (start + page) EMPTY_PAGE);;
      rollback_shared_mapping_pages page i start
  end.

(** One page of a private mapping: the frame with its initial bytes, its leaf
    and its record; the pages mapped so far are given back where it fails. *)
Definition map_private_page (i start page : nat) (va : Z) (p : MappingPermissions) (bytes : list Z) : SM unit :=
  let undo := rollback_linux_mapping_pages page i start in
  '(table, index) ← or_undo (ensure_leaf_slot i va) undo;
  f ← or_undo (allocate_owned i) undo;
  (match bytes with
   | [] => mret tt
   | _ => or_undo (on_memory (write_bytes f 0 bytes)) (release_owned_frame i f;; undo)
   end);;
  or_undo (on_memory (write_entry table index (user_mapping_entry f p))) (release_owned_frame i f;; undo);;
  on_slot i (set_page (start + page) (mkPage f va)).

(** [for page in 0..pages_needed] *)
Fixpoint mmap_private_loop (n i start : nat) (base : Z) (p : MappingPermissions) (initialized : list Z) (page : nat) : SM unit :=
  match n with
  | O => mret tt
  | S n =>
      va ← or_undo (ok_or (checked_add U64_MAX base (Z.of_nat page * PAGE_SIZE)) InvalidRange) (rollback_linux_mapping_pages page i start);
      map_private_page i start page va p (take (Z.to_nat PAGE_SIZE) initialized);;
      mmap_private_loop n i start base p (drop (Z.to_nat PAGE_SIZE) initialized) (S page)
  end.

Definition install_mapping (k : nat) (m : MappingRecord) (last : nat) (s : FrameBackedSlot) : FrameBackedSlot :=
  with_pages (pages s) (Nat.max (page_count s) last)
    (with_mappings (<[k := m]> (mappings s)) (Nat.max (mapping_count s) (S k)) s).

Definition linux_mmap_private (process : ProcessImageHandle) (hint len : Z) (p : MappingPermissions) (initialized : list Z) : SM Z :=
  i ← process_slot process;
  s ← getS;
  ensure (negb (bool_decide (is_Some (active_slot s)) || (len =? 0) || (LINUX_MMAP_MAXIMUM_BYTES <? len)
                || negb (readable p) || (writable p && executable p))) InvalidRange;;
  len ← ok_or (round_up_page len) InvalidRange;
  ensure (Z.of_nat (length initialized) <=? len) InvalidRange;;
  let slot := the_slot i s in
  let needed := Z.to_nat (len / PAGE_SIZE) in
  let k := free_mapping slot in
  ensure (negb ((length (mappings slot) <=? k)%nat || (needed =? 0)%nat
                || (length (owned_frames slot) <? owned_frame_count slot + needed)%nat)) CapacityExceeded;;
  start ← ok_or (free_page_run slot needed) CapacityExceeded;
  first ← ok_or (try_u16 start) CapacityExceeded;
  count ← ok_or (try_u16 needed) CapacityExceeded;
  base ← returned (find_linux_mmap_base slot hint len);
  mmap_private_loop needed i start base p initialized 0;;
  on_slot i (λ slot, count_owned (install_mapping k
    (mkMapping true true true false (generation slot) base len first count p 0 0) (start + needed) slot));;
  mret base.

(** [for page in 0..pages_needed] of [linux_mmap_shared]. *)
Fixpoint mmap_shared_loop (n i b start : nat) (base : Z) (p : MappingPermissions) (offset page : nat) : SM unit :=
  match n with
  | O => mret tt
  | S n =>
      let undo := rollback_shared_mapping_pages page i start in
      va ← or_undo (ok_or (checked_add U64_MAX base (Z.of_nat page * PAGE_SIZE)) InvalidRange) undo;
      '(table, index) ← or_undo (ensure_leaf_slot i va) undo;
      s ← getS;
      let f := slot_at 0 (frames (the_backing b s)) (offset + page) in
      or_undo (on_memory (write_entry table index (user_mapping_entry f p))) undo;;
      on_slot i (set_page (start + page) (mkPage f va));;
      mmap_shared_loop n i b start base p offset (S page)
  end.

Definition linux_mmap_shared (process : ProcessImageHandle) (id hint len offset : Z) (p : MappingPermissions) : SM Z :=
  i ← process_slot process;
  s ← getS;
  ensure (negb (bool_decide (is_Some (active_slot s)) || (id =? 0) || (len =? 0) || (MAXIMUM_MEMFD_BYTES <? len)
                || negb (Z.land offset (PAGE_SIZE - 1) =? 0) || negb (readable p) || (writable p && executable p))) InvalidRange;;
  b ← ok_or (position (opened id) (shared s)) InvalidHandle;
  ensure (match checked_add U64_MAX offset len with Some stop => stop <=? size_bytes (the_backing b s) | None => false end) InvalidRange;;
  references ← ok_or (try_u16 (S (mapping_references (the_backing b s)))) CapacityExceeded;
  len ← ok_or (round_up_page len) InvalidRange;
  let needed := Z.to_nat (len / PAGE_SIZE) in
  let skip := Z.to_nat (offset / PAGE_SIZE) in
  ensure (skip + needed <=? MAXIMUM_SHARED_PAGES)%nat CapacityExceeded;;
  ensure_shared_frames b (skip + needed);;
  slot ← get_slot i;
  let k := free_mapping slot in
  ensure (negb ((length (mappings slot) <=? k)%nat || (needed =? 0)%nat)) CapacityExceeded;;
  start ← ok_or (free_page_run slot needed) CapacityExceeded;
  first ← ok_or (try_u16 start) CapacityExceeded;
  count ← ok_or (try_u16 needed) CapacityExceeded;
  skip ← ok_or (try_u16 skip) CapacityExceeded;
  base ← returned (find_linux_mmap_base slot hint len);
  mmap_shared_loop needed i b start base p skip 0;;
  on_backing b (with_references references);;
  on_slot i (λ slot, install_mapping k
    (mkMapping true true true false (generation slot) base len first count p id skip) (start + needed) slot);;
  mret base.

(** ** Changing permissions *)

(** The table, the index and the entry of a page of a mapping. *)
Definition checked_mapping_leaf (i : nat) (m : MappingRecord) (page : nat) : SM (Z * Z * Z) :=
  s ← getS;
  record ← ok_or (pages (the_slot i s) !! (first_page m + page)%nat) CorruptHierarchy;
  expected ← ok_or (checked_add U64_MAX (mp_address m) (Z.of_nat page * PAGE_SIZE)) CorruptHierarchy;
  ensure (negb (negb (pg_address record =? expected) || (frame record =? 0))) CorruptHierarchy;;
  '(table, index) ← leaf_slot i (pg_address record);
  entry ← read_table table index;
  ensure (Z.land entry (Z.lor (Z.lor (Z.lor PAGE_ADDRESS_MASK ENTRY_PRESENT) ENTRY_USER) ENTRY_HUGE)
          =? Z.lor (Z.lor (frame record) ENTRY_PRESENT) ENTRY_USER) CorruptHierarchy;;
  mret (table, index, entry).

(** [for page in 0..changed_pages] *)
Fixpoint rollback_mapping_permissions (n i : nat) (m : MappingRecord) (page : nat) : SM unit :=
  match n with
  | O => mret tt
  | S n =>
      '(table, index, entry) ← checked_mapping_leaf i m page;
      let restored := replace_user_mapping_permissions entry (permissions m) in
      on_memory (write_entry table index restored);;
      observed ← read_table table index;
      ensure (normalized_user_mapping_entry observed =? normalized_user_mapping_entry restored) CorruptHierarchy;;
      rollback_mapping_permissions n i m (S page)
  end.

(** The first loop of [linux_mprotect]: the leaf of page [page] of the protected
    part against page [page] of the whole mapping. *)
Fixpoint mprotect_verify (n i : nat) (mapping protected : MappingRecord) (page : nat) : SM unit :=
  match n with
  | O => mret tt
  | S n =>
      '(_, _, entry) ← checked_mapping_leaf i protected page;
      f ← frame_for_mapping_page i mapping page;
      ensure (normalized_user_mapping_entry entry =? user_mapping_entry f (permissions mapping)) CorruptHierarchy;;
      mprotect_verify n i mapping protected (S page)
  end.

Fixpoint mprotect_apply (n i : nat) (protected : MappingRecord) (p : MappingPermissions) (page : nat) : SM unit :=
  match n with
  | O => mret tt
  | S n =>
      '(table, index, entry) ← checked_mapping_leaf i protected page;
      let updated := replace_user_mapping_permissions entry p in
      or_undo (on_memory (write_entry table index updated)) (rollback_mapping_permissions page i protected 0);;
      or_undo (observed ← read_table table index;
               ensure (normalized_user_mapping_entry observed =? normalized_user_mapping_entry updated) CorruptHierarchy)
        (rollback_mapping_permissions (S page) i protected 0);;
      mprotect_apply n i protected p (S page)
  end.

(** The first [n] free records other than [k]. *)
Definition piece_slots (n k : nat) (l : list MappingRecord) : list nat :=
  take n (filter (λ j, j ≠ k ∧ occupied (slot_at EMPTY_MAPPING l j) = false) (seq 0 (length l))).

Definition mapping_at (m : MappingRecord) (address size : Z) (first count : nat) : MappingRecord :=
  mkMapping (occupied m) (sealed m) (releasable m) (heap m) (mp_generation m) address size first count
    (permissions m) (shared_identity m) (shared_page_offset m).

(** [requested_end <= end] of the mapping that is to contain the range. *)
Definition encloses (g address stop : Z) (m : MappingRecord) : bool :=
  occupied m && sealed m && negb (heap m) && (mp_generation m =? g) && (mp_address m <=? address)
  && match checked_add U64_MAX (mp_address m) (memory_size m) with Some last => stop <=? last | None => false end.

(** The parts of a split mapping and the records they go to: the protected part
    in place, the prefix and the suffix in the free records. *)
Definition split_parts (mapping protected : MappingRecord) (k before after : nat) (stop : Z) (spare : list nat) : list (nat * MappingRecord) :=
  (k, protected) ::
  zip spare
    ((if (before =? 0)%nat then [] else [mapping_at mapping (mp_address mapping) (Z.of_nat before * PAGE_SIZE) (first_page mapping) before])
     ++ (if (after =? 0)%nat then [] else
           [mapping_at mapping stop (Z.of_nat after * PAGE_SIZE) (first_page protected + mp_page_count protected) after])).

Definition store_mapping (s : FrameBackedSlot) (part : nat * MappingRecord) : FrameBackedSlot := set_mapping part.1 part.2 s.
Definition count_mapping (s : FrameBackedSlot) (j : nat) : FrameBackedSlot := with_mappings (mappings s) (Nat.max (mapping_count s) (S j)) s.

Definition linux_mprotect (process : ProcessImageHandle) (address len : Z) (p : MappingPermissions) : SM unit :=
  i ← process_slot process;
  s ← getS;
  ensure (negb (bool_decide (is_Some (active_slot s)) || negb (Z.land address (PAGE_SIZE - 1) =? 0) || (len =? 0)
                || (negb (readable p) && (writable p || executable p)) || (writable p && executable p))) InvalidRange;;
  len ← ok_or (round_up_page len) InvalidRange;
  stop ← ok_or (checked_add U64_MAX address len) InvalidRange;
  let slot := the_slot i s in
  k ← ok_or (position (encloses (generation slot) address stop) (mappings slot)) InvalidRange;
  let mapping := slot_at EMPTY_MAPPING (mappings slot) k in
  let before := Z.to_nat ((address - mp_address mapping) / PAGE_SIZE) in
  let count := Z.to_nat (len / PAGE_SIZE) in
  ensure (negb ((count =? 0)%nat || (mp_page_count mapping <? before + count)%nat
                || (releasable mapping && (negb (before =? 0)%nat || negb (count =? mp_page_count mapping)%nat)))) InvalidRange;;
  first ← ok_or (try_u16 (first_page mapping + before)) CapacityExceeded;
  count ← ok_or (try_u16 count) CapacityExceeded;
  let protected := mapping_at mapping address len first count in
  let after := (mp_page_count mapping - before - count)%nat in
  let needed := ((if (before =? 0)%nat then 0 else 1) + (if (after =? 0)%nat then 0 else 1))%nat in
  let spare := piece_slots needed k (mappings slot) in
  ensure (length spare =? needed)%nat CapacityExceeded;;
  ensure (negb (negb (Z.of_nat (mp_page_count mapping) * PAGE_SIZE =? memory_size mapping)
                || (length (pages slot) <? first_page mapping + mp_page_count mapping)%nat)) CorruptHierarchy;;
  mprotect_verify count i mapping protected 0;;
  if bool_decide (permissions mapping = p) then mret tt
  else
    mprotect_apply count i protected p 0;;
    on_slot i (λ slot, foldl count_mapping
      (foldl store_mapping slot (split_parts mapping (with_seal p protected) k before after stop spare)) spare).

(** ** Removing a mapping *)

(** [for page in 0..mapping.page_count]; [k] is the next page record. *)
Fixpoint munmap_loop (n i k : nat) (private : bool) : SM unit :=
  match n with
  | O => mret tt
  | S n =>
      slot ← get_slot i;
      let record := slot_at EMPTY_PAGE (pages slot) k in
      if page_free record then munmap_loop n i (S k) private
      else
        '(table, index) ← leaf_slot i (pg_address record);
        on_memory (write_entry table index 0);;
        (if private then release_owned_frame i (frame record) else mret tt);;
        on_slot i (set_page k EMPTY_PAGE);;
        munmap_loop n i (S k) private
  end.

Definition unmaps (g address size : Z) (m : MappingRecord) : bool :=
  occupied m && releasable m && (mp_generation m =? g) && (mp_address m =? address) && (memory_size m =? size).

Definition linux_munmap (process : ProcessImageHandle) (address len : Z) : SM unit :=
  i ← process_slot process;
  s ← getS;
  ensure (negb (bool_decide (is_Some (active_slot s)) || negb (Z.land address (PAGE_SIZE - 1) =? 0) || (len =? 0))) InvalidRange;;
  len ← ok_or (round_up_page len) InvalidRange;
  let slot := the_slot i s in
  k ← ok_or (position (unmaps (generation slot) address len) (mappings slot)) InvalidRange;
  let mapping := slot_at EMPTY_MAPPING (mappings slot) k in
  munmap_loop (mp_page_count mapping) i (first_page mapping) (shared_identity mapping =? 0);;
  (if shared_identity mapping =? 0 then mret tt else drop_shared_mapping_reference (shared_identity mapping));;
  on_slot i (λ slot, count_owned (set_mapping k EMPTY_MAPPING slot)).

(** ** The heap *)

(** [for page in desired_pages..current_pages]; [k] is the next page record. *)
Fixpoint brk_shrink_loop (n i k : nat) : SM unit :=
  match n with
  | O => mret tt
  | S n =>
      slot ← get_slot i;
      let record := slot_at EMPTY_PAGE (pages slot) k in
      ensure (negb (page_free record)) CorruptHierarchy;;
      '(table, index) ← leaf_slot i (pg_address record);
      on_memory (write_entry table index 0);;
      release_owned_frame i (frame record);;
      on_slot i (set_page k EMPTY_PAGE);;
      brk_shrink_loop n i (S k)
  end.

Definition HEAP_PERMISSIONS : MappingPermissions := mkPermissions true true false.

(** [for page in current_pages..desired_pages] *)
Fixpoint brk_grow_loop (n i first page current : nat) : SM unit :=
  match n with
  | O => mret tt
  | S n =>
      let undo := rollback_linux_mapping_pages (page - current) i (first + current) in
      va ← ok_or (checked_add U64_MAX LINUX_BRK_BASE (Z.of_nat page * PAGE_SIZE)) InvalidRange;
      '(table, index) ← or_undo (ensure_leaf_slot i va) undo;
      f ← or_undo (allocate_owned i) undo;
      or_undo (on_memory (write_entry table index
                 (Z.lor (Z.lor (Z.lor (Z.lor f ENTRY_PRESENT) ENTRY_USER) ENTRY_WRITABLE) ENTRY_NO_EXECUTE)))
        (release_owned_frame i f;; undo);;
      on_slot i (set_page (first + page) (mkPage f va));;
      brk_grow_loop n i first (S page) current
  end.

Definition with_extent (pages : nat) (m : MappingRecord) : MappingRecord :=
  mapping_at m (mp_address m) (Z.of_nat pages * PAGE_SIZE) (first_page m) pages.

Definition alter_mapping (f : MappingRecord → MappingRecord) (k : nat) (s : FrameBackedSlot) : FrameBackedSlot :=
  with_mappings (alter f k (mappings s)) (mapping_count s) s.

Definition set_break (x : Z) (s : FrameBackedSlot) : FrameBackedSlot := with_heap (initial_stack_pages s) x s.

Definition brk_shrink (i k desired current : nat) (requested : Z) : SM Z :=
  slot ← get_slot i;
  let mapping := slot_at EMPTY_MAPPING (mappings slot) k in
  brk_shrink_loop (current - desired) i (first_page mapping + desired);;
  desired ← ok_or (try_u16 desired) CapacityExceeded;
  on_slot i (λ s, set_break requested (count_owned (alter_mapping (with_extent desired) k s)));;
  mret requested.

(** Where the heap's pages are, and the record that describes them. *)
Definition brk_room (slot : FrameBackedSlot) (heap_mapping : option nat) (desired current : nat) : option (nat * nat) :=
  match heap_mapping with
  | Some k =>
      let first := first_page (slot_at EMPTY_MAPPING (mappings slot) k) in
      if (length (pages slot) <? first + desired)%nat
         || negb (forallb page_free (take (desired - current) (drop (first + current) (pages slot)))) then None
      else Some (k, first)
  | None =>
      let k := free_mapping slot in
      if (length (mappings slot) <=? k)%nat then None
      else match free_page_run slot desired with Some first => Some (k, first) | None => None end
  end.

Definition brk_grow (i : nat) (heap_mapping : option nat) (desired current : nat) (requested : Z) : SM Z :=
  slot ← get_slot i;
  ensure (negb (length (owned_frames slot) <? owned_frame_count slot + (desired - current))%nat) CapacityExceeded;;
  '(k, first) ← ok_or (brk_room slot heap_mapping desired current) CapacityExceeded;
  brk_grow_loop (desired - current) i first current current;;
  (match heap_mapping with
   | None =>
       first16 ← ok_or (try_u16 first) CapacityExceeded;
       count ← ok_or (try_u16 desired) CapacityExceeded;
       on_slot i (λ slot, with_mappings
         (<[k := mkMapping true true false true (generation slot) LINUX_BRK_BASE (Z.of_nat desired * PAGE_SIZE) first16 count
                   HEAP_PERMISSIONS 0 0]> (mappings slot)) (Nat.max (mapping_count slot) (S k)) slot)
   | Some _ =>
       count ← ok_or (try_u16 desired) CapacityExceeded;
       on_slot i (alter_mapping (with_extent count) k)
   end);;
  on_slot i (λ slot, set_break requested (count_owned (with_pages (pages slot) (Nat.max (page_count slot) (first + desired)) slot)));;
  mret requested.

Definition linux_brk (process : ProcessImageHandle) (requested : Z) : SM Z :=
  i ← process_slot process;
  s ← getS;
  ensure (negb (bool_decide (is_Some (active_slot s)))) InvalidState;;
  let slot := the_slot i s in
  if requested =? 0 then mret (heap_break slot)
  else
    ensure (negb ((requested <? LINUX_BRK_BASE) || (USER_LIMIT <=? requested))) InvalidRange;;
    let bytes := requested - LINUX_BRK_BASE in
    ensure (bytes <=? LINUX_BRK_MAXIMUM_BYTES) CapacityExceeded;;
    let desired := Z.to_nat ((bytes + (PAGE_SIZE - 1)) / PAGE_SIZE) in
    let heap_mapping := position (λ m, occupied m && heap m && (mp_generation m =? generation slot)) (mappings slot) in
    let current := match heap_mapping with Some k => mp_page_count (slot_at EMPTY_MAPPING (mappings slot) k) | None => O end in
    if (desired =? current)%nat then on_slot i (set_break requested);; mret requested
    else if (desired <? current)%nat then
      k ← ok_or heap_mapping CorruptHierarchy;
      brk_shrink i k desired current requested
    else brk_grow i heap_mapping desired current requested.

(** ** The initial stack *)

Fixpoint release_down_to (n i : nat) : SM unit :=
  match n with
  | O => mret tt
  | S n =>
      slot ← get_slot i;
      release_last_owned i (slot_at 0 (owned_frames slot) (owned_frame_count slot - 1));;
      release_down_to n i
  end.

(** [pages[pages_before..page_count].fill(PageRecord::EMPTY)] *)
Definition clear_pages_from (before : nat) (s : FrameBackedSlot) : FrameBackedSlot :=
  with_pages (take before (pages s) ++ replicate (page_count s - before) EMPTY_PAGE ++ drop (page_count s) (pages s)) before s.

Definition rollback_stack_install (i owned_before pages_before : nat) : SM unit :=
  slot ← get_slot i;
  release_down_to (owned_frame_count slot - owned_before) i;;
  on_slot i (clear_pages_from pages_before).

(** [for page in 0..pages] of [install_stack_pages]. *)
Fixpoint stack_loop (n i : nat) (base : Z) (undo : SM unit) (page : nat) : SM unit :=
  match n with
  | O => mret tt
  | S n =>
      let va := base + Z.of_nat page * PAGE_SIZE in
      '(table, index) ← or_undo (ensure_leaf_slot i va) undo;
      f ← or_undo (allocate_owned i) undo;
      or_undo (on_memory (write_entry table index
                 (Z.lor (Z.lor (Z.lor (Z.lor f ENTRY_PRESENT) ENTRY_WRITABLE) ENTRY_USER) ENTRY_NO_EXECUTE))) undo;;
      on_slot i (λ s, with_pages (<[page_count s := mkPage f va]> (pages s)) (S (page_count s)) s);;
      stack_loop n i base undo (S page)
  end.

Definition install_stack_pages (process : ProcessImageHandle) (count : nat) : SM Z :=
  i ← process_slot process;
  ensure (negb (count =? 0)%nat) InvalidRange;;
  let span := Z.of_nat (count - 1) * PAGE_SIZE in
  ensure (span <=? INITIAL_USER_STACK_BASE) InvalidRange;;
  let base := INITIAL_USER_STACK_BASE - span in
  let pointer := INITIAL_USER_STACK_BASE + PAGE_SIZE in
  s ← getS;
  let slot := the_slot i s in
  ensure (negb (bool_decide (is_Some (active_slot s)) || bool_decide (is_Some (initial_stack_pointer (process_info slot)))
                || (base <? 0x1000) || (length (pages slot) <? page_count slot + count)%nat)) InvalidState;;
  stack_loop count i base (rollback_stack_install i (owned_frame_count slot) (page_count slot)) 0;;
  on_slot i (λ s,
    let info := process_info s in
    with_heap count (heap_break s)
      (with_info (mkInfo (entry_point info) (segment_count info) (address_space_root info) (owned_frame_count s) (Some pointer)) s));;
  mret pointer.

(** ** The end of a process *)

(** [for index in 0..mapping_count]; [k] is the next mapping record. *)
Fixpoint drop_slot_shared_mappings (n i k : nat) : SM unit :=
  match n with
  | O => mret tt
  | S n =>
      slot ← get_slot i;
      let m := slot_at EMPTY_MAPPING (mappings slot) k in
      (if occupied m && negb (shared_identity m =? 0) then
         drop_shared_mapping_reference (shared_identity m);;
         on_slot i (alter_mapping (λ m, mkMapping (occupied m) (sealed m) (releasable m) (heap m) (mp_generation m) (mp_address m)
           (memory_size m) (first_page m) (mp_page_count m) (permissions m) 0 (shared_page_offset m)) k)
       else mret tt);;
      drop_slot_shared_mappings n i (S k)
  end.

(** [active_root] is the root in CR3. *)
Definition release_process (active_root : Z) (process : ProcessImageHandle) : SM unit :=
  i ← process_slot process;
  slot ← get_slot i;
  top ← ok_or (address_space_root (process_info slot)) InvalidHandle;
  ensure (negb (active_root =? top)) ActiveProcess;;
  drop_slot_shared_mappings (mapping_count slot) i 0;;
  on_slot i (with_phase Free);;
  reset_records i;;
  release_owned i.

(** [for slot_index in 0..self.slots.len()]; [i] is the next slot. *)
Fixpoint retry_loop (n i : nat) : SM unit :=
  match n with
  | O => mret tt
  | S n =>
      slot ← get_slot i;
      (if bool_decide (phase slot = Free) && negb (owned_frame_count slot =? 0)%nat then release_owned i else mret tt);;
      retry_loop n (S i)
  end.

Definition retry_cleanup : SM unit :=
  s ← getS;
  ensure (negb (bool_decide (is_Some (active_slot s)))) InvalidState;;
  retry_loop (length (slots s)) 0.

(** ** Entry by the root of the running process *)

Definition with_root_process {A} (r : Z) (body : ProcessImageHandle → SM A) : SM A :=
  s ← getS;
  i ← ok_or (position (λ slot, bool_decide (phase slot = Committed) && negb (generation slot =? 0)
                               && bool_decide (address_space_root (process_info slot) = Some r)) (slots s)) InvalidHandle;
  body (mkProcess i (generation (the_slot i s))).

Definition linux_mmap_anonymous (process : ProcessImageHandle) (hint len : Z) (p : MappingPermissions) : SM Z :=
  linux_mmap_private process hint len p [].
Definition linux_mmap_for_root (r hint len : Z) (p : MappingPermissions) : SM Z :=
  with_root_process r (λ process, linux_mmap_anonymous process hint len p).
Definition linux_mmap_file_for_root (r hint len : Z) (p : MappingPermissions) (initialized : list Z) : SM Z :=
  with_root_process r (λ process, linux_mmap_private process hint len p initialized).
Definition linux_mmap_shared_for_root (r id hint len offset : Z) (p : MappingPermissions) : SM Z :=
  with_root_process r (λ process, linux_mmap_shared process id hint len offset p).
Definition linux_mprotect_for_root (r address len : Z) (p : MappingPermissions) : SM unit :=
  with_root_process r (λ process, linux_mprotect process address len p).
Definition linux_munmap_for_root (r address len : Z) : SM unit := with_root_process r (λ process, linux_munmap process address len).
Definition linux_brk_for_root (r requested : Z) : SM Z := with_root_process r (λ process, linux_brk process requested).

End Space.
