(* ===== verification/PageTree.v ===== *)
(** * Page-table hierarchies

    The radix tree of user page tables that process/x86_64.rs builds and the
    walk of user memory follows: four levels of 512 entries, as a function from
    a table and an index to an entry. The user half of a hierarchy is a tree
    inside a set of owned frames, and stays one when a leaf is written and when
    an empty branch is given a fresh table. *)

From stdpp Require Import prelude list numbers.
From Stdlib Require Import ZArith Lia.
From S2P Require Import Prelude.
From S2P Require Import AddressSpace.

(** The entries of every table. *)
Abbreviation Entries := (Z → Z → Z).

(** An entry that leads to a table: present, writable, for the user, not a huge
    page. *)
Definition branch_bits : Z := 0x87.
Definition is_branch (e : Z) : bool := Z.land e branch_bits =? 0x07.

(** Following a path of indices from a table. *)
Fixpoint descend (ent : Entries) (t : Z) (path : list Z) : option Z :=
  match path with
  | [] => Some t
  | i :: path => if is_branch (ent t i) then descend ent (Z.land (ent t i) PAGE_ADDRESS_MASK) path else None
  end.

(** Paths of the user half. *)
Definition user_path (path : list Z) : Prop :=
  (length path ≤ 4)%nat ∧ Forall (λ i, 0 ≤ i < 512) path ∧ ∀ a rest, path = a :: rest → a < 256.

(** The indices of an address in the four levels. *)
Definition indices (va : Z) : list Z := page_index va <$> [39; 30; 21; 12].
Definition table_path (va : Z) : list Z := page_index va <$> [39; 30; 21].
Definition leaf_index (va : Z) : Z := page_index va 12.

(** The entry of the page of [va], zero where there is no table. *)
Definition leaf (ent : Entries) (r va : Z) : Z :=
  match descend ent r (table_path va) with Some t => ent t (leaf_index va) | None => 0 end.

Definition user_address (va : Z) : Prop := 0 ≤ va < USER_LIMIT.

Definition page_of (va : Z) : Z := va / PAGE_SIZE.

(** The tables of a hierarchy: the root and what is reached over up to three
    indices. *)
Definition is_table (ent : Entries) (r t : Z) : Prop :=
  ∃ path, user_path path ∧ (length path ≤ 3)%nat ∧ descend ent r path = Some t.

Record hierarchy (ent : Entries) (owned : list Z) (r : Z) : Prop := {
  hier_owned : ∀ t, is_table ent r t → t ∈ owned;
  hier_inj : ∀ p q t, user_path p → user_path q → (length p ≤ 3)%nat → (length q ≤ 3)%nat →
    descend ent r p = Some t → descend ent r q = Some t → p = q;
  hier_branch : ∀ p i t, user_path (p ++ [i]) → (length p < 3)%nat → descend ent r p = Some t →
    ent t i = 0 ∨ is_branch (ent t i) = true;
}.

(** A table with one entry changed. *)
Definition update_entry (t i v : Z) (ent : Entries) : Entries := λ t' i', if (t' =? t) && (i' =? i) then v else ent t' i'.

Lemma update_entry_same t i v ent : update_entry t i v ent t i = v.
Proof. unfold update_entry. by rewrite !Z.eqb_refl. Qed.
Lemma update_entry_other t i v ent t' i' : t' ≠ t ∨ i' ≠ i → update_entry t i v ent t' i' = ent t' i'.
Proof.
  unfold update_entry. intros H. destruct (Z.eqb_spec t' t), (Z.eqb_spec i' i); simpl; auto. destruct H; contradiction.
Qed.

(** ** Paths *)

Lemma page_index_div va s : 0 ≤ s → page_index va s = va / 2 ^ s mod 512.
Proof. intros ?. unfold page_index. change 0x1ff with (Z.ones 9). by rewrite Z.land_ones, Z.shiftr_div_pow2 by lia. Qed.

Lemma indices_split va : indices va = table_path va ++ [leaf_index va].
Proof. reflexivity. Qed.

Lemma page_index_range va s : 0 ≤ s → 0 ≤ page_index va s < 512.
Proof. intros. rewrite page_index_div by done. apply Z.mod_pos_bound. lia. Qed.

Lemma user_path_indices va : user_address va → user_path (indices va).
Proof.
  intros [H0 H1]. unfold USER_LIMIT in H1. split; [simpl; lia|split].
  - unfold indices. cbn [fmap list_fmap]. repeat (apply Forall_cons_2; [apply page_index_range; lia|]). apply Forall_nil_2.
  - intros a rest [= <- _]. rewrite page_index_div by lia.
    assert (va / 2 ^ 39 < 256) by (apply Z.div_lt_upper_bound; [lia|]; change (2 ^ 39 * 256) with 0x800000000000; lia).
    pose proof (Z.mod_le (va / 2 ^ 39) 512). assert (0 ≤ va / 2 ^ 39) by (apply Z.div_pos; lia). lia.
Qed.

Lemma user_path_prefix p q : user_path (p ++ q) → user_path p.
Proof.
  intros (Hl & Hf & Hh). rewrite length_app in Hl. apply Forall_app in Hf as [Hf _]. split; [lia|split; [done|]].
  intros a rest ->. by eapply Hh.
Qed.

Lemma user_table_path va : user_address va → user_path (table_path va).
Proof. intros H%user_path_indices. rewrite indices_split in H. by eapply user_path_prefix. Qed.

Lemma user_path_nil : user_path [].
Proof. split; [simpl; lia|split; [apply Forall_nil_2|done]]. Qed.

Lemma digit_inj x y : x / 512 = y / 512 → x mod 512 = y mod 512 → x = y.
Proof. intros. rewrite (Z.div_mod x 512), (Z.div_mod y 512) by lia. congruence. Qed.

Lemma indices_inj a b : user_address a → user_address b → indices a = indices b → page_of a = page_of b.
Proof.
  unfold user_address, USER_LIMIT, page_of, PAGE_SIZE. intros Ha Hb. unfold indices. cbn [fmap list_fmap]. intros [=].
  repeat match goal with H : page_index _ _ = page_index _ _ |- _ => rewrite !page_index_div in H by lia end.
  change 4096 with (2 ^ 12).
  replace (a / 2 ^ 21) with (a / 2 ^ 12 / 512) in * by (rewrite Z.div_div by lia; reflexivity).
  replace (b / 2 ^ 21) with (b / 2 ^ 12 / 512) in * by (rewrite Z.div_div by lia; reflexivity).
  replace (a / 2 ^ 30) with (a / 2 ^ 12 / 512 / 512) in * by (rewrite !Z.div_div by lia; reflexivity).
  replace (b / 2 ^ 30) with (b / 2 ^ 12 / 512 / 512) in * by (rewrite !Z.div_div by lia; reflexivity).
  replace (a / 2 ^ 39) with (a / 2 ^ 12 / 512 / 512 / 512) in * by (rewrite !Z.div_div by lia; reflexivity).
  replace (b / 2 ^ 39) with (b / 2 ^ 12 / 512 / 512 / 512) in * by (rewrite !Z.div_div by lia; reflexivity).
  assert (∀ x, 0 ≤ x < 0x0000800000000000 → x / 2 ^ 12 / 512 / 512 / 512 / 512 = 0) as E.
  { intros x Hx. rewrite !Z.div_div by lia. apply Z.div_small. lia. }
  repeat (apply digit_inj; [|done]). by rewrite !E.
Qed.

Lemma indices_page a b : page_of a = page_of b → indices a = indices b.
Proof.
  unfold page_of, PAGE_SIZE, indices. intros H. cbn [fmap list_fmap].
  assert (∀ s, 12 ≤ s → page_index a s = page_index b s) as E.
  { intros s Hs. rewrite !page_index_div by lia. replace s with (12 + (s - 12)) by lia.
    rewrite Z.pow_add_r, <-!Z.div_div by lia. change (2 ^ 12) with 4096. by rewrite H. }
  by rewrite !E by lia.
Qed.

(** ** Walks *)

Lemma descend_app ent t p q : descend ent t (p ++ q) = descend ent t p ≫= λ t', descend ent t' q.
Proof. revert t. induction p as [|i p IH]; intros t; simpl; [done|]. destruct (is_branch _); [apply IH|done]. Qed.

Lemma descend_snoc ent t p i :
  descend ent t (p ++ [i]) =
    match descend ent t p with
    | Some t' => if is_branch (ent t' i) then Some (Z.land (ent t' i) PAGE_ADDRESS_MASK) else None
    | None => None
    end.
Proof. rewrite descend_app. by destruct (descend ent t p). Qed.

Lemma is_branch_zero : is_branch 0 = false.
Proof. reflexivity. Qed.

(** Entries that the processor may have marked as accessed or dirty. *)
Definition same_entry (e e' : Z) : Prop :=
  normalized_user_mapping_entry e = normalized_user_mapping_entry e' ∧ (e = 0 ↔ e' = 0).

Lemma same_entry_refl e : same_entry e e.
Proof. done. Qed.
#[local] Hint Resolve same_entry_refl : core.

Lemma land_normalized e mask : Z.land mask 0x60 = 0 → Z.land (normalized_user_mapping_entry e) mask = Z.land e mask.
Proof.
  intros H. unfold normalized_user_mapping_entry, and_not. change (Z.lor ENTRY_ACCESSED ENTRY_DIRTY) with 0x60.
  apply Z.bits_inj'. intros n Hn. rewrite !Z.land_spec, Z.ldiff_spec.
  assert (Z.testbit mask n && Z.testbit 0x60 n = false) as Hb by (rewrite <-Z.land_spec, H; apply Z.bits_0).
  destruct (Z.testbit e n), (Z.testbit mask n), (Z.testbit 0x60 n); simpl in *; congruence.
Qed.

Lemma same_entry_land e e' mask : same_entry e e' → Z.land mask 0x60 = 0 → Z.land e mask = Z.land e' mask.
Proof. intros [H _] Hm. by rewrite <-(land_normalized e), <-(land_normalized e'), H. Qed.

Lemma same_entry_branch e e' : same_entry e e' → is_branch e = is_branch e'.
Proof. intros H. unfold is_branch. by rewrite (same_entry_land e e'). Qed.

(** A root whose user half is empty. *)
Definition empty_root (ent : Entries) (r : Z) : Prop := ∀ j, 0 ≤ j < 256 → ent r j = 0.

Lemma empty_root_descend ent r p t : empty_root ent r → user_path p → descend ent r p = Some t → p = [] ∧ t = r.
Proof.
  intros He (_ & Hf & Hu) Hd. destruct p as [|i p]; [by injection Hd as <-|]. specialize (Hu i p eq_refl).
  apply Forall_cons_1 in Hf as [Hi _]. cbn [descend] in Hd. rewrite (He i ltac:(lia)) in Hd. done.
Qed.

Lemma empty_root_hierarchy ent owned r : empty_root ent r → r ∈ owned → hierarchy ent owned r.
Proof.
  intros He Hr. split.
  - intros t (p & Hp & _ & Hd). by destruct (empty_root_descend ent r p t He Hp Hd) as [_ ->].
  - intros p q t Hp Hq _ _ Hd Hd'. destruct (empty_root_descend ent r p t He Hp Hd) as [-> _].
    by destruct (empty_root_descend ent r q t He Hq Hd') as [-> _].
  - intros p i t (Hl & Hf & Hu) _ Hd. left. assert (Hp : user_path p).
    { split_and!; [rewrite length_app in Hl; simpl in Hl; lia|by apply Forall_app in Hf as [? _]|]. intros a rest ->. by eapply (Hu a (rest ++ [i])). }
    destruct (empty_root_descend ent r p t He Hp Hd) as [-> ->]. apply He. apply Forall_app in Hf as [_ Hf].
    apply Forall_cons_1 in Hf as [Hi _]. specialize (Hu i [] eq_refl). lia.
Qed.

Lemma empty_root_leaf ent r va : empty_root ent r → user_path (table_path va) → leaf ent r va = 0.
Proof.
  intros He Hp. unfold leaf. destruct (descend ent r (table_path va)) as [t|] eqn:Hd; [|done].
  by destruct (empty_root_descend ent r _ t He Hp Hd).
Qed.

(** Two memories that agree on the owned frames. *)
Definition agree (owned : list Z) (ent ent' : Entries) : Prop :=
  ∀ t i, t ∈ owned → 0 ≤ i < 512 → same_entry (ent t i) (ent' t i).

Definition equal_on (owned : list Z) (ent ent' : Entries) : Prop := ∀ t i, t ∈ owned → 0 ≤ i < 512 → ent' t i = ent t i.

Lemma equal_agree owned ent ent' : equal_on owned ent ent' → agree owned ent ent'.
Proof. intros H t i Ht Hi. rewrite (H t i Ht Hi). done. Qed.

Lemma user_path_snoc p i : user_path (p ++ [i]) → user_path p ∧ 0 ≤ i < 512.
Proof.
  intros H. split; [by eapply user_path_prefix|]. destruct H as (_ & Hf & _). apply Forall_app in Hf as [_ Hf]. by inversion Hf.
Qed.

Lemma is_table_intro ent r p t : user_path p → (length p ≤ 3)%nat → descend ent r p = Some t → is_table ent r t.
Proof. by exists p. Qed.

Section Tree.
Context (ent : Entries) (owned : list Z) (r : Z) (H : hierarchy ent owned r).

Lemma table_owned p t : user_path p → (length p ≤ 3)%nat → descend ent r p = Some t → t ∈ owned.
Proof. intros. eapply hier_owned, is_table_intro; eauto. Qed.

(** Memories that agree on the tables. *)
Definition agree_tables (ent' : Entries) : Prop := ∀ t i, is_table ent r t → 0 ≤ i < 512 → same_entry (ent t i) (ent' t i).

Lemma agree_agree_tables ent' : agree owned ent ent' → agree_tables ent'.
Proof. intros Ha t i Ht. apply Ha. by apply H. Qed.

Lemma descend_tables ent' p : agree_tables ent' → user_path p → (length p ≤ 3)%nat → descend ent' r p = descend ent r p.
Proof.
  intros Ha. induction p as [|i p IH] using rev_ind; intros Hu Hl; [done|].
  apply user_path_snoc in Hu as [Hu Hi]. rewrite length_app in Hl. simpl in Hl.
  rewrite !descend_snoc, IH by (done || lia). destruct (descend ent r p) as [t|] eqn:E; [|done].
  assert (Hs : same_entry (ent t i) (ent' t i)) by (apply Ha; [eapply is_table_intro; eauto; lia|done]).
  by rewrite (same_entry_branch _ _ Hs), (same_entry_land _ _ PAGE_ADDRESS_MASK Hs).
Qed.

Lemma is_table_tables ent' t : agree_tables ent' → is_table ent' r t ↔ is_table ent r t.
Proof. intros Ha. split; intros (p & Hu & Hl & Hd); exists p; split_and!; try done; by rewrite <-?(descend_tables ent') in * by done. Qed.

Lemma hierarchy_tables ent' : agree_tables ent' → hierarchy ent' owned r.
Proof.
  intros Ha. split.
  - intros t Ht. rewrite is_table_tables in Ht by done. by apply H.
  - intros p q t ????. rewrite !(descend_tables ent') by done. by apply H.
  - intros p i t Hu Hl. destruct (user_path_snoc _ _ Hu) as [Hp Hi]. rewrite (descend_tables ent') by (done || lia). intros Hd.
    assert (same_entry (ent t i) (ent' t i)) as Hs by (apply Ha; [eapply is_table_intro; eauto; lia|done]).
    destruct (hier_branch _ _ _ H p i t) as [E|E]; try done.
    + left. by apply Hs.
    + right. by rewrite <-(same_entry_branch _ _ Hs).
Qed.

Lemma leaf_tables ent' va : agree_tables ent' → user_address va → same_entry (leaf ent r va) (leaf ent' r va).
Proof.
  intros Ha Hva. unfold leaf. pose proof (user_table_path _ Hva) as Hu.
  rewrite (descend_tables ent') by done. destruct (descend ent r (table_path va)) as [t|] eqn:E; [|done].
  apply Ha; [by eapply is_table_intro|]. by apply page_index_range.
Qed.

Lemma descend_agree ent' p : agree owned ent ent' → user_path p → (length p ≤ 3)%nat → descend ent' r p = descend ent r p.
Proof. intros Ha. by apply descend_tables, agree_agree_tables. Qed.

Lemma is_table_agree ent' t : agree owned ent ent' → is_table ent' r t ↔ is_table ent r t.
Proof. intros Ha. by apply is_table_tables, agree_agree_tables. Qed.

Lemma hierarchy_agree ent' : agree owned ent ent' → hierarchy ent' owned r.
Proof. intros Ha. by apply hierarchy_tables, agree_agree_tables. Qed.

Lemma hierarchy_owned owned' : (∀ t, is_table ent r t → t ∈ owned') → hierarchy ent owned' r.
Proof. intros Ho. split; [done|apply H|apply H]. Qed.

Lemma leaf_equal_tables ent' va : (∀ t i, is_table ent r t → 0 ≤ i < 512 → ent' t i = ent t i) → user_address va → leaf ent' r va = leaf ent r va.
Proof.
  intros He Hva. unfold leaf. pose proof (user_table_path _ Hva) as Hu.
  assert (agree_tables ent') as Ha by (intros t i Ht Hi; by rewrite He).
  rewrite (descend_tables ent') by done. destruct (descend ent r (table_path va)) as [t|] eqn:E; [|done].
  apply He; [by eapply is_table_intro|]. by apply page_index_range.
Qed.

Lemma leaf_equal ent' va : equal_on owned ent ent' → user_address va → leaf ent' r va = leaf ent r va.
Proof. intros He. apply leaf_equal_tables. intros t i Ht. apply He. by apply H. Qed.

(** *** Writing a leaf *)

Lemma deeper p q t u : user_path p → user_path q → (length p ≤ 3)%nat → (length q < length p)%nat →
  descend ent r p = Some t → descend ent r q = Some u → u ≠ t.
Proof.
  intros Hp Hq Hl Hlt Ht Hu ->. assert (p = q) as -> by (eapply hier_inj; eauto; lia). lia.
Qed.

Section LeafWrite.
Context (p : list Z) (t d v : Z) (Hp : user_path p) (Hl : length p = 3%nat) (Hd : descend ent r p = Some t).

Lemma descend_leaf_write q : user_path q → (length q ≤ 3)%nat → descend (update_entry t d v ent) r q = descend ent r q.
Proof.
  induction q as [|i q IH] using rev_ind; intros Hu Hlq; [done|].
  apply user_path_snoc in Hu as [Hu Hi]. rewrite length_app in Hlq. simpl in Hlq.
  rewrite !descend_snoc, IH by (done || lia). destruct (descend ent r q) as [t'|] eqn:E; [|done].
  assert (t' ≠ t) by (eapply (deeper p q); eauto; lia). by rewrite update_entry_other by auto.
Qed.

Lemma is_table_leaf_write u : is_table (update_entry t d v ent) r u ↔ is_table ent r u.
Proof. split; intros (q & Hu & Hq & E); exists q; split_and!; try done; by rewrite ?descend_leaf_write in *. Qed.

Lemma hierarchy_leaf_write : hierarchy (update_entry t d v ent) owned r.
Proof.
  split.
  - intros u Hu%is_table_leaf_write. by apply H.
  - intros q q' u ????. rewrite !descend_leaf_write by done. by apply H.
  - intros q i u Hu Hq. destruct (user_path_snoc _ _ Hu) as [Hq' Hi]. rewrite descend_leaf_write by (done || lia). intros E.
    assert (u ≠ t) by (eapply (deeper p q); eauto; lia). rewrite update_entry_other by auto. by eapply (hier_branch _ _ _ H).
Qed.

End LeafWrite.

Lemma leaf_leaf_write va t v va' : user_address va → user_address va' → descend ent r (table_path va) = Some t →
  leaf (update_entry t (leaf_index va) v ent) r va' = if decide (page_of va' = page_of va) then v else leaf ent r va'.
Proof.
  intros Hva Hva' Hd. unfold leaf. pose proof (user_table_path _ Hva) as Hu. pose proof (user_table_path _ Hva') as Hu'.
  rewrite (descend_leaf_write (table_path va)) by done.
  case_decide as Hpage.
  - apply indices_page in Hpage. rewrite !indices_split in Hpage. apply app_inj_tail in Hpage as [-> ->].
    rewrite Hd. apply update_entry_same.
  - destruct (descend ent r (table_path va')) as [t'|] eqn:E; [|done].
    apply update_entry_other. destruct (decide (t' = t)) as [->|]; [|by left]. right. intros Hi. apply Hpage.
    apply indices_inj; try done. rewrite !indices_split, Hi. f_equal. eapply (hier_inj _ _ _ H); eauto.
Qed.

(** *** Giving an empty entry a fresh table *)

Section BranchWrite.
Context (p : list Z) (t i f v : Z) (Hp : user_path (p ++ [i])) (Hl : (length p < 3)%nat) (Hd : descend ent r p = Some t).
Context (H0 : ent t i = 0) (Hf : f ∉ owned) (Hz : ∀ j, 0 ≤ j < 512 → ent f j = 0).
Context (Hb : is_branch v = true) (Hv : Z.land v PAGE_ADDRESS_MASK = f).
Abbreviation ent' := (update_entry t i v ent).

Lemma branch_target : t ∈ owned ∧ f ≠ t.
Proof.
  destruct (user_path_snoc _ _ Hp) as [Hp' _]. assert (t ∈ owned) by (eapply table_owned; eauto; lia).
  split; [done|]. by intros ->.
Qed.

Lemma branch_mono q u : user_path q → (length q ≤ 3)%nat → descend ent r q = Some u → descend ent' r q = Some u.
Proof.
  revert u. induction q as [|j q IH] using rev_ind; intros u Hu Hq; [done|].
  apply user_path_snoc in Hu as [Hu Hi]. rewrite length_app in Hq. simpl in Hq. rewrite !descend_snoc.
  destruct (descend ent r q) as [t'|] eqn:E; [|done]. rewrite (IH t') by (done || lia).
  intros Hstep. rewrite update_entry_other; [done|].
  destruct (decide (t' = t)) as [->|]; [|by left]. right. intros ->. by rewrite H0 in Hstep.
Qed.

Lemma branch_new : descend ent' r (p ++ [i]) = Some f.
Proof.
  destruct (user_path_snoc _ _ Hp) as [Hp' _]. rewrite descend_snoc, (branch_mono p t) by (done || lia).
  by rewrite update_entry_same, Hb, Hv.
Qed.

Lemma branch_inv q u : user_path q → (length q ≤ 3)%nat → descend ent' r q = Some u →
  (q = p ++ [i] ∧ u = f) ∨ descend ent r q = Some u.
Proof.
  destruct branch_target as [Ht Hft]. destruct (user_path_snoc _ _ Hp) as [Hp' _].
  revert u. induction q as [|j q IH] using rev_ind; intros u Hu Hq; [by right|].
  apply user_path_snoc in Hu as [Hu Hi]. rewrite length_app in Hq. simpl in Hq. rewrite !descend_snoc.
  destruct (descend ent' r q) as [t'|] eqn:E; [|done]. intros Hstep.
  destruct (IH t') as [[-> ->]|E']; [done|lia|done|..].
  - rewrite update_entry_other, Hz, is_branch_zero in Hstep by auto. done.
  - destruct (decide (t' = t ∧ j = i)) as [[-> ->]|Hne].
    + left. split; [f_equal; eapply (hier_inj _ _ _ H); eauto; lia|]. rewrite update_entry_same, Hb in Hstep. congruence.
    + right. rewrite E'. rewrite update_entry_other in Hstep; [done|]. destruct (decide (t' = t)); naive_solver.
Qed.

Lemma is_table_branch_write u : is_table ent' r u ↔ is_table ent r u ∨ u = f.
Proof.
  split.
  - intros (q & Hu & Hq & [[-> ->]|E]%branch_inv); [by right|left; by exists q|done..].
  - intros [(q & Hu & Hq & E)| ->]; [exists q; by rewrite (branch_mono q u)|].
    exists (p ++ [i]). split_and!; [done|rewrite length_app; simpl; lia|apply branch_new].
Qed.

Lemma hierarchy_branch_write owned' : f ∈ owned' → owned ⊆ owned' → hierarchy ent' owned' r.
Proof.
  intros Hf' Ho. destruct branch_target as [Ht Hft]. split.
  - intros u [Hu| ->]%is_table_branch_write; [apply Ho, H, Hu|done].
  - intros q q' u Hq Hq' ?? [[-> ->]|E]%branch_inv [[-> ?]|E']%branch_inv; try done; subst.
    + by apply table_owned in E'.
    + by apply table_owned in E.
    + eapply (hier_inj _ _ _ H); eauto.
  - intros q j u Hu Hq. destruct (user_path_snoc _ _ Hu) as [Hq' Hj]. intros [[-> ->]|E]%branch_inv; [..|done|lia].
    + left. by rewrite update_entry_other, Hz by auto.
    + destruct (decide (u = t ∧ j = i)) as [[-> ->]|Hne]; [right; by rewrite update_entry_same|].
      rewrite update_entry_other by (destruct (decide (u = t)); naive_solver). by eapply (hier_branch _ _ _ H).
Qed.

Lemma leaf_branch_write va : user_address va → leaf ent' r va = leaf ent r va.
Proof.
  intros Hva. unfold leaf. pose proof (user_table_path _ Hva) as Hu. destruct branch_target as [Ht Hft].
  destruct (user_path_snoc _ _ Hp) as [Hp' _].
  pose proof (page_index_range va 12) as Hi. fold (leaf_index va) in Hi.
  destruct (descend ent r (table_path va)) as [u|] eqn:E.
  - rewrite (branch_mono (table_path va) u) by done. apply update_entry_other. left.
    apply not_eq_sym. by eapply (deeper (table_path va) p).
  - destruct (descend ent' r (table_path va)) as [u|] eqn:E'; [|done].
    destruct (branch_inv (table_path va) u) as [[_ ->]|]; [done..| |congruence].
    rewrite update_entry_other by auto. apply Hz. lia.
Qed.

End BranchWrite.
End Tree.

#[global] Arguments descend : simpl never.
#[global] Arguments table_path : simpl never.
#[global] Arguments indices : simpl never.
