(* ===== verification/SpaceInv.v ===== *)
(** * The invariant of the address spaces

    What the pool relies on of physical memory, as the laws of [FrameMemory],
    and the invariant that ties the ledgers of process/x86_64.rs to the page
    tables: every frame has one owner, the user half of every root is a tree in
    the frames of its process, and every leaf is described by a page record
    that names a frame of the process or of a shared object it maps. *)

From stdpp Require Import prelude list numbers.
From Stdlib Require Import ZArith Lia.
From S2P Require Import Prelude.
From S2P Require Import Wp.
From S2P Require Import AddressSpace.
From S2P Require Import PageTree.

(** ** Physical memory *)

(** The frames of the kernel image that a process may be given a view of. They
    are set aside at boot. *)
Class KernelFrames := kernel_frames : list Z.

(** What the trait [ProcessFrameMemory] asks of an implementation: frames that
    were handed out and not returned are [live] and exclusively owned; only an
    allocation may fail on them. The frames of the kernel are never handed
    out. *)
Class FrameMemoryLaws (Mem E : Type) `{!FrameMemory Mem E, !KernelFrames} := {
  mem_ok : Mem → Prop;
  live : Mem → Z → Prop;
  entries : Mem → Entries;
  law_kernel m f : mem_ok m → f ∈ kernel_frames → ¬ live m f ∧ Z.land f PAGE_ADDRESS_MASK = f;
  law_u64 m t i : mem_ok m → is_u64 (entries m t i);
  law_allocate m : mem_ok m →
    match allocate_zeroed m with
    | (Ok f, m') => mem_ok m' ∧ ¬ live m f ∧ (∀ g, live m' g ↔ g = f ∨ live m g) ∧ (∀ j, 0 ≤ j < 512 → entries m' f j = 0)
                    ∧ ∀ g j, live m g → 0 ≤ j < 512 → entries m' g j = entries m g j
    | (Err _, m') => mem_ok m' ∧ (∀ g, live m' g ↔ live m g) ∧ ∀ g j, live m g → 0 ≤ j < 512 → entries m' g j = entries m g j
    end;
  law_release m f : mem_ok m → live m f →
    ∃ m', release f m = (Ok tt, m') ∧ mem_ok m' ∧ (∀ g, live m' g ↔ live m g ∧ g ≠ f)
          ∧ ∀ g j, live m' g → 0 ≤ j < 512 → entries m' g j = entries m g j;
  law_read m t i : mem_ok m → live m t → 0 ≤ i < 512 → read_entry t i m = Ok (entries m t i);
  law_read_u64 m t i v : mem_ok m → read_entry t i m = Ok v → is_u64 v;
  law_write m t i v : mem_ok m → live m t → 0 ≤ i < 512 → is_u64 v →
    ∃ m', write_entry t i v m = (Ok tt, m') ∧ mem_ok m' ∧ (∀ g, live m' g ↔ live m g)
          ∧ ∀ g j, live m g → 0 ≤ j < 512 → entries m' g j = update_entry t i v (entries m) g j;
  law_write_bytes m f offset bytes : mem_ok m → live m f → 0 ≤ offset → offset + Z.of_nat (length bytes) ≤ PAGE_SIZE →
    Forall is_u8 bytes →
    ∃ m', write_bytes f offset bytes m = (Ok tt, m') ∧ mem_ok m' ∧ (∀ g, live m' g ↔ live m g)
          ∧ ∀ g j, live m g → g ≠ f → 0 ≤ j < 512 → entries m' g j = entries m g j;
  law_foreign_bytes m f offset bytes : mem_ok m → 0 ≤ f → ¬ live m f → 0 ≤ offset → Forall is_u8 bytes →
    let m' := (write_bytes f offset bytes m).2 in
    mem_ok m' ∧ (∀ g, live m' g ↔ live m g) ∧ ∀ g j, live m g → 0 ≤ j < 512 → entries m' g j = entries m g j;
}.

(** ** Ledgers *)

Definition owned (x : FrameBackedSlot) : list Z := take (owned_frame_count x) (owned_frames x).
Definition held (b : SharedBacking) : list Z := take (allocated_pages b) (frames b).
Definition used (p : PageRecord) : Prop := pg_address p ≠ 0.

Definition mapcount (id : Z) (x : FrameBackedSlot) : nat := countb (λ m, occupied m && (shared_identity m =? id)) (mappings x).

(** The page records of a mapping. *)
Definition covers (m : MappingRecord) (k : nat) : Prop := (first_page m ≤ k < first_page m + mp_page_count m)%nat.

(** Page [k] lies in a mapping of the shared object [id]. *)
Definition maps_shared (x : FrameBackedSlot) (k : nat) (id : Z) : Prop :=
  id ≠ 0 ∧ ∃ j m, mappings x !! j = Some m ∧ occupied m = true ∧ shared_identity m = id
                  ∧ covers m k.

Definition backing_frame (sh : list SharedBacking) (id f : Z) : Prop :=
  ∃ j b, sh !! j = Some b ∧ sb_occupied b = true ∧ identity b = id ∧ f ∈ held b.

(** A leaf of the frame [f]: for the user, not huge, never writable and
    executable. *)
Definition leaf_form (f e : Z) : Prop :=
  Z.land e PAGE_ADDRESS_MASK = f ∧ Z.land e 0x84 = ENTRY_USER
  ∧ (Z.land e ENTRY_WRITABLE ≠ 0 → Z.land e ENTRY_NO_EXECUTE ≠ 0).

(** ** One address space *)

Section Shape.
Context (cfg : Config).

Record slot_shape (x : FrameBackedSlot) : Prop := {
  ss_mappings : length (mappings x) = MAXIMUM_PROCESS_SEGMENTS;
  ss_pages : length (pages x) = MAXIMUM_PROCESS_PAGES cfg;
  ss_owned : length (owned_frames x) = MAXIMUM_OWNED_FRAMES cfg;
  ss_count : (owned_frame_count x ≤ MAXIMUM_OWNED_FRAMES cfg)%nat;
  ss_used : ∀ j m, mappings x !! j = Some m → occupied m = true → (j < mapping_count x)%nat;
  ss_shared : ∀ j m, mappings x !! j = Some m → occupied m = true → shared_identity m ≠ 0 → releasable m = true ∧ heap m = false;
  ss_staging : phase x = Staging →
    0 < image_start x ∧ (∀ k p, (k < page_count x)%nat → pages x !! k = Some p → used p)
    ∧ (∀ j m, mappings x !! j = Some m → occupied m = true →
         (first_page m + mp_page_count m ≤ page_count x)%nat ∧ shared_identity m = 0);
}.

End Shape.

Section Owner.
Context {KF : KernelFrames}.

(** A page record's frame is the process's own, no table, and recorded once; or
    belongs to a shared object that [shares] says the page maps; or is the
    kernel's. *)
Definition page_owner (ent : Entries) (sh : list SharedBacking) (shares : nat → Z → Prop) (x : FrameBackedSlot) (r : Z)
    (k : nat) (f : Z) : Prop :=
  (f ∈ owned x ∧ ¬ is_table ent r f ∧ ∀ k' p', pages x !! k' = Some p' → used p' → frame p' = f → k' = k)
  ∨ (∃ id, shares k id ∧ backing_frame sh id f)
  ∨ f ∈ kernel_frames.

Record slot_tree (ent : Entries) (sh : list SharedBacking) (shares : nat → Z → Prop) (x : FrameBackedSlot) (r : Z) : Prop := {
  st_hier : hierarchy ent (owned x) r;
  st_leaf : ∀ va, user_address va → leaf ent r va ≠ 0 →
    ∃ k p, pages x !! k = Some p ∧ used p ∧ page_of (pg_address p) = page_of va ∧ leaf_form (frame p) (leaf ent r va);
  st_address : ∀ k p, pages x !! k = Some p → used p →
    user_address (pg_address p) ∧ is_Some (descend ent r (table_path (pg_address p)));
  st_owner : ∀ k p, pages x !! k = Some p → used p → page_owner ent sh shares x r k (frame p);
}.

Definition slot_space (ent : Entries) (sh : list SharedBacking) (shares : nat → Z → Prop) (x : FrameBackedSlot) : Prop :=
  match root x with
  | Some r => slot_tree ent sh shares x r
  | None => ∀ k p, pages x !! k = Some p → ¬ used p
  end.

End Owner.

(** ** The whole pool *)

(** What an operation has in flight: pages that are being mapped to a shared
    object, slots that are being torn down, references not yet accounted for. *)
Record Flight := mkFlight {
  mapping_in : nat → nat → Z → Prop;
  torn_down : nat → Prop;
  unaccounted : Z → Z;
}.
Definition at_rest : Flight := mkFlight (λ _ _ _, False) (λ _, False) (λ _, 0).

Definition shares_of (g : Flight) (i : nat) (x : FrameBackedSlot) (k : nat) (id : Z) : Prop := maps_shared x k id ∨ mapping_in g i k id.

Record backing_shape (b : SharedBacking) : Prop := {
  bs_frames : length (frames b) = MAXIMUM_SHARED_PAGES;
  bs_vacant : sb_occupied b = false → allocated_pages b = O;
  bs_size : (0 ≤ size_bytes b) ∧ Z.of_nat (allocated_pages b) ≤ (size_bytes b + (PAGE_SIZE - 1)) / PAGE_SIZE;
  bs_pages : (allocated_pages b ≤ MAXIMUM_SHARED_PAGES)%nat;
  bs_identity : sb_occupied b = true → identity b ≠ 0;
}.

Section Pool.
Context {Mem E : Type} `{!FrameMemory Mem E, KF : !KernelFrames, !FrameMemoryLaws Mem E} (cfg : Config).
Abbreviation State := (FrameBackedAddressSpace Mem).

Definition ledger (s : State) : list Z := concat (owned <$> slots s) ++ concat (held <$> shared s).
(** The frames of the others. *)
Definition rest (i : nat) (s : State) : list Z := concat (owned <$> delete i (slots s)) ++ concat (held <$> shared s).

Definition mapped_count (id : Z) (s : State) : nat := sum_list (mapcount id <$> slots s).

Definition frame_ok (m : Mem) (f : Z) : Prop := live m f ∧ Z.land f PAGE_ADDRESS_MASK = f.

Record Core (g : Flight) (s : State) : Prop := {
  core_mem : mem_ok (memory s);
  core_nodup : NoDup (ledger s);
  core_frames : Forall (frame_ok (memory s)) (ledger s);
  core_shape : ∀ i x, slots s !! i = Some x → slot_shape cfg x;
  core_space : ∀ i x, slots s !! i = Some x → ¬ torn_down g i → slot_space (entries (memory s)) (shared s) (shares_of g i x) x;
  core_backing : ∀ j b, shared s !! j = Some b → backing_shape b;
  core_identity : ∀ j j' b b', shared s !! j = Some b → shared s !! j' = Some b' → sb_occupied b = true → sb_occupied b' = true →
    identity b = identity b' → j = j';
  core_references : ∀ j b, shared s !! j = Some b → sb_occupied b = true →
    Z.of_nat (mapping_references b) = Z.of_nat (mapped_count (identity b) s) + unaccounted g (identity b);
  core_present : ∀ id, id ≠ 0 → 0 < Z.of_nat (mapped_count id s) + unaccounted g id →
    ∃ j b, shared s !! j = Some b ∧ sb_occupied b = true ∧ identity b = id;
  core_active : ∀ i, active_slot s = Some i → ∃ x, slots s !! i = Some x ∧ phase x = Staging;
}.

(** ** Between operations *)

Definition tail_unused (x : FrameBackedSlot) : Prop := ∀ k p, (page_count x ≤ k)%nat → pages x !! k = Some p → ¬ used p.

(** The pages of a mapping follow one another, and there are as many as its
    size asks for. *)
Definition laid_out (P : list PageRecord) (m : MappingRecord) : Prop :=
  0 ≤ memory_size m ∧ Z.of_nat (mp_page_count m) = (memory_size m + (PAGE_SIZE - 1)) / PAGE_SIZE
  ∧ ∀ h, (h < mp_page_count m)%nat →
      ∃ p, P !! (first_page m + h)%nat = Some p ∧ used p ∧ pg_address p = mp_address m + Z.of_nat h * PAGE_SIZE.

(** A slot that no operation is at work on: the pages of every mapping are its
    own and not the kernel's, a free slot holds nothing, and the initial stack
    leaves the first page of the address space alone. *)
Record tidy (x : FrameBackedSlot) : Prop := {
  td_tail : tail_unused x;
  td_pages : ∀ j m, mappings x !! j = Some m → occupied m = true → laid_out (pages x) m;
  td_apart : ∀ j j' m m' k, mappings x !! j = Some m → mappings x !! j' = Some m' → occupied m = true → occupied m' = true →
    covers m k → covers m' k → j = j';
  td_free : phase x = Free → root x = None ∧ owned_frame_count x = O ∧ (∀ k p, pages x !! k = Some p → ¬ used p)
    ∧ ∀ j m, mappings x !! j = Some m → occupied m = false;
  td_root : phase x ≠ Free → is_Some (root x);
  td_heap : ∀ j m, mappings x !! j = Some m → occupied m = true → heap m = true → mp_address m = LINUX_BRK_BASE;
  td_info : phase x = Committed → address_space_root (process_info x) = root x;
  td_kernel : ∀ j m k p, mappings x !! j = Some m → occupied m = true → covers m k → pages x !! k = Some p → frame p ∉ kernel_frames;
  td_stack : Z.of_nat (initial_stack_pages x) * PAGE_SIZE ≤ INITIAL_USER_STACK_BASE;
}.

Definition Inv (s : State) : Prop := Core at_rest s ∧ ∀ i x, slots s !! i = Some x → tidy x.

(** The leaf entry of an address of a process. *)
Definition leaf_of (s : State) (i : nat) (va : Z) : Z :=
  match slots s !! i with
  | Some x => match root x with Some r => leaf (entries (memory s)) r va | None => 0 end
  | None => 0
  end.

End Pool.
