(* ===== verification/DirectMap.v ===== *)
(** * Physical memory behind the direct map

    [DirectMapFrameMemory] of process/x86_64.rs: frames come from the bitmap
    allocator of core/abyss, and their bytes are reached at a fixed offset. It
    keeps the laws that the address spaces ask of physical memory. *)

From stdpp Require Import prelude gmap list numbers.
From Stdlib Require Import ZArith Lia.
From S2P Require Import Prelude.
From S2P Require Import UserMemory.
From S2P Require Import FrameAlloc.
From S2P Require Import FrameAllocProofs.
From S2P Require Import Wp.
From S2P Require Import AddressSpace.
From S2P Require Import PageTree.
From S2P Require Import SpaceInv.

#[local] Open Scope Z_scope.

Inductive DirectMapMemoryError :=
| OutOfFrames
| InvalidAccess
| AddressOverflow
| Allocator (e : FrameAllocatorError).

(** [ram] is the memory that the direct map shows, by virtual address. *)
Record DirectMapFrameMemory := mkDirectMap {
  dm_frames : BitmapFrameAllocator;
  direct_map_base : Z;
  mapped_physical_limit : Z;
  ram : Z → Z;
}.

Definition with_frames (a : BitmapFrameAllocator) (m : DirectMapFrameMemory) : DirectMapFrameMemory :=
  mkDirectMap a (direct_map_base m) (mapped_physical_limit m) (ram m).
Definition with_ram (r : Z → Z) (m : DirectMapFrameMemory) : DirectMapFrameMemory :=
  mkDirectMap (dm_frames m) (direct_map_base m) (mapped_physical_limit m) r.

(** Accesses through a pointer. *)
Definition load_from (p : Z) (n : nat) (r : Z → Z) : list Z := (λ h, r (p + Z.of_nat h)) <$> seq 0 n.
Definition store_at (p : Z) (bytes : list Z) (r : Z → Z) : Z → Z :=
  λ a, if (p <=? a) && (a <? p + Z.of_nat (length bytes)) then slot_at 0 bytes (Z.to_nat (a - p)) else r a.
Definition zero_at (p n : Z) (r : Z → Z) : Z → Z := λ a, if (p <=? a) && (a <? p + n) then 0 else r a.

Definition exceeds (a b limit : Z) : bool :=
  match checked_add U64_MAX a b with Some stop => limit <? stop | None => true end.

Definition pointer (m : DirectMapFrameMemory) (f offset length : Z) : Result Z DirectMapMemoryError :=
  if negb (is_page_aligned f) || exceeds offset length PAGE_SIZE || exceeds f PAGE_SIZE (mapped_physical_limit m) then Err InvalidAccess
  else
    match checked_add U64_MAX (direct_map_base m) f with
    | None => Err AddressOverflow
    | Some base => match checked_add U64_MAX base offset with None => Err AddressOverflow | Some address => Ok address end
    end.

(** [PhysicalFramePool::release] under [map_err(DirectMapMemoryError::Allocator)] *)
Definition dm_release (f : Z) : M DirectMapFrameMemory DirectMapMemoryError unit := zoom dm_frames with_frames Allocator (deallocate f).

Definition dm_allocate_zeroed : M DirectMapFrameMemory DirectMapMemoryError Z :=
  λ m, match FrameAlloc.allocate (dm_frames m) with
       | (None, a) => (Err OutOfFrames, with_frames a m)
       | (Some f, a) =>
           let m := with_frames a m in
           match pointer m f 0 PAGE_SIZE with
           | Ok p => (Ok f, with_ram (zero_at p PAGE_SIZE (ram m)) m)
           | Err e => (dm_release f;; throw e) m
           end
       end.

Definition dm_read_entry (table index : Z) (m : DirectMapFrameMemory) : Result Z DirectMapMemoryError :=
  if TABLE_ENTRIES <=? index then Err InvalidAccess
  else match pointer m table (index * 8) 8 with
       | Ok p => Ok (from_ne_bytes (load_from p 8 (ram m)))
       | Err e => Err e
       end.

Definition dm_write_entry (table index value : Z) : M DirectMapFrameMemory DirectMapMemoryError unit :=
  ensure (index <? TABLE_ENTRIES) InvalidAccess;;
  m ← getS;
  p ← of_result (pointer m table (index * 8) 8);
  putS (with_ram (store_at p (to_ne_bytes 8 value) (ram m)) m).

Definition dm_write_bytes (f offset : Z) (bytes : list Z) : M DirectMapFrameMemory DirectMapMemoryError unit :=
  m ← getS;
  p ← of_result (pointer m f offset (Z.of_nat (length bytes)));
  putS (with_ram (store_at p bytes (ram m)) m).

Definition read_bytes (f offset : Z) (length : nat) (m : DirectMapFrameMemory) : Result (list Z) DirectMapMemoryError :=
  match pointer m f offset (Z.of_nat length) with Ok p => Ok (load_from p length (ram m)) | Err e => Err e end.

Definition bytes_equal (f offset : Z) (bytes : list Z) (m : DirectMapFrameMemory) : Result bool DirectMapMemoryError :=
  match pointer m f offset (Z.of_nat (length bytes)) with
  | Ok p => Ok (bool_decide (load_from p (length bytes) (ram m) = bytes))
  | Err e => Err e
  end.

Definition bytes_zero (f offset : Z) (length : nat) (m : DirectMapFrameMemory) : Result bool DirectMapMemoryError :=
  match pointer m f offset (Z.of_nat length) with
  | Ok p => Ok (forallb (Z.eqb 0) (load_from p length (ram m)))
  | Err e => Err e
  end.

#[global] Instance direct_map_memory : FrameMemory DirectMapFrameMemory DirectMapMemoryError := {
  allocate_zeroed := dm_allocate_zeroed;
  release := dm_release;
  read_entry := dm_read_entry;
  write_entry := dm_write_entry;
  write_bytes := dm_write_bytes;
}.

(** ** Bytes *)

Lemma from_ne_bytes_range l : Forall is_u8 l → 0 ≤ from_ne_bytes l < 256 ^ Z.of_nat (length l).
Proof.
  induction 1 as [|b l Hb Hl IH]; [done|]. simpl length. rewrite Nat2Z.inj_succ, Z.pow_succ_r by lia. unfold from_ne_bytes in *. simpl.
  unfold is_u8, U8_MAX in Hb. lia.
Qed.

Lemma word_of_bytes n : ∀ v, 0 ≤ v < 256 ^ Z.of_nat n → from_ne_bytes (to_ne_bytes n v) = v.
Proof.
  induction n as [|n IH]; intros v Hv; [simpl in *; lia|]. rewrite Nat2Z.inj_succ, Z.pow_succ_r in Hv by lia.
  unfold from_ne_bytes in *. simpl. rewrite IH; [pose proof (Z.div_mod v 256 ltac:(done)); lia|].
  split; [apply Z.div_pos; lia|apply Z.div_lt_upper_bound; lia].
Qed.

Lemma to_ne_bytes_length n : ∀ v, length (to_ne_bytes n v) = n.
Proof. induction n as [|n IH]; intros v; simpl; auto. Qed.

Lemma load_from_length p n r : length (load_from p n r) = n.
Proof. unfold load_from. by rewrite length_fmap, length_seq. Qed.

Lemma load_from_ext p n r r' : (∀ a, p ≤ a < p + Z.of_nat n → r a = r' a) → load_from p n r = load_from p n r'.
Proof. intros H. apply list_fmap_ext. intros h x [-> Hh]%lookup_seq. apply H. lia. Qed.

Lemma load_from_u8 p n r : (∀ a, is_u8 (r a)) → Forall is_u8 (load_from p n r).
Proof. intros H. apply Forall_fmap, list.Forall_forall. intros h _. apply H. Qed.

(** What was stored is loaded. *)
Lemma load_store p bytes r : load_from p (length bytes) (store_at p bytes r) = bytes.
Proof.
  apply list_eq_same_length with (n := length bytes); [done|apply load_from_length|]. intros h a b Hh Ha Hb.
  unfold load_from in Ha. rewrite list_lookup_fmap in Ha. destruct (seq 0 (length bytes) !! h) as [k|] eqn:Hk; [|done].
  apply lookup_seq in Hk as [-> _]. injection Ha as <-. simpl. unfold store_at. replace (p + Z.of_nat h - p) with (Z.of_nat h) by lia.
  rewrite Nat2Z.id, (slot_at_Some _ _ _ _ Hb). destruct (Z.leb_spec p (p + Z.of_nat h)); [|lia].
  by destruct (Z.ltb_spec (p + Z.of_nat h) (p + Z.of_nat (length bytes))); [|lia].
Qed.

Lemma store_out p bytes r a : a < p ∨ p + Z.of_nat (length bytes) ≤ a → store_at p bytes r a = r a.
Proof.
  intros H. unfold store_at. destruct (Z.leb_spec p a); [|done]. by destruct (Z.ltb_spec a (p + Z.of_nat (length bytes))); [lia|].
Qed.

Lemma zero_out p n r a : a < p ∨ p + n ≤ a → zero_at p n r a = r a.
Proof. intros H. unfold zero_at. destruct (Z.leb_spec p a); [|done]. by destruct (Z.ltb_spec a (p + n)); [lia|]. Qed.

Lemma store_u8 p bytes r : Forall is_u8 bytes → (∀ a, is_u8 (r a)) → ∀ a, is_u8 (store_at p bytes r a).
Proof.
  intros Hb Hr a. unfold store_at. destruct ((p <=? a) && _) eqn:H; [|done]. unfold slot_at.
  destruct (bytes !! Z.to_nat (a - p)) eqn:Hl; [|done]. by eapply Forall_lookup_1 in Hl.
Qed.

(** ** The laws *)

Section Laws.
Context {KF : KernelFrames}.

(** The allocator does not hand out the frames of the kernel image: they are
    set aside at boot, or it does not manage them. *)
Definition kernel_set_aside (a : BitmapFrameAllocator) : Prop :=
  ∀ f, f ∈ kernel_frames → Z.land f PAGE_ADDRESS_MASK = f
    ∧ ∀ k, f = frame_address k → (k < frame_count a)%nat → is_reserved a k = true.

Lemma kernel_set_aside_same a a' : frame_count a' = frame_count a → reserved a' = reserved a → kernel_set_aside a → kernel_set_aside a'.
Proof. intros Hc Hr Ha f Hf. destruct (Ha f Hf) as [H1 H2]. split; [done|]. unfold is_reserved. by rewrite Hc, Hr. Qed.

Definition dm_ok (m : DirectMapFrameMemory) : Prop :=
  allocator_wf (dm_frames m) ∧ 0 ≤ direct_map_base m ∧ 0 ≤ mapped_physical_limit m
  ∧ direct_map_base m + mapped_physical_limit m ≤ U64_MAX ∧ (∀ a, is_u8 (ram m a)) ∧ kernel_set_aside (dm_frames m).

(** A frame that is handed out, not set aside at boot, and mapped. *)
Definition dm_live (m : DirectMapFrameMemory) (f : Z) : Prop :=
  ∃ k, f = frame_address k ∧ (k < frame_count (dm_frames m))%nat ∧ k ∉ free_set (dm_frames m) ∧ is_reserved (dm_frames m) k = false
       ∧ f + PAGE_SIZE ≤ mapped_physical_limit m.

Definition dm_entries (m : DirectMapFrameMemory) (t i : Z) : Z := from_ne_bytes (load_from (direct_map_base m + t + i * 8) 8 (ram m)).

Lemma exceeds_false a b limit : limit ≤ U64_MAX → exceeds a b limit = false ↔ a + b ≤ limit.
Proof.
  intros Hl. unfold exceeds. destruct (checked_add U64_MAX a b) as [stop|] eqn:H.
  - apply checked_add_Some in H as [-> _]. by rewrite Z.ltb_ge.
  - apply checked_add_None in H. split; [done|lia].
Qed.

Lemma frame_aligned k : is_page_aligned (frame_address k) = true.
Proof.
  unfold is_page_aligned. change (AddressSpace.PAGE_SIZE - 1) with (Z.ones 12). rewrite Z.land_ones by lia. apply Z.eqb_eq.
  unfold frame_address. change FrameAlloc.PAGE_SIZE with (2 ^ 12). by apply Z.mod_mul.
Qed.

(** Where a pointer leads. *)
Lemma pointer_spec m k offset n : dm_ok m → frame_address k + PAGE_SIZE ≤ mapped_physical_limit m → 0 ≤ offset → 0 ≤ n → offset + n ≤ PAGE_SIZE →
  pointer m (frame_address k) offset n = Ok (direct_map_base m + frame_address k + offset).
Proof.
  intros (_ & Hb & Hl & Hbl & _) Hk Ho Hn Hon. unfold pointer. rewrite frame_aligned.
  assert (0 ≤ frame_address k) by (unfold frame_address, FrameAlloc.PAGE_SIZE; lia).
  rewrite (proj2 (exceeds_false offset n PAGE_SIZE ltac:(done)) Hon), (proj2 (exceeds_false (frame_address k) PAGE_SIZE (mapped_physical_limit m) ltac:(lia)) Hk). simpl.
  unfold AddressSpace.PAGE_SIZE in *. unfold checked_add. destruct (Z.leb_spec (direct_map_base m + frame_address k) U64_MAX); [|lia].
  by destruct (Z.leb_spec (direct_map_base m + frame_address k + offset) U64_MAX); [|lia].
Qed.

(** A pointer leads into one frame. *)
Lemma pointer_Ok m f offset n p : pointer m f offset n = Ok p → 0 ≤ f →
  ∃ k, f = frame_address k ∧ offset + n ≤ PAGE_SIZE ∧ p = direct_map_base m + frame_address k + offset.
Proof.
  unfold pointer. destruct (is_page_aligned f) eqn:Hal; [|done]. destruct (exceeds offset n _) eqn:He; [done|].
  destruct (exceeds f _ _); [done|]. simpl. intros Hp Hf. exists (Z.to_nat (f / FrameAlloc.PAGE_SIZE)).
  assert (Heq : f = frame_address (Z.to_nat (f / FrameAlloc.PAGE_SIZE))).
  { unfold is_page_aligned in Hal. change (AddressSpace.PAGE_SIZE - 1) with (Z.ones 12) in Hal. rewrite Z.land_ones in Hal by lia.
    apply Z.eqb_eq in Hal. unfold frame_address. change FrameAlloc.PAGE_SIZE with (2 ^ 12). rewrite Z2Nat.id by (apply Z.div_pos; lia).
    pose proof (Z.div_mod f (2 ^ 12) ltac:(lia)). lia. }
  rewrite <-Heq. split_and!; [done|by apply exceeds_false in He|].
  unfold checked_add in Hp. destruct (_ <=? U64_MAX); [|done]. destruct (_ <=? U64_MAX); [congruence|done].
Qed.

Lemma pointer_err m k e : dm_ok m → pointer m (frame_address k) 0 PAGE_SIZE = Err e → mapped_physical_limit m < frame_address k + PAGE_SIZE.
Proof. intros Hm He. apply Z.nle_gt. intros Hk. rewrite (pointer_spec m k 0 _ Hm Hk) in He by done. done. Qed.

(** Frames do not overlap. *)
Lemma frames_apart k k' : k ≠ k' → frame_address k + PAGE_SIZE ≤ frame_address k' ∨ frame_address k' + PAGE_SIZE ≤ frame_address k.
Proof. unfold frame_address, FrameAlloc.PAGE_SIZE, AddressSpace.PAGE_SIZE. lia. Qed.

Lemma dm_entries_ext m m' t i : direct_map_base m' = direct_map_base m →
  (∀ a, direct_map_base m + t + i * 8 ≤ a < direct_map_base m + t + i * 8 + 8 → ram m' a = ram m a) → dm_entries m' t i = dm_entries m t i.
Proof. intros Hb H. unfold dm_entries. rewrite Hb. f_equal. apply load_from_ext. intros a Ha. apply H. lia. Qed.

Lemma dm_entries_u64 m p : (∀ a, is_u8 (ram m a)) → is_u64 (from_ne_bytes (load_from p 8 (ram m))).
Proof.
  intros H. pose proof (from_ne_bytes_range (load_from p 8 (ram m)) (load_from_u8 _ _ _ H)) as Hr. rewrite load_from_length in Hr.
  unfold is_u64, U64_MAX. change (256 ^ Z.of_nat 8) with (2 ^ 64) in Hr. lia.
Qed.

(** Giving back a frame that was handed out. *)
Lemma dm_release_spec m k : dm_ok m → (k < frame_count (dm_frames m))%nat → k ∉ free_set (dm_frames m) → is_reserved (dm_frames m) k = false →
  ∃ a, dm_release (frame_address k) m = (Ok tt, with_frames a m) ∧ allocator_wf a ∧ free_set a = free_set (dm_frames m) ∪ {[k]}
       ∧ frame_count a = frame_count (dm_frames m) ∧ reserved a = reserved (dm_frames m).
Proof.
  intros (Hw & _) Hk Hf Hr. assert (H0 : 0 ≤ frame_address k) by (unfold frame_address, FrameAlloc.PAGE_SIZE; lia).
  assert (Hdiv : Z.to_nat (frame_address k / FrameAlloc.PAGE_SIZE) = k) by (unfold frame_address; rewrite Z.div_mul by done; lia).
  pose proof (deallocate_contiguous_spec (dm_frames m) (frame_address k) 1 Hw H0 ltac:(lia)) as H. unfold dm_release, deallocate, zoom.
  destruct (deallocate_contiguous _ 1 (dm_frames m)) as [[[]|e] a].
  - destruct H as (first & Heq & _ & _ & _ & _ & H1 & H2 & H3 & H4). assert (first = k) as -> by (unfold frame_address, FrameAlloc.PAGE_SIZE in Heq; lia).
    exists a. split_and!; try done. rewrite H1. unfold run_set. simpl. by rewrite union_empty_r_L.
  - exfalso. destruct H as [_ H]. unfold release_refused in H. rewrite Hdiv in H. unfold within in H.
    destruct e; try done; [|lia|destruct H as (j & Hj & Hrj)|destruct H as (j & Hj & Hfj)].
    + apply H. unfold frame_address. apply Z.divide_factor_r.
    + replace j with k in Hrj by lia. congruence.
    + by replace j with k in Hfj by lia.
Qed.

Lemma dm_allocate_law m : dm_ok m →
  match dm_allocate_zeroed m with
  | (Ok f, m') => dm_ok m' ∧ ¬ dm_live m f ∧ (∀ g, dm_live m' g ↔ g = f ∨ dm_live m g) ∧ (∀ j, 0 ≤ j < 512 → dm_entries m' f j = 0)
                  ∧ ∀ g j, dm_live m g → 0 ≤ j < 512 → dm_entries m' g j = dm_entries m g j
  | (Err _, m') => dm_ok m' ∧ (∀ g, dm_live m' g ↔ dm_live m g) ∧ ∀ g j, dm_live m g → 0 ≤ j < 512 → dm_entries m' g j = dm_entries m g j
  end.
Proof.
  intros Hm. pose proof Hm as (Hw & Hb & Hl & Hbl & Hr & Hkn). unfold dm_allocate_zeroed. pose proof (allocate_spec (dm_frames m) Hw) as Ha.
  destruct (FrameAlloc.allocate (dm_frames m)) as [[f|] a]; [|destruct Ha as [-> _]; by split_and!].
  destruct Ha as (k & Hk & -> & Hfree & Hwa & Hcount & Hres). set (m1 := with_frames a m).
  assert (Hm1 : dm_ok m1) by (split_and!; try done; by eapply kernel_set_aside_same). pose proof (proj1 (elem_of_free _ _) Hk) as [Hlt Hnot].
  assert (Hnres : is_reserved (dm_frames m) k = false) by (destruct (is_reserved (dm_frames m) k) eqn:H; [|done]; pose proof (aw_reserved _ Hw k Hlt H); congruence).
  destruct (pointer m1 (frame_address k) 0 PAGE_SIZE) as [p|e] eqn:Hp.
  - assert (Hfit : frame_address k + PAGE_SIZE ≤ mapped_physical_limit m).
    { apply Z.nlt_ge. intros Hgt. unfold pointer in Hp. rewrite frame_aligned in Hp. simpl in Hp.
      destruct (exceeds (frame_address k) _ _) eqn:He; [done|]. apply exceeds_false in He; lia. }
    rewrite (pointer_spec m1 k 0 _ Hm1 Hfit) in Hp by done. injection Hp as <-. rewrite Z.add_0_r. split_and!; try done; simpl.
    + split_and!; try done; [|by eapply kernel_set_aside_same]. intros x. simpl. unfold zero_at. by destruct ((_ <=? x) && _).
    + intros (k' & Heq & _ & Hn & _). apply Hn. by replace k' with k by (unfold frame_address, FrameAlloc.PAGE_SIZE in Heq; lia).
    + intros g. unfold dm_live. simpl. rewrite Hcount, Hfree. unfold is_reserved. rewrite Hres. setoid_rewrite elem_of_difference. setoid_rewrite elem_of_singleton.
      split; [intros (k' & -> & H1 & H2 & H3 & H4); destruct (decide (k' = k)) as [->|]; [by left|right; exists k'; naive_solver]|].
      intros [->|(k' & -> & H1 & H2 & H3 & H4)]; [exists k|exists k']; naive_solver.
    + intros j Hj. unfold dm_entries. rewrite (load_from_ext _ 8 _ (λ _, 0)); [done|]. intros x Hx. simpl in *. unfold zero_at, AddressSpace.PAGE_SIZE.
      destruct (Z.leb_spec (direct_map_base m + frame_address k) x); [|lia]. by destruct (Z.ltb_spec x (direct_map_base m + frame_address k + 4096)); [|lia].
    + intros g j (k' & -> & _ & Hn & _) Hj. apply dm_entries_ext; [done|]. intros x Hx. simpl. apply zero_out.
      destruct (frames_apart k k' ltac:(by intros ->)); unfold AddressSpace.PAGE_SIZE in *; lia.
  - pose proof (pointer_err m1 k e Hm1 Hp) as Hgt. destruct (dm_release_spec m1 k Hm1) as (a' & Hrel & A1 & A2 & A3 & A4); simpl.
    { lia. } { rewrite Hfree. set_solver. } { unfold is_reserved in *. by rewrite Hres. }
    unfold mbind, M_bind. rewrite Hrel. simpl. simpl in A2, A3, A4. split_and!; try done; [split_and!; try done; eapply kernel_set_aside_same; [..|exact Hkn]; simpl; congruence|].
    intros g. unfold dm_live. simpl. rewrite A3, Hcount. unfold is_reserved. rewrite A4, Hres.
    replace (free_set a') with (free_set (dm_frames m)); [done|]. rewrite A2, Hfree. apply set_eq. intros j. destruct (decide (j = k)); set_solver.
Qed.

Lemma dm_release_law m f : dm_ok m → dm_live m f →
  ∃ m', dm_release f m = (Ok tt, m') ∧ dm_ok m' ∧ (∀ g, dm_live m' g ↔ dm_live m g ∧ g ≠ f)
        ∧ ∀ g j, dm_live m' g → 0 ≤ j < 512 → dm_entries m' g j = dm_entries m g j.
Proof.
  intros Hm (k & -> & Hk & Hn & Hr & Hl). destruct (dm_release_spec m k Hm Hk Hn Hr) as (a & Hrel & A1 & A2 & A3 & A4).
  exists (with_frames a m). destruct Hm as (_ & M1 & M2 & M3 & M4 & Hkn).
  split_and!; [done|split_and!; try done; by eapply kernel_set_aside_same| |done].
  intros g. unfold dm_live. simpl. rewrite A2, A3. unfold is_reserved. rewrite A4.
  setoid_rewrite not_elem_of_union. setoid_rewrite elem_of_singleton. split.
  - intros (k' & -> & H1 & [H2 H3] & H4 & H5). split; [by exists k'|]. unfold frame_address, FrameAlloc.PAGE_SIZE. lia.
  - intros [(k' & -> & H1 & H2 & H3 & H4) Hne]. exists k'. split_and!; try done. by intros ->.
Qed.

(** Writing within one frame. *)
Lemma dm_store_law m k offset bytes : dm_ok m → 0 ≤ offset → offset + Z.of_nat (length bytes) ≤ PAGE_SIZE → Forall is_u8 bytes →
  let m' := with_ram (store_at (direct_map_base m + frame_address k + offset) bytes (ram m)) m in
  dm_ok m' ∧ (∀ g, dm_live m' g ↔ dm_live m g)
  ∧ ∀ g j, dm_live m g → 0 ≤ j < 512 → g ≠ frame_address k ∨ j * 8 + 8 ≤ offset ∨ offset + Z.of_nat (length bytes) ≤ j * 8 → dm_entries m' g j = dm_entries m g j.
Proof.
  intros (H1 & H2 & H3 & H4 & H5 & H6) Ho Hlen Hb m'. split_and!; [split_and!; try done; by apply store_u8|done|].
  intros g j (k' & -> & _) Hj Hor. apply dm_entries_ext; [done|]. intros x Hx. apply store_out.
  destruct (decide (k' = k)) as [->|Hne]; [destruct Hor as [|Hor]; [done|lia]|].
  destruct (frames_apart k k' ltac:(done)); unfold AddressSpace.PAGE_SIZE in *; lia.
Qed.

#[export] Program Instance direct_map_laws : FrameMemoryLaws DirectMapFrameMemory DirectMapMemoryError := {
  mem_ok := dm_ok;
  live := dm_live;
  entries := dm_entries;
}.
Next Obligation.
  intros m f (_ & _ & _ & _ & _ & Hkn) Hf. destruct (Hkn f Hf) as [Hform Hres]. split; [|done].
  intros (k & Heq & Hk & _ & Hr & _). specialize (Hres k Heq Hk). congruence.
Qed.
Next Obligation. intros m t i (_ & _ & _ & _ & Hr & _). by apply dm_entries_u64. Qed.
Next Obligation. exact dm_allocate_law. Qed.
Next Obligation. exact dm_release_law. Qed.
Next Obligation.
  intros m t i Hm (k & -> & _ & _ & _ & Hl) Hi. simpl. unfold dm_read_entry, TABLE_ENTRIES. destruct (Z.leb_spec 512 i); [lia|].
  by rewrite (pointer_spec m k (i * 8) 8 Hm Hl) by (unfold AddressSpace.PAGE_SIZE; lia).
Qed.
Next Obligation.
  intros m t i v (_ & _ & _ & _ & Hr & _). simpl. unfold dm_read_entry. destruct (_ <=? _); [done|]. destruct (pointer _ _ _ _); [|done].
  intros [= <-]. by apply dm_entries_u64.
Qed.
Next Obligation.
  intros m t i v Hm Hlive Hi Hv. pose proof Hlive as (k & -> & _ & _ & _ & Hl). simpl. unfold dm_write_entry, TABLE_ENTRIES. m_unfold.
  destruct (Z.ltb_spec i 512); [|lia]. rewrite (pointer_spec m k (i * 8) 8 Hm Hl) by (unfold AddressSpace.PAGE_SIZE; lia). eexists. split; [done|].
  destruct (dm_store_law m k (i * 8) (to_ne_bytes 8 v) Hm) as (H1 & H2 & H3);
    [lia|rewrite to_ne_bytes_length; unfold AddressSpace.PAGE_SIZE; lia|apply to_ne_bytes_u8|]. split_and!; [done..|].
  intros g j Hg Hj. unfold update_entry. destruct (Z.eqb_spec g (frame_address k)) as [->|Hne]; simpl; [destruct (Z.eqb_spec j i) as [->|Hne]|].
  - pose proof (load_store (direct_map_base m + frame_address k + i * 8) (to_ne_bytes 8 v) (ram m)) as E.
    rewrite to_ne_bytes_length in E. etransitivity; [exact (f_equal from_ne_bytes E)|]. apply word_of_bytes. unfold is_u64, U64_MAX in Hv. change (256 ^ Z.of_nat 8) with (2 ^ 64). lia.
  - apply H3; [done..|]. right. rewrite to_ne_bytes_length. lia.
  - apply H3; [done..|by left].
Qed.
Next Obligation.
  intros m f offset bytes Hm Hlive Ho Hlen Hb. pose proof Hlive as (k & -> & _ & _ & _ & Hl). simpl. unfold dm_write_bytes. m_unfold.
  rewrite (pointer_spec m k offset _ Hm Hl) by lia. eexists. split; [done|].
  destruct (dm_store_law m k offset bytes Hm Ho Hlen Hb) as (H1 & H2 & H3). split_and!; [done..|]. intros g j Hg Hne Hj. apply H3; auto.
Qed.
Next Obligation.
  intros m f offset bytes Hm Hf Hnl Ho Hb. simpl. unfold dm_write_bytes. m_unfold.
  destruct (pointer m f offset _) as [p|e] eqn:Hp; [|by split_and!]. simpl.
  destruct (pointer_Ok m f offset _ p Hp) as (k & -> & Hlen & ->); [done..|].
  destruct (dm_store_law m k offset bytes Hm Ho Hlen Hb) as (H1 & H2 & H3). split_and!; [done..|].
  intros g j Hg Hj. apply H3; [done..|]. left. by intros ->.
Qed.

End Laws.
