(* ===== verification/SpaceSteps.v ===== *)
(** * Primitive steps of the address spaces

    The invariant of the pool is kept by a change of one slot, of one shared
    object and of memory outside the page tables; the primitives of
    process/x86_64.rs are instances. *)

From stdpp Require Import prelude list numbers.
From Stdlib Require Import ZArith Lia.
From S2P Require Import Prelude.
From S2P Require Import Wp.
From S2P Require Import AddressSpace.
From S2P Require Import PageTree.
From S2P Require Import SpaceInv.

(** ** Lists of ledgers *)


Lemma concat_delete {A B} (f : A → list B) (l : list A) i x : l !! i = Some x →
  concat (f <$> l) ≡ₚ f x ++ concat (f <$> delete i l).
Proof.
  revert i. induction l as [|a l IH]; intros [|i] Hi; simplify_eq/=; [done|].
  rewrite (IH i) by done. rewrite !(assoc (++)). by rewrite (Permutation_app_comm (f a)).
Qed.

Lemma elem_of_concat {A B} (f : A → list B) (l : list A) b : b ∈ concat (f <$> l) ↔ ∃ i x, l !! i = Some x ∧ b ∈ f x.
Proof.
  induction l as [|a l IH]; simpl; [split; [by intros ?%not_elem_of_nil|by intros (? & ? & ? & _)]|].
  rewrite elem_of_app, IH. split.
  - intros [?|(i & x & ? & ?)]; [by exists O, a|by exists (S i), x].
  - intros ([|i] & x & ? & ?); simplify_eq/=; [by left|right; by exists i, x].
Qed.

Lemma delete_insert_list {A} (l : list A) i y : delete i (<[i := y]> l) = delete i l.
Proof. revert i. induction l as [|a l IH]; intros [|i]; simpl; auto. f_equal. apply IH. Qed.

Lemma concat_insert {A B} (f : A → list B) (l : list A) i x y : l !! i = Some x →
  concat (f <$> <[i := y]> l) ≡ₚ f y ++ concat (f <$> delete i l).
Proof.
  intros Hi. rewrite (concat_delete f _ i y) by (apply list_lookup_insert_eq; by eapply lookup_lt_Some).
  by rewrite delete_insert_list.
Qed.

Lemma sum_insert {A} (f : A → nat) (l : list A) i x y : l !! i = Some x →
  (sum_list (f <$> <[i := y]> l) + f x = sum_list (f <$> l) + f y)%nat.
Proof. revert i. induction l as [|a l IH]; intros [|i] Hi; simplify_eq/=; [lia|]. specialize (IH i Hi). lia. Qed.

Lemma sum_le {A} (f : A → nat) (l : list A) i x : l !! i = Some x → (f x ≤ sum_list (f <$> l))%nat.
Proof. revert i. induction l as [|a l IH]; intros [|i] Hi; simplify_eq/=; [lia|]. specialize (IH i Hi). lia. Qed.

(** ** Entries *)

Lemma land_sub e m n : Z.land m n = n → Z.land e n = Z.land (Z.land e m) n.
Proof. intros H. by rewrite <-Z.land_assoc, H. Qed.

Lemma frame_land f n : Z.land f PAGE_ADDRESS_MASK = f → Z.land PAGE_ADDRESS_MASK n = 0 → Z.land f n = 0.
Proof. intros Hf Hn. by rewrite <-Hf, <-Z.land_assoc, Hn, Z.land_0_r. Qed.

Lemma frame_u64 f : Z.land f PAGE_ADDRESS_MASK = f → is_u64 f.
Proof. intros <-. rewrite Z.land_comm. apply is_u64_land. unfold is_u64, U64_MAX, PAGE_ADDRESS_MASK. lia. Qed.

(** The bits of a frame with flags around its address. *)
Lemma flagged_bits f c n : Z.land f PAGE_ADDRESS_MASK = f → Z.land PAGE_ADDRESS_MASK n = 0 → Z.land (Z.lor f c) n = Z.land c n.
Proof. intros Hf Hn. rewrite Z.land_lor_distr_l, (frame_land f n Hf Hn). apply Z.lor_0_l. Qed.

Lemma flagged_address f c : Z.land f PAGE_ADDRESS_MASK = f → Z.land c PAGE_ADDRESS_MASK = 0 → Z.land (Z.lor f c) PAGE_ADDRESS_MASK = f.
Proof. intros Hf Hc. by rewrite Z.land_lor_distr_l, Hf, Hc, Z.lor_0_r. Qed.

Lemma flagged_u64 f c : Z.land f PAGE_ADDRESS_MASK = f → is_u64 c → is_u64 (Z.lor f c).
Proof. intros Hf Hc. apply is_u64_lor; [by apply frame_u64|done]. Qed.

Lemma table_entry_branch f : Z.land f PAGE_ADDRESS_MASK = f →
  let v := Z.lor (Z.lor (Z.lor f ENTRY_PRESENT) ENTRY_WRITABLE) ENTRY_USER in
  is_branch v = true ∧ Z.land v PAGE_ADDRESS_MASK = f ∧ is_u64 v.
Proof.
  intros Hf v. assert (v = Z.lor f 7) as -> by (unfold v; by rewrite <-!Z.lor_assoc).
  split_and!; [|by apply flagged_address|apply flagged_u64; [done|unfold is_u64, U64_MAX; lia]].
  unfold is_branch. by rewrite flagged_bits.
Qed.

Lemma branch_present e : is_branch e = true → Z.land e ENTRY_PRESENT ≠ 0 ∧ Z.land e ENTRY_HUGE = 0 ∧ e ≠ 0.
Proof.
  unfold is_branch. intros H%Z.eqb_eq. split_and!.
  - rewrite (land_sub e branch_bits) by done. by rewrite H.
  - rewrite (land_sub e branch_bits) by done. by rewrite H.
  - by intros ->.
Qed.

(** ** Spaces in an unchanged part of memory *)

Section Trees.
Context {KF : KernelFrames}.

Lemma leaf_form_same f e e' : same_entry e e' → leaf_form f e → leaf_form f e'.
Proof.
  intros H (H1 & H2 & H3). unfold leaf_form.
  by rewrite <-!(fun m => same_entry_land e e' m H) by reflexivity.
Qed.

Lemma slot_tree_tables ent ent' sh sh' (shares shares' : nat → Z → Prop) x r :
  slot_tree ent sh shares x r → agree_tables ent r ent' →
  (∀ k p id, pages x !! k = Some p → used p → shares k id → backing_frame sh id (frame p) →
     ∃ id', shares' k id' ∧ backing_frame sh' id' (frame p)) →
  slot_tree ent' sh' shares' x r.
Proof.
  intros H Ha Hs. pose proof (st_hier _ _ _ _ _ H) as Hh. split.
  - by eapply hierarchy_tables.
  - intros va Hva Hne. pose proof (leaf_tables ent r ent' va Ha Hva) as Hl.
    destruct (st_leaf _ _ _ _ _ H va Hva) as (k & p & ? & ? & ? & Hf); [by rewrite (proj2 Hl)|].
    exists k, p. split_and!; try done. by eapply leaf_form_same.
  - intros k p Hk Hu. destruct (st_address _ _ _ _ _ H k p Hk Hu) as [Hva Hd]. split; [done|].
    by rewrite (descend_tables ent r ent') by (done || apply user_table_path; done).
  - intros k p Hk Hu. destruct (st_owner _ _ _ _ _ H k p Hk Hu) as [(? & Ht & ?)|[(id & Hsh & Hb)|Hkf]].
    + left. split_and!; try done. by rewrite (is_table_tables ent r ent').
    + right; left. by eapply Hs.
    + by right; right.
Qed.

Lemma slot_tree_agree ent ent' sh sh' (shares shares' : nat → Z → Prop) x r :
  slot_tree ent sh shares x r → agree (owned x) ent ent' →
  (∀ k p id, pages x !! k = Some p → used p → shares k id → backing_frame sh id (frame p) →
     ∃ id', shares' k id' ∧ backing_frame sh' id' (frame p)) →
  slot_tree ent' sh' shares' x r.
Proof. intros H Ha. eapply slot_tree_tables; [done|]. eapply agree_agree_tables; [by apply H|done]. Qed.

Lemma slot_space_agree ent ent' sh sh' (shares shares' : nat → Z → Prop) x :
  slot_space ent sh shares x → agree (owned x) ent ent' →
  (∀ k p id, pages x !! k = Some p → used p → shares k id → backing_frame sh id (frame p) →
     ∃ id', shares' k id' ∧ backing_frame sh' id' (frame p)) →
  slot_space ent' sh' shares' x.
Proof. unfold slot_space. destruct (root x); [apply slot_tree_agree|done]. Qed.

(** ** Page records and leaves of one space *)

(** An owned frame that is no table and that no page record names. *)
Definition fresh_in (ent : Entries) (x : FrameBackedSlot) (r f : Z) : Prop :=
  f ∈ owned x ∧ ¬ is_table ent r f ∧ ∀ k p, pages x !! k = Some p → used p → frame p ≠ f.

Section Records.
Context (ent : Entries) (sh : list SharedBacking) (shares : nat → Z → Prop) (x : FrameBackedSlot) (r : Z).
Context (H : slot_tree ent sh shares x r).

Lemma lookup_set_page k q k' p : pages (set_page k q x) !! k' = Some p → (k' = k ∧ p = q) ∨ (k' ≠ k ∧ pages x !! k' = Some p).
Proof. simpl. intros [(-> & -> & _)|[? ?]]%lookup_insert_cases; [by left|right; split; [congruence|done]]. Qed.

(** A new record in the place of an unused one. *)
Lemma slot_tree_record k p0 f va : pages x !! k = Some p0 → ¬ used p0 → user_address va →
  is_Some (descend ent r (table_path va)) →
  fresh_in ent x r f ∨ ((∃ id, shares k id ∧ backing_frame sh id f) ∨ f ∈ kernel_frames) ∧ f ∉ owned x →
  slot_tree ent sh shares (set_page k (mkPage f va) x) r.
Proof.
  intros Hk0 Hu0 Hva Hd Hf. split; [apply H|..].
  - intros a Ha Hne. destruct (st_leaf _ _ _ _ _ H a Ha Hne) as (k' & p & Hk' & Hu & ?).
    exists k', p. split; [|done]. simpl. rewrite list_lookup_insert_ne; [done|]. by intros ->; simplify_eq.
  - intros k' p [[-> ->]|[_ Hk']]%lookup_set_page Hu; [done|]. by eapply (st_address _ _ _ _ _ H).
  - intros k' p [[-> ->]|[Hne Hk']]%lookup_set_page Hu; simpl.
    + destruct Hf as [(Ho & Ht & Hp)|[Hf _]]; [left|by right]. split_and!; try done.
      intros k2 p2 [[-> ->]|[? Hk2]]%lookup_set_page Hu2 He; [done|]. by exfalso; eapply Hp.
    + destruct (st_owner _ _ _ _ _ H k' p Hk' Hu) as [(Ho & Ht & Huq)|?]; [left|by right]. split_and!; try done.
      intros k2 p2 [[-> ->]|[? Hk2]]%lookup_set_page Hu2 He; simpl in *; subst; [|by eapply Huq].
      destruct Hf as [(_ & _ & Hp)|[_ Hno]]; [by exfalso; eapply Hp|done].
Qed.

(** Removing a record whose leaf is clear. *)
Lemma slot_tree_forget k q : (∀ p, pages x !! k = Some p → used p → leaf ent r (pg_address p) = 0) → ¬ used q →
  slot_tree ent sh shares (set_page k q x) r.
Proof.
  intros Hz Hq. split; [apply H|..].
  - intros a Ha Hne. destruct (st_leaf _ _ _ _ _ H a Ha Hne) as (k' & p & Hk' & Hu & Hpg & Hform).
    exists k', p. split; [|done]. simpl. rewrite list_lookup_insert_ne; [done|]. intros ->. apply Hne.
    rewrite <-(Hz p) by done. unfold leaf.
    pose proof (indices_page _ _ Hpg) as Hi. rewrite !indices_split in Hi. apply app_inj_tail in Hi as [-> ->]. done.
  - intros k' p [[-> ->]|[_ Hk']]%lookup_set_page Hu; [done|]. by eapply (st_address _ _ _ _ _ H).
  - intros k' p [[-> ->]|[Hne Hk']]%lookup_set_page Hu; [done|].
    destruct (st_owner _ _ _ _ _ H k' p Hk' Hu) as [(Ho & Ht & Huq)|?]; [left|by right]. split_and!; try done.
    intros k2 p2 [[-> ->]|[? Hk2]]%lookup_set_page Hu2 He; [done|]. by eapply Huq.
Qed.

(** Writing the leaf of a record. *)
Lemma slot_tree_leaf ent' k p t v : pages x !! k = Some p → used p → descend ent r (table_path (pg_address p)) = Some t →
  leaf_form (frame p) v ∨ v = 0 → equal_on (owned x) (update_entry t (leaf_index (pg_address p)) v ent) ent' →
  slot_tree ent' sh shares x r
  ∧ (∀ a, user_address a → leaf ent' r a = if decide (page_of a = page_of (pg_address p)) then v else leaf ent r a)
  ∧ (∀ q, user_path q → (length q ≤ 3)%nat → descend ent' r q = descend ent r q).
Proof.
  intros Hk Hu Hd Hv Heq. destruct (st_address _ _ _ _ _ H k p Hk Hu) as [Hva _].
  pose proof (user_table_path _ Hva) as Hpath. pose proof (st_hier _ _ _ _ _ H) as Hh.
  pose proof (hierarchy_leaf_write ent (owned x) r Hh (table_path (pg_address p)) t (leaf_index (pg_address p)) v Hpath eq_refl Hd) as Hh1.
  assert (Hag : agree (owned x) (update_entry t (leaf_index (pg_address p)) v ent) ent') by by apply equal_agree.
  assert (Hleaf : ∀ a, user_address a → leaf ent' r a = if decide (page_of a = page_of (pg_address p)) then v else leaf ent r a).
  { intros a Ha. rewrite (leaf_equal _ _ _ Hh1) by done. by apply (leaf_leaf_write ent (owned x)). }
  assert (Hdesc : ∀ q, user_path q → (length q ≤ 3)%nat → descend ent' r q = descend ent r q).
  { intros q Hq Hlq. rewrite (descend_agree _ _ _ Hh1) by done. by apply (descend_leaf_write ent (owned x) r Hh (table_path (pg_address p))). }
  split_and!; [|done|done]. split.
  - by eapply hierarchy_agree.
  - intros a Ha. rewrite Hleaf by done. case_decide as Hpg; [|by apply H]. intros Hne.
    destruct Hv as [Hv| ->]; [|done]. exists k, p. by rewrite Hpg.
  - intros k' q Hk' Hq. destruct (st_address _ _ _ _ _ H k' q Hk' Hq) as [Hva' ?]. split; [done|].
    rewrite Hdesc; [done|by apply user_table_path|done].
  - intros k' q Hk' Hq. destruct (st_owner _ _ _ _ _ H k' q Hk' Hq) as [(Ho & Ht & Huq)|?]; [left|by right]. split_and!; try done.
    intros (pp & Hpp & Hlp & Hdp). apply Ht. exists pp. split_and!; try done. by rewrite <-Hdesc.
Qed.

End Records.

End Trees.

Section Steps.
Context {Mem E : Type} `{!FrameMemory Mem E, KF : !KernelFrames, !FrameMemoryLaws Mem E} (cfg : Config).
Abbreviation State := (FrameBackedAddressSpace Mem).
Implicit Types (s : State) (g : Flight).

Lemma ledger_slot s i x : slots s !! i = Some x → ledger s ≡ₚ owned x ++ rest i s.
Proof. intros H. unfold ledger, rest. by rewrite (concat_delete owned _ i x H), (assoc (++)). Qed.

Lemma ledger_set_slot (m : Mem) kr act s i x x' : slots s !! i = Some x →
  ledger (mkAddressSpace m kr act (<[i := x']> (slots s)) (shared s)) ≡ₚ owned x' ++ rest i s.
Proof. intros H. unfold ledger, rest. simpl. by rewrite (concat_insert owned _ i x x' H), (assoc (++)). Qed.

Lemma owned_in_rest s i j y : i ≠ j → slots s !! j = Some y → owned y ⊆ rest i s.
Proof.
  intros Hne Hj f Hf. unfold rest. apply elem_of_app. left. apply elem_of_concat.
  destruct (decide (j < i)%nat).
  - exists j, y. by rewrite list_lookup_delete_lt.
  - exists (j - 1)%nat, y. rewrite list_lookup_delete_ge by lia. by replace (S (j - 1)) with j by lia.
Qed.

Lemma held_in_rest s i j b : shared s !! j = Some b → held b ⊆ rest i s.
Proof. intros Hj f Hf. unfold rest. apply elem_of_app. right. apply elem_of_concat. by exists j, b. Qed.

Lemma owned_in_ledger s i x : slots s !! i = Some x → owned x ⊆ ledger s.
Proof. intros H f Hf. rewrite (ledger_slot s i x H). set_solver. Qed.

Lemma rest_in_ledger s i x : slots s !! i = Some x → rest i s ⊆ ledger s.
Proof. intros H f Hf. rewrite (ledger_slot s i x H). set_solver. Qed.

Lemma mapped_count_set_slot (m : Mem) kr act s i x x' id : slots s !! i = Some x →
  (mapped_count id (mkAddressSpace m kr act (<[i := x']> (slots s)) (shared s)) + mapcount id x = mapped_count id s + mapcount id x')%nat.
Proof. intros H. by apply sum_insert. Qed.

(** *** Changing one slot *)

Lemma core_slot_step g g' s i x x' m' act :
  Core cfg g s → slots s !! i = Some x → mem_ok m' →
  NoDup (owned x' ++ rest i s) → Forall (frame_ok m') (owned x') → (∀ f, f ∈ rest i s → live m' f) →
  agree (rest i s) (entries (memory s)) (entries m') →
  slot_shape cfg x' →
  (¬ torn_down g' i → slot_space (entries m') (shared s) (shares_of g' i x') x') →
  (∀ id, id ≠ 0 → Z.of_nat (mapcount id x') + unaccounted g' id = Z.of_nat (mapcount id x) + unaccounted g id) →
  (∀ j, j ≠ i → mapping_in g' j = mapping_in g j ∧ (torn_down g j → torn_down g' j)) →
  (∀ k, act = Some k → (active_slot s = Some k ∧ k ≠ i) ∨ (k = i ∧ phase x' = Staging)) →
  Core cfg g' (mkAddressSpace m' (kernel_root s) act (<[i := x']> (slots s)) (shared s)).
Proof.
  intros C Hi Hm Hnd Hfr Hlive Hag Hsh Hsp Hcnt Hg Hact.
  assert (Hcount : ∀ id, id ≠ 0 → Z.of_nat (mapped_count id (mkAddressSpace m' (kernel_root s) act (<[i := x']> (slots s)) (shared s)))
                         + unaccounted g' id = Z.of_nat (mapped_count id s) + unaccounted g id).
  { intros id Hid. pose proof (mapped_count_set_slot m' (kernel_root s) act s i x x' id Hi). specialize (Hcnt id Hid). lia. }
  split; simpl.
  - done.
  - by rewrite ledger_set_slot by done.
  - rewrite ledger_set_slot by done. apply Forall_app. split; [done|]. apply list.Forall_forall. intros f Hf.
    split; [by apply Hlive|]. pose proof (core_frames _ _ _ C) as Hall. rewrite list.Forall_forall in Hall.
    by apply Hall, (rest_in_ledger s i x).
  - intros j y Hj. apply lookup_insert_cases in Hj as [(? & ? & _)|[_ Hj]]; [by subst|by eapply (core_shape _ _ _ C)].
  - intros j y Hj. apply lookup_insert_cases in Hj as [(? & ? & _)|[Hne Hj]]; [by subst|]. intros Hnt.
    destruct (Hg j (not_eq_sym Hne)) as [Hmi Htd]. eapply slot_space_agree; [eapply (core_space _ _ _ C j y); eauto|..].
    + intros t k Ht. apply Hag. by eapply owned_in_rest.
    + intros k p id _ _ Hs Hb. exists id. split; [|done]. unfold shares_of in *. by rewrite Hmi.
  - apply C.
  - apply C.
  - intros j b Hj Ho. rewrite (core_references _ _ _ C j b Hj Ho). symmetry. apply Hcount. by apply (core_backing _ _ _ C j b).
  - intros id Hid Hpos. apply (core_present _ _ _ C id Hid). by rewrite <-Hcount.
  - intros k Hk. destruct (Hact k Hk) as [[Hk' Hne]|[-> Hp]].
    + destruct (core_active _ _ _ C k Hk') as (y & Hy & Hp). exists y. by rewrite list_lookup_insert_ne.
    + exists x'. rewrite list_lookup_insert_eq by (by eapply lookup_lt_Some). done.
Qed.

(** *** Changing memory *)

Lemma core_memory_tables g s m' : Core cfg g s → mem_ok m' → (∀ f, f ∈ ledger s → live m' f) →
  (∀ i x r, slots s !! i = Some x → root x = Some r → ¬ torn_down g i → agree_tables (entries (memory s)) r (entries m')) →
  Core cfg g (with_memory m' s).
Proof.
  intros C Hm Hlive Hag. split; simpl; try apply C; [done|..].
  - apply list.Forall_forall. intros f Hf. split; [by apply Hlive|].
    pose proof (core_frames _ _ _ C) as Hall. rewrite list.Forall_forall in Hall. by apply Hall.
  - intros i x Hi Hnt. pose proof (core_space _ _ _ C i x Hi Hnt) as Hsp. unfold slot_space in *.
    destruct (root x) as [r|] eqn:Hr; [|done]. eapply slot_tree_tables; [done|by eapply Hag|eauto].
Qed.

Lemma core_memory g s m' : Core cfg g s → mem_ok m' → (∀ f, f ∈ ledger s → live m' f) →
  agree (ledger s) (entries (memory s)) (entries m') → Core cfg g (with_memory m' s).
Proof.
  intros C Hm Hlive Hag. apply core_memory_tables; try done. intros i x r Hx Hr Hn t j Ht. apply Hag.
  pose proof (core_space _ _ _ C i x Hx Hn) as Hsp. unfold slot_space in Hsp. rewrite Hr in Hsp.
  eapply owned_in_ledger; [done|]. by apply Hsp.
Qed.

Lemma core_owned_live g s f : Core cfg g s → f ∈ ledger s → live (memory s) f ∧ Z.land f PAGE_ADDRESS_MASK = f.
Proof. intros C Hf. pose proof (core_frames _ _ _ C) as H. rewrite list.Forall_forall in H. by apply H. Qed.

(** A step that gives slot [i] fresh frames and tables, and changes no leaf. *)
Record grown (g : Flight) (i : nat) (s s' : State) : Prop := {
  gr_state : ∃ x l n m', slots s !! i = Some x ∧ owned x ⊆ take n l
    ∧ s' = mkAddressSpace m' (kernel_root s) (active_slot s) (<[i := with_owned l n x]> (slots s)) (shared s);
  gr_leaf : ∀ j va, ¬ torn_down g j → user_address va → leaf_of s' j va = leaf_of s j va;
  gr_descend : ∀ x r p t, slots s !! i = Some x → root x = Some r → user_path p → (length p ≤ 3)%nat →
    descend (entries (memory s)) r p = Some t → descend (entries (memory s')) r p = Some t;
  gr_table : ∀ x r t, slots s !! i = Some x → root x = Some r → is_table (entries (memory s')) r t →
    is_table (entries (memory s)) r t ∨ t ∉ ledger s;
}.

Lemma with_owned_same x : with_owned (owned_frames x) (owned_frame_count x) x = x.
Proof. by destruct x. Qed.

Lemma with_owned_twice l n l' n' x : with_owned l n (with_owned l' n' x) = with_owned l n x.
Proof. done. Qed.

Lemma owned_with_owned l n x : owned (with_owned l n x) = take n l.
Proof. done. Qed.

Lemma grown_slot g i s s' x : grown g i s s' → slots s !! i = Some x →
  ∃ l n, slots s' !! i = Some (with_owned l n x) ∧ owned x ⊆ take n l ∧ shared s' = shared s.
Proof.
  intros [(y & l & n & m' & Hy & Ho & ->) _ _ _] Hx. simplify_eq. exists l, n. simpl.
  by rewrite list_lookup_insert_eq by (by eapply lookup_lt_Some).
Qed.

Lemma grown_ledger g i s s' : grown g i s s' → ledger s ⊆ ledger s'.
Proof.
  intros [(y & l & n & m' & Hy & Ho & ->) _ _ _] f. rewrite (ledger_slot s i y Hy), (ledger_set_slot _ _ _ s i y _ Hy), owned_with_owned.
  rewrite !elem_of_app. intros [?|?]; [left; by apply Ho|by right].
Qed.

Lemma grown_trans g i s1 s2 s3 : grown g i s1 s2 → grown g i s2 s3 → grown g i s1 s3.
Proof.
  intros H12 H23. destruct (gr_state _ _ _ _ H12) as (x & l & n & m & Hx & Ho & Heq).
  destruct (grown_slot _ _ _ _ _ H12 Hx) as (l0 & n0 & Hx2 & _ & _).
  assert (Hx2' : slots s2 !! i = Some (with_owned l n x)).
  { rewrite Heq. simpl. by rewrite list_lookup_insert_eq by (by eapply lookup_lt_Some). }
  clear l0 n0 Hx2. split.
  - destruct (gr_state _ _ _ _ H23) as (x2 & l2 & n2 & m2 & Hx2 & Ho2 & ->). simplify_eq.
    exists x, l2, n2, m2. split_and!; [done| |].
    + rewrite owned_with_owned in Ho2. set_solver.
    + simpl. by rewrite with_owned_twice, list_insert_insert_eq.
  - intros j va ??. by rewrite (gr_leaf _ _ _ _ H23), (gr_leaf _ _ _ _ H12).
  - intros y r p t Hy Hr ???. assert (y = x) as -> by congruence. eapply (gr_descend _ _ _ _ H23); eauto. eapply (gr_descend _ _ _ _ H12); eauto.
  - intros y r t Hy Hr Ht. assert (y = x) as -> by congruence. destruct (gr_table _ _ _ _ H23 (with_owned l n x) r t) as [?|Hn]; try done.
    + by eapply (gr_table _ _ _ _ H12).
    + right. intros ?. by apply Hn, (grown_ledger g i s1 s2).
Qed.

Lemma insert_same_slot s i x : slots s !! i = Some x → <[i := x]> (slots s) = slots s.
Proof. apply list_insert_id. Qed.

Lemma grown_tables g s i x m' : Core cfg g s → slots s !! i = Some x → ¬ torn_down g i →
  (∀ j y r t k, slots s !! j = Some y → root y = Some r → ¬ torn_down g j → is_table (entries (memory s)) r t → 0 ≤ k < 512 →
     entries m' t k = entries (memory s) t k) → grown g i s (with_memory m' s).
Proof.
  intros C Hx Hn He.
  assert (Htree : ∀ j y r, ¬ torn_down g j → slots s !! j = Some y → root y = Some r → agree_tables (entries (memory s)) r (entries m')).
  { intros j y r Hj Hy Hr t k Ht Hk. by rewrite (He j y r t k). }
  split.
  - exists x, (owned_frames x), (owned_frame_count x), m'. split_and!; [done|done|].
    rewrite with_owned_same, insert_same_slot by done. done.
  - intros j va Hj Hva. unfold leaf_of. simpl. destruct (slots s !! j) as [y|] eqn:Hy; [|done].
    destruct (root y) as [r|] eqn:Hr; [|done]. apply leaf_equal_tables; [|done]. intros t k Ht Hk. by eapply He.
  - intros y r p t Hy Hr Hp Hl Hd. simpl. by rewrite (descend_tables (entries (memory s))) by (done || by eapply Htree).
  - intros y r t Hy Hr Ht. left. by apply (is_table_tables (entries (memory s))) in Ht; [|by eapply Htree].
Qed.

Lemma grown_memory g s i x m' : Core cfg g s → slots s !! i = Some x → ¬ torn_down g i →
  equal_on (ledger s) (entries (memory s)) (entries m') → grown g i s (with_memory m' s).
Proof.
  intros C Hx Hn He. eapply grown_tables; eauto. intros j y r t k Hy Hr Hj Ht. apply He.
  pose proof (core_space _ _ _ C j y Hy Hj) as Hsp. unfold slot_space in Hsp. rewrite Hr in Hsp.
  eapply owned_in_ledger; [done|]. by apply Hsp.
Qed.

(** *** Owned frames *)

Lemma slot_space_with_owned ent sh shares x l n : slot_space ent sh shares x →
  (∀ r t, root x = Some r → is_table ent r t → t ∈ take n l) →
  (∀ k p, pages x !! k = Some p → used p → frame p ∈ owned x → frame p ∈ take n l) →
  slot_space ent sh shares (with_owned l n x).
Proof.
  unfold slot_space. simpl. destruct (root x) as [r|]; [|done]. intros [Hh Hl Ha Ho] Ht Hp. split.
  - eapply hierarchy_owned; [done|]. intros t. by apply Ht.
  - done.
  - done.
  - intros k p Hk Hu. destruct (Ho k p Hk Hu) as [(? & ? & ?)|?]; [left|by right]. split_and!; try done. by eapply Hp.
Qed.

Definition push_owned (f : Z) (x : FrameBackedSlot) : FrameBackedSlot :=
  with_owned (<[owned_frame_count x := f]> (owned_frames x)) (S (owned_frame_count x)) x.

Lemma owned_push f x : (owned_frame_count x < length (owned_frames x))%nat → owned (push_owned f x) = owned x ++ [f].
Proof.
  intros H. unfold owned, push_owned. simpl. rewrite (take_S_r _ _ f) by (by apply list_lookup_insert_eq).
  by rewrite take_insert_ge by lia.
Qed.

Lemma slot_shape_with_owned x l n : slot_shape cfg x → length l = length (owned_frames x) → (n ≤ length l)%nat → slot_shape cfg (with_owned l n x).
Proof. intros [H1 H2 H3 H4 H5 H6 H7] Hl Hn. split; simpl; try done; lia. Qed.

Lemma page_frame_ledger ent shares s i x r k p : slots s !! i = Some x → slot_tree ent (shared s) shares x r →
  pages x !! k = Some p → used p → frame p ∈ ledger s ∨ frame p ∈ kernel_frames.
Proof.
  intros Hx Ht Hk Hu. destruct (st_owner _ _ _ _ _ Ht k p Hk Hu) as [(? & _)|[(id & _ & j & b & Hj & _ & _ & Hb)|?]]; [left..|by right].
  - by eapply owned_in_ledger.
  - by eapply (rest_in_ledger s i x), held_in_rest.
Qed.

Lemma core_push g s i x f m' : Core cfg g s → slots s !! i = Some x → ¬ torn_down g i →
  (owned_frame_count x < length (owned_frames x))%nat → Z.land f PAGE_ADDRESS_MASK = f →
  mem_ok m' → ¬ live (memory s) f → (∀ h, live m' h ↔ h = f ∨ live (memory s) h) →
  (∀ h j, live (memory s) h → 0 ≤ j < 512 → entries m' h j = entries (memory s) h j) →
  let s' := mkAddressSpace m' (kernel_root s) (active_slot s) (<[i := push_owned f x]> (slots s)) (shared s) in
  Core cfg g s' ∧ grown g i s s' ∧ (f ∉ ledger s) ∧ ∀ r, root x = Some r → fresh_in (entries m') (push_owned f x) r f.
Proof.
  intros C Hx Hn Hlen Hform Hm Hf Hlive He s'.
  assert (Hfr : f ∉ ledger s) by (intros Hin; by apply Hf, (core_owned_live g)).
  assert (Heq : equal_on (ledger s) (entries (memory s)) (entries m')).
  { intros t j Ht Hj. apply He; [by eapply core_owned_live|done]. }
  pose proof (owned_push f x Hlen) as Hpush.
  pose proof (core_shape _ _ _ C i x Hx) as Hsh.
  assert (Csp : slot_space (entries m') (shared s) (shares_of g i x) x).
  { eapply slot_space_agree; [by eapply (core_space _ _ _ C i x)| |eauto].
    intros t j Ht. apply (equal_agree _ _ _ Heq). by eapply owned_in_ledger. }
  split_and!; [| |done|].
  - eapply core_slot_step; try done.
    + rewrite Hpush. pose proof (core_nodup _ _ _ C) as Hnd. rewrite (ledger_slot s i x Hx) in Hnd, Hfr.
      rewrite <-(assoc (++)). simpl. rewrite <-Permutation_middle. by apply NoDup_cons_2.
    + rewrite Hpush. apply Forall_app. split; [|apply Forall_singleton; split; [by apply Hlive; left|done]].
      apply list.Forall_forall. intros h Hh. destruct (core_owned_live g s h C) as [? ?]; [by eapply owned_in_ledger|].
      split; [by apply Hlive; right|done].
    + intros h Hh. apply Hlive. right. eapply core_owned_live; [done|by eapply rest_in_ledger].
    + intros t j Ht. apply (equal_agree _ _ _ Heq). by eapply rest_in_ledger.
    + apply slot_shape_with_owned; [done|apply length_insert|rewrite length_insert; lia].
    + intros _. apply slot_space_with_owned; [done|..]; fold (push_owned f x).
      * intros r t Hr Ht. change (t ∈ owned (push_owned f x)). rewrite Hpush. apply elem_of_app. left.
        unfold slot_space in Csp. rewrite Hr in Csp. by eapply hier_owned, Ht; apply Csp.
      * intros k p ? ? Hp. change (frame p ∈ owned (push_owned f x)). rewrite Hpush. apply elem_of_app. by left.
    + intros k Hk. destruct (decide (k = i)) as [->|]; [right|by left].
      destruct (core_active _ _ _ C i Hk) as (y & ? & ?). by simplify_eq.
  - assert (Hg : grown g i s (with_memory m' s)) by (by eapply grown_memory).
    split.
    + exists x, (<[owned_frame_count x := f]> (owned_frames x)), (S (owned_frame_count x)), m'. split_and!; try done.
      change (owned x ⊆ owned (push_owned f x)). rewrite Hpush. set_solver.
    + intros j va Hj Hva. rewrite <-(gr_leaf _ _ _ _ Hg j va) by done. unfold leaf_of. simpl.
      destruct (decide (j = i)) as [->|]; [|by rewrite list_lookup_insert_ne].
      rewrite list_lookup_insert_eq by (by eapply lookup_lt_Some). by rewrite Hx.
    + apply Hg.
    + apply Hg.
  - intros r Hr. unfold slot_space in Csp. rewrite Hr in Csp. split_and!.
    + rewrite Hpush. apply elem_of_app. right. by apply list_elem_of_singleton.
    + intros Ht. eapply Hfr, owned_in_ledger, hier_owned; [exact Hx|apply Csp|done].
    + intros k p Hk Hu <-. destruct (page_frame_ledger _ _ _ _ _ _ _ _ Hx Csp Hk Hu) as [Hin|Hin]; [by apply Hfr|].
      destruct (law_kernel m' (frame p) Hm Hin) as [[] _]. apply Hlive. by left.
Qed.

(** *** Running the primitives *)

Lemma the_slot_eq s i x : slots s !! i = Some x → the_slot cfg i s = x.
Proof. apply slot_at_Some. Qed.

Lemma update_slot_eq f s i x : slots s !! i = Some x →
  update_slot i f s = mkAddressSpace (memory s) (kernel_root s) (active_slot s) (<[i := f x]> (slots s)) (shared s).
Proof. intros H. unfold update_slot. by rewrite (alter_insert_eq f _ i x H). Qed.

Lemma wp_get_slot i (Q : FrameBackedSlot → State → Prop) (R : FrameBackedError E → State → Prop) s x :
  slots s !! i = Some x → Q x s → wp (get_slot cfg i) Q R s.
Proof. intros H HQ. unfold get_slot. do 2 wp_step. by rewrite (the_slot_eq s i x H). Qed.

Lemma wp_on_slot f i (Q : unit → State → Prop) (R : FrameBackedError E → State → Prop) s x : slots s !! i = Some x →
  Q tt (mkAddressSpace (memory s) (kernel_root s) (active_slot s) (<[i := f x]> (slots s)) (shared s)) → wp (on_slot i f) Q R s.
Proof. intros H HQ. apply wp_modifyS. by rewrite (update_slot_eq f s i x H). Qed.

Lemma wp_on_memory {A} (m : M Mem E A) (Q : A → State → Prop) (R : FrameBackedError E → State → Prop) s :
  wp m (λ a m', Q a (with_memory m' s)) (λ e m', R (Memory e) (with_memory m' s)) (memory s) → wp (on_memory m) Q R s.
Proof. unfold wp, on_memory, zoom. by destruct (m (memory s)) as [[] ?]. Qed.

Lemma wp_or_undo {A} (m : M State (FrameBackedError E) A) cleanup (Q : A → State → Prop) (R : FrameBackedError E → State → Prop) s :
  wp m Q (λ e, wp cleanup (λ _, R e) R) s → wp (or_undo m cleanup) Q R s.
Proof. unfold wp, or_undo. destruct (m s) as [[] s']; [done|]. by destruct (cleanup s') as [[] ?]. Qed.

Lemma aligned_frame f : negb (is_page_aligned f) || negb (and_not f PAGE_ADDRESS_MASK =? 0) = false → Z.land f PAGE_ADDRESS_MASK = f.
Proof.
  intros [_ H%negb_false_iff%Z.eqb_eq]%orb_false_iff. unfold and_not in H.
  rewrite <-(Z.lor_0_l (Z.land _ _)), <-H. apply Z.lor_ldiff_and.
Qed.

Lemma with_memory_same s : with_memory (memory s) s = s.
Proof. by destruct s. Qed.

Lemma grown_refl g s i x : Core cfg g s → slots s !! i = Some x → ¬ torn_down g i → grown g i s s.
Proof. intros C Hx Hn. pose proof (grown_memory g s i x (memory s) C Hx Hn) as H. rewrite with_memory_same in H. by apply H. Qed.

Lemma core_memory_equal g s i x m' : Core cfg g s → slots s !! i = Some x → ¬ torn_down g i → mem_ok m' →
  (∀ h, live (memory s) h → live m' h) → (∀ h j, live (memory s) h → 0 ≤ j < 512 → entries m' h j = entries (memory s) h j) →
  Core cfg g (with_memory m' s) ∧ grown g i s (with_memory m' s).
Proof.
  intros C Hx Hn Hm Hlive He.
  assert (equal_on (ledger s) (entries (memory s)) (entries m')) as Heq.
  { intros t j Ht Hj. apply He; [by eapply core_owned_live|done]. }
  split; [|by eapply grown_memory]. apply core_memory; try done; [|by apply equal_agree].
  intros f Hf. apply Hlive. by eapply core_owned_live.
Qed.

Lemma allocate_owned_spec g s i x : Core cfg g s → slots s !! i = Some x → ¬ torn_down g i →
  wp (allocate_owned cfg i)
    (λ f s', Core cfg g s' ∧ grown g i s s' ∧ slots s' !! i = Some (push_owned f x) ∧ (f ∉ ledger s)
             ∧ Z.land f PAGE_ADDRESS_MASK = f ∧ (∀ j, 0 ≤ j < 512 → entries (memory s') f j = 0)
             ∧ (∀ r, root x = Some r → fresh_in (entries (memory s')) (push_owned f x) r f)
             ∧ equal_on (ledger s) (entries (memory s)) (entries (memory s')))
    (λ _ s', Core cfg g s' ∧ grown g i s s') s.
Proof.
  intros C Hx Hn. pose proof (grown_refl g s i x C Hx Hn) as Hr.
  unfold allocate_owned. wp_step. apply wp_get_slot with x; [done|]. wp_step. wp_step; [|done].
  wp_step. apply wp_on_memory. pose proof (law_allocate (memory s) (core_mem _ _ _ C)) as Ha. unfold wp at 1.
  destruct (allocate_zeroed (memory s)) as [[f|e] m'].
  - destruct Ha as (Hm & Hf & Hlive & Hz & He). wp_step.
    + wp_step. apply wp_on_memory. destruct (law_release m' f Hm) as (m2 & Hrel & Hm2 & Hlive2 & He2); [by apply Hlive; left|].
      eapply wp_of_run; [exact Hrel|]. wp_step. change (with_memory m2 (with_memory m' s)) with (with_memory m2 s).
      assert (Hkeep : ∀ h, live (memory s) h → live m2 h).
      { intros h Hh. apply Hlive2. split; [apply Hlive; by right|]. by intros ->. }
      eapply core_memory_equal; try done.
      intros h j Hh Hj. rewrite He2 by auto. by apply He.
    + wp_step. eapply wp_on_slot; [exact Hx|]. wp_step. cbn [memory kernel_root active_slot slots shared with_memory].
      destruct (core_push g s i x f m') as (C' & Hg' & Hfr & Hfresh); try done.
      * pose proof (ss_count _ _ (core_shape _ _ _ C i x Hx)). pose proof (ss_owned _ _ (core_shape _ _ _ C i x Hx)).
        apply negb_true_iff, Nat.eqb_neq in H. lia.
      * by apply aligned_frame.
      * split_and!; try done; [|by apply aligned_frame|].
        -- by rewrite list_lookup_insert_eq by (by eapply lookup_lt_Some).
        -- intros t j Ht Hj. apply He; [by eapply core_owned_live|done].
  - destruct Ha as (Hm & Hlive & He). eapply core_memory_equal; try done. intros h. apply Hlive.
Qed.

(** *** Tables *)

Lemma core_tree g s i x r : Core cfg g s → slots s !! i = Some x → ¬ torn_down g i → root x = Some r →
  slot_tree (entries (memory s)) (shared s) (shares_of g i x) x r.
Proof. intros C Hx Hn Hr. pose proof (core_space _ _ _ C i x Hx Hn) as H. unfold slot_space in H. by rewrite Hr in H. Qed.

Lemma owned_not_rest g s i x f : Core cfg g s → slots s !! i = Some x → f ∈ owned x → f ∉ rest i s.
Proof.
  intros C Hx Hf. pose proof (core_nodup _ _ _ C) as H. rewrite (ledger_slot s i x Hx) in H.
  apply list.NoDup_app in H as (_ & H & _). by apply H.
Qed.

(** A step of slot [i] that keeps its frames; memory changes inside them only. *)
Lemma core_same_frames g s i x x' m' : Core cfg g s → slots s !! i = Some x → ¬ torn_down g i →
  mem_ok m' → (∀ h, live m' h ↔ live (memory s) h) → equal_on (rest i s) (entries (memory s)) (entries m') →
  owned x' = owned x → phase x' = phase x → (∀ id, id ≠ 0 → mapcount id x' = mapcount id x) → slot_shape cfg x' →
  slot_space (entries m') (shared s) (shares_of g i x') x' →
  Core cfg g (mkAddressSpace m' (kernel_root s) (active_slot s) (<[i := x']> (slots s)) (shared s)).
Proof.
  intros C Hx Hn Hm Hlive He Ho Hph Hmc Hsh Ht.
  pose proof (core_nodup _ _ _ C) as Hnd. rewrite (ledger_slot s i x Hx) in Hnd.
  eapply core_slot_step; try done; rewrite ?Ho.
  - done.
  - apply list.Forall_forall. intros h Hh. destruct (core_owned_live g s h C) as [? ?]; [by eapply owned_in_ledger|].
    split; [by apply Hlive|done].
  - intros h Hh. apply Hlive. eapply core_owned_live; [done|by eapply rest_in_ledger].
  - by apply equal_agree.
  - intros id Hid. by rewrite Hmc.
  - intros k Hk. destruct (decide (k = i)) as [->|]; [right|by left].
    destruct (core_active _ _ _ C i Hk) as (y & ? & ?). simplify_eq. by rewrite Hph.
Qed.

Lemma core_own_memory g s i x r m' : Core cfg g s → slots s !! i = Some x → ¬ torn_down g i → root x = Some r →
  mem_ok m' → (∀ h, live m' h ↔ live (memory s) h) → equal_on (rest i s) (entries (memory s)) (entries m') →
  slot_tree (entries m') (shared s) (shares_of g i x) x r → Core cfg g (with_memory m' s).
Proof.
  intros C Hx Hn Hr Hm Hlive He Ht.
  replace (with_memory m' s) with (mkAddressSpace m' (kernel_root s) (active_slot s) (<[i := x]> (slots s)) (shared s))
    by (rewrite insert_same_slot; done).
  eapply core_same_frames; eauto; [by eapply (core_shape _ _ _ C)|]. unfold slot_space. by rewrite Hr.
Qed.

Section NewTable.
Context (g : Flight) (s : State) (i : nat) (x : FrameBackedSlot) (r : Z) (p : list Z) (t j f v : Z) (m' : Mem).
Context (C : Core cfg g s) (Hx : slots s !! i = Some x) (Hn : ¬ torn_down g i) (Hr : root x = Some r).
Context (Hp : user_path (p ++ [j])) (Hl : (length p < 3)%nat) (Hd : descend (entries (memory s)) r p = Some t).
Context (H0 : entries (memory s) t j = 0) (Hfresh : fresh_in (entries (memory s)) x r f).
Context (Hz : ∀ k, 0 ≤ k < 512 → entries (memory s) f k = 0) (Hb : is_branch v = true) (Hv : Z.land v PAGE_ADDRESS_MASK = f).
Context (Hm : mem_ok m') (Hlive : ∀ h, live m' h ↔ live (memory s) h).
Context (He : ∀ h k, live (memory s) h → 0 ≤ k < 512 → entries m' h k = update_entry t j v (entries (memory s)) h k).

Abbreviation ent := (entries (memory s)).
Abbreviation ent1 := (update_entry t j v ent).
(** The owned frames but the new table. *)
Abbreviation others := (filter (λ h, h ≠ f) (owned x)).

Lemma new_table_hier : hierarchy ent others r.
Proof.
  eapply hierarchy_owned; [apply (core_tree g s i x r); done|]. intros u Hu. apply list_elem_of_filter. split.
  - intros ->. by destruct Hfresh as (_ & ? & _).
  - eapply hier_owned; [apply (core_tree g s i x r); done|done].
Qed.

Lemma new_table_others : f ∉ others.
Proof. intros [? _]%list_elem_of_filter. done. Qed.

Lemma new_table_equal : equal_on (owned x) ent1 (entries m').
Proof. intros u k Hu Hk. apply He; [|done]. eapply core_owned_live; [done|by eapply owned_in_ledger]. Qed.

Lemma new_table_owned : t ∈ owned x.
Proof.
  destruct (user_path_snoc _ _ Hp). eapply (table_owned ent); [apply (core_tree g s i x r); done|..]; eauto; lia.
Qed.

Lemma new_table_tree1 : hierarchy ent1 (owned x) r.
Proof.
  apply (hierarchy_branch_write ent others r new_table_hier p t j f v); try done; [apply new_table_others|apply Hfresh|].
  intros u Hu. by apply list_elem_of_filter in Hu as [_ ?].
Qed.

Lemma new_table_leaf va : user_address va → leaf (entries m') r va = leaf ent r va.
Proof.
  intros Hva. rewrite (leaf_equal _ _ _ new_table_tree1) by (done || apply new_table_equal).
  apply (leaf_branch_write ent others r new_table_hier p t j f v); try done. apply new_table_others.
Qed.

Lemma new_table_descend q u : user_path q → (length q ≤ 3)%nat → descend ent r q = Some u → descend (entries m') r q = Some u.
Proof.
  intros Hq Hlq Hu. rewrite (descend_agree _ _ _ new_table_tree1) by (done || apply equal_agree, new_table_equal).
  by apply (branch_mono ent r p t j v).
Qed.

Lemma new_table_there : descend (entries m') r (p ++ [j]) = Some f.
Proof.
  rewrite (descend_agree _ _ _ new_table_tree1)
    by (done || (apply equal_agree, new_table_equal) || (rewrite length_app; simpl; lia)).
  by apply (branch_new ent r p t j f v).
Qed.

Lemma new_table_tables u : is_table (entries m') r u ↔ is_table ent r u ∨ u = f.
Proof.
  rewrite (is_table_agree _ _ _ new_table_tree1) by apply equal_agree, new_table_equal.
  apply (is_table_branch_write ent others r new_table_hier p t j f v); try done. apply new_table_others.
Qed.

Lemma new_table_core : Core cfg g (with_memory m' s).
Proof.
  pose proof (core_tree g s i x r C Hx Hn Hr) as Ht.
  eapply core_own_memory; eauto.
  - intros u k Hu Hk. rewrite He; [|eapply core_owned_live; [done|by eapply rest_in_ledger]|done].
    apply update_entry_other. left. intros ->. eapply owned_not_rest; eauto using new_table_owned.
  - split.
    + eapply hierarchy_agree; [apply new_table_tree1|apply equal_agree, new_table_equal].
    + intros va Hva. rewrite new_table_leaf by done. by apply Ht.
    + intros k q Hk Hu. destruct (st_address _ _ _ _ _ Ht k q Hk Hu) as [Hva [u Hu']]. split; [done|].
      exists u. apply new_table_descend; [by apply user_table_path|done|done].
    + intros k q Hk Hu. destruct (st_owner _ _ _ _ _ Ht k q Hk Hu) as [(? & Hnt & ?)|?]; [left|by right].
      split_and!; try done. rewrite new_table_tables. intros [?|?]; [done|]. by eapply (proj2 (proj2 Hfresh)).
Qed.

End NewTable.

Lemma grown_new_table g i s s1 f m' x r : grown g i s s1 → f ∉ ledger s → slots s1 !! i = Some x → ¬ torn_down g i →
  (∀ j va, ¬ torn_down g j → user_address va → leaf_of (with_memory m' s1) j va = leaf_of s1 j va) →
  root x = Some r →
  (∀ q u, user_path q → (length q ≤ 3)%nat → descend (entries (memory s1)) r q = Some u → descend (entries m') r q = Some u) →
  (∀ u, is_table (entries m') r u → is_table (entries (memory s1)) r u ∨ u = f) →
  grown g i s (with_memory m' s1).
Proof.
  intros Hg Hf Hx Hn Hleaf Hr Hdesc Htab. destruct (gr_state _ _ _ _ Hg) as (y & l & n & m1 & Hy & Ho & Heq).
  assert (x = with_owned l n y) as ->.
  { rewrite Heq in Hx. simpl in Hx. rewrite list_lookup_insert_eq in Hx by (by eapply lookup_lt_Some). by simplify_eq. }
  split.
  - exists y, l, n, m'. split_and!; [done|done|]. by rewrite Heq.
  - intros j va ??. rewrite Hleaf by done. by apply Hg.
  - intros z r' p t Hz Hr' ???. simplify_eq/=. apply Hdesc; [done|done|]. by eapply (gr_descend _ _ _ _ Hg).
  - intros z r' t Hz Hr' Ht. simplify_eq/=. apply Htab in Ht as [Ht| ->]; [|by right]. by eapply (gr_table _ _ _ _ Hg).
Qed.

Lemma leaf_of_others g s i m' j va : Core cfg g s → equal_on (rest i s) (entries (memory s)) (entries m') → j ≠ i → ¬ torn_down g j →
  user_address va → leaf_of (with_memory m' s) j va = leaf_of s j va.
Proof.
  intros C He Hji Hj Hva. unfold leaf_of. simpl. destruct (slots s !! j) as [y|] eqn:Hy; [|done].
  destruct (root y) as [r|] eqn:Hr; [|done]. eapply leaf_equal; [by apply (core_tree g s j y r)| |done].
  intros t k Ht. apply He. by eapply (owned_in_rest s i j y).
Qed.

Lemma wp_read_table g t k (Q : Z → State → Prop) (R : FrameBackedError E → State → Prop) s : Core cfg g s → t ∈ ledger s → 0 ≤ k < 512 →
  Q (entries (memory s) t k) s → wp (read_table t k) Q R s.
Proof.
  intros C Ht Hk HQ. unfold read_table. do 2 wp_step.
  rewrite law_read by (done || apply C || by eapply core_owned_live). exact HQ.
Qed.

Lemma on_write_entry g s t k v : Core cfg g s → t ∈ ledger s → 0 ≤ k < 512 → is_u64 v →
  ∃ m', on_memory (write_entry t k v) s = (Ok tt, with_memory m' s) ∧ mem_ok m' ∧ (∀ h, live m' h ↔ live (memory s) h)
        ∧ ∀ h j, live (memory s) h → 0 ≤ j < 512 → entries m' h j = update_entry t k v (entries (memory s)) h j.
Proof.
  intros C Ht Hk Hv. destruct (law_write (memory s) t k v) as (m' & Hw & ?); try done; [apply C|by eapply core_owned_live|].
  exists m'. split; [|done]. unfold on_memory, zoom. by rewrite Hw.
Qed.

Lemma ensure_tables_spec g i idx : ∀ s x r p t, Core cfg g s → slots s !! i = Some x → ¬ torn_down g i → root x = Some r →
  user_path (p ++ idx) → (length (p ++ idx) ≤ 3)%nat → descend (entries (memory s)) r p = Some t →
  wp (ensure_tables cfg i idx t)
    (λ t' s', Core cfg g s' ∧ grown g i s s' ∧ descend (entries (memory s')) r (p ++ idx) = Some t')
    (λ _ s', Core cfg g s' ∧ grown g i s s') s.
Proof.
  induction idx as [|j idx IH]; intros s x r p t C Hx Hn Hr Hp Hl Hd; simpl.
  { wp_step. rewrite app_nil_r. split_and!; [done|by eapply grown_refl|done]. }
  pose proof (core_tree g s i x r C Hx Hn Hr) as Ht. pose proof (st_hier _ _ _ _ _ Ht) as Hh.
  replace (p ++ j :: idx) with ((p ++ [j]) ++ idx) in * by (by rewrite <-(assoc (++))).
  pose proof (user_path_prefix _ _ Hp) as Hpj. destruct (user_path_snoc _ _ Hpj) as [Hup Hj].
  assert (Hlp : (length p < 3)%nat) by (rewrite !length_app in Hl; simpl in Hl; lia).
  assert (Hto : t ∈ owned x) by (eapply table_owned; eauto; lia).
  wp_step. apply (wp_read_table g); [done|by eapply owned_in_ledger|done|].
  destruct (hier_branch _ _ _ Hh p j t Hpj Hlp Hd) as [H0|Hb].
  - rewrite H0. change (negb (Z.land 0 ENTRY_PRESENT =? 0)) with false. cbv iota. wp_step.
    eapply wp_mono; [by apply (allocate_owned_spec g s i x)| |done].
    intros f s1 (C1 & G1 & Hx1 & Hf & Hform & Hz & Hfresh & Heq). specialize (Hfresh r Hr).
    pose proof (gr_descend _ _ _ _ G1 x r p t Hx Hr Hup ltac:(lia) Hd) as Hd1.
    destruct (table_entry_branch f Hform) as (Hvb & Hva & Hvu).
    assert (H01 : entries (memory s1) t j = 0) by (rewrite Heq; [done|by eapply owned_in_ledger|done]).
    destruct (on_write_entry g s1 t j _ C1 (grown_ledger _ _ _ _ G1 t ltac:(by eapply owned_in_ledger)) Hj Hvu)
      as (m2 & Hw & Hm2 & Hlive2 & He2).
    eapply wp_bind_run; [exact Hw|]. cbv beta.
    set (s2 := with_memory m2 s1).
    assert (C2 : Core cfg g s2) by (eapply new_table_core with (p := p) (f := f); eauto).
    assert (G2 : grown g i s s2).
    { eapply grown_new_table; eauto.
      - intros k va Hk Hva'. destruct (decide (k = i)) as [->|Hne].
        + unfold leaf_of. simpl. rewrite Hx1. simpl. rewrite Hr. eapply new_table_leaf; eauto.
        + eapply leaf_of_others; eauto. intros u h Hu Hh'. rewrite He2; [|eapply core_owned_live; [done|by eapply rest_in_ledger]|done].
          apply update_entry_other. left. intros ->. eapply owned_not_rest; [exact C1|exact Hx1|..|exact Hu].
          eapply (new_table_owned g s1) with (p := p); eauto.
      - intros q u Hq Hlq. eapply new_table_descend; eauto.
      - intros u. eapply new_table_tables; eauto. }
    eapply wp_mono; [eapply (IH s2 (push_owned f x) r (p ++ [j])); eauto; eapply (new_table_there g s1); eauto|..].
    + intros t' s3 (C3 & G3 & Hd3). split_and!; [done|by eapply grown_trans|done].
    + intros e s3 (C3 & G3). split; [done|by eapply grown_trans].
  - destruct (branch_present _ Hb) as (Hpr & Hhu & _). apply Z.eqb_neq in Hpr. rewrite Hpr. cbn [negb].
    wp_step. rewrite Hhu. wp_step; [|done]. eapply IH; eauto. rewrite descend_snoc, Hd. by rewrite Hb.
Qed.

Lemma leaf_of_at s i x r va t : slots s !! i = Some x → root x = Some r → descend (entries (memory s)) r (table_path va) = Some t →
  leaf_of s i va = entries (memory s) t (leaf_index va).
Proof. intros Hx Hr Hd. unfold leaf_of, leaf. by rewrite Hx, Hr, Hd. Qed.

Lemma table_in_ledger g s i x r p t : Core cfg g s → slots s !! i = Some x → ¬ torn_down g i → root x = Some r →
  user_path p → (length p ≤ 3)%nat → descend (entries (memory s)) r p = Some t → t ∈ owned x ∧ t ∈ ledger s.
Proof.
  intros C Hx Hn Hr Hp Hl Hd. assert (t ∈ owned x).
  { eapply table_owned; [apply (core_tree g s i x r); done|..]; done. }
  split; [done|]. by eapply owned_in_ledger.
Qed.

Lemma ensure_leaf_slot_spec g s i x va : Core cfg g s → slots s !! i = Some x → ¬ torn_down g i → 0 ≤ va →
  wp (ensure_leaf_slot cfg i va)
    (λ td s', Core cfg g s' ∧ grown g i s s' ∧ user_address va ∧ td.2 = leaf_index va
              ∧ ∃ r, root x = Some r ∧ descend (entries (memory s')) r (table_path va) = Some td.1 ∧ leaf_of s i va = 0)
    (λ _ s', Core cfg g s' ∧ grown g i s s') s.
Proof.
  intros C Hx Hn H0. pose proof (grown_refl g s i x C Hx Hn) as Hself.
  unfold ensure_leaf_slot. wp_step. unfold page_indices.
  destruct (USER_LIMIT <=? va) eqn:Hlim; [done|]. apply Z.leb_gt in Hlim.
  assert (Hva : user_address va) by done. pose proof (user_table_path _ Hva) as Hpath.
  wp_step; [|simplify_eq]. match goal with H : Ok _ = Ok _ |- _ => injection H as <- end. fold (indices va).
  wp_step. wp_step; [|done]. wp_step. apply wp_get_slot with x; [done|]. wp_step. wp_step; [|done].
  rename a into r. rename H1 into Hr. wp_step.
  change (take 3 (indices va)) with (table_path va). change (slot_at 0 (indices va) 3) with (leaf_index va).
  eapply wp_mono; [by eapply (ensure_tables_spec g i _ s x r [])| |done].
  intros t s' (C' & G' & Hd). simpl in Hd. destruct (grown_slot _ _ _ _ _ G' Hx) as (l & n & Hx' & _ & _).
  destruct (table_in_ledger g s' i (with_owned l n x) r (table_path va) t) as [_ Hled]; try done.
  wp_step. apply (wp_read_table g); [done|done|by apply page_index_range|].
  wp_step. wp_step; [|done]. wp_step. cbn [fst snd].
  split_and!; try done. exists r. split_and!; try done.
  rewrite <-(gr_leaf _ _ _ _ G' i va) by done. rewrite (leaf_of_at s' i (with_owned l n x) r va t) by done.
  by apply Z.eqb_eq.
Qed.

Lemma follow_tables_spec g i idx : ∀ s x r p t, Core cfg g s → slots s !! i = Some x → ¬ torn_down g i → root x = Some r →
  user_path (p ++ idx) → (length (p ++ idx) ≤ 3)%nat → descend (entries (memory s)) r p = Some t →
  wp (follow_tables idx t)
    (λ t' s', s' = s ∧ descend (entries (memory s)) r (p ++ idx) = Some t')
    (λ _ s', s' = s ∧ descend (entries (memory s)) r (p ++ idx) = None) s.
Proof.
  induction idx as [|j idx IH]; intros s x r p t C Hx Hn Hr Hp Hl Hd; simpl.
  { wp_step. by rewrite app_nil_r. }
  pose proof (core_tree g s i x r C Hx Hn Hr) as Ht. pose proof (st_hier _ _ _ _ _ Ht) as Hh.
  replace (p ++ j :: idx) with ((p ++ [j]) ++ idx) in * by (by rewrite <-(assoc (++))).
  pose proof (user_path_prefix _ _ Hp) as Hpj. destruct (user_path_snoc _ _ Hpj) as [Hup Hj].
  assert (Hlp : (length p < 3)%nat) by (rewrite !length_app in Hl; simpl in Hl; lia).
  assert (Hto : t ∈ owned x) by (eapply table_owned; eauto; lia).
  wp_step. apply (wp_read_table g); [done|by eapply owned_in_ledger|done|].
  destruct (hier_branch _ _ _ Hh p j t Hpj Hlp Hd) as [H0|Hb].
  - rewrite H0. wp_step. wp_step; [done|]. split; [done|]. by rewrite descend_app, descend_snoc, Hd, H0.
  - destruct (branch_present _ Hb) as (Hpr & Hhu & _). apply Z.eqb_neq in Hpr. rewrite Hpr, Hhu.
    wp_step. wp_step; [|done]. eapply IH; eauto. rewrite descend_snoc, Hd. by rewrite Hb.
Qed.

Lemma leaf_slot_spec g s i x va : Core cfg g s → slots s !! i = Some x → ¬ torn_down g i → 0 ≤ va →
  wp (leaf_slot cfg i va)
    (λ td s', s' = s ∧ user_address va ∧ td.2 = leaf_index va
              ∧ ∃ r, root x = Some r ∧ descend (entries (memory s)) r (table_path va) = Some td.1)
    (λ _ s', s' = s ∧ (user_address va → ∀ r, root x = Some r → descend (entries (memory s)) r (table_path va) = None)) s.
Proof.
  intros C Hx Hn H0. unfold leaf_slot. wp_step. unfold page_indices.
  destruct (USER_LIMIT <=? va) eqn:Hlim.
  { wp_step; [simplify_eq|]. split; [done|]. intros [_ ?]. apply Z.leb_le in Hlim. lia. }
  apply Z.leb_gt in Hlim. assert (Hva : user_address va) by done. pose proof (user_table_path _ Hva) as Hpath.
  wp_step; [|simplify_eq]. match goal with H : Ok _ = Ok _ |- _ => injection H as <- end. fold (indices va).
  wp_step. apply wp_get_slot with x; [done|]. wp_step. wp_step; [|split; [done|congruence]].
  rename a into r. rename H into Hr. wp_step.
  change (take 3 (indices va)) with (table_path va). change (slot_at 0 (indices va) 3) with (leaf_index va).
  eapply wp_mono; [by eapply (follow_tables_spec g i _ s x r [])|..].
  - intros t s' [-> Hd]. wp_step. simpl in Hd. cbn [fst snd]. eauto 6.
  - intros e s' [-> Hd]. split; [done|]. intros _ r' Hr'. by simplify_eq.
Qed.

(** *** Pages *)

(** Memory after one entry of an owned table was written. *)
Definition wrote (s : State) (t k v : Z) (m' : Mem) : Prop :=
  mem_ok m' ∧ (∀ h, live m' h ↔ live (memory s) h)
  ∧ ∀ h j, live (memory s) h → 0 ≤ j < 512 → entries m' h j = update_entry t k v (entries (memory s)) h j.

Lemma wrote_rest g s i x t k v m' : Core cfg g s → slots s !! i = Some x → t ∈ owned x → wrote s t k v m' →
  equal_on (rest i s) (entries (memory s)) (entries m').
Proof.
  intros C Hx Ht (_ & _ & He) u j Hu Hj. rewrite He; [|eapply core_owned_live; [done|by eapply rest_in_ledger]|done].
  apply update_entry_other. left. intros ->. by eapply owned_not_rest.
Qed.

Lemma wrote_owned g s i x t k v m' : Core cfg g s → slots s !! i = Some x → wrote s t k v m' →
  equal_on (owned x) (update_entry t k v (entries (memory s))) (entries m').
Proof. intros C Hx (_ & _ & He) u j Hu Hj. apply He; [|done]. eapply core_owned_live; [done|by eapply owned_in_ledger]. Qed.

(** The leaves of every process after the leaf of [va] in slot [i] was set. *)
Definition leaf_set (g : Flight) (s s' : State) (i : nat) (va v : Z) : Prop :=
  ∀ j a, ¬ torn_down g j → user_address a →
    leaf_of s' j a = if decide (j = i ∧ page_of a = page_of va) then v else leaf_of s j a.

Lemma leaf_set_intro g s i x x' r va v m' : Core cfg g s → slots s !! i = Some x → root x = Some r → root x' = Some r →
  equal_on (rest i s) (entries (memory s)) (entries m') →
  (∀ a, user_address a → leaf (entries m') r a = if decide (page_of a = page_of va) then v else leaf (entries (memory s)) r a) →
  leaf_set g s (mkAddressSpace m' (kernel_root s) (active_slot s) (<[i := x']> (slots s)) (shared s)) i va v.
Proof.
  intros C Hx Hr Hr' He Hleaf j a Hj Ha. destruct (decide (j = i)) as [->|Hne].
  - unfold leaf_of. simpl. rewrite list_lookup_insert_eq by (by eapply lookup_lt_Some). rewrite Hx, Hr, Hr', Hleaf by done.
    repeat case_decide; naive_solver.
  - rewrite decide_False by tauto. rewrite <-(leaf_of_others g s i m' j a) by done. unfold leaf_of. simpl.
    by rewrite list_lookup_insert_ne by done.
Qed.

(** The frame a record may name. *)
Definition may_map (g : Flight) (s : State) (i : nat) (x : FrameBackedSlot) (r : Z) (k : nat) (f : Z) : Prop :=
  fresh_in (entries (memory s)) x r f ∨ (∃ id, shares_of g i x k id ∧ backing_frame (shared s) id f) ∨ f ∈ kernel_frames.

Lemma backing_not_owned g s i x id f : Core cfg g s → slots s !! i = Some x → backing_frame (shared s) id f → f ∉ owned x.
Proof.
  intros C Hx (j & b & Hj & _ & _ & Hf) Ho. eapply owned_not_rest; eauto. by eapply held_in_rest.
Qed.

(** The frames of the kernel are not the pool's. *)
Lemma kernel_not_ledger g s f : Core cfg g s → f ∈ kernel_frames → f ∉ ledger s.
Proof. intros C Hf Hin. destruct (core_owned_live g s f C Hin) as [Hl _]. by destruct (law_kernel (memory s) f (core_mem _ _ _ C) Hf). Qed.

Lemma kernel_not_owned g s i x f : Core cfg g s → slots s !! i = Some x → f ∈ kernel_frames → f ∉ owned x.
Proof. intros C Hx Hf Hin. by eapply (kernel_not_ledger g s), owned_in_ledger. Qed.

Lemma slot_shape_set_page x k p : slot_shape cfg x → (phase x = Staging → used p ∨ (page_count x ≤ k)%nat) → slot_shape cfg (set_page k p x).
Proof.
  intros [H1 H2 H3 H4 H5 H6 H7] Hp. split; simpl; try done; [by rewrite length_insert|].
  intros Hst. destruct (H7 Hst) as (? & Hu & ?). split_and!; try done.
  intros k' q Hk' [(-> & -> & _)|[_ Hq]]%lookup_insert_cases; [|by eapply Hu]. destruct (Hp Hst); [done|lia].
Qed.

Lemma core_record g s i x r k p0 f va : Core cfg g s → slots s !! i = Some x → ¬ torn_down g i → root x = Some r →
  pages x !! k = Some p0 → ¬ used p0 → user_address va → va ≠ 0 → is_Some (descend (entries (memory s)) r (table_path va)) →
  may_map g s i x r k f →
  Core cfg g (mkAddressSpace (memory s) (kernel_root s) (active_slot s) (<[i := set_page k (mkPage f va) x]> (slots s)) (shared s)).
Proof.
  intros C Hx Hn Hr Hk Hu Hva Hnz Hd Hf. eapply core_same_frames; eauto; try done.
  - apply C.
  - apply slot_shape_set_page; [by eapply (core_shape _ _ _ C)|]. by left.
  - unfold slot_space. simpl. rewrite Hr. eapply slot_tree_record; eauto; [by apply (core_tree g s i x r)|].
    destruct Hf as [?|[(id & ? & ?)|Hkf]]; [by left|right; split..].
    + left. by exists id.
    + by eapply backing_not_owned.
    + by right.
    + by eapply kernel_not_owned.
Qed.

Lemma core_leaf g s i x r k p t v m' : Core cfg g s → slots s !! i = Some x → ¬ torn_down g i → root x = Some r →
  pages x !! k = Some p → used p → descend (entries (memory s)) r (table_path (pg_address p)) = Some t →
  leaf_form (frame p) v ∨ v = 0 → wrote s t (leaf_index (pg_address p)) v m' →
  Core cfg g (with_memory m' s) ∧ leaf_set g s (with_memory m' s) i (pg_address p) v
  ∧ (∀ q, user_path q → (length q ≤ 3)%nat → descend (entries m') r q = descend (entries (memory s)) r q).
Proof.
  intros C Hx Hn Hr Hk Hu Hd Hv Hw. pose proof (core_tree g s i x r C Hx Hn Hr) as Ht.
  destruct (st_address _ _ _ _ _ Ht k p Hk Hu) as [Hva _].
  destruct (table_in_ledger g s i x r (table_path (pg_address p)) t) as [Hto _]; try done; [by apply user_table_path|].
  destruct (slot_tree_leaf _ _ _ _ _ Ht (entries m') k p t v) as (Ht' & Hleaf & Hdesc); try done; [by eapply wrote_owned|].
  pose proof (wrote_rest g s i x t _ v m' C Hx Hto Hw) as Hrest. destruct Hw as (Hm & Hlive & He).
  split_and!; [by eapply core_own_memory| |done].
  replace (with_memory m' s) with (mkAddressSpace m' (kernel_root s) (active_slot s) (<[i := x]> (slots s)) (shared s))
    by (rewrite insert_same_slot; done).
  by eapply leaf_set_intro.
Qed.

Lemma core_publish g s i x r k p0 f va t v m' : Core cfg g s → slots s !! i = Some x → ¬ torn_down g i → root x = Some r →
  pages x !! k = Some p0 → ¬ used p0 → user_address va → va ≠ 0 → descend (entries (memory s)) r (table_path va) = Some t →
  may_map g s i x r k f → leaf_form f v → wrote s t (leaf_index va) v m' →
  let s' := mkAddressSpace m' (kernel_root s) (active_slot s) (<[i := set_page k (mkPage f va) x]> (slots s)) (shared s) in
  Core cfg g s' ∧ leaf_set g s s' i va v
  ∧ (∀ q, user_path q → (length q ≤ 3)%nat → descend (entries m') r q = descend (entries (memory s)) r q).
Proof.
  intros C Hx Hn Hr Hk Hu Hva Hnz Hd Hf Hv Hw s'.
  pose proof (core_record g s i x r k p0 f va C Hx Hn Hr Hk Hu Hva Hnz ltac:(by rewrite Hd) Hf) as C1.
  set (s1 := mkAddressSpace (memory s) _ _ _ _) in C1.
  assert (Hx1 : slots s1 !! i = Some (set_page k (mkPage f va) x)).
  { simpl. by rewrite list_lookup_insert_eq by (by eapply lookup_lt_Some). }
  destruct (core_leaf g s1 i (set_page k (mkPage f va) x) r k (mkPage f va) t v m') as (C2 & Hl2 & Hd2); try done.
  { simpl. by rewrite list_lookup_insert_eq by (by eapply lookup_lt_Some). }
  { by left. }
  split_and!; [exact C2| |exact Hd2].
  intros j a Hj Ha. change s' with (with_memory m' s1). rewrite Hl2 by done. cbn [pg_address]. case_decide; [done|].
  unfold leaf_of. simpl. destruct (decide (j = i)) as [->|]; [|by rewrite list_lookup_insert_ne by done].
  rewrite list_lookup_insert_eq by (by eapply lookup_lt_Some). by rewrite Hx.
Qed.

(** *** Giving frames back *)

Definition drop_owned (k : nat) (x : FrameBackedSlot) : FrameBackedSlot :=
  let last := (owned_frame_count x - 1)%nat in
  with_owned (<[last := 0]> (<[k := slot_at 0 (owned_frames x) last]> (owned_frames x))) last x.

Lemma drop_last_permutation (l : list Z) n k f : (S n ≤ length l)%nat → take (S n) l !! k = Some f →
  take (S n) l ≡ₚ f :: take n (<[n := 0]> (<[k := slot_at 0 l n]> l)).
Proof.
  intros Hn [Hk Hlt]%lookup_take_Some. destruct (lookup_lt_is_Some_2 l n) as [y Hy]; [lia|].
  rewrite (slot_at_Some 0 l n y Hy), take_insert_ge, (take_S_r l n y Hy) by lia.
  destruct (decide (k = n)) as [->|].
  - rewrite take_insert_ge by lia. simplify_eq. by rewrite Permutation_app_comm.
  - rewrite take_insert_lt by lia. assert (Hk' : take n l !! k = Some f) by (apply lookup_take_Some; split; [done|lia]).
    rewrite insert_take_drop by (by eapply lookup_lt_Some).
    rewrite <-(take_drop_middle (take n l) k f Hk') at 1. rewrite <-(assoc (++)). simpl. rewrite <-!Permutation_middle. f_equiv.
    by rewrite (assoc (++)), Permutation_app_comm.
Qed.

Lemma owned_drop x k f : slot_shape cfg x → owned x !! k = Some f → owned x ≡ₚ f :: owned (drop_owned k x).
Proof.
  intros Hs Hk. unfold owned at 1 2, drop_owned. simpl. unfold owned in Hk.
  destruct (owned_frame_count x) as [|n] eqn:Hc; [by rewrite take_0 in Hk|].
  replace (S n - 1)%nat with n by lia. apply drop_last_permutation; [|done].
  pose proof (ss_owned _ _ Hs). pose proof (ss_count _ _ Hs). lia.
Qed.

Lemma slot_shape_drop x k : slot_shape cfg x → slot_shape cfg (drop_owned k x).
Proof.
  intros Hs. pose proof (ss_owned _ _ Hs). pose proof (ss_count _ _ Hs).
  apply slot_shape_with_owned; [done|by rewrite !length_insert|rewrite !length_insert; lia].
Qed.

(** Returning a frame of slot [i] that its tables and records no longer use. *)
Lemma core_drop g s i x k f m' : Core cfg g s → slots s !! i = Some x → ¬ torn_down g i → owned x !! k = Some f →
  (∀ r, root x = Some r → fresh_in (entries (memory s)) x r f) →
  mem_ok m' → (∀ h, live m' h ↔ live (memory s) h ∧ h ≠ f) →
  (∀ h j, live m' h → 0 ≤ j < 512 → entries m' h j = entries (memory s) h j) →
  let s' := mkAddressSpace m' (kernel_root s) (active_slot s) (<[i := drop_owned k x]> (slots s)) (shared s) in
  Core cfg g s' ∧ ∀ j a, ¬ torn_down g j → user_address a → leaf_of s' j a = leaf_of s j a.
Proof.
  intros C Hx Hn Hk Hfresh Hm Hlive He s'. pose proof (core_shape _ _ _ C i x Hx) as Hsh.
  pose proof (owned_drop x k f Hsh Hk) as Hperm.
  pose proof (core_nodup _ _ _ C) as Hnd. rewrite (ledger_slot s i x Hx) in Hnd. rewrite Hperm in Hnd. simpl in Hnd.
  apply list.NoDup_cons in Hnd as [Hf Hnd].
  assert (Hkeep : ∀ h, h ∈ owned (drop_owned k x) ++ rest i s → live m' h ∧ Z.land h PAGE_ADDRESS_MASK = h).
  { intros h Hh. assert (h ∈ ledger s). { rewrite (ledger_slot s i x Hx), Hperm. simpl. by right. }
    destruct (core_owned_live g s h C) as [? ?]; [done|]. split; [|done]. apply Hlive. split; [done|]. by intros ->. }
  assert (Heq : equal_on (owned (drop_owned k x) ++ rest i s) (entries (memory s)) (entries m')).
  { intros t j Ht Hj. apply He; [|done]. by apply Hkeep. }
  assert (Hown : ∀ h, h ∈ owned x → h ≠ f → h ∈ owned (drop_owned k x)).
  { intros h Hh Hne. rewrite Hperm in Hh. by apply elem_of_cons in Hh as [?|?]. }
  assert (Htree : ∀ r, root x = Some r → slot_tree (entries (memory s)) (shared s) (shares_of g i x) (drop_owned k x) r).
  { intros r Hr. pose proof (core_space _ _ _ C i x Hx Hn) as Hsp. destruct (Hfresh r Hr) as (_ & Hnt & Hnp).
    assert (slot_space (entries (memory s)) (shared s) (shares_of g i x) (drop_owned k x)) as Hsp'.
    { apply slot_space_with_owned; [done|..].
      - intros r' t Hr' Ht. simplify_eq. apply Hown; [|by intros ->]. eapply hier_owned; [by apply (core_tree g s i x r)|done].
      - intros k' p Hk' Hu Ho. apply Hown; [done|]. by eapply Hnp. }
    unfold slot_space in Hsp'. simpl in Hsp'. by rewrite Hr in Hsp'. }
  split.
  - eapply core_slot_step; try done.
    + apply list.Forall_forall. intros h Hh. apply Hkeep. apply elem_of_app. by left.
    + intros h Hh. apply Hkeep. apply elem_of_app. by right.
    + intros t j Ht. apply (equal_agree _ _ _ Heq). apply elem_of_app. by right.
    + by apply slot_shape_drop.
    + intros _. unfold slot_space. destruct (root (drop_owned k x)) as [r|] eqn:Hr.
      * eapply slot_tree_agree; [by apply Htree| |eauto]. intros t j Ht. apply (equal_agree _ _ _ Heq). apply elem_of_app. by left.
      * pose proof (core_space _ _ _ C i x Hx Hn) as Hsp. unfold slot_space in Hsp. simpl in Hr. by rewrite Hr in Hsp.
    + intros j Hj. destruct (decide (j = i)) as [->|]; [right|by left].
      destruct (core_active _ _ _ C i Hj) as (y & ? & ?). by simplify_eq.
  - intros j a Hj Ha. destruct (decide (j = i)) as [->|Hne].
    + unfold leaf_of. simpl. rewrite list_lookup_insert_eq by (by eapply lookup_lt_Some). rewrite Hx. simpl.
      destruct (root x) as [r|] eqn:Hr; [|done]. eapply leaf_equal; [by apply Htree| |done].
      intros t h Ht. apply Heq. apply elem_of_app. by left.
    + rewrite <-(leaf_of_others g s i m' j a); try done.
      * unfold leaf_of. simpl. by rewrite list_lookup_insert_ne by done.
      * intros t h Ht. apply Heq. apply elem_of_app. by right.
Qed.

(** Writing into a frame that is no table. *)
Lemma core_scribble g s i x f m' : Core cfg g s → slots s !! i = Some x → ¬ torn_down g i → f ∈ owned x →
  (∀ r, root x = Some r → ¬ is_table (entries (memory s)) r f) → mem_ok m' → (∀ h, live m' h ↔ live (memory s) h) →
  (∀ h j, live (memory s) h → h ≠ f → 0 ≤ j < 512 → entries m' h j = entries (memory s) h j) →
  Core cfg g (with_memory m' s) ∧ grown g i s (with_memory m' s).
Proof.
  intros C Hx Hn Ho Hnt Hm Hlive He.
  assert (Htab : ∀ j y r t k, slots s !! j = Some y → root y = Some r → ¬ torn_down g j → is_table (entries (memory s)) r t → 0 ≤ k < 512 →
     entries m' t k = entries (memory s) t k).
  { intros j y r t k Hy Hr Hj Ht Hk. assert (Hty : t ∈ owned y) by (eapply hier_owned; [by apply (core_tree g s j y r)|done]).
    apply He; [eapply core_owned_live; [done|by eapply owned_in_ledger]| |done]. intros ->.
    destruct (decide (j = i)) as [->|Hne]; [simplify_eq; by eapply Hnt|].
    eapply owned_not_rest; [exact C|exact Hx|exact Ho|]. eapply owned_in_rest; [|exact Hy|done]. done. }
  split; [|by eapply grown_tables].
  apply core_memory_tables; try done.
  - intros h Hh. apply Hlive. by eapply core_owned_live.
  - intros j y r Hy Hr Hj t k Ht Hk. by rewrite (Htab j y r t k).
Qed.

End Steps.
