(* ===== verification/SpaceBase.v ===== *)
(** * Finding room for a mapping

    The search of [find_linux_mmap_base] in process/x86_64.rs ends, and what it
    returns is a page-aligned range of the user half that meets no mapping, no
    page and not the heap arena. *)

From stdpp Require Import prelude list numbers.
From Stdlib Require Import ZArith Lia.
From S2P Require Import Prelude.
From S2P Require Import AddressSpace.

Section FindBase.
Context {E : Type}.
Abbreviation R := (Result (option Z) (FrameBackedError E)).

Definition overlaps (candidate stop : Z) (o : Z * Z) : bool := ranges_overlap candidate stop o.1 o.2.

(** The obstacles an address has not passed. *)
Definition ahead (l : list (Z * Z)) (candidate : Z) : nat := countb (λ o, candidate <? o.1 + o.2) l.

Lemma overlap_end candidate stop a n : ranges_overlap candidate stop a n = true → checked_add U64_MAX a n = Some (a + n) → candidate < a + n.
Proof. unfold ranges_overlap. intros H He. rewrite He in H. apply andb_true_iff in H as [H%Z.ltb_lt _]. done. Qed.

(** The scan of one round. *)
Lemma last_obstacle_spec candidate stop l : ∀ next,
  match last_obstacle candidate stop l next : R with
  | Err e => e = InvalidRange
  | Ok None => next = None ∧ Forall (λ o, overlaps candidate stop o = false) l
  | Ok (Some z) =>
      Forall (λ o, overlaps candidate stop o = true → o.1 + o.2 ≤ z) l ∧ (∀ y, next = Some y → y ≤ z)
      ∧ (next = Some z ∨ Exists (λ o, overlaps candidate stop o = true ∧ o.1 + o.2 = z ∧ candidate < z) l)
  end.
Proof.
  induction l as [|[a n] l IH]; intros next; simpl.
  { destruct next as [z|]; [|done]. split_and!; [apply Forall_nil_2|intros y [= ->]; lia|by left]. }
  destruct (ranges_overlap candidate stop a n) eqn:Ho.
  - destruct (checked_add U64_MAX a n) as [e|] eqn:Hadd; [|done].
    pose proof Hadd as Hadd'. apply checked_add_Some in Hadd' as [-> _]. pose proof (overlap_end _ _ _ _ Ho Hadd) as Hend.
    set (next' := match next with Some x => x `max` (a + n) | None => a + n end).
    specialize (IH (Some next')). destruct (last_obstacle _ _ l _) as [[z|]|]; [|by destruct IH|done].
    destruct IH as (Hall & Hmax & Hwit). specialize (Hmax next' eq_refl).
    assert (a + n ≤ next' ∧ ∀ y, next = Some y → y ≤ next') as [Hle Hle'].
    { unfold next'. destruct next as [y|]; split; try lia; intros ? [= ->]; lia. }
    split_and!.
    + apply Forall_cons_2; [simpl; lia|done].
    + intros y Hy. specialize (Hle' y Hy). lia.
    + destruct Hwit as [[= <-]|Hwit]; [|right; by apply Exists_cons_tl].
      unfold next' in *. destruct next as [y|]; [|right; apply Exists_cons_hd; simpl; split_and!; [done|lia|lia]].
      destruct (Z.max_spec y (a + n)) as [[? ->]|[? ->]]; [right; apply Exists_cons_hd; simpl; split_and!; [done|lia|lia]|by left].
  - specialize (IH next). destruct (last_obstacle _ _ l _) as [[z|]|]; [..|done].
    + destruct IH as (Hall & Hmax & Hwit). split_and!; [apply Forall_cons_2; [unfold overlaps; simpl; congruence|done]|done|].
      destruct Hwit as [?|?]; [by left|right; by apply Exists_cons_tl].
    + destruct IH as [-> Hall]. split; [done|]. by apply Forall_cons_2.
Qed.

Lemma round_up_page_spec x y : round_up_page x = Some y → 0 ≤ x → x ≤ y < x + PAGE_SIZE ∧ (PAGE_SIZE | y).
Proof.
  intros Hr Hx. pose proof (round_up_spec x 12 Hx ltac:(lia)) as H. unfold round_up_page in Hr.
  change (2 ^ 12 - 1) with (PAGE_SIZE - 1) in H. change (2 ^ 12) with PAGE_SIZE in H. rewrite Hr in H. destruct H as (Hd & Hle & Hmin).
  split; [|done]. split; [lia|]. pose proof (Z.div_mod x PAGE_SIZE ltac:(done)) as Hdm.
  pose proof (Z.mod_pos_bound x PAGE_SIZE ltac:(done)) as Hm.
  destruct (decide (x mod PAGE_SIZE = 0)) as [Hz|Hz].
  - specialize (Hmin x). unfold PAGE_SIZE in *. assert (y ≤ x); [apply Hmin; [exists (x / 4096); lia|lia]|lia].
  - specialize (Hmin ((x / PAGE_SIZE + 1) * PAGE_SIZE)). unfold PAGE_SIZE in *.
    assert (y ≤ (x / 4096 + 1) * 4096); [apply Hmin; [apply Z.divide_factor_r|lia]|lia].
Qed.

Lemma ahead_lt l candidate candidate' o : candidate ≤ candidate' → o ∈ l → candidate < o.1 + o.2 ≤ candidate' →
  (ahead l candidate' < ahead l candidate)%nat.
Proof.
  intros Hle Hin Ho. induction l as [|p l IH]; [by apply not_elem_of_nil in Hin|]. unfold ahead in *. simpl.
  assert ((countb (λ o : Z * Z, (candidate' <? o.1 + o.2)%Z) l ≤ countb (λ o : Z * Z, (candidate <? o.1 + o.2)%Z) l)%nat) as Hmono.
  { clear IH Hin. induction l as [|q l IHl]; simpl; [lia|].
    destruct (Z.ltb_spec candidate' (q.1 + q.2)), (Z.ltb_spec candidate (q.1 + q.2)); simpl; lia. }
  apply elem_of_cons in Hin as [->|Hin].
  - destruct (Z.ltb_spec candidate' (p.1 + p.2)), (Z.ltb_spec candidate (p.1 + p.2)); simpl; lia.
  - specialize (IH Hin). destruct (Z.ltb_spec candidate' (p.1 + p.2)), (Z.ltb_spec candidate (p.1 + p.2)); simpl; lia.
Qed.

(** What a mapping of [len] bytes may use. *)
Definition room (slot : FrameBackedSlot) (base len : Z) : Prop :=
  (PAGE_SIZE | base) ∧ PAGE_SIZE ≤ base ∧ base + len ≤ USER_LIMIT ∧ Forall (λ o, overlaps base (base + len) o = false) (obstacles slot).

Lemma find_base_loop_spec slot len rounds : 0 ≤ len → ∀ candidate, (ahead (obstacles slot) candidate < rounds)%nat →
  (PAGE_SIZE | candidate) → PAGE_SIZE ≤ candidate →
  ∃ r, find_base_loop (E := E) rounds slot candidate len = Some r
       ∧ match r with Ok base => room slot base len ∧ candidate ≤ base | Err e => e = InvalidRange ∨ e = CapacityExceeded end.
Proof.
  intros Hlen. induction rounds as [|rounds IH]; intros candidate Ha Hal Hc; [lia|]. cbn [find_base_loop].
  destruct (checked_add U64_MAX candidate len) as [stop|] eqn:Hs; [|by exists (Err InvalidRange); split; [|left]].
  apply checked_add_Some in Hs as [-> _]. destruct (Z.ltb_spec USER_LIMIT (candidate + len)); [by exists (Err CapacityExceeded); split; [|right]|].
  pose proof (last_obstacle_spec candidate (candidate + len) (obstacles slot) None) as Hl.
  destruct (last_obstacle _ _ _ _) as [[z|]|e]; [|destruct Hl; exists (Ok candidate); split; [done|]; split; [unfold room; split_and!; done|lia]|exists (Err e); split; [done|by left]].
  destruct Hl as (Hall & _ & [?|(o & Hin & Ho & Hz & Hlt)%list.Exists_exists]); [done|].
  destruct (round_up_page z) as [c|] eqn:Hr; [|by exists (Err InvalidRange); split; [|left]].
  apply round_up_page_spec in Hr as [Hc' Hd]; [|unfold PAGE_SIZE in *; lia].
  destruct (IH c) as (r & -> & Hres); [|done|lia|].
  - pose proof (ahead_lt (obstacles slot) candidate c o ltac:(lia) Hin ltac:(lia)). lia.
  - exists r. split; [done|]. destruct r as [base|e]; [|done]. destruct Hres. split; [done|lia].
Qed.

Lemma ahead_le l candidate : (ahead l candidate ≤ length l)%nat.
Proof. apply countb_le_length. Qed.

Lemma find_base_spec slot hint len : 0 ≤ len → 0 ≤ hint →
  ∃ r, find_linux_mmap_base (E := E) slot hint len = Some r
       ∧ match r with Ok base => room slot base len | Err e => e = InvalidRange ∨ e = CapacityExceeded end.
Proof.
  intros Hlen Hh. unfold find_linux_mmap_base.
  set (c0 := if hint =? 0 then LINUX_MMAP_BASE else and_not hint (PAGE_SIZE - 1)).
  set (c1 := if c0 <? PAGE_SIZE then LINUX_MMAP_BASE else c0).
  assert (Hb : (PAGE_SIZE | LINUX_MMAP_BASE)) by (by exists 0x40000).
  assert (H0 : (PAGE_SIZE | c0)).
  { unfold c0. destruct (hint =? 0); [done|]. unfold and_not. change (PAGE_SIZE - 1) with (Z.ones 12).
    rewrite Z.ldiff_ones_r, Z.shiftl_mul_pow2 by lia. apply Z.divide_factor_r. }
  assert (H1 : (PAGE_SIZE | c1) ∧ PAGE_SIZE ≤ c1).
  { unfold c1. destruct (Z.ltb_spec c0 PAGE_SIZE); split; try done. }
  destruct (find_base_loop_spec slot len (S (length (obstacles slot))) Hlen c1) as (r & Hr & Hres); try apply H1.
  - pose proof (ahead_le (obstacles slot) c1). lia.
  - exists r. split; [done|]. destruct r; [apply Hres|done].
Qed.

End FindBase.
