(* ===== verification/SpacePages.v ===== *)
(** * Mapping and unmapping pages

    Single pages of a process: publishing a leaf with its record, clearing one
    and giving its frame back, and the loops of process/x86_64.rs over them. *)

From stdpp Require Import prelude list numbers.
From Stdlib Require Import ZArith Lia.
From S2P Require Import Prelude.
From S2P Require Import Wp.
From S2P Require Import AddressSpace.
From S2P Require Import PageTree.
From S2P Require Import SpaceInv.
From S2P Require Import SpaceSteps.

Section Pages.
Context {Mem E : Type} `{!FrameMemory Mem E, KF : !KernelFrames, !FrameMemoryLaws Mem E} (cfg : Config).
Abbreviation State := (FrameBackedAddressSpace Mem).
Abbreviation SM := (M State (FrameBackedError E)).
Implicit Types (s : State) (g : Flight).

Definition set_slot (m : Mem) (i : nat) (x : FrameBackedSlot) (s : State) : State :=
  mkAddressSpace m (kernel_root s) (active_slot s) (<[i := x]> (slots s)) (shared s).

Lemma lookup_set_slot m i x y s : slots s !! i = Some y → slots (set_slot m i x s) !! i = Some x.
Proof. intros H. simpl. by rewrite list_lookup_insert_eq by (by eapply lookup_lt_Some). Qed.

Lemma set_slot_twice m m' i x y s : set_slot m i x (set_slot m' i y s) = set_slot m i x s.
Proof. unfold set_slot. simpl. by rewrite list_insert_insert_eq. Qed.

(** A slot with the same root has the same leaves. *)
Lemma leaf_of_set_slot s i x x' j a : slots s !! i = Some x → root x' = root x →
  leaf_of (set_slot (memory s) i x' s) j a = leaf_of s j a.
Proof.
  intros Hx Hr. unfold leaf_of. simpl. destruct (decide (j = i)) as [->|]; [|by rewrite list_lookup_insert_ne].
  rewrite list_lookup_insert_eq by (by eapply lookup_lt_Some). by rewrite Hx, Hr.
Qed.

(** ** Clearing a page *)

(** The slot after page [k] was cleared; a private page also gives its frame
    back. *)
Definition cleared (g : Flight) (private : bool) (i k : nat) (x : FrameBackedSlot) (p : PageRecord) (s s' : State) : Prop :=
  Core cfg g s' ∧ leaf_set g s s' i (pg_address p) 0
  ∧ ∃ l n m', s' = set_slot m' i (set_page k EMPTY_PAGE (with_owned l n x)) s
     ∧ (if private then owned x ≡ₚ frame p :: take n l else l = owned_frames x ∧ n = owned_frame_count x)
     ∧ ∀ h, live m' h ↔ live (memory s) h ∧ (private = true → h ≠ frame p).

Lemma unused_empty : ¬ used EMPTY_PAGE.
Proof. by intros H. Qed.

Lemma core_forget g s i x k p : Core cfg g s → slots s !! i = Some x → ¬ torn_down g i → pages x !! k = Some p →
  (phase x = Staging → (page_count x ≤ k)%nat) → (used p → leaf_of s i (pg_address p) = 0) →
  Core cfg g (set_slot (memory s) i (set_page k EMPTY_PAGE x) s).
Proof.
  intros C Hx Hn Hk Hst Hz. eapply core_same_frames; eauto; try done.
  - apply C.
  - apply slot_shape_set_page; [by eapply (core_shape _ _ _ C)|]. intros ?. right. by apply Hst.
  - pose proof (core_space _ _ _ C i x Hx Hn) as Hsp. unfold slot_space in *. simpl. unfold leaf_of in Hz. rewrite Hx in Hz.
    destruct (root x) as [r|] eqn:Hr.
    + apply slot_tree_forget; [done| |apply unused_empty]. intros q Hq Hu. simplify_eq. by apply Hz.
    + intros k' q [(_ & <- & _)|[_ Hq]]%lookup_insert_cases; [apply unused_empty|by eapply Hsp].
Qed.

Lemma fresh_after_forget ent sh shares x r k p : slot_tree ent sh shares x r → pages x !! k = Some p → used p → frame p ∈ owned x →
  (∀ id f, shares k id → backing_frame sh id f → f ∉ owned x) → (∀ f, f ∈ kernel_frames → f ∉ owned x) → fresh_in ent (set_page k EMPTY_PAGE x) r (frame p).
Proof.
  intros Ht Hk Hu Ho Hns Hnk.
  destruct (st_owner _ _ _ _ _ Ht k p Hk Hu) as [(_ & Hnt & Huq)|[(id & Hs & Hb)|Hkf]]; [|by destruct (Hns id (frame p))|by destruct (Hnk (frame p))].
  split_and!; try done. intros k' q Hk' Hq He. simpl in Hk'.
  apply lookup_insert_cases in Hk' as [(_ & <- & _)|[Hne Hk']]; [by apply unused_empty in Hq|].
  apply Hne. symmetry. by eapply Huq.
Qed.

Lemma wp_clear_leaf {A} g s i x k p (K : M State (FrameBackedError E) A) Q R : Core cfg g s → slots s !! i = Some x → ¬ torn_down g i →
  pages x !! k = Some p → used p →
  (∀ m1, Core cfg g (with_memory m1 s) → leaf_set g s (with_memory m1 s) i (pg_address p) 0 →
         (∀ h, live m1 h ↔ live (memory s) h) → wp K Q R (with_memory m1 s)) →
  wp ('(table, index) ← leaf_slot cfg i (pg_address p); on_memory (write_entry table index 0);; K) Q R s.
Proof.
  intros C Hx Hn Hk Hu HK. wp_step.
  destruct (root x) as [r|] eqn:Hr; [|by pose proof (core_space _ _ _ C i x Hx Hn) as H; unfold slot_space in H; rewrite Hr in H; destruct (H k p)].
  pose proof (core_tree cfg g s i x r C Hx Hn Hr) as Ht. destruct (st_address _ _ _ _ _ Ht k p Hk Hu) as [Hva [t Hd]].
  eapply wp_mono; [by eapply (leaf_slot_spec _ g s i x); eauto; apply Hva|..].
  - intros [t' d] s' (-> & _ & Hd' & r' & Hr' & Hdd). simplify_eq/=.
    destruct (table_in_ledger cfg g s i x r (table_path (pg_address p)) t) as [_ Hl]; try done; [by apply user_table_path|].
    destruct (on_write_entry cfg g s t (leaf_index (pg_address p)) 0) as (m1 & Hw & Hm1 & Hl1 & He1); try done; [by apply page_index_range|].
    eapply wp_bind_run; [exact Hw|]. cbv beta.
    destruct (core_leaf cfg g s i x r k p t 0 m1) as (C1 & Hset & _); [done..|by right|by split_and!|].
    by apply HK.
  - intros e s' [-> Hnone]. specialize (Hnone Hva r Hr). congruence.
Qed.

(** [release_owned_frame] finds the frame, and what it leaves. *)
Lemma release_owned_frame_run s i x k f m' : slots s !! i = Some x → slot_shape cfg x →
  position (Z.eqb f) (owned x) = Some k → release f (memory s) = (Ok tt, m') →
  release_owned_frame cfg i f s = (Ok tt, set_slot m' i (drop_owned k x) s).
Proof.
  intros Hx Hs Hk Hrel. unfold release_owned_frame. m_unfold. unfold get_slot. m_unfold. rewrite (the_slot_eq cfg s i x Hx).
  fold (owned x). rewrite Hk. unfold on_memory, zoom. rewrite Hrel. simpl. unfold on_slot. m_unfold.
  by rewrite (update_slot_eq _ _ i x).
Qed.

Lemma clear_page_spec {A} g (private : bool) s i x k p (K : M State (FrameBackedError E) A) Q R :
  Core cfg g s → slots s !! i = Some x → ¬ torn_down g i → phase x ≠ Staging →
  pages x !! k = Some p → used p →
  (∀ s', cleared g private i k x p s s' → wp K Q R s') →
  (∀ e m', private = true → (frame p ∉ owned x) → Core cfg g (with_memory m' s) → R e (with_memory m' s)) →
  wp ('(table, index) ← leaf_slot cfg i (pg_address p);
      on_memory (write_entry table index 0);;
      (if private then release_owned_frame cfg i (frame p) else mret tt);;
      on_slot i (set_page k EMPTY_PAGE);;
      K) Q R s.
Proof.
  intros C Hx Hn Hph Hk Hu HK HR. eapply wp_clear_leaf; eauto. intros m1 C1 Hset Hlive1.
  set (s1 := with_memory m1 s) in *. assert (Hx1 : slots s1 !! i = Some x) by done.
  pose proof (core_shape _ _ _ C i x Hx) as Hsh.
  assert (Hva : user_address (pg_address p)).
  { pose proof (core_space _ _ _ C i x Hx Hn) as Hsp. unfold slot_space in Hsp. destruct (root x) as [r|]; [|by destruct (Hsp k p)].
    by eapply (st_address _ _ _ _ _ Hsp). }
  assert (Hz : leaf_of s1 i (pg_address p) = 0). { rewrite Hset by done. by rewrite decide_True by done. }
  pose proof (core_forget g s1 i x k p C1 Hx1 Hn Hk ltac:(done) ltac:(done)) as C1f.
  destruct private; cbv iota; wp_step.
  - destruct (position (Z.eqb (frame p)) (owned x)) as [k0|] eqn:Hpos.
    + pose proof Hpos as Hpos'. apply position_lookup in Hpos' as (f & Hf & <-%Z.eqb_eq).
      assert (Ho : frame p ∈ owned x) by (by eapply list_elem_of_lookup_2).
      destruct (core_owned_live cfg g s1 (frame p) C1) as [Hlive _]; [by eapply owned_in_ledger|].
      destruct (law_release m1 (frame p) (core_mem _ _ _ C1) Hlive) as (m2 & Hrel & Hm2 & Hlive2 & He2).
      eapply wp_of_run; [by eapply release_owned_frame_run|]. wp_step.
      eapply wp_on_slot; [by eapply lookup_set_slot|]. apply HK.
      set (s3 := set_slot m2 i (set_page k EMPTY_PAGE (drop_owned k0 x)) s).
      match goal with |- cleared _ _ _ _ _ _ _ ?st => replace st with s3 by (symmetry; exact (set_slot_twice _ _ _ _ _ _)) end.
      destruct (core_drop cfg g (set_slot m1 i (set_page k EMPTY_PAGE x) s1) i (set_page k EMPTY_PAGE x) k0 (frame p) m2) as [C2 Hl2]; try done.
      * by eapply lookup_set_slot.
      * intros r Hr. simpl. eapply fresh_after_forget; [by eapply (core_tree cfg g s1)|done|done|done|..].
        { intros id f Hs Hb. by eapply (backing_not_owned cfg g s1). }
        intros f Hkf. by eapply (kernel_not_owned cfg g s1).
      * change (Core cfg g (set_slot m2 i (drop_owned k0 (set_page k EMPTY_PAGE x)) (set_slot m1 i (set_page k EMPTY_PAGE x) s1))) in C2.
        rewrite set_slot_twice in C2. split_and!; [exact C2|..].
        -- intros j a Hj Ha. rewrite <-Hset by done.
           etrans; [|etrans; [exact (Hl2 j a Hj Ha)|]].
           ++ f_equal. symmetry. exact (set_slot_twice _ _ _ _ _ _).
           ++ by eapply leaf_of_set_slot.
        -- do 3 eexists. split; [reflexivity|]. split; [by eapply (owned_drop cfg)|].
           intros h. rewrite Hlive2, Hlive1. naive_solver.
    + unfold release_owned_frame. wp_step. apply wp_get_slot with x; [done|]. fold (owned x). rewrite Hpos. wp_step. wp_step; [done|].
      apply HR; try done. intros Ho. apply list_elem_of_lookup_1 in Ho as [k0 Ho].
      destruct (position_is_Some (Z.eqb (frame p)) (owned x) k0 (frame p)) as [? ?]; [done|apply Z.eqb_refl|congruence].
  - do 2 wp_step. eapply wp_on_slot; [exact Hx1|]. apply HK. split_and!; [exact C1f|..].
    + intros j a Hj Ha. rewrite <-Hset by done. by eapply (leaf_of_set_slot s1).
    + exists (owned_frames x), (owned_frame_count x), m1. rewrite with_owned_same. split_and!; try done.
      intros h. rewrite Hlive1. naive_solver.
Qed.

(** ** Clearing a range of pages *)

Definition range (k n j : nat) : Prop := (k ≤ j < k + n)%nat.

(** A record in use among the pages [D]. *)
Definition record_at (x : FrameBackedSlot) (D : nat → Prop) (p : PageRecord) : Prop := ∃ j, D j ∧ pages x !! j = Some p ∧ used p.

Lemma record_at_ext x x' D p : (∀ j, D j → pages x' !! j = pages x !! j) → record_at x' D p ↔ record_at x D p.
Proof.
  intros H. split; intros (j & Hj & Hp & ?); exists j; split_and!; try done.
  - by rewrite <-H.
  - by rewrite H.
Qed.

(** Records of slot [i] among [D] were removed, with frames perhaps. *)
Record shrunk (g : Flight) (i : nat) (D : nat → Prop) (x : FrameBackedSlot) (s s' : State) : Prop := {
  sk_core : Core cfg g s';
  sk_state : ∃ l c P m', s' = set_slot m' i (with_owned l c (with_pages P (page_count x) x)) s ∧ length P = length (pages x)
    ∧ (∀ j p, P !! j = Some p → used p → pages x !! j = Some p)
    ∧ (∀ j, ¬ D j → P !! j = pages x !! j) ∧ (∀ h, h ∈ take c l → h ∈ owned x);
}.

(** All of them, and their leaves, and nothing else. *)
Record unmapped (g : Flight) (private : bool) (i : nat) (D : nat → Prop) (x : FrameBackedSlot) (s s' : State) : Prop := {
  um_shrunk : shrunk g i D x s s';
  um_records : ∀ x' j p, slots s' !! i = Some x' → D j → pages x' !! j = Some p → ¬ used p;
  um_mono : ∀ a, user_address a → leaf_of s' i a = 0 ∨ leaf_of s' i a = leaf_of s i a;
  um_in : ∀ a p, user_address a → record_at x D p → page_of a = page_of (pg_address p) → leaf_of s' i a = 0;
  um_out : ∀ j a, ¬ torn_down g j → user_address a → (j = i → ∀ p, record_at x D p → page_of a ≠ page_of (pg_address p)) →
    leaf_of s' j a = leaf_of s j a;
  um_live : ∀ h, live (memory s') h ↔ live (memory s) h ∧ (private = true → ∀ p, record_at x D p → frame p ≠ h);
}.

Lemma with_pages_same x : with_pages (pages x) (page_count x) x = x.
Proof. by destruct x. Qed.

Lemma shrunk_memory g i D x s m' : Core cfg g (with_memory m' s) → slots s !! i = Some x → shrunk g i D x s (with_memory m' s).
Proof.
  intros C Hx. split; [done|]. exists (owned_frames x), (owned_frame_count x), (pages x), m'.
  rewrite with_pages_same, with_owned_same. split_and!; try done. unfold set_slot. by rewrite list_insert_id.
Qed.

Lemma shrunk_refl g i D x s : Core cfg g s → slots s !! i = Some x → shrunk g i D x s s.
Proof. intros C Hx. pose proof (shrunk_memory g i D x s (memory s)) as H. rewrite with_memory_same in H. by apply H. Qed.

Lemma unmapped_nil g private i D x s : Core cfg g s → slots s !! i = Some x → (∀ j, ¬ D j) → unmapped g private i D x s s.
Proof.
  intros C Hx HD. assert (∀ p, ¬ record_at x D p) as Hno by (intros p (j & ? & _); by eapply HD).
  split; [by apply shrunk_refl|..].
  - intros x' j p _ Hj. by apply HD in Hj.
  - by right.
  - intros a p _ Hp. by apply Hno in Hp.
  - done.
  - intros h. split; [intros ?; split; [done|]|by intros [? _]]. intros _ p Hp. by apply Hno in Hp.
Qed.

Lemma shrunk_slot g i D x s s' : shrunk g i D x s s' → slots s !! i = Some x →
  ∃ x', slots s' !! i = Some x' ∧ root x' = root x ∧ phase x' = phase x ∧ mappings x' = mappings x ∧ mapping_count x' = mapping_count x
    ∧ page_count x' = page_count x ∧ generation x' = generation x ∧ process_info x' = process_info x
    ∧ (heap_break x' = heap_break x ∧ initial_stack_pages x' = initial_stack_pages x)
    ∧ length (pages x') = length (pages x) ∧ (∀ j p, pages x' !! j = Some p → used p → pages x !! j = Some p)
    ∧ (∀ j, ¬ D j → pages x' !! j = pages x !! j)
    ∧ shared s' = shared s ∧ active_slot s' = active_slot s ∧ s' = set_slot (memory s') i x' s.
Proof.
  intros [C (l & c & P & m' & -> & Hl & Hp & Ho & _)] Hx. eexists. split; [by eapply lookup_set_slot|]. by split_and!.
Qed.

Lemma shrunk_pages g i D x s s' x' j p : shrunk g i D x s s' → slots s !! i = Some x → slots s' !! i = Some x' →
  pages x' !! j = Some p → used p → pages x !! j = Some p.
Proof.
  intros Hs Hx Hx'. destruct (shrunk_slot _ _ _ _ _ _ Hs Hx) as (y & Hy & _ & _ & _ & _ & _ & _ & _ & _ & _ & Hp & _).
  assert (y = x') as -> by congruence. apply Hp.
Qed.

(** Clearing page [k] and then the pages [D]. *)
Section Cons.
Context (g : Flight) (private : bool) (i k : nat) (D D' : nat → Prop) (x : FrameBackedSlot) (p : PageRecord) (s1 s s' : State).
Context (Hx : slots s !! i = Some x) (Hn : ¬ torn_down g i) (Hk : pages x !! k = Some p) (Hu : used p).
Context (HDk : ¬ D k) (HD : ∀ j, D' j ↔ j = k ∨ D j) (Hc : cleared g private i k x p s s1).

Lemma record_at_cons q : record_at x D' q ↔ q = p ∨ record_at x D q.
Proof.
  split.
  - intros (j & [->|Hj]%HD & Hq & ?); [left; congruence|right; by exists j].
  - intros [->|(j & Hj & ? & ?)]; [exists k|exists j]; split_and!; try done; apply HD; tauto.
Qed.

Lemma shrunk_cons : (∀ x1, slots s1 !! i = Some x1 → shrunk g i D x1 s1 s') → shrunk g i D' x s s'.
Proof.
  destruct Hc as (C1 & _ & l1 & c1 & m1 & -> & Hown & _). intros Hs.
  destruct (Hs _ (lookup_set_slot _ _ _ _ _ Hx)) as [C' (l & c & P & m' & -> & Hl & Hp & Ho & Hf)]. clear Hs.
  split; [done|]. exists l, c, P, m'. simpl in *. rewrite length_insert in Hl. rewrite set_slot_twice. split_and!; try done.
  - intros j q Hj Hq. apply (Hp j q Hj) in Hq as Hin. by apply lookup_insert_cases in Hin as [(_ & <- & _)|[_ ?]].
  - intros j Hj. rewrite HD in Hj. rewrite Ho by tauto. rewrite list_lookup_insert_ne; [done|]. intros ->. tauto.
  - intros h Hh%Hf. simpl in Hh. destruct private; [rewrite Hown; by right|]. destruct Hown as [-> ->]. done.
Qed.

Lemma unmapped_cons : (∀ x1, slots s1 !! i = Some x1 → unmapped g private i D x1 s1 s') → unmapped g private i D' x s s'.
Proof.
  intros Hs. pose proof Hc as (C1 & Hset & l1 & c1 & m1 & Hs1 & Hown & Hlive).
  assert (Hx1 : slots s1 !! i = Some (set_page k EMPTY_PAGE (with_owned l1 c1 x))) by (rewrite Hs1; by eapply lookup_set_slot).
  destruct (Hs _ Hx1) as [Hsk Hrec Hmono Hin Hout Hlv]. clear Hs.
  assert (Hext : ∀ q, record_at (set_page k EMPTY_PAGE (with_owned l1 c1 x)) D q ↔ record_at x D q).
  { intros q. apply record_at_ext. intros j Hj. simpl. rewrite list_lookup_insert_ne; [done|]. by intros ->. }
  split.
  - apply shrunk_cons. intros y Hy. by simplify_eq.
  - intros x' j q Hx' [->|Hj]%HD Hq; [|by eapply Hrec].
    intros Hq'. pose proof (shrunk_pages _ _ _ _ _ _ _ k q Hsk Hx1 Hx' Hq Hq') as Hl. simpl in Hl.
    apply lookup_insert_cases in Hl as [(_ & <- & _)|[? _]]; [by apply unused_empty in Hq'|done].
  - intros a Ha. destruct (Hmono a Ha) as [?| ->]; [by left|]. rewrite Hset by done. case_decide; [by left|by right].
  - intros a q Ha [->|Hq]%record_at_cons Hpg; [|by apply (Hin a q Ha); [apply Hext|]].
    destruct (Hmono a Ha) as [?| ->]; [done|]. rewrite Hset by done. by rewrite decide_True.
  - intros j a Hj Ha Hno. rewrite Hout, Hset; try done.
    + rewrite decide_False; [done|]. intros [-> Hpg]. eapply Hno; eauto. apply record_at_cons. by left.
    + intros -> q Hq. apply Hno; [done|]. apply record_at_cons. right. by apply Hext.
  - intros h. rewrite Hlv, Hs1. cbn [memory set_slot]. rewrite Hlive. setoid_rewrite Hext. setoid_rewrite record_at_cons. naive_solver.
Qed.

End Cons.

Lemma range_S k n j : range k (S n) j ↔ j = k ∨ range (S k) n j.
Proof. unfold range. lia. Qed.

Lemma range_last k n j : range k (S n) j ↔ j = (k + n)%nat ∨ range k n j.
Proof. unfold range. lia. Qed.

Lemma shrunk_widen g i (D D' : nat → Prop) x s s' : (∀ j, D j → D' j) → shrunk g i D x s s' → shrunk g i D' x s s'.
Proof.
  intros HD [C (l & c & P & m' & -> & Hl & Hp & Ho & Hf)]. split; [done|]. exists l, c, P, m'. split_and!; try done.
  intros j Hj. apply Ho. auto.
Qed.

(** Page [k] was not in use. *)
Lemma unmapped_skip g private i k (D D' : nat → Prop) x s s' : slots s !! i = Some x → (∀ j, D' j ↔ j = k ∨ D j) →
  (∀ p, pages x !! k = Some p → ¬ used p) → unmapped g private i D x s s' → unmapped g private i D' x s s'.
Proof.
  intros Hx HD Hk [Hsk Hrec Hmono Hin Hout Hlv].
  assert (Hext : ∀ q, record_at x D' q ↔ record_at x D q).
  { intros q. split; intros (j & Hj & Hq & Hu); [|exists j; split_and!; try done; apply HD; by right].
    apply HD in Hj as [->|Hj]; [by destruct (Hk q)|by exists j]. }
  split.
  - eapply shrunk_widen; [|done]. intros j ?. apply HD. by right.
  - intros x' j p Hx' [->|Hj]%HD Hp; [|by eapply Hrec]. intros Hu. eapply (Hk p); [|done]. by eapply shrunk_pages.
  - done.
  - intros a q Ha Hq. apply Hin; [done|by apply Hext].
  - intros j a Hj Ha Hno. apply Hout; try done. intros -> q Hq. apply Hno; [done|by apply Hext].
  - intros h. rewrite Hlv. by setoid_rewrite Hext.
Qed.

Lemma page_free_used p : page_free p = false ↔ used p.
Proof. unfold page_free, used. by rewrite Z.eqb_neq. Qed.

(** A record in the range whose frame is not the process's own. *)
Definition foreign_record (x : FrameBackedSlot) (k n : nat) : Prop := ∃ p, record_at x (range k n) p ∧ (frame p ∉ owned x).

Lemma foreign_head x k n p : pages x !! k = Some p → used p → (frame p ∉ owned x) → foreign_record x k (S n).
Proof. intros Hk Hu Ho. exists p. split; [|done]. exists k. split_and!; try done. unfold range. lia. Qed.

Lemma foreign_tail x k n : foreign_record x (S k) n → foreign_record x k (S n).
Proof. intros (p & (j & Hj & ? & ?) & ?). exists p. split; [|done]. exists j. split_and!; try done. unfold range in *. lia. Qed.

Lemma foreign_after_clear g i k n x p s1 s : Core cfg g s → slots s !! i = Some x → ¬ torn_down g i → pages x !! k = Some p → used p →
  cleared g true i k x p s s1 → (∀ x1, slots s1 !! i = Some x1 → foreign_record x1 (S k) n) → foreign_record x k (S n).
Proof.
  intros C Hx Hn Hk Hu (C1 & _ & l1 & c1 & m1 & -> & Hown & _) Hf.
  destruct (Hf _ (lookup_set_slot _ _ _ _ _ Hx)) as (q & (j & Hj & Hq & Huq) & Hno). simpl in Hq, Hno, Hown. unfold range in Hj.
  rewrite list_lookup_insert_ne in Hq by lia.
  exists q. split; [exists j; split_and!; try done; unfold range; lia|]. intros Ho. rewrite Hown in Ho.
  apply elem_of_cons in Ho as [He|?]; [|done].
  pose proof (core_space _ _ _ C i x Hx Hn) as Hsp. unfold slot_space in Hsp. destruct (root x) as [r|] eqn:Hr; [|by destruct (Hsp k p)].
  destruct (st_owner _ _ _ _ _ Hsp k p Hk Hu) as [(_ & _ & Huniq)|[(id & _ & Hb)|Hkf]].
  - assert (j = k) by (by eapply Huniq). lia.
  - eapply (backing_not_owned cfg g s i x); eauto. rewrite Hown. by left.
  - eapply (kernel_not_owned cfg g s i x); eauto. rewrite Hown. by left.
Qed.

Lemma munmap_loop_spec g (private : bool) n i : ∀ k s x, Core cfg g s → slots s !! i = Some x → ¬ torn_down g i → phase x ≠ Staging →
  (k + n ≤ length (pages x))%nat →
  wp (munmap_loop cfg n i k private) (λ _ s', unmapped g private i (range k n) x s s')
    (λ _ s', shrunk g i (range k n) x s s' ∧ private = true ∧ foreign_record x k n) s.
Proof.
  induction n as [|n IH]; intros k s x C Hx Hn Hph Hlen; simpl.
  { wp_step. apply unmapped_nil; try done. unfold range. lia. }
  destruct (lookup_lt_is_Some_2 (pages x) k) as [p Hk]; [lia|].
  wp_step. apply wp_get_slot with x; [done|]. rewrite (slot_at_Some _ _ _ _ Hk).
  assert (HDk : ¬ range (S k) n k) by (unfold range; lia).
  destruct (page_free p) eqn:Hfree.
  - assert (∀ q, pages x !! k = Some q → ¬ used q) as Hnk.
    { intros q Hq Hu. simplify_eq. apply page_free_used in Hu. congruence. }
    eapply wp_mono; [apply (IH (S k) s x); try done; lia|..].
    + intros ? s' Hs. eapply (unmapped_skip _ _ _ k (range (S k) n)); eauto using range_S.
    + intros ? s' (Hs & Hp & Hfo). split_and!; [|done|by apply foreign_tail].
      eapply shrunk_widen; [|done]. intros j ?. apply range_S. by right.
  - apply page_free_used in Hfree. eapply clear_page_spec; eauto.
    + intros s1 Hc. pose proof Hc as (C1 & _ & l1 & c1 & m1 & Hs1 & _).
      assert (Hx1 : slots s1 !! i = Some (set_page k EMPTY_PAGE (with_owned l1 c1 x))) by (rewrite Hs1; by eapply lookup_set_slot).
      eapply wp_mono; [eapply (IH (S k) s1); eauto; simpl; rewrite length_insert; lia|..].
      * intros ? s' Hs. eapply unmapped_cons; eauto; [apply range_S|]. intros y Hy. by simplify_eq.
      * intros ? s' (Hs & -> & Hfo). split_and!; [|done|].
        -- eapply shrunk_cons; eauto; [apply range_S|]. intros y Hy. by simplify_eq.
        -- eapply (foreign_after_clear g i k n x p s1 s); eauto. intros y Hy. by simplify_eq.
    + intros e m' -> Ho C'. split_and!; [by apply shrunk_memory|done|by eapply foreign_head].
Qed.

Lemma rollback_is_munmap n i : ∀ k s, rollback_linux_mapping_pages cfg n i k s = munmap_loop cfg n i k true s.
Proof.
  induction n as [|n IH]; intros k s; [done|]. simpl. unfold mbind, M_bind. destruct (get_slot cfg i s) as [[slot|e] s1]; [|done].
  destruct (page_free _); [apply IH|]. destruct (leaf_slot _ _ _ s1) as [[[t d]|e] s2]; [|done].
  destruct (on_memory _ s2) as [[[]|e] s3]; [|done]. destruct (release_owned_frame _ _ _ s3) as [[[]|e] s4]; [|done].
  destruct (on_slot _ _ s4) as [[[]|e] s5]; [|done]. apply IH.
Qed.

Lemma brk_shrink_loop_spec g n i : ∀ k s x, Core cfg g s → slots s !! i = Some x → ¬ torn_down g i → phase x ≠ Staging →
  (∀ j, range k n j → ∃ p, pages x !! j = Some p ∧ used p) →
  wp (brk_shrink_loop cfg n i k) (λ _ s', unmapped g true i (range k n) x s s') (λ _ _, foreign_record x k n) s.
Proof.
  induction n as [|n IH]; intros k s x C Hx Hn Hph Hall; simpl.
  { wp_step. apply unmapped_nil; try done. unfold range. lia. }
  destruct (Hall k) as (p & Hk & Hu); [unfold range; lia|].
  wp_step. apply wp_get_slot with x; [done|]. rewrite (slot_at_Some _ _ _ _ Hk).
  assert (HDk : ¬ range (S k) n k) by (unfold range; lia).
  wp_step. apply wp_ensure; [intros _|intros Hf; apply page_free_used in Hu; by rewrite Hu in Hf].
  apply (clear_page_spec g true s i x k p (brk_shrink_loop cfg n i (S k))); try done.
  - intros s1 Hc. pose proof Hc as (C1 & _ & l1 & c1 & m1 & Hs1 & _).
    assert (Hx1 : slots s1 !! i = Some (set_page k EMPTY_PAGE (with_owned l1 c1 x))) by (rewrite Hs1; by eapply lookup_set_slot).
    eapply wp_mono; [eapply (IH (S k) s1); eauto|..].
    + intros j Hj. simpl. unfold range in Hj. rewrite list_lookup_insert_ne by lia. apply Hall. unfold range. lia.
    + intros ? s' Hs. eapply unmapped_cons; eauto; [apply range_S|]. intros y Hy. by simplify_eq.
    + intros ? s' Hfo. eapply (foreign_after_clear g i k n x p s1 s); eauto. intros y Hy. by simplify_eq.
  - intros e m' _ Ho C'. by eapply foreign_head.
Qed.

Lemma rollback_shared_spec g n i : ∀ k s x, Core cfg g s → slots s !! i = Some x → ¬ torn_down g i → phase x ≠ Staging →
  (∀ j, range k n j → ∃ p, pages x !! j = Some p ∧ used p) →
  wp (rollback_shared_mapping_pages cfg n i k) (λ _ s', unmapped g false i (range k n) x s s') (λ _ _, False) s.
Proof.
  induction n as [|n IH]; intros k s x C Hx Hn Hph Hall; simpl.
  { wp_step. apply unmapped_nil; try done. unfold range. lia. }
  destruct (Hall (k + n)%nat) as (p & Hk & Hu); [unfold range; lia|].
  assert (HDk : ¬ range k n (k + n)%nat) by (unfold range; lia).
  wp_step. apply wp_get_slot with x; [done|]. rewrite (slot_at_Some _ _ _ _ Hk).
  apply (clear_page_spec g false s i x (k + n) p (rollback_shared_mapping_pages cfg n i k)); try done.
  intros s1 Hc. pose proof Hc as (C1 & _ & l1 & c1 & m1 & Hs1 & _).
  assert (Hx1 : slots s1 !! i = Some (set_page (k + n) EMPTY_PAGE (with_owned l1 c1 x))) by (rewrite Hs1; by eapply lookup_set_slot).
  eapply wp_mono; [eapply (IH k s1); eauto|..|done].
  - intros j Hj. simpl. unfold range in Hj. rewrite list_lookup_insert_ne by lia. apply Hall. unfold range. lia.
  - intros ? s' Hs. eapply unmapped_cons; eauto; [apply range_last|]. intros y Hy. by simplify_eq.
Qed.

(** ** Mapping a range of pages *)

Definition wx_free (p : MappingPermissions) : Prop := writable p && executable p = false.

Lemma leaf_form_flags f c : Z.land f PAGE_ADDRESS_MASK = f → Z.land c PAGE_ADDRESS_MASK = 0 → Z.land c 0x84 = ENTRY_USER →
  (Z.land c ENTRY_WRITABLE ≠ 0 → Z.land c ENTRY_NO_EXECUTE ≠ 0) → is_u64 c → leaf_form f (Z.lor f c) ∧ is_u64 (Z.lor f c).
Proof.
  intros Hf Hc Hu Hw H64. split; [|by apply flagged_u64]. unfold leaf_form.
  rewrite flagged_address, !flagged_bits by done. done.
Qed.

Lemma user_entry_form f p : Z.land f PAGE_ADDRESS_MASK = f → wx_free p → leaf_form f (user_mapping_entry f p) ∧ is_u64 (user_mapping_entry f p).
Proof.
  intros Hf Hp. unfold user_mapping_entry. rewrite <-!Z.lor_assoc.
  destruct p as [[] [] []]; try done; apply leaf_form_flags; try done; unfold is_u64, U64_MAX; vm_compute; split; discriminate.
Qed.

Lemma heap_entry_form f : Z.land f PAGE_ADDRESS_MASK = f →
  Z.lor (Z.lor (Z.lor (Z.lor f ENTRY_PRESENT) ENTRY_USER) ENTRY_WRITABLE) ENTRY_NO_EXECUTE = user_mapping_entry f HEAP_PERMISSIONS
  ∧ Z.lor (Z.lor (Z.lor (Z.lor f ENTRY_PRESENT) ENTRY_WRITABLE) ENTRY_USER) ENTRY_NO_EXECUTE = user_mapping_entry f HEAP_PERMISSIONS.
Proof. intros Hf. unfold user_mapping_entry. by rewrite <-!Z.lor_assoc. Qed.

Lemma leaf_form_nonzero f e : leaf_form f e → e ≠ 0.
Proof. intros (_ & H & _) ->. discriminate. Qed.

Lemma leaf_of_page s j a b : page_of a = page_of b → leaf_of s j a = leaf_of s j b.
Proof.
  intros H. unfold leaf_of. destruct (slots s !! j) as [x|]; [|done]. destruct (root x) as [r|]; [|done]. unfold leaf.
  pose proof (indices_page _ _ H) as Hi. rewrite !indices_split in Hi. apply app_inj_tail in Hi as [-> ->]. done.
Qed.

(** Pages [start..start+n] of slot [i] were mapped, page [h] at [va h] with the
    entry [v f] of its frame [f]; a private frame is new, a shared one is
    [src h]. *)
Record extended (g : Flight) (private : bool) (i start n : nat) (va : nat → Z) (v : Z → Z) (src : nat → Z)
    (x0 : FrameBackedSlot) (s0 s : State) : Prop := {
  ex_core : Core cfg g s;
  ex_state : ∃ l c P m', s = set_slot m' i (with_owned l c (with_pages P (page_count x0) x0)) s0 ∧ length P = length (pages x0)
    ∧ (∀ j, ¬ range start n j → P !! j = pages x0 !! j) ∧ owned x0 ⊆ take c l
    ∧ ∀ h, (h < n)%nat → ∃ f, P !! (start + h)%nat = Some (mkPage f (va h)) ∧ leaf_of s i (va h) = v f
        ∧ leaf_form f (v f) ∧ if private then f ∈ take c l ∧ (f ∉ ledger s0) else f = src h;
  ex_new : ∀ h, (h < n)%nat → user_address (va h) ∧ va h ≠ 0 ∧ leaf_of s0 i (va h) = 0;
  ex_out : ∀ j a, ¬ torn_down g j → user_address a → (j = i → ∀ h, (h < n)%nat → page_of a ≠ page_of (va h)) →
    leaf_of s j a = leaf_of s0 j a;
}.

Lemma extended_nil g private i start va v src x s : Core cfg g s → slots s !! i = Some x → extended g private i start 0 va v src x s s.
Proof.
  intros C Hx. split; [done| |intros; lia|done].
  exists (owned_frames x), (owned_frame_count x), (pages x), (memory s). rewrite with_pages_same, with_owned_same.
  split_and!; try done; [|intros; lia]. unfold set_slot. rewrite list_insert_id by done. by destruct s.
Qed.

Lemma extended_slot g private i start n va v src x0 s0 s : extended g private i start n va v src x0 s0 s → slots s0 !! i = Some x0 →
  ∃ l c P, slots s !! i = Some (with_owned l c (with_pages P (page_count x0) x0)) ∧ length P = length (pages x0)
    ∧ (∀ j, ¬ range start n j → P !! j = pages x0 !! j)
    ∧ (∀ h, (h < n)%nat → ∃ f, P !! (start + h)%nat = Some (mkPage f (va h)) ∧ va h ≠ 0 ∧ (private = true → f ∈ take c l))
    ∧ shared s = shared s0 ∧ active_slot s = active_slot s0.
Proof.
  intros [C (l & c & P & m' & -> & Hl & Ho & _ & Hin) Hnew _] Hx. exists l, c, P. split_and!; try done; [by eapply lookup_set_slot|].
  intros h Hh. destruct (Hin h Hh) as (f & ? & _ & _ & Hf). destruct (Hnew h Hh) as (_ & ? & _).
  exists f. split_and!; try done. intros ->. apply Hf.
Qed.

Lemma extended_grown g private i start n va v src x0 s0 s s1 : ¬ torn_down g i → slots s0 !! i = Some x0 →
  extended g private i start n va v src x0 s0 s → Core cfg g s1 → grown g i s s1 → extended g private i start n va v src x0 s0 s1.
Proof.
  intros Hn Hx0 [C (l & c & P & m' & Hs & Hl & Ho & Hown & Hin) Hnew Hout] C1 G.
  destruct (gr_state _ _ _ _ G) as (x & l1 & c1 & m1 & Hx & Hown1 & Hs1).
  assert (x = with_owned l c (with_pages P (page_count x0) x0)) as ->.
  { rewrite Hs in Hx. rewrite (lookup_set_slot _ _ _ _ _ Hx0) in Hx. congruence. }
  split; [done| |done|].
  - exists l1, c1, P, m1. simpl in *. split_and!; try done.
    + rewrite Hs1, Hs. unfold set_slot. simpl. by rewrite list_insert_insert_eq.
    + set_solver.
    + intros h Hh. destruct (Hin h Hh) as (f & ? & Hlf & ? & Hf). exists f. split_and!; try done.
      * rewrite (gr_leaf _ _ _ _ G) by (done || by apply Hnew). done.
      * destruct private; [|done]. destruct Hf. split; [set_solver|done].
  - intros j a Hj Ha Hno. rewrite (gr_leaf _ _ _ _ G) by done. by apply Hout.
Qed.

Lemma extended_snoc g private i start n va v src x0 s0 s x f m' : ¬ torn_down g i → slots s0 !! i = Some x0 →
  extended g private i start n va v src x0 s0 s → slots s !! i = Some x →
  user_address (va n) → va n ≠ 0 → leaf_of s i (va n) = 0 → leaf_form f (v f) →
  (if private then f ∈ owned x ∧ (f ∉ ledger s0) else f = src n) → (start + n < length (pages x0))%nat →
  let s' := set_slot m' i (set_page (start + n) (mkPage f (va n)) x) s in
  Core cfg g s' → leaf_set g s s' i (va n) (v f) → extended g private i start (S n) va v src x0 s0 s'.
Proof.
  intros Hn Hx0 [C (l & c & P & m & Hs & Hl & Ho & Hown & Hin) Hnew Hout] Hx Hva Hnz H0 Hform Hf Hlen s' C' Hset.
  assert (x = with_owned l c (with_pages P (page_count x0) x0)) as ->.
  { rewrite Hs in Hx. rewrite (lookup_set_slot _ _ _ _ _ Hx0) in Hx. congruence. }
  assert (Hdist : ∀ h, (h < n)%nat → page_of (va n) ≠ page_of (va h)).
  { intros h Hh Hpg. destruct (Hin h Hh) as (f' & _ & Hlf & Hf' & _).
    rewrite (leaf_of_page s i _ _ Hpg), Hlf in H0. by eapply leaf_form_nonzero. }
  split; [done|..].
  - exists l, c, (<[(start + n)%nat := mkPage f (va n)]> P), m'. split_and!; try done.
    + unfold s'. rewrite Hs. apply set_slot_twice.
    + by rewrite length_insert.
    + intros j Hj. rewrite list_lookup_insert_ne by (unfold range in Hj; lia). apply Ho. unfold range in *. lia.
    + intros h Hh. destruct (decide (h = n)) as [->|].
      * exists f. rewrite list_lookup_insert_eq by lia. split_and!; try done. rewrite Hset by done. by rewrite decide_True.
      * destruct (Hin h) as (f' & Hp & Hlf & ? & ?); [lia|]. exists f'. rewrite list_lookup_insert_ne by lia. split_and!; try done.
        rewrite Hset by (done || apply Hnew; lia). rewrite decide_False; [done|]. intros [_ Hpg]. by apply (Hdist h); [lia|].
  - intros h Hh. destruct (decide (h = n)) as [->|]; [|apply Hnew; lia]. split_and!; try done.
    rewrite <-H0. symmetry. by apply Hout.
  - intros j a Hj Ha Hno. rewrite Hset by done. rewrite decide_False.
    + apply Hout; try done. intros -> h Hh. apply Hno; [done|lia].
    + intros [-> Hpg]. by apply (Hno eq_refl n); [lia|].
Qed.

(** Everything is as before, but for frames and empty tables. *)
Record restored (g : Flight) (i start n : nat) (x0 : FrameBackedSlot) (s0 s : State) : Prop := {
  re_core : Core cfg g s;
  re_state : ∃ l c P m', s = set_slot m' i (with_owned l c (with_pages P (page_count x0) x0)) s0 ∧ length P = length (pages x0)
    ∧ (∀ j, ¬ range start n j → P !! j = pages x0 !! j) ∧ (∀ j p, range start n j → P !! j = Some p → ¬ used p);
  re_leaf : ∀ j a, ¬ torn_down g j → user_address a → leaf_of s j a = leaf_of s0 j a;
}.

Lemma extended_undo g private i start n va v src x0 s0 s x s' : ¬ torn_down g i → slots s0 !! i = Some x0 →
  extended g private i start n va v src x0 s0 s → slots s !! i = Some x → unmapped g private i (range start n) x s s' →
  restored g i start n x0 s0 s'.
Proof.
  intros Hn Hx0 [C (l & c & P & m & Hs & Hl & Ho & Hown & Hin) Hnew Hout] Hx [[C' (l' & c' & P' & m' & Hs' & Hl' & Hp' & Ho' & _)] Hrec Hmono Hi Hou _].
  assert (x = with_owned l c (with_pages P (page_count x0) x0)) as ->.
  { rewrite Hs in Hx. rewrite (lookup_set_slot _ _ _ _ _ Hx0) in Hx. congruence. }
  assert (Hrat : ∀ p, record_at (with_owned l c (with_pages P (page_count x0) x0)) (range start n) p →
            ∃ h f, (h < n)%nat ∧ p = mkPage f (va h)).
  { intros p (j & Hj & Hp & _). destruct (Hin (j - start)%nat) as (f & Hpf & _); [unfold range in Hj; lia|].
    replace (start + (j - start))%nat with j in Hpf by (unfold range in Hj; lia). simpl in Hp. simplify_eq.
    exists (j - start)%nat, f. split; [unfold range in Hj; lia|done]. }
  split; [done|..].
  - exists l', c', P', m'. simpl in *. split_and!; try done.
    + rewrite Hs', Hs. apply set_slot_twice.
    + congruence.
    + intros j Hj. rewrite Ho' by done. by apply Ho.
    + intros j p Hj Hp. eapply (Hrec _ j p); [rewrite Hs'; by eapply lookup_set_slot|done|done].
  - intros j a Hj Ha. destruct (decide (j = i)) as [->|Hne].
    + destruct (decide (Exists (λ h, page_of a = page_of (va h)) (seq 0 n))) as [(h & Hh%elem_of_seq & Hpg)%list.Exists_exists|Hno].
      * destruct (Hnew h) as (Hu & Hnz & H0); [lia|]. rewrite (leaf_of_page s0 i a (va h)), H0 by done.
        destruct (Hin h) as (f & Hf & _); [lia|]. apply (Hi a (mkPage f (va h))); try done.
        exists (start + h)%nat. split_and!; try done. unfold range. lia.
      * assert (∀ h, (h < n)%nat → page_of a ≠ page_of (va h)) as Hne.
        { intros h Hh Hpg. apply Hno, list.Exists_exists. exists h. split; [apply elem_of_seq; lia|done]. }
        rewrite Hou; [by apply Hout|done|done|]. intros _ p (h & f & Hh & ->)%Hrat. by apply Hne.
    + rewrite Hou by done. by apply Hout.
Qed.

Lemma restored_widen g i start n n' x0 s0 s : (n ≤ n')%nat → (∀ j p, range start n' j → pages x0 !! j = Some p → ¬ used p) →
  restored g i start n x0 s0 s → restored g i start n' x0 s0 s.
Proof.
  intros Hle Hun [C (l & c & P & m' & -> & Hl & Ho & Hin) Hleaf]. split; [done| |done].
  exists l, c, P, m'. split_and!; try done.
  - intros j Hj. apply Ho. unfold range in *. lia.
  - intros j p Hj Hp. destruct (decide (start ≤ j < start + n)%nat); [by eapply Hin|]. rewrite Ho in Hp by done. by eapply Hun.
Qed.

Section Private.
Context (g : Flight) (i start : nat) (va : nat → Z) (v : Z → Z) (src : nat → Z) (x0 : FrameBackedSlot) (s0 : State).
Context (Hn : ¬ torn_down g i) (Hx0 : slots s0 !! i = Some x0) (Hph : phase x0 ≠ Staging).
Context (Hv : ∀ f, Z.land f PAGE_ADDRESS_MASK = f → leaf_form f (v f) ∧ is_u64 (v f)).
Abbreviation ext n s := (extended g true i start n va v src x0 s0 s).
Abbreviation undone n s := (restored g i start n x0 s0 s).

Lemma undo_spec n s : ext n s → (start + n ≤ length (pages x0))%nat →
  wp (rollback_linux_mapping_pages cfg n i start) (λ _ s', undone n s') (λ _ _, False) s.
Proof.
  intros He Hlen. destruct (extended_slot _ _ _ _ _ _ _ _ _ _ _ He Hx0) as (l & c & P & Hx & Hl & Ho & Hin & _).
  unfold wp. rewrite rollback_is_munmap.
  eapply wp_mono; [eapply (munmap_loop_spec g true n i start s); [apply He|done..|simpl; lia]|..].
  - intros ? s' Hs. by eapply extended_undo.
  - intros e s' (_ & _ & p & (j & Hj & Hp & _) & Hno). apply Hno. simpl in Hp. unfold range in Hj.
    destruct (Hin (j - start)%nat) as (f & Hf & _ & Hown); [lia|].
    replace (start + (j - start))%nat with j in Hf by lia. simplify_eq. by apply Hown.
Qed.

(** A step on the way that fails after frames or tables were added. *)
Lemma wp_grow_or_undo {A} n s (m : SM A) (Q : A → State → Prop) R :
  ext n s → (start + n ≤ length (pages x0))%nat → (∀ e s', undone n s' → R e s') →
  wp m Q (λ _ s', Core cfg g s' ∧ grown g i s s') s →
  wp (or_undo m (rollback_linux_mapping_pages cfg n i start)) Q R s.
Proof.
  intros He Hlen HR Hm. apply wp_or_undo. eapply wp_mono; [exact Hm|done|]. intros e s' [C' G'].
  eapply wp_mono; [eapply undo_spec; [by eapply extended_grown|done]|intros ? ?; apply HR|done].
Qed.

Lemma publish_spec n s x r t f (undo : SM unit) R : ext n s → slots s !! i = Some x → root x = Some r →
  (start + n < length (pages x0))%nat → (∀ p, pages x0 !! (start + n)%nat = Some p → ¬ used p) →
  user_address (va n) → va n ≠ 0 → leaf_of s i (va n) = 0 →
  descend (entries (memory s)) r (table_path (va n)) = Some t →
  fresh_in (entries (memory s)) x r f → Z.land f PAGE_ADDRESS_MASK = f → (f ∉ ledger s0) →
  wp (or_undo (on_memory (write_entry t (leaf_index (va n)) (v f))) undo;;
      on_slot i (set_page (start + n) (mkPage f (va n)))) (λ _ s', ext (S n) s') R s.
Proof.
  intros He Hx Hr Hlen Hun Hva Hnz H0 Hd Hfresh Hform Hnew. pose proof (ex_core _ _ _ _ _ _ _ _ _ _ _ He) as C.
  destruct (extended_slot _ _ _ _ _ _ _ _ _ _ _ He Hx0) as (l & c & P & Hx' & Hl & Ho & _).
  assert (x = with_owned l c (with_pages P (page_count x0) x0)) as Hxe by congruence.
  destruct (table_in_ledger cfg g s i x r (table_path (va n)) t) as [_ Hled]; try done; [by apply user_table_path|].
  destruct (Hv f Hform) as [Hlf Hu64].
  destruct (on_write_entry cfg g s t (leaf_index (va n)) (v f)) as (m' & Hw & Hm' & Hlive' & He'); try done; [by apply page_index_range|].
  apply wp_bind, wp_or_undo. eapply wp_of_run; [exact Hw|]. eapply wp_on_slot; [exact Hx|].
  destruct (lookup_lt_is_Some_2 (pages x) (start + n)) as [p0 Hp0]; [subst; simpl; lia|].
  assert (¬ used p0) as Hu0.
  { apply Hun. rewrite <-Ho by (unfold range; lia). by rewrite Hxe in Hp0. }
  destruct (core_publish cfg g s i x r (start + n) p0 f (va n) t (v f) m') as (C' & Hset & _); try done; [by left|].
  eapply (extended_snoc g true i start n va v src x0 s0 s x f m'); try done. by destruct Hfresh.
Qed.

Lemma extended_ledger n s : ext n s → ledger s0 ⊆ ledger s.
Proof.
  intros [_ (l & c & P & m' & -> & _ & _ & Hown & _) _ _] f.
  rewrite (ledger_slot s0 i x0 Hx0). unfold set_slot. rewrite (ledger_set_slot _ _ _ s0 i x0 _ Hx0). rewrite !elem_of_app.
  intros [?|?]; [left; by apply Hown|by right].
Qed.

Lemma acquire_spec {A} n s (K : Z → Z → Z → SM A) (Q : A → State → Prop) R :
  ext n s → (start + n ≤ length (pages x0))%nat → 0 ≤ va n → (∀ e s', undone n s' → R e s') →
  (∀ t f s1 x r, ext n s1 → slots s1 !! i = Some x → root x = Some r → user_address (va n) → leaf_of s1 i (va n) = 0 →
     descend (entries (memory s1)) r (table_path (va n)) = Some t → fresh_in (entries (memory s1)) x r f →
     Z.land f PAGE_ADDRESS_MASK = f → (f ∉ ledger s0) → wp (K t (leaf_index (va n)) f) Q R s1) →
  wp ('(table, index) ← or_undo (ensure_leaf_slot cfg i (va n)) (rollback_linux_mapping_pages cfg n i start);
      f ← or_undo (allocate_owned cfg i) (rollback_linux_mapping_pages cfg n i start);
      K table index f) Q R s.
Proof.
  intros He Hlen Hva0 HR HK. destruct (extended_slot _ _ _ _ _ _ _ _ _ _ _ He Hx0) as (l & c & P & Hx & _).
  set (x := with_owned l c (with_pages P (page_count x0) x0)) in Hx.
  wp_step. apply wp_grow_or_undo; [done|done|done|].
  eapply wp_mono; [eapply (ensure_leaf_slot_spec cfg g s i x); [apply He|done..]| |done].
  intros [t d] s1 (C1 & G1 & Hva & Hd & r & Hr & Hdesc & H0). simpl in Hd, Hdesc. subst d.
  pose proof (extended_grown _ _ _ _ _ _ _ _ _ _ _ _ Hn Hx0 He C1 G1) as He1.
  destruct (grown_slot _ _ _ _ _ G1 Hx) as (l1 & c1 & Hx1 & _ & _).
  wp_step. apply wp_grow_or_undo; [done|done|done|].
  eapply wp_mono; [eapply (allocate_owned_spec cfg g s1 i (with_owned l1 c1 x)); done| |done].
  intros f s2 (C2 & G2 & Hx2 & Hf & Hform & Hz & Hfresh & Heq).
  pose proof (extended_grown _ _ _ _ _ _ _ _ _ _ _ _ Hn Hx0 He1 C2 G2) as He2.
  eapply HK; try done.
  - rewrite (gr_leaf _ _ _ _ G2), (gr_leaf _ _ _ _ G1) by done. done.
  - eapply (gr_descend _ _ _ _ G2 (with_owned l1 c1 x) r); try done. by apply user_table_path.
  - by apply Hfresh.
  - intros Hin. by apply Hf, (extended_ledger n s1 He1).
Qed.

(** A frame that is handed back after its page could not be mapped, which does
    not happen: the write cannot fail. *)
Lemma map_private_page_spec n s p bytes : ext n s → (start + n < length (pages x0))%nat →
  (∀ q, pages x0 !! (start + n)%nat = Some q → ¬ used q) → 0 < va n →
  Forall is_u8 bytes → Z.of_nat (length bytes) ≤ PAGE_SIZE → (∀ f, v f = user_mapping_entry f p) →
  wp (map_private_page cfg i start n (va n) p bytes) (λ _ s', ext (S n) s') (λ _ s', undone n s') s.
Proof.
  intros He Hlen Hun Hva0 Hby Hbl Hvp. unfold map_private_page. apply acquire_spec; [done|lia|lia|done|].
  intros t f s1 x r He1 Hx Hr Hva H0 Hd Hfresh Hform Hnew. pose proof (ex_core _ _ _ _ _ _ _ _ _ _ _ He1) as C1.
  assert (Hpub : ∀ s2, Core cfg g s2 → grown g i s1 s2 → slots s2 !! i = Some x → fresh_in (entries (memory s2)) x r f →
    wp (or_undo (on_memory (write_entry t (leaf_index (va n)) (user_mapping_entry f p)))
          (release_owned_frame cfg i f;; rollback_linux_mapping_pages cfg n i start);;
        on_slot i (set_page (start + n) (mkPage f (va n)))) (λ _ s', ext (S n) s') (λ _ s', undone n s') s2).
  { intros s2 C2 G2 Hx2 Hfresh2. rewrite <-Hvp.
    pose proof (extended_grown _ _ _ _ _ _ _ _ _ _ _ _ Hn Hx0 He1 C2 G2) as He2.
    apply (publish_spec n s2 x r t f); try done; [lia|by rewrite (gr_leaf _ _ _ _ G2)|].
    by eapply (gr_descend _ _ _ _ G2 x r); eauto using user_table_path. }
  assert (Hrefl : grown g i s1 s1) by (by eapply grown_refl).
  destruct bytes as [|b bytes]; [wp_step; wp_step; by apply Hpub|].
  wp_step. apply wp_or_undo, wp_on_memory. destruct (core_owned_live cfg g s1 f C1) as [Hlive _]; [by eapply owned_in_ledger, Hfresh|].
  destruct (law_write_bytes (memory s1) f 0 (b :: bytes)) as (m' & Hw & Hm' & Hlive' & He'); try done; [apply C1|].
  eapply wp_of_run; [exact Hw|].
  destruct (core_scribble cfg g s1 i x f m') as [C2 G2]; try done; [apply Hfresh|intros r' Hr'; simplify_eq; apply Hfresh|].
  apply Hpub; try done. destruct Hfresh as (Ho & Hnt & Hnp). split_and!; try done. simpl.
  intros Ht. apply Hnt. destruct (gr_table _ _ _ _ G2 x r f Hx Hr Ht) as [?|Hn']; [done|]. by destruct Hn'; eapply owned_in_ledger.
Qed.

End Private.

(** *** The loop of a private mapping *)

Section PrivateLoops.
Context (g : Flight) (i start total : nat) (x0 : FrameBackedSlot) (s0 : State).
Context (Hn : ¬ torn_down g i) (Hx0 : slots s0 !! i = Some x0) (Hph : phase x0 ≠ Staging).
Context (Hfit : (start + total ≤ length (pages x0))%nat) (Hun : ∀ j p, range start total j → pages x0 !! j = Some p → ¬ used p).

Definition page_va (base : Z) (h : nat) : Z := base + Z.of_nat h * PAGE_SIZE.

Lemma undone_total n s : (n ≤ total)%nat → restored g i start n x0 s0 s → restored g i start total x0 s0 s.
Proof. intros Hle. by apply restored_widen. Qed.

Lemma mmap_private_loop_spec base p : wx_free p → 0 < base → ∀ n page initialized s, (page + n = total)%nat → Forall is_u8 initialized →
  extended g true i start page (page_va base) (λ f, user_mapping_entry f p) (λ _, 0) x0 s0 s →
  wp (mmap_private_loop cfg n i start base p initialized page)
    (λ _ s', extended g true i start total (page_va base) (λ f, user_mapping_entry f p) (λ _, 0) x0 s0 s')
    (λ _ s', restored g i start total x0 s0 s') s.
Proof.
  intros Hp Hb. induction n as [|n IH]; intros page initialized s Ht Hby He; simpl.
  { wp_step. by replace page with total in He by lia. }
  assert (Hv : ∀ f, Z.land f PAGE_ADDRESS_MASK = f → leaf_form f (user_mapping_entry f p) ∧ is_u64 (user_mapping_entry f p))
    by (intros f Hf; by apply user_entry_form).
  wp_step. apply wp_or_undo. wp_step.
  - match goal with H : checked_add _ _ _ = Some _ |- _ => apply checked_add_Some in H as [-> _]; [|unfold PAGE_SIZE; lia..] end.
    fold (page_va base page). wp_step.
    eapply wp_mono; [eapply (map_private_page_spec g i start (page_va base) (λ f, user_mapping_entry f p) (λ _, 0) x0 s0); try done|..].
    + lia.
    + intros q. apply Hun. unfold range. lia.
    + unfold page_va, PAGE_SIZE. lia.
    + by apply Forall_take.
    + rewrite length_take. unfold PAGE_SIZE. lia.
    + intros ? s' He'. apply IH; [lia|by apply Forall_drop|done].
    + intros ? s' Hs'. eapply undone_total; [|exact Hs']; lia.
  - eapply wp_mono; [eapply (undo_spec g i start (page_va base) _ (λ _, 0) x0 s0); [done..|exact He|lia]| |done].
    intros ? s' Hs'. eapply undone_total; [|exact Hs']; lia.
Qed.

Lemma heap_form f : Z.land f PAGE_ADDRESS_MASK = f →
  let v := Z.lor (Z.lor (Z.lor (Z.lor f ENTRY_PRESENT) ENTRY_USER) ENTRY_WRITABLE) ENTRY_NO_EXECUTE in leaf_form f v ∧ is_u64 v.
Proof. intros Hf v. unfold v. rewrite (proj1 (heap_entry_form f Hf)). by apply user_entry_form. Qed.

Lemma brk_grow_loop_spec first current : start = (first + current)%nat → ∀ n page s, (page + n = current + total)%nat → (current ≤ page)%nat →
  (page + n ≤ 4096)%nat →
  extended g true i start (page - current) (λ h, page_va LINUX_BRK_BASE (current + h))
    (λ f, Z.lor (Z.lor (Z.lor (Z.lor f ENTRY_PRESENT) ENTRY_USER) ENTRY_WRITABLE) ENTRY_NO_EXECUTE) (λ _, 0) x0 s0 s →
  wp (brk_grow_loop cfg n i first page current)
    (λ _ s', extended g true i start total (λ h, page_va LINUX_BRK_BASE (current + h))
       (λ f, Z.lor (Z.lor (Z.lor (Z.lor f ENTRY_PRESENT) ENTRY_USER) ENTRY_WRITABLE) ENTRY_NO_EXECUTE) (λ _, 0) x0 s0 s')
    (λ _ s', restored g i start total x0 s0 s') s.
Proof.
  intros Hst. induction n as [|n IH]; intros page s Ht Hcur Hmax He; simpl.
  { wp_step. by replace (page - current)%nat with total in He by lia. }
  set (va := λ h, page_va LINUX_BRK_BASE (current + h)) in *.
  set (v := λ f, Z.lor (Z.lor (Z.lor (Z.lor f ENTRY_PRESENT) ENTRY_USER) ENTRY_WRITABLE) ENTRY_NO_EXECUTE) in *.
  assert (Hva : LINUX_BRK_BASE + Z.of_nat page * PAGE_SIZE = va (page - current)%nat).
  { unfold va, page_va. do 3 f_equal. lia. }
  wp_step. wp_step.
  2: { match goal with H : checked_add _ _ _ = None |- _ => apply checked_add_None in H; [|unfold LINUX_BRK_BASE, PAGE_SIZE; lia..] end.
       exfalso. unfold U64_MAX, LINUX_BRK_BASE, PAGE_SIZE in *. lia. }
  match goal with H : checked_add _ _ _ = Some _ |- _ => apply checked_add_Some in H as [-> _]; [|unfold LINUX_BRK_BASE, PAGE_SIZE; lia..] end.
  rewrite Hva, <-Hst.
  eapply (acquire_spec g i start va v (λ _, 0) x0 s0); try done; [lia|..].
  - rewrite <-Hva. unfold LINUX_BRK_BASE, PAGE_SIZE. lia.
  - intros ? s' Hs'. eapply undone_total; [|exact Hs']; lia.
  - intros t f s1 x r He1 Hx Hr Hua H0 Hd Hfresh Hform Hnew. apply wp_assoc. wp_step.
    replace (first + page)%nat with (start + (page - current))%nat by lia.
    eapply wp_mono; [eapply (publish_spec g i start va v (λ _, 0) x0 s0) with (R := λ _ s', restored g i start total x0 s0 s'); try done|..|done].
    + apply heap_form.
    + lia.
    + intros q. apply Hun. unfold range. lia.
    + rewrite <-Hva. unfold LINUX_BRK_BASE, PAGE_SIZE. lia.
    + intros ? s' He'. replace (S (page - current)) with (S page - current)%nat in He' by lia. apply IH; [lia|lia|lia|exact He'].
Qed.

End PrivateLoops.

(** *** The loop of a shared mapping *)

Section SharedLoop.
Context (g : Flight) (i start total : nat) (x0 : FrameBackedSlot) (s0 : State).
Context (Hn : ¬ torn_down g i) (Hx0 : slots s0 !! i = Some x0) (Hph : phase x0 ≠ Staging).
Context (Hfit : (start + total ≤ length (pages x0))%nat) (Hun : ∀ j p, range start total j → pages x0 !! j = Some p → ¬ used p).
Context (bk : nat) (b : SharedBacking) (offset : nat) (Hbk : shared s0 !! bk = Some b) (Hocc : sb_occupied b = true).
Context (Hheld : (offset + total ≤ allocated_pages b)%nat) (Hlen : (allocated_pages b ≤ length (frames b))%nat).
Context (Hin : ∀ j, range start total j → mapping_in g i j (identity b)).
Context (base : Z) (p : MappingPermissions) (Hp : wx_free p) (Hb : 0 < base).

Definition shared_frame (h : nat) : Z := slot_at 0 (frames b) (offset + h).
Abbreviation sext n s := (extended g false i start n (page_va base) (λ f, user_mapping_entry f p) shared_frame x0 s0 s).

Lemma shared_frame_held h : (h < total)%nat → shared_frame h ∈ held b.
Proof using Hheld Hlen.
  clear Hfit.
  intros Hh. unfold shared_frame, held. destruct (lookup_lt_is_Some_2 (frames b) (offset + h)) as [f Hf]; [lia|].
  rewrite (slot_at_Some _ _ _ _ Hf). apply list_elem_of_lookup. exists (offset + h)%nat. apply lookup_take_Some. split; [done|lia].
Qed.

Lemma shared_undo_spec n s : sext n s → (n ≤ total)%nat →
  wp (rollback_shared_mapping_pages cfg n i start) (λ _ s', restored g i start total x0 s0 s') (λ _ _, False) s.
Proof.
  intros He Hle. destruct (extended_slot _ _ _ _ _ _ _ _ _ _ _ He Hx0) as (l & c & P & Hx & Hl & Ho & Hpg & _).
  eapply wp_mono; [eapply (rollback_shared_spec g n i start s); [apply He|done..|]| |done].
  - intros j Hj. destruct (Hpg (j - start)%nat) as (f & Hf & Hnz & _); [unfold range in Hj; lia|].
    replace (start + (j - start))%nat with j in Hf by (unfold range in Hj; lia). by exists (mkPage f (page_va base (j - start))).
  - intros ? s' Hs. eapply restored_widen; [exact Hle|done|]. by eapply extended_undo.
Qed.

Lemma mmap_shared_loop_spec n : ∀ page s, (page + n = total)%nat → sext page s →
  wp (mmap_shared_loop cfg n i bk start base p offset page) (λ _ s', sext total s') (λ _ s', restored g i start total x0 s0 s') s.
Proof.
  induction n as [|n IH]; intros page s Ht He; simpl.
  { wp_step. by replace page with total in He by lia. }
  destruct (extended_slot _ _ _ _ _ _ _ _ _ _ _ He Hx0) as (l & c & P & Hx & Hl & Ho & Hpg & Hsh & _).
  set (x := with_owned l c (with_pages P (page_count x0) x0)) in Hx.
  assert (Hundo : ∀ s', sext page s' →
    wp (rollback_shared_mapping_pages cfg page i start) (λ _ s', restored g i start total x0 s0 s') (λ _ _, False) s').
  { intros s' He'. apply shared_undo_spec; [done|lia]. }
  wp_step. apply wp_or_undo. wp_step; [|eapply wp_mono; [by apply Hundo|done|done]].
  match goal with H : checked_add _ _ _ = Some _ |- _ => apply checked_add_Some in H as [-> _] end.
  fold (page_va base page). wp_step. apply wp_or_undo.
  eapply wp_mono; [eapply (ensure_leaf_slot_spec cfg g s i x); [apply He|done|done|unfold page_va, PAGE_SIZE; lia]|..].
  2: { intros e s1 [C1 G1]. eapply wp_mono; [apply Hundo; by eapply extended_grown|done|done]. }
  intros [t d] s1 (C1 & G1 & Hva & Hd & r & Hr & Hdesc & H0). simpl in Hd, Hdesc. subst d.
  pose proof (extended_grown _ _ _ _ _ _ _ _ _ _ _ _ Hn Hx0 He C1 G1) as He1.
  destruct (grown_slot _ _ _ _ _ G1 Hx) as (l1 & c1 & Hx1 & _ & Hsh1).
  assert (Hb1 : the_backing bk s1 = b) by (unfold the_backing; rewrite Hsh1, Hsh; by apply slot_at_Some).
  assert (Hheld1 : shared_frame page ∈ held b) by (apply shared_frame_held; lia).
  assert (Hbf : backing_frame (shared s1) (identity b) (shared_frame page)).
  { exists bk, b. rewrite Hsh1, Hsh. done. }
  assert (Hform : Z.land (shared_frame page) PAGE_ADDRESS_MASK = shared_frame page).
  { eapply core_owned_live; [exact C1|]. eapply (rest_in_ledger s1 i), held_in_rest; [done| |done]. by rewrite Hsh1, Hsh. }
  do 2 wp_step. rewrite Hb1. fold (shared_frame page).
  destruct (user_entry_form (shared_frame page) p Hform Hp) as [Hlf Hu64].
  destruct (table_in_ledger cfg g s1 i (with_owned l1 c1 x) r (table_path (page_va base page)) t) as [_ Hled]; try done; [by apply user_table_path|].
  destruct (on_write_entry cfg g s1 t (leaf_index (page_va base page)) (user_mapping_entry (shared_frame page) p)) as (m' & Hw & Hm' & Hlive' & He'); try done;
    [by apply page_index_range|].
  wp_step. apply wp_or_undo. eapply wp_of_run; [exact Hw|]. wp_step. eapply wp_on_slot; [exact Hx1|].
  destruct (lookup_lt_is_Some_2 P (start + page)) as [p0 Hp0]; [lia|].
  destruct (core_publish cfg g s1 i (with_owned l1 c1 x) r (start + page) p0 (shared_frame page) (page_va base page) t
              (user_mapping_entry (shared_frame page) p) m') as (C2 & Hset & _); try done.
  { apply (Hun (start + page)); [unfold range; lia|]. rewrite <-Ho by (unfold range; lia). done. }
  { unfold page_va, PAGE_SIZE. lia. }
  { right; left. exists (identity b). split; [right; apply Hin; unfold range; lia|done]. }
  apply IH; [lia|].
  eapply (extended_snoc g false i start page (page_va base) _ shared_frame x0 s0 s1 (with_owned l1 c1 x) (shared_frame page) m'); try done.
  - unfold page_va, PAGE_SIZE. lia.
  - by rewrite (gr_leaf _ _ _ _ G1).
  - lia.
Qed.

End SharedLoop.

End Pages.
