(* ===== verification/SpaceShared.v ===== *)
(** * Shared memory objects

    Creating, growing, shrinking and releasing the frames of a shared object of
    process/x86_64.rs: a frame is given back only when no page maps it. *)

From stdpp Require Import prelude list numbers.
From Stdlib Require Import ZArith Lia.
From S2P Require Import Prelude.
From S2P Require Import Wp.
From S2P Require Import AddressSpace.
From S2P Require Import PageTree.
From S2P Require Import SpaceInv.
From S2P Require Import SpaceSteps.
From S2P Require Import SpacePages.

(** Membership in an appended list. *)
Ltac in_lists := rewrite ?elem_of_app, ?list_elem_of_singleton in *; tauto.

Section Shared.
Context {Mem E : Type} `{!FrameMemory Mem E, KF : !KernelFrames, !FrameMemoryLaws Mem E} (cfg : Config).
Abbreviation State := (FrameBackedAddressSpace Mem).
Abbreviation SM := (M State (FrameBackedError E)).
Implicit Types (s : State) (g : Flight).

Definition set_backing (m : Mem) (k : nat) (b : SharedBacking) (s : State) : State :=
  mkAddressSpace m (kernel_root s) (active_slot s) (slots s) (<[k := b]> (shared s)).

(** The frames of everything but shared object [k]. *)
Definition rest_of (k : nat) (s : State) : list Z := concat (owned <$> slots s) ++ concat (held <$> delete k (shared s)).

Lemma ledger_backing s k b : shared s !! k = Some b → ledger s ≡ₚ held b ++ rest_of k s.
Proof.
  intros H. unfold ledger, rest_of. rewrite (concat_delete held _ k b H).
  rewrite !(assoc (++)). by rewrite (Permutation_app_comm (concat _) (held b)).
Qed.

Lemma ledger_set_backing m s k b b' : shared s !! k = Some b → ledger (set_backing m k b' s) ≡ₚ held b' ++ rest_of k s.
Proof.
  intros H. unfold ledger, rest_of. simpl. rewrite (concat_insert held _ k b b' H).
  rewrite !(assoc (++)). by rewrite (Permutation_app_comm (concat _) (held b')).
Qed.

Lemma owned_in_rest_of s k i x : slots s !! i = Some x → owned x ⊆ rest_of k s.
Proof. intros Hx f Hf. unfold rest_of. apply elem_of_app. left. apply elem_of_concat. by exists i, x. Qed.

Lemma rest_of_ledger s k b : shared s !! k = Some b → rest_of k s ⊆ ledger s.
Proof. intros H f Hf. rewrite (ledger_backing s k b H). in_lists. Qed.

Lemma set_backing_twice m m' k b b' s : set_backing m k b (set_backing m' k b' s) = set_backing m k b s.
Proof. unfold set_backing. simpl. by rewrite list_insert_insert_eq. Qed.

Lemma lookup_set_backing m k b b' s : shared s !! k = Some b' → shared (set_backing m k b s) !! k = Some b.
Proof. intros H. simpl. by rewrite list_lookup_insert_eq by (by eapply lookup_lt_Some). Qed.

(** *** Changing one shared object *)

Lemma core_backing_step g g' s k b b' m' :
  Core cfg g s → shared s !! k = Some b → mem_ok m' →
  NoDup (held b' ++ rest_of k s) → Forall (frame_ok m') (held b') → (∀ f, f ∈ rest_of k s → live m' f) →
  equal_on (rest_of k s) (entries (memory s)) (entries m') →
  backing_shape b' →
  (sb_occupied b' = true → ∀ j c, j ≠ k → shared s !! j = Some c → sb_occupied c = true → identity c ≠ identity b') →
  (sb_occupied b' = true → Z.of_nat (mapping_references b') = Z.of_nat (mapped_count (identity b') s) + unaccounted g' (identity b')) →
  (∀ j c, j ≠ k → shared s !! j = Some c → sb_occupied c = true → unaccounted g' (identity c) = unaccounted g (identity c)) →
  (∀ id, id ≠ 0 → 0 < Z.of_nat (mapped_count id s) + unaccounted g' id →
     (sb_occupied b' = true ∧ identity b' = id) ∨ ∃ j c, j ≠ k ∧ shared s !! j = Some c ∧ sb_occupied c = true ∧ identity c = id) →
  mapping_in g' = mapping_in g → (∀ i, torn_down g' i ↔ torn_down g i) →
  (∀ i x n p, slots s !! i = Some x → ¬ torn_down g i → pages x !! n = Some p → used p → shares_of g i x n (identity b) →
     sb_occupied b = true → frame p ∈ held b → sb_occupied b' = true ∧ identity b' = identity b ∧ frame p ∈ held b') →
  Core cfg g' (set_backing m' k b' s).
Proof.
  intros C Hk Hm Hnd Hfr Hlive Heq Hsh Hid Href Hun Hpres Hmi Htd Huse. split; simpl.
  - done.
  - change (NoDup (ledger (set_backing m' k b' s))). by rewrite (ledger_set_backing m' s k b).
  - change (Forall (frame_ok m') (ledger (set_backing m' k b' s))). rewrite (ledger_set_backing m' s k b) by done.
    apply Forall_app. split; [done|]. apply list.Forall_forall. intros f Hf. split; [by apply Hlive|].
    eapply core_owned_live; [exact C|]. by eapply rest_of_ledger.
  - apply C.
  - intros i x Hi Hnt. rewrite Htd in Hnt. eapply slot_space_agree; [by eapply (core_space _ _ _ C i x)|..].
    + intros t j Ht. apply (equal_agree _ _ _ Heq). by eapply owned_in_rest_of.
    + intros n p id Hn Hu Hs (j & c & Hj & Hocc & Hidc & Hf). exists id.
      split; [unfold shares_of in *; by rewrite Hmi|]. destruct (decide (j = k)) as [->|Hne].
      * assert (c = b) as -> by congruence. subst id. destruct (Huse i x n p) as (? & ? & ?); try done.
        exists k, b'. by rewrite list_lookup_insert_eq by (by eapply lookup_lt_Some).
      * exists j, c. by rewrite list_lookup_insert_ne by done.
  - intros j c Hj. apply lookup_insert_cases in Hj as [(_ & <- & _)|[_ Hj]]; [done|by eapply (core_backing _ _ _ C)].
  - intros j j' c c' Hj Hj' Ho Ho' He.
    apply lookup_insert_cases in Hj as [(<- & <- & _)|[Hne Hj]]; apply lookup_insert_cases in Hj' as [(<- & <- & _)|[Hne' Hj']]; [done|..].
    + exfalso. by apply (Hid Ho j' c').
    + exfalso. by apply (Hid Ho' j c).
    + by eapply (core_identity _ _ _ C).
  - intros j c Hj Ho. apply lookup_insert_cases in Hj as [(_ & <- & _)|[Hne Hj]]; [by apply Href|].
    rewrite (Hun j c) by done. by eapply (core_references _ _ _ C).
  - intros id Hid0 Hpos. destruct (Hpres id Hid0 Hpos) as [[? ?]|(j & c & ? & ? & ? & ?)].
    + exists k, b'. by rewrite list_lookup_insert_eq by (by eapply lookup_lt_Some).
    + exists j, c. by rewrite list_lookup_insert_ne by done.
  - apply C.
Qed.

Lemma leaf_of_backing g s k b' m' j a : Core cfg g s → equal_on (rest_of k s) (entries (memory s)) (entries m') → ¬ torn_down g j →
  user_address a → leaf_of (set_backing m' k b' s) j a = leaf_of s j a.
Proof.
  intros C He Hj Ha. unfold leaf_of. simpl. destruct (slots s !! j) as [y|] eqn:Hy; [|done].
  destruct (root y) as [r|] eqn:Hr; [|done]. eapply leaf_equal; [by apply (core_tree cfg g s j y r)| |done].
  intros t h Ht. apply He. by eapply owned_in_rest_of.
Qed.

(** What stays true of a shared object with other frames. *)
Definition with_frames (a : nat) (fs : list Z) (b : SharedBacking) : SharedBacking :=
  mkBacking (sb_occupied b) (descriptor_open b) (identity b) (size_bytes b) a (mapping_references b) fs.

Lemma core_frames_step g s k b a fs m' : Core cfg g s → shared s !! k = Some b → mem_ok m' →
  NoDup (take a fs ++ rest_of k s) → Forall (frame_ok m') (take a fs) → (∀ f, f ∈ rest_of k s → live m' f) →
  equal_on (rest_of k s) (entries (memory s)) (entries m') →
  length fs = length (frames b) → (a ≤ MAXIMUM_SHARED_PAGES)%nat → Z.of_nat a ≤ (size_bytes b + (PAGE_SIZE - 1)) / PAGE_SIZE →
  (sb_occupied b = false → a = O) →
  (∀ i x n p, slots s !! i = Some x → ¬ torn_down g i → pages x !! n = Some p → used p → shares_of g i x n (identity b) →
     frame p ∈ held b → frame p ∈ take a fs) →
  Core cfg g (set_backing m' k (with_frames a fs b) s).
Proof.
  intros C Hk Hm Hnd Hfr Hlive Heq Hl Ha Hsz Hv Huse. destruct (core_backing _ _ _ C k b Hk) as [B1 B2 B3 B4 B5].
  eapply core_backing_step; eauto; try done; simpl.
  - split; simpl; try done; lia.
  - intros Ho j c Hne Hj Hoc He. apply Hne. symmetry. by eapply (core_identity _ _ _ C k j b c).
  - intros Ho. by eapply (core_references _ _ _ C).
  - intros id Hid Hpos. destruct (core_present _ _ _ C id Hid Hpos) as (j & c & Hj & Ho & Hc).
    destruct (decide (j = k)) as [->|]; [left; by simplify_eq|right; by exists j, c].
Qed.

Lemma on_release_run s f m' : release f (memory s) = (Ok tt, m') → on_memory (release f) s = (Ok tt, with_memory m' s).
Proof. intros H. unfold on_memory, zoom. by rewrite H. Qed.

Lemma the_backing_eq s k b : shared s !! k = Some b → the_backing k s = b.
Proof. apply slot_at_Some. Qed.

Lemma wp_on_backing f k (Q : unit → State → Prop) (R : FrameBackedError E → State → Prop) s b : shared s !! k = Some b →
  Q tt (set_backing (memory s) k (f b) s) → wp (on_backing k f) Q R s.
Proof.
  intros H HQ. apply wp_modifyS. unfold update_backing, set_backing in *. by rewrite (alter_insert_eq f _ k b H).
Qed.

(** No page maps one of the last [n] frames. *)
Definition unmapped_tail (g : Flight) (s : State) (b : SharedBacking) (n : nat) : Prop :=
  ∀ i x j p, slots s !! i = Some x → ¬ torn_down g i → pages x !! j = Some p → used p →
    frame p ∉ drop (allocated_pages b - n) (held b).

Lemma release_shared_frames_spec g k n : ∀ s b, Core cfg g s → shared s !! k = Some b → (n ≤ allocated_pages b)%nat → unmapped_tail g s b n →
  wp (release_shared_frames n k)
    (λ _ s', Core cfg g s' ∧ (∀ j a, ¬ torn_down g j → user_address a → leaf_of s' j a = leaf_of s j a)
       ∧ ∃ fs m', s' = set_backing m' k (with_frames (allocated_pages b - n) fs b) s
           ∧ take (allocated_pages b - n) fs = take (allocated_pages b - n) (frames b)
           ∧ (∀ h, live m' h ↔ live (memory s) h ∧ h ∉ drop (allocated_pages b - n) (held b)))
    (λ _ _, False) s.
Proof.
  induction n as [|n IH]; intros s b C Hk Hle Hun; simpl.
  { wp_step. split_and!; try done. exists (frames b), (memory s). split_and!; try done.
    - unfold set_backing. rewrite list_insert_id; [by destruct s|]. rewrite Nat.sub_0_r. by destruct b.
    - intros h. rewrite Nat.sub_0_r, drop_ge; [|unfold held; rewrite length_take; lia]. split; [|by intros [? _]].
      intros ?. split; [done|]. apply not_elem_of_nil. }
  pose proof (core_backing _ _ _ C k b Hk) as [B1 B2 B3 B4 B5].
  set (a := (allocated_pages b - 1)%nat). destruct (lookup_lt_is_Some_2 (frames b) a) as [f Hf]; [lia|].
  do 2 wp_step. rewrite (the_backing_eq s k b Hk), (slot_at_Some _ _ _ _ Hf). fold a.
  assert (Hheld : held b = take a (frames b) ++ [f]).
  { unfold held. replace (allocated_pages b) with (S a) by lia. by apply take_S_r. }
  assert (Hfin : f ∈ ledger s). { rewrite (ledger_backing s k b Hk), Hheld. in_lists. }
  destruct (core_owned_live cfg g s f C Hfin) as [Hlive _].
  destruct (law_release (memory s) f (core_mem _ _ _ C) Hlive) as (m1 & Hrel & Hm1 & Hlive1 & He1).
  wp_step. eapply wp_of_run; [by apply on_release_run|]. wp_step. eapply wp_on_backing; [exact Hk|]. cbn [memory with_memory].
  change (set_backing m1 k _ (with_memory m1 s)) with (set_backing m1 k (with_frames a (<[a := 0]> (frames b)) b) s).
  pose proof (core_nodup _ _ _ C) as Hnd. rewrite (ledger_backing s k b Hk), Hheld in Hnd.
  rewrite <-(assoc (++)) in Hnd. simpl in Hnd. rewrite <-Permutation_middle in Hnd. apply list.NoDup_cons in Hnd as [Hfn Hnd].
  assert (Htake : take a (<[a := 0]> (frames b)) = take a (frames b)) by (by rewrite take_insert_ge by lia).
  assert (Hkeep : ∀ h, h ∈ take a (frames b) ++ rest_of k s → live m1 h ∧ Z.land h PAGE_ADDRESS_MASK = h).
  { intros h Hh. assert (h ∈ ledger s) as Hl. { rewrite (ledger_backing s k b Hk), Hheld. in_lists. }
    destruct (core_owned_live cfg g s h C Hl). split; [|done]. apply Hlive1. split; [done|]. by intros ->. }
  assert (Heq : equal_on (rest_of k s) (entries (memory s)) (entries m1)).
  { intros t j Ht Hj. apply He1; [|done]. apply Hkeep. in_lists. }
  set (b1 := with_frames a (<[a := 0]> (frames b)) b).
  assert (C1 : Core cfg g (set_backing m1 k b1 s)).
  { eapply core_frames_step; rewrite ?Htake; eauto.
    - apply list.Forall_forall. intros h Hh. apply Hkeep. in_lists.
    - intros h Hh. apply Hkeep. in_lists.
    - by rewrite length_insert.
    - lia.
    - lia.
    - intros Hv. rewrite B2 in * by done. lia.
    - intros i x j p Hi Ht Hj Hu _ Hp. rewrite Hheld in Hp. apply elem_of_app in Hp as [?|Hp%list_elem_of_singleton]; [done|].
      exfalso. apply (Hun i x j p Hi Ht Hj Hu). rewrite Hp, Hheld. apply list_elem_of_lookup. exists (a - (allocated_pages b - S n))%nat.
      rewrite lookup_drop, lookup_app_r by (rewrite length_take; lia). rewrite length_take.
      by replace (_ - _)%nat with O by lia. }
  assert (Hdrop : drop (allocated_pages b - S n) (held b) ≡ₚ f :: drop (allocated_pages b1 - n) (held b1)).
  { unfold held at 2. simpl. rewrite Htake, Hheld. replace (a - n)%nat with (allocated_pages b - S n)%nat by lia.
    rewrite drop_app_le by (rewrite length_take; lia). by rewrite Permutation_app_comm. }
  eapply wp_mono; [apply (IH (set_backing m1 k b1 s) b1); try done|..|done].
  - by eapply lookup_set_backing.
  - simpl. lia.
  - intros i x j p Hi Ht Hj Hu Hin. apply (Hun i x j p Hi Ht Hj Hu). rewrite Hdrop. by right.
  - intros ? s' (C' & Hleaf & fs & m' & -> & Hfs & Hlv). split_and!; [done|..].
    + intros j h Hj Hh. rewrite Hleaf by done. by eapply leaf_of_backing.
    + exists fs, m'. rewrite set_backing_twice. simpl in *. replace (a - n)%nat with (allocated_pages b - S n)%nat in * by lia. split_and!; try done.
      * rewrite Hfs. by rewrite take_insert_ge by lia.
      * intros h. rewrite Hlv. simpl. rewrite Hlive1, Hdrop, not_elem_of_cons. replace (a - n)%nat with (allocated_pages b - S n)%nat by lia.
        unfold b1. simpl. tauto.
Qed.

(** A shared object with other frames, and nothing else changed but memory. *)
Definition reframed (g : Flight) (k a : nat) (b : SharedBacking) (s s' : State) : Prop :=
  Core cfg g s' ∧ (∀ j h, ¬ torn_down g j → user_address h → leaf_of s' j h = leaf_of s j h)
  ∧ ∃ fs m', s' = set_backing m' k (with_frames a fs b) s ∧ take (a `min` allocated_pages b) fs = take (a `min` allocated_pages b) (frames b).

Lemma shrink_shared_spec g k keep s b : Core cfg g s → shared s !! k = Some b → (keep ≤ allocated_pages b)%nat →
  unmapped_tail g s b (allocated_pages b - keep) →
  wp (shrink_shared k keep)
    (λ _ s', reframed g k keep b s s' ∧ ∀ h, live (memory s') h ↔ live (memory s) h ∧ h ∉ drop keep (held b)) (λ _ _, False) s.
Proof.
  intros C Hk Hle Hun. unfold shrink_shared. do 2 wp_step. rewrite (the_backing_eq s k b Hk).
  eapply wp_mono; [apply release_shared_frames_spec; eauto; lia| |done].
  intros ? s' (C' & Hleaf & fs & m' & -> & Hfs & Hlv). replace (allocated_pages b - (allocated_pages b - keep))%nat with keep in * by lia.
  split; [|done]. split_and!; try done. exists fs, m'. split; [done|]. by rewrite Nat.min_l by lia.
Qed.

Lemma reframed_refl g k b s : Core cfg g s → shared s !! k = Some b → reframed g k (allocated_pages b) b s s.
Proof.
  intros C Hk. split_and!; try done. exists (frames b), (memory s). split; [|done].
  unfold set_backing. rewrite list_insert_id; [by destruct s|]. by destruct b.
Qed.

Lemma reframed_memory g k b s m' : Core cfg g (with_memory m' s) → shared s !! k = Some b →
  (∀ j h, ¬ torn_down g j → user_address h → leaf_of (with_memory m' s) j h = leaf_of s j h) → reframed g k (allocated_pages b) b s (with_memory m' s).
Proof.
  intros C Hk Hl. split_and!; try done. exists (frames b), m'. split; [|done].
  unfold set_backing. rewrite list_insert_id; [done|]. by destruct b.
Qed.

Lemma reframed_trans g k a1 a2 b s s1 s2 : shared s !! k = Some b → reframed g k a1 b s s1 →
  (∀ b1, shared s1 !! k = Some b1 → allocated_pages b1 = a1 → reframed g k a2 b1 s1 s2) → (a2 `min` allocated_pages b ≤ a1)%nat →
  reframed g k a2 b s s2.
Proof.
  intros Hk (C1 & Hl1 & fs1 & m1 & -> & Hf1) H2 Hle.
  destruct (H2 _ (lookup_set_backing _ _ _ _ _ Hk) eq_refl) as (C2 & Hl2 & fs2 & m2 & -> & Hf2). split_and!; try done.
  - intros j h ??. by rewrite Hl2, Hl1.
  - exists fs2, m2. rewrite set_backing_twice. split; [done|]. simpl in Hf2.
    apply (f_equal (take (a2 `min` allocated_pages b))) in Hf2. rewrite !take_take in Hf2.
    apply (f_equal (take (a2 `min` allocated_pages b))) in Hf1. rewrite !take_take in Hf1.
    rewrite !Nat.min_l in Hf1, Hf2 by lia. by rewrite Hf2.
Qed.

(** Memory that changed outside the frames in use. *)
Lemma core_memory_live g s m' : Core cfg g s → mem_ok m' → (∀ h, live (memory s) h → live m' h) →
  (∀ h j, live (memory s) h → 0 ≤ j < 512 → entries m' h j = entries (memory s) h j) →
  Core cfg g (with_memory m' s) ∧ ∀ j h, ¬ torn_down g j → user_address h → leaf_of (with_memory m' s) j h = leaf_of s j h.
Proof.
  intros C Hm Hlive He.
  assert (Heq : equal_on (ledger s) (entries (memory s)) (entries m')).
  { intros t j Ht Hj. apply He; [by eapply core_owned_live|done]. }
  split.
  - apply core_memory; try done; [|by apply equal_agree]. intros f Hf. apply Hlive. by eapply core_owned_live.
  - intros j h Hj Hh. unfold leaf_of. simpl. destruct (slots s !! j) as [y|] eqn:Hy; [|done].
    destruct (root y) as [r|] eqn:Hr; [|done]. eapply leaf_equal; [by apply (core_tree cfg g s j y r)| |done].
    intros t n Ht. apply Heq. by eapply owned_in_ledger.
Qed.

Lemma used_frame_ledger g s i x j p : Core cfg g s → slots s !! i = Some x → ¬ torn_down g i → pages x !! j = Some p → used p →
  frame p ∈ ledger s ∨ frame p ∈ kernel_frames.
Proof.
  intros C Hx Hn Hj Hu. pose proof (core_space _ _ _ C i x Hx Hn) as Hsp. unfold slot_space in Hsp.
  destruct (root x) as [r|] eqn:Hr; [by eapply page_frame_ledger|]. by destruct (Hsp j p).
Qed.

(** Adding a fresh frame. *)
Lemma core_push_shared g s k b f m' : Core cfg g s → shared s !! k = Some b → sb_occupied b = true →
  (allocated_pages b < MAXIMUM_SHARED_PAGES)%nat → Z.of_nat (S (allocated_pages b)) ≤ (size_bytes b + (PAGE_SIZE - 1)) / PAGE_SIZE →
  Z.land f PAGE_ADDRESS_MASK = f → mem_ok m' → ¬ live (memory s) f → (∀ h, live m' h ↔ h = f ∨ live (memory s) h) →
  (∀ h j, live (memory s) h → 0 ≤ j < 512 → entries m' h j = entries (memory s) h j) →
  let b1 := with_frames (S (allocated_pages b)) (<[allocated_pages b := f]> (frames b)) b in
  reframed g k (S (allocated_pages b)) b s (set_backing m' k b1 s) ∧ held b1 = held b ++ [f] ∧ (f ∉ ledger s).
Proof.
  intros C Hk Ho Hlt Hsz Hf Hm Hnl Hlive He b1. pose proof (core_backing _ _ _ C k b Hk) as [B1 B2 B3 B4 B5].
  assert (Hfr : f ∉ ledger s) by (intros Hin; by apply Hnl, (core_owned_live cfg g)).
  assert (Hheld : held b1 = held b ++ [f]).
  { unfold held. simpl. rewrite (take_S_r _ _ f) by (apply list_lookup_insert_eq; lia). by rewrite take_insert_ge by lia. }
  assert (Hkeep : ∀ h, h ∈ ledger s → live m' h ∧ Z.land h PAGE_ADDRESS_MASK = h).
  { intros h Hh. destruct (core_owned_live cfg g s h C Hh). split; [|done]. apply Hlive. by right. }
  assert (Heq : equal_on (rest_of k s) (entries (memory s)) (entries m')).
  { intros t j Ht Hj. apply He; [|done]. eapply core_owned_live; [done|by eapply rest_of_ledger]. }
  split; [|done]. unfold reframed. split_and!.
  - unfold b1. eapply core_frames_step; eauto; try done; fold (held b1); rewrite ?Hheld.
    + change (NoDup (held b1 ++ rest_of k s)). rewrite Hheld. pose proof (core_nodup _ _ _ C) as Hnd.
      rewrite (ledger_backing s k b Hk) in Hnd, Hfr. rewrite <-(assoc (++)). simpl. rewrite <-Permutation_middle. by apply NoDup_cons_2.
    + change (Forall (frame_ok m') (held b1)). rewrite Hheld. apply Forall_app. split.
      * apply list.Forall_forall. intros h Hh. apply Hkeep. rewrite (ledger_backing s k b Hk). in_lists.
      * apply Forall_singleton. split; [by apply Hlive; left|done].
    + intros h Hh. apply Hkeep. by eapply rest_of_ledger.
    + by rewrite length_insert.
    + congruence.
    + intros i x j p _ _ _ _ _ Hp. change (frame p ∈ held b1). rewrite Hheld. in_lists.
  - intros j h Hj Hh. by eapply leaf_of_backing.
  - exists (<[allocated_pages b := f]> (frames b)), m'. split; [done|]. rewrite Nat.min_r by lia. by rewrite take_insert_ge by lia.
Qed.

Lemma grow_shared_spec g k before n : ∀ s b, Core cfg g s → shared s !! k = Some b → sb_occupied b = true →
  (allocated_pages b + n ≤ MAXIMUM_SHARED_PAGES)%nat → Z.of_nat (allocated_pages b + n) ≤ (size_bytes b + (PAGE_SIZE - 1)) / PAGE_SIZE →
  (before ≤ allocated_pages b)%nat → unmapped_tail g s b (allocated_pages b - before) →
  wp (grow_shared n k before) (λ _ s', reframed g k (allocated_pages b + n) b s s') (λ _ s', reframed g k before b s s') s.
Proof.
  induction n as [|n IH]; intros s b C Hk Ho Hlen Hsz Hbef Hun; simpl.
  { wp_step. rewrite Nat.add_0_r. by apply reframed_refl. }
  assert (Hshrink : ∀ m', Core cfg g (with_memory m' s) →
    (∀ j h, ¬ torn_down g j → user_address h → leaf_of (with_memory m' s) j h = leaf_of s j h) →
    wp (shrink_shared k before) (λ _ s', reframed g k before b s s') (λ _ _, False) (with_memory m' s)).
  { intros m' C' Hl. eapply wp_mono; [by eapply (shrink_shared_spec g k before (with_memory m' s) b)| |done].
    intros ? s' [Hs _]. eapply reframed_trans; [done|by eapply reframed_memory| |lia]. intros b1 Hb1 _.
    assert (b1 = b) as -> by (simpl in Hb1; congruence). done. }
  wp_step. apply wp_or_undo, wp_on_memory. pose proof (law_allocate (memory s) (core_mem _ _ _ C)) as Ha. unfold wp at 1.
  destruct (allocate_zeroed (memory s)) as [[f|e] m1].
  2: { destruct Ha as (Hm & Hlive & He). destruct (core_memory_live g s m1) as [C1 Hl1]; try done; [intros h; apply Hlive|].
       eapply wp_mono; [by apply Hshrink|done|done]. }
  destruct Ha as (Hm & Hf & Hlive & Hz & He). wp_step.
  - destruct (law_release m1 f Hm) as (m2 & Hrel & Hm2 & Hlive2 & He2); [by apply Hlive; left|].
    wp_step. eapply wp_of_run; [by apply on_release_run|]. change (with_memory m2 (with_memory m1 s)) with (with_memory m2 s).
    assert (Hkeep : ∀ h, live (memory s) h → live m2 h).
    { intros h Hh. apply Hlive2. split; [apply Hlive; by right|]. by intros ->. }
    destruct (core_memory_live g s m2) as [C2 Hl2]; try done.
    { intros h j Hh Hj. rewrite He2 by auto. by apply He. }
    wp_step. eapply wp_mono; [by apply Hshrink| |done]. intros ? s' Hs. by wp_step.
  - wp_step. eapply wp_on_backing; [exact Hk|]. cbn [memory with_memory].
    destruct (core_push_shared g s k b f m1) as (Hre & Hheld & Hfr); try done; [lia|lia|by apply aligned_frame|].
    set (b1 := with_frames (S (allocated_pages b)) (<[allocated_pages b := f]> (frames b)) b) in *.
    change (wp (grow_shared n k before) (λ _ s', reframed g k (allocated_pages b + S n) b s s')
              (λ _ s', reframed g k before b s s') (set_backing m1 k b1 s)).
    assert (Hun1 : unmapped_tail g (set_backing m1 k b1 s) b1 (allocated_pages b1 - before)).
    { intros i x j p Hx Hn Hj Hu. replace (allocated_pages b1 - (allocated_pages b1 - before))%nat with before by (simpl; lia).
      pose proof (core_backing _ _ _ C k b Hk) as [B1 _ _ _ _].
      rewrite Hheld, drop_app_le by (unfold held; rewrite length_take; lia). rewrite not_elem_of_app. split.
      - specialize (Hun i x j p Hx Hn Hj Hu). by replace (allocated_pages b - (allocated_pages b - before))%nat with before in Hun by lia.
      - rewrite not_elem_of_cons. split; [|apply not_elem_of_nil]. intros <-.
        destruct (used_frame_ledger g s i x j p) as [?|Hkf]; try done. destruct (law_kernel m1 _ Hm Hkf) as [[] _]. apply Hlive. by left. }
    assert (Hstep : ∀ a' s', reframed g k a' b1 (set_backing m1 k b1 s) s' → reframed g k a' b s s').
    { intros a' s' Hs. eapply reframed_trans; [done|exact Hre| |lia]. intros b2 Hb2 _.
      rewrite (lookup_set_backing m1 k b1 b s Hk) in Hb2. by simplify_eq. }
    eapply wp_mono; [apply (IH (set_backing m1 k b1 s) b1); simpl; try done; try lia|..].
    + apply Hre.
    + exact (lookup_set_backing m1 k b1 b s Hk).
    + intros ? s' Hs. apply Hstep in Hs. simpl in Hs. by replace (allocated_pages b + S n)%nat with (S (allocated_pages b + n)) by lia.
    + intros ? s' Hs. by apply Hstep.
Qed.

Lemma ensure_shared_frames_spec g k required s b : Core cfg g s → shared s !! k = Some b → sb_occupied b = true →
  (required ≤ MAXIMUM_SHARED_PAGES)%nat → Z.of_nat required ≤ (size_bytes b + (PAGE_SIZE - 1)) / PAGE_SIZE →
  wp (ensure_shared_frames k required) (λ _ s', reframed g k (allocated_pages b `max` required) b s s')
    (λ _ s', reframed g k (allocated_pages b) b s s') s.
Proof.
  intros C Hk Ho Hlen Hsz. unfold ensure_shared_frames. do 2 wp_step. rewrite (the_backing_eq s k b Hk).
  pose proof (core_backing _ _ _ C k b Hk) as [B1 B2 [B3 B3'] B4 B5].
  eapply wp_mono; [apply (grow_shared_spec g k (allocated_pages b) (required - allocated_pages b)); try done; try lia|..|done].
  - intros i x j p ????. rewrite Nat.sub_diag, Nat.sub_0_r, drop_ge; [apply not_elem_of_nil|]. unfold held. rewrite length_take. lia.
  - intros ? s' Hs. by replace (allocated_pages b `max` required)%nat with (allocated_pages b + (required - allocated_pages b))%nat by lia.
Qed.

(** ** Objects that nothing maps *)

Lemma held_unique g s k b j c f : Core cfg g s → shared s !! k = Some b → shared s !! j = Some c → f ∈ held b → f ∈ held c → j = k.
Proof.
  intros C Hk Hj Hf Hf'. destruct (decide (j = k)) as [|Hne]; [done|]. exfalso.
  pose proof (core_nodup _ _ _ C) as Hnd. rewrite (ledger_backing s k b Hk) in Hnd.
  apply list.NoDup_app in Hnd as (_ & Hnd & _). apply (Hnd f Hf). unfold rest_of. apply elem_of_app. right. apply elem_of_concat.
  destruct (decide (j < k)%nat).
  - exists j, c. by rewrite list_lookup_delete_lt.
  - exists (j - 1)%nat, c. rewrite list_lookup_delete_ge by lia. by replace (S (j - 1)) with j by lia.
Qed.

Lemma maps_shared_count s i x n id : slots s !! i = Some x → maps_shared x n id → (0 < mapped_count id s)%nat.
Proof.
  intros Hx (_ & j & m & Hj & Ho & Hid & _). pose proof (sum_le (mapcount id) (slots s) i x Hx) as Hle.
  assert (0 < mapcount id x)%nat; [|unfold mapped_count; lia]. eapply countb_pos; [exact Hj|]. rewrite Ho, Hid. by rewrite Z.eqb_refl.
Qed.

(** No page in use lies in a mapping of the object. *)
Definition nothing_shares (g : Flight) (s : State) (id : Z) : Prop :=
  ∀ i x n p, slots s !! i = Some x → ¬ torn_down g i → pages x !! n = Some p → used p → ¬ shares_of g i x n id.

Lemma nothing_shares_tail g s k b n : Core cfg g s → shared s !! k = Some b → nothing_shares g s (identity b) → unmapped_tail g s b n.
Proof.
  intros C Hk Hno i x j p Hx Hn Hj Hu Hin. assert (Hf : frame p ∈ held b).
  { rewrite <-(take_drop (allocated_pages b - n) (held b)). apply elem_of_app. by right. }
  pose proof (core_space _ _ _ C i x Hx Hn) as Hsp. unfold slot_space in Hsp. destruct (root x) as [r|] eqn:Hr; [|by eapply (Hsp j p)].
  destruct (st_owner _ _ _ _ _ Hsp j p Hj Hu) as [(Ho & _)|[(id & Hs & j' & c & Hj' & _ & Hid & Hc)|Hkf]].
  - eapply owned_not_rest; [exact C|exact Hx|exact Ho|]. by eapply held_in_rest.
  - assert (j' = k) as -> by (by eapply held_unique). simplify_eq. by eapply Hno.
  - eapply (kernel_not_ledger cfg g s); [done|exact Hkf|]. rewrite (ledger_backing s k b Hk). apply elem_of_app. by left.
Qed.

Definition set_unaccounted (id n : Z) (g : Flight) : Flight :=
  mkFlight (mapping_in g) (torn_down g) (λ z, if z =? id then n else unaccounted g z).

Lemma held_none b : allocated_pages b = O → held b = [].
Proof. intros H. unfold held. by rewrite H. Qed.

(** A shared object without frames and without references is forgotten. *)
Lemma core_retire g g' s k b : Core cfg g s → shared s !! k = Some b → sb_occupied b = true → allocated_pages b = O →
  Z.of_nat (mapped_count (identity b) s) + unaccounted g' (identity b) ≤ 0 →
  (∀ z, z ≠ identity b → unaccounted g' z = unaccounted g z) → mapping_in g' = mapping_in g → torn_down g' = torn_down g →
  Core cfg g' (set_backing (memory s) k EMPTY_BACKING s).
Proof.
  intros C Hk Ho Ha Hu Hun Hmi Htd. pose proof (core_nodup _ _ _ C) as Hnd. rewrite (ledger_backing s k b Hk), (held_none b Ha) in Hnd.
  eapply core_backing_step; eauto; try done.
  - apply C.
  - intros f Hf. eapply core_owned_live; [done|by eapply rest_of_ledger].
  - split; simpl; try done. lia.
  - intros j c Hne Hj Hoc. apply Hun. intros He. apply Hne. by eapply (core_identity _ _ _ C j k c b).
  - intros id Hid Hpos. right. destruct (decide (id = identity b)) as [->|Hne]; [lia|]. rewrite Hun in Hpos by done.
    destruct (core_present _ _ _ C id Hid Hpos) as (j & c & Hj & Hoc & Hc). exists j, c. split_and!; try done.
    intros ->. simplify_eq.
  - intros i. by rewrite Htd.
  - intros i x n p ??????. rewrite (held_none b Ha). by intros ?%not_elem_of_nil.
Qed.

(** A step that only changes the references, the descriptor or the size. *)
Lemma core_header g g' s k b b' : Core cfg g s → shared s !! k = Some b → held b' = held b → sb_occupied b' = sb_occupied b →
  identity b' = identity b → backing_shape b' →
  (sb_occupied b = true → Z.of_nat (mapping_references b') = Z.of_nat (mapped_count (identity b) s) + unaccounted g' (identity b)) →
  (∀ z, z ≠ identity b → unaccounted g' z = unaccounted g z) → (sb_occupied b = false → g' = g) →
  mapping_in g' = mapping_in g → torn_down g' = torn_down g →
  Core cfg g' (set_backing (memory s) k b' s).
Proof.
  intros C Hk Hh Ho Hid Hsh Href Hun Hg Hmi Htd. pose proof (core_nodup _ _ _ C) as Hnd. rewrite (ledger_backing s k b Hk) in Hnd.
  pose proof (core_frames _ _ _ C) as Hfr. rewrite list.Forall_forall in Hfr.
  eapply core_backing_step; eauto; rewrite ?Hh, ?Hid, ?Ho; try done.
  - apply C.
  - apply list.Forall_forall. intros f Hf. apply Hfr. rewrite (ledger_backing s k b Hk). in_lists.
  - intros f Hf. apply Hfr. by eapply rest_of_ledger.
  - intros Hocc j c Hne Hj Hoc He. apply Hne. symmetry. by eapply (core_identity _ _ _ C k j b c).
  - intros j c Hne Hj Hoc. destruct (decide (identity c = identity b)) as [He|]; [|by apply Hun].
    destruct (sb_occupied b) eqn:Hob; [|by rewrite Hg]. exfalso. apply Hne. by eapply (core_identity _ _ _ C j k c b).
  - intros id Hid0 Hpos. destruct (decide (id = identity b)) as [->|Hne].
    + destruct (sb_occupied b) eqn:Hob; [by left|]. rewrite Hg in Hpos by done.
      destruct (core_present _ _ _ C _ Hid0 Hpos) as (j & c & Hj & Hoc & Hc). right. exists j, c. split_and!; try done.
      intros ->. simplify_eq. congruence.
    + rewrite Hun in Hpos by done. destruct (core_present _ _ _ C id Hid0 Hpos) as (j & c & Hj & Hoc & Hc). right.
      exists j, c. split_and!; try done. intros ->. by simplify_eq.
  - intros i. by rewrite Htd.
Qed.

(** Everything but shared object [k] and memory is as it was. *)
Definition backing_only (g : Flight) (k : nat) (s s' : State) : Prop :=
  (∃ b' m', s' = set_backing m' k b' s) ∧ ∀ j h, ¬ torn_down g j → user_address h → leaf_of s' j h = leaf_of s j h.

Lemma reframed_only g k a b s s' : reframed g k a b s s' → backing_only g k s s'.
Proof. intros (_ & Hl & fs & m' & -> & _). split; [by eexists _, _|done]. Qed.

Lemma release_shared_backing_spec g s k b : Core cfg g s → shared s !! k = Some b → sb_occupied b = true →
  nothing_shares g s (identity b) → Z.of_nat (mapped_count (identity b) s) + unaccounted g (identity b) ≤ 0 →
  wp (release_shared_backing k)
    (λ _ s', Core cfg g s' ∧ backing_only g k s s' ∧ (∃ m', s' = set_backing m' k EMPTY_BACKING s)
             ∧ ∀ h, live (memory s') h ↔ live (memory s) h ∧ h ∉ held b) (λ _ _, False) s.
Proof.
  intros C Hk Ho Hno Hcnt. unfold release_shared_backing. wp_step.
  eapply wp_mono; [apply (shrink_shared_spec g k 0 s b); try done; [lia|by eapply nothing_shares_tail]| |done].
  intros ? s1 [(C1 & Hl1 & fs & m1 & -> & _) Hlv]. eapply wp_on_backing; [by eapply lookup_set_backing|].
  change (memory (set_backing m1 k (with_frames 0 fs b) s)) with m1.
  rewrite set_backing_twice. split_and!.
  - rewrite <-(set_backing_twice m1 m1 k EMPTY_BACKING (with_frames 0 fs b) s).
    eapply (core_retire g g (set_backing m1 k (with_frames 0 fs b) s) k (with_frames 0 fs b)); try done. by eapply lookup_set_backing.
  - split; [by eexists _, _|]. intros j h Hj Hh. by rewrite <-Hl1.
  - by eexists.
  - intros h. rewrite Hlv. by rewrite drop_0.
Qed.

Lemma core_lookup_identity g s id : Core cfg g s → id ≠ 0 → 0 < Z.of_nat (mapped_count id s) + unaccounted g id →
  ∃ k b, position (λ b, sb_occupied b && (identity b =? id)) (shared s) = Some k ∧ shared s !! k = Some b ∧ sb_occupied b = true ∧ identity b = id.
Proof.
  intros C Hid Hpos. destruct (core_present _ _ _ C id Hid Hpos) as (j & c & Hj & Ho & Hc).
  destruct (position_is_Some (λ b, sb_occupied b && (identity b =? id)) (shared s) j c Hj) as [k Hk].
  { rewrite Ho, Hc. by rewrite Z.eqb_refl. }
  pose proof Hk as Hk'. apply position_lookup in Hk' as (b & Hb & [Hob Hib%Z.eqb_eq]%andb_true_iff). eauto 6.
Qed.

Lemma drop_reference_spec g s id : Core cfg g s → id ≠ 0 → 0 < Z.of_nat (mapped_count id s) + unaccounted g id →
  (Z.of_nat (mapped_count id s) + unaccounted g id = 1 → nothing_shares g s id) →
  wp (drop_shared_mapping_reference id)
    (λ _ s', Core cfg (set_unaccounted id (unaccounted g id - 1) g) s' ∧ ∃ k, backing_only g k s s') (λ _ _, False) s.
Proof.
  intros C Hid Hpos Hlast. destruct (core_lookup_identity g s id C Hid Hpos) as (k & b & Hp & Hk & Ho & Hb).
  pose proof (core_references _ _ _ C k b Hk Ho) as Href. rewrite Hb in Href.
  unfold drop_shared_mapping_reference. do 2 wp_step. wp_step. rewrite Hp. wp_step; [|done].
  match goal with H : Some _ = Some _ |- _ => injection H as <- end. rewrite (the_backing_eq s k b Hk).
  destruct (mapping_references b) as [|n] eqn:Hn; [lia|].
  set (g' := set_unaccounted id (unaccounted g id - 1) g).
  assert (C1 : Core cfg g' (set_backing (memory s) k (with_references n b) s)).
  { destruct (core_backing _ _ _ C k b Hk) as [B1 B2 B3 B4 B5]. eapply core_header; eauto; try done; simpl.
    - intros _. rewrite Hb, Z.eqb_refl. lia.
    - intros z Hz. rewrite Hb in Hz. by apply Z.eqb_neq in Hz as ->.
    - congruence. }
  assert (Honly : backing_only g k s (set_backing (memory s) k (with_references n b) s)).
  { split; [by eexists _, _|]. intros j h Hj Hh. by apply (leaf_of_backing g). }
  wp_step.
  - match goal with H : _ && _ = true |- _ => apply andb_true_iff in H as [Hz%Nat.eqb_eq _] end. subst n.
    wp_step. eapply wp_on_backing; [exact Hk|]. apply wp_or_undo.
    eapply wp_mono; [eapply (release_shared_backing_spec g' _ k (with_references 0 b)); try done|..|done].
    + by eapply lookup_set_backing.
    + simpl. rewrite Hb. exact (Hlast ltac:(lia)).
    + simpl. rewrite Hb. change (mapped_count id (set_backing (memory s) k (with_references 0 b) s)) with (mapped_count id s).
      rewrite Z.eqb_refl. lia.
    + intros ? s' (C' & [_ Hl] & (m' & ->) & _). split; [done|]. exists k. rewrite set_backing_twice in *. split; [by eexists _, _|].
      intros j h Hj Hh. rewrite Hl by done. by apply Honly.
  - eapply wp_on_backing; [exact Hk|]. split; [done|by exists k].
Qed.

(** ** The operations on shared objects *)

Lemma inv_backing_only s s' k : Inv cfg s → Core cfg at_rest s' → backing_only at_rest k s s' → Inv cfg s'.
Proof. intros [_ Ht] C' [(b' & m' & ->) _]. by split. Qed.

(** Every user page of every process maps what it did. *)
Definition leaves_kept (s s' : State) : Prop := ∀ j h, user_address h → leaf_of s' j h = leaf_of s j h.

Lemma backing_only_kept s s' k : backing_only at_rest k s s' → leaves_kept s s'.
Proof. intros [_ H] j h Hh. apply H; [by intros []|done]. Qed.

Lemma empty_backing_shape b : b ≠ 0 → backing_shape (mkBacking true true b 0 0 0 (replicate MAXIMUM_SHARED_PAGES 0)).
Proof. intros H. split; simpl; try done. lia. Qed.

Lemma create_spec id s : Inv cfg s →
  wp (linux_shared_memory_create id : SM unit) (λ _ s', Inv cfg s' ∧ leaves_kept s s') (λ _ s', s' = s) s.
Proof.
  intros HI. pose proof HI as [C Ht]. unfold linux_shared_memory_create. do 2 wp_step. wp_step. wp_step; [|done].
  match goal with H : negb _ = true |- _ => apply negb_true_iff, orb_false_iff in H as [Hid%Z.eqb_neq Hex] end.
  wp_step. wp_step; [|done].
  match goal with H : position _ _ = Some ?n |- _ => rename n into k; apply position_lookup in H as (b & Hk & Hb%negb_true_iff) end.
  assert (Hfresh : ∀ j c, shared s !! j = Some c → identity c ≠ id).
  { intros j c Hj He. apply not_true_iff_false in Hex. apply Hex. apply existsb_exists. exists c.
    split; [apply list_elem_of_In, list_elem_of_lookup; by exists j|]. by apply Z.eqb_eq. }
  assert (Hnone : mapped_count id s = O).
  { destruct (mapped_count id s) as [|n] eqn:Hc; [done|]. exfalso.
    destruct (core_present _ _ _ C id Hid) as (j & c & Hj & _ & Hc'); [rewrite Hc; simpl; lia|]. by eapply Hfresh. }
  eapply wp_on_backing; [exact Hk|]. cbv beta.
  destruct (core_backing _ _ _ C k b Hk) as [B1 B2 B3 B4 B5]. specialize (B2 Hb).
  set (b' := mkBacking _ _ _ _ _ _ _).
  assert (C' : Core cfg at_rest (set_backing (memory s) k b' s)).
  { pose proof (core_nodup _ _ _ C) as Hnd. rewrite (ledger_backing s k b Hk), (held_none b B2) in Hnd.
    eapply core_backing_step; eauto; try done.
    - apply C.
    - intros f Hf. eapply core_owned_live; [done|by eapply rest_of_ledger].
    - by apply empty_backing_shape.
    - intros _. simpl. by rewrite Hnone.
    - intros id' Hid' Hpos. destruct (core_present _ _ _ C id' Hid' Hpos) as (j & c & Hj & Hoc & Hc). right. exists j, c.
      split_and!; try done. intros ->. simplify_eq. congruence.
    - intros. congruence. }
  assert (Honly : backing_only at_rest k s (set_backing (memory s) k b' s)).
  { split; [by eexists _, _|]. intros j h Hj Hh. by apply (leaf_of_backing at_rest). }
  split; [by eapply inv_backing_only|by eapply backing_only_kept].
Qed.

(** Nothing maps an object without references. *)
Lemma no_references_nothing_shares s k b : Core cfg at_rest s → shared s !! k = Some b → sb_occupied b = true → mapping_references b = O →
  nothing_shares at_rest s (identity b) ∧ mapped_count (identity b) s = O.
Proof.
  intros C Hk Ho Hr. pose proof (core_references _ _ _ C k b Hk Ho) as Href. simpl in Href. split; [|lia].
  intros i x n p Hx _ _ _ [Hs|[]]. pose proof (maps_shared_count s i x n _ Hx Hs). lia.
Qed.

Lemma opened_spec id s k : position (opened id) (shared s) = Some k →
  ∃ b, shared s !! k = Some b ∧ sb_occupied b = true ∧ descriptor_open b = true ∧ identity b = id.
Proof. intros (b & Hk & [[? ?]%andb_true_iff ?%Z.eqb_eq]%andb_true_iff)%position_lookup. eauto. Qed.

Lemma resize_spec id expected size s : 0 ≤ size → Inv cfg s →
  wp (linux_shared_memory_resize id expected size) (λ _ s', Inv cfg s' ∧ leaves_kept s s') (λ _ s', s' = s) s.
Proof.
  intros Hsize HI. pose proof HI as [C Ht]. unfold linux_shared_memory_resize. wp_step. wp_step; [|done]. do 2 wp_step. wp_step. wp_step; [|done].
  match goal with H : position _ _ = Some ?n |- _ => rename n into k; apply opened_spec in H as (b & Hk & Ho & Hd & Hid) end.
  rewrite (the_backing_eq s k b Hk). wp_step. wp_step; [|done]. wp_step. wp_step; [|done].
  repeat match goal with H : (_ =? _) = true |- _ => apply Z.eqb_eq in H end.
  match goal with H : negb (_ && _) = true |- _ => apply negb_true_iff in H end.
  destruct (core_backing _ _ _ C k b Hk) as [B1 B2 [B3 B3'] B4 B5].
  set (keep := Z.to_nat ((size + (PAGE_SIZE - 1)) / PAGE_SIZE)).
  assert (Hkeep : Z.of_nat keep = (size + (PAGE_SIZE - 1)) / PAGE_SIZE).
  { unfold keep. rewrite Z2Nat.id; [done|]. apply Z.div_pos; unfold PAGE_SIZE; lia. }
  assert (Hshrink : wp (shrink_shared k keep)
    (λ _ s', ∃ a, reframed at_rest k a b s s' ∧ (a ≤ keep)%nat ∧ (a ≤ allocated_pages b)%nat) (λ _ _, False) s).
  { destruct (decide (keep < allocated_pages b)%nat) as [Hlt|Hge].
    - assert (mapping_references b = O) as Hr.
      { match goal with H : _ && _ = false |- _ => apply andb_false_iff in H as [H|H] end.
        - match goal with H : (_ <? _) = false |- _ => apply Z.ltb_ge in H end. exfalso.
          assert ((size_bytes b + (PAGE_SIZE - 1)) / PAGE_SIZE ≤ (size + (PAGE_SIZE - 1)) / PAGE_SIZE); [|lia].
          apply Z.div_le_mono; unfold PAGE_SIZE; lia.
        - match goal with H : negb _ = false |- _ => by apply negb_false_iff, Nat.eqb_eq in H end. }
      destruct (no_references_nothing_shares s k b) as [Hno _]; try done.
      eapply wp_mono; [apply (shrink_shared_spec at_rest k keep s b); try done; [lia|by eapply nothing_shares_tail]| |done].
      intros ? s' [Hs _]. exists keep. split_and!; [done|lia|lia].
    - unfold shrink_shared. do 2 wp_step. rewrite (the_backing_eq s k b Hk). replace (allocated_pages b - keep)%nat with O by lia.
      cbn [release_shared_frames]. wp_step. exists (allocated_pages b). split_and!; [by apply reframed_refl|lia|lia]. }
  wp_step. eapply wp_mono; [exact Hshrink| |done].
  intros ? s1 (a & (C1 & Hl1 & fs & m1 & -> & _) & Ha & Ha'). eapply wp_on_backing; [by eapply lookup_set_backing|]. cbv beta.
  change (memory (set_backing m1 k (with_frames a fs b) s)) with m1. rewrite set_backing_twice.
  assert (Hlen1 : length fs = MAXIMUM_SHARED_PAGES).
  { apply (core_backing _ _ _ C1 k (with_frames a fs b)). by eapply lookup_set_backing. }
  set (b' := mkBacking _ _ _ _ _ _ _).
  assert (C' : Core cfg at_rest (set_backing m1 k b' s)).
  { rewrite <-(set_backing_twice m1 m1 k b' (with_frames a fs b) s).
    apply (core_header at_rest at_rest (set_backing m1 k (with_frames a fs b) s) k (with_frames a fs b) b'); try done.
    - by eapply lookup_set_backing.
    - split; simpl; try done; [congruence| |lia]. split; [done|lia].
    - intros _. simpl. by rewrite (core_references _ _ _ C k b Hk Ho). }
  assert (Honly : backing_only at_rest k s (set_backing m1 k b' s)).
  { split; [by eexists _, _|]. intros j h Hj Hh. by rewrite <-Hl1. }
  split; [by eapply inv_backing_only|by eapply backing_only_kept].
Qed.

Lemma close_spec id s : Inv cfg s →
  wp (linux_shared_memory_close id) (λ _ s', Inv cfg s' ∧ leaves_kept s s') (λ _ s', s' = s) s.
Proof.
  intros HI. pose proof HI as [C Ht]. unfold linux_shared_memory_close. do 2 wp_step. wp_step. wp_step; [|done].
  match goal with H : position _ _ = Some ?n |- _ => rename n into k; apply opened_spec in H as (b & Hk & Ho & Hd & Hid) end.
  rewrite (the_backing_eq s k b Hk). wp_step.
  - match goal with H : (_ =? _)%nat = true |- _ => apply Nat.eqb_eq in H as Hr end.
    destruct (no_references_nothing_shares s k b) as [Hno Hc]; try done.
    eapply wp_mono; [apply (release_shared_backing_spec at_rest s k b); try done; rewrite Hc; simpl; lia| |done].
    intros ? s' (C' & Honly & _). split; [by eapply inv_backing_only|by eapply backing_only_kept].
  - eapply wp_on_backing; [exact Hk|]. cbv beta. destruct (core_backing _ _ _ C k b Hk) as [B1 B2 B3 B4 B5].
    assert (C' : Core cfg at_rest (set_backing (memory s) k (mkBacking (sb_occupied b) false (identity b) (size_bytes b) (allocated_pages b)
              (mapping_references b) (frames b)) s)).
    { eapply core_header; eauto; try done. simpl. intros _. by rewrite (core_references _ _ _ C k b Hk Ho). }
    assert (Honly : backing_only at_rest k s (set_backing (memory s) k (mkBacking (sb_occupied b) false (identity b) (size_bytes b)
              (allocated_pages b) (mapping_references b) (frames b)) s)).
    { split; [by eexists _, _|]. intros j h Hj Hh. by apply (leaf_of_backing at_rest). }
    split; [by eapply inv_backing_only|by eapply backing_only_kept].
Qed.

End Shared.
