(* ===== verification/SpaceOps.v ===== *)
(** * Operations on a running process

    [linux_mmap_private], [linux_mmap_shared] and [linux_munmap] of
    process/x86_64.rs keep the invariant of the pool; each changes the pages
    it is asked to change in the process it is asked for, and no page of any
    process where it fails. *)

From stdpp Require Import prelude list numbers.
From Stdlib Require Import ZArith Lia.
From S2P Require Import Prelude.
From S2P Require Import Wp.
From S2P Require Import AddressSpace.
From S2P Require Import PageTree.
From S2P Require Import SpaceInv.
From S2P Require Import SpaceSteps.
From S2P Require Import SpaceBase.
From S2P Require Import SpacePages.
From S2P Require Import SpaceShared.

(** ** Records of mappings *)

(** A tidy slot after mapping [k] and the pages of a range have changed. *)
Lemma tidy_step {KF : KernelFrames} x x' start n k m0 m : tidy x → phase x ≠ Free → phase x' = phase x → root x' = root x →
  address_space_root (process_info x') = address_space_root (process_info x) → initial_stack_pages x' = initial_stack_pages x →
  mappings x !! k = Some m0 → mappings x' = <[k := m]> (mappings x) →
  (∀ j, ¬ range start n j → pages x' !! j = pages x !! j) →
  (∀ j p, range start n j → pages x !! j = Some p → used p → occupied m0 = true ∧ covers m0 j) →
  (∀ j p, range start n j → (page_count x' ≤ j)%nat → pages x' !! j = Some p → ¬ used p) → (page_count x ≤ page_count x')%nat →
  (occupied m = true → laid_out (pages x') m ∧ ∀ j, covers m j → range start n j ∨ (occupied m0 = true ∧ covers m0 j)) →
  (occupied m = true → heap m = true → mp_address m = LINUX_BRK_BASE) →
  (occupied m = true → ∀ j p, covers m j → range start n j → pages x' !! j = Some p → frame p ∉ kernel_frames) →
  tidy x'.
Proof.
  intros [T1 T2 T3 T4 T5 T7 T6 T8 T9] Hc Hc' Hr Hi Hst Hk Hm Hout Hin Htail Hcount Hnew Hheap Hkern.
  assert (Hdec : ∀ j, range start n j ∨ ¬ range start n j) by (unfold range; lia).
  assert (Hold : ∀ j m1 h, j ≠ k → mappings x !! j = Some m1 → occupied m1 = true → covers m1 h → ¬ range start n h).
  { intros j m1 h Hne Hj Ho Hh HD. destruct (T2 j m1 Hj Ho) as (_ & _ & Hp).
    destruct (Hp (h - first_page m1)%nat) as (p & Hp1 & Hu & _); [unfold covers in Hh; lia|].
    replace (first_page m1 + (h - first_page m1))%nat with h in Hp1 by (unfold covers in Hh; lia).
    destruct (Hin h p HD Hp1 Hu) as [Ho0 Hc0]. by eapply Hne, (T3 j k m1 m0 h). }
  split; [|intros j m1 Hj Ho|intros j1 j2 m1 m2 h Hj1 Hj2 Ho1 Ho2 Hh1 Hh2|congruence|intros _; rewrite Hr; by apply T5| |intros Hco; rewrite Hr, Hi; apply T6; congruence|intros j m1 h p Hj Ho Hh Hp|by rewrite Hst].
  - intros j p Hj Hp. destruct (Hdec j); [by eapply Htail|]. rewrite Hout in Hp by done. eapply T1; [|done]. lia.
  - rewrite Hm in Hj. apply lookup_insert_cases in Hj as [(-> & -> & _)|[Hne Hj]]; [by apply Hnew|].
    destruct (T2 j m1 Hj Ho) as (H1 & H2 & H3). split_and!; [done..|]. intros h Hh. rewrite Hout; [by apply H3|].
    eapply (Hold j); try done. unfold covers. lia.
  - rewrite Hm in Hj1, Hj2.
    apply lookup_insert_cases in Hj1 as [(-> & -> & _)|[Hne1 Hj1]]; apply lookup_insert_cases in Hj2 as [(-> & -> & _)|[Hne2 Hj2]]; [done|..].
    + destruct (proj2 (Hnew Ho1) h Hh1) as [HD|[Ho0 Hc0]]; [by destruct (Hold j2 m2 h)|by eapply (T3 j1 j2 m0 m2 h)].
    + destruct (proj2 (Hnew Ho2) h Hh2) as [HD|[Ho0 Hc0]]; [by destruct (Hold j1 m1 h)|by eapply (T3 j1 j2 m1 m0 h)].
    + by eapply (T3 j1 j2 m1 m2 h).
  - intros j m1 Hj. rewrite Hm in Hj. apply lookup_insert_cases in Hj as [(-> & -> & _)|[_ Hj]]; [done|by eapply T7].
  - rewrite Hm in Hj. apply lookup_insert_cases in Hj as [(-> & -> & _)|[Hne Hj]].
    + destruct (Hdec h) as [HD|HD]; [by eapply Hkern|]. destruct (proj2 (Hnew Ho) h Hh) as [HD'|[Ho0 Hc0]]; [done|].
      rewrite Hout in Hp by done. by eapply T8.
    + rewrite Hout in Hp by (by eapply Hold). by eapply T8.
Qed.

Lemma mapcount_insert id x x' k m0 m : mappings x !! k = Some m0 → mappings x' = <[k := m]> (mappings x) →
  (mapcount id x' + Nat.b2n (occupied m0 && (shared_identity m0 =? id)%Z)
   = mapcount id x + Nat.b2n (occupied m && (shared_identity m =? id)%Z))%nat.
Proof. intros Hk Hm. unfold mapcount. rewrite Hm. exact (countb_insert _ _ _ m0 m Hk). Qed.

Lemma mapcount_insert_same id x x' k m0 m : mappings x !! k = Some m0 → mappings x' = <[k := m]> (mappings x) →
  occupied m0 && (shared_identity m0 =? id) = occupied m && (shared_identity m =? id) → mapcount id x' = mapcount id x.
Proof. intros Hk Hm Hs. pose proof (mapcount_insert id x x' k m0 m Hk Hm). rewrite Hs in *. lia. Qed.

Lemma maps_shared_insert x x' k m0 m n id : mappings x !! k = Some m0 → mappings x' = <[k := m]> (mappings x) →
  (occupied m0 = true → shared_identity m0 = id → covers m0 n → occupied m = true ∧ shared_identity m = id ∧ covers m n) →
  maps_shared x n id → maps_shared x' n id.
Proof.
  intros Hk Hm Hkeep (Hid & j & m1 & Hj & Ho & Hi & Hc). split; [done|]. destruct (decide (j = k)) as [->|Hne].
  - assert (m1 = m0) as -> by congruence. exists k, m. rewrite Hm. split; [|by apply Hkeep].
    apply list_lookup_insert_eq. by eapply lookup_lt_Some.
  - exists j, m1. rewrite Hm, list_lookup_insert_ne by done. done.
Qed.

(** Slots that differ in unused records only. *)
Lemma tidy_same_used {KF : KernelFrames} x x' : tidy x → phase x' = phase x → root x' = root x → process_info x' = process_info x →
  initial_stack_pages x' = initial_stack_pages x → mappings x' = mappings x → page_count x' = page_count x → (phase x ≠ Free) →
  (∀ j p, pages x' !! j = Some p → used p → pages x !! j = Some p) → (∀ j p, pages x !! j = Some p → used p → pages x' !! j = Some p) → tidy x'.
Proof.
  intros [T1 T2 T3 T4 T5 T7 T6 T8 T9] Hph Hr Hi Hst Hm Hc Hf Hin Hout. split; rewrite ?Hph, ?Hr, ?Hi, ?Hst, ?Hm; try done.
  - intros k p Hk Hp Hu. rewrite Hc in Hk. by eapply (T1 k p Hk); [apply Hin|].
  - intros j m Hj Ho. destruct (T2 j m Hj Ho) as (H1 & H2 & H3). split_and!; [done..|]. intros h Hh.
    destruct (H3 h Hh) as (p & Hp & Hu & Ha). exists p. split_and!; [by apply Hout|done..].
  - intros j m k p Hj Ho Hk Hp. eapply T8; [done..|]. destruct (T2 j m Hj Ho) as (_ & _ & H3). unfold covers in Hk.
    destruct (H3 (k - first_page m)%nat ltac:(lia)) as (q & Hq & Hu & _).
    replace (first_page m + (k - first_page m))%nat with k in Hq by lia. apply Hout in Hq as Hq'; [|done]. congruence.
Qed.

(** ** Counting references *)

Lemma sum_two {A} (f : A → nat) (l : list A) i j x y : l !! i = Some x → l !! j = Some y → i ≠ j → (f x + f y ≤ sum_list (f <$> l))%nat.
Proof.
  revert i j. induction l as [|z l IH]; intros [|i] [|j] Hi Hj Hne; simplify_eq/=.
  - pose proof (sum_le f l j y Hj). lia.
  - pose proof (sum_le f l i x Hi). lia.
  - assert (i ≠ j) by congruence. specialize (IH i j Hi Hj ltac:(done)). lia.
Qed.

Lemma countb_two {A} (p : A → bool) (l : list A) i j x y : l !! i = Some x → l !! j = Some y → i ≠ j → p x = true → p y = true → (2 ≤ countb p l)%nat.
Proof.
  revert i j. induction l as [|z l IH]; intros [|i] [|j] Hi Hj Hne Hx Hy; simplify_eq/=.
  - rewrite Hx. pose proof (countb_pos p l j y Hj Hy). lia.
  - rewrite Hy. pose proof (countb_pos p l i x Hi Hx). lia.
  - assert (i ≠ j) by congruence. specialize (IH i j Hi Hj ltac:(done) Hx Hy). destruct (p z); lia.
Qed.

(** The only mapping of an object. *)
Lemma sole_mapping {Mem} (s : FrameBackedAddressSpace Mem) i k x m j y n id : mapped_count id s = 1%nat → slots s !! i = Some x → mappings x !! k = Some m →
  occupied m = true → shared_identity m = id → slots s !! j = Some y → maps_shared y n id → j = i ∧ covers m n.
Proof.
  intros H1 Hx Hk Ho Hi Hy (_ & k' & m' & Hk' & Ho' & Hi' & Hc). unfold mapped_count in H1.
  assert (Hcount : ∀ z q l, mappings z !! q = Some l → occupied l = true → shared_identity l = id → (0 < mapcount id z)%nat).
  { intros z q l Hq Hl Hid. eapply countb_pos; [exact Hq|]. rewrite Hl, Hid. by rewrite Z.eqb_refl. }
  destruct (decide (j = i)) as [->|Hne].
  - split; [done|]. assert (y = x) as -> by congruence. destruct (decide (k' = k)) as [->|Hne]; [congruence|].
    pose proof (sum_le (mapcount id) (slots s) i x Hx). assert (2 ≤ mapcount id x)%nat; [|lia].
    eapply (countb_two _ _ k k' m m'); [done..| |]; [rewrite Ho, Hi|rewrite Ho', Hi']; by rewrite Z.eqb_refl.
  - pose proof (sum_two (mapcount id) (slots s) i j x y Hx Hy ltac:(done)). pose proof (Hcount x k m Hk Ho Hi).
    pose proof (Hcount y k' m' Hk' Ho' Hi'). lia.
Qed.

Section Ops.
Context {Mem E : Type} `{!FrameMemory Mem E, KF : !KernelFrames, !FrameMemoryLaws Mem E} (cfg : Config).
Abbreviation State := (FrameBackedAddressSpace Mem).
Abbreviation SM := (M State (FrameBackedError E)).
Implicit Types (s : State) (g : Flight).

Lemma slot_shape_mapping x x' k m0 m : slot_shape cfg x → phase x' ≠ Staging → mappings x !! k = Some m0 →
  mappings x' = <[k := m]> (mappings x) → length (pages x') = length (pages x) → owned_frames x' = owned_frames x →
  owned_frame_count x' = owned_frame_count x → (mapping_count x ≤ mapping_count x')%nat →
  (occupied m = true → (k < mapping_count x')%nat ∧ (shared_identity m ≠ 0 → releasable m = true ∧ heap m = false)) →
  slot_shape cfg x'.
Proof.
  intros [S1 S2 S3 S4 S5 S6 S7] Hph Hk Hm Hp Ho Hoc Hmc Hnew. split; try congruence.
  - rewrite Hm, length_insert. done.
  - intros j m1 Hj Hocc. rewrite Hm in Hj. apply lookup_insert_cases in Hj as [(-> & -> & _)|[_ Hj]]; [by apply Hnew|].
    eapply Nat.lt_le_trans; [by eapply S5|done].
  - intros j m1 Hj Hocc. rewrite Hm in Hj. apply lookup_insert_cases in Hj as [(-> & -> & _)|[_ Hj]]; [by apply Hnew|by eapply S6].
Qed.

(** New records of the mappings, and other things in flight. *)
Lemma core_relabel g g' s i x x' : Core cfg g s → slots s !! i = Some x → ¬ torn_down g i →
  root x' = root x → pages x' = pages x → owned x' = owned x → phase x' = phase x → slot_shape cfg x' →
  (∀ id, id ≠ 0 → Z.of_nat (mapcount id x') + unaccounted g' id = Z.of_nat (mapcount id x) + unaccounted g id) →
  (∀ n p id, pages x !! n = Some p → used p → shares_of g i x n id → shares_of g' i x' n id) →
  (∀ j, j ≠ i → mapping_in g' j = mapping_in g j ∧ (torn_down g j → torn_down g' j)) →
  Core cfg g' (set_slot (memory s) i x' s).
Proof.
  intros C Hx Hn Hr Hp Ho Hph Hsh Hmc Hms Hfl.
  eapply (core_slot_step cfg g g' s i x x'); try done.
  - apply C.
  - rewrite Ho, <-(ledger_slot s i x Hx). apply C.
  - rewrite Ho. pose proof (core_frames _ _ _ C) as Hf. rewrite (ledger_slot s i x Hx), Forall_app in Hf. apply Hf.
  - intros f Hf. pose proof (core_frames _ _ _ C) as Hl. rewrite list.Forall_forall in Hl. apply Hl. by eapply rest_in_ledger.
  - intros _. pose proof (core_space _ _ _ C i x Hx Hn) as Hsp. unfold slot_space in *. rewrite Hr. destruct (root x) as [r|]; [|by rewrite Hp].
    destruct Hsp as [H1 H2 H3 H4]. split; rewrite ?Ho, ?Hp; try done.
    intros k p Hk Hu. destruct (H4 k p Hk Hu) as [(Hf & Ht & Hq)|[(id & Hs & Hb)|Hkf]]; [left; rewrite Ho, Hp; done| |by right; right].
    right; left. exists id. split; [by eapply Hms|done].
  - intros k Hk. destruct (decide (k = i)) as [->|]; [right|by left]. split; [done|].
    destruct (core_active _ _ _ C i Hk) as (y & Hy & Hst). congruence.
Qed.

(** New records of the mappings over the same pages. *)
Lemma core_same_records g s i x x' : Core cfg g s → slots s !! i = Some x → ¬ torn_down g i →
  root x' = root x → pages x' = pages x → owned x' = owned x → phase x' = phase x → slot_shape cfg x' →
  (∀ id, id ≠ 0 → mapcount id x' = mapcount id x) →
  (∀ n p id, pages x !! n = Some p → used p → maps_shared x n id → maps_shared x' n id) →
  Core cfg g (set_slot (memory s) i x' s).
Proof.
  intros C Hx Hn Hr Hp Ho Hph Hsh Hmc Hms. eapply core_relabel; try done.
  - intros id Hid. by rewrite Hmc.
  - intros n p id Hq Hu [Hs|Hs]; [left; by eapply Hms|by right].
Qed.

(** ** Free records *)

Lemma free_mapping_spec x : slot_shape cfg x → (length (mappings x) <=? free_mapping x)%nat = false →
  ∃ m, mappings x !! free_mapping x = Some m ∧ occupied m = false.
Proof.
  intros Hs Hk%Nat.leb_gt. destruct (lookup_lt_is_Some_2 _ _ Hk) as [m Hm]. exists m. split; [done|].
  unfold free_mapping in *. destruct (find_range _ _ _) as [k|] eqn:Hf; simpl in *.
  - apply find_range_Some in Hf as (_ & Hf%negb_true_iff & _). by rewrite (slot_at_Some _ _ _ m Hm) in Hf.
  - destruct (occupied m) eqn:Ho; [|done]. pose proof (ss_used _ _ Hs _ _ Hm Ho). lia.
Qed.

Lemma page_free_true p : page_free p = true ↔ ¬ used p.
Proof. unfold page_free, used. rewrite Z.eqb_eq. destruct (decide (pg_address p = 0)); intuition. Qed.

Lemma free_pages x start n j p : forallb page_free (take n (drop start (pages x))) = true → range start n j → pages x !! j = Some p → ¬ used p.
Proof.
  intros H Hj Hp. rewrite forallb_forall in H. apply page_free_true, H, list_elem_of_In, list_elem_of_lookup.
  unfold range in Hj. exists (j - start)%nat. rewrite lookup_take_lt, lookup_drop by lia. by replace (start + (j - start))%nat with j by lia.
Qed.

Lemma free_page_run_spec x start n : free_page_run x n = Some start →
  (start + n ≤ length (pages x))%nat ∧ ∀ j p, range start n j → pages x !! j = Some p → ¬ used p.
Proof.
  unfold free_page_run. destruct ((n =? 0)%nat || _) eqn:Hc; [done|]. apply orb_false_iff in Hc as [_ Hc%Nat.ltb_ge].
  intros (Hb & Hfree & _)%find_range_Some. split; [lia|]. intros j p. by apply free_pages.
Qed.

Lemma process_slot_spec' process s : wp (process_slot process : SM nat)
  (λ i s', s' = s ∧ i = ph_slot process ∧ ∃ x, slots s !! i = Some x ∧ phase x = Committed ∧ generation x = ph_generation process)
  (λ _ s', s' = s ∧ ∀ x, slots s !! ph_slot process = Some x → phase x = Committed → generation x ≠ ph_generation process) s.
Proof.
  unfold process_slot. do 2 wp_step. destruct (slots s !! ph_slot process) as [x|] eqn:Hx; [|done].
  wp_step. apply wp_ensure.
  - intros [H1%bool_decide_eq_true H2%Z.eqb_eq]%andb_true_iff. wp_step. split_and!; [done..|]. by exists x.
  - intros [H%bool_decide_eq_false|H%Z.eqb_neq]%andb_false_iff; (split; [done|]); naive_solver.
Qed.

Lemma process_slot_spec process s : wp (process_slot process : SM nat)
  (λ i s', s' = s ∧ i = ph_slot process ∧ ∃ x, slots s !! i = Some x ∧ phase x = Committed ∧ generation x = ph_generation process)
  (λ _ s', s' = s) s.
Proof. eapply wp_mono; [apply process_slot_spec'|done|by intros ? ? [-> _]]. Qed.

(** ** A new mapping *)

(** The frames [fs] were mapped one after the other from [base] on, where
    nothing was mapped, and every other page is as it was. *)
Record mapped (i : nat) (base : Z) (fs : list Z) (p : MappingPermissions) (s s' : State) : Prop := {
  mp_aligned : (PAGE_SIZE | base);
  mp_bounds : PAGE_SIZE ≤ base ∧ base + Z.of_nat (length fs) * PAGE_SIZE ≤ USER_LIMIT;
  mp_new : ∀ a, base ≤ a < base + Z.of_nat (length fs) * PAGE_SIZE → leaf_of s i a = 0;
  mp_leaf : ∀ a f, base ≤ a → fs !! Z.to_nat ((a - base) / PAGE_SIZE) = Some f → leaf_of s' i a = user_mapping_entry f p;
  mp_others : ∀ j a, user_address a → (j = i → ¬ base ≤ a < base + Z.of_nat (length fs) * PAGE_SIZE) → leaf_of s' j a = leaf_of s j a;
}.

Lemma page_of_va base h : (PAGE_SIZE | base) → page_of (page_va base h) = base / PAGE_SIZE + Z.of_nat h.
Proof. intros [q ->]. unfold page_of, page_va, PAGE_SIZE. rewrite Z.div_mul, Z.div_add by lia. rewrite Z.div_mul by lia. lia. Qed.

Lemma page_of_in base a : (PAGE_SIZE | base) → base ≤ a → page_of a = page_of (page_va base (Z.to_nat ((a - base) / PAGE_SIZE))).
Proof.
  intros [q ->] Ha. rewrite page_of_va by apply Z.divide_factor_r. unfold page_of, PAGE_SIZE in *.
  rewrite Z2Nat.id by (apply Z.div_pos; lia). rewrite Z.div_mul by lia. replace (a - q * 4096) with (a + (-q) * 4096) by lia.
  rewrite Z.div_add by lia. lia.
Qed.

Lemma page_of_out base n a h : (PAGE_SIZE | base) → ¬ base ≤ a < base + Z.of_nat n * PAGE_SIZE → (h < n)%nat → page_of a ≠ page_of (page_va base h).
Proof.
  intros [q ->] Ha Hh. rewrite page_of_va by apply Z.divide_factor_r. unfold page_of, PAGE_SIZE in *. rewrite Z.div_mul by lia.
  pose proof (Z.div_mod a 4096 ltac:(lia)). pose proof (Z.mod_pos_bound a 4096 ltac:(lia)). nia.
Qed.

(** The frames of the pages [start..start+n]. *)
Definition page_frames (x : FrameBackedSlot) (start n : nat) : list Z :=
  (λ h, frame (slot_at EMPTY_PAGE (pages x) (start + h))) <$> seq 0 n.

Lemma page_frames_lookup x start n h f : page_frames x start n !! h = Some f → (h < n)%nat ∧ f = frame (slot_at EMPTY_PAGE (pages x) (start + h)).
Proof. unfold page_frames. rewrite list_lookup_fmap_Some. intros (k & -> & [-> Hk]%lookup_seq). done. Qed.

Lemma page_frames_length x start n : length (page_frames x start n) = n.
Proof. unfold page_frames. by rewrite length_fmap, length_seq. Qed.

Lemma page_frames_at x start n h p : (h < n)%nat → pages x !! (start + h)%nat = Some p → page_frames x start n !! h = Some (frame p).
Proof.
  intros Hh Hp. unfold page_frames. rewrite list_lookup_fmap_Some. exists h. rewrite (slot_at_Some _ _ _ _ Hp). split; [done|].
  by apply lookup_seq.
Qed.

Section Extended.
Context (g : Flight) (Hg : ∀ j, ¬ torn_down g j) (private : bool) (i start n : nat) (base : Z) (p : MappingPermissions) (src : nat → Z) (x0 x : FrameBackedSlot) (s0 s : State).
Context (Hx0 : slots s0 !! i = Some x0) (Hx : slots s !! i = Some x) (Hal : (PAGE_SIZE | base)).
Context (H : extended cfg g private i start n (page_va base) (λ f, user_mapping_entry f p) src x0 s0 s).

Lemma extended_page h : (h < n)%nat → ∃ f, pages x !! (start + h)%nat = Some (mkPage f (page_va base h))
  ∧ leaf_of s i (page_va base h) = user_mapping_entry f p ∧ if private then f ∈ owned x ∧ (f ∉ ledger s0) else f = src h.
Proof.
  intros Hh. destruct (ex_state _ _ _ _ _ _ _ _ _ _ _ _ H) as (l & c & P & m' & -> & HP & _ & Ho & Hp).
  rewrite lookup_set_slot with (y := x0) in Hx by done. injection Hx as <-. destruct (Hp h Hh) as (f & H1 & H2 & _ & H3). eauto.
Qed.

Lemma extended_mapped : PAGE_SIZE ≤ base → base + Z.of_nat n * PAGE_SIZE ≤ USER_LIMIT → mapped i base (page_frames x start n) p s0 s.
Proof.
  intros Hlo Hhi. split; rewrite ?page_frames_length; [done|done|intros a Ha|intros a f Ha Hf|intros j a Ha Hout].
  - rewrite (leaf_of_page s0 i a _ (page_of_in base a Hal ltac:(lia))). eapply (ex_new _ _ _ _ _ _ _ _ _ _ _ _ H).
    unfold PAGE_SIZE in *. assert ((a - base) / 4096 < Z.of_nat n) by (apply Z.div_lt_upper_bound; lia).
    assert (0 ≤ (a - base) / 4096) by (apply Z.div_pos; lia). lia.
  - apply page_frames_lookup in Hf as [Hh ->]. rewrite (leaf_of_page s i a _ (page_of_in base a Hal ltac:(lia))).
    destruct (extended_page _ Hh) as (f & Hp & -> & _). by rewrite (slot_at_Some _ _ _ _ Hp).
  - apply (ex_out _ _ _ _ _ _ _ _ _ _ _ _ H); [done..|]. intros -> h Hh. eapply page_of_out; [done|by apply Hout|done].
Qed.

Lemma extended_fresh : private = true → NoDup (page_frames x start n) ∧ Forall (λ f, f ∉ ledger s0) (page_frames x start n).
Proof.
  intros Hpr. assert (Hp : ∀ h, (h < n)%nat → ∃ f, pages x !! (start + h)%nat = Some (mkPage f (page_va base h))
    ∧ f ∈ owned x ∧ (f ∉ ledger s0) ∧ page_va base h ≠ 0).
  { intros h Hh. destruct (extended_page h Hh) as (f & H1 & _ & H2). rewrite Hpr in H2. exists f. split_and!; try apply H2; [done|].
    apply (ex_new _ _ _ _ _ _ _ _ _ _ _ _ H h Hh). }
  split; [apply NoDup_alt; intros h h' f Hf Hf'|apply list.Forall_forall; intros f (h & Hf)%list_elem_of_lookup].
  - apply page_frames_lookup in Hf as [Hh ->]. apply page_frames_lookup in Hf' as [Hh' Heq].
    destruct (Hp h Hh) as (f & H1 & Ho & _ & Hu). destruct (Hp h' Hh') as (f' & H2 & _ & _ & Hu').
    rewrite (slot_at_Some _ _ _ _ H1), (slot_at_Some _ _ _ _ H2) in Heq. simpl in Heq. subst f'.
    pose proof (ex_core _ _ _ _ _ _ _ _ _ _ _ _ H) as C. pose proof (core_space _ _ _ C i x Hx (Hg i)) as Hsp.
    unfold slot_space in Hsp. destruct (root x) as [r|]; [|by destruct (Hsp _ _ H1)].
    destruct (st_owner _ _ _ _ _ Hsp _ _ H1 Hu) as [(_ & _ & Hun)|[(id & _ & Hb)|Hkf]].
    + specialize (Hun _ _ H2 Hu' eq_refl). lia.
    + by destruct (backing_not_owned cfg _ s i x id f C Hx Hb).
    + by destruct (kernel_not_owned cfg _ s i x f C Hx Hkf).
  - apply page_frames_lookup in Hf as [Hh ->]. destruct (Hp h Hh) as (f & H1 & _ & Hf & _). by rewrite (slot_at_Some _ _ _ _ H1).
Qed.

End Extended.

Lemma round_up_pages len len' : round_up_page len = Some len' → 0 ≤ len →
  len' = (len + (PAGE_SIZE - 1)) / PAGE_SIZE * PAGE_SIZE ∧ len' / PAGE_SIZE = (len + (PAGE_SIZE - 1)) / PAGE_SIZE.
Proof.
  intros Hr Hl. destruct (round_up_page_spec len len' Hr Hl) as [Hb [q ->]]. unfold PAGE_SIZE in *. rewrite Z.div_mul by lia.
  assert ((len + (4096 - 1)) / 4096 = q); [|lia]. symmetry. apply (Z.div_unique _ _ q (len + (4096 - 1) - q * 4096)); lia.
Qed.

(** A failed operation that left empty tables and frames. *)
Lemma restored_inv i start n x0 s s' : Inv cfg s → slots s !! i = Some x0 → phase x0 = Committed →
  (∀ j p, range start n j → pages x0 !! j = Some p → ¬ used p) → restored cfg at_rest i start n x0 s s' → Inv cfg s' ∧ leaves_kept s s'.
Proof.
  intros [C Ht] Hx Hph Hun [C' (l & c & P & m' & -> & HP & Hout & Hin) Hl]. split; [split; [done|]|intros j a Ha; by apply Hl; [intros []|]].
  intros j y Hy. simpl in Hy. apply lookup_insert_cases in Hy as [(-> & <- & _)|[_ Hy]]; [|by eapply Ht].
  assert (Hd : ∀ j, range start n j ∨ ¬ range start n j) by (unfold range; lia).
  eapply tidy_same_used; [by eapply Ht|done..|congruence| |]; simpl; intros k p Hk Hu; destruct (Hd k) as [HD|HD].
  - by destruct (Hin k p HD Hk).
  - by rewrite <-Hout.
  - by destruct (Hun k p HD Hk).
  - by rewrite Hout.
Qed.

(** The pool after the last step on slot [i]. *)
Lemma inv_set_slot s0 s i x' m' : Inv cfg s0 → (∃ y, s = set_slot m' i y s0) → Core cfg at_rest (set_slot (memory s) i x' s) → tidy x' →
  Inv cfg (set_slot (memory s) i x' s).
Proof.
  intros [_ Ht] (y & ->) C Hx'. split; [done|]. intros j z Hz. rewrite set_slot_twice in Hz. simpl in Hz.
  apply lookup_insert_cases in Hz as [(-> & <- & _)|[_ Hz]]; [done|by eapply Ht].
Qed.

(** Installing the record of a new mapping over its pages. *)
Lemma installed_tidy g private i start n base v src x0 x s0 s k m0 m : tidy x0 → phase x0 = Committed → slots s0 !! i = Some x0 →
  extended cfg g private i start n (page_va base) v src x0 s0 s → slots s !! i = Some x →
  (∀ j p, range start n j → pages x0 !! j = Some p → ¬ used p) →
  mappings x0 !! k = Some m0 → occupied m0 = false → first_page m = start → mp_page_count m = n →
  memory_size m = Z.of_nat n * PAGE_SIZE → mp_address m = base → heap m = false →
  (∀ h q, (h < n)%nat → pages x !! (start + h)%nat = Some q → frame q ∉ kernel_frames) → tidy (install_mapping k m (start + n) x).
Proof.
  intros T Hph Hx0 H Hx Hun Hk Hm0 <- <- Hsz <- Hheap Hkern.
  destruct (extended_slot _ _ _ _ _ _ _ _ _ _ _ _ H Hx0) as (l & c & P & Hx' & HP & Hout & Hin & _). rewrite Hx' in Hx. injection Hx as <-.
  eapply (tidy_step x0 _ (first_page m) (mp_page_count m) k m0 m); try done; simpl; [congruence| |intros j p HD Hj; unfold range in HD; exfalso; lia|lia| |congruence|].
  - intros j p HD Hp Hu. by destruct (Hun j p HD Hp).
  - intros _. split; [|intros j Hj; by left]. unfold laid_out. rewrite Hsz. split_and!; [unfold PAGE_SIZE; lia| |].
    + unfold PAGE_SIZE. rewrite Z.div_add_l by lia. change ((4096 - 1) / 4096) with 0. lia.
    + intros h Hh. destruct (Hin h Hh) as (f & Hf & Hva & _). eexists. split_and!; [exact Hf|done|done].
  - intros _ j q _ HD Hq. unfold range in HD. apply (Hkern (j - first_page m)%nat); [lia|].
    by replace (first_page m + (j - first_page m))%nat with j by lia.
Qed.

Lemma tidy_count_owned x : tidy x → tidy (count_owned x).
Proof. by intros []. Qed.

Lemma try_u16_Some n m : try_u16 n = Some m → m = n.
Proof. unfold try_u16. destruct (_ <=? _); [congruence|done]. Qed.

Lemma returned_spec x hint len s : 0 ≤ len → 0 ≤ hint →
  wp (returned (find_linux_mmap_base x hint len) : SM Z) (λ base s', s' = s ∧ room x base len) (λ _ s', s' = s) s.
Proof. intros Hl Hh. destruct (find_base_spec (E := E) x hint len Hl Hh) as ([base|e] & -> & Hr); done. Qed.

(** The last step of a private mapping. *)
Lemma finish_private i start n base p k m0 first count len x s s1 R : Inv cfg s → slots s !! i = Some x → phase x = Committed →
  extended cfg at_rest true i start n (page_va base) (λ f, user_mapping_entry f p) (λ _, 0) x s s1 →
  (∀ j q, range start n j → pages x !! j = Some q → ¬ used q) → mappings x !! k = Some m0 → occupied m0 = false →
  (PAGE_SIZE | base) → PAGE_SIZE ≤ base → base + len ≤ USER_LIMIT → len = Z.of_nat n * PAGE_SIZE → first = start → count = n →
  wp (on_slot i (λ slot, count_owned (install_mapping k
        (mkMapping true true true false (generation slot) base len first count p 0 0) (start + n) slot));; mret base : SM Z)
    (λ base s', Inv cfg s' ∧ ∃ fs, NoDup fs ∧ Forall (λ f, f ∉ ledger s) fs ∧ length fs = n ∧ mapped i base fs p s s') R s1.
Proof.
  intros HI Hx Hph He Hun Hk Hm0 Hal Hlo Hhi -> -> ->. pose proof HI as [C Ht].
  destruct (extended_slot _ _ _ _ _ _ _ _ _ _ _ _ He Hx) as (l & c & P & Hx1 & HP & Hout & Hin & _).
  set (x1 := with_owned l c (with_pages P (page_count x) x)) in *. pose proof (ex_core _ _ _ _ _ _ _ _ _ _ _ _ He) as C1.
  wp_step. eapply wp_on_slot; [exact Hx1|]. wp_step. set (m := mkMapping _ _ _ _ _ _ _ _ _ _ _ _).
  fold (set_slot (memory s1) i (count_owned (install_mapping k m (start + n) x1)) s1).
  assert (Hk1 : mappings x1 !! k = Some m0) by done. split.
  - destruct (ex_state _ _ _ _ _ _ _ _ _ _ _ _ He) as (? & ? & ? & m' & Hs1 & _).
    eapply (inv_set_slot s s1 i _ m'); [done|by eexists|..].
    + eapply (core_same_records at_rest s1 i x1); try done; [by intros []|..].
      * eapply (slot_shape_mapping x1 _ k m0 m); try done; simpl; [by eapply C1|congruence|lia|]. intros _. split; [lia|done].
      * intros id Hid. apply (mapcount_insert_same id x1 _ k m0 m); [done..|]. rewrite Hm0. symmetry. by apply Z.eqb_neq.
      * intros h q id _ _. eapply (maps_shared_insert x1 _ k m0 m); [done..|]. congruence.
    + apply tidy_count_owned. eapply installed_tidy; try done; [by eapply Ht|]. intros h q Hh Hq.
      destruct (Hin h Hh) as (f & Hf & _ & Hpr). simpl in Hq. rewrite Hf in Hq. injection Hq as <-. simpl. intros Hkf.
      by eapply (kernel_not_owned cfg _ s1 i x1), Hpr.
  - exists (page_frames x1 start n). destruct (extended_fresh at_rest (λ _ H, H) true i start n base p (λ _, 0) x x1 s s1 Hx Hx1 He eq_refl) as [H1 H2].
    split_and!; [done..|by apply page_frames_length|].
    destruct (extended_mapped at_rest (λ _ H, H) true i start n base p (λ _, 0) x x1 s s1 Hx Hx1 Hal He Hlo Hhi) as [M1 M2 M3 M4 M5].
    split; try done; intros; rewrite (leaf_of_set_slot s1 i x1); eauto.
Qed.

Lemma mmap_private_spec process hint len p initialized s : Inv cfg s → 0 ≤ hint → 0 ≤ len → Forall is_u8 initialized →
  wp (linux_mmap_private cfg process hint len p initialized)
    (λ base s', Inv cfg s' ∧ ∃ fs, NoDup fs ∧ Forall (λ f, f ∉ ledger s) fs ∧ Z.of_nat (length fs) = (len + (PAGE_SIZE - 1)) / PAGE_SIZE
       ∧ mapped (ph_slot process) base fs p s s')
    (λ _ s', Inv cfg s' ∧ leaves_kept s s') s.
Proof.
  intros HI Hhint Hlen Hbytes. pose proof HI as [C Ht]. assert (Hid : Inv cfg s ∧ leaves_kept s s) by (split; [done|by intros ??]).
  unfold linux_mmap_private. wp_step. eapply wp_mono; [apply process_slot_spec| |by intros ? ? ->].
  intros i ? (-> & -> & x & Hx & Hph & _). set (i := ph_slot process) in *.
  do 2 wp_step. wp_step. apply wp_ensure; [intros Hargs|done]. wp_step. apply wp_ok_or; [intros len' Hr|done].
  wp_step. apply wp_ensure; [intros _|done]. rewrite (the_slot_eq cfg s i x Hx).
  wp_step. apply wp_ensure; [intros Hcap|done]. wp_step. apply wp_ok_or; [intros start Hrun|done].
  wp_step. apply wp_ok_or; [intros first Hf%try_u16_Some|done]. wp_step. apply wp_ok_or; [intros count Hc%try_u16_Some|done].
  apply negb_true_iff in Hargs, Hcap. rewrite !orb_false_iff in Hargs, Hcap. destruct Hcap as [[Hcap Hne] _].
  destruct (free_mapping_spec x) as (m0 & Hk & Hm0); [by eapply C|done|]. destruct (free_page_run_spec _ _ _ Hrun) as [Hfit Hun].
  destruct (round_up_pages len len' Hr Hlen) as [Hl1 Hl2]. assert (0 ≤ len') by (apply round_up_page_spec in Hr; lia).
  wp_step. eapply wp_mono; [by apply (returned_spec x hint len' s)| |by intros ? ? ->]. intros base ? (-> & Hal & Hlo & Hhi & _).
  set (n := Z.to_nat (len' / PAGE_SIZE)) in *.
  assert (Hn : Z.of_nat n = (len + (PAGE_SIZE - 1)) / PAGE_SIZE).
  { unfold n. rewrite Hl2, Z2Nat.id; [done|]. apply Z.div_pos; unfold PAGE_SIZE; lia. }
  wp_step. eapply wp_mono.
  - apply (mmap_private_loop_spec cfg at_rest i start n x s); try done; [by intros []|congruence|apply Hargs|unfold PAGE_SIZE in *; lia|].
    by apply extended_nil.
  - intros ? s1 He. eapply wp_mono; [by eapply (finish_private i start n base p (free_mapping x) m0 first count len' x s s1 (λ _ _, False)); rewrite ?Hn| |done].
    + intros ? s' (HI' & fs & H1 & H2 & H3 & H4). split; [done|]. exists fs. rewrite H3. by split_and!.
  - intros ? s' Hre. by eapply restored_inv.
Qed.

(** ** A mapping of shared memory *)

Definition mapping_flight (i start n : nat) (id : Z) : Flight :=
  mkFlight (λ i', if decide (i' = i) then λ k id', range start n k ∧ id' = id else λ _ _, False) (λ _, False) (λ _, 0).

Lemma core_flight g g' s : Core cfg g s → torn_down g' = torn_down g → (∀ id, unaccounted g' id = unaccounted g id) →
  (∀ i x k p id, slots s !! i = Some x → pages x !! k = Some p → used p → mapping_in g i k id → mapping_in g' i k id) → Core cfg g' s.
Proof.
  intros [C1 C2 C3 C4 C5 C6 C7 C8 C9 C10] Ht Hu Hm. split; try done; [|setoid_rewrite Hu; done..].
  intros i x Hx Hn. rewrite Ht in Hn. eapply slot_space_agree; [by apply C5|by intros ? ? ? ?|].
  intros k p id Hk Hus [Hs|Hs] Hb; exists id; (split; [|done]); [by left|right; by eapply Hm].
Qed.

Lemma mapped_kept i base fs p s0 s1 s2 s3 : leaves_kept s0 s1 → mapped i base fs p s1 s2 → leaves_kept s2 s3 → mapped i base fs p s0 s3.
Proof.
  intros H01 [M1 M2 M3 M4 M5] H23. split; try done.
  - intros a Ha. rewrite <-H01; [by apply M3|]. unfold user_address. unfold PAGE_SIZE in *. lia.
  - intros a f Ha Hf. rewrite H23; [by eapply M4|]. apply lookup_lt_Some in Hf. unfold user_address. unfold PAGE_SIZE in *.
    assert (0 ≤ (a - base) / 4096) by (apply Z.div_pos; lia). pose proof (Z.div_mod (a - base) 4096 ltac:(lia)).
    pose proof (Z.mod_pos_bound (a - base) 4096 ltac:(lia)). lia.
  - intros j a Ha Hout. rewrite H23, M5, H01; done.
Qed.

(** The last steps of a shared mapping. *)
Lemma finish_shared i start n base p k m0 len bk b skip x s s1 R : Inv cfg s → slots s !! i = Some x → phase x = Committed →
  shared s !! bk = Some b → sb_occupied b = true →
  extended cfg (mapping_flight i start n (identity b)) false i start n (page_va base) (λ f, user_mapping_entry f p)
    (shared_frame b skip) x s s1 →
  (∀ j q, range start n j → pages x !! j = Some q → ¬ used q) → mappings x !! k = Some m0 → occupied m0 = false →
  len = Z.of_nat n * PAGE_SIZE → (∀ h, (h < n)%nat → shared_frame b skip h ∈ held b) →
  wp (on_backing bk (with_references (S (mapping_references b)));;
      on_slot i (λ slot, install_mapping k
        (mkMapping true true true false (generation slot) base len start n p (identity b) skip) (start + n) slot);; mret base : SM Z)
    (λ base' s', base' = base ∧ Inv cfg s' ∧ leaves_kept s1 s' ∧ shared s' !! bk = Some (with_references (S (mapping_references b)) b)) R s1.
Proof.
  intros HI Hx Hph Hbk Hocc He Hun Hk Hm0 -> Hheld. pose proof HI as [C Ht].
  destruct (extended_slot _ _ _ _ _ _ _ _ _ _ _ _ He Hx) as (l & c & P & Hx1 & HP & Hout & Hin & Hsh & _).
  set (x1 := with_owned l c (with_pages P (page_count x) x)) in *. pose proof (ex_core _ _ _ _ _ _ _ _ _ _ _ _ He) as C1.
  wp_step. assert (Hbk1 : shared s1 !! bk = Some b) by congruence. eapply wp_on_backing; [exact Hbk1|].
  set (b' := with_references _ b). set (s2 := set_backing (memory s1) bk b' s1).
  assert (C2 : Core cfg (set_unaccounted (identity b) 1 (mapping_flight i start n (identity b))) s2).
  { pose proof (core_backing _ _ _ C1 bk b Hbk1) as [B1 B2 B3 B4 B5].
    eapply (core_header cfg (mapping_flight i start n (identity b))); try done.
    - intros _. pose proof (core_references _ _ _ C1 bk b Hbk1 Hocc) as Hr. simpl in *. rewrite Z.eqb_refl. lia.
    - intros z Hz. simpl. by apply Z.eqb_neq in Hz as ->.
    - congruence. }
  wp_step. assert (Hx2 : slots s2 !! i = Some x1) by done. eapply wp_on_slot; [exact Hx2|]. wp_step. set (m := mkMapping _ _ _ _ _ _ _ _ _ _ _ _).
  fold (set_slot (memory s2) i (install_mapping k m (start + n) x1) s2). assert (Hk1 : mappings x1 !! k = Some m0) by done.
  pose proof (core_backing _ _ _ C bk b Hbk) as [_ _ _ _ Hidn]. specialize (Hidn Hocc). split; [done|]. split; [split|split].
  - eapply (core_relabel _ at_rest s2 i x1); try done; [by intros []|..].
    + eapply (slot_shape_mapping x1 _ k m0 m); try done; simpl; [by eapply C1|congruence|lia|]. intros _. split; [lia|done].
    + intros id Hid. pose proof (mapcount_insert id x1 (install_mapping k m (start + n) x1) k m0 m Hk1 eq_refl) as Hmc.
      rewrite Hm0 in Hmc. simpl in *. rewrite Z.eqb_sym. destruct (identity b =? id); simpl in Hmc; lia.
    + intros h q id Hq Hu Hs. left. destruct Hs as [Hs|Hs]; [eapply (maps_shared_insert x1 _ k m0 m); [done..|congruence|exact Hs]|].
      simpl in Hs. rewrite decide_True in Hs by done. destruct Hs as [Hr ->]. split; [done|]. exists k, m. split_and!; try done.
      simpl. apply list_lookup_insert_eq. by eapply lookup_lt_Some.
    + intros j Hj. simpl. by rewrite decide_False.
  - intros j y Hy. simpl in Hy. apply lookup_insert_cases in Hy as [(-> & <- & _)|[Hne Hy]].
    + eapply installed_tidy; try done; [by eapply Ht|]. intros h q Hh Hq Hkf.
      destruct (extended_page _ _ _ _ _ _ _ _ _ _ _ _ Hx Hx1 He h Hh) as (f & Hf & _ & ->). rewrite Hf in Hq. injection Hq as <-. simpl in Hkf.
      eapply (kernel_not_ledger cfg _ s); [done..|]. rewrite (ledger_backing s bk b Hbk). apply elem_of_app. left. by apply Hheld.
    + destruct (ex_state _ _ _ _ _ _ _ _ _ _ _ _ He) as (? & ? & ? & m' & -> & _). simpl in Hy.
      rewrite list_lookup_insert_ne in Hy by done. by eapply Ht.
  - intros j a Ha. by rewrite (leaf_of_set_slot s2 i x1).
  - simpl. apply list_lookup_insert_eq. by eapply lookup_lt_Some.
Qed.

Lemma shared_pages_fit offset len size len' : 0 ≤ offset → 0 ≤ len → Z.land offset (PAGE_SIZE - 1) = 0 → offset + len ≤ size →
  round_up_page len = Some len' →
  Z.of_nat (Z.to_nat (offset / PAGE_SIZE) + Z.to_nat (len' / PAGE_SIZE)) ≤ (size + (PAGE_SIZE - 1)) / PAGE_SIZE.
Proof.
  intros Ho Hl Hal Hs Hr. destruct (round_up_pages len len' Hr Hl) as [_ ->]. unfold PAGE_SIZE in *.
  change (4096 - 1) with (Z.ones 12) in Hal. rewrite Z.land_ones in Hal by lia. change (2 ^ 12) with 4096 in Hal.
  rewrite Nat2Z.inj_add, !Z2Nat.id by (apply Z.div_pos; lia).
  pose proof (Z.div_mod offset 4096 ltac:(lia)) as Hd. rewrite Hal in Hd.
  replace (offset / 4096 + (len + (4096 - 1)) / 4096) with ((offset + (len + (4096 - 1))) / 4096).
  - apply Z.div_le_mono; lia.
  - rewrite Hd at 1. rewrite Z.add_0_r, (Z.mul_comm 4096), Z.div_add_l by lia. done.
Qed.

Lemma shared_frame_lookup b skip h : (skip + h < allocated_pages b)%nat → (allocated_pages b ≤ length (frames b))%nat →
  held b !! (skip + h)%nat = Some (shared_frame b skip h).
Proof.
  intros Hh Hl. unfold held. rewrite lookup_take_lt by done. destruct (lookup_lt_is_Some_2 (frames b) (skip + h)%nat) as [f Hf]; [lia|].
  unfold shared_frame. by rewrite (slot_at_Some _ _ _ _ Hf).
Qed.

Lemma restored_at_rest i start n id x s s' : slots s !! i = Some x → restored cfg (mapping_flight i start n id) i start n x s s' →
  restored cfg at_rest i start n x s s'.
Proof.
  intros Hx [C' Hst Hl]. split; [|done|done]. eapply core_flight; [done..|]. intros j y k q id' Hy Hk Hu Hm. simpl in *.
  destruct (decide (j = i)) as [->|]; [|done]. destruct Hm as [Hr _].
  destruct Hst as (l & c & P & m' & -> & _ & _ & Hin). rewrite lookup_set_slot with (y := x) in Hy by done. injection Hy as <-.
  by eapply (Hin k q Hr).
Qed.

(** The part after the object has its frames. *)
Lemma map_object_spec process bk b hint len len' p skip0 s : Inv cfg s → 0 ≤ hint → 0 ≤ len → round_up_page len = Some len' →
  wx_free p → shared s !! bk = Some b → sb_occupied b = true → (skip0 + Z.to_nat (len' / PAGE_SIZE) ≤ allocated_pages b)%nat →
  (∃ x, slots s !! ph_slot process = Some x ∧ phase x = Committed) →
  wp (slot ← get_slot cfg (ph_slot process);
      let needed := Z.to_nat (len' / PAGE_SIZE) in
      let k := free_mapping slot in
      ensure (negb ((length (mappings slot) <=? k)%nat || (needed =? 0)%nat)) CapacityExceeded;;
      start ← ok_or (free_page_run slot needed) CapacityExceeded;
      first ← ok_or (try_u16 start) CapacityExceeded;
      count ← ok_or (try_u16 needed) CapacityExceeded;
      skip ← ok_or (try_u16 skip0) CapacityExceeded;
      base ← returned (find_linux_mmap_base slot hint len');
      mmap_shared_loop cfg needed (ph_slot process) bk start base p skip 0;;
      on_backing bk (with_references (S (mapping_references b)));;
      on_slot (ph_slot process) (λ slot, install_mapping k
        (mkMapping true true true false (generation slot) base len' first count p (identity b) skip) (start + needed) slot);;
      mret base : SM Z)
    (λ base s', Inv cfg s' ∧ ∃ fs b', shared s' !! bk = Some b' ∧ sb_occupied b' = true ∧ identity b' = identity b
       ∧ (∀ h, (h < length fs)%nat → fs !! h = held b' !! (skip0 + h)%nat)
       ∧ Z.of_nat (length fs) = (len + (PAGE_SIZE - 1)) / PAGE_SIZE ∧ mapped (ph_slot process) base fs p s s')
    (λ _ s', Inv cfg s' ∧ leaves_kept s s') s.
Proof.
  intros HI Hhint Hlen Hr Hp Hbk Hocc Hheld (x & Hx & Hph). pose proof HI as [C Ht]. set (i := ph_slot process) in *.
  assert (Hid : Inv cfg s ∧ leaves_kept s s) by (split; [done|by intros ??]).
  wp_step. eapply wp_get_slot; [exact Hx|]. cbv zeta. wp_step. apply wp_ensure; [intros Hcap|done].
  wp_step. apply wp_ok_or; [intros start Hrun|done].
  wp_step. apply wp_ok_or; [intros first Hf%try_u16_Some|done]. wp_step. apply wp_ok_or; [intros count Hc%try_u16_Some|done].
  wp_step. apply wp_ok_or; [intros skip Hs%try_u16_Some|done]. subst first count skip.
  apply negb_true_iff in Hcap. rewrite !orb_false_iff in Hcap. destruct Hcap as [Hcap Hne].
  destruct (free_mapping_spec x) as (m0 & Hk & Hm0); [by eapply C|done|]. destruct (free_page_run_spec _ _ _ Hrun) as [Hfit Hun].
  destruct (round_up_pages len len' Hr Hlen) as [Hl1 Hl2]. assert (0 ≤ len') by (apply round_up_page_spec in Hr; lia).
  wp_step. eapply wp_mono; [by apply (returned_spec x hint len' s)| |by intros ? ? ->]. intros base ? (-> & Hal & Hlo & Hhi & _).
  set (n := Z.to_nat (len' / PAGE_SIZE)) in *.
  assert (Hn : Z.of_nat n = (len + (PAGE_SIZE - 1)) / PAGE_SIZE).
  { unfold n. rewrite Hl2, Z2Nat.id; [done|]. apply Z.div_pos; unfold PAGE_SIZE; lia. }
  set (g := mapping_flight i start n (identity b)).
  assert (C1 : Core cfg g s) by (by eapply core_flight).
  pose proof (core_backing _ _ _ C bk b Hbk) as HB.
  wp_step. eapply wp_mono.
  - eapply (mmap_shared_loop_spec cfg g i start n x s); try done.
    + by intros [].
    + congruence.
    + by rewrite (bs_frames _ HB), (bs_pages _ HB).
    + intros j Hj. simpl. by rewrite decide_True.
    + unfold PAGE_SIZE in *. lia.
    + by apply extended_nil.
  - intros ? s1 He. eapply wp_mono; [eapply (finish_shared i start n base p (free_mapping x) m0 len' bk b skip0 x s s1 (λ _ _, False)); rewrite ?Hn; try done| |done].
    { intros h Hh. eapply shared_frame_held; [exact Hheld|by rewrite (bs_frames _ HB), (bs_pages _ HB)|done]. }
    intros ? s' (-> & HI' & Hk' & Hb'). split; [done|].
    destruct (extended_slot _ _ _ _ _ _ _ _ _ _ _ _ He Hx) as (l & c & P & Hx1 & _).
    eexists (page_frames _ start n), _. split; [exact Hb'|]. split_and!; [done..| | |].
    + intros h Hh. rewrite page_frames_length in Hh.
      destruct (extended_page g false i start n base p (shared_frame b skip0) x _ s s1 Hx Hx1 He h Hh) as (f & Hf & _ & ->).
      transitivity (Some (shared_frame b skip0 h)); [by apply page_frames_at with (p := mkPage (shared_frame b skip0 h) (page_va base h))|].
      symmetry. apply (shared_frame_lookup b skip0 h); [lia|by rewrite (bs_frames _ HB), (bs_pages _ HB)].
    + by rewrite page_frames_length.
    + eapply mapped_kept; [by intros ??|eapply (extended_mapped g (λ _ H, H) false i start n base p (shared_frame b skip0) x _ s s1); try done|done].
      rewrite Hn, <-Hl1. done.
  - intros ? s' Hre. eapply restored_inv; [done..|]. eapply restored_at_rest; [exact Hx|exact Hre].
Qed.

Lemma mmap_shared_spec process id hint len offset p s : Inv cfg s → 0 ≤ hint → 0 ≤ len → 0 ≤ offset →
  wp (linux_mmap_shared cfg process id hint len offset p)
    (λ base s', Inv cfg s' ∧ ∃ fs bk b, shared s' !! bk = Some b ∧ sb_occupied b = true ∧ identity b = id
       ∧ (∀ h, (h < length fs)%nat → fs !! h = held b !! (Z.to_nat (offset / PAGE_SIZE) + h)%nat)
       ∧ Z.of_nat (length fs) = (len + (PAGE_SIZE - 1)) / PAGE_SIZE ∧ mapped (ph_slot process) base fs p s s')
    (λ _ s', Inv cfg s' ∧ leaves_kept s s') s.
Proof.
  intros HI Hhint Hlen Hoff. pose proof HI as [C Ht]. assert (Hid : Inv cfg s ∧ leaves_kept s s) by (split; [done|by intros ??]).
  unfold linux_mmap_shared. wp_step. eapply wp_mono; [apply process_slot_spec| |by intros ? ? ->].
  intros i ? (-> & -> & x & Hx & Hph & _).
  do 2 wp_step. wp_step. apply wp_ensure; [intros Hargs|done]. wp_step. apply wp_ok_or; [intros bk Hbk|done].
  apply opened_spec in Hbk as (b & Hbk & Hocc & _ & <-). rewrite (the_backing_eq s bk b Hbk).
  wp_step. apply wp_ensure; [intros Hsize|done]. wp_step. apply wp_ok_or; [intros references ->%try_u16_Some|done].
  wp_step. apply wp_ok_or; [intros len' Hr|done]. wp_step. apply wp_ensure; [intros Hmax%Nat.leb_le|done].
  apply negb_true_iff in Hargs. rewrite !orb_false_iff in Hargs. destruct Hargs as [[[[[[_ _] _] _] Hal] _] Hp].
  apply negb_false_iff, Z.eqb_eq in Hal.
  destruct (checked_add U64_MAX offset len) as [stop|] eqn:Hstop; [|done]. apply checked_add_Some in Hstop as [-> _]. apply Z.leb_le in Hsize.
  wp_step. eapply wp_mono.
  - eapply (ensure_shared_frames_spec cfg at_rest bk _ s b); try done. by apply (shared_pages_fit offset len).
  - intros ? s1 Hre. pose proof (inv_backing_only cfg s s1 bk HI (proj1 Hre) (reframed_only _ _ _ _ _ _ _ Hre)) as HI1.
    pose proof (backing_only_kept s s1 bk (reframed_only _ _ _ _ _ _ _ Hre)) as Hk1. destruct Hre as (_ & _ & fs & m' & Hs1 & _).
    eapply wp_mono; [eapply (map_object_spec process bk (with_frames _ fs b) hint len len' p _ s1); try done|..].
    + rewrite Hs1. by eapply lookup_set_backing.
    + simpl. apply Nat.le_max_r.
    + exists x. by rewrite Hs1.
    + intros base s' (HI' & fs' & b' & H1 & H2 & H3 & H4 & H5 & H6). split; [done|]. exists fs', bk, b'. split_and!; try done.
      eapply mapped_kept; [exact Hk1|exact H6|by intros ??].
    + intros ? s' [HI' Hk']. split; [done|]. intros j h Hh. rewrite Hk', Hk1; done.
  - intros ? s1 Hre. pose proof (reframed_only _ _ _ _ _ _ _ Hre) as Ho. split; [exact (inv_backing_only cfg s s1 bk HI (proj1 Hre) Ho)|].
    exact (backing_only_kept s s1 bk Ho).
Qed.

(** ** Removing a mapping *)

(** Nothing is mapped in a range of process [i] any more, and every other page
    is as it was. *)
Definition unmapped_range (i : nat) (address size : Z) (s s' : State) : Prop :=
  (∀ a, user_address a → address ≤ a < address + size → leaf_of s' i a = 0)
  ∧ ∀ j a, user_address a → (j = i → ¬ address ≤ a < address + size) → leaf_of s' j a = leaf_of s j a.

(** What is in flight after the reference of a mapping was dropped. *)
Definition dropped (m : MappingRecord) : Flight :=
  if shared_identity m =? 0 then at_rest else set_unaccounted (shared_identity m) (-1) at_rest.

Lemma core_remove s i x k m : Core cfg (dropped m) s → slots s !! i = Some x → phase x = Committed → mappings x !! k = Some m → occupied m = true →
  (∀ j p, covers m j → pages x !! j = Some p → ¬ used p) →
  Core cfg at_rest (set_slot (memory s) i (count_owned (set_mapping k EMPTY_MAPPING x)) s).
Proof.
  intros C Hx Hph Hk Ho Hun. assert (Ht : torn_down (dropped m) = torn_down at_rest ∧ mapping_in (dropped m) = mapping_in at_rest).
  { unfold dropped. by destruct (_ =? _). }
  destruct Ht as [Ht Hm]. eapply (core_relabel (dropped m) at_rest s i x); try done; [rewrite Ht; by intros []|..].
  - eapply (slot_shape_mapping x _ k m EMPTY_MAPPING); try done; [by eapply C|simpl; congruence].
  - intros id Hid. pose proof (mapcount_insert id x (set_mapping k EMPTY_MAPPING x) k m EMPTY_MAPPING Hk eq_refl) as Hc.
    rewrite Ho in Hc. change (mapcount id (count_owned (set_mapping k EMPTY_MAPPING x))) with (mapcount id (set_mapping k EMPTY_MAPPING x)).
    unfold dropped. simpl in *. rewrite (Z.eqb_sym (shared_identity m) id) in Hc.
    destruct (Z.eqb_spec (shared_identity m) 0) as [Hz|Hz]; simpl in *; destruct (Z.eqb_spec id (shared_identity m)); simpl in *; lia.
  - intros n p id Hp Hu [Hs|Hs]; [left|by rewrite Hm in Hs]. eapply (maps_shared_insert x _ k m EMPTY_MAPPING); try done.
    intros _ _ Hc. by destruct (Hun n p Hc Hp).
  - intros j Hj. by rewrite Hm, Ht.
Qed.

Section Munmap.
Context (i k : nat) (x : FrameBackedSlot) (m : MappingRecord) (s : State).
Context (HI : Inv cfg s) (Hx : slots s !! i = Some x) (Hph : phase x = Committed) (Hk : mappings x !! k = Some m) (Ho : occupied m = true).
Context (Hal : (PAGE_SIZE | mp_address m)).

Lemma munmap_laid_out : laid_out (pages x) m.
Proof. destruct HI as [_ Ht]. by eapply (td_pages x); [eapply Ht|..]. Qed.

Lemma munmap_not_foreign off n : shared_identity m = 0 → (off + n ≤ mp_page_count m)%nat → ¬ foreign_record x (first_page m + off) n.
Proof.
  intros Hz Hoff (p & (j & Hj & Hp & Hu) & Hf). destruct HI as [C Ht].
  pose proof (core_space _ _ _ C i x Hx ltac:(intros [])) as Hsp. unfold slot_space in Hsp. destruct (root x) as [r|]; [|by eapply (Hsp j)].
  destruct (st_owner _ _ _ _ _ Hsp j p Hp Hu) as [(Hin & _)|[(id & [(Hid & j' & m' & Hj' & Ho' & Hi' & Hc)|[]] & _)|Hkf]]; [done| |].
  2: { eapply (td_kernel x (Ht i x Hx) k m j p); try done. unfold covers, range in *. lia. }
  assert (k = j') as ->; [|congruence]. eapply (td_apart x (Ht i x Hx) k j' m m' j); try done. unfold covers, range in *. lia.
Qed.

(** Pages of a mapping were unmapped. *)
Lemma munmap_range private off n s' : (off + n ≤ mp_page_count m)%nat → unmapped cfg at_rest private i (range (first_page m + off) n) x s s' →
  unmapped_range i (mp_address m + Z.of_nat off * PAGE_SIZE) (Z.of_nat n * PAGE_SIZE) s s'.
Proof.
  intros Hoff Hu. destruct munmap_laid_out as (_ & _ & Hl). assert (Hal' : (PAGE_SIZE | mp_address m + Z.of_nat off * PAGE_SIZE)).
  { apply Z.divide_add_r; [done|apply Z.divide_factor_r]. }
  assert (Hat : ∀ h, (h < n)%nat → ∃ p, pages x !! (first_page m + off + h)%nat = Some p ∧ used p
    ∧ pg_address p = page_va (mp_address m + Z.of_nat off * PAGE_SIZE) h).
  { intros h Hh. destruct (Hl (off + h)%nat ltac:(lia)) as (p & Hp & Hus & Hpa). exists p. rewrite Nat.add_assoc in Hp. split_and!; [done..|].
    rewrite Hpa. unfold page_va. lia. }
  set (base := mp_address m + Z.of_nat off * PAGE_SIZE) in *. split.
  - intros a Hua Ha. assert (Hq : 0 ≤ (a - base) / PAGE_SIZE < Z.of_nat n).
    { unfold PAGE_SIZE in *. split; [apply Z.div_pos; lia|apply Z.div_lt_upper_bound; lia]. }
    destruct (Hat (Z.to_nat ((a - base) / PAGE_SIZE)) ltac:(lia)) as (p & Hp & Hus & Hpa).
    eapply (um_in _ _ _ _ _ _ _ _ Hu); [done|eexists; split; [|done]; unfold range; lia|]. rewrite Hpa. exact (page_of_in base a Hal' ltac:(lia)).
  - intros j a Ha Hout. apply (um_out _ _ _ _ _ _ _ _ Hu); [by intros []|done|]. intros -> p (h & Hh & Hp & Hus). unfold range in Hh.
    destruct (Hat (h - (first_page m + off))%nat ltac:(lia)) as (q & Hq & _ & Hqa).
    replace (first_page m + off + (h - (first_page m + off)))%nat with h in Hq by lia. assert (q = p) as -> by congruence.
    rewrite Hqa. eapply (page_of_out base n); [done|by apply Hout|lia].
Qed.

(** The pages are gone; the record goes. *)
Lemma finish_munmap private s1 s2 x1 : unmapped cfg at_rest private i (range (first_page m) (mp_page_count m)) x s s1 →
  slots s1 !! i = Some x1 → Core cfg (dropped m) s2 → slots s2 = slots s1 → leaves_kept s1 s2 →
  let s' := set_slot (memory s2) i (count_owned (set_mapping k EMPTY_MAPPING x1)) s2 in
  Inv cfg s' ∧ unmapped_range i (mp_address m) (Z.of_nat (mp_page_count m) * PAGE_SIZE) s s'.
Proof.
  intros Hu Hx1 C2 Hsl Hkept. destruct (shrunk_slot _ _ _ _ _ _ _ (um_shrunk _ _ _ _ _ _ _ _ Hu) Hx)
    as (y & Hy & Hr & Hp & Hm & _ & Hpc & _ & Hinfo & [_ Hst] & _ & Hus & Hout & _ & _ & Hs1).
  assert (y = x1) as -> by congruence. assert (Hx2 : slots s2 !! i = Some x1) by congruence.
  split; [split|].
  - eapply core_remove; try done; [congruence..|]. intros j p Hj. by eapply (um_records _ _ _ _ _ _ _ _ Hu).
  - intros j z Hz. simpl in Hz. rewrite Hsl in Hz. apply lookup_insert_cases in Hz as [(-> & <- & _)|[Hne Hz]].
    + eapply (tidy_step x _ (first_page m) (mp_page_count m) k m EMPTY_MAPPING); try done; simpl; try congruence.
      * destruct HI as [_ Ht]. by eapply Ht.
      * intros h p Hh _. by eapply (um_records _ _ _ _ _ _ _ _ Hu).
      * lia.
    + rewrite Hs1 in Hz. simpl in Hz. rewrite list_lookup_insert_ne in Hz by done. destruct HI as [_ Ht]. by eapply Ht.
  - destruct (munmap_range private 0 (mp_page_count m) s1) as [H1 H2]; [lia|by rewrite Nat.add_0_r|]. rewrite Z.add_0_r in *. assert (Hl : ∀ j a, leaf_of (set_slot (memory s2) i (count_owned (set_mapping k EMPTY_MAPPING x1)) s2) j a = leaf_of s2 j a).
    { intros j a. by apply (leaf_of_set_slot s2 i x1). }
    split; intros; rewrite Hl, Hkept; auto.
Qed.

(** The object's reference is dropped: once it is the last one, no page maps
    the object. *)
Lemma drop_after_unmap private s1 x1 : unmapped cfg at_rest private i (range (first_page m) (mp_page_count m)) x s s1 → slots s1 !! i = Some x1 →
  wp ((if shared_identity m =? 0 then mret tt else drop_shared_mapping_reference (shared_identity m)) : SM unit)
    (λ _ s2, Core cfg (dropped m) s2 ∧ slots s2 = slots s1 ∧ leaves_kept s1 s2 ∧ (shared_identity m = 0 → s2 = s1)) (λ _ _, False) s1.
Proof.
  intros Hu Hx1. pose proof (sk_core _ _ _ _ _ _ _ (um_shrunk _ _ _ _ _ _ _ _ Hu)) as C1. unfold dropped.
  destruct (Z.eqb_spec (shared_identity m) 0) as [Hz|Hz]; [wp_step; split_and!; try done; by intros ??|].
  destruct (shrunk_slot _ _ _ _ _ _ _ (um_shrunk _ _ _ _ _ _ _ _ Hu) Hx) as (y & Hy & _ & _ & Hm & _).
  assert (y = x1) as -> by congruence. assert (Hk1 : mappings x1 !! k = Some m) by congruence.
  assert (Hpos : (0 < mapped_count (shared_identity m) s1)%nat).
  { pose proof (sum_le (mapcount (shared_identity m)) (slots s1) i x1 Hx1). unfold mapped_count.
    assert (0 < mapcount (shared_identity m) x1)%nat; [|lia]. eapply countb_pos; [exact Hk1|]. by rewrite Ho, Z.eqb_refl. }
  eapply wp_mono; [eapply (drop_reference_spec cfg at_rest s1 (shared_identity m)); try done; [simpl; lia|]| |done].
  - simpl. intros H1 j z n p Hz' _ Hp Hus [Hs|[]].
    destruct (sole_mapping s1 i k x1 m j z n (shared_identity m)) as [-> Hc]; try done; [lia|].
    assert (z = x1) as -> by congruence. by eapply (um_records _ _ _ _ _ _ _ _ Hu x1 n p).
  - intros ? s2 [C2 (kb & Hb)]. split_and!; [done| |by eapply backing_only_kept|done]. by destruct Hb as [(b' & m' & ->) _].
Qed.

End Munmap.

Lemma page_aligned a : Z.land a (PAGE_SIZE - 1) = 0 ↔ (PAGE_SIZE | a).
Proof. change (PAGE_SIZE - 1) with (Z.ones 12). rewrite Z.land_ones by lia. by apply Z.mod_divide. Qed.

(** The handle is live, no image is being staged, and the range is one mapping
    that may be removed. *)
Definition unmap_allowed (process : ProcessImageHandle) (address len : Z) (s : State) : Prop :=
  ∃ x k m len', slots s !! ph_slot process = Some x ∧ phase x = Committed ∧ generation x = ph_generation process ∧ active_slot s = None
    ∧ (PAGE_SIZE | address) ∧ 0 < len ∧ round_up_page len = Some len' ∧ mappings x !! k = Some m ∧ unmaps (generation x) address len' m = true.

Lemma munmap_spec process address len s : Inv cfg s → 0 ≤ len →
  wp (linux_munmap cfg process address len)
    (λ _ s', Inv cfg s' ∧ ∃ x k m, slots s !! ph_slot process = Some x ∧ mappings x !! k = Some m ∧ occupied m = true ∧ releasable m = true ∧ mp_address m = address
       ∧ unmapped_range (ph_slot process) address ((len + (PAGE_SIZE - 1)) / PAGE_SIZE * PAGE_SIZE) s s'
       ∧ (shared_identity m = 0 → ∀ j p, covers m j → pages x !! j = Some p → ¬ live (memory s') (frame p)))
    (λ _ s', s' = s ∧ ¬ unmap_allowed process address len s) s.
Proof.
  intros HI Hlen. pose proof HI as [C Ht]. unfold linux_munmap. wp_step. eapply wp_mono; [apply process_slot_spec'| |].
  2: { intros ? ? [-> Hno]. split; [done|]. intros (x & k & m & len' & Hx & Hph & Hg & _). by apply (Hno x). }
  intros i ? (-> & -> & x & Hx & Hph & Hgen). set (i := ph_slot process) in *.
  do 2 wp_step. wp_step. apply wp_ensure; [intros Hargs|].
  2: { intros Hargs%negb_false_iff. split; [done|]. intros (_ & _ & _ & _ & _ & _ & _ & Hact & Hal & Hl & _). rewrite Hact, bool_decide_eq_false_2 in Hargs by (by intros []).
    rewrite (proj2 (Z.eqb_eq _ 0) (proj2 (page_aligned address) Hal)), (proj2 (Z.eqb_neq len 0) ltac:(lia)) in Hargs. done. }
  wp_step. apply wp_ok_or; [intros len' Hr|].
  2: { intros Hr. split; [done|]. intros (_ & _ & _ & len' & _ & _ & _ & _ & _ & _ & Hr' & _). congruence. }
  rewrite (the_slot_eq cfg s i x Hx). wp_step. apply wp_ok_or; [intros k (m & Hk & Hun)%position_lookup|].
  2: { intros Hp. split; [done|]. intros (x' & k & m & len2 & Hx' & _ & _ & _ & _ & _ & Hr' & Hk & Hm). fold i in Hx'. assert (x' = x) as -> by congruence.
    assert (len2 = len') as -> by congruence. rewrite (proj1 (position_None _ _) Hp k m Hk) in Hm. done. }
  rewrite (slot_at_Some _ _ _ _ Hk). unfold unmaps in Hun. rewrite !andb_true_iff in Hun. destruct Hun as [[[[Ho Hrel] _] Ha] Hs].
  apply Z.eqb_eq in Ha, Hs. apply negb_true_iff in Hargs. rewrite !orb_false_iff in Hargs. destruct Hargs as [[_ Hal] Hne%Z.eqb_neq].
  apply negb_false_iff, Z.eqb_eq, page_aligned in Hal. subst address.
  destruct (round_up_pages len len' Hr Hlen) as [Hl _]. pose proof (munmap_laid_out i k x m s HI Hx Hk Ho) as (Hs0 & Hcount & Hpages).
  assert (Hcnt : Z.of_nat (mp_page_count m) * PAGE_SIZE = (len + (PAGE_SIZE - 1)) / PAGE_SIZE * PAGE_SIZE).
  { rewrite Hcount, Hs, Hl. unfold PAGE_SIZE. rewrite Z.div_add_l by lia. change ((4096 - 1) / 4096) with 0. lia. }
  wp_step. eapply wp_mono.
  - eapply (munmap_loop_spec cfg at_rest (shared_identity m =? 0) _ i (first_page m) s x); try done; [by intros []|congruence|].
    assert (1 ≤ (len + (PAGE_SIZE - 1)) / PAGE_SIZE) by (apply Z.div_le_lower_bound; unfold PAGE_SIZE; lia).
    destruct (Hpages (mp_page_count m - 1)%nat ltac:(unfold PAGE_SIZE in *; lia)) as (p & Hp & _). apply lookup_lt_Some in Hp. lia.
  - intros ? s1 Hu. assert (∃ x1, slots s1 !! i = Some x1) as [x1 Hx1].
    { destruct (shrunk_slot _ _ _ _ _ _ _ (um_shrunk _ _ _ _ _ _ _ _ Hu) Hx) as (y & Hy & _). eauto. }
    wp_step. eapply wp_mono; [eapply (drop_after_unmap i k x m s Hx Hk Ho _ s1 x1 Hu Hx1)| |done]. intros ? s2 (C2 & Hsl & Hkept & Hpriv).
    eapply wp_on_slot; [rewrite Hsl; exact Hx1|]. destruct (finish_munmap i k x m s HI Hx Hph Hk Ho Hal _ s1 s2 x1 Hu Hx1 C2 Hsl Hkept) as [HI' Hrange].
    split; [exact HI'|]. exists x, k, m. split_and!; try done; [by rewrite <-Hcnt|].
    intros Hz j p Hj Hp. simpl. rewrite (Hpriv Hz). intros [_ Hlive]%(um_live _ _ _ _ _ _ _ _ Hu).
    eapply Hlive; [by rewrite Hz| |done]. exists j. destruct (Hpages (j - first_page m)%nat) as (q & Hq & Hus & _); [unfold covers in Hj; lia|].
    replace (first_page m + (j - first_page m))%nat with j in Hq by (unfold covers in Hj; lia). by assert (q = p) as -> by congruence.
  - intros ? s' (_ & Hz%Z.eqb_eq & Hf). destruct (munmap_not_foreign i k x m s HI Hx Hk Ho 0 (mp_page_count m) Hz); [lia|by rewrite Nat.add_0_r].
Qed.

End Ops.
