(* ===== verification/SpaceHeap.v ===== *)
(** * The heap of a process

    [linux_brk] of process/x86_64.rs moves the end of the heap: it maps or
    unmaps exactly the pages between the old and the new break, and changes no
    page of any process where it fails. *)

From stdpp Require Import prelude list numbers.
From Stdlib Require Import ZArith Lia.
From S2P Require Import Prelude.
From S2P Require Import Wp.
From S2P Require Import AddressSpace.
From S2P Require Import PageTree.
From S2P Require Import SpaceInv.
From S2P Require Import SpaceSteps.
From S2P Require Import SpaceBase.
From S2P Require Import SpacePages.
From S2P Require Import SpaceShared.
From S2P Require Import SpaceOps.

Section Heap.
Context {Mem E : Type} `{!FrameMemory Mem E, KF : !KernelFrames, !FrameMemoryLaws Mem E} (cfg : Config).
Context (Hcfg : Z.of_nat (MAXIMUM_PROCESS_PAGES cfg) ≤ U16_MAX).
Abbreviation State := (FrameBackedAddressSpace Mem).
Abbreviation SM := (M State (FrameBackedError E)).
Implicit Types (s : State).

(** The heap's mapping and its pages. *)
Definition heap_record (x : FrameBackedSlot) : option nat :=
  position (λ m, occupied m && heap m && (mp_generation m =? generation x)) (mappings x).
Definition heap_pages (x : FrameBackedSlot) : nat :=
  match heap_record x with Some k => mp_page_count (slot_at EMPTY_MAPPING (mappings x) k) | None => O end.

(** The first page after the heap's [n] pages. *)
Definition heap_end (n : nat) : Z := LINUX_BRK_BASE + Z.of_nat n * PAGE_SIZE.

(** The heap had [current] pages and has [desired]: those between were mapped
    to fresh frames, or unmapped; nothing else changed. *)
Definition heap_resized (i current desired : nat) (s s' : State) : Prop :=
  (desired = current ∧ leaves_kept s s')
  ∨ ((desired < current)%nat ∧ unmapped_range i (heap_end desired) (Z.of_nat (current - desired) * PAGE_SIZE) s s')
  ∨ ((current < desired)%nat ∧ ∃ fs, NoDup fs ∧ Forall (λ f, f ∉ ledger s) fs ∧ length fs = (desired - current)%nat
       ∧ mapped i (heap_end current) fs HEAP_PERMISSIONS s s').

(** The break and the extent of the heap as recorded. *)
Definition break_at (i : nat) (requested : Z) (n : nat) (s : State) : Prop :=
  ∃ x, slots s !! i = Some x ∧ heap_break x = requested ∧ heap_pages x = n.

Lemma heap_end_aligned n : (PAGE_SIZE | heap_end n).
Proof. exists (LINUX_BRK_BASE / PAGE_SIZE + Z.of_nat n). unfold heap_end. change (LINUX_BRK_BASE / PAGE_SIZE) with 131072. unfold LINUX_BRK_BASE, PAGE_SIZE. lia. Qed.

Lemma heap_va current h : page_va LINUX_BRK_BASE (current + h) = page_va (heap_end current) h.
Proof. unfold page_va, heap_end. lia. Qed.

Lemma heap_record_spec x k : heap_record x = Some k → ∃ m, mappings x !! k = Some m ∧ occupied m = true ∧ heap m = true ∧ slot_at EMPTY_MAPPING (mappings x) k = m.
Proof.
  intros (m & Hk & [[H1 H2]%andb_true_iff _]%andb_true_iff)%position_lookup. exists m. by rewrite (slot_at_Some _ _ _ _ Hk).
Qed.

(** The record of the heap is replaced, or is a new one. *)
Lemma heap_pages_insert x x' k m : mappings x' = <[k := m]> (mappings x) → generation x' = generation x → (k < length (mappings x))%nat →
  (∀ h, heap_record x = Some h → h = k) → occupied m = true → heap m = true → mp_generation m = generation x → heap_pages x' = mp_page_count m.
Proof.
  intros Hm Hg Hk Hrec H1 H2 H3. unfold heap_pages. assert (heap_record x' = Some k) as ->; [|by rewrite Hm, (slot_at_Some _ _ _ m) by by apply list_lookup_insert_eq].
  unfold heap_record. rewrite Hm, Hg. apply position_Some. exists m. split_and!.
  - by apply list_lookup_insert_eq.
  - rewrite H1, H2, H3. simpl. apply Z.eqb_refl.
  - intros j y Hj Hy. rewrite list_lookup_insert_ne in Hy by lia. unfold heap_record in Hrec.
    destruct (position _ _) as [h|] eqn:Hp.
    + rewrite (Hrec h eq_refl) in Hp. apply position_Some in Hp as (? & _ & _ & Hp). by eapply (Hp j).
    + by eapply position_None in Hp.
Qed.

Lemma heap_record_generation x k m : heap_record x = Some k → mappings x !! k = Some m → mp_generation m = generation x.
Proof. intros (m' & Hk & [_ ?%Z.eqb_eq]%andb_true_iff)%position_lookup Hm. congruence. Qed.

(** The entries of a mapped heap page. *)
Lemma extended_heap g i start n current x s s' :
  extended cfg g true i start n (λ h, page_va LINUX_BRK_BASE (current + h))
    (λ f, Z.lor (Z.lor (Z.lor (Z.lor f ENTRY_PRESENT) ENTRY_USER) ENTRY_WRITABLE) ENTRY_NO_EXECUTE) (λ _, 0) x s s' →
  extended cfg g true i start n (page_va (heap_end current)) (λ f, user_mapping_entry f HEAP_PERMISSIONS) (λ _, 0) x s s'.
Proof.
  intros [H1 H2 H3 H4]. setoid_rewrite heap_va in H2. setoid_rewrite heap_va in H3. setoid_rewrite heap_va in H4. split; try done.
  destruct H2 as (l & c & P & m' & Hs & HP & Hout & Ho & Hp). exists l, c, P, m'. split_and!; try done.
  intros h Hh. destruct (Hp h Hh) as (f & Hf & Hl & Hform & Hin). exists f.
  assert (Hland : Z.land f PAGE_ADDRESS_MASK = f).
  { destruct Hform as [<- _]. by rewrite <-Z.land_assoc, Z.land_diag. }
  rewrite (proj1 (heap_entry_form f Hland)) in *. done.
Qed.

(** What the record of the heap was before it grew. *)
Definition grows_from (m0 : MappingRecord) (first current : nat) : Prop :=
  (occupied m0 = false ∧ current = O)
  ∨ (occupied m0 = true ∧ heap m0 = true ∧ first_page m0 = first ∧ mp_page_count m0 = current).

Section FinishGrow.
Context (i k first current desired : nat) (m0 m : MappingRecord) (x x1 x' : FrameBackedSlot) (s s1 : State).
Context (HI : Inv cfg s) (Hx : slots s !! i = Some x) (Hph : phase x = Committed) (Hk : mappings x !! k = Some m0).
Context (Hm0 : grows_from m0 first current) (Hlt : (current < desired)%nat) (Hmax : (desired ≤ 4096)%nat).
Context (He : extended cfg at_rest true i (first + current) (desired - current) (page_va (heap_end current))
                (λ f, user_mapping_entry f HEAP_PERMISSIONS) (λ _, 0) x s s1).
Context (Hun : ∀ j p, range (first + current) (desired - current) j → pages x !! j = Some p → ¬ used p).
Context (Hx1 : slots s1 !! i = Some x1).
Context (Hroot : root x' = root x1) (Hpages : pages x' = pages x1) (Hof : owned_frames x' = owned_frames x1).
Context (Hoc : owned_frame_count x' = owned_frame_count x1) (Hphase : phase x' = phase x1).
Context (Hinfo : address_space_root (process_info x') = address_space_root (process_info x1)).
Context (Hstack : initial_stack_pages x' = initial_stack_pages x1).
Context (Hmaps : mappings x' = <[k := m]> (mappings x1)) (Hmc : (mapping_count x1 ≤ mapping_count x')%nat) (Hkc : (k < mapping_count x')%nat).
Context (Hpc : page_count x' = (page_count x1 `max` (first + desired))%nat).
Context (Hocc : occupied m = true) (Hheap : heap m = true) (Haddr : mp_address m = LINUX_BRK_BASE).
Context (Hsize : memory_size m = Z.of_nat desired * PAGE_SIZE) (Hfirst : first_page m = first) (Hcount : mp_page_count m = desired).
Context (Hshared : shared_identity m = 0).

Lemma grow_slot : ∃ l c P, x1 = with_owned l c (with_pages P (page_count x) x)
  ∧ (∀ j, ¬ range (first + current) (desired - current) j → P !! j = pages x !! j)
  ∧ ∀ h, (h < desired - current)%nat → ∃ f, P !! (first + current + h)%nat = Some (mkPage f (page_va (heap_end current) h)) ∧ page_va (heap_end current) h ≠ 0.
Proof.
  destruct (extended_slot _ _ _ _ _ _ _ _ _ _ _ _ He Hx) as (l & c & P & Hx1' & _ & Hout & Hin & _). exists l, c, P.
  split_and!; [congruence|done|]. intros h Hh. destruct (Hin h Hh) as (f & H1 & H2 & _). eauto.
Qed.

Lemma grow_laid_out : laid_out (pages x') m.
Proof.
  destruct grow_slot as (l & c & P & -> & Hout & Hin). rewrite Hpages. simpl. unfold laid_out. rewrite Hsize, Hcount, Hfirst, Haddr.
  split_and!; [unfold PAGE_SIZE; lia|unfold PAGE_SIZE; rewrite Z.div_add_l by lia; change ((4096 - 1) / 4096) with 0; lia|].
  intros h Hh. destruct (decide (current ≤ h)%nat) as [Hge|Hge].
  - destruct (Hin (h - current)%nat ltac:(lia)) as (f & Hf & Hu). rewrite <-heap_va in Hf, Hu.
    replace (current + (h - current))%nat with h in Hf, Hu by lia. replace (first + current + (h - current))%nat with (first + h)%nat in Hf by lia.
    eexists. split; [exact Hf|]. split; done.
  - destruct Hm0 as [[_ ->]|(Ho0 & Hh0 & Hf0 & Hc0)]; [lia|]. destruct HI as [_ Ht].
    pose proof (td_heap x (Ht i x Hx) k m0 Hk Ho0 Hh0) as Ha0. destruct (td_pages x (Ht i x Hx) k m0 Hk Ho0) as (_ & _ & Hp).
    rewrite Hout by (unfold range; lia). rewrite <-Hf0, <-Ha0. apply Hp. lia.
Qed.

Lemma grow_own j q : range (first + current) (desired - current) j → pages x1 !! j = Some q → frame q ∉ kernel_frames.
Proof.
  intros HD Hq Hkf. unfold range in HD.
  destruct (extended_page cfg at_rest true i (first + current) (desired - current) (heap_end current) HEAP_PERMISSIONS _ x x1 s s1 Hx Hx1 He
    (j - (first + current))%nat ltac:(lia)) as (f & Hf & _ & Hown & _).
  replace (first + current + (j - (first + current)))%nat with j in Hf by lia. rewrite Hf in Hq. injection Hq as <-.
  by eapply (kernel_not_owned cfg at_rest s1 i x1); [apply He|..].
Qed.

Lemma grow_tidy : tidy x'.
Proof.
  pose proof grow_own as Hkern.
  pose proof grow_laid_out as HL.
  destruct grow_slot as (l & c & P & Hx1' & Hout & Hin). destruct HI as [_ Ht]. rewrite Hx1' in *. simpl in *.
  eapply (tidy_step x x' (first + current) (desired - current) k m0 m); try done; [by eapply Ht|congruence|by rewrite Hpages|..].
  - intros j p HD Hp Hu. by destruct (Hun j p HD Hp).
  - intros j p HD Hj. rewrite Hpc in Hj. unfold range in HD. exfalso. lia.
  - rewrite Hpc. lia.
  - intros _. split; [done|]. unfold covers, range. rewrite Hcount, Hfirst. intros j Hj.
    destruct Hm0 as [[_ ->]|(Ho0 & _ & Hf0 & Hc0)]; [left; lia|]. rewrite Hf0, Hc0, Ho0. destruct (decide (first + current ≤ j)%nat); [left; lia|right].
    split; [done|lia].
  - intros _ j q _ HD Hq. rewrite Hpages in Hq. by eapply Hkern.
Qed.

Lemma grow_not_counted id : id ≠ 0 → occupied m0 && (shared_identity m0 =? id) = false.
Proof.
  intros Hid. destruct Hm0 as [[-> _]|(Ho0 & Hh0 & _)]; [done|]. rewrite Ho0. simpl. apply Z.eqb_neq. intros <-.
  destruct HI as [C _]. destruct (ss_shared _ _ (core_shape _ _ _ C i x Hx) k m0 Hk Ho0 Hid). congruence.
Qed.

Lemma finish_grow : let s' := set_slot (memory s1) i x' s1 in
  Inv cfg s' ∧ ∃ fs, NoDup fs ∧ Forall (λ f, f ∉ ledger s) fs ∧ length fs = (desired - current)%nat ∧ mapped i (heap_end current) fs HEAP_PERMISSIONS s s'.
Proof.
  pose proof (ex_core _ _ _ _ _ _ _ _ _ _ _ _ He) as C1. destruct grow_slot as (l & c & P & Hx1' & _).
  assert (Hk1 : mappings x1 !! k = Some m0) by (by rewrite Hx1'). split.
  - destruct (ex_state _ _ _ _ _ _ _ _ _ _ _ _ He) as (? & ? & ? & m' & Hs1 & _).
    eapply (inv_set_slot cfg s s1 i _ m'); [done|by eexists| |apply grow_tidy].
    eapply (core_same_records cfg at_rest s1 i x1); try done; [by intros []|unfold owned; by rewrite Hof, Hoc|..].
    + eapply (slot_shape_mapping cfg x1 _ k m0 m); try done; [by eapply C1|rewrite Hphase, Hx1'; simpl; congruence|by rewrite Hpages].
    + intros id Hid. apply (mapcount_insert_same id x1 _ k m0 m); [done..|]. rewrite (grow_not_counted id Hid), Hocc, Hshared. symmetry. by apply Z.eqb_neq.
    + intros h q id _ _ Hs. eapply (maps_shared_insert x1 _ k m0 m); [done..| |exact Hs]. intros Ho0 Hi0. destruct Hs as [Hid _].
      pose proof (grow_not_counted id Hid) as Hc. rewrite Ho0, Hi0, Z.eqb_refl in Hc. done.
  - exists (page_frames x1 (first + current) (desired - current)).
    pose proof (heap_end_aligned current) as Hal.
    destruct (extended_fresh cfg at_rest (λ _ H, H) true i _ _ _ _ _ x x1 s s1 Hx Hx1 He eq_refl) as [H1 H2].
    split_and!; [done..|apply page_frames_length|]. eapply mapped_kept; [by intros ??| |].
    + eapply (extended_mapped cfg at_rest (λ _ H, H) true i _ _ _ _ _ x x1 s s1 Hx Hx1 Hal He); unfold heap_end, PAGE_SIZE, LINUX_BRK_BASE, USER_LIMIT; lia.
    + intros j a Ha. by apply (leaf_of_set_slot s1 i x1).
Qed.

End FinishGrow.

Lemma brk_room_spec x desired k first : slot_shape cfg x → (heap_pages x < desired)%nat →
  brk_room x (heap_record x) desired (heap_pages x) = Some (k, first) →
  ∃ m0, mappings x !! k = Some m0 ∧ grows_from m0 first (heap_pages x) ∧ (first + desired ≤ length (pages x))%nat
    ∧ (∀ j p, range (first + heap_pages x) (desired - heap_pages x) j → pages x !! j = Some p → ¬ used p)
    ∧ (is_Some (heap_record x) → heap_record x = Some k ∧ occupied m0 = true).
Proof.
  intros Hs Hlt. unfold brk_room, heap_pages in *. destruct (heap_record x) as [h|] eqn:Hh.
  - apply heap_record_spec in Hh as (m & Hm & Ho & Hheap & Hat). rewrite Hat in *.
    destruct (_ || _) eqn:Hc; [done|]. apply orb_false_iff in Hc as [Hc1%Nat.ltb_ge Hc2%negb_false_iff]. intros [= <- <-].
    exists m. split_and!; try done; [by right|]. intros j p. by apply free_pages.
  - destruct (_ <=? _)%nat eqn:Hc; [done|]. destruct (free_mapping_spec cfg x Hs Hc) as (m & Hm & Ho).
    destruct (free_page_run x desired) as [start|] eqn:Hr; [|done]. intros [= <- <-]. destruct (free_page_run_spec _ _ _ Hr) as [H1 H2].
    exists m. split_and!; [done|by left|lia| |by intros []]. rewrite Nat.add_0_r, Nat.sub_0_r. done.
Qed.

(** Numbers of pages fit sixteen bits. *)
Lemma try_u16_fits n : Z.of_nat n ≤ U16_MAX → try_u16 n = Some n.
Proof. intros H. unfold try_u16. by apply Z.leb_le in H as ->. Qed.

Lemma brk_grow_spec i x s desired requested : Inv cfg s → slots s !! i = Some x → phase x = Committed →
  (heap_pages x < desired)%nat → (desired ≤ 4096)%nat →
  wp (brk_grow cfg i (heap_record x) desired (heap_pages x) requested)
    (λ r s', Inv cfg s' ∧ r = requested ∧ break_at i requested desired s' ∧ heap_resized i (heap_pages x) desired s s') (λ _ s', Inv cfg s' ∧ leaves_kept s s') s.
Proof.
  intros HI Hx Hph Hlt Hmax. pose proof HI as [C Ht]. assert (Hid : Inv cfg s ∧ leaves_kept s s) by (split; [done|by intros ??]).
  pose proof (core_shape _ _ _ C i x Hx) as Hs. unfold brk_grow. wp_step. eapply wp_get_slot; [exact Hx|].
  wp_step. apply wp_ensure; [intros _|done]. wp_step. apply wp_ok_or; [intros [k first] Hroom|done].
  destruct (brk_room_spec x desired k first Hs Hlt Hroom) as (m0 & Hk & Hm0 & Hfit & Hun & Hrec).
  set (current := heap_pages x) in *. wp_step. eapply wp_mono.
  - eapply (brk_grow_loop_spec cfg at_rest i (first + current) (desired - current) x s); try done; [by intros []|congruence|lia..|].
    rewrite Nat.sub_diag. by apply extended_nil.
  - intros ? s1 He%extended_heap. destruct (extended_slot _ _ _ _ _ _ _ _ _ _ _ _ He Hx) as (l & c & P & Hx1 & _).
    set (x1 := with_owned l c (with_pages P (page_count x) x)) in *.
    assert (Hf16 : try_u16 first = Some first). { apply try_u16_fits. pose proof (ss_pages _ _ Hs). lia. }
    assert (Hd16 : try_u16 desired = Some desired) by (apply try_u16_fits; unfold U16_MAX; lia).
    assert (Hgoal : ∀ s', (Inv cfg s' ∧ ∃ fs, NoDup fs ∧ Forall (λ f, f ∉ ledger s) fs ∧ length fs = (desired - current)%nat
      ∧ mapped i (heap_end current) fs HEAP_PERMISSIONS s s') → break_at i requested desired s' →
      Inv cfg s' ∧ requested = requested ∧ break_at i requested desired s' ∧ heap_resized i current desired s s').
    { intros s' [H1 H2] H3. split_and!; [done..|]. right; right. done. }
    destruct (heap_record x) as [h|] eqn:Hh.
    + destruct (Hrec ltac:(eauto)) as [[= <-] Ho0]. destruct Hm0 as [[? _]|(_ & Hheap & Hf0 & Hc0)]; [congruence|].
      wp_step. wp_step. rewrite Hd16. apply wp_ok_or; [intros ? [= <-]|done]. eapply wp_on_slot; [exact Hx1|].
      wp_step. eapply wp_on_slot; [simpl; apply list_lookup_insert_eq; by eapply lookup_lt_Some|]. wp_step. simpl. rewrite list_insert_insert_eq.
      apply Hgoal; [apply (finish_grow i h first current desired m0 (with_extent desired m0) x x1); try done; simpl|eexists; split; [simpl; apply list_lookup_insert_eq; by eapply lookup_lt_Some|split; [done|]]].
      * by right.
      * by apply alter_insert_eq.
      * by eapply (ss_used _ _ Hs).
      * by eapply (td_heap x (Ht i x Hx)).
      * destruct (decide (shared_identity m0 = 0)) as [|Hne]; [done|]. destruct (ss_shared _ _ Hs h m0 Hk Ho0 Hne). congruence.
      * eapply (heap_pages_insert x _ h (with_extent desired m0)); try done; [by apply alter_insert_eq|by eapply lookup_lt_Some|congruence|].
        simpl. by eapply (heap_record_generation x h).
    + wp_step. wp_step. rewrite Hf16. apply wp_ok_or; [intros ? [= <-]|done]. wp_step. rewrite Hd16. apply wp_ok_or; [intros ? [= <-]|done].
      eapply wp_on_slot; [exact Hx1|].
      wp_step. eapply wp_on_slot; [simpl; apply list_lookup_insert_eq; by eapply lookup_lt_Some|]. wp_step. simpl. rewrite list_insert_insert_eq.
      set (m := mkMapping _ _ _ _ _ _ _ _ _ _ _ _).
      apply Hgoal; [apply (finish_grow i k first current desired m0 m x x1); try done; simpl; lia|].
      eexists; split; [simpl; apply list_lookup_insert_eq; by eapply lookup_lt_Some|split; [done|]].
      eapply (heap_pages_insert x _ k m); try done; [by eapply lookup_lt_Some|congruence].
  - intros ? s' Hre. by eapply restored_inv.
Qed.

Lemma brk_shrink_spec i x s k desired requested : Inv cfg s → slots s !! i = Some x → phase x = Committed → heap_record x = Some k →
  (desired < heap_pages x)%nat → (desired ≤ 4096)%nat →
  wp (brk_shrink cfg i k desired (heap_pages x) requested)
    (λ r s', Inv cfg s' ∧ r = requested ∧ break_at i requested desired s' ∧ heap_resized i (heap_pages x) desired s s') (λ _ _, False) s.
Proof.
  intros HI Hx Hph Hrec Hlt Hmax. pose proof HI as [C Ht]. pose proof (core_shape _ _ _ C i x Hx) as Hs.
  apply heap_record_spec in Hrec as Hr'. destruct Hr' as (m & Hk & Ho & Hheap & Hat).
  assert (Hpages : heap_pages x = mp_page_count m) by (unfold heap_pages; by rewrite Hrec, Hat). rewrite Hpages in *.
  unfold brk_shrink. wp_step. eapply wp_get_slot; [exact Hx|]. rewrite Hat in *. set (current := mp_page_count m) in *.
  pose proof (td_heap x (Ht i x Hx) k m Hk Ho Hheap) as Haddr. assert (Hal : (PAGE_SIZE | mp_address m)) by (rewrite Haddr; by exists 131072).
  pose proof (munmap_laid_out cfg i k x m s HI Hx Hk Ho) as (_ & _ & Hpg).
  assert (Hz : shared_identity m = 0).
  { destruct (decide (shared_identity m = 0)) as [|Hne]; [done|]. destruct (ss_shared _ _ Hs k m Hk Ho Hne). congruence. }
  wp_step. eapply wp_mono.
  - eapply (brk_shrink_loop_spec cfg at_rest _ i (first_page m + desired) s x); try done; [by intros []|congruence|].
    intros j Hj. unfold range in Hj. destruct (Hpg (j - first_page m)%nat ltac:(lia)) as (p & Hp & Hu & _).
    replace (first_page m + (j - first_page m))%nat with j in Hp by lia. eauto.
  - intros ? s1 Hu. destruct (shrunk_slot _ _ _ _ _ _ _ (um_shrunk _ _ _ _ _ _ _ _ Hu) Hx)
      as (x1 & Hx1 & Hr & Hp & Hm & Hmc & Hpc & Hgen & Hinfo & [_ Hst] & Hlen & Hus & Hout & _ & _ & Hs1).
    assert (Hk1 : mappings x1 !! k = Some m) by congruence. wp_step. rewrite try_u16_fits by (unfold U16_MAX; lia).
    apply wp_ok_or; [intros ? [= <-]|done]. wp_step. eapply wp_on_slot; [exact Hx1|]. wp_step.
    set (x' := set_break requested (count_owned (alter_mapping (with_extent desired) k x1))).
    fold (set_slot (memory s1) i x' s1). assert (Hm' : mappings x' = <[k := with_extent desired m]> (mappings x1)) by (by apply alter_insert_eq).
    pose proof (sk_core _ _ _ _ _ _ _ (um_shrunk _ _ _ _ _ _ _ _ Hu)) as C1. split_and!; [|done|exists x'; split_and!; [by eapply lookup_set_slot|done|]|].
    + eapply (inv_set_slot cfg s s1 i x' (memory s1)); [done|by eexists|..].
      * eapply (core_same_records cfg at_rest s1 i x1); try done; [by intros []|..].
        -- eapply (slot_shape_mapping cfg x1 x' k m (with_extent desired m)); try done; [by eapply C1|simpl; congruence|].
           intros _. split; [|done]. simpl. rewrite Hmc. by eapply (ss_used _ _ Hs).
        -- intros id Hid. by apply (mapcount_insert_same id x1 _ k m (with_extent desired m)).
        -- intros h q id _ _ Hms. eapply (maps_shared_insert x1 _ k m (with_extent desired m)); [done..| |exact Hms]. destruct Hms as [? _]. congruence.
      * eapply (tidy_step x x' (first_page m + desired) (current - desired) k m (with_extent desired m)); try done; simpl; try congruence.
        -- by eapply Ht.
        -- rewrite <-Hm. exact Hm'.
        -- intros j p HD Hp' _. split; [done|]. unfold covers, range in *. lia.
        -- intros j p HD _. by eapply (um_records _ _ _ _ _ _ _ _ Hu).
        -- lia.
        -- intros _. split; [|unfold covers, range; simpl; intros j Hj; right; split; [done|lia]].
           split_and!; simpl; [unfold PAGE_SIZE; lia|unfold PAGE_SIZE; rewrite Z.div_add_l by lia; change ((4096 - 1) / 4096) with 0; lia|].
           intros h Hh. rewrite Hout by (unfold range; lia). apply Hpg. lia.
        -- intros _ j p Hc HD _. unfold covers, range in *. simpl in Hc. lia.
    + eapply (heap_pages_insert x x' k (with_extent desired m)); try done.
      * by rewrite <-Hm.
      * by eapply lookup_lt_Some.
      * congruence.
      * simpl. by eapply (heap_record_generation x k).
    + right; left. split; [done|]. unfold heap_end. rewrite <-Haddr.
      destruct (munmap_range cfg i k x m s HI Hx Hk Ho Hal true desired (current - desired) s1 ltac:(lia) Hu) as [H1 H2].
      split; intros; rewrite (leaf_of_set_slot s1 i x1); auto.
  - intros ? ? Hf. by destruct (munmap_not_foreign cfg i k x m s HI Hx Hk Ho desired (current - desired) Hz ltac:(lia)).
Qed.

Lemma brk_spec process requested s : Inv cfg s →
  wp (linux_brk cfg process requested)
    (λ r s', Inv cfg s' ∧ ∃ x, slots s !! ph_slot process = Some x
       ∧ if requested =? 0 then s' = s ∧ r = heap_break x
         else r = requested ∧ break_at (ph_slot process) requested (Z.to_nat ((requested - LINUX_BRK_BASE + (PAGE_SIZE - 1)) / PAGE_SIZE)) s' ∧ LINUX_BRK_BASE ≤ requested ≤ LINUX_BRK_BASE + LINUX_BRK_MAXIMUM_BYTES
              ∧ heap_resized (ph_slot process) (heap_pages x) (Z.to_nat ((requested - LINUX_BRK_BASE + (PAGE_SIZE - 1)) / PAGE_SIZE)) s s')
    (λ _ s', Inv cfg s' ∧ leaves_kept s s') s.
Proof.
  intros HI. pose proof HI as [C Ht]. assert (Hid : Inv cfg s ∧ leaves_kept s s) by (split; [done|by intros ??]).
  unfold linux_brk. wp_step. eapply wp_mono; [apply process_slot_spec| |by intros ? ? ->].
  intros i ? (-> & -> & x & Hx & Hph & _). set (i := ph_slot process) in *. do 2 wp_step. wp_step. apply wp_ensure; [intros _|done].
  rewrite (the_slot_eq cfg s i x Hx). wp_step; [wp_step; eauto|].
  wp_step. apply wp_ensure; [intros Hr|done]. wp_step. apply wp_ensure; [intros Hmax%Z.leb_le|done].
  apply negb_true_iff, orb_false_iff in Hr as [Hlo%Z.ltb_ge _]. fold (heap_record x).
  change (match heap_record x with Some k => _ | None => _ end) with (heap_pages x).
  set (desired := Z.to_nat _). assert (Hd : (desired ≤ 4096)%nat).
  { unfold desired, LINUX_BRK_MAXIMUM_BYTES, PAGE_SIZE in *. assert ((requested - LINUX_BRK_BASE + (4096 - 1)) / 4096 ≤ 4096); [|lia].
    apply Z.lt_succ_r, Z.div_lt_upper_bound; lia. }
  destruct (Nat.eqb_spec desired (heap_pages x)) as [Heq|Hne].
  - wp_step. eapply wp_on_slot; [exact Hx|]. wp_step. fold (set_slot (memory s) i (set_break requested x) s).
    assert (Hkept : leaves_kept s (set_slot (memory s) i (set_break requested x) s)) by (intros j a _; by apply (leaf_of_set_slot s i x)).
    split.
    + eapply (inv_set_slot cfg s s i _ (memory s)); [done|exists x; symmetry; unfold set_slot; rewrite (insert_same_slot s i x Hx); by destruct s|..].
      * eapply (core_same_records cfg at_rest s i x); try done; [by intros []|]. by destruct (core_shape _ _ _ C i x Hx).
      * by destruct (Ht i x Hx).
    + exists x. split_and!; [done..| |lia|lia|by left]. eexists. split_and!; [by eapply lookup_set_slot|done|by symmetry].
  - destruct (Nat.ltb_spec desired (heap_pages x)) as [Hlt|Hge].
    + destruct (heap_record x) as [k|] eqn:Hrec; [|unfold heap_pages in Hlt; rewrite Hrec in Hlt; lia]. wp_step. wp_step; [|done].
      match goal with H : Some _ = Some _ |- _ => injection H as <- end.
      eapply wp_mono; [by apply (brk_shrink_spec i x s k)| |done]. intros r s' (H1 & H2 & H3 & H4). split; [done|].
      exists x. split_and!; try done; lia.
    + eapply wp_mono; [apply (brk_grow_spec i x s); try done; lia| |done]. intros r s' (H1 & H2 & H3 & H4). split; [done|].
      exists x. split_and!; try done; lia.
Qed.

End Heap.
