(* ===== verification/SpaceProtect.v ===== *)
(** * Changing the permissions of pages

    [linux_mprotect] of process/x86_64.rs checks every page before it changes
    one: it changes the permissions of all pages of the range, or nothing. *)

From stdpp Require Import prelude list numbers.
From Stdlib Require Import ZArith Lia.
From S2P Require Import Prelude.
From S2P Require Import Wp.
From S2P Require Import AddressSpace.
From S2P Require Import PageTree.
From S2P Require Import SpaceInv.
From S2P Require Import SpaceSteps.
From S2P Require Import SpaceBase.
From S2P Require Import SpacePages.
From S2P Require Import SpaceShared.
From S2P Require Import SpaceOps.

(** ** Entries *)

Definition PERMISSION_BITS : Z := Z.lor (Z.lor ENTRY_PRESENT ENTRY_WRITABLE) ENTRY_NO_EXECUTE.
Definition permission_bits (p : MappingPermissions) : Z :=
  Z.lor (Z.lor (if readable p then ENTRY_PRESENT else 0) (if writable p then ENTRY_WRITABLE else 0)) (if executable p then 0 else ENTRY_NO_EXECUTE).

Lemma replace_bits e p : replace_user_mapping_permissions e p = Z.lor (Z.ldiff e PERMISSION_BITS) (permission_bits p).
Proof. unfold replace_user_mapping_permissions, and_not, permission_bits, PERMISSION_BITS. by rewrite <-!Z.lor_assoc. Qed.

Lemma permission_bits_within p : Z.land (permission_bits p) PERMISSION_BITS = permission_bits p.
Proof. destruct p as [[] [] []]; vm_compute; done. Qed.

Lemma land_lor_distr a b m : Z.land (Z.lor a b) m = Z.lor (Z.land a m) (Z.land b m).
Proof. apply Z.bits_inj'. intros n Hn. rewrite !Z.lor_spec, !Z.land_spec, Z.lor_spec. by destruct (Z.testbit a n), (Z.testbit b n), (Z.testbit m n). Qed.

(** The bits that are not permissions are kept; the permissions are the new
    ones. *)
Lemma replace_outside e p m : Z.land m PERMISSION_BITS = 0 → Z.land (replace_user_mapping_permissions e p) m = Z.land e m.
Proof.
  intros Hm. rewrite replace_bits, <-permission_bits_within. apply Z.bits_inj'. intros n Hn.
  assert (Hb : Z.testbit m n && Z.testbit PERMISSION_BITS n = false) by (rewrite <-Z.land_spec, Hm; apply Z.bits_0).
  rewrite !Z.land_spec, Z.lor_spec, Z.ldiff_spec, Z.land_spec.
  by destruct (Z.testbit e n), (Z.testbit m n), (Z.testbit PERMISSION_BITS n), (Z.testbit (permission_bits p) n).
Qed.

Lemma replace_inside e p m : Z.land m PERMISSION_BITS = m → Z.land (replace_user_mapping_permissions e p) m = Z.land (permission_bits p) m.
Proof.
  intros Hm. rewrite replace_bits. apply Z.bits_inj'. intros n Hn.
  assert (Hb : Z.testbit m n = Z.testbit m n && Z.testbit PERMISSION_BITS n) by (by rewrite <-Z.land_spec, Hm).
  rewrite !Z.land_spec, Z.lor_spec, Z.ldiff_spec.
  destruct (Z.testbit e n), (Z.testbit m n), (Z.testbit PERMISSION_BITS n), (Z.testbit (permission_bits p) n); simpl in *; congruence.
Qed.

Lemma replace_same e p : Z.land e PERMISSION_BITS = permission_bits p → replace_user_mapping_permissions e p = e.
Proof.
  intros H. rewrite replace_bits, <-H. apply Z.bits_inj'. intros n Hn. rewrite Z.lor_spec, Z.ldiff_spec, Z.land_spec.
  by destruct (Z.testbit e n), (Z.testbit PERMISSION_BITS n).
Qed.

Lemma replace_form f e p : Z.land e PAGE_ADDRESS_MASK = f → Z.land e 0x84 = ENTRY_USER → wx_free p → leaf_form f (replace_user_mapping_permissions e p).
Proof.
  intros Hf Hu Hp. split_and!; [by rewrite replace_outside|by rewrite replace_outside|]. rewrite !replace_inside by done.
  unfold wx_free in Hp. destruct p as [[] [] []]; simpl in *; done.
Qed.

Lemma replace_u64 e p : is_u64 e → is_u64 (replace_user_mapping_permissions e p).
Proof.
  intros He. rewrite replace_bits. apply is_u64_lor; [by apply is_u64_and_not|]. destruct p as [[] [] []]; unfold is_u64, U64_MAX; vm_compute; split; congruence.
Qed.

(** What [checked_mapping_leaf] accepts. *)
Definition checked_entry (f e : Z) : Prop :=
  Z.land e (Z.lor (Z.lor (Z.lor PAGE_ADDRESS_MASK ENTRY_PRESENT) ENTRY_USER) ENTRY_HUGE) = Z.lor (Z.lor f ENTRY_PRESENT) ENTRY_USER.

Lemma checked_entry_bits f e : Z.land f PAGE_ADDRESS_MASK = f → checked_entry f e →
  Z.land e PAGE_ADDRESS_MASK = f ∧ Z.land e 0x84 = ENTRY_USER ∧ Z.land e ENTRY_PRESENT = ENTRY_PRESENT.
Proof.
  intros Hf Hc. unfold checked_entry in Hc.
  assert (H : ∀ m, Z.land (Z.lor (Z.lor (Z.lor PAGE_ADDRESS_MASK ENTRY_PRESENT) ENTRY_USER) ENTRY_HUGE) m = m → Z.land e m = Z.land (Z.lor f (Z.lor ENTRY_PRESENT ENTRY_USER)) m).
  { intros m Hm. rewrite (land_sub e _ m Hm), Hc. by rewrite Z.lor_assoc. }
  split_and!; rewrite H by done; [by apply flagged_address|by rewrite flagged_bits|by rewrite flagged_bits].
Qed.

Lemma user_entry_permissions f p : Z.land f PAGE_ADDRESS_MASK = f → Z.land (user_mapping_entry f p) PERMISSION_BITS = permission_bits p.
Proof.
  intros Hf. unfold user_mapping_entry. rewrite <-!Z.lor_assoc, flagged_bits by done. destruct p as [[] [] []]; done.
Qed.

Lemma normalized_permissions e : Z.land (normalized_user_mapping_entry e) PERMISSION_BITS = Z.land e PERMISSION_BITS.
Proof.
  unfold normalized_user_mapping_entry, and_not. rewrite Z.ldiff_land, <-Z.land_assoc. f_equal.
Qed.

Section Protect.
Context {Mem E : Type} `{!FrameMemory Mem E, KF : !KernelFrames, !FrameMemoryLaws Mem E} (cfg : Config).
Abbreviation State := (FrameBackedAddressSpace Mem).
Abbreviation SM := (M State (FrameBackedError E)).
Implicit Types (s : State).

(** Page [h] of a mapping has its record, at its address, and a present leaf of
    its frame. *)
Definition leaf_ready (s : State) (i : nat) (x : FrameBackedSlot) (m : MappingRecord) (h : nat) (p : PageRecord) : Prop :=
  pages x !! (first_page m + h)%nat = Some p ∧ frame p ≠ 0 ∧ pg_address p = mp_address m + Z.of_nat h * PAGE_SIZE
  ∧ checked_entry (frame p) (leaf_of s i (pg_address p)).

Lemma used_page s i x k p : Core cfg at_rest s → slots s !! i = Some x → pages x !! k = Some p → used p →
  user_address (pg_address p) ∧ Z.land (frame p) PAGE_ADDRESS_MASK = frame p
  ∧ ∃ r t, root x = Some r ∧ descend (entries (memory s)) r (table_path (pg_address p)) = Some t ∧ t ∈ ledger s
      ∧ leaf_of s i (pg_address p) = entries (memory s) t (leaf_index (pg_address p)).
Proof.
  intros C Hx Hk Hu. pose proof (core_space _ _ _ C i x Hx ltac:(intros [])) as Hsp. unfold slot_space in Hsp.
  destruct (root x) as [r|] eqn:Hr; [|by destruct (Hsp k p Hk)]. destruct (st_address _ _ _ _ _ Hsp k p Hk Hu) as [Hua [t Hd]].
  split_and!; [done| |].
  - destruct (page_frame_ledger _ _ s i x r k p Hx Hsp Hk Hu) as [Hl|Hkf]; [by eapply (core_owned_live cfg at_rest s)|].
    by eapply (law_kernel (memory s)); [apply C|].
  - exists r, t. split_and!; [done..| |by eapply leaf_of_at]. destruct (table_in_ledger cfg at_rest s i x r (table_path (pg_address p)) t) as [_ ?]; try done; first [by intros []|by apply user_table_path].
Qed.

Lemma leaf_index_range va : 0 ≤ leaf_index va < 512.
Proof. by apply page_index_range. Qed.

Lemma checked_leaf_spec s i x m h : Core cfg at_rest s → slots s !! i = Some x →
  (∀ p, pages x !! (first_page m + h)%nat = Some p → used p) → 0 ≤ mp_address m →
  wp (checked_mapping_leaf cfg i m h)
    (λ d s', s' = s ∧ ∃ p r, leaf_ready s i x m h p ∧ root x = Some r ∧ descend (entries (memory s)) r (table_path (pg_address p)) = Some d.1.1
             ∧ d.1.2 = leaf_index (pg_address p) ∧ d.2 = leaf_of s i (pg_address p))
    (λ _ s', s' = s ∧ ∀ p, ¬ leaf_ready s i x m h p) s.
Proof.
  intros C Hx Hu Ha. unfold checked_mapping_leaf. do 2 wp_step. rewrite (the_slot_eq cfg s i x Hx). wp_step.
  apply wp_ok_or; [intros p Hp|intros Hp; split; [done|]; intros q (Hq & _); congruence].
  destruct (used_page s i x _ p C Hx Hp (Hu p Hp)) as (Hua & Hf & r & t & Hr & Hd & Ht & Hl).
  wp_step. apply wp_ok_or; [intros va [-> _]%checked_add_Some|intros Hn%checked_add_None; split; [done|]].
  2: { intros q (Hq & _ & Hqa & _). assert (q = p) as -> by congruence. unfold user_address, USER_LIMIT, U64_MAX in *. lia. }
  wp_step. apply wp_ensure; [intros Hc|intros Hc; split; [done|]].
  2: { intros q (Hq & Hnz & Hqa & _). assert (q = p) as -> by congruence. apply Z.eqb_neq in Hnz. by rewrite Hqa, Z.eqb_refl, Hnz in Hc. }
  apply negb_true_iff, orb_false_iff in Hc as [Hc1%negb_false_iff%Z.eqb_eq Hc2%Z.eqb_neq].
  wp_step. eapply wp_mono; [eapply (leaf_slot_spec cfg at_rest s i x (pg_address p)); try done; [by intros []|apply Hua]|..].
  2: { intros ? ? (-> & Hn). by rewrite (Hn Hua r Hr) in Hd. }
  intros [t' d] ? (-> & _ & Hd2 & r' & Hr' & Hd'). simpl in *. assert (r' = r) as -> by congruence. assert (t' = t) as -> by congruence. subst d.
  wp_step. eapply wp_read_table; [done..|apply leaf_index_range|]. rewrite <-Hl.
  wp_step. apply wp_ensure; [intros He%Z.eqb_eq|intros He%Z.eqb_neq; split; [done|]; intros q (Hq & _ & _ & Hce); congruence].
  wp_step. split; [done|]. exists p, r. split_and!; try done.
Qed.

Lemma frame_for_page_spec s i x m h : slots s !! i = Some x →
  wp (frame_for_mapping_page cfg i m h : SM Z) (λ f s', s' = s ∧ (h < mp_page_count m)%nat ∧ ∃ p, pages x !! (first_page m + h)%nat = Some p ∧ f = frame p) (λ _ s', s' = s) s.
Proof.
  intros Hx. unfold frame_for_mapping_page. wp_step. apply wp_ensure; [intros Hlt%Nat.ltb_lt|done]. do 2 wp_step. rewrite (the_slot_eq cfg s i x Hx).
  wp_step. apply wp_ok_or; [intros p Hp|done]. wp_step; [wp_step; eauto|].
  wp_step. apply wp_ok_or; [intros k Hk|done]. wp_step. apply wp_ensure; [intros _|done]. wp_step. eauto.
Qed.

Section Range.
Context (i : nat) (x : FrameBackedSlot) (m : MappingRecord) (Hal : (PAGE_SIZE | mp_address m)) (Ha : 0 ≤ mp_address m).

(** Page [h] passed the check. *)
Definition verified (s : State) (mapping : MappingRecord) (h : nat) : Prop :=
  ∃ p q, leaf_ready s i x m h p ∧ pages x !! (first_page mapping + h)%nat = Some q
    ∧ normalized_user_mapping_entry (leaf_of s i (pg_address p)) = user_mapping_entry (frame q) (permissions mapping).

Lemma mprotect_verify_spec mapping s n : Core cfg at_rest s → slots s !! i = Some x → ∀ h,
  (∀ j p, (h ≤ j < h + n)%nat → pages x !! (first_page m + j)%nat = Some p → used p) →
  wp (mprotect_verify cfg n i mapping m h) (λ _ s', s' = s ∧ ∀ j, (h ≤ j < h + n)%nat → verified s mapping j) (λ _ s', s' = s) s.
Proof.
  intros C Hx. induction n as [|n IH]; intros h Hu; simpl; [wp_step; split; [done|lia]|].
  wp_step. eapply wp_mono; [eapply (checked_leaf_spec s i x m h); try done; intros p; apply Hu; lia| |by intros ? ? [-> _]].
  intros [[t d] e] ? (-> & p & r & Hp & _ & _ & _ & He). simpl in *. subst e. wp_step.
  eapply wp_mono; [by apply (frame_for_page_spec s i x mapping h)| |done]. intros f ? (-> & _ & q & Hq & ->).
  wp_step. apply wp_ensure; [intros Hn%Z.eqb_eq|done].
  eapply wp_mono; [apply (IH (S h)); intros j q' Hj; apply Hu; lia| |done]. intros ? s' [-> Hall]. split; [done|].
  intros j Hj. destruct (decide (j = h)) as [->|]; [by exists p, q|apply Hall; lia].
Qed.

(** The permissions of the pages from [lo] to [hi] were replaced, and nothing
    else. *)
Definition protected_leaves (lo hi : Z) (p : MappingPermissions) (s s' : State) : Prop :=
  ∀ j a, user_address a → leaf_of s' j a = if decide (j = i ∧ lo ≤ a < hi) then replace_user_mapping_permissions (leaf_of s i a) p else leaf_of s j a.

Lemma protected_cons p h n s s1 s' : leaf_set at_rest s s1 i (page_va (mp_address m) h)
    (replace_user_mapping_permissions (leaf_of s i (page_va (mp_address m) h)) p) →
  protected_leaves (page_va (mp_address m) (S h)) (page_va (mp_address m) (S h + n)) p s1 s' →
  protected_leaves (page_va (mp_address m) h) (page_va (mp_address m) (h + S n)) p s s'.
Proof.
  intros Hset Hp j a Hua. rewrite (Hp j a Hua). pose proof (Hset j a ltac:(intros []) Hua) as Hj. pose proof (Hset i a ltac:(intros []) Hua) as Hi.
  rewrite page_of_va in Hj, Hi by done. destruct Hal as [b Hb]. rewrite Hb in *. clear Hset Hp.
  assert (Hdiv : b * PAGE_SIZE / PAGE_SIZE = b) by (by rewrite Z.div_mul). rewrite Hdiv in *.
  unfold page_va, page_of, PAGE_SIZE in *. pose proof (Z.div_mod a 4096 ltac:(lia)). pose proof (Z.mod_pos_bound a 4096 ltac:(lia)).
  destruct (decide (j = i ∧ b * 4096 + Z.of_nat (S h) * 4096 ≤ a < b * 4096 + Z.of_nat (S h + n) * 4096)) as [[-> ?]|?].
  - rewrite decide_False in Hi by lia. rewrite decide_True by lia. by rewrite Hi.
  - rewrite Hj. destruct (decide (j = i ∧ a / 4096 = b + Z.of_nat h)) as [[-> ?]|?].
    + rewrite decide_True by lia. f_equal. apply leaf_of_page. unfold page_of, PAGE_SIZE. rewrite <-Z.mul_add_distr_r, Z.div_mul by lia. lia.
    + rewrite decide_False by lia. done.
Qed.

(** Writing the new permissions of one page, and reading them back. *)
Lemma protect_page {A} s h p q r t (K : SM A) (Q : A → State → Prop) R (undo1 undo2 : SM unit) : Core cfg at_rest s → slots s !! i = Some x → wx_free p →
  leaf_ready s i x m h q → used q → root x = Some r → descend (entries (memory s)) r (table_path (pg_address q)) = Some t →
  let v := replace_user_mapping_permissions (leaf_of s i (pg_address q)) p in
  (∀ m', Core cfg at_rest (with_memory m' s) → leaf_set at_rest s (with_memory m' s) i (pg_address q) v → wp K Q R (with_memory m' s)) →
  wp (or_undo (on_memory (write_entry t (leaf_index (pg_address q)) v)) undo1;;
      or_undo (observed ← read_table t (leaf_index (pg_address q));
               ensure (normalized_user_mapping_entry observed =? normalized_user_mapping_entry v) CorruptHierarchy) undo2;;
      K) Q R s.
Proof.
  intros C Hx Hp (Hq & _ & _ & Hc) Hu Hr Hd v HK. destruct (used_page s i x _ q C Hx Hq Hu) as (Hua & Hf & r' & t' & Hr' & Hd' & Ht & Hl).
  assert (r' = r) as -> by congruence. assert (t' = t) as -> by congruence.
  destruct (checked_entry_bits _ _ Hf Hc) as (H1 & H2 & _).
  assert (Hu64 : is_u64 (leaf_of s i (pg_address q))) by (rewrite Hl; apply law_u64, C).
  destruct (on_write_entry cfg at_rest s t (leaf_index (pg_address q)) v C Ht (leaf_index_range _) (replace_u64 _ p Hu64)) as (m' & Hrun & Hm & Hlive & He).
  destruct (core_leaf cfg at_rest s i x r (first_page m + h) q t v m') as (C' & Hset & _); try done; [by intros []|left; by apply replace_form|].
  wp_step. apply wp_or_undo. eapply wp_of_run; [exact Hrun|]. wp_step. apply wp_or_undo. wp_step.
  eapply wp_read_table; [exact C'|done|apply leaf_index_range|]. apply wp_ensure; [intros _; by apply HK|].
  intros Hn%Z.eqb_neq. destruct Hn. f_equal. simpl. rewrite He; [|eapply (core_owned_live cfg at_rest s); done|apply leaf_index_range].
  unfold update_entry. by rewrite !Z.eqb_refl.
Qed.

Lemma mprotect_apply_spec p n : wx_free p → ∀ h s, Core cfg at_rest s → slots s !! i = Some x →
  (∀ j, (h ≤ j < h + n)%nat → ∃ q, leaf_ready s i x m j q ∧ used q) →
  wp (mprotect_apply cfg n i m p h)
    (λ _ s', Core cfg at_rest s' ∧ (∃ m', s' = with_memory m' s)
       ∧ protected_leaves (page_va (mp_address m) h) (page_va (mp_address m) (h + n)) p s s') (λ _ _, False) s.
Proof.
  intros Hp. induction n as [|n IH]; intros h s C Hx Hall; simpl.
  { wp_step. split_and!; [done|exists (memory s); by destruct s|]. intros j a _. rewrite decide_False; [done|]. rewrite Nat.add_0_r. lia. }
  destruct (Hall h ltac:(lia)) as (q & Hq & Hu).
  assert (Hqu : ∀ q', pages x !! (first_page m + h)%nat = Some q' → used q').
  { intros q' Hq'. destruct Hq as [Hq0 _]. by assert (q' = q) as -> by congruence. }
  wp_step. eapply wp_mono; [by eapply (checked_leaf_spec s i x m h)| |by intros ? ? [_ Hno]; destruct (Hno q)].
  intros [[t d] e] ? (-> & q' & r & Hq' & Hr & Hd & Hd2 & He). cbn [fst snd] in *. subst d e.
  assert (q' = q) as ->. { destruct Hq as [? _], Hq' as [? _]. congruence. }
  eapply (protect_page s h p q r t); try done. intros m' C' Hset. destruct Hq as (_ & _ & Hqa & _).
  eapply wp_mono; [apply (IH (S h) (with_memory m' s)); try done|..|done].
  - intros j Hj. destruct (Hall j ltac:(lia)) as (q' & (H1 & H2 & H3 & H4) & Hu'). exists q'. split; [|done]. split_and!; try done.
    rewrite Hset; [|by intros []|eapply (used_page s i x _ q' C Hx H1 Hu')]. rewrite decide_False; [done|]. intros [_ Heq].
    rewrite H3, Hqa in Heq. fold (page_va (mp_address m) j) (page_va (mp_address m) h) in Heq. rewrite !page_of_va in Heq by done. lia.
  - intros ? s' (C2 & (m2 & ->) & Hpr). split_and!; [done|by exists m2|]. rewrite Hqa in Hset. by eapply protected_cons.
Qed.

End Range.

(** ** The records of a split mapping *)

(** Pages that are not the kernel's. *)
Definition not_kernel (P : list PageRecord) (m : MappingRecord) : Prop :=
  ∀ n q, covers m n → P !! n = Some q → frame q ∉ kernel_frames.

Lemma tidy_relabel x k m0 m N : tidy x → mappings x !! k = Some m0 → phase x = Committed →
  (occupied m = true → laid_out (pages x) m ∧ (heap m = true → mp_address m = LINUX_BRK_BASE) ∧ not_kernel (pages x) m
     ∧ ∀ j m1 n, j ≠ k → mappings x !! j = Some m1 → occupied m1 = true → covers m1 n → ¬ covers m n) →
  tidy (with_mappings (<[k := m]> (mappings x)) N x).
Proof.
  intros [T1 T2 T3 T4 T5 T7 T6 T8 T9] Hk Hph Hm. split; simpl; try done; [..|congruence| |].
  - intros j m1 Hj Ho. apply lookup_insert_cases in Hj as [(-> & -> & _)|[_ Hj]]; [by apply Hm|by eapply T2].
  - intros j1 j2 m1 m2 n Hj1 Hj2 Ho1 Ho2 Hc1 Hc2.
    apply lookup_insert_cases in Hj1 as [(-> & -> & _)|[Hne1 Hj1]]; apply lookup_insert_cases in Hj2 as [(-> & -> & _)|[Hne2 Hj2]]; [done|..].
    + destruct (Hm Ho1) as (_ & _ & _ & Hd). by destruct (Hd j2 m2 n).
    + destruct (Hm Ho2) as (_ & _ & _ & Hd). by destruct (Hd j1 m1 n).
    + by eapply (T3 j1 j2 m1 m2 n).
  - intros j m1 Hj Ho. apply lookup_insert_cases in Hj as [(-> & -> & _)|[_ Hj]]; [by apply Hm|by eapply T7].
  - intros j m1 n q Hj Ho. apply lookup_insert_cases in Hj as [(-> & -> & _)|[_ Hj]]; [by apply Hm|by eapply T8].
Qed.

Lemma inv_relabel s i x k m0 m N : Inv cfg s → slots s !! i = Some x → phase x = Committed → mappings x !! k = Some m0 →
  (mapping_count x ≤ N)%nat → (k < N)%nat → (shared_identity m ≠ 0 → releasable m = true ∧ heap m = false) →
  (∀ id, id ≠ 0 → occupied m0 && (shared_identity m0 =? id) = occupied m && (shared_identity m =? id)) →
  (occupied m0 = true → shared_identity m0 ≠ 0 → occupied m = true ∧ shared_identity m = shared_identity m0 ∧ ∀ n, covers m0 n → covers m n) →
  (occupied m = true → laid_out (pages x) m ∧ (heap m = true → mp_address m = LINUX_BRK_BASE) ∧ not_kernel (pages x) m
     ∧ ∀ j m1 n, j ≠ k → mappings x !! j = Some m1 → occupied m1 = true → covers m1 n → ¬ covers m n) →
  Inv cfg (set_slot (memory s) i (with_mappings (<[k := m]> (mappings x)) N x) s).
Proof.
  intros [C Ht] Hx Hph Hk HN HkN Hsh Hcnt Hkeep Hm. set (x' := with_mappings _ N x). split.
  - eapply (core_same_records cfg at_rest s i x); try done; [by intros []|..].
    + eapply (slot_shape_mapping cfg x x' k m0 m); try done; [by eapply C|simpl; congruence].
    + intros id Hid. apply (mapcount_insert_same id x x' k m0 m); auto.
    + intros n q id _ _ Hs. eapply (maps_shared_insert x x' k m0 m); try done. destruct Hs as [Hid _]. intros Ho0 <- Hc.
      destruct (Hkeep Ho0 Hid) as (H1 & H2 & H3). auto.
  - intros j y Hy. simpl in Hy. apply lookup_insert_cases in Hy as [(-> & <- & _)|[_ Hy]]; [|by eapply Ht].
    eapply tidy_relabel; eauto.
Qed.

Lemma laid_out_sub P m m' off : laid_out P m → (off + mp_page_count m' ≤ mp_page_count m)%nat → first_page m' = (first_page m + off)%nat →
  mp_address m' = mp_address m + Z.of_nat off * PAGE_SIZE → memory_size m' = Z.of_nat (mp_page_count m') * PAGE_SIZE → laid_out P m'.
Proof.
  intros (_ & _ & Hp) Hle Hf Ha Hs. unfold laid_out. rewrite Hf, Ha, Hs.
  split_and!; [unfold PAGE_SIZE; lia|unfold PAGE_SIZE; rewrite Z.div_add_l by lia; change ((4096 - 1) / 4096) with 0; lia|].
  intros h Hh. destruct (Hp (off + h)%nat ltac:(lia)) as (p & H1 & H2 & H3). exists p. rewrite Nat.add_assoc in H1. split_and!; [done..|]. rewrite H3. lia.
Qed.

Lemma piece_slots_spec n k l : NoDup (piece_slots n k l) ∧ ∀ j, j ∈ piece_slots n k l → j ≠ k ∧ ∃ m, l !! j = Some m ∧ occupied m = false.
Proof.
  unfold piece_slots. split; [eapply sublist_NoDup; [|apply sublist_take]; eapply list.NoDup_filter, NoDup_ListNoDup, List.seq_NoDup|].
  intros j Hj. apply elem_of_take in Hj as (h & Hh & _). apply list_elem_of_lookup_2, list_elem_of_filter in Hh as [[Hne Ho] Hin].
  split; [done|]. apply elem_of_seq in Hin. destruct (lookup_lt_is_Some_2 l j ltac:(lia)) as [m Hm].
  exists m. by rewrite (slot_at_Some _ _ _ _ Hm) in Ho.
Qed.

(** A new record for pages that no mapping has. *)
Lemma inv_piece s i x j m0 m N : Inv cfg s → slots s !! i = Some x → phase x = Committed → mappings x !! j = Some m0 → occupied m0 = false →
  (mapping_count x ≤ N)%nat → (j < N)%nat → shared_identity m = 0 → heap m = false → laid_out (pages x) m → not_kernel (pages x) m →
  (∀ j' m1 n, j' ≠ j → mappings x !! j' = Some m1 → occupied m1 = true → covers m1 n → ¬ covers m n) →
  Inv cfg (set_slot (memory s) i (with_mappings (<[j := m]> (mappings x)) N x) s).
Proof.
  intros HI Hx Hph Hj Ho HN HjN Hsh Hh Hl Hkn Hd. eapply (inv_relabel s i x j m0 m N); try done; try congruence.
  - intros id Hid. apply not_eq_sym, Z.eqb_neq in Hid. by rewrite Ho, Hsh, Hid, andb_false_r.
  - intros _. split_and!; [done|congruence|done..].
Qed.

Section Split.
Context (i k before count after : nat) (x : FrameBackedSlot) (m : MappingRecord) (p : MappingPermissions) (s : State).
Context (HI : Inv cfg s) (Hx : slots s !! i = Some x) (Hph : phase x = Committed) (Hk : mappings x !! k = Some m) (Ho : occupied m = true).
Context (Hheap : heap m = false) (Hparts : (before + count + after = mp_page_count m)%nat).
Context (Hwhole : shared_identity m ≠ 0 → before = O ∧ after = O).

Abbreviation address := (mp_address m + Z.of_nat before * PAGE_SIZE).
Abbreviation stop := (address + Z.of_nat count * PAGE_SIZE).
Abbreviation prot := (with_seal p (mapping_at m address (Z.of_nat count * PAGE_SIZE) (first_page m + before) count)).
Abbreviation prefix := (mapping_at m (mp_address m) (Z.of_nat before * PAGE_SIZE) (first_page m) before).
Abbreviation suffix := (mapping_at m stop (Z.of_nat after * PAGE_SIZE) (first_page m + before + count) after).

Lemma split_laid_out : laid_out (pages x) m.
Proof. destruct HI as [_ Ht]. by eapply (td_pages x (Ht i x Hx)). Qed.

Lemma split_shape : slot_shape cfg x ∧ (shared_identity m ≠ 0 → releasable m = true ∧ heap m = false) ∧ (k < mapping_count x)%nat.
Proof. destruct HI as [C _]. pose proof (core_shape _ _ _ C i x Hx) as Hs. split_and!; [done|by eapply (ss_shared _ _ Hs)|by eapply (ss_used _ _ Hs)]. Qed.

Lemma split_not_kernel m' off : first_page m' = (first_page m + off)%nat → (off + mp_page_count m' ≤ mp_page_count m)%nat → not_kernel (pages x) m'.
Proof.
  intros Hf Hle n q Hc Hq. destruct HI as [_ Ht]. eapply (td_kernel x (Ht i x Hx) k m n q); try done. unfold covers in *. lia.
Qed.

(** No other mapping has pages of this one. *)
Lemma split_apart j m1 n : j ≠ k → mappings x !! j = Some m1 → occupied m1 = true → covers m1 n → ¬ covers m n.
Proof. intros Hne Hj Ho1 Hc1 Hc. destruct HI as [_ Ht]. by eapply Hne, (td_apart x (Ht i x Hx) j k m1 m n). Qed.

Lemma split_first N : (mapping_count x ≤ N)%nat → Inv cfg (set_slot (memory s) i (with_mappings (<[k := prot]> (mappings x)) N x) s).
Proof.
  intros HN. destruct split_shape as (_ & Hs1 & Hs2). eapply (inv_relabel s i x k m prot N); try done; [lia|..].
  - intros _ Hid. destruct (Hwhole Hid) as [-> ->]. split_and!; [done..|]. unfold covers. simpl. lia.
  - intros _. split_and!; [eapply (laid_out_sub _ m prot before); [apply split_laid_out|simpl; lia|done..]|simpl; congruence|apply (split_not_kernel prot before); simpl; lia|].
    intros j m1 n Hne Hj Ho1 Hc1 Hc. eapply (split_apart j m1 n); try done. unfold covers in *. simpl in Hc. lia.
Qed.

Lemma with_mappings_twice l n l' n' y : with_mappings l n (with_mappings l' n' y) = with_mappings l n y.
Proof. done. Qed.

(** One more piece beside the protected part. *)
Lemma split_second j m0 m' off N : shared_identity m = 0 → j ≠ k → mappings x !! j = Some m0 → occupied m0 = false → (mapping_count x ≤ N)%nat → (j < N)%nat →
  shared_identity m' = 0 → heap m' = false → first_page m' = (first_page m + off)%nat → mp_address m' = mp_address m + Z.of_nat off * PAGE_SIZE →
  memory_size m' = Z.of_nat (mp_page_count m') * PAGE_SIZE → (off + mp_page_count m' ≤ before ∨ before + count ≤ off)%nat →
  (off + mp_page_count m' ≤ mp_page_count m)%nat →
  Inv cfg (set_slot (memory s) i (with_mappings (<[j := m']> (<[k := prot]> (mappings x))) N x) s).
Proof.
  intros Hz Hne Hj Ho0 HN HjN Hsh Hh Hf Ha Hs Hout Hle.
  pose proof (split_first N HN) as HI1. set (x1 := with_mappings (<[k := prot]> (mappings x)) N x) in *.
  assert (Hx1 : slots (set_slot (memory s) i x1 s) !! i = Some x1) by (by eapply lookup_set_slot).
  assert (Hj1 : mappings x1 !! j = Some m0) by (simpl; by rewrite list_lookup_insert_ne).
  pose proof (inv_piece _ i x1 j m0 m' N HI1 Hx1 Hph Hj1 Ho0 ltac:(simpl; lia) HjN Hsh Hh) as HI2. rewrite set_slot_twice in HI2. apply HI2.
  - eapply (laid_out_sub _ m m' off); try done. apply split_laid_out.
  - by apply (split_not_kernel m' off).
  - intros j' m1 n Hne' Hj' Ho1 Hc1 Hc. simpl in Hj'. apply lookup_insert_cases in Hj' as [(-> & <- & _)|[Hnk Hj']].
    + unfold covers in *. simpl in *. lia.
    + eapply (split_apart j' m1 n); try done. unfold covers in *. lia.
Qed.

Lemma split_third a b m0 m1 N : shared_identity m = 0 → a ≠ k → b ≠ k → a ≠ b → mappings x !! a = Some m0 → occupied m0 = false →
  mappings x !! b = Some m1 → occupied m1 = false → (mapping_count x ≤ N)%nat → (a < N)%nat → (b < N)%nat →
  Inv cfg (set_slot (memory s) i (with_mappings (<[b := suffix]> (<[a := prefix]> (<[k := prot]> (mappings x)))) N x) s).
Proof.
  intros Hz Hak Hbk Hab Ha Ho0 Hb Ho1 HN HaN HbN.
  assert (HI2 : Inv cfg (set_slot (memory s) i (with_mappings (<[a := prefix]> (<[k := prot]> (mappings x))) N x) s)).
  { eapply (split_second a m0 prefix 0 N); try done; simpl; lia. }
  set (x2 := with_mappings (<[a := prefix]> (<[k := prot]> (mappings x))) N x) in *.
  assert (Hx2 : slots (set_slot (memory s) i x2 s) !! i = Some x2) by (by eapply lookup_set_slot).
  assert (Hb2 : mappings x2 !! b = Some m1) by (simpl; by rewrite !list_lookup_insert_ne).
  pose proof (inv_piece _ i x2 b m1 suffix N HI2 Hx2 Hph Hb2 Ho1 ltac:(simpl; lia) HbN Hz Hheap) as HI3. rewrite set_slot_twice in HI3. apply HI3.
  - eapply (laid_out_sub _ m suffix (before + count)); [apply split_laid_out|simpl; lia|simpl; lia|simpl; lia|done].
  - apply (split_not_kernel suffix (before + count)); simpl; lia.
  - intros j m' n Hne Hj Ho' Hc1 Hc. simpl in Hj. apply lookup_insert_cases in Hj as [(-> & <- & _)|[_ Hj]]; [unfold covers in *; simpl in *; lia|].
    apply lookup_insert_cases in Hj as [(-> & <- & _)|[Hnk Hj]]; [unfold covers in *; simpl in *; lia|].
    eapply (split_apart j m' n); try done. unfold covers in *. simpl in *. lia.
Qed.

Lemma split_inv spare : spare = piece_slots ((if (before =? 0)%nat then 0 else 1) + (if (after =? 0)%nat then 0 else 1)) k (mappings x) →
  length spare = ((if (before =? 0)%nat then 0 else 1) + (if (after =? 0)%nat then 0 else 1))%nat →
  Inv cfg (set_slot (memory s) i (foldl count_mapping (foldl store_mapping x (split_parts m prot k before after stop spare)) spare) s).
Proof.
  intros Hsp Hlen. destruct (piece_slots_spec ((if (before =? 0)%nat then 0 else 1) + (if (after =? 0)%nat then 0 else 1)) k (mappings x)) as [Hnd Hfree].
  rewrite <-Hsp in Hnd, Hfree. clear Hsp. destruct split_shape as (_ & _ & Hkc).
  destruct (Nat.eqb_spec before 0) as [Hb0|Hb0]; destruct (Nat.eqb_spec after 0) as [Ha0|Ha0]; simpl in Hlen.
  - destruct spare; [|done]. apply (split_first (mapping_count x)). done.
  - assert (Hz : shared_identity m = 0) by (destruct (decide (shared_identity m = 0)) as [|Hn]; [done|destruct (Hwhole Hn); lia]).
    destruct spare as [|a [|]]; [done| |done]. destruct (Hfree a) as (Hne & m0 & Hm0 & Ho0); [by left|].
    unfold split_parts. apply Nat.eqb_eq in Hb0 as Hb1. apply Nat.eqb_neq in Ha0 as Ha1. rewrite Hb1, Ha1. simpl.
    eapply (split_second a m0 suffix (before + count) (mapping_count x `max` S a)); try done; simpl; lia.
  - assert (Hz : shared_identity m = 0) by (destruct (decide (shared_identity m = 0)) as [|Hn]; [done|destruct (Hwhole Hn); lia]).
    destruct spare as [|a [|]]; [done| |done]. destruct (Hfree a) as (Hne & m0 & Hm0 & Ho0); [by left|].
    unfold split_parts. apply Nat.eqb_neq in Hb0 as Hb1. apply Nat.eqb_eq in Ha0 as Ha1. rewrite Hb1, Ha1. simpl.
    eapply (split_second a m0 prefix 0 (mapping_count x `max` S a)); try done; simpl; lia.
  - assert (Hz : shared_identity m = 0) by (destruct (decide (shared_identity m = 0)) as [|Hn]; [done|destruct (Hwhole Hn); lia]).
    destruct spare as [|a [|b [|]]]; [done|done| |done]. destruct (Hfree a) as (Hne & m0 & Hm0 & Ho0); [by left|].
    destruct (Hfree b) as (Hne' & m1 & Hm1 & Ho1); [by right; left|]. apply list.NoDup_cons in Hnd as [Hab _].
    unfold split_parts. apply Nat.eqb_neq in Hb0 as Hb1, Ha0 as Ha1. rewrite Hb1, Ha1. simpl.
    eapply (split_third a b m0 m1 ((mapping_count x `max` S a) `max` S b)); try done; [|lia..]. intros ->. apply Hab. by left.
Qed.

End Split.

(** ** The operation *)

(** The frames of two pages of a process are different, unless they are
    shared or the kernel's. *)
Lemma own_frames_differ s i x k k' p p' : Inv cfg s → slots s !! i = Some x → pages x !! k = Some p → pages x !! k' = Some p' → used p → used p' →
  (∀ id, ¬ maps_shared x k id) → frame p ∉ kernel_frames → frame p = frame p' → k = k'.
Proof.
  intros [C _] Hx Hk Hk' Hu Hu' Hns Hnk Hf. pose proof (core_space _ _ _ C i x Hx ltac:(intros [])) as Hsp. unfold slot_space in Hsp.
  destruct (root x) as [r|]; [|by destruct (Hsp k p Hk)]. destruct (st_owner _ _ _ _ _ Hsp k p Hk Hu) as [(_ & _ & Hun)|[(id & [Hs|[]] & _)|?]]; [|by destruct (Hns id)|done].
  symmetry. by eapply Hun.
Qed.

(** The check ties the two ways to find a page: the range starts where the
    mapping does. *)
Lemma verified_start s i x k m prot before : Inv cfg s → slots s !! i = Some x → mappings x !! k = Some m → occupied m = true →
  shared_identity m = 0 → first_page prot = (first_page m + before)%nat → (before < mp_page_count m)%nat → verified i x prot s m 0 → before = O.
Proof.
  intros HI Hx Hk Ho Hz Hf Hlt (p & q & (Hp & _ & _ & Hc) & Hq & Hn). pose proof HI as [C Ht].
  destruct (td_pages x (Ht i x Hx) k m Hk Ho) as (_ & _ & Hl). destruct (Hl 0%nat ltac:(lia)) as (q' & Hq' & Huq & _).
  assert (q' = q) as -> by congruence. destruct (Hl before Hlt) as (p' & Hp' & Hup & _). rewrite Hf, Nat.add_0_r in Hp. assert (p' = p) as -> by congruence.
  destruct (used_page s i x _ p C Hx Hp Hup) as (_ & Hfp & _). destruct (used_page s i x _ q C Hx Hq Huq) as (_ & Hfq & _).
  destruct (checked_entry_bits _ _ Hfp Hc) as (Haddr & _ & _).
  assert (Hfr : frame p = frame q).
  { rewrite <-Haddr. transitivity (Z.land (normalized_user_mapping_entry (leaf_of s i (pg_address p))) PAGE_ADDRESS_MASK).
    - unfold normalized_user_mapping_entry, and_not. rewrite Z.ldiff_land, <-Z.land_assoc. f_equal.
    - rewrite Hn. unfold user_mapping_entry. rewrite <-!Z.lor_assoc. apply flagged_address; [done|]. destruct (permissions m) as [[] [] []]; done. }
  assert (first_page m + before = first_page m + 0)%nat; [|lia]. eapply (own_frames_differ s i x _ _ p q); try done.
  2: { eapply (td_kernel x (Ht i x Hx) k m); try done. unfold covers. lia. }
  intros id (Hid & j & m1 & Hj & Ho1 & Hi1 & Hcov). assert (j = k) as ->; [|congruence].
  eapply (td_apart x (Ht i x Hx) j k m1 m _ Hj Hk Ho1 Ho Hcov). unfold covers. lia.
Qed.

Lemma encloses_spec gen address stop m : encloses gen address stop m = true →
  occupied m = true ∧ heap m = false ∧ mp_address m ≤ address ∧ stop ≤ mp_address m + memory_size m.
Proof.
  unfold encloses. rewrite !andb_true_iff. intros [[[[[H1 _] H2%negb_true_iff] _] H3%Z.leb_le] H4].
  destruct (checked_add _ _ _) as [e|] eqn:He; [|done]. apply checked_add_Some in He as [-> _]. apply Z.leb_le in H4. done.
Qed.

Lemma inv_with_memory s m' : Inv cfg s → Core cfg at_rest (with_memory m' s) → Inv cfg (with_memory m' s).
Proof. intros [_ Ht] C. by split. Qed.

Section Checked.
Context (i k before count : nat) (x : FrameBackedSlot) (m : MappingRecord) (address : Z) (p : MappingPermissions) (s : State).
Context (HI : Inv cfg s) (Hx : slots s !! i = Some x) (Hph : phase x = Committed) (Hk : mappings x !! k = Some m) (Ho : occupied m = true).
Context (Hheap : heap m = false) (Hfit : (before + count ≤ mp_page_count m)%nat) (Hne : (0 < count)%nat).
Context (Hwhole : shared_identity m ≠ 0 → before = O ∧ count = mp_page_count m).
Context (Hal : (PAGE_SIZE | address)) (Hp : wx_free p).

Abbreviation part := (mapping_at m address (Z.of_nat count * PAGE_SIZE) (first_page m + before) count).

Lemma part_used h q : (h < count)%nat → pages x !! (first_page part + h)%nat = Some q → used q.
Proof.
  intros Hh Hq. destruct HI as [_ Ht]. destruct (td_pages x (Ht i x Hx) k m Hk Ho) as (_ & _ & Hl).
  destruct (Hl (before + h)%nat ltac:(lia)) as (q' & Hq' & Hu & _). rewrite Nat.add_assoc in Hq'. simpl in Hq. by assert (q' = q) as -> by congruence.
Qed.

Context (Hver : ∀ h, (h < count)%nat → verified i x part s m h).

Lemma part_ready h : (h < count)%nat → ∃ q, leaf_ready s i x part h q ∧ used q.
Proof. intros Hh. destruct (Hver h Hh) as (q & q' & Hr & _). exists q. split; [done|]. eapply part_used; [exact Hh|apply Hr]. Qed.

Lemma part_start : before = O ∧ address = mp_address m.
Proof.
  assert (Hb : before = O).
  { destruct (decide (shared_identity m = 0)) as [Hz|Hz]; [|by destruct (Hwhole Hz)].
    eapply (verified_start s i x k m part before); try done; [lia|by apply Hver]. }
  split; [done|]. destruct (Hver 0%nat Hne) as (q & _ & (Hq & _ & Hqa & _) & _). destruct HI as [_ Ht].
  destruct (td_pages x (Ht i x Hx) k m Hk Ho) as (_ & _ & Hl). destruct (Hl 0%nat ltac:(lia)) as (q' & Hq' & _ & Hqa').
  simpl in Hq, Hqa. rewrite Hb, Nat.add_0_r in Hq. assert (q' = q) as -> by congruence. lia.
Qed.

(** The leaf of an address of the range. *)
Lemma part_leaf a : address ≤ a < address + Z.of_nat count * PAGE_SIZE →
  Z.land (leaf_of s i a) ENTRY_PRESENT ≠ 0 ∧ Z.land (leaf_of s i a) PERMISSION_BITS = permission_bits (permissions m).
Proof.
  intros Ha. set (h := Z.to_nat ((a - address) / PAGE_SIZE)). assert (Hh : (h < count)%nat).
  { unfold h, PAGE_SIZE in *. assert ((a - address) / 4096 < Z.of_nat count) by (apply Z.div_lt_upper_bound; lia).
    assert (0 ≤ (a - address) / 4096) by (apply Z.div_pos; lia). lia. }
  destruct (Hver h Hh) as (q & q' & (Hq & _ & Hqa & Hc) & Hq' & Hn). pose proof (part_used h q Hh Hq) as Hu. destruct HI as [C Ht].
  destruct (used_page s i x _ q C Hx Hq Hu) as (_ & Hfq & _). destruct (checked_entry_bits _ _ Hfq Hc) as (_ & _ & Hpr).
  assert (Hl : leaf_of s i a = leaf_of s i (pg_address q)).
  { apply leaf_of_page. rewrite Hqa. exact (page_of_in address a Hal ltac:(lia)). }
  rewrite Hl, Hpr. split; [done|]. rewrite <-normalized_permissions, Hn. apply user_entry_permissions.
  destruct (td_pages x (Ht i x Hx) k m Hk Ho) as (_ & _ & Hlo). destruct (Hlo h ltac:(lia)) as (q2 & Hq2 & Hu2 & _).
  assert (q2 = q') as -> by congruence. by eapply (used_page s i x _ q' C Hx Hq').
Qed.

Lemma part_unchanged : permissions m = p → protected_leaves i address (address + Z.of_nat count * PAGE_SIZE) p s s.
Proof.
  intros Heq j a Hua. destruct (decide _) as [[-> Ha]|]; [|done]. symmetry. apply replace_same. rewrite <-Heq. by apply part_leaf.
Qed.

Lemma part_apply spare :
  let after := (mp_page_count m - before - count)%nat in
  let needed := ((if (before =? 0)%nat then 0 else 1) + (if (after =? 0)%nat then 0 else 1))%nat in
  spare = piece_slots needed k (mappings x) → length spare = needed →
  wp (mprotect_apply cfg count i part p 0;;
      on_slot i (λ slot, foldl count_mapping
        (foldl store_mapping slot (split_parts m (with_seal p part) k before after (address + Z.of_nat count * PAGE_SIZE) spare)) spare))
    (λ _ s', Inv cfg s' ∧ protected_leaves i address (address + Z.of_nat count * PAGE_SIZE) p s s') (λ _ _, False) s.
Proof.
  intros after needed Hsp Hlen. pose proof HI as [C _]. destruct part_start as [Hb Haddr].
  assert (0 ≤ address).
  { destruct (Hver 0%nat Hne) as (q & _ & (Hq & _ & Hqa & _) & _). destruct (used_page s i x _ q C Hx Hq (part_used 0 q Hne Hq)) as ((? & _) & _). simpl in Hqa. lia. }
  wp_step. eapply wp_mono; [apply (mprotect_apply_spec i x part Hal ltac:(done) p count Hp 0 s C Hx); intros h Hh; apply part_ready; lia| |done].
  intros ? s1 (C1 & (m' & ->) & Hpr). eapply wp_on_slot; [exact Hx|].
  pose proof (inv_with_memory s m' HI C1) as HI1. split.
  - pose proof (split_inv i k before count after x m p (with_memory m' s) HI1 Hx Hph Hk Ho Hheap ltac:(unfold after; lia)
      ltac:(intros Hz; destruct (Hwhole Hz); unfold after; lia) spare Hsp Hlen) as HI2.
    replace (mp_address m + Z.of_nat before * PAGE_SIZE) with address in HI2 by (rewrite Hb, Haddr; lia). exact HI2.
  - intros j b Hua. specialize (Hpr j b Hua). unfold page_va in Hpr. cbn [mp_address mapping_at] in Hpr. rewrite Z.add_0_r in Hpr.
    etransitivity; [|exact Hpr]. apply (leaf_of_set_slot (with_memory m' s) i x); [done|].
    assert (Hroot : ∀ l y, root (foldl store_mapping y l) = root y) by (intros l; induction l as [|[] l IH]; intros y; [done|simpl; by rewrite IH]).
    assert (Hroot' : ∀ l y, root (foldl count_mapping y l) = root y) by (intros l; induction l as [|? l IH]; intros y; [done|simpl; by rewrite IH]).
    by rewrite Hroot', Hroot.
Qed.

End Checked.

Lemma mprotect_spec process address len p s : Inv cfg s → 0 ≤ len →
  let i := ph_slot process in
  let stop := address + (len + (PAGE_SIZE - 1)) / PAGE_SIZE * PAGE_SIZE in
  wp (linux_mprotect cfg process address len p)
    (λ _ s', Inv cfg s' ∧ (∃ x k m, slots s !! i = Some x ∧ mappings x !! k = Some m ∧ occupied m = true ∧ mp_address m = address)
       ∧ (∀ a, address ≤ a < stop → Z.land (leaf_of s i a) ENTRY_PRESENT ≠ 0) ∧ protected_leaves i address stop p s s')
    (λ _ s', s' = s) s.
Proof.
  intros HI Hlen i stop. pose proof HI as [C Ht]. unfold linux_mprotect. wp_step. eapply wp_mono; [apply process_slot_spec| |done].
  intros i' ? (-> & Hi & x & Hx & Hph & _). change (i' = i) in Hi. subst i'.
  do 2 wp_step. wp_step. apply wp_ensure; [intros Hargs|done]. wp_step. apply wp_ok_or; [intros len' Hr|done].
  wp_step. apply wp_ok_or; [intros stop' [Hstop _]%checked_add_Some|done].
  rewrite (the_slot_eq cfg s i x Hx). wp_step. apply wp_ok_or; [intros k (m & Hk & (Ho & Hheap & Hle & _)%encloses_spec)%position_lookup|done].
  rewrite (slot_at_Some _ _ _ _ Hk). set (before := Z.to_nat ((address - mp_address m) / PAGE_SIZE)).
  wp_step. apply wp_ensure; [intros Hg|done]. wp_step. apply wp_ok_or; [intros first Hf%try_u16_Some|done].
  wp_step. apply wp_ok_or; [intros count Hc%try_u16_Some|done]. wp_step. apply wp_ensure; [intros Hsp%Nat.eqb_eq|done].
  wp_step. apply wp_ensure; [intros _|done]. subst first. rewrite <-Hc in Hg.
  destruct (round_up_pages len len' Hr Hlen) as [Hl1 Hl2]. assert (Hcnt : Z.of_nat count * PAGE_SIZE = len').
  { rewrite Hc, Hl2, Z2Nat.id; [done|]. apply Z.div_pos; unfold PAGE_SIZE; lia. }
  assert (Hst : stop = address + Z.of_nat count * PAGE_SIZE) by (unfold stop; lia). assert (stop' = stop) as -> by lia. rewrite Hst in *. rewrite <-Hcnt.
  apply negb_true_iff in Hg, Hargs. rewrite !orb_false_iff in Hg. rewrite !orb_false_iff in Hargs. destruct Hg as [[Hne%Nat.eqb_neq Hfit%Nat.ltb_ge] Hrel].
  destruct Hargs as [[[[_ Hal] _] _] Hp]. apply negb_false_iff, Z.eqb_eq, page_aligned in Hal.
  assert (Hwhole : shared_identity m ≠ 0 → before = O ∧ count = mp_page_count m).
  { intros Hz. destruct (ss_shared _ _ (core_shape _ _ _ C i x Hx) k m Hk Ho Hz) as [Hre _]. rewrite Hre in Hrel. simpl in Hrel.
    apply orb_false_iff in Hrel as [H1%negb_false_iff%Nat.eqb_eq H2%negb_false_iff%Nat.eqb_eq]. done. }
  assert (H0 : 0 ≤ address).
  { destruct (td_pages x (Ht i x Hx) k m Hk Ho) as (_ & _ & Hlo). destruct (Hlo 0%nat ltac:(lia)) as (q & Hq & Hu & Hqa).
    destruct (used_page s i x _ q C Hx Hq Hu) as ([? _] & _). lia. }
  wp_step. eapply wp_mono.
  - eapply (mprotect_verify_spec i x (mapping_at m address (Z.of_nat count * PAGE_SIZE) (first_page m + before) count) H0 m s count C Hx 0). intros j q Hj. eapply (part_used i k before count x m address s HI Hx Hk Ho Hfit); try done; lia.
  - intros ? ? [-> Hver]. assert (Hver' : ∀ h, (h < count)%nat → verified i x (mapping_at m address (Z.of_nat count * PAGE_SIZE) (first_page m + before) count) s m h).
    { intros h Hh. apply Hver. lia. }
    destruct (part_start i k before count x m address s) as [_ Haddr]; try done; [lia|].
    assert (Hpres : ∀ a, address ≤ a < address + Z.of_nat count * PAGE_SIZE → Z.land (leaf_of s i a) ENTRY_PRESENT ≠ 0).
    { intros b Hb. eapply (part_leaf i k before count x m address s); try done. lia. }
    assert (Hm : ∃ x k m, slots s !! i = Some x ∧ mappings x !! k = Some m ∧ occupied m = true ∧ mp_address m = address) by (by exists x, k, m).
    wp_step.
    + wp_step. split_and!; [done..|]. apply bool_decide_eq_true in Heqb. eapply (part_unchanged i k before); try done. lia.
    + eapply wp_mono; [apply (part_apply i k before count x m address p s); try done; lia| |done]. intros ? s' [HI' Hpr]. done.
  - intros ? ? ->. done.
Qed.

End Protect.
