(* ===== verification/SpaceEnd.v ===== *)
(** * The end of an address space

    [release_owned], [cleanup_transaction] and [release_process] of
    process/x86_64.rs: the references to shared objects are dropped, and then
    every frame of the process is given back. *)

From stdpp Require Import prelude list numbers.
From Stdlib Require Import ZArith Lia.
From S2P Require Import Prelude.
From S2P Require Import Wp.
From S2P Require Import AddressSpace.
From S2P Require Import PageTree.
From S2P Require Import SpaceInv.
From S2P Require Import SpaceSteps.
From S2P Require Import SpacePages.
From S2P Require Import SpaceShared.
From S2P Require Import SpaceOps.

Section End_.
Context {Mem E : Type} `{!FrameMemory Mem E, KF : !KernelFrames, !FrameMemoryLaws Mem E} (cfg : Config).
Abbreviation State := (FrameBackedAddressSpace Mem).
Abbreviation SM := (M State (FrameBackedError E)).
Implicit Types (s : State) (g : Flight).

(** Releasing frames that are in use never fails. *)
Lemma release_each_spec fs : ∀ m, mem_ok m → NoDup fs → Forall (live m) fs →
  ∃ m', release_each fs m = ([], None, m') ∧ mem_ok m' ∧ (∀ h, live m' h ↔ live m h ∧ h ∉ fs)
        ∧ ∀ h j, live m' h → 0 ≤ j < 512 → entries m' h j = entries m h j.
Proof.
  induction fs as [|f fs IH]; intros m Hm Hnd Hl; simpl.
  { exists m. split_and!; try done. intros h. split; [intros ?; split; [done|apply not_elem_of_nil]|by intros []]. }
  apply list.NoDup_cons in Hnd as [Hf Hnd]. apply Forall_cons_1 in Hl as [Hlf Hl].
  destruct (law_release m f Hm Hlf) as (m1 & -> & Hm1 & Hl1 & He1). destruct (IH m1) as (m2 & -> & Hm2 & Hl2 & He2); try done.
  { rewrite list.Forall_forall in *. intros h Hh. apply Hl1. split; [by apply Hl|by intros ->]. }
  exists m2. split_and!; [done..| |].
  - intros h. rewrite Hl2, Hl1, list.not_elem_of_cons. tauto.
  - intros h j Hh Hj. rewrite He2 by done. apply He1; [by apply Hl2|done].
Qed.

(** Slot [i] is being torn down. *)
Definition tearing (i : nat) : Flight := mkFlight (λ _ _ _, False) (λ j, j = i) (λ _, 0).

Lemma core_tearing s i : Core cfg at_rest s → Core cfg (tearing i) s.
Proof. intros [C1 C2 C3 C4 C5 C6 C7 C8 C9 C10]. split; try done. intros j x Hx _. by apply C5; [|intros []]. Qed.

(** The empty slot that is left. *)
Definition vacated (x : FrameBackedSlot) : FrameBackedSlot :=
  with_root None (with_owned (replicate (MAXIMUM_OWNED_FRAMES cfg) 0) 0 (reset cfg (with_phase Free x))).

Lemma vacated_mappings x j m : mappings (vacated x) !! j = Some m → occupied m = false.
Proof. change (mappings (vacated x)) with (replicate MAXIMUM_PROCESS_SEGMENTS EMPTY_MAPPING). intros [-> _]%lookup_replicate. done. Qed.
Lemma vacated_pages x k p : pages (vacated x) !! k = Some p → ¬ used p.
Proof. change (pages (vacated x)) with (replicate (MAXIMUM_PROCESS_PAGES cfg) EMPTY_PAGE). intros [-> _]%lookup_replicate. apply unused_empty. Qed.
Lemma vacated_mapcount x id : mapcount id (vacated x) = O.
Proof. apply countb_zero. intros j m Hm. by rewrite (vacated_mappings x j m Hm). Qed.

Lemma vacated_shape x : slot_shape cfg (vacated x).
Proof.
  split; [apply length_replicate..|simpl; lia| | |done]; intros j m Hj Ho; by rewrite (vacated_mappings x j m Hj) in Ho.
Qed.

Lemma vacated_tidy x : tidy (vacated x).
Proof.
  split; try done.
  - intros k p _. apply vacated_pages.
  - intros j m Hj Ho. by rewrite (vacated_mappings x j m Hj) in Ho.
  - intros j j' m m' k Hj _ Ho. by rewrite (vacated_mappings x j m Hj) in Ho.
  - intros _. split_and!; [done..|intros k p; apply vacated_pages|intros j m; apply vacated_mappings].
  - intros j m Hj Ho. by rewrite (vacated_mappings x j m Hj) in Ho.
  - intros j m k p Hj Ho. by rewrite (vacated_mappings x j m Hj) in Ho.
Qed.

(** What remains after slot [i] gave all its frames back. *)
Definition released (i : nat) (x : FrameBackedSlot) (s s' : State) : Prop :=
  Core cfg at_rest s' ∧ (∃ m' act, s' = mkAddressSpace m' (kernel_root s) act (<[i := vacated x]> (slots s)) (shared s))
  ∧ (∀ h, live (memory s') h ↔ live (memory s) h ∧ h ∉ owned x)
  ∧ ∀ j a, j ≠ i → user_address a → leaf_of s' j a = leaf_of s j a.

Lemma core_vacate s i x m' act : Core cfg (tearing i) s → slots s !! i = Some x → mem_ok m' →
  (∀ id, id ≠ 0 → mapcount id x = O) → (∀ h, live m' h ↔ live (memory s) h ∧ h ∉ owned x) →
  (∀ h j, live m' h → 0 ≤ j < 512 → entries m' h j = entries (memory s) h j) → (∀ k, act = Some k → active_slot s = Some k ∧ k ≠ i) →
  released i x s (mkAddressSpace m' (kernel_root s) act (<[i := vacated x]> (slots s)) (shared s)).
Proof.
  intros C Hx Hm Hmc Hl He Hact.
  assert (Hrest : ∀ f, f ∈ rest i s → live m' f).
  { intros f Hf. apply Hl. split; [|intros Ho; by eapply owned_not_rest]. eapply (core_owned_live cfg (tearing i) s); [done|]. by eapply rest_in_ledger. }
  assert (Heq : equal_on (rest i s) (entries (memory s)) (entries m')) by (intros t j Ht Hj; apply He; [by apply Hrest|done]).
  assert (HC : Core cfg at_rest (mkAddressSpace m' (kernel_root s) act (<[i := vacated x]> (slots s)) (shared s))).
  { eapply (core_slot_step cfg (tearing i) at_rest s i x (vacated x) m' act); try done.
    - pose proof (core_nodup _ _ _ C) as Hnd. rewrite (ledger_slot s i x Hx) in Hnd. by apply list.NoDup_app in Hnd as (_ & _ & ?).
    - intros t j Ht Hj. rewrite (Heq t j Ht Hj). apply same_entry_refl.
    - apply vacated_shape.
    - intros _. unfold slot_space. intros k p. apply (vacated_pages x).
    - intros id Hid. by rewrite vacated_mapcount, (Hmc id Hid).
    - intros k Hk. left. by apply Hact. }
  split_and!; [done|by eexists _, _|done|].
  intros j a Hne Ha. unfold leaf_of. simpl. rewrite list_lookup_insert_ne by done.
  destruct (slots s !! j) as [y|] eqn:Hy; [|done]. destruct (root y) as [r|] eqn:Hr; [|done].
  pose proof (core_space _ _ _ C j y Hy Hne) as Hsp. unfold slot_space in Hsp. rewrite Hr in Hsp.
  eapply leaf_equal; [apply (st_hier _ _ _ _ _ Hsp)| |done]. intros t k Ht Hk. apply Heq; [|done]. eapply owned_in_rest; [|exact Hy|exact Ht]. done.
Qed.

Lemma vacate_spec s i x : Core cfg (tearing i) s → slots s !! i = Some x → (∀ id, id ≠ 0 → mapcount id x = O) → active_slot s ≠ Some i →
  wp (on_slot i (with_phase Free);; reset_records cfg i;; release_owned cfg i) (λ _ s', released i x s s' ∧ active_slot s' = active_slot s) (λ _ _, False) s.
Proof.
  intros C Hx Hmc Hact. wp_step. eapply wp_on_slot; [exact Hx|]. wp_step. eapply wp_on_slot; [simpl; apply list_lookup_insert_eq; by eapply lookup_lt_Some|].
  simpl. rewrite list_insert_insert_eq. set (y := reset cfg (with_phase Free x)). unfold release_owned.
  assert (Hy : <[i := y]> (slots s) !! i = Some y) by (apply list_lookup_insert_eq; by eapply lookup_lt_Some).
  wp_step. apply wp_getS. rewrite (the_slot_eq cfg _ i y) by done. change (take (owned_frame_count y) (owned_frames y)) with (owned x). simpl.
  destruct (release_each_spec (reverse (owned x)) (memory s)) as (m' & -> & Hm & Hl & He).
  { apply C. }
  { rewrite reverse_Permutation. pose proof (core_nodup _ _ _ C) as Hnd. rewrite (ledger_slot s i x Hx) in Hnd. by apply list.NoDup_app in Hnd as [? _]. }
  { rewrite Forall_reverse. apply list.Forall_forall. intros f Hf. eapply (core_owned_live cfg _ s); [done|]. by eapply owned_in_ledger. }
  wp_step. wp_step. wp_step. eapply wp_on_slot; [exact Hy|]. wp_step. cbn [length app]. rewrite Nat.sub_0_r. simpl. rewrite list_insert_insert_eq.
  split; [|done]. eapply (core_vacate s i x); try done; [setoid_rewrite elem_of_reverse in Hl; exact Hl|]. intros k Hk. split; [done|congruence].
Qed.

Lemma core_inactive g s : Core cfg g s → Core cfg g (mkAddressSpace (memory s) (kernel_root s) None (slots s) (shared s)).
Proof. intros [C1 C2 C3 C4 C5 C6 C7 C8 C9 C10]. by split. Qed.

Lemma cleanup_spec s i x : Core cfg (tearing i) s → slots s !! i = Some x → (∀ id, id ≠ 0 → mapcount id x = O) →
  wp (cleanup_transaction cfg i) (λ _ s', released i x s s' ∧ active_slot s' = None) (λ _ _, False) s.
Proof.
  intros C Hx Hmc. unfold cleanup_transaction, set_active. wp_step. wp_step.
  eapply wp_mono; [eapply (vacate_spec (mkAddressSpace (memory s) (kernel_root s) None (slots s) (shared s)) i x); try done; by apply core_inactive| |done].
  intros ? s' [(C' & (m' & act & ->) & Hl & Hlf) Ha]. split; [|done]. split_and!; [done|by eexists _, _|done|done].
Qed.

(** Every other slot is as it was. *)
Lemma released_inv s0 s i x s' : (∀ j y, j ≠ i → slots s0 !! j = Some y → tidy y) → slots s = slots s0 → released i x s s' → Inv cfg s'.
Proof.
  intros Ht Hs (C' & (m' & act & ->) & _). split; [done|]. intros j y Hy. simpl in Hy.
  apply lookup_insert_cases in Hy as [(-> & <- & _)|[Hne Hy]]; [apply vacated_tidy|]. rewrite Hs in Hy. by eapply (Ht j).
Qed.

(** ** Dropping the references to shared objects *)

Lemma core_torn_step g g' s i x x' : Core cfg g s → slots s !! i = Some x → torn_down g' i → owned x' = owned x → phase x' = phase x → slot_shape cfg x' →
  (∀ id, id ≠ 0 → Z.of_nat (mapcount id x') + unaccounted g' id = Z.of_nat (mapcount id x) + unaccounted g id) →
  (∀ j, j ≠ i → mapping_in g' j = mapping_in g j ∧ (torn_down g j → torn_down g' j)) → Core cfg g' (set_slot (memory s) i x' s).
Proof.
  intros C Hx Ht Ho Hph Hsh Hmc Hfl. pose proof (core_nodup _ _ _ C) as Hnd. pose proof (core_frames _ _ _ C) as Hfr.
  rewrite (ledger_slot s i x Hx) in Hnd, Hfr. apply Forall_app in Hfr as [Hf1 Hf2].
  eapply (core_slot_step cfg g g' s i x x'); rewrite ?Ho; try done; [apply C| |].
  - intros f Hf. rewrite list.Forall_forall in Hf2. by apply Hf2.
  - intros k Hk. destruct (decide (k = i)) as [->|]; [right|by left]. split; [done|].
    destruct (core_active _ _ _ C i Hk) as (y & Hy & Hst). congruence.
Qed.

Definition forget_object (m : MappingRecord) : MappingRecord :=
  mkMapping (occupied m) (sealed m) (releasable m) (heap m) (mp_generation m) (mp_address m) (memory_size m) (first_page m) (mp_page_count m)
    (permissions m) 0 (shared_page_offset m).

(** Slot [i] after mappings forgot their objects. *)
Record forgotten (i : nat) (D : nat → Prop) (x : FrameBackedSlot) (s s' : State) : Prop := {
  fg_core : Core cfg (tearing i) s';
  fg_slot : ∃ l, slots s' = <[i := with_mappings l (mapping_count x) x]> (slots s)
    ∧ ∀ j m, l !! j = Some m → occupied m = true → shared_identity m ≠ 0 → mappings x !! j = Some m ∧ ¬ D j;
  fg_active : active_slot s' = active_slot s;
  fg_leaf : ∀ j a, j ≠ i → user_address a → leaf_of s' j a = leaf_of s j a;
}.

Lemma with_mappings_same x : with_mappings (mappings x) (mapping_count x) x = x.
Proof. by destruct x. Qed.

Lemma forgotten_skip i (D D' : nat → Prop) k x s s' : (∀ j, D' j ↔ j = k ∨ D j) →
  (∀ m, mappings x !! k = Some m → occupied m = true → shared_identity m = 0) → forgotten i D x s s' → forgotten i D' x s s'.
Proof.
  intros HD Hk [H1 (l & H2 & H3) H4 H5]. split; try done. exists l. split; [done|]. intros j m Hj Ho Hz. destruct (H3 j m Hj Ho Hz) as [Hm Hn].
  split; [done|]. intros [->|]%HD; [|done]. by apply Hz, Hk.
Qed.

(** The step of the loop that drops a reference. *)
Lemma forget_step s i x k m : Core cfg (tearing i) s → slots s !! i = Some x → mappings x !! k = Some m → occupied m = true → shared_identity m ≠ 0 →
  wp (drop_shared_mapping_reference (shared_identity m);; on_slot i (alter_mapping forget_object k) : SM unit)
    (λ _ s1, forgotten i (λ j, j = k) x s s1) (λ _ _, False) s.
Proof.
  intros C Hx Hk Ho Hz. assert (Hcnt : (0 < mapped_count (shared_identity m) s)%nat).
  { pose proof (sum_le (mapcount (shared_identity m)) (slots s) i x Hx). unfold mapped_count.
    assert (0 < mapcount (shared_identity m) x)%nat; [|lia]. eapply countb_pos; [exact Hk|]. by rewrite Ho, Z.eqb_refl. }
  wp_step. eapply wp_mono; [eapply (drop_reference_spec cfg (tearing i) s (shared_identity m)); try done; [simpl; lia|]| |done].
  { simpl. intros H1 j y n p Hy Hne _ _ [Hs|[]]. destruct (sole_mapping s i k x m j y n (shared_identity m)) as [-> _]; try done; lia. }
  intros ? s1 [C1 (kb & (b' & m' & ->) & Hl)]. eapply wp_on_slot; [exact Hx|]. set (x' := alter_mapping forget_object k x).
  assert (Hm' : mappings x' = <[k := forget_object m]> (mappings x)) by (by apply alter_insert_eq). split.
  - eapply (core_torn_step _ (tearing i) (set_backing m' kb b' s) i x x'); try done.
    + destruct (core_shape _ _ _ C i x Hx) as [S1 S2 S3 S4 S5 S6 S7]. split; try done.
      * rewrite Hm', length_insert. done.
      * intros j m1 Hj Ho1. rewrite Hm' in Hj. apply lookup_insert_cases in Hj as [(-> & <- & _)|[_ Hj]]; [by eapply S5|by eapply S5].
      * intros j m1 Hj Ho1. rewrite Hm' in Hj. apply lookup_insert_cases in Hj as [(-> & <- & _)|[_ Hj]]; [done|by eapply S6].
      * intros Hst. destruct (S7 Hst) as (H1 & H2 & H3). split_and!; [done..|]. intros j m1 Hj Ho1. rewrite Hm' in Hj.
        apply lookup_insert_cases in Hj as [(-> & <- & _)|[_ Hj]]; [|by apply (H3 j)]. destruct (H3 _ _ Hk Ho). done.
    + intros id Hid. pose proof (mapcount_insert id x x' k m (forget_object m) Hk Hm') as Hc. rewrite Ho in Hc.
      apply not_eq_sym, Z.eqb_neq in Hid. change (shared_identity (forget_object m)) with 0 in Hc. rewrite Hid, andb_false_r in Hc.
      simpl. rewrite (Z.eqb_sym id).
      destruct (shared_identity m =? id); simpl in *; lia.
  - exists (mappings x'). split; [by rewrite <-(with_mappings_same x') at 1|]. intros j m1 Hj Ho1 Hz1. rewrite Hm' in Hj.
    apply lookup_insert_cases in Hj as [(-> & <- & _)|[Hne Hj]]; [done|]. split; [done|congruence].
  - done.
  - intros j h Hne Hh. rewrite <-(Hl j h Hne Hh). unfold leaf_of. simpl. by rewrite list_lookup_insert_ne.
Qed.

Lemma forgotten_trans i (D D' D'' : nat → Prop) x s s1 s2 : slots s !! i = Some x → (∀ j, D'' j ↔ D j ∨ D' j) → forgotten i D x s s1 →
  (∀ x1, slots s1 !! i = Some x1 → forgotten i D' x1 s1 s2) → forgotten i D'' x s s2.
Proof.
  intros Hx HD [H1 (l & H2 & H3) H4 H5] Hnext. assert (Hx1 : slots s1 !! i = Some (with_mappings l (mapping_count x) x)).
  { rewrite H2. apply list_lookup_insert_eq. by eapply lookup_lt_Some. }
  destruct (Hnext _ Hx1) as [K1 (l' & K2 & K3) K4 K5]. split; [done| |congruence|].
  - exists l'. split; [by rewrite K2, H2, list_insert_insert_eq|]. intros j m Hj Ho Hz. destruct (K3 j m Hj Ho Hz) as [Hm Hn].
    destruct (H3 j m Hm Ho Hz) as [Hm' Hn']. split; [done|]. rewrite HD. tauto.
  - intros j a Hne Ha. rewrite K5, H5; done.
Qed.

Lemma forgotten_refl i x s : Core cfg (tearing i) s → slots s !! i = Some x → forgotten i (λ _, False) x s s.
Proof.
  intros C Hx. split; try done. exists (mappings x). split; [by rewrite with_mappings_same, (insert_same_slot s i x)|]. intros j m Hj Ho Hz. split; [done|by intros []].
Qed.

Lemma drop_slot_spec i n : ∀ k s x, Core cfg (tearing i) s → slots s !! i = Some x →
  wp (drop_slot_shared_mappings cfg n i k) (λ _ s', forgotten i (range k n) x s s') (λ _ _, False) s.
Proof.
  induction n as [|n IH]; intros k s x C Hx; simpl.
  { wp_step. destruct (forgotten_refl i x s C Hx) as [H1 (l & H2 & H3) H4 H5]. split; try done. exists l. split; [done|].
    intros j m Hj Ho Hz. destruct (H3 j m Hj Ho Hz). split; [done|]. unfold range. lia. }
  wp_step. eapply wp_get_slot; [exact Hx|]. wp_step.
  destruct (mappings x !! k) as [m|] eqn:Hk.
  - rewrite (slot_at_Some _ _ _ _ Hk). destruct (occupied m && _) eqn:Hc.
    + apply andb_true_iff in Hc as [Ho Hz%negb_true_iff%Z.eqb_neq].
      eapply wp_mono; [by eapply (forget_step s i x k m)| |done]. intros ? s1 H1.
      assert (Hx1 : ∃ x1, slots s1 !! i = Some x1).
      { destruct (fg_slot _ _ _ _ _ H1) as (l & -> & _). eexists. apply list_lookup_insert_eq. by eapply lookup_lt_Some. }
      destruct Hx1 as [x1 Hx1]. eapply wp_mono; [by apply (IH (S k) s1 x1); [apply H1|]| |done]. intros ? s2 H2.
      eapply (forgotten_trans i (λ j, j = k) (range (S k) n)); [done|intros j; apply range_S|exact H1|]. intros x2 Hx2. assert (x2 = x1) as -> by congruence. exact H2.
    + wp_step. eapply wp_mono; [by apply (IH (S k) s x)| |done]. intros ? s' H. eapply (forgotten_skip i (range (S k) n) _ k); [intros j; apply range_S| |exact H].
      intros m' Hm' Ho. assert (m' = m) as -> by congruence. rewrite Ho in Hc. by apply negb_false_iff, Z.eqb_eq in Hc.
  - unfold slot_at. rewrite Hk. simpl. wp_step. eapply wp_mono; [by apply (IH (S k) s x)| |done]. intros ? s' H.
    eapply (forgotten_skip i (range (S k) n) _ k); [intros j; apply range_S|congruence|exact H].
Qed.

(** Nothing is left of the process, and nothing else has changed. Only a stale
    handle and the active process are refused. *)
Lemma release_process_spec active_root process s x : Core cfg (tearing (ph_slot process)) s → slots s !! ph_slot process = Some x →
  (∀ j y, j ≠ ph_slot process → slots s !! j = Some y → tidy y) →
  wp (release_process cfg active_root process)
    (λ _ s', Inv cfg s' ∧ (phase x = Committed ∧ generation x = ph_generation process) ∧ address_space_root (process_info x) ≠ Some active_root ∧ (∃ y, slots s' !! ph_slot process = Some y ∧ phase y = Free ∧ root y = None)
       ∧ (∀ f, f ∈ owned x → ¬ live (memory s') f) ∧ ∀ j a, j ≠ ph_slot process → user_address a → leaf_of s' j a = leaf_of s j a)
    (λ _ s', s' = s ∧ (phase x = Committed → generation x = ph_generation process → is_Some (address_space_root (process_info x)) →
       address_space_root (process_info x) = Some active_root)) s.
Proof.
  intros C Hx Ht. unfold release_process. wp_step. unfold process_slot. do 2 wp_step. rewrite Hx. wp_step.
  apply wp_ensure; [intros [Hph%bool_decide_eq_true Hgen%Z.eqb_eq]%andb_true_iff|].
  2: { intros Hf. split; [done|]. intros Hph Hg _. rewrite bool_decide_eq_true_2, Hg, Z.eqb_refl in Hf by done. done. }
  wp_step. set (i := ph_slot process) in *.
  wp_step. eapply wp_get_slot; [exact Hx|]. wp_step. apply wp_ok_or; [intros top Htop|intros Hno; split; [done|]; intros _ _ [? ?]; congruence].
  wp_step. apply wp_ensure; [intros Hne%negb_true_iff%Z.eqb_neq|intros Heq%negb_false_iff%Z.eqb_eq; split; [done|]; congruence].
  wp_step. eapply wp_mono; [by apply (drop_slot_spec i _ 0 s x)| |done]. intros ? s1 [C1 (l & Hs1 & Hl) Hact Hleaf].
  set (x1 := with_mappings l (mapping_count x) x) in *.
  assert (Hx1 : slots s1 !! i = Some x1) by (rewrite Hs1; apply list_lookup_insert_eq; by eapply lookup_lt_Some).
  eapply wp_mono; [eapply (vacate_spec s1 i x1); try done| |done].
  - intros id Hid. apply countb_zero. intros j m Hj. destruct (occupied m) eqn:Ho; [|done]. apply Z.eqb_neq. intros Heq.
    destruct (Hl j m Hj Ho ltac:(congruence)) as [Hm Hn]. apply Hn. pose proof (ss_used _ _ (core_shape _ _ _ C i x Hx) j m Hm Ho). unfold range. lia.
  - rewrite Hact. intros Ha. destruct (core_active _ _ _ C i Ha) as (z & Hz & Hst). congruence.
  - intros ? s' [Hre _]. split_and!.
    + eapply (released_inv s1 s1 i x1 s'); [|done..]. intros j z Hne' Hz. rewrite Hs1, list_lookup_insert_ne in Hz by done. by eapply Ht.
    + done.
    + done.
    + congruence.
    + destruct Hre as (_ & (m' & act & ->) & _). eexists. split; [simpl; apply list_lookup_insert_eq; by eapply lookup_lt_Some|done].
    + intros f Hf Hlive. destruct Hre as (_ & _ & Hlv & _). apply Hlv in Hlive as [_ Hn]. by apply Hn.
    + intros j h Hne' Hh. destruct Hre as (_ & _ & _ & Hlf). rewrite Hlf, Hleaf; done.
Qed.

(** A free slot owns nothing, so that there is nothing to retry. *)
Lemma retry_loop_spec s n : Inv cfg s → ∀ i, wp (retry_loop cfg n i) (λ _ s', s' = s) (λ _ _, False) s.
Proof.
  intros [_ Ht]. induction n as [|n IH]; intros i; simpl; [by wp_step|]. wp_step. unfold get_slot, the_slot, slot_at.
  destruct (slots s !! i) as [x|] eqn:Hx; do 2 wp_step; wp_step; wp_step; rewrite Hx; simpl; [|by wp_step; apply IH].
  case_bool_decide as Hf; simpl; [|wp_step; apply IH]. destruct (td_free x (Ht i x Hx) Hf) as (_ & -> & _). simpl. wp_step. apply IH.
Qed.

Lemma retry_spec s : Inv cfg s → wp (retry_cleanup cfg) (λ _ s', s' = s) (λ _ s', s' = s) s.
Proof.
  intros HI. unfold retry_cleanup. do 2 wp_step. wp_step. apply wp_ensure; [intros _|done]. eapply wp_mono; [by apply retry_loop_spec|done|done].
Qed.

End End_.
