(* ===== verification/SpaceStage.v ===== *)
(** * Staging an image

    [begin], [map_zeroed], [copy_into], [seal], [commit] and [abort] of
    process/x86_64.rs build the address space of a process in a transaction. *)

From stdpp Require Import prelude list numbers.
From Stdlib Require Import ZArith Lia.
From S2P Require Import Prelude.
From S2P Require Import Wp.
From S2P Require Import AddressSpace.
From S2P Require Import PageTree.
From S2P Require Import SpaceInv.
From S2P Require Import SpaceSteps.
From S2P Require Import SpacePages.
From S2P Require Import SpaceShared.
From S2P Require Import SpaceOps.
From S2P Require Import SpaceProtect.
From S2P Require Import SpaceEnd.

Section Stage.
Context {Mem E : Type} `{!FrameMemory Mem E, KF : !KernelFrames, !FrameMemoryLaws Mem E} (cfg : Config).
Abbreviation State := (FrameBackedAddressSpace Mem).
Abbreviation SM := (M State (FrameBackedError E)).
Implicit Types (s : State) (g : Flight).

(** ** A new root *)

Lemma slot_tree_empty ent sh shares x r : empty_root ent r → r ∈ owned x → (∀ k p, pages x !! k = Some p → ¬ used p) → slot_tree ent sh shares x r.
Proof.
  intros He Hr Hp. split.
  - by apply empty_root_hierarchy.
  - intros va Hva Hl. destruct Hl. apply empty_root_leaf; [done|by apply user_table_path].
  - intros k p Hk Hu. by destruct (Hp k p Hk).
  - intros k p Hk Hu. by destruct (Hp k p Hk).
Qed.

Lemma leaf_of_empty s i x r a : slots s !! i = Some x → root x = Some r → empty_root (entries (memory s)) r → user_address a → leaf_of s i a = 0.
Proof. intros Hx Hr He Ha. unfold leaf_of. rewrite Hx, Hr. apply empty_root_leaf; [done|by apply user_table_path]. Qed.

Lemma leaf_of_no_root s i x a : slots s !! i = Some x → root x = None → leaf_of s i a = 0.
Proof. intros Hx Hr. unfold leaf_of. by rewrite Hx, Hr. Qed.

(** One entry of the kernel half of an empty root. *)
Lemma write_kernel_half s i x r index v : Core cfg at_rest s → slots s !! i = Some x → root x = Some r → r ∈ owned x →
  empty_root (entries (memory s)) r → (∀ k p, pages x !! k = Some p → ¬ used p) → 256 ≤ index < 512 → is_u64 v →
  ∃ m', on_memory (write_entry r index v) s = (Ok tt, with_memory m' s) ∧ Core cfg at_rest (with_memory m' s)
        ∧ leaves_kept s (with_memory m' s) ∧ empty_root (entries m') r.
Proof.
  intros C Hx Hr Hin He Hp Hi Hv. pose proof (owned_in_ledger s i x Hx _ Hin) as Hl.
  destruct (on_write_entry cfg at_rest s r index v C Hl ltac:(lia) Hv) as (m' & Hrun & Hm & Hlive & Hent). exists m'.
  assert (He' : empty_root (entries m') r).
  { intros j Hj. rewrite Hent; [|eapply (core_owned_live cfg at_rest s); done|lia]. rewrite update_entry_other; [by apply He|right; lia]. }
  assert (Hrest : equal_on (rest i s) (entries (memory s)) (entries m')).
  { intros t j Ht Hj. rewrite Hent; [|eapply (core_owned_live cfg at_rest s); [done|by eapply rest_in_ledger]|done].
    apply update_entry_other. left. intros ->. by eapply owned_not_rest. }
  split_and!; [done| | |done].
  - eapply (core_own_memory cfg at_rest s i x r); try done; [by intros []|]. by apply slot_tree_empty.
  - intros j a Ha. destruct (decide (j = i)) as [->|Hne]; [|eapply (leaf_of_others cfg at_rest s i); try done; by intros []].
    rewrite (leaf_of_empty s i x r), (leaf_of_empty (with_memory m' s) i x r); done.
Qed.

Lemma copy_kernel_half_spec i x r : root x = Some r → r ∈ owned x → (∀ k p, pages x !! k = Some p → ¬ used p) →
  ∀ n index s, Core cfg at_rest s → slots s !! i = Some x → empty_root (entries (memory s)) r → 256 ≤ index → index + Z.of_nat n ≤ 512 →
  let Q s' := Core cfg at_rest s' ∧ leaves_kept s s' ∧ ∃ m', s' = with_memory m' s in
  wp (copy_kernel_half n index r : SM unit) (λ _ s', Q s') (λ _ s', Q s') s.
Proof.
  intros Hr Hin Hp. induction n as [|n IH]; intros index s C Hx He Hlo Hhi Q; simpl.
  { wp_step. split_and!; [done|by intros ??|exists (memory s); by destruct s]. }
  assert (HQ : Q s) by (split_and!; [done|by intros ??|exists (memory s); by destruct s]).
  do 2 wp_step. wp_step. unfold read_table. do 2 wp_step.
  destruct (read_entry (kernel_root s) index (memory s)) as [v|e] eqn:Hread; [|done]. apply wp_of_result; intros ? [= <-].
  assert (Hv : is_u64 v) by (eapply law_read_u64; [apply C|done]).
  destruct (write_kernel_half s i x r index v C Hx Hr Hin He Hp ltac:(lia) Hv) as (m' & Hrun & C' & Hk & He').
  wp_step. eapply wp_of_run; [exact Hrun|].
  assert (Hback : ∀ s2, (Core cfg at_rest s2 ∧ leaves_kept (with_memory m' s) s2 ∧ ∃ m2, s2 = with_memory m2 (with_memory m' s)) → Q s2).
  { intros s2 (C2 & Hk2 & m2 & ->). split_and!; [done| |by exists m2]. intros j a Ha. rewrite Hk2, Hk; done. }
  eapply wp_mono; [apply (IH (index + 1) (with_memory m' s)); try done; lia|..]; intros ? s2 H2; by apply Hback.
Qed.

(** Slot [i] was given frames and perhaps a root. *)
Definition rooted (i : nat) (x : FrameBackedSlot) (o : option Z) (s s' : State) : Prop :=
  Core cfg at_rest s' ∧ leaves_kept s s' ∧ ∃ l n m', s' = set_slot m' i (with_root o (with_owned l n x)) s.

Lemma grown_kept i s s' : grown at_rest i s s' → leaves_kept s s'.
Proof. intros H j a Ha. apply (gr_leaf _ _ _ _ H); [by intros []|done]. Qed.

Lemma grown_rooted i x s s' : slots s !! i = Some x → root x = None → Core cfg at_rest s' → grown at_rest i s s' → rooted i x None s s'.
Proof.
  intros Hx Hr C Hg. split_and!; [done|by eapply grown_kept|]. destruct (gr_state _ _ _ _ Hg) as (y & l & n & m' & Hy & _ & ->).
  assert (y = x) as -> by congruence. exists l, n, m'. unfold set_slot. repeat f_equal. destruct x. simpl in *. by subst.
Qed.

Lemma initialize_root_spec s i x : Core cfg at_rest s → slots s !! i = Some x → root x = None → (∀ k p, pages x !! k = Some p → ¬ used p) →
  wp (initialize_root cfg i) (λ _ s', ∃ r, rooted i x (Some r) s s') (λ _ s', ∃ o, rooted i x o s s') s.
Proof.
  intros C Hx Hr Hp. unfold initialize_root. wp_step. eapply wp_mono; [eapply (allocate_owned_spec cfg at_rest s i x); try done; by intros []|..].
  2: { intros ? s' [C' Hg]. exists None. by apply grown_rooted. }
  intros f s1 (C1 & Hg & Hx1 & Hf & _ & Hz & _ & _). set (x1 := push_owned f x) in *.
  destruct (grown_rooted i x s s1 Hx Hr C1 Hg) as (_ & Hk1 & l & n & m1 & Hs1). wp_step. eapply wp_on_slot; [exact Hx1|].
  set (x2 := with_root (Some f) x1). fold (set_slot (memory s1) i x2 s1). set (s2 := set_slot (memory s1) i x2 s1).
  assert (He : empty_root (entries (memory s2)) f) by (intros j Hj; apply Hz; lia).
  assert (Hin : f ∈ owned x2).
  { destruct (core_shape _ _ _ C1 i x1 Hx1) as [_ _ S3 S4 _ _ _]. simpl in S3, S4. rewrite length_insert in S3.
    change (owned x2) with (owned (push_owned f x)). rewrite owned_push by lia. apply elem_of_app. right. by apply list_elem_of_singleton. }
  assert (Hx2 : slots s2 !! i = Some x2) by (by eapply lookup_set_slot).
  assert (C2 : Core cfg at_rest s2).
  { eapply (core_same_frames cfg at_rest s1 i x1 x2); try done; [by intros []|apply C1|by destruct (core_shape _ _ _ C1 i x1 Hx1)|].
    unfold slot_space. simpl. by apply slot_tree_empty. }
  assert (Hk2 : leaves_kept s s2).
  { intros j a Ha. destruct (decide (j = i)) as [->|Hne].
    - rewrite (leaf_of_empty s2 i x2 f) by done. symmetry. by eapply leaf_of_no_root.
    - rewrite <-Hk1 by done. unfold leaf_of. simpl. by rewrite list_lookup_insert_ne. }
  assert (Hgoal : ∀ s', (Core cfg at_rest s' ∧ leaves_kept s2 s' ∧ ∃ m', s' = with_memory m' s2) → rooted i x (Some f) s s').
  { intros s' (C' & Hk' & m' & ->). split_and!; [done| |].
    - intros j a Ha. rewrite Hk', Hk2; done.
    - exists (owned_frames x1), (owned_frame_count x1), m'. unfold s2, x2. rewrite Hs1. unfold with_memory, set_slot. simpl.
      by rewrite list_insert_insert_eq. }
  eapply wp_mono; [eapply (copy_kernel_half_spec i x2 f); try done|..]; intros ? s' H'; eexists; by apply Hgoal.
Qed.

(** *** Opening a transaction *)

Lemma staging_slot x gen a b : 0 < a → tidy x → phase x = Free → slot_shape cfg x →
  let x' := reset cfg (with_phase Staging (with_image gen a b x)) in
  slot_shape cfg x' ∧ root x' = None ∧ owned x' = owned x ∧ (∀ k p, pages x' !! k = Some p → ¬ used p)
  ∧ (∀ j m, mappings x' !! j = Some m → occupied m = false) ∧ ∀ id, mapcount id x' = mapcount id x.
Proof.
  intros Ha Ht Hf Hs x'. destruct (td_free x Ht Hf) as (Hr & Hc & _ & Hm).
  assert (Hm' : ∀ j m, mappings x' !! j = Some m → occupied m = false).
  { change (mappings x') with (replicate MAXIMUM_PROCESS_SEGMENTS EMPTY_MAPPING). by intros j m [-> _]%lookup_replicate. }
  assert (Hp' : ∀ k p, pages x' !! k = Some p → ¬ used p).
  { change (pages x') with (replicate (MAXIMUM_PROCESS_PAGES cfg) EMPTY_PAGE). intros k p [-> _]%lookup_replicate. apply unused_empty. }
  split_and!; try done.
  - split; [apply length_replicate..|apply Hs|apply Hs| | |].
    + intros j m Hj Ho. by rewrite (Hm' j m Hj) in Ho.
    + intros j m Hj Ho. by rewrite (Hm' j m Hj) in Ho.
    + intros _. split_and!; [done|simpl; lia|]. intros j m Hj Ho. by rewrite (Hm' j m Hj) in Ho.
  - intros id. transitivity O; [|symmetry]; apply countb_zero; intros j m Hj; [by rewrite (Hm' j m Hj)|by rewrite (Hm j m Hj)].
Qed.

(** A slot that was just opened. *)
Lemma rooted_tidy x r l n : root x = None → phase x = Staging → (∀ k p, pages x !! k = Some p → ¬ used p) →
  (∀ j m, mappings x !! j = Some m → occupied m = false) → initial_stack_pages x = O → tidy (with_root (Some r) (with_owned l n x)).
Proof.
  intros Hr Hph Hp Hm Hst. split; simpl; try (intros; congruence); [..|by rewrite Hst].
  - intros k p _. apply Hp.
  - intros j m Hj Ho. by rewrite (Hm j m Hj) in Ho.
  - intros j j' m m' k Hj _ Ho. by rewrite (Hm j m Hj) in Ho.
  - done.
  - intros j m Hj Ho. by rewrite (Hm j m Hj) in Ho.
  - intros j m k p Hj Ho. by rewrite (Hm j m Hj) in Ho.
Qed.

Lemma begin_spec first last s : Inv cfg s → 0 < first →
  wp (begin cfg first last) (λ sp s', Inv cfg s' ∧ leaves_kept s s' ∧ active_slot s' = Some (sp_slot sp)) (λ _ s', Inv cfg s' ∧ leaves_kept s s') s.
Proof.
  intros HI Hfirst. pose proof HI as [C Ht]. assert (Hid : Inv cfg s ∧ leaves_kept s s) by (split; [done|by intros ??]).
  unfold begin, set_active. do 2 wp_step. wp_step. apply wp_ensure; [intros _|done].
  wp_step. apply wp_ok_or; [intros i (x & Hx & [Hf%bool_decide_eq_true _]%andb_true_iff)%position_lookup|done].
  set (gen := next_generation (generation x)).
  destruct (staging_slot x gen first last Hfirst (Ht i x Hx) Hf (core_shape _ _ _ C i x Hx)) as (Hs' & Hr' & Ho' & Hp' & Hm' & Hmc').
  set (x' := reset cfg _) in *. wp_step. eapply wp_on_slot; [exact Hx|]. do 2 wp_step. wp_step.
  eapply wp_on_slot; [simpl; apply list_lookup_insert_eq; by eapply lookup_lt_Some|]. simpl. rewrite list_insert_insert_eq. fold gen x'.
  set (s1 := mkAddressSpace (memory s) (kernel_root s) (Some i) (<[i := x']> (slots s)) (shared s)).
  assert (Hx1 : slots s1 !! i = Some x') by (simpl; apply list_lookup_insert_eq; by eapply lookup_lt_Some).
  assert (Hk1 : leaves_kept s s1).
  { intros j a _. destruct (decide (j = i)) as [->|Hne]; [|unfold leaf_of; simpl; by rewrite list_lookup_insert_ne].
    rewrite (leaf_of_no_root s1 i x'), (leaf_of_no_root s i x); done. }
  assert (C1 : Core cfg at_rest s1).
  { pose proof (core_nodup _ _ _ C) as Hnd. pose proof (core_frames _ _ _ C) as Hfr. rewrite (ledger_slot s i x Hx) in Hnd, Hfr.
    apply Forall_app in Hfr as [Hf1 Hf2].
    eapply (core_slot_step cfg at_rest at_rest s i x x'); rewrite ?Ho'; try done; [apply C| | | |].
    - intros f Hin. rewrite list.Forall_forall in Hf2. by apply Hf2.
    - intros _. unfold slot_space. by rewrite Hr'.
    - intros id _. by rewrite Hmc'.
    - intros k [= <-]. by right. }
  wp_step. apply wp_or_undo. eapply wp_mono; [by eapply (initialize_root_spec s1 i x')|..].
  - intros ? s2 (r & C2 & Hk2 & l & n & m' & ->). wp_step. eapply wp_get_slot; [by eapply lookup_set_slot|]. wp_step. split_and!.
    + split; [done|]. intros j y Hy. simpl in Hy. apply lookup_insert_cases in Hy as [(-> & <- & _)|[Hne Hy]].
      * by apply rooted_tidy.
      * rewrite list_lookup_insert_ne in Hy by done. by eapply Ht.
    + intros j h Hh. rewrite Hk2, Hk1; done.
    + done.
  - intros e s2 (o & C2 & Hk2 & l & n & m' & ->).
    eapply wp_mono; [eapply (cleanup_spec cfg _ i (with_root o (with_owned l n x'))); [by apply core_tearing|by eapply lookup_set_slot|]| |done].
    + intros id Hidn. apply countb_zero. intros j m Hj. by rewrite (Hm' j m Hj).
    + intros ? s3 [Hre Hact]. split.
      * eapply released_inv; [|reflexivity|exact Hre]. intros j y Hne Hy. simpl in Hy. rewrite !list_lookup_insert_ne in Hy by done. by eapply Ht.
      * intros j h Hh. destruct (decide (j = i)) as [->|Hne].
        -- destruct Hre as (_ & (m3 & act & ->) & _). rewrite (leaf_of_no_root s i x); [|done|by apply (td_free x (Ht i x Hx))].
           eapply leaf_of_no_root; [simpl; apply list_lookup_insert_eq; rewrite !length_insert; by eapply lookup_lt_Some|done].
        -- destruct Hre as (_ & _ & _ & Hlf). rewrite Hlf, Hk2, Hk1; done.
Qed.

(** ** Pages of the image *)

(** The next [n] page records of slot [i] were filled. *)
Record staged (i : nat) (x : FrameBackedSlot) (n : nat) (va : nat → Z) (s s' : State) : Prop := {
  sg_core : Core cfg at_rest s';
  sg_leaf : leaves_kept s s';
  sg_state : ∃ l c P m', s' = set_slot m' i (with_owned l c (with_pages P (page_count x + n) x)) s ∧ length P = length (pages x)
    ∧ (∀ j, ¬ range (page_count x) n j → P !! j = pages x !! j)
    ∧ ∀ h, (h < n)%nat → ∃ f, P !! (page_count x + h)%nat = Some (mkPage f (va h)) ∧ va h ≠ 0 ∧ f ∉ kernel_frames;
}.

Lemma grown_staged i x va s s' : slots s !! i = Some x → Core cfg at_rest s' → grown at_rest i s s' → staged i x 0 va s s'.
Proof.
  intros Hx C Hg. split; [done|by eapply grown_kept|]. destruct (gr_state _ _ _ _ Hg) as (y & l & n & m' & Hy & _ & ->).
  assert (y = x) as -> by congruence. exists l, n, (pages x), m'. rewrite Nat.add_0_r, with_pages_same. split_and!; try done. lia.
Qed.

Lemma staged_cons i x n va s s1 s2 : slots s !! i = Some x → staged i x 1 va s s1 →
  (∀ x1, slots s1 !! i = Some x1 → staged i x1 n (λ h, va (S h)) s1 s2) → staged i x (S n) va s s2.
Proof.
  intros Hx [_ Hk1 (l & c & P & m1 & -> & HP & Hout & Hin)] Hnext.
  destruct (Hnext _ (lookup_set_slot m1 i _ x s Hx)) as [C2 Hk2 (l' & c' & P' & m2 & -> & HP' & Hout' & Hin')].
  split; [done|intros j a Ha; by rewrite Hk2, Hk1|]. simpl in *. exists l', c', P', m2. rewrite set_slot_twice.
  replace (page_count x + S n)%nat with (page_count x + 1 + n)%nat by lia. split_and!; [done|lia| |].
  - intros j Hj. rewrite Hout', Hout; [done|..]; unfold range in *; lia.
  - intros [|h] Hh.
    + destruct (Hin 0%nat ltac:(lia)) as (f & Hf & Hnz). exists f. rewrite Hout'; [done|unfold range; lia].
    + destruct (Hin' h ltac:(lia)) as (f & Hf & Hnz). exists f. replace (page_count x + S h)%nat with (page_count x + 1 + h)%nat by lia. done.
Qed.

Lemma staging_append x k f va l c : slot_shape cfg x → phase x = Staging → k = page_count x → va ≠ 0 → length l = length (owned_frames x) → (c ≤ length l)%nat →
  slot_shape cfg (with_pages (<[k := mkPage f va]> (pages x)) (S k) (with_owned l c x)).
Proof.
  intros [S1 S2 S3 S4 S5 S6 S7] Hph -> Hva Hl Hc. destruct (S7 Hph) as (H1 & H2 & H3).
  split; try done; [simpl; by rewrite length_insert|simpl; congruence|simpl; lia|]. intros _. simpl. split_and!; [done| |].
  - intros j p Hj Hp. apply lookup_insert_cases in Hp as [(_ & <- & _)|[Hne Hp]]; [done|]. eapply (H2 j); [lia|done].
  - intros j m Hm Ho. destruct (H3 j m Hm Ho). split; [lia|done].
Qed.

Lemma stage_page {A} s i x va (K : SM A) Q R : Core cfg at_rest s → slots s !! i = Some x → phase x = Staging → is_Some (root x) → tail_unused x →
  (page_count x < length (pages x))%nat → 0 < va →
  (∀ s', staged i x 1 (λ _, va) s s' → wp K Q R s') → (∀ e s', staged i x 0 (λ _, va) s s' → R e s') →
  wp (f ← allocate_owned cfg i; _ ← ensure_leaf_slot cfg i va;
      on_slot i (λ y, with_pages (<[page_count y := mkPage f va]> (pages y)) (S (page_count y)) y);; K) Q R s.
Proof.
  intros C Hx Hph [r Hr] Htail Hlen Hva HK HR. wp_step. eapply wp_mono; [eapply (allocate_owned_spec cfg at_rest s i x); try done; by intros []|..].
  2: { intros ? s' [C' Hg]. by apply HR, grown_staged. }
  intros f s1 (C1 & Hg1 & Hx1 & Hf & Hmask & _ & Hfresh & _). specialize (Hfresh r Hr). set (x1 := push_owned f x) in *.
  wp_step. eapply wp_mono; [eapply (ensure_leaf_slot_spec cfg at_rest s1 i x1); try done; [by intros []|lia]|..].
  2: { intros ? s' [C' Hg]. apply HR, grown_staged; [done..|]. by eapply grown_trans. }
  intros td s2 (C2 & Hg2 & Hua & _ & r' & Hr' & Hd & _). assert (r' = r) as -> by (unfold x1, push_owned in Hr'; simpl in Hr'; congruence).
  destruct (grown_slot _ _ _ _ _ Hg2 Hx1) as (l & c & Hx2 & Hsub & Hsh). set (x2 := with_owned l c x1) in *.
  destruct (lookup_lt_is_Some_2 (pages x) (page_count x) Hlen) as [p0 Hp0].
  assert (Hp0u : ¬ used p0) by (by eapply Htail).
  assert (Hfresh2 : fresh_in (entries (memory s2)) x2 r f).
  { destruct Hfresh as (Hin & Hnt & Hpg). split_and!; [by apply Hsub|intros Ht|done].
    destruct (gr_table _ _ _ _ Hg2 x1 r f Hx1 Hr' Ht) as [Ht'|Hnl]; [done|]. apply Hnl. by eapply owned_in_ledger. }
  wp_step. eapply wp_on_slot; [exact Hx2|]. apply HK. set (x3 := with_pages _ _ x2).
  pose proof (core_tree cfg at_rest s2 i x2 r C2 Hx2 ltac:(intros []) Hr) as Htree.
  pose proof (slot_tree_record _ _ _ _ _ Htree (page_count x) p0 f va Hp0 Hp0u Hua ltac:(rewrite Hd; eauto) (or_introl Hfresh2)) as Htree'.
  fold (set_slot (memory s2) i x3 s2).
  assert (C3 : Core cfg at_rest (set_slot (memory s2) i x3 s2)).
  { eapply (core_same_frames cfg at_rest s2 i x2 x3); try done; [by intros []|apply C2| |].
    - pose proof (core_shape _ _ _ C2 i x2 Hx2) as S2. eapply (staging_append x (page_count x) f va l c); try done; [by eapply C|lia|..].
      + pose proof (ss_owned _ _ S2) as H. pose proof (ss_owned _ _ (core_shape _ _ _ C i x Hx)). simpl in H. lia.
      + pose proof (ss_owned _ _ S2) as H. pose proof (ss_count _ _ S2) as H'. simpl in H, H'. lia.
    - unfold slot_space. simpl. rewrite Hr. by destruct Htree'. }
  pose proof (grown_trans at_rest i s s1 s2 Hg1 Hg2) as Hg.
  split; [done| |].
  - intros j a Ha. rewrite <-(grown_kept i s s2 Hg j a Ha). by apply (leaf_of_set_slot s2 i x2).
  - destruct (gr_state _ _ _ _ Hg) as (y & l' & c' & m' & Hy & _ & Hs2). assert (y = x) as -> by congruence.
    exists l, c, (<[page_count x := mkPage f va]> (pages x)), (memory s2). rewrite Hs2. fold (set_slot m' i (with_owned l' c' x) s).
    rewrite set_slot_twice. rewrite length_insert, Nat.add_1_r. split_and!; [done|done| |].
    + intros j Hj. apply list_lookup_insert_ne. unfold range in Hj. lia.
    + intros h Hh. exists f. replace (page_count x + h)%nat with (page_count x) by lia. split_and!; [by apply list_lookup_insert_eq|lia|].
      intros Hkf. eapply (kernel_not_owned cfg at_rest s1 i x1); try done. apply Hfresh.
Qed.

Lemma staged_slot i x n va s s' : slots s !! i = Some x → staged i x n va s s' → ∃ x', slots s' !! i = Some x'.
Proof. intros Hx [_ _ (l & c & P & m' & -> & _)]. eexists. by eapply lookup_set_slot. Qed.

Lemma staged_tail i x n va s s' x' : slots s !! i = Some x → tail_unused x → staged i x n va s s' → slots s' !! i = Some x' →
  tail_unused x' ∧ phase x' = phase x ∧ root x' = root x ∧ page_count x' = (page_count x + n)%nat ∧ length (pages x') = length (pages x).
Proof.
  intros Hx Ht [_ _ (l & c & P & m' & -> & HP & Hout & _)] Hx'. rewrite lookup_set_slot with (y := x) in Hx' by done. injection Hx' as <-.
  split_and!; try done. intros k p Hk Hp. simpl in *. rewrite Hout in Hp by (unfold range; lia). eapply Ht; [|done]. lia.
Qed.

Lemma map_zeroed_loop_spec i address n : 0 < address → ∀ page s x, Core cfg at_rest s → slots s !! i = Some x → phase x = Staging →
  is_Some (root x) → tail_unused x → (page_count x + n ≤ length (pages x))%nat →
  wp (map_zeroed_loop cfg n i address page)
    (λ _ s', staged i x n (λ h, page_va address (page + h)) s s')
    (λ _ s', ∃ k, staged i x k (λ h, page_va address (page + h)) s s') s.
Proof.
  intros Ha. induction n as [|n IH]; intros page s x C Hx Hph Hr Ht Hlen; cbn [map_zeroed_loop].
  { wp_step. eapply grown_staged; [done..|]. eapply grown_refl; try done. by intros []. }
  wp_step. apply wp_ok_or; [intros va [Hva _]%checked_add_Some|intros _; exists O; eapply grown_staged; [done..|]; eapply grown_refl; try done; by intros []].
  assert (Hva' : page_va address (page + 0) = va) by (unfold page_va; rewrite Nat.add_0_r; lia).
  assert (Hext : ∀ n s', staged i x n (λ _, va) s s' → (n ≤ 1)%nat → staged i x n (λ h, page_va address (page + h)) s s').
  { intros n' s' [H1 H2 (l & c & P & m' & H3 & H4 & H5 & H6)] Hn. split; try done. exists l, c, P, m'. split_and!; try done.
    intros h Hh. replace h with O by lia. rewrite Hva'. apply H6. lia. }
  eapply (stage_page s i x va); try done; [lia|unfold PAGE_SIZE in *; lia|..].
  - intros s1 H1%Hext; [|lia]. destruct (staged_slot i x _ _ s s1 Hx H1) as [x1 Hx1].
    destruct (staged_tail _ _ _ _ _ _ _ Hx Ht H1 Hx1) as (Ht1 & Hph1 & Hr1 & Hc1 & Hl1).
    assert (Hcons : ∀ k s2, staged i x1 k (λ h, page_va address (S page + h)) s1 s2 → staged i x (S k) (λ h, page_va address (page + h)) s s2).
    { intros k s2 H2. eapply staged_cons; [done..|]. intros y Hy. assert (y = x1) as -> by congruence.
      destruct H2 as [K1 K2 (l & c & P & m' & K3 & K4 & K5 & K6)]. split; try done. exists l, c, P, m'. split_and!; try done.
      intros h Hh. replace (page + S h)%nat with (S page + h)%nat by lia. by apply K6. }
    eapply wp_mono; [apply (IH (S page) s1 x1); try done; [apply H1|congruence|by rewrite Hr1|lia]|..].
    + intros ? s2 H2. by apply Hcons.
    + intros ? s2 (k & H2). exists (S k). by apply Hcons.
  - intros e s' H0%Hext; [|lia]. by exists O.
Qed.

(** A staging slot with new pages that no mapping has yet. *)
Lemma staged_inv i x n va s s' : Inv cfg s → slots s !! i = Some x → phase x = Staging → staged i x n va s s' → Inv cfg s' ∧ leaves_kept s s'.
Proof.
  intros [C Ht] Hx Hph Hs. split; [|apply Hs]. split; [apply Hs|]. intros j y Hy.
  destruct Hs as [_ _ (l & c & P & m' & -> & HP & Hout & Hin)]. simpl in Hy.
  apply lookup_insert_cases in Hy as [(<- & <- & _)|[_ Hy]]; [|by eapply Ht]. destruct (Ht i x Hx) as [T1 T2 T3 T4 T5 T7 T6 T8].
  assert (Hrange : ∀ k p, range (page_count x) n k → pages x !! k = Some p → ¬ used p) by (intros k p Hk; apply T1; unfold range in Hk; lia).
  split; try done; simpl.
  - intros k p Hk Hp. simpl in *. rewrite Hout in Hp by (unfold range; lia). eapply T1; [|done]. lia.
  - intros k m Hk Ho. destruct (T2 k m Hk Ho) as (H1 & H2 & H3). split_and!; [done..|]. intros h Hh. destruct (H3 h Hh) as (p & Hp & Hu & Hpa).
    exists p. rewrite Hout; [done|]. intros Hr. by destruct (Hrange _ p Hr Hp).
  - congruence.
  - intros k m h p Hk Ho Hc Hp. assert (Hdec : range (page_count x) n h ∨ ¬ range (page_count x) n h) by (unfold range; lia).
    destruct Hdec as [Hr|Hr]; [|rewrite Hout in Hp by done; by eapply T8].
    destruct (Hin (h - page_count x)%nat) as (f & Hf & _ & Hnk); [unfold range in Hr; lia|].
    replace (page_count x + (h - page_count x))%nat with h in Hf by (unfold range in Hr; lia). rewrite Hf in Hp. by injection Hp as <-.
Qed.

(** The record of a new mapping over the last pages. *)
Lemma staging_mapping_shape x k m : slot_shape cfg x → k = mapping_count x → (k < length (mappings x))%nat → shared_identity m = 0 →
  (first_page m + mp_page_count m ≤ page_count x)%nat → slot_shape cfg (with_mappings (<[k := m]> (mappings x)) (S (mapping_count x)) x).
Proof.
  intros [S1 S2 S3 S4 S5 S6 S7] -> Hk Hz Hfit. split; simpl; try done.
  - by rewrite length_insert.
  - intros j m1 Hj Ho. apply lookup_insert_cases in Hj as [(<- & _)|[_ Hj]]; [lia|]. specialize (S5 j m1 Hj Ho). lia.
  - intros j m1 Hj Ho. apply lookup_insert_cases in Hj as [(_ & <- & _)|[_ Hj]]; [done|by eapply S6].
  - intros Hst. destruct (S7 Hst) as (H1 & H2 & H3). split_and!; [done..|]. intros j m1 Hj Ho.
    apply lookup_insert_cases in Hj as [(_ & <- & _)|[_ Hj]]; [done|by eapply H3].
Qed.

Lemma map_zeroed_spec space address size s : Inv cfg s → 0 ≤ size →
  wp (map_zeroed cfg space address size) (λ _ s', Inv cfg s' ∧ leaves_kept s s') (λ _ s', Inv cfg s' ∧ leaves_kept s s') s.
Proof.
  intros HI Hsize. pose proof HI as [C Ht]. assert (Hid : Inv cfg s ∧ leaves_kept s s) by (split; [done|by intros ??]).
  unfold map_zeroed. wp_step. apply wp_ok_or; [intros stop _|done]. do 2 wp_step. wp_step. apply wp_ok_or; [intros x Hx|done].
  set (i := sp_slot space) in *. wp_step. apply wp_ensure; [intros Hg|done]. rewrite !andb_true_iff in Hg.
  destruct Hg as [[[[[[_ Hph%bool_decide_eq_true] _] Hnz] _] Hlo%Z.leb_le] _].
  wp_step. apply wp_ensure; [intros Hn|done]. apply negb_true_iff in Hn. rewrite !orb_false_iff in Hn. destruct Hn as [_ Hlen%Nat.ltb_ge].
  wp_step. apply wp_ensure; [intros Hk%Nat.ltb_lt|done].
  pose proof (core_shape _ _ _ C i x Hx) as Hs. destruct (ss_staging _ _ Hs Hph) as (Hpos & _ & _).
  set (n := Z.to_nat _) in *. wp_step. eapply wp_mono.
  - eapply (map_zeroed_loop_spec i address n ltac:(lia) 0 s x); try done; [apply (td_root x (Ht i x Hx)); congruence|apply (Ht i x Hx)].
  - intros ? s1 H1. pose proof (staged_inv _ _ _ _ _ _ HI Hx Hph H1) as [HI1 Hk1].
    wp_step. apply wp_ok_or; [intros first ->%try_u16_Some|done]. wp_step. apply wp_ok_or; [intros count ->%try_u16_Some|done].
    destruct (staged_slot i x _ _ s s1 Hx H1) as [x1 Hx1]. destruct H1 as [C1 _ (l & c & P & m1 & Hs1 & HP & Hout & Hin)].
    assert (Hx1' : x1 = with_owned l c (with_pages P (page_count x + n) x)).
    { rewrite Hs1, lookup_set_slot with (y := x) in Hx1 by done. congruence. }
    subst x1. set (x1 := with_owned _ _ _) in *.
    destruct (lookup_lt_is_Some_2 (mappings x) (mapping_count x) Hk) as [m0 Hm0].
    assert (Hm0o : occupied m0 = false). { destruct (occupied m0) eqn:Ho; [|done]. pose proof (ss_used _ _ Hs _ m0 Hm0 Ho). lia. }
    assert (Hm1 : mappings x1 !! mapping_count x = Some m0) by done.
    wp_step. eapply wp_on_slot; [exact Hx1|]. set (m := mkMapping _ _ _ _ _ _ _ _ _ _ _ _). set (x2 := with_mappings _ _ x1).
    wp_step. fold (set_slot (memory s1) i x2 s1). eapply wp_get_slot; [by eapply lookup_set_slot|]. wp_step. split.
    + split.
      * eapply (core_same_records cfg at_rest s1 i x1 x2); try done; [by intros []|..].
        -- eapply staging_mapping_shape; [by eapply C1|done|done|done|simpl; lia].
        -- intros id Hidn. apply (mapcount_insert_same id x1 x2 (mapping_count x) m0 m); [done..|]. rewrite Hm0o. symmetry. by apply Z.eqb_neq.
        -- intros h q id _ _ Hms. eapply (maps_shared_insert x1 x2 (mapping_count x) m0 m); try done. congruence.
      * intros j y Hy. rewrite Hs1, set_slot_twice in Hy. simpl in Hy. apply lookup_insert_cases in Hy as [(<- & <- & _)|[_ Hy]]; [|by eapply Ht].
        eapply (tidy_step x x2 (page_count x) n (mapping_count x) m0 m); try done; simpl; try congruence.
        -- by eapply Ht.
        -- intros k p Hk' Hp Hu. destruct (td_tail x (Ht i x Hx) k p); [unfold range in Hk'; lia|done..].
        -- intros k p Hk' Hc. unfold range in Hk'. exfalso. lia.
        -- lia.
        -- intros _. split; [|by left]. split_and!; simpl; [done|unfold n; rewrite Z2Nat.id; [done|apply Z.div_pos; unfold PAGE_SIZE; lia]|].
           intros h Hh. destruct (Hin h Hh) as (f & Hf & Hu & _). eexists. split_and!; [exact Hf|done|done].
        -- intros _ h q _ Hr Hq. destruct (Hin (h - page_count x)%nat) as (f & Hf & _ & Hnk); [unfold range in Hr; lia|].
           replace (page_count x + (h - page_count x))%nat with h in Hf by (unfold range in Hr; lia). rewrite Hf in Hq. by injection Hq as <-.
    + intros j h Hh. rewrite <-(Hk1 j h Hh). by apply (leaf_of_set_slot s1 i x1).
  - intros ? s' (k & H'). by eapply staged_inv.
Qed.

(** ** The bytes of the image *)

Lemma staged_mapping_spec h s : Inv cfg s → wp (staged_mapping cfg h : SM MappingRecord)
  (λ m s', s' = s ∧ ∃ x, slots s !! space_slot h = Some x ∧ phase x = Staging ∧ mappings x !! hd_slot h = Some m ∧ occupied m = true)
  (λ _ s', s' = s) s.
Proof.
  intros [C _]. unfold staged_mapping. do 2 wp_step. wp_step. apply wp_ensure; [intros Ha%bool_decide_eq_true|done].
  destruct (core_active _ _ _ C _ Ha) as (x & Hx & Hph). rewrite (the_slot_eq cfg s _ x Hx).
  destruct (mappings x !! hd_slot h) as [m|] eqn:Hm; [|done]. wp_step. apply wp_ensure; [intros [Ho _]%andb_true_iff|done]. wp_step.
  split; [done|]. by exists x.
Qed.

(** The frame of a page of a staged mapping is the process's own and no
    table. *)
Lemma staged_frame s i x k p : Core cfg at_rest s → slots s !! i = Some x → phase x = Staging → pages x !! k = Some p → used p → frame p ∉ kernel_frames →
  frame p ∈ owned x ∧ ∀ r, root x = Some r → ¬ is_table (entries (memory s)) r (frame p).
Proof.
  intros C Hx Hph Hk Hu Hnk. pose proof (core_space _ _ _ C i x Hx ltac:(intros [])) as Hsp. unfold slot_space in Hsp.
  destruct (root x) as [r|] eqn:Hr; [|by destruct (Hsp k p Hk)].
  destruct (st_owner _ _ _ _ _ Hsp k p Hk Hu) as [(H1 & H2 & _)|[(id & [(Hid & j & m & Hj & Ho & Hi & _)|[]] & _)|?]]; [split; [done|congruence]| |done].
  destruct (ss_staging _ _ (core_shape _ _ _ C i x Hx) Hph) as (_ & _ & H3). destruct (H3 j m Hj Ho). congruence.
Qed.

Lemma copy_into_loop_spec i x m : phase x = Staging → (∀ h p, (h < mp_page_count m)%nat → pages x !! (first_page m + h)%nat = Some p → used p ∧ frame p ∉ kernel_frames) →
  ∀ rounds offset bytes s, Core cfg at_rest s → slots s !! i = Some x → Forall is_u8 bytes → 0 ≤ offset →
  let Q s' := Core cfg at_rest s' ∧ leaves_kept s s' ∧ ∃ m', s' = with_memory m' s in
  wp (copy_into_loop cfg rounds i m offset bytes) (λ _ s', Q s') (λ _ s', Q s') s.
Proof.
  intros Hph Hused. induction rounds as [|rounds IH]; intros offset bytes s C Hx Hb Hoff Q;
    (assert (HQ : Q s) by (split_and!; [done|by intros ??|exists (memory s); by destruct s])); [done|].
  destruct bytes as [|b bytes]; [done|]. cbn [copy_into_loop]. set (l := b :: bytes) in *.
  set (within := offset mod PAGE_SIZE). set (n := Nat.min (Z.to_nat (PAGE_SIZE - within)) (length l)).
  wp_step. eapply wp_mono; [by apply (frame_for_page_spec cfg s i x m (Z.to_nat (offset / PAGE_SIZE)))| |by intros ? ? ->].
  intros f ? (-> & Hlt & p & Hp & ->). destruct (Hused _ _ Hlt Hp) as [Hu Hnk]. destruct (staged_frame s i x _ p C Hx Hph Hp Hu Hnk) as [Ho Hnt].
  assert (Hw : 0 ≤ within < PAGE_SIZE) by (apply Z.mod_pos_bound; done).
  destruct (law_write_bytes (memory s) (frame p) within (take n l)) as (m' & Hrun & Hm & Hlive & Hent).
  { apply C. }
  { eapply (core_owned_live cfg at_rest s); [done|]. by eapply owned_in_ledger. }
  { lia. }
  { rewrite length_take. lia. }
  { by apply Forall_take. }
  destruct (core_scribble cfg at_rest s i x (frame p) m') as [C' Hg]; try done; [by intros []|].
  wp_step. apply wp_on_memory. eapply wp_of_run; [exact Hrun|].
  assert (Hback : ∀ s2, (Core cfg at_rest s2 ∧ leaves_kept (with_memory m' s) s2 ∧ ∃ m2, s2 = with_memory m2 (with_memory m' s)) → Q s2).
  { intros s2 (C2 & Hk2 & m2 & ->). split_and!; [done| |by exists m2]. intros j a Ha. by rewrite Hk2, (grown_kept i _ _ Hg). }
  eapply wp_mono; [apply (IH (offset + Z.of_nat n) (drop n l) (with_memory m' s)); try done; [by apply Forall_drop|lia]|..]; intros ? s2 H2; by apply Hback.
Qed.

(** One round per byte is enough: the copy does not stop early. *)
Lemma copy_into_rounds i m : ∀ rounds rounds' offset bytes s, (length bytes ≤ rounds)%nat → (length bytes ≤ rounds')%nat →
  copy_into_loop cfg rounds i m offset bytes s = copy_into_loop cfg rounds' i m offset bytes s.
Proof.
  induction rounds as [|rounds IH]; intros [|rounds'] offset [|b bytes] s Hr Hr'; try done; simpl in Hr, Hr'; try lia.
  cbn [copy_into_loop]. set (l := b :: bytes). set (n := Nat.min _ (length l)).
  assert (1 ≤ n)%nat by (pose proof (Z.mod_pos_bound offset PAGE_SIZE ltac:(done)); unfold n, l; simpl; lia).
  unfold mbind, M_bind. destruct (frame_for_mapping_page _ _ _ _ s) as [[f|e] s1]; [|done].
  destruct (on_memory _ s1) as [[[]|e] s2]; [|done]. apply IH; rewrite length_drop; unfold l; simpl; lia.
Qed.

Lemma copy_into_spec h offset bytes s : Inv cfg s → Forall is_u8 bytes → 0 ≤ offset →
  wp (copy_into cfg h offset bytes) (λ _ s', Inv cfg s' ∧ leaves_kept s s') (λ _ s', Inv cfg s' ∧ leaves_kept s s') s.
Proof.
  intros HI Hb Hoff. pose proof HI as [C Ht]. assert (Hid : Inv cfg s ∧ leaves_kept s s) by (split; [done|by intros ??]).
  unfold copy_into. wp_step. eapply wp_mono; [by apply staged_mapping_spec| |by intros ? ? ->]. intros m ? (-> & x & Hx & Hph & Hm & Ho).
  wp_step. apply wp_ensure; [intros _|done].
  eapply wp_mono; [eapply (copy_into_loop_spec (space_slot h) x m); try done|..].
  - intros k p Hk Hp. destruct (td_pages x (Ht _ x Hx) _ m Hm Ho) as (_ & _ & Hl). destruct (Hl k Hk) as (q & Hq & Hu & _). split; [congruence|].
    eapply (td_kernel x (Ht _ x Hx) _ m); try done. unfold covers. lia.
  - intros ? s' (C' & Hk & m' & ->). split; [by apply inv_with_memory|done].
  - intros ? s' (C' & Hk & m' & ->). split; [by apply inv_with_memory|done].
Qed.

(** ** Sealing a mapping *)

Definition seal_entry (f : Z) (p : MappingPermissions) : Z :=
  let entry := Z.lor (Z.lor f ENTRY_PRESENT) ENTRY_USER in
  let entry := if writable p then Z.lor entry ENTRY_WRITABLE else entry in
  if executable p then entry else Z.lor entry ENTRY_NO_EXECUTE.

Lemma seal_entry_user f p : readable p = true → seal_entry f p = user_mapping_entry f p.
Proof.
  intros Hr. unfold seal_entry, user_mapping_entry. rewrite Hr. destruct (writable p), (executable p); rewrite <-!Z.lor_assoc; f_equal.
Qed.

(** The leaves of the pages [D] of slot [x] are those of their frames, and the
    other leaves are as they were. *)
Definition sealed_pages (i : nat) (x : FrameBackedSlot) (p : MappingPermissions) (D : nat → Prop) (s s' : State) : Prop :=
  (∀ k q, D k → pages x !! k = Some q → leaf_of s' i (pg_address q) = user_mapping_entry (frame q) p)
  ∧ ∀ j a, user_address a → (j = i → ∀ k q, D k → pages x !! k = Some q → page_of a ≠ page_of (pg_address q)) → leaf_of s' j a = leaf_of s j a.

Lemma sealed_pages_cons i x p k q (D D' : nat → Prop) s s1 s' : pages x !! k = Some q → (∀ j, D' j ↔ j = k ∨ D j) →
  user_address (pg_address q) → (∀ j q', D j → pages x !! j = Some q' → page_of (pg_address q) ≠ page_of (pg_address q')) →
  leaf_set at_rest s s1 i (pg_address q) (user_mapping_entry (frame q) p) → sealed_pages i x p D s1 s' → sealed_pages i x p D' s s'.
Proof.
  intros Hk HD Hua Hdis Hset [H1 H2]. split.
  - intros j q' [->|Hj]%HD Hq'; [|by eapply H1]. assert (q' = q) as -> by congruence.
    rewrite H2; [|done|intros _ j' q2 Hj' Hq2; by eapply Hdis]. rewrite Hset by (done || intros []). by rewrite decide_True.
  - intros j a Ha Hout. rewrite H2; [|done|intros Hj j' q' Hj' Hq'; apply (Hout Hj j' q'); [apply HD; by right|done]].
    rewrite Hset by (done || intros []). apply decide_False. intros [-> Heq]. by eapply (Hout eq_refl k q); [apply HD; left|..].
Qed.

Lemma page_of_add a h : page_of (a + Z.of_nat h * PAGE_SIZE) = page_of a + Z.of_nat h.
Proof. unfold page_of, PAGE_SIZE. by rewrite Z.div_add by lia. Qed.

Lemma seal_loop_spec i x m p : readable p = true → wx_free p → laid_out (pages x) m → ∀ n page s, (page + n ≤ mp_page_count m)%nat →
  Core cfg at_rest s → slots s !! i = Some x →
  wp (seal_loop cfg n i m p page)
    (λ _ s', Core cfg at_rest s' ∧ (∃ m', s' = with_memory m' s) ∧ sealed_pages i x p (range (first_page m + page) n) s s') (λ _ _, False) s.
Proof.
  intros Hr Hp (_ & _ & Hl). induction n as [|n IH]; intros page s Hn C Hx; cbn [seal_loop].
  { wp_step. split_and!; [done|exists (memory s); by destruct s|]. split; [unfold range; lia|done]. }
  destruct (Hl page ltac:(lia)) as (q & Hq & Hu & Hqa).
  destruct (used_page cfg s i x _ q C Hx Hq Hu) as (Hua & Hf & r & t & Hroot & Hd & Hin & _).
  wp_step. eapply wp_get_slot; [exact Hx|]. rewrite (slot_at_Some _ _ _ _ Hq). fold (seal_entry (frame q) p). rewrite seal_entry_user by done.
  wp_step. eapply wp_mono; [eapply (leaf_slot_spec cfg at_rest s i x (pg_address q)); try done; [by intros []|apply Hua]|..].
  2: { intros ? ? (_ & Hno). by rewrite (Hno Hua r Hroot) in Hd. }
  intros [t' d] ? (-> & _ & Hd2 & r' & Hr' & Hd'). simpl in Hd2, Hd'. assert (r' = r) as -> by congruence. assert (t' = t) as -> by congruence. subst d.
  destruct (user_entry_form (frame q) p Hf Hp) as [Hform Hu64].
  destruct (on_write_entry cfg at_rest s t (leaf_index (pg_address q)) _ C Hin (leaf_index_range _) Hu64) as (m' & Hrun & Hm & Hlive & He).
  destruct (core_leaf cfg at_rest s i x r (first_page m + page) q t (user_mapping_entry (frame q) p) m') as (C' & Hset & _); try done; [by intros []|by left|].
  wp_step. eapply wp_of_run; [exact Hrun|].
  eapply wp_mono; [apply (IH (S page) (with_memory m' s)); try done; lia| |done]. intros ? s' (C2 & (m2 & ->) & Hs).
  split_and!; [done|by exists m2|]. eapply (sealed_pages_cons i x p (first_page m + page) q); try done.
  - intros j. rewrite range_S. replace (S (first_page m + page)) with (first_page m + S page)%nat by lia. done.
  - intros j q' Hj Hq'. unfold range in Hj. destruct (Hl (j - first_page m)%nat ltac:(lia)) as (q2 & Hq2 & _ & Hqa2).
    replace (first_page m + (j - first_page m))%nat with j in Hq2 by lia. assert (q2 = q') as -> by congruence.
    rewrite Hqa, Hqa2, !page_of_add. lia.
Qed.

(** A mapping with other permissions. *)
Lemma seal_record_inv s i x k m p : Inv cfg s → slots s !! i = Some x → mappings x !! k = Some m →
  Inv cfg (set_slot (memory s) i (with_mappings (alter (with_seal p) k (mappings x)) (mapping_count x) x) s).
Proof.
  intros [C Ht] Hx Hk. rewrite (alter_insert_eq _ _ _ _ Hk). set (x' := with_mappings _ _ x).
  assert (Hold : ∀ j m1, mappings x' !! j = Some m1 → ∃ m2, mappings x !! j = Some m2 ∧ occupied m1 = occupied m2 ∧ releasable m1 = releasable m2
    ∧ heap m1 = heap m2 ∧ mp_address m1 = mp_address m2 ∧ memory_size m1 = memory_size m2 ∧ first_page m1 = first_page m2
    ∧ mp_page_count m1 = mp_page_count m2 ∧ shared_identity m1 = shared_identity m2).
  { intros j m1 Hj. simpl in Hj. apply lookup_insert_cases in Hj as [(<- & <- & _)|[_ Hj]]; [by exists m|by exists m1]. }
  assert (Hcov : ∀ m1 m2 n, first_page m1 = first_page m2 → mp_page_count m1 = mp_page_count m2 → covers m1 n → covers m2 n).
  { intros m1 m2 n H1 H2. unfold covers. by rewrite H1, H2. }
  split.
  - eapply (core_same_records cfg at_rest s i x); try done; [by intros []|..].
    + destruct (core_shape _ _ _ C i x Hx) as [S1 S2 S3 S4 S5 S6 S7]. split; try done.
      * simpl. by rewrite length_insert.
      * intros j m1 (m2 & Hj & Ho & _)%Hold H1. eapply S5; [done|congruence].
      * intros j m1 (m2 & Hj & Ho & H2 & H3 & _ & _ & _ & _ & H4)%Hold H1 Hz. rewrite H2, H3. eapply (S6 j m2); congruence.
      * intros Hst. destruct (S7 Hst) as (H1 & H2 & H3). split_and!; [done..|].
        intros j m1 (m2 & Hj & Ho & _ & _ & _ & _ & H4 & H5 & H6)%Hold Ho1. rewrite H4, H5, H6. eapply (H3 j m2); congruence.
    + intros id _. by apply (mapcount_insert_same id x x' k m (with_seal p m)).
    + intros n q id _ _ Hs. eapply (maps_shared_insert x x' k m (with_seal p m)); done.
  - intros j y Hy. simpl in Hy. apply lookup_insert_cases in Hy as [(<- & <- & _)|[_ Hy]]; [|by eapply Ht].
    destruct (Ht i x Hx) as [T1 T2 T3 T4 T5 T7 T6 T8]. split; try done.
    + intros j m1 (m2 & Hj & Ho & _ & _ & H1 & H2 & H3 & H4 & _)%Hold Ho1. destruct (T2 j m2 Hj ltac:(congruence)) as (K1 & K2 & K3).
      unfold laid_out. rewrite H1, H2, H3, H4. done.
    + intros j j' m1 m1' n (m2 & Hj & Ho & _ & _ & _ & _ & H3 & H4 & _)%Hold (m2' & Hj' & Ho' & _ & _ & _ & _ & H3' & H4' & _)%Hold Ho1 Ho1' Hc Hc'.
      eapply (T3 j j' m2 m2' n); eauto; congruence.
    + intros Hf. destruct (T4 Hf) as (K1 & K2 & K3 & K4). split_and!; [done..|]. intros j m1 (m2 & Hj & -> & _)%Hold. by eapply K4.
    + intros j m1 (m2 & Hj & Ho & _ & H1 & H2 & _)%Hold Ho1 Hh. rewrite H2. eapply (T7 j m2); congruence.
    + intros j m1 n q (m2 & Hj & Ho & _ & _ & _ & _ & H3 & H4 & _)%Hold Ho1 Hc. eapply (T8 j m2 n); eauto; congruence.
Qed.

Lemma seal_spec h p s : Inv cfg s →
  wp (seal cfg h p)
    (λ _ s', Inv cfg s' ∧ wx_free p ∧ ∃ x m, slots s !! space_slot h = Some x ∧ mappings x !! hd_slot h = Some m
       ∧ sealed_pages (space_slot h) x p (covers m) s s')
    (λ _ s', s' = s) s.
Proof.
  intros HI. pose proof HI as [C Ht]. unfold seal. wp_step. eapply wp_mono; [by apply staged_mapping_spec| |done].
  intros m ? (-> & x & Hx & Hph & Hm & Ho). set (i := space_slot h) in *. wp_step. apply wp_ensure; [intros Hg|done].
  apply negb_true_iff in Hg. rewrite !orb_false_iff in Hg. destruct Hg as [[_ Hr%negb_false_iff] Hwx].
  wp_step. eapply wp_mono; [by eapply (seal_loop_spec i x m p Hr Hwx (td_pages x (Ht i x Hx) _ m Hm Ho) (mp_page_count m) 0 s)| |done].
  intros ? s1 (C1 & (m' & ->) & Hs). eapply wp_on_slot; [exact Hx|].
  pose proof (inv_with_memory cfg s m' HI C1) as HI1. split_and!; [exact (seal_record_inv (with_memory m' s) i x (hd_slot h) m p HI1 Hx Hm)|done|].
  exists x, m. split_and!; [done..|]. rewrite Nat.add_0_r in Hs. destruct Hs as [H1 H2]. split.
  - intros k q Hk Hq. rewrite <-(H1 k q Hk Hq). by apply (leaf_of_set_slot (with_memory m' s) i x).
  - intros j b Hb Hout. rewrite <-(H2 j b Hb Hout). by apply (leaf_of_set_slot (with_memory m' s) i x).
Qed.

Lemma commit_spec space entry segments s : Inv cfg s →
  wp (commit cfg space entry segments : SM ProcessImageHandle)
    (λ pr s', Inv cfg s' ∧ leaves_kept s s' ∧ active_slot s' = None
       ∧ ∃ x, slots s' !! ph_slot pr = Some x ∧ phase x = Committed ∧ is_Some (root x) ∧ address_space_root (process_info x) = root x)
    (λ _ s', s' = s) s.
Proof.
  intros [C Ht]. unfold commit, set_active. do 2 wp_step. wp_step. apply wp_ok_or; [intros x Hx|done]. wp_step. apply wp_ensure; [intros Hg|done].
  rewrite !andb_true_iff in Hg. destruct Hg as [[[[[[[Hact%bool_decide_eq_true Hph%bool_decide_eq_true] _] _] _] _] _] _].
  set (i := sp_slot space) in *. wp_step. apply wp_ok_or; [intros top Hr|done]. do 2 wp_step. wp_step. eapply wp_on_slot; [exact Hx|].
  set (x' := with_info _ (with_phase Committed x)). wp_step. eapply wp_get_slot; [simpl; apply list_lookup_insert_eq; by eapply lookup_lt_Some|]. wp_step. simpl.
  split_and!; [split|..]; simpl.
  - pose proof (core_nodup _ _ _ C) as Hnd. pose proof (core_frames _ _ _ C) as Hfr. rewrite (ledger_slot s i x Hx) in Hnd, Hfr.
    apply Forall_app in Hfr as [Hf1 Hf2]. destruct (core_shape _ _ _ C i x Hx) as [S1 S2 S3 S4 S5 S6 S7].
    eapply (core_slot_step cfg at_rest at_rest s i x x' _ None); try done; [apply C| |].
    + intros f Hin. rewrite list.Forall_forall in Hf2. by apply Hf2.
    + intros _. pose proof (core_space _ _ _ C i x Hx ltac:(intros [])) as Hsp. unfold slot_space in *. simpl. rewrite Hr in *. by destruct Hsp.
  - intros j y Hy. apply lookup_insert_cases in Hy as [(<- & <- & _)|[_ Hy]]; [|by eapply Ht]. destruct (Ht i x Hx) as [T1 T2 T3 T4 T5 T7 T6].
    by split.
  - intros j a _. exact (leaf_of_set_slot s i x x' j a Hx eq_refl).
  - done.
  - exists x'. split; [apply list_lookup_insert_eq; by eapply lookup_lt_Some|]. simpl. rewrite Hr. by split_and!.
Qed.

Lemma abort_spec space s : Inv cfg s →
  wp (abort cfg space)
    (λ _ s', Inv cfg s' ∧ (∀ j a, j ≠ sp_slot space → user_address a → leaf_of s' j a = leaf_of s j a)
       ∧ (∃ y, slots s' !! sp_slot space = Some y ∧ phase y = Free ∧ root y = None)
       ∧ ∃ x, slots s !! sp_slot space = Some x ∧ ∀ h, live (memory s') h ↔ live (memory s) h ∧ h ∉ owned x)
    (λ _ s', s' = s) s.
Proof.
  intros [C Ht]. unfold abort. do 2 wp_step. wp_step. apply wp_ensure; [intros Hg|done]. set (i := sp_slot space) in *.
  apply andb_true_iff in Hg as [Hact%bool_decide_eq_true Hg]. destruct (slots s !! i) as [x|] eqn:Hx; [|done].
  apply andb_true_iff in Hg as [Hph%bool_decide_eq_true _]. destruct (ss_staging _ _ (core_shape _ _ _ C i x Hx) Hph) as (_ & _ & Hm).
  eapply wp_mono; [eapply (cleanup_spec cfg s i x); [by apply core_tearing|done|]| |done].
  - intros id Hid. apply countb_zero. intros j m Hj. destruct (occupied m) eqn:Ho; [|done]. destruct (Hm j m Hj Ho) as [_ ->]. by destruct id.
  - intros ? s' [Hre _]. pose proof Hre as (_ & (m' & act & Hs') & Hl & Hlf). split_and!; [|intros j h Hne Hh; by apply Hlf| |by exists x].
    + eapply (released_inv cfg s s i x s'); [|done..]. intros j y _ Hy. by eapply Ht.
    + rewrite Hs'. eexists. split; [simpl; apply list_lookup_insert_eq; by eapply lookup_lt_Some|done].
Qed.

End Stage.
