(* ===== verification/SpaceStack.v ===== *)
(** * The initial stack

    [install_stack_pages] of process/x86_64.rs maps the stack of a committed
    process. Where it fails, the process is left with entries to frames that it
    no longer owns; releasing it, as its callers do, makes up for that. *)

From stdpp Require Import prelude list numbers.
From Stdlib Require Import ZArith Lia.
From S2P Require Import Prelude.
From S2P Require Import Wp.
From S2P Require Import AddressSpace.
From S2P Require Import PageTree.
From S2P Require Import SpaceInv.
From S2P Require Import SpaceSteps.
From S2P Require Import SpacePages.
From S2P Require Import SpaceShared.
From S2P Require Import SpaceOps.
From S2P Require Import SpaceProtect.
From S2P Require Import SpaceEnd.
From S2P Require Import SpaceStage.

Section Stack.
Context {Mem E : Type} `{!FrameMemory Mem E, KF : !KernelFrames, !FrameMemoryLaws Mem E} (cfg : Config).
Abbreviation State := (FrameBackedAddressSpace Mem).
Abbreviation SM := (M State (FrameBackedError E)).
Implicit Types (s : State) (g : Flight).

(** The next [n] pages of slot [i] were mapped from [base] on, to frames that
    were free. *)
Record stacked (i : nat) (x : FrameBackedSlot) (n : nat) (base : Z) (s s' : State) : Prop := {
  sd_core : Core cfg at_rest s';
  sd_ledger : ledger s ⊆ ledger s';
  sd_state : ∃ l c P m', s' = set_slot m' i (with_owned l c (with_pages P (page_count x + n) x)) s ∧ length P = length (pages x)
    ∧ (∀ j, ¬ range (page_count x) n j → P !! j = pages x !! j)
    ∧ ∀ h, (h < n)%nat → ∃ f, P !! (page_count x + h)%nat = Some (mkPage f (page_va base h)) ∧ (f ∉ ledger s)
        ∧ leaf_of s' i (page_va base h) = user_mapping_entry f HEAP_PERMISSIONS ∧ f ∉ kernel_frames;
  sd_new : ∀ h, (h < n)%nat → user_address (page_va base h) ∧ leaf_of s i (page_va base h) = 0;
  sd_out : ∀ j a, user_address a → (j = i → ∀ h, (h < n)%nat → page_of a ≠ page_of (page_va base h)) → leaf_of s' j a = leaf_of s j a;
}.

Lemma stacked_grown i x base s s' : slots s !! i = Some x → Core cfg at_rest s' → grown at_rest i s s' → stacked i x 0 base s s'.
Proof.
  intros Hx C G. split; [done|by eapply grown_ledger| |lia|intros j a Ha _; apply (gr_leaf _ _ _ _ G); [by intros []|done]].
  destruct (gr_state _ _ _ _ G) as (y & l & c & m' & Hy & _ & Hs). assert (y = x) as -> by congruence.
  exists l, c, (pages x), m'. rewrite Nat.add_0_r, with_pages_same. split_and!; try done. lia.
Qed.

Lemma stacked_slot i x n base s s' : slots s !! i = Some x → stacked i x n base s s' → ∃ x', slots s' !! i = Some x'.
Proof. intros Hx [_ _ (l & c & P & m' & -> & _) _ _]. eexists. by eapply lookup_set_slot. Qed.

Lemma page_va_shift base h n : page_va base (h + n) = page_va (page_va base h) n.
Proof. unfold page_va. lia. Qed.

Lemma stacked_trans i x n n' base s s1 s2 : slots s !! i = Some x → stacked i x n base s s1 →
  (∀ x1, slots s1 !! i = Some x1 → stacked i x1 n' (page_va base n) s1 s2) → stacked i x (n + n') base s s2.
Proof.
  intros Hx [_ L1 (l & c & P & m1 & Hs1 & HP & Hout & Hin) N1 O1] Hnext.
  assert (Hx1 : slots s1 !! i = Some (with_owned l c (with_pages P (page_count x + n) x))) by (rewrite Hs1; by eapply lookup_set_slot).
  destruct (Hnext _ Hx1) as [C2 L2 (l' & c' & P' & m2 & Hs2 & HP' & Hout' & Hin') N2 O2]. simpl in *.
  assert (Hcase : ∀ h, (h < n + n')%nat → (h < n)%nat ∨ ∃ h', h = (n + h')%nat ∧ (h' < n')%nat ∧ page_va base h = page_va (page_va base n) h').
  { intros h Hh. destruct (decide (h < n)%nat); [by left|right]. exists (h - n)%nat. rewrite <-page_va_shift. split_and!; [lia..|f_equal; lia]. }
  assert (Hne : ∀ h h', (h < n)%nat → page_of (page_va base h) ≠ page_of (page_va (page_va base n) h')).
  { intros h h' Hh. rewrite <-page_va_shift. unfold page_va. rewrite !page_of_add. lia. }
  assert (HN : ∀ h, (h < n + n')%nat → user_address (page_va base h) ∧ leaf_of s i (page_va base h) = 0).
  { intros h [Hh|(h' & -> & Hh' & ->)]%Hcase; [by apply N1|]. destruct (N2 h' Hh') as [Hua Hz]. split; [done|]. rewrite <-Hz. symmetry.
    apply O1; [done|]. intros _ k Hk. apply not_eq_sym. by apply Hne. }
  split; [done|by etrans| |done|].
  - exists l', c', P', m2. split_and!; [by rewrite Hs2, Hs1, set_slot_twice, Nat.add_assoc|lia| |].
    + intros j Hj. rewrite Hout', Hout; [done|..]; unfold range in *; lia.
    + intros h [Hh|(h' & -> & Hh' & Heq)]%Hcase.
      * destruct (Hin h Hh) as (f & Hf & Hfr & Hlf & Hkf). exists f. rewrite Hout' by (unfold range; lia). split_and!; try done.
        rewrite O2; [done|by apply N1|]. intros _ k Hk. by apply Hne.
      * rewrite Heq. destruct (Hin' h' Hh') as (f & Hf & Hfr & Hlf & Hkf). exists f. rewrite Nat.add_assoc. split_and!; try done.
        intros Hl. by apply Hfr, L1.
  - intros j a Ha Hno. rewrite O2, O1; [done|done| |done|].
    + intros Hj h Hh. apply Hno; [done|lia].
    + intros Hj h Hh. rewrite <-page_va_shift. apply Hno; [done|lia].
Qed.

(** More page records, which no mapping has yet. *)
Lemma tidy_append x l c P n : tidy x → phase x ≠ Free → (∀ j, ¬ range (page_count x) n j → P !! j = pages x !! j) →
  tidy (with_owned l c (with_pages P (page_count x + n) x)).
Proof.
  intros [T1 T2 T3 T4 T5 T7 T6 T8 T9] Hph Hout.
  assert (Hpage : ∀ k m h, mappings x !! k = Some m → occupied m = true → (h < mp_page_count m)%nat →
    ∃ p, pages x !! (first_page m + h)%nat = Some p ∧ P !! (first_page m + h)%nat = Some p ∧ used p ∧ pg_address p = page_va (mp_address m) h).
  { intros k m h Hk Ho Hh. destruct (T2 k m Hk Ho) as (_ & _ & H3). destruct (H3 h Hh) as (p & Hp & Hu & Hpa). exists p.
    split_and!; [done| |done..]. rewrite Hout; [done|]. intros Hr. destruct (T1 (first_page m + h)%nat p); [unfold range in Hr; lia|done..]. }
  split; try done; simpl.
  - intros k p Hk Hp. simpl in *. rewrite Hout in Hp by (unfold range; lia). eapply T1; [|done]. lia.
  - intros k m Hk Ho. destruct (T2 k m Hk Ho) as (H1 & H2 & _). split_and!; [done..|]. intros h Hh.
    destruct (Hpage k m h Hk Ho Hh) as (p & _ & Hp & Hu & Hpa). by exists p.
  - intros k m h q Hk Ho Hc Hq. unfold covers in Hc. destruct (Hpage k m (h - first_page m)%nat Hk Ho ltac:(lia)) as (p & Hp & Hp' & _).
    replace (first_page m + (h - first_page m))%nat with h in Hp, Hp' by lia. assert (q = p) as -> by congruence. by eapply (T8 k m h).
Qed.

(** A larger number of page records. *)
Lemma core_page_count s i x n : Core cfg at_rest s → slots s !! i = Some x → phase x ≠ Staging →
  Core cfg at_rest (set_slot (memory s) i (with_pages (pages x) n x) s).
Proof.
  intros C Hx Hph. eapply (core_same_records cfg at_rest s i x); try done; [by intros []|].
  destruct (core_shape _ _ _ C i x Hx) as [S1 S2 S3 S4 S5 S6 S7]. by split.
Qed.

Lemma stack_page {A} s i x va (undo : SM unit) (K : SM A) Q R : Core cfg at_rest s → slots s !! i = Some x → phase x ≠ Staging → tail_unused x →
  (page_count x < length (pages x))%nat → 0 < va →
  (∀ s', stacked i x 1 va s s' → wp K Q R s') → (∀ e s', Core cfg at_rest s' → grown at_rest i s s' → wp undo (λ _, R e) R s') →
  wp ('(table, index) ← or_undo (ensure_leaf_slot cfg i va) undo;
      f ← or_undo (allocate_owned cfg i) undo;
      or_undo (on_memory (write_entry table index (Z.lor (Z.lor (Z.lor (Z.lor f ENTRY_PRESENT) ENTRY_WRITABLE) ENTRY_USER) ENTRY_NO_EXECUTE))) undo;;
      on_slot i (λ y, with_pages (<[page_count y := mkPage f va]> (pages y)) (S (page_count y)) y);;
      K) Q R s.
Proof.
  intros C Hx Hph Htail Hlen Hva HK HR. wp_step. apply wp_or_undo.
  eapply wp_mono; [eapply (ensure_leaf_slot_spec cfg at_rest s i x); try done; [by intros []|lia]| |intros e s' [C' G']; by apply HR].
  intros [t d] s1 (C1 & G1 & Hua & Hd & r & Hr & Hdesc & H0). simpl in Hd, Hdesc. subst d.
  destruct (grown_slot _ _ _ _ _ G1 Hx) as (l1 & c1 & Hx1 & _ & _). wp_step. apply wp_or_undo.
  eapply wp_mono; [eapply (allocate_owned_spec cfg at_rest s1 i (with_owned l1 c1 x)); try done; by intros []|
    |intros e s' [C' G']; apply HR; [done|by eapply grown_trans]].
  intros f s2 (C2 & G2 & Hx2 & Hf & Hmask & _ & Hfresh & _). specialize (Hfresh r Hr). set (x2 := push_owned f (with_owned l1 c1 x)) in *.
  pose proof (grown_trans at_rest i s s1 s2 G1 G2) as G.
  pose proof (gr_descend _ _ _ _ G2 (with_owned l1 c1 x) r (table_path va) t Hx1 Hr (user_table_path va Hua) ltac:(done) Hdesc) as Hd2.
  destruct (table_in_ledger cfg at_rest s2 i x2 r (table_path va) t) as [_ Hled]; try done; [by intros []|by apply user_table_path|].
  rewrite (proj2 (heap_entry_form f Hmask)).
  destruct (user_entry_form f HEAP_PERMISSIONS Hmask eq_refl) as [Hform Hu64].
  destruct (on_write_entry cfg at_rest s2 t (leaf_index va) _ C2 Hled (leaf_index_range _) Hu64) as (m' & Hrun & Hm & Hlive & He).
  destruct (lookup_lt_is_Some_2 (pages x) (page_count x) Hlen) as [p0 Hp0].
  destruct (core_publish cfg at_rest s2 i x2 r (page_count x) p0 f va t (user_mapping_entry f HEAP_PERMISSIONS) m') as (C3 & Hset & _); try done;
    [by intros []|by eapply Htail|lia|by left|].
  wp_step. apply wp_or_undo. eapply wp_of_run; [exact Hrun|]. wp_step. eapply wp_on_slot; [exact Hx2|]. apply HK. simpl.
  set (x3 := with_pages (<[page_count x := mkPage f va]> (pages x)) (S (page_count x)) x2).
  fold (set_slot m' i (set_page (page_count x) (mkPage f va) x2) s2) in C3, Hset. fold (set_slot m' i x3 s2).
  assert (Hout : ∀ j a, user_address a → leaf_of (set_slot m' i x3 s2) j a = if decide (j = i ∧ page_of a = page_of va) then user_mapping_entry f HEAP_PERMISSIONS else leaf_of s j a).
  { intros j a Ha. rewrite <-(gr_leaf _ _ _ _ G j a) by (done || intros []). rewrite <-(Hset j a) by (done || intros []).
    unfold leaf_of. simpl. destruct (decide (j = i)) as [->|]; [|by rewrite !list_lookup_insert_ne].
    rewrite !list_lookup_insert_eq by (by eapply lookup_lt_Some). done. }
  assert (C4 : Core cfg at_rest (set_slot m' i x3 s2)).
  { pose proof (core_page_count _ i _ (S (page_count x)) C3 (lookup_set_slot m' i _ x2 s2 Hx2)) as C4. rewrite set_slot_twice in C4. by apply C4. }
  destruct (gr_state _ _ _ _ G) as (y & l & c & m2 & Hy & _ & Hs2). assert (y = x) as -> by congruence.
  split; [done| | | |].
  - pose proof (grown_ledger _ _ _ _ G) as Hsub. intros h Hh. apply Hsub in Hh. rewrite (ledger_slot s2 i x2 Hx2) in Hh.
    change (h ∈ ledger (set_slot m' i x3 s2)). rewrite (ledger_set_slot m' (kernel_root s2) (active_slot s2) s2 i x2 x3 Hx2). exact Hh.
  - exists (owned_frames x2), (owned_frame_count x2), (<[page_count x := mkPage f va]> (pages x)), m'. rewrite Nat.add_1_r. split_and!.
    + rewrite Hs2. fold (set_slot m2 i (with_owned l c x) s). by rewrite set_slot_twice.
    + by rewrite length_insert.
    + intros j Hj. apply list_lookup_insert_ne. unfold range in Hj. lia.
    + intros h Hh. assert (h = O) as -> by lia. unfold page_va. rewrite Z.add_0_r, Nat.add_0_r. exists f.
      split_and!; [by apply list_lookup_insert_eq|intros Hl; by apply Hf, (grown_ledger _ _ _ _ G1)|rewrite Hout by done; by rewrite decide_True|].
      intros Hkf. eapply (kernel_not_owned cfg at_rest s2 i x2); try done. apply Hfresh.
  - intros h Hh. assert (h = O) as -> by lia. unfold page_va. by rewrite Z.add_0_r.
  - intros j a Ha Hno. rewrite Hout by done. apply decide_False. intros [-> Heq]. apply (Hno eq_refl O); [lia|]. unfold page_va. by rewrite Z.add_0_r.
Qed.

Lemma stack_loop_spec i x0 s0 base (undo : SM unit) R total : slots s0 !! i = Some x0 → phase x0 ≠ Staging → tail_unused x0 →
  (page_count x0 + total ≤ length (pages x0))%nat → 0 < base →
  (∀ e s' k, (k ≤ total)%nat → stacked i x0 k base s0 s' → wp undo (λ _, R e) R s') →
  ∀ n page s, (page + n = total)%nat → stacked i x0 page base s0 s →
  wp (stack_loop cfg n i base undo page) (λ _ s', stacked i x0 total base s0 s') R s.
Proof.
  intros Hx0 Hph Htail Hlen Hb HR. induction n as [|n IH]; intros page s Hn Hs; cbn [stack_loop].
  { wp_step. by replace total with page by lia. }
  assert (Hsx : ∃ l c P, slots s !! i = Some (with_owned l c (with_pages P (page_count x0 + page) x0)) ∧ length P = length (pages x0)
    ∧ ∀ j, ¬ range (page_count x0) page j → P !! j = pages x0 !! j).
  { destruct (sd_state _ _ _ _ _ _ Hs) as (l & c & P & m' & -> & HP & Hout & _). exists l, c, P. by rewrite lookup_set_slot with (y := x0). }
  destruct Hsx as (l & c & P & Hx & HP & Hout). set (x := with_owned l c (with_pages P (page_count x0 + page) x0)) in *.
  eapply (stack_page s i x); try done; simpl; try lia.
  - apply Hs.
  - intros k p Hk Hp. simpl in Hk, Hp. rewrite Hout in Hp by (unfold range; lia). eapply Htail; [|done]. lia.
  - unfold PAGE_SIZE. lia.
  - intros s1 H1. apply (IH (S page)); [lia|]. rewrite <-Nat.add_1_r. eapply stacked_trans; [done|exact Hs|].
    intros y Hy. assert (y = x) as -> by congruence. exact H1.
  - intros e s' C' G'. apply (HR e s' page); [lia|]. rewrite <-(Nat.add_0_r page). eapply stacked_trans; [done|exact Hs|].
    intros y Hy. assert (y = x) as -> by congruence. by apply stacked_grown.
Qed.

(** ** A failed installation *)

(** Giving back the last frame of a slot that is torn down. *)
Lemma release_last_spec s i x f : Core cfg (tearing i) s → slots s !! i = Some x → (0 < owned_frame_count x)%nat →
  f = slot_at 0 (owned_frames x) (owned_frame_count x - 1) →
  wp (release_last_owned cfg i f)
    (λ _ s', Core cfg (tearing i) s' ∧ (∀ j a, j ≠ i → user_address a → leaf_of s' j a = leaf_of s j a)
       ∧ ∃ l m', s' = set_slot m' i (with_owned l (owned_frame_count x - 1) x) s) (λ _ _, False) s.
Proof.
  intros C Hx Hpos ->. pose proof (core_shape _ _ _ C i x Hx) as Hs. destruct (owned_frame_count x) as [|last] eqn:Hc; [lia|].
  pose proof (ss_owned _ _ Hs) as Hl. pose proof (ss_count _ _ Hs) as Hle. rewrite Hc in Hle. simpl. rewrite Nat.sub_0_r.
  destruct (lookup_lt_is_Some_2 (owned_frames x) last ltac:(lia)) as [f Hf]. rewrite (slot_at_Some _ _ _ _ Hf).
  assert (Hown : owned x = take last (owned_frames x) ++ [f]) by (unfold owned; rewrite Hc; by apply take_S_r).
  assert (Hin : f ∈ owned x) by (rewrite Hown; apply elem_of_app; right; by apply list_elem_of_singleton).
  pose proof (core_owned_live cfg _ s f C (owned_in_ledger s i x Hx f Hin)) as [Hlive _].
  destruct (law_release (memory s) f (core_mem _ _ _ C) Hlive) as (m' & Hrel & Hm & Hl' & He).
  unfold release_last_owned. wp_step. eapply wp_get_slot; [exact Hx|]. rewrite Hc, (slot_at_Some _ _ _ _ Hf).
  wp_step. apply wp_ensure; [intros _|by rewrite Z.eqb_refl]. wp_step. eapply wp_of_run; [by apply on_release_run|]. eapply wp_on_slot; [exact Hx|].
  cbn [memory with_memory kernel_root active_slot slots shared].
  set (x' := with_owned (<[last := 0]> (owned_frames x)) last x). fold (set_slot m' i x' s).
  assert (Ho' : owned x' = take last (owned_frames x)) by (unfold owned; simpl; by rewrite take_insert_ge).
  pose proof (core_nodup _ _ _ C) as Hnd. pose proof (core_frames _ _ _ C) as Hfr. rewrite (ledger_slot s i x Hx), Hown in Hnd, Hfr.
  rewrite <-app_assoc in Hnd, Hfr. apply list.NoDup_app in Hnd as (Hnd1 & Hdis & Hnd2). apply list.NoDup_cons in Hnd2 as [Hfn Hnd2].
  apply Forall_app in Hfr as [Hfr1 Hfr2]. apply Forall_cons_1 in Hfr2 as [_ Hfr2].
  assert (Hnf : f ∉ take last (owned_frames x)) by (intros Hi; eapply Hdis; [exact Hi|by left]).
  assert (Hrl : ∀ h, h ∈ rest i s → live m' h).
  { intros h Hh. apply Hl'. rewrite list.Forall_forall in Hfr2. split; [by apply Hfr2|]. by intros ->. }
  assert (Hre : equal_on (rest i s) (entries (memory s)) (entries m')) by (intros t j Ht Hj; apply He; [by apply Hrl|done]).
  split_and!; [| |by eexists _, _].
  - eapply (core_slot_step cfg (tearing i) (tearing i) s i x x'); rewrite ?Ho'; try done.
    + apply list.NoDup_app. split_and!; [done| |done]. intros h Hh Hh'. eapply Hdis; [exact Hh|by right].
    + rewrite list.Forall_forall in *. intros h Hh. destruct (Hfr1 h Hh) as [H1 H2]. split; [|done]. apply Hl'. split; [done|]. by intros ->.
    + intros t j Ht Hj. rewrite (Hre t j Ht Hj). apply same_entry_refl.
    + apply slot_shape_with_owned; [done|by rewrite length_insert|rewrite length_insert; lia].
    + intros k Hk. destruct (decide (k = i)) as [->|]; [right|by left]. split; [done|]. destruct (core_active _ _ _ C i Hk) as (y & Hy & Hst). simpl. congruence.
  - intros j a Hne Ha. etransitivity; [|by eapply (leaf_of_others cfg (tearing i) s i m')]. unfold leaf_of. simpl. by rewrite list_lookup_insert_ne.
Qed.

(** Slot [i] is not to be used but to be released; everything else is as it
    was. *)
Definition unsettled (i : nat) (x : FrameBackedSlot) (s s' : State) : Prop :=
  Core cfg (tearing i) s' ∧ (∀ j a, j ≠ i → user_address a → leaf_of s' j a = leaf_of s j a)
  ∧ ∃ x' m', s' = set_slot m' i x' s ∧ phase x' = phase x ∧ generation x' = generation x ∧ process_info x' = process_info x.

Lemma release_down_to_spec i n : ∀ s x, Core cfg (tearing i) s → slots s !! i = Some x → (n ≤ owned_frame_count x)%nat →
  wp (release_down_to cfg n i)
    (λ _ s', Core cfg (tearing i) s' ∧ (∀ j a, j ≠ i → user_address a → leaf_of s' j a = leaf_of s j a)
       ∧ ∃ l c m', s' = set_slot m' i (with_owned l c x) s) (λ _ _, False) s.
Proof.
  induction n as [|n IH]; intros s x C Hx Hn; cbn [release_down_to].
  { wp_step. split_and!; [done..|]. exists (owned_frames x), (owned_frame_count x), (memory s). unfold set_slot.
    rewrite with_owned_same, (insert_same_slot s i x Hx). by destruct s. }
  wp_step. eapply wp_get_slot; [exact Hx|]. wp_step. eapply wp_mono; [by eapply (release_last_spec s i x); [..|lia|done]| |done].
  intros ? s1 (C1 & Hl1 & l & m1 & ->). eapply wp_mono; [eapply (IH _ _ C1); [by eapply lookup_set_slot|simpl; lia]| |done].
  intros ? s2 (C2 & Hl2 & l' & c' & m2 & ->). split_and!; [done| |exists l', c', m2; by rewrite set_slot_twice, with_owned_twice].
  intros j b Hne Hb. rewrite Hl2, Hl1; done.
Qed.

Lemma rollback_stack_spec i s x before pages_before : Core cfg at_rest s → slots s !! i = Some x → phase x ≠ Staging →
  (pages_before ≤ page_count x ≤ length (pages x))%nat →
  wp (rollback_stack_install cfg i before pages_before) (λ _ s', unsettled i x s s') (λ _ _, False) s.
Proof.
  intros C Hx Hph Hpc. unfold rollback_stack_install. wp_step. eapply wp_get_slot; [exact Hx|]. wp_step.
  eapply wp_mono; [eapply (release_down_to_spec i _ s x); [by apply core_tearing|done|lia]| |done].
  intros ? s1 (C1 & Hl1 & l & c & m1 & ->). set (x1 := with_owned l c x) in *.
  assert (Hx1 : slots (set_slot m1 i x1 s) !! i = Some x1) by (by eapply lookup_set_slot). eapply wp_on_slot; [exact Hx1|].
  fold (set_slot m1 i (clear_pages_from pages_before x1) (set_slot m1 i x1 s)). split_and!.
  - eapply (core_torn_step cfg (tearing i) (tearing i) _ i x1); try done.
    destruct (core_shape _ _ _ C1 i x1 Hx1) as [S1 S2 S3 S4 S5 S6 S7]. split; try done.
    simpl in *. rewrite !length_app, length_take, length_replicate, length_drop. lia.
  - intros j b Hne Hb. rewrite <-(Hl1 j b Hne Hb). unfold leaf_of. simpl. by rewrite list_lookup_insert_ne.
  - exists (clear_pages_from pages_before x1), m1. split; [|done]. unfold set_slot. simpl. by rewrite list_insert_insert_eq.
Qed.

Lemma unsettled_trans i x x1 s s1 s2 n base : slots s !! i = Some x → stacked i x n base s s1 → slots s1 !! i = Some x1 → unsettled i x1 s1 s2 → unsettled i x s s2.
Proof.
  intros Hx [_ _ (l & c & P & m1 & -> & _) _ Hout] Hx1 (C2 & Hl & x' & m' & -> & H1 & H2 & H3).
  rewrite lookup_set_slot with (y := x) in Hx1 by done. injection Hx1 as <-. split_and!; [done| |].
  - intros j a Hne Ha. rewrite Hl, Hout; done.
  - exists x', m'. by rewrite set_slot_twice.
Qed.

(** ** The operation *)

Section Installed.
Context (i count : nat) (x : FrameBackedSlot) (base : Z) (s s1 : State).
Context (HI : Inv cfg s) (Hx : slots s !! i = Some x) (Hph : phase x = Committed) (Hs : stacked i x count base s s1).
Context (Hal : (PAGE_SIZE | base)) (Hlo : PAGE_SIZE ≤ base) (Hhi : base + Z.of_nat count * PAGE_SIZE ≤ USER_LIMIT).

Lemma installed_slot : ∃ l c P, slots s1 !! i = Some (with_owned l c (with_pages P (page_count x + count) x))
  ∧ (∀ j, ¬ range (page_count x) count j → P !! j = pages x !! j)
  ∧ ∀ h, (h < count)%nat → ∃ f, P !! (page_count x + h)%nat = Some (mkPage f (page_va base h)) ∧ (f ∉ ledger s)
      ∧ leaf_of s1 i (page_va base h) = user_mapping_entry f HEAP_PERMISSIONS ∧ f ∉ kernel_frames.
Proof.
  destruct (sd_state _ _ _ _ _ _ Hs) as (l & c & P & m' & Hs1 & _ & Hout & Hin). exists l, c, P.
  split_and!; [rewrite Hs1; by eapply lookup_set_slot|done|done].
Qed.

Lemma installed_inv : Inv cfg s1.
Proof.
  destruct HI as [_ Ht]. split; [apply Hs|]. intros j y Hy. destruct (sd_state _ _ _ _ _ _ Hs) as (l & c & P & m' & Hs1 & HP & Hout & Hin).
  rewrite Hs1 in Hy. simpl in Hy. apply lookup_insert_cases in Hy as [(<- & <- & _)|[_ Hy]]; [|by eapply Ht].
  eapply tidy_append; [by eapply (Ht i)|congruence|done].
Qed.

Lemma installed_mapped : ∃ fs, NoDup fs ∧ Forall (λ f, f ∉ ledger s) fs ∧ length fs = count ∧ mapped i base fs HEAP_PERMISSIONS s s1.
Proof.
  destruct installed_slot as (l & c & P & Hx1 & Hout & Hin). set (x1 := with_owned l c (with_pages P (page_count x + count) x)) in *.
  assert (Hnz : ∀ h, page_va base h ≠ 0) by (intros h; unfold page_va, PAGE_SIZE in *; lia).
  exists (page_frames x1 (page_count x) count). split_and!; [| |apply page_frames_length|].
  - apply NoDup_alt. intros h h' f [Hh ->]%page_frames_lookup [Hh' Heq]%page_frames_lookup.
    destruct (Hin h Hh) as (f & Hf & _ & _ & Hkf). destruct (Hin h' Hh') as (f' & Hf' & _).
    rewrite (slot_at_Some _ _ _ _ Hf), (slot_at_Some _ _ _ _ Hf') in Heq. simpl in Heq. subst f'.
    assert (page_count x + h = page_count x + h')%nat; [|lia].
    eapply (own_frames_differ cfg s1 i x1 _ _ _ _ installed_inv Hx1 Hf Hf'); try apply Hnz; [|done|done].
    intros id (_ & j & m & Hj & Ho & _ & Hc). destruct HI as [_ Ht]. destruct (td_pages x (Ht i x Hx) j m Hj Ho) as (_ & _ & Hl).
    destruct (Hl (page_count x + h - first_page m)%nat) as (p & Hp & Hu & _); [unfold covers in Hc; lia|].
    replace (first_page m + (page_count x + h - first_page m))%nat with (page_count x + h)%nat in Hp by (unfold covers in Hc; lia).
    by eapply (td_tail x (Ht i x Hx)); [|exact Hp|]; [lia|].
  - apply list.Forall_forall. intros f (h & [Hh ->]%page_frames_lookup)%list_elem_of_lookup. destruct (Hin h Hh) as (f & Hf & Hn & _).
    by rewrite (slot_at_Some _ _ _ _ Hf).
  - split; rewrite ?page_frames_length; [done|done|intros a Ha|intros a f Ha Hf|intros j a Ha Hno].
    + rewrite (leaf_of_page s i a _ (page_of_in base a Hal ltac:(lia))). apply (sd_new _ _ _ _ _ _ Hs). unfold PAGE_SIZE in *.
      assert ((a - base) / 4096 < Z.of_nat count) by (apply Z.div_lt_upper_bound; lia). assert (0 ≤ (a - base) / 4096) by (apply Z.div_pos; lia). lia.
    + apply page_frames_lookup in Hf as [Hh ->]. rewrite (leaf_of_page s1 i a _ (page_of_in base a Hal ltac:(lia))).
      destruct (Hin _ Hh) as (f & Hf & _ & -> & _). by rewrite (slot_at_Some _ _ _ _ Hf).
    + apply (sd_out _ _ _ _ _ _ Hs); [done|]. intros -> h Hh. eapply page_of_out; [done|by apply Hno|done].
Qed.

End Installed.

(** Where the stack of [count] pages starts. *)
Definition stack_base (count : nat) : Z := INITIAL_USER_STACK_BASE - Z.of_nat (count - 1) * PAGE_SIZE.

Lemma install_stack_spec process count s : Inv cfg s →
  wp (install_stack_pages cfg process count)
    (λ top s', Inv cfg s' ∧ top = INITIAL_USER_STACK_BASE + PAGE_SIZE
       ∧ ∃ fs, NoDup fs ∧ Forall (λ f, f ∉ ledger s) fs ∧ length fs = count ∧ mapped (ph_slot process) (stack_base count) fs HEAP_PERMISSIONS s s')
    (λ _ s', s' = s ∨ ∃ x, slots s !! ph_slot process = Some x ∧ phase x = Committed ∧ generation x = ph_generation process ∧ unsettled (ph_slot process) x s s') s.
Proof.
  intros HI. pose proof HI as [C Ht]. unfold install_stack_pages. wp_step. eapply wp_mono; [apply process_slot_spec| |by left].
  intros i ? (-> & -> & x & Hx & Hph & Hgen). set (i := ph_slot process) in *. wp_step. apply wp_ensure; [intros Hc%negb_true_iff%Nat.eqb_neq|by left].
  wp_step. apply wp_ensure; [intros _|by left]. do 2 wp_step. wp_step. apply wp_ensure; [intros Hg|by left].
  rewrite (the_slot_eq cfg s i x Hx) in *. apply negb_true_iff in Hg. rewrite !orb_false_iff in Hg.
  destruct Hg as [[_ Hlo%Z.ltb_ge] Hlen%Nat.ltb_ge]. fold (stack_base count) in *.
  assert (Hal : (PAGE_SIZE | stack_base count)).
  { exists (1024 - Z.of_nat (count - 1)). unfold stack_base, INITIAL_USER_STACK_BASE, PAGE_SIZE. lia. }
  wp_step. eapply wp_mono.
  - eapply (stack_loop_spec i x s (stack_base count) _
      (λ _ s', s' = s ∨ ∃ x, slots s !! i = Some x ∧ phase x = Committed ∧ generation x = ph_generation process ∧ unsettled i x s s') count); try done; [congruence|apply (Ht i x Hx)|lia| |].
    + intros e s' k Hk Hs'. destruct (stacked_slot i x k _ s s' Hx Hs') as [x' Hx'].
      assert (Hx'' : phase x' = phase x ∧ page_count x' = (page_count x + k)%nat ∧ length (pages x') = length (pages x)).
      { destruct (sd_state _ _ _ _ _ _ Hs') as (l & c & P & m' & Heq & HP & _). rewrite Heq, lookup_set_slot with (y := x) in Hx' by done. by injection Hx' as <-. }
      destruct Hx'' as (H1 & H2 & H3).
      eapply wp_mono; [eapply (rollback_stack_spec i s' x'); [apply Hs'|done|congruence|lia]| |done].
      intros ? s2 H. right. exists x. split_and!; [done..|]. by eapply unsettled_trans.
    + apply stacked_grown; [done..|]. eapply grown_refl; try done. by intros [].
  - intros ? s1 Hs1. assert (Hhi : stack_base count + Z.of_nat count * PAGE_SIZE ≤ USER_LIMIT).
    { unfold stack_base, INITIAL_USER_STACK_BASE, PAGE_SIZE, USER_LIMIT. lia. }
    pose proof (installed_inv i count x (stack_base count) s s1) as HI1. pose proof (installed_mapped i count x (stack_base count) s s1) as Hmap.
    destruct (installed_slot i count x (stack_base count) s s1 Hx Hs1) as (l & c & P & Hx1 & _). wp_step. eapply wp_on_slot; [exact Hx1|]. wp_step.
    set (x1 := with_owned _ _ _) in *. set (x2 := with_heap _ _ _). fold (set_slot (memory s1) i x2 s1).
    assert (HI1' : Inv cfg s1) by (by apply HI1). assert (Hkept : leaves_kept s1 (set_slot (memory s1) i x2 s1)) by (intros j h _; by apply (leaf_of_set_slot s1 i x1)).
    split_and!; [|done|].
    + destruct HI1' as [C1 Ht1]. split.
      * eapply (core_same_records cfg at_rest s1 i x1); try done; [by intros []|]. by destruct (core_shape _ _ _ C1 i x1 Hx1).
      * intros j y Hy. simpl in Hy. apply lookup_insert_cases in Hy as [(<- & <- & _)|[_ Hy]]; [|by eapply Ht1].
        destruct (Ht1 i x1 Hx1). split; try done. simpl. unfold stack_base, INITIAL_USER_STACK_BASE, PAGE_SIZE in *. lia.
    + destruct Hmap as (fs & H1 & H2 & H3 & H4); try done. exists fs. split_and!; try done. eapply mapped_kept; [by intros ??|exact H4|done].
  - done.
Qed.

End Stack.
