(* ===== verification/SpaceBoot.v ===== *)
(** * The pages that the kernel gives the first process at boot

    [install_thermal_page] and [install_nexus_plane] of process/x86_64.rs: a
    zeroed frame of its own that the process may only read, and a view of three
    pages of the kernel image. Both keep the invariant of the pool and change
    only the pages they are for. *)

From stdpp Require Import prelude list numbers.
From Stdlib Require Import ZArith Lia.
From S2P Require Import Prelude.
From S2P Require Import UserMemory.
From S2P Require Import Wp.
From S2P Require Import AddressSpace.
From S2P Require Import PageTree.
From S2P Require Import SpaceInv.
From S2P Require Import SpaceSteps.
From S2P Require Import SpaceBase.
From S2P Require Import SpacePages.
From S2P Require Import SpaceShared.
From S2P Require Import SpaceOps.
From S2P Require Import SpaceProtect.
From S2P Require Import SpaceStage.
From S2P Require Import SpaceStack.

Definition KERNEL_VIRTUAL_BASE : Z := 0xffffffff80000000.
Definition THERMAL_ADDRESS : Z := 0x00800000.
Definition CEREBRAL_INGRESS_ADDRESS : Z := 0x60000000000.
Definition CEREBRAL_OBSERVATION_ADDRESS : Z := 0x60000001000.
Definition CEREBRAL_CERTIFICATE_ADDRESS : Z := 0x60000002000.

(** What the linker decides: the bounds of the image, and where the statics of
    nexus_plane.rs are. *)
Record KernelImage := mkImage {
  kernel_start : Z;
  kernel_end : Z;
  ingress : Z;
  observation : Z;
  certificate : Z;
}.

(** [mmio::kernel_virtual_to_physical] *)
Definition kernel_virtual_to_physical (image : KernelImage) (va len : Z) : option Z :=
  match checked_add U64_MAX va len with
  | None => None
  | Some stop =>
      if (HIGHER_HALF_DIRECT_MAP_BASE <=? va) && (stop <=? HIGHER_HALF_DIRECT_MAP_BASE + EARLY_MAPPED_PHYSICAL_LIMIT)
      then Some (va - HIGHER_HALF_DIRECT_MAP_BASE)
      else if (kernel_start image <=? va) && (stop <=? kernel_end image) then checked_sub va KERNEL_VIRTUAL_BASE
      else None
  end.

(** An operation ends with an error, or an index is out of bounds. *)
Inductive Stop (E : Type) :=
| Refused (e : FrameBackedError E)
| Panicked.
Arguments Refused {E} e.
Arguments Panicked {E}.

Section Boot.
Context {Mem E : Type} `{!FrameMemory Mem E} (cfg : Config).
Abbreviation State := (FrameBackedAddressSpace Mem).
Abbreviation SM := (M State (FrameBackedError E)).
Abbreviation BM := (M State (Stop E)).

Definition refusing {A} (m : SM A) : BM A := zoom id const Refused m.

(** The zeroes are written through the direct map, at the place where
    [write_bytes] writes; a frame beyond the map stays as it is. *)
Definition zero_frame (f : Z) : BM unit :=
  match direct_map_address f with
  | Some _ => λ s, (Ok tt, (on_memory (write_bytes f 0 (replicate 4096 0)) s).2)
  | None => mret tt
  end.

(** [pages[page_index] = PageRecord { .. }; page_count += 1] *)
Definition append_page (i : nat) (f va : Z) : BM unit :=
  slot ← refusing (get_slot cfg i);
  ensure (page_count slot <? length (pages slot))%nat Panicked;;
  refusing (on_slot i (λ y, with_pages (<[page_count y := mkPage f va]> (pages y)) (S (page_count y)) y)).

Definition install_thermal_page (process : ProcessImageHandle) : BM Z :=
  i ← refusing (process_slot process);
  s ← getS;
  ensure (negb (bool_decide (is_Some (active_slot s)))) (Refused InvalidState);;
  '(table, index) ← refusing (ensure_leaf_slot cfg i THERMAL_ADDRESS);
  f ← refusing (allocate_owned cfg i);
  zero_frame f;;
  refusing (on_memory (write_entry table index (Z.lor (Z.lor (Z.lor f ENTRY_PRESENT) ENTRY_USER) ENTRY_NO_EXECUTE)));;
  append_page i f THERMAL_ADDRESS;;
  refusing (on_slot i count_owned);;
  mret THERMAL_ADDRESS.

(** [(virtual_address, kernel_pointer, writable)] *)
Definition plane (image : KernelImage) : list (Z * Z * bool) :=
  [(CEREBRAL_INGRESS_ADDRESS, ingress image, true);
   (CEREBRAL_OBSERVATION_ADDRESS, observation image, false);
   (CEREBRAL_CERTIFICATE_ADDRESS, certificate image, false)].

Definition plane_page (image : KernelImage) (i : nat) (page : Z * Z * bool) : BM unit :=
  let '(va, kernel_pointer, writable) := page in
  ensure (is_page_aligned kernel_pointer) (Refused InvalidPhysicalFrame);;
  physical ← ok_or (kernel_virtual_to_physical image kernel_pointer PAGE_SIZE) (Refused InvalidPhysicalFrame);
  ensure (is_page_aligned physical && (and_not physical PAGE_ADDRESS_MASK =? 0)) (Refused InvalidPhysicalFrame);;
  '(table, index) ← refusing (ensure_leaf_slot cfg i va);
  let entry := Z.lor (Z.lor (Z.lor physical ENTRY_PRESENT) ENTRY_USER) ENTRY_NO_EXECUTE in
  let entry := if writable then Z.lor entry ENTRY_WRITABLE else entry in
  refusing (on_memory (write_entry table index entry));;
  append_page i physical va.

Fixpoint plane_loop (image : KernelImage) (i : nat) (pages : list (Z * Z * bool)) : BM unit :=
  match pages with
  | [] => mret tt
  | page :: pages => plane_page image i page;; plane_loop image i pages
  end.

Definition install_nexus_plane (image : KernelImage) (process : ProcessImageHandle) : BM unit :=
  i ← refusing (process_slot process);
  s ← getS;
  let slot := the_slot cfg i s in
  ensure (negb (bool_decide (is_Some (active_slot s)) || (length (pages slot) <? page_count slot + 3)%nat)) (Refused InvalidState);;
  plane_loop image i (plane image);;
  refusing (on_slot i count_owned).

End Boot.

Section Kept.
Context {Mem E : Type} `{!FrameMemory Mem E, KF : !KernelFrames, !FrameMemoryLaws Mem E} (cfg : Config).
Abbreviation State := (FrameBackedAddressSpace Mem).
Abbreviation SM := (M State (FrameBackedError E)).
Abbreviation BM := (M State (Stop E)).
Implicit Types (s : State).

Lemma wp_refusing {A} (m : SM A) Q R s : wp m Q (λ e, R (Refused e)) s → wp (refusing m : BM A) Q R s.
Proof. unfold wp, refusing, zoom, id, const. by destruct (m s) as [[] ?]. Qed.

(** ** Pages one after the other *)

(** The entry of [a] after the entries [es] were written, each for the page of
    its address. *)
Definition leaf_after (es : list (Z * Z)) (a old : Z) : Z := foldl (λ l e, if decide (page_of a = page_of e.1) then e.2 else l) old es.

(** The next page records of slot [i] were filled and the entries [es] written. *)
Record planted (i : nat) (x : FrameBackedSlot) (es : list (Z * Z)) (s s' : State) : Prop := {
  pt_core : Core cfg at_rest s';
  pt_state : ∃ l c P m', s' = set_slot m' i (with_owned l c (with_pages P (page_count x + length es) x)) s ∧ length P = length (pages x)
    ∧ ∀ j, ¬ range (page_count x) (length es) j → P !! j = pages x !! j;
  pt_new : ∀ e, e ∈ es → user_address e.1 ∧ leaf_of s i e.1 = 0 ∧ e.2 ≠ 0;
  pt_leaf : ∀ j a, user_address a → leaf_of s' j a = if decide (j = i) then leaf_after es a (leaf_of s j a) else leaf_of s j a;
}.

Lemma leaf_after_zero es a : ∀ old, (∀ e, e ∈ es → e.2 ≠ 0) → leaf_after es a old = 0 → old = 0.
Proof.
  induction es as [|e es IH]; intros old Hnz; [done|]. simpl. intros H%IH; [|intros e' He'; apply Hnz; by right].
  case_decide; [|done]. destruct (Hnz e); [by left|done].
Qed.

Lemma planted_grown i x s s' : slots s !! i = Some x → Core cfg at_rest s' → grown at_rest i s s' → planted i x [] s s'.
Proof.
  intros Hx C G. split; [done| |by intros e []%not_elem_of_nil|].
  - destruct (gr_state _ _ _ _ G) as (y & l & c & m' & Hy & _ & Hs). assert (y = x) as -> by congruence.
    exists l, c, (pages x), m'. by rewrite Nat.add_0_r, with_pages_same.
  - intros j a Ha. rewrite (gr_leaf _ _ _ _ G) by (done || intros []). by case_decide.
Qed.

Lemma planted_slot i x es s s' : slots s !! i = Some x → planted i x es s s' →
  ∃ x', slots s' !! i = Some x' ∧ phase x' = phase x ∧ root x' = root x ∧ page_count x' = (page_count x + length es)%nat
    ∧ length (pages x') = length (pages x) ∧ mappings x' = mappings x ∧ active_slot s' = active_slot s.
Proof. intros Hx [_ (l & c & P & m' & -> & HP & _) _ _]. eexists. split; [by eapply lookup_set_slot|]. by split_and!. Qed.

Lemma planted_app i x es es' s s1 s2 : slots s !! i = Some x → planted i x es s s1 →
  (∀ x1, slots s1 !! i = Some x1 → planted i x1 es' s1 s2) → planted i x (es ++ es') s s2.
Proof.
  intros Hx [_ (l & c & P & m1 & Hs1 & HP & Hout) N1 L1] Hnext.
  assert (Hx1 : slots s1 !! i = Some (with_owned l c (with_pages P (page_count x + length es) x))) by (rewrite Hs1; by eapply lookup_set_slot).
  destruct (Hnext _ Hx1) as [C2 (l' & c' & P' & m2 & Hs2 & HP' & Hout') N2 L2]. simpl in *. split; [done| | |].
  - exists l', c', P', m2. rewrite length_app. split_and!; [by rewrite Hs2, Hs1, set_slot_twice, Nat.add_assoc|lia|].
    intros j Hj. rewrite Hout', Hout; [done|..]; unfold range in *; lia.
  - intros e [He|He]%elem_of_app; [by apply N1|]. destruct (N2 e He) as (H1 & H2 & H3). split_and!; [done| |done].
    rewrite L1, decide_True in H2 by done. eapply leaf_after_zero; [|exact H2]. intros e' He'. by apply N1.
  - intros j a Ha. rewrite L2, L1 by done. case_decide; [|done]. unfold leaf_after. by rewrite foldl_app.
Qed.

Lemma planted_inv i x es s s' : Inv cfg s → slots s !! i = Some x → phase x = Committed → planted i x es s s' → Inv cfg s'.
Proof.
  intros [_ Ht] Hx Hph [C (l & c & P & m' & -> & _ & Hout) _ _]. split; [done|]. intros j y Hy. simpl in Hy.
  apply lookup_insert_cases in Hy as [(<- & <- & _)|[_ Hy]]; [|by eapply Ht]. eapply tidy_append; [by eapply (Ht i)|congruence|done].
Qed.

Lemma planted_others i x es s s' j a : planted i x es s s' → j ≠ i → user_address a → leaf_of s' j a = leaf_of s j a.
Proof. intros H Hne Ha. rewrite (pt_leaf _ _ _ _ _ H) by done. by rewrite decide_False. Qed.

(** The entry, then the record. *)
Lemma plant_page_spec s i x r t f va v : Core cfg at_rest s → slots s !! i = Some x → phase x ≠ Staging → tail_unused x → root x = Some r →
  (page_count x < length (pages x))%nat → user_address va → 0 < va → descend (entries (memory s)) r (table_path va) = Some t →
  leaf_of s i va = 0 → may_map at_rest s i x r (page_count x) f → leaf_form f v → is_u64 v →
  wp (refusing (on_memory (write_entry t (leaf_index va) v));; append_page cfg i f va : BM unit) (λ _ s', planted i x [(va, v)] s s') (λ _ _, False) s.
Proof.
  intros C Hx Hph Htail Hr Hlen Hua Hva Hd H0 Hmay Hform Hu64.
  destruct (table_in_ledger cfg at_rest s i x r (table_path va) t) as [_ Hled]; try done; [by intros []|by apply user_table_path|].
  destruct (on_write_entry cfg at_rest s t (leaf_index va) v C Hled (leaf_index_range _) Hu64) as (m' & Hrun & Hm & Hlive & He).
  destruct (lookup_lt_is_Some_2 (pages x) (page_count x) Hlen) as [p0 Hp0].
  destruct (core_publish cfg at_rest s i x r (page_count x) p0 f va t v m') as (C3 & Hset & _); try done; [by intros []|by eapply Htail|lia|].
  wp_step. apply wp_refusing. eapply wp_of_run; [exact Hrun|]. unfold append_page. wp_step. apply wp_refusing.
  eapply wp_get_slot; [exact Hx|]. wp_step. apply wp_ensure; [intros _|intros Hl%Nat.ltb_ge; lia]. apply wp_refusing. eapply wp_on_slot; [exact Hx|]. simpl.
  set (x3 := with_pages (<[page_count x := mkPage f va]> (pages x)) (S (page_count x)) x).
  fold (set_slot m' i (set_page (page_count x) (mkPage f va) x) s) in C3, Hset. fold (set_slot m' i x3 s).
  split.
  - pose proof (core_page_count cfg _ i _ (S (page_count x)) C3 (lookup_set_slot m' i _ x s Hx)) as C4. rewrite set_slot_twice in C4. by apply C4.
  - exists (owned_frames x), (owned_frame_count x), (<[page_count x := mkPage f va]> (pages x)), m'. simpl. rewrite Nat.add_1_r. split_and!; [|by rewrite length_insert|].
    + by rewrite <-(with_owned_same x) at 1.
    + intros j Hj. apply list_lookup_insert_ne. unfold range in Hj. lia.
  - intros e ->%list_elem_of_singleton. simpl. split_and!; [done..|]. by eapply leaf_form_nonzero.
  - intros j a Ha. transitivity (leaf_of (set_slot m' i (set_page (page_count x) (mkPage f va) x) s) j a).
    + unfold leaf_of. simpl. destruct (decide (j = i)) as [->|]; [|by rewrite !list_lookup_insert_ne].
      by rewrite !list_lookup_insert_eq by (by eapply lookup_lt_Some).
    + rewrite (Hset j a) by (done || intros []). simpl. destruct (decide (j = i)) as [->|]; [|by rewrite decide_False by naive_solver].
      case_decide as H1; case_decide as H2; naive_solver.
Qed.

(** Zeroing a frame that was just allocated. *)
Lemma zero_frame_spec s i x r f : Core cfg at_rest s → slots s !! i = Some x → root x = Some r → fresh_in (entries (memory s)) x r f →
  wp (zero_frame f : BM unit) (λ _ s', Core cfg at_rest s' ∧ grown at_rest i s s' ∧ slots s' = slots s ∧ fresh_in (entries (memory s')) x r f) (λ _ _, False) s.
Proof.
  intros C Hx Hr Hf. pose proof Hf as (Hin & Hnt & Hpg). unfold zero_frame. destruct (direct_map_address f).
  2: { wp_step. split_and!; try done. eapply grown_refl; try done. by intros []. }
  pose proof (core_owned_live cfg _ s f C (owned_in_ledger s i x Hx f Hin)) as [Hlive _].
  destruct (law_write_bytes (memory s) f 0 (replicate 4096 0) (core_mem _ _ _ C) Hlive) as (m' & Hrun & Hm & Hl & He); [done|done|by apply Forall_replicate|].
  destruct (core_scribble cfg at_rest s i x f m') as [C' G]; try done; [by intros []|congruence|].
  eapply (wp_of_run _ _ _ _ tt (with_memory m' s)).
  { unfold on_memory, zoom. by rewrite Hrun. }
  split_and!; try done. split_and!; [done| |done]. intros Ht. destruct (gr_table _ _ _ _ G x r f Hx Hr Ht) as [?|Hn]; [done|].
  apply Hn. by eapply owned_in_ledger.
Qed.

(** The number of owned frames that the process reports. *)
Lemma inv_count_owned s i x : Inv cfg s → slots s !! i = Some x → let s' := set_slot (memory s) i (count_owned x) s in
  Inv cfg s' ∧ ∀ j a, leaf_of s' j a = leaf_of s j a.
Proof.
  intros [C Ht] Hx s'. split; [split|intros j a; by apply (leaf_of_set_slot s i x)].
  - eapply (core_same_records cfg at_rest s i x); try done; [by intros []|]. by destruct (core_shape _ _ _ C i x Hx).
  - intros j y Hy. simpl in Hy. apply lookup_insert_cases in Hy as [(<- & <- & _)|[_ Hy]]; [|by eapply Ht]. apply tidy_count_owned. by eapply Ht.
Qed.

(** ** The thermal page *)

Definition READ_ONLY : MappingPermissions := mkPermissions true false false.
Definition READ_WRITE : MappingPermissions := mkPermissions true true false.

Lemma plane_entry f (w : bool) : (if w then Z.lor (Z.lor (Z.lor (Z.lor f ENTRY_PRESENT) ENTRY_USER) ENTRY_NO_EXECUTE) ENTRY_WRITABLE
    else Z.lor (Z.lor (Z.lor f ENTRY_PRESENT) ENTRY_USER) ENTRY_NO_EXECUTE) = user_mapping_entry f (if w then READ_WRITE else READ_ONLY).
Proof. unfold user_mapping_entry. destruct w; simpl; rewrite <-!Z.lor_assoc; done. Qed.

(** What an installation leaves: the entries [es] are new in process [i], and
    every other page of every process is as it was. *)
Definition added (i : nat) (es : list (Z * Z)) (s s' : State) : Prop :=
  (∀ e, e ∈ es → leaf_of s i e.1 = 0)
  ∧ ∀ j a, user_address a → leaf_of s' j a = if decide (j = i) then leaf_after es a (leaf_of s j a) else leaf_of s j a.

Lemma planted_added i x es s s1 s2 : planted i x es s s1 → (∀ j a, leaf_of s2 j a = leaf_of s1 j a) → added i es s s2.
Proof. intros H Hl. split; [intros e He; by apply H|]. intros j a Ha. rewrite Hl. by apply H. Qed.

(** Only a full table of page records stops the kernel. *)
Lemma install_thermal_spec process s : Inv cfg s →
  wp (install_thermal_page cfg process)
    (λ va s', Inv cfg s' ∧ va = THERMAL_ADDRESS ∧ ∃ f, f ∉ ledger s ∧ added (ph_slot process) [(THERMAL_ADDRESS, user_mapping_entry f READ_ONLY)] s s')
    (λ e s', match e with
             | Refused _ => Inv cfg s' ∧ leaves_kept s s'
             | Panicked => ∃ x, slots s !! ph_slot process = Some x ∧ (length (pages x) ≤ page_count x)%nat
             end) s.
Proof.
  intros HI. pose proof HI as [C Ht]. assert (Hid : Inv cfg s ∧ leaves_kept s s) by (split; [done|by intros ??]).
  unfold install_thermal_page. wp_step. apply wp_refusing. eapply wp_mono; [apply process_slot_spec| |by intros ? ? ->].
  intros i ? (-> & -> & x & Hx & Hph & Hgen). set (i := ph_slot process) in *. do 2 wp_step. wp_step. apply wp_ensure; [intros _|done].
  assert (Hgrown : ∀ s', Core cfg at_rest s' → grown at_rest i s s' → Inv cfg s' ∧ leaves_kept s s').
  { intros s' C' G. split; [|by eapply grown_kept]. eapply planted_inv; [done..|]. by apply planted_grown. }
  wp_step. apply wp_refusing.
  eapply wp_mono; [eapply (ensure_leaf_slot_spec cfg at_rest s i x); try done; by intros []| |intros e s' [C' G']; by apply Hgrown].
  intros [t d] s1 (C1 & G1 & Hua & Hd & r & Hr & Hdesc & H0). simpl in Hd, Hdesc. subst d.
  destruct (grown_slot _ _ _ _ _ G1 Hx) as (l1 & c1 & Hx1 & _ & _). wp_step. apply wp_refusing.
  eapply wp_mono; [eapply (allocate_owned_spec cfg at_rest s1 i (with_owned l1 c1 x)); try done; by intros []|
    |intros e s' [C' G']; apply Hgrown; [done|by eapply grown_trans]].
  intros f s2 (C2 & G2 & Hx2 & Hf & Hmask & _ & Hfresh & _). specialize (Hfresh r Hr). set (x2 := push_owned f (with_owned l1 c1 x)) in *.
  pose proof (gr_descend _ _ _ _ G2 (with_owned l1 c1 x) r (table_path THERMAL_ADDRESS) t Hx1 Hr (user_table_path _ Hua) ltac:(done) Hdesc) as Hd2.
  wp_step. eapply wp_mono; [by apply (zero_frame_spec s2 i x2 r f)| |done]. intros ? s3 (C3 & G3 & Hs3 & Hfresh3).
  pose proof (gr_descend _ _ _ _ G3 x2 r (table_path THERMAL_ADDRESS) t Hx2 Hr (user_table_path _ Hua) ltac:(done) Hd2) as Hd3.
  pose proof (grown_trans at_rest i s s2 s3 (grown_trans at_rest i s s1 s2 G1 G2) G3) as G.
  assert (Hx3 : slots s3 !! i = Some x2) by (by rewrite Hs3).
  rewrite (plane_entry f false). destruct (user_entry_form f READ_ONLY Hmask eq_refl) as [Hform Hu64].
  destruct (decide (page_count x < length (pages x))%nat) as [Hlen|Hlen].
  2: { destruct (table_in_ledger cfg at_rest s3 i x2 r (table_path THERMAL_ADDRESS) t) as [_ Hled]; try done; [by intros []|by apply user_table_path|].
    destruct (on_write_entry cfg at_rest s3 t (leaf_index THERMAL_ADDRESS) _ C3 Hled (leaf_index_range _) Hu64) as (m' & Hrun & _).
    wp_step. apply wp_refusing. eapply wp_of_run; [exact Hrun|]. wp_step. unfold append_page. wp_step. apply wp_refusing. eapply wp_get_slot; [exact Hx3|].
    wp_step. apply wp_ensure; [intros Hl%Nat.ltb_lt; simpl in Hl; lia|]. intros _. exists x. split; [done|lia]. }
  apply wp_assoc. wp_step.
  eapply wp_mono; [eapply (plant_page_spec s3 i x2 r t f THERMAL_ADDRESS); try done|..].
  - simpl. congruence.
  - intros k p Hk Hp. eapply (td_tail x (Ht i x Hx)); [exact Hk|exact Hp].
  - rewrite (gr_leaf _ _ _ _ G) by (done || intros []). done.
  - by left.
  - intros ? s4 H4. assert (Hp : planted i x [(THERMAL_ADDRESS, user_mapping_entry f READ_ONLY)] s s4).
    { change [_] with ([] ++ [(THERMAL_ADDRESS, user_mapping_entry f READ_ONLY)]). eapply planted_app; [done|by apply planted_grown|].
      intros y Hy. assert (y = x2) as -> by congruence. done. }
    destruct (planted_slot _ _ _ _ _ Hx Hp) as (x4 & Hx4 & _). wp_step. apply wp_refusing. eapply wp_on_slot; [exact Hx4|]. wp_step.
    fold (set_slot (memory s4) i (count_owned x4) s4). destruct (inv_count_owned s4 i x4 (planted_inv _ _ _ _ _ HI Hx Hph Hp) Hx4) as [HI4 Hl4].
    split_and!; [done..|]. exists f. split; [intros Hin; by apply Hf, (grown_ledger _ _ _ _ G1)|by eapply planted_added].
  - done.
Qed.

(** ** The nexus plane *)

(** The frames of the plane's pages are set aside at boot, as main.rs does for
    the whole image. *)
Definition plane_set_aside (image : KernelImage) : Prop :=
  ∀ page f, page ∈ plane image → kernel_virtual_to_physical image page.1.2 PAGE_SIZE = Some f → f ∈ kernel_frames.

(** The entry of a page of the plane. *)
Definition plane_leaf (image : KernelImage) (page : Z * Z * bool) : Z * Z :=
  (page.1.1, match kernel_virtual_to_physical image page.1.2 PAGE_SIZE with
             | Some f => user_mapping_entry f (if page.2 then READ_WRITE else READ_ONLY)
             | None => 0
             end).

Lemma planted_tail i x es s s' x' : slots s !! i = Some x → tail_unused x → planted i x es s s' → slots s' !! i = Some x' → tail_unused x'.
Proof.
  intros Hx Ht [_ (l & c & P & m' & -> & HP & Hout) _ _] Hx'. rewrite lookup_set_slot with (y := x) in Hx' by done. injection Hx' as <-.
  intros k p Hk Hp. simpl in *. rewrite Hout in Hp by (unfold range; lia). eapply Ht; [|done]. lia.
Qed.

Lemma plane_page_spec image s i x page : Core cfg at_rest s → slots s !! i = Some x → phase x ≠ Staging → tail_unused x →
  (page_count x < length (pages x))%nat → 0 < page.1.1 → (∀ f, kernel_virtual_to_physical image page.1.2 PAGE_SIZE = Some f → f ∈ kernel_frames) →
  wp (plane_page cfg image i page) (λ _ s', planted i x [plane_leaf image page] s s') (λ e s', e ≠ Panicked ∧ planted i x [] s s') s.
Proof.
  intros C Hx Hph Htail Hlen Hva Hk. destruct page as [[va pointer] w]. simpl in *. unfold plane_leaf. simpl.
  assert (Hid : planted i x [] s s) by (apply planted_grown; [done..|]; eapply grown_refl; try done; by intros []).
  wp_step. apply wp_ensure; [intros _|done]. wp_step. apply wp_ok_or; [intros f Hf|done]. rewrite Hf. specialize (Hk f Hf).
  wp_step. apply wp_ensure; [intros _|done]. wp_step. apply wp_refusing.
  eapply wp_mono; [eapply (ensure_leaf_slot_spec cfg at_rest s i x); try done; [by intros []|lia]| |intros e s' [C' G']; split; [done|by apply planted_grown]].
  intros [t d] s1 (C1 & G1 & Hua & Hd & r & Hr & Hdesc & H0). simpl in Hd, Hdesc. subst d.
  destruct (grown_slot _ _ _ _ _ G1 Hx) as (l1 & c1 & Hx1 & _ & _). rewrite plane_entry.
  destruct (law_kernel (memory s) f (core_mem _ _ _ C) Hk) as [_ Hmask].
  destruct (user_entry_form f (if w then READ_WRITE else READ_ONLY) Hmask ltac:(by destruct w)) as [Hform Hu64].
  eapply wp_mono; [eapply (plant_page_spec s1 i (with_owned l1 c1 x) r t f va); try done| |done].
  - rewrite (gr_leaf _ _ _ _ G1) by (done || intros []). done.
  - by right; right.
  - intros ? s2 H2. change [_] with ([] ++ [(va, user_mapping_entry f (if w then READ_WRITE else READ_ONLY))]).
    eapply planted_app; [done|by apply planted_grown|]. intros y Hy. assert (y = with_owned l1 c1 x) as -> by congruence. done.
Qed.

Lemma plane_loop_spec image i pages : ∀ s x, Core cfg at_rest s → slots s !! i = Some x → phase x ≠ Staging → tail_unused x →
  (page_count x + length pages ≤ length (AddressSpace.pages x))%nat →
  (∀ page, page ∈ pages → 0 < page.1.1 ∧ ∀ f, kernel_virtual_to_physical image page.1.2 PAGE_SIZE = Some f → f ∈ kernel_frames) →
  wp (plane_loop cfg image i pages) (λ _ s', planted i x (plane_leaf image <$> pages) s s') (λ e s', e ≠ Panicked ∧ ∃ es, planted i x es s s') s.
Proof.
  induction pages as [|page pages IH]; intros s x C Hx Hph Htail Hlen Hk; simpl in *.
  { wp_step. apply planted_grown; [done..|]. eapply grown_refl; try done. by intros []. }
  destruct (Hk page) as [Hva Hf]; [by left|].
  wp_step. eapply wp_mono; [eapply (plane_page_spec image s i x page); try done; lia| |intros e s' [He Hs']; split; [done|eauto]].
  intros ? s1 H1. destruct (planted_slot _ _ _ _ _ Hx H1) as (x1 & Hx1 & Hp1 & _ & Hc1 & Hl1 & _). simpl in Hc1.
  eapply wp_mono; [eapply (IH s1 x1); [apply H1|done|congruence|exact (planted_tail i x _ s s1 x1 Hx Htail H1 Hx1)|lia|intros p Hp; apply Hk; by right]|..].
  - intros ? s2 H2. apply (planted_app i x [plane_leaf image page] (plane_leaf image <$> pages) s s1 s2 Hx H1). intros y Hy. by assert (y = x1) as -> by congruence.
  - intros e s2 [He (es & H2)]. split; [done|]. exists ([plane_leaf image page] ++ es). apply (planted_app i x _ es s s1 s2 Hx H1). intros y Hy. by assert (y = x1) as -> by congruence.
Qed.

Lemma install_nexus_spec image process s : Inv cfg s → plane_set_aside image →
  wp (install_nexus_plane cfg image process)
    (λ _ s', Inv cfg s' ∧ added (ph_slot process) (plane_leaf image <$> plane image) s s')
    (λ e s', e ≠ Panicked ∧ Inv cfg s' ∧ ∀ j a, j ≠ ph_slot process → user_address a → leaf_of s' j a = leaf_of s j a) s.
Proof.
  intros HI Hset. pose proof HI as [C Ht]. unfold install_nexus_plane. wp_step. apply wp_refusing.
  eapply wp_mono; [apply process_slot_spec| |by intros ? ? ->]. intros i ? (-> & -> & x & Hx & Hph & Hgen). set (i := ph_slot process) in *.
  do 2 wp_step. wp_step. rewrite (the_slot_eq cfg s i x Hx). apply wp_ensure; [intros [_ Hlen%Nat.ltb_ge]%negb_true_iff%orb_false_iff|done].
  wp_step. eapply wp_mono; [eapply (plane_loop_spec image i (plane image) s x); try done; [congruence|apply (Ht i x Hx)|]|..].
  - intros page Hp. split; [|intros f; by apply Hset]. unfold plane in Hp. set_unfold in Hp. by destruct Hp as [->|[->|[->|[]]]].
  - intros ? s1 H1. destruct (planted_slot _ _ _ _ _ Hx H1) as (x1 & Hx1 & _). apply wp_refusing. eapply wp_on_slot; [exact Hx1|].
    fold (set_slot (memory s1) i (count_owned x1) s1). destruct (inv_count_owned s1 i x1 (planted_inv _ _ _ _ _ HI Hx Hph H1) Hx1) as [HI1 Hl1].
    split; [done|exact (planted_added i x _ s s1 _ H1 Hl1)].
  - intros e s1 [He (es & H1)]. split_and!; [done|by eapply planted_inv|]. intros j a Hne Ha. by eapply planted_others.
Qed.

End Kept.
