(* ===== verification/SpaceArgs.v ===== *)
(** * The contents of the initial stack

    [prepare_initial_stack] and [prepare_linux_dynamic_stack] of
    process/x86_64.rs write the arguments, the environment and the auxiliary
    vector of a process to the top of the stack that [install_stack_pages]
    mapped. They write only into pages of the process, so they keep the
    invariant of the pool and every mapping. *)

From stdpp Require Import prelude list numbers.
From Stdlib Require Import ZArith Lia.
From S2P Require Import Prelude.
From S2P Require Import UserMemory.
From S2P Require Import Wp.
From S2P Require Import AddressSpace.
From S2P Require Import PageTree.
From S2P Require Import SpaceInv.
From S2P Require Import SpaceSteps.
From S2P Require Import SpaceBase.
From S2P Require Import SpacePages.
From S2P Require Import SpaceShared.
From S2P Require Import SpaceOps.
From S2P Require Import SpaceProtect.
From S2P Require Import SpaceStage.

Record LinuxAuxiliaryVector := mkAuxiliary {
  program_header_address : Z;
  program_header_count : Z;
  runtime_linker_base : Z;
  executable_entry_point : Z;
  executable_path : list Z;
  random : list Z;
}.

(** [a.checked_mul(b)] on [usize] *)
Definition checked_mul (a b : Z) : option Z := if a * b <=? U64_MAX then Some (a * b) else None.

Lemma checked_mul_Some a b c : checked_mul a b = Some c ↔ c = a * b ∧ a * b ≤ U64_MAX.
Proof. unfold checked_mul. destruct (Z.leb_spec (a * b) U64_MAX); naive_solver lia. Qed.

(** [usize::checked_add] over a list *)
Definition checked_sum (l : list Z) : option Z :=
  foldl (λ total n, match total with Some t => checked_add U64_MAX t n | None => None end) (Some 0) l.

(** The bytes of the strings with their terminators. *)
Definition string_bytes (l : list (list Z)) : option Z :=
  foldl (λ total value,
    match total, checked_add U64_MAX (Z.of_nat (length value)) 1 with
    | Some t, Some n => checked_add U64_MAX t n
    | _, _ => None
    end) (Some 0) l.

Definition AUXILIARY_ENTRY_COUNT : nat := 14.

(** The entries of the auxiliary vector, without the last one: AT_PHDR,
    AT_PHENT, AT_PHNUM, AT_PAGESZ, AT_BASE, AT_FLAGS, AT_ENTRY, AT_UID, AT_EUID,
    AT_GID, AT_EGID, AT_SECURE, AT_RANDOM, AT_EXECFN. *)
Definition auxiliary_entries (v : LinuxAuxiliaryVector) (random_address path_address : Z) : list (Z * Z) :=
  [(3, program_header_address v); (4, 56); (5, program_header_count v); (6, PAGE_SIZE); (7, runtime_linker_base v); (8, 0);
   (9, executable_entry_point v); (11, 0); (12, 0); (13, 0); (14, 0); (23, 0); (25, random_address); (31, path_address)].

Section Args.
Context {Mem E : Type} `{!FrameMemory Mem E} (cfg : Config).
Abbreviation State := (FrameBackedAddressSpace Mem).
Abbreviation SM := (M State (FrameBackedError E)).

Definition page_has (current : Z) (p : PageRecord) : bool := (pg_address p <=? current) && (current <? pg_address p + PAGE_SIZE).

(** [while copied < bytes.len()]: a round copies at least one byte. [current]
    is [address + copied], [bytes] what is left. *)
Fixpoint write_stack_loop (rounds i : nat) (current : Z) (bytes : list Z) : SM unit :=
  match rounds, bytes with
  | S rounds, _ :: _ =>
      ensure (current <=? U64_MAX) InvalidRange;;
      slot ← get_slot cfg i;
      k ← ok_or (position (page_has current) (take (page_count slot) (pages slot))) InvalidRange;
      let page := slot_at EMPTY_PAGE (pages slot) k in
      let offset := current - pg_address page in
      let n := Nat.min (Z.to_nat (PAGE_SIZE - offset)) (length bytes) in
      on_memory (write_bytes (frame page) offset (take n bytes));;
      write_stack_loop rounds i (current + Z.of_nat n) (drop n bytes)
  | _, _ => mret tt
  end.

Definition write_stack_bytes (i : nat) (address : Z) (bytes : list Z) : SM unit := write_stack_loop (length bytes) i address bytes.
(** [value.to_le_bytes()] *)
Definition write_stack_word (i : nat) (address value : Z) : SM unit := write_stack_bytes i address (to_ne_bytes 8 value).

(** One pointer per string; the addresses after the last one. *)
Fixpoint write_pointers (i : nat) (word_address string_address : Z) (values : list (list Z)) : SM (Z * Z) :=
  match values with
  | [] => mret (word_address, string_address)
  | value :: values =>
      write_stack_word i word_address string_address;;
      write_pointers i (word_address + 8) (string_address + (Z.of_nat (length value) + 1)) values
  end.

Fixpoint write_strings (i : nat) (string_address : Z) (values : list (list Z)) : SM unit :=
  match values with
  | [] => mret tt
  | value :: values =>
      write_stack_bytes i string_address value;;
      write_stack_bytes i (string_address + Z.of_nat (length value)) [0];;
      write_strings i (string_address + Z.of_nat (length value) + 1) values
  end.

Fixpoint write_auxiliary (i : nat) (word_address : Z) (entries : list (Z * Z)) : SM Z :=
  match entries with
  | [] => mret word_address
  | (kind, value) :: entries =>
      write_stack_word i word_address kind;;
      write_stack_word i (word_address + 8) value;;
      write_auxiliary i (word_address + 16) entries
  end.

(** Where a block of [words] words and [data] bytes goes: the bytes of its
    words, and its address. *)
Definition place_block (slot : FrameBackedSlot) (words data : option Z) : SM (Z * Z) :=
  word_count ← ok_or words InvalidRange;
  pointer_bytes ← ok_or (checked_mul word_count 8) InvalidRange;
  data_bytes ← ok_or data InvalidRange;
  stack_bytes ← ok_or (checked_mul (Z.of_nat (initial_stack_pages slot)) PAGE_SIZE) InvalidState;
  ensure (match checked_add U64_MAX pointer_bytes data_bytes with Some size => size <=? stack_bytes | None => false end) InvalidRange;;
  stack_top ← ok_or (initial_stack_pointer (process_info slot)) InvalidState;
  mapped_base ← ok_or (checked_sub stack_top stack_bytes) InvalidState;
  block_bytes ← ok_or (checked_add U64_MAX pointer_bytes data_bytes) InvalidRange;
  stack_pointer ← ok_or (match checked_sub stack_top block_bytes with
                         | Some address => let address := and_not address 0xf in if mapped_base <=? address then Some address else None
                         | None => None
                         end) InvalidRange;
  mret (pointer_bytes, stack_pointer).

(** [argc], [argv] and [envp], each vector with its null; the address of the
    next word. *)
Definition write_vectors (i : nat) (stack_pointer string_start : Z) (argv envp : list (list Z)) : SM Z :=
  write_stack_word i stack_pointer (Z.of_nat (length argv));;
  '(word_address, string_address) ← write_pointers i (stack_pointer + 8) string_start argv;
  write_stack_word i word_address 0;;
  '(word_address, _) ← write_pointers i (word_address + 8) string_address envp;
  write_stack_word i word_address 0;;
  mret (word_address + 8).

Definition with_stack_pointer (pointer : Z) (x : FrameBackedSlot) : FrameBackedSlot :=
  let info := process_info x in
  with_info (mkInfo (entry_point info) (segment_count info) (address_space_root info) (info_owned_frames info) (Some pointer)) x.

Definition prepare_initial_stack (process : ProcessImageHandle) (argv envp : list (list Z)) : SM Z :=
  i ← process_slot process;
  s ← getS;
  let slot := the_slot cfg i s in
  ensure (negb (bool_decide (is_Some (active_slot s)) || bool_decide (initial_stack_pointer (process_info slot) = None))) InvalidState;;
  '(pointer_bytes, stack_pointer) ← place_block slot
    (checked_sum [1; Z.of_nat (length argv); 1; Z.of_nat (length envp); 1]) (string_bytes (argv ++ envp));
  let string_start := stack_pointer + pointer_bytes in
  write_vectors i stack_pointer string_start argv envp;;
  write_strings i string_start (argv ++ envp);;
  on_slot i (with_stack_pointer stack_pointer);;
  mret stack_pointer.

Definition prepare_linux_dynamic_stack (process : ProcessImageHandle) (argv envp : list (list Z)) (auxiliary : LinuxAuxiliaryVector) : SM Z :=
  i ← process_slot process;
  s ← getS;
  let slot := the_slot cfg i s in
  ensure (negb (bool_decide (is_Some (active_slot s)) || bool_decide (initial_stack_pointer (process_info slot) = None)
                || (program_header_address auxiliary =? 0) || (program_header_count auxiliary =? 0)
                || (executable_entry_point auxiliary =? 0) || bool_decide (executable_path auxiliary = [])
                || existsb (Z.eqb 0) (executable_path auxiliary))) InvalidState;;
  let path_length := Z.of_nat (length (executable_path auxiliary)) in
  let vector_string_bytes := string_bytes (argv ++ envp) in
  '(pointer_bytes, stack_pointer) ← place_block slot
    (checked_sum [1; Z.of_nat (length argv); 1; Z.of_nat (length envp); 1; Z.of_nat ((AUXILIARY_ENTRY_COUNT + 1) * 2)])
    (match vector_string_bytes with
     | Some n => match checked_add U64_MAX n path_length with
                 | Some n => checked_add U64_MAX n (1 + Z.of_nat (length (random auxiliary)))
                 | None => None
                 end
     | None => None
     end);
  let string_start := stack_pointer + pointer_bytes in
  word_address ← write_vectors i stack_pointer string_start argv envp;
  executable_path_address ← ok_or (checked_add U64_MAX string_start (default 0 vector_string_bytes)) InvalidRange;
  random_address ← ok_or (checked_add U64_MAX executable_path_address (path_length + 1)) InvalidRange;
  word_address ← write_auxiliary i word_address (auxiliary_entries auxiliary random_address executable_path_address);
  write_stack_word i word_address 0;;
  write_stack_word i (word_address + 8) 0;;
  write_strings i string_start (argv ++ envp);;
  write_stack_bytes i executable_path_address (executable_path auxiliary);;
  write_stack_bytes i (executable_path_address + path_length) [0];;
  write_stack_bytes i random_address (random auxiliary);;
  on_slot i (with_stack_pointer stack_pointer);;
  mret stack_pointer.

End Args.

Section Kept.
Context {Mem E : Type} `{!FrameMemory Mem E, KF : !KernelFrames, !FrameMemoryLaws Mem E} (cfg : Config).
Abbreviation State := (FrameBackedAddressSpace Mem).
Abbreviation SM := (M State (FrameBackedError E)).
Implicit Types (s : State).

(** ** Writing into a page *)

(** The frame of a page of a process is no table of any process. *)
Lemma used_frame_not_table s i x k p j y r : Core cfg at_rest s → slots s !! i = Some x → pages x !! k = Some p → used p →
  slots s !! j = Some y → root y = Some r → ¬ is_table (entries (memory s)) r (frame p).
Proof.
  intros C Hx Hk Hu Hy Hr Ht. pose proof (core_space _ _ _ C j y Hy ltac:(intros [])) as Hsp. unfold slot_space in Hsp. rewrite Hr in Hsp.
  pose proof (hier_owned _ _ _ (st_hier _ _ _ _ _ Hsp) _ Ht) as Hin.
  pose proof (core_space _ _ _ C i x Hx ltac:(intros [])) as Hsx. unfold slot_space in Hsx. destruct (root x) as [r'|] eqn:Hr'; [|by eapply (Hsx k p)].
  destruct (st_owner _ _ _ _ _ Hsx k p Hk Hu) as [(Ho & Hnt & _)|[(id & _ & Hb)|Hkf]].
  - destruct (decide (j = i)) as [->|Hne]; [congruence|]. eapply (owned_not_rest cfg at_rest s i x _ C Hx Ho). by eapply owned_in_rest.
  - by eapply (backing_not_owned cfg at_rest s j y id _ C Hy).
  - by eapply (kernel_not_owned cfg at_rest s j y).
Qed.

(** Only the contents of memory differ, and no table among them. *)
Definition scribbled (s s' : State) : Prop := Inv cfg s' ∧ leaves_kept s s' ∧ ∃ m', s' = with_memory m' s.

Lemma scribbled_refl s : Inv cfg s → scribbled s s.
Proof. intros HI. split_and!; [done|by intros ??|]. exists (memory s). by destruct s. Qed.

Lemma scribbled_trans s s1 s2 : scribbled s s1 → scribbled s1 s2 → scribbled s s2.
Proof.
  intros (_ & K1 & m1 & ->) (I2 & K2 & m2 & ->). split_and!; [done| |by exists m2]. intros j a Ha. by rewrite K2, K1.
Qed.

Lemma write_page_spec s i x k p offset bytes : Inv cfg s → slots s !! i = Some x → pages x !! k = Some p → used p →
  0 ≤ offset → offset + Z.of_nat (length bytes) ≤ PAGE_SIZE → Forall is_u8 bytes →
  wp (on_memory (write_bytes (frame p) offset bytes) : SM unit) (λ _ s', scribbled s s') (λ _ s', scribbled s s') s.
Proof.
  intros HI Hx Hk Hu Ho Hlen Hb. pose proof HI as [C _].
  assert (Hw : let m' := (write_bytes (frame p) offset bytes (memory s)).2 in mem_ok m' ∧ (∀ g, live m' g ↔ live (memory s) g)
    ∧ ∀ g j, live (memory s) g → g ≠ frame p → 0 ≤ j < 512 → entries m' g j = entries (memory s) g j).
  { destruct (used_frame_ledger cfg at_rest s i x k p C Hx ltac:(intros []) Hk Hu) as [Hl|Hkf].
    - apply (core_owned_live cfg at_rest s _ C) in Hl as [Hl _].
      destruct (law_write_bytes (memory s) (frame p) offset bytes (core_mem _ _ _ C) Hl Ho Hlen Hb) as (m' & -> & H). exact H.
    - destruct (law_kernel (memory s) (frame p) (core_mem _ _ _ C) Hkf) as [Hnl Hform].
      destruct (law_foreign_bytes (memory s) (frame p) offset bytes (core_mem _ _ _ C)) as (H1 & H2 & H3); try done.
      { rewrite <-Hform. apply Z.land_nonneg. by right. }
      split_and!; [done..|]. intros g j Hg _. by apply H3. }
  set (m' := (write_bytes (frame p) offset bytes (memory s)).2) in *. destruct Hw as (Hm & Hlive & He).
  assert (Htab : ∀ j y r t n, slots s !! j = Some y → root y = Some r → is_table (entries (memory s)) r t → 0 ≤ n < 512 →
    entries m' t n = entries (memory s) t n).
  { intros j y r t n Hy Hr Ht Hn. apply He; [|intros ->; by eapply (used_frame_not_table s i x k p j y r)|done].
    eapply core_owned_live; [done|]. eapply owned_in_ledger; [exact Hy|].
    exact (hier_owned _ _ _ (st_hier _ _ _ _ _ (core_tree cfg at_rest s j y r C Hy ltac:(intros []) Hr)) _ Ht). }
  assert (Hs : scribbled s (with_memory m' s)).
  { split_and!; [|eapply grown_kept, (grown_tables cfg at_rest s i x); try done; [by intros []|]|by exists m'].
    2: { intros j y r t n Hy Hr _. by apply (Htab j y r). }
    apply inv_with_memory; [done|]. apply core_memory_tables; try done.
    - intros h Hh. apply Hlive. by eapply core_owned_live.
    - intros j y r Hy Hr _ t n Ht Hn. by rewrite (Htab j y r t n). }
  unfold wp, on_memory, zoom. subst m'. by destruct (write_bytes _ _ _ _) as [[] ?].
Qed.

(** What a computation that writes to the stack of slot [i] does: it returns
    with [Φ], or fails; either way it only scribbled. *)
Definition on_stack (i : nat) (s : State) : Prop := Inv cfg s ∧ ∃ x, slots s !! i = Some x.
Definition scribbles {A} (i : nat) (m : SM A) (Φ : A → Prop) : Prop :=
  ∀ s, on_stack i s → wp m (λ a s', scribbled s s' ∧ Φ a) (λ _ s', scribbled s s') s.

Lemma on_stack_scribbled i s s' : on_stack i s → scribbled s s' → on_stack i s'.
Proof. intros [_ (x & Hx)] (HI' & _ & m' & ->). split; [done|]. by exists x. Qed.

Lemma scribbles_ret {A} i (a : A) (Φ : A → Prop) : Φ a → scribbles i (mret a) Φ.
Proof. intros Ha s [HI _]. wp_step. split; [by apply scribbled_refl|done]. Qed.

Lemma scribbles_ok_or {A} i (o : option A) e (Φ : A → Prop) : (∀ a, o = Some a → Φ a) → scribbles i (ok_or o e) Φ.
Proof. intros H s [HI _]. apply wp_ok_or; [intros a Ha; split; [|by apply H]|intros _]; by apply scribbled_refl. Qed.

Lemma scribbles_bind {A B} i (m : SM A) (k : A → SM B) (Φ : A → Prop) (Ψ : B → Prop) :
  scribbles i m Φ → (∀ a, Φ a → scribbles i (k a) Ψ) → scribbles i (m ≫= k) Ψ.
Proof.
  intros Hm Hk s Hs. apply wp_bind. eapply wp_mono; [by apply Hm| |done]. intros a s1 [Hs1 Ha].
  eapply wp_mono; [apply (Hk a Ha s1); by eapply on_stack_scribbled|..]; [intros b s2 [H2 Hb]; split; [|done]|intros e s2 H2]; by eapply scribbled_trans.
Qed.

(** ** The stack *)

(** An address above the first page is in no unused record. *)
Lemma page_has_used current p : PAGE_SIZE ≤ current → page_has current p = true → used p ∧ 0 ≤ current - pg_address p < PAGE_SIZE.
Proof. unfold page_has, used. rewrite andb_true_iff, Z.leb_le, Z.ltb_lt. lia. Qed.

Lemma write_stack_loop_spec i : ∀ rounds current bytes, PAGE_SIZE ≤ current → Forall is_u8 bytes →
  scribbles i (write_stack_loop cfg rounds i current bytes) (λ _, True).
Proof.
  induction rounds as [|rounds IH]; intros current bytes Hc Hb; [by apply scribbles_ret|].
  destruct bytes as [|b bytes]; [by apply scribbles_ret|]. cbn [write_stack_loop]. set (l := b :: bytes) in *. intros s Hs. pose proof Hs as [HI (x & Hx)].
  wp_step. apply wp_ensure; [intros _|intros _; by apply scribbled_refl]. wp_step. eapply wp_get_slot; [exact Hx|].
  wp_step. apply wp_ok_or; [|intros _; by apply scribbled_refl]. intros k (p & [Hp _]%lookup_take_Some & Hhas)%position_lookup.
  rewrite (slot_at_Some _ _ _ _ Hp). destruct (page_has_used current p Hc Hhas) as [Hu Hoff].
  set (n := Nat.min (Z.to_nat (PAGE_SIZE - (current - pg_address p))) (length l)).
  wp_step. eapply wp_mono; [eapply (write_page_spec s i x k p); try done; [lia|rewrite length_take; lia|by apply Forall_take]| |done].
  intros ? s1 Hs1. eapply wp_mono; [apply (IH (current + Z.of_nat n) (drop n l)); [lia|by apply Forall_drop|by eapply on_stack_scribbled]|..].
  - intros ? s2 [H2 _]. split; [by apply (scribbled_trans s s1)|done].
  - intros ? s2 H2. by apply (scribbled_trans s s1).
Qed.

(** One round per byte is enough: the copy does not stop early. *)
Lemma write_stack_rounds i : ∀ rounds rounds' current bytes s, (length bytes ≤ rounds)%nat → (length bytes ≤ rounds')%nat →
  write_stack_loop cfg rounds i current bytes s = write_stack_loop cfg rounds' i current bytes s.
Proof.
  induction rounds as [|rounds IH]; intros [|rounds'] current [|b bytes] s Hr Hr'; try done; simpl in Hr, Hr'; try lia.
  cbn [write_stack_loop]. set (l := b :: bytes). unfold mbind, M_bind. destruct (ensure _ _ s) as [[[]|e] s1]; [|done].
  destruct (get_slot cfg i s1) as [[slot|e] s2]; [|done].
  destruct (position _ _) as [k|] eqn:Hk; [|done]. apply position_lookup in Hk as (p & [Hp _]%lookup_take_Some & Hhas). simpl.
  rewrite (slot_at_Some _ _ _ _ Hp). set (n := Nat.min _ (S (length bytes))).
  assert (1 ≤ n)%nat. { unfold page_has in Hhas. rewrite andb_true_iff, Z.leb_le, Z.ltb_lt in Hhas. unfold n. lia. }
  destruct (on_memory _ s2) as [[[]|e] s3]; [|done]. apply IH; rewrite length_drop; unfold l; simpl; lia.
Qed.

Lemma write_bytes_spec i address bytes : PAGE_SIZE ≤ address → Forall is_u8 bytes → scribbles i (write_stack_bytes cfg i address bytes) (λ _, True).
Proof. apply write_stack_loop_spec. Qed.

Lemma write_word_spec i address value : PAGE_SIZE ≤ address → scribbles i (write_stack_word cfg i address value) (λ _, True).
Proof. intros Ha. apply write_bytes_spec; [done|apply to_ne_bytes_u8]. Qed.

Lemma write_pointers_spec i : ∀ values word string, PAGE_SIZE ≤ word → scribbles i (write_pointers cfg i word string values) (λ p, PAGE_SIZE ≤ p.1).
Proof.
  induction values as [|v values IH]; intros word string Hw; [by apply scribbles_ret|].
  eapply scribbles_bind; [by apply write_word_spec|]. intros _ _. apply IH. lia.
Qed.

Lemma write_strings_spec i : ∀ values string, PAGE_SIZE ≤ string → Forall (Forall is_u8) values → scribbles i (write_strings cfg i string values) (λ _, True).
Proof.
  induction values as [|v values IH]; intros string Hs Hv; [by apply scribbles_ret|]. apply Forall_cons_1 in Hv as [Hv Hvs].
  eapply scribbles_bind; [by apply write_bytes_spec|]. intros _ _. eapply scribbles_bind; [apply write_bytes_spec; [lia|by repeat constructor]|].
  intros _ _. apply IH; [lia|done].
Qed.

Lemma write_auxiliary_spec i : ∀ entries word, PAGE_SIZE ≤ word → scribbles i (write_auxiliary cfg i word entries) (λ w, PAGE_SIZE ≤ w).
Proof.
  induction entries as [|[kind value] entries IH]; intros word Hw; [by apply scribbles_ret|].
  do 2 (eapply scribbles_bind; [apply write_word_spec; lia|]; intros _ _). apply IH. lia.
Qed.

Lemma write_vectors_spec i pointer string argv envp : PAGE_SIZE ≤ pointer → scribbles i (write_vectors cfg i pointer string argv envp) (λ w, PAGE_SIZE ≤ w).
Proof.
  intros Hp. eapply scribbles_bind; [by apply write_word_spec|]. intros _ _. eapply scribbles_bind; [apply write_pointers_spec; lia|]. intros [w a] Hw. simpl in Hw.
  eapply scribbles_bind; [by apply write_word_spec|]. intros _ _. eapply scribbles_bind; [apply write_pointers_spec; lia|]. intros [w' a'] Hw'. simpl in Hw'.
  eapply scribbles_bind; [by apply write_word_spec|]. intros _ _. apply scribbles_ret. lia.
Qed.

(** The block lies above the first page. *)
Definition fresh_stack (x : FrameBackedSlot) : Prop :=
  ∀ top, initial_stack_pointer (process_info x) = Some top → top = INITIAL_USER_STACK_BASE + PAGE_SIZE.

Lemma place_block_spec i x words data : tidy x → fresh_stack x → (∀ w, words = Some w → 0 ≤ w) →
  scribbles i (place_block x words data) (λ p, PAGE_SIZE ≤ p.2 ∧ 0 ≤ p.1).
Proof.
  intros T Hf Hw. unfold place_block.
  eapply scribbles_bind; [apply (scribbles_ok_or _ _ _ (λ w, 0 ≤ w)); done|]. intros w Hw0.
  eapply scribbles_bind; [apply (scribbles_ok_or _ _ _ (λ b, 0 ≤ b))|].
  { intros b [-> _]%checked_mul_Some. simpl in Hw0. lia. }
  intros pb Hpb. eapply scribbles_bind; [by apply (scribbles_ok_or _ _ _ (λ _, True))|]. intros db _.
  eapply scribbles_bind; [apply (scribbles_ok_or _ _ _ (λ b, b ≤ INITIAL_USER_STACK_BASE))|].
  { intros b [-> _]%checked_mul_Some. apply (td_stack x T). }
  intros sb Hsb. eapply (scribbles_bind _ _ _ (λ _, True)).
  { intros s [HI _]. apply wp_ensure; intros _; [split; [|done]|]; by apply scribbled_refl. }
  intros _ _. eapply scribbles_bind; [by apply (scribbles_ok_or _ _ _ (λ top, top = INITIAL_USER_STACK_BASE + PAGE_SIZE))|]. intros top ->.
  eapply scribbles_bind; [apply (scribbles_ok_or _ _ _ (λ b, PAGE_SIZE ≤ b))|].
  { unfold checked_sub. intros b Hb. destruct (_ <=? _); [|done]. apply (inj Some) in Hb as <-. simpl in Hsb. lia. }
  intros base Hbase. eapply scribbles_bind; [by apply (scribbles_ok_or _ _ _ (λ _, True))|]. intros bb _.
  eapply scribbles_bind; [apply (scribbles_ok_or _ _ _ (λ p, PAGE_SIZE ≤ p))|].
  { intros p Hp. destruct (checked_sub _ _) as [a|]; [|done]. destruct (Z.leb_spec base (and_not a 0xf)); [|done]. apply (inj Some) in Hp as <-. simpl in Hbase. lia. }
  intros p Hp. by apply scribbles_ret.
Qed.

(** ** Both blocks *)

(** The new pointer is recorded. *)
Lemma record_pointer_spec s i pointer : on_stack i s →
  wp (on_slot i (with_stack_pointer pointer) : SM unit) (λ _ s', Inv cfg s' ∧ leaves_kept s s') (λ _ s', False) s.
Proof.
  intros [[C Ht] (x & Hx)]. eapply wp_on_slot; [exact Hx|]. fold (set_slot (memory s) i (with_stack_pointer pointer x) s).
  split; [split|intros j a _; by apply (leaf_of_set_slot s i x)].
  - eapply (core_same_records cfg at_rest s i x); try done; [by intros []|]. by destruct (core_shape _ _ _ C i x Hx).
  - intros j y Hy. simpl in Hy. apply lookup_insert_cases in Hy as [(<- & <- & _)|[_ Hy]]; [|by eapply Ht]. by destruct (Ht i x Hx).
Qed.

(** What a whole preparation does, failed or not. *)
Definition settled (s s' : State) : Prop := Inv cfg s' ∧ leaves_kept s s'.
Definition settles {A} (i : nat) (m : SM A) : Prop := ∀ s, on_stack i s → wp m (λ _ s', settled s s') (λ _ s', settled s s') s.

Lemma scribbled_settled s s' : scribbled s s' → settled s s'.
Proof. by intros (H1 & H2 & _). Qed.

Lemma settles_bind {A B} i (m : SM A) (k : A → SM B) (Φ : A → Prop) : scribbles i m Φ → (∀ a, Φ a → settles i (k a)) → settles i (m ≫= k).
Proof.
  intros Hm Hk s Hs. apply wp_bind. eapply wp_mono; [by apply Hm| |by intros; apply scribbled_settled]. intros a s1 [Hs1 Ha].
  eapply wp_mono; [apply (Hk a Ha s1); by eapply on_stack_scribbled|..]; intros ? s2 [HI2 Hk2]; (split; [done|]);
    destruct Hs1 as (_ & Hk1 & _); intros j b Hb; by rewrite Hk2, Hk1.
Qed.

Lemma settles_record i pointer : settles i (on_slot i (with_stack_pointer pointer);; mret pointer).
Proof. intros s Hs. apply wp_bind. eapply wp_mono; [by apply record_pointer_spec| |done]. intros ? s1 H1. by wp_step. Qed.

Lemma checked_sum_nonneg l w : Forall (λ n, 0 ≤ n) l → checked_sum l = Some w → 0 ≤ w.
Proof.
  unfold checked_sum. intros Hl. assert (Hg : ∀ o : option Z, (∀ t, o = Some t → 0 ≤ t) →
    foldl (λ total n, match total with Some t => checked_add U64_MAX t n | None => None end) o l = Some w → 0 ≤ w); [|apply Hg; naive_solver lia].
  induction Hl as [|n l Hn _ IH]; intros o Ho; simpl; [apply Ho|]. apply IH. intros t Ht. destruct o as [t0|]; [|done].
  specialize (Ho t0 eq_refl). unfold checked_add in Ht. destruct (_ <=? _); [|done]. apply (inj Some) in Ht as <-. lia.
Qed.

Lemma string_bytes_nonneg l : 0 ≤ default 0 (string_bytes l).
Proof.
  unfold string_bytes. assert (Hg : ∀ o, 0 ≤ default 0 o → 0 ≤ default 0 (foldl (λ total value,
    match total, checked_add U64_MAX (Z.of_nat (length value)) 1 with Some t, Some n => checked_add U64_MAX t n | _, _ => None end) o l)); [|by apply Hg].
  induction l as [|v l IH]; intros o Ho; simpl; [done|]. apply IH. destruct o as [t|]; [|done]. simpl in Ho.
  destruct (checked_add _ _ 1) as [n|] eqn:Hn; [|done]. apply checked_add_Some in Hn as [-> _].
  unfold checked_add. destruct (_ <=? _); simpl; lia.
Qed.

(** The process is found. *)
Lemma prepare_spec {A} process (k : nat → State → SM A) s : Inv cfg s →
  (∀ x, slots s !! ph_slot process = Some x → on_stack (ph_slot process) s → tidy x →
     wp (k (ph_slot process) s) (λ _ s', settled s s') (λ _ s', settled s s') s) →
  wp (i ← process_slot process; s ← getS; k i s) (λ _ s', settled s s') (λ _ s', settled s s') s.
Proof.
  intros HI Hk. wp_step. eapply wp_mono; [apply process_slot_spec| |intros ? ? ->; split; [done|by intros ??]].
  intros i ? (-> & -> & x & Hx & _). apply wp_bind, wp_getS. apply (Hk x Hx); [split; [done|by exists x]|]. destruct HI as [_ Ht]. by eapply Ht.
Qed.

Lemma prepare_initial_spec process argv envp s : Inv cfg s → (∀ x, slots s !! ph_slot process = Some x → fresh_stack x) →
  Forall (Forall is_u8) (argv ++ envp) →
  wp (prepare_initial_stack cfg process argv envp) (λ _ s', settled s s') (λ _ s', settled s s') s.
Proof.
  intros HI Hf Hb. apply prepare_spec; [done|]. intros x Hx Hon T. cbv zeta. rewrite (the_slot_eq cfg s _ x Hx).
  apply wp_bind, wp_ensure; [intros _|by split].
  eapply (settles_bind _ _ _ _); [apply (place_block_spec _ x); [done|by apply Hf|]| |exact Hon].
  { intros w. apply checked_sum_nonneg. repeat constructor; lia. }
  intros [pb pointer] [Hp Hpb]. simpl in Hp, Hpb. eapply settles_bind; [by apply write_vectors_spec|]. intros _ _.
  eapply settles_bind; [apply write_strings_spec; [lia|done]|]. intros _ _. apply settles_record.
Qed.

Lemma prepare_dynamic_spec process argv envp auxiliary s : Inv cfg s → (∀ x, slots s !! ph_slot process = Some x → fresh_stack x) →
  Forall (Forall is_u8) (argv ++ envp) → Forall is_u8 (executable_path auxiliary) → Forall is_u8 (random auxiliary) →
  wp (prepare_linux_dynamic_stack cfg process argv envp auxiliary) (λ _ s', settled s s') (λ _ s', settled s s') s.
Proof.
  intros HI Hf Hb Hpath Hrand. apply prepare_spec; [done|]. intros x Hx Hon T. cbv zeta. rewrite (the_slot_eq cfg s _ x Hx).
  apply wp_bind, wp_ensure; [intros _|by split].
  eapply (settles_bind _ _ _ _); [apply (place_block_spec _ x); [done|by apply Hf|]| |exact Hon].
  { intros w. apply checked_sum_nonneg. repeat constructor; lia. }
  intros [pb pointer] [Hp Hpb]. simpl in Hp, Hpb. eapply settles_bind; [by apply write_vectors_spec|]. intros word Hword. cbn beta in Hword.
  eapply settles_bind; [apply (scribbles_ok_or _ _ _ (λ a, PAGE_SIZE ≤ a))|].
  { intros a [-> _]%checked_add_Some. pose proof (string_bytes_nonneg (argv ++ envp)). lia. }
  intros path Hpa. eapply settles_bind; [apply (scribbles_ok_or _ _ _ (λ a, PAGE_SIZE ≤ a))|].
  { intros a [-> _]%checked_add_Some. simpl in Hpa. lia. }
  intros rnd Hr. eapply settles_bind; [by apply write_auxiliary_spec|]. intros w2 Hw2. simpl in *.
  do 2 (eapply settles_bind; [apply write_word_spec; lia|]; intros _ _).
  eapply settles_bind; [apply write_strings_spec; [lia|done]|]. intros _ _.
  eapply settles_bind; [by apply write_bytes_spec|]. intros _ _. eapply settles_bind; [apply write_bytes_spec; [lia|by repeat constructor]|]. intros _ _.
  eapply settles_bind; [by apply write_bytes_spec|]. intros _ _. apply settles_record.
Qed.

End Kept.
