(* ===== verification/SpaceRun.v ===== *)
(** * Runs of the address spaces

    The operations of process/x86_64.rs as one transition system, together with
    what the processor, user programs and the other users of the frame pool do
    to memory meanwhile. Every reachable state satisfies the invariant, whence
    isolation, and what each operation does to the mappings of each process. *)

From stdpp Require Import prelude list numbers.
From Stdlib Require Import ZArith Lia.
From S2P Require Import Prelude.
From S2P Require Import FrameAllocProofs.
From S2P Require Import DirectMap.
From S2P Require Import Wp.
From S2P Require Import AddressSpace.
From S2P Require Import PageTree.
From S2P Require Import SpaceInv.
From S2P Require Import SpaceSteps.
From S2P Require Import SpacePages.
From S2P Require Import SpaceShared.
From S2P Require Import SpaceOps.
From S2P Require Import SpaceHeap.
From S2P Require Import SpaceProtect.
From S2P Require Import SpaceEnd.
From S2P Require Import SpaceStage.
From S2P Require Import SpaceStack.
From S2P Require Import SpaceBoot.
From S2P Require Import SpaceArgs.

Inductive SpaceOp :=
| Begin (first last : Z)
| MapZeroed (space : FrameBackedSpace) (address size : Z)
| CopyInto (h : FrameBackedMapping) (offset : Z) (bytes : list Z)
| Seal (h : FrameBackedMapping) (p : MappingPermissions)
| Commit (space : FrameBackedSpace) (entry : Z) (segments : nat)
| Abort (space : FrameBackedSpace)
| InstallStack (active_root : Z) (process : ProcessImageHandle) (count : nat)
| PrepareStack (process : ProcessImageHandle) (argv envp : list (list Z))
| PrepareLinuxStack (process : ProcessImageHandle) (argv envp : list (list Z)) (auxiliary : LinuxAuxiliaryVector)
| InstallThermal (process : ProcessImageHandle)
| InstallNexus (image : KernelImage) (process : ProcessImageHandle)
| MmapPrivate (process : ProcessImageHandle) (hint len : Z) (p : MappingPermissions) (initialized : list Z)
| MmapShared (process : ProcessImageHandle) (id hint len offset : Z) (p : MappingPermissions)
| Mprotect (process : ProcessImageHandle) (address len : Z) (p : MappingPermissions)
| Munmap (process : ProcessImageHandle) (address len : Z)
| Brk (process : ProcessImageHandle) (requested : Z)
| SharedCreate (id : Z)
| SharedResize (id expected size : Z)
| SharedClose (id : Z)
| ReleaseProcess (active_root : Z) (process : ProcessImageHandle)
| RetryCleanup.

Section Runs.
Context {Mem E : Type} `{!FrameMemory Mem E, KF : !KernelFrames, !FrameMemoryLaws Mem E} (cfg : Config).
Context (Hcfg : Z.of_nat (MAXIMUM_PROCESS_PAGES cfg) ≤ U16_MAX).
Abbreviation State := (FrameBackedAddressSpace Mem).
Abbreviation SM := (M State (FrameBackedError E)).
Implicit Types (s : State).

(** The outcome of [release_process] is dropped here; where it fails, the
    runtime keeps the handle to reap it later. *)
Definition discard_failed_install (active_root : Z) (process : ProcessImageHandle) : SM unit :=
  λ s, (Ok tt, (release_process cfg active_root process s).2).

(** The call of [install_runtime_stack] in [install_exec_image]. *)
Definition install_stack_or_discard (active_root : Z) (process : ProcessImageHandle) (count : nat) : SM Z :=
  or_undo (install_stack_pages cfg process count) (discard_failed_install active_root process).

(** The state an operation leaves, whatever its outcome. *)
Definition after {A} (m : SM A) (s : State) : State := (m s).2.
Definition after_boot {A} (m : M State (Stop E) A) (s : State) : State := (m s).2.

Definition perform (op : SpaceOp) (s : State) : State :=
  match op with
  | Begin first last => after (begin cfg first last) s
  | MapZeroed space address size => after (map_zeroed cfg space address size) s
  | CopyInto h offset bytes => after (copy_into cfg h offset bytes) s
  | Seal h p => after (seal cfg h p) s
  | Commit space entry segments => after (commit cfg space entry segments) s
  | Abort space => after (abort cfg space) s
  | InstallStack active_root process count => after (install_stack_or_discard active_root process count) s
  | PrepareStack process argv envp => after (prepare_initial_stack cfg process argv envp) s
  | PrepareLinuxStack process argv envp auxiliary => after (prepare_linux_dynamic_stack cfg process argv envp auxiliary) s
  | InstallThermal process => after_boot (install_thermal_page cfg process) s
  | InstallNexus image process => after_boot (install_nexus_plane cfg image process) s
  | MmapPrivate process hint len p initialized => after (linux_mmap_private cfg process hint len p initialized) s
  | MmapShared process id hint len offset p => after (linux_mmap_shared cfg process id hint len offset p) s
  | Mprotect process address len p => after (linux_mprotect cfg process address len p) s
  | Munmap process address len => after (linux_munmap cfg process address len) s
  | Brk process requested => after (linux_brk cfg process requested) s
  | SharedCreate id => after (linux_shared_memory_create id) s
  | SharedResize id expected size => after (linux_shared_memory_resize id expected size) s
  | SharedClose id => after (linux_shared_memory_close id) s
  | ReleaseProcess active_root process => after (release_process cfg active_root process) s
  | RetryCleanup => after (retry_cleanup cfg) s
  end.

(** Arguments are unsigned; an image starts above the null page, as
    process/image.rs checks; a stack is installed before the process first
    runs, so that its root is not the active one, and is prepared once; a panic ends the run; the
    kernel image is set aside at boot. *)
Definition op_ok (op : SpaceOp) (s : State) : Prop :=
  match op with
  | Begin first _ => 0 < first
  | MapZeroed _ _ size => 0 ≤ size
  | CopyInto _ offset bytes => 0 ≤ offset ∧ Forall is_u8 bytes
  | InstallStack active_root process _ => ∀ x, slots s !! ph_slot process = Some x → address_space_root (process_info x) ≠ Some active_root
  | PrepareStack process argv envp => (∀ x, slots s !! ph_slot process = Some x → fresh_stack x) ∧ Forall (Forall is_u8) (argv ++ envp)
  | PrepareLinuxStack process argv envp auxiliary => (∀ x, slots s !! ph_slot process = Some x → fresh_stack x) ∧ Forall (Forall is_u8) (argv ++ envp)
      ∧ Forall is_u8 (executable_path auxiliary) ∧ Forall is_u8 (random auxiliary)
  | InstallThermal process => (install_thermal_page cfg process s : Result Z (Stop E) * State).1 ≠ Err Panicked
  | InstallNexus image _ => plane_set_aside image
  | MmapPrivate _ hint len _ initialized => 0 ≤ hint ∧ 0 ≤ len ∧ Forall is_u8 initialized
  | MmapShared _ _ hint len offset _ => 0 ≤ hint ∧ 0 ≤ len ∧ 0 ≤ offset
  | Mprotect _ _ len _ | Munmap _ _ len => 0 ≤ len
  | SharedResize _ _ size => 0 ≤ size
  | _ => True
  end.

(** What may happen to memory between operations: the frames of the pool stay
    its own, and in the tables of a process only the accessed and dirty bits
    change. All other contents are free. *)
Definition env_ok (s : State) (m' : Mem) : Prop :=
  mem_ok m' ∧ (∀ f, f ∈ ledger s → live m' f)
  ∧ ∀ i x r, slots s !! i = Some x → root x = Some r → agree_tables (entries (memory s)) r (entries m').

Inductive reachable : State → Prop :=
| reach_new m k : mem_ok m → reachable (new_space cfg m k)
| reach_op op s : reachable s → op_ok op s → reachable (perform op s)
| reach_env s m' : reachable s → env_ok s m' → reachable (with_memory m' s).

(** The process that an operation is for. *)
Definition subject (op : SpaceOp) (s : State) : option nat :=
  match op with
  | Seal h _ => Some (space_slot h)
  | Abort space => Some (sp_slot space)
  | InstallStack _ process _ | InstallThermal process | InstallNexus _ process | MmapPrivate process _ _ _ _ | MmapShared process _ _ _ _ _ | Mprotect process _ _ _ | Munmap process _ _
  | Brk process _ | ReleaseProcess _ process => Some (ph_slot process)
  | _ => None
  end.

(** What every operation does: the invariant stays, and no other process's
    mappings change. *)
Definition sound (o : option nat) (s s' : State) : Prop :=
  Inv cfg s' ∧ ∀ j a, Some j ≠ o → user_address a → leaf_of s' j a = leaf_of s j a.

Lemma sound_refl o s : Inv cfg s → sound o s s.
Proof. by split. Qed.

Lemma sound_kept o s s' : Inv cfg s' → leaves_kept s s' → sound o s s'.
Proof. intros HI Hk. split; [done|]. intros j a _. apply Hk. Qed.

Lemma sound_others i s s' : Inv cfg s' → (∀ j a, j ≠ i → user_address a → leaf_of s' j a = leaf_of s j a) → sound (Some i) s s'.
Proof. intros HI Hk. split; [done|]. intros j a Hne. apply Hk. congruence. Qed.

Lemma sound_run {A Er} (m : M State Er A) o s (Q : A → State → Prop) (R : Er → State → Prop) : wp m Q R s →
  (∀ a s', Q a s' → sound o s s') → (∀ e s', R e s' → sound o s s') → sound o s (m s).2.
Proof. intros H HQ HR. apply (wp_preserves m (sound o s) s). eapply wp_mono; eauto. Qed.

Lemma release_sound active_root process s : Inv cfg s → sound (Some (ph_slot process)) s (after (release_process cfg active_root process : SM unit) s).
Proof.
  intros [C Ht]. destruct (slots s !! ph_slot process) as [x|] eqn:Hx.
  - eapply sound_run; [eapply (release_process_spec cfg active_root process s x); [by apply core_tearing|done|]|..].
    + intros j y _. apply Ht.
    + intros ? s' (HI' & _ & _ & _ & _ & Hk). by apply sound_others.
    + intros ? s' [-> _]. by apply sound_refl.
  - unfold after, release_process, process_slot. unfold mbind, M_bind, getS. simpl. rewrite Hx. by apply sound_refl.
Qed.

Lemma install_sound active_root process count s : Inv cfg s →
  (∀ x, slots s !! ph_slot process = Some x → address_space_root (process_info x) ≠ Some active_root) →
  sound (Some (ph_slot process)) s (after (install_stack_or_discard active_root process count) s).
Proof.
  intros HI Hact. pose proof (install_stack_spec cfg process count s HI) as Hw. unfold after, install_stack_or_discard, or_undo, discard_failed_install.
  unfold wp in Hw. destruct (install_stack_pages cfg process count s) as [[top|e] s1]; simpl.
  { destruct Hw as (HI1 & _ & fs & _ & _ & _ & Hm). apply sound_others; [done|]. intros j a Hne Ha. by apply Hm. }
  destruct Hw as [->|(x & Hx & Hph & Hgen & C1 & Hl & x' & m' & -> & H1 & H2 & H3)].
  - by apply release_sound.
  - destruct HI as [C Ht]. set (s1 := set_slot m' (ph_slot process) x' s) in *.
    assert (Hx1 : slots s1 !! ph_slot process = Some x') by (by eapply lookup_set_slot).
    assert (Hs : sound (Some (ph_slot process)) s1 (after (release_process cfg active_root process : SM unit) s1)).
    { eapply sound_run; [eapply (release_process_spec cfg active_root process s1 x'); [done..|]|..].
      - intros j y Hne Hy. simpl in Hy. rewrite list_lookup_insert_ne in Hy by done. by eapply Ht.
      - intros ? s' (HI' & _ & _ & _ & _ & Hk). by apply sound_others.
      - intros ? s' [-> Hbad]. exfalso. apply (Hact x Hx). rewrite <-H3. apply Hbad; [congruence..|].
        rewrite H3, (td_info x (Ht _ x Hx) Hph). apply (td_root x (Ht _ x Hx)). congruence. }
    destruct Hs as [HI' Hk]. apply sound_others; [done|]. intros j a Hne Ha. unfold after in Hk. rewrite Hk by (done || congruence). by apply Hl.
Qed.

Lemma added_others i es s s' : Inv cfg s' → added i es s s' → sound (Some i) s s'.
Proof. intros HI [_ Hl]. apply sound_others; [done|]. intros j a Hne Ha. rewrite Hl by done. by rewrite decide_False. Qed.

Lemma thermal_sound process s : Inv cfg s → (install_thermal_page cfg process s : Result Z (Stop E) * State).1 ≠ Err Panicked →
  sound (Some (ph_slot process)) s (after_boot (install_thermal_page cfg process) s).
Proof.
  intros HI Hok. pose proof (install_thermal_spec cfg process s HI) as H. unfold wp, after_boot in *.
  destruct (install_thermal_page cfg process s) as [[va|[e|]] s']; simpl in *; [|by destruct H; apply sound_kept|done].
  destruct H as (HI' & _ & f & _ & Ha). by eapply added_others.
Qed.

Lemma perform_sound op s : Inv cfg s → op_ok op s → sound (subject op s) s (perform op s).
Proof.
  intros HI Hop. destruct op; simpl in *.
  - eapply sound_run; [by apply begin_spec|..]; [intros ? ? (? & ? & _)|intros ? ? []]; by apply sound_kept.
  - eapply sound_run; [by apply map_zeroed_spec|..]; intros ? ? []; by apply sound_kept.
  - destruct Hop. eapply sound_run; [by apply copy_into_spec|..]; intros ? ? []; by apply sound_kept.
  - eapply sound_run; [by apply seal_spec|..]; [|intros ? ? ->; by apply sound_refl].
    intros ? ? (HI' & _ & x & m & _ & _ & _ & Hk). apply sound_others; [done|]. intros j va Hne Hva. by apply Hk.
  - eapply sound_run; [by apply commit_spec|..]; [|intros ? ? ->; by apply sound_refl]. intros ? ? (? & ? & _). by apply sound_kept.
  - eapply sound_run; [by apply abort_spec|..]; [|intros ? ? ->; by apply sound_refl]. intros ? ? (? & ? & _). by apply sound_others.
  - by apply install_sound.
  - destruct Hop. eapply sound_run; [by apply prepare_initial_spec|..]; intros ? ? []; by apply sound_kept.
  - destruct Hop as (? & ? & ? & ?). eapply sound_run; [by apply prepare_dynamic_spec|..]; intros ? ? []; by apply sound_kept.
  - by apply thermal_sound.
  - eapply sound_run; [by apply install_nexus_spec|..]; [intros ? ? []; by eapply added_others|intros ? ? (_ & ? & ?); by apply sound_others].
  - destruct Hop as (? & ? & ?). eapply sound_run; [by apply mmap_private_spec|..]; [|intros ? ? []; by apply sound_kept].
    intros ? ? (HI' & fs & _ & _ & _ & Hm). apply sound_others; [done|]. intros j va Hne Hva. by apply Hm.
  - destruct Hop as (? & ? & ?). eapply sound_run; [by apply mmap_shared_spec|..]; [|intros ? ? []; by apply sound_kept].
    intros ? ? (HI' & fs & bk & b & _ & _ & _ & _ & _ & Hm). apply sound_others; [done|]. intros j va Hne Hva. by apply Hm.
  - eapply sound_run; [by apply mprotect_spec|..]; [|intros ? ? ->; by apply sound_refl].
    intros ? ? (HI' & _ & _ & Hm). apply sound_others; [done|]. intros j va Hne Hva. rewrite (Hm j va Hva). by rewrite decide_False by naive_solver.
  - eapply sound_run; [by apply munmap_spec|..]; [|intros ? ? [-> _]; by apply sound_refl].
    intros ? ? (HI' & x & k & m & _ & _ & _ & _ & _ & [_ Hm] & _). apply sound_others; [done|]. intros j va Hne Hva. by apply Hm.
  - eapply sound_run; [by apply brk_spec|..]; [|intros ? ? []; by apply sound_kept]. intros ? ? (HI' & x & Hx & Hr).
    destruct (_ =? 0); [by destruct Hr as [-> _]; apply sound_refl|]. destruct Hr as (_ & _ & _ & Hr). apply sound_others; [done|]. intros j va Hne Hva.
    destruct Hr as [[_ Hk]|[[_ [_ Hk]]|(_ & fs & _ & _ & _ & Hm)]]; [by apply Hk|by apply Hk|by apply Hm].
  - eapply sound_run; [by apply create_spec|..]; [intros ? ? []; by apply sound_kept|intros ? ? ->; by apply sound_refl].
  - eapply sound_run; [by apply resize_spec|..]; [intros ? ? []; by apply sound_kept|intros ? ? ->; by apply sound_refl].
  - eapply sound_run; [by apply close_spec|..]; [intros ? ? []; by apply sound_kept|intros ? ? ->; by apply sound_refl].
  - by apply release_sound.
  - eapply sound_run; [by apply retry_spec|..]; intros ? ? ->; by apply sound_refl.
Qed.

(** ** The initial state *)

Lemma concat_replicate_nil {A} n : concat (replicate n ([] : list A)) = [].
Proof. by induction n. Qed.

Lemma new_ledger m k : ledger (new_space cfg m k : State) = [].
Proof.
  unfold ledger, new_space. cbn [slots shared]. rewrite !fmap_replicate. change (owned (EMPTY_SLOT cfg)) with ([] : list Z).
  change (held EMPTY_BACKING) with ([] : list Z). by rewrite !concat_replicate_nil.
Qed.

Lemma empty_pages n k p : replicate n EMPTY_PAGE !! k = Some p → ¬ used p.
Proof. intros [-> _]%lookup_replicate H. by apply H. Qed.

Lemma empty_mappings n k m : replicate n EMPTY_MAPPING !! k = Some m → occupied m = false.
Proof. by intros [-> _]%lookup_replicate. Qed.

Lemma new_mapped_count id m k : id ≠ 0 → mapped_count id (new_space cfg m k : State) = O.
Proof.
  intros Hid. unfold mapped_count, new_space. cbn [slots]. rewrite fmap_replicate. replace (mapcount id (EMPTY_SLOT cfg)) with O.
  - by induction (MAXIMUM_RETAINED_PROCESSES cfg).
  - symmetry. apply countb_zero. intros j x Hj. by rewrite (empty_mappings _ _ _ Hj).
Qed.

Lemma empty_slot_shape : slot_shape cfg (EMPTY_SLOT cfg).
Proof.
  split; cbn [EMPTY_SLOT mappings pages owned_frames owned_frame_count phase]; try done; rewrite ?length_replicate; try done; try lia;
    intros j m Hj Ho; by rewrite (empty_mappings _ _ _ Hj) in Ho.
Qed.

Lemma empty_slot_tidy : tidy (EMPTY_SLOT cfg).
Proof.
  split; cbn [EMPTY_SLOT mappings pages owned_frame_count phase root]; try done.
  - intros k p _. apply empty_pages.
  - intros j m Hj Ho. by rewrite (empty_mappings _ _ _ Hj) in Ho.
  - intros j j' m m' k Hj _ Ho. by rewrite (empty_mappings _ _ _ Hj) in Ho.
  - intros _. split_and!; [done..|intros k p; apply empty_pages|intros j m; apply empty_mappings].
  - intros j m Hj Ho. by rewrite (empty_mappings _ _ _ Hj) in Ho.
  - intros j m k p Hj Ho. by rewrite (empty_mappings _ _ _ Hj) in Ho.
Qed.

Lemma new_inv m k : mem_ok m → Inv cfg (new_space cfg m k).
Proof.
  intros Hm. assert (Hsl : ∀ i x, slots (new_space cfg m k) !! i = Some x → x = EMPTY_SLOT cfg) by (by intros i x [-> _]%lookup_replicate).
  assert (Hsh : ∀ j b, shared (new_space cfg m k) !! j = Some b → b = EMPTY_BACKING) by (by intros j b [-> _]%lookup_replicate).
  split; [|intros i x ->%Hsl; apply empty_slot_tidy]. split; rewrite ?new_ledger; try done.
  - constructor.
  - intros i x ->%Hsl. apply empty_slot_shape.
  - intros i x ->%Hsl _ j p. apply empty_pages.
  - intros j b ->%Hsh. split; cbn [EMPTY_BACKING frames size_bytes allocated_pages sb_occupied]; rewrite ?length_replicate; try done. lia.
  - intros j j' b b' ->%Hsh _ Ho. done.
  - intros j b ->%Hsh Ho. done.
  - intros id Hid Hpos. rewrite (new_mapped_count id m k Hid) in Hpos. simpl in Hpos. lia.
Qed.

Lemma env_inv s m' : Inv cfg s → env_ok s m' → Inv cfg (with_memory m' s).
Proof.
  intros [C Ht] (Hm & Hl & Hag). split; [|done]. apply core_memory_tables; try done. intros i x r Hx Hr _. by eapply Hag.
Qed.

Lemma reachable_inv s : reachable s → Inv cfg s.
Proof.
  induction 1 as [m k Hm|op s _ IH Hop|s m' _ IH Hok]; [by apply new_inv|by apply perform_sound|by apply env_inv].
Qed.

(** ** Isolation *)

(** The frame that an entry leads to. *)
Definition frame_of (entry : Z) : Z := Z.land entry PAGE_ADDRESS_MASK.

(** Process [i] maps the shared object [id] at the address [a]. *)
Definition maps_at (s : State) (i : nat) (a id : Z) : Prop :=
  ∃ x j m h, slots s !! i = Some x ∧ mappings x !! j = Some m ∧ occupied m = true ∧ shared_identity m = id ∧ id ≠ 0
    ∧ (h < mp_page_count m)%nat ∧ page_of a = page_of (mp_address m + Z.of_nat h * PAGE_SIZE).

Lemma shared_page_maps s i x k p id a : Inv cfg s → slots s !! i = Some x → maps_shared x k id → pages x !! k = Some p →
  page_of (pg_address p) = page_of a → maps_at s i a id.
Proof.
  intros [_ Ht] Hx (Hid & j & m & Hj & Ho & Hi & Hc) Hk Hpa. destruct (td_pages x (Ht i x Hx) j m Hj Ho) as (_ & _ & Hl).
  unfold covers in Hc. destruct (Hl (k - first_page m)%nat ltac:(lia)) as (q & Hq & _ & Hqa).
  replace (first_page m + (k - first_page m))%nat with k in Hq by lia. assert (q = p) as -> by congruence.
  exists x, j, m, (k - first_page m)%nat. split_and!; try done; [lia|congruence].
Qed.

(** Who a mapped frame belongs to. *)
Lemma leaf_owner s i a : Inv cfg s → user_address a → leaf_of s i a ≠ 0 →
  ∃ x r k p, slots s !! i = Some x ∧ root x = Some r ∧ pages x !! k = Some p ∧ used p ∧ page_of (pg_address p) = page_of a
    ∧ leaf_form (frame p) (leaf_of s i a)
    ∧ ((frame p ∈ owned x ∧ ¬ is_table (entries (memory s)) r (frame p) ∧ ∀ k' p', pages x !! k' = Some p' → used p' → frame p' = frame p → k' = k)
       ∨ (∃ id, maps_at s i a id ∧ backing_frame (shared s) id (frame p)) ∨ frame p ∈ kernel_frames).
Proof.
  intros HI Ha Hnz. pose proof HI as [C _]. unfold leaf_of in *. destruct (slots s !! i) as [x|] eqn:Hx; [|done].
  destruct (root x) as [r|] eqn:Hr; [|done]. pose proof (core_space _ _ _ C i x Hx ltac:(intros [])) as Hsp. unfold slot_space in Hsp. rewrite Hr in Hsp.
  destruct (st_leaf _ _ _ _ _ Hsp a Ha Hnz) as (k & p & Hk & Hu & Hpa & Hform). exists x, r, k, p. split_and!; try done.
  destruct (st_owner _ _ _ _ _ Hsp k p Hk Hu) as [?|[(id & [Hs|[]] & Hb)|?]]; [by left|right; left|by right; right].
  exists id. split; [by eapply shared_page_maps|done].
Qed.

Lemma held_in_rest_of s k j b : k ≠ j → shared s !! j = Some b → held b ⊆ rest_of k s.
Proof.
  intros Hne Hj f Hf. unfold rest_of. apply elem_of_app. right. apply elem_of_concat.
  destruct (decide (j < k)%nat).
  - exists j, b. by rewrite list_lookup_delete_lt.
  - exists (j - 1)%nat, b. rewrite list_lookup_delete_ge by lia. by replace (S (j - 1)) with j by lia.
Qed.

Lemma backing_frame_inj g s id id' f : Core cfg g s → backing_frame (shared s) id f → backing_frame (shared s) id' f → id = id'.
Proof.
  intros C (j & b & Hj & _ & <- & Hb) (j' & b' & Hj' & _ & <- & Hb'). destruct (decide (j = j')) as [->|Hne]; [congruence|]. exfalso.
  pose proof (core_nodup _ _ _ C) as Hnd. rewrite (ledger_backing s j b Hj) in Hnd. apply list.NoDup_app in Hnd as (_ & Hdis & _).
  apply (Hdis f Hb). by eapply held_in_rest_of.
Qed.

Lemma leaf_not_table s i a j y r : Inv cfg s → user_address a → leaf_of s i a ≠ 0 → slots s !! j = Some y → root y = Some r →
  ¬ is_table (entries (memory s)) r (frame_of (leaf_of s i a)).
Proof.
  intros HI Ha Hnz. pose proof HI as [C _]. destruct (leaf_owner s i a HI Ha Hnz) as (x & r' & k & p & Hx & _ & Hk & Hu & _ & (Hf & _) & _).
  unfold frame_of. rewrite Hf. by apply (used_frame_not_table cfg s i x k).
Qed.

Lemma same_frame s i j a b : Inv cfg s → user_address a → user_address b → leaf_of s i a ≠ 0 → leaf_of s j b ≠ 0 →
  frame_of (leaf_of s i a) = frame_of (leaf_of s j b) → (i = j ∧ page_of a = page_of b) ∨ (∃ id, maps_at s i a id ∧ maps_at s j b id) ∨ frame_of (leaf_of s i a) ∈ kernel_frames.
Proof.
  intros HI Ha Hb Hna Hnb Heq. pose proof HI as [C _]. unfold frame_of in Heq.
  destruct (leaf_owner s i a HI Ha Hna) as (x & r & k & p & Hx & _ & Hk & Hu & Hpa & (Hf & _) & Hown).
  destruct (leaf_owner s j b HI Hb Hnb) as (y & r' & k' & q & Hy & _ & Hk' & Hu' & Hpb & (Hf' & _) & Hown').
  unfold frame_of. rewrite Hf, Hf' in Heq. rewrite Hf. destruct Hown' as [(Ho' & _)|[(id' & Hm' & Hbk')|Hkf]]; [..|right; right; congruence];
    destruct Hown as [(Ho & _ & Huniq)|[(id & Hm & Hbk)|Hkf]]; try by right; right.
  - left. destruct (decide (j = i)) as [->|Hne].
    + assert (y = x) as -> by congruence. assert (k' = k) as -> by (by eapply Huniq). split; [done|congruence].
    + exfalso. rewrite Heq in Ho. eapply (owned_not_rest cfg at_rest s i x _ C Hx Ho). by eapply owned_in_rest.
  - exfalso. rewrite Heq in Hbk. by eapply (backing_not_owned cfg at_rest s j y id _ C Hy).
  - exfalso. rewrite <-Heq in Hbk'. by eapply (backing_not_owned cfg at_rest s i x id' _ C Hx).
  - right; left. exists id. split; [done|]. rewrite Heq in Hbk. by rewrite (backing_frame_inj at_rest s id id' _ C Hbk Hbk').
Qed.

(** The handle names a process that has not ended. *)
Definition live_handle (process : ProcessImageHandle) (s : State) : Prop :=
  ∃ x, slots s !! ph_slot process = Some x ∧ phase x = Committed ∧ generation x = ph_generation process.

Lemma live_handle_run {A} process (k : nat → SM A) s r s' : (process_slot process ≫= k) s = (Ok r, s') → live_handle process s.
Proof.
  pose proof (process_slot_spec (E := E) process s) as H. unfold wp, mbind, M_bind in *.
  destruct (process_slot process s) as [[i|e] s1]; [|discriminate]. intros _. destruct H as (_ & -> & H). exact H.
Qed.

(** ** Properties *)

(** C2. In every reachable state, under any interleaving of operations, the
    pages given at boot included, and of what user programs, the processor and
    other kernel code do to memory in between: no page is both writable and
    executable; a mapped frame is allocated, or is one of the frames of the
    kernel image set aside to be shown to a process, and holds no page table of
    any process; and where two addresses reach the same frame, they are in the
    same page of the same process, or both processes map the same shared object
    there, or it is such a frame of the kernel image. *)
Theorem space_isolation s : reachable s →
  (∀ i a, user_address a → leaf_of s i a ≠ 0 →
     (Z.land (leaf_of s i a) ENTRY_WRITABLE ≠ 0 → Z.land (leaf_of s i a) ENTRY_NO_EXECUTE ≠ 0)
     ∧ (live (memory s) (frame_of (leaf_of s i a)) ∨ frame_of (leaf_of s i a) ∈ kernel_frames)
     ∧ ∀ j y r, slots s !! j = Some y → root y = Some r → ¬ is_table (entries (memory s)) r (frame_of (leaf_of s i a)))
  ∧ ∀ i j a b, user_address a → user_address b → leaf_of s i a ≠ 0 → leaf_of s j b ≠ 0 →
      frame_of (leaf_of s i a) = frame_of (leaf_of s j b) →
      (i = j ∧ page_of a = page_of b) ∨ (∃ id, maps_at s i a id ∧ maps_at s j b id) ∨ frame_of (leaf_of s i a) ∈ kernel_frames.
Proof.
  intros HI%reachable_inv. split; [|intros; by apply same_frame]. intros i a Ha Hnz. pose proof HI as [C _].
  destruct (leaf_owner s i a HI Ha Hnz) as (x & r & k & p & Hx & _ & Hk & Hu & _ & (Hf & _ & Hwx) & _). split_and!; [done| |].
  - unfold frame_of. rewrite Hf. destruct (used_frame_ledger cfg at_rest s i x k p C Hx ltac:(intros []) Hk Hu); [left|by right].
    by eapply core_owned_live.
  - intros j y r' Hy Hr. by eapply leaf_not_table.
Qed.

(** C32. No operation, successful or not, changes a mapping of a process other
    than the one it is for; staging, committing and the management of shared
    objects change no mapping at all. *)
Theorem space_noninterference op s j a :
  reachable s → op_ok op s → Some j ≠ subject op s → user_address a → leaf_of (perform op s) j a = leaf_of s j a.
Proof. intros HI%reachable_inv Hop. by apply perform_sound. Qed.

(** C33. A private mapping is granted only to a live handle; it goes to a
    page-aligned range of the user half that had no mapping at all; its pages get distinct frames that the pool did not hold,
    with the requested permissions, and no other mapping of any process changes.
    A refused request changes no mapping. *)
Theorem space_mmap_private process hint len p initialized s :
  reachable s → 0 ≤ hint → 0 ≤ len → Forall is_u8 initialized →
  match linux_mmap_private cfg process hint len p initialized s with
  | (Ok base, s') => live_handle process s ∧ ∃ fs, NoDup fs ∧ Forall (λ f, f ∉ ledger s) fs ∧ Z.of_nat (length fs) = (len + (PAGE_SIZE - 1)) / PAGE_SIZE
      ∧ mapped (ph_slot process) base fs p s s'
  | (Err _, s') => ∀ j a, user_address a → leaf_of s' j a = leaf_of s j a
  end.
Proof.
  intros HI%reachable_inv Hh Hl Hb. pose proof (mmap_private_spec cfg process hint len p initialized s HI Hh Hl Hb) as H. unfold wp in H.
  destruct (linux_mmap_private _ _ _ _ _ _ s) as [[base|e] s'] eqn:Hrun; [split; [by eapply live_handle_run|by destruct H as [_ ?]]|]. destruct H as [_ Hk]. exact Hk.
Qed.

(** C34. A shared mapping, granted only to a live handle, gives the process
    exactly the frames of the named object from the requested offset on, one per page, at a page-aligned range
    that had no mapping; no other mapping changes, and a refused request changes
    none. *)
Theorem space_mmap_shared process id hint len offset p s :
  reachable s → 0 ≤ hint → 0 ≤ len → 0 ≤ offset →
  match linux_mmap_shared cfg process id hint len offset p s with
  | (Ok base, s') => live_handle process s ∧ ∃ fs bk b, shared s' !! bk = Some b ∧ sb_occupied b = true ∧ identity b = id
      ∧ (∀ h, (h < length fs)%nat → fs !! h = held b !! (Z.to_nat (offset / PAGE_SIZE) + h)%nat)
      ∧ Z.of_nat (length fs) = (len + (PAGE_SIZE - 1)) / PAGE_SIZE ∧ mapped (ph_slot process) base fs p s s'
  | (Err _, s') => ∀ j a, user_address a → leaf_of s' j a = leaf_of s j a
  end.
Proof.
  intros HI%reachable_inv Hh Hl Ho. pose proof (mmap_shared_spec cfg process id hint len offset p s HI Hh Hl Ho) as H. unfold wp in H.
  destruct (linux_mmap_shared _ _ _ _ _ _ _ s) as [[base|e] s'] eqn:Hrun; [split; [by eapply live_handle_run|by destruct H as [_ ?]]|]. destruct H as [_ Hk]. exact Hk.
Qed.

(** C35. Unmapping a range that is a removable mapping of a live process
    succeeds, clears every page of the range and no other, and returns the frames
    of a private mapping to physical memory. A refused request changes nothing at
    all, and a request is refused only where the range is no such mapping; a
    stale handle is always refused. *)
Theorem space_munmap process address len s :
  reachable s → 0 ≤ len →
  match linux_munmap cfg process address len s with
  | (Ok _, s') => live_handle process s ∧ ∃ x k m, slots s !! ph_slot process = Some x ∧ mappings x !! k = Some m ∧ occupied m = true ∧ releasable m = true ∧ mp_address m = address
      ∧ unmapped_range (ph_slot process) address ((len + (PAGE_SIZE - 1)) / PAGE_SIZE * PAGE_SIZE) s s'
      ∧ (shared_identity m = 0 → ∀ j p, covers m j → pages x !! j = Some p → ¬ live (memory s') (frame p))
  | (Err _, s') => s' = s ∧ ¬ unmap_allowed process address len s
  end.
Proof.
  intros HI%reachable_inv Hl. pose proof (munmap_spec cfg process address len s HI Hl) as H. unfold wp in H.
  destruct (linux_munmap _ _ _ _ s) as [[u|e] s'] eqn:Hrun; [split; [by eapply live_handle_run|by destruct H as [_ ?]]|done].
Qed.

(** C36. A successful change of protection, granted only to a live handle,
    starts at a mapping of the process whose pages in the range were all present; it replaces the permissions of
    exactly those pages, keeping their frames, and changes nothing else. A
    refused request leaves the whole pool as it was. *)
Theorem space_mprotect process address len p s :
  reachable s → 0 ≤ len →
  let i := ph_slot process in
  let stop := address + (len + (PAGE_SIZE - 1)) / PAGE_SIZE * PAGE_SIZE in
  match linux_mprotect cfg process address len p s with
  | (Ok _, s') => live_handle process s ∧ (∃ x k m, slots s !! i = Some x ∧ mappings x !! k = Some m ∧ occupied m = true ∧ mp_address m = address)
      ∧ (∀ a, address ≤ a < stop → Z.land (leaf_of s i a) ENTRY_PRESENT ≠ 0)
      ∧ ∀ j a, user_address a → leaf_of s' j a =
          if decide (j = i ∧ address ≤ a < stop) then replace_user_mapping_permissions (leaf_of s i a) p else leaf_of s j a
  | (Err _, s') => s' = s
  end.
Proof.
  intros HI%reachable_inv Hl i stop. pose proof (mprotect_spec cfg process address len p s HI Hl) as H. unfold wp in H.
  destruct (linux_mprotect _ _ _ _ _ s) as [[u|e] s'] eqn:Hrun; [split; [by eapply live_handle_run|by destruct H as [_ ?]]|done].
Qed.

(** C37. Only a live handle is served. A request for break 0 reports the break.
    A granted break lies in the
    heap's bounds and is recorded, together with the number of pages up to it as
    the extent of the heap; the pages added get fresh frames, readable and
    writable and not executable, those dropped are cleared, and no other mapping
    changes. A refused request changes no mapping. *)
Theorem space_brk process requested s : reachable s →
  match linux_brk cfg process requested s with
  | (Ok r, s') => live_handle process s ∧ ∃ x, slots s !! ph_slot process = Some x
      ∧ if requested =? 0 then s' = s ∧ r = heap_break x
        else let desired := Z.to_nat ((requested - LINUX_BRK_BASE + (PAGE_SIZE - 1)) / PAGE_SIZE) in
             r = requested ∧ break_at (ph_slot process) requested desired s' ∧ LINUX_BRK_BASE ≤ requested ≤ LINUX_BRK_BASE + LINUX_BRK_MAXIMUM_BYTES
             ∧ heap_resized (ph_slot process) (heap_pages x) desired s s'
  | (Err _, s') => ∀ j a, user_address a → leaf_of s' j a = leaf_of s j a
  end.
Proof.
  intros HI%reachable_inv. pose proof (brk_spec cfg Hcfg process requested s HI) as H. unfold wp in H.
  destruct (linux_brk _ _ _ s) as [[r|e] s'] eqn:Hrun; [split; [by eapply live_handle_run|by destruct H as [_ ?]]|]. destruct H as [_ Hk]. exact Hk.
Qed.

(** C38. Releasing a process succeeds exactly for a live handle whose page tables
    are not the active ones; it returns every frame the process owned, empties
    its slot, and changes no mapping of another process. Otherwise nothing
    changes. *)
Theorem space_release active_root process s x :
  reachable s → slots s !! ph_slot process = Some x →
  match release_process cfg active_root process s with
  | (Ok _, s') => phase x = Committed ∧ generation x = ph_generation process ∧ root x ≠ Some active_root ∧ (∀ f, f ∈ owned x → ¬ live (memory s') f)
      ∧ (∃ y, slots s' !! ph_slot process = Some y ∧ phase y = Free ∧ root y = None)
      ∧ ∀ j a, j ≠ ph_slot process → user_address a → leaf_of s' j a = leaf_of s j a
  | (Err _, s') => s' = s ∧ (phase x = Committed → generation x = ph_generation process → root x = Some active_root)
  end.
Proof.
  intros [C Ht]%reachable_inv Hx. pose proof (Ht _ x Hx) as Tx.
  pose proof (release_process_spec cfg active_root process s x (core_tearing cfg s _ C) Hx ltac:(intros j y _; apply Ht)) as H. unfold wp in H.
  destruct (release_process cfg active_root process s) as [[u|e] s'].
  - destruct H as (_ & [Hph Hgen] & Hne & Hfree & Hl & Hk). split_and!; try done. by rewrite <-(td_info x Tx Hph).
  - destruct H as [-> H]. split; [done|]. intros Hph Hg. rewrite <-(td_info x Tx Hph). apply H; [done..|]. rewrite (td_info x Tx Hph).
    apply (td_root x Tx). congruence.
Qed.

End Runs.

(** ** A run

    One process on the direct map over the frames of FrameAllocProofs.v: an
    image of two pages, a stack, the pages given at boot, a private mapping, a
    shared object mapped from its second page, a heap, and the contents of the
    stack. The kernel image is
    the three frames from 0x100000 on that are set aside there. *)

#[local] Instance demo_kernel : KernelFrames := [0x100000; 0x101000; 0x102000].
Definition demo_image : KernelImage :=
  mkImage (KERNEL_VIRTUAL_BASE + 0x100000) (KERNEL_VIRTUAL_BASE + 0x103000)
    (KERNEL_VIRTUAL_BASE + 0x100000) (KERNEL_VIRTUAL_BASE + 0x101000) (KERNEL_VIRTUAL_BASE + 0x102000).

Abbreviation Pool := (FrameBackedAddressSpace DirectMapFrameMemory).

Definition pool_memory : DirectMapFrameMemory := mkDirectMap demo_frames 0xffff800000000000 0x140000 (λ _, 0).
Definition pool_new : Pool := new_space test_config pool_memory 0x1000.
Definition read_execute : MappingPermissions := mkPermissions true false true.
Definition read_write : MappingPermissions := mkPermissions true true false.
Definition read_only : MappingPermissions := mkPermissions true false false.
Definition pool_process : ProcessImageHandle := mkProcess 0 1.
Definition pool_ops : list SpaceOp :=
  [Begin 0x1000 0x3000; MapZeroed (mkSpace 0 1) 0x1000 0x2000; CopyInto (mkHandle 0 0 1) 0xffe [1; 2; 3; 4];
   Seal (mkHandle 0 0 1) read_execute; Commit (mkSpace 0 1) 0x1000 1; InstallStack 0x1000 pool_process 2;
   InstallThermal pool_process; InstallNexus demo_image pool_process;
   MmapPrivate pool_process 0 0x1800 read_write [5; 6]; SharedCreate 7; SharedResize 7 0 0x2000;
   MmapShared pool_process 7 0 0x1000 0x1000 read_write; Brk pool_process (LINUX_BRK_BASE + 0x1200);
   PrepareStack pool_process [[97; 98]; [99]] [[100; 61; 101]]].

(** The state after the first [n] operations. *)
Definition pool_at (n : nat) : Pool := foldl (λ s op, perform test_config op s) pool_new (take n pool_ops).

Lemma pool_pages : Z.of_nat (MAXIMUM_PROCESS_PAGES test_config) ≤ U16_MAX.
Proof. done. Qed.

Lemma demo_kernel_set_aside : kernel_set_aside demo_frames.
Proof.
  intros f Hf. apply list_elem_of_In in Hf. destruct Hf as [<-|[<-|[<-|[]]]]; (split; [done|]); intros k Hk _;
    [assert (k = 256)%nat as -> by (unfold FrameAlloc.frame_address, FrameAlloc.PAGE_SIZE in Hk; lia)
    |assert (k = 257)%nat as -> by (unfold FrameAlloc.frame_address, FrameAlloc.PAGE_SIZE in Hk; lia)
    |assert (k = 258)%nat as -> by (unfold FrameAlloc.frame_address, FrameAlloc.PAGE_SIZE in Hk; lia)]; vm_compute; reflexivity.
Qed.

Lemma demo_plane_set_aside : plane_set_aside demo_image.
Proof.
  intros page f Hp. apply list_elem_of_In in Hp. destruct Hp as [<-|[<-|[<-|[]]]]; vm_compute; intros [= <-]; apply list_elem_of_In; vm_compute; auto.
Qed.

Lemma pool_memory_ok : dm_ok pool_memory.
Proof. split; [exact demo_frames_wf|]. split_and!; [done..|exact demo_kernel_set_aside]. Qed.

Lemma run_reachable {Mem E} `{!FrameMemory Mem E, KF : !KernelFrames, !FrameMemoryLaws Mem E} cfg ops : ∀ s : FrameBackedAddressSpace Mem, reachable cfg s →
  (∀ n op, ops !! n = Some op → op_ok cfg op (foldl (λ s op, perform cfg op s) s (take n ops))) →
  reachable cfg (foldl (λ s op, perform cfg op s) s ops).
Proof.
  induction ops as [|op ops IH]; intros s Hs Hok; simpl; [done|]. apply IH.
  - apply reach_op; [done|]. exact (Hok O op eq_refl).
  - intros n op' Hn. exact (Hok (S n) op' Hn).
Qed.

Lemma pool_installable : ∀ x, slots (pool_at 5) !! ph_slot pool_process = Some x → address_space_root (process_info x) ≠ Some 0x1000.
Proof.
  intros x Hx. assert (H : (λ x, bool_decide (address_space_root (process_info x) = Some 0x1000)) <$> slots (pool_at 5) !! ph_slot pool_process = Some false)
    by (vm_compute; reflexivity). rewrite Hx in H. injection H as H. by apply bool_decide_eq_false in H.
Qed.

Lemma pool_thermal : (install_thermal_page test_config pool_process (pool_at 6)).1 ≠ Err Panicked.
Proof.
  assert (H : (install_thermal_page test_config pool_process (pool_at 6)).1 = Ok THERMAL_ADDRESS) by (vm_compute; reflexivity).
  rewrite H. discriminate.
Qed.

Lemma pool_fresh : ∀ x, slots (pool_at 13) !! ph_slot pool_process = Some x → fresh_stack x.
Proof.
  intros x Hx top Htop. assert (H : slots (pool_at 13) !! ph_slot pool_process ≫= (λ x, initial_stack_pointer (process_info x))
    = Some (INITIAL_USER_STACK_BASE + PAGE_SIZE)) by (vm_compute; reflexivity). rewrite Hx in H. simpl in H. congruence.
Qed.

Lemma pool_reachable n : reachable test_config (pool_at n).
Proof.
  apply run_reachable; [apply reach_new, pool_memory_ok|]. intros k op Hk.
  assert (take k (take n pool_ops) = take k pool_ops) as ->.
  { rewrite take_take. f_equal. apply lookup_lt_Some in Hk. rewrite length_take in Hk. lia. }
  assert (pool_ops !! k = Some op) as Hop by (rewrite lookup_take_Some in Hk; by destruct Hk).
  clear Hk. fold (pool_at k). destruct k as [|[|[|[|[|[|[|[|[|[|[|[|[|[|k]]]]]]]]]]]]]]; [injection Hop as <-..|done].
  all: cbn [op_ok]; lazymatch goal with
    | |- plane_set_aside _ => exact demo_plane_set_aside | |- _ ≠ _ => exact pool_thermal | |- ∀ _, _ => exact pool_installable
    | |- (∀ _, _) ∧ _ => split; [exact pool_fresh|simpl; repeat constructor; done] | |- _ => idtac end.
  all: first [exact I|lia|split_and!; [lia..|]|split; [lia|]]; repeat constructor; done.
Qed.

(** The second page of the image cannot be protected on its own: the check of
    its leaf looks up the frame of the first page. *)
Lemma mprotect_tail_refused :
  (linux_mprotect test_config pool_process 0x1000 0x1000 read_only (pool_at 13)).1 = Ok tt
  ∧ (linux_mprotect test_config pool_process 0x2000 0x1000 read_only (pool_at 13)).1 = Err CorruptHierarchy.
Proof. split; vm_compute; reflexivity. Qed.

(** Access that was taken away with [PROT_NONE] cannot be given back. *)
Lemma mprotect_none_final :
  let s := perform test_config (Mprotect pool_process LINUX_MMAP_BASE 0x2000 NO_PERMISSIONS) (pool_at 13) in
  (linux_mprotect test_config pool_process LINUX_MMAP_BASE 0x2000 NO_PERMISSIONS (pool_at 13)).1 = Ok tt
  ∧ (linux_mprotect test_config pool_process LINUX_MMAP_BASE 0x2000 read_write s).1 = Err CorruptHierarchy.
Proof. split; vm_compute; reflexivity. Qed.

Lemma space_isolation_witness :
  leaf_of (pool_at 13) 0 0x1000 ≠ 0 ∧ leaf_of (pool_at 13) 0 LINUX_MMAP_BASE ≠ 0 ∧ leaf_of (pool_at 13) 0 THERMAL_ADDRESS ≠ 0
  ∧ frame_of (leaf_of (pool_at 13) 0 CEREBRAL_INGRESS_ADDRESS) = 0x100000 ∧
  let s := pool_at 13 in
  (∀ i a, user_address a → leaf_of s i a ≠ 0 →
     (Z.land (leaf_of s i a) ENTRY_WRITABLE ≠ 0 → Z.land (leaf_of s i a) ENTRY_NO_EXECUTE ≠ 0)
     ∧ (live (memory s) (frame_of (leaf_of s i a)) ∨ frame_of (leaf_of s i a) ∈ kernel_frames)
     ∧ ∀ j y r, slots s !! j = Some y → root y = Some r → ¬ is_table (entries (memory s)) r (frame_of (leaf_of s i a)))
  ∧ ∀ i j a b, user_address a → user_address b → leaf_of s i a ≠ 0 → leaf_of s j b ≠ 0 →
      frame_of (leaf_of s i a) = frame_of (leaf_of s j b) →
      (i = j ∧ page_of a = page_of b) ∨ (∃ id, maps_at s i a id ∧ maps_at s j b id) ∨ frame_of (leaf_of s i a) ∈ kernel_frames.
Proof.
  split; [vm_compute; discriminate|]. split; [vm_compute; discriminate|]. split; [vm_compute; discriminate|]. split; [vm_compute; reflexivity|].
  exact (space_isolation test_config pool_pages (pool_at 13) (pool_reachable 13)).
Defined.

Lemma space_noninterference_witness :
  let op := Munmap (mkProcess 1 1) LINUX_MMAP_BASE 0x1800 in
  leaf_of (perform test_config op (pool_at 13)) 0 LINUX_MMAP_BASE = leaf_of (pool_at 13) 0 LINUX_MMAP_BASE.
Proof.
  apply (space_noninterference test_config pool_pages (Munmap (mkProcess 1 1) LINUX_MMAP_BASE 0x1800) (pool_at 13) 0 LINUX_MMAP_BASE);
    [exact (pool_reachable 13)|unfold op_ok; lia|discriminate|unfold user_address, LINUX_MMAP_BASE, USER_LIMIT; lia].
Defined.

Lemma space_mmap_private_witness : ∃ s', linux_mmap_private test_config pool_process 0 0x1800 read_write [5; 6] (pool_at 8) = (Ok LINUX_MMAP_BASE, s')
  ∧ live_handle pool_process (pool_at 8) ∧ ∃ fs, NoDup fs ∧ Forall (λ f, f ∉ ledger (pool_at 8)) fs ∧ Z.of_nat (length fs) = (0x1800 + (PAGE_SIZE - 1)) / PAGE_SIZE
      ∧ mapped 0 LINUX_MMAP_BASE fs read_write (pool_at 8) s'.
Proof.
  pose proof (space_mmap_private test_config pool_pages pool_process 0 0x1800 read_write [5; 6] (pool_at 8) (pool_reachable 8)
    ltac:(lia) ltac:(lia) ltac:(repeat constructor; done)) as H.
  assert (Hrun : (linux_mmap_private test_config pool_process 0 0x1800 read_write [5; 6] (pool_at 8)).1 = Ok LINUX_MMAP_BASE) by (vm_compute; reflexivity).
  destruct (linux_mmap_private _ _ _ _ _ _ _) as [r s']. cbn [fst] in Hrun. rewrite Hrun in H. exists s'. rewrite Hrun. split; [reflexivity|exact H].
Defined.

Lemma space_mmap_shared_witness : ∃ s', linux_mmap_shared test_config pool_process 7 0 0x1000 0x1000 read_write (pool_at 11) = (Ok (LINUX_MMAP_BASE + 0x2000), s')
  ∧ live_handle pool_process (pool_at 11) ∧ ∃ fs bk b, shared s' !! bk = Some b ∧ sb_occupied b = true ∧ identity b = 7
      ∧ (∀ h, (h < length fs)%nat → fs !! h = held b !! (Z.to_nat (0x1000 / PAGE_SIZE) + h)%nat)
      ∧ Z.of_nat (length fs) = (0x1000 + (PAGE_SIZE - 1)) / PAGE_SIZE ∧ mapped 0 (LINUX_MMAP_BASE + 0x2000) fs read_write (pool_at 11) s'.
Proof.
  pose proof (space_mmap_shared test_config pool_pages pool_process 7 0 0x1000 0x1000 read_write (pool_at 11) (pool_reachable 11)
    ltac:(lia) ltac:(lia) ltac:(lia)) as H.
  assert (Hrun : (linux_mmap_shared test_config pool_process 7 0 0x1000 0x1000 read_write (pool_at 11)).1 = Ok (LINUX_MMAP_BASE + 0x2000)) by (vm_compute; reflexivity).
  destruct (linux_mmap_shared _ _ _ _ _ _ _ _) as [r s']. cbn [fst] in Hrun. rewrite Hrun in H. exists s'. rewrite Hrun. split; [reflexivity|exact H].
Defined.

Lemma space_munmap_witness : ∃ s', linux_munmap test_config pool_process LINUX_MMAP_BASE 0x1800 (pool_at 13) = (Ok tt, s')
  ∧ live_handle pool_process (pool_at 13) ∧ ∃ x k m, slots (pool_at 13) !! ph_slot pool_process = Some x ∧ mappings x !! k = Some m ∧ occupied m = true ∧ releasable m = true ∧ mp_address m = LINUX_MMAP_BASE
      ∧ unmapped_range 0 LINUX_MMAP_BASE ((0x1800 + (PAGE_SIZE - 1)) / PAGE_SIZE * PAGE_SIZE) (pool_at 13) s'
      ∧ (shared_identity m = 0 → ∀ j p, covers m j → pages x !! j = Some p → ¬ live (memory s') (frame p)).
Proof.
  pose proof (space_munmap test_config pool_pages pool_process LINUX_MMAP_BASE 0x1800 (pool_at 13) (pool_reachable 13) ltac:(lia)) as H.
  assert (Hrun : (linux_munmap test_config pool_process LINUX_MMAP_BASE 0x1800 (pool_at 13)).1 = Ok tt) by (vm_compute; reflexivity).
  destruct (linux_munmap _ _ _ _ _) as [r s']. cbn [fst] in Hrun. rewrite Hrun in H. exists s'. rewrite Hrun. split; [reflexivity|exact H].
Defined.

Lemma space_mprotect_witness :
  let stop := LINUX_MMAP_BASE + (0x2000 + (PAGE_SIZE - 1)) / PAGE_SIZE * PAGE_SIZE in
  ∃ s', linux_mprotect test_config pool_process LINUX_MMAP_BASE 0x2000 read_only (pool_at 13) = (Ok tt, s')
  ∧ live_handle pool_process (pool_at 13) ∧ (∃ x k m, slots (pool_at 13) !! 0%nat = Some x ∧ mappings x !! k = Some m ∧ occupied m = true ∧ mp_address m = LINUX_MMAP_BASE)
  ∧ (∀ a, LINUX_MMAP_BASE ≤ a < stop → Z.land (leaf_of (pool_at 13) 0 a) ENTRY_PRESENT ≠ 0)
  ∧ ∀ j a, user_address a → leaf_of s' j a =
      if decide (j = 0%nat ∧ LINUX_MMAP_BASE ≤ a < stop) then replace_user_mapping_permissions (leaf_of (pool_at 13) 0 a) read_only
      else leaf_of (pool_at 13) j a.
Proof.
  pose proof (space_mprotect test_config pool_pages pool_process LINUX_MMAP_BASE 0x2000 read_only (pool_at 13) (pool_reachable 13) ltac:(lia)) as H.
  assert (Hrun : (linux_mprotect test_config pool_process LINUX_MMAP_BASE 0x2000 read_only (pool_at 13)).1 = Ok tt) by (vm_compute; reflexivity).
  cbv zeta in H |- *. destruct (linux_mprotect _ _ _ _ _ _) as [r s']. cbn [fst] in Hrun. rewrite Hrun in H. exists s'. rewrite Hrun. split; [reflexivity|exact H].
Defined.

Lemma space_brk_witness : ∃ s', linux_brk test_config pool_process (LINUX_BRK_BASE + 0x1200) (pool_at 12) = (Ok (LINUX_BRK_BASE + 0x1200), s')
  ∧ live_handle pool_process (pool_at 12) ∧ ∃ x, slots (pool_at 12) !! ph_slot pool_process = Some x
      ∧ if LINUX_BRK_BASE + 0x1200 =? 0 then s' = pool_at 12 ∧ LINUX_BRK_BASE + 0x1200 = heap_break x
        else let desired := Z.to_nat ((LINUX_BRK_BASE + 0x1200 - LINUX_BRK_BASE + (PAGE_SIZE - 1)) / PAGE_SIZE) in
             LINUX_BRK_BASE + 0x1200 = LINUX_BRK_BASE + 0x1200 ∧ break_at 0 (LINUX_BRK_BASE + 0x1200) desired s'
             ∧ LINUX_BRK_BASE ≤ LINUX_BRK_BASE + 0x1200 ≤ LINUX_BRK_BASE + LINUX_BRK_MAXIMUM_BYTES
             ∧ heap_resized 0 (heap_pages x) desired (pool_at 12) s'.
Proof.
  pose proof (space_brk test_config pool_pages pool_process (LINUX_BRK_BASE + 0x1200) (pool_at 12) (pool_reachable 12)) as H.
  assert (Hrun : (linux_brk test_config pool_process (LINUX_BRK_BASE + 0x1200) (pool_at 12)).1 = Ok (LINUX_BRK_BASE + 0x1200)) by (vm_compute; reflexivity).
  destruct (linux_brk _ _ _ _) as [r s']. cbn [fst] in Hrun. rewrite Hrun in H. exists s'. rewrite Hrun. split; [reflexivity|exact H].
Defined.

Lemma space_release_witness : ∃ x s', slots (pool_at 13) !! ph_slot pool_process = Some x
  ∧ release_process test_config 0x1000 pool_process (pool_at 13) = (Ok tt, s')
  ∧ phase x = Committed ∧ generation x = 1 ∧ root x ≠ Some 0x1000 ∧ (∀ f, f ∈ owned x → ¬ live (memory s') f)
  ∧ (∃ y, slots s' !! 0%nat = Some y ∧ phase y = Free ∧ root y = None)
  ∧ ∀ j a, j ≠ 0%nat → user_address a → leaf_of s' j a = leaf_of (pool_at 13) j a.
Proof.
  destruct (slots (pool_at 13) !! ph_slot pool_process) as [x|] eqn:Hx.
  2: { exfalso. assert (H : is_Some (root <$> slots (pool_at 13) !! ph_slot pool_process)) by (vm_compute; by eexists). rewrite Hx in H. by destruct H. }
  pose proof (space_release test_config pool_pages 0x1000 pool_process (pool_at 13) x (pool_reachable 13) Hx) as H.
  assert (Hrun : (release_process test_config 0x1000 pool_process (pool_at 13)).1 = Ok tt) by (vm_compute; reflexivity).
  destruct (release_process _ _ _ _) as [r s']. cbn [fst] in Hrun. rewrite Hrun in H. exists x, s'. rewrite Hrun. split; [reflexivity|split; [reflexivity|exact H]].
Defined.
