(* ===== verification/UserSpace.v ===== *)
(** * User copies in a running system

    The copies of UserMemory.v through the page tables that the pool of
    process/x86_64.rs built, over the direct map. The page tables of a reachable
    state are out of reach of user writes, which is what the copies rely on;
    whence what a system call that writes user memory can change, and that what
    it wrote reads back. *)

From stdpp Require Import prelude list numbers.
From Stdlib Require Import ZArith Lia.
From S2P Require Import Prelude.
From S2P Require Import Context.
From S2P Require Import UserMemory.
From S2P Require Import UserMemoryProofs.
From S2P Require Import FrameAllocProofs.
From S2P Require Import DirectMap.
From S2P Require Import Wp.
From S2P Require Import AddressSpace.
From S2P Require Import PageTree.
From S2P Require Import SpaceInv.
From S2P Require Import SpaceSteps.
From S2P Require Import SpacePages.
From S2P Require Import SpaceRun.

(** Physical memory as the kernel sees it through the direct map, and the map
    after physical memory was changed. *)
Definition physical (m : DirectMapFrameMemory) : UserMemory.Memory := λ a, ram m (direct_map_base m + a).
Definition write_back (mem : UserMemory.Memory) (m : DirectMapFrameMemory) : DirectMapFrameMemory :=
  with_ram (λ v, mem (v - direct_map_base m)) m.

(** ** Entries *)

Lemma load_physical m n : direct_map_base m = HIGHER_HALF_DIRECT_MAP_BASE → ∀ p, load p n (physical m) = load_from p n (ram m).
Proof.
  intros Hb. induction n as [|n IH]; intros p; [done|]. simpl. rewrite IH. unfold load_from. simpl. rewrite <-fmap_S_seq, <-list_fmap_compose. f_equal.
  - unfold load_byte, physical. f_equal. rewrite Hb. lia.
  - apply list_fmap_ext. intros k h _. simpl. f_equal. lia.
Qed.

Lemma read_active_physical m t i e : direct_map_base m = HIGHER_HALF_DIRECT_MAP_BASE → read_active_entry (physical m) t i = Some e → e = dm_entries m t i.
Proof.
  intros Hb. unfold read_active_entry. destruct (_ || _); [done|].
  destruct (checked_add U64_MAX t (i * 8)) as [p|] eqn:Hp; cbn [mbind option_bind]; [|done]. apply checked_add_Some in Hp as [-> _].
  destruct (checked_add _ _ 8); cbn [mbind option_bind]; [|done]. destruct (_ <? _); [done|]. unfold direct_map_address.
  destruct (_ <=? _); cbn [mbind option_bind]; [done|]. destruct (checked_add _ HIGHER_HALF_DIRECT_MAP_BASE _) as [q|] eqn:Hq; cbn [mbind option_bind]; [|done].
  apply checked_add_Some in Hq as [-> _]. intros He. apply (inj Some) in He. rewrite <-He, load_physical by done. unfold dm_entries. rewrite Hb. do 2 f_equal. lia.
Qed.

(** Every path to a leaf is the path of an address. *)
Lemma path_address a b c d : user_path [a; b; c; d] → ∃ va, user_address va ∧ table_path va = [a; b; c] ∧ leaf_index va = d.
Proof.
  intros (_ & Hf & Hh). specialize (Hh a _ eq_refl). do 4 (apply Forall_cons_1 in Hf as [? Hf]).
  clear Hf. exists ((((a * 512 + b) * 512 + c) * 512 + d) * 4096). unfold table_path, leaf_index. cbn [fmap list_fmap].
  rewrite !page_index_div by lia. split; [unfold user_address, USER_LIMIT; lia|].
  assert (E : ∀ q x k, 0 ≤ x < k → (q * k + x) / k = q) by (intros q x k Hx; rewrite Z.div_add_l by lia; rewrite Z.div_small by lia; lia).
  assert (M : ∀ q x, 0 ≤ x < 512 → (q * 512 + x) mod 512 = x) by (intros q x Hx; rewrite Z.add_comm, Z.mod_add by lia; by apply Z.mod_small).
  assert (D12 : (((a * 512 + b) * 512 + c) * 512 + d) * 4096 / 2 ^ 12 = ((a * 512 + b) * 512 + c) * 512 + d) by (by apply Z.div_mul).
  split; [f_equal; [|f_equal; [|f_equal]]|].
  - change (2 ^ 39) with (2 ^ 12 * 512 * 512 * 512). rewrite <-!Z.div_div, D12, !E by lia. by apply Z.mod_small.
  - change (2 ^ 30) with (2 ^ 12 * 512 * 512). rewrite <-!Z.div_div, D12, !E by lia. by apply M.
  - change (2 ^ 21) with (2 ^ 12 * 512). rewrite <-!Z.div_div, D12, !E by lia. by apply M.
  - rewrite D12. by apply M.
Qed.

Lemma user_path_extend p i : user_path p → (length p < 4)%nat → 0 ≤ i < 512 → (length p = O → i < 256) → user_path (p ++ [i]).
Proof.
  intros (Hl & Hf & Hh) Hlt Hi H0. split_and!.
  - rewrite length_app. simpl. lia.
  - apply Forall_app. split; [done|]. apply Forall_cons_2; [done|apply Forall_nil_2].
  - intros a rest Heq. destruct p as [|b p]; simplify_eq/=; [by apply H0|by eapply Hh].
Qed.

(** ** The tables of a process *)

Section Active.
Context {KF : KernelFrames} (cfg : Config) (Hcfg : Z.of_nat (MAXIMUM_PROCESS_PAGES cfg) ≤ U16_MAX).
Context (s : FrameBackedAddressSpace DirectMapFrameMemory) (i : nat) (x : FrameBackedSlot) (r : Z).
Context (HI : Inv cfg s) (Hbase : direct_map_base (memory s) = HIGHER_HALF_DIRECT_MAP_BASE) (Hx : slots s !! i = Some x) (Hr : root x = Some r).

Abbreviation ent := (dm_entries (memory s)).
Abbreviation mem := (physical (memory s)).

(** The tables of level [l]. *)
Definition level (l : nat) (t : Z) : Prop := ∃ p, user_path p ∧ length p = l ∧ descend ent r p = Some t.

Lemma active_tree : slot_tree ent (shared s) (shares_of at_rest i x) x r.
Proof. destruct HI as [C _]. exact (core_tree cfg at_rest s i x r C Hx ltac:(intros []) Hr). Qed.

(** Where the walk of syscalls.rs goes on, the pool has a table. *)
Lemma active_step p t j e : user_path (p ++ [j]) → (length p < 3)%nat → descend ent r p = Some t → read_active_entry mem t j = Some e →
  entry_allows false e = true → descend ent r (p ++ [j]) = Some (Z.land e PAGE_ADDRESS_MASK).
Proof.
  intros Hp Hl Hd He Ha. apply read_active_physical in He as ->; [|done]. rewrite descend_snoc, Hd.
  destruct (hier_branch _ _ _ (st_hier _ _ _ _ _ active_tree) p j t Hp Hl Hd) as [H0| ->]; [|done]. by rewrite H0 in Ha.
Qed.

Lemma leaf_entry t j : level 3 t → 0 ≤ j < 512 → ∃ va, user_address va ∧ leaf_of s i va = ent t j.
Proof.
  intros (p & Hp & Hl & Hd) Hj. destruct p as [|a [|b [|c [|]]]]; try done.
  destruct (path_address a b c j) as (va & Hva & Ht & Hi).
  { apply (user_path_extend [a; b; c] j Hp); [simpl; lia|done|done]. }
  exists va. split; [done|]. unfold leaf_of. rewrite Hx, Hr. unfold leaf. rewrite Ht. simpl in Hd |- *. by rewrite Hd, Hi.
Qed.

Lemma active_tables_apart : tables_apart mem r level.
Proof.
  split.
  - exists []. split_and!; [apply user_path_nil|done|done].
  - intros l t j e Hl (p & Hp & <- & Hd) Hj H0 He Ha _. exists (p ++ [j]).
    assert (Hpj : user_path (p ++ [j])) by (apply user_path_extend; [done|lia|done|done]). split_and!; [done|rewrite length_app; simpl; lia|].
    by eapply active_step.
  - intros t j e Ht Hj He Ha l t' Hl (p & Hp & Hpl & Hd) Heq. apply read_active_physical in He as ->; [|done].
    destruct (leaf_entry t j Ht Hj) as (va & Hva & Hleaf).
    apply (leaf_not_table cfg s i va i x r HI Hva); [by rewrite Hleaf; intros H; rewrite H in Ha|done|done|].
    rewrite Hleaf. unfold frame_of. change (Z.land (ent t j) AddressSpace.PAGE_ADDRESS_MASK) with (Z.land (ent t j) UserMemory.PAGE_ADDRESS_MASK).
    rewrite Heq. exists p. split_and!; [done|lia|done].
Qed.

(** User writes do not reach the tables of the process. *)
Lemma active_protected : protected mem r.
Proof. exact (tables_apart_protected _ _ _ active_tables_apart). Qed.

(** *** Where a byte goes *)

Lemma walk_descend write ixs : ∀ p t t', user_path (p ++ ixs) → (length (p ++ ixs) ≤ 3)%nat → descend ent r p = Some t →
  walk_tables (read_active_entry mem) write ixs t = Ok t' → descend ent r (p ++ ixs) = Some t'.
Proof.
  induction ixs as [|j ixs IH]; intros p t t' Hp Hl Hd Hw; simpl in Hw; [by rewrite app_nil_r; congruence|].
  destruct (read_active_entry mem t j) as [e|] eqn:He; [|done]. destruct (entry_allows write e) eqn:Ha; [|done].
  destruct (Z.land e UserMemory.ENTRY_HUGE =? 0); [|done]. simpl in Hw.
  replace (p ++ j :: ixs) with ((p ++ [j]) ++ ixs) in * by (by rewrite <-app_assoc). rewrite !length_app in Hl. simpl in Hl.
  eapply (IH (p ++ [j])); [done|rewrite !length_app; simpl; lia| |exact Hw]. eapply active_step; [by eapply user_path_prefix|lia|done|done|].
  destruct write; [by apply allows_write_read|done].
Qed.

(** The process may write the byte at [va]. *)
Definition writes_at (va : Z) : Prop :=
  user_address va ∧ Z.land (leaf_of s i va) (Z.lor ENTRY_PRESENT ENTRY_USER) = Z.lor ENTRY_PRESENT ENTRY_USER ∧ Z.land (leaf_of s i va) ENTRY_WRITABLE ≠ 0.

Lemma writes_at_mapped va : writes_at va → leaf_of s i va ≠ 0.
Proof. intros (_ & _ & H) H0. by rewrite H0 in H. Qed.

Lemma active_place va a : user_byte true mem r va = Ok a → writes_at va ∧ a = frame_of (leaf_of s i va) + va mod PAGE_SIZE.
Proof.
  unfold user_byte, translate_user_address_with_access. destruct (_ || _) eqn:Hc; [done|]. destruct (256 <=? _); [done|].
  rewrite !orb_false_iff in Hc. destruct Hc as [_ Hv%negb_false_iff]. unfold valid_user_control_address in Hv.
  apply andb_true_iff in Hv as [H1%Z.leb_le H2%Z.ltb_lt]. unfold USER_ADDRESS_MINIMUM, USER_ADDRESS_LIMIT in *.
  assert (Hva : user_address va) by (unfold user_address, USER_LIMIT; lia).
  destruct (walk_tables _ _ _ _) as [t|] eqn:Hw; [|done]. apply (walk_descend true _ []) in Hw; [|by apply (user_table_path va)|simpl; lia|done].
  change ([] ++ (table_index va <$> [39; 30; 21])) with (table_path va) in Hw.
  destruct (read_active_entry mem t _) as [e|] eqn:He; [|done]. apply read_active_physical in He; [|done].
  assert (Hleaf : leaf_of s i va = e) by (unfold leaf_of; rewrite Hx, Hr; change (leaf ent r va = e); unfold leaf; by rewrite Hw, He).
  destruct (entry_allows true e) eqn:Ha; [|done]. simpl. rewrite physical_sum. destruct (EARLY_MAPPED_PHYSICAL_LIMIT <=? _); [done|]. intros [= <-].
  unfold writes_at. rewrite Hleaf. split; [|done]. unfold entry_allows in Ha. apply andb_true_iff in Ha as [Ha%Z.eqb_eq Hwr%negb_true_iff].
  simpl in Hwr. apply Z.eqb_neq in Hwr. done.
Qed.

(** *** What a copy changes *)

Context (target : Z) (source : list Z) (out : Result unit UserCopyError) (mem' : UserMemory.Memory).
Context (Hcopy : copy_to_user r target source mem = (out, mem')).

Lemma copy_changed a : mem' a ≠ mem a → ∃ va, target ≤ va < target + Z.of_nat (length source) ∧ writes_at va ∧ a = frame_of (leaf_of s i va) + va mod PAGE_SIZE.
Proof.
  intros Hne. set (hit k := match user_byte true mem r (target + Z.of_nat k) with Ok b => b =? a | Err _ => false end).
  destruct (existsb hit (seq 0 (length source))) eqn:Hex.
  - apply existsb_exists in Hex as (k & Hk & Hh). apply in_seq in Hk. unfold hit in Hh.
    destruct (user_byte true mem r (target + Z.of_nat k)) as [b|] eqn:Hb; [|done]. apply Z.eqb_eq in Hh as ->.
    exists (target + Z.of_nat k). split; [lia|]. by apply active_place.
  - destruct Hne. eapply (copy_to_unchanged mem r target source); [exact active_protected|exact Hcopy|]. intros k Hk Hb.
    assert (Ht : existsb hit (seq 0 (length source)) = true); [|congruence]. apply existsb_exists. exists (Z.to_nat k). rewrite in_seq. split; [lia|].
    unfold hit. rewrite Z2Nat.id, Hb by lia. apply Z.eqb_refl.
Qed.

(** Frames are whole pages. *)
Lemma frame_pages e e' va a : a = frame_of e + va mod PAGE_SIZE → frame_of e' ≤ a < frame_of e' + PAGE_SIZE → frame_of e = frame_of e'.
Proof.
  intros -> Ha. unfold frame_of in *. destruct (frame_shape e) as (q & Hq & _). destruct (frame_shape e') as (q' & Hq' & _).
  change UserMemory.PAGE_ADDRESS_MASK with AddressSpace.PAGE_ADDRESS_MASK in *. rewrite Hq, Hq' in *. rewrite !Z.shiftl_mul_pow2 in * by lia.
  pose proof (Z.mod_pos_bound va PAGE_SIZE ltac:(done)). unfold PAGE_SIZE in *. lia.
Qed.

Lemma copy_keeps_tables j y r' t a : slots s !! j = Some y → root y = Some r' → is_table ent r' t → t ≤ a < t + PAGE_SIZE → mem' a = mem a.
Proof.
  intros Hy Hr' Ht Ha. destruct (decide (mem' a = mem a)) as [|Hne]; [done|exfalso].
  destruct (copy_changed a Hne) as (va & _ & Hw & ->). pose proof HI as [C _].
  pose proof (hier_owned _ _ _ (st_hier _ _ _ _ _ (core_tree cfg at_rest s j y r' C Hy ltac:(intros []) Hr')) _ Ht) as Ho.
  destruct (core_owned_live cfg at_rest s t C (owned_in_ledger s j y Hy t Ho)) as [_ Hform].
  change (Z.land t PAGE_ADDRESS_MASK) with (frame_of t) in Hform. rewrite <-Hform in Ha, Ht.
  eapply (leaf_not_table cfg s i va j y r'); [done|apply Hw|by apply writes_at_mapped|done|done|]. by rewrite (frame_pages _ _ _ _ eq_refl Ha).
Qed.

Lemma copy_keeps_others j b a : j ≠ i → user_address b → leaf_of s j b ≠ 0 → (∀ id, ¬ maps_at s j b id) → frame_of (leaf_of s j b) ∉ kernel_frames →
  frame_of (leaf_of s j b) ≤ a < frame_of (leaf_of s j b) + PAGE_SIZE → mem' a = mem a.
Proof.
  intros Hne Hb Hnz Hsh Hk Ha. destruct (decide (mem' a = mem a)) as [|Hch]; [done|exfalso].
  destruct (copy_changed a Hch) as (va & _ & Hw & ->). pose proof (frame_pages _ _ _ _ eq_refl Ha) as Heq.
  destruct (same_frame cfg s i j va b HI ltac:(apply Hw) Hb ltac:(by apply writes_at_mapped) Hnz Heq) as [[? _]|[(id & _ & Hm)|Hkf]]; [congruence| |].
  - by destruct (Hsh id).
  - by rewrite Heq in Hkf.
Qed.

(** The copy is one of the things that happen to memory between operations. *)
Lemma copy_env : Forall is_u8 source → env_ok s (write_back mem' (memory s)).
Proof.
  intros Hs. pose proof HI as [C _]. pose proof (core_mem _ _ _ C) as (M1 & M2 & M3 & M4 & M5 & M6). split_and!.
  - split_and!; try done. intros v. apply (copy_to_u8 mem r target source out mem' active_protected Hcopy Hs). intros a. apply M5.
  - intros f Hf. apply (core_owned_live cfg at_rest s f C Hf).
  - intros j y r' Hy Hr' t k Ht Hk. assert (Heq : dm_entries (write_back mem' (memory s)) t k = ent t k).
    { apply dm_entries_ext; [done|]. intros v Hv. simpl. rewrite (copy_keeps_tables j y r' t _ Hy Hr' Ht) by (unfold PAGE_SIZE; lia).
      unfold physical. f_equal. lia. }
    simpl. rewrite Heq. apply same_entry_refl.
Qed.

(** Different addresses have different places, unless two pages of the range
    show one frame. *)
Lemma range_apart : (∀ va vb, target ≤ va < vb → vb < target + Z.of_nat (length source) → page_of va ≠ page_of vb →
    frame_of (leaf_of s i va) ∉ kernel_frames ∧ ∀ id, ¬ (maps_at s i va id ∧ maps_at s i vb id)) →
  apart (user_byte true mem r) target (length source).
Proof.
  intros Hno a b pa Hab Hb Ha Hb'. apply active_place in Ha as [Hwa ->]. apply active_place in Hb' as [Hwb Heq].
  assert (Hf : frame_of (leaf_of s i (target + a)) = frame_of (leaf_of s i (target + b))).
  { eapply (frame_pages _ _ (target + a)); [reflexivity|]. rewrite Heq. pose proof (Z.mod_pos_bound (target + b) PAGE_SIZE ltac:(done)). lia. }
  rewrite Hf in Heq. assert (Hmod : (target + a) mod PAGE_SIZE = (target + b) mod PAGE_SIZE) by lia.
  assert (Hpg : page_of (target + a) ≠ page_of (target + b)).
  { unfold page_of. intros Hp. pose proof (Z.div_mod (target + a) PAGE_SIZE ltac:(done)). pose proof (Z.div_mod (target + b) PAGE_SIZE ltac:(done)). lia. }
  destruct (Hno (target + a) (target + b) ltac:(lia) ltac:(lia) Hpg) as [Hk Hs].
  destruct (same_frame cfg s i i (target + a) (target + b) HI ltac:(apply Hwa) ltac:(apply Hwb) ltac:(by apply writes_at_mapped) ltac:(by apply writes_at_mapped) Hf)
    as [[_ ?]|[(id & H)|H]]; [done|by apply (Hs id)|done].
Qed.

End Active.

(** ** Properties *)

Section Properties.
Context {KF : KernelFrames} (cfg : Config) (Hcfg : Z.of_nat (MAXIMUM_PROCESS_PAGES cfg) ≤ U16_MAX).
Implicit Types (s : FrameBackedAddressSpace DirectMapFrameMemory).

(** C39. Isolation of copies: whatever the address and the bytes that a system
    call copies out through the page tables of a process, and whether or not the
    copy succeeds: a byte of physical memory changes only where the range has a
    page that the process itself may write; so no page table of any process
    changes, nor a page of another process, unless both map a shared object
    there or it is one of the kernel's pages shown to processes. The state after
    the copy is one of the reachable ones. *)
Theorem usercopy_isolation s i x r target source out mem' :
  reachable cfg s → direct_map_base (memory s) = HIGHER_HALF_DIRECT_MAP_BASE → slots s !! i = Some x → root x = Some r →
  Forall is_u8 source → copy_to_user r target source (physical (memory s)) = (out, mem') →
  (∀ a, mem' a ≠ physical (memory s) a →
     ∃ va, target ≤ va < target + Z.of_nat (length source) ∧ writes_at s i va ∧ a = frame_of (leaf_of s i va) + va mod PAGE_SIZE)
  ∧ (∀ j y r' t a, slots s !! j = Some y → root y = Some r' → is_table (entries (memory s)) r' t → t ≤ a < t + PAGE_SIZE →
       mem' a = physical (memory s) a)
  ∧ (∀ j b a, j ≠ i → user_address b → leaf_of s j b ≠ 0 → (∀ id, ¬ maps_at s j b id) → frame_of (leaf_of s j b) ∉ kernel_frames →
       frame_of (leaf_of s j b) ≤ a < frame_of (leaf_of s j b) + PAGE_SIZE → mem' a = physical (memory s) a)
  ∧ reachable cfg (with_memory (write_back mem' (memory s)) s).
Proof.
  intros Hreach Hb Hx Hr Hs Hc. pose proof (reachable_inv cfg Hcfg s Hreach) as HI. split_and!.
  - intros a. by eapply (copy_changed cfg s i x r).
  - intros j y r' t a. by eapply (copy_keeps_tables cfg s i x r).
  - intros j b a. by eapply (copy_keeps_others cfg s i x r).
  - apply reach_env; [done|]. by eapply (copy_env cfg s i x r).
Qed.

(** C40. What was copied out reads back: after a successful [copy_to_user]
    through the page tables of a process, [copy_from_user] on the same range
    succeeds and returns the bytes, unless the range has two pages where the
    process maps the same shared object, or spans pages of the kernel's. *)
Theorem usercopy_roundtrip s i x r target source mem' buffer :
  reachable cfg s → direct_map_base (memory s) = HIGHER_HALF_DIRECT_MAP_BASE → slots s !! i = Some x → root x = Some r →
  (∀ va vb, target ≤ va < vb → vb < target + Z.of_nat (length source) → page_of va ≠ page_of vb →
     frame_of (leaf_of s i va) ∉ kernel_frames ∧ ∀ id, ¬ (maps_at s i va id ∧ maps_at s i vb id)) →
  copy_to_user r target source (physical (memory s)) = (Ok tt, mem') → length buffer = length source →
  copy_from_user mem' r target buffer = (Ok tt, source).
Proof.
  intros Hreach Hb Hx Hr Hno Hc. pose proof (reachable_inv cfg Hcfg s Hreach) as HI.
  apply (copy_roundtrip (physical (memory s))); [by eapply (active_protected cfg s i x r)|done|]. by eapply (range_apart cfg s i x r).
Qed.

(** A validated range can be written, and only such a range. *)
Lemma pool_validate_exact s i x r target source :
  reachable cfg s → direct_map_base (memory s) = HIGHER_HALF_DIRECT_MAP_BASE → slots s !! i = Some x → root x = Some r →
  validate_user_write_range (physical (memory s)) r target (length source) = (copy_to_user r target source (physical (memory s))).1.
Proof.
  intros Hreach Hb Hx Hr. apply validate_exact. pose proof (reachable_inv cfg Hcfg s Hreach) as HI. by eapply (active_protected cfg s i x r).
Qed.

End Properties.

(** ** A copy across two pages of the run of SpaceRun.v *)

#[local] Existing Instance demo_kernel.

Definition copy_target : Z := LINUX_MMAP_BASE + 0xffe.
Definition copy_bytes : list Z := [1; 2; 3; 4].
Lemma copy_bytes_u8 : Forall is_u8 copy_bytes.
Proof. unfold copy_bytes. repeat (apply Forall_cons_2; [unfold is_u8, U8_MAX; lia|]). apply Forall_nil_2. Qed.

Definition pool_root : Z := default 0 (slots (pool_at 13) !! 0%nat ≫= root).

Lemma pool_active : ∃ x, slots (pool_at 13) !! 0%nat = Some x ∧ root x = Some pool_root.
Proof.
  assert (H : slots (pool_at 13) !! 0%nat ≫= root = Some pool_root) by (vm_compute; reflexivity).
  destruct (slots (pool_at 13) !! 0%nat) as [x|]; [|discriminate]. by exists x.
Qed.

Lemma pool_base : direct_map_base (memory (pool_at 13)) = HIGHER_HALF_DIRECT_MAP_BASE.
Proof. vm_compute. reflexivity. Qed.

Lemma pool_copies : (copy_to_user pool_root copy_target copy_bytes (physical (memory (pool_at 13)))).1 = Ok tt.
Proof. vm_compute. reflexivity. Qed.

(** The only shared mapping of the run is the page after the private ones. *)
Lemma pool_shared_page a id : maps_at (pool_at 13) 0 a id → page_of a = page_of (LINUX_MMAP_BASE + 0x2000).
Proof.
  set (only m := negb (occupied m) || (shared_identity m =? 0) || ((mp_address m =? LINUX_MMAP_BASE + 0x2000) && (mp_page_count m =? 1)%nat)).
  assert (H : (λ x, forallb only (mappings x)) <$> slots (pool_at 13) !! 0%nat = Some true) by (vm_compute; reflexivity).
  intros (x & j & m & h & Hx & Hj & Ho & <- & Hid & Hh & ->). rewrite Hx in H. clear Hx. injection H as H. rewrite forallb_forall in H.
  specialize (H m (proj1 (list_elem_of_In _ _) (list_elem_of_lookup_2 _ _ _ Hj))). unfold only in H. rewrite Ho in H.
  destruct (Z.eqb_spec (shared_identity m) 0); [done|]. simpl in H. apply andb_true_iff in H as [->%Z.eqb_eq Hc%Nat.eqb_eq].
  replace h with O by lia. by rewrite Z.add_0_r.
Qed.

Lemma pool_private_frame : frame_of (leaf_of (pool_at 13) 0 LINUX_MMAP_BASE) ∉ kernel_frames.
Proof.
  intros Hin%list_elem_of_In. assert (H : existsb (Z.eqb (frame_of (leaf_of (pool_at 13) 0 LINUX_MMAP_BASE))) kernel_frames = false) by (vm_compute; reflexivity).
  assert (existsb (Z.eqb (frame_of (leaf_of (pool_at 13) 0 LINUX_MMAP_BASE))) kernel_frames = true); [|congruence].
  apply existsb_exists. eexists. split; [exact Hin|]. apply Z.eqb_refl.
Qed.

Lemma pool_range_private va vb : copy_target ≤ va < vb → vb < copy_target + 4 → page_of va ≠ page_of vb →
  frame_of (leaf_of (pool_at 13) 0 va) ∉ kernel_frames ∧ ∀ id, ¬ (maps_at (pool_at 13) 0 va id ∧ maps_at (pool_at 13) 0 vb id).
Proof.
  intros Ha Hb Hne. assert (Hva : page_of va = page_of LINUX_MMAP_BASE).
  { unfold page_of, PAGE_SIZE, copy_target, LINUX_MMAP_BASE in *. Z.div_mod_to_equations. lia. }
  rewrite (leaf_of_page (pool_at 13) 0 va _ Hva). split; [exact pool_private_frame|].
  intros id [Hm%pool_shared_page _]. rewrite Hva in Hm. discriminate.
Qed.

Lemma usercopy_isolation_witness : ∃ mem', copy_to_user pool_root copy_target copy_bytes (physical (memory (pool_at 13))) = (Ok tt, mem')
  ∧ (∀ a, mem' a ≠ physical (memory (pool_at 13)) a →
       ∃ va, copy_target ≤ va < copy_target + 4 ∧ writes_at (pool_at 13) 0 va ∧ a = frame_of (leaf_of (pool_at 13) 0 va) + va mod PAGE_SIZE)
  ∧ reachable test_config (with_memory (write_back mem' (memory (pool_at 13))) (pool_at 13)).
Proof.
  destruct pool_active as (x & Hx & Hr). pose proof pool_copies as Hok.
  destruct (copy_to_user pool_root copy_target copy_bytes (physical (memory (pool_at 13)))) as [out mem'] eqn:Hc. cbn [fst] in Hok. subst out.
  exists mem'. split; [reflexivity|].
  destruct (usercopy_isolation test_config pool_pages (pool_at 13) 0 x pool_root copy_target copy_bytes (Ok tt) mem'
    (pool_reachable 13) pool_base Hx Hr copy_bytes_u8 Hc) as (H1 & _ & _ & H4).
  split; [exact H1|exact H4].
Defined.

Lemma usercopy_roundtrip_witness : ∃ mem', copy_to_user pool_root copy_target copy_bytes (physical (memory (pool_at 13))) = (Ok tt, mem')
  ∧ copy_from_user mem' pool_root copy_target [0; 0; 0; 0] = (Ok tt, copy_bytes).
Proof.
  destruct pool_active as (x & Hx & Hr). pose proof pool_copies as Hok.
  destruct (copy_to_user pool_root copy_target copy_bytes (physical (memory (pool_at 13)))) as [out mem'] eqn:Hc. cbn [fst] in Hok. subst out.
  exists mem'. split; [reflexivity|].
  exact (usercopy_roundtrip test_config pool_pages (pool_at 13) 0 x pool_root copy_target copy_bytes mem' [0; 0; 0; 0]
    (pool_reachable 13) pool_base Hx Hr pool_range_private Hc eq_refl).
Defined.

(** ** The stack that the run prepared

    The process finds its argument count, the pointers to its arguments and its
    environment, each vector with its null, and the strings. *)
Lemma prepared_stack :
  let s := pool_at 14 in
  let pointer := 0x400fc0 in
  let word := to_ne_bytes 8 in
  slots s !! 0%nat ≫= (λ x, initial_stack_pointer (process_info x)) = Some pointer
  ∧ copy_from_user (physical (memory s)) pool_root pointer (replicate 57 0)
    = (Ok tt, word 2 ++ word (pointer + 48) ++ word (pointer + 51) ++ word 0 ++ word (pointer + 53) ++ word 0
              ++ [97; 98; 0; 99; 0; 100; 61; 101; 0]).
Proof. split; vm_compute; reflexivity. Qed.
